(* ===== verification/_CoqProject ===== *)
-Q . S2P
Prelude.v
RustStr.v
Json.v
BitCodec.v
Messages.v
SessionIntegrity.v
SessionStorage.v
SessionLocking.v
SessionStore.v
SessionInvariant.v
SessionInstances.v
SessionTheorems.v
TrainingTypes.v
TrainingStore.v
TrainingInvariant.v
TrainingTheorems.v
ChatTypes.v
Fallback.v
FallbackTheorems.v
Effects.v
AtomicIo.v
Approvals.v
ApprovalTheorems.v
Rbac.v
Identity.v
TrustRoots.v
Pairing.v
PairingTheorems.v
SignedEnvelope.v
EnvelopeTheorems.v
MultiAgentRouter.v
StateDirs.v
ChannelStore.v
ChannelStoreTheorems.v
MultiChannelPolicy.v
MultiChannelRouting.v
MultiChannelMedia.v
LogRotation.v
SsrfGuard.v
MultiChannelCommands.v
MultiChannelOutbound.v
OutboundTheorems.v
MultiChannelAccess.v
MultiChannelEvents.v
MultiChannelRuntime.v
MultiChannelTheorems.v
AccessTheorems.v
SessionNavigation.v
NavigationTheorems.v
SessionCommands.v
SessionRuntimeCommands.v
SessionDepths.v
SessionCommandTheorems.v
AgentTurn.v
AgentTurnTheorems.v
Safety.v
AgentCache.v
AgentTools.v
Processes.v
AgentEnv.v
AgentState.v
AgentContext.v
AgentLoop.v
AgentFrame.v
AgentProtocol.v
AgentSends.v
AgentTheorems.v
EventScheduler.v
EventTheorems.v
BackgroundJobs.v
BackgroundJobTheorems.v
TrainingTracer.v
TrainingRunner.v
RunnerTheorems.v
Trainer.v
ToolFs.v
Tools.v
ToolTheorems.v
ToolHttp.v
ToolSessions.v
