(* ===== verification/Prelude.v ===== *)
(** * Tau: a verification development

    Tau is a runtime for agents that talk to language models.  This library
    models the parts of it that keep state and decide: the agent loop that
    prompts a model and runs its tool calls, the scanners that screen what goes in
    and out, the session store that persists conversations, the store that
    schedules training rollouts, the routing of model requests over fallback
    providers, the access control in front of tools, commands and remote
    actors, the built-in tools behind it, the runtime that answers messages of chat
    services, the scheduler of events, the runner of background jobs and the runners
    and jobs of training.  Paths below are under [src/crates/].

    ** How the parts interact

    An [Agent] ([tau-agent-core/src/lib.rs]) holds a conversation and runs turns:
    it builds a request from a bounded context, screens it ([tau-safety]), sends it
    with retries, stores the answer, executes the tool calls the answer asks for
    and records their screened results, until the answer has no calls; a branch
    call starts a worker, a fork of the agent with fewer tools.
    A conversation is a tree of messages ([tau-ai/src/types.rs]) kept by a
    [SessionStore] ([tau-session]), which takes a lock file, reads the entries
    from a JSONL, SQLite or Postgres backend, changes them and writes them back.
    A running session has an active head; its commands ([tau-session]) move it
    along the tree, record the moves in a navigation file and change the store.
    A turn asks a model through a [FallbackRoutingClient] ([tau-provider]), which
    tries routes in order and skips those whose circuit is open.  Before a tool or
    a command runs, the approval gate, the role-based policy and, for remote
    actors, the pairing policy are consulted ([tau-access]); the latter reads
    identities ([identity.rs]) and trust roots ([trust_roots.rs]).  Messages of
    remote actors may carry an envelope signed by a trusted key, accepted once
    ([signed_envelope.rs]); the lifecycle commands of training are authorised by
    the role policy ([rl_control_plane.rs]).  Training jobs
    share an [InMemoryTrainingStore] ([tau-training-store]): runners dequeue
    rollouts, report heartbeats and results, and reassign the work of workers
    that fell silent.  A [TrainingRunner] ([tau-training-runner]) executes a dequeued
    rollout, collects its spans in a tracer ([tau-training-tracer]) and reports; a
    [Trainer] ([tau-trainer]) enqueues the rollouts of a job, starts the runners and waits,
    and saves policy checkpoints.
    The built-in tools ([tau-tools]) are what the agent's tool calls run: each call
    resolves its path against the allowed roots, passes the protected paths, the role
    policy, the approval gate and a rate limiter, and then reads, writes or edits a file,
    runs a shell command in a sandbox, sends an HTTP request behind the URL guard, or
    moves the head of a session.
    The multi-channel runtime ([tau-multi-channel]) takes batches of inbound
    events from Telegram, Discord and WhatsApp.  A cycle sorts and coalesces them,
    finds a route ([multi_channel_routing.rs] over the role table of
    [tau-orchestrator/src/multi_agent_router.rs]), decides on access
    ([multi_channel_policy.rs], then the signed envelope, then the pairing rules),
    runs a [/tau] command or answers, delivers the answer over HTTP behind the URL
    guard of [tau-runtime/src/ssrf_guard.rs], writes the channel's log and context
    ([tau-runtime/src/channel_store.rs]), and remembers the keys of the events it
    handled.  The scheduler ([tau-events]) polls a directory of event definitions,
    runs those that are due through a channel store, and keeps its last runs in a
    file that webhook ingestion shares.  Background jobs
    ([tau-runtime/src/background_jobs_runtime.rs]) have manifest files and a queue that
    one worker empties; they report to channel stores and sessions.

    ** Files

    - [Prelude]: this header; results, machine integers, stable sorting, maps
      collected from lists.  [RustStr]: [str] and [Path] as the code uses them,
      on bytes (UTF-8 whitespace included), and [f64] as IEEE binary64.
      [BitCodec]: a concrete text encoding used to instantiate the interfaces.
    - [Messages]: conversation messages.  [SessionIntegrity]:
      [session_integrity.rs] (cycles, lineages, the validation report, merging of
      imported entries).  [SessionStorage]: [session_storage.rs] over a state
      [World] of files, SQLite and Postgres tables and failing paths.
      [SessionLocking]: [session_locking.rs], sequentially and as the step
      relation [lock_step] of competing processes.  [SessionStore]:
      [session_store_runtime.rs], one definition per operation.
      [SessionInvariant]: their lemmas, repair included.
      [SessionInstances]: a codec and a table that satisfy the laws below.
      [SessionTheorems]: the properties.
    - [TrainingTypes]: [tau-training-types] (lifecycle tables, payload records
      and their validation, checkpoint lineages).  [TrainingStore]:
      [tau-training-store/src/lib.rs], the state [StoreInner] and its operations.
      [TrainingInvariant]: the invariant and how statuses
      move.  [TrainingTheorems]: the properties.
    - [TrainingTracer]: [tau-training-tracer/src/lib.rs].  [TrainingRunner],
      [RunnerTheorems]: [tau-training-runner/src/lib.rs], whose store calls are the steps
      between which other workers act.  [Trainer]: [tau-trainer/src/lib.rs] and
      [checkpoint_store.rs].
    - [ChatTypes]: [tau-ai/src/provider.rs], the request and response types, and
      [retry.rs].  [Fallback]: [tau-provider/src/fallback.rs], with
      what other requests do between two awaits as part of the step.
      [FallbackTheorems]: the properties.
    - [AtomicIo]: [tau-core/src/atomic_io.rs].  [Approvals], [ApprovalTheorems]:
      [approvals.rs].  [Rbac]: [rbac.rs].  [Identity]:
      [identity.rs].  [TrustRoots]: [trust_roots.rs].  [Pairing],
      [PairingTheorems]: [pairing.rs].  [SignedEnvelope], [EnvelopeTheorems]:
      [signed_envelope.rs] and [rl_control_plane.rs].
    - [SessionNavigation], [NavigationTheorems]:
      [session_navigation_commands.rs] (history of heads, aliases, bookmarks).
      [SessionCommands], [SessionDepths]: [session_commands.rs] and
      [session_graph_commands.rs] (search, comparison, statistics, graphs).
      [SessionRuntimeCommands], [SessionCommandTheorems]:
      [session_runtime_commands.rs] and [session_runtime_helpers.rs].
    - [Json]: JSON values.  [Safety]: [tau-safety/src/lib.rs]
      (rules, scanning, redaction).
    - [AgentTurn], [AgentTurnTheorems]: [runtime_turn_loop.rs] (token estimates,
      context bounding, structured output, the stream retry buffer).
      [AgentCache]: [cache_insert_with_limit].  [AgentTools]:
      [runtime_tool_bridge.rs] and the reply directives.  [Processes]:
      [process_types.rs] and the cancellation token.
    - [Effects]: a state and error monad with its reasoning rules.  [AgentEnv]:
      configuration, events, errors and the interface to the world.
      [AgentState]: the record [Agent] and its operations outside the loop;
      [AgentContext]: cost accounting, compaction and memory recall;
      [AgentLoop]: from [complete_with_retry] to [prompt_json].  What a run does
      to the rest of the system (requests sent, events, deltas, background tasks)
      is the record [Sys] beside the agent.  [AgentFrame]: what the operations
      leave alone, and a scripted world.  [AgentProtocol],
      [AgentSends], [AgentTheorems]: the properties.
    - [MultiAgentRouter]: [multi_agent_router.rs].  [StateDirs]:
      where the components look for their files.  [ChannelStore],
      [ChannelStoreTheorems]: [channel_store.rs].  [LogRotation]:
      [tau-core/src/log_rotation.rs] and [transport_health.rs].
    - [MultiChannelPolicy]: [multi_channel_contract.rs] and
      [multi_channel_policy.rs].  [MultiChannelRouting], [MultiChannelMedia]: the
      files of these names.  [SsrfGuard]: [ssrf_guard.rs].
      [MultiChannelOutbound], [OutboundTheorems]: [multi_channel_outbound.rs].
    - [MultiChannelCommands] (the [/tau] commands), [MultiChannelAccess] (the
      access decision), [MultiChannelEvents] (coalescing, processed keys,
      telemetry, the summary) and [MultiChannelRuntime] (the state [Runtime], the
      handling of one event, retries and cycles): [multi_channel_runtime.rs] and
      the files of its directory.  [MultiChannelTheorems] (with a concrete setting) and
      [AccessTheorems]: the properties.
    - [EventScheduler] (definitions, due decisions, polls over the state
      [Scheduler], webhooks, templates, validation, simulation, the dry run),
      [EventTheorems]: [tau-events/src/lib.rs].  [BackgroundJobs] (the state
      [JobRuntime], clients, the worker, recovery; [Pool], the worker's wake-ups at the
      grain of atomic operations), [BackgroundJobTheorems]:
      [background_jobs_runtime.rs].
    - [ToolFs]: the paths and the file tree, with links, that [std::fs] shows the tools,
      and [canonicalize_best_effort].  [Tools]: the policy, the gates, the rate limiter and
      the file and shell tools ([registry_core.rs], [runtime_helpers.rs], [bash_tool.rs],
      [tools.rs] of [tau-tools]) over the state [ToolWorld].  [ToolTheorems]: their
      properties and where they fail.  [ToolHttp]: the HTTP tool.  [ToolSessions]: the
      [branch], [undo] and [redo] tools over [SessionStore] and [SessionNavigation].

    ** Interfaces to code outside the repository

    JSON ([serde_json]), SQL ([rusqlite], [postgres]), hashing and the HTTP
    clients are type classes of operations: [SessionCodec], [RowTable],
    [Providers], [ApprovalCodec], [RbacCodec], [TrustRootCodec], [PairingCodec],
    [NavigationCodec], [EnvelopeCodec], [EnvelopeCrypto] (Ed25519, SHA-256, base64),
    [TextFormat] (Unicode lowercasing, the text of an [f64]),
    [JsonCodec], [JsonSchema], [PatternEngine] (regular expressions and
    Aho-Corasick), [ChannelCodec], [RouteTableCodec], [ChannelPolicyCodec],
    [RouteBindingsCodec], [RuntimeCodec], [MediaProvider], [Network] (URLs,
    addresses, name lookup, HTTP; answers may depend on everything that happened
    before), [EventHost] (directory listings, file times), [EventCron] (cron
    expressions, time zones), [EventCodec], [WebhookMac] (HMAC), [EventRunner] (what
    runs an event), [JobCodec], [JobHost] (the environment, commands that do not start),
    [TracerHost], [RunnerHost], [RolloutExecutor] (what a rollout does), [ErrorText],
    [ToolHost] (processes, shell word splitting, extension hooks), [HttpClient]
    and [AgentEnv] (the model client, the tools, timers, the text
    embeddings of [tau-memory], background tasks).  What the code relies on is a class of laws beside each: an encoded value decodes to
    itself, the next time of a schedule is the first one later, an encoded record has no line break, a table returns its rows in id
    order, a fingerprint does not collide.  Every class of laws has an instance
    in the library.  Between components, [PairingEvaluator] is what the runtime
    asks of the pairing rules: [program_pairing] discharges it; [ToolAccess] is what the
    tools ask of access control: [standard_access], the role policy and the approval gate,
    discharges it.  Clocks, process ids and refused paths are part of the state
    an operation is given.

    ** What the theorems show

    - The agent loop: a prompt implements the conversation protocol, every tool
      call answered in order; every request it sends is within its budgets and
      cleared by the leak scanner; branching does not nest and model calls are
      attempted a bounded number of times, so prompts terminate; flagged messages
      are refused without a trace, tool output is screened before it is stored;
      scoped tools are restored; caches are bounded recency lists; contexts are
      bounded as configured; a retried stream is seen once; supervised processes
      end once.  Three counterexamples: a background summary is not scanned, a
      cancelled run leaves calls unanswered, a cancellation can be missed by a
      waiter.
    - Safety scanning: redaction hides exactly the bytes of the reported matches,
      and literal rules are not evaded by letter case.
    - Sessions: reachable stores hold valid sessions that agree with the
      backend; a failed operation changes nothing; append, merge, repair and
      compaction do to lineages what they are meant to; backends return what was
      written; the lock excludes other processes as long as no lock is reclaimed
      as stale, and not otherwise; an import can produce a duplicate id.
    - Session commands: navigation is a bounded history of heads; any sequence of
      commands keeps the session valid and the head on an entry, as long as the
      navigation is recorded (a counterexample otherwise); depths, searches and
      comparisons are exact in any iteration order of the maps.
    - Training: at most one running attempt per rollout and one queue entry per
      waiting rollout in every reachable state; waiting work is served, overdue
      work is reassigned, finished statuses are final; checkpoint lineages and
      bundle validation are exact.
    - Training runs: however runners interleave, an attempt is decided once and a poll
      that finds work completes it; a flush hands over every span once; the hard gate
      leaves no positive reward; the summary of a job counts every rollout; a saved
      checkpoint is loaded back.  Counterexamples: a failed flush strands a rollout, a
      cancelled rollout stops the runners, a failed rename loses the checkpoint, another
      version is accepted.
    - Tools: reads, writes and edits stay inside the allowed roots, links followed, and
      keep protected files; whatever acts has the consent of role policy, approvals and
      rate limiter; under a strict policy each action spends an approval of exactly this
      action; a shell command runs only as screened, with a sandbox where one is required
      and the safe environment; the rate limit bounds actions in any mix of calls; an
      edit replaces exactly the matches; HTTP requests go where the guard allowed and
      their answers are bounded; a branch extends one conversation and undo and redo
      are inverse.  Counterexamples: [..] in a missing part of a path and a link that
      leads nowhere take a write out of the roots, only the first word of a command is
      looked up, approval rules see the spelling of a path, a throttled call has spent its
      approval, a redirect takes credentials along.
    - Providers: a request gets the first decisive answer of a route that is not
      skipped; a circuit opens exactly at its threshold, under interleaving;
      retry delays are bounded; model references parse back.
    - Access: an approval is spent once, by the action it was given for; request
      lifecycles are final; role decisions are allow-without-deny, malformed
      policies decide nothing; pairing decisions are exactly the rules that cover
      the channel and carry a name of the actor; identities are canonical; key
      edits do exactly what they say; a signed envelope is allowed exactly by a
      trusted key over the received message, and accepted once within the replay
      window (which by default is shorter than the time it is acceptable).
    - Routing and channels: routes try the trusted roles first and name only roles
      of the table; a channel store changes nothing outside its directory, and a
      purge keeps what has not expired; a rotated log shifts its generations.
    - The multi-channel runtime: coalescing cuts the queue into runs and loses
      nothing; an event is let in exactly by policy, envelope and pairing, and
      operator commands run for actors of the allowlist only; a denied event has no
      effect but log records; every request of a cycle goes where the guard
      allowed; processed keys stay distinct and bounded; events are handled once; no
      failure stops a cycle and its summary adds up; chunks are the text.
      Counterexamples: mapped addresses pass the guard, a redirect takes the token
      along, a seen message is handled again in a batch, batches break
      signatures, and a signed message that failed once is lost.
    - Events: the dry run announces exactly what the next poll queues; a poll is
      bounded, accounts for every event and saves a state that resumes; a periodic
      event is due exactly when an occurrence followed its last run; a signed
      webhook is taken once within the window.  Counterexamples: an invalid
      schedule blocks every poll, a poll forgets what webhooks recorded, an
      unsigned timestamp makes a replay, the dry run ignores the age of files.
    - Background jobs: a finished job stays as it is in any interleaving at the
      worker's awaits; no wake-up is lost and one worker is active at most; a run ends
      within its timeout; a restart queues exactly the unfinished jobs.
      Counterexamples: on two threads a cancelled job can succeed, a start that cannot
      be logged leaves a job running, ids lead out of the directory, a trace hides the
      conversation of its session.

    ** Bounds and fuel

    64-bit counters are [N] with wrap-around ([add_u64]) or saturation written
    out; theorems that need room state it.  Loops of the code that are not
    structural take fuel, and each theorem about them is on the fuel the
    definition itself supplies: parent walks take one more than the number of
    entries, and a walk that is longer has repeated an entry; pruning takes one
    more than the number of entries, since each round removes one; the lock loop
    takes [timeout / 50 + 4] attempts, since each sleeps 50 ms
    ([acquire_lock_terminates]); checkpoint walks take two more than the number of records;
    depths take one more than the number of entries, since each
    call visits a new one; trimming and splitting take the length of the text.  In the agent, retries,
    turns and replans recurse on their configured bounds, chunks on the number of
    calls, and the searches for fences and literals on the length of the text,
    since each round advances.  The rounds over a child process are a list of what each
    one finds, and [job_run_ends] shows how many are enough.  Redirects and delivery attempts recurse on what is
    left of their configured bounds; the redirects of the HTTP tool take its bound as fuel,
    and [http_answer_bounded] shows that it does not run out.  A lookup follows at most 40
    links, as the kernel does; cutting a text at the matches of a pattern takes its length.
    The rounds of waiting for a job are the readings of the clock it gets, and
    [waiting_ends] shows how many are enough.

    ** Not modelled

    Network clients and servers, subprocesses, terminal and web rendering, JSON,
    SQL and regular expressions themselves, numeric training code.  Of the agent:
    [run_parallel_prompts], the worker threads of asynchronous event handlers and
    the cortex; the tools of a chunk run in the order they are awaited.
    Approval listings are modelled up to their rendering.  The process-wide
    mutexes of the access stores make an operation one step; concurrent
    processes are modelled for the session lock only.  Of the multi-channel
    runtime: the polling connectors, the parsing of provider payloads and the
    runners that print summaries; its clock moves only while it sleeps.  Of the
    scheduler: the loop that sleeps between polls.  Of background jobs: what a child
    process does to files.

    Of training: the SQLite store, the proxy, the algorithms and the benchmark artifacts.
    Of the tools: the memory, session list, job and builder tools, the reading of the
    policy from the command line and the MCP server; a tool call reads the clock once, and
    the files of the state directory that access control reads are apart from the tree the
    tools change.  Memory, skills, gateway, orchestrator plans, credentials, dashboards and
    the command line are not modelled.

    ** Plan

    The development covers the components that keep state and decide access.  What would
    come next is the normalisation of provider payloads
    ([multi_channel_live_ingress.rs]), the SQLite training store as a second refinement of
    the store's contract, and the memory store with its search. *)

From stdpp Require Import base gmap sets list strings sorting relations.
From Stdlib Require Import NArith Lia.

Set Default Proof Using "Type".

Create HintDb session discriminated.

(** ** Results: [anyhow::Result] and [Result<T, E>] *)

Inductive Result (E A : Type) : Type :=
| Ok (a : A)
| Err (e : E).
Arguments Ok {E A} a.
Arguments Err {E A} e.

#[export] Instance result_ret {E} : MRet (Result E) := λ A a, Ok a.
#[export] Instance result_bind {E} : MBind (Result E) := λ A B f r,
  match r with Ok a => f a | Err e => Err e end.
#[export] Instance result_fmap {E} : FMap (Result E) := λ A B f r,
  match r with Ok a => Ok (f a) | Err e => Err e end.

(** [Result::map], for use under another functor. *)
Definition result_map {E A B} (f : A → B) (r : Result E A) : Result E B := f <$> r.

#[export] Instance result_eq_dec {E A} `{EqDecision E, EqDecision A} :
  EqDecision (Result E A).
Proof. solve_decision. Defined.

(** [Option::ok_or_else]. *)
Definition ok_or {E A} (e : E) (o : option A) : Result E A :=
  match o with Some a => Ok a | None => Err e end.

(** An early [bail!(e)] guarded by a condition. *)
Definition bail_if {E} (b : bool) (e : E) : Result E unit :=
  if b then Err e else Ok tt.

Definition is_ok {E A} (r : Result E A) : bool :=
  match r with Ok _ => true | Err _ => false end.

Lemma bind_Ok {E A B} (r : Result E A) (f : A → Result E B) b :
  r ≫= f = Ok b ↔ ∃ a, r = Ok a ∧ f a = Ok b.
Proof. destruct r; cbn; naive_solver. Qed.

Lemma ok_or_Ok {E A} (e : E) (o : option A) a :
  ok_or e o = Ok a ↔ o = Some a.
Proof. destruct o; cbn; naive_solver. Qed.

Lemma bail_if_Ok {E} b (e : E) u : bail_if b e = Ok u ↔ b = false.
Proof. destruct b, u; cbn; naive_solver. Qed.

(** A sequence of checks succeeds iff each of them does. *)
Lemma check_Ok {E B} (r : Result E unit) (k : Result E B) b :
  (_ ← r; k) = Ok b ↔ r = Ok tt ∧ k = Ok b.
Proof. destruct r as [[]|]; cbn; naive_solver. Qed.

(** ** Machine integers: [u64] as [N], with wrap-around written out *)

Definition u64_max : N := 18446744073709551615.
Definition u64_mod : N := 18446744073709551616.

Definition in_u64 (n : N) : Prop := (n ≤ u64_max)%N.
Definition wrap_u64 (n : N) : N := (n mod u64_mod)%N.
Definition add_u64 (a b : N) : N := wrap_u64 (a + b).
Definition saturating_add_u64 (a b : N) : N := N.min (a + b) u64_max.
Definition saturating_mul_u64 (a b : N) : N := N.min (a * b) u64_max.
(** [N.sub] is truncated at zero, which is [u64::saturating_sub]. *)
Definition saturating_sub_u64 (a b : N) : N := (a - b)%N.

Lemma wrap_u64_small n : in_u64 n → wrap_u64 n = n.
Proof. unfold in_u64, wrap_u64, u64_max, u64_mod. intros. apply N.mod_small. lia. Qed.

Lemma wrap_u64_in n : in_u64 (wrap_u64 n).
Proof.
  unfold in_u64, wrap_u64, u64_max, u64_mod.
  pose proof (N.mod_upper_bound n 18446744073709551616). lia.
Qed.

Lemma add_u64_small a b : in_u64 (a + b) → add_u64 a b = (a + b)%N.
Proof. apply wrap_u64_small. Qed.

Lemma saturating_add_u64_in a b : in_u64 (saturating_add_u64 a b).
Proof. unfold in_u64, saturating_add_u64. lia. Qed.

Lemma saturating_add_u64_mono a b : in_u64 a → (a ≤ saturating_add_u64 a b)%N.
Proof. unfold in_u64, saturating_add_u64. lia. Qed.

(** [u32], used for small counters. *)
Definition u32_mod : N := 4294967296.
Definition u32_max : N := 4294967295.
Definition saturating_add_u32 (a b : N) : N := N.min (a + b) u32_max.
Definition saturating_mul_u32 (a b : N) : N := N.min (a * b) u32_max.
Definition wrap_u32 (n : N) : N := (n mod u32_mod)%N.
Definition add_u32 (a b : N) : N := wrap_u32 (a + b).

Lemma add_u32_small a b : (a + b < u32_mod)%N → add_u32 a b = (a + b)%N.
Proof. apply N.mod_small. Qed.

(** [iter().max().unwrap_or(0)] over [u64]s. *)
Definition max_or_zero (l : list N) : N := foldr N.max 0%N l.

Lemma max_or_zero_ge l x : x ∈ l → (x ≤ max_or_zero l)%N.
Proof. unfold max_or_zero. induction 1; cbn; lia. Qed.

Lemma max_or_zero_app l k : max_or_zero (l ++ k) = N.max (max_or_zero l) (max_or_zero k).
Proof. unfold max_or_zero. induction l as [|x l IH]; cbn; lia. Qed.

Lemma max_or_zero_le l b : (∀ x, x ∈ l → (x ≤ b)%N) → (max_or_zero l ≤ b)%N.
Proof.
  induction l as [|x l IH]; cbn; intros H; [lia|].
  pose proof (H x ltac:(left)).
  assert (max_or_zero l ≤ b)%N by (apply IH; intros; apply H; by right).
  unfold max_or_zero in *. lia.
Qed.

(** ** Stable sorting: [slice::sort_by_key] *)

Section sort_by_key.
Context {A : Type} (key : A → N).

Fixpoint insert_by_key (x : A) (l : list A) : list A :=
  match l with
  | [] => [x]
  | y :: l' => if (key x <=? key y)%N then x :: y :: l' else y :: insert_by_key x l'
  end.

Definition sort_by_key (l : list A) : list A := foldr insert_by_key [] l.

Definition key_le (x y : A) : Prop := (key x ≤ key y)%N.
Definition key_lt (x y : A) : Prop := (key x < key y)%N.

Lemma insert_by_key_perm x l : insert_by_key x l ≡ₚ x :: l.
Proof.
  induction l as [|y l IH]; cbn; [done|].
  case_match; [done|]. rewrite IH. constructor.
Qed.

Lemma sort_by_key_perm l : sort_by_key l ≡ₚ l.
Proof.
  induction l as [|x l IH]; cbn; [done|].
  by rewrite insert_by_key_perm, IH.
Qed.

Lemma insert_by_key_sorted x l :
  StronglySorted key_le l → StronglySorted key_le (insert_by_key x l).
Proof.
  induction 1 as [|y l Hs IH Hall]; cbn; [repeat constructor|].
  destruct (N.leb_spec (key x) (key y)) as [Hle|Hlt].
  - constructor; [by constructor|]. constructor; [done|].
    eapply Forall_impl; [done|]. unfold key_le. intros; lia.
  - constructor; [done|]. rewrite insert_by_key_perm.
    constructor; [unfold key_le; lia|done].
Qed.

Lemma sort_by_key_sorted l : StronglySorted key_le (sort_by_key l).
Proof. induction l; cbn; [constructor|by apply insert_by_key_sorted]. Qed.

(** Sorting an already sorted list changes nothing. *)
Lemma sort_by_key_id l : StronglySorted key_le l → sort_by_key l = l.
Proof.
  induction 1 as [|x l Hs IH Hall]; [done|].
  change (insert_by_key x (sort_by_key l) = x :: l). rewrite IH.
  destruct l as [|y l]; cbn; [done|].
  apply Forall_cons in Hall as [Hxy _]. unfold key_le in Hxy.
  by rewrite (proj2 (N.leb_le _ _) Hxy).
Qed.

Lemma sort_by_key_idemp l : sort_by_key (sort_by_key l) = sort_by_key l.
Proof. apply sort_by_key_id, sort_by_key_sorted. Qed.

(** Stability: elements with equal keys keep their order. *)
Lemma insert_by_key_stable (k : N) x l :
  filter (λ y, key y = k) (insert_by_key x l) = filter (λ y, key y = k) (x :: l).
Proof.
  induction l as [|y l IH]; cbn [insert_by_key]; [done|].
  destruct (N.leb_spec (key x) (key y)); [done|].
  rewrite filter_cons, IH, !filter_cons.
  repeat case_decide; try done. lia.
Qed.

Lemma sort_by_key_stable (k : N) l :
  filter (λ y, key y = k) (sort_by_key l) = filter (λ y, key y = k) l.
Proof.
  induction l as [|x l IH]; cbn [sort_by_key foldr]; [done|].
  fold (sort_by_key l). rewrite insert_by_key_stable, !filter_cons, IH. done.
Qed.

Lemma sorted_NoDup_lt l :
  StronglySorted key_le l → NoDup (key <$> l) → StronglySorted key_lt l.
Proof.
  induction 1 as [|x l Hs IH Hall]; cbn; [constructor|].
  intros [Hni Hnd]%NoDup_cons. constructor; [auto|].
  apply Forall_forall. intros y Hy. rewrite Forall_forall in Hall.
  specialize (Hall y Hy). unfold key_le, key_lt in *.
  assert (key x ≠ key y) by (intros Heq; apply Hni; rewrite Heq; by apply list_elem_of_fmap_2).
  lia.
Qed.

Lemma sorted_lt_NoDup l : StronglySorted key_lt l → NoDup (key <$> l).
Proof.
  induction 1 as [|x l Hs IH Hall]; cbn; [constructor|].
  constructor; [|done]. intros (y & Heq & Hy)%list_elem_of_fmap.
  rewrite Forall_forall in Hall. specialize (Hall y Hy). unfold key_lt in Hall. lia.
Qed.

Lemma sorted_lt_le l : StronglySorted key_lt l → StronglySorted key_le l.
Proof.
  induction 1; constructor; [done|]. eapply Forall_impl; [done|].
  unfold key_le, key_lt. intros; lia.
Qed.

(** Two strictly sorted lists with the same elements are equal. *)
Lemma sorted_lt_perm_eq l k :
  StronglySorted key_lt l → StronglySorted key_lt k → l ≡ₚ k → l = k.
Proof.
  intros Hl. revert k. induction Hl as [|x l Hs IH Hall]; intros k Hk Hp.
  - by apply Permutation_nil_l in Hp.
  - destruct Hk as [|y k Hk Hally]; [by apply Permutation_nil_r in Hp|].
    assert (x = y) as ->.
    { assert (x ∈ y :: k) as Hx by (rewrite <- Hp; left).
      assert (y ∈ x :: l) as Hy by (rewrite Hp; left).
      apply elem_of_cons in Hx as [->|Hx]; [done|].
      apply elem_of_cons in Hy as [->|Hy]; [done|].
      rewrite Forall_forall in Hall, Hally.
      specialize (Hall y Hy). specialize (Hally x Hx). unfold key_lt in *. lia. }
    f_equal. apply IH; [done|]. by apply Permutation_cons_inv in Hp.
Qed.
End sort_by_key.

Lemma list_filter_perm {A} (f : A → bool) l k : l ≡ₚ k → List.filter f l ≡ₚ List.filter f k.
Proof.
  induction 1 as [|x l k _ IH|x y l|l k m _ IH1 _ IH2]; cbn; [done| | |by etrans].
  - destruct (f x); by rewrite IH.
  - destruct (f x), (f y); try done. apply Permutation_swap.
Qed.

#[export] Instance list_filter_Permutation {A} (f : A → bool) :
  Proper ((≡ₚ) ==> (≡ₚ)) (List.filter f).
Proof. intros l k. apply list_filter_perm. Qed.

(** ** Sorting by an order: [slice::sort_by], stable *)

Fixpoint insert_by {A} (le : A → A → bool) (x : A) (l : list A) : list A :=
  match l with
  | [] => [x]
  | y :: l' => if le x y then x :: y :: l' else y :: insert_by le x l'
  end.
Definition sort_by {A} (le : A → A → bool) (l : list A) : list A := foldr (insert_by le) [] l.

Lemma insert_by_perm {A} (le : A → A → bool) x l : insert_by le x l ≡ₚ x :: l.
Proof.
  induction l as [|y l IH]; cbn; [done|]. case_match; [done|]. rewrite IH. apply Permutation_swap.
Qed.

Lemma sort_by_perm {A} (le : A → A → bool) l : sort_by le l ≡ₚ l.
Proof. induction l as [|x l IH]; cbn; [done|]. by rewrite insert_by_perm, IH. Qed.

Lemma insert_by_sorted {A} (le : A → A → bool) x l :
  (∀ a b, le a b = false → le b a = true) →
  (∀ a b c, le a b = true → le b c = true → le a c = true) →
  StronglySorted (λ a b, le a b = true) l →
  StronglySorted (λ a b, le a b = true) (insert_by le x l).
Proof.
  intros Htot Htr. induction 1 as [|y l Hs IH Hall]; cbn; [repeat constructor|].
  destruct (le x y) eqn:Hle.
  - constructor; [by constructor|]. constructor; [done|].
    eapply Forall_impl; [exact Hall|]. cbn. eauto.
  - constructor; [done|]. rewrite insert_by_perm. constructor; [auto|done].
Qed.

Lemma sort_by_sorted {A} (le : A → A → bool) l :
  (∀ a b, le a b = false → le b a = true) →
  (∀ a b c, le a b = true → le b c = true → le a c = true) →
  StronglySorted (λ a b, le a b = true) (sort_by le l).
Proof.
  intros. induction l as [|x l IH]; cbn; [constructor|]. by apply insert_by_sorted.
Qed.

(** ** Collecting into hash maps *)

(** [iter().map(|x| (key(x), x)).collect::<HashMap<_, _>>()]: later entries
    overwrite earlier ones. *)
Definition collect_map {A} (key : A → N) (l : list A) : gmap N A :=
  foldl (λ m x, <[key x := x]> m) ∅ l.

Section collect_map.
Context {A : Type} (key : A → N).

Lemma collect_map_nil : collect_map key [] = ∅.
Proof. done. Qed.

Lemma collect_map_snoc l x : collect_map key (l ++ [x]) = <[key x := x]> (collect_map key l).
Proof. unfold collect_map. by rewrite foldl_app. Qed.

Lemma collect_map_key l i x : collect_map key l !! i = Some x → x ∈ l ∧ key x = i.
Proof.
  induction l as [|y l IH] using rev_ind; [by rewrite collect_map_nil, lookup_empty|].
  rewrite collect_map_snoc, lookup_insert_Some, elem_of_app, list_elem_of_singleton.
  naive_solver.
Qed.

Lemma collect_map_is_Some l i : is_Some (collect_map key l !! i) ↔ i ∈ key <$> l.
Proof.
  induction l as [|y l IH] using rev_ind.
  - rewrite collect_map_nil, lookup_empty. split; [intros []; done|by intros ?%elem_of_nil].
  - rewrite collect_map_snoc, lookup_insert_is_Some', fmap_app, elem_of_app, IH.
    cbn. rewrite list_elem_of_singleton. naive_solver.
Qed.

Lemma collect_map_None l i : collect_map key l !! i = None ↔ i ∉ key <$> l.
Proof. by rewrite <- collect_map_is_Some, <- eq_None_not_Some. Qed.

Lemma collect_map_NoDup l i x :
  NoDup (key <$> l) → collect_map key l !! i = Some x ↔ x ∈ l ∧ key x = i.
Proof.
  intros Hnd. split; [apply collect_map_key|]. intros [Hx <-].
  assert (is_Some (collect_map key l !! key x)) as [y Hy]
    by (apply collect_map_is_Some; by apply list_elem_of_fmap_2).
  rewrite Hy. f_equal. apply collect_map_key in Hy as [Hy Hk].
  revert Hnd Hx Hy Hk. clear. induction l as [|z l IH]; [by intros _ ?%elem_of_nil|].
  rewrite fmap_cons. intros [Hni Hnd]%NoDup_cons Hx Hy Hk.
  apply elem_of_cons in Hx as [->|Hx], Hy as [->|Hy]; try done; [| |by auto];
    exfalso; apply Hni; [rewrite <- Hk|rewrite Hk]; by apply list_elem_of_fmap_2.
Qed.

Lemma collect_map_size l : size (collect_map key l) ≤ length l.
Proof.
  induction l as [|y l IH] using rev_ind; [by rewrite collect_map_nil, map_size_empty|].
  rewrite collect_map_snoc, length_app. cbn.
  destruct (collect_map key l !! key y) eqn:E.
  - rewrite map_size_insert_Some by done. lia.
  - rewrite map_size_insert_None by done. lia.
Qed.
End collect_map.

(** ** Lists *)

Lemma filter_nil_iff {A} (f : A → bool) (l : list A) :
  length (List.filter f l) = 0 ↔ ∀ x, x ∈ l → f x = false.
Proof.
  induction l as [|x l IH]; cbn.
  - split; [|done]. by intros _ x ?%elem_of_nil.
  - setoid_rewrite elem_of_cons. destruct (f x) eqn:E; cbn; [|rewrite IH; naive_solver].
    split; [done|]. intros H. rewrite (H x) in E by auto. done.
Qed.
