(* ===== verification/RustStr.v ===== *)
(** * Rust strings

    The operations of [str] and [String] that the modelled code uses, on
    [String.string] read as the UTF-8 bytes of the Rust value.  [trim] and
    [split_whitespace] strip the characters with the Unicode [White_Space]
    property, written out as their UTF-8 encodings; [chars] counts the bytes
    that are not UTF-8 continuation bytes; the [ascii] operations leave every
    byte from 128 on alone. *)

From Stdlib.Floats Require Import SpecFloat.
From Stdlib Require Import Ascii String NArith Lia.
From stdpp Require Import base sets strings pretty numbers list.
From S2P Require Import Prelude.

#[local] Open Scope string_scope.
#[local] Open Scope list_scope.
#[local] Open Scope nat_scope.

Abbreviation chars_of := list_ascii_of_string.
Abbreviation of_chars := string_of_list_ascii.

(** ** Bytes and ASCII classes *)

Definition byte_in (lo hi : N) (c : ascii) : bool :=
  let n := N_of_ascii c in ((lo <=? n) && (n <=? hi))%N.

Definition is_ascii_uppercase (c : ascii) : bool := byte_in 65 90 c.
Definition is_ascii_lowercase (c : ascii) : bool := byte_in 97 122 c.
Definition is_ascii_alphabetic (c : ascii) : bool :=
  is_ascii_uppercase c || is_ascii_lowercase c.
Definition is_ascii_digit (c : ascii) : bool := byte_in 48 57 c.
Definition is_ascii_alphanumeric (c : ascii) : bool :=
  is_ascii_alphabetic c || is_ascii_digit c.

Definition ascii_lower (c : ascii) : ascii :=
  if is_ascii_uppercase c then ascii_of_N (N_of_ascii c + 32) else c.

(** [str::to_ascii_lowercase] *)
Definition to_ascii_lowercase (s : string) : string :=
  of_chars (ascii_lower <$> chars_of s).

(** [str::eq_ignore_ascii_case] *)
Definition eq_ignore_ascii_case (a b : string) : bool :=
  String.eqb (to_ascii_lowercase a) (to_ascii_lowercase b).

(** ** Whitespace *)

(** The UTF-8 encodings of the characters with property [White_Space]. *)
Definition whitespace_encodings : list (list N) :=
  [[9]; [10]; [11]; [12]; [13]; [32];
   [194; 133]; [194; 160]; [225; 154; 128];
   [226; 128; 128]; [226; 128; 129]; [226; 128; 130]; [226; 128; 131];
   [226; 128; 132]; [226; 128; 133]; [226; 128; 134]; [226; 128; 135];
   [226; 128; 136]; [226; 128; 137]; [226; 128; 138]; [226; 128; 168];
   [226; 128; 169]; [226; 128; 175]; [226; 129; 159]; [227; 128; 128]]%N.

Fixpoint strip_bytes (pat : list N) (l : list ascii) : option (list ascii) :=
  match pat, l with
  | [], _ => Some l
  | n :: pat', c :: l' => if (N_of_ascii c =? n)%N then strip_bytes pat' l' else None
  | _ :: _, [] => None
  end.

Fixpoint first_strip (pats : list (list N)) (l : list ascii) : option (list ascii) :=
  match pats with
  | [] => None
  | p :: ps => match strip_bytes p l with Some r => Some r | None => first_strip ps l end
  end.

(** One whitespace character at the front, or (reversed encodings) at the end. *)
Definition strip_ws_front : list ascii → option (list ascii) :=
  first_strip whitespace_encodings.
Definition strip_ws_back : list ascii → option (list ascii) :=
  first_strip (reverse (A:=N) <$> whitespace_encodings).

Fixpoint drop_ws (strip : list ascii → option (list ascii)) (fuel : nat) (l : list ascii)
    : list ascii :=
  match fuel with
  | O => l
  | S f => match strip l with Some l' => drop_ws strip f l' | None => l end
  end.

Definition trim_start_chars (l : list ascii) : list ascii :=
  drop_ws strip_ws_front (length l) l.
Definition trim_end_chars (l : list ascii) : list ascii :=
  reverse (drop_ws strip_ws_back (length l) (reverse l)).

(** [str::trim] *)
Definition trim (s : string) : string :=
  of_chars (trim_end_chars (trim_start_chars (chars_of s))).

(** [str::trim_start] *)
Definition trim_start (s : string) : string := of_chars (trim_start_chars (chars_of s)).

Definition is_empty (s : string) : bool := String.eqb s "".

(** [str::split_whitespace]: maximal runs of non-whitespace. *)
Fixpoint split_ws_loop (fuel : nat) (cur : list ascii) (l : list ascii) : list (list ascii) :=
  let flush := match cur with [] => [] | _ => [reverse cur] end in
  match fuel with
  | O => flush
  | S f =>
      match l with
      | [] => flush
      | c :: l' =>
          match strip_ws_front l with
          | Some r => flush ++ split_ws_loop f [] r
          | None => split_ws_loop f (c :: cur) l'
          end
      end
  end.
Definition split_whitespace (s : string) : list string :=
  of_chars <$> split_ws_loop (S (length (chars_of s))) [] (chars_of s).

(** ** Characters *)

Definition is_char_start (c : ascii) : bool := negb (byte_in 128 191 c).

(** [s.chars().count()] *)
Definition chars_count (s : string) : nat :=
  length (List.filter is_char_start (chars_of s)).

(** Whether bytes are well-formed UTF-8 ([str::from_utf8]). *)
Fixpoint utf8_bytes (l : list ascii) : bool :=
  let tail := byte_in 128 191 in
  match l with
  | [] => true
  | a :: r =>
      if byte_in 0 127 a then utf8_bytes r
      else match r with
      | [] => false
      | b :: r =>
          if byte_in 194 223 a then tail b && utf8_bytes r
          else match r with
          | [] => false
          | c :: r =>
              if byte_in 224 224 a then byte_in 160 191 b && tail c && utf8_bytes r
              else if byte_in 237 237 a then byte_in 128 159 b && tail c && utf8_bytes r
              else if byte_in 225 239 a then tail b && tail c && utf8_bytes r
              else match r with
              | [] => false
              | d :: r =>
                  (if byte_in 240 240 a then byte_in 144 191 b
                   else if byte_in 241 243 a then tail b
                   else byte_in 244 244 a && byte_in 128 143 b)
                  && tail c && tail d && utf8_bytes r
              end
          end
      end
  end.
Definition is_utf8 (s : string) : bool := utf8_bytes (chars_of s).

Fixpoint take_chars_list (n : nat) (l : list ascii) : list ascii :=
  match l with
  | [] => []
  | c :: l' =>
      if is_char_start c then
        match n with O => [] | S n' => c :: take_chars_list n' l' end
      else c :: take_chars_list n l'
  end.
(** [s.chars().take(n).collect::<String>()] *)
Definition take_chars (n : nat) (s : string) : string :=
  of_chars (take_chars_list n (chars_of s)).

(** [s.replace(from, to)] for single ASCII characters *)
Definition replace_char (from to : ascii) (s : string) : string :=
  of_chars ((λ c, if Ascii.eqb c from then to else c) <$> chars_of s).

Definition newline_char : ascii := "010"%char.
Definition space_char : ascii := " "%char.
Definition newline : string := of_chars [newline_char].

(** ** Joining, prefixes, numbers *)

Fixpoint join (sep : string) (l : list string) : string :=
  match l with
  | [] => ""
  | [s] => s
  | s :: l' => s +:+ sep +:+ join sep l'
  end.

Fixpoint strip_prefix_chars (p l : list ascii) : option (list ascii) :=
  match p, l with
  | [], _ => Some l
  | a :: p', c :: l' => if Ascii.eqb a c then strip_prefix_chars p' l' else None
  | _ :: _, [] => None
  end.
(** [str::strip_prefix] *)
Definition strip_prefix (p s : string) : option string :=
  of_chars <$> strip_prefix_chars (chars_of p) (chars_of s).
Definition starts_with (p s : string) : bool :=
  match strip_prefix p s with Some _ => true | None => false end.
(** [str::find] with a text pattern: the byte offset of its first occurrence. *)
Fixpoint find_chars (pat l : list ascii) : option nat :=
  match strip_prefix_chars pat l with
  | Some _ => Some 0
  | None => match l with [] => None | _ :: l' => S <$> find_chars pat l' end
  end.
Definition str_find (pat s : string) : option nat := find_chars (chars_of pat) (chars_of s).
(** [s.contains(pat)] *)
Definition str_contains (pat s : string) : bool :=
  match str_find pat s with Some _ => true | None => false end.

(** [str::strip_suffix] *)
Definition strip_suffix (p s : string) : option string :=
  (λ l, of_chars (reverse l)) <$> strip_prefix_chars (reverse (chars_of p)) (reverse (chars_of s)).
Definition ends_with (p s : string) : bool :=
  match strip_suffix p s with Some _ => true | None => false end.

(** [format!("{}", n)] for an unsigned integer *)
Definition show_u64 (n : N) : string := pretty n.
Definition show_usize (n : nat) : string := pretty n.
(** The text of an [i64]. *)
Definition show_i64 (z : Z) : string :=
  if (z <? 0)%Z then "-" +:+ show_u64 (Z.to_N (- z)) else show_u64 (Z.to_N z).

(** [str::parse::<u64>]: an optional [+], then at least one digit, in range. *)
Fixpoint parse_digits (acc : N) (l : list ascii) : option N :=
  match l with
  | [] => Some acc
  | c :: l' =>
      if is_ascii_digit c then
        let acc' := (acc * 10 + (N_of_ascii c - 48))%N in
        if (acc' <=? u64_max)%N then parse_digits acc' l' else None
      else None
  end.
Definition parse_u64 (s : string) : option N :=
  match chars_of s with
  | [] => None
  | c :: l =>
      if Ascii.eqb c "+" then match l with [] => None | _ => parse_digits 0 l end
      else parse_digits 0 (c :: l)
  end.

(** ** Lines *)

Definition carriage_return : ascii := "013"%char.

(** Split on a byte; the pieces between separators, at least one. *)
Fixpoint split_byte (sep : ascii) (cur : list ascii) (l : list ascii) : list (list ascii) :=
  match l with
  | [] => [reverse cur]
  | c :: l' =>
      if Ascii.eqb c sep then reverse cur :: split_byte sep [] l'
      else split_byte sep (c :: cur) l'
  end.

(** [s.split(c)] *)
Definition split_on (sep : ascii) (s : string) : list string :=
  of_chars <$> split_byte sep [] (chars_of s).

(** [str::split_once] on a character: at its first occurrence. *)
Fixpoint split_once_chars (sep : ascii) (l : list ascii) : option (list ascii * list ascii) :=
  match l with
  | [] => None
  | c :: l' =>
      if Ascii.eqb c sep then Some ([], l')
      else prod_map (cons c) id <$> split_once_chars sep l'
  end.

Definition split_once (sep : ascii) (s : string) : option (string * string) :=
  prod_map of_chars of_chars <$> split_once_chars sep (chars_of s).

Definition strip_cr (l : list ascii) : list ascii :=
  match reverse l with
  | c :: r => if Ascii.eqb c carriage_return then reverse r else l
  | [] => l
  end.

(** Drop the empty piece after a final newline. *)
Fixpoint drop_last_empty (ls : list (list ascii)) : list (list ascii) :=
  match ls with
  | [] => []
  | [[]] => []
  | l :: ls' => l :: drop_last_empty ls'
  end.

(** [BufRead::lines] on a whole file *)
Definition lines (s : string) : list string :=
  (λ l, of_chars (strip_cr l)) <$> drop_last_empty (split_byte newline_char [] (chars_of s)).

(** [writeln!(file, "{line}")] for each line *)
Fixpoint unlines (ls : list string) : string :=
  match ls with
  | [] => ""
  | l :: ls' => l +:+ newline +:+ unlines ls'
  end.

(** ** Paths: [std::path::Path] on Unix *)

Definition slash : ascii := "/"%char.
Definition dot : ascii := "."%char.

(** The components, without empty and [.] ones. *)
Definition path_components (p : string) : list string :=
  List.filter (λ c, negb (String.eqb c "" || String.eqb c ".")) (split_on slash p).

(** [Path::file_name] *)
Definition file_name (p : string) : option string :=
  match last (path_components p) with
  | Some c => if String.eqb c ".." then None else Some c
  | None => None
  end.

(** Split a file name at its last dot: stem and extension. *)
Definition split_extension (name : list ascii) : list ascii * option (list ascii) :=
  let fix go (ext rest : list ascii) : option (list ascii * list ascii) :=
    match rest with
    | [] => None
    | c :: rest' => if Ascii.eqb c dot then Some (reverse rest', ext) else go (c :: ext) rest'
    end in
  match go [] (reverse name) with
  | Some (stem, ext) => match stem with [] => (name, None) | _ => (stem, Some ext) end
  | None => (name, None)
  end.

(** [Path::extension] *)
Definition path_extension (p : string) : option string :=
  n ← file_name p; of_chars <$> snd (split_extension (chars_of n)).

(** The directory part of a reversed path, up to and including the last slash. *)
Fixpoint rev_dir (r : list ascii) : list ascii :=
  match r with
  | [] => []
  | c :: r' => if Ascii.eqb c slash then r else rev_dir r'
  end.

(** [Path::with_file_name]: replace the final component. *)
Definition with_file_name (p name : string) : string :=
  of_chars (reverse (rev_dir (reverse (chars_of p))) ++ chars_of name).

(** [Path::with_extension] *)
Definition with_extension (p ext : string) : string :=
  match file_name p with
  | None => p
  | Some n =>
      let stem := of_chars (fst (split_extension (chars_of n))) in
      with_file_name p (if String.eqb ext "" then stem else stem +:+ "." +:+ ext)
  end.

Example trim_example : trim "  a b 	" = "a b".
Proof. reflexivity. Qed.
Example split_whitespace_example : split_whitespace " set  x 12 " = ["set"; "x"; "12"].
Proof. reflexivity. Qed.
Example parse_u64_example :
  parse_u64 "18446744073709551615" = Some u64_max ∧ parse_u64 "18446744073709551616" = None.
Proof. vm_compute. done. Qed.

Arguments trim : simpl never.
Arguments is_empty : simpl never.
Arguments to_ascii_lowercase : simpl never.
Arguments eq_ignore_ascii_case : simpl never.
Arguments split_whitespace : simpl never.
Arguments lines : simpl never.
Arguments path_extension : simpl never.
Arguments file_name : simpl never.
Arguments with_file_name : simpl never.
Arguments with_extension : simpl never.

(** ** Lemmas *)

Lemma ascii_lower_idemp c : ascii_lower (ascii_lower c) = ascii_lower c.
Proof. by destruct c as [[] [] [] [] [] [] [] []]. Qed.

Lemma chars_of_of_chars l : chars_of (of_chars l) = l.
Proof. apply list_ascii_of_string_of_list_ascii. Qed.
Lemma of_chars_chars_of s : of_chars (chars_of s) = s.
Proof. apply string_of_list_ascii_of_string. Qed.

Lemma to_ascii_lowercase_idemp s :
  to_ascii_lowercase (to_ascii_lowercase s) = to_ascii_lowercase s.
Proof.
  unfold to_ascii_lowercase. rewrite chars_of_of_chars. f_equal.
  rewrite <- list_fmap_compose. apply list_fmap_ext. intros. apply ascii_lower_idemp.
Qed.

Lemma eq_ignore_ascii_case_refl s : eq_ignore_ascii_case s s = true.
Proof. apply String.eqb_refl. Qed.

Lemma eq_ignore_ascii_case_sym a b :
  eq_ignore_ascii_case a b = eq_ignore_ascii_case b a.
Proof. apply String.eqb_sym. Qed.

(** [strip_prefix] inverts concatenation. *)
Lemma strip_prefix_chars_Some p l r :
  strip_prefix_chars p l = Some r ↔ l = p ++ r.
Proof.
  revert l. induction p as [|a p IH]; intros l; cbn; [naive_solver|].
  destruct l as [|c l]; [naive_solver|].
  destruct (Ascii.eqb_spec a c) as [->|Hne]; [rewrite IH; naive_solver|naive_solver].
Qed.

Example lines_example : lines (unlines ["a"; ""; "b"]) = ["a"; ""; "b"].
Proof. reflexivity. Qed.
Example path_examples :
  path_extension "state/s.v1.jsonl" = Some "jsonl" ∧ path_extension ".hidden" = None ∧
  with_extension "state/s.jsonl" "lock" = "state/s.lock" ∧
  with_file_name "state/s.jsonl" ".s.jsonl.1.tmp" = "state/.s.jsonl.1.tmp".
Proof. done. Qed.

(** A line the file format can hold: no newline inside, no final carriage return. *)
Definition line_safe (s : string) : Prop :=
  (newline_char ∉ chars_of s) ∧ last (chars_of s) ≠ Some carriage_return.

Lemma split_byte_app sep cur l r :
  sep ∉ l → split_byte sep cur (l ++ sep :: r) = reverse (reverse l ++ cur) :: split_byte sep [] r.
Proof.
  revert cur. induction l as [|c l IH]; intros cur Hni; cbn [split_byte app].
  - by rewrite Ascii.eqb_refl.
  - apply not_elem_of_cons in Hni as [Hne Hni].
    rewrite (proj2 (Ascii.eqb_neq c sep)) by congruence.
    rewrite IH by done. by rewrite reverse_cons, <- app_assoc.
Qed.

Lemma strip_cr_id l : last l ≠ Some carriage_return → strip_cr l = l.
Proof.
  unfold strip_cr. intros Hl. destruct (reverse l) as [|c r] eqn:Hr; [done|].
  destruct (Ascii.eqb_spec c carriage_return) as [->|]; [|done].
  exfalso. apply Hl. rewrite <- (reverse_involutive l), Hr, reverse_cons. apply last_snoc.
Qed.

Lemma chars_of_app s t : chars_of (s +:+ t) = chars_of s ++ chars_of t.
Proof.
  induction s as [|c s IH]; [done|].
  change (c :: chars_of (s +:+ t) = c :: (chars_of s ++ chars_of t)). by rewrite IH.
Qed.

(** Reading back the lines that were written. *)
Lemma lines_unlines ls : Forall line_safe ls → lines (unlines ls) = ls.
Proof.
  unfold lines. induction 1 as [|l ls [Hnl Hcr] _ IH]; [done|].
  cbn [unlines]. rewrite !chars_of_app. unfold newline at 1. rewrite chars_of_of_chars.
  cbn [app]. rewrite split_byte_app by done. rewrite app_nil_r, reverse_involutive.
  set (rest := split_byte newline_char [] (chars_of (unlines ls))) in *.
  assert (∃ x xs, rest = x :: xs) as (x & xs & Hrest).
  { subst rest. generalize (chars_of (unlines ls)) (@nil ascii). intros k.
    induction k as [|c k IHk]; intros cur; cbn; [eauto|]. case_match; eauto. }
  rewrite Hrest in *.
  assert (∀ y, drop_last_empty (y :: x :: xs) = y :: drop_last_empty (x :: xs)) as ->
    by (intros []; done).
  rewrite fmap_cons, IH, strip_cr_id by done. by rewrite of_chars_chars_of.
Qed.

(** ** Path lemmas *)

Lemma rev_dir_split r :
  ∃ b, r = b ++ rev_dir r ∧ (slash ∉ b) ∧ (rev_dir r = [] ∨ ∃ d, rev_dir r = slash :: d).
Proof.
  induction r as [|c r (b & Hr & Hni & Hd)]; cbn.
  - exists []. split_and!; [done|by apply not_elem_of_nil|by left].
  - destruct (Ascii.eqb_spec c slash) as [->|Hne].
    + exists []. split_and!; [done|by apply not_elem_of_nil|by right; eauto].
    + exists (c :: b). split_and!; [by cbn; f_equal|by apply not_elem_of_cons|done].
Qed.

Lemma split_byte_none sep cur l : sep ∉ l → split_byte sep cur l = [reverse cur ++ l].
Proof.
  revert cur. induction l as [|c l IH]; intros cur Hni; cbn [split_byte].
  - by rewrite app_nil_r.
  - apply not_elem_of_cons in Hni as [Hne Hni].
    rewrite (proj2 (Ascii.eqb_neq c sep)) by congruence.
    rewrite IH by done. by rewrite reverse_cons, <- app_assoc.
Qed.

Lemma split_byte_nonempty sep cur l : ∃ x xs, split_byte sep cur l = x :: xs.
Proof. revert cur. induction l as [|c l IH]; intros cur; cbn; [eauto|]. case_match; eauto. Qed.

Lemma last_split_byte sep cur d base :
  sep ∉ base → last (split_byte sep cur (d ++ sep :: base)) = Some base.
Proof.
  intros Hni. revert cur. induction d as [|c d IH]; intros cur; cbn [split_byte app].
  - rewrite Ascii.eqb_refl, split_byte_none by done. by rewrite reverse_nil.
  - destruct (Ascii.eqb c sep); [|apply IH].
    destruct (split_byte_nonempty sep [] (d ++ sep :: base)) as (x & xs & Hx).
    specialize (IH []). rewrite Hx in *. done.
Qed.

Lemma last_filter_keep {A} (f : A → bool) l x :
  last l = Some x → f x = true → last (List.filter f l) = Some x.
Proof.
  intros (l' & ->)%last_Some Hf. rewrite List.filter_app. cbn. rewrite Hf. apply last_snoc.
Qed.

(** A path is its directory followed by its final component, which is its file
    name unless it is empty or a dot component. *)
Lemma path_split p :
  ∃ base, chars_of p = reverse (rev_dir (reverse (chars_of p))) ++ base ∧
          (of_chars base ∉ [""; "."; ".."] → file_name p = Some (of_chars base)).
Proof.
  destruct (rev_dir_split (reverse (chars_of p))) as (b & Hr & Hni & Hd).
  exists (reverse b). split.
  { apply (f_equal reverse) in Hr. rewrite reverse_involutive, reverse_app in Hr. done. }
  intros Hspecial. unfold file_name.
  assert (last (split_byte slash [] (chars_of p)) = Some (reverse b)) as Hlast.
  { apply (f_equal reverse) in Hr. rewrite reverse_involutive, reverse_app in Hr.
    assert (slash ∉ reverse b) as Hnb by (by rewrite elem_of_reverse).
    rewrite Hr. destruct Hd as [->|[d ->]].
    - rewrite reverse_nil. cbn [app]. by rewrite split_byte_none.
    - rewrite reverse_cons, <- app_assoc. by apply last_split_byte. }
  unfold path_components.
  rewrite (last_filter_keep _ _ (of_chars (reverse b))).
  - destruct (String.eqb_spec (of_chars (reverse b)) ".."); [|done].
    exfalso. apply Hspecial. rewrite e. set_solver.
  - unfold split_on. by rewrite fmap_last, Hlast.
  - apply negb_true_iff, orb_false_iff. split; apply String.eqb_neq; intros Heq;
      apply Hspecial; rewrite Heq; set_solver.
Qed.

(** A temporary name derived from the file name is a different path. *)
Lemma with_file_name_temp_ne p prefix fallback suffix :
  5 ≤ length (chars_of suffix) →
  with_file_name p (prefix +:+ default fallback (file_name p) +:+ suffix) ≠ p.
Proof.
  intros Hlen Heq. destruct (path_split p) as (base & Hp & Hbase).
  apply (f_equal chars_of) in Heq. unfold with_file_name in Heq.
  rewrite chars_of_of_chars in Heq. rewrite Hp in Heq at 2.
  apply (inj _) in Heq. rewrite !chars_of_app in Heq.
  pose proof (f_equal length Heq) as Hl. rewrite !length_app in Hl. cbn in Hl.
  assert (of_chars base ∉ [""; "."; ".."]) as Hs.
  { intros Hin. assert (length base ≤ 2); [|lia].
    rewrite <- (chars_of_of_chars base).
    repeat (apply elem_of_cons in Hin as [->|Hin]; [cbn; lia|]). by apply elem_of_nil in Hin. }
  rewrite (Hbase Hs) in Hl. cbn in Hl. rewrite chars_of_of_chars in Hl. lia.
Qed.

(** ** Decimal numerals and separators *)

Lemma show_u64_digits n : Forall (λ c, is_ascii_digit c = true) (chars_of (show_u64 n)).
Proof.
  assert (∀ x s, Forall (λ c, is_ascii_digit c = true) (chars_of s) →
    Forall (λ c, is_ascii_digit c = true) (chars_of (pretty_N_go x s))) as Hgo.
  { intros x. induction (N.lt_wf_0 x) as [x _ IH]; intros s Hs.
    assert (x = 0 ∨ 0 < x)%N as [->|Hx] by lia; [by rewrite pretty_N_go_0|].
    rewrite pretty_N_go_step by done. apply IH; [by apply N.div_lt|].
    constructor; [|done]. unfold pretty_N_char. by repeat case_match. }
  unfold show_u64, pretty, pretty_N. case_decide; [by repeat constructor|].
  apply Hgo. constructor.
Qed.

#[export] Instance show_u64_inj : Inj (=) (=) show_u64.
Proof. unfold show_u64. apply _. Qed.

(** Text before and after the last separator is determined. *)
Lemma last_separator_inj {A} (sep : A) l1 l2 d1 d2 :
  sep ∉ d1 → sep ∉ d2 → l1 ++ sep :: d1 = l2 ++ sep :: d2 → l1 = l2 ∧ d1 = d2.
Proof.
  revert l2. induction l1 as [|x l1 IH]; intros [|y l2] H1 H2; cbn; intros Heq.
  - by simplify_eq.
  - simplify_eq. exfalso. apply H1. rewrite elem_of_app. right. left.
  - simplify_eq. exfalso. apply H2. rewrite elem_of_app. right. left.
  - injection Heq as -> Heq. destruct (IH l2 H1 H2 Heq) as [-> ->]. done.
Qed.

(** ** Trimming *)

(** A byte that occurs in no whitespace encoding. *)
Definition never_whitespace (c : ascii) : Prop :=
  Forall (λ pat : list N, N_of_ascii c ∉ pat) whitespace_encodings.

Lemma strip_bytes_solid pat l c l' :
  N_of_ascii c ∉ pat → strip_bytes pat l = None → strip_bytes pat (l ++ c :: l') = None.
Proof.
  revert l. induction pat as [|n pat IH]; intros [|x l] Hc; cbn; try done.
  - intros _. rewrite not_elem_of_cons in Hc. destruct Hc as [Hc _].
    destruct (N_of_ascii c =? n)%N eqn:He; [|done]. by apply N.eqb_eq in He.
  - rewrite not_elem_of_cons in Hc. destruct Hc as [_ Hc]. case_match; [|done]. by apply IH.
Qed.

Lemma first_strip_solid pats l c l' :
  Forall (λ pat : list N, N_of_ascii c ∉ pat) pats →
  first_strip pats l = None → first_strip pats (l ++ c :: l') = None.
Proof.
  induction 1 as [|pat pats Hc _ IH]; cbn; [done|]. case_match eqn:Hs; [done|].
  intros Hn. by rewrite strip_bytes_solid, IH.
Qed.

Lemma drop_ws_stuck strip fuel l : strip l = None → drop_ws strip fuel l = l.
Proof. intros H. destruct fuel; cbn; [done|]. by rewrite H. Qed.

(** Whether dropping whitespace changed nothing tells whether any is there. *)
Lemma strip_bytes_shorter pat l r : pat ≠ [] → strip_bytes pat l = Some r → length r < length l.
Proof.
  revert l. induction pat as [|n pat IH]; intros [|x l] Hp; cbn; try done.
  case_match; [|done]. destruct pat as [|n' pat]; [intros [= ->]; lia|].
  intros Hr. specialize (IH l ltac:(done) Hr). lia.
Qed.

Lemma first_strip_shorter pats l r :
  Forall (λ pat, pat ≠ []) pats → first_strip pats l = Some r → length r < length l.
Proof.
  induction 1 as [|pat pats Hp _ IH]; cbn; [done|]. case_match eqn:Hs; [|done].
  intros [= ->]. by eapply strip_bytes_shorter.
Qed.

Lemma drop_ws_shorter strip fuel l :
  (∀ k r, strip k = Some r → length r < length k) → length (drop_ws strip fuel l) ≤ length l.
Proof.
  intros H. revert l. induction fuel as [|f IH]; intros l; cbn; [done|].
  case_match eqn:Hs; [|done]. specialize (H _ _ Hs). specialize (IH l0). lia.
Qed.

Lemma drop_ws_id strip l :
  (∀ k r, strip k = Some r → length r < length k) → strip [] = None →
  length (drop_ws strip (length l) l) = length l → strip l = None.
Proof.
  intros H H0. destruct l as [|c l]; [done|]. cbn. destruct (strip (c :: l)) as [r|] eqn:Hs; [|done].
  pose proof (H _ _ Hs). pose proof (drop_ws_shorter strip (length l) r H). cbn in *. lia.
Qed.

Lemma strip_ws_front_shorter k r : strip_ws_front k = Some r → length r < length k.
Proof. apply first_strip_shorter. by repeat constructor. Qed.
Lemma strip_ws_back_shorter k r : strip_ws_back k = Some r → length r < length k.
Proof. apply first_strip_shorter. by repeat constructor. Qed.

(** A string that trimming leaves alone has no whitespace at its ends. *)
Lemma trim_id_ends m :
  trim m = m → strip_ws_front (chars_of m) = None ∧ strip_ws_back (reverse (chars_of m)) = None.
Proof.
  unfold trim. intros Htrim%(f_equal chars_of). rewrite chars_of_of_chars in Htrim.
  set (M := chars_of m) in *. set (X := trim_start_chars M) in *.
  assert (length X ≤ length M) as Hx by apply (drop_ws_shorter _ _ _ strip_ws_front_shorter).
  assert (length (trim_end_chars X) ≤ length X) as Hy.
  { unfold trim_end_chars. rewrite length_reverse.
    etrans; [apply (drop_ws_shorter _ _ _ strip_ws_back_shorter)|]. by rewrite length_reverse. }
  assert (strip_ws_front M = None) as Hfront.
  { apply drop_ws_id; [apply strip_ws_front_shorter|done|].
    change (length X = length M). rewrite Htrim in Hy. lia. }
  split; [done|]. assert (X = M) as HX by (by apply drop_ws_stuck). rewrite HX in Htrim.
  apply drop_ws_id; [apply strip_ws_back_shorter|done|].
  apply (f_equal length) in Htrim. unfold trim_end_chars in Htrim.
  rewrite length_reverse in Htrim. by rewrite length_reverse.
Qed.

Lemma trim_start_chars_id l : strip_ws_front l = None → trim_start_chars l = l.
Proof. apply drop_ws_stuck. Qed.

Lemma trim_end_chars_id l : strip_ws_back (reverse l) = None → trim_end_chars l = l.
Proof.
  intros H. unfold trim_end_chars.
  etrans; [apply f_equal, drop_ws_stuck, H|]. apply reverse_involutive.
Qed.

(** Bytes that are in no whitespace character are not trimmed. *)
Lemma trim_solid l : Forall never_whitespace l → trim (of_chars l) = of_chars l.
Proof.
  assert (∀ strip pats, strip = first_strip pats →
    (∀ c, never_whitespace c → Forall (λ pat : list N, N_of_ascii c ∉ pat) pats) →
    Forall (λ pat : list N, pat ≠ []) pats →
    ∀ k, Forall never_whitespace k → strip k = None) as Hnone.
  { intros strip pats -> Hsub Hne k Hk. destruct Hk as [|c k Hc _].
    - induction Hne as [|pat pats Hp _ IH]; cbn; [done|]. destruct pat; [done|]. cbn. apply IH.
      intros c Hc. by apply Hsub, Forall_cons in Hc as [_ Hc].
    - apply (first_strip_solid pats [] c k); [by apply Hsub|]. clear Hsub.
      induction Hne as [|pat pats Hp _ IH]; cbn; [done|]. by destruct pat. }
  intros Hl. unfold trim. rewrite chars_of_of_chars, trim_start_chars_id.
  2: { eapply Hnone; [reflexivity|by intros|by repeat constructor|done]. }
  rewrite trim_end_chars_id; [done|].
  eapply Hnone; [reflexivity| |by repeat constructor|by apply Forall_reverse].
  intros c Hc. unfold never_whitespace in Hc. apply Forall_fmap. eapply Forall_impl; [exact Hc|].
  intros pat Hp. cbn. by rewrite elem_of_reverse.
Qed.

(** Trimming twice is trimming once. *)
Lemma drop_ws_done strip fuel l :
  (∀ k r, strip k = Some r → length r < length k) → strip [] = None → length l ≤ fuel →
  strip (drop_ws strip fuel l) = None.
Proof.
  intros H H0. revert l. induction fuel as [|f IH]; intros l Hl; cbn.
  - destruct l; [done|cbn in Hl; lia].
  - destruct (strip l) as [r|] eqn:Hs; [|done]. apply IH. specialize (H _ _ Hs). lia.
Qed.

Lemma drop_ws_suffix strip fuel l :
  (∀ k r, strip k = Some r → r `suffix_of` k) → drop_ws strip fuel l `suffix_of` l.
Proof.
  intros H. revert l. induction fuel as [|f IH]; intros l; cbn; [done|].
  destruct (strip l) as [r|] eqn:Hs; [|done]. etrans; [apply IH|by apply H].
Qed.

Lemma strip_bytes_suffix pat l r : strip_bytes pat l = Some r → r `suffix_of` l.
Proof.
  revert l. induction pat as [|n pat IH]; intros [|x l]; cbn; try done; [by intros [= ->]..|].
  case_match; [|done]. intros Hr. by apply suffix_cons_r, IH.
Qed.

Lemma first_strip_suffix pats l r : first_strip pats l = Some r → r `suffix_of` l.
Proof.
  induction pats as [|pat pats IH]; cbn; [done|]. case_match eqn:Hs; [|done].
  intros [= ->]. by eapply strip_bytes_suffix.
Qed.

Lemma first_strip_app_None pats l k : first_strip pats (l ++ k) = None → first_strip pats l = None.
Proof.
  assert (∀ pat l, strip_bytes pat (l ++ k) = None → strip_bytes pat l = None) as Hb.
  { induction pat as [|n pat IH]; intros [|x l']; cbn; try done.
    case_match; [|done]. apply IH. }
  induction pats as [|pat pats IH]; cbn; [done|]. case_match eqn:Hs; [done|].
  rewrite (Hb _ _ Hs). apply IH.
Qed.

Lemma trim_idemp s : trim (trim s) = trim s.
Proof.
  unfold trim. rewrite chars_of_of_chars. f_equal. set (X := trim_start_chars (chars_of s)).
  assert (strip_ws_front X = None) as HX.
  { apply drop_ws_done; [apply strip_ws_front_shorter|done|done]. }
  assert (strip_ws_front (trim_end_chars X) = None) as Hfront.
  { assert (drop_ws strip_ws_back (length X) (reverse X) `suffix_of` reverse X) as [k Hk].
    { apply drop_ws_suffix. intros ??. apply first_strip_suffix. }
    apply (first_strip_app_None _ _ (reverse k)). unfold trim_end_chars.
    rewrite <-reverse_app, <-Hk, reverse_involutive. exact HX. }
  rewrite (trim_start_chars_id _ Hfront). apply trim_end_chars_id. unfold trim_end_chars.
  rewrite reverse_involutive.
  apply drop_ws_done; [apply strip_ws_back_shorter|done|by rewrite length_reverse].
Qed.

(** ** Splitting *)

Lemma split_once_first sep l r : sep ∉ l → split_once_chars sep (l ++ sep :: r) = Some (l, r).
Proof.
  induction l as [|c l IH]; intros Hn; cbn; [by rewrite Ascii.eqb_refl|].
  rewrite not_elem_of_cons in Hn. destruct Hn as [Hne Hn].
  destruct (Ascii.eqb_spec c sep) as [->|_]; [done|]. by rewrite IH.
Qed.

Lemma is_empty_false s : is_empty s = false ↔ s ≠ "".
Proof. apply String.eqb_neq. Qed.

Lemma chars_of_inj s t : chars_of s = chars_of t → s = t.
Proof. intros Heq. by rewrite <- (of_chars_chars_of s), Heq, of_chars_chars_of. Qed.

Lemma of_chars_app l k : of_chars (l ++ k) = of_chars l +:+ of_chars k.
Proof. apply chars_of_inj. by rewrite chars_of_app, !chars_of_of_chars. Qed.

(** Splitting on a character and joining with it again. *)
Lemma join_split_on sep s : join (of_chars [sep]) (split_on sep s) = s.
Proof.
  unfold split_on. rewrite <- (of_chars_chars_of s) at 2.
  assert (∀ l cur, join (of_chars [sep]) (of_chars <$> split_byte sep cur l) =
    of_chars (reverse cur ++ l)) as Hall.
  { induction l as [|c l IH]; intros cur; cbn [split_byte].
    - cbn. by rewrite app_nil_r.
    - destruct (Ascii.eqb_spec c sep) as [->|_].
      + destruct (split_byte_nonempty sep [] l) as (x & xs & Hx). specialize (IH []).
        rewrite Hx in *. cbn [fmap list_fmap join] in *. rewrite IH.
        by rewrite reverse_nil, (of_chars_app (reverse cur)).
      + rewrite IH, reverse_cons, <- (assoc_L (++)). done. }
  by rewrite Hall.
Qed.

(** ** Ordered sets of strings: [BTreeSet<String>] *)

(** [BTreeSet::insert] on the set in its iteration order. *)
Fixpoint btree_insert (x : string) (l : list string) : list string :=
  match l with
  | [] => [x]
  | y :: l' =>
      match String.compare x y with
      | Lt => x :: y :: l'
      | Eq => y :: l'
      | Gt => y :: btree_insert x l'
      end
  end.

Lemma elem_btree_insert x y l : y ∈ btree_insert x l ↔ y = x ∨ y ∈ l.
Proof.
  induction l as [|z l IH]; cbn; [set_solver|].
  destruct (String.compare x z) eqn:Hc; [|set_solver|set_solver].
  apply String.compare_eq_iff in Hc as ->. set_solver.
Qed.

(** [iter().collect::<BTreeSet<_>>().into_iter().collect::<Vec<_>>()] *)
Definition btree_set (l : list string) : list string := foldl (λ acc x, btree_insert x acc) [] l.

Lemma elem_btree_set x l : x ∈ btree_set l ↔ x ∈ l.
Proof.
  unfold btree_set. enough (∀ acc, x ∈ foldl (λ acc x, btree_insert x acc) acc l ↔ x ∈ acc ∨ x ∈ l)
    as -> by (split; [intros [?%elem_of_nil|]; done|by right]).
  induction l as [|y l IH]; intros acc; cbn; [set_solver|].
  rewrite IH, elem_btree_insert. set_solver.
Qed.

(** ** Searching and truncating *)

Lemma strip_prefix_chars_app p l : strip_prefix_chars p (p ++ l) = Some l.
Proof. induction p as [|a p IH]; cbn; [done|]. by rewrite Ascii.eqb_refl. Qed.

Lemma strip_prefix_chars_is_Some p l :
  is_Some (strip_prefix_chars p l) ↔ p `prefix_of` l.
Proof.
  split.
  - intros [r ->%strip_prefix_chars_Some]. by exists r.
  - intros [r ->]. rewrite strip_prefix_chars_app. by eexists.
Qed.

Lemma starts_with_prefix p s : starts_with p s = true ↔ chars_of p `prefix_of` chars_of s.
Proof.
  unfold starts_with, strip_prefix. rewrite <- strip_prefix_chars_is_Some.
  destruct (strip_prefix_chars _ _); cbn; [naive_solver|].
  split; [done|by intros [? ?]].
Qed.

(** A found offset splits the text at the first occurrence of the pattern. *)
Lemma find_chars_Some pat l i :
  find_chars pat l = Some i → ∃ r, l = take i l ++ pat ++ r ∧ i ≤ length l.
Proof.
  revert i. induction l as [|c l IH]; intros i; cbn [find_chars].
  - destruct (strip_prefix_chars pat []) as [r|] eqn:E; [|done].
    intros [= <-]. apply strip_prefix_chars_Some in E. by exists r.
  - destruct (strip_prefix_chars pat (c :: l)) as [r|] eqn:E.
    + intros [= <-]. apply strip_prefix_chars_Some in E. exists r. cbn. split; [done|lia].
    + intros (j & Hj & ->)%fmap_Some. destruct (IH j Hj) as (r & Hr & Hle).
      exists r. cbn. split; [by rewrite <- Hr|lia].
Qed.

Lemma find_chars_None_app pat a l :
  find_chars pat (a ++ l) = None → find_chars pat l = None.
Proof.
  induction a as [|c a IH]; [done|]. cbn [app find_chars].
  destruct (strip_prefix_chars _ _); [done|]. intros H%fmap_None. auto.
Qed.

Lemma take_chars_list_all n l :
  length (List.filter is_char_start l) ≤ n → take_chars_list n l = l.
Proof.
  revert n. induction l as [|c l IH]; intros n; cbn; [done|].
  destruct (is_char_start c); cbn; [|by intros; f_equal; auto].
  destruct n; [lia|]. intros. f_equal. apply IH. lia.
Qed.

Lemma take_chars_list_count n l :
  length (List.filter is_char_start (take_chars_list n l)) =
    Nat.min n (length (List.filter is_char_start l)).
Proof.
  revert n. induction l as [|c l IH]; intros n; cbn; [lia|].
  destruct (is_char_start c) eqn:E; cbn.
  - destruct n; cbn; [done|]. rewrite E. cbn. by rewrite IH.
  - rewrite E. apply IH.
Qed.

Lemma chars_count_take n s : chars_count (take_chars n s) = Nat.min n (chars_count s).
Proof.
  unfold chars_count, take_chars. rewrite chars_of_of_chars. apply take_chars_list_count.
Qed.

Lemma chars_count_app s t : chars_count (s +:+ t) = chars_count s + chars_count t.
Proof.
  unfold chars_count. by rewrite chars_of_app, List.filter_app, length_app.
Qed.

Lemma length_chars_of s : length (chars_of s) = String.length s.
Proof. induction s; cbn; congruence. Qed.

Lemma string_app_nil_r s : s +:+ "" = s.
Proof. apply chars_of_inj. rewrite chars_of_app. apply app_nil_r. Qed.

Lemma string_app_assoc s t u : s +:+ (t +:+ u) = (s +:+ t) +:+ u.
Proof. apply chars_of_inj. rewrite !chars_of_app. apply (assoc_L (++)). Qed.

(** ** Floating point: [f64]

    IEEE binary64 values as the Standard Library's executable [spec_float], and
    the operations on them the sources use. *)

(** [f64]: IEEE binary64. *)
Abbreviation f64 := spec_float.
Definition f64_add (a b : f64) : f64 := SFadd 53 1024 a b.
Definition f64_zero : f64 := S754_zero false.
(** [f64::EPSILON], 2^-52 *)
Definition f64_epsilon : f64 := S754_finite false 4503599627370496 (-104).
(** [x.abs() <= f64::EPSILON] *)
Definition f64_abs_le_epsilon (x : f64) : bool := SFleb (SFabs x) f64_epsilon.
(** [x.max(0.0)]: the other operand when one is NaN *)
Definition f64_max_zero (x : f64) : f64 :=
  match x with
  | S754_nan => f64_zero
  | _ => if SFltb x f64_zero then f64_zero else x
  end.

Definition f64_is_finite (x : f64) : bool :=
  match x with S754_zero _ | S754_finite _ _ _ => true | _ => false end.

Definition f64_one : f64 := S754_finite false 4503599627370496 (-52).
(** [(0.0..=1.0).contains(&x)] *)
Definition f64_in_unit (x : f64) : bool := SFleb f64_zero x && SFleb x f64_one.

Lemma f64_in_unit_finite x : f64_in_unit x = true → f64_is_finite x = true.
Proof. by destruct x as [| [] | | []]. Qed.

Definition f64_mul (a b : f64) : f64 := SFmul 53 1024 a b.
Definition f64_div (a b : f64) : f64 := SFdiv 53 1024 a b.
Definition f64_ltb (a b : f64) : bool := SFltb a b.
Definition f64_leb (a b : f64) : bool := SFleb a b.
(** [n as f64] of an unsigned integer, rounded to nearest *)
Definition f64_of_N (n : N) : f64 := binary_normalize 53 1024 (Z.of_N n) 0 false.
(** [a.mul_add(b, 0.0)]: adding zero to the rounded product changes at most the
    sign of a zero. *)
Definition f64_mul_add_zero (a b : f64) : f64 := f64_add (f64_mul a b) f64_zero.
(** [x.max(y)]: the other operand when one is NaN *)
Definition f64_max (x y : f64) : f64 :=
  match x, y with
  | S754_nan, _ => y
  | _, S754_nan => x
  | _, _ => if SFltb x y then y else x
  end.
