(* ===== verification/Json.v ===== *)
(** * JSON values ([serde_json]) and the packages that read them

    [Value] has the constructors of [serde_json::Value].  Objects are [BTreeMap]s
    (the workspace does not enable [preserve_order]), kept as association lists in
    key order.  Parsing and printing are [serde_json]'s, and schema validation is
    the [jsonschema] package's: both are interfaces. *)

From Stdlib Require Import ZArith NArith Ascii.
From stdpp Require Import base list strings.
From S2P Require Import Prelude RustStr.

#[local] Open Scope string_scope.
#[local] Open Scope list_scope.

(** [serde_json::Number] *)
Inductive Number := PosInt (n : N) | NegInt (z : Z) | Float (f : f64).

#[warnings="-register-all"]
Inductive Value :=
| Null
| Bool (b : bool)
| Num (n : Number)
| Str (s : string)
| Arr (items : list Value)
| Obj (fields : list (string * Value)).

(** [BTreeMap::insert] *)
Fixpoint obj_insert (k : string) (v : Value) (fields : list (string * Value))
    : list (string * Value) :=
  match fields with
  | [] => [(k, v)]
  | (k', v') :: rest =>
      if String.eqb k k' then (k, v) :: rest
      else if String.ltb k k' then (k, v) :: fields
      else (k', v') :: obj_insert k v rest
  end.

(** [json!({ k: v, ... })] *)
Definition json_obj (fields : list (string * Value)) : Value :=
  Obj (foldl (λ acc f, obj_insert f.1 f.2 acc) [] fields).

(** [json!(x)]: a float that is not finite becomes null. *)
Definition json_f64 (x : f64) : Value := if f64_is_finite x then Num (Float x) else Null.
Definition json_usize (n : nat) : Value := Num (PosInt (N.of_nat n)).
Definition json_strings (l : list string) : Value := Arr (Str <$> l).
Definition json_option {A} (f : A → Value) (o : option A) : Value :=
  match o with Some x => f x | None => Null end.

(** [BTreeMap::get] *)
Fixpoint obj_get (k : string) (fields : list (string * Value)) : option Value :=
  match fields with
  | [] => None
  | (k', v) :: rest => if String.eqb k k' then Some v else obj_get k rest
  end.

Definition as_object (v : Value) : option (list (string * Value)) :=
  match v with Obj fields => Some fields | _ => None end.
Definition as_array (v : Value) : option (list Value) :=
  match v with Arr items => Some items | _ => None end.
Definition as_str (v : Value) : option string :=
  match v with Str s => Some s | _ => None end.
Definition as_bool (v : Value) : option bool :=
  match v with Bool b => Some b | _ => None end.
Definition as_u64 (v : Value) : option N :=
  match v with Num (PosInt n) => Some n | _ => None end.
(** [Value::get] with a string key *)
Definition value_get (k : string) (v : Value) : option Value := as_object v ≫= obj_get k.

Lemma obj_get_insert k v fields k' :
  obj_get k' (obj_insert k v fields) = if String.eqb k' k then Some v else obj_get k' fields.
Proof.
  induction fields as [|[k0 v0] fields IH]; cbn; [done|].
  destruct (String.eqb_spec k k0) as [->|Hne]; cbn.
  - by destruct (String.eqb k' k0).
  - destruct (String.ltb k k0); cbn; [done|].
    rewrite IH. destruct (String.eqb_spec k' k0) as [->|]; [|done].
    by destruct (String.eqb_spec k0 k) as [->|].
Qed.

(** [serde_json::from_str::<Value>], [to_string] and [to_string_pretty]; printing
    a [Value] does not fail. *)
Class JsonCodec := {
  json_parse : string → option Value;
  json_to_string : Value → string;
  json_to_string_pretty : Value → string }.

(** The values that come back from text as they are: integers in range, objects
    with their keys in order, no floating-point numbers ([serde_json] may read
    one back as its neighbour). *)
Fixpoint plain_value (v : Value) : bool :=
  match v with
  | Null | Bool _ | Str _ => true
  | Num (PosInt n) => (n <=? u64_max)%N
  | Num (NegInt z) => (- 2 ^ 63 <=? z)%Z && (z <? 0)%Z
  | Num (Float _) => false
  | Arr items => forallb plain_value items
  | Obj fields =>
      (fix sorted l := match l with
                       | a :: (b :: _) as l' => String.ltb a.1 b.1 && sorted l'
                       | _ => true
                       end) fields
      && forallb (λ f, plain_value f.2) fields
  end.

(** What the code relies on: printed values parse back. *)
Class JsonCodecLaws `(JC : JsonCodec) := {
  json_parse_to_string v : plain_value v = true → json_parse (json_to_string v) = Some v;
  json_parse_pretty v : plain_value v = true → json_parse (json_to_string_pretty v) = Some v }.

(** [jsonschema::validator_for] rejects a schema with a message, or gives the
    validation errors of a payload in order. *)
Class JsonSchema := {
  validator_for : Value → Result string (Value → list string) }.
