(* ===== verification/BitCodec.v ===== *)
(** * A concrete text encoding

    Any [Countable] value as the bits of its code between two marks: an
    injective one-line text without outer whitespace; JSON values by way of a tree.
    The theorems on stored data are applied at concrete values with codecs built
    from it. *)

From Stdlib Require Import NArith Ascii String Lia.
From stdpp Require Import base strings countable list.
From S2P Require Import Prelude RustStr Json.

#[local] Open Scope string_scope.
#[local] Open Scope list_scope.
#[local] Open Scope nat_scope.

(** ** Bits between marks *)

Definition mark : ascii := "x"%char.

Fixpoint bits_of (p : positive) : list ascii :=
  match p with
  | xH => []
  | xO q => "0"%char :: bits_of q
  | xI q => "1"%char :: bits_of q
  end.

Fixpoint read_bits (l : list ascii) : option positive :=
  match l with
  | [] => None
  | c :: l' =>
      if Ascii.eqb c mark then match l' with [] => Some xH | _ => None end
      else if Ascii.eqb c "0" then xO <$> read_bits l'
      else if Ascii.eqb c "1" then xI <$> read_bits l'
      else None
  end.

Lemma read_bits_of p : read_bits (bits_of p ++ [mark]) = Some p.
Proof. induction p as [p IH|p IH|]; cbn; [by rewrite IH..|done]. Qed.

Definition encode_bits {A} `{Countable A} (x : A) : string :=
  of_chars (mark :: bits_of (encode x) ++ [mark]).
Definition decode_bits {A} `{Countable A} (s : string) : option A :=
  match chars_of s with
  | c :: l => if Ascii.eqb c mark then read_bits l ≫= decode else None
  | [] => None
  end.

Lemma decode_encode_bits {A} `{Countable A} (x : A) : decode_bits (encode_bits x) = Some x.
Proof.
  unfold decode_bits, encode_bits. rewrite chars_of_of_chars. cbn [Ascii.eqb].
  rewrite (Ascii.eqb_refl mark), read_bits_of. cbn. apply decode_encode.
Qed.

Lemma bits_of_chars p c : c ∈ bits_of p → c = "0"%char ∨ c = "1"%char.
Proof.
  induction p as [p IH|p IH|]; cbn; [..|by intros ?%elem_of_nil];
    intros [->|Hc]%elem_of_cons; auto.
Qed.

Lemma encode_bits_line {A} `{Countable A} (x : A) : line_safe (encode_bits x).
Proof.
  unfold line_safe, encode_bits. rewrite chars_of_of_chars. split.
  - intros [Hc|[Hc|Hc%list_elem_of_singleton]%elem_of_app]%elem_of_cons; [done| |done].
    apply bits_of_chars in Hc as [Hc|Hc]; done.
  - rewrite app_comm_cons, last_snoc. done.
Qed.

(** Text between marks has no whitespace at its ends. *)
Lemma trim_marked (l : list ascii) : trim (of_chars (mark :: l ++ [mark])) = of_chars (mark :: l ++ [mark]).
Proof.
  unfold trim, trim_start_chars, trim_end_chars. rewrite chars_of_of_chars.
  cbn [length drop_ws]. change (strip_ws_front (mark :: l ++ [mark])) with (@None (list ascii)).
  cbv iota. rewrite app_comm_cons, reverse_app, length_app, Nat.add_1_r.
  cbn [drop_ws]. change (reverse [mark] ++ reverse (mark :: l)) with (mark :: reverse (mark :: l)).
  change (strip_ws_back (mark :: reverse (mark :: l))) with (@None (list ascii)). cbv iota.
  by rewrite reverse_cons, reverse_involutive.
Qed.

Lemma trim_marked_newline (l : list ascii) :
  trim (of_chars (mark :: l ++ [mark]) +:+ newline) = of_chars (mark :: l ++ [mark]).
Proof.
  unfold trim, trim_start_chars, trim_end_chars. rewrite chars_of_app, chars_of_of_chars.
  unfold newline. rewrite chars_of_of_chars. cbn [app length drop_ws].
  change (strip_ws_front (mark :: (l ++ [mark]) ++ [newline_char])) with (@None (list ascii)).
  cbv iota.
  change (mark :: (l ++ [mark]) ++ [newline_char]) with ((mark :: l ++ [mark]) ++ [newline_char]).
  rewrite reverse_app. cbn [length]. rewrite length_app, Nat.add_1_r. cbn [drop_ws].
  change (reverse [newline_char] ++ reverse (mark :: l ++ [mark]))
    with (newline_char :: reverse ((mark :: l) ++ [mark])).
  rewrite reverse_app.
  change (strip_ws_back (newline_char :: reverse [mark] ++ reverse (mark :: l)))
    with (Some (mark :: reverse (mark :: l))).
  cbv iota. cbn [length app]. rewrite length_app, Nat.add_1_r. cbn [drop_ws].
  change (strip_ws_back (mark :: reverse (mark :: l))) with (@None (list ascii)).
  cbv iota. by rewrite reverse_cons, reverse_involutive.
Qed.

#[export] Instance encode_bits_inj {A} `{Countable A} : Inj (=) (=) (encode_bits (A := A)).
Proof.
  intros x y Heq. apply (f_equal (decode_bits (A := A))) in Heq.
  rewrite !decode_encode_bits in Heq. by injection Heq.
Qed.

(** ** JSON values *)

(** A value as a tree of leaves. *)
Definition leaf : Type := bool + (N + Z) + string.
Fixpoint value_tree (v : Value) : gen_tree leaf :=
  match v with
  | Null => GenNode 0 []
  | Bool b => GenLeaf (inl (inl b))
  | Num (PosInt n) => GenLeaf (inl (inr (inl n)))
  | Num (NegInt z) => GenLeaf (inl (inr (inr z)))
  | Num (Float _) => GenNode 3 []
  | Str s => GenLeaf (inr s)
  | Arr items => GenNode 1 (value_tree <$> items)
  | Obj fields => GenNode 2 ((λ f, GenNode 4 [GenLeaf (inr f.1); value_tree f.2]) <$> fields)
  end.
Fixpoint tree_value (t : gen_tree leaf) : Value :=
  match t with
  | GenLeaf (inl (inl b)) => Bool b
  | GenLeaf (inl (inr (inl n))) => Num (PosInt n)
  | GenLeaf (inl (inr (inr z))) => Num (NegInt z)
  | GenLeaf (inr s) => Str s
  | GenNode 1 ts => Arr (tree_value <$> ts)
  | GenNode 2 ts =>
      Obj ((λ t, match t with
                 | GenNode _ [GenLeaf (inr k); x] => (k, tree_value x)
                 | _ => (EmptyString, Null)
                 end) <$> ts)
  | GenNode _ _ => Null
  end.

Fixpoint tree_value_of (v : Value) : plain_value v = true → tree_value (value_tree v) = v.
Proof.
  destruct v as [|b|[| |]|s|items|fields]; try done; cbn.
  - intros H. f_equal. induction items as [|x items IH]; [done|]. cbn in *.
    apply andb_true_iff in H as [H1 H2]. f_equal; [by apply tree_value_of|by apply IH].
  - intros [_ H]%andb_true_iff. f_equal. induction fields as [|[k x] fields IH]; [done|]. cbn in *.
    apply andb_true_iff in H as [H1 H2]. f_equal; [f_equal; by apply tree_value_of|by apply IH].
Qed.

Definition bits_json : JsonCodec :=
  {| json_parse s := tree_value <$> decode_bits s;
     json_to_string v := encode_bits (value_tree v);
     json_to_string_pretty v := encode_bits (value_tree v) |}.

#[export] Instance bits_json_laws : JsonCodecLaws bits_json.
Proof.
  split; intros v Hv; change (tree_value <$> decode_bits (encode_bits (value_tree v)) = Some v);
    rewrite decode_encode_bits; cbn; by rewrite tree_value_of.
Qed.
