(* ===== verification/Messages.v ===== *)
(** * Conversation messages ([tau-ai], [types.rs])

    Roles, content blocks and messages with their constructors and accessors.
    The JSON value of a tool call's arguments is a type of the [serde_json]
    package: it is the parameter [Value], which no operation looks into. *)

From stdpp Require Import base list strings.
From S2P Require Import Prelude RustStr.

#[local] Open Scope string_scope.
#[local] Open Scope list_scope.

Inductive MessageRole := System | User | Assistant | Tool.

#[export] Instance MessageRole_eq_dec : EqDecision MessageRole.
Proof. solve_decision. Defined.

(** [format!("{:?}", role).to_ascii_lowercase()] *)
Definition role_label (r : MessageRole) : string :=
  match r with
  | System => "system" | User => "user" | Assistant => "assistant" | Tool => "tool"
  end.

Inductive MediaSource :=
| Url (url : string)
| Base64 (mime_type data : string).

Section messages.
Context {Value : Type}.

Record ToolCall := mkToolCall
  { tool_call_id_of : string; tool_call_name : string; tool_call_arguments : Value }.

Inductive ContentBlock :=
| TextBlock (text : string)
| ToolCallBlock (id name : string) (arguments : Value)
| ImageBlock (source : MediaSource)
| AudioBlock (source : MediaSource).

Record Message := mkMessage
  { msg_role : MessageRole;
    msg_content : list ContentBlock;
    msg_tool_call_id : option string;
    msg_tool_name : option string;
    msg_is_error : bool }.

Definition message_system (text : string) : Message :=
  mkMessage System [TextBlock text] None None false.
Definition message_user (text : string) : Message :=
  mkMessage User [TextBlock text] None None false.
Definition assistant_text (text : string) : Message :=
  mkMessage Assistant [TextBlock text] None None false.
Definition assistant_blocks (content : list ContentBlock) : Message :=
  mkMessage Assistant content None None false.
Definition tool_result (tool_call_id tool_name text : string) (is_error : bool) : Message :=
  mkMessage Tool [TextBlock text] (Some tool_call_id) (Some tool_name) is_error.

Definition block_text (b : ContentBlock) : option string :=
  match b with
  | TextBlock text => Some text
  | ToolCallBlock _ _ _ | ImageBlock _ | AudioBlock _ => None
  end.

Definition text_content (m : Message) : string :=
  join newline (omap block_text (msg_content m)).

Definition block_tool_call (b : ContentBlock) : option ToolCall :=
  match b with
  | ToolCallBlock id name arguments => Some (mkToolCall id name arguments)
  | TextBlock _ | ImageBlock _ | AudioBlock _ => None
  end.

Definition tool_calls (m : Message) : list ToolCall :=
  omap block_tool_call (msg_content m).

Definition content_tool_call (c : ToolCall) : ContentBlock :=
  ToolCallBlock (tool_call_id_of c) (tool_call_name c) (tool_call_arguments c).

(** Wrapping calls in an assistant message and reading them back is the identity. *)
Lemma tool_calls_roundtrip (calls : list ToolCall) :
  tool_calls (assistant_blocks (content_tool_call <$> calls)) = calls.
Proof.
  unfold tool_calls; cbn. induction calls as [|[] calls IH]; cbn; [done|].
  by f_equal.
Qed.
End messages.

Arguments ToolCall : clear implicits.
Arguments ContentBlock : clear implicits.
Arguments Message : clear implicits.
