(* ===== verification/SessionIntegrity.v ===== *)
(** * Session entries and their integrity ([tau-session], [lib.rs] and
    [session_integrity.rs])

    A session is a list of entries, each with an id, an optional parent id and
    a message; the parent links form the conversation tree.  This file has the
    data, the walks over parent links (cycle detection, lineage collection),
    the validation report and the remapping merge of an import, with the
    abstract notion of a valid session they compute. *)

From stdpp Require Import base gmap sets list strings relations sorting.
From Stdlib Require Import NArith Lia.
From S2P Require Import Prelude RustStr Messages.

Inductive SessionError :=
| UnknownSessionId (id : N)
| LineageCycle (id : N)
| MissingParent (parent : N)
| MissingRemapId (id : N)
| MissingRemapParent (parent : N)
| ParentDoesNotExist (parent : N)
| UnknownSource (id : N)
| UnknownTarget (id : N)
| SameSourceAndTarget
| CannotFastForward (target source : N)
| MissingSource (id : N)
| ImportValidationFailed (entries duplicates invalid_parent cycles : nat)
| LockTimeout
| StorageError (reason : string)
| BranchNotFound (id : N).

Section entries.
Context {Value : Type}.

Record SessionEntry := mkEntry
  { se_id : N; se_parent_id : option N; se_message : Message Value }.

Record SessionValidationReport := mkValidation
  { vr_entries : nat; vr_duplicates : nat; vr_invalid_parent : nat; vr_cycles : nat }.

Definition is_valid (r : SessionValidationReport) : bool :=
  (vr_duplicates r =? 0)%nat && (vr_invalid_parent r =? 0)%nat && (vr_cycles r =? 0)%nat.

Definition id_to_entry (entries : list SessionEntry) : gmap N SessionEntry :=
  collect_map se_id entries.

(** [entries.get(&id).and_then(|entry| entry.parent_id)] *)
Definition parent_of (m : gmap N SessionEntry) (id : N) : option N :=
  m !! id ≫= se_parent_id.

(** The [while let] loop of [has_cycle]; [None] is running out of fuel. *)
Fixpoint has_cycle_loop (fuel : nat) (m : gmap N SessionEntry)
    (visited : gset N) (current : option N) : option bool :=
  match fuel with
  | O => None
  | S f =>
      match current with
      | None => Some false
      | Some id =>
          if decide (id ∈ visited) then Some true
          else has_cycle_loop f m ({[id]} ∪ visited) (parent_of m id)
      end
  end.

(** The walk visits each key at most once, then at most one missing id. *)
Definition has_cycle (start_id : N) (m : gmap N SessionEntry) : bool :=
  default true (has_cycle_loop (2 + size m) m ∅ (Some start_id)).

(** The lineage walk shared by [collect_lineage_ids],
    [lineage_ids_root_to_head] and [lineage_entries]: from [current] to the
    root, newest first; [get] is the entry lookup of the caller. *)
Fixpoint lineage_loop (fuel : nat) (get : N → option SessionEntry)
    (visited : gset N) (current : N) : option (Result SessionError (list SessionEntry)) :=
  match fuel with
  | O => None
  | S f =>
      if decide (current ∈ visited) then Some (Err (LineageCycle current))
      else match get current with
           | None => Some (Err (UnknownSessionId current))
           | Some entry =>
               match se_parent_id entry with
               | None => Some (Ok [entry])
               | Some parent =>
                   result_map (cons entry) <$>
                     lineage_loop f get ({[current]} ∪ visited) parent
               end
           end
  end.

Definition run_lineage (n : nat) (get : N → option SessionEntry) (head : N)
    : Result SessionError (list SessionEntry) :=
  default (Err (LineageCycle head)) (lineage_loop (S n) get ∅ head).

(** [collect_lineage_ids]: the head must exist; each parent is checked before
    the walk moves to it. *)
Fixpoint collect_lineage_loop (fuel : nat) (m : gmap N SessionEntry)
    (lineage_ids visited : gset N) (current : N) : option (Result SessionError (gset N)) :=
  match fuel with
  | O => None
  | S f =>
      if decide (current ∈ visited) then Some (Err (LineageCycle current))
      else match m !! current with
           | None => Some (Err (UnknownSessionId current))
           | Some entry =>
               let lineage_ids := {[se_id entry]} ∪ lineage_ids in
               match se_parent_id entry with
               | Some parent =>
                   match m !! parent with
                   | None => Some (Err (MissingParent parent))
                   | Some _ =>
                       collect_lineage_loop f m lineage_ids ({[current]} ∪ visited) parent
                   end
               | None => Some (Ok lineage_ids)
               end
           end
  end.

Definition collect_lineage_ids (entries : list SessionEntry) (head_id : N)
    : Result SessionError (gset N) :=
  let m := id_to_entry entries in
  match m !! head_id with
  | None => Err (UnknownSessionId head_id)
  | Some _ =>
      default (Err (LineageCycle head_id)) (collect_lineage_loop (S (size m)) m ∅ ∅ head_id)
  end.

(** [validation_report_for_entries] *)
Fixpoint count_duplicates (seen : gset N) (entries : list SessionEntry) : nat :=
  match entries with
  | [] => 0
  | e :: es =>
      if decide (se_id e ∈ seen) then S (count_duplicates seen es)
      else count_duplicates ({[se_id e]} ∪ seen) es
  end.

Definition parent_missing (m : gmap N SessionEntry) (e : SessionEntry) : bool :=
  match se_parent_id e with
  | Some p => bool_decide (m !! p = None)
  | None => false
  end.

Definition validation_report_for_entries (entries : list SessionEntry)
    : SessionValidationReport :=
  let m := id_to_entry entries in
  let cycle_ids : gset N :=
    foldl (λ acc e, if has_cycle (se_id e) m then {[se_id e]} ∪ acc else acc) ∅ entries in
  mkValidation (length entries) (count_duplicates ∅ entries)
    (length (List.filter (parent_missing m) entries)) (size cycle_ids).

(** [merge_entries_with_remap]: the id allocation loop ... *)
Fixpoint remap_ids (imported : list SessionEntry) (used : gset N) (next_id : N)
    (remapped : list (N * N)) (id_map : gmap N N) : list (N * N) * gmap N N :=
  match imported with
  | [] => (remapped, id_map)
  | e :: es =>
      if decide (se_id e ∈ used) then
        remap_ids es ({[next_id]} ∪ used) (add_u64 next_id 1)
          (remapped ++ [(se_id e, next_id)]) (<[se_id e := next_id]> id_map)
      else
        remap_ids es ({[se_id e]} ∪ used) next_id remapped (<[se_id e := se_id e]> id_map)
  end.

(** ... and the rewriting loop. *)
Fixpoint push_remapped (id_map : gmap N N) (imported merged : list SessionEntry)
    : Result SessionError (list SessionEntry) :=
  match imported with
  | [] => Ok merged
  | e :: es =>
      mapped_id ← ok_or (MissingRemapId (se_id e)) (id_map !! se_id e);
      mapped_parent ←
        match se_parent_id e with
        | None => Ok None
        | Some p => Some <$> ok_or (MissingRemapParent p) (id_map !! p)
        end;
      push_remapped id_map es (merged ++ [mkEntry mapped_id mapped_parent (se_message e)])
  end.

Definition merge_entries_with_remap (existing imported : list SessionEntry)
    : Result SessionError (list SessionEntry * list (N * N) * option N) :=
  match imported with
  | [] => Ok (existing, [], se_id <$> last existing)
  | _ =>
      let used : gset N := list_to_set (se_id <$> existing) in
      let next_id := add_u64 (max_or_zero (elements used)) 1 in
      let '(remapped, id_map) := remap_ids imported used next_id [] ∅ in
      merged ← push_remapped id_map imported existing;
      Ok (merged, remapped, last imported ≫= λ e, id_map !! se_id e)
  end.
End entries.

Arguments SessionEntry : clear implicits.
Arguments has_cycle : simpl never.
Arguments run_lineage : simpl never.

(** ** Specification: rooted ids, parent chains, valid sessions *)

Section spec.
Context {Value : Type}.
Implicit Types (m : gmap N (SessionEntry Value)) (e : SessionEntry Value)
  (es l : list (SessionEntry Value)).

Abbreviation ids es := (se_id <$> es).

(** One step up the parent links. *)
Definition parent_step m (i p : N) : Prop := parent_of m i = Some p.

(** The parent walk from an id ends. *)
Inductive rooted m : N → Prop :=
| rooted_end i : parent_of m i = None → rooted m i
| rooted_step i p : parent_of m i = Some p → rooted m p → rooted m i.

(** [chain get i l]: [l] is the lineage of [i], newest entry first. *)
Inductive chain (get : N → option (SessionEntry Value)) : N → list (SessionEntry Value) → Prop :=
| chain_root i e : get i = Some e → se_parent_id e = None → chain get i [e]
| chain_step i e p l :
    get i = Some e → se_parent_id e = Some p → chain get p l → chain get i (e :: l).

(** What validation promises: unique ids, existing parents, no cycles. *)
Definition valid_entries es : Prop :=
  NoDup (ids es) ∧
  (∀ e p, e ∈ es → se_parent_id e = Some p → p ∈ ids es) ∧
  (∀ e, e ∈ es → rooted (id_to_entry es) (se_id e)).

(** *** Cycle detection *)

Lemma rooted_no_cycle m i : rooted m i → ¬ tc (parent_step m) i i.
Proof.
  induction 1 as [i Hi|i p Hi Hr IH]; intros Htc;
    inversion Htc as [? ? Hs|? y ? Hs Htc']; subst; unfold parent_step in Hs;
    rewrite Hi in Hs; try done; injection Hs as <-.
  - by apply IH.
  - apply IH. eapply tc_r; [done|]. done.
Qed.

(** Ids seen so far lead to the current one. *)
Definition leads_to m (visited : gset N) (current : option N) : Prop :=
  ∀ v, v ∈ visited → ∃ c, current = Some c ∧ tc (parent_step m) v c.

Lemma leads_to_step m visited c p :
  parent_of m c = Some p → leads_to m visited (Some c) →
  leads_to m ({[c]} ∪ visited) (Some p).
Proof.
  intros Hp Hl v [->%elem_of_singleton|Hv]%elem_of_union.
  - exists p. split; [done|]. by constructor.
  - destruct (Hl v Hv) as (c' & [= <-] & Htc). exists p. split; [done|].
    eapply tc_r; done.
Qed.

Lemma has_cycle_loop_spec fuel m visited c b :
  leads_to m visited (Some c) →
  has_cycle_loop fuel m visited (Some c) = Some b →
  b = false ↔ rooted m c.
Proof.
  revert visited c. induction fuel as [|f IH]; [done|].
  intros visited c Hl. cbn. case_decide as Hin.
  - intros [= <-]. split; [done|]. intros Hr. exfalso.
    destruct (Hl c Hin) as (? & [= <-] & Htc). by eapply rooted_no_cycle.
  - destruct (parent_of m c) as [p|] eqn:Hp.
    + intros Hloop. rewrite (IH _ _ (leads_to_step _ _ _ _ Hp Hl) Hloop).
      split; [by eapply rooted_step|]. inversion 1; simplify_eq; congruence.
    + destruct f as [|f]; [done|]. cbn. intros [= <-]. split; [by constructor|done].
Qed.

Lemma parent_of_dom m c p : parent_of m c = Some p → c ∈ dom m.
Proof. unfold parent_of. rewrite elem_of_dom. destruct (m !! c); cbn; naive_solver. Qed.

Lemma unvisited_decreases (D visited : gset N) c :
  c ∈ D → c ∉ visited → size (D ∖ ({[c]} ∪ visited)) < size (D ∖ visited).
Proof. intros. apply subset_size. set_solver. Qed.

Lemma has_cycle_loop_total fuel m visited current :
  size (dom m ∖ visited) + 2 ≤ fuel →
  is_Some (has_cycle_loop fuel m visited current).
Proof.
  revert visited current. induction fuel as [|f IH]; intros visited current Hf; [lia|].
  cbn. destruct current as [c|]; [|done]. case_decide as Hin; [done|].
  destruct (parent_of m c) as [p|] eqn:Hp.
  - apply IH. pose proof (unvisited_decreases (dom m) visited c (parent_of_dom _ _ _ Hp) Hin).
    lia.
  - destruct f; [lia|done].
Qed.

(** The loop always ends within its fuel, and [has_cycle] decides whether the
    parent walk of an id ends. *)
Lemma has_cycle_false m i : has_cycle i m = false ↔ rooted m i.
Proof.
  unfold has_cycle.
  destruct (has_cycle_loop_total (2 + size m) m ∅ (Some i)) as [b Hb].
  { rewrite difference_empty_L, size_dom. lia. }
  rewrite Hb. cbn. eapply has_cycle_loop_spec; [|done].
  by intros v ?%not_elem_of_empty.
Qed.

Lemma has_cycle_true m i : has_cycle i m = true ↔ ¬ rooted m i.
Proof. rewrite <- has_cycle_false. by destruct (has_cycle i m). Qed.

#[export] Instance rooted_dec m i : Decision (rooted m i).
Proof.
  refine (cast_if (decide (has_cycle i m = false))); by rewrite <- has_cycle_false.
Defined.

(** *** Parent chains *)

Section chains.
Context (get : N → option (SessionEntry Value)).

Lemma chain_det i l k : chain get i l → chain get i k → l = k.
Proof.
  intros Hl. revert k. induction Hl as [i e Hi Hp|i e p l Hi Hp Hl IH];
    inversion 1; simplify_eq; try congruence.
  by rewrite (IH l0) by (by simplify_eq).
Qed.

Lemma chain_head i l : chain get i l → ∃ e l', l = e :: l' ∧ get i = Some e.
Proof. destruct 1; eauto. Qed.

Lemma chain_parent i l e p :
  chain get i l → get i = Some e → se_parent_id e = Some p → ∃ l', chain get p l'.
Proof. destruct 1; intros; simplify_eq; eauto. Qed.

Lemma chain_get i l e : chain get i l → e ∈ l → ∃ j, get j = Some e.
Proof.
  induction 1; intros Hin; apply elem_of_cons in Hin as [->|Hin]; eauto.
  by apply elem_of_nil in Hin.
Qed.

Lemma chain_mono (get' : N → option (SessionEntry Value)) i l :
  (∀ j e, e ∈ l → get j = Some e → get' j = Some e) →
  chain get i l → chain get' i l.
Proof.
  intros Hm. induction 1 as [i e Hi Hp|i e p l Hi Hp Hl IH].
  - constructor; [|done]. apply Hm; [left|done].
  - econstructor; [|done|].
    + apply Hm; [left|done].
    + apply IH. intros j e' He'. apply Hm. by right.
Qed.

Context (Hkey : ∀ i e, get i = Some e → se_id e = i).

Lemma chain_suffix i l e :
  chain get i l → e ∈ l → ∃ l1 l2, l = l1 ++ e :: l2 ∧ chain get (se_id e) (e :: l2).
Proof using Hkey.
  induction 1 as [i e' Hi Hp|i e' p l Hi Hp Hl IH]; intros Hin;
    apply elem_of_cons in Hin as [->|Hin].
  - exists [], []. rewrite (Hkey _ _ Hi). by repeat constructor.
  - by apply elem_of_nil in Hin.
  - exists [], l. rewrite (Hkey _ _ Hi). split; [done|]. by econstructor.
  - destruct (IH Hin) as (l1 & l2 & -> & Hc). by exists (e' :: l1), l2.
Qed.

Lemma chain_NoDup i l : chain get i l → NoDup (ids l).
Proof using Hkey.
  induction 1 as [i e Hi Hp|i e p l Hi Hp Hl IH]; cbn.
  - apply NoDup_singleton.
  - constructor; [|done]. intros (e' & Heq & Hin)%list_elem_of_fmap.
    destruct (chain_suffix _ _ _ Hl Hin) as (l1 & l2 & -> & Hc).
    assert (chain get (se_id e) (e :: l1 ++ e' :: l2)) as Hc'.
    { rewrite (Hkey _ _ Hi). by econstructor. }
    rewrite <- Heq in Hc. apply (chain_det _ _ _ Hc) in Hc'.
    apply (f_equal length) in Hc'. cbn in Hc'. rewrite length_app in Hc'. cbn in Hc'. lia.
Qed.

Lemma chain_in_dom i l (D : gset N) :
  (∀ j, is_Some (get j) → j ∈ D) → chain get i l → length l ≤ size D.
Proof using Hkey.
  intros HD Hc. rewrite <- (length_fmap se_id l).
  rewrite <- (size_list_to_set (C:=gset N)) by (by eapply chain_NoDup).
  apply subseteq_size. intros x (e & -> & He)%elem_of_list_to_set%list_elem_of_fmap.
  destruct (chain_get _ _ _ Hc He) as [j Hj]. rewrite (Hkey _ _ Hj). eauto.
Qed.

Lemma lineage_loop_sound f visited i l :
  lineage_loop f get visited i = Some (Ok l) → chain get i l.
Proof using Type.
  revert visited i l. induction f as [|f IH]; intros visited i l; [done|].
  cbn. case_decide; [done|]. destruct (get i) as [e|] eqn:Hi; [|done].
  destruct (se_parent_id e) as [p|] eqn:Hp.
  - intros (r & Hr & Heq)%fmap_Some. destruct r as [k|]; [|done].
    cbn in Heq. injection Heq as ->. econstructor; eauto.
  - intros [= <-]. by constructor.
Qed.

Lemma lineage_loop_complete f visited i l :
  chain get i l → length l ≤ f → (∀ x, x ∈ ids l → x ∉ visited) →
  lineage_loop f get visited i = Some (Ok l).
Proof using Hkey.
  intros Hc. revert f visited. induction Hc as [i e Hi Hp|i e p l Hi Hp Hl IH];
    intros [|f] visited Hf Hv; cbn in *; try lia.
  - rewrite decide_False by (rewrite <- (Hkey _ _ Hi); apply Hv; left).
    by rewrite Hi, Hp.
  - rewrite decide_False by (rewrite <- (Hkey _ _ Hi); apply Hv; left).
    rewrite Hi, Hp, IH; [done|lia|].
    intros x Hx. apply not_elem_of_union. split.
    + apply not_elem_of_singleton. intros ->.
      assert (NoDup (ids (e :: l))) as Hnd by (eapply chain_NoDup; econstructor; done).
      cbn in Hnd. apply NoDup_cons in Hnd as [Hni _]. by rewrite (Hkey _ _ Hi) in Hni.
    + apply Hv. by right.
Qed.

Lemma run_lineage_Ok n i l (D : gset N) :
  (∀ j, is_Some (get j) → j ∈ D) → size D ≤ n →
  run_lineage n get i = Ok l ↔ chain get i l.
Proof using Hkey.
  intros HD Hn. unfold run_lineage. split.
  - destruct (lineage_loop _ _ _ _) as [r|] eqn:Hr; cbn; [|done].
    intros ->. by eapply lineage_loop_sound.
  - intros Hc. pose proof (chain_in_dom _ _ _ HD Hc).
    rewrite (lineage_loop_complete _ _ _ _ Hc); [done|lia|]. intros x _.
    apply not_elem_of_empty.
Qed.

Lemma lineage_loop_total f visited i (D : gset N) :
  (∀ j, is_Some (get j) → j ∈ D) → size (D ∖ visited) < f →
  is_Some (lineage_loop f get visited i).
Proof using Type.
  intros HD. revert visited i. induction f as [|f IH]; intros visited i Hf; [lia|].
  cbn. case_decide as Hin; [done|]. destruct (get i) as [e|] eqn:Hi; [|done].
  destruct (se_parent_id e) as [p|]; [|done].
  apply fmap_is_Some, IH.
  pose proof (unvisited_decreases D visited i (HD i ltac:(by rewrite Hi)) Hin). lia.
Qed.
End chains.

(** *** Valid sessions *)

(** The lookup of a session's entries by id. *)
Definition get_of es (i : N) : option (SessionEntry Value) := id_to_entry es !! i.

Lemma get_of_key es i e : get_of es i = Some e → se_id e = i.
Proof. intros H. by apply collect_map_key in H as [_ ?]. Qed.

Lemma get_of_elem es i e : get_of es i = Some e → e ∈ es.
Proof. intros H. by apply collect_map_key in H as [? _]. Qed.

Lemma get_of_NoDup es e : NoDup (ids es) → e ∈ es → get_of es (se_id e) = Some e.
Proof. intros Hnd He. by apply collect_map_NoDup. Qed.

Lemma get_of_ids es i : is_Some (get_of es i) ↔ i ∈ ids es.
Proof. apply collect_map_is_Some. Qed.

Lemma chain_rooted m i l : chain (λ j, m !! j) i l → rooted m i.
Proof.
  induction 1 as [i e Hi Hp|i e p l Hi Hp Hl IH].
  - apply rooted_end. unfold parent_of. by rewrite Hi.
  - eapply rooted_step; [|done]. unfold parent_of. by rewrite Hi.
Qed.

Lemma chain_elem es i l e : chain (get_of es) i l → e ∈ l → e ∈ es.
Proof. intros Hc He. destruct (chain_get _ _ _ _ Hc He) as [j Hj]. by eapply get_of_elem. Qed.

(** A session is valid iff ids are unique and every entry has a lineage. *)
Lemma valid_iff_chains es :
  valid_entries es ↔
  NoDup (ids es) ∧ ∀ i, i ∈ ids es → ∃ l, chain (get_of es) i l.
Proof.
  split.
  - intros (Hnd & Hpar & Hroot). split; [done|]. intros i Hi.
    apply list_elem_of_fmap in Hi as (e0 & -> & He0).
    assert (se_id e0 ∈ ids es) as Hi by (by apply list_elem_of_fmap_2).
    specialize (Hroot e0 He0). revert Hroot Hi. generalize (se_id e0). clear e0 He0.
    intros i Hroot. induction Hroot as [i Hp|i p Hp Hr IH]; intros Hi;
      apply get_of_ids in Hi as [e He]; unfold parent_of in Hp;
      unfold get_of in He; rewrite He in Hp; cbn in Hp.
    + exists [e]. by constructor.
    + destruct IH as [l Hl].
      { eapply Hpar; [|done]. by eapply get_of_elem. }
      exists (e :: l). by econstructor.
  - intros [Hnd Hch]. split_and!; [done| |].
    + intros e p He Hp. destruct (Hch (se_id e)) as [l Hl]; [by apply list_elem_of_fmap_2|].
      pose proof (get_of_NoDup _ _ Hnd He) as Hget.
      destruct (chain_parent _ _ _ _ _ Hl Hget Hp) as [k Hk].
      apply get_of_ids. destruct (chain_head _ _ _ Hk) as (e' & ? & _ & He').
      by rewrite He'.
    + intros e He. destruct (Hch (se_id e)) as [l Hl]; [by apply list_elem_of_fmap_2|].
      by eapply chain_rooted.
Qed.

Lemma valid_NoDup es : valid_entries es → NoDup (ids es).
Proof. by intros []. Qed.

Lemma valid_chain es i : valid_entries es → i ∈ ids es → ∃ l, chain (get_of es) i l.
Proof. intros [_ H]%valid_iff_chains. apply H. Qed.

Lemma valid_nil : valid_entries [].
Proof. apply valid_iff_chains. split; [constructor|]. by intros i ?%elem_of_nil. Qed.

Lemma get_of_snoc es e i :
  get_of (es ++ [e]) i = if decide (i = se_id e) then Some e else get_of es i.
Proof.
  unfold get_of, id_to_entry. rewrite collect_map_snoc.
  case_decide as Hi; [by subst; rewrite lookup_insert_eq|by rewrite lookup_insert_ne].
Qed.

Lemma chain_snoc es e i l :
  se_id e ∉ ids es → chain (get_of es) i l → chain (get_of (es ++ [e])) i l.
Proof.
  intros Hni. apply chain_mono. intros j e' _ Hj. rewrite get_of_snoc.
  rewrite decide_False; [done|]. intros ->. apply Hni, get_of_ids. by rewrite Hj.
Qed.

(** Adding a fresh entry whose parent, if any, exists keeps a session valid. *)
Lemma valid_snoc es e :
  valid_entries es → se_id e ∉ ids es →
  (∀ p, se_parent_id e = Some p → p ∈ ids es) → valid_entries (es ++ [e]).
Proof.
  intros [Hnd Hch]%valid_iff_chains Hni Hpar. apply valid_iff_chains.
  rewrite fmap_app. cbn. split.
  - apply NoDup_app. split_and!; [done| |apply NoDup_singleton].
    intros x Hx ->%list_elem_of_singleton. done.
  - intros i [Hi| ->%list_elem_of_singleton]%elem_of_app.
    + destruct (Hch i Hi) as [l Hl]. exists l. by apply chain_snoc.
    + assert (get_of (es ++ [e]) (se_id e) = Some e) as Hg
        by (rewrite get_of_snoc, decide_True; done).
      destruct (se_parent_id e) as [p|] eqn:Hp.
      * destruct (Hch p (Hpar p eq_refl)) as [l Hl]. exists (e :: l).
        econstructor; [done|done|]. by apply chain_snoc.
      * exists [e]. by constructor.
Qed.

(** Reordering the entries of a session without duplicates changes no lookup. *)
Lemma id_to_entry_perm es es' :
  es ≡ₚ es' → NoDup (ids es) → id_to_entry es = id_to_entry es'.
Proof.
  intros Hp Hnd. assert (NoDup (ids es')) as Hnd' by (by rewrite <- Hp).
  apply map_eq. intros i. apply option_eq. intros e.
  unfold id_to_entry. rewrite !collect_map_NoDup by done. by rewrite Hp.
Qed.

Lemma valid_perm es es' : es ≡ₚ es' → valid_entries es → valid_entries es'.
Proof.
  intros Hp (Hnd & Hpar & Hroot). split_and!.
  - by rewrite <- Hp.
  - intros e p He Hpe. rewrite <- Hp. eapply Hpar; [|done]. by rewrite Hp.
  - intros e He. rewrite <- (id_to_entry_perm es es') by done. apply Hroot. by rewrite Hp.
Qed.

(** *** The validation report *)

Lemma count_duplicates_0 seen es :
  count_duplicates seen es = 0 ↔ NoDup (ids es) ∧ ∀ i, i ∈ ids es → i ∉ seen.
Proof.
  revert seen. induction es as [|e es IH]; intros seen; cbn.
  - split; [|done]. split; [constructor|]. by intros i ?%elem_of_nil.
  - case_decide as Hin.
    + split; [done|]. intros [_ H]. destruct (H (se_id e)); [left|done].
    + rewrite IH, NoDup_cons. split.
      * intros [Hnd Hs]. split_and!; [|done|].
        { intros Hc. specialize (Hs _ Hc). set_solver. }
        intros i [->|Hi]%elem_of_cons; [done|]. specialize (Hs i Hi). set_solver.
      * intros [[Hni Hnd] Hs]. split; [done|]. intros i Hi.
        apply not_elem_of_union. rewrite not_elem_of_singleton. split.
        { by intros ->. } apply Hs. by right.
Qed.

Lemma cycle_ids_empty m es :
  size (foldl (λ (acc : gset N) e, if has_cycle (se_id e) m then {[se_id e]} ∪ acc else acc)
          ∅ es) = 0 ↔ ∀ e, e ∈ es → rooted m (se_id e).
Proof.
  induction es as [|e es IH] using rev_ind; cbn.
  - split; [|done]. by intros _ e ?%elem_of_nil.
  - rewrite foldl_app. cbn. setoid_rewrite elem_of_app.
    setoid_rewrite list_elem_of_singleton.
    destruct (has_cycle (se_id e) m) eqn:Hc.
    + split.
      * intros H%size_empty_inv. exfalso. apply (not_elem_of_empty (C:=gset N) (se_id e)).
        rewrite <- H. apply elem_of_union_l, elem_of_singleton. done.
      * intros H. apply has_cycle_true in Hc. destruct Hc. apply H. by right.
    + rewrite IH. apply has_cycle_false in Hc. naive_solver.
Qed.

Lemma parent_missing_false es e :
  parent_missing (id_to_entry es) e = false ↔ ∀ p, se_parent_id e = Some p → p ∈ ids es.
Proof.
  unfold parent_missing. destruct (se_parent_id e) as [p|]; [|naive_solver].
  rewrite bool_decide_eq_false. split.
  - intros Hne p' [= <-]. by apply get_of_ids, not_eq_None_Some.
  - intros H Hn. apply (get_of_ids es p) in H as [e' He']; [|done].
    unfold get_of in He'. congruence.
Qed.

Lemma is_valid_report es :
  is_valid (validation_report_for_entries es) = true ↔ valid_entries es.
Proof.
  unfold is_valid, validation_report_for_entries, valid_entries. cbn.
  rewrite !andb_true_iff, !Nat.eqb_eq, count_duplicates_0, cycle_ids_empty, filter_nil_iff.
  setoid_rewrite parent_missing_false. split.
  - intros [[[Hnd _] Hpar] Hroot]. eauto.
  - intros (Hnd & Hpar & Hroot). split_and!; eauto. intros i _. apply not_elem_of_empty.
Qed.

(** *** Collecting lineage ids *)

Lemma collect_lineage_loop_Ok f m acc visited i S :
  collect_lineage_loop f m acc visited i = Some (Ok S) ↔
  ∃ l, lineage_loop f (λ j, m !! j) visited i = Some (Ok l) ∧ S = list_to_set (ids l) ∪ acc.
Proof.
  revert acc visited i. induction f as [|f IH]; intros acc visited i; cbn; [naive_solver|].
  case_decide; [naive_solver|]. destruct (m !! i) as [e|] eqn:Hi; [|naive_solver].
  destruct (se_parent_id e) as [p|] eqn:Hp.
  - destruct (m !! p) as [e'|] eqn:Hmp.
    + rewrite IH. split.
      * intros (l & Hl & ->). exists (e :: l). rewrite Hl. split; [done|]. cbn. set_solver.
      * intros (l & (r & Hr & Heq)%fmap_Some & ->). destruct r as [k|]; [|done].
        injection Heq as ->. exists k. split; [done|]. cbn. set_solver.
    + split; [done|]. intros (l & (r & Hr & Heq)%fmap_Some & ->). destruct r as [k|]; [|done].
      destruct f; [done|]. cbn in Hr. rewrite Hmp in Hr. by case_decide.
  - split.
    + intros [= <-]. exists [e]. split; [done|]. cbn. set_solver.
    + intros (l & [= <-] & ->). f_equal. f_equal. cbn. set_solver.
Qed.

Lemma collect_lineage_ids_Ok es head S :
  collect_lineage_ids es head = Ok S ↔
  ∃ l, chain (get_of es) head l ∧ S = list_to_set (ids l).
Proof.
  unfold collect_lineage_ids.
  assert (∀ l, run_lineage (size (id_to_entry es)) (get_of es) head = Ok l ↔
               chain (get_of es) head l) as Hrun.
  { intros l. pose (D := dom (id_to_entry es) : gset N). apply run_lineage_Ok with D; subst D.
    - apply get_of_key.
    - intros j Hj. by apply elem_of_dom.
    - by rewrite size_dom. }
  destruct (id_to_entry es !! head) as [e|] eqn:Hh.
  - split.
    + destruct (collect_lineage_loop _ _ _ _ _) as [r|] eqn:Hr; [|done]. cbn. intros ->.
      apply collect_lineage_loop_Ok in Hr as (l & Hl & ->). exists l. split.
      * apply Hrun. unfold run_lineage, get_of. by rewrite Hl.
      * set_solver.
    + intros (l & Hc & ->). apply Hrun in Hc. unfold run_lineage in Hc.
      destruct (lineage_loop _ _ _ _) as [r|] eqn:Hr; [|done]. cbn in Hc. subst r.
      rewrite (proj2 (collect_lineage_loop_Ok _ _ _ _ _ (list_to_set (ids l)))); [done|].
      exists l. split; [done|]. set_solver.
  - split; [done|]. intros (l & Hc & _). apply chain_head in Hc as (e & _ & _ & He).
    unfold get_of in He. congruence.
Qed.
End spec.

#[export] Hint Resolve valid_NoDup valid_nil get_of_key : session.

(** ** Importing a snapshot: fresh ids without collisions *)

Section remap.
Context {Value : Type}.
Implicit Types (e : SessionEntry Value) (es imported existing : list (SessionEntry Value)).
Abbreviation ids es := (se_id <$> es).

Definition remap_id (id_map : gmap N N) (i : N) : N := default i (id_map !! i).
Definition remap_entry (id_map : gmap N N) e : SessionEntry Value :=
  mkEntry (remap_id id_map (se_id e)) (remap_id id_map <$> se_parent_id e) (se_message e).

(** Imported ids in file order are increasing: what every store written by
    this crate through appends, merges and the SQL backends has. *)
Definition ids_increasing es : Prop := StronglySorted (key_lt se_id) es.

(** Either every used id is below the next replacement, or every id still to
    come is above every used one. *)
Definition alloc_inv (used : gset N) (next_id : N) (rest : list (SessionEntry Value)) : Prop :=
  (∀ u, u ∈ used → (u < next_id)%N) ∨
  (∀ u e, u ∈ used → e ∈ rest → (u < se_id e)%N).

Lemma remap_ids_frame imported used next_id rm id_map rm' id_map' i :
  remap_ids imported used next_id rm id_map = (rm', id_map') →
  i ∉ ids imported → id_map' !! i = id_map !! i.
Proof.
  revert used next_id rm id_map. induction imported as [|e es IH]; cbn;
    intros used next_id rm id_map; [by intros [= _ <-]|].
  rewrite not_elem_of_cons. intros Heq [Hne Hni].
  case_decide; apply IH in Heq; [|done| |done];
    rewrite Heq; by apply lookup_insert_ne.
Qed.

Lemma remap_ids_spec imported used next_id rm id_map rm' id_map' :
  remap_ids imported used next_id rm id_map = (rm', id_map') →
  ids_increasing imported → alloc_inv used next_id imported →
  (next_id + N.of_nat (length imported) ≤ u64_max)%N →
  ∃ js, Forall2 (λ e j, id_map' !! se_id e = Some j) imported js ∧
        NoDup js ∧ ∀ j, j ∈ js → j ∉ used.
Proof.
  revert used next_id rm id_map. induction imported as [|e es IH]; cbn;
    intros used next_id rm id_map Heq Hsort Hinv Hmax.
  { exists []. split_and!; [constructor|constructor|]. by intros j ?%elem_of_nil. }
  inversion Hsort as [|? ? Hsort' Hall]; subst. rewrite Forall_forall in Hall.
  assert (se_id e ∉ ids es) as Hni.
  { intros (e' & He & Hin)%list_elem_of_fmap. specialize (Hall e' Hin).
    unfold key_lt in Hall. lia. }
  (* the id given to [e], and the invariant after it *)
  assert (∃ j used' next' rm1,
    remap_ids es used' next' rm1 (<[se_id e := j]> id_map) = (rm', id_map') ∧
    (j ∉ used) ∧ used' = {[j]} ∪ used ∧ alloc_inv used' next' es ∧
    (next' + N.of_nat (length es) ≤ u64_max)%N)
    as (j & used' & next' & rm1 & Heq' & Hj & -> & Hinv' & Hmax').
  { case_decide as Hin.
    - destruct Hinv as [Hlow|Habove].
      2: { specialize (Habove _ e Hin ltac:(left)). lia. }
      eexists _, _, _, _. split; [exact Heq|]. rewrite add_u64_small by (unfold in_u64; lia).
      split_and!; [intros Hc; specialize (Hlow _ Hc); lia|done| |lia].
      left. intros u [->%elem_of_singleton|Hu]%elem_of_union; [lia|].
      specialize (Hlow u Hu). lia.
    - eexists _, _, _, _. split; [exact Heq|]. split_and!; [done|done| |lia].
      destruct Hinv as [Hlow|Habove].
      + destruct (N.lt_ge_cases (se_id e) next_id) as [Hlt|Hge].
        * left. intros u [->%elem_of_singleton|Hu]%elem_of_union; auto.
        * right. intros u e' [->%elem_of_singleton|Hu]%elem_of_union He';
            specialize (Hall e' He'); unfold key_lt in Hall; [done|].
          specialize (Hlow u Hu). lia.
      + right. intros u e' [->%elem_of_singleton|Hu]%elem_of_union He'.
        * by apply Hall.
        * apply Habove; [done|by right]. }
  destruct (IH _ _ _ _ Heq' Hsort' Hinv' Hmax') as (js & Hjs & Hnd & Hdisj).
  exists (j :: js). split_and!.
  - constructor; [|done]. rewrite (remap_ids_frame _ _ _ _ _ _ _ _ Heq' Hni).
    apply lookup_insert_eq.
  - constructor; [|done]. intros Hc. specialize (Hdisj j Hc). set_solver.
  - intros x [->|Hx]%elem_of_cons; [done|]. specialize (Hdisj x Hx). set_solver.
Qed.

Lemma push_remapped_Ok id_map imported merged :
  (∀ e, e ∈ imported → is_Some (id_map !! se_id e)) →
  (∀ e p, e ∈ imported → se_parent_id e = Some p → is_Some (id_map !! p)) →
  push_remapped id_map imported merged = Ok (merged ++ (remap_entry id_map <$> imported)).
Proof.
  revert merged. induction imported as [|e es IH]; intros merged Hid Hpar; cbn.
  { by rewrite app_nil_r. }
  destruct (Hid e ltac:(left)) as [j Hj]. rewrite Hj. cbn.
  assert (match se_parent_id e with
          | Some p => Some <$> ok_or (MissingRemapParent p) (id_map !! p)
          | None => Ok None
          end = Ok (remap_id id_map <$> se_parent_id e)) as Hmp.
  { destruct (se_parent_id e) as [p|] eqn:Hp; [|done].
    destruct (Hpar e p ltac:(left) Hp) as [q Hq]. cbn. unfold remap_id. by rewrite Hq. }
  rewrite Hmp. cbn.
  replace (mkEntry j (remap_id id_map <$> se_parent_id e) (se_message e))
    with (remap_entry id_map e) by (unfold remap_entry, remap_id; by rewrite Hj).
  rewrite IH; [by rewrite <- app_assoc| |]; intros; [apply Hid|eapply Hpar; [|done]]; by right.
Qed.

Lemma chain_sub es es' i l :
  NoDup (ids es') → (∀ e, e ∈ es → e ∈ es') →
  chain (get_of es) i l → chain (get_of es') i l.
Proof.
  intros Hnd Hsub. apply chain_mono. intros j e _ Hj.
  rewrite <- (get_of_key _ _ _ Hj). apply get_of_NoDup; [done|].
  by eapply Hsub, get_of_elem.
Qed.

Lemma chain_remap id_map imported es' i l :
  NoDup (ids es') → (∀ e, e ∈ imported → remap_entry id_map e ∈ es') →
  chain (get_of imported) i l →
  chain (get_of es') (remap_id id_map i) (remap_entry id_map <$> l).
Proof.
  intros Hnd Hin.
  assert (∀ j e, get_of imported j = Some e →
    get_of es' (remap_id id_map j) = Some (remap_entry id_map e)) as Hget.
  { intros j e Hj. rewrite <- (get_of_key _ _ _ Hj).
    change (remap_id id_map (se_id e)) with (se_id (remap_entry id_map e)).
    apply get_of_NoDup; [done|]. by eapply Hin, get_of_elem. }
  induction 1 as [i e Hi Hp|i e p l Hi Hp Hl IH]; cbn.
  - constructor; [by apply Hget|]. cbn. by rewrite Hp.
  - econstructor; [by apply Hget|cbn; by rewrite Hp|done].
Qed.

Lemma remapped_ids id_map imported js :
  Forall2 (λ e j, id_map !! se_id e = Some j) imported js →
  ids (remap_entry id_map <$> imported) = js.
Proof.
  induction 1 as [|e j es js Hj _ IH]; cbn; [done|].
  f_equal; [|done]. unfold remap_id. by rewrite Hj.
Qed.

Lemma max_or_zero_elements existing u :
  u ∈ ids existing → (u ≤ max_or_zero (elements (list_to_set (ids existing) : gset N)))%N.
Proof. intros Hu. apply max_or_zero_ge, elem_of_elements, elem_of_list_to_set. done. Qed.

(** The merge of two valid sessions, imported ids increasing, is valid: the
    existing entries are kept, the imported ones follow under fresh ids, and
    both kinds of lineage survive. *)
Lemma merge_entries_with_remap_spec existing imported :
  valid_entries existing → valid_entries imported → ids_increasing imported →
  (max_or_zero (ids existing) + 1 + N.of_nat (length imported) ≤ u64_max)%N →
  ∃ id_map remapped head,
    merge_entries_with_remap existing imported =
      Ok (existing ++ (remap_entry id_map <$> imported), remapped, head) ∧
    valid_entries (existing ++ (remap_entry id_map <$> imported)) ∧
    (∀ i l, chain (get_of imported) i l →
      chain (get_of (existing ++ (remap_entry id_map <$> imported)))
        (remap_id id_map i) (remap_entry id_map <$> l)) ∧
    (∀ i l, chain (get_of existing) i l →
      chain (get_of (existing ++ (remap_entry id_map <$> imported))) i l).
Proof.
  intros Hve Hvi Hinc Hmax.
  destruct imported as [|e0 es0] eqn:Himp.
  { exists ∅, [], (se_id <$> last existing). cbn. rewrite app_nil_r. split_and!; try done.
    intros i l Hc. apply chain_head in Hc as (e & _ & _ & He). by apply get_of_elem, elem_of_nil in He. }
  rewrite <- Himp in *. set (used := list_to_set (ids existing) : gset N).
  set (next := add_u64 (max_or_zero (elements used)) 1).
  destruct (remap_ids imported used next [] ∅) as [remapped id_map] eqn:Hremap.
  assert (max_or_zero (elements used) ≤ max_or_zero (ids existing))%N as Hle.
  { apply max_or_zero_le. intros x Hx. apply max_or_zero_ge.
    apply elem_of_elements, elem_of_list_to_set in Hx. done. }
  assert (next = max_or_zero (elements used) + 1)%N as Hnext
    by (apply add_u64_small; unfold in_u64; lia).
  destruct (remap_ids_spec _ _ _ _ _ _ _ Hremap Hinc) as (js & Hjs & Hndj & Hdisj).
  { left. intros u Hu. rewrite Hnext.
    pose proof (max_or_zero_elements existing u ltac:(by apply elem_of_list_to_set in Hu)).
    fold used in H. lia. }
  { lia. }
  assert (∀ e, e ∈ imported → is_Some (id_map !! se_id e)) as Hid.
  { intros e He. apply list_elem_of_lookup in He as [k Hk].
    destruct (Forall2_lookup_l _ _ _ _ _ Hjs Hk) as (j & _ & Hj). by rewrite Hj. }
  assert (NoDup (ids (existing ++ (remap_entry id_map <$> imported)))) as Hnd.
  { rewrite fmap_app, (remapped_ids _ _ _ Hjs). apply NoDup_app.
    split_and!; [by apply valid_NoDup| |done].
    intros x Hx Hj. apply (Hdisj x Hj). by apply elem_of_list_to_set. }
  assert (∀ i l, chain (get_of imported) i l →
    chain (get_of (existing ++ (remap_entry id_map <$> imported)))
        (remap_id id_map i) (remap_entry id_map <$> l)) as Hci.
  { intros i l. apply chain_remap; [done|]. intros e He. apply elem_of_app. right.
    by apply list_elem_of_fmap_2. }
  assert (∀ i l, chain (get_of existing) i l →
    chain (get_of (existing ++ (remap_entry id_map <$> imported))) i l) as Hce.
  { intros i l. apply chain_sub; [done|]. intros e He. apply elem_of_app. by left. }
  exists id_map, remapped, (last imported ≫= λ e, id_map !! se_id e). split_and!; try done.
  - unfold merge_entries_with_remap. rewrite Himp at 1. fold used next. rewrite Hremap.
    rewrite push_remapped_Ok; [done|done|].
    intros e p He Hp. destruct Hvi as (_ & Hpar & _).
    apply (Hpar _ _ He) in Hp as Hin. apply list_elem_of_fmap in Hin as (e' & -> & He'). auto.
  - apply valid_iff_chains. split; [done|]. rewrite fmap_app. intros i [Hi|Hi]%elem_of_app.
    + destruct (valid_chain _ _ Hve Hi) as [l Hl]. eauto.
    + apply list_elem_of_fmap in Hi as (e & -> & (e' & -> & He')%list_elem_of_fmap).
      destruct (valid_chain _ (se_id e') Hvi) as [l Hl]; [by apply list_elem_of_fmap_2|].
      eexists. apply Hci, Hl.
Qed.
End remap.
