(* ===== verification/SessionStorage.v ===== *)
(** * Session storage backends ([tau-session], [session_storage.rs])

    Backend selection, and reading and writing a session's entries and its
    usage summary on the three backends.  The operating system's state is the
    record [World]; text files hold bytes, so the JSONL format is modelled down
    to its lines.  Two packages outside the repository are parameters with the
    documented behaviour as class laws: [SessionCodec] is [serde_json] on the
    record types, [RowTable] is one SQL table with primary key [id] as
    [rusqlite] and [postgres] present it (a replacing transaction and an
    ordered select). *)

From Stdlib Require Import NArith ZArith Lia.
From stdpp Require Import base gmap sets strings relations sorting list.
From S2P Require Import Prelude RustStr Messages SessionIntegrity.

#[local] Open Scope string_scope.
#[local] Open Scope list_scope.
#[local] Open Scope nat_scope.

Inductive SessionStorageBackend := Jsonl | Sqlite | Postgres.

#[export] Instance SessionStorageBackend_eq_dec : EqDecision SessionStorageBackend.
Proof. solve_decision. Defined.

Definition backend_label (b : SessionStorageBackend) : string :=
  match b with Jsonl => "jsonl" | Sqlite => "sqlite" | Postgres => "postgres" end.

Record SessionUsageSummary := mkUsage
  { input_tokens : N; output_tokens : N; total_tokens : N; estimated_cost_usd : f64 }.

Definition usage_default : SessionUsageSummary := mkUsage 0 0 0 f64_zero.

Definition SESSION_SCHEMA_VERSION : N := 1.
Definition SESSION_USAGE_SCHEMA_VERSION : N := 1.

Definition i64_max : N := 9223372036854775807.
(** [i64::try_from(u64)] *)
Definition i64_of_u64 (n : N) : option Z :=
  if (n <=? i64_max)%N then Some (Z.of_N n) else None.
(** [u64::try_from(i64)] *)
Definition u64_of_i64 (z : Z) : option N :=
  if (0 <=? z)%Z then Some (Z.to_N z) else None.

Lemma i64_roundtrip n z : i64_of_u64 n = Some z → u64_of_i64 z = Some n.
Proof.
  unfold i64_of_u64, u64_of_i64. case_match; [|done]. intros [= <-].
  rewrite (proj2 (Z.leb_le 0 (Z.of_N n))) by lia. by rewrite N2Z.id.
Qed.

(** A row of the entries table. *)
Record Row := mkRow { row_id : Z; row_parent : option Z; row_message_json : string }.

Section codec.
Context (Value : Type).

Inductive SessionRecord :=
| MetaRecord (schema_version : N)
| EntryRecord (entry : SessionEntry Value).

Class SessionCodec := {
  encode_record : SessionRecord → string;
  decode_record : string → option SessionRecord;
  decode_entry : string → option (SessionEntry Value);
  encode_message : Message Value → string;
  decode_message : string → option (Message Value);
  encode_usage : N * SessionUsageSummary → string;
  decode_usage_record : string → option (N * SessionUsageSummary);
  decode_usage_summary : string → option SessionUsageSummary;
}.

(** What the code relies on: compact JSON is one non-blank line, and decoding
    inverts encoding. *)
Class SessionCodecLaws `{!SessionCodec} := {
  decode_encode_record r : decode_record (encode_record r) = Some r;
  encode_record_line r : line_safe (encode_record r);
  encode_record_nonblank r : is_empty (trim (encode_record r)) = false;
  decode_encode_message m : decode_message (encode_message m) = Some m;
  decode_encode_usage v u :
    f64_is_finite (estimated_cost_usd u) = true →
    decode_usage_record (trim (encode_usage (v, u) +:+ newline)) = Some (v, u) ∧
    is_empty (trim (encode_usage (v, u) +:+ newline)) = false;
}.
End codec.
Arguments MetaRecord {Value} schema_version.
Arguments EntryRecord {Value} entry.

Section table.
Context (T : Type).

Class RowTable := {
  empty_table : T;
  open_text : string → option T;
  select_rows : T → list Row;
  replace_rows : T → list Row → option T;
}.

Definition row_lt (a b : Row) : Prop := (row_id a < row_id b)%Z.

(** [SELECT ... ORDER BY id ASC] after a committed [DELETE] and [INSERT]s
    returns the inserted rows in id order; a repeated primary key rolls the
    transaction back. *)
Class RowTableLaws `{!RowTable} := {
  select_empty : select_rows empty_table = [];
  replace_select t rows :
    NoDup (row_id <$> rows) →
    ∃ t', replace_rows t rows = Some t' ∧
          select_rows t' ≡ₚ rows ∧ StronglySorted row_lt (select_rows t');
  replace_duplicate t rows : ¬ NoDup (row_id <$> rows) → replace_rows t rows = None;
}.
End table.

Inductive File (T : Type) :=
| TextFile (content : string)
| SqliteFile (table : T).
Arguments TextFile {T} content.
Arguments SqliteFile {T} table.

(** A row of the usage table: schema version, the token counts and the cost. *)
Record UsageRow := mkUsageRow
  { ur_schema : Z; ur_input : Z; ur_output : Z; ur_total : Z; ur_cost : f64 }.

Record World (T : Type) := mkWorld
  { w_files : gmap string (File T);
    w_locks : gmap string N;          (** lock files and their mtime, ms *)
    w_postgres : gmap string T;       (** entries by session path key *)
    w_pg_usage : gmap string UsageRow;
    w_backend_env : option string;    (** TAU_SESSION_BACKEND *)
    w_dsn_env : option string;        (** TAU_SESSION_POSTGRES_DSN *)
    w_pg_reachable : bool;
    w_path_key : string → option string;  (** canonicalize or current_dir().join *)
    w_write_denied : string → bool;   (** paths the OS refuses to write *)
    w_now_ms : N;
    w_now_nanos : N }.
Arguments mkWorld {T}.
Arguments w_files {T}. Arguments w_locks {T}. Arguments w_postgres {T}.
Arguments w_pg_usage {T}. Arguments w_backend_env {T}. Arguments w_dsn_env {T}.
Arguments w_pg_reachable {T}. Arguments w_path_key {T}. Arguments w_write_denied {T}.
Arguments w_now_ms {T}. Arguments w_now_nanos {T}.

Section updates.
Context {T : Type}.
Definition set_files (f : gmap string (File T)) (w : World T) : World T :=
  mkWorld f (w_locks w) (w_postgres w) (w_pg_usage w) (w_backend_env w) (w_dsn_env w)
    (w_pg_reachable w) (w_path_key w) (w_write_denied w) (w_now_ms w) (w_now_nanos w).
Definition set_locks (l : gmap string N) (w : World T) : World T :=
  mkWorld (w_files w) l (w_postgres w) (w_pg_usage w) (w_backend_env w) (w_dsn_env w)
    (w_pg_reachable w) (w_path_key w) (w_write_denied w) (w_now_ms w) (w_now_nanos w).
Definition set_postgres (p : gmap string T) (w : World T) : World T :=
  mkWorld (w_files w) (w_locks w) p (w_pg_usage w) (w_backend_env w) (w_dsn_env w)
    (w_pg_reachable w) (w_path_key w) (w_write_denied w) (w_now_ms w) (w_now_nanos w).
Definition set_pg_usage (u : gmap string UsageRow) (w : World T) : World T :=
  mkWorld (w_files w) (w_locks w) (w_postgres w) u (w_backend_env w) (w_dsn_env w)
    (w_pg_reachable w) (w_path_key w) (w_write_denied w) (w_now_ms w) (w_now_nanos w).
Definition set_now_ms (n : N) (w : World T) : World T :=
  mkWorld (w_files w) (w_locks w) (w_postgres w) (w_pg_usage w) (w_backend_env w) (w_dsn_env w)
    (w_pg_reachable w) (w_path_key w) (w_write_denied w) n (w_now_nanos w).
End updates.

(** ** Backend selection *)

Section storage.
Context {Value T : Type} `{!SessionCodec Value, !RowTable T}.
Implicit Types (w : World T) (path : string) (entries : list (SessionEntry Value)).

Record ResolvedSessionBackend := mkResolved
  { rb_backend : SessionStorageBackend; rb_reason_code : string }.

Definition path_exists w path : bool :=
  match w_files w !! path with Some _ => true | None => false end.

(** The sixteen byte header of an SQLite database file. *)
Definition sqlite_magic : string := "SQLite format 3" +:+ of_chars [Ascii.zero].

Definition is_sqlite_file w path : bool :=
  match w_files w !! path with
  | None => false
  | Some (SqliteFile _) => true
  | Some (TextFile c) => starts_with sqlite_magic c
  end.

Definition infer_session_backend w path : ResolvedSessionBackend :=
  let extension := to_ascii_lowercase <$> path_extension path in
  if bool_decide (extension = Some "sqlite") || bool_decide (extension = Some "db")
  then mkResolved Sqlite "session_backend_path_sqlite"
  else if bool_decide (extension = Some "jsonl")
  then mkResolved Jsonl "session_backend_path_jsonl"
  else if path_exists w path then
    if is_sqlite_file w path then mkResolved Sqlite "session_backend_existing_sqlite"
    else mkResolved Jsonl "session_backend_existing_legacy_file"
  else mkResolved Jsonl "session_backend_default_jsonl".

Definition resolve_session_backend w path : Result SessionError ResolvedSessionBackend :=
  match trim <$> w_backend_env w with
  | Some raw =>
      if is_empty raw then Ok (infer_session_backend w path)
      else
        let normalized := to_ascii_lowercase raw in
        if String.eqb normalized "auto" then Ok (infer_session_backend w path)
        else if String.eqb normalized "jsonl" then
          Ok (mkResolved Jsonl "session_backend_env_jsonl")
        else if String.eqb normalized "sqlite" then
          Ok (mkResolved Sqlite "session_backend_env_sqlite")
        else if String.eqb normalized "postgres" then
          if is_empty (trim (default "" (w_dsn_env w)))
          then Err (StorageError "postgres requires non-empty dsn")
          else Ok (mkResolved Postgres "session_backend_env_postgres")
        else Err (StorageError "unsupported session backend")
  | None => Ok (infer_session_backend w path)
  end.

(** ** Reading *)

(** The line loop of [read_session_entries_jsonl]. *)
Fixpoint parse_session_lines (ls : list string) (entries : list (SessionEntry Value))
    : Result SessionError (list (SessionEntry Value)) :=
  match ls with
  | [] => Ok entries
  | line :: ls' =>
      if is_empty (trim line) then parse_session_lines ls' entries
      else match decode_record _ line with
           | Some (MetaRecord v) =>
               if (SESSION_SCHEMA_VERSION <? v)%N
               then Err (StorageError "unsupported session schema version")
               else parse_session_lines ls' entries
           | Some (EntryRecord e) => parse_session_lines ls' (entries ++ [e])
           | None =>
               match decode_entry _ line with
               | Some e => parse_session_lines ls' (entries ++ [e])
               | None => Err (StorageError "failed to parse session line")
               end
           end
  end.

Definition read_session_entries_jsonl w path : Result SessionError (list (SessionEntry Value)) :=
  match w_files w !! path with
  | None => Ok []
  | Some (TextFile content) => parse_session_lines (lines content) []
  | Some (SqliteFile _) => Err (StorageError "failed to read line")
  end.

(** Decoding one selected row, as both SQL readers do. *)
Definition decode_row (r : Row) : Result SessionError (SessionEntry Value) :=
  id ← ok_or (StorageError "invalid session id") (u64_of_i64 (row_id r));
  parent ← match row_parent r with
           | None => Ok None
           | Some p => Some <$> ok_or (StorageError "invalid parent id") (u64_of_i64 p)
           end;
  message ← ok_or (StorageError "failed to decode session message")
              (decode_message _ (row_message_json r));
  Ok (mkEntry id parent message).

Fixpoint decode_rows (rows : list Row) : Result SessionError (list (SessionEntry Value)) :=
  match rows with
  | [] => Ok []
  | r :: rs => e ← decode_row r; es ← decode_rows rs; Ok (e :: es)
  end.

(** [Connection::open]: an absent file becomes a new database. *)
Definition sqlite_open (f : option (File T)) : option T :=
  match f with
  | None => Some (empty_table T)
  | Some (SqliteFile t) => Some t
  | Some (TextFile c) => open_text T c
  end.

Definition read_session_entries_sqlite w path : Result SessionError (list (SessionEntry Value)) :=
  match w_files w !! path with
  | None => Ok []
  | Some f =>
      t ← ok_or (StorageError "failed to open sqlite session store") (sqlite_open (Some f));
      decode_rows (select_rows T t)
  end.

Definition open_session_postgres_client w : Result SessionError unit :=
  if is_empty (default "" (trim <$> w_dsn_env w))
  then Err (StorageError "postgres requires non-empty dsn")
  else if w_pg_reachable w then Ok tt
  else Err (StorageError "failed to connect to postgres session store backend").

Definition session_path_key w path : Result SessionError string :=
  ok_or (StorageError "failed to resolve current directory") (w_path_key w path).

Definition pg_table w (key : string) : T := default (empty_table T) (w_postgres w !! key).

Definition read_session_entries_postgres w path
    : Result SessionError (list (SessionEntry Value)) :=
  key ← session_path_key w path;
  _ ← open_session_postgres_client w;
  decode_rows (select_rows T (pg_table w key)).

Definition read_session_entries w path (b : SessionStorageBackend)
    : Result SessionError (list (SessionEntry Value)) :=
  match b with
  | Jsonl => read_session_entries_jsonl w path
  | Sqlite => read_session_entries_sqlite w path
  | Postgres => read_session_entries_postgres w path
  end.

(** ** Writing *)

(** [.{file_name}.{nanos}.tmp] beside the file *)
Definition temp_path w path (fallback : string) : string :=
  with_file_name path
    ("." +:+ default fallback (file_name path) +:+ "." +:+ show_u64 (w_now_nanos w) +:+ ".tmp").

(** Write a temporary file, then rename it over the destination; a refused
    rename leaves the temporary file behind. *)
Definition write_text_atomic_at w path (fallback content : string)
    : World T * Result SessionError unit :=
  let tmp := temp_path w path fallback in
  if w_write_denied w tmp then (w, Err (StorageError "failed to open temp file"))
  else
    let w1 := set_files (<[tmp := TextFile content]> (w_files w)) w in
    if w_write_denied w path then (w1, Err (StorageError "failed to atomically replace"))
    else (set_files (<[path := TextFile content]> (delete tmp (w_files w1))) w1, Ok tt).

Definition jsonl_lines entries : list string :=
  encode_record _ (MetaRecord SESSION_SCHEMA_VERSION) ::
  ((λ e, encode_record _ (EntryRecord e)) <$> entries).

Definition write_session_entries_atomic_jsonl w path entries
    : World T * Result SessionError unit :=
  write_text_atomic_at w path "session" (unlines (jsonl_lines entries)).

(** An entry as row parameters; both drivers refuse ids above [i64::MAX]. *)
Definition encode_row (e : SessionEntry Value) : Result SessionError Row :=
  id ← ok_or (StorageError "session id exceeds bigint") (i64_of_u64 (se_id e));
  parent ← match se_parent_id e with
           | None => Ok None
           | Some p => Some <$> ok_or (StorageError "parent id exceeds bigint") (i64_of_u64 p)
           end;
  Ok (mkRow id parent (encode_message _ (se_message e))).

Fixpoint encode_rows entries : Result SessionError (list Row) :=
  match entries with
  | [] => Ok []
  | e :: es => r ← encode_row e; rs ← encode_rows es; Ok (r :: rs)
  end.

(** The replacing transaction on a table. *)
Definition replace_entries (t : T) entries : Result SessionError T :=
  rows ← encode_rows entries;
  ok_or (StorageError "failed to write session entry") (replace_rows T t rows).

Definition write_session_entries_sqlite w path entries : World T * Result SessionError unit :=
  if w_write_denied w path then (w, Err (StorageError "failed to open sqlite session store"))
  else match sqlite_open (w_files w !! path) with
       | None => (w, Err (StorageError "failed to open sqlite session store"))
       | Some t =>
           let w1 := set_files (<[path := SqliteFile t]> (w_files w)) w in
           match replace_entries t entries with
           | Err e => (w1, Err e)
           | Ok t' => (set_files (<[path := SqliteFile t']> (w_files w1)) w1, Ok tt)
           end
       end.

Definition write_session_entries_postgres w path entries : World T * Result SessionError unit :=
  match (key ← session_path_key w path;
         _ ← open_session_postgres_client w;
         t' ← replace_entries (pg_table w key) entries; Ok (key, t')) with
  | Err e => (w, Err e)
  | Ok (key, t') => (set_postgres (<[key := t']> (w_postgres w)) w, Ok tt)
  end.

Definition write_session_entries_atomic w path entries (b : SessionStorageBackend)
    : World T * Result SessionError unit :=
  match b with
  | Jsonl => write_session_entries_atomic_jsonl w path entries
  | Sqlite => write_session_entries_sqlite w path entries
  | Postgres => write_session_entries_postgres w path entries
  end.

(** ** Legacy import *)

Definition maybe_import_legacy_jsonl_into_sqlite w path (b : SessionStorageBackend)
    : World T * Result SessionError nat :=
  if negb (bool_decide (b = Sqlite)) then (w, Ok 0)
  else
    let legacy := with_extension path "jsonl" in
    if String.eqb legacy path || negb (path_exists w legacy) then (w, Ok 0)
    else if w_write_denied w path
    then (w, Err (StorageError "failed to open sqlite session store"))
    else match sqlite_open (w_files w !! path) with
         | None => (w, Err (StorageError "failed to open sqlite session store"))
         | Some t =>
             let w1 := set_files (<[path := SqliteFile t]> (w_files w)) w in
             if (0 <? length (select_rows T t))%nat then (w1, Ok 0)
             else match read_session_entries_jsonl w1 legacy with
                  | Err e => (w1, Err e)
                  | Ok [] => (w1, Ok 0)
                  | Ok entries =>
                      match write_session_entries_sqlite w1 path entries with
                      | (w2, Err e) => (w2, Err e)
                      | (w2, Ok _) => (w2, Ok (length entries))
                      end
                  end
         end.

(** ** Usage summaries *)

Definition session_usage_path path : string := path +:+ ".usage.json".

Definition read_session_usage_summary_json w path : Result SessionError SessionUsageSummary :=
  match w_files w !! session_usage_path path with
  | None => Ok usage_default
  | Some (SqliteFile _) => Err (StorageError "failed to read session usage file")
  | Some (TextFile raw) =>
      let trimmed := trim raw in
      if is_empty trimmed then Ok usage_default
      else match decode_usage_record Value trimmed with
           | Some (v, u) =>
               if (SESSION_USAGE_SCHEMA_VERSION <? v)%N
               then Err (StorageError "unsupported session usage schema version")
               else Ok u
           | None =>
               ok_or (StorageError "failed to parse session usage summary")
                 (decode_usage_summary Value trimmed)
           end
  end.

Definition read_session_usage_summary_postgres w path
    : Result SessionError SessionUsageSummary :=
  key ← session_path_key w path;
  _ ← open_session_postgres_client w;
  match w_pg_usage w !! key with
  | None => Ok usage_default
  | Some row =>
      if ((ur_schema row <? 0) || (Z.of_N SESSION_USAGE_SCHEMA_VERSION <? ur_schema row))%Z
      then Err (StorageError "unsupported postgres session usage schema version")
      else
        i ← ok_or (StorageError "invalid postgres input_tokens") (u64_of_i64 (ur_input row));
        o ← ok_or (StorageError "invalid postgres output_tokens") (u64_of_i64 (ur_output row));
        t ← ok_or (StorageError "invalid postgres total_tokens") (u64_of_i64 (ur_total row));
        Ok (mkUsage i o t (ur_cost row))
  end.

Definition read_session_usage_summary w path (b : SessionStorageBackend)
    : Result SessionError SessionUsageSummary :=
  match b with
  | Postgres => read_session_usage_summary_postgres w path
  | Jsonl | Sqlite => read_session_usage_summary_json w path
  end.

Definition write_session_usage_summary_atomic_json w path (u : SessionUsageSummary)
    : World T * Result SessionError unit :=
  write_text_atomic_at w (session_usage_path path) "session.usage.json"
    (encode_usage Value (SESSION_USAGE_SCHEMA_VERSION, u) +:+ newline).

Definition write_session_usage_summary_postgres w path (u : SessionUsageSummary)
    : World T * Result SessionError unit :=
  match (key ← session_path_key w path;
         _ ← open_session_postgres_client w;
         i ← ok_or (StorageError "input_tokens exceeds postgres bigint")
               (i64_of_u64 (input_tokens u));
         o ← ok_or (StorageError "output_tokens exceeds postgres bigint")
               (i64_of_u64 (output_tokens u));
         t ← ok_or (StorageError "total_tokens exceeds postgres bigint")
               (i64_of_u64 (total_tokens u));
         Ok (key, mkUsageRow (Z.of_N SESSION_USAGE_SCHEMA_VERSION) i o t
                    (estimated_cost_usd u))) with
  | Err e => (w, Err e)
  | Ok (key, row) => (set_pg_usage (<[key := row]> (w_pg_usage w)) w, Ok tt)
  end.

Definition write_session_usage_summary_atomic w path (u : SessionUsageSummary)
    (b : SessionStorageBackend) : World T * Result SessionError unit :=
  match b with
  | Postgres => write_session_usage_summary_postgres w path u
  | Jsonl | Sqlite => write_session_usage_summary_atomic_json w path u
  end.
End storage.

(** ** Round trips *)

Section laws.
Context {Value T : Type} `{!SessionCodec Value, !RowTable T}.
Context `{!SessionCodecLaws Value, !RowTableLaws T}.
Implicit Types (w : World T) (path : string) (entries : list (SessionEntry Value)).
Abbreviation ids es := (se_id <$> es).

Lemma parse_session_lines_entries entries acc :
  parse_session_lines ((λ e, encode_record Value (EntryRecord e)) <$> entries) acc =
  Ok (acc ++ entries).
Proof using SessionCodecLaws0.
  revert acc. induction entries as [|e es IH]; intros acc; cbn; [by rewrite app_nil_r|].
  rewrite encode_record_nonblank, decode_encode_record, IH by done.
  by rewrite <- app_assoc.
Qed.

Lemma jsonl_lines_parse entries :
  parse_session_lines (lines (unlines (jsonl_lines entries))) [] = Ok entries.
Proof using SessionCodecLaws0.
  rewrite lines_unlines.
  - unfold jsonl_lines. cbn. rewrite encode_record_nonblank, decode_encode_record by done.
    cbn. by rewrite parse_session_lines_entries.
  - apply Forall_forall. intros l Hl. apply elem_of_cons in Hl as [->|Hl].
    + by apply encode_record_line.
    + apply list_elem_of_fmap in Hl as (e & -> & _). by apply encode_record_line.
Qed.

(** Rows that encode entries decode to them, in whatever order. *)
Lemma decode_encode_row e r : encode_row e = Ok r → decode_row r = Ok e.
Proof using SessionCodecLaws0.
  unfold encode_row, decode_row. intros (i & Hi & Hrest)%bind_Ok.
  apply bind_Ok in Hrest as (q & Hq & [= <-]). cbn.
  apply ok_or_Ok, i64_roundtrip in Hi. rewrite Hi. cbn.
  rewrite decode_encode_message by done. cbn.
  destruct e as [j [p|] m]; cbn in *; [|by injection Hq as <-].
  destruct (i64_of_u64 p) as [z|] eqn:Hz; [|done]. injection Hq as <-.
  apply i64_roundtrip in Hz. by rewrite Hz.
Qed.

Lemma encode_row_id e r : encode_row e = Ok r → row_id r = Z.of_N (se_id e).
Proof using Type.
  unfold encode_row. intros (i & Hi%ok_or_Ok & Hrest)%bind_Ok.
  apply bind_Ok in Hrest as (q & _ & [= <-]). cbn.
  unfold i64_of_u64 in Hi. by case_match; simplify_eq.
Qed.

Lemma encode_rows_Forall2 entries rows :
  encode_rows entries = Ok rows ↔ Forall2 (λ e r, encode_row e = Ok r) entries rows.
Proof using Type.
  revert rows. induction entries as [|e es IH]; intros rows; cbn.
  - split; [intros [= <-]; constructor|by inversion 1].
  - rewrite bind_Ok. split.
    + intros (r & Hr & (rs & Hrs & [= <-])%bind_Ok). constructor; [done|]. by apply IH.
    + inversion 1; subst. eexists. split; [done|]. apply bind_Ok.
      eexists. split; [by apply IH|done].
Qed.

Lemma decode_rows_Forall2 rows entries :
  Forall2 (λ r e, decode_row r = Ok e) rows entries → decode_rows rows = Ok entries.
Proof using Type.
  induction 1 as [|r e rs es Hr _ IH]; cbn; [done|]. by rewrite Hr, IH.
Qed.

Definition in_i64 (e : SessionEntry Value) : Prop :=
  (se_id e ≤ i64_max)%N ∧ ∀ p, se_parent_id e = Some p → (p ≤ i64_max)%N.

Lemma encode_row_total e : in_i64 e → ∃ r, encode_row e = Ok r.
Proof using Type.
  intros [Hid Hpar]. unfold encode_row, i64_of_u64.
  rewrite (proj2 (N.leb_le _ _) Hid). cbn.
  destruct (se_parent_id e) as [p|]; cbn; [|eauto].
  rewrite (proj2 (N.leb_le _ _) (Hpar p eq_refl)). cbn. eauto.
Qed.

Lemma encoded_ids entries rows :
  Forall2 (λ e r, encode_row e = Ok r) entries rows →
  row_id <$> rows = Z.of_N <$> ids entries.
Proof using Type.
  induction 1 as [|e r es rs Hr _ IH]; cbn; [done|].
  by rewrite IH, (encode_row_id _ _ Hr).
Qed.

Lemma encoded_sorted entries rows :
  Forall2 (λ e r, encode_row e = Ok r) entries rows →
  StronglySorted row_lt rows → StronglySorted (key_lt se_id) entries.
Proof using Type.
  induction 1 as [|e r es rs Hr Hrs IH]; [constructor|]. intros Hs.
  inversion Hs as [|? ? Hs' Hall]; subst. constructor; [auto|].
  apply Forall_forall. intros e' He'. apply list_elem_of_lookup in He' as [k Hk].
  destruct (Forall2_lookup_l _ _ _ _ _ Hrs Hk) as (r' & Hk' & Hr').
  rewrite Forall_forall in Hall. specialize (Hall r' (list_elem_of_lookup_2 _ _ _ Hk')).
  unfold row_lt in Hall. rewrite (encode_row_id _ _ Hr), (encode_row_id _ _ Hr') in Hall.
  unfold key_lt. lia.
Qed.

(** A committed replacement reads back as the entries in id order. *)
Lemma replace_entries_read t entries t' :
  replace_entries t entries = Ok t' →
  decode_rows (select_rows T t') = Ok (sort_by_key se_id entries).
Proof using SessionCodecLaws0 RowTableLaws0.
  unfold replace_entries. intros (rows & Henc & Hrep%ok_or_Ok)%bind_Ok.
  apply encode_rows_Forall2 in Henc.
  destruct (decide (NoDup (row_id <$> rows))) as [Hnd|Hdup];
    [|by rewrite replace_duplicate in Hrep].
  destruct (replace_select _ t rows Hnd) as (t1 & Ht1 & Hperm & Hsort).
  rewrite Hrep in Ht1. injection Ht1 as <-.
  apply Forall2_flip in Henc.
  destruct (Permutation_Forall2 (symmetry Hperm) Henc) as (es' & Hes & Hall).
  assert (es' = sort_by_key se_id entries) as <-.
  { apply (sorted_lt_perm_eq se_id).
    - eapply encoded_sorted; [|done]. by apply Forall2_flip.
    - apply sorted_NoDup_lt; [apply sort_by_key_sorted|].
      rewrite sort_by_key_perm. apply Forall2_flip in Henc.
      rewrite (encoded_ids _ _ Henc) in Hnd. by apply NoDup_fmap_1 in Hnd.
    - by rewrite sort_by_key_perm, Hes. }
  apply decode_rows_Forall2. eapply Forall2_impl; [exact Hall|].
  intros r e. apply decode_encode_row.
Qed.

Lemma replace_entries_total t entries :
  NoDup (ids entries) → Forall in_i64 entries → ∃ t', replace_entries t entries = Ok t'.
Proof using RowTableLaws0.
  intros Hnd Hin.
  assert (∃ rows, encode_rows entries = Ok rows) as [rows Hrows].
  { clear Hnd. induction Hin as [|e es He _ [rows IH]]; cbn; [eauto|].
    destruct (encode_row_total _ He) as [r Hr]. rewrite Hr, IH. cbn. eauto. }
  unfold replace_entries. rewrite Hrows. cbn.
  destruct (replace_select _ t rows) as (t' & -> & _); [|eauto].
  rewrite (encoded_ids entries) by (by apply encode_rows_Forall2).
  apply NoDup_fmap_2; [|done]. by intros ?? ?%N2Z.inj.
Qed.

(** What each backend returns for the entries it stored: the file keeps their
    order, the tables return them in id order. *)
Definition stored (b : SessionStorageBackend) entries : list (SessionEntry Value) :=
  match b with Jsonl => entries | Sqlite | Postgres => sort_by_key se_id entries end.

Lemma stored_perm b entries : stored b entries ≡ₚ entries.
Proof using Type. destruct b; cbn; [done|..]; apply sort_by_key_perm. Qed.

Lemma stored_idemp b entries : stored b (stored b entries) = stored b entries.
Proof using Type. destruct b; cbn [stored]; [done|..]; apply sort_by_key_idemp. Qed.

Lemma stored_sorted b entries : StronglySorted (key_lt se_id) entries → stored b entries = entries.
Proof using Type. intros Hs%sorted_lt_le. destruct b; cbn; auto using sort_by_key_id. Qed.

Lemma write_read w path entries b w' :
  write_session_entries_atomic w path entries b = (w', Ok tt) →
  read_session_entries w' path b = Ok (stored b entries).
Proof using SessionCodecLaws0 RowTableLaws0.
  destruct b; cbn.
  - unfold write_session_entries_atomic_jsonl, write_text_atomic_at,
      read_session_entries_jsonl.
    destruct (w_write_denied w (temp_path w path "session")); [done|].
    destruct (w_write_denied w path); [done|]. intros [= <-]. cbn.
    rewrite lookup_insert_eq. apply jsonl_lines_parse.
  - unfold write_session_entries_sqlite, read_session_entries_sqlite.
    destruct (w_write_denied w path); [done|].
    destruct (sqlite_open _) as [t|]; [|done].
    destruct (replace_entries t entries) as [t'|] eqn:Hr; [|done]. intros [= <-]. cbn.
    rewrite lookup_insert_eq. cbn. by eapply replace_entries_read.
  - unfold write_session_entries_postgres, read_session_entries_postgres.
    destruct (session_path_key w path) as [key|] eqn:Hk; [|done]. cbn.
    destruct (open_session_postgres_client w) as [[]|] eqn:Hc; [|done]. cbn.
    destruct (replace_entries _ entries) as [t'|] eqn:Hr; [|done]. cbn. intros [= <-].
    unfold session_path_key, open_session_postgres_client in *. cbn in *.
    rewrite Hk, Hc. cbn. unfold pg_table. cbn. rewrite lookup_insert_eq. cbn.
    by eapply replace_entries_read.
Qed.

Lemma temp_path_ne w path fallback : temp_path w path fallback ≠ path.
Proof using Type.
  apply with_file_name_temp_ne. rewrite !chars_of_app, !length_app. cbn. lia.
Qed.

(** A write that fails leaves what a reader sees unchanged. *)
Lemma write_error_keeps w path entries b w' e :
  write_session_entries_atomic w path entries b = (w', Err e) →
  read_session_entries w' path b = read_session_entries (Value:=Value) w path b.
Proof using RowTableLaws0.
  destruct b; cbn.
  - unfold write_session_entries_atomic_jsonl, write_text_atomic_at,
      read_session_entries_jsonl.
    destruct (w_write_denied w (temp_path w path "session")); [by intros [= <- _]|].
    destruct (w_write_denied w path); [|done]. intros [= <- _]. cbn.
    by rewrite lookup_insert_ne by apply temp_path_ne.
  - unfold write_session_entries_sqlite, read_session_entries_sqlite.
    destruct (w_write_denied w path); [by intros [= <- _]|].
    destruct (w_files w !! path) as [f|] eqn:Hf.
    + destruct (sqlite_open (Some f)) as [t|] eqn:Ho; [|by intros [= <- _]; rewrite Hf, ?Ho].
      destruct (replace_entries t entries); [done|]. intros [= <- _]. cbn [w_files set_files].
      by rewrite lookup_insert_eq.
    + cbn. destruct (replace_entries _ entries); [done|]. intros [= <- _]. cbn.
      rewrite lookup_insert_eq. cbn. by rewrite select_empty.
  - unfold write_session_entries_postgres. case_match; [by case_match|].
    by intros [= <- _].
Qed.

(** A stored usage summary reads back. *)
Lemma usage_write_read w path u b w' :
  f64_is_finite (estimated_cost_usd u) = true →
  write_session_usage_summary_atomic (Value:=Value) w path u b = (w', Ok tt) →
  read_session_usage_summary (Value:=Value) w' path b = Ok u.
Proof using SessionCodecLaws0.
  intros Hfin Hw.
  assert (write_session_usage_summary_atomic_json (Value:=Value) w path u = (w', Ok tt) →
          read_session_usage_summary_json (Value:=Value) w' path = Ok u) as Hjson.
  { clear Hw. unfold write_session_usage_summary_atomic_json, write_text_atomic_at,
      read_session_usage_summary_json.
    destruct (w_write_denied w (temp_path _ _ _)); [done|].
    destruct (w_write_denied w _); [done|]. intros [= <-]. cbn [w_files set_files].
    rewrite lookup_insert_eq.
    destruct (decode_encode_usage _ SESSION_USAGE_SCHEMA_VERSION u Hfin) as [Hd He].
    by rewrite He, Hd. }
  destruct b; [by apply Hjson..|]. clear Hjson. revert Hw.
  unfold write_session_usage_summary_atomic, write_session_usage_summary_postgres,
    read_session_usage_summary, read_session_usage_summary_postgres.
  destruct (session_path_key w path) as [key|] eqn:Hk; [|done]. cbn.
  destruct (open_session_postgres_client w) as [[]|] eqn:Hc; [|done]. cbn.
  destruct (i64_of_u64 (input_tokens u)) as [i|] eqn:Hi; [|done].
  destruct (i64_of_u64 (output_tokens u)) as [o|] eqn:Ho; [|done].
  destruct (i64_of_u64 (total_tokens u)) as [t|] eqn:Ht; [|done]. cbn. intros [= <-].
  unfold session_path_key, open_session_postgres_client in *. cbn in *. rewrite Hk, Hc. cbn.
  rewrite lookup_insert_eq. cbn.
  rewrite (i64_roundtrip _ _ Hi), (i64_roundtrip _ _ Ho), (i64_roundtrip _ _ Ht). cbn.
  by destruct u.
Qed.
End laws.
