(* ===== verification/SessionLocking.v ===== *)
(** * The session lock ([tau-session], [session_locking.rs])

    [acquire_lock] and the guard's release on the [World], for one process
    while no other touches the lock file; and the protocol between several
    processes as a step relation, where the staleness test and the removal of
    [reclaim_stale_lock] are separate system calls. *)

From Stdlib Require Import NArith ZArith Lia.
From stdpp Require Import base gmap sets strings relations functions list.
From S2P Require Import Prelude RustStr Messages SessionIntegrity SessionStorage.

#[local] Open Scope string_scope.
#[local] Open Scope list_scope.
#[local] Open Scope nat_scope.

(** ** One process *)

Section sequential.
Context {T : Type}.
Implicit Types (w : World T) (path : string).

(** [reclaim_stale_lock]: the age is zero when the clock went backwards. *)
Definition reclaim_stale_lock w path (stale_after : N) : World T * bool :=
  match w_locks w !! path with
  | None => (w, false)
  | Some modified =>
      let age := (w_now_ms w - modified)%N in
      if (age <? stale_after)%N then (w, false)
      else if w_write_denied w path then (w, false)
      else (set_locks (delete path (w_locks w)) w, true)
  end.

(** The retry loop, 50 ms between attempts; [None] is running out of fuel. *)
Fixpoint acquire_loop (fuel : nat) w path (start timeout stale_after : N)
    : option (World T * Result SessionError unit) :=
  match fuel with
  | O => None
  | S f =>
      match w_locks w !! path with
      | None =>
          if w_write_denied w path
          then Some (w, Err (StorageError "failed to acquire lock"))
          else Some (set_locks (<[path := w_now_ms w]> (w_locks w)) w, Ok tt)
      | Some _ =>
          let '(w1, reclaimed) :=
            if (0 <? stale_after)%N then reclaim_stale_lock w path stale_after else (w, false) in
          if reclaimed then acquire_loop f w1 path start timeout stale_after
          else if (timeout <=? w_now_ms w1 - start)%N then Some (w1, Err LockTimeout)
          else acquire_loop f (set_now_ms (w_now_ms w1 + 50) w1) path start timeout stale_after
      end
  end.

Definition acquire_lock w path (timeout stale_after : N) : World T * Result SessionError unit :=
  default (w, Err LockTimeout)
    (acquire_loop (N.to_nat (timeout / 50) + 4) w path (w_now_ms w) timeout stale_after).

(** [LockGuard::drop] *)
Definition release_lock w path : World T :=
  if w_write_denied w path then w else set_locks (delete path (w_locks w)) w.

(** Iterations left: the sleeps until the timeout, then at most a reclaim and
    the attempt after it. *)
Definition loop_need (remaining : N) : N :=
  if (remaining =? 0)%N then 2 else remaining / 50 + 3.

Lemma loop_need_ge r : (2 ≤ loop_need r)%N.
Proof. unfold loop_need. pose proof (N.le_0_l (r / 50)). destruct (_ =? _)%N; lia. Qed.

Lemma loop_need_le r : (loop_need r ≤ r / 50 + 3)%N.
Proof. unfold loop_need. pose proof (N.le_0_l (r / 50)). destruct (_ =? _)%N; lia. Qed.

Lemma loop_need_step r : (0 < r)%N → (loop_need (r - 50) + 1 ≤ loop_need r)%N.
Proof.
  unfold loop_need. intros Hr. rewrite (proj2 (N.eqb_neq r 0)) by lia.
  pose proof (N.le_0_l (r / 50)). destruct (N.eqb_spec (r - 50) 0); [lia|].
  replace r with (1 * 50 + (r - 50))%N at 2 by lia. rewrite N.div_add_l by done. lia.
Qed.

Lemma acquire_loop_total fuel w path start timeout stale :
  (start ≤ w_now_ms w)%N →
  (w_locks w !! path = None ∧ 1 ≤ fuel ∨
   (loop_need (timeout - (w_now_ms w - start)) ≤ N.of_nat fuel)%N) →
  is_Some (acquire_loop fuel w path start timeout stale).
Proof.
  revert w. induction fuel as [|f IH]; intros w Hs Hf.
  { pose proof (loop_need_ge (timeout - (w_now_ms w - start))). exfalso. lia. }
  assert (w_locks w !! path ≠ None → 2 ≤ S f) as H2.
  { intros Hne. pose proof (loop_need_ge (timeout - (w_now_ms w - start))).
    destruct Hf as [[? _]|Hf]; [done|]. lia. }
  cbn [acquire_loop]. destruct (w_locks w !! path) as [m|] eqn:Hl;
    [|by destruct (w_write_denied w path)].
  specialize (H2 ltac:(done)). destruct Hf as [[? _]|Hf]; [done|].
  assert (∀ w1, w_now_ms w1 = w_now_ms w → is_Some
    (if (timeout <=? w_now_ms w1 - start)%N then Some (w1, Err LockTimeout)
     else acquire_loop f (set_now_ms (w_now_ms w1 + 50) w1) path start timeout stale)) as Hwait.
  { intros w1 Hn. rewrite Hn. destruct (N.leb_spec timeout (w_now_ms w - start)); [done|].
    apply IH; cbn; [lia|]. right.
    replace (timeout - (w_now_ms w + 50 - start))%N
      with (timeout - (w_now_ms w - start) - 50)%N by lia.
    pose proof (loop_need_step (timeout - (w_now_ms w - start))). lia. }
  destruct (0 <? stale)%N; [|by apply Hwait].
  unfold reclaim_stale_lock. rewrite Hl.
  destruct (_ <? stale)%N; [by apply Hwait|].
  destruct (w_write_denied w path); [by apply Hwait|].
  apply IH; [done|]. left. cbn. rewrite lookup_delete_eq. split; [done|lia].
Qed.

Lemma acquire_lock_loop w path timeout stale :
  acquire_loop (N.to_nat (timeout / 50) + 4) w path (w_now_ms w) timeout stale =
  Some (acquire_lock w path timeout stale).
Proof.
  unfold acquire_lock.
  destruct (acquire_loop_total (N.to_nat (timeout / 50) + 4) w path (w_now_ms w) timeout stale)
    as [r ->]; [lia| |done].
  right. replace (timeout - (w_now_ms w - w_now_ms w))%N with timeout by lia.
  pose proof (loop_need_le timeout). lia.
Qed.

(** The lock touches only the lock file and the clock. *)
Definition same_storage w w' : Prop :=
  w' = set_now_ms (w_now_ms w') (set_locks (w_locks w') w).

Lemma same_storage_refl w : same_storage w w.
Proof. by destruct w. Qed.
Lemma same_storage_trans w1 w2 w3 :
  same_storage w1 w2 → same_storage w2 w3 → same_storage w1 w3.
Proof. unfold same_storage. intros -> ->. done. Qed.
Lemma same_storage_locks w l : same_storage w (set_locks l w).
Proof. by destruct w. Qed.
Lemma same_storage_now w n : same_storage w (set_now_ms n w).
Proof. by destruct w. Qed.

Lemma acquire_loop_storage fuel w path start timeout stale w' r :
  acquire_loop fuel w path start timeout stale = Some (w', r) → same_storage w w'.
Proof.
  revert w. induction fuel as [|f IH]; intros w; [done|]. cbn [acquire_loop].
  destruct (w_locks w !! path) as [m|] eqn:Hl.
  - destruct (if (0 <? stale)%N then _ else _) as [w1 b] eqn:Hr.
    assert (same_storage w w1) as Hw1.
    { destruct (0 <? stale)%N; [|injection Hr as <- <-; apply same_storage_refl].
      unfold reclaim_stale_lock in Hr. rewrite Hl in Hr.
      repeat case_match; injection Hr as <- <-;
        auto using same_storage_refl, same_storage_locks. }
    intros H. eapply same_storage_trans; [exact Hw1|].
    destruct b; [by apply IH|]. destruct (timeout <=? _)%N.
    + injection H as <- <-. apply same_storage_refl.
    + eapply same_storage_trans; [apply same_storage_now|by apply IH].
  - destruct (w_write_denied w path); intros [= <- <-];
      auto using same_storage_refl, same_storage_locks.
Qed.

Lemma acquire_lock_storage w path timeout stale w' r :
  acquire_lock w path timeout stale = (w', r) → same_storage w w'.
Proof.
  intros H. eapply acquire_loop_storage. rewrite acquire_lock_loop. by rewrite H.
Qed.

Lemma release_lock_storage w path : same_storage w (release_lock w path).
Proof.
  unfold release_lock. destruct (w_write_denied w path);
    auto using same_storage_refl, same_storage_locks.
Qed.

(** A free lock is taken at once. *)
Lemma acquire_lock_free w path timeout stale :
  w_locks w !! path = None → w_write_denied w path = false →
  acquire_lock w path timeout stale =
    (set_locks (<[path := w_now_ms w]> (w_locks w)) w, Ok tt).
Proof.
  intros Hl Hd. unfold acquire_lock. replace (N.to_nat (timeout / 50) + 4)
    with (S (N.to_nat (timeout / 50) + 3)) by lia.
  cbn [acquire_loop]. by rewrite Hl, Hd.
Qed.

Lemma reads_same_storage {Value} `{!SessionCodec Value, !RowTable T} w w' path b :
  same_storage w w' →
  read_session_entries (Value:=Value) w' path b = read_session_entries w path b.
Proof. unfold same_storage. intros ->. by destruct b. Qed.

Lemma usage_same_storage {Value} `{!SessionCodec Value} w w' path b :
  same_storage w w' →
  read_session_usage_summary (Value:=Value) w' path b =
  read_session_usage_summary (Value:=Value) w path b.
Proof. unfold same_storage. intros ->. by destruct b. Qed.
End sequential.

(** ** Several processes *)

Inductive LockPhase := Idle | Trying | Reclaiming | Holding.

Record LockState := mkLock
  { ls_file : option N;             (** mtime of the lock file, if it exists *)
    ls_now : N;
    ls_phase : N → LockPhase }.

(** One system call of one process, or the passing of time.  [Reclaiming] is a
    process between the staleness test and the [remove_file] of
    [reclaim_stale_lock]. *)
Inductive lock_step (stale_after : N) : LockState → LockState → Prop :=
| step_tick d f n ph :
    lock_step stale_after (mkLock f n ph) (mkLock f (n + d) ph)
| step_start p f n ph :
    ph p = Idle →
    lock_step stale_after (mkLock f n ph) (mkLock f n (<[p := Trying]> ph))
| step_create_new p n ph :
    ph p = Trying →
    lock_step stale_after (mkLock None n ph) (mkLock (Some n) n (<[p := Holding]> ph))
| step_observe_stale p m n ph :
    ph p = Trying → (0 < stale_after)%N → (stale_after ≤ n - m)%N →
    lock_step stale_after (mkLock (Some m) n ph) (mkLock (Some m) n (<[p := Reclaiming]> ph))
| step_remove p f n ph :
    ph p = Reclaiming →
    lock_step stale_after (mkLock f n ph) (mkLock None n (<[p := Trying]> ph))
| step_time_out p f n ph :
    ph p = Trying →
    lock_step stale_after (mkLock f n ph) (mkLock f n (<[p := Idle]> ph))
| step_drop_guard p f n ph :
    ph p = Holding →
    lock_step stale_after (mkLock f n ph) (mkLock None n (<[p := Idle]> ph))
| step_crash (p : N) f n ph :
    lock_step stale_after (mkLock f n ph) (mkLock f n (<[p := Idle]> ph)).

Definition lock_init : LockState := mkLock None 0 (λ _, Idle).

Definition lock_reachable (stale_after : N) : LockState → Prop :=
  rtc (lock_step stale_after) lock_init.

(** Nobody reclaims, a holder implies the file, and holders are unique. *)
Definition lock_inv (s : LockState) : Prop :=
  (∀ p, ls_phase s p ≠ Reclaiming) ∧
  (∀ p, ls_phase s p = Holding → is_Some (ls_file s)) ∧
  (∀ p q, ls_phase s p = Holding → ls_phase s q = Holding → p = q).

Lemma phase_insert (ph : N → LockPhase) p q x :
  (<[p := x]> ph) q = if decide (p = q) then x else ph q.
Proof. unfold insert, fn_insert. by repeat case_decide. Qed.

(** Case analysis on whose phase changed. *)
Ltac solve_phase :=
  intros; cbn in *; repeat rewrite phase_insert in *; repeat case_decide; subst;
  try done; eauto; try congruence.

Lemma lock_inv_step s s' : lock_inv s → lock_step 0 s s' → lock_inv s'.
Proof.
  intros (Hr & Hf & Hu) Hstep. destruct Hstep as [d f n ph|p f n ph Hp|p n ph Hp|
    p m n ph Hp H0 Hs|p f n ph Hp|p f n ph Hp|p f n ph Hp|p f n ph]; cbn in *.
  - done.
  - split_and!; solve_phase.
  - assert (∀ q, ph q ≠ Holding) as Hnone.
    { intros q Hq. by destruct (Hf q Hq). }
    split_and!; solve_phase; naive_solver.
  - lia.
  - by destruct (Hr p).
  - split_and!; solve_phase.
  - split_and!; solve_phase.
    exfalso. eauto.
  - split_and!; solve_phase.
Qed.

Lemma lock_inv_reachable s : lock_reachable 0 s → lock_inv s.
Proof.
  intros Hr. unfold lock_reachable in Hr.
  assert (lock_inv lock_init) as Hinit by (split_and!; cbn; done).
  revert Hinit Hr. generalize lock_init. intros s0 Hinit Hr.
  induction Hr as [|s1 s2 s3 Hs _ IH]; [done|]. eauto using lock_inv_step.
Qed.

(** ** Theorems *)

(** C11: without stale reclamation the lock is a lock: in every reachable state,
    crashes included, at most one process holds it. *)
Theorem lock_mutual_exclusion (s : LockState) (p q : N) :
  lock_reachable 0 s → ls_phase s p = Holding → ls_phase s q = Holding → p = q.
Proof. intros (_ & _ & Hu)%lock_inv_reachable. apply Hu. Qed.

Lemma lock_mutual_exclusion_witness :
  ∃ s, lock_reachable 0 s ∧ ls_phase s 1%N = Holding ∧ (∀ q, ls_phase s q = Holding → 1%N = q).
Proof.
  set (ph1 := <[1%N := Trying]> (λ _ : N, Idle)).
  exists (mkLock (Some 0%N) 0 (<[1%N := Holding]> ph1)).
  assert (lock_reachable 0 (mkLock (Some 0%N) 0 (<[1%N := Holding]> ph1))) as Hr.
  { eapply rtc_l; [apply (step_start _ 1%N); done|].
    eapply rtc_l; [apply (step_create_new _ 1%N); done|]. apply rtc_refl. }
  split_and!; [done|done|]. intros q Hq.
  apply (lock_mutual_exclusion _ 1%N q Hr); done.
Defined.

(** With stale reclamation two processes can hold the lock at once, one of
    them with a fresh lock file: the staleness test and the removal are two
    system calls, so a process that saw a stale lock can remove the new lock
    of another one that reclaimed it first. *)
Theorem stale_reclaim_breaks_exclusion (stale_after : N) :
  (0 < stale_after)%N →
  ∃ s m, lock_reachable stale_after s ∧
    ls_phase s 1%N = Holding ∧ ls_phase s 2%N = Holding ∧
    ls_file s = Some m ∧ (ls_now s - m < stale_after)%N.
Proof.
  intros Hst.
  eexists (mkLock (Some (0 + stale_after))%N (0 + stale_after) _), _. split.
  - eapply rtc_l; [apply (step_start _ 3%N); done|].
    eapply rtc_l; [apply (step_create_new _ 3%N); done|].
    eapply rtc_l; [apply (step_crash _ 3%N)|].
    eapply rtc_l; [apply (step_tick _ stale_after)|].
    eapply rtc_l; [apply (step_start _ 1%N); done|].
    eapply rtc_l; [apply (step_start _ 2%N); done|].
    eapply rtc_l; [apply (step_observe_stale _ 1%N); [done|done|lia]|].
    eapply rtc_l; [apply (step_observe_stale _ 2%N); [done|done|lia]|].
    eapply rtc_l; [apply (step_remove _ 1%N); done|].
    eapply rtc_l; [apply (step_create_new _ 1%N); done|].
    eapply rtc_l; [apply (step_remove _ 2%N); done|].
    eapply rtc_l; [apply (step_create_new _ 2%N); done|].
    apply rtc_refl.
  - cbn. split_and!; try done. lia.
Qed.

Lemma stale_reclaim_breaks_exclusion_witness :
  ∃ s, lock_reachable 30000 s ∧ ls_phase s 1%N = Holding ∧ ls_phase s 2%N = Holding.
Proof.
  destruct (stale_reclaim_breaks_exclusion 30000) as (s & m & Hr & H1 & H2 & _); [lia|].
  by exists s.
Defined.

(** Acquiring the lock always returns: the retry loop ends within
    [timeout / 50 + 4] attempts, with the lock or with an error. *)
Theorem acquire_lock_terminates {T} (w : World T) path (timeout stale_after : N) :
  acquire_loop (N.to_nat (timeout / 50) + 4) w path (w_now_ms w) timeout stale_after =
  Some (acquire_lock w path timeout stale_after).
Proof. apply acquire_lock_loop. Qed.
