(* ===== verification/SessionStore.v ===== *)
(** * The session store ([tau-session], [session_store_runtime.rs])

    The in-memory [SessionStore] over its storage: loading, appending,
    lineage, export, import, branch merges, repair, compaction and usage
    accounting.  Every mutating operation re-reads the entries under the lock,
    computes new ones, writes them atomically and only then replaces the
    in-memory copy; the operations below thread the [World] and the store in
    that order and return early where the code does. *)

From Stdlib Require Import NArith ZArith Lia.
From stdpp Require Import base gmap sets strings relations sorting list.
From S2P Require Import Prelude RustStr Messages SessionIntegrity SessionStorage SessionLocking.

#[local] Open Scope string_scope.
#[local] Open Scope list_scope.
#[local] Open Scope nat_scope.

Inductive SessionImportMode := ImportMerge | ImportReplace.
Inductive SessionMergeStrategy := Append | Squash | FastForward.

Definition strategy_label (s : SessionMergeStrategy) : string :=
  match s with Append => "append" | Squash => "squash" | FastForward => "fast-forward" end.

Record RepairReport := mkRepair
  { removed_duplicates : nat; duplicate_ids : list N;
    removed_invalid_parent : nat; invalid_parent_ids : list N;
    removed_cycles : nat; cycle_ids : list N }.

Record CompactReport := mkCompact
  { removed_entries : nat; retained_entries : nat; compact_head_id : option N }.

Record ImportReport := mkImport
  { imported_entries : nat; remapped_entries : nat; remapped_ids : list (N * N);
    replaced_entries : nat; resulting_entries : nat; import_active_head : option N }.

Record BranchMergeReport := mkMerge
  { source_head : N; target_head : N; merge_strategy : SessionMergeStrategy;
    common_ancestor : option N; appended_entries : nat; merged_head : N }.

Definition DEFAULT_LOCK_WAIT_MS : N := 5000.
Definition DEFAULT_LOCK_STALE_MS : N := 30000.

Section store.
Context {Value T : Type} `{!SessionCodec Value, !RowTable T}.
Implicit Types (w : World T) (es : list (SessionEntry Value)).
Abbreviation ids es := (se_id <$> es).

Record SessionStore := mkStore
  { st_path : string;
    st_backend : SessionStorageBackend;
    st_backend_reason_code : string;
    st_entries : list (SessionEntry Value);
    st_usage : SessionUsageSummary;
    st_next_id : N;
    st_lock_wait_ms : N;
    st_lock_stale_ms : N }.
Implicit Types st : SessionStore.

(** [entries.iter().map(|entry| entry.id).max().unwrap_or(0) + 1] *)
Definition next_id_of es : N := add_u64 (max_or_zero (ids es)) 1.

Definition set_entries es (next : N) st : SessionStore :=
  mkStore (st_path st) (st_backend st) (st_backend_reason_code st) es (st_usage st) next
    (st_lock_wait_ms st) (st_lock_stale_ms st).
Definition set_usage (u : SessionUsageSummary) st : SessionStore :=
  mkStore (st_path st) (st_backend st) (st_backend_reason_code st) (st_entries st) u
    (st_next_id st) (st_lock_wait_ms st) (st_lock_stale_ms st).

Definition load w (path : string) : World T * Result SessionError SessionStore :=
  match resolve_session_backend w path with
  | Err e => (w, Err e)
  | Ok resolved =>
      let backend := rb_backend resolved in
      match maybe_import_legacy_jsonl_into_sqlite (Value:=Value) w path backend with
      | (w1, Err e) => (w1, Err e)
      | (w1, Ok _) =>
          (w1, entries ← read_session_entries w1 path backend;
               usage ← read_session_usage_summary (Value:=Value) w1 path backend;
               Ok (mkStore path backend (rb_reason_code resolved) entries usage
                     (next_id_of entries) DEFAULT_LOCK_WAIT_MS DEFAULT_LOCK_STALE_MS))
      end
  end.

Definition head_id st : option N := se_id <$> last (st_entries st).
Definition contains st (id : N) : bool :=
  existsb (λ e, (se_id e =? id)%N) (st_entries st).
Definition set_lock_policy (wait stale : N) st : SessionStore :=
  mkStore (st_path st) (st_backend st) (st_backend_reason_code st) (st_entries st)
    (st_usage st) (st_next_id st) (N.max wait 1) stale.

Definition lock_path st : string := with_extension (st_path st) "lock".

(** Run a body while holding the store's lock; the guard is dropped on every
    way out. *)
Definition with_lock {A} w st
    (body : World T → World T * SessionStore * Result SessionError A)
    : World T * SessionStore * Result SessionError A :=
  match acquire_lock w (lock_path st) (st_lock_wait_ms st) (st_lock_stale_ms st) with
  | (w1, Err e) => (w1, st, Err e)
  | (w1, Ok _) => let '(w2, st2, r) := body w1 in (release_lock w2 (lock_path st), st2, r)
  end.

(** ** Appending *)

(** The push loop of [append_messages]. *)
Fixpoint append_loop (messages : list (Message Value)) (parent : option N) (next : N) es
    : list (SessionEntry Value) * option N * N :=
  match messages with
  | [] => (es, parent, next)
  | m :: ms => append_loop ms (Some next) (add_u64 next 1) (es ++ [mkEntry next parent m])
  end.

Definition check_parent es (parent : option N) : Result SessionError unit :=
  match parent with
  | Some p => bail_if (negb (existsb (λ e, (se_id e =? p)%N) es)) (ParentDoesNotExist p)
  | None => Ok tt
  end.

Definition append_messages w st (parent : option N) (messages : list (Message Value))
    : World T * SessionStore * Result SessionError (option N) :=
  match messages with
  | [] => (w, st, Ok parent)
  | _ =>
      with_lock w st (λ w1,
        match (entries ← read_session_entries w1 (st_path st) (st_backend st);
               _ ← check_parent entries parent; Ok entries) with
        | Err e => (w1, st, Err e)
        | Ok entries =>
            let '(entries', parent', next) :=
              append_loop messages parent (next_id_of entries) entries in
            match write_session_entries_atomic w1 (st_path st) entries' (st_backend st) with
            | (w2, Err e) => (w2, st, Err e)
            | (w2, Ok _) => (w2, set_entries entries' next st, Ok parent')
            end
        end)
  end.

Definition ensure_initialized w st (system_prompt : string)
    : World T * SessionStore * Result SessionError (option N) :=
  match st_entries st with
  | _ :: _ => (w, st, Ok (head_id st))
  | [] =>
      if is_empty (trim system_prompt) then (w, st, Ok None)
      else append_messages w st None [message_system system_prompt]
  end.

(** ** Usage accounting *)

Definition is_zero_delta (d : SessionUsageSummary) : bool :=
  (input_tokens d =? 0)%N && (output_tokens d =? 0)%N && (total_tokens d =? 0)%N
  && f64_abs_le_epsilon (estimated_cost_usd d).

Definition add_usage (s d : SessionUsageSummary) : SessionUsageSummary :=
  mkUsage (saturating_add_u64 (input_tokens s) (input_tokens d))
    (saturating_add_u64 (output_tokens s) (output_tokens d))
    (saturating_add_u64 (total_tokens s) (total_tokens d))
    (f64_add (estimated_cost_usd s) (f64_max_zero (estimated_cost_usd d))).

Definition record_usage_delta w st (delta : SessionUsageSummary)
    : World T * SessionStore * Result SessionError unit :=
  if is_zero_delta delta then (w, st, Ok tt)
  else
    with_lock w st (λ w1,
      match read_session_usage_summary (Value:=Value) w1 (st_path st) (st_backend st) with
      | Err e => (w1, st, Err e)
      | Ok summary =>
          let summary' := add_usage summary delta in
          match write_session_usage_summary_atomic (Value:=Value) w1 (st_path st) summary'
                  (st_backend st) with
          | (w2, Err e) => (w2, st, Err e)
          | (w2, Ok _) => (w2, set_usage summary' st, Ok tt)
          end
      end).

(** ** Lineage and export *)

Definition find_entry es (id : N) : option (SessionEntry Value) :=
  List.find (λ e, (se_id e =? id)%N) es.

Definition lineage_entries st (head : option N) : Result SessionError (list (SessionEntry Value)) :=
  match head with
  | None => Ok []
  | Some h => reverse <$> run_lineage (length (st_entries st)) (find_entry (st_entries st)) h
  end.

Definition lineage_messages st (head : option N) : Result SessionError (list (Message Value)) :=
  result_map (λ l : list (SessionEntry Value), se_message <$> l) (lineage_entries st head).

Definition export_lineage w st (head : option N) (destination : string)
    : World T * Result SessionError nat :=
  match (l ← lineage_entries st head;
         r ← resolve_session_backend w destination; Ok (l, rb_backend r)) with
  | Err e => (w, Err e)
  | Ok (lineage, backend) =>
      match write_session_entries_atomic w destination lineage backend with
      | (w', Err e) => (w', Err e)
      | (w', Ok _) => (w', Ok (length lineage))
      end
  end.

Definition export_lineage_jsonl st (head : option N) : Result SessionError string :=
  l ← lineage_entries st head; Ok (join newline (jsonl_lines l)).

(** ** Import *)

Definition import_snapshot w st (source : string) (mode : SessionImportMode)
    : World T * SessionStore * Result SessionError ImportReport :=
  match (r ← resolve_session_backend w source;
         imported ← read_session_entries w source (rb_backend r);
         let report := validation_report_for_entries imported in
         _ ← bail_if (negb (is_valid report))
               (ImportValidationFailed (vr_entries report) (vr_duplicates report)
                  (vr_invalid_parent report) (vr_cycles report));
         Ok imported) with
  | Err e => (w, st, Err e)
  | Ok imported =>
      with_lock w st (λ w1,
        match read_session_entries w1 (st_path st) (st_backend st) with
        | Err e => (w1, st, Err e)
        | Ok existing =>
            match mode with
            | ImportMerge =>
                match merge_entries_with_remap existing imported with
                | Err e => (w1, st, Err e)
                | Ok (merged, remapped, active_head) =>
                    match write_session_entries_atomic w1 (st_path st) merged (st_backend st) with
                    | (w2, Err e) => (w2, st, Err e)
                    | (w2, Ok _) =>
                        (w2, set_entries merged (next_id_of merged) st,
                         Ok (mkImport (length imported) (length remapped) remapped 0
                               (length merged) active_head))
                    end
                end
            | ImportReplace =>
                match write_session_entries_atomic w1 (st_path st) imported (st_backend st) with
                | (w2, Err e) => (w2, st, Err e)
                | (w2, Ok _) =>
                    (w2, set_entries imported (next_id_of imported) st,
                     Ok (mkImport (length imported) 0 [] (length existing) (length imported)
                           (se_id <$> last imported)))
                end
            end
        end)
  end.

(** ** Branch merges *)

Definition lineage_ids_root_to_head (m : gmap N (SessionEntry Value)) (head : N)
    : Result SessionError (list N) :=
  result_map (λ l : list (SessionEntry Value), reverse (ids l))
    (run_lineage (size m) (λ i, m !! i) head).

(** The last id of the target lineage that is also on the source lineage. *)
Definition find_common_ancestor (source_lineage target_lineage : list N) : option N :=
  foldl (λ acc id, if decide (id ∈ source_lineage) then Some id else acc) None target_lineage.

Definition source_suffix (source_lineage : list N) (common : option N) : list N :=
  let start := match common with
               | Some id => match list_find (λ x, x = id) source_lineage with
                            | Some (index, _) => S index
                            | None => 0
                            end
               | None => 0
               end in
  drop start source_lineage.

(** One preview line of a squash summary. *)
Definition squash_line (e : SessionEntry Value) : string :=
  let preview := replace_char newline_char space_char (text_content (se_message e)) in
  let preview := if is_empty (trim preview) then "(no text)" else preview in
  let preview := if (72 <? chars_count preview)%nat then take_chars 72 preview +:+ "..."
                 else preview in
  "- " +:+ role_label (msg_role (se_message e)) +:+ ": " +:+ preview.

Fixpoint squash_lines (m : gmap N (SessionEntry Value)) (l : list N)
    : Result SessionError (list string) :=
  match l with
  | [] => Ok []
  | i :: l' =>
      e ← ok_or (MissingSource i) (m !! i);
      rest ← squash_lines m l';
      Ok (squash_line e :: rest)
  end.

Definition render_squash_merge_summary (m : gmap N (SessionEntry Value))
    (source target : N) (unique : list N) : Result SessionError string :=
  previews ← squash_lines m (take 6 unique);
  Ok (join newline
       (["squash merge: source=" +:+ show_u64 source +:+ " target=" +:+ show_u64 target
           +:+ " entries=" +:+ show_usize (length unique)] ++ previews ++
        (if (6 <? length unique)%nat
         then ["- ... " +:+ show_usize (length unique - 6) +:+ " additional entries"] else []))).

(** The push loop of an appending merge. *)
Fixpoint append_merge_loop (m : gmap N (SessionEntry Value)) (unique : list N)
    (parent : option N) (next : N) es (appended : nat)
    : Result SessionError (list (SessionEntry Value) * option N * nat) :=
  match unique with
  | [] => Ok (es, parent, appended)
  | i :: l' =>
      e ← ok_or (MissingSource i) (m !! i);
      append_merge_loop m l' (Some next) (add_u64 next 1)
        (es ++ [mkEntry next parent (se_message e)]) (S appended)
  end.

(** Everything [merge_branches] computes from the entries read under the lock:
    the new entries and the report. *)
Definition merge_branches_entries es (source target : N) (strategy : SessionMergeStrategy)
    : Result SessionError (list (SessionEntry Value) * BranchMergeReport) :=
  let m := id_to_entry es in
  _ ← bail_if (bool_decide (m !! source = None)) (UnknownSource source);
  _ ← bail_if (bool_decide (m !! target = None)) (UnknownTarget target);
  _ ← bail_if (source =? target)%N SameSourceAndTarget;
  source_lineage ← lineage_ids_root_to_head m source;
  target_lineage ← lineage_ids_root_to_head m target;
  let common := find_common_ancestor source_lineage target_lineage in
  let unique := source_suffix source_lineage common in
  match strategy with
  | FastForward =>
      _ ← bail_if (negb (bool_decide (target ∈ source_lineage)))
            (CannotFastForward target source);
      Ok (es, mkMerge source target strategy common 0 source)
  | Append =>
      r ← append_merge_loop m unique (Some target) (next_id_of es) es 0;
      let '(es', parent, appended) := r in
      Ok (es', mkMerge source target strategy common appended (default target parent))
  | Squash =>
      match unique with
      | [] => Ok (es, mkMerge source target strategy common 0 target)
      | _ =>
          summary ← render_squash_merge_summary m source target unique;
          let new_id := next_id_of es in
          Ok (es ++ [mkEntry new_id (Some target) (assistant_text summary)],
              mkMerge source target strategy common 1 new_id)
      end
  end.

Definition merge_branches w st (source target : N) (strategy : SessionMergeStrategy)
    : World T * SessionStore * Result SessionError BranchMergeReport :=
  with_lock w st (λ w1,
    match (es ← read_session_entries w1 (st_path st) (st_backend st);
           merge_branches_entries es source target strategy) with
    | Err e => (w1, st, Err e)
    | Ok (entries, report) =>
        match (if (0 <? appended_entries report)%nat
               then write_session_entries_atomic w1 (st_path st) entries (st_backend st)
               else (w1, Ok tt)) with
        | (w2, Err e) => (w2, st, Err e)
        | (w2, Ok _) => (w2, set_entries entries (next_id_of entries) st, Ok report)
        end
    end).

Definition validation_report st : SessionValidationReport :=
  validation_report_for_entries (st_entries st).

Definition branch_tips st : list (SessionEntry Value) :=
  let parent_ids : gset N := list_to_set (omap se_parent_id (st_entries st)) in
  sort_by_key se_id (filter (λ e, se_id e ∉ parent_ids) (st_entries st)).

(** ** Repair *)

(** First occurrence of each id, and the ids of the others. *)
Fixpoint dedup_entries es (seen : gset N) : list (SessionEntry Value) * list N :=
  match es with
  | [] => ([], [])
  | e :: es' =>
      if decide (se_id e ∈ seen) then
        let '(u, d) := dedup_entries es' seen in (u, se_id e :: d)
      else
        let '(u, d) := dedup_entries es' ({[se_id e]} ∪ seen) in (e :: u, d)
  end.

Definition sort_ids (l : list N) : list N := sort_by_key (λ x, x) l.

(** Ids whose parent is missing from the map, sorted. *)
Definition orphan_ids (m : gmap N (SessionEntry Value)) : list N :=
  sort_ids (fst <$> filter (λ p, parent_missing m p.2 = true) (map_to_list m)).

(** The pruning loop: each round removes the orphans of the current map. *)
Fixpoint prune_orphans (fuel : nat) (m : gmap N (SessionEntry Value)) (removed : list N)
    : option (gmap N (SessionEntry Value) * list N) :=
  match fuel with
  | O => None
  | S f =>
      match orphan_ids m with
      | [] => Some (m, removed)
      | orphans =>
          prune_orphans f (foldl (λ acc i, delete i acc) m orphans) (removed ++ orphans)
      end
  end.

Definition cyclic_ids (m : gmap N (SessionEntry Value)) : list N :=
  sort_ids (filter (λ i, has_cycle i m = true) (fst <$> map_to_list m)).

Definition repair_entries es : list (SessionEntry Value) * RepairReport :=
  let '(unique, dups) := dedup_entries (sort_by_key se_id es) ∅ in
  let m := id_to_entry unique in
  let '(m1, orphans) := default (m, []) (prune_orphans (S (size m)) m []) in
  let cycles := cyclic_ids m1 in
  let m2 := foldl (λ acc i, delete i acc) m1 cycles in
  (sort_by_key se_id (snd <$> map_to_list m2),
   mkRepair (length dups) dups (length orphans) orphans (length cycles) cycles).

Definition repair w st : World T * SessionStore * Result SessionError RepairReport :=
  with_lock w st (λ w1,
    match read_session_entries w1 (st_path st) (st_backend st) with
    | Err e => (w1, st, Err e)
    | Ok entries =>
        let '(repaired, report) := repair_entries entries in
        match write_session_entries_atomic w1 (st_path st) repaired (st_backend st) with
        | (w2, Err e) => (w2, st, Err e)
        | (w2, Ok _) => (w2, set_entries repaired (next_id_of repaired) st, Ok report)
        end
    end).

(** ** Compaction *)

Definition compact_to_lineage w st (preferred : option N)
    : World T * SessionStore * Result SessionError CompactReport :=
  with_lock w st (λ w1,
    match read_session_entries w1 (st_path st) (st_backend st) with
    | Err e => (w1, st, Err e)
    | Ok [] => (w1, set_entries [] 1 st, Ok (mkCompact 0 0 None))
    | Ok entries =>
        match (match preferred with Some h => Some h | None => se_id <$> last entries end) with
        | None => (w1, set_entries entries 1 st, Ok (mkCompact 0 0 None))
        | Some head =>
            match collect_lineage_ids entries head with
            | Err e => (w1, st, Err e)
            | Ok lineage_ids =>
                let compacted := filter (λ e, se_id e ∈ lineage_ids) entries in
                match write_session_entries_atomic w1 (st_path st) compacted (st_backend st) with
                | (w2, Err e) => (w2, st, Err e)
                | (w2, Ok _) =>
                    (w2, set_entries compacted (next_id_of compacted) st,
                     Ok (mkCompact (length entries - length compacted) (length compacted)
                           (Some head)))
                end
            end
        end
    end).
End store.

Arguments SessionStore : clear implicits.
