(* ===== verification/SessionInvariant.v ===== *)
(** * The session store's invariant

    [session_ok] relates the store, its next id and what the backend returns;
    every mutating operation of [SessionStore] that succeeds establishes it
    again ([session_store_runtime.rs]).  The functional theorems on appending,
    merging, importing, repairing and compacting are stated on lineages, what
    a reader of the session sees. *)

From Stdlib Require Import NArith Lia.
From stdpp Require Import base gmap sets strings relations sorting list.
From S2P Require Import Prelude RustStr Messages SessionIntegrity SessionStorage SessionLocking.
From S2P Require Import SessionStore.

(** ** Repair and compaction produce valid sessions

    Lemmas on the pure part of [SessionStore::repair] and
    [SessionStore::compact_to_lineage] ([session_store_runtime.rs]): which
    entries survive, and that the survivors form a valid session. *)

Section closed.
Context {Value : Type}.
Implicit Types (es : list (SessionEntry Value)) (m : gmap N (SessionEntry Value)).
Abbreviation ids es := (se_id <$> es).

Lemma NoDup_same_id es e e' :
  NoDup (ids es) → e ∈ es → e' ∈ es → se_id e = se_id e' → e = e'.
Proof.
  intros Hnd He He' Heq. pose proof (get_of_NoDup _ _ Hnd He) as H1.
  rewrite Heq, (get_of_NoDup _ _ Hnd He') in H1. congruence.
Qed.

Lemma get_of_iff_elem es e : NoDup (ids es) → get_of es (se_id e) = Some e ↔ e ∈ es.
Proof. split; eauto using get_of_elem, get_of_NoDup. Qed.

(** A sub-session closed under parents keeps every lineage. *)
Lemma chain_closed es es' i l :
  NoDup (ids es) → NoDup (ids es') → (∀ e, e ∈ es' → e ∈ es) →
  (∀ e p, e ∈ es' → se_parent_id e = Some p → p ∈ ids es') →
  i ∈ ids es' → chain (get_of es) i l → chain (get_of es') i l.
Proof.
  intros Hnd Hnd' Hsub Hclosed Hi Hc.
  induction Hc as [i e Hg Hp|i e p l Hg Hp Hl IH];
    apply list_elem_of_fmap in Hi as (e' & -> & He');
    assert (e' = e) as -> by
      (eapply NoDup_same_id; [exact Hnd|by apply Hsub|by eapply get_of_elem|
         symmetry; by eapply get_of_key]).
  - apply chain_root; [by apply get_of_NoDup|done].
  - eapply chain_step; [by apply get_of_NoDup|done|]. eauto.
Qed.

Lemma valid_closed es es' :
  valid_entries es → NoDup (ids es') → (∀ e, e ∈ es' → e ∈ es) →
  (∀ e p, e ∈ es' → se_parent_id e = Some p → p ∈ ids es') → valid_entries es'.
Proof.
  intros Hv Hnd' Hsub Hclosed. apply valid_iff_chains. split; [done|]. intros i Hi.
  destruct (valid_chain es i Hv) as [l Hl].
  { apply list_elem_of_fmap in Hi as (e & -> & He). apply list_elem_of_fmap_2. auto. }
  exists l. eapply chain_closed; [by apply valid_NoDup|done..].
Qed.

(** *** Compaction *)

Lemma NoDup_ids_filter (P : SessionEntry Value → Prop) `{!∀ e, Decision (P e)} es :
  NoDup (ids es) → NoDup (ids (filter P es)).
Proof.
  intros Hnd. eapply sublist_NoDup; [exact Hnd|].
  apply fmap_sublist, sublist_filter.
Qed.

Lemma compacted_elem es head l e :
  NoDup (ids es) → chain (get_of es) head l →
  e ∈ filter (λ e, se_id e ∈ (list_to_set (ids l) : gset N)) es ↔ e ∈ l.
Proof.
  intros Hnd Hc. rewrite list_elem_of_filter, elem_of_list_to_set, list_elem_of_fmap. split.
  - intros [(e' & Heq & Hl) He]. assert (e = e') as ->; [|done].
    eapply NoDup_same_id; eauto using chain_elem.
  - intros Hl. split; [eauto|]. by eapply chain_elem.
Qed.

Lemma chain_parent_closed (get : N → option (SessionEntry Value)) i l e p :
  (∀ j e, get j = Some e → se_id e = j) → chain get i l → e ∈ l → se_parent_id e = Some p →
  p ∈ ids l.
Proof.
  intros Hkey Hc. induction Hc as [i e' Hi Hp|i e' q l Hi Hp Hl IH]; intros Hin Hpar;
    apply elem_of_cons in Hin as [->|Hin].
  - congruence.
  - by apply elem_of_nil in Hin.
  - assert (q = p) as -> by congruence. cbn. right.
    destruct (chain_head _ _ _ Hl) as (e2 & l2 & -> & Hg). cbn.
    rewrite <- (Hkey _ _ Hg). left.
  - cbn. right. auto.
Qed.

(** The compacted session holds exactly the head's lineage and is valid. *)
Lemma compact_valid es head l :
  valid_entries es → chain (get_of es) head l →
  let compacted := filter (λ e, se_id e ∈ (list_to_set (ids l) : gset N)) es in
  valid_entries compacted ∧ compacted ≡ₚ l ∧ chain (get_of compacted) head l.
Proof.
  intros Hv Hc compacted.
  pose proof (valid_NoDup _ Hv) as Hnd.
  assert (NoDup (ids compacted)) as Hndc by (by apply NoDup_ids_filter).
  assert (∀ e, e ∈ compacted ↔ e ∈ l) as Hin by (intros; by eapply compacted_elem).
  split_and!.
  - apply (valid_closed es); [done|done| |].
    + intros e He. apply Hin in He. by eapply chain_elem.
    + intros e p He Hp. apply Hin in He.
      pose proof (chain_parent_closed _ _ _ _ _ (get_of_key es) Hc He Hp) as Hpl.
      apply list_elem_of_fmap in Hpl as (e' & -> & He'). apply list_elem_of_fmap_2. by apply Hin.
  - apply NoDup_Permutation; [by eapply NoDup_fmap_1| |done].
    eapply NoDup_fmap_1, chain_NoDup; [apply get_of_key|done].
  - eapply chain_mono; [|done]. intros j e He Hj.
    rewrite <- (get_of_key _ _ _ Hj). apply get_of_NoDup; [done|]. by apply Hin.
Qed.
End closed.

(** ** Repair *)

Section repair.
Context {Value : Type}.
Implicit Types (es : list (SessionEntry Value)) (m : gmap N (SessionEntry Value)).
Abbreviation ids es := (se_id <$> es).

(** Maps that [id_to_entry] and deletions produce: keyed by the entry's id. *)
Definition keyed m : Prop := ∀ i e, m !! i = Some e → se_id e = i.

Lemma keyed_id_to_entry es : keyed (id_to_entry es).
Proof. intros i e. apply get_of_key. Qed.

Lemma keyed_sub m m' : m' ⊆ m → keyed m → keyed m'.
Proof. intros Hs Hk i e Hi. eapply Hk, lookup_weaken; eauto. Qed.

Lemma delete_all_lookup m (l : list N) i :
  foldl (λ acc j, delete j acc) m l !! i = if decide (i ∈ l) then None else m !! i.
Proof.
  revert m. induction l as [|j l IH]; intros m; cbn [foldl].
  - by rewrite decide_False by apply not_elem_of_nil.
  - rewrite IH, lookup_delete. repeat case_decide; set_solver.
Qed.

Lemma delete_all_sub m (l : list N) : foldl (λ acc j, delete j acc) m l ⊆ m.
Proof.
  apply map_subseteq_spec. intros i e. rewrite delete_all_lookup. by case_decide.
Qed.

Lemma sort_ids_elem (l : list N) i : i ∈ sort_ids l ↔ i ∈ l.
Proof. unfold sort_ids. by rewrite sort_by_key_perm. Qed.

Lemma orphan_ids_elem m i :
  i ∈ orphan_ids m ↔ ∃ e, m !! i = Some e ∧ parent_missing m e = true.
Proof.
  unfold orphan_ids. rewrite sort_ids_elem, list_elem_of_fmap. split.
  - intros ([j e] & -> & [Hp Hin]%list_elem_of_filter). exists e.
    split; [by apply elem_of_map_to_list|done].
  - intros (e & Hi & Hp). exists (i, e). split; [done|].
    apply list_elem_of_filter. split; [done|]. by apply elem_of_map_to_list.
Qed.

Lemma orphan_ids_nil m :
  orphan_ids m = [] → ∀ i e p, m !! i = Some e → se_parent_id e = Some p → is_Some (m !! p).
Proof.
  intros Hnil i e p Hi Hp. destruct (m !! p) as [e'|] eqn:Hmp; [done|]. exfalso.
  assert (i ∈ orphan_ids m) as Hin.
  { apply orphan_ids_elem. exists e. split; [done|].
    unfold parent_missing. rewrite Hp. by apply bool_decide_eq_true. }
  rewrite Hnil in Hin. by apply elem_of_nil in Hin.
Qed.

(** A lineage survives a round of pruning: none of its entries is an orphan. *)
Lemma chain_prune m i l :
  chain (λ j, m !! j) i l →
  chain (λ j, foldl (λ acc k, delete k acc) m (orphan_ids m) !! j) i l.
Proof.
  induction 1 as [i e Hi Hp|i e p l Hi Hp Hl IH].
  all: assert (foldl (λ acc k, delete k acc) m (orphan_ids m) !! i = Some e) as Hi'.
  1,3: rewrite delete_all_lookup, decide_False; [done|].
  1,2: intros (e' & He' & Hmiss)%orphan_ids_elem; simplify_eq;
       unfold parent_missing in Hmiss; rewrite Hp in Hmiss; try done;
       apply bool_decide_eq_true in Hmiss;
       destruct (chain_head _ _ _ Hl) as (? & ? & _ & Hg); congruence.
  - by constructor.
  - by econstructor.
Qed.

Lemma prune_orphans_total fuel m removed :
  size m < fuel → is_Some (prune_orphans fuel m removed).
Proof.
  revert m removed. induction fuel as [|f IH]; intros m removed Hf; [lia|].
  cbn [prune_orphans]. destruct (orphan_ids m) as [|i l] eqn:Ho; [done|]. apply IH.
  assert (i ∈ orphan_ids m) as Hi by (rewrite Ho; left).
  apply orphan_ids_elem in Hi as (e & He & _).
  rewrite <- Ho in *. set (m' := foldl _ m (orphan_ids m)).
  assert (m' ⊂ m) as Hlt; [|apply map_subset_size in Hlt; lia].
  split; [apply delete_all_sub|]. intros Hsub.
  apply (lookup_weaken _ _ _ _ He) in Hsub. unfold m' in Hsub.
  rewrite delete_all_lookup, decide_True in Hsub; [done|]. rewrite Ho. left.
Qed.

Lemma prune_orphans_spec fuel m removed m' removed' :
  prune_orphans fuel m removed = Some (m', removed') →
  m' ⊆ m ∧ orphan_ids m' = [] ∧
  (∀ i l, chain (λ j, m !! j) i l → chain (λ j, m' !! j) i l) ∧
  (orphan_ids m = [] → m' = m ∧ removed' = removed).
Proof.
  revert m removed. induction fuel as [|f IH]; intros m removed; [done|].
  cbn. destruct (orphan_ids m) as [|i l] eqn:Ho.
  - intros [= <- <-]. by split_and!.
  - intros (Hsub & Hno & Hch & _)%IH. split_and!; [|done| |done].
    + etransitivity; [exact Hsub|].
      change (foldl (λ acc j, delete j acc) m (i :: l) ⊆ m). apply delete_all_sub.
    + intros j k Hc. apply Hch. apply chain_prune in Hc. rewrite Ho in Hc. exact Hc.
Qed.

(** In a map without orphans an id has a lineage iff its walk ends. *)
Lemma rooted_chain m i :
  orphan_ids m = [] → is_Some (m !! i) → rooted m i → ∃ l, chain (λ j, m !! j) i l.
Proof.
  intros Hno Hi Hr. induction Hr as [i Hp|i p Hp Hr IH];
    destruct Hi as [e Hi]; unfold parent_of in Hp; rewrite Hi in Hp; cbn in Hp.
  - exists [e]. by constructor.
  - destruct IH as [l Hl]; [by eapply orphan_ids_nil|]. exists (e :: l). by econstructor.
Qed.

Lemma cyclic_ids_elem m i : i ∈ cyclic_ids m ↔ is_Some (m !! i) ∧ ¬ rooted m i.
Proof.
  unfold cyclic_ids.
  rewrite sort_ids_elem, list_elem_of_filter, has_cycle_true, list_elem_of_fmap.
  split.
  - intros [Hr ([j e] & -> & Hin%elem_of_map_to_list)]. cbn in *. by rewrite Hin.
  - intros [[e He] Hr]. split; [done|]. exists (i, e). by rewrite elem_of_map_to_list.
Qed.

(** The whole lineage of a rooted id survives the removal of cyclic ids. *)
Lemma chain_uncycle m i l :
  chain (λ j, m !! j) i l →
  chain (λ j, foldl (λ acc k, delete k acc) m (cyclic_ids m) !! j) i l.
Proof.
  induction 1 as [i e Hi Hp|i e p l Hi Hp Hl IH].
  all: assert (rooted m i) as Hr by (eapply chain_rooted; econstructor; done).
  all: assert (foldl (λ acc k, delete k acc) m (cyclic_ids m) !! i = Some e) as Hi'
    by (rewrite delete_all_lookup, decide_False; [done|]; by intros [_ ?]%cyclic_ids_elem).
  - by constructor.
  - by econstructor.
Qed.

Lemma dedup_entries_spec es (seen : gset N) u d :
  dedup_entries es seen = (u, d) →
  u `sublist_of` es ∧ NoDup (ids u) ∧ (∀ i, i ∈ ids u → i ∉ seen).
Proof.
  revert seen u d. induction es as [|e es IH]; cbn; intros seen u d.
  - intros [= <- <-]. split_and!; [constructor|constructor|]. by intros i ?%elem_of_nil.
  - case_decide as Hin; destruct (dedup_entries es _) as [u' d'] eqn:Hd; intros [= <- <-];
      apply IH in Hd as (Hsub & Hnd & Hdisj).
    + split_and!; [by apply sublist_cons|done|done].
    + split_and!; [by apply sublist_skip| |].
      * cbn. constructor; [|done]. intros Hc. specialize (Hdisj _ Hc). set_solver.
      * cbn. intros i [->|Hi]%elem_of_cons; [done|]. specialize (Hdisj _ Hi). set_solver.
Qed.

Lemma dedup_entries_id es (seen : gset N) :
  NoDup (ids es) → (∀ i, i ∈ ids es → i ∉ seen) → dedup_entries es seen = (es, []).
Proof.
  revert seen. induction es as [|e es IH]; cbn; intros seen Hnd Hdisj; [done|].
  apply NoDup_cons in Hnd as [Hni Hnd].
  rewrite decide_False by (apply Hdisj; left). rewrite IH; [done|done|].
  intros i Hi. apply not_elem_of_union. rewrite not_elem_of_singleton.
  split; [by intros ->|]. apply Hdisj. by right.
Qed.

(** Listing a keyed map and collecting it again. *)
Lemma keyed_values m :
  keyed m → ids (snd <$> map_to_list m) = fst <$> map_to_list m.
Proof.
  intros Hk. rewrite <- list_fmap_compose. apply list_fmap_ext. intros k [i e] Hl. cbn.
  apply list_elem_of_lookup_2, elem_of_map_to_list in Hl. by apply Hk.
Qed.

Lemma id_to_entry_values m :
  keyed m →
  NoDup (ids (sort_by_key se_id (snd <$> map_to_list m))) ∧
  id_to_entry (sort_by_key se_id (snd <$> map_to_list m)) = m.
Proof.
  intros Hk.
  assert (NoDup (ids (sort_by_key se_id (snd <$> map_to_list m)))) as Hnd.
  { rewrite sort_by_key_perm, keyed_values by done. apply NoDup_fst_map_to_list. }
  split; [done|]. apply map_eq. intros i. apply option_eq. intros e.
  unfold id_to_entry. rewrite collect_map_NoDup, sort_by_key_perm, list_elem_of_fmap by done.
  split.
  - intros [([j e'] & -> & Hin%elem_of_map_to_list) <-]. cbn. by rewrite (Hk _ _ Hin).
  - intros Hi. split; [|by apply Hk]. exists (i, e). by rewrite elem_of_map_to_list.
Qed.

(** The entries [repair] keeps are those of the deduplicated session whose
    lineage is complete; they form a valid session in id order. *)
Lemma repair_entries_spec es r rep :
  repair_entries es = (r, rep) →
  valid_entries r ∧ StronglySorted (key_lt se_id) r ∧
  ∀ e, e ∈ r ↔ ∃ l, chain (get_of (dedup_entries (sort_by_key se_id es) ∅).1) (se_id e) (e :: l).
Proof.
  unfold repair_entries. destruct (dedup_entries _ _) as [u d] eqn:Hd.
  apply dedup_entries_spec in Hd as (_ & Hndu & _). cbn [fst].
  destruct (prune_orphans_total (S (size (id_to_entry u))) (id_to_entry u) []) as [[m1 o] Hp];
    [lia|]. rewrite Hp. cbn [default from_option]. intros [= <- <-].
  apply prune_orphans_spec in Hp as (Hsub & Hno & Hch & _).
  set (m2 := foldl (λ acc i, delete i acc) m1 (cyclic_ids m1)).
  assert (keyed m2) as Hk2.
  { eapply keyed_sub; [apply delete_all_sub|]. eapply keyed_sub; [done|].
    apply keyed_id_to_entry. }
  destruct (id_to_entry_values m2 Hk2) as [Hndr Hmap].
  assert (∀ e, e ∈ sort_by_key se_id (snd <$> map_to_list m2) ↔ m2 !! se_id e = Some e) as Hin.
  { intros e. rewrite <- Hmap at 2. unfold id_to_entry. rewrite collect_map_NoDup by done.
    naive_solver. }
  assert (∀ i, is_Some (m2 !! i) → ∃ l, chain (λ j, m2 !! j) i l) as Hchains.
  { intros i [e Hi]. unfold m2 in Hi. rewrite delete_all_lookup in Hi.
    case_decide as Hc; [done|]. destruct (rooted_chain m1 i Hno) as [l Hl]; [by rewrite Hi| |].
    - destruct (decide (rooted m1 i)); [done|]. destruct Hc. apply cyclic_ids_elem.
      by rewrite Hi.
    - exists l. by apply chain_uncycle. }
  split_and!.
  - apply valid_iff_chains. split; [done|]. intros i Hi. unfold get_of. rewrite Hmap.
    apply Hchains. apply get_of_ids in Hi. unfold get_of in Hi. by rewrite Hmap in Hi.
  - apply sorted_NoDup_lt; [apply sort_by_key_sorted|done].
  - intros e. rewrite Hin. split.
    + intros He. destruct (Hchains (se_id e)) as [l Hl]; [by rewrite He|].
      destruct (chain_head _ _ _ Hl) as (e' & l' & -> & He'). simplify_eq.
      exists l'. eapply chain_mono; [|exact Hl]. intros j e' _ Hj.
      unfold get_of. eapply lookup_weaken; [exact Hj|].
      etransitivity; [apply delete_all_sub|done].
    + intros [l Hl]. apply Hch, chain_uncycle in Hl. fold m2 in Hl.
      destruct (chain_head _ _ _ Hl) as (e' & l' & [= <- <-] & He'). done.
Qed.

(** A valid session is only sorted; nothing is reported. *)
Lemma repair_entries_valid es :
  valid_entries es → repair_entries es = (sort_by_key se_id es, mkRepair 0 [] 0 [] 0 []).
Proof.
  intros Hv. assert (valid_entries (sort_by_key se_id es)) as Hvs.
  { eapply valid_perm; [symmetry; apply sort_by_key_perm|done]. }
  unfold repair_entries.
  rewrite dedup_entries_id; [|by apply valid_NoDup|intros; apply not_elem_of_empty].
  destruct Hvs as (Hnd & Hpar & Hroot). set (m := id_to_entry (sort_by_key se_id es)) in *.
  assert (orphan_ids m = []) as Hno.
  { apply elem_of_nil_inv. intros i (e & He & Hmiss)%orphan_ids_elem.
    unfold m in Hmiss. rewrite (proj2 (parent_missing_false _ e)) in Hmiss; [done|].
    intros p Hp. eapply Hpar; [|done]. by eapply get_of_elem. }
  assert (cyclic_ids m = []) as Hcy.
  { apply elem_of_nil_inv. intros i [[e He] Hnr]%cyclic_ids_elem. destruct Hnr.
    rewrite <- (get_of_key _ _ _ He). apply Hroot. by eapply get_of_elem. }
  cbn. rewrite Hno. cbn. rewrite Hcy. cbn. f_equal.
  destruct (id_to_entry_values m (keyed_id_to_entry _)) as [Hndv Hmap].
  apply (sorted_lt_perm_eq se_id).
  - apply sorted_NoDup_lt; [apply sort_by_key_sorted|done].
  - apply sorted_NoDup_lt; [apply sort_by_key_sorted|done].
  - apply NoDup_Permutation; [by eapply NoDup_fmap_1|by eapply NoDup_fmap_1|].
    intros e. rewrite <- (get_of_iff_elem _ _ Hndv), <- (get_of_iff_elem _ _ Hnd).
    unfold get_of. by rewrite Hmap.
Qed.
End repair.

Section lineage.
Context {Value : Type}.
Implicit Types (es : list (SessionEntry Value)) (st : SessionStore Value).
Abbreviation ids es := (se_id <$> es).

(** The lineage of an optional head, newest first. *)
Definition lineage_of es (head : option N) (l : list (SessionEntry Value)) : Prop :=
  match head with None => l = [] | Some i => chain (get_of es) i l end.

Lemma find_entry_get es i : NoDup (ids es) → find_entry es i = get_of es i.
Proof.
  intros Hnd. unfold find_entry. destruct (List.find _ es) as [e|] eqn:Hf.
  - apply List.find_some in Hf as [Hin Heq%N.eqb_eq]. subst i. symmetry.
    apply get_of_NoDup; [done|]. by apply list_elem_of_In.
  - symmetry. apply eq_None_not_Some. intros (e & -> & He)%get_of_ids%list_elem_of_fmap.
    apply list_elem_of_In, (List.find_none _ _ Hf), N.eqb_neq in He. done.
Qed.

Lemma run_lineage_ext n (get get' : N → option (SessionEntry Value)) h :
  (∀ i, get i = get' i) → run_lineage n get h = run_lineage n get' h.
Proof.
  intros Heq. unfold run_lineage. generalize (S n) (∅ : gset N). intros f v. f_equal.
  revert v h. induction f as [|f IH]; intros v h; cbn; [done|].
  case_decide; [done|]. rewrite Heq. destruct (get' h); [|done].
  destruct (se_parent_id s); [|done]. by rewrite IH.
Qed.

Lemma size_ids_le es : NoDup (ids es) → size (list_to_set (ids es) : gset N) ≤ length es.
Proof. intros Hnd. rewrite size_list_to_set, length_fmap by done. done. Qed.

(** On a session without duplicates the lineage walk of the store computes
    exactly the lineages. *)
Lemma lineage_entries_Ok st head l :
  NoDup (ids (st_entries st)) →
  lineage_entries st head = Ok (reverse l) ↔ lineage_of (st_entries st) head l.
Proof.
  intros Hnd. unfold lineage_entries, lineage_of. destruct head as [h|].
  - rewrite (run_lineage_ext _ _ (get_of (st_entries st))) by (intros; by apply find_entry_get).
    rewrite <- (run_lineage_Ok (get_of (st_entries st)) (get_of_key _)
                 (length (st_entries st)) h l (list_to_set (ids (st_entries st)))).
    + destruct (run_lineage _ _ _) as [k|]; cbn; [|done]. split; intros [= Heq].
      * f_equal. by apply (inj reverse).
      * by subst.
    + intros j Hj. apply elem_of_list_to_set. by apply get_of_ids.
    + by apply size_ids_le.
  - split; [|by intros ->]. intros [= Heq].
    by apply (f_equal reverse) in Heq; rewrite reverse_involutive in Heq.
Qed.

Lemma lineage_messages_Ok st head l :
  NoDup (ids (st_entries st)) → lineage_of (st_entries st) head l →
  lineage_messages st head = Ok (se_message <$> reverse l).
Proof.
  intros Hnd Hl. unfold lineage_messages.
  by rewrite (proj2 (lineage_entries_Ok _ _ _ Hnd) Hl).
Qed.

Lemma lineage_messages_inv st head msgs :
  NoDup (ids (st_entries st)) → lineage_messages st head = Ok msgs →
  ∃ l, lineage_of (st_entries st) head l ∧ msgs = se_message <$> reverse l.
Proof.
  intros Hnd. unfold lineage_messages.
  destruct (lineage_entries st head) as [k|] eqn:Hk; [|done]. intros [= <-].
  exists (reverse k). rewrite reverse_involutive. split; [|done].
  apply lineage_entries_Ok; [done|]. by rewrite reverse_involutive.
Qed.

Lemma lineage_of_perm es es' head l :
  es ≡ₚ es' → NoDup (ids es) → lineage_of es head l → lineage_of es' head l.
Proof.
  intros Hp Hnd. destruct head; cbn; [|done]. unfold get_of.
  by rewrite (id_to_entry_perm _ _ Hp Hnd).
Qed.

(** ** Appending *)

Lemma append_loop_spec ms parent next es es' parent' next' :
  append_loop ms parent next es = (es', parent', next') →
  valid_entries es → (∀ p, parent = Some p → p ∈ ids es) →
  (∀ i, i ∈ ids es → (i < next)%N) → (next + N.of_nat (length ms) ≤ u64_max)%N →
  ∃ new, es' = es ++ new ∧ se_message <$> new = ms ∧ valid_entries es' ∧
    next' = (next + N.of_nat (length ms))%N ∧
    (∀ i, i ∈ ids new → (next ≤ i < next')%N) ∧
    StronglySorted (key_lt se_id) new ∧
    (ms ≠ [] → parent' = Some (next' - 1)%N ∧ (next' - 1)%N ∈ ids new) ∧
    (∀ l, lineage_of es parent l → lineage_of es' parent' (reverse new ++ l)).
Proof.
  revert parent next es. induction ms as [|m ms IH]; cbn; intros parent next es Heq Hv Hpar Hlt Hmax.
  - injection Heq as <- <- <-. exists []. rewrite app_nil_r. split_and!; try done; [lia| |constructor].
    by intros i ?%elem_of_nil.
  - rewrite add_u64_small in Heq by (unfold in_u64; lia).
    set (e := mkEntry next parent m) in *.
    assert (se_id e ∉ ids es) as Hni by (intros Hc; specialize (Hlt _ Hc); cbn in Hlt; lia).
    assert (valid_entries (es ++ [e])) as Hv1 by (apply valid_snoc; done).
    assert (next ∈ ids (es ++ [e])) as Hnext
      by (rewrite fmap_app; apply elem_of_app; right; cbn; left).
    destruct (IH _ _ _ Heq Hv1) as (new & -> & Hmsg & Hv' & -> & Hrange & Hsort & Hhead & Hlin).
    { by intros p [= <-]. }
    { rewrite fmap_app. intros i [Hi| ->%list_elem_of_singleton]%elem_of_app; [|cbn; lia].
      specialize (Hlt i Hi). lia. }
    { lia. }
    exists (e :: new). rewrite <- app_assoc. split_and!; try done.
    + cbn. by rewrite Hmsg.
    + by rewrite <- app_assoc in Hv'.
    + lia.
    + cbn. intros i [->|Hi]%elem_of_cons; [lia|]. specialize (Hrange i Hi). lia.
    + constructor; [done|]. apply Forall_forall. intros e' He'. unfold key_lt. cbn.
      specialize (Hrange (se_id e') (list_elem_of_fmap_2 _ _ _ He')). lia.
    + intros _. destruct ms as [|m' ms'].
      * cbn in Heq. injection Heq as Hes <- _.
        replace (next + 1 + N.of_nat (length []) - 1)%N with next by (cbn; lia).
        split; [done|]. cbn. left.
      * destruct Hhead as [-> Hin]; [done|]. split; [done|]. cbn. by right.
    + intros l Hl. rewrite reverse_cons, <- app_assoc. cbn [app].
      rewrite <- app_assoc in Hlin. apply Hlin. cbn.
      destruct parent as [p|].
      * eapply chain_step with p; [|done|by apply chain_snoc].
        rewrite get_of_snoc. by rewrite decide_True.
      * cbn in Hl. subst l. apply chain_root; [|done]. rewrite get_of_snoc.
        by rewrite decide_True.
Qed.
End lineage.

Section invariant.
Context {Value T : Type} `{!SessionCodec Value, !RowTable T}.
Context `{!SessionCodecLaws Value, !RowTableLaws T}.
Implicit Types (w : World T) (st : SessionStore Value) (es : list (SessionEntry Value)).
Abbreviation ids es := (se_id <$> es).

(** The store holds a valid session, its next id is above every id, and the
    backend returns the same entries. *)
Definition session_ok w st : Prop :=
  valid_entries (st_entries st) ∧
  st_next_id st = next_id_of (st_entries st) ∧
  read_session_entries w (st_path st) (st_backend st) =
    Ok (stored (st_backend st) (st_entries st)).

Lemma with_lock_Ok {A} w st (body : World T → World T * SessionStore Value * Result SessionError A)
    w' st' a :
  with_lock w st body = (w', st', Ok a) →
  ∃ w1 w2, same_storage w w1 ∧ body w1 = (w2, st', Ok a) ∧ same_storage w2 w'.
Proof using Type.
  unfold with_lock. destruct (acquire_lock _ _ _ _) as [w1 [[]|e]] eqn:Hacq; [|done].
  destruct (body w1) as [[w2 st2] r] eqn:Hb. intros [= <- <- ->].
  exists w1, w2. split_and!; [by eapply acquire_lock_storage|done|apply release_lock_storage].
Qed.

Lemma with_lock_Err {A} w st (body : World T → World T * SessionStore Value * Result SessionError A)
    w' st' e :
  with_lock w st body = (w', st', Err e) →
  (st' = st ∧ same_storage w w') ∨
  ∃ w1 w2, same_storage w w1 ∧ body w1 = (w2, st', Err e) ∧ same_storage w2 w'.
Proof using Type.
  unfold with_lock. destruct (acquire_lock _ _ _ _) as [w1 [[]|e']] eqn:Hacq.
  - destruct (body w1) as [[w2 st2] r] eqn:Hb. intros [= <- <- ->]. right.
    exists w1, w2. split_and!; [by eapply acquire_lock_storage|done|apply release_lock_storage].
  - intros [= <- <- _]. left. split; [done|]. by eapply acquire_lock_storage.
Qed.

(** A successful write of a valid session re-establishes the invariant. *)
Lemma session_ok_commit w1 w2 w' st es u :
  write_session_entries_atomic w1 (st_path st) es (st_backend st) = (w2, Ok u) →
  same_storage w2 w' → valid_entries es →
  session_ok w' (set_entries es (next_id_of es) st).
Proof using SessionCodecLaws0 RowTableLaws0.
  destruct u. intros Hw Hs Hv. split_and!; [done|done|].
  cbn. rewrite (reads_same_storage _ _ _ _ Hs). by eapply write_read.
Qed.

Lemma session_ok_read w w1 st :
  session_ok w st → same_storage w w1 →
  ∃ es, read_session_entries w1 (st_path st) (st_backend st) = Ok es ∧
        es ≡ₚ st_entries st ∧ valid_entries es ∧ max_or_zero (ids es) = max_or_zero (ids (st_entries st)).
Proof using Type.
  intros (Hv & _ & Hr) Hs. exists (stored (st_backend st) (st_entries st)).
  rewrite (reads_same_storage _ _ _ _ Hs), Hr. split; [done|].
  pose proof (stored_perm (st_backend st) (st_entries st)) as Hp. split_and!; [done| |].
  - by eapply valid_perm; [symmetry|].
  - apply N.le_antisymm; apply max_or_zero_le; intros x Hx; apply max_or_zero_ge;
      [by rewrite <- Hp|by rewrite Hp].
Qed.

Lemma below_next es i : (max_or_zero (ids es) < u64_max)%N → i ∈ ids es → (i < next_id_of es)%N.
Proof using Type.
  intros Hm Hi. unfold next_id_of. rewrite add_u64_small by (unfold in_u64; lia).
  pose proof (max_or_zero_ge _ _ Hi). lia.
Qed.

Lemma existsb_id es p : existsb (λ e, (se_id e =? p)%N) es = true ↔ p ∈ ids es.
Proof using Type.
  rewrite List.existsb_exists, list_elem_of_fmap. setoid_rewrite N.eqb_eq.
  setoid_rewrite <- list_elem_of_In. naive_solver.
Qed.

Lemma max_or_zero_new es new next' :
  new ≠ [] → (∀ i, i ∈ ids es → (i < next')%N) → (∀ i, i ∈ ids new → (i < next')%N) →
  (next' - 1)%N ∈ ids new → (0 < next' ≤ u64_max)%N → next_id_of (es ++ new) = next'.
Proof using Type.
  intros Hne Hes Hnew Hlast Hb. unfold next_id_of. rewrite fmap_app.
  assert (max_or_zero (ids es ++ ids new) = next' - 1)%N as ->.
  { apply N.le_antisymm.
    - apply max_or_zero_le. intros x [Hx|Hx]%elem_of_app;
        [specialize (Hes _ Hx)|specialize (Hnew _ Hx)]; lia.
    - apply max_or_zero_ge, elem_of_app. by right. }
  rewrite add_u64_small by (unfold in_u64; lia). lia.
Qed.

Lemma append_messages_spec w st parent ms w' st' h :
  session_ok w st →
  (max_or_zero (ids (st_entries st)) + 1 + N.of_nat (length ms) ≤ u64_max)%N →
  ms ≠ [] → append_messages w st parent ms = (w', st', Ok h) →
  session_ok w' st' ∧
  (∀ l, lineage_of (st_entries st) parent l →
    ∃ new, se_message <$> new = ms ∧ lineage_of (st_entries st') h (reverse new ++ l)) ∧
  ∃ new, st_entries st' ≡ₚ st_entries st ++ new ∧ se_message <$> new = ms.
Proof using SessionCodecLaws0 RowTableLaws0.
  intros Hok Hmax Hne. unfold append_messages. destruct ms as [|m0 ms0] eqn:Hms; [done|].
  rewrite <- Hms in *. intros (w1 & w2 & Hs1 & Hbody & Hs2)%with_lock_Ok.
  destruct (session_ok_read _ _ _ Hok Hs1) as (es & Hread & Hperm & Hv & Hmaxes).
  rewrite Hread in Hbody. cbn in Hbody.
  destruct (check_parent es parent) as [[]|] eqn:Hcheck; [|done]. cbn in Hbody.
  destruct (append_loop ms parent (next_id_of es) es) as [[es' p'] n'] eqn:Hloop.
  destruct (write_session_entries_atomic _ _ _ _) as [w3 [[]|]] eqn:Hw; [|done].
  injection Hbody as <- <- <-.
  assert (next_id_of es = max_or_zero (ids (st_entries st)) + 1)%N as Hnext.
  { unfold next_id_of. rewrite Hmaxes. apply add_u64_small. unfold in_u64. lia. }
  assert (∀ p, parent = Some p → p ∈ ids es) as Hpar.
  { intros p ->. cbn in Hcheck. apply bail_if_Ok, negb_false_iff in Hcheck.
    by apply existsb_id. }
  destruct (append_loop_spec _ _ _ _ _ _ _ Hloop Hv Hpar) as
    (new & -> & Hmsg & Hv' & Hn' & Hrange & Hsort & Hhead & Hlin).
  { intros i Hi. apply below_next; [lia|done]. }
  { lia. }
  destruct (Hhead Hne) as [-> Hlast].
  assert (n' = next_id_of (es ++ new)) as ->.
  { symmetry. apply max_or_zero_new; [by intros ->| |by intros i Hi; apply Hrange|done|lia].
    intros i Hi. pose proof (below_next es i ltac:(lia) Hi). lia. }
  split_and!.
  - by eapply session_ok_commit.
  - intros l Hl. exists new. split; [done|]. cbn. apply Hlin.
    eapply lineage_of_perm; [symmetry; exact Hperm|by destruct Hok as [[? _] _]|done].
  - exists new. split; [|done]. cbn. by rewrite Hperm.
Qed.
End invariant.

(** ** Branch merges

    The pure part of [SessionStore::merge_branches]: which source entries are
    carried over, and the lineage of the merged head under each strategy. *)

Section merge.
Context {Value : Type}.
Implicit Types (es l ls lt : list (SessionEntry Value)).
Abbreviation ids es := (se_id <$> es).

Lemma find_common_last (S T : list N) :
  find_common_ancestor S T = last (filter (λ i, i ∈ S) T).
Proof.
  unfold find_common_ancestor. induction T as [|i T IH] using rev_ind; [done|].
  rewrite foldl_app, filter_app, filter_cons, filter_nil. cbn [foldl]. rewrite IH.
  case_decide; [by rewrite last_snoc|by rewrite app_nil_r].
Qed.

Lemma filter_reverse {A} (P : A → Prop) `{!∀ x, Decision (P x)} (l : list A) :
  filter P (reverse l) = reverse (filter P l).
Proof.
  induction l as [|x l IH]; [done|]. rewrite reverse_cons, filter_app, IH, !filter_cons, filter_nil.
  case_decide; [by rewrite reverse_cons|by rewrite app_nil_r].
Qed.

Lemma filter_head_split {A} (P : A → Prop) `{!∀ x, Decision (P x)} (l : list A) x :
  head (filter P l) = Some x →
  ∃ b k, l = b ++ x :: k ∧ P x ∧ Forall (λ y, ¬ P y) b.
Proof.
  induction l as [|y l IH]; [done|]. rewrite filter_cons. case_decide as Hy.
  - intros [= <-]. exists [], l. by split_and!.
  - intros (b & k & -> & Hx & Hb)%IH. exists (y :: b), k. split_and!; [done|done|by constructor].
Qed.

Lemma filter_all {A} (P : A → Prop) `{!∀ x, Decision (P x)} (l : list A) :
  Forall P l → filter P l = l.
Proof.
  induction 1 as [|x l Hx _ IH]; [done|]. rewrite filter_cons, decide_True by done. by rewrite IH.
Qed.

Lemma filter_none {A} (P : A → Prop) `{!∀ x, Decision (P x)} (l : list A) :
  Forall (λ x, ¬ P x) l → filter P l = [].
Proof.
  induction 1 as [|x l Hx _ IH]; [done|]. by rewrite filter_cons, decide_False.
Qed.

(** Two lineages through a common id agree from it to the root. *)
Lemma chain_split_ids es h l c :
  chain (get_of es) h l → c ∈ ids l →
  ∃ a ec k, l = a ++ ec :: k ∧ se_id ec = c ∧ chain (get_of es) c (ec :: k).
Proof.
  intros Hc (e & -> & He)%list_elem_of_fmap.
  destruct (chain_suffix _ (get_of_key es) _ _ _ Hc He) as (a & k & -> & Hk). eauto 10.
Qed.

Lemma list_find_middle (A : list N) c K :
  c ∉ A → list_find (λ x, x = c) (A ++ c :: K) = Some (length A, c).
Proof.
  intros Hni. apply list_find_Some. split_and!; [|done|].
  - rewrite lookup_app_r by done. by rewrite Nat.sub_diag.
  - intros j y Hj Hlt ->. apply Hni. rewrite lookup_app_l in Hj by done.
    by eapply list_elem_of_lookup_2.
Qed.

(** The source ids that a merge carries over are those not already on the
    target's lineage, in order. *)
Lemma source_suffix_spec es s t ls lt :
  chain (get_of es) s ls → chain (get_of es) t lt →
  source_suffix (reverse (ids ls))
    (find_common_ancestor (reverse (ids ls)) (reverse (ids lt))) =
  filter (λ i, i ∉ ids lt) (reverse (ids ls)).
Proof.
  intros Hs Ht. rewrite find_common_last.
  assert (filter (λ i, i ∈ reverse (ids ls)) (reverse (ids lt)) =
          reverse (filter (λ i, i ∈ ids ls) (ids lt))) as ->.
  { rewrite <- filter_reverse. apply list_filter_iff. intros x. by rewrite elem_of_reverse. }
  rewrite last_reverse. unfold source_suffix.
  destruct (head (filter (λ i, i ∈ ids ls) (ids lt))) as [c|] eqn:Hc.
  - apply filter_head_split in Hc as (B & K & Hlt & Hcs & HB).
    destruct (chain_split_ids _ _ _ _ Hs Hcs) as (a & ec & k & -> & <- & Hk).
    assert (se_id ec ∈ ids lt) as Hct by (rewrite Hlt; set_solver).
    destruct (chain_split_ids _ _ _ _ Ht Hct) as (b & ec' & k' & -> & _ & Hk').
    pose proof (chain_det _ _ _ _ Hk Hk') as [= <- <-].
    pose proof (chain_NoDup _ (get_of_key es) _ _ Hs) as Hnds.
    pose proof (chain_NoDup _ (get_of_key es) _ _ Ht) as Hndt.
    rewrite !fmap_app, !fmap_cons in *.
    assert (Forall (λ i, i ∉ ids a ++ se_id ec :: ids k) (ids b)) as Hb.
    { assert (ids b = B) as ->; [|done].
      apply NoDup_app in Hndt as (_ & Hdis & _).
      assert (se_id ec ∉ ids b) as Hnb by (intros Hin; by destruct (Hdis _ Hin); left).
      assert (se_id ec ∉ B) as HnB.
      { intros Hin. rewrite Forall_forall in HB. by apply (HB _ Hin). }
      by apply (not_elem_of_app_cons_inv_l _ _ _ _ _ _ HnB Hnb) in Hlt as [-> _]. }
    rewrite reverse_app, reverse_cons, <- app_assoc. cbn [app].
    rewrite list_find_middle.
    2: { rewrite elem_of_reverse. intros Hin. apply NoDup_app in Hnds as (_ & _ & Hnd).
         by apply NoDup_cons in Hnd as [? _]. }
    rewrite length_reverse, filter_app, filter_cons, decide_False by set_solver.
    rewrite filter_none, filter_all.
    + cbn [app]. rewrite drop_app_ge by (rewrite length_reverse; lia).
      rewrite length_reverse. by replace (S (length (ids k)) - length (ids k)) with 1 by lia.
    + apply Forall_forall. intros x Hx Hin. rewrite elem_of_reverse in Hx.
      apply NoDup_app in Hnds as (_ & Hdis & _).
      apply elem_of_app in Hin as [Hin|Hin]; [|by apply (Hdis x Hx)].
      rewrite Forall_forall in Hb. apply (Hb x Hin). apply elem_of_app. by left.
    + apply Forall_forall. intros x Hx. rewrite elem_of_reverse in Hx. set_solver.
  - cbn. rewrite drop_0, filter_all; [done|]. apply Forall_forall.
    intros x Hx Hin. rewrite elem_of_reverse in Hx.
    assert (x ∈ filter (λ i, i ∈ ids ls) (ids lt)) as Hf by (by apply list_elem_of_filter).
    destruct (filter _ _); [by apply elem_of_nil in Hf|done].
Qed.

Lemma lineage_ids_Ok es h (path : list N) :
  lineage_ids_root_to_head (id_to_entry es) h = Ok path →
  ∃ k, chain (get_of es) h k ∧ path = reverse (ids k).
Proof.
  unfold lineage_ids_root_to_head. pose (D := dom (id_to_entry es) : gset N).
  destruct (run_lineage _ _ _) as [k|] eqn:Hr; [|done]. intros [= <-]. exists k.
  split; [|done]. apply (run_lineage_Ok (get_of es) (get_of_key es) _ h k D) in Hr; [done| |].
  - intros j Hj. by apply elem_of_dom.
  - unfold D. by rewrite size_dom.
Qed.

(** The appending merge pushes the messages of the given ids, like an append. *)
Lemma append_merge_loop_eq m unique (sel : list (SessionEntry Value)) parent next es k :
  Forall2 (λ i e, m !! i = Some e) unique sel →
  append_merge_loop m unique parent next es k =
  Ok (let '(es', p', _) := append_loop (se_message <$> sel) parent next es in
      (es', p', k + length sel)).
Proof.
  intros Hall. revert parent next es k.
  induction Hall as [|i e unique sel Hi _ IH]; intros parent next es k; cbn.
  - by rewrite Nat.add_0_r.
  - rewrite Hi. cbn. rewrite IH. by rewrite Nat.add_succ_r.
Qed.

(** The entries carried over, root first. *)
Definition carried_over ls lt : list (SessionEntry Value) :=
  filter (λ e, se_id e ∉ ids lt) (reverse ls).

Lemma carried_over_ids ls lt :
  filter (λ i, i ∉ ids lt) (reverse (ids ls)) = ids (carried_over ls lt).
Proof.
  unfold carried_over. rewrite <- fmap_reverse. generalize (reverse ls). intros k.
  induction k as [|e k IH]; [done|]. rewrite fmap_cons, !filter_cons, IH.
  by case_decide.
Qed.

Lemma carried_over_lookup es s ls lt :
  chain (get_of es) s ls →
  Forall2 (λ i e, id_to_entry es !! i = Some e) (ids (carried_over ls lt)) (carried_over ls lt).
Proof.
  intros Hs. apply Forall2_fmap_l, Forall_Forall2_diag, Forall_forall.
  intros e [_ He]%list_elem_of_filter. rewrite elem_of_reverse in He.
  destruct (chain_get _ _ _ _ Hs He) as [j Hj]. pose proof (get_of_key _ _ _ Hj). by subst j.
Qed.

Lemma chain_length es s ls :
  NoDup (ids es) → chain (get_of es) s ls → length ls ≤ length es.
Proof.
  intros Hnd Hs. transitivity (size (list_to_set (ids es) : gset N)); [|by apply size_ids_le].
  eapply chain_in_dom; [apply get_of_key| |done].
  intros j Hj. apply elem_of_list_to_set. by apply get_of_ids.
Qed.

Lemma carried_over_length es s ls lt :
  NoDup (ids es) → chain (get_of es) s ls → length (carried_over ls lt) ≤ length es.
Proof.
  intros Hnd Hs. pose proof (chain_length _ _ _ Hnd Hs).
  pose proof (sublist_length _ _ (sublist_filter (λ e, se_id e ∉ ids lt) (reverse ls))) as Hf.
  rewrite length_reverse in Hf. unfold carried_over. lia.
Qed.

(** What a successful merge did, by strategy. *)
Definition merge_outcome es (s t : N) (strategy : SessionMergeStrategy) ls lt
    (new : list (SessionEntry Value)) (head : N) : Prop :=
  match strategy with
  | FastForward => new = [] ∧ head = s ∧ t ∈ ids ls
  | Append =>
      se_message <$> new = se_message <$> carried_over ls lt ∧
      chain (get_of (es ++ new)) head (reverse new ++ lt)
  | Squash =>
      (carried_over ls lt = [] ∧ new = [] ∧ head = t) ∨
      (carried_over ls lt ≠ [] ∧
       ∃ e, new = [e] ∧ head = se_id e ∧ chain (get_of (es ++ new)) head (e :: lt))
  end.

Lemma chain_elem_head es h l : chain (get_of es) h l → h ∈ ids es.
Proof. intros (e & l' & _ & He)%chain_head. apply get_of_ids. by rewrite He. Qed.

Lemma merge_branches_entries_spec es s t strategy es' rep :
  valid_entries es → (max_or_zero (ids es) + 1 + N.of_nat (length es) + 1 ≤ u64_max)%N →
  merge_branches_entries es s t strategy = Ok (es', rep) →
  ∃ ls lt new,
    chain (get_of es) s ls ∧ chain (get_of es) t lt ∧
    es' = es ++ new ∧ valid_entries es' ∧ length new = appended_entries rep ∧
    merge_outcome es s t strategy ls lt new (merged_head rep).
Proof.
  intros Hv Hmax. unfold merge_branches_entries.
  intros (u1 & _ & (u2 & _ & (u3 & _ & (sl & Hsl & (tl & Htl & Hm)%bind_Ok)%bind_Ok)%bind_Ok
    )%bind_Ok)%bind_Ok.
  apply lineage_ids_Ok in Hsl as (ls & Hs & ->), Htl as (lt & Ht & ->).
  rewrite (source_suffix_spec _ _ _ _ _ Hs Ht), carried_over_ids in Hm.
  pose proof (chain_elem_head _ _ _ Ht) as Hint.
  pose proof (carried_over_length es s ls lt (valid_NoDup _ Hv) Hs) as Hlen.
  assert (next_id_of es = max_or_zero (ids es) + 1)%N as Hnext
    by (apply add_u64_small; unfold in_u64; lia).
  assert (∀ i, i ∈ ids es → (i < next_id_of es)%N) as Hbelow
    by (intros i Hi; apply below_next; [lia|done]).
  exists ls, lt. destruct strategy.
  - rewrite (append_merge_loop_eq _ _ _ _ _ _ _ (carried_over_lookup _ _ _ lt Hs)) in Hm.
    destruct (append_loop _ _ _ _) as [[es1 p1] n1] eqn:Hloop. cbn in Hm.
    injection Hm as <- <-.
    destruct (append_loop_spec _ _ _ _ _ _ _ Hloop Hv) as
      (new & -> & Hmsg & Hv' & _ & _ & _ & Hhead & Hlin).
    { by intros p [= <-]. } { done. } { rewrite length_fmap. lia. }
    exists new. split_and!; try done.
    + cbn. apply (f_equal length) in Hmsg. by rewrite !length_fmap in Hmsg.
    + cbn. specialize (Hlin lt Ht). destruct p1 as [p1|]; [done|].
      exfalso. destruct (carried_over ls lt); [by cbn in Hloop|]. by destruct Hhead.
  - destruct (carried_over ls lt) as [|e0 k0] eqn:Hco; cbn in Hm.
    + injection Hm as <- <-. exists []. rewrite app_nil_r. split_and!; try done. by left.
    + apply bind_Ok in Hm as (summary & _ & [= <- <-]).
      set (e := mkEntry (next_id_of es) (Some t) (assistant_text summary)).
      assert (se_id e ∉ ids es) as Hni
        by (intros Hc; specialize (Hbelow _ Hc); cbn in Hbelow; lia).
      exists [e]. split_and!; try done.
      * apply valid_snoc; [done|done|]. by intros p [= <-].
      * right. rewrite Hco. split; [done|]. exists e. split_and!; [done|done|].
        eapply chain_step with t; [|done|by apply chain_snoc].
        rewrite get_of_snoc. by rewrite decide_True.
  - apply bind_Ok in Hm as (u4 & Hff & [= <- <-]). exists []. rewrite app_nil_r.
    split_and!; try done. split_and!; [done|done|].
    apply bail_if_Ok, negb_false_iff, bool_decide_eq_true in Hff.
    by rewrite elem_of_reverse in Hff.
Qed.
End merge.
