(* ===== verification/SessionInstances.v ===== *)
(** * A concrete codec and table

    One codec and one table that satisfy the laws the session storage relies
    on, so that its theorems apply to concrete sessions.  Records are written
    as the bits of their [Countable] code between two marks; a table is the
    list of its rows in id order. *)

From Stdlib Require Import NArith ZArith Ascii String Lia.
From Stdlib.Floats Require Import SpecFloat.
From stdpp Require Import base gmap sets strings countable sorting list.
From S2P Require Import Prelude RustStr BitCodec Messages SessionIntegrity SessionStorage SessionLocking.
From S2P Require Import SessionStore.

#[local] Open Scope string_scope.
#[local] Open Scope list_scope.
#[local] Open Scope nat_scope.

(** ** Countable records *)

#[export] Instance MessageRole_countable : Countable MessageRole.
Proof.
  refine (inj_countable'
    (λ r, match r with System => 0 | User => 1 | Assistant => 2 | Tool => 3 end)
    (λ n, match n with 0 => System | 1 => User | 2 => Assistant | _ => Tool end) _).
  by intros [].
Defined.

#[export] Instance MediaSource_eq_dec : EqDecision MediaSource.
Proof. solve_decision. Defined.
#[export] Instance MediaSource_countable : Countable MediaSource.
Proof.
  refine (inj_countable'
    (λ m, match m with Url u => inl u | Base64 t d => inr (t, d) end)
    (λ s, match s with inl u => Url u | inr (t, d) => Base64 t d end) _).
  by intros [].
Defined.

#[export] Instance ContentBlock_eq_dec : EqDecision (ContentBlock unit).
Proof. solve_decision. Defined.
#[export] Instance ContentBlock_countable : Countable (ContentBlock unit).
Proof.
  refine (inj_countable'
    (λ b, match b with
          | TextBlock t => inl (inl t)
          | ToolCallBlock i n _ => inl (inr (i, n))
          | ImageBlock s => inr (inl s)
          | AudioBlock s => inr (inr s)
          end)
    (λ s, match s with
          | inl (inl t) => TextBlock t
          | inl (inr (i, n)) => ToolCallBlock i n tt
          | inr (inl s) => ImageBlock s
          | inr (inr s) => AudioBlock s
          end) _).
  by intros [|? ? []| |].
Defined.

#[export] Instance Message_eq_dec : EqDecision (Message unit).
Proof. solve_decision. Defined.
#[export] Instance Message_countable : Countable (Message unit).
Proof.
  refine (inj_countable'
    (λ m, (msg_role m, msg_content m, msg_tool_call_id m, msg_tool_name m, msg_is_error m))
    (λ '(r, c, i, n, e), mkMessage r c i n e) _).
  by intros [].
Defined.

#[export] Instance SessionEntry_eq_dec : EqDecision (SessionEntry unit).
Proof. solve_decision. Defined.
#[export] Instance SessionEntry_countable : Countable (SessionEntry unit).
Proof.
  refine (inj_countable' (λ e, (se_id e, se_parent_id e, se_message e))
    (λ '(i, p, m), mkEntry i p m) _).
  by intros [].
Defined.

#[export] Instance SessionRecord_eq_dec : EqDecision (SessionRecord unit).
Proof. solve_decision. Defined.
#[export] Instance SessionRecord_countable : Countable (SessionRecord unit).
Proof.
  refine (inj_countable'
    (λ r, match r with MetaRecord v => inl v | EntryRecord e => inr e end)
    (λ s, match s with inl v => MetaRecord v | inr e => EntryRecord e end) _).
  by intros [].
Defined.

#[export] Instance spec_float_eq_dec : EqDecision spec_float.
Proof. solve_decision. Defined.
#[export] Instance spec_float_countable : Countable spec_float.
Proof.
  refine (inj_countable'
    (λ x, match x with
          | S754_zero s => inl (inl s)
          | S754_infinity s => inl (inr (Some s))
          | S754_nan => inl (inr None)
          | S754_finite s m e => inr (s, m, e)
          end)
    (λ y, match y with
          | inl (inl s) => S754_zero s
          | inl (inr (Some s)) => S754_infinity s
          | inl (inr None) => S754_nan
          | inr (s, m, e) => S754_finite s m e
          end) _).
  by intros [].
Defined.

#[export] Instance SessionUsageSummary_eq_dec : EqDecision SessionUsageSummary.
Proof. solve_decision. Defined.
#[export] Instance SessionUsageSummary_countable : Countable SessionUsageSummary.
Proof.
  refine (inj_countable'
    (λ u, (input_tokens u, output_tokens u, total_tokens u, estimated_cost_usd u))
    (λ '(i, o, t, c), mkUsage i o t c) _).
  by intros [].
Defined.

(** ** The instances *)

#[export] Instance bits_codec : SessionCodec unit :=
  {| encode_record := encode_bits;
     decode_record := decode_bits;
     decode_entry := decode_bits;
     encode_message := encode_bits;
     decode_message := decode_bits;
     encode_usage := encode_bits;
     decode_usage_record := decode_bits;
     decode_usage_summary := decode_bits |}.

#[export] Instance bits_codec_laws : SessionCodecLaws unit.
Proof.
  split.
  - intros r. exact (decode_encode_bits r).
  - intros r. exact (encode_bits_line r).
  - intros r. change (is_empty (trim (encode_bits r)) = false). unfold encode_bits.
    rewrite (trim_marked (bits_of (encode r))). done.
  - intros m. exact (decode_encode_bits m).
  - intros v u _. change (decode_bits (trim (encode_bits (v, u) +:+ newline)) = Some (v, u) ∧
      is_empty (trim (encode_bits (v, u) +:+ newline)) = false).
    unfold encode_bits. rewrite (trim_marked_newline (bits_of (encode (v, u)))).
    split; [exact (decode_encode_bits (v, u))|done].
Qed.

Definition row_le (a b : Row) : Prop := (row_id a ≤ row_id b)%Z.
#[export] Instance row_le_dec a b : Decision (row_le a b).
Proof. unfold row_le. apply _. Defined.
#[export] Instance row_le_total : Total row_le.
Proof. intros a b. unfold row_le. lia. Qed.
#[export] Instance row_le_trans : Transitive row_le.
Proof. intros a b c. unfold row_le. lia. Qed.

#[export] Instance list_table : RowTable (list Row) :=
  {| empty_table := [];
     open_text c := if is_empty c then Some [] else None;
     select_rows rows := rows;
     replace_rows _ rows :=
       if decide (NoDup (row_id <$> rows)) then Some (merge_sort row_le rows) else None |}.

Lemma rows_strictly_sorted rows :
  StronglySorted row_le rows → NoDup (row_id <$> rows) → StronglySorted row_lt rows.
Proof.
  induction 1 as [|r rows _ IH Hall]; cbn; [constructor|].
  intros [Hni Hnd]%NoDup_cons. constructor; [auto|]. apply Forall_forall. intros r' Hr'.
  rewrite Forall_forall in Hall. specialize (Hall r' Hr'). unfold row_le, row_lt in *.
  assert (row_id r ≠ row_id r') by
    (intros Heq; apply Hni; rewrite Heq; by apply list_elem_of_fmap_2). lia.
Qed.

#[export] Instance list_table_laws : RowTableLaws (list Row).
Proof.
  split; cbn.
  - done.
  - intros _ rows Hnd. rewrite decide_True by done. eexists. split; [done|].
    assert (merge_sort row_le rows ≡ₚ rows) as Hp by (apply merge_sort_Permutation).
    split; [done|]. apply rows_strictly_sorted; [|by rewrite Hp].
    apply StronglySorted_merge_sort; apply _.
  - intros _ rows Hnd. by rewrite decide_False.
Qed.

(** ** Concrete worlds *)

(** A quiet machine: no files, no locks, nothing refused. *)
Definition quiet_world : World (list Row) :=
  mkWorld ∅ ∅ ∅ ∅ None None true (λ p, Some p) (λ _, false) 0 0.

(** A new store on each backend. *)
Definition fresh_store (b : SessionStorageBackend) : SessionStore unit :=
  mkStore "state/s.jsonl" b "test" [] usage_default 1 5000 30000.

(** A world where [path] holds the given entries as a JSONL file. *)
Definition world_with (path : string) (es : list (SessionEntry unit)) : World (list Row) :=
  set_files {[ path := TextFile (unlines (jsonl_lines es)) ]} quiet_world.

Definition store_with (path : string) (es : list (SessionEntry unit)) : SessionStore unit :=
  mkStore path Jsonl "test" es usage_default (next_id_of es) 5000 30000.
