(* ===== verification/SessionTheorems.v ===== *)
(** * Theorems on the session store

    The properties of [tau-session]: the invariant and failure atomicity of
    every mutating operation, and what appending, merging, importing,
    repairing, compacting, storing and locking do.  The last part gives a
    concrete codec and table that satisfy the laws of [serde_json] and of the
    SQL drivers, and applies the theorems to concrete sessions. *)

From Stdlib Require Import NArith ZArith Lia.
From stdpp Require Import base gmap sets strings relations sorting list.
From S2P Require Import Prelude RustStr Messages SessionIntegrity SessionStorage SessionLocking.
From S2P Require Import SessionStore SessionInvariant SessionInstances.

#[local] Open Scope string_scope.
#[local] Open Scope list_scope.
#[local] Open Scope nat_scope.

Section operations.
Context {Value T : Type} `{!SessionCodec Value, !RowTable T}.
Implicit Types (w : World T) (st : SessionStore Value) (es : list (SessionEntry Value)).
Abbreviation ids es := (se_id <$> es).

(** The operations that change the entries of a store. *)
Inductive SessionOp :=
| OpAppend (parent : option N) (messages : list (Message Value))
| OpImport (source : string) (mode : SessionImportMode)
| OpMerge (source target : N) (strategy : SessionMergeStrategy)
| OpRepair
| OpCompact (preferred : option N).

Definition forget {A} (r : World T * SessionStore Value * Result SessionError A)
    : World T * SessionStore Value * Result SessionError unit :=
  let '(w, st, a) := r in (w, st, result_map (λ _, tt) a).

Definition run_op w st (op : SessionOp)
    : World T * SessionStore Value * Result SessionError unit :=
  match op with
  | OpAppend parent messages => forget (append_messages w st parent messages)
  | OpImport source mode => forget (import_snapshot w st source mode)
  | OpMerge s t strategy => forget (merge_branches w st s t strategy)
  | OpRepair => forget (repair w st)
  | OpCompact preferred => forget (compact_to_lineage w st preferred)
  end.

(** Ids that an operation allocates stay in [u64]; a merged snapshot lists
    its ids in increasing order. *)
Definition op_room w st (op : SessionOp) : Prop :=
  match op with
  | OpAppend _ messages =>
      (max_or_zero (ids (st_entries st)) + 1 + N.of_nat (length messages) ≤ u64_max)%N
  | OpImport source ImportMerge =>
      ∀ r imported,
        resolve_session_backend w source = Ok r →
        read_session_entries (Value:=Value) w source (rb_backend r) = Ok imported →
        ids_increasing imported ∧
        (max_or_zero (ids (st_entries st)) + 1 + N.of_nat (length imported) ≤ u64_max)%N
  | OpMerge _ _ _ =>
      (max_or_zero (ids (st_entries st)) + 1 + N.of_nat (length (st_entries st)) + 1
         ≤ u64_max)%N
  | OpImport _ ImportReplace | OpRepair | OpCompact _ => True
  end.

(** One operation, whether it succeeds or fails. *)
Inductive session_step : World T * SessionStore Value → World T * SessionStore Value → Prop :=
| session_step_op w st op w' st' r :
    op_room w st op → run_op w st op = (w', st', r) → session_step (w, st) (w', st').

Lemma forget_Ok {A} (r : World T * SessionStore Value * Result SessionError A) w' st' u :
  forget r = (w', st', Ok u) → ∃ a, r = (w', st', Ok a).
Proof. destruct r as [[? ?] [a|]]; cbn; [|done]. intros [= -> -> _]. eauto. Qed.

Lemma forget_Err {A} (r : World T * SessionStore Value * Result SessionError A) w' st' e :
  forget r = (w', st', Err e) → r = (w', st', Err e).
Proof. destruct r as [[? ?] [a|]]; cbn; [done|]. by intros [= -> -> ->]. Qed.

Context `{!SessionCodecLaws Value, !RowTableLaws T}.

Lemma session_ok_same w w' st : same_storage w w' → session_ok w st → session_ok w' st.
Proof using Type.
  intros Hs (Hv & Hn & Hr). split_and!; [done..|]. by rewrite (reads_same_storage _ _ _ _ Hs).
Qed.

Lemma import_ok w st source mode w' st' a :
  session_ok w st → op_room w st (OpImport source mode) →
  import_snapshot w st source mode = (w', st', Ok a) → session_ok w' st'.
Proof using All.
  intros Hok Hroom. unfold import_snapshot.
  destruct (resolve_session_backend w source) as [r|] eqn:Hres; [|done]. cbn.
  destruct (read_session_entries w source (rb_backend r)) as [imported|] eqn:Hread; [|done].
  cbn. destruct (is_valid (validation_report_for_entries imported)) eqn:Hvalid; [|done]. cbn.
  apply is_valid_report in Hvalid.
  intros (w1 & w2 & Hs1 & Hbody & Hs2)%with_lock_Ok.
  destruct (session_ok_read _ _ _ Hok Hs1) as (es & Hes & Hperm & Hv & Hmax).
  rewrite Hes in Hbody. destruct mode.
  - destruct (Hroom r imported Hres Hread) as [Hinc Hbound].
    destruct (merge_entries_with_remap_spec es imported Hv Hvalid Hinc) as
      (id_map & remapped & head & Heq & Hvm & _); [by rewrite Hmax|].
    rewrite Heq in Hbody.
    destruct (write_session_entries_atomic _ _ _ _) as [w3 [[]|]] eqn:Hw; [|done].
    injection Hbody as <- <- _. by eapply session_ok_commit.
  - destruct (write_session_entries_atomic _ _ _ _) as [w3 [[]|]] eqn:Hw; [|done].
    injection Hbody as <- <- _. by eapply session_ok_commit.
Qed.

(** A merge on the store, lifted from the entries. *)
Lemma merge_branches_spec w st s t strategy w' st' rep :
  session_ok w st → op_room w st (OpMerge s t strategy) →
  merge_branches w st s t strategy = (w', st', Ok rep) →
  session_ok w' st' ∧
  ∃ ls lt new,
    chain (get_of (st_entries st)) s ls ∧ chain (get_of (st_entries st)) t lt ∧
    st_entries st' ≡ₚ st_entries st ++ new ∧ length new = appended_entries rep ∧
    merge_outcome (stored (st_backend st) (st_entries st)) s t strategy ls lt new
      (merged_head rep) ∧
    st_entries st' = stored (st_backend st) (st_entries st) ++ new.
Proof using All.
  intros Hok Hroom. unfold merge_branches.
  intros (w1 & w2 & Hs1 & Hbody & Hs2)%with_lock_Ok.
  assert (read_session_entries w1 (st_path st) (st_backend st) =
          Ok (stored (st_backend st) (st_entries st))) as Hread.
  { destruct Hok as (_ & _ & Hr). by rewrite (reads_same_storage _ _ _ _ Hs1). }
  destruct (session_ok_read _ _ _ Hok Hs1) as (es & Hes & Hperm & Hv & Hmax).
  rewrite Hread in Hes. injection Hes as <-. rewrite Hread in Hbody.
  cbn [mbind result_bind] in Hbody.
  destruct (merge_branches_entries _ s t strategy) as [[es' rep']|] eqn:Hm; [|done].
  apply merge_branches_entries_spec in Hm as (ls & lt & new & Hls & Hlt & -> & Hv' & Hlen & Hout);
    [|done|rewrite Hmax, Hperm; exact Hroom].
  assert (session_ok w' st' ∧ st_entries st' = stored (st_backend st) (st_entries st) ++ new
          ∧ rep' = rep) as (Hok' & Hent & ->).
  { destruct (0 <? appended_entries rep') eqn:Happ.
    - destruct (write_session_entries_atomic _ _ _ _) as [w3 [[]|]] eqn:Hw; [|done].
      injection Hbody as <- <- <-. split_and!; [by eapply session_ok_commit|done|done].
    - injection Hbody as <- <- <-. apply Nat.ltb_ge in Happ.
      assert (new = []) as -> by (apply nil_length_inv; lia). rewrite app_nil_r in *.
      split_and!; [|done|done]. split_and!; [done|done|].
      cbn [st_path st_backend st_entries set_entries].
      by rewrite (reads_same_storage _ _ _ _ Hs2), Hread, stored_idemp. }
  split; [done|]. exists ls, lt, new.
  assert (NoDup (ids (stored (st_backend st) (st_entries st)))) as Hnd by (by apply valid_NoDup).
  split_and!; try done.
  - by eapply (lineage_of_perm _ _ (Some s)).
  - by eapply (lineage_of_perm _ _ (Some t)).
  - by rewrite Hent, Hperm.
Qed.

Lemma repair_ok w st w' st' rep :
  repair w st = (w', st', Ok rep) → session_ok w' st'.
Proof using All.
  unfold repair. intros (w1 & w2 & Hs1 & Hbody & Hs2)%with_lock_Ok.
  destruct (read_session_entries _ _ _) as [es|]; [|done].
  destruct (repair_entries es) as [r rep'] eqn:Hr.
  apply repair_entries_spec in Hr as (Hv & _).
  destruct (write_session_entries_atomic _ _ _ _) as [w3 [[]|]] eqn:Hw; [|done].
  injection Hbody as <- <- _. by eapply session_ok_commit.
Qed.

Lemma compact_ok w st preferred w' st' rep :
  session_ok w st → compact_to_lineage w st preferred = (w', st', Ok rep) → session_ok w' st'.
Proof using All.
  intros Hok. unfold compact_to_lineage.
  intros (w1 & w2 & Hs1 & Hbody & Hs2)%with_lock_Ok.
  destruct (session_ok_read _ _ _ Hok Hs1) as (es & Hes & Hperm & Hv & _).
  rewrite Hes in Hbody. destruct es as [|e0 es0] eqn:Hne.
  - injection Hbody as <- <- _. split_and!; [apply valid_nil|done|]. cbn.
    rewrite (reads_same_storage _ _ _ _ Hs2), Hes. by destruct (st_backend st).
  - rewrite <- Hne in *.
    destruct (match preferred with Some h => Some h | None => _ end) as [head|] eqn:Hh.
    2: { destruct preferred; [done|]. rewrite Hne in Hh. by apply fmap_None, last_None in Hh. }
    destruct (collect_lineage_ids es head) as [S|] eqn:HS; [|done].
    apply collect_lineage_ids_Ok in HS as (l & Hl & ->).
    destruct (write_session_entries_atomic _ _ _ _) as [w3 [[]|]] eqn:Hw; [|done].
    injection Hbody as <- <- _. eapply session_ok_commit; [done|done|].
    by apply (compact_valid es head l).
Qed.

Lemma run_op_ok w st op w' st' u :
  session_ok w st → op_room w st op → run_op w st op = (w', st', Ok u) → session_ok w' st'.
Proof using All.
  intros Hok Hroom. destruct op as [parent ms|source mode|s t strategy| |preferred];
    cbn [run_op]; intros [a H]%forget_Ok.
  - destruct ms as [|m ms]; [by injection H as <- <- _|].
    by apply append_messages_spec in H as (Hok' & _).
  - by eapply import_ok.
  - by apply merge_branches_spec in H as (Hok' & _).
  - by eapply repair_ok.
  - by eapply compact_ok.
Qed.

(** *** Failures *)

Definition unchanged w st w' st' : Prop :=
  st' = st ∧
  read_session_entries (Value:=Value) w' (st_path st) (st_backend st) =
  read_session_entries w (st_path st) (st_backend st).

(** A locked body that fails either before writing or in the write. *)
Lemma with_lock_unchanged {A} w st
    (body : World T → World T * SessionStore Value * Result SessionError A) w' st' e :
  (∀ w1 w2 st2, body w1 = (w2, st2, Err e) →
    st2 = st ∧ (w2 = w1 ∨ ∃ es e',
      write_session_entries_atomic w1 (st_path st) es (st_backend st) = (w2, Err e'))) →
  with_lock w st body = (w', st', Err e) → unchanged w st w' st'.
Proof using All.
  intros Hbody [[-> Hs]|(w1 & w2 & Hs1 & Hb & Hs2)]%with_lock_Err.
  - split; [done|]. by apply reads_same_storage.
  - apply Hbody in Hb as [-> Hw]. split; [done|].
    rewrite (reads_same_storage _ _ _ _ Hs2), <- (reads_same_storage _ _ _ _ Hs1).
    destruct Hw as [->|(es & e' & Hw)]; [done|]. by eapply write_error_keeps.
Qed.

(** Close the cases of a body: before the write, or the failed write. *)
Ltac body_cases :=
  intros w1 w2 st2; repeat (case_match; try done); intros; simplify_eq;
  try match goal with
      | H : (_, _) = (_, _) |- _ => injection H as ? ? ?; subst
      end; split; eauto.

Lemma run_op_unchanged w st op w' st' e :
  run_op w st op = (w', st', Err e) → unchanged w st w' st'.
Proof using All.
  destruct op as [parent ms|source mode|s t strategy| |preferred]; cbn [run_op];
    intros H%forget_Err; revert H.
  - unfold append_messages. destruct ms; [done|]. apply with_lock_unchanged. body_cases.
  - unfold import_snapshot. case_match.
    + apply with_lock_unchanged. body_cases.
    + by intros [= <- <- _].
  - unfold merge_branches. apply with_lock_unchanged. body_cases.
  - unfold repair. apply with_lock_unchanged. body_cases.
  - unfold compact_to_lineage. apply with_lock_unchanged. body_cases.
Qed.
End operations.

(** ** The invariant and failures *)

Section claims.
Context {Value T : Type} `{!SessionCodec Value, !RowTable T}.
Context `{!SessionCodecLaws Value, !RowTableLaws T}.
Abbreviation ids es := (se_id <$> es).


(** C2: an operation that returns an error leaves the in-memory store and the
    entries its backend returns exactly as they were, on every error path:
    lock timeouts, rejected parents, failed imports and refused writes. *)
Theorem session_failure_atomic (w w' : World T) (st st' : SessionStore Value) op e :
  run_op w st op = (w', st', Err e) →
  st' = st ∧
  read_session_entries (Value:=Value) w' (st_path st) (st_backend st) =
  read_session_entries w (st_path st) (st_backend st).
Proof using All. apply run_op_unchanged. Qed.

(** ** Appending *)

(** appending messages under a parent extends that parent's conversation
    by exactly these messages, in order: the new head's lineage is the old
    one followed by them. *)
Theorem append_extends_lineage (w w' : World T) (st st' : SessionStore Value)
    parent prefix messages head :
  session_ok w st →
  (max_or_zero (ids (st_entries st)) + 1 + N.of_nat (length messages) ≤ u64_max)%N →
  lineage_messages st parent = Ok prefix →
  append_messages w st parent messages = (w', st', Ok head) →
  lineage_messages st' head = Ok (prefix ++ messages).
Proof using All.
  intros Hok Hmax Hpre Happ. pose proof Hok as (Hv & _).
  destruct messages as [|m ms].
  { injection Happ as <- <- <-. by rewrite app_nil_r. }
  apply append_messages_spec in Happ as (Hok' & Hlin & _); [|done..].
  apply lineage_messages_inv in Hpre as (l & Hl & ->); [|by apply valid_NoDup].
  destruct (Hlin l Hl) as (new & Hnew & Hl').
  rewrite (lineage_messages_Ok _ _ _ (valid_NoDup _ (proj1 Hok')) Hl').
  by rewrite reverse_app, reverse_involutive, fmap_app, Hnew.
Qed.

(** On the file backend an append succeeds whenever nothing stands in its
    way: the lock is free, the parent exists and the paths can be written. *)
Theorem append_unobstructed (w : World T) (st : SessionStore Value) parent messages :
  session_ok w st → st_backend st = Jsonl →
  w_locks w !! lock_path st = None →
  (∀ path, w_write_denied w path = false) →
  (∀ p, parent = Some p → p ∈ ids (st_entries st)) →
  ∃ w' st' head, append_messages w st parent messages = (w', st', Ok head).
Proof using All.
  intros (_ & _ & Hr) Hb Hlock Hdeny Hpar. unfold append_messages.
  destruct messages as [|m ms]; [by eauto|]. unfold with_lock.
  rewrite acquire_lock_free by auto. rewrite Hb in *. cbn [read_session_entries stored] in *.
  unfold read_session_entries_jsonl in *. cbn [w_files set_locks]. rewrite Hr. cbn [mbind result_bind].
  assert (check_parent (st_entries st) parent = Ok tt) as ->.
  { destruct parent as [p|]; [|done]. cbn. apply bail_if_Ok, negb_false_iff, existsb_id. auto. }
  cbn [mbind result_bind]. destruct (append_loop _ _ _ _) as [[es' p'] n'].
  cbn [write_session_entries_atomic].
  unfold write_session_entries_atomic_jsonl, write_text_atomic_at. cbn [w_write_denied set_locks].
  rewrite !Hdeny. eauto.
Qed.

(** ** Branch merges *)

(** An appending merge gives the target's conversation followed by the
    source messages it did not have yet: the merged head's lineage is the
    target lineage, then the source entries that are not on it. *)
Theorem merge_append_lineage (w w' : World T) (st st' : SessionStore Value) s t rep :
  session_ok w st →
  (max_or_zero (ids (st_entries st)) + 1 + N.of_nat (length (st_entries st)) + 1 ≤ u64_max)%N →
  merge_branches w st s t Append = (w', st', Ok rep) →
  ∃ source target,
    lineage_entries st (Some s) = Ok source ∧ lineage_entries st (Some t) = Ok target ∧
    lineage_messages st' (Some (merged_head rep)) =
      Ok ((se_message <$> target) ++
          (se_message <$> filter (λ e, se_id e ∉ ids target) source)) ∧
    appended_entries rep = length (filter (λ e, se_id e ∉ ids target) source).
Proof using All.
  intros Hok Hmax Hm. apply merge_branches_spec in Hm as
    (Hok' & ls & lt & new & Hs & Ht & Hperm & Hlen & (Hmsg & Hchain) & Hent); [|done..].
  assert (filter (λ e, se_id e ∉ ids (reverse lt)) (reverse ls) = carried_over ls lt) as Hco.
  { apply list_filter_iff. intros e. by rewrite fmap_reverse, elem_of_reverse. }
  assert (NoDup (ids (st_entries st))) as Hnd by (by apply valid_NoDup, Hok).
  exists (reverse ls), (reverse lt). split_and!.
  - by apply lineage_entries_Ok.
  - by apply lineage_entries_Ok.
  - rewrite Hco, <- Hmsg.
    rewrite (lineage_messages_Ok st' (Some (merged_head rep)) (reverse new ++ lt)).
    + by rewrite reverse_app, reverse_involutive, fmap_app.
    + by apply valid_NoDup, Hok'.
    + cbn. by rewrite Hent.
  - rewrite Hco, <- Hlen. apply (f_equal length) in Hmsg. by rewrite !length_fmap in Hmsg.
Qed.

(** A fast-forward merge adds nothing: it succeeds only when the target is
    on the source's lineage, its head is the source, and the stored entries
    are untouched. *)
Lemma merge_fast_forward (w w' : World T) (st st' : SessionStore Value) s t rep :
  session_ok w st →
  (max_or_zero (ids (st_entries st)) + 1 + N.of_nat (length (st_entries st)) + 1 ≤ u64_max)%N →
  merge_branches w st s t FastForward = (w', st', Ok rep) →
  merged_head rep = s ∧ appended_entries rep = 0 ∧ st_entries st' ≡ₚ st_entries st ∧
  ∃ source, lineage_entries st (Some s) = Ok source ∧ t ∈ ids source.
Proof using All.
  intros Hok Hmax Hm. apply merge_branches_spec in Hm as
    (Hok' & ls & lt & new & Hs & Ht & Hperm & Hlen & (-> & Hhead & Hin) & Hent); [|done..].
  rewrite app_nil_r in Hperm. split_and!; [done|done|done|].
  exists (reverse ls). split; [apply lineage_entries_Ok; [by apply valid_NoDup, Hok|done]|].
  by rewrite fmap_reverse, elem_of_reverse.
Qed.

(** A squash merge adds at most one entry, a child of the target: nothing
    when the source has nothing new, else one summary whose lineage is the
    target's. *)
Lemma merge_squash_single (w w' : World T) (st st' : SessionStore Value) s t rep :
  session_ok w st →
  (max_or_zero (ids (st_entries st)) + 1 + N.of_nat (length (st_entries st)) + 1 ≤ u64_max)%N →
  merge_branches w st s t Squash = (w', st', Ok rep) →
  ∃ target, lineage_messages st (Some t) = Ok target ∧
    (merged_head rep = t ∧ appended_entries rep = 0 ∧ st_entries st' ≡ₚ st_entries st ∨
     ∃ summary, appended_entries rep = 1 ∧
       lineage_messages st' (Some (merged_head rep)) = Ok (target ++ [summary])).
Proof using All.
  intros Hok Hmax Hm. apply merge_branches_spec in Hm as
    (Hok' & ls & lt & new & Hs & Ht & Hperm & Hlen & Hout & Hent); [|done..].
  assert (NoDup (ids (st_entries st))) as Hnd by (by apply valid_NoDup, Hok).
  exists (se_message <$> reverse lt).
  split; [by apply lineage_messages_Ok|].
  destruct Hout as [(_ & -> & Hhead)|(_ & e & -> & Hhead & Hc)].
  - left. by rewrite app_nil_r in Hperm.
  - right. exists (se_message e). split; [done|].
    rewrite (lineage_messages_Ok st' (Some (merged_head rep)) (e :: lt)).
    + by rewrite reverse_cons, fmap_app.
    + by apply valid_NoDup, Hok'.
    + cbn. by rewrite Hent.
Qed.

(** The merge strategies that copy no messages.  A successful fast-forward
    adds nothing, moves the head to the source and only works when the target is
    on the source's lineage; a successful squash adds nothing when the source
    has nothing new, and else one summary entry whose lineage is the target's. *)
Theorem merge_collapsing_strategies (w w' : World T) (st st' : SessionStore Value) s t strategy rep :
  session_ok w st →
  (max_or_zero (ids (st_entries st)) + 1 + N.of_nat (length (st_entries st)) + 1 ≤ u64_max)%N →
  merge_branches w st s t strategy = (w', st', Ok rep) →
  match strategy with
  | Append => True
  | FastForward =>
      merged_head rep = s ∧ appended_entries rep = 0 ∧ st_entries st' ≡ₚ st_entries st ∧
      ∃ source, lineage_entries st (Some s) = Ok source ∧ t ∈ ids source
  | Squash =>
      ∃ target, lineage_messages st (Some t) = Ok target ∧
        (merged_head rep = t ∧ appended_entries rep = 0 ∧ st_entries st' ≡ₚ st_entries st ∨
         ∃ summary, appended_entries rep = 1 ∧
           lineage_messages st' (Some (merged_head rep)) = Ok (target ++ [summary]))
  end.
Proof using All.
  intros Hok Hmax Hm. destruct strategy; [done| |].
  all: first [by eapply merge_fast_forward | by eapply merge_squash_single].
Qed.

(** ** Repair and compaction *)

(** C3: after a successful repair the store holds a valid session, whatever
    was stored before: exactly the entries of the deduplicated session whose
    lineage reaches a root. *)
Theorem repair_keeps_complete_lineages (w w' : World T) (st st' : SessionStore Value) es rep :
  read_session_entries w (st_path st) (st_backend st) = Ok es →
  repair w st = (w', st', Ok rep) →
  session_ok w' st' ∧
  ∀ e, e ∈ st_entries st' ↔
       ∃ l, chain (get_of (dedup_entries (sort_by_key se_id es) ∅).1) (se_id e) (e :: l).
Proof using All.
  intros Hread Hr. split; [by eapply repair_ok|].
  unfold repair in Hr. apply with_lock_Ok in Hr as (w1 & w2 & Hs1 & Hbody & Hs2).
  rewrite (reads_same_storage _ _ _ _ Hs1), Hread in Hbody.
  destruct (repair_entries es) as [r rep'] eqn:Hre.
  apply repair_entries_spec in Hre as (_ & _ & Hin).
  destruct (write_session_entries_atomic _ _ _ _) as [w3 [[]|]]; [|done].
  injection Hbody as <- <- _. exact Hin.
Qed.

(** Repairing is idempotent: a second repair of what a first one produced
    changes no entry and reports no duplicate, orphan or cycle. *)
Theorem repair_idempotent (es : list (SessionEntry Value)) r rep :
  repair_entries es = (r, rep) → repair_entries r = (r, mkRepair 0 [] 0 [] 0 []).
Proof using Type.
  intros (Hv & Hs & _)%repair_entries_spec. rewrite repair_entries_valid by done.
  by rewrite sort_by_key_id by (by apply sorted_lt_le).
Qed.

(** Compaction to a head keeps exactly that head's lineage: afterwards the
    session is valid, its entries are a permutation of the lineage, and the
    conversation of the head reads as before. *)
Theorem compact_keeps_lineage (w w' : World T) (st st' : SessionStore Value) h rep :
  session_ok w st → st_entries st ≠ [] →
  compact_to_lineage w st (Some h) = (w', st', Ok rep) →
  session_ok w' st' ∧
  ∃ lineage, lineage_entries st (Some h) = Ok lineage ∧
    lineage_entries st' (Some h) = Ok lineage ∧ st_entries st' ≡ₚ lineage ∧
    retained_entries rep = length lineage.
Proof using All.
  intros Hok Hne Hc. split; [by eapply compact_ok|]. unfold compact_to_lineage in Hc.
  apply with_lock_Ok in Hc as (w1 & w2 & Hs1 & Hbody & Hs2).
  destruct (session_ok_read _ _ _ Hok Hs1) as (es & Hes & Hperm & Hv & _).
  rewrite Hes in Hbody. destruct es as [|e0 es0] eqn:Heq.
  { by apply symmetry, Permutation_nil_r in Hperm. }
  rewrite <- Heq in *.
  destruct (collect_lineage_ids es h) as [S|] eqn:HS; [|done].
  apply collect_lineage_ids_Ok in HS as (l & Hl & ->).
  destruct (write_session_entries_atomic _ _ _ _) as [w3 [[]|]]; [|done].
  injection Hbody as <- <- <-. destruct (compact_valid es h l Hv Hl) as (Hvc & Hp & Hlc).
  exists (reverse l). split_and!.
  - apply lineage_entries_Ok; [by apply valid_NoDup, Hok|].
    eapply (lineage_of_perm _ _ (Some h)); [exact Hperm|by apply valid_NoDup|done].
  - apply lineage_entries_Ok; [by apply valid_NoDup|done].
  - cbn. by rewrite Hp, reverse_Permutation.
  - cbn. by rewrite Hp, length_reverse.
Qed.

(** ** Import, validation and storage *)

(** Merging a valid snapshot whose ids increase into a valid session gives
    a valid session: the existing entries keep their place and their
    lineages, and every imported conversation is found again under its
    remapped head. *)
Theorem import_merge_valid (existing imported : list (SessionEntry Value)) :
  valid_entries existing → valid_entries imported → ids_increasing imported →
  (max_or_zero (ids existing) + 1 + N.of_nat (length imported) ≤ u64_max)%N →
  ∃ id_map remapped head,
    merge_entries_with_remap existing imported =
      Ok (existing ++ (remap_entry id_map <$> imported), remapped, head) ∧
    valid_entries (existing ++ (remap_entry id_map <$> imported)) ∧
    (∀ i l, chain (get_of imported) i l →
      chain (get_of (existing ++ (remap_entry id_map <$> imported)))
        (remap_id id_map i) (remap_entry id_map <$> l)) ∧
    (∀ i l, chain (get_of existing) i l →
      chain (get_of (existing ++ (remap_entry id_map <$> imported))) i l).
Proof using Type. apply merge_entries_with_remap_spec. Qed.

(** Validation is exact: the report is clean iff ids are unique, every
    parent exists and no parent walk runs into a cycle. *)
Theorem validation_report_exact (es : list (SessionEntry Value)) :
  is_valid (validation_report_for_entries es) = true ↔
  NoDup (ids es) ∧
  (∀ e p, e ∈ es → se_parent_id e = Some p → p ∈ ids es) ∧
  (∀ e, e ∈ es → rooted (id_to_entry es) (se_id e)).
Proof using Type. apply is_valid_report. Qed.

(** Cycle detection always returns within its bound, and answers false
    exactly for the ids whose parent walk ends. *)
Theorem has_cycle_decides (m : gmap N (SessionEntry Value)) (i : N) :
  is_Some (has_cycle_loop (2 + size m) m ∅ (Some i)) ∧
  (has_cycle i m = false ↔ rooted m i).
Proof using Type.
  split; [|apply has_cycle_false]. apply has_cycle_loop_total.
  rewrite difference_empty_L, size_dom. lia.
Qed.


(** Recording a usage delta adds it to the stored summary with saturation:
    the store and the backend agree on the sum, which never decreases a
    token count and stays in range. *)
Theorem usage_accumulates (w w' : World T) (st st' : SessionStore Value) delta summary :
  read_session_usage_summary (Value:=Value) w (st_path st) (st_backend st) = Ok summary →
  in_u64 (total_tokens summary) → in_u64 (input_tokens summary) →
  in_u64 (output_tokens summary) →
  is_zero_delta delta = false →
  f64_is_finite (estimated_cost_usd (add_usage summary delta)) = true →
  record_usage_delta w st delta = (w', st', Ok tt) →
  st_usage st' = add_usage summary delta ∧
  read_session_usage_summary (Value:=Value) w' (st_path st) (st_backend st) =
    Ok (add_usage summary delta) ∧
  (total_tokens summary ≤ total_tokens (st_usage st') ≤ u64_max)%N ∧
  (input_tokens summary ≤ input_tokens (st_usage st') ≤ u64_max)%N ∧
  (output_tokens summary ≤ output_tokens (st_usage st') ≤ u64_max)%N.
Proof using All.
  intros Hread Ht Hi Ho Hz Hfin Hrec. unfold record_usage_delta in Hrec. rewrite Hz in Hrec.
  apply with_lock_Ok in Hrec as (w1 & w2 & Hs1 & Hbody & Hs2).
  rewrite (usage_same_storage _ _ _ _ Hs1), Hread in Hbody.
  destruct (write_session_usage_summary_atomic _ _ _ _) as [w3 [[]|]] eqn:Hw; [|done].
  injection Hbody as <- <-. split_and!; cbn [st_usage set_usage]; try done;
    try apply saturating_add_u64_in; try by apply saturating_add_u64_mono.
  rewrite (usage_same_storage _ _ _ _ Hs2). by eapply usage_write_read.
Qed.
End claims.

(** ** A colliding import *)

Definition sample_entry (i : N) (p : option N) : SessionEntry unit :=
  mkEntry i p (message_user "hi").

(** Without the order on imported ids the merge is unsound: two valid
    sessions whose merge succeeds with a duplicate id.  An id above the
    existing ones is kept as it is without moving the replacement counter,
    which later hands out the same id. *)
Theorem import_merge_collision :
  ∃ existing imported merged : list (SessionEntry unit), ∃ remapped head,
    is_valid (validation_report_for_entries existing) = true ∧
    is_valid (validation_report_for_entries imported) = true ∧
    merge_entries_with_remap existing imported = Ok (merged, remapped, head) ∧
    vr_duplicates (validation_report_for_entries merged) = 1.
Proof.
  exists [sample_entry 1 None; sample_entry 2 (Some 1%N)],
    [sample_entry 3 None; sample_entry 1 None].
  eexists _, _, _. split_and!; [by vm_compute|by vm_compute|by vm_compute|by vm_compute].
Qed.

(** ** Witnesses *)

Section witnesses.
(** A branching session: 1 <- 2 <- 3 and 2 <- 4. *)
Definition sample_session : list (SessionEntry unit) :=
  [sample_entry 1 None; sample_entry 2 (Some 1%N);
   sample_entry 3 (Some 2%N); sample_entry 4 (Some 2%N)].

Definition sample_path : string := "state/s.jsonl".
Definition sample_world : World (list Row) := world_with sample_path sample_session.
Definition sample_store : SessionStore unit := store_with sample_path sample_session.

Lemma sample_valid : valid_entries sample_session.
Proof. apply is_valid_report. by vm_compute. Qed.

Lemma sample_ok : session_ok sample_world sample_store.
Proof.
  split_and!; [apply sample_valid|done|].
  cbn -[lines unlines jsonl_lines parse_session_lines].
  unfold read_session_entries_jsonl, sample_world, world_with. cbn [w_files set_files].
  rewrite lookup_singleton_eq. apply jsonl_lines_parse.
Qed.

(** A computed call and the fact that it succeeded. *)
Lemma succeeded {A B} (r : A * Result SessionError B) :
  is_ok r.2 = true → ∃ a b, r = (a, Ok b).
Proof. destruct r as [a [b|]]; [eauto|done]. Qed.


Lemma session_failure_atomic_witness :
  ∃ w' st', run_op sample_world sample_store (OpAppend (Some 9%N) [message_user "more"]) =
              (w', st', Err (ParentDoesNotExist 9)) ∧ st' = sample_store.
Proof.
  destruct (run_op sample_world sample_store (OpAppend (Some 9%N) [message_user "more"]))
    as [[w' st'] r] eqn:Hrun.
  assert ((run_op sample_world sample_store (OpAppend (Some 9%N) [message_user "more"])).2 =
    Err (ParentDoesNotExist 9)) as Hr by (vm_compute; reflexivity).
  rewrite Hrun in Hr. cbn in Hr. subst r. exists w', st'. split; [reflexivity|].
  exact (proj1 (session_failure_atomic _ _ _ _ _ _ Hrun)).
Defined.

Lemma append_extends_lineage_witness :
  ∃ w' st' h, append_messages sample_world sample_store (Some 3%N) [message_user "more"] =
                (w', st', Ok h) ∧
    lineage_messages st' h =
      Ok [message_user "hi"; message_user "hi"; message_user "hi"; message_user "more"].
Proof.
  destruct (succeeded (append_messages sample_world sample_store (Some 3%N)
    [message_user "more"])) as ([w' st'] & h & Hrun); [vm_compute; reflexivity|].
  exists w', st', h. split; [exact Hrun|].
  apply (append_extends_lineage sample_world w' sample_store st' (Some 3%N)
    [message_user "hi"; message_user "hi"; message_user "hi"] _ _ sample_ok);
    [vm_compute; discriminate|vm_compute; reflexivity|exact Hrun].
Defined.

Lemma append_unobstructed_witness :
  ∃ w' st' h, append_messages sample_world sample_store (Some 4%N) [message_user "more"] =
                (w', st', Ok h).
Proof.
  apply (append_unobstructed _ _ _ _ sample_ok); [reflexivity|reflexivity|reflexivity|].
  intros p [= <-]. vm_compute. repeat constructor.
Defined.

Lemma merge_append_lineage_witness :
  ∃ w' st' rep, merge_branches sample_world sample_store 3 4 Append = (w', st', Ok rep) ∧
    appended_entries rep = 1.
Proof.
  destruct (succeeded (merge_branches sample_world sample_store 3 4 Append))
    as ([w' st'] & rep & Hrun); [vm_compute; reflexivity|].
  exists w', st', rep. split; [exact Hrun|].
  destruct (merge_append_lineage _ _ _ _ _ _ _ sample_ok ltac:(vm_compute; discriminate) Hrun)
    as (source & target & Hs & Ht & _ & Happ).
  vm_compute in Hs, Ht. injection Hs as <-. injection Ht as <-. by rewrite Happ.
Defined.

Lemma merge_collapsing_strategies_witness :
  (∃ w' st' rep, merge_branches sample_world sample_store 3 2 FastForward = (w', st', Ok rep) ∧
    merged_head rep = 3%N) ∧
  ∃ w' st' rep, merge_branches sample_world sample_store 3 4 Squash = (w', st', Ok rep) ∧
    ∃ target, lineage_messages sample_store (Some 4%N) = Ok target.
Proof.
  destruct (succeeded (merge_branches sample_world sample_store 3 2 FastForward))
    as ([w' st'] & rep & Hrun); [vm_compute; reflexivity|].
  destruct (succeeded (merge_branches sample_world sample_store 3 4 Squash))
    as ([w2 st2] & rep2 & Hrun2); [vm_compute; reflexivity|].
  split; [exists w', st', rep|exists w2, st2, rep2]; (split; [assumption|]).
  - exact (proj1 (merge_collapsing_strategies _ _ _ _ _ _ _ _ sample_ok
      ltac:(vm_compute; discriminate) Hrun)).
  - destruct (merge_collapsing_strategies _ _ _ _ _ _ _ _ sample_ok
      ltac:(vm_compute; discriminate) Hrun2) as (target & Ht & _). by exists target.
Defined.

(** A damaged session: a duplicate, an orphan and a cycle. *)
Definition damaged_session : list (SessionEntry unit) :=
  [sample_entry 2 (Some 1%N); sample_entry 1 None; sample_entry 2 None;
   sample_entry 7 (Some 9%N); sample_entry 5 (Some 6%N); sample_entry 6 (Some 5%N)].

Lemma repair_keeps_complete_lineages_witness :
  ∃ w' st' rep,
    repair (world_with sample_path damaged_session) (store_with sample_path []) =
      (w', st', Ok rep) ∧ session_ok w' st'.
Proof.
  destruct (succeeded (repair (world_with sample_path damaged_session)
    (store_with sample_path []))) as ([w' st'] & rep & Hrun); [vm_compute; reflexivity|].
  exists w', st', rep. split; [exact Hrun|].
  assert (read_session_entries (world_with sample_path damaged_session)
    (st_path (store_with sample_path [])) Jsonl = Ok damaged_session) as Hread
    by (vm_compute; reflexivity).
  exact (proj1 (repair_keeps_complete_lineages _ _ _ _ _ _ Hread Hrun)).
Defined.

Lemma repair_idempotent_witness :
  repair_entries damaged_session =
    ([sample_entry 1 None; sample_entry 2 (Some 1%N)],
     mkRepair 1 [2%N] 1 [7%N] 2 [5%N; 6%N]) ∧
  repair_entries [sample_entry 1 None; sample_entry 2 (Some 1%N)] =
    ([sample_entry 1 None; sample_entry 2 (Some 1%N)], mkRepair 0 [] 0 [] 0 []).
Proof.
  assert (repair_entries damaged_session =
    ([sample_entry 1 None; sample_entry 2 (Some 1%N)],
     mkRepair 1 [2%N] 1 [7%N] 2 [5%N; 6%N])) as Hr by (vm_compute; reflexivity).
  split; [exact Hr|]. exact (repair_idempotent _ _ _ Hr).
Defined.

Lemma compact_keeps_lineage_witness :
  ∃ w' st' rep,
    compact_to_lineage sample_world sample_store (Some 3%N) = (w', st', Ok rep) ∧
    ∃ lineage, lineage_entries st' (Some 3%N) = Ok lineage ∧ length lineage = 3.
Proof.
  destruct (succeeded (compact_to_lineage sample_world sample_store (Some 3%N)))
    as ([w' st'] & rep & Hrun); [vm_compute; reflexivity|].
  exists w', st', rep. split; [exact Hrun|].
  destruct (compact_keeps_lineage _ _ _ _ _ _ sample_ok ltac:(discriminate) Hrun)
    as (_ & lineage & Hl & Hl' & _).
  exists lineage. split; [exact Hl'|]. vm_compute in Hl. by injection Hl as <-.
Defined.

Lemma import_merge_valid_witness :
  ∃ id_map remapped head,
    merge_entries_with_remap sample_session sample_session =
      Ok (sample_session ++ (remap_entry id_map <$> sample_session), remapped, head) ∧
    valid_entries (sample_session ++ (remap_entry id_map <$> sample_session)).
Proof.
  destruct (import_merge_valid sample_session sample_session sample_valid sample_valid)
    as (id_map & remapped & head & Heq & Hv & _).
  - repeat constructor.
  - vm_compute. discriminate.
  - exists id_map, remapped, head. split; [exact Heq|exact Hv].
Defined.


Lemma usage_accumulates_witness :
  ∃ w' st',
    record_usage_delta quiet_world (fresh_store Postgres) (mkUsage 3 4 7 f64_zero) =
      (w', st', Err (StorageError "postgres requires non-empty dsn")) ∧
  ∃ w1 st1,
    record_usage_delta quiet_world (fresh_store Jsonl) (mkUsage 3 4 7 f64_zero) =
      (w1, st1, Ok tt) ∧ total_tokens (st_usage st1) = 7%N.
Proof.
  eexists _, _. split; [vm_compute; reflexivity|].
  destruct (succeeded (record_usage_delta quiet_world (fresh_store Jsonl)
    (mkUsage 3 4 7 f64_zero))) as ([w1 st1] & [] & Hrun); [vm_compute; reflexivity|].
  exists w1, st1. split; [exact Hrun|].
  assert (read_session_usage_summary (Value:=unit) quiet_world (st_path (fresh_store Jsonl)) Jsonl
    = Ok usage_default) as Hread by (vm_compute; reflexivity).
  destruct (usage_accumulates quiet_world w1 (fresh_store Jsonl) st1
    (mkUsage 3 4 7 f64_zero) usage_default Hread) as [Hsum _];
    [vm_compute; discriminate|vm_compute; discriminate|vm_compute; discriminate|
     vm_compute; reflexivity|vm_compute; reflexivity|exact Hrun|].
  rewrite Hsum. vm_compute. reflexivity.
Defined.
End witnesses.
