(* ===== verification/TrainingTypes.v ===== *)
(** * Training payload types ([tau-training-types], [lib.rs])

    The rollout and attempt lifecycles with their transition tables, the
    reinforcement-learning payloads with their [validate] methods, and the
    resolution of a checkpoint's lineage.  [serde_json::Value] is a parameter:
    the code only asks it for its string, [as_str]. *)

From Stdlib Require Import NArith ZArith Lia.
From stdpp Require Import base gmap sets strings relations list.
From S2P Require Import Prelude RustStr.

#[local] Open Scope string_scope.
#[local] Open Scope list_scope.
#[local] Open Scope nat_scope.

(** ** Rollout and attempt lifecycles *)

Inductive RolloutStatus :=
  Queuing | Preparing | Running | Failed | Succeeded | Cancelled | Requeuing.

Inductive AttemptStatus :=
  AttemptPreparing | AttemptRunning | AttemptFailed | AttemptSucceeded
| AttemptUnresponsive | AttemptTimeout.

Inductive RolloutMode := Train | Val | Test.

#[export] Instance RolloutStatus_eq_dec : EqDecision RolloutStatus.
Proof. solve_decision. Defined.
#[export] Instance AttemptStatus_eq_dec : EqDecision AttemptStatus.
Proof. solve_decision. Defined.
#[export] Instance RolloutMode_eq_dec : EqDecision RolloutMode.
Proof. solve_decision. Defined.

Definition rollout_can_transition_to (self next : RolloutStatus) : bool :=
  if decide (self = next) then true else
  match self, next with
  | Queuing, (Preparing | Running | Cancelled | Requeuing) => true
  | Preparing, (Running | Failed | Cancelled | Requeuing) => true
  | Running, (Succeeded | Failed | Cancelled | Requeuing) => true
  | Failed, (Requeuing | Cancelled) => true
  | Requeuing, (Preparing | Running | Cancelled) => true
  | _, _ => false
  end.

Definition rollout_is_terminal (s : RolloutStatus) : bool :=
  match s with Failed | Succeeded | Cancelled => true | _ => false end.

Definition attempt_can_transition_to (self next : AttemptStatus) : bool :=
  if decide (self = next) then true else
  match self, next with
  | AttemptPreparing,
    (AttemptRunning | AttemptFailed | AttemptSucceeded | AttemptTimeout | AttemptUnresponsive) => true
  | AttemptRunning,
    (AttemptFailed | AttemptSucceeded | AttemptTimeout | AttemptUnresponsive) => true
  | _, _ => false
  end.

Definition attempt_is_terminal (s : AttemptStatus) : bool :=
  match s with
  | AttemptFailed | AttemptSucceeded | AttemptUnresponsive | AttemptTimeout => true
  | _ => false
  end.

(** A terminal attempt has no way out; a rollout that succeeded or was
    cancelled has none, a failed one can be requeued or cancelled. *)
Lemma attempt_terminal_final s s' :
  attempt_is_terminal s = true → attempt_can_transition_to s s' = true → s' = s.
Proof. by destruct s, s'. Qed.

Lemma rollout_closed_final s s' :
  s = Succeeded ∨ s = Cancelled → rollout_can_transition_to s s' = true → s' = s.
Proof. by intros [-> | ->]; destruct s'. Qed.

(** [DateTime<Utc>]: nanoseconds since the epoch. *)
Abbreviation DateTime := Z.

Section payloads.
Context {Value : Type}.

Record RolloutConfig := mkRolloutConfig
  { max_attempts : N; config_metadata : gmap string Value }.
Definition rollout_config_default : RolloutConfig := mkRolloutConfig 1 ∅.

Record Rollout := mkRollout
  { ro_id : string; ro_input : Value; ro_start_time : option DateTime;
    ro_end_time : option DateTime; ro_mode : option RolloutMode; ro_status : RolloutStatus;
    ro_config : RolloutConfig; ro_metadata : gmap string Value;
    ro_assigned_worker_id : option string; ro_attempt_count : N }.

(** [Rollout::new] *)
Definition rollout_new (id : string) (input : Value) (mode : option RolloutMode) : Rollout :=
  mkRollout id input None None mode Queuing rollout_config_default ∅ None 0.

Record Attempt := mkAttempt
  { at_id : string; at_rollout_id : string; at_sequence_id : N; at_worker_id : string;
    at_status : AttemptStatus; at_started_at : DateTime; at_last_heartbeat_at : DateTime;
    at_ended_at : option DateTime; at_error_message : option string }.

(** [Attempt::new]; [now] is its reading of the clock. *)
Definition attempt_new (id rollout_id : string) (sequence_id : N) (worker_id : string)
    (now : DateTime) : Attempt :=
  mkAttempt id rollout_id sequence_id worker_id AttemptPreparing now now None None.

Record SpanEvent := mkSpanEvent
  { ev_name : string; ev_timestamp : DateTime; ev_attributes : gmap string Value }.

Record TrainingSpan := mkSpan
  { sp_rollout_id : string; sp_attempt_id : string; sp_sequence_id : N; sp_trace_id : string;
    sp_span_id : string; sp_parent_id : option string; sp_name : string;
    sp_attributes : gmap string Value; sp_events : list SpanEvent;
    sp_start_time : DateTime; sp_end_time : option DateTime }.

Record ResourcesUpdate := mkResources
  { rs_id : string; rs_version : N; rs_resources : gmap string Value;
    rs_created_time : DateTime; rs_is_latest : bool }.

Record RolloutQuery := mkQuery
  { q_statuses : option (list RolloutStatus); q_mode : option RolloutMode;
    q_ids : option (list string); q_limit : option nat; q_offset : nat }.

Record WorkerState := mkWorker
  { wk_id : string; wk_registered_at : DateTime; wk_last_heartbeat_at : DateTime;
    wk_active_rollout_id : option string; wk_active_attempt_id : option string }.

(** ** Reinforcement-learning payloads *)

Record TrajectoryStep := mkStep
  { step_index : N; step_observation : Value; step_action : Value; step_reward : f64;
    step_done : bool; step_logprob : option f64; step_value_estimate : option f64;
    step_metadata : gmap string Value }.

Record EpisodeTrajectory := mkTrajectory
  { tr_schema_version : N; tr_id : string; tr_rollout_id : option string;
    tr_episode_id : option string; tr_steps : list TrajectoryStep; tr_discount_factor : f64;
    tr_total_return : f64; tr_created_at : DateTime; tr_metadata : gmap string Value }.

Record AdvantageBatch := mkBatch
  { ab_schema_version : N; ab_batch_id : string; ab_trajectory_id : string;
    ab_advantages : list f64; ab_returns : list f64; ab_value_targets : list f64;
    ab_normalized : bool; ab_created_at : DateTime; ab_metadata : gmap string Value }.

Record CheckpointRecord := mkCheckpoint
  { cp_schema_version : N; cp_id : string; cp_algorithm : string; cp_policy_version : string;
    cp_global_step : N; cp_episode_count : N; cp_mean_reward : option f64;
    cp_artifact_uri : option string; cp_created_at : DateTime; cp_metadata : gmap string Value }.

Record RlPayloadBundle := mkBundle
  { bu_trajectory : EpisodeTrajectory; bu_advantages : AdvantageBatch;
    bu_checkpoint : CheckpointRecord }.
End payloads.

Arguments RolloutConfig : clear implicits.
Arguments Rollout : clear implicits.
Arguments SpanEvent : clear implicits.
Arguments TrainingSpan : clear implicits.
Arguments ResourcesUpdate : clear implicits.
Arguments TrajectoryStep : clear implicits.
Arguments EpisodeTrajectory : clear implicits.
Arguments AdvantageBatch : clear implicits.
Arguments CheckpointRecord : clear implicits.
Arguments RlPayloadBundle : clear implicits.

Inductive RlSchemaError :=
| UnsupportedSchemaVersion (type_name : string) (found : N) (supported : list N)
| EmptyField (type_name field : string)
| OutOfRange (type_name field : string) (value : f64)
| LengthMismatch (type_name left_field : string) (left_len : nat) (right_field : string)
    (right_len : nat)
| StepIndexMismatch (type_name : string) (expected found : N) (position : nat)
| NonFinite (type_name field : string).

Inductive RlBundleError :=
| TrajectorySchema (source : RlSchemaError)
| AdvantageSchema (source : RlSchemaError)
| BundleCheckpointSchema (source : RlSchemaError)
| TrajectoryIdMismatch (trajectory_id advantages_trajectory_id : string)
| StepAdvantageLengthMismatch (step_count advantage_count : nat)
| CheckpointGlobalStepMismatch (global_step : N) (step_count : nat).

Inductive CheckpointLineageError :=
| CheckpointSchema (checkpoint_id : string) (source : RlSchemaError)
| DuplicateCheckpointId (checkpoint_id : string)
| UnknownLeafCheckpoint (checkpoint_id : string)
| MissingParentCheckpoint (checkpoint_id parent_checkpoint_id : string)
| LineageCycleDetected (checkpoint_id : string).

(** [Result::map_err] *)
Definition map_err {E E' A} (f : E → E') (r : Result E A) : Result E' A :=
  match r with Ok a => Ok a | Err e => Err (f e) end.

Lemma map_err_Ok {E E' A} (f : E → E') (r : Result E A) a :
  map_err f r = Ok a ↔ r = Ok a.
Proof. destruct r; naive_solver. Qed.

(** [option.is_some_and(|value| !value.is_finite())] *)
Definition some_non_finite (o : option f64) : bool :=
  match o with Some x => negb (f64_is_finite x) | None => false end.
Definition any_non_finite (l : list f64) : bool :=
  existsb (λ x, negb (f64_is_finite x)) l.

Definition RL_SCHEMA_VERSION_V1 : N := 1.

Definition ensure_supported_rl_schema (type_name : string) (version : N)
    : Result RlSchemaError unit :=
  if decide (version = RL_SCHEMA_VERSION_V1) then Ok tt
  else Err (UnsupportedSchemaVersion type_name version [RL_SCHEMA_VERSION_V1]).

Section validation.
Context {Value : Type}.

(** [TrajectoryStep::validate] *)
Definition step_validate (s : TrajectoryStep Value) : Result RlSchemaError unit :=
  _ ← bail_if (negb (f64_is_finite (step_reward s))) (NonFinite "TrajectoryStep" "reward");
  _ ← bail_if (some_non_finite (step_logprob s)) (NonFinite "TrajectoryStep" "logprob");
  bail_if (some_non_finite (step_value_estimate s))
    (NonFinite "TrajectoryStep" "value_estimate").

(** [position as u32] *)
Definition u32_of_usize (n : nat) : N := wrap_u32 (N.of_nat n).

(** The loop of [EpisodeTrajectory::validate] over the enumerated steps. *)
Fixpoint validate_steps (position : nat) (steps : list (TrajectoryStep Value))
    : Result RlSchemaError unit :=
  match steps with
  | [] => Ok tt
  | s :: rest =>
      let expected := u32_of_usize position in
      _ ← bail_if (negb (N.eqb (step_index s) expected))
            (StepIndexMismatch "EpisodeTrajectory" expected (step_index s) position);
      _ ← step_validate s;
      validate_steps (S position) rest
  end.

(** [EpisodeTrajectory::validate] *)
Definition trajectory_validate (t : EpisodeTrajectory Value) : Result RlSchemaError unit :=
  _ ← ensure_supported_rl_schema "EpisodeTrajectory" (tr_schema_version t);
  _ ← bail_if (Nat.eqb (length (tr_steps t)) 0) (EmptyField "EpisodeTrajectory" "steps");
  _ ← bail_if (negb (f64_in_unit (tr_discount_factor t)))
        (OutOfRange "EpisodeTrajectory" "discount_factor" (tr_discount_factor t));
  _ ← bail_if (negb (f64_is_finite (tr_total_return t)))
        (NonFinite "EpisodeTrajectory" "total_return");
  validate_steps 0 (tr_steps t).

(** [AdvantageBatch::validate] *)
Definition batch_validate (b : AdvantageBatch Value) : Result RlSchemaError unit :=
  let advantages := length (ab_advantages b) in
  let returns := length (ab_returns b) in
  let targets := length (ab_value_targets b) in
  _ ← ensure_supported_rl_schema "AdvantageBatch" (ab_schema_version b);
  _ ← bail_if (Nat.eqb advantages 0) (EmptyField "AdvantageBatch" "advantages");
  _ ← bail_if (negb (Nat.eqb advantages returns))
        (LengthMismatch "AdvantageBatch" "advantages" advantages "returns" returns);
  _ ← bail_if (negb (Nat.eqb targets 0) && negb (Nat.eqb targets advantages))
        (LengthMismatch "AdvantageBatch" "value_targets" targets "advantages" advantages);
  _ ← bail_if (any_non_finite (ab_advantages b)) (NonFinite "AdvantageBatch" "advantages");
  _ ← bail_if (any_non_finite (ab_returns b)) (NonFinite "AdvantageBatch" "returns");
  bail_if (any_non_finite (ab_value_targets b)) (NonFinite "AdvantageBatch" "value_targets").

(** [CheckpointRecord::validate] *)
Definition checkpoint_validate (c : CheckpointRecord Value) : Result RlSchemaError unit :=
  _ ← ensure_supported_rl_schema "CheckpointRecord" (cp_schema_version c);
  _ ← bail_if (is_empty (trim (cp_algorithm c))) (EmptyField "CheckpointRecord" "algorithm");
  _ ← bail_if (is_empty (trim (cp_policy_version c)))
        (EmptyField "CheckpointRecord" "policy_version");
  bail_if (some_non_finite (cp_mean_reward c)) (NonFinite "CheckpointRecord" "mean_reward").

(** [RlPayloadBundle::validate] *)
Definition bundle_validate (b : RlPayloadBundle Value) : Result RlBundleError unit :=
  let t := bu_trajectory b in
  let a := bu_advantages b in
  let c := bu_checkpoint b in
  _ ← map_err TrajectorySchema (trajectory_validate t);
  _ ← map_err AdvantageSchema (batch_validate a);
  _ ← map_err BundleCheckpointSchema (checkpoint_validate c);
  _ ← bail_if (negb (String.eqb (tr_id t) (ab_trajectory_id a)))
        (TrajectoryIdMismatch (tr_id t) (ab_trajectory_id a));
  let step_count := length (tr_steps t) in
  let advantage_count := length (ab_advantages a) in
  _ ← bail_if (negb (Nat.eqb step_count advantage_count))
        (StepAdvantageLengthMismatch step_count advantage_count);
  bail_if (cp_global_step c <? N.of_nat step_count)%N
    (CheckpointGlobalStepMismatch (cp_global_step c) step_count).
End validation.

(** ** Checkpoint lineage *)

(** [serde_json::Value::as_str]. *)
Class JsonValue (Value : Type) := as_str : Value → option string.

Section lineage.
Context {Value : Type} `{!JsonValue Value}.
Implicit Types (records : list (CheckpointRecord Value))
  (by_id : gmap string (CheckpointRecord Value)) (r : CheckpointRecord Value).

(** The indexing loop of [resolve_checkpoint_lineage_path]. *)
Fixpoint index_records records by_id
    : Result CheckpointLineageError (gmap string (CheckpointRecord Value)) :=
  match records with
  | [] => Ok by_id
  | r :: rest =>
      _ ← map_err (CheckpointSchema (cp_id r)) (checkpoint_validate r);
      match by_id !! cp_id r with
      | Some _ => Err (DuplicateCheckpointId (cp_id r))
      | None => index_records rest (<[cp_id r := r]> by_id)
      end
  end.

(** The parent link in the record's metadata. *)
Definition parent_checkpoint_id r : option string :=
  value ← cp_metadata r !! "parent_checkpoint_id";
  text ← as_str value;
  let parent := trim text in
  if is_empty parent then None else Some parent.

(** The walk from the leaf; [None] is running out of fuel. *)
Fixpoint checkpoint_walk (fuel : nat) by_id (visited : gset string) (cursor : string)
    (lineage_reversed : list string) : option (Result CheckpointLineageError (list string)) :=
  match fuel with
  | O => None
  | S f =>
      if decide (cursor ∈ visited) then Some (Err (LineageCycleDetected cursor))
      else
        let lineage_reversed := lineage_reversed ++ [cursor] in
        match by_id !! cursor with
        | None => Some (Err (UnknownLeafCheckpoint cursor))
        | Some record =>
            match parent_checkpoint_id record with
            | None => Some (Ok (reverse lineage_reversed))
            | Some parent =>
                match by_id !! parent with
                | None => Some (Err (MissingParentCheckpoint (cp_id record) parent))
                | Some _ =>
                    checkpoint_walk f by_id ({[cursor]} ∪ visited) parent lineage_reversed
                end
            end
        end
  end.

Definition resolve_checkpoint_lineage_path records (leaf : string)
    : Result CheckpointLineageError (list string) :=
  by_id ← index_records records ∅;
  match by_id !! leaf with
  | None => Err (UnknownLeafCheckpoint leaf)
  | Some _ =>
      default (Err (LineageCycleDetected leaf))
        (checkpoint_walk (2 + size by_id) by_id ∅ leaf [])
  end.

(** *** Specification *)

Definition checkpoint_index records : gmap string (CheckpointRecord Value) :=
  list_to_map ((λ r, (cp_id r, r)) <$> records).

(** The parent link between indexed checkpoints. *)
Definition parent_link by_id (i p : string) : Prop :=
  ∃ r, by_id !! i = Some r ∧ parent_checkpoint_id r = Some p ∧ is_Some (by_id !! p).

(** [l] is the lineage of [i], newest first, down to a record with no parent. *)
Inductive checkpoint_path by_id : string → list string → Prop :=
| path_root i r : by_id !! i = Some r → parent_checkpoint_id r = None → checkpoint_path by_id i [i]
| path_step i p l : parent_link by_id i p → checkpoint_path by_id p l →
    checkpoint_path by_id i (i :: l).

(** What a result of the resolution means. *)
Definition lineage_result records (leaf : string)
    (res : Result CheckpointLineageError (list string)) : Prop :=
  let by_id := checkpoint_index records in
  match res with
  | Ok l =>
      Forall (λ r, checkpoint_validate r = Ok tt) records ∧ NoDup (cp_id <$> records) ∧
      NoDup l ∧ checkpoint_path by_id leaf (reverse l)
  | Err (LineageCycleDetected c) =>
      rtc (parent_link by_id) leaf c ∧ tc (parent_link by_id) c c
  | Err (MissingParentCheckpoint i p) =>
      ∃ r, rtc (parent_link by_id) leaf i ∧ by_id !! i = Some r ∧
        parent_checkpoint_id r = Some p ∧ p ∉ cp_id <$> records
  | Err (UnknownLeafCheckpoint i) => i = leaf ∧ leaf ∉ cp_id <$> records
  | Err (DuplicateCheckpointId i) => ¬ NoDup (cp_id <$> records)
  | Err (CheckpointSchema i e) =>
      ∃ r, r ∈ records ∧ cp_id r = i ∧ checkpoint_validate r = Err e
  end.

Definition index_keyed by_id : Prop := ∀ i r, by_id !! i = Some r → cp_id r = i.

Lemma index_records_spec records by_id :
  match index_records records by_id with
  | Ok m =>
      Forall (λ r, checkpoint_validate r = Ok tt) records ∧ NoDup (cp_id <$> records) ∧
      (∀ r, r ∈ records → by_id !! cp_id r = None) ∧
      m = checkpoint_index records ∪ by_id
  | Err (DuplicateCheckpointId i) =>
      ¬ NoDup (cp_id <$> records) ∨ ∃ r, r ∈ records ∧ is_Some (by_id !! cp_id r)
  | Err (CheckpointSchema i e) =>
      ∃ r, r ∈ records ∧ cp_id r = i ∧ checkpoint_validate r = Err e
  | Err _ => False
  end.
Proof.
  revert by_id. induction records as [|r rest IH]; intros by_id; cbn.
  { split_and!; [constructor|constructor|by intros ? ?%elem_of_nil|].
    unfold checkpoint_index. cbn. by rewrite (left_id_L ∅ (∪)). }
  destruct (checkpoint_validate r) as [[]|e] eqn:Hv; cbn;
    [|by exists r; split_and!; [left| |]].
  destruct (by_id !! cp_id r) as [r'|] eqn:Hr; cbn.
  { right. exists r. split; [left|by rewrite Hr]. }
  specialize (IH (<[cp_id r := r]> by_id)).
  destruct (index_records rest (<[cp_id r := r]> by_id)) as [m|[]]; try done.
  - destruct IH as (Hf & Hnd & Hfresh & ->).
    assert (cp_id r ∉ cp_id <$> rest) as Hni.
    { intros (r' & Heq & Hin)%list_elem_of_fmap.
      specialize (Hfresh r' Hin). by rewrite <- Heq, lookup_insert_eq in Hfresh. }
    split_and!.
    + by constructor.
    + by constructor.
    + intros r' [->|Hin]%elem_of_cons; [done|].
      by specialize (Hfresh r' Hin) as [? _]%lookup_insert_None.
    + unfold checkpoint_index. cbn. rewrite <- insert_union_l, insert_union_r; [done|].
      apply not_elem_of_list_to_map_1. by rewrite <- list_fmap_compose.
  - destruct IH as (r' & ? & ? & ?). exists r'. by split_and!; [right| |].
  - destruct IH as [Hnd|(r' & Hin & Hs)].
    + left. by intros [? ?]%NoDup_cons.
    + destruct (decide (cp_id r' = cp_id r)) as [Heq|Hne].
      * left. intros [Hni _]%NoDup_cons. apply Hni. rewrite <- Heq. by apply list_elem_of_fmap_2.
      * rewrite lookup_insert_ne in Hs by done. right. exists r'. by split; [right|].
Qed.

Lemma checkpoint_index_None records i :
  checkpoint_index records !! i = None → i ∉ cp_id <$> records.
Proof.
  intros H%not_elem_of_list_to_map_2. by rewrite <- list_fmap_compose in H.
Qed.

Lemma checkpoint_index_keyed records : index_keyed (checkpoint_index records).
Proof.
  intros i r H%elem_of_list_to_map_2. apply list_elem_of_fmap in H as (? & [= -> ->] & _). done.
Qed.

(** Visited checkpoints lead to the cursor and are listed in walking order. *)
Definition walk_inv by_id leaf (visited : gset string) (cursor : string) (l : list string) : Prop :=
  (∀ v, v ∈ visited ↔ v ∈ l) ∧ NoDup l ∧ rtc (parent_link by_id) leaf cursor ∧
  (∀ v, v ∈ visited → tc (parent_link by_id) v cursor) ∧
  (∀ k, checkpoint_path by_id cursor k → checkpoint_path by_id leaf (l ++ k)).

Lemma walk_inv_step by_id leaf visited cursor l p :
  walk_inv by_id leaf visited cursor l → cursor ∉ visited → parent_link by_id cursor p →
  walk_inv by_id leaf ({[cursor]} ∪ visited) p (l ++ [cursor]).
Proof.
  intros (Hvl & Hnd & Hr & Ht & Hp) Hni Hlink. split_and!.
  - intros v. rewrite elem_of_union, elem_of_singleton, elem_of_app, list_elem_of_singleton, Hvl.
    tauto.
  - apply NoDup_app. split_and!; [done| |apply NoDup_singleton].
    intros v Hv ->%list_elem_of_singleton. by apply Hni, Hvl.
  - by eapply rtc_r.
  - intros v [->%elem_of_singleton|Hv]%elem_of_union; [by constructor|].
    by eapply tc_r; [apply Ht|].
  - intros k Hk. rewrite <- (assoc_L (++)). apply Hp. by eapply path_step.
Qed.

Lemma checkpoint_walk_spec records leaf fuel visited cursor l :
  Forall (λ r, checkpoint_validate r = Ok tt) records → NoDup (cp_id <$> records) →
  is_Some (checkpoint_index records !! cursor) →
  walk_inv (checkpoint_index records) leaf visited cursor l →
  size (dom (checkpoint_index records) ∖ visited) + 2 ≤ fuel →
  ∃ res, checkpoint_walk fuel (checkpoint_index records) visited cursor l = Some res ∧
    lineage_result records leaf res.
Proof.
  intros Hv Hids. revert visited cursor l.
  induction fuel as [|f IH]; intros visited cursor l [r Hr] Hinv Hf; [lia|].
  cbn. case_decide as Hin.
  { eexists. split; [done|]. cbn. destruct Hinv as (_ & _ & ? & Ht & _). by split; [|apply Ht]. }
  rewrite Hr. destruct (parent_checkpoint_id r) as [p|] eqn:Hp.
  - destruct (checkpoint_index records !! p) as [rp|] eqn:Hrp.
    + assert (parent_link (checkpoint_index records) cursor p) by (exists r; naive_solver).
      apply IH; [done|by apply walk_inv_step|].
      assert (cursor ∈ dom (checkpoint_index records)) by (apply elem_of_dom; by eexists).
      pose proof (subset_size (dom (checkpoint_index records) ∖ ({[cursor]} ∪ visited))
        (dom (checkpoint_index records) ∖ visited) ltac:(set_solver)). lia.
    + eexists. split; [done|]. cbn. exists r.
      rewrite (checkpoint_index_keyed _ _ _ Hr).
      destruct Hinv as (_ & _ & ? & _). split_and!; try done. by apply checkpoint_index_None.
  - eexists. split; [done|]. cbn. destruct Hinv as (Hvl & Hnd & _ & _ & Hpath).
    split_and!; [done|done| |].
    + rewrite reverse_Permutation. apply NoDup_app.
      split_and!; [done| |apply NoDup_singleton].
      intros v Hvin ->%list_elem_of_singleton. by apply Hin, Hvl.
    + rewrite reverse_involutive. apply Hpath. by eapply path_root.
Qed.

End lineage.

(** ** What payload validation promises *)

Section conformance.
Context {Value : Type}.
Implicit Types (b : RlPayloadBundle Value) (s : TrajectoryStep Value).

Definition all_finite (l : list f64) : Prop := Forall (λ x, f64_is_finite x = true) l.
Definition some_finite (o : option f64) : Prop := ∀ x, o = Some x → f64_is_finite x = true.

Definition step_conforms s : Prop :=
  f64_is_finite (step_reward s) = true ∧ some_finite (step_logprob s) ∧
  some_finite (step_value_estimate s).

(** A bundle an optimiser can use: aligned arrays of finite numbers, steps in
    order, a discount in [0, 1] and a checkpoint that covers the trajectory. *)
Record bundle_conforms b : Prop := mkConforms
  { conforms_versions :
      tr_schema_version (bu_trajectory b) = 1%N ∧ ab_schema_version (bu_advantages b) = 1%N ∧
      cp_schema_version (bu_checkpoint b) = 1%N;
    conforms_steps :
      ∀ i s, tr_steps (bu_trajectory b) !! i = Some s →
        step_index s = u32_of_usize i ∧ step_conforms s;
    conforms_scalars :
      f64_in_unit (tr_discount_factor (bu_trajectory b)) = true ∧
      f64_is_finite (tr_total_return (bu_trajectory b)) = true ∧
      some_finite (cp_mean_reward (bu_checkpoint b));
    conforms_lengths :
      0 < length (tr_steps (bu_trajectory b)) ∧
      length (ab_advantages (bu_advantages b)) = length (tr_steps (bu_trajectory b)) ∧
      length (ab_returns (bu_advantages b)) = length (tr_steps (bu_trajectory b)) ∧
      (ab_value_targets (bu_advantages b) = [] ∨
       length (ab_value_targets (bu_advantages b)) = length (tr_steps (bu_trajectory b)));
    conforms_finite :
      all_finite (ab_advantages (bu_advantages b)) ∧ all_finite (ab_returns (bu_advantages b)) ∧
      all_finite (ab_value_targets (bu_advantages b));
    conforms_names :
      trim (cp_algorithm (bu_checkpoint b)) ≠ "" ∧
      trim (cp_policy_version (bu_checkpoint b)) ≠ "" ∧
      tr_id (bu_trajectory b) = ab_trajectory_id (bu_advantages b);
    conforms_progress :
      (N.of_nat (length (tr_steps (bu_trajectory b))) ≤ cp_global_step (bu_checkpoint b))%N }.

Lemma ensure_supported_Ok name v : ensure_supported_rl_schema name v = Ok tt ↔ v = 1%N.
Proof. unfold ensure_supported_rl_schema, RL_SCHEMA_VERSION_V1. case_decide; naive_solver. Qed.

Lemma some_non_finite_false o : some_non_finite o = false ↔ some_finite o.
Proof.
  unfold some_finite. destruct o as [x|]; cbn; [|naive_solver].
  rewrite negb_false_iff. naive_solver.
Qed.

Lemma any_non_finite_false l : any_non_finite l = false ↔ all_finite l.
Proof.
  unfold any_non_finite, all_finite. induction l as [|x l IH]; cbn; [by split|].
  rewrite orb_false_iff, negb_false_iff, IH, Forall_cons. done.
Qed.

Lemma step_validate_Ok s : step_validate s = Ok tt ↔ step_conforms s.
Proof.
  unfold step_validate, step_conforms.
  by rewrite !check_Ok, !bail_if_Ok, negb_false_iff, !some_non_finite_false.
Qed.

Lemma validate_steps_Ok steps position :
  validate_steps position steps = Ok tt ↔
  ∀ i s, steps !! i = Some s → step_index s = u32_of_usize (position + i) ∧ step_conforms s.
Proof.
  revert position. induction steps as [|s0 steps IH]; intros position; cbn -[u32_of_usize].
  { split; [|done]. intros _ i s. by rewrite lookup_nil. }
  rewrite !check_Ok, bail_if_Ok, negb_false_iff, N.eqb_eq, step_validate_Ok, IH. split.
  - intros (Hi & Hs & Hrest) [|i] s; cbn; [intros [= <-]; by rewrite Nat.add_0_r|].
    intros Hlk. rewrite <- Nat.add_succ_comm. by apply Hrest.
  - intros H. split_and!.
    + destruct (H 0 s0 eq_refl) as [-> _]. by rewrite Nat.add_0_r.
    + apply (H 0 s0 eq_refl).
    + intros i s Hlk. rewrite Nat.add_succ_comm. by apply (H (S i)).
Qed.

(** The payload bundle's validation accepts exactly the conforming
    bundles: aligned arrays of finite numbers, steps indexed in order, a
    discount factor in [0, 1], supported versions, named artefacts and a
    checkpoint at least as far as the trajectory. *)
Theorem bundle_validate_exact b : bundle_validate b = Ok tt ↔ bundle_conforms b.
Proof.
  unfold bundle_validate, trajectory_validate, batch_validate, checkpoint_validate.
  rewrite !check_Ok, !map_err_Ok, !check_Ok, !bail_if_Ok, !ensure_supported_Ok, validate_steps_Ok,
    !any_non_finite_false, !is_empty_false, some_non_finite_false, !negb_false_iff, !Nat.eqb_neq,
    !Nat.eqb_eq, andb_false_iff, !negb_false_iff, !Nat.eqb_eq, String.eqb_eq, N.ltb_ge.
  cbn [plus]. split.
  - intros. destruct_and!. constructor; split_and?; try done; try lia.
    rewrite <- length_zero_iff_nil. lia.
  - intros [? ? ? ? ? ? ?]. rewrite <- length_zero_iff_nil in *. destruct_and!.
    split_and!; try done; lia.
Qed.
End conformance.
