(* ===== verification/TrainingStore.v ===== *)
(** * The in-memory training store ([tau-training-store], [lib.rs])

    [InMemoryTrainingStore]: the rollout queue, attempts, spans, resources and
    workers behind one [tokio] lock.  Every operation takes the lock for its
    whole body, so an operation is one atomic step on [StoreInner] and an
    execution of concurrent workers is a sequence of such steps.

    An error is returned together with the state it leaves, since some
    operations fail after they have written.  Each reading of the clock is an
    argument; so is the order in which [reassign_timed_out_rollouts] and
    [query_spans] happen to iterate a hash map. *)

From Stdlib Require Import NArith ZArith Lia.
From stdpp Require Import base gmap sets strings relations sorting list.
From S2P Require Import Prelude RustStr TrainingTypes.

#[local] Open Scope string_scope.
#[local] Open Scope list_scope.
#[local] Open Scope nat_scope.

(** The errors the in-memory store returns; the others are of the SQLite store. *)
Inductive TrainingStoreError :=
| RolloutAlreadyExists (id : string)
| RolloutNotFound (id : string)
| AttemptNotFound (id : string)
| WorkerNotFound (id : string)
| InvalidRolloutTransition (from to : RolloutStatus)
| InvalidAttemptTransition (from to : AttemptStatus).

Section store.
Context {Value : Type}.

Record DequeuedRollout := mkDequeued { dq_rollout : Rollout Value; dq_attempt : Attempt }.

Record StoreInner := mkInner
  { rollouts : gmap string (Rollout Value);
    queue : list string;
    attempts : gmap string Attempt;
    attempt_ids_by_rollout : gmap string (list string);
    spans : gmap (string * string) (list (TrainingSpan Value));
    resources : list (ResourcesUpdate Value);
    workers : gmap string WorkerState }.

(** [InMemoryTrainingStore::new] *)
Definition store_new : StoreInner := mkInner ∅ [] ∅ ∅ ∅ [] ∅.

Implicit Types (s : StoreInner) (r : Rollout Value) (a : Attempt) (w : WorkerState).

Definition set_rollouts m s : StoreInner :=
  mkInner m (queue s) (attempts s) (attempt_ids_by_rollout s) (spans s) (resources s) (workers s).
Definition set_queue q s : StoreInner :=
  mkInner (rollouts s) q (attempts s) (attempt_ids_by_rollout s) (spans s) (resources s) (workers s).
Definition set_attempts m s : StoreInner :=
  mkInner (rollouts s) (queue s) m (attempt_ids_by_rollout s) (spans s) (resources s) (workers s).
Definition set_attempt_ids m s : StoreInner :=
  mkInner (rollouts s) (queue s) (attempts s) m (spans s) (resources s) (workers s).
Definition set_spans m s : StoreInner :=
  mkInner (rollouts s) (queue s) (attempts s) (attempt_ids_by_rollout s) m (resources s) (workers s).
Definition set_resources l s : StoreInner :=
  mkInner (rollouts s) (queue s) (attempts s) (attempt_ids_by_rollout s) (spans s) l (workers s).
Definition set_workers m s : StoreInner :=
  mkInner (rollouts s) (queue s) (attempts s) (attempt_ids_by_rollout s) (spans s) (resources s) m.

Definition set_ro_status st r : Rollout Value :=
  mkRollout (ro_id r) (ro_input r) (ro_start_time r) (ro_end_time r) (ro_mode r) st
    (ro_config r) (ro_metadata r) (ro_assigned_worker_id r) (ro_attempt_count r).
Definition set_ro_worker o r : Rollout Value :=
  mkRollout (ro_id r) (ro_input r) (ro_start_time r) (ro_end_time r) (ro_mode r) (ro_status r)
    (ro_config r) (ro_metadata r) o (ro_attempt_count r).
Definition set_ro_times start stop r : Rollout Value :=
  mkRollout (ro_id r) (ro_input r) start stop (ro_mode r) (ro_status r)
    (ro_config r) (ro_metadata r) (ro_assigned_worker_id r) (ro_attempt_count r).
Definition set_ro_attempt_count n r : Rollout Value :=
  mkRollout (ro_id r) (ro_input r) (ro_start_time r) (ro_end_time r) (ro_mode r) (ro_status r)
    (ro_config r) (ro_metadata r) (ro_assigned_worker_id r) n.

Definition set_at_status st a : Attempt :=
  mkAttempt (at_id a) (at_rollout_id a) (at_sequence_id a) (at_worker_id a) st
    (at_started_at a) (at_last_heartbeat_at a) (at_ended_at a) (at_error_message a).
Definition set_at_heartbeat now a : Attempt :=
  mkAttempt (at_id a) (at_rollout_id a) (at_sequence_id a) (at_worker_id a) (at_status a)
    (at_started_at a) now (at_ended_at a) (at_error_message a).
Definition set_at_end ended error a : Attempt :=
  mkAttempt (at_id a) (at_rollout_id a) (at_sequence_id a) (at_worker_id a) (at_status a)
    (at_started_at a) (at_last_heartbeat_at a) ended error.

(** A worker's heartbeat time and what it reports to be working on. *)
Definition set_wk_active now rollout_id attempt_id w : WorkerState :=
  mkWorker (wk_id w) (wk_registered_at w) now rollout_id attempt_id.

(** ** Rollouts *)

Definition enqueue_rollout s (rollout : Rollout Value) : StoreInner * Result TrainingStoreError unit :=
  match rollouts s !! ro_id rollout with
  | Some _ => (s, Err (RolloutAlreadyExists (ro_id rollout)))
  | None =>
      let rollout := set_ro_times None None (set_ro_worker None (set_ro_status Queuing rollout)) in
      let s := set_queue (queue s ++ [ro_id rollout]) s in
      (set_rollouts (<[ro_id rollout := rollout]> (rollouts s)) s, Ok tt)
  end.

(** [matches!(status, Queuing | Requeuing)] *)
Definition is_waiting (st : RolloutStatus) : bool :=
  match st with Queuing | Requeuing => true | _ => false end.

Definition attempt_id_of (rollout_id : string) (sequence_id : N) : string :=
  rollout_id +:+ ":attempt-" +:+ show_u64 sequence_id.

(** The body of the [dequeue_rollout] loop for a rollout that can run; its
    three clock readings are the start time, the attempt's and the worker's. *)
Definition start_attempt s (rollout_id : string) (rollout : Rollout Value) (worker_id : string)
    (t_start t_attempt t_worker : DateTime) : StoreInner * DequeuedRollout :=
  let start := match ro_start_time rollout with None => Some t_start | t => t end in
  let sequence_id := add_u32 (ro_attempt_count rollout) 1 in
  let rollout :=
    set_ro_attempt_count sequence_id
      (set_ro_times start (ro_end_time rollout)
        (set_ro_worker (Some worker_id) (set_ro_status Running rollout))) in
  let owned := ro_id rollout in
  let attempt_id := attempt_id_of owned sequence_id in
  let attempt :=
    set_at_status AttemptRunning (attempt_new attempt_id owned sequence_id worker_id t_attempt) in
  let s := set_rollouts (<[rollout_id := rollout]> (rollouts s)) s in
  let s := set_attempt_ids
    (<[owned := default [] (attempt_ids_by_rollout s !! owned) ++ [attempt_id]]>
       (attempt_ids_by_rollout s)) s in
  let s := set_attempts (<[attempt_id := attempt]> (attempts s)) s in
  let worker :=
    match workers s !! worker_id with
    | Some w => set_wk_active t_worker (Some owned) (Some attempt_id) w
    | None => mkWorker worker_id t_worker t_worker (Some owned) (Some attempt_id)
    end in
  (set_workers (<[worker_id := worker]> (workers s)) s, mkDequeued rollout attempt).

(** The [while let Some(id) = queue.pop_front()] loop. *)
Fixpoint dequeue_loop (q : list string) s (worker_id : string)
    (t_start t_attempt t_worker : DateTime)
    : StoreInner * Result TrainingStoreError (option DequeuedRollout) :=
  match q with
  | [] => (set_queue [] s, Ok None)
  | rollout_id :: rest =>
      let s := set_queue rest s in
      match rollouts s !! rollout_id with
      | None => dequeue_loop rest s worker_id t_start t_attempt t_worker
      | Some rollout =>
          if is_waiting (ro_status rollout) then
            if rollout_can_transition_to (ro_status rollout) Running then
              let '(s, result) :=
                start_attempt s rollout_id rollout worker_id t_start t_attempt t_worker in
              (s, Ok (Some result))
            else (s, Err (InvalidRolloutTransition (ro_status rollout) Running))
          else dequeue_loop rest s worker_id t_start t_attempt t_worker
      end
  end.

Definition dequeue_rollout s (worker_id : string) (t_start t_attempt t_worker : DateTime)
    : StoreInner * Result TrainingStoreError (option DequeuedRollout) :=
  dequeue_loop (queue s) s worker_id t_start t_attempt t_worker.

Definition update_rollout_status s (rollout_id : string) (status : RolloutStatus) (now : DateTime)
    : StoreInner * Result TrainingStoreError unit :=
  match rollouts s !! rollout_id with
  | None => (s, Err (RolloutNotFound rollout_id))
  | Some rollout =>
      if rollout_can_transition_to (ro_status rollout) status then
        let rollout := set_ro_status status rollout in
        let rollout :=
          if rollout_is_terminal status
          then set_ro_times (ro_start_time rollout) (Some now) rollout else rollout in
        (set_rollouts (<[rollout_id := rollout]> (rollouts s)) s, Ok tt)
      else (s, Err (InvalidRolloutTransition (ro_status rollout) status))
  end.

Definition cancel_rollout s (rollout_id : string) (now : DateTime)
    : StoreInner * Result TrainingStoreError unit :=
  update_rollout_status s rollout_id Cancelled now.

(** [sort_by(|left, right| left.rollout_id.cmp(&right.rollout_id))]: byte order. *)
Definition rollout_id_le r1 r2 : Prop := String.leb (ro_id r1) (ro_id r2) = true.
#[local] Instance rollout_id_le_dec : RelDecision rollout_id_le.
Proof. intros r1 r2. unfold rollout_id_le. apply _. Defined.

(** [Option::is_none_or] *)
Definition is_none_or {A} (o : option A) (f : A → bool) : bool :=
  match o with None => true | Some x => f x end.

Definition query_matches (q : RolloutQuery) r : bool :=
  is_none_or (q_statuses q) (existsb (λ st, bool_decide (st = ro_status r))) &&
  is_none_or (q_mode q) (λ m, bool_decide (ro_mode r = Some m)) &&
  is_none_or (q_ids q) (existsb (λ id, String.eqb id (ro_id r))).

(** The rollouts a query selects, before paging. *)
Definition matching_rollouts s (q : RolloutQuery) : list (Rollout Value) :=
  merge_sort rollout_id_le (List.filter (query_matches q) (map_to_list (rollouts s)).*2).

Definition query_rollouts s (q : RolloutQuery) : list (Rollout Value) :=
  let rollouts := matching_rollouts s q in
  let start := Nat.min (q_offset q) (length rollouts) in
  let sliced := drop start rollouts in
  match q_limit q with Some limit => take limit sliced | None => sliced end.

(** ** Spans and resources *)

Definition span_key (span : TrainingSpan Value) : string * string :=
  (sp_rollout_id span, sp_attempt_id span).

Definition add_span s (span : TrainingSpan Value) : StoreInner :=
  let entry := default [] (spans s !! span_key span) ++ [span] in
  set_spans (<[span_key span := sort_by_key sp_sequence_id entry]> (spans s)) s.

(** [TrainingStore::add_spans], the trait's default method. *)
Definition add_spans s (l : list (TrainingSpan Value)) : StoreInner := foldl add_span s l.

(** With no attempt given the map is iterated in some [order] of its keys. *)
Definition query_spans s (rollout_id : string) (attempt_id : option string)
    (order : list (string * string)) : list (TrainingSpan Value) :=
  match attempt_id with
  | Some attempt_id => default [] (spans s !! (rollout_id, attempt_id))
  | None =>
      sort_by_key sp_sequence_id
        (concat ((λ k, default [] (spans s !! k)) <$>
           List.filter (λ k : string * string, String.eqb k.1 rollout_id) order))
  end.

Definition get_next_span_sequence_id s (rollout_id attempt_id : string) : N :=
  let last :=
    match spans s !! (rollout_id, attempt_id) with
    | Some items => max_or_zero (sp_sequence_id <$> items)
    | None => 0%N
    end in
  add_u64 last 1.

Definition clear_latest (u : ResourcesUpdate Value) : ResourcesUpdate Value :=
  mkResources (rs_id u) (rs_version u) (rs_resources u) (rs_created_time u) false.

Definition resources_id_of (version : N) : string := "resources-" +:+ show_u64 version.

Definition update_resources s (res : gmap string Value) (now : DateTime)
    : StoreInner * ResourcesUpdate Value :=
  let cleared := clear_latest <$> resources s in
  let version := add_u64 (N.of_nat (length cleared)) 1 in
  let update := mkResources (resources_id_of version) version res now true in
  (set_resources (cleared ++ [update]) s, update).

Definition get_latest_resources s : option (ResourcesUpdate Value) :=
  List.find rs_is_latest (reverse (resources s)).

Definition get_resources_by_id s (resources_id : string) : option (ResourcesUpdate Value) :=
  List.find (λ u, String.eqb (rs_id u) resources_id) (resources s).

(** ** Workers and attempts *)

Definition register_worker s (worker_id : string) (now : DateTime) : StoreInner * WorkerState :=
  let worker :=
    match workers s !! worker_id with
    | Some w => set_wk_active now (wk_active_rollout_id w) (wk_active_attempt_id w) w
    | None => mkWorker worker_id now now None None
    end in
  (set_workers (<[worker_id := worker]> (workers s)) s, worker).

(** The attempt's heartbeat is refreshed before the worker is looked up. *)
Definition update_worker_heartbeat s (worker_id : string)
    (active_rollout_id active_attempt_id : option string) (now : DateTime)
    : StoreInner * Result TrainingStoreError unit :=
  let '(s, effective) :=
    match active_rollout_id, active_attempt_id with
    | Some rollout_id, Some attempt_id =>
        match attempts s !! attempt_id with
        | Some attempt =>
            if decide (at_status attempt = AttemptRunning) then
              (set_attempts (<[attempt_id := set_at_heartbeat now attempt]> (attempts s)) s,
               Some (rollout_id, attempt_id))
            else (s, None)
        | None => (s, None)
        end
    | _, _ => (s, None)
    end in
  match workers s !! worker_id with
  | None => (s, Err (WorkerNotFound worker_id))
  | Some w =>
      let w := set_wk_active now (fst <$> effective) (snd <$> effective) w in
      (set_workers (<[worker_id := w]> (workers s)) s, Ok tt)
  end.

(** [now.signed_duration_since(t).to_std().unwrap_or_default()] *)
Definition elapsed_since (now t : DateTime) : Z := Z.max 0 (now - t).

(** A worker is taken off its work: [worker.active_* = None]. *)
Definition release_worker (worker_id : string) (now : DateTime) s : StoreInner :=
  set_workers (alter (set_wk_active now None None) worker_id (workers s)) s.

(** A rollout goes back to the queue, unless it is there already. *)
Definition requeue (rollout_id : string) s : StoreInner :=
  if existsb (String.eqb rollout_id) (queue s) then s
  else set_queue (queue s ++ [rollout_id]) s.

(** One round of the [reassign_timed_out_rollouts] loop. *)
Definition reassign_worker s (worker_id : string) (timeout : Z) (now : DateTime)
    (requeued : list string) : StoreInner * Result TrainingStoreError (list string) :=
  match (w ← workers s !! worker_id; wk_active_rollout_id w),
        (w ← workers s !! worker_id; wk_active_attempt_id w) with
  | Some active_rollout_id, Some active_attempt_id =>
      match attempts s !! active_attempt_id with
      | None => (release_worker worker_id now s, Ok requeued)
      | Some attempt =>
          if decide (at_status attempt ≠ AttemptRunning) then (s, Ok requeued)
          else if (elapsed_since now (at_last_heartbeat_at attempt) <=? timeout)%Z
          then (s, Ok requeued)
          else if attempt_can_transition_to (at_status attempt) AttemptTimeout then
            let attempt :=
              set_at_end (Some now) (Some "worker heartbeat timeout")
                (set_at_heartbeat now (set_at_status AttemptTimeout attempt)) in
            let s := set_attempts (<[active_attempt_id := attempt]> (attempts s)) s in
            match rollouts s !! active_rollout_id with
            | None => (release_worker worker_id now s, Ok requeued)
            | Some rollout =>
                if rollout_can_transition_to (ro_status rollout) Requeuing then
                  let rollout := set_ro_worker None (set_ro_status Requeuing rollout) in
                  let s := set_rollouts (<[active_rollout_id := rollout]> (rollouts s)) s in
                  let s := requeue active_rollout_id s in
                  let requeued :=
                    if existsb (String.eqb active_rollout_id) requeued then requeued
                    else requeued ++ [active_rollout_id] in
                  (release_worker worker_id now s, Ok requeued)
                else (s, Err (InvalidRolloutTransition (ro_status rollout) Requeuing))
            end
          else (s, Err (InvalidAttemptTransition (at_status attempt) AttemptTimeout))
      end
  | _, _ => (s, Ok requeued)
  end.

Fixpoint reassign_loop (worker_ids : list string) s (timeout : Z) (now : DateTime)
    (requeued : list string) : StoreInner * Result TrainingStoreError (list string) :=
  match worker_ids with
  | [] => (s, Ok requeued)
  | worker_id :: rest =>
      match reassign_worker s worker_id timeout now requeued with
      | (s, Ok requeued) => reassign_loop rest s timeout now requeued
      | (s, Err e) => (s, Err e)
      end
  end.

(** [worker_ids] is the order in which the worker map is iterated. *)
Definition reassign_timed_out_rollouts s (worker_ids : list string) (timeout : Z) (now : DateTime)
    : StoreInner * Result TrainingStoreError (list string) :=
  reassign_loop worker_ids s timeout now [].

Definition worker_id_le w1 w2 : Prop := String.leb (wk_id w1) (wk_id w2) = true.
#[local] Instance worker_id_le_dec : RelDecision worker_id_le.
Proof. intros w1 w2. unfold worker_id_le. apply _. Defined.

Definition query_workers s : list WorkerState :=
  merge_sort worker_id_le (map_to_list (workers s)).*2.

Definition update_attempt_status s (attempt_id : string) (status : AttemptStatus)
    (error_message : option string) (t_heartbeat t_end : DateTime)
    : StoreInner * Result TrainingStoreError unit :=
  match attempts s !! attempt_id with
  | None => (s, Err (AttemptNotFound attempt_id))
  | Some attempt =>
      if attempt_can_transition_to (at_status attempt) status then
        let attempt := set_at_heartbeat t_heartbeat (set_at_status status attempt) in
        let attempt :=
          if attempt_is_terminal status
          then set_at_end (Some t_end) error_message attempt else attempt in
        (set_attempts (<[attempt_id := attempt]> (attempts s)) s, Ok tt)
      else (s, Err (InvalidAttemptTransition (at_status attempt) status))
  end.

Definition get_attempt s (attempt_id : string) : option Attempt := attempts s !! attempt_id.
End store.

Arguments StoreInner : clear implicits.
Arguments DequeuedRollout : clear implicits.
