(* ===== verification/TrainingInvariant.v ===== *)
(** * Invariants of the training store

    What the operations of [TrainingStore] keep true: the indexes agree, the
    queue holds known rollouts once each, a rollout is executed by at most one
    running attempt, and statuses only move along the lifecycle tables.  The
    operations are sequences of a few primitive updates; each primitive has its
    preservation lemma, collected in the hint database [training]. *)

From Stdlib Require Import Ascii NArith ZArith Lia.
From stdpp Require Import base gmap sets strings relations sorting list.
From S2P Require Import Prelude RustStr TrainingTypes TrainingStore.

#[local] Open Scope string_scope.
#[local] Open Scope list_scope.
#[local] Open Scope nat_scope.

Create HintDb training discriminated.

Lemma attempt_id_of_chars r n :
  chars_of (attempt_id_of r n) =
    (chars_of r ++ chars_of ":attempt") ++ "-"%char :: chars_of (show_u64 n).
Proof.
  unfold attempt_id_of. rewrite !chars_of_app, <- (assoc_L (++)). done.
Qed.

Lemma attempt_id_of_inj r r' n n' :
  attempt_id_of r n = attempt_id_of r' n' → r = r' ∧ n = n'.
Proof.
  intros Heq%(f_equal chars_of). rewrite !attempt_id_of_chars in Heq.
  assert (∀ k, "-"%char ∉ chars_of (show_u64 k)) as Hdash.
  { intros k Hin. pose proof (show_u64_digits k) as Hd.
    rewrite Forall_forall in Hd. by specialize (Hd _ Hin). }
  apply last_separator_inj in Heq as [Hr Hn]; [|apply Hdash..].
  apply app_inj_2 in Hr as [Hr _]; [|done].
  split; [by apply chars_of_inj|]. by apply (inj show_u64), chars_of_inj.
Qed.

Lemma attempt_ids_snoc k n :
  (λ i, attempt_id_of k (N.of_nat i)) <$> seq 1 (N.to_nat (n + 1)) =
    ((λ i, attempt_id_of k (N.of_nat i)) <$> seq 1 (N.to_nat n)) ++ [attempt_id_of k (n + 1)].
Proof.
  replace (N.to_nat (n + 1)) with (S (N.to_nat n)) by lia. rewrite seq_S, fmap_app.
  replace (n + 1)%N with (N.of_nat (1 + N.to_nat n)) by lia. done.
Qed.

Section invariant.
Context {Value : Type}.
Implicit Types (s : StoreInner Value) (r : Rollout Value) (a : Attempt) (w : WorkerState).

(** No attempt of the rollout is running. *)
Definition idle s (rollout_id : string) : Prop :=
  ∀ k a, attempts s !! k = Some a → at_status a = AttemptRunning → at_rollout_id a ≠ rollout_id.

(** A worker's reported work is an attempt of the rollout it reports. *)
Definition worker_fits s w : Prop :=
  ∀ rid aid, wk_active_rollout_id w = Some rid → wk_active_attempt_id w = Some aid →
    ∃ a, attempts s !! aid = Some a ∧ at_rollout_id a = rid.

(** An attempt has started, and its identity is its key, its rollout and its
    place among the rollout's attempts. *)
Definition attempt_fits s (k : string) a : Prop :=
  at_status a ≠ AttemptPreparing ∧
  at_id a = k ∧ k = attempt_id_of (at_rollout_id a) (at_sequence_id a) ∧
  ∃ r, rollouts s !! at_rollout_id a = Some r ∧
    (1 ≤ at_sequence_id a ≤ ro_attempt_count r)%N.

Record store_ok s : Prop := mkStoreOk
  { ok_rollout_keys : ∀ k r, rollouts s !! k = Some r → ro_id r = k;
    ok_queue_once : NoDup (queue s);
    ok_queue_known : ∀ k, k ∈ queue s → is_Some (rollouts s !! k);
    ok_queue_idle : ∀ k, k ∈ queue s → idle s k;
    ok_attempts : ∀ k a, attempts s !! k = Some a → attempt_fits s k a;
    ok_exclusive : ∀ k k' a a', attempts s !! k = Some a → attempts s !! k' = Some a' →
      at_status a = AttemptRunning → at_status a' = AttemptRunning →
      at_rollout_id a = at_rollout_id a' → k = k';
    ok_index : ∀ k r, rollouts s !! k = Some r →
      default [] (attempt_ids_by_rollout s !! k) =
        (λ n, attempt_id_of k (N.of_nat n)) <$> seq 1 (N.to_nat (ro_attempt_count r));
    ok_index_known : ∀ k, is_Some (attempt_ids_by_rollout s !! k) → is_Some (rollouts s !! k);
    ok_workers : ∀ k w, workers s !! k = Some w → worker_fits s w }.

Lemma store_new_ok : store_ok store_new.
Proof.
  constructor; cbn; try (intros *; rewrite !lookup_empty; done); try apply NoDup_nil_2;
    try (by intros k ?%elem_of_nil); try by intros k []%lookup_empty_is_Some.
Qed.

(** ** Primitive updates *)

Lemma set_queue_shrink s q : store_ok s → sublist q (queue s) → store_ok (set_queue q s).
Proof.
  intros [] Hq. constructor; cbn; eauto.
  - by eapply sublist_NoDup.
  - intros k Hk. by eapply ok_queue_known0, elem_of_submseteq, sublist_submseteq.
  - intros k Hk. by eapply ok_queue_idle0, elem_of_submseteq, sublist_submseteq.
Qed.

Lemma set_queue_push s k :
  store_ok s → k ∉ queue s → is_Some (rollouts s !! k) → idle s k →
  store_ok (set_queue (queue s ++ [k]) s).
Proof.
  intros [] Hk Hr Hi. constructor; cbn; eauto.
  - apply NoDup_app. split_and!; [done| |apply NoDup_singleton].
    by intros x ? ->%list_elem_of_singleton.
  - intros x [?| ->%list_elem_of_singleton]%elem_of_app; eauto.
  - intros x [?| ->%list_elem_of_singleton]%elem_of_app; eauto.
Qed.

(** A rollout changes without changing its identity or attempt count. *)
Lemma set_rollouts_touch s k r r' :
  store_ok s → rollouts s !! k = Some r → ro_id r' = ro_id r →
  ro_attempt_count r' = ro_attempt_count r →
  store_ok (set_rollouts (<[k := r']> (rollouts s)) s).
Proof.
  intros [] Hr Hid Hcount.
  assert (∀ x y, <[k := r']> (rollouts s) !! x = Some y →
    ∃ y0, rollouts s !! x = Some y0 ∧ ro_id y = ro_id y0 ∧
      ro_attempt_count y = ro_attempt_count y0) as Hback.
  { intros x y [[-> ->]|[_ Hx]]%lookup_insert_Some; eauto. }
  assert (∀ x y0, rollouts s !! x = Some y0 → ∃ y, <[k := r']> (rollouts s) !! x = Some y ∧
    ro_attempt_count y = ro_attempt_count y0) as Hfwd.
  { intros x y0 Hx. destruct (decide (k = x)) as [->|Hne].
    - rewrite lookup_insert_eq. simplify_eq. eauto.
    - rewrite lookup_insert_ne by done. eauto. }
  constructor; cbn; eauto.
  - intros x y (y0 & Hx & -> & _)%Hback. eauto.
  - intros x Hx. destruct (ok_queue_known0 x Hx) as [y0 Hy].
    destruct (Hfwd _ _ Hy) as (? & ? & _). by eexists.
  - intros x y Hx. destruct (ok_attempts0 x y Hx) as (? & ? & ? & y0 & Hy & ?).
    destruct (Hfwd _ _ Hy) as (y' & ? & Hc). split_and!; [done..|].
    exists y'. by rewrite Hc.
  - intros x y (y0 & Hx & _ & ->)%Hback. eauto.
  - intros x Hx. destruct (ok_index_known0 x Hx) as [y0 Hy].
    destruct (Hfwd _ _ Hy) as (? & ? & _). by eexists.
Qed.

(** An attempt changes without changing its identity, and does not start. *)
Lemma set_attempts_touch s k a a' :
  store_ok s → attempts s !! k = Some a → at_id a' = at_id a →
  at_rollout_id a' = at_rollout_id a → at_sequence_id a' = at_sequence_id a →
  at_status a' ≠ AttemptPreparing → (at_status a' = AttemptRunning → at_status a = AttemptRunning) →
  store_ok (set_attempts (<[k := a']> (attempts s)) s).
Proof.
  intros [] Ha Hid Hro Hseq Hprep Hrun.
  assert (∀ x y, <[k := a']> (attempts s) !! x = Some y → ∃ y0, attempts s !! x = Some y0 ∧
    at_id y = at_id y0 ∧ at_rollout_id y = at_rollout_id y0 ∧
    at_sequence_id y = at_sequence_id y0 ∧ at_status y ≠ AttemptPreparing ∧
    (at_status y = AttemptRunning → at_status y0 = AttemptRunning)) as Hback.
  { intros x y [[-> ->]|[_ Hx]]%lookup_insert_Some; [by exists a|].
    exists y. pose proof (proj1 (ok_attempts0 _ _ Hx)). done. }
  constructor; cbn; eauto.
  - intros x Hx k' y (y0 & Hy & _ & -> & _ & _ & Hst)%Hback Hst'. by eapply ok_queue_idle0; eauto.
  - intros x y (y0 & Hy & Hi & Hr & Hs & Hp & _)%Hback. unfold attempt_fits in *. cbn.
    rewrite Hi, Hr, Hs. split; [done|]. by apply ok_attempts0.
  - intros x x' y y' (y0 & Hy & _ & -> & _ & _ & Hst)%Hback
      (y0' & Hy' & _ & -> & _ & _ & Hst')%Hback
      ? ? ?. by eapply ok_exclusive0; eauto.
  - intros x w Hw rid aid H1 H2. destruct (ok_workers0 x w Hw rid aid H1 H2) as (y & Hy & Hyr).
    cbn. destruct (decide (k = aid)) as [->|Hne].
    + exists a'. rewrite lookup_insert_eq. split; [done|]. congruence.
    + exists y. by rewrite lookup_insert_ne.
Qed.

Lemma set_workers_ok s m :
  store_ok s → (∀ k w, m !! k = Some w → worker_fits s w) → store_ok (set_workers m s).
Proof. intros [] Hw. by constructor. Qed.

Lemma insert_worker_ok s k w :
  store_ok s → worker_fits s w → store_ok (set_workers (<[k := w]> (workers s)) s).
Proof.
  intros Hok Hw. apply set_workers_ok; [done|].
  intros x y [[_ <-]|[_ Hx]]%lookup_insert_Some; [done|]. by eapply ok_workers.
Qed.

Lemma set_spans_ok s m : store_ok s → store_ok (set_spans m s).
Proof. intros []. by constructor. Qed.
Lemma set_resources_ok s l : store_ok s → store_ok (set_resources l s).
Proof. intros []. by constructor. Qed.

Lemma release_worker_ok s k now : store_ok s → store_ok (release_worker k now s).
Proof.
  intros Hok. apply set_workers_ok; [done|].
  intros x y [(-> & w & Hw & ->)|[_ Hx]]%lookup_alter_Some; [done|]. by eapply ok_workers.
Qed.

(** ** Operations *)

Lemma enqueue_rollout_ok s r :
  store_ok s → ro_attempt_count r = 0%N → store_ok (enqueue_rollout s r).1.
Proof.
  intros Hok H0. unfold enqueue_rollout. destruct (rollouts s !! ro_id r) eqn:Hr; [done|]. cbn.
  destruct Hok. constructor; cbn.
  - intros k y [[<- <-]|[_ ?]]%lookup_insert_Some; [done|eauto].
  - apply NoDup_app. split_and!; [done| |apply NoDup_singleton].
    intros x Hx ->%list_elem_of_singleton. destruct (ok_queue_known0 _ Hx). congruence.
  - intros k [Hk| ->%list_elem_of_singleton]%elem_of_app; [|by rewrite lookup_insert_eq].
    destruct (decide (ro_id r = k)) as [->|]; [by rewrite lookup_insert_eq|].
    rewrite lookup_insert_ne by done. auto.
  - intros k [Hk| ->%list_elem_of_singleton]%elem_of_app; [by apply ok_queue_idle0|].
    intros x a Ha _ Heq. destruct (ok_attempts0 _ _ Ha) as (_ & _ & _ & y & Hy & _). congruence.
  - intros k a Ha. destruct (ok_attempts0 _ _ Ha) as (? & ? & ? & y & Hy & ?).
    split_and!; [done..|]. exists y. cbn. by rewrite lookup_insert_ne by congruence.
  - eauto.
  - intros k y [[<- <-]|[_ ?]]%lookup_insert_Some; [|eauto]. cbn. rewrite H0. cbn.
    destruct (attempt_ids_by_rollout s !! ro_id r) eqn:Hi; [|done].
    destruct (ok_index_known0 (ro_id r)); [by rewrite Hi|congruence].
  - intros k Hk. destruct (decide (ro_id r = k)) as [->|]; [by rewrite lookup_insert_eq|].
    rewrite lookup_insert_ne by done. auto.
  - eauto.
Qed.

(** Starting the next attempt of an idle rollout that is not queued. *)
Lemma start_attempt_ok s k r wid t1 t2 t3 :
  store_ok s → rollouts s !! k = Some r → k ∉ queue s → idle s k →
  (ro_attempt_count r + 1 < u32_mod)%N →
  store_ok (start_attempt s k r wid t1 t2 t3).1.
Proof.
  intros Hok Hr Hq Hidle Hroom. unfold start_attempt.
  rewrite (add_u32_small _ _ Hroom). cbn [fst].
  pose proof (ok_rollout_keys _ Hok _ _ Hr) as Hk. cbn [ro_id set_ro_attempt_count set_ro_times
    set_ro_worker set_ro_status]. rewrite Hk.
  set (aid := attempt_id_of k (ro_attempt_count r + 1)).
  assert (attempts s !! aid = None) as Hfresh.
  { destruct (attempts s !! aid) as [a|] eqn:Ha; [|done]. exfalso.
    destruct (ok_attempts _ Hok _ _ Ha) as (_ & _ & Heq & y & Hy & Hle).
    unfold aid in Heq. apply attempt_id_of_inj in Heq as [Hx Hn]. rewrite <- Hx in Hy. simplify_eq. lia. }
  apply insert_worker_ok.
  - destruct Hok. constructor; cbn.
    + intros x y [[<- <-]|[_ ?]]%lookup_insert_Some; [done|eauto].
    + done.
    + intros x Hx. destruct (decide (k = x)) as [->|]; [done|].
      rewrite lookup_insert_ne by done. auto.
    + intros x Hx. unfold idle. cbn. intros y a [[<- <-]|[_ Ha]]%lookup_insert_Some; cbn; [congruence|].
      by eapply ok_queue_idle0.
    + intros x a [[<- <-]|[Hne Ha]]%lookup_insert_Some; cbn.
      * split_and!; [done..|]. eexists. cbn. rewrite lookup_insert_eq. split; [done|]. cbn. lia.
      * destruct (ok_attempts0 _ _ Ha) as (? & ? & ? & y & Hy & ?). split_and!; [done..|]. cbn.
        destruct (decide (k = at_rollout_id a)) as [Heq|].
        -- eexists. rewrite <- Heq, lookup_insert_eq. split; [done|]. cbn.
           assert (y = r) as -> by congruence. lia.
        -- exists y. by rewrite lookup_insert_ne.
    + intros x x' a a' [[<- <-]|[_ Ha]]%lookup_insert_Some [[<- <-]|[_ Ha']]%lookup_insert_Some;
        cbn; intros; [done| | |by eapply ok_exclusive0].
      * exfalso. by eapply Hidle.
      * exfalso. by eapply Hidle.
    + intros x y [[<- <-]|[Hne Hx]]%lookup_insert_Some; cbn.
      * rewrite lookup_insert_eq. cbn. rewrite (ok_index0 _ _ Hr).
        unfold aid. by rewrite attempt_ids_snoc.
      * rewrite lookup_insert_ne by done. eauto.
    + intros x Hx. destruct (decide (k = x)) as [->|]; [by rewrite lookup_insert_eq|].
      rewrite lookup_insert_ne by done. apply ok_index_known0. by rewrite lookup_insert_ne in Hx.
    + intros x w Hw rid i H1 H2. destruct (ok_workers0 _ _ Hw _ _ H1 H2) as (a & Ha & ?).
      exists a. cbn. by rewrite lookup_insert_ne by congruence.
  - cbn. intros rid i H1 H2. eexists. cbn.
    assert (i = aid ∧ rid = k) as [-> ->] by (destruct (workers s !! wid); cbn in *; split; congruence).
    rewrite lookup_insert_eq. done.
Qed.

(** Every rollout can be attempted once more without wrapping its counter. *)
Definition attempts_room s : Prop :=
  ∀ k r, rollouts s !! k = Some r → (ro_attempt_count r + 1 < u32_mod)%N.

Lemma dequeue_loop_ok q s wid t1 t2 t3 :
  store_ok (set_queue q s) → attempts_room s → store_ok (dequeue_loop q s wid t1 t2 t3).1.
Proof.
  revert s. induction q as [|k rest IH]; intros s Hok Hroom; cbn; [done|].
  assert (store_ok (set_queue rest s)) as Hrest.
  { apply (set_queue_shrink (set_queue (k :: rest) s) rest); [done|]. by apply sublist_cons. }
  destruct (rollouts s !! k) as [r|] eqn:Hr; [|by apply IH].
  case_match; [|by apply IH]. case_match; [|done].
  apply (start_attempt_ok (set_queue rest s) k r wid t1 t2 t3); [done|done| | |by eapply Hroom].
  - by pose proof (ok_queue_once _ Hok) as [? _]%NoDup_cons.
  - by apply (ok_queue_idle _ Hok k); left.
Qed.

Lemma update_rollout_status_ok s k st now :
  store_ok s → store_ok (update_rollout_status s k st now).1.
Proof.
  intros Hok. unfold update_rollout_status. destruct (rollouts s !! k) as [r|] eqn:Hr; [|done].
  case_match; [|done]. cbn. eapply set_rollouts_touch; [done|done|by case_match..].
Qed.

Lemma update_attempt_status_ok s k st e t1 t2 :
  store_ok s → store_ok (update_attempt_status s k st e t1 t2).1.
Proof.
  intros Hok. unfold update_attempt_status.
  destruct (attempts s !! k) as [a|] eqn:Ha; [|done]. case_match eqn:Hc; [|done]. cbn.
  pose proof (proj1 (ok_attempts _ Hok _ _ Ha)).
  eapply set_attempts_touch; [done|done|by case_match..| |];
    by destruct st, (at_status a).
Qed.

Lemma register_worker_ok s k now : store_ok s → store_ok (register_worker s k now).1.
Proof.
  intros Hok. apply insert_worker_ok; [done|].
  destruct (workers s !! k) as [w|] eqn:Hw; [|done]. intros rid aid H1 H2.
  by eapply (ok_workers _ Hok).
Qed.

(** What a worker may report: an attempt together with its own rollout. *)
Definition report_fits s (rid aid : option string) : Prop :=
  ∀ i j a, rid = Some i → aid = Some j → attempts s !! j = Some a → at_rollout_id a = i.

Lemma update_worker_heartbeat_ok s k rid aid now :
  store_ok s → report_fits s rid aid → store_ok (update_worker_heartbeat s k rid aid now).1.
Proof.
  intros Hok Hfit. unfold update_worker_heartbeat.
  assert (∀ s w e, store_ok s → workers s !! k = Some w → (e = None ∨ ∃ i j a,
    e = Some (i, j) ∧ attempts s !! j = Some a ∧ at_rollout_id a = i) →
    store_ok (set_workers (<[k := set_wk_active now (fst <$> e) (snd <$> e) w]> (workers s)) s))
    as Hset.
  { intros s' w e Hok' _ He. apply insert_worker_ok; [done|].
    destruct He as [->|(i & j & a & -> & Ha & Hi)]; intros ? ? [=] [=]; subst. eauto. }
  assert (store_ok (match workers s !! k with
    | Some w => (set_workers (<[k := set_wk_active now None None w]> (workers s)) s, Ok tt)
    | None => (s, Err (WorkerNotFound k)) end).1) as Hnone.
  { destruct (workers s !! k) as [w|] eqn:Hw; [|done]. eapply (Hset s w None); eauto. }
  destruct rid as [i|], aid as [j|]; try done.
  destruct (attempts s !! j) as [a|] eqn:Ha; [|done]. case_decide as Hrun; [|done].
  assert (store_ok (set_attempts (<[j := set_at_heartbeat now a]> (attempts s)) s)) as Hok'.
  { eapply set_attempts_touch; try done. cbn. by rewrite Hrun. }
  cbn. destruct (workers s !! k) as [w|] eqn:Hw; [|done]. cbn.
  apply (Hset (set_attempts (<[j := set_at_heartbeat now a]> (attempts s)) s) w (Some (i, j)));
    [done|done|]. right. exists i, j. eexists.
  split_and!; [done|by apply lookup_insert_eq|]. cbn. by eapply Hfit.
Qed.

Lemma requeue_ok s k :
  store_ok s → is_Some (rollouts s !! k) → idle s k → store_ok (requeue k s).
Proof.
  intros Hok Hk Hi. unfold requeue. destruct (existsb _ _) eqn:He; [done|].
  apply set_queue_push; [done| |done|done]. intros Hin.
  apply not_true_iff_false in He. apply He, existsb_exists. exists k.
  split; [by apply list_elem_of_In|apply String.eqb_refl].
Qed.

Lemma reassign_worker_ok s k timeout now requeued :
  store_ok s → store_ok (reassign_worker s k timeout now requeued).1.
Proof.
  intros Hok. unfold reassign_worker.
  destruct (workers s !! k) as [w|] eqn:Hw; cbn; [|done].
  destruct (wk_active_rollout_id w) as [rid|] eqn:Hrid; [|done].
  destruct (wk_active_attempt_id w) as [aid|] eqn:Haid; [|done].
  destruct (ok_workers _ Hok _ _ Hw rid aid Hrid Haid) as (a & Ha & Hfit). rewrite Ha.
  case_decide as Hrun; [done|].
  case_match; [done|]. case_match; [|done]. cbn.
  set (a' := set_at_end _ _ _).
  assert (store_ok (set_attempts (<[aid := a']> (attempts s)) s)) as Hok1.
  { by eapply set_attempts_touch. }
  destruct (rollouts s !! rid) as [r|] eqn:Hr; [|by apply release_worker_ok].
  case_match; [|done]. cbn. apply release_worker_ok, requeue_ok.
  - by eapply (set_rollouts_touch (set_attempts (<[aid := a']> (attempts s)) s)).
  - cbn. by rewrite lookup_insert_eq.
  - intros x b. cbn. intros [[<- <-]|[Hne Hb]]%lookup_insert_Some Hst Heq; [done|].
    apply Hne. by eapply (ok_exclusive _ Hok aid x a b); [| | | |congruence].
Qed.

Lemma reassign_loop_ok ws s timeout now requeued :
  store_ok s → store_ok (reassign_loop ws s timeout now requeued).1.
Proof.
  revert s requeued. induction ws as [|k ws IH]; intros s requeued Hok; cbn; [done|].
  pose proof (reassign_worker_ok s k timeout now requeued Hok) as Hok'.
  destruct (reassign_worker s k timeout now requeued) as [s' [l|e]]; [by apply IH|done].
Qed.
End invariant.

(** ** How the training store evolves

    Rollouts and attempts are never dropped and move along their lifecycles
    ([evolves]); a rollout that waits to run is in the queue
    ([waiting_queued]); which rollout a dequeue picks. *)

(** ** Growing maps *)

(** Every entry of [m] is still in [m'], moved along [R]. *)
Definition map_evolves {A} (R : relation A) (m m' : gmap string A) : Prop :=
  ∀ k x, m !! k = Some x → ∃ y, m' !! k = Some y ∧ R x y.

#[export] Instance map_evolves_preorder {A} (R : relation A) :
  PreOrder R → PreOrder (map_evolves R).
Proof.
  intros HR. split.
  - intros m k x Hx. exists x. by split.
  - intros m1 m2 m3 H12 H23 k x Hx. destruct (H12 k x Hx) as (y & Hy & Hxy).
    destruct (H23 k y Hy) as (z & Hz & Hyz). exists z. split; [done|]. by trans y.
Qed.

Lemma map_evolves_insert {A} (R : relation A) `{!PreOrder R} m k y :
  (∀ x, m !! k = Some x → R x y) → map_evolves R m (<[k := y]> m).
Proof.
  intros H j x Hx. destruct (decide (k = j)) as [->|Hne].
  - exists y. rewrite lookup_insert_eq. auto.
  - exists x. rewrite lookup_insert_ne by done. by split.
Qed.

Section evolution.
Context {Value : Type}.
Implicit Types (s : StoreInner Value) (r : Rollout Value) (a : Attempt) (w : WorkerState).

Definition rollout_moves (x y : RolloutStatus) : Prop := rollout_can_transition_to x y = true.
Definition attempt_moves (x y : AttemptStatus) : Prop := attempt_can_transition_to x y = true.

Definition rollout_later r r' : Prop :=
  rtc rollout_moves (ro_status r) (ro_status r') ∧ (ro_attempt_count r ≤ ro_attempt_count r')%N.
Definition attempt_later a a' : Prop :=
  rtc attempt_moves (at_status a) (at_status a') ∧ at_rollout_id a' = at_rollout_id a ∧
  at_worker_id a' = at_worker_id a.

#[export] Instance rollout_later_preorder : PreOrder rollout_later.
Proof.
  split.
  - intros r. split; [done|lia].
  - intros r1 r2 r3 [? ?] [? ?]. split; [by etrans|lia].
Qed.
#[export] Instance attempt_later_preorder : PreOrder attempt_later.
Proof.
  split.
  - intros a. by split_and!.
  - intros a1 a2 a3 (? & ? & ?) (? & ? & ?). split_and!; [by etrans|congruence..].
Qed.

(** Rollouts and attempts are never dropped, and move along their lifecycles. *)
Definition evolves s s' : Prop :=
  map_evolves rollout_later (rollouts s) (rollouts s') ∧
  map_evolves attempt_later (attempts s) (attempts s').

#[export] Instance evolves_preorder : PreOrder evolves.
Proof.
  split.
  - intros s. by split.
  - intros s1 s2 s3 [? ?] [? ?]. split; by etrans.
Qed.

Lemma rtc_rollout_closed x y :
  rtc rollout_moves x y → x = Succeeded ∨ x = Cancelled → y = x.
Proof.
  induction 1 as [|x y z Hxy _ IH]; [done|]. intros Hx.
  pose proof (rollout_closed_final x y Hx Hxy) as ->. by apply IH.
Qed.

Lemma rtc_attempt_terminal x y :
  rtc attempt_moves x y → attempt_is_terminal x = true → y = x.
Proof.
  induction 1 as [|x y z Hxy _ IH]; [done|]. intros Hx.
  pose proof (attempt_terminal_final x y Hx Hxy) as ->. by apply IH.
Qed.

Lemma start_attempt_evolves s k r wid t1 t2 t3 :
  store_ok s → rollouts s !! k = Some r → is_waiting (ro_status r) = true →
  (ro_attempt_count r + 1 < u32_mod)%N →
  evolves s (start_attempt s k r wid t1 t2 t3).1.
Proof.
  intros Hok Hr Hw Hroom. unfold start_attempt. rewrite (add_u32_small _ _ Hroom).
  split; cbn.
  - apply map_evolves_insert; [apply _|]. intros r0 Hr0.
    assert (r0 = r) as -> by congruence. split; cbn; [|lia].
    apply rtc_once. unfold rollout_moves. by destruct (ro_status r).
  - apply map_evolves_insert; [apply _|]. intros a Ha. exfalso.
    destruct (ok_attempts _ Hok _ _ Ha) as (_ & _ & Heq & y & Hy & Hle).
    apply attempt_id_of_inj in Heq as [Hid Hseq].
    rewrite (ok_rollout_keys _ Hok _ _ Hr) in Hid. rewrite <- Hid in Hy. simplify_eq. lia.
Qed.

Lemma dequeue_loop_evolves q s wid t1 t2 t3 :
  store_ok (set_queue q s) → attempts_room s → evolves s (dequeue_loop q s wid t1 t2 t3).1.
Proof.
  revert s. induction q as [|k rest IH]; intros s Hok Hroom; cbn; [done|].
  assert (store_ok (set_queue rest s)) as Hrest.
  { apply (set_queue_shrink (set_queue (k :: rest) s) rest); [done|]. by apply sublist_cons. }
  destruct (rollouts s !! k) as [r|] eqn:Hr;
    [|change (evolves (set_queue rest s) (dequeue_loop rest (set_queue rest s) wid t1 t2 t3).1);
      by apply IH].
  case_match; [|change (evolves (set_queue rest s)
      (dequeue_loop rest (set_queue rest s) wid t1 t2 t3).1); by apply IH].
  case_match; [|done].
  apply (start_attempt_evolves (set_queue rest s) k r wid t1 t2 t3); [done..|by eapply Hroom].
Qed.

Lemma insert_rollout_evolves s k r r' :
  rollouts s !! k = Some r → rollout_later r r' →
  evolves s (set_rollouts (<[k := r']> (rollouts s)) s).
Proof.
  intros Hr Hl. split; cbn; [|done]. apply map_evolves_insert; [apply _|]. naive_solver.
Qed.

Lemma insert_attempt_evolves s k a a' :
  attempts s !! k = Some a → attempt_later a a' →
  evolves s (set_attempts (<[k := a']> (attempts s)) s).
Proof.
  intros Ha Hl. split; cbn; [done|]. apply map_evolves_insert; [apply _|]. naive_solver.
Qed.

Lemma update_rollout_status_evolves s k st now :
  evolves s (update_rollout_status s k st now).1.
Proof.
  unfold update_rollout_status. destruct (rollouts s !! k) as [r|] eqn:Hr; [|done].
  case_match eqn:Hc; [|done]. eapply insert_rollout_evolves; [done|].
  split; [by apply rtc_once; case_match|by case_match].
Qed.

Lemma update_attempt_status_evolves s k st e t1 t2 :
  evolves s (update_attempt_status s k st e t1 t2).1.
Proof.
  unfold update_attempt_status. destruct (attempts s !! k) as [a|] eqn:Ha; [|done].
  case_match eqn:Hc; [|done]. eapply insert_attempt_evolves; [done|].
  split_and!; [by apply rtc_once; case_match|by case_match..].
Qed.

Lemma heartbeat_evolves s k rid aid now :
  evolves s (update_worker_heartbeat s k rid aid now).1.
Proof.
  unfold update_worker_heartbeat.
  destruct rid as [i|], aid as [j|]; try (by case_match).
  destruct (attempts s !! j) as [a|] eqn:Ha; [|by case_match].
  case_decide; [|by case_match]. cbn.
  trans (set_attempts (<[j := set_at_heartbeat now a]> (attempts s)) s); [|by case_match].
  by eapply insert_attempt_evolves.
Qed.

Lemma reassign_worker_evolves s k timeout now l :
  evolves s (reassign_worker s k timeout now l).1.
Proof.
  unfold reassign_worker.
  destruct (w ← _; wk_active_rollout_id w) as [rid|]; [|done].
  destruct (w ← _; wk_active_attempt_id w) as [aid|]; [|done].
  destruct (attempts s !! aid) as [a|] eqn:Ha; [|done].
  case_decide; [done|]. case_match; [done|]. case_match eqn:Hc; [|done]. cbn.
  set (a' := set_at_end _ _ _).
  trans (set_attempts (<[aid := a']> (attempts s)) s).
  { eapply insert_attempt_evolves; [done|]. split_and!; [by apply rtc_once|done..]. }
  destruct (rollouts s !! rid) as [r|] eqn:Hr; [|done]. case_match eqn:Hcr; [|done].
  etrans; [by apply (insert_rollout_evolves _ rid r (set_ro_worker None (set_ro_status Requeuing r)));
    [|split; [apply rtc_once|]]|].
  cbn. unfold requeue. by case_match.
Qed.

Lemma reassign_loop_evolves ws s timeout now l :
  evolves s (reassign_loop ws s timeout now l).1.
Proof.
  revert s l. induction ws as [|k ws IH]; intros s l; cbn; [done|].
  pose proof (reassign_worker_evolves s k timeout now l) as Hev.
  destruct (reassign_worker s k timeout now l) as [s' [l'|e]]; [|done].
  etrans; [done|]. apply IH.
Qed.

Lemma enqueue_rollout_evolves s r : evolves s (enqueue_rollout s r).1.
Proof.
  unfold enqueue_rollout. destruct (rollouts s !! ro_id r) eqn:Hr; [done|].
  split; cbn; [|done]. apply map_evolves_insert; [apply _|]. cbn. congruence.
Qed.
End evolution.

(** ** No waiting rollout is lost *)

Section waiting.
Context {Value : Type}.
Implicit Types (s : StoreInner Value) (r : Rollout Value).

(** Every rollout that waits to run is in the queue. *)
Definition waiting_queued s : Prop :=
  ∀ k r, rollouts s !! k = Some r → is_waiting (ro_status r) = true → k ∈ queue s.

Lemma waiting_queued_insert s k r :
  waiting_queued s → (is_waiting (ro_status r) = true → k ∈ queue s) →
  waiting_queued (set_rollouts (<[k := r]> (rollouts s)) s).
Proof.
  intros Hq Hr j y. cbn. intros [[<- <-]|[_ Hy]]%lookup_insert_Some ?; [auto|]. by eapply Hq.
Qed.

Lemma dequeue_loop_waiting q s wid t1 t2 t3 :
  waiting_queued (set_queue q s) → waiting_queued (dequeue_loop q s wid t1 t2 t3).1.
Proof.
  revert s. induction q as [|k rest IH]; intros s Hq; cbn; [done|].
  assert (∀ r, rollouts s !! k = Some r → is_waiting (ro_status r) = false →
    waiting_queued (set_queue rest s)) as Hskip.
  { intros r Hr Hw j y Hj Hy. cbn in *.
    apply (Hq j y Hj) in Hy as Hin. apply elem_of_cons in Hin as [->|?]; [|done]. congruence. }
  destruct (rollouts s !! k) as [r|] eqn:Hr.
  - destruct (is_waiting (ro_status r)) eqn:Hw; [|by apply IH; eapply Hskip].
    assert (rollout_can_transition_to (ro_status r) Running = true) as ->
      by (by destruct (ro_status r)).
    intros j y. cbn. intros [[<- <-]|[Hne Hy]]%lookup_insert_Some; [done|].
    intros Hyw. apply (Hq j y Hy) in Hyw. cbn in Hyw. apply elem_of_cons in Hyw as [->|?]; done.
  - apply IH. intros j y Hj Hy. cbn in *.
    apply (Hq j y Hj) in Hy as Hin. apply elem_of_cons in Hin as [->|?]; [|done]. congruence.
Qed.

Lemma update_rollout_status_waiting s k st now :
  st ≠ Requeuing → waiting_queued s → waiting_queued (update_rollout_status s k st now).1.
Proof.
  intros Hst Hq. unfold update_rollout_status. destruct (rollouts s !! k) as [r|] eqn:Hr; [|done].
  case_match eqn:Hc; [|done]. apply waiting_queued_insert; [done|]. intros Hw.
  assert (ro_status r = Queuing) as Hs.
  { destruct st; [destruct (ro_status r)|..]; try done. }
  apply (Hq k r Hr). by rewrite Hs.
Qed.

Lemma reassign_worker_waiting s k timeout now l :
  waiting_queued s → waiting_queued (reassign_worker s k timeout now l).1.
Proof.
  intros Hq. unfold reassign_worker.
  destruct (w ← _; wk_active_rollout_id w) as [rid|]; [|done].
  destruct (w ← _; wk_active_attempt_id w) as [aid|]; [|done].
  destruct (attempts s !! aid) as [a|] eqn:Ha; [|done].
  case_decide; [done|]. case_match; [done|]. case_match; [|done]. cbn.
  destruct (rollouts s !! rid) as [r|] eqn:Hr; [|done]. case_match; [|done].
  intros j y. unfold requeue. cbn.
  case_match eqn:He; cbn; intros [[<- <-]|[_ Hy]]%lookup_insert_Some Hw.
  - apply existsb_exists in He as (x & Hx & ->%String.eqb_eq). by apply list_elem_of_In.
  - by eapply Hq.
  - rewrite elem_of_app. right. by left.
  - rewrite elem_of_app. left. by eapply Hq.
Qed.

Lemma reassign_loop_waiting ws s timeout now l :
  waiting_queued s → waiting_queued (reassign_loop ws s timeout now l).1.
Proof.
  revert s l. induction ws as [|k ws IH]; intros s l Hq; cbn; [done|].
  pose proof (reassign_worker_waiting s k timeout now l Hq) as Hq'.
  destruct (reassign_worker s k timeout now l) as [s' [l'|e]]; [by apply IH|done].
Qed.

Lemma enqueue_rollout_waiting s r : waiting_queued s → waiting_queued (enqueue_rollout s r).1.
Proof.
  intros Hq. unfold enqueue_rollout. destruct (rollouts s !! ro_id r) eqn:Hr; [done|].
  intros j y. cbn. rewrite elem_of_app.
  intros [[<- <-]|[_ Hy]]%lookup_insert_Some Hw; [right; by left|left]. by eapply Hq.
Qed.

Lemma heartbeat_rollouts s k rid aid now :
  rollouts (update_worker_heartbeat s k rid aid now).1 = rollouts s ∧
  queue (update_worker_heartbeat s k rid aid now).1 = queue s.
Proof.
  unfold update_worker_heartbeat.
  destruct rid as [i|], aid as [j|]; try (by case_match).
  destruct (attempts s !! j) as [a|] eqn:Ha; [|by case_match].
  case_decide; by case_match.
Qed.

Lemma update_attempt_rollouts s k st e t1 t2 :
  rollouts (update_attempt_status s k st e t1 t2).1 = rollouts s ∧
  queue (update_attempt_status s k st e t1 t2).1 = queue s.
Proof.
  unfold update_attempt_status. destruct (attempts s !! k) as [a|] eqn:Ha; [|done].
  by case_match.
Qed.

(** The queue in order: non-waiting entries are dropped, the first waiting one
    is started. *)
Lemma dequeue_loop_first s skipped k rest r wid t1 t2 t3 :
  (∀ j, j ∈ skipped → ∀ y, rollouts s !! j = Some y → is_waiting (ro_status y) = false) →
  rollouts s !! k = Some r → is_waiting (ro_status r) = true →
  dequeue_loop (skipped ++ k :: rest) s wid t1 t2 t3 =
    let '(s', d) := start_attempt (set_queue rest s) k r wid t1 t2 t3 in (s', Ok (Some d)).
Proof.
  intros Hskip Hr Hw. revert s Hskip Hr.
  induction skipped as [|j skipped IH]; intros s Hskip Hr; cbn -[start_attempt].
  - rewrite Hr, Hw. by destruct (ro_status r).
  - destruct (rollouts s !! j) as [y|] eqn:Hy.
    + rewrite (Hskip j ltac:(left) y Hy). rewrite IH; [done| |done].
      intros j' ?. apply Hskip. by right.
    + rewrite IH; [done| |done]. intros j' ?. apply Hskip. by right.
Qed.

Lemma dequeue_loop_none s q wid t1 t2 t3 :
  (∀ j, j ∈ q → ∀ y, rollouts s !! j = Some y → is_waiting (ro_status y) = false) →
  dequeue_loop q s wid t1 t2 t3 = (set_queue [] s, Ok None).
Proof.
  revert s. induction q as [|j q IH]; intros s Hskip; cbn -[start_attempt]; [done|].
  destruct (rollouts s !! j) as [y|] eqn:Hy.
  - rewrite (Hskip j ltac:(left) y Hy). rewrite IH; [done|]. intros j' ?. apply Hskip. by right.
  - rewrite IH; [done|]. intros j' ?. apply Hskip. by right.
Qed.

(** Either nothing in the queue waits, or there is a first entry that does. *)
Lemma first_waiting s q :
  (∀ j, j ∈ q → ∀ y, rollouts s !! j = Some y → is_waiting (ro_status y) = false) ∨
  ∃ skipped k rest r, q = skipped ++ k :: rest ∧ rollouts s !! k = Some r ∧
    is_waiting (ro_status r) = true ∧
    (∀ j, j ∈ skipped → ∀ y, rollouts s !! j = Some y → is_waiting (ro_status y) = false).
Proof.
  induction q as [|j q IH]; [left; by intros j ?%elem_of_nil|].
  destruct (rollouts s !! j) as [y|] eqn:Hy; [destruct (is_waiting (ro_status y)) eqn:Hw|].
  { right. exists [], j, q, y. split_and!; try done. by intros ? ?%elem_of_nil. }
  all: destruct IH as [IH|(sk & k & rest & r & -> & Hr & Hk & Hsk)];
    [left; intros i [->|?]%elem_of_cons z Hz; [congruence|by eapply IH]|].
  all: right; exists (j :: sk), k, rest, r; split_and!; try done;
    intros i [->|?]%elem_of_cons z Hz; [congruence|by eapply Hsk].
Qed.
End waiting.
