(* ===== verification/TrainingTheorems.v ===== *)
(** * Theorems on the training store

    Executions of the store as sequences of operations by any number of
    workers and clients, what holds in every reachable state, and what the
    queue, the reassignment and the span and resource logs promise. *)

From Stdlib Require Import NArith ZArith Lia.
From stdpp Require Import base gmap sets strings relations sorting list.
From S2P Require Import Prelude RustStr TrainingTypes TrainingStore TrainingInvariant.

#[local] Open Scope string_scope.
#[local] Open Scope list_scope.
#[local] Open Scope nat_scope.

Section executions.
Context {Value : Type}.
Implicit Types (s : StoreInner Value) (r : Rollout Value) (a : Attempt) (w : WorkerState).

(** The operations that write the store, with their clock readings. *)
Inductive StoreOp :=
| OpEnqueue (rollout : Rollout Value)
| OpDequeue (worker_id : string) (t_start t_attempt t_worker : DateTime)
| OpUpdateRollout (rollout_id : string) (status : RolloutStatus) (now : DateTime)
| OpCancel (rollout_id : string) (now : DateTime)
| OpAddSpan (span : TrainingSpan Value)
| OpUpdateResources (res : gmap string Value) (now : DateTime)
| OpRegister (worker_id : string) (now : DateTime)
| OpHeartbeat (worker_id : string) (rollout_id attempt_id : option string) (now : DateTime)
| OpReassign (worker_ids : list string) (timeout : Z) (now : DateTime)
| OpUpdateAttempt (attempt_id : string) (status : AttemptStatus) (error : option string)
    (t_heartbeat t_end : DateTime).

Definition run_store_op s (op : StoreOp) : StoreInner Value :=
  match op with
  | OpEnqueue rollout => (enqueue_rollout s rollout).1
  | OpDequeue wid t1 t2 t3 => (dequeue_rollout s wid t1 t2 t3).1
  | OpUpdateRollout k st now => (update_rollout_status s k st now).1
  | OpCancel k now => (cancel_rollout s k now).1
  | OpAddSpan span => add_span s span
  | OpUpdateResources res now => (update_resources s res now).1
  | OpRegister wid now => (register_worker s wid now).1
  | OpHeartbeat wid rid aid now => (update_worker_heartbeat s wid rid aid now).1
  | OpReassign ws timeout now => (reassign_timed_out_rollouts s ws timeout now).1
  | OpUpdateAttempt k st e t1 t2 => (update_attempt_status s k st e t1 t2).1
  end.

(** What the clients keep to: rollouts enter unattempted ([Rollout::new]),
    counters have room, a worker reports an attempt with its own rollout, and
    the reassignment visits the workers, each once, in any order. *)
Definition op_ok s (op : StoreOp) : Prop :=
  match op with
  | OpEnqueue rollout => ro_attempt_count rollout = 0%N
  | OpDequeue _ _ _ _ => attempts_room s
  | OpHeartbeat _ rid aid _ => report_fits s rid aid
  | OpReassign ws _ _ => ws ≡ₚ (map_to_list (workers s)).*1
  | OpUpdateResources _ _ => (N.of_nat (length (resources s)) < u64_max)%N
  | _ => True
  end.

Definition store_step s s' : Prop := ∃ op, op_ok s op ∧ s' = run_store_op s op.
Definition store_reachable s : Prop := rtc store_step store_new s.

Lemma run_store_op_ok s op : store_ok s → op_ok s op → store_ok (run_store_op s op).
Proof.
  intros Hok Hop. destruct op; cbn in *.
  - by apply enqueue_rollout_ok.
  - apply dequeue_loop_ok; [|done]. by apply set_queue_shrink.
  - by apply update_rollout_status_ok.
  - by apply update_rollout_status_ok.
  - by apply set_spans_ok.
  - by apply set_resources_ok.
  - by apply register_worker_ok.
  - by apply update_worker_heartbeat_ok.
  - by apply reassign_loop_ok.
  - by apply update_attempt_status_ok.
Qed.

Lemma run_store_op_evolves s op : store_ok s → op_ok s op → evolves s (run_store_op s op).
Proof.
  intros Hok Hop. destruct op; cbn in *.
  - apply enqueue_rollout_evolves.
  - apply dequeue_loop_evolves; [|done]. by apply set_queue_shrink.
  - apply update_rollout_status_evolves.
  - apply update_rollout_status_evolves.
  - done.
  - done.
  - done.
  - apply heartbeat_evolves.
  - apply reassign_loop_evolves.
  - apply update_attempt_status_evolves.
Qed.

Lemma store_steps_ok s s' : rtc store_step s s' → store_ok s → store_ok s' ∧ evolves s s'.
Proof.
  induction 1 as [|s1 s2 s3 (op & Hop & ->) _ IH]; [done|]. intros Hok.
  destruct IH as [? ?]; [by apply run_store_op_ok|]. split; [done|].
  etrans; [by apply run_store_op_evolves|done].
Qed.

(** C23: in every reachable state of the training store, whatever the
    interleaving of workers, clients and reassignment, the store is consistent:
    a rollout has at most one running attempt, a queued rollout has none and is
    queued once, attempts have unique ids that are exactly those of the
    rollout's index in order, and a worker's reported work is an attempt of the
    rollout it reports. *)
Theorem training_reachable_ok s : store_reachable s → store_ok s.
Proof. intros Hr. apply (store_steps_ok _ _ Hr store_new_ok). Qed.

(** Nothing is forgotten and finished work stays finished: along any
    execution every rollout and attempt remains, statuses move along the
    lifecycle tables, a succeeded or cancelled rollout and a terminal attempt
    keep their status for ever, and attempt counts never decrease. *)
Theorem training_final_statuses s s' :
  store_ok s → rtc store_step s s' →
  evolves s s' ∧
  (∀ k r, rollouts s !! k = Some r → ro_status r = Succeeded ∨ ro_status r = Cancelled →
     ∃ r', rollouts s' !! k = Some r' ∧ ro_status r' = ro_status r) ∧
  (∀ k a, attempts s !! k = Some a → attempt_is_terminal (at_status a) = true →
     ∃ a', attempts s' !! k = Some a' ∧ at_status a' = at_status a).
Proof.
  intros Hok Hs. destruct (store_steps_ok _ _ Hs Hok) as [_ [Hro Hat]].
  split_and!; [by split| |].
  - intros k r Hr Hst. destruct (Hro k r Hr) as (r' & Hr' & Hm & _). exists r'.
    split; [done|]. by apply rtc_rollout_closed.
  - intros k a Ha Hst. destruct (Hat k a Ha) as (a' & Ha' & Hm & _). exists a'.
    split; [done|]. by apply rtc_attempt_terminal.
Qed.

(** ** The queue *)

(** What the n-th attempt of a rollout looks like when a worker gets it. *)
Definition dispatched (k : string) (r : Rollout Value) (wid : string) (d : DequeuedRollout Value)
    : Prop :=
  ro_id (dq_rollout d) = k ∧ ro_status (dq_rollout d) = Running ∧
  ro_assigned_worker_id (dq_rollout d) = Some wid ∧
  ro_attempt_count (dq_rollout d) = add_u32 (ro_attempt_count r) 1 ∧
  at_id (dq_attempt d) = attempt_id_of k (add_u32 (ro_attempt_count r) 1) ∧
  at_rollout_id (dq_attempt d) = k ∧ at_worker_id (dq_attempt d) = wid ∧
  at_status (dq_attempt d) = AttemptRunning.

(** Dequeuing serves in arrival order and never fails: it returns the first
    queued rollout that still waits, running and assigned to the worker, with
    its next attempt recorded; entries before it that no longer wait are
    dropped; with no waiting entry it returns nothing and empties the queue. *)
Theorem dequeue_first_waiting s wid t1 t2 t3 :
  store_ok s →
  match dequeue_rollout s wid t1 t2 t3 with
  | (s', Ok (Some d)) =>
      ∃ skipped k r, queue s = skipped ++ k :: queue s' ∧ rollouts s !! k = Some r ∧
        is_waiting (ro_status r) = true ∧
        (∀ j y, j ∈ skipped → rollouts s !! j = Some y → is_waiting (ro_status y) = false) ∧
        dispatched k r wid d ∧ rollouts s' !! k = Some (dq_rollout d) ∧
        attempts s' !! at_id (dq_attempt d) = Some (dq_attempt d) ∧
        (∀ j, j ≠ k → rollouts s' !! j = rollouts s !! j)
  | (s', Ok None) =>
      queue s' = [] ∧ rollouts s' = rollouts s ∧ attempts s' = attempts s ∧
      ∀ j y, j ∈ queue s → rollouts s !! j = Some y → is_waiting (ro_status y) = false
  | (_, Err _) => False
  end.
Proof.
  intros Hok. unfold dequeue_rollout.
  destruct (first_waiting s (queue s)) as [Hnone|(skipped & k & rest & r & Hq & Hr & Hw & Hsk)].
  { rewrite (dequeue_loop_none _ _ _ _ _ _ Hnone). split_and!; try done. eauto. }
  rewrite Hq, (dequeue_loop_first _ _ _ _ _ _ _ _ _ Hsk Hr Hw).
  pose proof (ok_rollout_keys _ Hok _ _ Hr) as Hk.
  cbn. exists skipped, k, r. rewrite Hk. split_and!; try done.
  - eauto.
  - by apply lookup_insert_eq.
  - by apply lookup_insert_eq.
  - intros j Hj. by rewrite lookup_insert_ne.
Qed.

(** Executions in which no client marks a rollout [Requeuing] by hand. *)
Definition queue_step s s' : Prop :=
  ∃ op, op_ok s op ∧ (∀ k now, op ≠ OpUpdateRollout k Requeuing now) ∧ s' = run_store_op s op.

Lemma run_store_op_waiting s op :
  waiting_queued s → (∀ k now, op ≠ OpUpdateRollout k Requeuing now) →
  waiting_queued (run_store_op s op).
Proof.
  intros Hq Hop. destruct op; cbn in *.
  - by apply enqueue_rollout_waiting.
  - apply dequeue_loop_waiting. by destruct s.
  - apply update_rollout_status_waiting; [|done]. intros ->. by eapply Hop.
  - by apply update_rollout_status_waiting.
  - done.
  - done.
  - done.
  - unfold waiting_queued.
    by destruct (heartbeat_rollouts s worker_id rollout_id attempt_id now) as [-> ->].
  - by apply reassign_loop_waiting.
  - unfold waiting_queued.
    by destruct (update_attempt_rollouts s attempt_id status error t_heartbeat t_end) as [-> ->].
Qed.

(** No waiting rollout is ever lost: in every state reached without a client
    marking rollouts [Requeuing] by hand, a dequeue returns work iff some
    rollout is waiting to run. *)
Theorem waiting_rollouts_served s wid t1 t2 t3 :
  rtc queue_step store_new s →
  (∃ d s', dequeue_rollout s wid t1 t2 t3 = (s', Ok (Some d))) ↔
  (∃ k r, rollouts s !! k = Some r ∧ is_waiting (ro_status r) = true).
Proof.
  intros Hs. assert (waiting_queued s) as Hq.
  { cut (waiting_queued (@store_new Value)); [|intros k r Hr; cbn in Hr; by rewrite lookup_empty in Hr].
    induction Hs as [|s1 s2 s3 (op & _ & Hop & ->) _ IH]; [done|]. intros ?.
    by apply IH, run_store_op_waiting. }
  unfold dequeue_rollout.
  destruct (first_waiting s (queue s)) as [Hnone|(skipped & k & rest & r & Hqs & Hr & Hw & Hsk)].
  - rewrite (dequeue_loop_none _ _ _ _ _ _ Hnone). split; [naive_solver|].
    intros (k & r & Hr & Hw). pose proof (Hnone k (Hq k r Hr Hw) r Hr). congruence.
  - rewrite Hqs, (dequeue_loop_first _ _ _ _ _ _ _ _ _ Hsk Hr Hw).
    split; intros _; [by exists k, r|]. by eexists _, _.
Qed.
End executions.

(** ** Reassignment *)

Section reassignment.
Context {Value : Type} (timeout : Z) (now : DateTime).
Implicit Types (s : StoreInner Value) (r : Rollout Value) (a : Attempt) (w : WorkerState).

(** The worker's running attempt, of the given rollout, missed its heartbeat. *)
Definition overdue s (wid rid : string) : Prop :=
  ∃ w aid a, workers s !! wid = Some w ∧ wk_active_rollout_id w = Some rid ∧
    wk_active_attempt_id w = Some aid ∧ attempts s !! aid = Some a ∧
    at_status a = AttemptRunning ∧ (timeout < elapsed_since now (at_last_heartbeat_at a))%Z.

(** The rollout waits in the queue for its next attempt. *)
Definition requeued_in s (rid : string) : Prop :=
  rid ∈ queue s ∧ ∃ r, rollouts s !! rid = Some r ∧ ro_status r = Requeuing.

Definition timed_out a : Attempt :=
  set_at_end (Some now) (Some "worker heartbeat timeout")
    (set_at_heartbeat now (set_at_status AttemptTimeout a)).

(** The state after a worker's attempt timed out and its rollout went back. *)
Definition taken_back s (wid rid aid : string) a r : StoreInner Value :=
  let s := set_attempts (<[aid := timed_out a]> (attempts s)) s in
  let s := set_rollouts
    (<[rid := set_ro_worker None (set_ro_status Requeuing r)]> (rollouts s)) s in
  release_worker wid now (requeue rid s).

Definition push_once (x : string) (l : list string) : list string :=
  if existsb (String.eqb x) l then l else l ++ [x].

Lemma existsb_eqb (x : string) l : existsb (String.eqb x) l = true ↔ x ∈ l.
Proof.
  rewrite existsb_exists. setoid_rewrite String.eqb_eq. rewrite list_elem_of_In. naive_solver.
Qed.

Lemma push_once_elem x y l : y ∈ push_once x l ↔ y = x ∨ y ∈ l.
Proof.
  unfold push_once. destruct (existsb _ _) eqn:He.
  - apply existsb_eqb in He. naive_solver.
  - rewrite elem_of_app, list_elem_of_singleton. tauto.
Qed.

Lemma push_once_NoDup x l : NoDup l → NoDup (push_once x l).
Proof.
  unfold push_once. destruct (existsb _ _) eqn:He; [done|]. intros Hl.
  apply NoDup_app. split_and!; [done| |apply NoDup_singleton].
  intros y Hy ->%list_elem_of_singleton. by apply existsb_eqb in Hy; rewrite He in Hy.
Qed.

Lemma requeue_elem x k s : x ∈ queue (requeue k s) ↔ x = k ∨ x ∈ queue s.
Proof.
  unfold requeue. destruct (existsb _ _) eqn:He.
  - apply existsb_eqb in He. naive_solver.
  - cbn. rewrite elem_of_app, list_elem_of_singleton. tauto.
Qed.

Lemma requeue_rest k s :
  rollouts (requeue k s) = rollouts s ∧ attempts (requeue k s) = attempts s ∧
  workers (requeue k s) = workers s.
Proof. unfold requeue. by case_match. Qed.

(** A round changes nothing, or takes back the work of an overdue worker. *)
Lemma reassign_worker_cases s wid l s' l' :
  store_ok s → reassign_worker s wid timeout now l = (s', Ok l') →
  (s' = s ∧ l' = l ∧ ∀ rid, ¬ overdue s wid rid) ∨
  (∃ w rid aid a r, workers s !! wid = Some w ∧ wk_active_rollout_id w = Some rid ∧
     wk_active_attempt_id w = Some aid ∧ attempts s !! aid = Some a ∧
     at_rollout_id a = rid ∧ rollouts s !! rid = Some r ∧
     s' = taken_back s wid rid aid a r ∧ l' = push_once rid l).
Proof.
  intros Hok. unfold reassign_worker.
  destruct (workers s !! wid) as [w|] eqn:Hw; cbn;
    [|intros [= <- <-]; left; split_and!; [done|done|]; intros rid (?&?&?&?&_); congruence].
  destruct (wk_active_rollout_id w) as [rid|] eqn:Hrid;
    [|intros [= <- <-]; left; split_and!; [done|done|]; intros rid (?&?&?&?&?&_); congruence].
  destruct (wk_active_attempt_id w) as [aid|] eqn:Haid;
    [|intros [= <- <-]; left; split_and!; [done|done|]; intros rid' (?&?&?&?&?&?&_); congruence].
  destruct (ok_workers _ Hok _ _ Hw rid aid Hrid Haid) as (a & Ha & Hfit). rewrite Ha.
  case_decide as Hrun;
    [intros [= <- <-]; left; split_and!; [done|done|];
     intros rid' (?&?&?&?&?&?&?&?&_); congruence|].
  destruct (elapsed_since now (at_last_heartbeat_at a) <=? timeout)%Z eqn:Hel.
  { intros [= <- <-]. left. split_and!; [done|done|]. apply Z.leb_le in Hel.
    intros rid' (w'&aid'&a'&?&?&?&?&?&?). assert (a' = a) as -> by congruence. lia. }
  case_match; [|done]. cbn.
  destruct (ok_attempts _ Hok _ _ Ha) as (_ & _ & _ & r & Hr & _). rewrite Hfit in Hr. rewrite Hr.
  case_match; [|done]. intros [= <- <-]. right. exists w, rid, aid, a, r. by split_and!.
Qed.

Lemma taken_back_lookups s wid rid aid a r :
  let s' := taken_back s wid rid aid a r in
  attempts s' = <[aid := timed_out a]> (attempts s) ∧
  rollouts s' = <[rid := set_ro_worker None (set_ro_status Requeuing r)]> (rollouts s) ∧
  workers s' = alter (set_wk_active now None None) wid (workers s) ∧
  ∀ x, x ∈ queue s' ↔ x = rid ∨ x ∈ queue s.
Proof.
  cbn. unfold taken_back.
  set (s1 := set_rollouts _ _). destruct (requeue_rest rid s1) as (Hr & Ha & Hw).
  unfold release_worker. cbn. rewrite Hr, Ha, Hw. split_and!; try done.
  intros x. rewrite requeue_elem. done.
Qed.

Lemma taken_back_overdue s wid rid aid a r j x :
  overdue (taken_back s wid rid aid a r) j x → overdue s j x ∧ j ≠ wid.
Proof.
  destruct (taken_back_lookups s wid rid aid a r) as (Hat & _ & Hwk & _).
  intros (w & i & b & Hw & H1 & H2 & Hb & Hst & Hel). rewrite Hat in Hb. rewrite Hwk in Hw.
  apply lookup_alter_Some in Hw as [(<- & w0 & _ & ->)|[Hne Hw]]; [done|].
  apply lookup_insert_Some in Hb as [[<- <-]|[_ Hb]]; [done|].
  split; [by exists w, i, b|done].
Qed.

Lemma taken_back_keeps_overdue s wid rid aid a r j x :
  store_ok s → attempts s !! aid = Some a → at_rollout_id a = rid →
  (∃ w, workers s !! wid = Some w ∧ wk_active_rollout_id w = Some rid) →
  overdue s j x → overdue (taken_back s wid rid aid a r) j x ∨ x = rid.
Proof.
  intros Hok Ha Hrid (w0 & Hw0 & Hw0r) (w & i & b & Hw & H1 & H2 & Hb & Hst & Hel).
  destruct (taken_back_lookups s wid rid aid a r) as (Hat & _ & Hwk & _).
  destruct (ok_workers _ Hok _ _ Hw x i H1 H2) as (b' & Hb' & Hx).
  destruct (decide (i = aid)) as [->|Hi]; [right; congruence|].
  destruct (decide (j = wid)) as [->|Hj]; [right; congruence|].
  left. exists w, i, b. rewrite Hat, Hwk, lookup_alter_ne, lookup_insert_ne by done.
  by split_and!.
Qed.

Lemma taken_back_requeued s wid rid aid a r x :
  requeued_in s x ∨ x = rid → requeued_in (taken_back s wid rid aid a r) x.
Proof.
  destruct (taken_back_lookups s wid rid aid a r) as (_ & Hro & _ & Hq).
  unfold requeued_in. rewrite Hro, Hq. destruct (decide (x = rid)) as [->|Hne].
  - intros _. split; [by left|]. eexists. by rewrite lookup_insert_eq.
  - intros [[Hin Hr]|]; [|done]. split; [by right|]. by rewrite lookup_insert_ne by congruence.
Qed.

Lemma reassign_loop_spec ws s l s' l' :
  store_ok s → reassign_loop ws s timeout now l = (s', Ok l') →
  (NoDup l → NoDup l') ∧
  (∀ x, x ∈ l → x ∈ l') ∧
  (∀ j x, overdue s' j x → overdue s j x ∧ j ∉ ws) ∧
  (∀ j x, j ∈ ws → overdue s j x → x ∈ l') ∧
  ((∀ x, x ∈ l → requeued_in s x) → ∀ x, x ∈ l' → requeued_in s' x).
Proof.
  revert s l. induction ws as [|k ws IH]; intros s l Hok; cbn.
  { intros [= <- <-]. split_and!; try done.
    - intros j x Ho. split; [done|]. by apply not_elem_of_nil.
    - by intros j x ?%elem_of_nil. }
  destruct (reassign_worker s k timeout now l) as [s1 [l1|e]] eqn:Hround; [|done].
  pose proof (reassign_worker_ok s k timeout now l Hok) as Hok1. rewrite Hround in Hok1. cbn in Hok1.
  intros Hloop. specialize (IH _ _ Hok1 Hloop) as (Hnd & Hsub & Hover & Hall & Hreq).
  destruct (reassign_worker_cases _ _ _ _ _ Hok Hround)
    as [(-> & -> & Hno)|(w & rid & aid & a & r & Hw & Hrid & Haid & Ha & Hfit & Hr & -> & ->)].
  - split_and!; try done.
    + intros j x Ho. destruct (Hover j x Ho) as [Ho' Hj]. split; [done|].
      intros [->|?]%elem_of_cons; [by eapply Hno|done].
    + intros j x [->|Hj]%elem_of_cons Ho; [by destruct (Hno x)|]. by eapply Hall.
  - split_and!.
    + intros. by apply Hnd, push_once_NoDup.
    + intros x Hx. apply Hsub, push_once_elem. by right.
    + intros j x Ho. destruct (Hover j x Ho) as [[Ho' Hne]%taken_back_overdue Hj].
      split; [done|]. by intros [->|?]%elem_of_cons.
    + intros j x Hj Ho.
      destruct (taken_back_keeps_overdue s k rid aid a r j x) as [Ho'| ->]; eauto.
      * apply elem_of_cons in Hj as [->|Hj]; [|by eapply Hall].
        by destruct (taken_back_overdue _ _ _ _ _ _ _ _ Ho') as [_ []].
      * apply Hsub, push_once_elem. by left.
    + intros Hl. apply Hreq. intros x [->|Hx]%push_once_elem; apply taken_back_requeued; auto.
Qed.

(** a reassignment that succeeds leaves no overdue work: every rollout a
    worker with a missed heartbeat was running is reported once, waits in the
    queue in state [Requeuing], and no worker keeps an overdue attempt. *)
Theorem reassign_clears_overdue s ws s' l :
  store_ok s → ws ≡ₚ (map_to_list (workers s)).*1 →
  reassign_timed_out_rollouts s ws timeout now = (s', Ok l) →
  (∀ wid rid, ¬ overdue s' wid rid) ∧
  (∀ wid rid, overdue s wid rid → rid ∈ l) ∧
  NoDup l ∧ (∀ rid, rid ∈ l → requeued_in s' rid).
Proof.
  intros Hok Hws Hrun.
  destruct (reassign_loop_spec _ _ _ _ _ Hok Hrun) as (Hnd & _ & Hover & Hall & Hreq).
  assert (∀ wid rid, overdue s wid rid → wid ∈ ws) as Hin.
  { intros wid rid (w & _ & _ & Hw & _). rewrite Hws. apply list_elem_of_fmap.
    exists (wid, w). split; [done|]. by apply elem_of_map_to_list. }
  split_and!.
  - intros wid rid Ho. destruct (Hover _ _ Ho) as [Ho' Hni]. by eapply Hni, Hin.
  - intros wid rid Ho. by eapply Hall; [eapply Hin|].
  - by apply Hnd, NoDup_nil_2.
  - apply Hreq. by intros x ?%elem_of_nil.
Qed.
End reassignment.

(** ** Spans and resources *)

Section logs.
Context {Value : Type}.
Implicit Types (s : StoreInner Value) (u : ResourcesUpdate Value).

(** Spans are filed under their own key in sequence order, and the resource
    log is the list of versions 1, 2, ... of which only the last is latest. *)
Definition logs_ok s : Prop :=
  (∀ k l, spans s !! k = Some l →
     StronglySorted (key_le sp_sequence_id) l ∧ Forall (λ span, span_key span = k) l) ∧
  (∀ i u, resources s !! i = Some u →
     rs_version u = N.of_nat (S i) ∧ rs_id u = resources_id_of (N.of_nat (S i)) ∧
     rs_is_latest u = bool_decide (S i = length (resources s))).

Lemma add_span_logs s span : logs_ok s → logs_ok (add_span s span).
Proof.
  intros [Hsp Hres]. split; [|done]. cbn. intros k l [[<- <-]|[_ Hl]]%lookup_insert_Some; [|auto].
  split; [apply sort_by_key_sorted|]. rewrite sort_by_key_perm. apply Forall_app. split; [|by constructor].
  destruct (spans s !! span_key span) as [l|] eqn:Hl; cbn; [|done]. by apply Hsp.
Qed.

Lemma update_resources_logs s res now :
  logs_ok s → (N.of_nat (length (resources s)) < u64_max)%N →
  logs_ok (update_resources s res now).1.
Proof.
  intros [Hsp Hres] Hroom. split; [done|]. intros i u. cbn. rewrite length_app, length_fmap. cbn.
  intros [Hu|[Hi Hu]]%lookup_app_Some.
  - rewrite list_lookup_fmap in Hu. destruct (resources s !! i) as [u0|] eqn:Hu0; [|done].
    injection Hu as <-. cbn. destruct (Hres i u0 Hu0) as (? & ? & _). split_and!; [done|done|].
    symmetry. apply bool_decide_eq_false. apply lookup_lt_Some in Hu0. lia.
  - rewrite length_fmap in Hi, Hu. apply list_lookup_singleton_Some in Hu as [Hz <-]. cbn.
    assert (add_u64 (N.of_nat (length (resources s))) 1 = N.of_nat (S i)) as ->.
    { rewrite add_u64_small by (unfold in_u64, u64_max in *; lia). lia. }
    split_and!; [done|done|]. symmetry. apply bool_decide_eq_true. lia.
Qed.

Lemma logs_ok_same s s' :
  spans s' = spans s → resources s' = resources s → logs_ok s → logs_ok s'.
Proof. unfold logs_ok. intros -> ->. done. Qed.

Lemma dequeue_loop_logs q s wid t1 t2 t3 :
  spans (dequeue_loop q s wid t1 t2 t3).1 = spans s ∧
  resources (dequeue_loop q s wid t1 t2 t3).1 = resources s.
Proof.
  revert s. induction q as [|k q IH]; intros s; cbn; [done|].
  destruct (rollouts s !! k); [|apply (IH (set_queue q s))].
  case_match; [|apply (IH (set_queue q s))]. by case_match.
Qed.

Lemma reassign_loop_logs ws s timeout now l :
  spans (reassign_loop ws s timeout now l).1 = spans s ∧
  resources (reassign_loop ws s timeout now l).1 = resources s.
Proof.
  revert s l. induction ws as [|k ws IH]; intros s l; cbn; [done|].
  assert (spans (reassign_worker s k timeout now l).1 = spans s ∧
    resources (reassign_worker s k timeout now l).1 = resources s) as [Hs Hr].
  { unfold reassign_worker, requeue. cbn. repeat case_match; done. }
  destruct (reassign_worker s k timeout now l) as [s' [l'|e]]; [|done].
  destruct (IH s' l') as [-> ->]. done.
Qed.

Lemma heartbeat_logs s k rid aid now :
  spans (update_worker_heartbeat s k rid aid now).1 = spans s ∧
  resources (update_worker_heartbeat s k rid aid now).1 = resources s.
Proof.
  unfold update_worker_heartbeat. destruct rid as [i|], aid as [j|]; try (by case_match).
  destruct (attempts s !! j); [|by case_match]. case_decide; by case_match.
Qed.

Lemma run_store_op_logs s op : op_ok s op → logs_ok s → logs_ok (run_store_op s op).
Proof.
  intros Hop Hl. destruct op; cbn in *.
  - eapply logs_ok_same; [..|done]; unfold enqueue_rollout; by case_match.
  - eapply logs_ok_same; [apply dequeue_loop_logs..|done].
  - eapply logs_ok_same; [..|done]; unfold update_rollout_status; by repeat case_match.
  - eapply logs_ok_same; [..|done]; unfold cancel_rollout, update_rollout_status;
      by repeat case_match.
  - by apply add_span_logs.
  - by apply update_resources_logs.
  - done.
  - eapply logs_ok_same; [apply heartbeat_logs..|done].
  - eapply logs_ok_same; [apply reassign_loop_logs..|done].
  - eapply logs_ok_same; [..|done]; unfold update_attempt_status; by repeat case_match.
Qed.

Lemma reachable_logs s : store_reachable s → logs_ok s.
Proof.
  intros Hs. cut (logs_ok (@store_new Value)).
  - induction Hs as [|s1 s2 s3 (op & Hop & ->) _ IH]; [done|]. intros.
    by apply IH, run_store_op_logs.
  - split; cbn; [intros k l Hl; by rewrite lookup_empty in Hl|done].
Qed.

Lemma next_span_above s rid aid l :
  spans s !! (rid, aid) = Some l → (∀ span, span ∈ l → (sp_sequence_id span < u64_max)%N) →
  ∀ span, span ∈ l → (sp_sequence_id span < get_next_span_sequence_id s rid aid)%N.
Proof.
  intros Hl Hb span Hin. unfold get_next_span_sequence_id. rewrite Hl.
  assert (max_or_zero (sp_sequence_id <$> l) ≤ u64_max - 1)%N as Hmax.
  { apply max_or_zero_le. intros x (y & -> & Hy)%list_elem_of_fmap. specialize (Hb y Hy). lia. }
  rewrite add_u64_small by (unfold in_u64, u64_max in *; lia).
  pose proof (max_or_zero_ge (sp_sequence_id <$> l) (sp_sequence_id span)
    ltac:(by apply list_elem_of_fmap_2)). lia.
Qed.

(** Looking backwards for the latest update finds the last one. *)
Lemma latest_is_last s : logs_ok s → get_latest_resources s = last (resources s).
Proof.
  intros [_ Hres]. unfold get_latest_resources.
  destruct (resources s) as [|u l _] eqn:Hl using rev_ind; [done|].
  rewrite reverse_snoc, last_snoc. cbn.
  destruct (Hres (length l) u) as (_ & _ & ->); [by rewrite lookup_app_r, Nat.sub_diag|].
  rewrite length_app. cbn. by rewrite bool_decide_eq_true_2 by lia.
Qed.

Lemma resources_id_of_inj n m : resources_id_of n = resources_id_of m → n = m.
Proof. intros H. apply (inj show_u64). by apply (inj (String.app "resources-")) in H. Qed.

Lemma find_first {A} (f : A → bool) (l : list A) i x :
  l !! i = Some x → f x = true → (∀ j y, l !! j = Some y → f y = true → j = i) →
  List.find f l = Some x.
Proof.
  revert i. induction l as [|z l IH]; intros [|i] Hi Hx Hu; cbn in *; try done.
  - injection Hi as ->. by rewrite Hx.
  - destruct (f z) eqn:Hz; [by specialize (Hu 0 z eq_refl Hz)|].
    apply (IH i); [done|done|]. intros j y Hj Hy. specialize (Hu (S j) y Hj Hy). lia.
Qed.

(** In every reachable state the spans of a rollout or an attempt are read
    back in sequence order and the next sequence id is above those of the
    attempt; the latest resources are the last update, and a version's id
    retrieves that version. *)
Theorem training_logs s :
  store_reachable s →
  (∀ rid aid order, StronglySorted (key_le sp_sequence_id) (query_spans s rid aid order)) ∧
  (∀ rid aid, let l := query_spans s rid (Some aid) [] in
     (∀ span, span ∈ l → (sp_sequence_id span < u64_max)%N) →
     ∀ span, span ∈ l → span_key span = (rid, aid) ∧
       (sp_sequence_id span < get_next_span_sequence_id s rid aid)%N) ∧
  get_latest_resources s = last (resources s) ∧
  (∀ i u, resources s !! i = Some u →
     get_resources_by_id s (resources_id_of (N.of_nat (S i))) = Some u).
Proof.
  intros Hs. pose proof (reachable_logs s Hs) as Hlogs. pose proof Hlogs as [Hsp Hres].
  split_and!; [| |by apply latest_is_last|].
  - intros rid [aid|] order; cbn; [|apply sort_by_key_sorted].
    destruct (spans s !! (rid, aid)) eqn:Hl; cbn; [by apply (Hsp _ _ Hl)|constructor].
  - intros rid aid. cbn. destruct (spans s !! (rid, aid)) as [l|] eqn:Hl; cbn;
      [|by intros _ span ?%elem_of_nil].
    intros Hb span Hin. destruct (Hsp _ _ Hl) as [_ Hk]. rewrite Forall_forall in Hk.
    split; [auto|]. by eapply next_span_above.
  - intros i u Hu. destruct (Hres i u Hu) as (_ & Hid & _).
    apply (find_first _ _ i); [done|by apply String.eqb_eq|].
    intros j y Hj Hy%String.eqb_eq. destruct (Hres j y Hj) as (_ & Hjd & _).
    rewrite Hjd in Hy. apply resources_id_of_inj in Hy. lia.
Qed.
End logs.

(** ** Concrete executions *)

Definition demo_op_1 : StoreOp := OpEnqueue (rollout_new "r1" tt None).
Definition demo_op_2 : StoreOp (Value := unit) := OpDequeue "w1" 0 0 0.
Definition demo_queued : StoreInner unit := run_store_op store_new demo_op_1.
Definition demo_running : StoreInner unit := run_store_op demo_queued demo_op_2.
Definition demo_returned : StoreInner unit :=
  run_store_op demo_running (OpReassign ["w1"] 10 100).
Definition demo_done : StoreInner unit :=
  run_store_op demo_running (OpUpdateRollout "r1" Succeeded 5).

Lemma demo_room s : map_Forall (λ _ r, (ro_attempt_count r + 1 < u32_mod)%N) (rollouts s) →
  attempts_room (Value := unit) s.
Proof. intros H k r Hr. by apply (H k r). Qed.

Lemma demo_queued_reachable : rtc queue_step store_new demo_queued.
Proof. apply rtc_once. exists demo_op_1. split_and!; [reflexivity|done|reflexivity]. Qed.

Lemma demo_running_step : store_step demo_queued demo_running.
Proof.
  exists demo_op_2. split; [|reflexivity]. apply demo_room.
  apply (bool_decide_unpack _). vm_compute. exact I.
Qed.

Lemma demo_running_reachable : store_reachable demo_running.
Proof.
  eapply rtc_l; [exists demo_op_1; split; reflexivity|].
  apply rtc_once, demo_running_step.
Qed.

Lemma training_reachable_ok_witness :
  store_reachable demo_running ∧ store_ok demo_running ∧
  (at_status <$> attempts demo_running !! "r1:attempt-1") = Some AttemptRunning.
Proof.
  split_and!; [apply demo_running_reachable| |vm_compute; reflexivity].
  apply (training_reachable_ok demo_running), demo_running_reachable.
Defined.

Lemma demo_running_ok : store_ok demo_running.
Proof.
  eapply run_store_op_ok; [eapply run_store_op_ok; [apply store_new_ok|reflexivity]|].
  apply demo_room. apply (bool_decide_unpack _). vm_compute. exact I.
Qed.

Lemma demo_queued_ok : store_ok demo_queued.
Proof. eapply run_store_op_ok; [apply store_new_ok|reflexivity]. Qed.

Lemma demo_done_ok : store_ok demo_done.
Proof. eapply run_store_op_ok; [apply demo_running_ok|exact I]. Qed.

Lemma training_final_statuses_witness :
  store_ok demo_done ∧
  rtc store_step demo_done (run_store_op demo_done (OpCancel "r1" 9)) ∧
  (ro_status <$> rollouts demo_done !! "r1") = Some Succeeded ∧
  ∃ r', rollouts (run_store_op demo_done (OpCancel "r1" 9)) !! "r1" = Some r' ∧
    ro_status r' = Succeeded.
Proof.
  assert (rtc store_step demo_done (run_store_op demo_done (OpCancel "r1" 9))) as Hstep
    by (apply rtc_once; exists (OpCancel "r1" 9); split; [exact I|reflexivity]).
  split_and!; [apply demo_done_ok|exact Hstep|vm_compute; reflexivity|].
  destruct (training_final_statuses _ _ demo_done_ok Hstep) as (_ & Hfin & _).
  destruct (rollouts demo_done !! "r1") as [r|] eqn:Hr; [|vm_compute in Hr; discriminate].
  destruct (Hfin "r1" r Hr) as (r' & Hr' & Hst).
  - left. vm_compute in Hr. injection Hr as <-. reflexivity.
  - exists r'. split; [exact Hr'|]. rewrite Hst. vm_compute in Hr. injection Hr as <-. reflexivity.
Defined.

Lemma dequeue_first_waiting_witness :
  store_ok demo_queued ∧
  (∃ d s', dequeue_rollout demo_queued "w1" 0 0 0 = (s', Ok (Some d)) ∧
     at_id (dq_attempt d) = "r1:attempt-1" ∧ queue s' = []).
Proof.
  split; [apply demo_queued_ok|].
  pose proof (dequeue_first_waiting demo_queued "w1" 0 0 0 demo_queued_ok) as H.
  destruct (dequeue_rollout demo_queued "w1" 0 0 0) as [s' [[d|]|e]] eqn:Hd;
    [|vm_compute in Hd; discriminate|contradiction].
  exists d, s'. split; [reflexivity|].
  vm_compute in Hd. injection Hd as <- <-. split; reflexivity.
Defined.

Lemma waiting_rollouts_served_witness :
  rtc queue_step store_new demo_queued ∧
  ∃ d s', dequeue_rollout demo_queued "w2" 1 2 3 = (s', Ok (Some d)).
Proof.
  split; [apply demo_queued_reachable|].
  apply (waiting_rollouts_served demo_queued "w2" 1 2 3 demo_queued_reachable).
  exists "r1", (rollout_new "r1" tt None). split; vm_compute; reflexivity.
Defined.

Lemma reassign_clears_overdue_witness :
  store_ok demo_running ∧ overdue 10 100 demo_running "w1" "r1" ∧
  reassign_timed_out_rollouts demo_running ["w1"] 10 100 = (demo_returned, Ok ["r1"]) ∧
  requeued_in demo_returned "r1".
Proof.
  assert (reassign_timed_out_rollouts demo_running ["w1"] 10 100 = (demo_returned, Ok ["r1"]))
    as Hrun by (vm_compute; reflexivity).
  assert (overdue 10 100 demo_running "w1" "r1") as Ho
    by (eexists _, _, _; split_and!; vm_compute; reflexivity).
  split_and!; [apply demo_running_ok|exact Ho|exact Hrun|].
  destruct (reassign_clears_overdue 10 100 demo_running ["w1"] demo_returned ["r1"]
    demo_running_ok ltac:(vm_compute; reflexivity) Hrun) as (_ & Hin & _ & Hreq).
  apply Hreq, (Hin "w1" "r1" Ho).
Defined.

Definition demo_resources : StoreInner unit :=
  run_store_op (run_store_op store_new (OpUpdateResources ∅ 1)) (OpUpdateResources ∅ 2).

Lemma training_logs_witness :
  store_reachable demo_resources ∧
  get_latest_resources demo_resources = Some (mkResources "resources-2" 2 ∅ 2%Z true).
Proof.
  assert (store_reachable demo_resources) as Hr.
  { eapply rtc_l; [exists (OpUpdateResources ∅ 1); split; vm_compute; reflexivity|].
    apply rtc_once. exists (OpUpdateResources ∅ 2); split; vm_compute; reflexivity. }
  split; [exact Hr|]. destruct (training_logs demo_resources Hr) as (_ & _ & -> & _).
  vm_compute. reflexivity.
Defined.

(** ** Where the store falls short *)

(** The transition table lets a client mark a failed rollout [Requeuing], and
    the update is accepted, but nothing puts the rollout in the queue: it waits
    to run and is never handed out. *)
Theorem manual_requeue_strands :
  let s1 := run_store_op demo_running (OpUpdateRollout "r1" Failed 5) in
  let '(s2, result) := update_rollout_status s1 "r1" Requeuing 6 in
  result = Ok tt ∧ (ro_status <$> rollouts s2 !! "r1") = Some Requeuing ∧
  (dequeue_rollout s2 "w2" 7 7 7).2 = Ok None.
Proof. vm_compute. split_and!; reflexivity. Qed.

(** Two workers lost: the first one's rollout was cancelled meanwhile.  The
    reassignment reports an error for it and never reaches the second. *)
Definition demo_two_running : StoreInner unit :=
  foldl run_store_op store_new
    [OpEnqueue (rollout_new "r1" tt None); OpEnqueue (rollout_new "r2" tt None);
     OpDequeue "w1" 0 0 0; OpDequeue "w2" 0 0 0; OpCancel "r1" 5].

Theorem reassign_aborts_on_cancelled :
  let '(s', result) := reassign_timed_out_rollouts demo_two_running ["w1"; "w2"] 10 100 in
  result = Err (InvalidRolloutTransition Cancelled Requeuing) ∧
  (ro_status <$> rollouts s' !! "r2") = Some Running ∧ queue s' = [].
Proof. vm_compute. split_and!; reflexivity. Qed.
