(* ===== verification/ChatTypes.v ===== *)
(** * Chat requests, responses and model references ([tau-ai])

    The request and response records and the error type of [types.rs], and the
    provider names and model references of [provider.rs].  A transport error of
    the [reqwest] package is what the code can ask of it: four predicates.  At the
    end, the retry delays of [retry.rs]. *)

From Stdlib Require Import Ascii NArith ZArith Lia.
From stdpp Require Import base strings list.
From S2P Require Import Prelude RustStr Messages.

#[local] Open Scope string_scope.
#[local] Open Scope list_scope.
#[local] Open Scope nat_scope.

(** ** Requests and responses *)

Inductive ToolChoice := ChoiceAuto | ChoiceNone | ChoiceRequired | ChoiceTool (name : string).

Record PromptCacheConfig := mkPromptCache
  { pc_enabled : bool; pc_cache_key : option string; pc_retention : option string;
    pc_google_cached_content : option string }.

Record ChatUsage := mkChatUsage
  { cu_input_tokens : N; cu_output_tokens : N; cu_total_tokens : N; cu_cached_input_tokens : N }.

(** [f32] has the binary32 values among those of [spec_float]. *)
Abbreviation f32 := f64.

Section chat.
Context {Value : Type}.

Record ToolDefinition := mkToolDefinition
  { td_name : string; td_description : string; td_parameters : Value }.

Record ChatRequest := mkRequest
  { rq_model : string; rq_messages : list (Message Value); rq_tools : list ToolDefinition;
    rq_tool_choice : option ToolChoice; rq_json_mode : bool; rq_max_tokens : option N;
    rq_temperature : option f32; rq_prompt_cache : PromptCacheConfig }.

Definition set_model (model : string) (r : ChatRequest) : ChatRequest :=
  mkRequest model (rq_messages r) (rq_tools r) (rq_tool_choice r) (rq_json_mode r)
    (rq_max_tokens r) (rq_temperature r) (rq_prompt_cache r).

Record ChatResponse := mkResponse
  { rp_message : Message Value; rp_finish_reason : option string; rp_usage : ChatUsage }.
End chat.

Arguments ToolDefinition : clear implicits.
Arguments ChatRequest : clear implicits.
Arguments ChatResponse : clear implicits.

(** What [reqwest::Error] answers. *)
Record HttpError := mkHttpError
  { is_timeout : bool; is_connect : bool; is_request : bool; is_body : bool }.

Inductive TauAiError :=
| MissingApiKey
| Http (inner : HttpError)
| HttpStatus (status : N) (body : string)
| Serde (message : string)
| InvalidResponse (message : string).

(** ** Providers and model references *)

Inductive Provider := OpenAi | OpenRouter | Anthropic | Google.

#[export] Instance Provider_eq_dec : EqDecision Provider.
Proof. solve_decision. Defined.

Definition provider_as_str (p : Provider) : string :=
  match p with
  | OpenAi => "openai" | OpenRouter => "openrouter" | Anthropic => "anthropic"
  | Google => "google"
  end.

Inductive ModelRefParseError :=
| MissingModel
| UnsupportedProvider (value : string).

(** [Provider::from_str] *)
Definition provider_from_str (value : string) : Result ModelRefParseError Provider :=
  let normalized := to_ascii_lowercase (trim value) in
  if existsb (String.eqb normalized)
       ["openai"; "deepseek"; "groq"; "xai"; "mistral"; "azure"; "azure-openai"]
  then Ok OpenAi
  else if String.eqb normalized "openrouter" then Ok OpenRouter
  else if String.eqb normalized "anthropic" then Ok Anthropic
  else if existsb (String.eqb normalized) ["google"; "gemini"] then Ok Google
  else Err (UnsupportedProvider value).

Record ModelRef := mkModelRef { mr_provider : Provider; mr_model : string }.

#[export] Instance ModelRef_eq_dec : EqDecision ModelRef.
Proof. solve_decision. Defined.

(** [ModelRef::parse] *)
Definition model_ref_parse (input : string) : Result ModelRefParseError ModelRef :=
  let trimmed := trim input in
  if is_empty trimmed then Err MissingModel
  else match split_once slash trimmed with
       | Some (provider, model) =>
           let model := trim model in
           if is_empty model then Err MissingModel
           else
             provider ← provider_from_str provider;
             Ok (mkModelRef provider model)
       | None => Ok (mkModelRef OpenAi trimmed)
       end.

(** [ClientRoute::model_ref], and how a model reference is displayed *)
Definition model_ref_show (p : Provider) (model : string) : string :=
  provider_as_str p +:+ "/" +:+ model.

Example model_ref_parse_examples :
  model_ref_parse "anthropic/claude-sonnet-4" = Ok (mkModelRef Anthropic "claude-sonnet-4") ∧
  model_ref_parse "gpt-4o-mini" = Ok (mkModelRef OpenAi "gpt-4o-mini") ∧
  model_ref_parse "openrouter/openai/gpt-4o-mini" = Ok (mkModelRef OpenRouter "openai/gpt-4o-mini") ∧
  model_ref_parse " Groq / llama " = Ok (mkModelRef OpenAi "llama").
Proof. by vm_compute. Qed.

(** ** The textual form can be parsed back *)

Lemma trim_solid_prefix l c m :
  never_whitespace c → strip_ws_front (l ++ c :: chars_of m) = None → trim m = m →
  trim (of_chars (l ++ c :: chars_of m)) = of_chars (l ++ c :: chars_of m).
Proof.
  intros Hc Hfront Hm. destruct (trim_id_ends m Hm) as [_ Hback].
  unfold trim. rewrite chars_of_of_chars, (trim_start_chars_id _ Hfront), trim_end_chars_id; [done|].
  rewrite reverse_app, reverse_cons, <- (assoc_L (++)).
  apply first_strip_solid; [|done]. apply Forall_fmap. eapply Forall_impl; [exact Hc|].
  cbn. intros pat. by rewrite elem_of_reverse.
Qed.

(** A model reference survives printing and parsing: for every provider and
    every non-empty model name without outer whitespace, the text
    [provider/model] parses to that provider and model, slashes in the model
    name included. *)
Theorem model_ref_roundtrip (p : Provider) (model : string) :
  trim model = model → model ≠ "" →
  model_ref_parse (model_ref_show p model) = Ok (mkModelRef p model).
Proof.
  intros Htrim Hne. unfold model_ref_parse, model_ref_show.
  set (P := chars_of (provider_as_str p)).
  assert (provider_as_str p +:+ "/" +:+ model = of_chars (P ++ slash :: chars_of model)) as ->.
  { rewrite <- (of_chars_chars_of (_ +:+ _)), !chars_of_app. done. }
  rewrite trim_solid_prefix; [| |by destruct p|done].
  2: { unfold never_whitespace. apply (bool_decide_unpack _). by vm_compute. }
  assert (is_empty (of_chars (P ++ slash :: chars_of model)) = false) as -> by (by destruct p).
  unfold split_once. rewrite chars_of_of_chars, split_once_first.
  2: { apply (bool_decide_unpack _). by destruct p. }
  cbn [fmap option_fmap option_map prod_map fst snd]. rewrite of_chars_chars_of, Htrim.
  assert (is_empty model = false) as -> by (by apply String.eqb_neq).
  unfold P. rewrite of_chars_chars_of. by destruct p.
Qed.

Lemma model_ref_roundtrip_witness :
  trim "openai/gpt-4o" = "openai/gpt-4o" ∧
  model_ref_parse (model_ref_show OpenRouter "openai/gpt-4o") =
    Ok (mkModelRef OpenRouter "openai/gpt-4o").
Proof.
  split; [vm_compute; reflexivity|].
  apply (model_ref_roundtrip OpenRouter "openai/gpt-4o"); [vm_compute; reflexivity|discriminate].
Defined.

(** ** Retry delays

    The exponential backoff with jitter, the [Retry-After] header and the retry
    budget.  The process-wide jitter counter is passed as state.  Parsing an
    HTTP date is [chrono]'s: the milliseconds to the date are an argument. *)

#[local] Open Scope N_scope.

Definition BASE_BACKOFF_MS : N := 200.

(** [should_retry_status] *)
Definition should_retry_status (status : N) : bool :=
  (status =? 408) || (status =? 409) || (status =? 425) || (status =? 429) || (500 <=? status).

Definition next_backoff_ms (attempt : N) : N :=
  let shift := N.min attempt 6 in
  saturating_mul_u64 BASE_BACKOFF_MS (wrap_u64 (N.shiftl 1 shift)).

Definition wrapping_mul_u64 (a b : N) : N := wrap_u64 (a * b).

(** [u64::rotate_left] *)
Definition rotate_left_u64 (x k : N) : N :=
  N.lor (wrap_u64 (N.shiftl x k)) (N.shiftr x (64 - k)).

(** The pseudo-random word drawn from the counter. *)
Definition jitter_word (seed : N) : N :=
  N.lxor (rotate_left_u64 (wrapping_mul_u64 seed 0x9E3779B97F4A7C15) 17) 0xA24BAED4963EE407.

(** Returns the delay and the counter; [fetch_add] wraps around. *)
Definition next_backoff_ms_with_jitter (attempt : N) (jitter_enabled : bool) (counter : N)
    : N * N :=
  let base := next_backoff_ms attempt in
  if negb jitter_enabled || (base <=? 1) then (base, counter)
  else
    let low := base / 2 in
    let width := saturating_sub_u64 base low in
    let mixed := jitter_word counter in
    let jitter := if width =? 0 then 0 else mixed mod saturating_add_u64 width 1 in
    (saturating_add_u64 low jitter, add_u64 counter 1).

Definition provider_retry_delay_ms (attempt : N) (jitter_enabled : bool)
    (retry_after_ms : option N) (counter : N) : N * N :=
  let '(backoff_ms, counter) := next_backoff_ms_with_jitter attempt jitter_enabled counter in
  (match retry_after_ms with
   | Some retry_after_ms => N.max backoff_ms retry_after_ms
   | None => backoff_ms
   end, counter).

(** [header] is the value of [retry-after] if it is printable text, and
    [date_delay] the milliseconds until the HTTP date a text denotes. *)
Definition parse_retry_after_ms (header : option string) (date_delay : string → option Z)
    : option N :=
  raw ← trim <$> header;
  if is_empty raw then None
  else match parse_u64 raw with
       | Some seconds => Some (saturating_mul_u64 seconds 1000)
       | None =>
           delay_ms ← date_delay raw;
           if (delay_ms <=? 0)%Z then Some 0
           else if (delay_ms <=? Z.of_N u64_max)%Z then Some (Z.to_N delay_ms) else None
       end.

Definition retry_budget_allows_delay (elapsed_ms delay_ms retry_budget_ms : N) : bool :=
  if retry_budget_ms =? 0 then true
  else saturating_add_u64 elapsed_ms delay_ms <=? retry_budget_ms.

Definition is_retryable_http_error (error : HttpError) : bool :=
  is_timeout error || is_connect error || is_request error || is_body error.

(** ** Bounds *)

(** The backoff doubles from the base and stops at 64 times the base. *)
Lemma next_backoff_ms_value attempt : next_backoff_ms attempt = 200 * 2 ^ N.min attempt 6.
Proof.
  unfold next_backoff_ms, saturating_mul_u64, BASE_BACKOFF_MS. rewrite N.shiftl_1_l.
  assert (2 ^ N.min attempt 6 ≤ 2 ^ 6) by (apply N.pow_le_mono_r; lia).
  rewrite wrap_u64_small by (unfold in_u64, u64_max; lia). unfold u64_max. lia.
Qed.

Lemma next_backoff_ms_bounds attempt : 200 ≤ next_backoff_ms attempt ≤ 12800.
Proof.
  rewrite next_backoff_ms_value.
  assert (2 ^ 0 ≤ 2 ^ N.min attempt 6 ≤ 2 ^ 6) by (split; apply N.pow_le_mono_r; lia).
  lia.
Qed.

Lemma backoff_jitter_bounds attempt jitter counter :
  let base := next_backoff_ms attempt in
  base / 2 ≤ (next_backoff_ms_with_jitter attempt jitter counter).1 ≤ base.
Proof.
  cbn. pose proof (next_backoff_ms_bounds attempt) as Hb.
  unfold next_backoff_ms_with_jitter. set (base := next_backoff_ms attempt) in *.
  assert (base / 2 ≤ base) as Hq by (apply N.Div0.div_le_upper_bound; lia).
  set (low := base / 2) in *. clearbody low base.
  destruct (negb jitter || (base <=? 1)); cbn; [lia|].
  unfold saturating_add_u64, saturating_sub_u64, u64_max.
  destruct (N.eqb_spec (base - low) 0); [lia|].
  replace (N.min (base - low + 1) 18446744073709551615) with (base - low + 1) by lia.
  pose proof (N.mod_lt (jitter_word counter) (base - low + 1) ltac:(lia)) as Hm.
  set (jit := jitter_word counter mod _) in *. clearbody jit. lia.
Qed.

(** The delay before a provider retry is bounded: without a server hint it
    lies between half and all of the exponential backoff, which is at least
    200 ms, doubles per attempt and never exceeds 12.8 s, jitter included; a
    server hint is a lower bound and nothing is added to it. *)
Theorem retry_delay_bounds (attempt counter : N) (jitter : bool) (hint : option N) :
  let base := 200 * 2 ^ N.min attempt 6 in
  let delay := (provider_retry_delay_ms attempt jitter hint counter).1 in
  base ≤ 12800 ∧ (jitter = false → hint = None → delay = base) ∧
  N.max (base / 2) (default 0 hint) ≤ delay ≤ N.max base (default 0 hint).
Proof.
  cbn zeta. rewrite <- next_backoff_ms_value. pose proof (next_backoff_ms_bounds attempt) as Hb.
  pose proof (backoff_jitter_bounds attempt jitter counter) as Hj. cbn zeta in Hj.
  unfold provider_retry_delay_ms.
  assert (jitter = false → (next_backoff_ms_with_jitter attempt jitter counter).1 =
    next_backoff_ms attempt) as Hexact by (by intros ->).
  destruct (next_backoff_ms_with_jitter attempt jitter counter) as [d c]. cbn in *.
  split_and!; [lia|by intros ? ->; auto|destruct hint; cbn; lia|destruct hint; cbn; lia].
Qed.

Example retry_delay_examples :
  (provider_retry_delay_ms 9 false (Some 500) 1).1 = 12800 ∧
  parse_retry_after_ms (Some " 3 "%string) (λ _, None) = Some 3000 ∧
  retry_budget_allows_delay 900 200 1000 = false.
Proof. by vm_compute. Qed.
