(* ===== verification/Fallback.v ===== *)
(** * Provider fallback with circuit breakers ([tau-provider], [fallback.rs])

    [FallbackRoutingClient]: a request is tried on the configured routes in
    order, a route whose circuit is open is skipped, a retryable failure moves
    on to the next route.  The circuit states are shared by all requests in
    flight behind a mutex, and a provider call is an await point: other tasks
    may change the circuits while it runs.  The environment of a request is the
    class [Providers]: the clock, and a provider call with its effect on the
    outside world and the circuits. *)

From Stdlib Require Import NArith Lia.
From stdpp Require Import base gmap strings list.
From S2P Require Import Prelude RustStr Messages ChatTypes.

#[local] Open Scope string_scope.
#[local] Open Scope list_scope.
#[local] Open Scope nat_scope.

Record CircuitBreakerConfig := mkBreaker
  { cb_enabled : bool; cb_failure_threshold : N; cb_cooldown_ms : N }.

Definition circuit_breaker_default : CircuitBreakerConfig := mkBreaker true 3 30000.

Record RouteCircuitState := mkCircuit
  { consecutive_failures : N; open_until_unix_ms : option N }.

Definition circuit_default : RouteCircuitState := mkCircuit 0 None.

(** ** Errors *)

Definition is_retryable_status (status : N) : bool :=
  ((status =? 408) || (status =? 409) || (status =? 425) || (status =? 429) || (500 <=? status))%N.

Definition is_retryable_provider_error (error : TauAiError) : bool :=
  match error with
  | HttpStatus status _ => is_retryable_status status
  | Http inner => is_timeout inner || is_connect inner || is_request inner || is_body inner
  | _ => false
  end.

Definition fallback_error_metadata (error : TauAiError) : string * option N :=
  match error with
  | HttpStatus status _ => ("http_status", Some status)
  | Http inner =>
      if is_timeout inner then ("http_timeout", None)
      else if is_connect inner then ("http_connect", None)
      else if is_request inner then ("http_request", None)
      else if is_body inner then ("http_body", None)
      else ("http_other", None)
  | MissingApiKey => ("missing_api_key", None)
  | Serde _ => ("serde", None)
  | InvalidResponse _ => ("invalid_response", None)
  end.

(** ** The circuit breaker of one route *)

Section breaker.
Context (config : CircuitBreakerConfig).
Implicit Types c : RouteCircuitState.

Definition threshold : N := N.max (cb_failure_threshold config) 1.

(** The probe of [route_open_until] on the route's state. *)
Definition probe c (now : N) : RouteCircuitState * option N :=
  if cb_enabled config then
    match open_until_unix_ms c with
    | Some open_until =>
        if (now <? open_until)%N then (c, Some open_until) else (mkCircuit 0 None, None)
    | None => (c, None)
    end
  else (c, None).

(** [record_route_success] on the route's state; also when disabled. *)
Definition record_success c : RouteCircuitState := mkCircuit 0 None.

(** [record_retryable_route_failure] on the route's state. *)
Definition record_failure c (now : N) : RouteCircuitState * option N :=
  if cb_enabled config then
    let failures := saturating_add_u64 (consecutive_failures c) 1 in
    if (failures <? threshold)%N then (mkCircuit failures (open_until_unix_ms c), None)
    else
      let open_until := saturating_add_u64 now (cb_cooldown_ms config) in
      (mkCircuit 0 (Some open_until), Some open_until)
  else (c, None).
End breaker.

(** ** Routing *)

Section routing.
Context {Value Client : Type}.

Record ClientRoute := mkRoute
  { route_provider : Provider; route_model : string; route_client : Client }.

Definition model_ref (r : ClientRoute) : string := model_ref_show (route_provider r) (route_model r).

Inductive FallbackEvent :=
| ProviderFallback (from_model to_model error_kind : string) (status : option N) (index : nat)
| CircuitOpened (model : string) (index : nat) (failure_threshold cooldown_ms open_until : N)
| CircuitSkip (model : string) (index : nat) (open_until : N).

(** The router: its configuration, and the shared circuit states and emitted
    events. *)
Record FallbackRoutingClient := mkRouter
  { fr_routes : list ClientRoute; fr_event_sink : bool; fr_breaker : CircuitBreakerConfig }.

Record RouterState := mkRouterState
  { circuits : list RouteCircuitState; events : list FallbackEvent }.

(** [new_with_clock] *)
Definition router_init (routes : list ClientRoute) : RouterState :=
  mkRouterState (replicate (length routes) circuit_default) [].

Context (router : FallbackRoutingClient).
Implicit Types st : RouterState.

Definition set_circuit (i : nat) (c : RouteCircuitState) st : RouterState :=
  mkRouterState (<[i := c]> (circuits st)) (events st).

(** An event goes to the sink, if there is one. *)
Definition emit (e : FallbackEvent) st : RouterState :=
  if fr_event_sink router then mkRouterState (circuits st) (events st ++ [e]) else st.

Definition route_open_until st (i : nat) (now : N) : RouterState * option N :=
  match circuits st !! i with
  | Some c => let '(c, open_until) := probe (fr_breaker router) c now in (set_circuit i c st, open_until)
  | None => (st, None)
  end.

Definition record_route_success st (i : nat) : RouterState :=
  match circuits st !! i with
  | Some c => set_circuit i (record_success c) st
  | None => st
  end.

Definition record_retryable_route_failure st (i : nat) (now : N) : RouterState * option N :=
  match circuits st !! i with
  | Some c =>
      let '(c, opened) := record_failure (fr_breaker router) c now in (set_circuit i c st, opened)
  | None => (st, None)
  end.

(** The environment of a request: the time, and a provider call.  The call
    returns what it leaves of the world and of the circuits, which other
    requests use meanwhile. *)
Class Providers (World : Type) :=
  { clock : World → N;
    complete : World → list RouteCircuitState → Client → ChatRequest Value → bool →
      World * list RouteCircuitState * Result TauAiError (ChatResponse Value) }.

Context {World : Type} `{!Providers World}.

Definition no_routes : TauAiError := InvalidResponse "no provider routes configured".
Definition all_open : TauAiError :=
  InvalidResponse "all provider routes are temporarily unavailable (circuit breaker open)".
Definition exhausted : TauAiError :=
  InvalidResponse "provider fallback chain exhausted unexpectedly".

(** What follows a retryable failure: the failure is recorded, with the time
    read before the call. *)
Definition note_failure st (i : nat) (route : ClientRoute) (now : N) : RouterState :=
  let '(st, opened) := record_retryable_route_failure st i now in
  match opened with
  | Some open_until =>
      emit (CircuitOpened (model_ref route) i (cb_failure_threshold (fr_breaker router))
        (cb_cooldown_ms (fr_breaker router)) open_until) st
  | None => st
  end.

(** The loop of [complete_inner] from route [i] on. *)
Fixpoint complete_loop (routes : list ClientRoute) (i : nat) (w : World) st
    (request : ChatRequest Value) (stream attempted : bool)
    : World * RouterState * Result TauAiError (ChatResponse Value) :=
  match routes with
  | [] => (w, st, Err (if attempted then exhausted else all_open))
  | route :: rest =>
      let now := clock w in
      match route_open_until st i now with
      | (st, Some open_until) =>
          let st := emit (CircuitSkip (model_ref route) i open_until) st in
          complete_loop rest (S i) w st request stream attempted
      | (st, None) =>
          let routed := set_model (route_model route) request in
          let '(w, cs, response) := complete w (circuits st) (route_client route) routed stream in
          let st := mkRouterState cs (events st) in
          match response with
          | Ok response => (w, record_route_success st i, Ok response)
          | Err error =>
              if is_retryable_provider_error error then
                let st := note_failure st i route now in
                match rest with
                | next :: _ =>
                    let '(kind, status) := fallback_error_metadata error in
                    let st := emit
                      (ProviderFallback (model_ref route) (model_ref next) kind status (S i)) st in
                    complete_loop rest (S i) w st request stream true
                | [] => (w, st, Err error)
                end
              else (w, st, Err error)
          end
      end
  end.

Definition complete_inner (w : World) st (request : ChatRequest Value) (stream : bool)
    : World * RouterState * Result TauAiError (ChatResponse Value) :=
  match fr_routes router with
  | [] => (w, st, Err no_routes)
  | routes => complete_loop routes 0 w st request stream false
  end.
End routing.

Arguments ClientRoute : clear implicits.
Arguments FallbackRoutingClient : clear implicits.
Arguments Providers : clear implicits.

(** ** Which fallback models are used *)

(** [resolve_fallback_models]: the configured models in order, without the
    primary and without repetitions. *)
Fixpoint resolve_loop (primary : ModelRef) (raws : list string) (resolved : list ModelRef)
    : Result (string * ModelRefParseError) (list ModelRef) :=
  match raws with
  | [] => Ok resolved
  | raw :: rest =>
      match model_ref_parse raw with
      | Err e => Err (raw, e)
      | Ok parsed =>
          if decide (mr_provider parsed = mr_provider primary ∧ mr_model parsed = mr_model primary)
          then resolve_loop primary rest resolved
          else if existsb (λ existing, bool_decide (mr_provider existing = mr_provider parsed) &&
                 String.eqb (mr_model existing) (mr_model parsed)) resolved
          then resolve_loop primary rest resolved
          else resolve_loop primary rest (resolved ++ [parsed])
      end
  end.

Definition resolve_fallback_models (fallback_model : list string) (primary : ModelRef)
    : Result (string * ModelRefParseError) (list ModelRef) :=
  resolve_loop primary fallback_model [].
