(* ===== verification/FallbackTheorems.v ===== *)
(** * Theorems on provider fallback and circuit breaking

    What answer a request gets from the route order and the open circuits, when
    a circuit opens in any interleaving of requests, and two places where the
    code falls short of what it means to do. *)

From Stdlib Require Import NArith Lia.
From stdpp Require Import base gmap strings list.
From S2P Require Import Prelude RustStr Messages ChatTypes Fallback.

#[local] Open Scope string_scope.
#[local] Open Scope list_scope.
#[local] Open Scope nat_scope.

(** ** The answer of a request *)

Section answers.
Context {Value Client : Type} (router : FallbackRoutingClient Client).
(** Providers that answer each request in one way, at a fixed time. *)
Context (now : N) (answer : Client → ChatRequest Value → Result TauAiError (ChatResponse Value)).

Definition static_providers : Providers Value Client unit :=
  {| clock := λ _, now; complete := λ _ cs client request _, (tt, cs, answer client request) |}.
#[local] Existing Instance static_providers.

Implicit Types (st : RouterState) (routes : list (ClientRoute Client)).

Definition route_answer (request : ChatRequest Value) (r : ClientRoute Client)
    : Result TauAiError (ChatResponse Value) :=
  answer (route_client r) (set_model (route_model r) request).

(** A success or an error that another route would not cure. *)
Definition decisive (ans : Result TauAiError (ChatResponse Value)) : bool :=
  match ans with Ok _ => true | Err e => negb (is_retryable_provider_error e) end.

Definition closed st (i : nat) : bool :=
  bool_decide ((route_open_until router st i now).2 = None).

(** The answers of the routes from [i] on whose circuits are closed. *)
Fixpoint answers_from st (request : ChatRequest Value) (i : nat) routes
    : list (Result TauAiError (ChatResponse Value)) :=
  match routes with
  | [] => []
  | r :: rest =>
      (if closed st i then [route_answer request r] else []) ++ answers_from st request (S i) rest
  end.

(** The specification: the first decisive answer; without one, the last
    route's error if the last route was tried. *)
Definition fallback_answer st (request : ChatRequest Value) routes
    : Result TauAiError (ChatResponse Value) :=
  let answers := answers_from st request 0 routes in
  match List.find decisive answers, last answers with
  | Some ans, _ => ans
  | None, None => Err all_open
  | None, Some ans => if closed st (length routes - 1) then ans else Err exhausted
  end.

(** Two states have the same circuits from route [i] on. *)
Definition same_from (i : nat) st st' : Prop :=
  ∀ j, i ≤ j → circuits st !! j = circuits st' !! j.

Lemma emit_circuits e st : circuits (emit router e st) = circuits st.
Proof. unfold emit. by case_match. Qed.

Lemma set_circuit_from i c st : same_from (S i) (set_circuit i c st) st.
Proof. intros j Hj. cbn. by rewrite list_lookup_insert_ne by lia. Qed.

Lemma same_from_trans i st1 st2 st3 : same_from i st1 st2 → same_from i st2 st3 → same_from i st1 st3.
Proof. intros H1 H2 j Hj. by rewrite H1, H2. Qed.

Lemma same_from_weaken i st st' : same_from i st st' → same_from (S i) st st'.
Proof. intros H j Hj. apply H. lia. Qed.

Lemma probe_from i st t : same_from (S i) (route_open_until router st i t).1 st.
Proof.
  unfold route_open_until. case_match; [|done]. destruct (probe _ _ _). apply set_circuit_from.
Qed.

Lemma note_failure_from i st r t : same_from (S i) (note_failure router st i r t) st.
Proof.
  unfold note_failure, record_retryable_route_failure.
  destruct (circuits st !! i) as [c|]; [|done].
  destruct (record_failure (fr_breaker router) c t) as [c' [u|]]; [|apply set_circuit_from].
  intros j Hj. rewrite emit_circuits. by apply set_circuit_from.
Qed.

Lemma closed_same i j st st' : same_from i st st' → i ≤ j → closed st j = closed st' j.
Proof.
  intros H Hj. unfold closed, route_open_until. rewrite (H j Hj).
  destruct (circuits st' !! j) as [c|]; [|done].
  by destruct (probe (fr_breaker router) c now).
Qed.

(** What the loop answers, from the routes left and whether one was tried. *)
Definition loop_answer (st : RouterState) request (i : nat) routes (attempted : bool) :=
  let answers := answers_from st request i routes in
  match List.find decisive answers, last answers with
  | Some ans, _ => ans
  | None, None => Err (if attempted then exhausted else all_open)
  | None, Some ans => if closed st (i + length routes - 1) then ans else Err exhausted
  end.

Lemma loop_answer_skip st request i r routes attempted :
  closed st i = false →
  loop_answer st request i (r :: routes) attempted = loop_answer st request (S i) routes attempted.
Proof.
  intros Hc. unfold loop_answer. cbn. rewrite Hc. cbn.
  replace (i + S (length routes) - 1) with (S (i + length routes) - 1) by lia. done.
Qed.

Lemma loop_answer_retry st request i r routes attempted e :
  closed st i = true → route_answer request r = Err e → is_retryable_provider_error e = true →
  routes ≠ [] →
  loop_answer st request i (r :: routes) attempted = loop_answer st request (S i) routes true.
Proof.
  intros Hc Ha He Hne. unfold loop_answer. cbn. rewrite Hc, Ha. cbn. rewrite He. cbn.
  replace (i + S (length routes) - 1) with (i + length routes) by lia.
  rewrite Nat.sub_0_r. remember (i + length routes) as k eqn:Hk.
  destruct (answers_from st request (S i) routes) as [|x l] eqn:Hl.
  2: { change (last (Err e :: x :: l)) with (last (x :: l)).
       destruct (last (x :: l)) eqn:Hlast; [done|]. by apply last_None in Hlast. }
  cbn.
  destruct routes as [|r' routes] using rev_ind; [done|].
  assert (closed st k = false) as ->; [|done].
  rewrite length_app in Hk. cbn in Hk. replace k with (S i + length routes) by lia.
  clear -Hl. revert i Hl. induction routes as [|r0 routes IH]; intros i; cbn.
  - rewrite Nat.add_0_r. by destruct (closed st (S i)).
  - destruct (closed st (S i)); [done|]. cbn. intros Hl. specialize (IH (S i) Hl).
    by rewrite <- plus_n_Sm.
Qed.

Lemma loop_answer_same st st' request i routes attempted :
  same_from i st st' → loop_answer st request i routes attempted = loop_answer st' request i routes attempted.
Proof.
  intros Hs. assert (∀ j, i ≤ j → answers_from st request j routes = answers_from st' request j routes) as Ha.
  { intros j Hj. revert j Hj. induction routes as [|r routes IH]; intros j Hj; cbn; [done|].
    rewrite (closed_same i j st st') by done. rewrite IH by lia. done. }
  unfold loop_answer. rewrite Ha by done.
  destruct routes as [|r routes]; [done|].
  by rewrite (closed_same i (i + length (r :: routes) - 1) st st') by (done || cbn; lia).
Qed.

Lemma complete_loop_answer routes i st request stream attempted :
  (complete_loop router routes i tt st request stream attempted).2 =
    loop_answer st request i routes attempted.
Proof.
  revert i st attempted. induction routes as [|r routes IH]; intros i st attempted; [done|].
  cbn [complete_loop]. change (clock tt) with now.
  destruct (route_open_until router st i now) as [st1 [u|]] eqn:Hp.
  - rewrite IH, loop_answer_skip by (unfold closed; by rewrite Hp).
    apply loop_answer_same. intros j Hj. rewrite emit_circuits.
    pose proof (probe_from i st now j Hj) as Heq. by rewrite Hp in Heq.
  - assert (closed st i = true) as Hc by (unfold closed; by rewrite Hp).
    cbn. fold (route_answer request r). destruct (route_answer request r) as [x|e] eqn:Ha.
    { unfold loop_answer. cbn. by rewrite Hc, Ha. }
    destruct (is_retryable_provider_error e) eqn:He.
    2: { unfold loop_answer. cbn. rewrite Hc, Ha. cbn. by rewrite He. }
    destruct routes as [|r' routes].
    { unfold loop_answer. cbn. rewrite Hc, Ha. cbn. rewrite He. cbn.
      by rewrite Nat.add_1_r, Nat.sub_succ, Nat.sub_0_r, Hc. }
    destruct (fallback_error_metadata e) as [kind status]. rewrite IH.
    rewrite (loop_answer_retry st request i r (r' :: routes) attempted e) by done.
    apply loop_answer_same. intros j Hj. rewrite emit_circuits, note_failure_from by done. cbn.
    pose proof (probe_from i st now j Hj) as Heq. by rewrite Hp in Heq.
Qed.

(** a request gets the first decisive answer among the routes with closed
    circuits, in order: a success or an error no other route would cure.  With
    none, the last route's error when the last route was tried; with every
    circuit open, the error saying so. *)
Theorem fallback_first_decisive st request stream :
  fr_routes router ≠ [] →
  (complete_inner router tt st request stream).2 = fallback_answer st request (fr_routes router).
Proof.
  intros Hne. unfold complete_inner, fallback_answer.
  destruct (fr_routes router) as [|r routes] eqn:Hr; [done|].
  rewrite complete_loop_answer. unfold loop_answer. by rewrite Nat.add_0_l.
Qed.
End answers.

(** ** When a circuit opens *)

Section circuit.
Context (config : CircuitBreakerConfig).
Implicit Types (c : RouteCircuitState).

(** What requests do to a route's circuit, each under the mutex: any
    interleaving of requests is a sequence of these. *)
Inductive CircuitOp :=
| Probed (now : N)
| CallSucceeded
| CallFailed (now : N).

Definition circuit_op c (op : CircuitOp) : RouteCircuitState :=
  match op with
  | Probed now => (probe config c now).1
  | CallSucceeded => record_success c
  | CallFailed now => (record_failure config c now).1
  end.

Definition circuit_after (ops : list CircuitOp) : RouteCircuitState :=
  foldl circuit_op circuit_default ops.

Definition is_failure (op : CircuitOp) : bool :=
  match op with CallFailed _ => true | _ => false end.
Definition failure_count (ops : list CircuitOp) : nat := length (List.filter is_failure ops).

Context (Hon : cb_enabled config = true) (Hu64 : in_u64 (cb_failure_threshold config)).

(** The last operations hold [n] failures and no success. *)
Definition failing_suffix (ops : list CircuitOp) (n : nat) : Prop :=
  ∃ pre suf, ops = pre ++ suf ∧ (CallSucceeded ∉ suf) ∧ failure_count suf = n.

(** The operations hold a failure at [t] that was at least the [n]-th in a row
    with no success before or since. *)
Definition failed_in_a_row (ops : list CircuitOp) (n : nat) (t : N) : Prop :=
  ∃ pre mid post, ops = pre ++ mid ++ CallFailed t :: post ∧
    (CallSucceeded ∉ mid ++ post) ∧ S (failure_count mid) = n.

Lemma failure_count_app l k : failure_count (l ++ k) = failure_count l + failure_count k.
Proof. unfold failure_count. by rewrite List.filter_app, length_app. Qed.

Lemma failing_suffix_snoc ops n op :
  failing_suffix ops n → op ≠ CallSucceeded →
  failing_suffix (ops ++ [op]) (n + (if is_failure op then 1 else 0)).
Proof.
  intros (pre & suf & -> & Hs & <-) Hop. exists pre, (suf ++ [op]). split_and!.
  - by rewrite (assoc_L (++)).
  - rewrite elem_of_app, list_elem_of_singleton. naive_solver.
  - rewrite failure_count_app. by destruct op.
Qed.

Lemma failing_suffix_0 ops : failing_suffix ops 0.
Proof. exists ops, []. split_and!; [by rewrite app_nil_r|by apply not_elem_of_nil|done]. Qed.

Lemma failed_in_a_row_snoc ops n t op :
  failed_in_a_row ops n t → op ≠ CallSucceeded → failed_in_a_row (ops ++ [op]) n t.
Proof.
  intros (pre & mid & post & -> & Hs & Hn) Hop. exists pre, mid, (post ++ [op]). split_and!.
  - rewrite <- !(assoc_L (++)). cbn. done.
  - rewrite (assoc_L (++)), elem_of_app, list_elem_of_singleton. naive_solver.
  - done.
Qed.

Lemma threshold_pos : (1 ≤ threshold config ≤ u64_max)%N.
Proof. unfold threshold. unfold in_u64, u64_max in *. lia. Qed.

(** What the state of a circuit says about its past. *)
Definition circuit_history (ops : list CircuitOp) c : Prop :=
  (consecutive_failures c < threshold config)%N ∧
  failing_suffix ops (N.to_nat (consecutive_failures c)) ∧
  ∀ u, open_until_unix_ms c = Some u → ∃ t,
    u = saturating_add_u64 t (cb_cooldown_ms config) ∧
    failed_in_a_row ops (N.to_nat (threshold config)) t.

Lemma circuit_history_failure ops c now :
  circuit_history ops c → circuit_history (ops ++ [CallFailed now]) (record_failure config c now).1.
Proof.
  intros (Hlt & Hsuf & Hopen). pose proof threshold_pos. unfold record_failure. rewrite Hon.
  assert (saturating_add_u64 (consecutive_failures c) 1 = consecutive_failures c + 1)%N as ->
    by (unfold saturating_add_u64; lia).
  pose proof (failing_suffix_snoc _ _ (CallFailed now) Hsuf ltac:(done)) as Hsuf'. cbn in Hsuf'.
  destruct (N.ltb_spec (consecutive_failures c + 1) (threshold config)) as [Hl|Hge].
  - split_and!; cbn; [done|by rewrite N2Nat.inj_add|].
    intros u Hu. destruct (Hopen u Hu) as (t & ? & ?). exists t. split; [done|].
    by apply failed_in_a_row_snoc.
  - split_and!; cbn; [lia|apply failing_suffix_0|]. intros u [= <-]. exists now. split; [done|].
    destruct Hsuf as (pre & suf & -> & Hs & Hn). exists pre, suf, []. split_and!.
    + by rewrite (assoc_L (++)).
    + by rewrite app_nil_r.
    + lia.
Qed.

Lemma circuit_history_after ops : circuit_history ops (circuit_after ops).
Proof.
  induction ops as [|op ops IH] using rev_ind.
  { pose proof threshold_pos. split_and!; cbn; [lia|apply failing_suffix_0|done]. }
  unfold circuit_after in *. rewrite foldl_app. cbn. destruct op as [now| |now]; cbn.
  - unfold probe. rewrite Hon. pose proof threshold_pos.
    assert (circuit_history (ops ++ [Probed now]) (foldl circuit_op circuit_default ops)) as Hkeep.
    { destruct IH as (Hlt & Hsuf & Hopen). split_and!; [done| |].
      - pose proof (failing_suffix_snoc _ _ (Probed now) Hsuf ltac:(done)) as H'.
        by rewrite Nat.add_0_r in H'.
      - intros u Hu. destruct (Hopen u Hu) as (t & ? & ?). exists t. split; [done|].
        by apply failed_in_a_row_snoc. }
    destruct (open_until_unix_ms _) as [u|]; [|done]. case_match; [done|].
    split_and!; cbn; [lia|apply failing_suffix_0|done].
  - pose proof threshold_pos. split_and!; cbn; [lia|apply failing_suffix_0|done].
  - by apply circuit_history_failure.
Qed.

(** Failures in a row open the circuit, or count up. *)
Lemma failures_open_or_count ops nows :
  let c := circuit_after (ops ++ (CallFailed <$> nows)) in
  is_Some (open_until_unix_ms c) ∨ (N.of_nat (length nows) ≤ consecutive_failures c)%N.
Proof.
  induction nows as [|now nows IH] using rev_ind; [right; cbn; lia|].
  cbn. rewrite fmap_app, (assoc_L (++)). unfold circuit_after in *. rewrite foldl_app. cbn.
  set (c := foldl circuit_op circuit_default (ops ++ (CallFailed <$> nows))) in *.
  unfold record_failure. rewrite Hon. case_match; cbn; [|left; by eexists].
  destruct IH as [IH|IH]; [by left|right]. rewrite length_app. cbn.
  pose proof (proj1 (circuit_history_after (ops ++ (CallFailed <$> nows)))) as Hlt.
  fold (circuit_after (ops ++ (CallFailed <$> nows))) in c. pose proof threshold_pos.
  unfold saturating_add_u64. subst c. unfold circuit_after in *. lia.
Qed.

(** A circuit opens after exactly the configured number of retryable
    failures in a row, in any interleaving of requests: when it is open, its
    route failed that many times with no success in between or since, and the
    opening lasts the cooldown from the last of these failures' start; and that
    many failures in a row always open it. *)
Theorem circuit_opens_at_threshold ops :
  (∀ u, open_until_unix_ms (circuit_after ops) = Some u →
     ∃ t, u = saturating_add_u64 t (cb_cooldown_ms config) ∧
       failed_in_a_row ops (N.to_nat (threshold config)) t) ∧
  (∀ nows, length nows = N.to_nat (threshold config) →
     is_Some (open_until_unix_ms (circuit_after (ops ++ (CallFailed <$> nows))))).
Proof.
  split; [apply circuit_history_after|]. intros nows Hn.
  destruct (failures_open_or_count ops nows) as [|Hc]; [done|].
  pose proof (proj1 (circuit_history_after (ops ++ (CallFailed <$> nows)))). lia.
Qed.
End circuit.

(** ** Witnesses *)

Definition demo_request : ChatRequest unit :=
  mkRequest "m" [] [] None false None None (mkPromptCache false None None None).
Definition demo_response : ChatResponse unit :=
  mkResponse (assistant_text "hi") None (mkChatUsage 0 0 0 0).

(** Client 0 is overloaded, client 1 answers. *)
Definition demo_answer (client : nat) (_ : ChatRequest unit)
    : Result TauAiError (ChatResponse unit) :=
  match client with O => Err (HttpStatus 503 "overloaded") | _ => Ok demo_response end.

Definition demo_router (clients : list nat) : FallbackRoutingClient nat :=
  mkRouter ((λ n, mkRoute OpenAi "m" n) <$> clients) true circuit_breaker_default.

Lemma fallback_first_decisive_witness :
  fr_routes (demo_router [0; 1]) ≠ [] ∧
  (complete_inner (demo_router [0; 1]) (Providers0 := static_providers 1000 demo_answer) tt
    (router_init (fr_routes (demo_router [0; 1]))) demo_request false).2 = Ok demo_response.
Proof.
  split; [discriminate|].
  rewrite (fallback_first_decisive (demo_router [0; 1]) 1000 demo_answer
    (router_init (fr_routes (demo_router [0; 1]))) demo_request false ltac:(discriminate)).
  vm_compute. reflexivity.
Defined.

Lemma circuit_opens_at_threshold_witness :
  cb_enabled circuit_breaker_default = true ∧
  is_Some (open_until_unix_ms (circuit_after circuit_breaker_default
    [CallFailed 5; CallSucceeded; CallFailed 10; CallFailed 20; CallFailed 30])).
Proof.
  split; [reflexivity|].
  apply (proj2 (circuit_opens_at_threshold circuit_breaker_default eq_refl
    ltac:(vm_compute; discriminate) [CallFailed 5; CallSucceeded]) [10; 20; 30]%N).
  reflexivity.
Defined.

(** ** Where the router falls short *)

(** The opening is counted from the start of the failing call.  A call that
    takes as long as the cooldown to fail, such as a timeout, opens the circuit
    for a time already over: the next request tries the route again at once. *)
Theorem slow_failure_not_skipped config c start finish u :
  (record_failure config c start).2 = Some u →
  (start + cb_cooldown_ms config ≤ finish)%N →
  (probe config (record_failure config c start).1 finish).2 = None.
Proof.
  unfold record_failure, probe. destruct (cb_enabled config) eqn:He; [|done].
  case_match; cbn; [done|]. intros _ Hle.
  unfold saturating_add_u64. by rewrite (proj2 (N.ltb_ge _ _)) by lia.
Qed.

(** When the last route's circuit is open, the error of the route that was
    tried is replaced by one that blames the fallback chain. *)
Theorem open_last_route_masks_error :
  let router := demo_router [0; 1] in
  let st := mkRouterState [circuit_default; mkCircuit 0 (Some 5000%N)] [] in
  (complete_inner router (Providers0 := static_providers 1000 demo_answer) tt st demo_request false).2 =
    Err exhausted.
Proof. vm_compute. reflexivity. Qed.
