(* ===== verification/Effects.v ===== *)
(** * Computations on a state that may fail

    The methods of the agent take [&mut self] and return a [Result]: the state
    they leave behind remains when they fail.  [Eff S E A] is such a computation;
    [?] is its bind.  The lemmas below carry a relation between the states before
    and after, or an invariant, through composed computations. *)

From stdpp Require Import base list.
From S2P Require Import Prelude.

Definition Eff (S E A : Type) : Type := S → Result E A * S.

#[export] Instance eff_ret {S E} : MRet (Eff S E) := λ A a s, (Ok a, s).
#[export] Instance eff_bind {S E} : MBind (Eff S E) := λ A B f m s,
  match m s with
  | (Ok a, s') => f a s'
  | (Err e, s') => (Err e, s')
  end.

Definition fail {S E A} (e : E) : Eff S E A := λ s, (Err e, s).
Definition gets {S E A} (f : S → A) : Eff S E A := λ s, (Ok (f s), s).
Definition modify {S E} (f : S → S) : Eff S E unit := λ s, (Ok tt, f s).
Definition of_result {S E A} (r : Result E A) : Eff S E A := λ s, (r, s).
(** [if c { return Err(e) }] *)
Definition fail_if {S E} (c : bool) (e : E) : Eff S E unit := of_result (bail_if c e).
(** [if c { m }] *)
Definition when {S E} (c : bool) (m : Eff S E unit) : Eff S E unit := if c then m else mret tt.

Fixpoint each {S E A} (f : A → Eff S E unit) (l : list A) : Eff S E unit :=
  match l with
  | [] => mret tt
  | x :: l' => _ ← f x; each f l'
  end.

Arguments Eff : simpl never.

Lemma eff_bind_unfold {S E A B} (m : Eff S E A) (f : A → Eff S E B) s :
  (m ≫= f) s = match m s with (Ok a, s') => f a s' | (Err e, s') => (Err e, s') end.
Proof. done. Qed.

Lemma eff_bind_Ok {S E A B} (m : Eff S E A) (f : A → Eff S E B) s b s' :
  (m ≫= f) s = (Ok b, s') → ∃ a s1, m s = (Ok a, s1) ∧ f a s1 = (Ok b, s').
Proof. rewrite eff_bind_unfold. destruct (m s) as [[a|e] s1]; [|done]. eauto. Qed.

(** ** Relating the states before and after *)

Section moves.
Context {S E : Type} (R : relation S) `{!PreOrder R}.

(** Whatever the outcome, the final state is related to the initial one. *)
Definition moves {A} (m : Eff S E A) : Prop := ∀ s, R s (m s).2.

Lemma moves_ret {A} (a : A) : moves (mret a).
Proof. intros s. reflexivity. Qed.
Lemma moves_bind {A B} (m : Eff S E A) (f : A → Eff S E B) :
  moves m → (∀ a, moves (f a)) → moves (m ≫= f).
Proof.
  intros Hm Hf s. rewrite eff_bind_unfold. specialize (Hm s).
  destruct (m s) as [[a|e] s']; cbn in *; [|done]. etrans; [done|apply Hf].
Qed.
Lemma moves_fail {A} (e : E) : moves (fail (A:=A) e).
Proof. intros s. reflexivity. Qed.
Lemma moves_gets {A} (f : S → A) : moves (gets f).
Proof. intros s. reflexivity. Qed.
Lemma moves_of_result {A} (r : Result E A) : moves (of_result r).
Proof. intros s. reflexivity. Qed.
Lemma moves_fail_if c e : moves (fail_if c e).
Proof. apply moves_of_result. Qed.
Lemma moves_modify f : (∀ s, R s (f s)) → moves (modify f).
Proof. by intros H s. Qed.
Lemma moves_when c m : moves m → moves (when c m).
Proof. destruct c; [done|]. intros _. apply moves_ret. Qed.
Lemma moves_each {A} (f : A → Eff S E unit) l : (∀ x, x ∈ l → moves (f x)) → moves (each f l).
Proof.
  induction l as [|x l IH]; intros Hf; cbn; [apply moves_ret|].
  apply moves_bind; [apply Hf; left|]. intros _. apply IH. intros; apply Hf; by right.
Qed.
End moves.

#[global] Hint Resolve moves_ret moves_fail moves_gets moves_of_result moves_fail_if : session.

(** ** Invariants with a postcondition on the outcome *)

Section triples.
Context {S E : Type}.

(** From a state satisfying [P], the outcome and the final state satisfy [Q]. *)
Definition triple {A} (P : S → Prop) (m : Eff S E A) (Q : Result E A → S → Prop) : Prop :=
  ∀ s, P s → Q (m s).1 (m s).2.

Lemma triple_bind {A B} P (m : Eff S E A) (f : A → Eff S E B) Q R :
  triple P m Q →
  (∀ a, triple (Q (Ok a)) (f a) R) →
  (∀ e s, Q (Err e) s → R (Err e) s) →
  triple P (m ≫= f) R.
Proof.
  intros Hm Hf He s Hs. rewrite eff_bind_unfold. specialize (Hm s Hs).
  destruct (m s) as [[a|e] s']; cbn in *; [by apply Hf|by apply He].
Qed.

Lemma triple_conseq {A} (P P' : S → Prop) (m : Eff S E A) (Q Q' : Result E A → S → Prop) :
  triple P m Q → (∀ s, P' s → P s) → (∀ r s, Q r s → Q' r s) → triple P' m Q'.
Proof. intros H HP HQ s Hs. apply HQ, H, HP, Hs. Qed.
End triples.
