(* ===== verification/AtomicIo.v ===== *)
(** * Text files written atomically ([tau-core], [atomic_io.rs])

    A file system of text files and directories, and [write_text_atomic]: the
    text goes to a temporary file beside the destination, which is then renamed
    over it.  Which paths the operating system refuses is part of the state. *)

From Stdlib Require Import NArith Lia.
From stdpp Require Import base gmap sets strings list.
From S2P Require Import Prelude RustStr.

#[local] Open Scope string_scope.
#[local] Open Scope list_scope.
#[local] Open Scope nat_scope.

Record TextFs := mkTextFs
  { fs_files : gmap string string;
    fs_dirs : gset string;
    fs_write_denied : string → bool;   (** creating or writing the path fails *)
    fs_rename_denied : string → bool;  (** renaming onto the path fails *)
    fs_pid : N;
    fs_now_ms : N }.

Definition set_text_files (m : gmap string string) (fs : TextFs) : TextFs :=
  mkTextFs m (fs_dirs fs) (fs_write_denied fs) (fs_rename_denied fs) (fs_pid fs) (fs_now_ms fs).
Definition set_fs_now (now : N) (fs : TextFs) : TextFs :=
  mkTextFs (fs_files fs) (fs_dirs fs) (fs_write_denied fs) (fs_rename_denied fs) (fs_pid fs) now.

Inductive IoError :=
| EmptyDestination
| DestinationIsDirectory (path : string)
| WriteFailed (path : string)
| RenameFailed (path : string).

(** [parent_dir.join(format!(".{}.tmp-{}-{}", name, pid, seconds))] *)
Definition atomic_temp_path (fs : TextFs) (path : string) : string :=
  with_file_name path
    ("." +:+ default "session-graph" (file_name path) +:+
     (".tmp-" +:+ show_u64 (fs_pid fs) +:+ "-" +:+ show_u64 (fs_now_ms fs / 1000))).

Definition write_text_atomic (fs : TextFs) (path content : string) : TextFs * Result IoError unit :=
  if is_empty path then (fs, Err EmptyDestination)
  else if bool_decide (path ∈ fs_dirs fs) then (fs, Err (DestinationIsDirectory path))
  else
    let temp := atomic_temp_path fs path in
    if fs_write_denied fs temp then (fs, Err (WriteFailed temp))
    else
      let fs := set_text_files (<[temp := content]> (fs_files fs)) fs in
      if fs_rename_denied fs path then (fs, Err (RenameFailed path))
      else (set_text_files (<[path := content]> (delete temp (fs_files fs))) fs, Ok tt).

Lemma atomic_temp_path_ne fs path : atomic_temp_path fs path ≠ path.
Proof. apply with_file_name_temp_ne. rewrite !chars_of_app, !length_app. cbn. lia. Qed.

(** Success replaces the text; an error leaves the destination as it was. *)
Lemma write_text_atomic_Ok fs path content fs' :
  write_text_atomic fs path content = (fs', Ok tt) → fs_files fs' !! path = Some content.
Proof.
  unfold write_text_atomic. repeat (case_match; [done|]). intros [= <-]. cbn.
  by rewrite lookup_insert_eq.
Qed.

Lemma write_text_atomic_Err fs path content fs' e :
  write_text_atomic fs path content = (fs', Err e) → fs_files fs' !! path = fs_files fs !! path.
Proof.
  unfold write_text_atomic. do 3 (case_match; [by intros [= <- _]|]). case_match; [|done].
  intros [= <- _]. cbn. rewrite lookup_insert_ne; [done|]. apply atomic_temp_path_ne.
Qed.

(** Other files are not touched, the temporary one apart. *)
Lemma write_text_atomic_others fs path content other :
  other ≠ path → other ≠ atomic_temp_path fs path →
  fs_files (write_text_atomic fs path content).1 !! other = fs_files fs !! other.
Proof.
  intros Hp Ht. unfold write_text_atomic. repeat (case_match; cbn; [done|]).
  case_match; cbn; [by rewrite lookup_insert_ne|].
  by rewrite lookup_insert_ne, lookup_delete_ne, lookup_insert_ne.
Qed.

Lemma write_text_atomic_now fs path content :
  fs_now_ms (write_text_atomic fs path content).1 = fs_now_ms fs.
Proof. unfold write_text_atomic. repeat (case_match; cbn; try done). Qed.

Lemma write_text_atomic_dirs fs path content :
  fs_dirs (write_text_atomic fs path content).1 = fs_dirs fs.
Proof. unfold write_text_atomic. repeat (case_match; cbn; try done). Qed.
