(* ===== verification/Approvals.v ===== *)
(** * Action approvals ([tau-access], [approvals.rs])

    Actions that a policy rule matches need a human decision first.  Requests
    are kept in a JSON file that every operation loads, updates and writes back
    under a process-wide mutex, so an operation is one step on the file system.

    Outside packages are the class [ApprovalCodec]: [serde_json] on the policy
    and store files and the SHA-256 fingerprint of an action; its laws are that
    a written store reads back and that fingerprints do not collide. *)

From Stdlib Require Import Ascii NArith Lia.
From stdpp Require Import base gmap sets strings list.
From S2P Require Import Prelude RustStr AtomicIo.

#[local] Open Scope string_scope.
#[local] Open Scope list_scope.
#[local] Open Scope nat_scope.

(** ** Data *)

Inductive ApprovalRequestStatus := Pending | Approved | Rejected | Expired | Consumed.

#[export] Instance ApprovalRequestStatus_eq_dec : EqDecision ApprovalRequestStatus.
Proof. solve_decision. Defined.

Definition approval_status_str (s : ApprovalRequestStatus) : string :=
  match s with
  | Pending => "pending" | Approved => "approved" | Rejected => "rejected"
  | Expired => "expired" | Consumed => "consumed"
  end.

Record ApprovalPolicyRule := mkRule
  { ru_id : string; ru_action : string; ru_command_prefixes : list string;
    ru_path_prefixes : list string; ru_command_names : list string }.

Record ApprovalPolicyFile := mkPolicy
  { po_schema_version : N; po_enabled : bool; po_strict_mode : bool; po_timeout_seconds : N;
    po_rules : list ApprovalPolicyRule }.

Definition APPROVAL_POLICY_SCHEMA_VERSION : N := 1.
Definition APPROVAL_STORE_SCHEMA_VERSION : N := 1.
Definition DEFAULT_APPROVAL_TIMEOUT_SECONDS : N := 900.

Definition approval_policy_default : ApprovalPolicyFile :=
  mkPolicy APPROVAL_POLICY_SCHEMA_VERSION false true DEFAULT_APPROVAL_TIMEOUT_SECONDS [].

Record ApprovalRequestRecord := mkApproval
  { ar_id : string; ar_rule_id : string; ar_action_kind : string; ar_action_summary : string;
    ar_fingerprint : string; ar_status : ApprovalRequestStatus; ar_created_at_ms : N;
    ar_expires_at_ms : N; ar_decision_at_ms : option N; ar_decision_reason : option string;
    ar_decision_actor : option string; ar_consumed_at_ms : option N }.

Record ApprovalStoreFile := mkApprovalStore
  { as_schema_version : N; as_next_request_id : N; as_requests : list ApprovalRequestRecord }.

Definition approval_store_default : ApprovalStoreFile :=
  mkApprovalStore APPROVAL_STORE_SCHEMA_VERSION 1 [].

Inductive ApprovalAction :=
| ToolBash (command : string) (cwd : option string)
| ToolWrite (path : string) (content_bytes : N)
| ToolEdit (path find : string) (replace_bytes : N)
| Command (name args : string).

Definition action_kind (a : ApprovalAction) : string :=
  match a with
  | ToolBash _ _ => "tool:bash" | ToolWrite _ _ => "tool:write"
  | ToolEdit _ _ _ => "tool:edit" | Command _ _ => "command"
  end.

Definition action_summary (a : ApprovalAction) : string :=
  match a with
  | ToolBash command cwd => "bash command='" +:+ command +:+ "' cwd=" +:+ default "default" cwd
  | ToolWrite path bytes => "write path=" +:+ path +:+ " bytes=" +:+ show_u64 bytes
  | ToolEdit path find bytes =>
      "edit path=" +:+ path +:+ " find='" +:+ find +:+ "' replace_bytes=" +:+ show_u64 bytes
  | Command name args => "command name=" +:+ name +:+ " args='" +:+ args +:+ "'"
  end.

Definition command_name (a : ApprovalAction) : option string :=
  match a with Command name _ => Some name | _ => None end.
Definition path_value (a : ApprovalAction) : option string :=
  match a with ToolWrite path _ | ToolEdit path _ _ => Some path | _ => None end.
Definition command_value (a : ApprovalAction) : option string :=
  match a with ToolBash command _ => Some command | _ => None end.

Inductive ApprovalGateResult :=
| Allowed
| Denied (request_id rule_id reason_code message : string).

Inductive ApprovalError :=
| ReadError (path : string)
| ParseError (path : string)
| UnsupportedVersion (found : N)
| ZeroTimeout
| EmptyRuleId
| DuplicateRuleId (id : string)
| UnsupportedRuleAction (action : string)
| StoreWriteError (e : IoError)
| RequestNotFound (id : string)
| RequestNotPending (id : string) (status : ApprovalRequestStatus)
| InvalidDecision (status : ApprovalRequestStatus).

Class ApprovalCodec :=
  { decode_policy : string → option ApprovalPolicyFile;
    encode_store : ApprovalStoreFile → string;
    decode_store : string → option ApprovalStoreFile;
    approval_fingerprint : ApprovalAction → string }.

Class ApprovalCodecLaws `{!ApprovalCodec} : Prop :=
  { decode_encode_store s : decode_store (encode_store s) = Some s;
    fingerprint_inj : Inj (=) (=) approval_fingerprint }.

(** ** The policy *)

Definition normalize_path_like (raw : string) : string := replace_char "\"%char "/"%char raw.

(** The closure of [match_approval_rule]. *)
Definition rule_matches (action : ApprovalAction) (rule : ApprovalPolicyRule) : bool :=
  if negb (String.eqb (ru_action rule) (action_kind action)) then false
  else match command_value action with
  | Some command =>
      match ru_command_prefixes rule with
      | [] => true
      | prefixes => existsb (λ prefix, starts_with prefix (trim_start command)) prefixes
      end
  | None =>
      match path_value action with
      | Some path =>
          match ru_path_prefixes rule with
          | [] => true
          | prefixes =>
              let normalized := normalize_path_like path in
              existsb (λ prefix, starts_with (normalize_path_like prefix) normalized) prefixes
          end
      | None =>
          match command_name action with
          | Some name =>
              match ru_command_names rule with
              | [] => true
              | names => existsb (λ n, String.eqb n name) names
              end
          | None => false
          end
      end
  end.

Definition match_approval_rule (policy : ApprovalPolicyFile) (action : ApprovalAction)
    : option ApprovalPolicyRule :=
  List.find (rule_matches action) (po_rules policy).

Fixpoint validate_rules (rules : list ApprovalPolicyRule) (rule_ids : gset string)
    : Result ApprovalError unit :=
  match rules with
  | [] => Ok tt
  | rule :: rest =>
      _ ← bail_if (is_empty (trim (ru_id rule))) EmptyRuleId;
      _ ← bail_if (bool_decide (ru_id rule ∈ rule_ids)) (DuplicateRuleId (ru_id rule));
      _ ← bail_if (negb (existsb (String.eqb (ru_action rule))
                           ["tool:bash"; "tool:write"; "tool:edit"; "command"]))
            (UnsupportedRuleAction (ru_action rule));
      validate_rules rest ({[ru_id rule]} ∪ rule_ids)
  end.

Definition validate_approval_policy (policy : ApprovalPolicyFile) : Result ApprovalError unit :=
  _ ← bail_if (negb (po_schema_version policy =? APPROVAL_POLICY_SCHEMA_VERSION)%N)
        (UnsupportedVersion (po_schema_version policy));
  _ ← bail_if (po_timeout_seconds policy =? 0)%N ZeroTimeout;
  validate_rules (po_rules policy) ∅.

(** [path.exists()] and [read_to_string]: a directory exists but has no text. *)
Definition read_text (fs : TextFs) (path : string) : Result ApprovalError (option string) :=
  match fs_files fs !! path with
  | Some raw => Ok (Some raw)
  | None => if bool_decide (path ∈ fs_dirs fs) then Err (ReadError path) else Ok None
  end.

Section approvals.
Context `{!ApprovalCodec}.
Implicit Types (fs : TextFs) (store : ApprovalStoreFile) (r : ApprovalRequestRecord).

Definition load_approval_policy fs (path : string) : Result ApprovalError ApprovalPolicyFile :=
  text ← read_text fs path;
  match text with
  | None => Ok approval_policy_default
  | Some raw =>
      parsed ← ok_or (ParseError path) (decode_policy raw);
      _ ← validate_approval_policy parsed;
      Ok parsed
  end.

(** ** The request store *)

Definition load_approval_store fs (path : string) : Result ApprovalError ApprovalStoreFile :=
  text ← read_text fs path;
  match text with
  | None => Ok approval_store_default
  | Some raw =>
      parsed ← ok_or (ParseError path) (decode_store raw);
      _ ← bail_if (negb (as_schema_version parsed =? APPROVAL_STORE_SCHEMA_VERSION)%N)
            (UnsupportedVersion (as_schema_version parsed));
      Ok parsed
  end.

Definition save_approval_store fs (path : string) store : TextFs * Result ApprovalError unit :=
  match write_text_atomic fs path (encode_store store) with
  | (fs, Ok _) => (fs, Ok tt)
  | (fs, Err e) => (fs, Err (StoreWriteError e))
  end.

Definition set_requests l store : ApprovalStoreFile :=
  mkApprovalStore (as_schema_version store) (as_next_request_id store) l.

(** A decision on a request. *)
Definition set_decision status at_ms reason actor r : ApprovalRequestRecord :=
  mkApproval (ar_id r) (ar_rule_id r) (ar_action_kind r) (ar_action_summary r)
    (ar_fingerprint r) status (ar_created_at_ms r) (ar_expires_at_ms r) at_ms reason actor
    (ar_consumed_at_ms r).

Definition consume now_ms r : ApprovalRequestRecord :=
  mkApproval (ar_id r) (ar_rule_id r) (ar_action_kind r) (ar_action_summary r)
    (ar_fingerprint r) Consumed (ar_created_at_ms r) (ar_expires_at_ms r) (ar_decision_at_ms r)
    (ar_decision_reason r) (ar_decision_actor r) (Some now_ms).

Definition overdue_request (now_ms : N) r : bool :=
  bool_decide (ar_status r = Pending) && (ar_expires_at_ms r <? now_ms)%N.

Definition expire_request (now_ms : N) r : ApprovalRequestRecord :=
  if overdue_request now_ms r
  then set_decision Expired (Some now_ms) (Some "approval_timeout") (Some "system-timeout") r
  else r.

(** Returns the store and whether it changed. *)
Definition expire_pending_requests store (now_ms : N) : ApprovalStoreFile * bool :=
  (set_requests (expire_request now_ms <$> as_requests store) store,
   existsb (overdue_request now_ms) (as_requests store)).

(** [Iterator::rposition] *)
Fixpoint rposition {A} (f : A → bool) (l : list A) : option nat :=
  match l with
  | [] => None
  | x :: l' =>
      match rposition f l' with
      | Some i => Some (S i)
      | None => if f x then Some 0 else None
      end
  end.

Definition is_live (s : ApprovalRequestStatus) : bool :=
  match s with Consumed => false | _ => true end.

Definition same_request (fingerprint rule_id : string) r : bool :=
  String.eqb (ar_fingerprint r) fingerprint && String.eqb (ar_rule_id r) rule_id &&
  is_live (ar_status r).

Definition request_id_of (n : N) : string := "req-" +:+ show_u64 n.

(** A new request for the action. *)
Definition push_request (policy : ApprovalPolicyFile) (rule : ApprovalPolicyRule)
    (action : ApprovalAction) (now_ms : N) store : ApprovalStoreFile * string :=
  let request_id := request_id_of (as_next_request_id store) in
  let request :=
    mkApproval request_id (ru_id rule) (action_kind action) (action_summary action)
      (approval_fingerprint action) Pending now_ms
      (saturating_add_u64 now_ms (saturating_mul_u64 (po_timeout_seconds policy) 1000))
      None None None None in
  (mkApprovalStore (as_schema_version store) (saturating_add_u64 (as_next_request_id store) 1)
     (as_requests store ++ [request]),
   request_id).

Definition deny_required (request_id : string) (rule : ApprovalPolicyRule) : ApprovalGateResult :=
  Denied request_id (ru_id rule) "approval_required" "approval required before action execution".

(** What the gate decides on the loaded store: the new store, whether it must be
    written, and the answer. *)
Definition gate_decision (policy : ApprovalPolicyFile) (rule : ApprovalPolicyRule)
    (action : ApprovalAction) (now_ms : N) store
    : ApprovalStoreFile * bool * ApprovalGateResult :=
  let '(store, mutated) := expire_pending_requests store now_ms in
  let new_request :=
    let '(store, request_id) := push_request policy rule action now_ms store in
    (store, true, deny_required request_id rule) in
  match rposition (same_request (approval_fingerprint action) (ru_id rule)) (as_requests store) with
  | None => new_request
  | Some i =>
      match as_requests store !! i with
      | None => new_request
      | Some existing =>
          match ar_status existing with
          | Approved =>
              (set_requests (<[i := consume now_ms existing]> (as_requests store)) store, true,
               Allowed)
          | Pending =>
              (store, mutated,
               Denied (ar_id existing) (ar_rule_id existing) "approval_pending"
                 "approval request is pending")
          | Rejected =>
              (store, mutated,
               Denied (ar_id existing) (ar_rule_id existing) "approval_rejected"
                 (default "approval request was rejected" (ar_decision_reason existing)))
          | Expired =>
              if po_strict_mode policy then new_request else (store, mutated, Allowed)
          | Consumed => new_request
          end
      end
  end.

Definition evaluate_approval_gate_with_paths fs (action : ApprovalAction)
    (policy_path state_path : string) : TextFs * Result ApprovalError ApprovalGateResult :=
  match load_approval_policy fs policy_path with
  | Err e => (fs, Err e)
  | Ok policy =>
      if negb (po_enabled policy) then (fs, Ok Allowed)
      else match match_approval_rule policy action with
      | None => (fs, Ok Allowed)
      | Some rule =>
          match load_approval_store fs state_path with
          | Err e => (fs, Err e)
          | Ok store =>
              let '(store, must_save, answer) :=
                gate_decision policy rule action (fs_now_ms fs) store in
              if must_save then
                match save_approval_store fs state_path store with
                | (fs, Ok _) => (fs, Ok answer)
                | (fs, Err e) => (fs, Err e)
                end
              else (fs, Ok answer)
          end
      end
  end.

(** ** Decisions *)

Definition normalize_decision_actor (decision_actor : option string) : string :=
  match trim <$> decision_actor with
  | Some value => if is_empty value then "local-command" else value
  | None => "local-command"
  end.

(** The store is loaded and, when a request expired, written back. *)
Definition load_refreshed fs (state_path : string) : TextFs * Result ApprovalError ApprovalStoreFile :=
  match load_approval_store fs state_path with
  | Err e => (fs, Err e)
  | Ok store =>
      let '(store, mutated) := expire_pending_requests store (fs_now_ms fs) in
      if mutated then
        match save_approval_store fs state_path store with
        | (fs, Ok _) => (fs, Ok store)
        | (fs, Err e) => (fs, Err e)
        end
      else (fs, Ok store)
  end.

Fixpoint position {A} (f : A → bool) (l : list A) : option nat :=
  match l with
  | [] => None
  | x :: l' => if f x then Some 0 else S <$> position f l'
  end.

(** The decided record, or why it cannot be decided. *)
Definition decide_request store (request_id : string) (status : ApprovalRequestStatus)
    (reason actor : option string) (now_ms : N)
    : Result ApprovalError (ApprovalStoreFile * ApprovalRequestRecord) :=
  i ← ok_or (RequestNotFound request_id)
        (position (λ r, String.eqb (ar_id r) request_id) (as_requests store));
  r ← ok_or (RequestNotFound request_id) (as_requests store !! i);
  _ ← bail_if (negb (bool_decide (ar_status r = Pending)))
        (RequestNotPending request_id (ar_status r));
  _ ← bail_if (negb (bool_decide (status = Approved) || bool_decide (status = Rejected)))
        (InvalidDecision status);
  let reason := match reason with
                | Some value => if is_empty (trim value) then None else Some value
                | None => None
                end in
  let decided :=
    set_decision status (Some now_ms) reason (Some (normalize_decision_actor actor)) r in
  Ok (set_requests (<[i := decided]> (as_requests store)) store, decided).

Definition update_approval_decision fs (state_path request_id : string)
    (status : ApprovalRequestStatus) (reason actor : option string)
    : TextFs * Result ApprovalError string :=
  match load_refreshed fs state_path with
  | (fs, Err e) => (fs, Err e)
  | (fs, Ok store) =>
      match decide_request store request_id status reason actor (fs_now_ms fs) with
      | Err e => (fs, Err e)
      | Ok (store, decided) =>
          match save_approval_store fs state_path store with
          | (fs, Err e) => (fs, Err e)
          | (fs, Ok _) =>
              (fs, Ok ("approvals decision: request_id=" +:+ request_id +:+ " status=" +:+
                 approval_status_str status +:+ " reason=" +:+
                 default "none" (ar_decision_reason decided) +:+ " decision_actor=" +:+
                 default "none" (ar_decision_actor decided)))
          end
      end
  end.

(** The state effect of [execute_approvals_list], and what it renders. *)
Definition execute_approvals_list fs (policy_path state_path : string)
    : TextFs * Result ApprovalError (ApprovalPolicyFile * ApprovalStoreFile) :=
  match load_approval_policy fs policy_path with
  | Err e => (fs, Err e)
  | Ok policy =>
      match load_refreshed fs state_path with
      | (fs, Err e) => (fs, Err e)
      | (fs, Ok store) => (fs, Ok (policy, store))
      end
  end.
End approvals.

Arguments gate_decision : simpl never.
Arguments decide_request : simpl never.
Arguments load_approval_policy : simpl never.
Arguments load_approval_store : simpl never.
Arguments save_approval_store : simpl never.

(** ** The [/approvals] command line *)

Inductive ApprovalOutputFormat := FormatText | FormatJson.

Inductive ApprovalsCommand :=
| CmdList (format : ApprovalOutputFormat) (status_filter : option ApprovalRequestStatus)
| CmdApprove (request_id : string) (reason : option string)
| CmdReject (request_id : string) (reason : option string).

(** Every parse error is answered with the usage text. *)
Definition parse_approval_status (raw : string) : option ApprovalRequestStatus :=
  List.find (λ s, String.eqb (approval_status_str s) raw)
    [Pending; Approved; Rejected; Expired; Consumed].

Fixpoint parse_approvals_list_args (tokens : list string) (format : ApprovalOutputFormat)
    (status_filter : option ApprovalRequestStatus) : option ApprovalsCommand :=
  match tokens with
  | [] => Some (CmdList format status_filter)
  | token :: rest =>
      if String.eqb token "--json" then parse_approvals_list_args rest FormatJson status_filter
      else if String.eqb token "--status" then
        match rest with
        | [] => None
        | raw :: rest =>
            status ← parse_approval_status raw;
            parse_approvals_list_args rest format (Some status)
        end
      else None
  end.

Definition parse_approvals_decision_args (tokens : list string) (approve : bool)
    : option ApprovalsCommand :=
  match tokens with
  | _ :: request_id :: rest =>
      let reason := match rest with [] => None | _ => Some (join " " rest) end in
      Some (if approve then CmdApprove request_id reason else CmdReject request_id reason)
  | _ => None
  end.

Definition parse_approvals_command (command_args : string) : option ApprovalsCommand :=
  let tokens := split_whitespace command_args in
  match tokens with
  | [] => None
  | first :: rest =>
      if String.eqb first "list" then parse_approvals_list_args rest FormatText None
      else if String.eqb first "approve" then parse_approvals_decision_args tokens true
      else if String.eqb first "reject" then parse_approvals_decision_args tokens false
      else None
  end.

Example parse_approvals_examples :
  parse_approvals_command "list --json --status pending" = Some (CmdList FormatJson (Some Pending)) ∧
  parse_approvals_command "approve req-1 looks good" = Some (CmdApprove "req-1" (Some "looks good")) ∧
  parse_approvals_command "reject req-2" = Some (CmdReject "req-2" None) ∧
  parse_approvals_command "approve" = None ∧ parse_approvals_command "list --status nope" = None.
Proof. by vm_compute. Qed.
