(* ===== verification/ApprovalTheorems.v ===== *)
(** * Theorems on action approvals

    An approval is spent by the action it was given for and by no other, once;
    requests only move along their lifecycle; errors of the file system never
    let an action through. *)

From Stdlib Require Import Ascii NArith Lia.
From stdpp Require Import base gmap sets strings relations list.
From S2P Require Import Prelude RustStr BitCodec AtomicIo Approvals.

#[local] Open Scope string_scope.
#[local] Open Scope list_scope.
#[local] Open Scope nat_scope.

Lemma rposition_Some {A} (f : A → bool) l i :
  rposition f l = Some i → ∃ x, l !! i = Some x ∧ f x = true.
Proof.
  revert i. induction l as [|y l IH]; intros i; cbn; [done|].
  destruct (rposition f l) as [j|] eqn:Hj.
  - intros [= <-]. by apply IH.
  - destruct (f y) eqn:Hy; [|done]. intros [= <-]. by exists y.
Qed.

Lemma rposition_snoc {A} (f : A → bool) l x :
  rposition f (l ++ [x]) = if f x then Some (length l) else rposition f l.
Proof.
  induction l as [|y l IH]; cbn; [done|]. rewrite IH. by destruct (f x).
Qed.

Lemma rposition_ext {A} (f : A → bool) (g : A → A) l :
  (∀ x, x ∈ l → f (g x) = f x) → rposition f (g <$> l) = rposition f l.
Proof.
  induction l as [|y l IH]; cbn; intros H; [done|].
  rewrite IH by (intros; apply H; by right). by rewrite (H y ltac:(left)).
Qed.

Lemma position_Some {A} (f : A → bool) l i :
  position f l = Some i → ∃ x, l !! i = Some x ∧ f x = true.
Proof.
  revert i. induction l as [|y l IH]; intros i; cbn; [done|].
  destruct (f y) eqn:Hy; [intros [= <-]; by exists y|].
  destruct (position f l) as [j|]; [|done]. cbn. intros [= <-]. by apply IH.
Qed.

Lemma position_unique {A} (f : A → bool) l i x :
  l !! i = Some x → f x = true → (∀ j y, l !! j = Some y → f y = true → j = i) →
  position f l = Some i.
Proof.
  revert i. induction l as [|z l IH]; intros [|i] Hi Hx Hu; cbn in *; try done.
  - injection Hi as ->. by rewrite Hx.
  - destruct (f z) eqn:Hz; [by specialize (Hu 0 z eq_refl Hz)|].
    rewrite (IH i); [done|done|done|]. intros j y Hj Hy. specialize (Hu (S j) y Hj Hy). lia.
Qed.

(** Replacing an element changes a count by what the two elements count. *)
Lemma filter_length_insert {A} (f : A → bool) l i x y :
  l !! i = Some x →
  length (List.filter f (<[i := y]> l)) + (if f x then 1 else 0) =
    length (List.filter f l) + (if f y then 1 else 0).
Proof.
  revert i. induction l as [|z l IH]; intros [|i] Hi; cbn in *; try done.
  - injection Hi as ->. destruct (f x), (f y); cbn; lia.
  - specialize (IH i Hi). change (<[S i := y]> (z :: l)) with (z :: <[i := y]> l). cbn.
    destruct (f z); cbn; [f_equal|]; exact IH.
Qed.

Section accounting.
Context `{!ApprovalCodec}.
Implicit Types (s : ApprovalStoreFile) (r : ApprovalRequestRecord).

(** ** Lifecycle of a request *)

Inductive status_moves : ApprovalRequestStatus → ApprovalRequestStatus → Prop :=
| moves_approve : status_moves Pending Approved
| moves_reject : status_moves Pending Rejected
| moves_expire : status_moves Pending Expired
| moves_consume : status_moves Approved Consumed.

(** The same request, later in its life. *)
Definition request_later r r' : Prop :=
  (ar_id r', ar_rule_id r', ar_fingerprint r', ar_action_summary r', ar_expires_at_ms r') =
    (ar_id r, ar_rule_id r, ar_fingerprint r, ar_action_summary r, ar_expires_at_ms r) ∧
  rtc status_moves (ar_status r) (ar_status r').

#[export] Instance request_later_preorder : PreOrder request_later.
Proof.
  split.
  - intros r. by split.
  - intros r1 r2 r3 [H1 ?] [H2 ?]. split; [by rewrite H2|by etrans].
Qed.

(** Requests are kept at their place and only move on. *)
Definition requests_later s s' : Prop :=
  ∀ i r, as_requests s !! i = Some r → ∃ r', as_requests s' !! i = Some r' ∧ request_later r r'.

#[export] Instance requests_later_preorder : PreOrder requests_later.
Proof.
  split.
  - intros s i r Hr. by exists r.
  - intros s1 s2 s3 H12 H23 i r Hr. destruct (H12 i r Hr) as (r2 & Hr2 & ?).
    destruct (H23 i r2 Hr2) as (r3 & Hr3 & ?). exists r3. split; [done|]. by etrans.
Qed.

Lemma insert_later s i r r' :
  as_requests s !! i = Some r → request_later r r' →
  requests_later s (set_requests (<[i := r']> (as_requests s)) s).
Proof.
  intros Hr Hl j y Hy. cbn. destruct (decide (i = j)) as [->|Hne].
  - exists r'. rewrite list_lookup_insert_eq by (by eapply lookup_lt_Some). naive_solver.
  - exists y. by rewrite list_lookup_insert_ne.
Qed.

Lemma expire_request_later now r : request_later r (expire_request now r).
Proof.
  unfold expire_request, overdue_request. case_bool_decide as Hp; cbn; [|done].
  case_match; [|done]. split; [done|]. cbn. rewrite Hp. apply rtc_once. constructor.
Qed.

Lemma expire_later s now : requests_later s (expire_pending_requests s now).1.
Proof.
  intros i r Hr. cbn. rewrite list_lookup_fmap, Hr. cbn. eexists. split; [done|].
  apply expire_request_later.
Qed.

(** ** Unspent approvals *)

Definition unspent (fp rid : string) r : bool :=
  String.eqb (ar_fingerprint r) fp && String.eqb (ar_rule_id r) rid &&
  bool_decide (ar_status r = Approved).

(** Approvals given to a fingerprint under a rule and not yet used. *)
Definition credit (fp rid : string) s : nat := length (List.filter (unspent fp rid) (as_requests s)).

Lemma expire_credit fp rid s now : credit fp rid (expire_pending_requests s now).1 = credit fp rid s.
Proof.
  unfold credit. cbn. induction (as_requests s) as [|r l IH]; cbn; [done|].
  assert (unspent fp rid (expire_request now r) = unspent fp rid r) as ->.
  { unfold expire_request, overdue_request. case_bool_decide as Hp; cbn; [|done].
    case_match; [|done]. unfold unspent. cbn. by rewrite Hp. }
  case_match; cbn; by rewrite IH.
Qed.

Lemma insert_credit fp rid s i r r' :
  as_requests s !! i = Some r →
  credit fp rid (set_requests (<[i := r']> (as_requests s)) s) + (if unspent fp rid r then 1 else 0) =
    credit fp rid s + (if unspent fp rid r' then 1 else 0).
Proof. intros Hr. by apply filter_length_insert. Qed.

(** The pair an approval belongs to. *)
Definition belongs (fp rid : string) (pair : string * string) : bool :=
  String.eqb pair.1 fp && String.eqb pair.2 rid.

Definition is_allowed (a : ApprovalGateResult) : bool :=
  match a with Allowed => true | _ => false end.

Lemma push_request_credit p rule action now s fp rid :
  credit fp rid (push_request p rule action now s).1 = credit fp rid s.
Proof.
  unfold credit. cbn. rewrite List.filter_app. cbn. unfold unspent at 2. cbn.
  rewrite andb_false_r. cbn. by rewrite app_nil_r.
Qed.

Lemma push_request_later p rule action now s :
  requests_later s (push_request p rule action now s).1.
Proof.
  intros i r Hr. exists r. split; [|done]. cbn. by apply lookup_app_l_Some.
Qed.

(** What the gate does to the store: under strict mode it answers [Allowed] by
    spending one approval of this very action and rule, and leaves all other
    approvals alone. *)
Lemma gate_decision_spec p rule action now s s' must_save answer :
  po_strict_mode p = true → gate_decision p rule action now s = (s', must_save, answer) →
  as_schema_version s' = as_schema_version s ∧ requests_later s s' ∧
  (answer = Allowed → must_save = true) ∧
  ∀ fp rid, credit fp rid s' +
    (if is_allowed answer && belongs fp rid (approval_fingerprint action, ru_id rule) then 1 else 0) =
    credit fp rid s.
Proof.
  intros Hstrict. unfold gate_decision.
  pose proof (expire_later s now) as Hl1.
  assert (as_schema_version (expire_pending_requests s now).1 = as_schema_version s) as Hv1 by done.
  assert (∀ fp rid, credit fp rid (expire_pending_requests s now).1 = credit fp rid s) as Hc1
    by (intros; apply expire_credit).
  destruct (expire_pending_requests s now) as [s1 mutated]. cbn [fst] in *.
  set (fp0 := approval_fingerprint action).
  assert (let '(s2, q) := push_request p rule action now s1 in
    as_schema_version s2 = as_schema_version s ∧ requests_later s s2 ∧
    ∀ fp rid, credit fp rid s2 = credit fp rid s) as Hnew.
  { split_and!; [done|trans s1; [done|apply (push_request_later p rule action now s1)]|].
    intros. rewrite <- Hc1. apply (push_request_credit p rule action now s1). }
  destruct (push_request p rule action now s1) as [s2 q]. destruct Hnew as (Hv2 & Hl2 & Hc2).
  assert (∀ b, (s2, true, deny_required q rule) = (s', b, answer) →
    as_schema_version s' = as_schema_version s ∧ requests_later s s' ∧
    (answer = Allowed → b = true) ∧ ∀ fp rid, credit fp rid s' +
      (if is_allowed answer && belongs fp rid (fp0, ru_id rule) then 1 else 0) = credit fp rid s)
    as Hdone.
  { intros b [= <- <- <-]. split_and!; [done|done|done|]. intros. cbn. by rewrite Hc2, Nat.add_0_r. }
  assert (∀ b id rd c m, (s1, b, Denied id rd c m) = (s', must_save, answer) →
    as_schema_version s' = as_schema_version s ∧ requests_later s s' ∧
    (answer = Allowed → must_save = true) ∧ ∀ fp rid, credit fp rid s' +
      (if is_allowed answer && belongs fp rid (fp0, ru_id rule) then 1 else 0) = credit fp rid s)
    as Hdeny.
  { intros b id rd c m [= <- <- <-]. split_and!; [done|done|done|]. intros. cbn.
    rewrite Nat.add_0_r. apply Hc1. }
  destruct (rposition _ _) as [i|] eqn:Hpos; [|apply Hdone].
  apply rposition_Some in Hpos as (r & Hr & Hsame). rewrite Hr.
  unfold same_request in Hsame. rewrite !andb_true_iff, !String.eqb_eq in Hsame.
  destruct Hsame as [[Hfp Hrid] Hlive].
  destruct (ar_status r) eqn:Hst; [apply Hdeny| |apply Hdeny| |apply Hdone].
  2: { rewrite Hstrict. apply Hdone. }
  intros [= <- <- <-]. split_and!; [done| |done|].
  - trans s1; [done|]. eapply insert_later; [done|]. split; [done|]. rewrite Hst.
    apply rtc_once. constructor.
  - intros fp rid. rewrite <- Hc1. pose proof (insert_credit fp rid s1 i r (consume now r) Hr) as Hins.
    assert (unspent fp rid (consume now r) = false) as Hno by apply andb_false_r.
    assert (unspent fp rid r = belongs fp rid (fp0, ru_id rule)) as Hyes.
    { unfold unspent, belongs. cbn. by rewrite Hst, Hfp, Hrid, andb_true_r. }
    rewrite Hno, Hyes in Hins. cbn [is_allowed andb]. lia.
Qed.

(** A decision adds one approval, to the request's own action, or none. *)
Lemma decide_request_spec s id status reason actor now s' d :
  decide_request s id status reason actor now = Ok (s', d) →
  as_schema_version s' = as_schema_version s ∧ requests_later s s' ∧
  (∃ i r, as_requests s !! i = Some r ∧ ar_id r = id ∧ ar_status r = Pending ∧
     request_later r d ∧ as_requests s' = <[i := d]> (as_requests s)) ∧
  ∀ fp rid, credit fp rid s' = credit fp rid s +
    (if bool_decide (status = Approved) && belongs fp rid (ar_fingerprint d, ar_rule_id d)
     then 1 else 0).
Proof.
  unfold decide_request. intros (i & Hi%ok_or_Ok & Hdec)%bind_Ok.
  apply bind_Ok in Hdec as (r & Hr%ok_or_Ok & Hdec).
  apply check_Ok in Hdec as [Hpend%bail_if_Ok Hdec]. apply negb_false_iff, bool_decide_eq_true in Hpend.
  apply check_Ok in Hdec as [Hst%bail_if_Ok Hdec]. apply negb_false_iff in Hst.
  injection Hdec as <- <-. set (d := set_decision _ _ _ _ r).
  apply position_Some in Hi as (r' & Hr' & Hid%String.eqb_eq).
  assert (r' = r) as -> by congruence.
  assert (request_later r d) as Hlater.
  { split; [done|]. cbn. rewrite Hpend. apply rtc_once.
    apply orb_true_iff in Hst as [->%bool_decide_eq_true| ->%bool_decide_eq_true]; constructor. }
  split_and!; [done|by eapply insert_later|by exists i, r|].
  intros fp rid. pose proof (insert_credit fp rid s i r d Hr) as Hins.
  assert (unspent fp rid r = false) as Hno by (unfold unspent; rewrite Hpend; apply andb_false_r).
  assert (unspent fp rid d = bool_decide (status = Approved) &&
    belongs fp rid (ar_fingerprint d, ar_rule_id d)) as Hyes by apply andb_comm.
  rewrite Hno, Hyes in Hins. lia.
Qed.
End accounting.

(** ** Executions *)

Section executions.
Context `{!ApprovalCodec, !ApprovalCodecLaws} (policy_path state_path : string).
Implicit Types (fs : TextFs) (s : ApprovalStoreFile) (r : ApprovalRequestRecord).

Abbreviation stored fs := (load_approval_store fs state_path).

Lemma load_version fs s : stored fs = Ok s → as_schema_version s = 1%N.
Proof.
  unfold load_approval_store. intros (text & _ & Hs)%bind_Ok.
  destruct text as [raw|]; [|by injection Hs as <-].
  apply bind_Ok in Hs as (p & _ & [Hv%bail_if_Ok Hs]%check_Ok). injection Hs as <-.
  by apply negb_false_iff, N.eqb_eq in Hv.
Qed.

Lemma save_Ok fs s fs' :
  as_schema_version s = 1%N → save_approval_store fs state_path s = (fs', Ok tt) → stored fs' = Ok s.
Proof.
  intros Hv. unfold save_approval_store.
  destruct (write_text_atomic fs state_path (encode_store s)) as [fs1 [[]|e]] eqn:Hw; [|done].
  intros [= <-]. unfold load_approval_store, read_text.
  rewrite (write_text_atomic_Ok _ _ _ _ Hw). cbn. rewrite decode_encode_store. cbn.
  by rewrite Hv.
Qed.

Lemma save_Err fs s fs' e : save_approval_store fs state_path s = (fs', Err e) → stored fs' = stored fs.
Proof.
  unfold save_approval_store.
  destruct (write_text_atomic fs state_path (encode_store s)) as [fs1 [[]|e']] eqn:Hw; [done|].
  intros [= <- _]. pose proof (write_text_atomic_dirs fs state_path (encode_store s)) as Hd.
  rewrite Hw in Hd. cbn in Hd. unfold load_approval_store, read_text.
  by rewrite (write_text_atomic_Err _ _ _ _ _ Hw), Hd.
Qed.

Lemma save_now fs s : fs_now_ms (save_approval_store fs state_path s).1 = fs_now_ms fs.
Proof.
  unfold save_approval_store.
  pose proof (write_text_atomic_now fs state_path (encode_store s)) as Hn.
  by destruct (write_text_atomic fs state_path (encode_store s)) as [fs1 [[]|]].
Qed.

(** What happens to an approval: an action runs on it, or it is given. *)
Inductive ApprovalEvent :=
| Granted (pair : string * string)
| ApprovedFor (pair : string * string).

Definition granted (fp rid : string) (evs : list ApprovalEvent) : nat :=
  length (List.filter (λ e, match e with Granted pr => belongs fp rid pr | _ => false end) evs).
Definition approved (fp rid : string) (evs : list ApprovalEvent) : nat :=
  length (List.filter (λ e, match e with ApprovedFor pr => belongs fp rid pr | _ => false end) evs).

(** The operations, and the passing of time between them. *)
Inductive ApprovalOp :=
| OpGate (action : ApprovalAction)
| OpDecide (request_id : string) (status : ApprovalRequestStatus) (reason actor : option string)
| OpList
| OpClock (now : N).

(** The action and rule the request with this id is for. *)
Definition request_pair s (id : string) : option (string * string) :=
  i ← position (λ r, String.eqb (ar_id r) id) (as_requests s);
  (λ r, (ar_fingerprint r, ar_rule_id r)) <$> as_requests s !! i.

Definition approval_op (p : ApprovalPolicyFile) fs (op : ApprovalOp) : TextFs * list ApprovalEvent :=
  match op with
  | OpGate action =>
      match evaluate_approval_gate_with_paths fs action policy_path state_path with
      | (fs', Ok Allowed) =>
          (fs', match match_approval_rule p action with
                | Some rule => [Granted (approval_fingerprint action, ru_id rule)]
                | None => []
                end)
      | (fs', _) => (fs', [])
      end
  | OpDecide id status reason actor =>
      match update_approval_decision fs state_path id status reason actor with
      | (fs', Ok _) =>
          (fs', if decide (status = Approved) then
                  match stored fs with
                  | Ok s => match request_pair s id with Some pr => [ApprovedFor pr] | None => [] end
                  | Err _ => []
                  end
                else [])
      | (fs', Err _) => (fs', [])
      end
  | OpList => ((execute_approvals_list fs policy_path state_path).1, [])
  | OpClock now => (set_fs_now now fs, [])
  end.

(** Executions while the policy [p] is in force. *)
Inductive approval_run (p : ApprovalPolicyFile) (fs : TextFs)
    : list ApprovalEvent → TextFs → Prop :=
| run_start : approval_run p fs [] fs
| run_step evs fs1 op fs2 new :
    approval_run p fs evs fs1 → load_approval_policy fs1 policy_path = Ok p →
    approval_op p fs1 op = (fs2, new) → approval_run p fs (evs ++ new) fs2.

(** The same, executed on a list of operations; policies are compared with
    [same]. *)
Fixpoint run_ops (p : ApprovalPolicyFile) (same : ApprovalPolicyFile → bool) fs
    (evs : list ApprovalEvent) (ops : list ApprovalOp) : option (TextFs * list ApprovalEvent) :=
  match ops with
  | [] => Some (fs, evs)
  | op :: rest =>
      match load_approval_policy fs policy_path with
      | Ok q =>
          if same q then let '(fs', new) := approval_op p fs op in run_ops p same fs' (evs ++ new) rest
          else None
      | Err _ => None
      end
  end.

Lemma run_ops_run p same fs0 fs evs ops fs' evs' :
  (∀ q, same q = true → q = p) → approval_run p fs0 evs fs →
  run_ops p same fs evs ops = Some (fs', evs') → approval_run p fs0 evs' fs'.
Proof.
  intros Hsame. revert fs evs. induction ops as [|op ops IH]; intros fs evs Hrun; cbn [run_ops].
  { by intros [= <- <-]. }
  destruct (load_approval_policy fs policy_path) as [q|] eqn:Hq; [|done].
  destruct (same q) eqn:Hs; [|done]. apply Hsame in Hs as ->.
  destruct (approval_op p fs op) as [fs1 new] eqn:Hop. apply IH. by eapply run_step.
Qed.

(** An operation moves the stored requests on, and every approval is accounted
    for. *)
Definition accounted s (new : list ApprovalEvent) s' : Prop :=
  requests_later s s' ∧
  ∀ fp rid, granted fp rid new + credit fp rid s' = approved fp rid new + credit fp rid s.

Lemma accounted_nil s : accounted s [] s.
Proof. by split. Qed.

Lemma accounted_expired s now : accounted s [] (expire_pending_requests s now).1.
Proof. split; [apply expire_later|]. intros. cbn. apply expire_credit. Qed.

Lemma gate_accounted p fs s action fs' new :
  po_enabled p = true → po_strict_mode p = true → load_approval_policy fs policy_path = Ok p →
  stored fs = Ok s → approval_op p fs (OpGate action) = (fs', new) →
  ∃ s', stored fs' = Ok s' ∧ accounted s new s'.
Proof.
  intros Hen Hst Hp Hs. cbn. unfold evaluate_approval_gate_with_paths. rewrite Hp, Hen. cbn.
  destruct (match_approval_rule p action) as [rule|];
    [|intros [= <- <-]; exists s; split; [done|apply accounted_nil]].
  rewrite Hs. destruct (gate_decision p rule action (fs_now_ms fs) s) as [[s1 must_save] answer] eqn:Hg.
  destruct (gate_decision_spec _ _ _ _ _ _ _ _ Hst Hg) as (Hv & Hl & Hsave & Hc).
  rewrite (load_version _ _ Hs) in Hv. destruct must_save.
  - destruct (save_approval_store fs state_path s1) as [fs1 [[]|e]] eqn:Hw.
    + intros Hop. exists s1. destruct answer; cbn in Hop; injection Hop as <- <-.
      all: split; [by eapply save_Ok|]; split; [done|]; intros fp rid; rewrite <- (Hc fp rid); cbn.
      * destruct (belongs fp rid _); cbn; lia.
      * lia.
    + intros [= <- <-]. exists s. split; [|apply accounted_nil]. by rewrite (save_Err _ _ _ _ Hw).
  - intros Hop. exists s. destruct answer; [by specialize (Hsave eq_refl)|].
    injection Hop as <- <-. split; [done|apply accounted_nil].
Qed.

Lemma load_refreshed_spec fs s fs' res :
  stored fs = Ok s → load_refreshed fs state_path = (fs', res) →
  fs_now_ms fs' = fs_now_ms fs ∧
  (res = Ok (expire_pending_requests s (fs_now_ms fs)).1 ∨ ∃ e, res = Err e) ∧
  ∃ s', stored fs' = Ok s' ∧ (s' = s ∨ s' = (expire_pending_requests s (fs_now_ms fs)).1).
Proof.
  intros Hs. unfold load_refreshed. rewrite Hs. cbn.
  destruct (existsb _ _).
  - set (s1 := set_requests _ s).
    destruct (save_approval_store fs state_path s1) as [fs1 [[]|e]] eqn:Hw; intros [= <- <-].
    all: pose proof (save_now fs s1) as Hn; rewrite Hw in Hn; cbn in Hn.
    + split_and!; [done|by left|]. exists s1. split; [|by right].
      eapply save_Ok; [|done]. exact (load_version fs s Hs).
    + split_and!; [done|right; by eexists|]. exists s. split; [|by left].
      by rewrite (save_Err _ _ _ _ Hw).
  - intros [= <- <-]. split_and!; [done|by left|]. exists s. split; [done|by left].
Qed.

Lemma position_expired s now id :
  position (λ r, String.eqb (ar_id r) id) (as_requests (expire_pending_requests s now).1) =
    position (λ r, String.eqb (ar_id r) id) (as_requests s).
Proof.
  cbn. induction (as_requests s) as [|r l IH]; cbn; [done|]. rewrite IH.
  assert (ar_id (expire_request now r) = ar_id r) as -> by (unfold expire_request; by case_match).
  done.
Qed.

Lemma request_pair_decided s id status reason actor now s2 d :
  decide_request (expire_pending_requests s now).1 id status reason actor now = Ok (s2, d) →
  request_pair s id = Some (ar_fingerprint d, ar_rule_id d).
Proof.
  unfold decide_request, request_pair. rewrite position_expired.
  intros (i & Hi%ok_or_Ok & Hdec)%bind_Ok. rewrite Hi. cbn [mbind option_bind].
  apply bind_Ok in Hdec as (r & Hr%ok_or_Ok & Hdec).
  apply check_Ok in Hdec as [_ Hdec]. apply check_Ok in Hdec as [_ Hdec]. injection Hdec as _ <-.
  cbn in Hr. rewrite list_lookup_fmap in Hr.
  destruct (as_requests s !! i) as [r0|]; [|done]. cbn in Hr. injection Hr as <-.
  cbn. unfold expire_request. by case_match.
Qed.

Lemma decide_accounted p fs s id status reason actor fs' new :
  stored fs = Ok s → approval_op p fs (OpDecide id status reason actor) = (fs', new) →
  ∃ s', stored fs' = Ok s' ∧ accounted s new s'.
Proof.
  intros Hs. cbn. unfold update_approval_decision.
  destruct (load_refreshed fs state_path) as [fs1 res] eqn:Href.
  destruct (load_refreshed_spec _ _ _ _ Hs Href) as (Hnow & Hres & s1 & Hs1 & Hcases).
  assert (accounted s [] s1) as Hacc1 by (destruct Hcases as [->| ->];
    [apply accounted_nil|apply accounted_expired]).
  destruct Hres as [->|[e ->]]; [|intros [= <- <-]; by exists s1].
  rewrite Hnow. set (se := (expire_pending_requests s (fs_now_ms fs)).1) in *.
  destruct (decide_request se id status reason actor (fs_now_ms fs)) as [[s2 d]|e] eqn:Hd;
    [|intros [= <- <-]; by exists s1].
  destruct (decide_request_spec _ _ _ _ _ _ _ _ Hd) as (Hv & Hl & (i & r & Hr & Hid & _ & Hrd & _) & Hc).
  destruct (save_approval_store fs1 state_path s2) as [fs2 [[]|e]] eqn:Hw.
  2: { intros [= <- <-]. exists s1. split; [|done]. by rewrite (save_Err _ _ _ _ Hw). }
  assert (stored fs2 = Ok s2) as Hload.
  { eapply save_Ok; [|done]. rewrite Hv. exact (load_version fs s Hs). }
  assert (requests_later s s2) as Hlater by (trans se; [apply expire_later|done]).
  assert (∀ fp rid, credit fp rid se = credit fp rid s) as Hce by (intros; apply expire_credit).
  case_decide as Hst; intros [= <- <-]; exists s2; (split; [done|]); split; try done.
  - intros fp rid. rewrite Hc, Hce, bool_decide_eq_true_2 by done. cbn.
    rewrite Hs. rewrite (request_pair_decided s id status reason actor (fs_now_ms fs) s2 d Hd).
    cbn. destruct (belongs fp rid _); cbn; lia.
  - intros fp rid. rewrite Hc, Hce, bool_decide_eq_false_2 by done. cbn. lia.
Qed.

Lemma list_accounted p fs s fs' new :
  stored fs = Ok s → approval_op p fs OpList = (fs', new) →
  ∃ s', stored fs' = Ok s' ∧ accounted s new s'.
Proof.
  intros Hs. cbn. unfold execute_approvals_list. intros [= <- <-].
  destruct (load_approval_policy fs policy_path); cbn; [|exists s; split; [done|apply accounted_nil]].
  destruct (load_refreshed fs state_path) as [fs1 res] eqn:Href.
  destruct (load_refreshed_spec _ _ _ _ Hs Href) as (_ & _ & s1 & Hs1 & Hcases).
  exists s1. split; [by destruct res|].
  destruct Hcases as [->| ->]; [apply accounted_nil|apply accounted_expired].
Qed.

Lemma approval_op_accounted p fs s op fs' new :
  po_enabled p = true → po_strict_mode p = true → load_approval_policy fs policy_path = Ok p →
  stored fs = Ok s → approval_op p fs op = (fs', new) →
  ∃ s', stored fs' = Ok s' ∧ accounted s new s'.
Proof.
  intros Hen Hst Hp Hs. destruct op as [action|id status reason actor| |now].
  - by apply gate_accounted.
  - by apply decide_accounted.
  - by apply list_accounted.
  - intros [= <- <-]. exists s. split; [done|apply accounted_nil].
Qed.

Lemma run_accounted p fs s evs fs' :
  po_enabled p = true → po_strict_mode p = true → stored fs = Ok s → approval_run p fs evs fs' →
  ∃ s', stored fs' = Ok s' ∧ accounted s evs s'.
Proof.
  intros Hen Hst Hs. induction 1 as [|evs fs1 op fs2 new _ IH Hp Hop].
  { exists s. split; [done|apply accounted_nil]. }
  destruct IH as (s1 & Hs1 & Hl1 & Hc1).
  destruct (approval_op_accounted _ _ _ _ _ _ Hen Hst Hp Hs1 Hop) as (s2 & Hs2 & Hl2 & Hc2).
  exists s2. split; [done|]. split; [by trans s1|]. intros fp rid.
  specialize (Hc1 fp rid). specialize (Hc2 fp rid). unfold granted, approved in *.
  rewrite !List.filter_app, !length_app. lia.
Qed.

(** C4: an approval is worth one run of the action it was given for.  Under an
    enabled strict policy, in every execution of gate checks, decisions and
    listings, file-system errors included, the runs of an action let through
    under a rule plus its unspent approvals equal the approvals given for
    requests of this very action and rule, plus those unspent at the start. *)
Theorem approvals_spent_once p fs s evs fs' action rule :
  po_enabled p = true → po_strict_mode p = true →
  load_approval_store fs state_path = Ok s → approval_run p fs evs fs' →
  ∃ s', load_approval_store fs' state_path = Ok s' ∧
    let fp := approval_fingerprint action in
    granted fp (ru_id rule) evs + credit fp (ru_id rule) s' =
      approved fp (ru_id rule) evs + credit fp (ru_id rule) s.
Proof.
  intros Hen Hst Hs Hrun. destruct (run_accounted _ _ _ _ _ Hen Hst Hs Hrun) as (s' & Hs' & _ & Hc).
  exists s'. by split.
Qed.

(** An approval request keeps its identity and only moves on: pending to
    approved, rejected or expired, approved to consumed; in every execution a
    rejected, expired or consumed request stays so for ever. *)
Theorem approval_requests_final p fs s evs fs' i r :
  po_enabled p = true → po_strict_mode p = true →
  load_approval_store fs state_path = Ok s → approval_run p fs evs fs' →
  as_requests s !! i = Some r →
  ∃ s' r', load_approval_store fs' state_path = Ok s' ∧ as_requests s' !! i = Some r' ∧
    request_later r r' ∧
    (ar_status r = Rejected ∨ ar_status r = Expired ∨ ar_status r = Consumed →
     ar_status r' = ar_status r).
Proof.
  intros Hen Hst Hs Hrun Hr.
  destruct (run_accounted _ _ _ _ _ Hen Hst Hs Hrun) as (s' & Hs' & Hl & _).
  destruct (Hl i r Hr) as (r' & Hr' & Hlater). exists s', r'. split_and!; try done.
  intros Hfin. destruct Hlater as [_ Hm]. inversion Hm as [|x y z Hxy]; subst; [done|].
  destruct Hfin as [Hf|[Hf|Hf]]; rewrite Hf in Hxy; inversion Hxy.
Qed.
End executions.

(** ** From request to run *)

Section scenario.
Context `{!ApprovalCodec, !ApprovalCodecLaws}.
Implicit Types (s : ApprovalStoreFile) (r : ApprovalRequestRecord).

(** Requests are numbered in order, and the next number is free. *)
Definition numbered s : Prop :=
  as_next_request_id s = N.of_nat (S (length (as_requests s))) ∧
  (as_next_request_id s < u64_max)%N ∧
  ∀ i r, as_requests s !! i = Some r → ar_id r = request_id_of (N.of_nat (S i)).

Lemma request_id_of_inj n m : request_id_of n = request_id_of m → n = m.
Proof. intros Heq. apply (inj show_u64). by apply (inj (String.app "req-")) in Heq. Qed.

Lemma expire_id now r : ar_id (expire_request now r) = ar_id r.
Proof. unfold expire_request. by case_match. Qed.

Lemma expire_inert now r : overdue_request now r = false → expire_request now r = r.
Proof. unfold expire_request. by intros ->. Qed.

Lemma not_overdue now r : (now ≤ ar_expires_at_ms r)%N → overdue_request now r = false.
Proof. intros Hle. unfold overdue_request. apply andb_false_iff. right. by apply N.ltb_ge. Qed.

Lemma decided_not_overdue now r : ar_status r ≠ Pending → overdue_request now r = false.
Proof. intros Hst. unfold overdue_request. by rewrite bool_decide_eq_false_2. Qed.

(** The gate asks for a new approval: it appends a pending request that is the
    last one for this action, and nothing after it decides otherwise. *)
Lemma gate_required p rule action now s s' b q rid m :
  gate_decision p rule action now s = (s', b, Denied q rid "approval_required" m) →
  let se := (expire_pending_requests s now).1 in
  s' = (push_request p rule action now se).1 ∧ q = (push_request p rule action now se).2 ∧
  match rposition (same_request (approval_fingerprint action) (ru_id rule)) (as_requests se) with
  | None => True
  | Some i => ∃ r, as_requests se !! i = Some r ∧ ar_status r = Expired ∧ po_strict_mode p = true
  end.
Proof.
  unfold gate_decision. cbn -[push_request rposition].
  set (se := set_requests (expire_request now <$> as_requests s) s).
  destruct (push_request p rule action now se) as [s2 q2] eqn:Hpush.
  change (expire_request now <$> as_requests s) with (as_requests se).
  destruct (rposition _ (as_requests se)) as [i|] eqn:Hpos; [|by intros [= <- _ <- _ _]].
  destruct (rposition_Some _ _ _ Hpos) as (r & Hr & Hsame). rewrite Hr.
  destruct (ar_status r) eqn:Hst; try done.
  - destruct (po_strict_mode p) eqn:Hp; [|done]. intros [= <- _ <- _ _]. split_and!; [done..|]. eauto.
  - unfold same_request in Hsame. rewrite Hst, andb_false_r in Hsame. done.
Qed.

Lemma rposition_expired fp rid l now :
  rposition (same_request fp rid) (expire_request now <$> l) = rposition (same_request fp rid) l.
Proof.
  apply rposition_ext. intros r _. unfold expire_request, overdue_request.
  case_bool_decide as Hp; cbn; [|done]. case_match; [|done]. unfold same_request. cbn. by rewrite Hp.
Qed.

(** The state after a granted request: asking again needs a new approval. *)
Definition asks_again p rule action s : Prop :=
  match rposition (same_request (approval_fingerprint action) (ru_id rule)) (as_requests s) with
  | None => True
  | Some i => ∃ r, as_requests s !! i = Some r ∧ ar_status r = Expired ∧ po_strict_mode p = true
  end.

Lemma gate_asks_again p rule action now s :
  asks_again p rule action s →
  ∃ s', gate_decision p rule action now s =
    (s', true, deny_required (request_id_of (as_next_request_id s)) rule).
Proof.
  unfold asks_again, gate_decision. cbn -[push_request rposition]. rewrite rposition_expired.
  destruct (rposition _ (as_requests s)) as [i|]; [|intros _; by eexists].
  intros (r & Hr & Hst & Hp). rewrite list_lookup_fmap, Hr. cbn.
  rewrite expire_inert by (unfold overdue_request; by rewrite Hst). rewrite Hst, Hp. by eexists.
Qed.

Lemma decide_snoc l r status reason actor now v n :
  ar_status r = Pending → status = Approved ∨ status = Rejected →
  (∀ i r', l !! i = Some r' → ar_id r' ≠ ar_id r) →
  ∃ d, decide_request (mkApprovalStore v n (l ++ [r])) (ar_id r) status reason actor now =
    Ok (mkApprovalStore v n (l ++ [d]), d) ∧ ar_status d = status ∧
    ar_fingerprint d = ar_fingerprint r ∧ ar_rule_id d = ar_rule_id r.
Proof.
  intros Hp Hst Hne. unfold decide_request.
  assert ((l ++ [r]) !! length l = Some r) as Hlast by (by apply list_lookup_middle).
  rewrite (position_unique _ _ (length l) r); [|done|apply String.eqb_refl|].
  2: { intros j y Hj Hy%String.eqb_eq. cbn in Hj. apply lookup_app_Some in Hj as [Hj|[Hj Hy']].
       - by destruct (Hne j y Hj).
       - apply list_lookup_singleton_Some in Hy' as [? _]. lia. }
  cbn. rewrite Hlast. cbn. rewrite (bool_decide_eq_true_2 (ar_status r = Pending)) by done. cbn.
  assert (bool_decide (status = Approved) || bool_decide (status = Rejected) = true) as ->.
  { by destruct Hst as [->| ->]. }
  cbn. eexists. split.
  { unfold set_requests. cbn. by rewrite insert_app_r_alt, Nat.sub_diag. }
  by split_and!.
Qed.

(** An approved request at the end is spent. *)
Lemma gate_spends_last p rule action now v n l d :
  ar_status d = Approved → ar_fingerprint d = approval_fingerprint action → ar_rule_id d = ru_id rule →
  gate_decision p rule action now (mkApprovalStore v n (l ++ [d])) =
    (mkApprovalStore v n ((expire_request now <$> l) ++ [consume now d]), true, Allowed).
Proof.
  intros Hst Hfp Hrid. unfold gate_decision, expire_pending_requests, set_requests.
  cbn [as_requests as_schema_version as_next_request_id]. rewrite fmap_app. cbn [fmap list_fmap].
  rewrite (expire_inert now d) by (apply decided_not_overdue; by rewrite Hst).
  rewrite rposition_snoc. unfold same_request at 1.
  rewrite Hst, Hfp, Hrid, !String.eqb_refl. cbn [andb is_live].
  rewrite list_lookup_middle, Hst by done. by rewrite insert_app_r_alt, Nat.sub_diag.
Qed.

Lemma asks_again_expired p rule action v n l t :
  asks_again p rule action (mkApprovalStore v n l) →
  asks_again p rule action (mkApprovalStore v n (expire_request t <$> l)).
Proof.
  unfold asks_again. cbn [as_requests]. rewrite rposition_expired.
  destruct (rposition _ l) as [i|]; [|done]. intros (r & Hr & Hst & Hp).
  exists r. split_and!; [|done|done]. rewrite list_lookup_fmap, Hr. cbn.
  by rewrite expire_inert by (apply decided_not_overdue; by rewrite Hst).
Qed.

(** A spent request at the end changes nothing for the next check. *)
Lemma asks_again_consumed p rule action v n v' n' l d t :
  asks_again p rule action (mkApprovalStore v n l) →
  asks_again p rule action (mkApprovalStore v' n' (l ++ [consume t d])).
Proof.
  unfold asks_again. cbn [as_requests]. rewrite rposition_snoc.
  assert (same_request (approval_fingerprint action) (ru_id rule) (consume t d) = false) as ->
    by apply andb_false_r.
  destruct (rposition _ l) as [i|]; [|done]. intros (r & Hr & Hst & Hp).
  exists r. split_and!; [|done|done]. by apply lookup_app_l_Some.
Qed.

Lemma next_id_fresh k : (k < u64_max)%N → request_id_of (saturating_add_u64 k 1) ≠ request_id_of k.
Proof. intros Hk Heq%request_id_of_inj. unfold saturating_add_u64 in Heq. lia. Qed.

(** What the check that asked for approval left behind. *)
Lemma required_leaves p rule action s s1 b q rid m t0 :
  gate_decision p rule action t0 s = (s1, b, Denied q rid "approval_required" m) →
  ∃ l r, s1 = mkApprovalStore (as_schema_version s) (saturating_add_u64 (as_next_request_id s) 1)
      ((expire_request t0 <$> l) ++ [r]) ∧
    l = as_requests s ∧ asks_again p rule action (mkApprovalStore (as_schema_version s)
      (as_next_request_id s) (expire_request t0 <$> l)) ∧
    q = request_id_of (as_next_request_id s) ∧ ar_id r = q ∧ ar_status r = Pending ∧
    ar_fingerprint r = approval_fingerprint action ∧ ar_rule_id r = ru_id rule ∧
    ar_expires_at_ms r = saturating_add_u64 t0 (saturating_mul_u64 (po_timeout_seconds p) 1000).
Proof.
  intros (-> & -> & Hbefore)%gate_required. eexists _, _. by split_and!.
Qed.

(** An approval in time lets the action run exactly once.  When the gate
    asks for approval, approving that request before it times out makes the
    next check of the same action pass, and the check after that asks for a new
    approval under another request id. *)
Theorem approval_grants_one_run p rule action s s1 b q rid m t0 t1 t2 t3 reason actor :
  numbered s →
  gate_decision p rule action t0 s = (s1, b, Denied q rid "approval_required" m) →
  (t1 ≤ saturating_add_u64 t0 (saturating_mul_u64 (po_timeout_seconds p) 1000))%N →
  ∃ s2 d s3 s4 q',
    decide_request (expire_pending_requests s1 t1).1 q Approved reason actor t1 = Ok (s2, d) ∧
    gate_decision p rule action t2 s2 = (s3, true, Allowed) ∧
    gate_decision p rule action t3 s3 = (s4, true, deny_required q' rule) ∧ q' ≠ q.
Proof.
  intros (Hnext & Hroom & Hids) Hgate Hin.
  destruct (required_leaves _ _ _ _ _ _ _ _ _ _ Hgate)
    as (l & r & -> & Hl & Hask & Hq & Hid & Hst & Hfp & Hrid & Hexp).
  set (n := saturating_add_u64 (as_next_request_id s) 1).
  set (l1 := expire_request t1 <$> (expire_request t0 <$> l)).
  assert ((expire_pending_requests (mkApprovalStore (as_schema_version s) n
    ((expire_request t0 <$> l) ++ [r])) t1).1 = mkApprovalStore (as_schema_version s) n (l1 ++ [r])) as ->.
  { unfold expire_pending_requests, set_requests. cbn [fst as_requests as_schema_version as_next_request_id].
    rewrite fmap_app. cbn [fmap list_fmap]. rewrite (expire_inert t1 r); [done|].
    apply not_overdue. by rewrite Hexp. }
  destruct (decide_snoc l1 r Approved reason actor t1 (as_schema_version s) n)
    as (d & Hd & Hdst & Hdfp & Hdrid); [done|by left| |].
  { intros i r'. unfold l1. rewrite !list_lookup_fmap, Hl.
    destruct (as_requests s !! i) as [r0|] eqn:Hr0; [|done]. intros [= <-].
    rewrite !expire_id, (Hids i r0 Hr0), Hid, Hq. intros Heq%request_id_of_inj.
    apply lookup_lt_Some in Hr0. lia. }
  rewrite Hid in Hd. eapply asks_again_expired in Hask. fold l1 in Hask.
  eapply asks_again_expired, asks_again_consumed in Hask.
  destruct (gate_asks_again p rule action t3 _ Hask) as (s4 & Hs4).
  eexists _, d, _, s4, _. split_and!; [exact Hd| |exact Hs4|].
  - apply gate_spends_last; congruence.
  - subst q. by apply next_id_fresh.
Qed.
End scenario.

(** ** A concrete codec, policy and execution *)

#[export] Instance ApprovalRequestStatus_countable : Countable ApprovalRequestStatus.
Proof.
  refine (inj_countable'
    (λ s, match s with Pending => 0 | Approved => 1 | Rejected => 2 | Expired => 3 | Consumed => 4 end)
    (λ n, match n with 0 => Pending | 1 => Approved | 2 => Rejected | 3 => Expired | _ => Consumed end) _).
  by intros [].
Defined.

#[export] Instance ApprovalAction_eq_dec : EqDecision ApprovalAction.
Proof. solve_decision. Defined.
#[export] Instance ApprovalAction_countable : Countable ApprovalAction.
Proof.
  refine (inj_countable'
    (λ a, match a with
          | ToolBash c d => inl (inl (c, d))
          | ToolWrite p b => inl (inr (p, b))
          | ToolEdit p f b => inr (inl (p, f, b))
          | Command n a => inr (inr (n, a))
          end)
    (λ s, match s with
          | inl (inl (c, d)) => ToolBash c d
          | inl (inr (p, b)) => ToolWrite p b
          | inr (inl (p, f, b)) => ToolEdit p f b
          | inr (inr (n, a)) => Command n a
          end) _).
  by intros [].
Defined.

#[export] Instance ApprovalRequestRecord_eq_dec : EqDecision ApprovalRequestRecord.
Proof. solve_decision. Defined.
#[export] Instance ApprovalRequestRecord_countable : Countable ApprovalRequestRecord.
Proof.
  refine (inj_countable'
    (λ r, (ar_id r, ar_rule_id r, ar_action_kind r, ar_action_summary r, ar_fingerprint r,
           ar_status r, (ar_created_at_ms r, ar_expires_at_ms r, ar_decision_at_ms r,
           ar_decision_reason r, ar_decision_actor r, ar_consumed_at_ms r)))
    (λ '(i, ru, k, su, f, st, (c, e, d, dr, da, co)), mkApproval i ru k su f st c e d dr da co) _).
  by intros [].
Defined.

#[export] Instance ApprovalStoreFile_eq_dec : EqDecision ApprovalStoreFile.
Proof. solve_decision. Defined.
#[export] Instance ApprovalStoreFile_countable : Countable ApprovalStoreFile.
Proof.
  refine (inj_countable' (λ s, (as_schema_version s, as_next_request_id s, as_requests s))
    (λ '(v, n, l), mkApprovalStore v n l) _).
  by intros [].
Defined.

Definition demo_policy : ApprovalPolicyFile :=
  mkPolicy 1 true true 900 [mkRule "r" "tool:bash" ["rm"] [] []].

#[export] Instance bits_approvals : ApprovalCodec :=
  {| decode_policy := λ _, Some demo_policy;
     encode_store := encode_bits;
     decode_store := decode_bits;
     approval_fingerprint := encode_bits |}.

#[export] Instance bits_approvals_laws : ApprovalCodecLaws.
Proof. split; [apply decode_encode_bits|apply _]. Qed.

#[export] Instance ApprovalPolicyRule_eq_dec : EqDecision ApprovalPolicyRule.
Proof. solve_decision. Defined.
#[export] Instance ApprovalPolicyFile_eq_dec : EqDecision ApprovalPolicyFile.
Proof. solve_decision. Defined.

Definition demo_fs : TextFs :=
  mkTextFs {["policy" := "x"]} ∅ (λ _, false) (λ _, false) 7 1000.
Definition demo_action : ApprovalAction := ToolBash "rm a" None.
Definition is_demo_policy (q : ApprovalPolicyFile) : bool := bool_decide (q = demo_policy).

(** Asked, refused, approved, run, refused again. *)
Definition demo_ops : list ApprovalOp :=
  [OpGate demo_action; OpDecide "req-1" Approved None None; OpClock 2000; OpGate demo_action;
   OpGate demo_action; OpList].
Definition demo_result : TextFs * list ApprovalEvent :=
  default (demo_fs, []) (run_ops "policy" "store" demo_policy is_demo_policy demo_fs [] demo_ops).
Definition demo_end : TextFs := demo_result.1.
Definition demo_events : list ApprovalEvent := demo_result.2.

(** Executing [ops] from [fs] gives an execution, when it evaluates at all. *)
Lemma run_demo fs ops :
  is_Some (run_ops "policy" "store" demo_policy is_demo_policy fs [] ops) →
  let result := default (demo_fs, [])
    (run_ops "policy" "store" demo_policy is_demo_policy fs [] ops) in
  approval_run "policy" "store" demo_policy fs result.2 result.1.
Proof.
  intros [[fs' evs] Hrun]. cbn. rewrite Hrun. cbn.
  eapply (run_ops_run "policy" "store" demo_policy is_demo_policy); [|constructor|exact Hrun].
  intros q Hq. by apply bool_decide_eq_true in Hq.
Qed.

Lemma demo_run : approval_run "policy" "store" demo_policy demo_fs demo_events demo_end.
Proof. apply (run_demo demo_fs demo_ops), (bool_decide_unpack _). by vm_cast_no_check I. Qed.

Definition demo_rule : ApprovalPolicyRule := mkRule "r" "tool:bash" ["rm"] [] [].

Lemma approvals_spent_once_witness :
  granted (approval_fingerprint demo_action) "r" demo_events = 1 ∧
  ∃ s', load_approval_store demo_end "store" = Ok s' ∧
    granted (approval_fingerprint demo_action) "r" demo_events +
      credit (approval_fingerprint demo_action) "r" s' =
    approved (approval_fingerprint demo_action) "r" demo_events +
      credit (approval_fingerprint demo_action) "r" approval_store_default.
Proof.
  split; [by vm_compute|].
  exact (approvals_spent_once "policy" "store" demo_policy demo_fs approval_store_default demo_events
    demo_end demo_action demo_rule eq_refl eq_refl eq_refl demo_run).
Defined.

(** The state after the first check: one pending request. *)
Definition asked_fs : TextFs := (approval_op "policy" "store" demo_policy demo_fs (OpGate demo_action)).1.
Definition asked_store : ApprovalStoreFile :=
  (gate_decision demo_policy demo_rule demo_action 1000 approval_store_default).1.1.
Definition asked_request : ApprovalRequestRecord :=
  default (mkApproval "" "" "" "" "" Pending 0 0 None None None None) (as_requests asked_store !! 0).

(** A rejected request stays rejected. *)
Definition reject_ops : list ApprovalOp :=
  [OpDecide "req-1" Rejected (Some "no") None; OpGate demo_action;
   OpDecide "req-1" Approved None None; OpClock 5000000; OpList].
Definition reject_result : TextFs * list ApprovalEvent :=
  default (demo_fs, []) (run_ops "policy" "store" demo_policy is_demo_policy asked_fs [] reject_ops).

Lemma reject_run :
  approval_run "policy" "store" demo_policy asked_fs reject_result.2 reject_result.1.
Proof. apply (run_demo asked_fs reject_ops), (bool_decide_unpack _). by vm_cast_no_check I. Qed.

Lemma approval_requests_final_witness :
  ∃ s' r', load_approval_store reject_result.1 "store" = Ok s' ∧ as_requests s' !! 0 = Some r' ∧
    request_later asked_request r' ∧
    (ar_status asked_request = Rejected ∨ ar_status asked_request = Expired ∨
       ar_status asked_request = Consumed → ar_status r' = ar_status asked_request).
Proof.
  apply (approval_requests_final "policy" "store" demo_policy asked_fs asked_store reject_result.2
    reject_result.1 0 asked_request); [done|done|by vm_compute|apply reject_run|by vm_compute].
Defined.

Lemma approval_grants_one_run_witness :
  ∃ s2 d s3 s4 q',
    decide_request (expire_pending_requests asked_store 5000).1 "req-1" Approved None None 5000 =
      Ok (s2, d) ∧
    gate_decision demo_policy demo_rule demo_action 6000 s2 = (s3, true, Allowed) ∧
    gate_decision demo_policy demo_rule demo_action 7000 s3 = (s4, true, deny_required q' demo_rule) ∧
    q' ≠ "req-1".
Proof.
  apply (approval_grants_one_run demo_policy demo_rule demo_action approval_store_default asked_store true
    "req-1" "r" "approval required before action execution" 1000 5000 6000 7000 None None).
  - split; [done|split; [done|]]. intros i r Hr. cbn in Hr. by rewrite lookup_nil in Hr.
  - by vm_compute.
  - by vm_compute.
Defined.
