(* ===== verification/Rbac.v ===== *)
(** * Role-based access control ([tau-access], [rbac.rs])

    Who may run which command or tool: bindings give roles to principals, roles
    allow and deny actions, both by patterns with a trailing wildcard.  The
    policy is a JSON file read at every check; [serde_json] is the class
    [RbacCodec].  The process environment is a function of the variable name. *)

From Stdlib Require Import Ascii NArith Lia.
From stdpp Require Import base gmap sets strings list.
From S2P Require Import Prelude RustStr AtomicIo.

#[local] Open Scope string_scope.
#[local] Open Scope list_scope.
#[local] Open Scope nat_scope.

(** ** Data *)

Record RbacRolePolicy := mkRolePolicy { rp_allow : list string; rp_deny : list string }.

Record RbacBinding := mkBinding { bi_principal : string; bi_roles : list string }.

(** The [BTreeMap] of roles is its list of entries in key order. *)
Record RbacPolicyFile := mkRbacPolicy
  { rb_schema_version : N; rb_team_mode : bool; rb_bindings : list RbacBinding;
    rb_roles : list (string * RbacRolePolicy) }.

Definition RBAC_SCHEMA_VERSION : N := 1.

Definition rbac_policy_default : RbacPolicyFile := mkRbacPolicy RBAC_SCHEMA_VERSION false [] [].

Inductive RbacDecision :=
| RbacAllow (reason_code : string) (matched_role matched_pattern : option string)
| RbacDeny (reason_code : string) (matched_role matched_pattern : option string).

Definition rbac_is_allowed (d : RbacDecision) : bool :=
  match d with RbacAllow _ _ _ => true | RbacDeny _ _ _ => false end.
Definition reason_code (d : RbacDecision) : string :=
  match d with RbacAllow c _ _ | RbacDeny c _ _ => c end.
Definition matched_role (d : RbacDecision) : option string :=
  match d with RbacAllow _ r _ | RbacDeny _ r _ => r end.
Definition matched_pattern (d : RbacDecision) : option string :=
  match d with RbacAllow _ _ p | RbacDeny _ _ p => p end.

Inductive RbacError :=
| RbacReadError (path : string)
| RbacParseError (path : string)
| RbacUnsupportedVersion (found : N)
| EmptyPrincipal
| DuplicatePrincipal (principal : string)
| BindingWithoutRoles (principal : string)
| EmptyBoundRole (principal : string)
| EmptyRoleId
| RoleWithoutRules (role : string).

(** The outermost message, as [{error}] prints it. *)
Definition rbac_error_text (e : RbacError) : string :=
  match e with
  | RbacReadError path => "failed to read rbac policy file " +:+ path
  | RbacParseError path => "failed to parse rbac policy file " +:+ path
  | RbacUnsupportedVersion v =>
      "unsupported rbac schema version " +:+ show_u64 v +:+ " (expected " +:+
      show_u64 RBAC_SCHEMA_VERSION +:+ ")"
  | EmptyPrincipal => "rbac binding principal must not be empty"
  | DuplicatePrincipal p =>
      "duplicate rbac principal binding '" +:+ p +:+ "'; merge roles into one binding"
  | BindingWithoutRoles p =>
      "rbac binding for principal '" +:+ p +:+ "' must include at least one role"
  | EmptyBoundRole p => "rbac binding for principal '" +:+ p +:+ "' contains empty role id"
  | EmptyRoleId => "rbac role id must not be empty"
  | RoleWithoutRules r =>
      "rbac role '" +:+ r +:+ "' must include at least one allow or deny rule"
  end.

(** ** Principals *)

Definition env_vars : Type := string → option string.

Definition sanitize_char (c : ascii) : ascii :=
  ascii_lower
    (if is_ascii_alphanumeric c || Ascii.eqb c "-" || Ascii.eqb c "_" then c else "-"%char).

(** A character of several bytes becomes one ['-']. *)
Definition sanitize_principal_component (raw : string) : string :=
  let trimmed := trim raw in
  if is_empty trimmed then "unknown"
  else
    let output :=
      of_chars (sanitize_char <$> List.filter is_char_start (chars_of trimmed)) in
    if is_empty output then "unknown" else output.

Definition local_principal (env : env_vars) (actor_override : option string) : string :=
  let given := match trim <$> actor_override with
               | Some value => if is_empty value then None else Some value
               | None => None
               end in
  let first_of (a b : option string) := match a with Some x => Some x | None => b end in
  let actor :=
    default "operator"
      (first_of given (first_of (env "TAU_RBAC_LOCAL_ACTOR") (first_of (env "USER") (env "LOGNAME")))) in
  "local:" +:+ sanitize_principal_component actor.

Definition github_principal (login : string) : string :=
  "github:" +:+ sanitize_principal_component login.
Definition slack_principal (user_id : string) : string :=
  "slack:" +:+ sanitize_principal_component user_id.
Definition discord_principal (user_id : string) : string :=
  "discord:" +:+ sanitize_principal_component user_id.
Definition telegram_principal (user_id : string) : string :=
  "telegram:" +:+ sanitize_principal_component user_id.

(** ** The policy file *)

Fixpoint validate_bindings (bindings : list RbacBinding) (seen_principals : gset string)
    : Result RbacError unit :=
  match bindings with
  | [] => Ok tt
  | b :: rest =>
      _ ← bail_if (is_empty (trim (bi_principal b))) EmptyPrincipal;
      _ ← bail_if (bool_decide (bi_principal b ∈ seen_principals))
            (DuplicatePrincipal (bi_principal b));
      _ ← bail_if (bool_decide (bi_roles b = [])) (BindingWithoutRoles (bi_principal b));
      _ ← bail_if (existsb (λ role, is_empty (trim role)) (bi_roles b))
            (EmptyBoundRole (bi_principal b));
      validate_bindings rest ({[bi_principal b]} ∪ seen_principals)
  end.

Fixpoint validate_roles (roles : list (string * RbacRolePolicy)) : Result RbacError unit :=
  match roles with
  | [] => Ok tt
  | (role_id, role_policy) :: rest =>
      _ ← bail_if (is_empty (trim role_id)) EmptyRoleId;
      _ ← bail_if (bool_decide (rp_allow role_policy = []) && bool_decide (rp_deny role_policy = []))
            (RoleWithoutRules role_id);
      validate_roles rest
  end.

Definition validate_rbac_policy (policy : RbacPolicyFile) : Result RbacError unit :=
  _ ← bail_if (negb (rb_schema_version policy =? RBAC_SCHEMA_VERSION)%N)
        (RbacUnsupportedVersion (rb_schema_version policy));
  _ ← validate_bindings (rb_bindings policy) ∅;
  validate_roles (rb_roles policy).

(** ** Decisions *)

Definition wildcard_pattern_matches (pattern value : string) : bool :=
  if String.eqb pattern "*" then true
  else match strip_suffix "*" pattern with
  | Some prefix => starts_with prefix value
  | None => String.eqb pattern value
  end.

Definition principal_pattern_matches := wildcard_pattern_matches.
Definition permission_pattern_matches := wildcard_pattern_matches.

Definition insert_role (roles : list string) (role : string) : list string :=
  if is_empty (trim role) then roles else btree_insert (trim role) roles.

Definition resolve_roles_for_principal (policy : RbacPolicyFile) (principal : string)
    : list string :=
  fold_left (λ roles b,
    if principal_pattern_matches (bi_principal b) principal
    then fold_left insert_role (bi_roles b) roles
    else roles) (rb_bindings policy) [].

Definition role_get (policy : RbacPolicyFile) (role : string) : option RbacRolePolicy :=
  snd <$> List.find (λ entry, String.eqb entry.1 role) (rb_roles policy).

(** The first role with a pattern that matches, and that pattern. *)
Fixpoint first_match (policy : RbacPolicyFile) (patterns : RbacRolePolicy → list string)
    (action : string) (roles : list string) : option (string * string) :=
  match roles with
  | [] => None
  | role :: rest =>
      match role_get policy role with
      | None => first_match policy patterns action rest
      | Some role_policy =>
          match List.find (λ pattern, permission_pattern_matches pattern action)
                  (patterns role_policy) with
          | Some pattern => Some (role, pattern)
          | None => first_match policy patterns action rest
          end
      end
  end.

Definition evaluate_policy (policy : RbacPolicyFile) (principal action : string) : RbacDecision :=
  let principal := trim principal in
  if negb (rb_team_mode policy) then RbacAllow "allow_team_mode_disabled" None None
  else if is_empty principal then RbacDeny "deny_principal_missing" None None
  else
    let roles := resolve_roles_for_principal policy principal in
    if bool_decide (roles = []) then RbacDeny "deny_unbound_principal" None None
    else
      match first_match policy rp_deny action roles with
      | Some (role, pattern) => RbacDeny "deny_role_policy" (Some role) (Some pattern)
      | None =>
          match first_match policy rp_allow action roles with
          | Some (role, pattern) => RbacAllow "allow_role_policy" (Some role) (Some pattern)
          | None => RbacDeny "deny_no_matching_allow" None None
          end
      end.

(** JSON: reading the policy file, and printing the two reports. *)
Class RbacCodec :=
  { decode_rbac_policy : string → option RbacPolicyFile;
    whoami_json : string → bool → list string → string → string;
    check_json : string → string → RbacDecision → string → string }.

Section rbac.
Context `{!RbacCodec}.

Definition load_rbac_policy (fs : TextFs) (path : string) : Result RbacError RbacPolicyFile :=
  match fs_files fs !! path with
  | None =>
      if bool_decide (path ∈ fs_dirs fs) then Err (RbacReadError path) else Ok rbac_policy_default
  | Some raw =>
      parsed ← ok_or (RbacParseError path) (decode_rbac_policy raw);
      _ ← validate_rbac_policy parsed;
      Ok parsed
  end.

Definition authorize_action_for_principal_with_policy_path (fs : TextFs)
    (principal action policy_path : string) : Result RbacError RbacDecision :=
  policy ← load_rbac_policy fs policy_path;
  Ok (evaluate_policy policy principal action).

Definition authorize_tool_for_principal_with_policy_path (fs : TextFs) (env : env_vars)
    (principal : option string) (tool_name policy_path : string) : Result RbacError RbacDecision :=
  let principal :=
    match trim <$> principal with
    | Some value => if is_empty value then local_principal env None else value
    | None => local_principal env None
    end in
  authorize_action_for_principal_with_policy_path fs principal ("tool:" +:+ tool_name) policy_path.

Definition default_rbac_policy_path (env : env_vars) : string :=
  match trim <$> env "TAU_RBAC_POLICY_PATH" with
  | Some path => if is_empty path then ".tau/security/rbac.json" else path
  | None => ".tau/security/rbac.json"
  end.

Definition authorize_command_for_principal (fs : TextFs) (env : env_vars)
    (principal command_name : string) : Result RbacError RbacDecision :=
  authorize_action_for_principal_with_policy_path fs principal ("command:" +:+ command_name)
    (default_rbac_policy_path env).

(** ** The [/rbac] command *)

Inductive RbacOutputFormat := RbacText | RbacJson.

Inductive RbacCommand :=
| WhoAmI (principal : string) (format : RbacOutputFormat)
| RbacCheck (principal action : string) (format : RbacOutputFormat).

(** Every parse error is answered with the usage text. *)
Definition resolve_principal_input (env : env_vars) (principal channel actor : option string)
    : option string :=
  match principal with
  | Some principal => if is_empty (trim principal) then None else Some (trim principal)
  | None =>
      let channel := default "local" channel in
      if String.eqb channel "local" then Some (local_principal env actor)
      else if String.eqb channel "github" then github_principal <$> actor
      else if String.eqb channel "slack" then slack_principal <$> actor
      else if String.eqb channel "discord" then discord_principal <$> actor
      else if String.eqb channel "telegram" then telegram_principal <$> actor
      else None
  end.

(** The loop over the flags, shared by both subcommands. *)
Fixpoint parse_rbac_flags (tokens : list string) (format : RbacOutputFormat)
    (principal channel actor : option string)
    : option (RbacOutputFormat * option string * option string * option string) :=
  match tokens with
  | [] => Some (format, principal, channel, actor)
  | token :: rest =>
      if String.eqb token "--json" then parse_rbac_flags rest RbacJson principal channel actor
      else match rest with
      | [] => None
      | value :: rest =>
          if String.eqb token "--principal"
          then parse_rbac_flags rest format (Some value) channel actor
          else if String.eqb token "--channel"
          then parse_rbac_flags rest format principal (Some value) actor
          else if String.eqb token "--actor"
          then parse_rbac_flags rest format principal channel (Some value)
          else None
      end
  end.

Definition parse_rbac_whoami (env : env_vars) (tokens : list string) : option RbacCommand :=
  '(format, principal, channel, actor) ← parse_rbac_flags tokens RbacText None None None;
  principal ← resolve_principal_input env principal channel actor;
  Some (WhoAmI principal format).

Definition parse_rbac_check (env : env_vars) (tokens : list string) : option RbacCommand :=
  match tokens with
  | [] => None
  | action :: rest =>
      if starts_with "--" action then None
      else
        '(format, principal, channel, actor) ← parse_rbac_flags rest RbacText None None None;
        principal ← resolve_principal_input env principal channel actor;
        Some (RbacCheck principal action format)
  end.

Definition parse_rbac_command (env : env_vars) (command_args : string) : option RbacCommand :=
  match split_whitespace command_args with
  | [] => None
  | first :: rest =>
      if String.eqb first "whoami" then parse_rbac_whoami env rest
      else if String.eqb first "check" then parse_rbac_check env rest
      else None
  end.

Definition show_bool (b : bool) : string := if b then "true" else "false".

Definition render_whoami (fs : TextFs) (principal : string) (format : RbacOutputFormat)
    (policy_path : string) : Result RbacError string :=
  policy ← load_rbac_policy fs policy_path;
  let roles := resolve_roles_for_principal policy principal in
  let roles_text := match roles with [] => "none" | _ => join "," roles end in
  Ok match format with
     | RbacText =>
         "rbac whoami: principal=" +:+ principal +:+ " team_mode=" +:+
         show_bool (rb_team_mode policy) +:+ " roles=" +:+ roles_text +:+ " policy=" +:+ policy_path
     | RbacJson => whoami_json principal (rb_team_mode policy) roles policy_path
     end.

Definition render_check (fs : TextFs) (principal action : string) (format : RbacOutputFormat)
    (policy_path : string) : Result RbacError string :=
  decision ← authorize_action_for_principal_with_policy_path fs principal action policy_path;
  Ok match format with
     | RbacText =>
         "rbac check: principal=" +:+ principal +:+ " action=" +:+ action +:+ " decision=" +:+
         (if rbac_is_allowed decision then "allow" else "deny") +:+ " reason_code=" +:+
         reason_code decision +:+ " matched_role=" +:+ default "none" (matched_role decision) +:+
         " matched_pattern=" +:+ default "none" (matched_pattern decision) +:+ " policy=" +:+
         policy_path
     | RbacJson => check_json principal action decision policy_path
     end.

Definition RBAC_USAGE : string := "usage: /rbac <check|whoami> ...".

Definition execute_rbac_command_with_path (fs : TextFs) (env : env_vars)
    (command_args policy_path : string) : string :=
  let output r := match r with Ok text => text | Err e => "rbac error: " +:+ rbac_error_text e end in
  match parse_rbac_command env command_args with
  | None => RBAC_USAGE
  | Some (WhoAmI principal format) => output (render_whoami fs principal format policy_path)
  | Some (RbacCheck principal action format) =>
      output (render_check fs principal action format policy_path)
  end.
End rbac.

Example wildcard_examples :
  permission_pattern_matches "tool:*" "tool:bash" = true ∧
  permission_pattern_matches "command:/session*" "command:/session-stats" = true ∧
  permission_pattern_matches "*" "anything" = true ∧
  permission_pattern_matches "tool:write" "tool:edit" = false ∧
  github_principal " Ann.B " = "github:ann-b" ∧
  parse_rbac_command (λ _, None) "check tool:bash --channel github --actor Ann --json" =
    Some (RbacCheck "github:ann" "tool:bash" RbacJson) ∧
  parse_rbac_command (λ _, None) "whoami --actor" = None.
Proof. by vm_compute. Qed.

(** ** Theorems on role-based access control

    A decision allows an action exactly when some role of the principal allows
    it and none denies it; patterns mean prefixes; principals of one channel are
    never matched by the wildcard of another; a policy file that cannot be read,
    parsed or validated authorises nothing. *)

(** ** What a pattern means *)

(** A pattern with a final [*] stands for every value with that prefix, any
    other pattern for itself. *)
Definition pattern_denotes (pattern value : string) : Prop :=
  (∃ prefix rest, pattern = prefix +:+ "*" ∧ value = prefix +:+ rest) ∨
  ((∀ prefix, pattern ≠ prefix +:+ "*") ∧ pattern = value).

Lemma starts_with_app p s : starts_with p s = true ↔ ∃ rest, s = p +:+ rest.
Proof.
  unfold starts_with, strip_prefix.
  destruct (strip_prefix_chars (chars_of p) (chars_of s)) as [r|] eqn:Hr; cbn; split; try done.
  - intros _. exists (of_chars r). apply strip_prefix_chars_Some in Hr.
    apply chars_of_inj. by rewrite chars_of_app, chars_of_of_chars.
  - intros [rest ->]. rewrite chars_of_app in Hr.
    by rewrite (proj2 (strip_prefix_chars_Some _ _ (chars_of rest)) eq_refl) in Hr.
Qed.

Lemma strip_suffix_star p prefix : strip_suffix "*" p = Some prefix ↔ p = prefix +:+ "*".
Proof.
  unfold strip_suffix.
  destruct (strip_prefix_chars (reverse (chars_of "*")) (reverse (chars_of p))) as [r|] eqn:Hr; cbn.
  - apply strip_prefix_chars_Some in Hr. apply (f_equal reverse) in Hr.
    rewrite reverse_involutive, reverse_app in Hr. cbn in Hr.
    assert (p = of_chars (reverse r) +:+ "*") as Hp.
    { apply chars_of_inj. by rewrite chars_of_app, chars_of_of_chars. }
    split; [intros [= <-]; done|]. intros ->. f_equal.
    apply (f_equal chars_of) in Hp. rewrite !chars_of_app in Hp. apply app_inj_tail in Hp as [Hp _].
    by apply chars_of_inj.
  - split; [done|]. intros ->. exfalso. rewrite chars_of_app, reverse_app in Hr.
    change (reverse (chars_of "*")) with ["*"%char] in Hr. done.
Qed.

Lemma wildcard_denotes pattern value :
  wildcard_pattern_matches pattern value = true ↔ pattern_denotes pattern value.
Proof.
  unfold wildcard_pattern_matches, pattern_denotes.
  destruct (String.eqb_spec pattern "*") as [->|Hne].
  { split; [|done]. intros _. left. by exists "", value. }
  destruct (strip_suffix "*" pattern) as [prefix|] eqn:Hs.
  - apply strip_suffix_star in Hs as ->. rewrite starts_with_app. split.
    + intros [rest ->]. left. by exists prefix, rest.
    + intros [(p & rest & Heq & ->)|[Hno _]]; [|by destruct (Hno prefix)]. exists rest.
      apply strip_suffix_star in Heq. rewrite (proj2 (strip_suffix_star _ prefix) eq_refl) in Heq.
      by injection Heq as ->.
  - rewrite String.eqb_eq. split.
    + intros ->. right. split; [|done]. intros prefix Hp%strip_suffix_star. congruence.
    + intros [(p & rest & Hp%strip_suffix_star & _)|[_ Heq]]; [congruence|done].
Qed.

(** ** Decisions *)

(** A binding for the principal names the role. *)
Definition holds_role (policy : RbacPolicyFile) (principal role : string) : Prop :=
  role ≠ "" ∧ ∃ b raw, b ∈ rb_bindings policy ∧ pattern_denotes (bi_principal b) principal ∧
    raw ∈ bi_roles b ∧ trim raw = role.

(** The role has the rule, a rule for this action. *)
Definition has_rule (policy : RbacPolicyFile) (rules : RbacRolePolicy → list string)
    (role pattern action : string) : Prop :=
  ∃ rp, role_get policy role = Some rp ∧ pattern ∈ rules rp ∧ pattern_denotes pattern action.

Lemma elem_insert_roles names roles role :
  role ∈ fold_left insert_role names roles ↔
    role ∈ roles ∨ role ≠ "" ∧ ∃ raw, raw ∈ names ∧ trim raw = role.
Proof.
  revert roles. induction names as [|n names IH]; intros roles; cbn; [set_solver|].
  rewrite IH. unfold insert_role, is_empty. destruct (String.eqb_spec (trim n) "") as [He|He].
  - set_solver.
  - rewrite elem_btree_insert. set_solver.
Qed.

Lemma resolve_roles_holds policy principal role :
  role ∈ resolve_roles_for_principal policy principal ↔ holds_role policy principal role.
Proof.
  unfold resolve_roles_for_principal, holds_role. generalize (rb_bindings policy) as bs.
  assert (∀ bs roles, role ∈ fold_left (λ roles b,
      if principal_pattern_matches (bi_principal b) principal
      then fold_left insert_role (bi_roles b) roles else roles) bs roles ↔
    role ∈ roles ∨ role ≠ "" ∧ ∃ b raw, b ∈ bs ∧ pattern_denotes (bi_principal b) principal ∧
      raw ∈ bi_roles b ∧ trim raw = role) as Hall.
  { induction bs as [|b bs IH]; intros roles; cbn; [set_solver|]. rewrite IH.
    unfold principal_pattern_matches. pose proof (wildcard_denotes (bi_principal b) principal) as Hm.
    destruct (wildcard_pattern_matches (bi_principal b) principal).
    - assert (pattern_denotes (bi_principal b) principal) by (by apply Hm).
      rewrite elem_insert_roles. set_solver.
    - assert (¬ pattern_denotes (bi_principal b) principal) by (by intros ?%Hm). set_solver. }
  intros bs. rewrite Hall. set_solver.
Qed.

Lemma find_Some_elem {A} (f : A → bool) l x : List.find f l = Some x → x ∈ l ∧ f x = true.
Proof. intros [Hin Hf]%List.find_some. split; [by apply list_elem_of_In|done]. Qed.

Lemma find_None_all {A} (f : A → bool) l : List.find f l = None → ∀ x, x ∈ l → f x = false.
Proof. intros Hn x Hx. apply (List.find_none f l Hn). by apply list_elem_of_In. Qed.

Lemma first_match_Some policy rules action roles role pattern :
  first_match policy rules action roles = Some (role, pattern) →
  role ∈ roles ∧ has_rule policy rules role pattern action.
Proof.
  induction roles as [|r roles IH]; cbn; [done|].
  destruct (role_get policy r) as [rp|] eqn:Hrp; [|set_solver].
  destruct (List.find _ (rules rp)) as [p|] eqn:Hf; [|set_solver].
  intros [= <- <-]. apply find_Some_elem in Hf as [Hin Hm]. split; [set_solver|].
  exists rp. split_and!; [done|done|]. by apply wildcard_denotes.
Qed.

Lemma first_match_None policy rules action roles role pattern :
  first_match policy rules action roles = None → role ∈ roles →
  ¬ has_rule policy rules role pattern action.
Proof.
  induction roles as [|r roles IH]; cbn; [set_solver|].
  destruct (role_get policy r) as [rp|] eqn:Hrp.
  - destruct (List.find _ (rules rp)) as [p|] eqn:Hf; [done|].
    intros Hn [->|Hin]%elem_of_cons; [|by apply IH].
    intros (rp' & Hrp' & Hin & Hd%wildcard_denotes). assert (rp' = rp) as -> by congruence.
    pose proof (find_None_all _ _ Hf pattern Hin) as Hfalse.
    unfold permission_pattern_matches in Hfalse. congruence.
  - intros Hn [->|Hin]%elem_of_cons; [|by apply IH]. intros (rp & Hrp' & _). congruence.
Qed.

(** C13: in team mode an action is allowed exactly when some role of the
    principal has an allow rule for it and no role has a deny rule for it,
    where bindings and rules with a final [*] stand for prefixes; without team
    mode everything is allowed.  The role and rule a decision names are ones
    that decided it. *)
Theorem rbac_decision_exact policy principal action :
  let d := evaluate_policy policy principal action in
  let holds := holds_role policy (trim principal) in
  (rbac_is_allowed d = true ↔
     rb_team_mode policy = false ∨
     trim principal ≠ "" ∧
     (∃ role pattern, holds role ∧ has_rule policy rp_allow role pattern action) ∧
     ¬ (∃ role pattern, holds role ∧ has_rule policy rp_deny role pattern action)) ∧
  (∀ role pattern, matched_role d = Some role → matched_pattern d = Some pattern →
     holds role ∧
     has_rule policy (if rbac_is_allowed d then rp_allow else rp_deny) role pattern action).
Proof.
  cbn. unfold evaluate_policy, is_empty. destruct (rb_team_mode policy) eqn:Hteam; cbn.
  2: { split; [|done]. split; [by left|done]. }
  destruct (String.eqb_spec (trim principal) "") as [He|He]; cbn.
  { split; [|done]. split; [done|]. by intros [?|(? & _)]. }
  setoid_rewrite <- resolve_roles_holds.
  case_bool_decide as Hroles; cbn.
  { split; [|done]. split; [done|]. intros [?|(_ & (r & p & Hr & _) & _)]; [done|].
    rewrite Hroles in Hr. by apply elem_of_nil in Hr. }
  destruct (first_match policy rp_deny action _) as [[r p]|] eqn:Hd; cbn.
  { apply first_match_Some in Hd. split; [|intros r' p' [= <-] [= <-]; done]. split; [done|].
    intros [?|(_ & _ & Hno)]; [done|]. destruct Hno. by exists r, p. }
  assert (¬ ∃ r p, r ∈ resolve_roles_for_principal policy (trim principal) ∧
    has_rule policy rp_deny r p action) as Hno
    by (intros (r & p & Hr & Hp); exact (first_match_None _ _ _ _ _ _ Hd Hr Hp)).
  destruct (first_match policy rp_allow action _) as [[r p]|] eqn:Ha; cbn.
  { apply first_match_Some in Ha. split; [|intros r' p' [= <-] [= <-]; done]. split; [|done].
    intros _. right. split_and!; [done|by exists r, p|done]. }
  split; [|done]. split; [done|]. intros [?|(_ & (r & p & Hr & Hp) & _)]; [done|].
  destruct (first_match_None _ _ _ _ _ _ Ha Hr Hp).
Qed.

(** ** The policy file *)

(** What validation asks of a policy. *)
Definition rbac_conforms (policy : RbacPolicyFile) : Prop :=
  rb_schema_version policy = 1%N ∧
  NoDup (bi_principal <$> rb_bindings policy) ∧
  (∀ b, b ∈ rb_bindings policy →
     trim (bi_principal b) ≠ "" ∧ bi_roles b ≠ [] ∧ ∀ role, role ∈ bi_roles b → trim role ≠ "") ∧
  (∀ id rp, (id, rp) ∈ rb_roles policy → trim id ≠ "" ∧ ¬ (rp_allow rp = [] ∧ rp_deny rp = [])).

Lemma check_Ok_iff {E} (r k : Result E unit) :
  (r ≫= λ _, k) = Ok tt ↔ r = Ok tt ∧ k = Ok tt.
Proof. destruct r as [[]|]; cbn; naive_solver. Qed.

Lemma existsb_false_iff {A} (f : A → bool) l : existsb f l = false ↔ ∀ x, x ∈ l → f x = false.
Proof.
  induction l as [|y l IH]; cbn; [set_solver|]. rewrite orb_false_iff, IH. split.
  - intros [Hy Hl] x [->|Hx]%elem_of_cons; [done|by apply Hl].
  - intros Hall. split; [apply Hall; left|]. intros x Hx. apply Hall. by right.
Qed.

Lemma validate_bindings_Ok bs seen :
  validate_bindings bs seen = Ok tt ↔
  NoDup (bi_principal <$> bs) ∧ (∀ b, b ∈ bs → bi_principal b ∉ seen) ∧
  (∀ b, b ∈ bs →
     trim (bi_principal b) ≠ "" ∧ bi_roles b ≠ [] ∧ ∀ role, role ∈ bi_roles b → trim role ≠ "").
Proof.
  revert seen. induction bs as [|b bs IH]; intros seen; cbn [validate_bindings].
  { cbn. split; [|done]. intros _. split_and!; [constructor|set_solver..]. }
  rewrite !check_Ok_iff, IH, !bail_if_Ok, is_empty_false, !bool_decide_eq_false, existsb_false_iff.
  setoid_rewrite is_empty_false. rewrite fmap_cons, NoDup_cons, list_elem_of_fmap. set_solver.
Qed.

Lemma validate_roles_Ok roles :
  validate_roles roles = Ok tt ↔
  ∀ id rp, (id, rp) ∈ roles → trim id ≠ "" ∧ ¬ (rp_allow rp = [] ∧ rp_deny rp = []).
Proof.
  induction roles as [|[id rp] roles IH]; cbn [validate_roles]; [set_solver|].
  rewrite !check_Ok_iff, IH, !bail_if_Ok, is_empty_false, andb_false_iff, !bool_decide_eq_false.
  split.
  - intros (Hid & Hrules & Hall) id' rp' [[= -> ->]|Hin]%elem_of_cons; [|by apply Hall].
    split; [done|]. intros [? ?]. naive_solver.
  - intros Hall. destruct (Hall id rp ltac:(left)) as [Hid Hrules]. split_and!; [done| |].
    + destruct (decide (rp_allow rp = [])); naive_solver.
    + intros id' rp' Hin. apply Hall. by right.
Qed.

Lemma validate_rbac_policy_Ok policy : validate_rbac_policy policy = Ok tt ↔ rbac_conforms policy.
Proof.
  unfold validate_rbac_policy, rbac_conforms.
  rewrite !check_Ok_iff, bail_if_Ok, negb_false_iff, N.eqb_eq, validate_bindings_Ok, validate_roles_Ok.
  unfold RBAC_SCHEMA_VERSION. set_solver.
Qed.

Section files.
Context `{!RbacCodec}.

(** A policy file authorises only what it says.  A check returns a decision
    exactly when no policy file exists, and then it allows, or when the file is
    readable, parses and conforms, and then the decision is that policy's; a
    policy that is malformed in any way gives an error and never a decision. *)
Theorem rbac_fails_closed fs principal action path d :
  authorize_action_for_principal_with_policy_path fs principal action path = Ok d ↔
    (fs_files fs !! path = None ∧ (path ∉ fs_dirs fs) ∧
       d = RbacAllow "allow_team_mode_disabled" None None) ∨
    (∃ raw policy, fs_files fs !! path = Some raw ∧ decode_rbac_policy raw = Some policy ∧
       rbac_conforms policy ∧ d = evaluate_policy policy principal action).
Proof.
  unfold authorize_action_for_principal_with_policy_path, load_rbac_policy.
  destruct (fs_files fs !! path) as [raw|].
  - destruct (decode_rbac_policy raw) as [policy|] eqn:Hdec; cbn; [|naive_solver].
    pose proof (validate_rbac_policy_Ok policy) as Hok.
    destruct (validate_rbac_policy policy) as [[]|e]; cbn; naive_solver.
  - case_bool_decide; cbn; [naive_solver|].
    change (evaluate_policy rbac_policy_default principal action) with
      (RbacAllow "allow_team_mode_disabled" None None). naive_solver.
Qed.
End files.

(** ** Principals *)

Definition component_char (c : ascii) : bool :=
  is_ascii_lowercase c || is_ascii_digit c || Ascii.eqb c "-" || Ascii.eqb c "_".

Lemma sanitize_char_component c : component_char (sanitize_char c) = true.
Proof. by destruct c as [[] [] [] [] [] [] [] []]. Qed.

Lemma component_char_fixed c :
  component_char c = true →
  sanitize_char c = c ∧ is_char_start c = true ∧ never_whitespace c ∧ c ≠ ":"%char ∧ c ≠ "*"%char.
Proof.
  intros Hc. apply (bool_decide_unpack _). revert Hc.
  by destruct c as [[] [] [] [] [] [] [] []]; vm_compute.
Qed.

Lemma sanitize_component raw :
  sanitize_principal_component raw ≠ "" ∧
  Forall (λ c, component_char c = true) (chars_of (sanitize_principal_component raw)).
Proof.
  assert (Forall (λ c, component_char c = true) (chars_of "unknown")) as Hu by (by repeat constructor).
  unfold sanitize_principal_component. destruct (is_empty (trim raw)) eqn:He; [done|].
  set (out := of_chars _). destruct (is_empty out) eqn:Ho; [done|]. split; [by apply is_empty_false|].
  unfold out. rewrite chars_of_of_chars. apply Forall_fmap, Forall_true.
  intros c. apply sanitize_char_component.
Qed.

Lemma sanitize_fixed s :
  s ≠ "" → Forall (λ c, component_char c = true) (chars_of s) →
  sanitize_principal_component s = s.
Proof.
  intros Hne Hall. unfold sanitize_principal_component.
  assert (trim s = s) as ->.
  { rewrite <- (of_chars_chars_of s). apply trim_solid. eapply Forall_impl; [exact Hall|].
    intros c Hc. by apply component_char_fixed. }
  rewrite (proj2 (is_empty_false s)) by done.
  assert (sanitize_char <$> List.filter is_char_start (chars_of s) = chars_of s) as ->.
  { clear Hne. induction Hall as [|c l Hc _ IH]; cbn; [done|].
    apply component_char_fixed in Hc as (Hs & Hst & _). rewrite Hst. cbn. by rewrite Hs, IH. }
  by rewrite of_chars_chars_of, (proj2 (is_empty_false s)).
Qed.

(** The channels principals come from. *)
Inductive PrincipalChannel := LocalCh | GithubCh | SlackCh | DiscordCh | TelegramCh.

#[export] Instance PrincipalChannel_eq_dec : EqDecision PrincipalChannel.
Proof. solve_decision. Defined.

Definition channel_name (ch : PrincipalChannel) : string :=
  match ch with
  | LocalCh => "local" | GithubCh => "github" | SlackCh => "slack" | DiscordCh => "discord"
  | TelegramCh => "telegram"
  end.

Definition channel_principal (env : env_vars) (ch : PrincipalChannel) (actor : string) : string :=
  match ch with
  | LocalCh => local_principal env (Some actor)
  | GithubCh => github_principal actor
  | SlackCh => slack_principal actor
  | DiscordCh => discord_principal actor
  | TelegramCh => telegram_principal actor
  end.

Lemma channel_principal_shape env ch actor :
  ∃ raw, channel_principal env ch actor = channel_name ch +:+ ":" +:+ sanitize_principal_component raw.
Proof. destruct ch; eexists; reflexivity. Qed.

(** Principals identify their channel.  The principal made from any actor
    name is the channel's name, a colon and a nonempty component of lower-case
    letters, digits, [-] and [_]; sanitising a component again changes nothing;
    so a binding for all of one channel ([github:*]) matches every principal of
    that channel and none of any other. *)
Theorem rbac_principals_by_channel env ch ch' actor :
  (∃ component, channel_principal env ch actor = channel_name ch +:+ ":" +:+ component ∧
     component ≠ "" ∧ Forall (λ c, component_char c = true) (chars_of component) ∧
     sanitize_principal_component component = component) ∧
  principal_pattern_matches (channel_name ch' +:+ ":*") (channel_principal env ch actor) =
    bool_decide (ch = ch').
Proof.
  destruct (channel_principal_shape env ch actor) as [raw ->].
  destruct (sanitize_component raw) as [Hne Hall]. split.
  { eexists. split_and!; [reflexivity|done|done|by apply sanitize_fixed]. }
  unfold principal_pattern_matches. apply eq_bool_prop_intro. rewrite bool_decide_spec.
  split.
  - intros Hm%Is_true_true%wildcard_denotes. destruct Hm as [(p & rest & Hp & Hv)|[Hno _]].
    + apply strip_suffix_star in Hp.
      by destruct ch'; vm_compute in Hp; injection Hp as <-; destruct ch.
    + destruct (Hno (channel_name ch' +:+ ":")). by destruct ch'.
  - intros ->. apply Is_true_true, wildcard_denotes. left.
    exists (channel_name ch' +:+ ":"). eexists. split; by destruct ch'.
Qed.
