(* ===== verification/Identity.v ===== *)
(** * Agent identities ([tau-access], [identity.rs])

    A KAMN DID names an agent under a trust root:
    [did:kamn:<trust_root_id>:<subject>[#fragment]].  Its canonical form parses
    back to the same identity. *)

From Stdlib Require Import Ascii NArith Lia.
From stdpp Require Import base sets strings list.
From S2P Require Import Prelude RustStr.

#[local] Open Scope string_scope.
#[local] Open Scope list_scope.
#[local] Open Scope nat_scope.

Record KamnDid := mkDid
  { did_canonical : string; did_canonical_base : string; did_trust_root_id : string;
    did_subject : string; did_service_fragment : option string }.

Inductive DidError :=
| DidEmpty | DidBaseEmpty | DidShape | DidScheme | DidMethod | DidTrustRootEmpty | DidSubjectEmpty
| DidTrustRootChars | DidSubjectChars | DidFragmentEmpty | DidFragmentChars.

#[export] Instance KamnDid_eq_dec : EqDecision KamnDid.
Proof. solve_decision. Defined.
#[export] Instance DidError_eq_dec : EqDecision DidError.
Proof. solve_decision. Defined.

Definition valid_component_char (strict : bool) (c : ascii) : bool :=
  is_ascii_alphanumeric c || Ascii.eqb c "-" || Ascii.eqb c "_" || Ascii.eqb c "." ||
  (negb strict && Ascii.eqb c ":").

Definition is_valid_component (value : string) (strict : bool) : bool :=
  forallb (valid_component_char strict) (chars_of value).

(** The identity of its parts. *)
Definition did_of (trust_root_id subject : string) (fragment : option string) : KamnDid :=
  let canonical_base := "did:kamn:" +:+ trust_root_id +:+ ":" +:+ subject in
  mkDid (match fragment with
         | Some fragment => canonical_base +:+ "#" +:+ fragment
         | None => canonical_base
         end)
    canonical_base trust_root_id subject fragment.

Definition check_fragment (fragment : option string) : Result DidError unit :=
  match fragment with
  | Some fragment =>
      _ ← bail_if (is_empty fragment) DidFragmentEmpty;
      bail_if (negb (is_valid_component fragment false)) DidFragmentChars
  | None => Ok tt
  end.

Definition did_parse (raw : string) : Result DidError KamnDid :=
  let raw := trim raw in
  _ ← bail_if (is_empty raw) DidEmpty;
  let '(base, fragment) :=
    match split_once "#"%char raw with
    | Some (base, fragment) => (trim base, Some (trim fragment))
    | None => (raw, None)
    end in
  _ ← bail_if (is_empty base) DidBaseEmpty;
  match split_on ":"%char base with
  | scheme :: method :: root :: subject0 :: subjects =>
      _ ← bail_if (negb (eq_ignore_ascii_case scheme "did")) DidScheme;
      _ ← bail_if (negb (eq_ignore_ascii_case method "kamn")) DidMethod;
      let trust_root_id := trim root in
      let subject := join ":" (subject0 :: subjects) in
      _ ← bail_if (is_empty trust_root_id) DidTrustRootEmpty;
      _ ← bail_if (is_empty (trim subject)) DidSubjectEmpty;
      _ ← bail_if (negb (is_valid_component trust_root_id true)) DidTrustRootChars;
      _ ← bail_if (negb (is_valid_component subject false)) DidSubjectChars;
      _ ← check_fragment fragment;
      Ok (did_of trust_root_id subject fragment)
  | _ => Err DidShape
  end.

Definition endpoint_char (c : ascii) : ascii :=
  if is_ascii_alphanumeric c || Ascii.eqb c "-" || Ascii.eqb c "_" || Ascii.eqb c "."
  then c else "-"%char.

Definition service_endpoint_for_channel (did : KamnDid) (channel : string) : string :=
  let channel := trim channel in
  let fragment :=
    if is_empty channel then "default"
    else of_chars (endpoint_char <$> List.filter is_char_start (chars_of channel)) in
  did_canonical_base did +:+ "#" +:+ fragment.

Example did_examples :
  did_parse "DID:KAMN:root-alpha:agent-1" =
    Ok (mkDid "did:kamn:root-alpha:agent-1" "did:kamn:root-alpha:agent-1" "root-alpha" "agent-1" None) ∧
  did_parse "did:kamn:root-alpha" = Err DidShape ∧
  did_parse "did:kamn:root alpha:agent" = Err DidTrustRootChars ∧
  service_endpoint_for_channel (did_of "r" "a" None) "github:njfio/Tau" = "did:kamn:r:a#github-njfio-Tau".
Proof. by vm_compute. Qed.

(** ** The canonical form *)

Lemma valid_char_solid strict c :
  valid_component_char strict c = true →
  never_whitespace c ∧ c ≠ "#"%char ∧ (strict = true → c ≠ ":"%char).
Proof.
  intros Hc. apply (bool_decide_unpack _). revert Hc.
  by destruct strict, c as [[] [] [] [] [] [] [] []]; vm_compute.
Qed.

Definition valid_component (strict : bool) (s : string) : Prop :=
  Forall (λ c, valid_component_char strict c = true) (chars_of s).

Lemma is_valid_component_spec s strict : is_valid_component s strict = true ↔ valid_component strict s.
Proof. unfold is_valid_component, valid_component. by rewrite List.forallb_forall, List.Forall_forall. Qed.

(** The parts an accepted identifier has. *)
Definition did_parts_ok (root subject : string) (fragment : option string) : Prop :=
  root ≠ "" ∧ valid_component true root ∧ subject ≠ "" ∧ valid_component false subject ∧
  match fragment with Some f => f ≠ "" ∧ valid_component false f | None => True end.

Lemma check_fragment_Ok fragment u :
  check_fragment fragment = Ok u →
  match fragment with Some f => f ≠ "" ∧ valid_component false f | None => True end.
Proof.
  destruct fragment as [f|]; [|done]. cbn.
  intros [He%bail_if_Ok Hv%bail_if_Ok]%check_Ok. apply negb_false_iff, is_valid_component_spec in Hv.
  split; [by apply String.eqb_neq|done].
Qed.

Lemma trim_empty : trim "" = "".
Proof. by vm_compute. Qed.

Lemma did_parse_Ok raw d :
  did_parse raw = Ok d → ∃ root subject fragment, d = did_of root subject fragment ∧
    did_parts_ok root subject fragment.
Proof.
  unfold did_parse. intros [_ Hp]%check_Ok.
  destruct (match split_once _ _ with Some (b, f) => _ | None => _ end) as [base fragment].
  apply check_Ok in Hp as [_ Hp].
  destruct (split_on _ base) as [|sc [|me [|ro [|s0 ss]]]]; try done.
  apply check_Ok in Hp as [_ Hp]. apply check_Ok in Hp as [_ Hp].
  apply check_Ok in Hp as [Hroot%bail_if_Ok Hp]. apply check_Ok in Hp as [Hsub%bail_if_Ok Hp].
  apply check_Ok in Hp as [Hrv%bail_if_Ok Hp]. apply check_Ok in Hp as [Hsv%bail_if_Ok Hp].
  apply check_Ok in Hp as [Hf%check_fragment_Ok Hp]. injection Hp as <-.
  apply negb_false_iff, is_valid_component_spec in Hrv, Hsv.
  eexists _, _, _. split; [reflexivity|]. split_and!; try done; try by apply String.eqb_neq.
  intros He. change (join ":" (s0 :: ss) = "") in He. rewrite He in Hsub. by vm_compute in Hsub.
Qed.

Lemma split_once_none sep l : sep ∉ l → split_once_chars sep l = None.
Proof.
  induction l as [|c l IH]; intros Hn; cbn; [done|]. apply not_elem_of_cons in Hn as [Hne Hn].
  destruct (Ascii.eqb_spec c sep) as [->|_]; [done|]. by rewrite IH.
Qed.

Lemma valid_component_not_elem strict s c :
  valid_component strict s → valid_component_char strict c = false → c ∉ chars_of s.
Proof. intros Hv Hc Hin. unfold valid_component in Hv. rewrite Forall_forall in Hv. specialize (Hv c Hin). cbn in Hv. congruence. Qed.

Lemma valid_component_solid strict s : valid_component strict s → Forall never_whitespace (chars_of s).
Proof. intros Hv. eapply Forall_impl; [exact Hv|]. intros c Hc. apply (valid_char_solid strict c Hc). Qed.

Lemma trim_valid strict s : valid_component strict s → trim s = s.
Proof.
  intros Hv. rewrite <- (of_chars_chars_of s). by eapply trim_solid, valid_component_solid.
Qed.

Lemma literal_solid s :
  bool_decide (Forall never_whitespace (chars_of s)) = true → Forall never_whitespace (chars_of s).
Proof. apply bool_decide_eq_true. Qed.

Lemma canonical_solid root subject fragment :
  did_parts_ok root subject fragment →
  Forall never_whitespace (chars_of (did_canonical (did_of root subject fragment))).
Proof.
  intros (_ & Hr & _ & Hs & Hf). apply valid_component_solid in Hr, Hs.
  assert (Forall never_whitespace (chars_of "did:kamn:")) as H1 by (apply literal_solid; by vm_compute).
  assert (Forall never_whitespace (chars_of ":")) as H2 by (apply literal_solid; by vm_compute).
  assert (Forall never_whitespace (chars_of "#")) as H3 by (apply literal_solid; by vm_compute).
  destruct fragment as [f|]; unfold did_of, did_canonical; rewrite !chars_of_app.
  - destruct Hf as [_ Hf%valid_component_solid]. by rewrite !Forall_app.
  - by rewrite !Forall_app.
Qed.

Lemma split_base root subject :
  valid_component true root →
  split_on ":"%char ("did:kamn:" +:+ root +:+ ":" +:+ subject) =
    "did" :: "kamn" :: root :: split_on ":"%char subject.
Proof.
  intros Hr. unfold split_on. rewrite !chars_of_app.
  change (chars_of "did:kamn:" ++ chars_of root ++ chars_of ":" ++ chars_of subject) with
    (chars_of "did" ++ ":"%char :: chars_of "kamn" ++ ":"%char :: chars_of root ++ ":"%char :: chars_of subject).
  assert ((":"%char ∉ chars_of "did") ∧ (":"%char ∉ chars_of "kamn")) as [H1 H2]
    by (apply (bool_decide_unpack _); by vm_compute).
  assert (":"%char ∉ chars_of root) as H3 by (by eapply valid_component_not_elem).
  rewrite (split_byte_app _ [] _ _ H1), (split_byte_app _ [] _ _ H2), (split_byte_app _ [] _ _ H3).
  cbn [fmap list_fmap]. by rewrite !app_nil_r, !reverse_involutive, !of_chars_chars_of.
Qed.

Lemma base_no_hash root subject :
  valid_component true root → valid_component false subject →
  "#"%char ∉ chars_of ("did:kamn:" +:+ root +:+ ":" +:+ subject).
Proof.
  intros Hr Hs. rewrite !chars_of_app.
  assert (("#"%char ∉ chars_of "did:kamn:") ∧ ("#"%char ∉ chars_of ":")) as [H1 H2]
    by (apply (bool_decide_unpack _); by vm_compute).
  pose proof (valid_component_not_elem _ _ "#"%char Hr eq_refl).
  pose proof (valid_component_not_elem _ _ "#"%char Hs eq_refl).
  rewrite !elem_of_app. tauto.
Qed.

(** The base of an identity, split and checked. *)
Lemma parse_canonical root subject fragment :
  did_parts_ok root subject fragment →
  did_parse (did_canonical (did_of root subject fragment)) = Ok (did_of root subject fragment).
Proof.
  intros Hok. unfold did_parse.
  assert (trim (did_canonical (did_of root subject fragment)) = did_canonical (did_of root subject fragment))
    as ->.
  { rewrite <- (of_chars_chars_of (did_canonical _)). by apply trim_solid, canonical_solid. }
  destruct Hok as (Hrne & Hr & Hsne & Hs & Hf).
  set (base := "did:kamn:" +:+ root +:+ ":" +:+ subject).
  assert (match split_once "#"%char (did_canonical (did_of root subject fragment)) with
    | Some (b, f) => (trim b, Some (trim f))
    | None => (did_canonical (did_of root subject fragment), None)
    end = (base, fragment)) as ->.
  { unfold split_once. destruct fragment as [f|]; unfold did_of, did_canonical; fold base.
    - rewrite !chars_of_app. change (chars_of "#" ++ chars_of f) with ("#"%char :: chars_of f).
      rewrite split_once_first by (by apply base_no_hash). cbn. rewrite !of_chars_chars_of.
      rewrite (trim_valid false f) by apply Hf. f_equal.
      rewrite <- (of_chars_chars_of base). apply trim_solid.
      by apply (canonical_solid root subject None).
    - by rewrite split_once_none by (by apply base_no_hash). }
  assert (is_empty (did_canonical (did_of root subject fragment)) = false) as -> by (by destruct fragment).
  assert (is_empty base = false) as -> by done. cbn [bail_if].
  unfold base. rewrite split_base by done.
  destruct (split_byte_nonempty ":"%char [] (chars_of subject)) as (s0 & ss & Hsplit).
  pose proof (join_split_on ":"%char subject) as Hjoin. unfold split_on in *. rewrite Hsplit in *.
  cbn [fmap list_fmap] in *. change (of_chars [":"%char]) with ":" in Hjoin. rewrite Hjoin.
  rewrite (trim_valid true root), (trim_valid false subject) by done.
  unfold is_empty. rewrite (proj2 (String.eqb_neq root "") Hrne), (proj2 (String.eqb_neq subject "") Hsne).
  rewrite (proj2 (is_valid_component_spec root true) Hr), (proj2 (is_valid_component_spec subject false) Hs).
  cbn. destruct fragment as [f|]; [|done]. destruct Hf as [Hfne Hfv]. cbn.
  unfold is_empty. rewrite (proj2 (String.eqb_neq f "") Hfne), (proj2 (is_valid_component_spec f false) Hfv).
  done.
Qed.

(** A parsed identity is canonical.  Its text names the lower-case scheme
    and method, its trust root and subject, and parsing that text gives the same
    identity again; two spellings of an identity are told apart exactly by trust
    root, subject and fragment. *)
Theorem did_parse_roundtrip raw d raw' d' :
  did_parse raw = Ok d → did_parse raw' = Ok d' →
  did_parse (did_canonical d) = Ok d ∧
  (did_canonical d = did_canonical d' ↔
     did_trust_root_id d = did_trust_root_id d' ∧ did_subject d = did_subject d' ∧
     did_service_fragment d = did_service_fragment d').
Proof.
  intros (r & s & f & -> & Hok)%did_parse_Ok (r' & s' & f' & -> & Hok')%did_parse_Ok.
  split; [by apply parse_canonical|]. split.
  - intros Heq. apply parse_canonical in Hok, Hok'. rewrite Heq in Hok. rewrite Hok in Hok'.
    assert (did_of r s f = did_of r' s' f') as Hd by congruence. by rewrite Hd.
  - cbn. by intros (-> & -> & ->).
Qed.

Lemma did_parse_roundtrip_witness :
  did_parse (did_canonical (did_of "root" "a:b" (Some "x"))) = Ok (did_of "root" "a:b" (Some "x")) ∧
  (did_canonical (did_of "root" "a:b" (Some "x")) = did_canonical (did_of "root" "a" None) ↔
     "root" = "root" ∧ "a:b" = "a" ∧ Some "x" = None).
Proof.
  apply (did_parse_roundtrip " DID:kamn:root:a:b#x " (did_of "root" "a:b" (Some "x"))
    "did:kamn:root:a" (did_of "root" "a" None)); by vm_compute.
Defined.
