(* ===== verification/TrustRoots.v ===== *)
(** * Trust roots ([tau-access], [trust_roots.rs])

    The keys that identities and skills are trusted under, kept in a JSON file
    of one of three shapes, and the edits an operator makes to them. *)

From Stdlib Require Import Ascii NArith Lia.
From stdpp Require Import base gmap sets strings list.
From S2P Require Import Prelude RustStr AtomicIo.

#[local] Open Scope string_scope.
#[local] Open Scope list_scope.
#[local] Open Scope nat_scope.

Record TrustedKey := mkTrustedKey { tk_id : string; tk_public_key : string }.

Record TrustedRootRecord := mkTrustedRoot
  { tr_id : string; tr_public_key : string; tr_revoked : bool; tr_expires_unix : option N;
    tr_rotated_from : option string }.

Inductive TrustedRootFileFormat :=
| RootList (items : list TrustedRootRecord)
| RootsWrapped (roots : list TrustedRootRecord)
| RootKeys (keys : list TrustedRootRecord).

Record TrustMutationReport := mkTrustReport
  { tm_added : nat; tm_updated : nat; tm_revoked : nat; tm_rotated : nat }.

Inductive TrustRootError :=
| RootsReadError (path : string)
| RootsParseError (path : string)
| RootsWriteError (e : IoError)
| BadRootSpec (raw : string)
| BadRotationSpec (raw : string)
| UnknownRevokedKey (id : string)
| UnknownRotatedKey (id : string).

Definition parse_trusted_root_spec (raw : string) : Result TrustRootError TrustedKey :=
  '(id, public_key) ← ok_or (BadRootSpec raw) (split_once "="%char raw);
  let id := trim id in
  let public_key := trim public_key in
  _ ← bail_if (is_empty id || is_empty public_key) (BadRootSpec raw);
  Ok (mkTrustedKey id public_key).

Definition parse_trust_rotation_spec (raw : string) : Result TrustRootError (string * TrustedKey) :=
  '(old_id, new_spec) ← ok_or (BadRotationSpec raw) (split_once ":"%char raw);
  let old_id := trim old_id in
  _ ← bail_if (is_empty old_id) (BadRotationSpec raw);
  new_key ← parse_trusted_root_spec new_spec;
  Ok (old_id, new_key).

(** ** Edits: the records are changed in place, so an error keeps the changes
    made before it *)

(** [iter_mut().find(|record| record.id == id)] and an assignment to it. *)
Fixpoint update_root (id : string) (f : TrustedRootRecord → TrustedRootRecord)
    (records : list TrustedRootRecord) : option (list TrustedRootRecord) :=
  match records with
  | [] => None
  | r :: rest =>
      if String.eqb (tr_id r) id then Some (f r :: rest) else cons r <$> update_root id f rest
  end.

Definition set_root (public_key : string) (rotated_from : option string) (r : TrustedRootRecord) :=
  mkTrustedRoot (tr_id r) public_key false (tr_expires_unix r) rotated_from.

Definition revoke_root (r : TrustedRootRecord) :=
  mkTrustedRoot (tr_id r) (tr_public_key r) true (tr_expires_unix r) (tr_rotated_from r).

(** The key is updated, or added at the end. *)
Definition put_root (key : TrustedKey) (rotated_from : option string)
    (records : list TrustedRootRecord) (report : TrustMutationReport)
    : list TrustedRootRecord * TrustMutationReport :=
  match update_root (tk_id key) (set_root (tk_public_key key) rotated_from) records with
  | Some records =>
      (records, mkTrustReport (tm_added report) (S (tm_updated report)) (tm_revoked report)
                  (tm_rotated report))
  | None =>
      (records ++ [mkTrustedRoot (tk_id key) (tk_public_key key) false None rotated_from],
       mkTrustReport (S (tm_added report)) (tm_updated report) (tm_revoked report) (tm_rotated report))
  end.

Definition mutation : Type := list TrustedRootRecord * Result TrustRootError TrustMutationReport.

Fixpoint add_roots (specs : list string) (records : list TrustedRootRecord)
    (report : TrustMutationReport) : mutation :=
  match specs with
  | [] => (records, Ok report)
  | spec :: rest =>
      match parse_trusted_root_spec spec with
      | Err e => (records, Err e)
      | Ok key => let '(records, report) := put_root key None records report in add_roots rest records report
      end
  end.

Fixpoint revoke_roots (ids : list string) (records : list TrustedRootRecord)
    (report : TrustMutationReport) : mutation :=
  match ids with
  | [] => (records, Ok report)
  | id :: rest =>
      let id := trim id in
      if is_empty id then revoke_roots rest records report
      else match List.find (λ r, String.eqb (tr_id r) id) records with
      | None => (records, Err (UnknownRevokedKey id))
      | Some record =>
          if tr_revoked record then revoke_roots rest records report
          else
            revoke_roots rest (default records (update_root id revoke_root records))
              (mkTrustReport (tm_added report) (tm_updated report) (S (tm_revoked report))
                 (tm_rotated report))
      end
  end.

Fixpoint rotate_roots (specs : list string) (records : list TrustedRootRecord)
    (report : TrustMutationReport) : mutation :=
  match specs with
  | [] => (records, Ok report)
  | spec :: rest =>
      match parse_trust_rotation_spec spec with
      | Err e => (records, Err e)
      | Ok (old_id, new_key) =>
          match update_root old_id revoke_root records with
          | None => (records, Err (UnknownRotatedKey old_id))
          | Some records =>
              let '(records, report) := put_root new_key (Some old_id) records report in
              rotate_roots rest records
                (mkTrustReport (tm_added report) (tm_updated report) (tm_revoked report)
                   (S (tm_rotated report)))
          end
      end
  end.

Definition apply_trust_root_mutation_specs (records : list TrustedRootRecord)
    (add_specs revoke_ids rotate_specs : list string) : mutation :=
  match add_roots add_specs records (mkTrustReport 0 0 0 0) with
  | (records, Err e) => (records, Err e)
  | (records, Ok report) =>
      match revoke_roots revoke_ids records report with
      | (records, Err e) => (records, Err e)
      | (records, Ok report) => rotate_roots rotate_specs records report
      end
  end.

(** ** The file *)

Class TrustRootCodec :=
  { decode_roots : string → option TrustedRootFileFormat;
    encode_roots : TrustedRootFileFormat → string }.

Section files.
Context `{!TrustRootCodec}.

Definition load_trust_root_records (fs : TextFs) (path : string)
    : Result TrustRootError (list TrustedRootRecord) :=
  match fs_files fs !! path with
  | None => if bool_decide (path ∈ fs_dirs fs) then Err (RootsReadError path) else Ok []
  | Some raw =>
      parsed ← ok_or (RootsParseError path) (decode_roots raw);
      Ok match parsed with RootList items => items | RootsWrapped roots => roots | RootKeys keys => keys end
  end.

Definition save_trust_root_records (fs : TextFs) (path : string) (records : list TrustedRootRecord)
    : TextFs * Result TrustRootError unit :=
  match write_text_atomic fs path (encode_roots (RootsWrapped records)) with
  | (fs, Ok _) => (fs, Ok tt)
  | (fs, Err e) => (fs, Err (RootsWriteError e))
  end.
End files.

Example trust_root_examples :
  apply_trust_root_mutation_specs [mkTrustedRoot "old" "k0" false (Some 9%N) None]
    ["extra = k1"] [" "] ["old:new=k2"] =
  ([mkTrustedRoot "old" "k0" true (Some 9%N) None; mkTrustedRoot "extra" "k1" false None None;
    mkTrustedRoot "new" "k2" false None (Some "old")], Ok (mkTrustReport 2 0 0 1)) ∧
  (apply_trust_root_mutation_specs [] ["a=b"] ["c"] []).2 = Err (UnknownRevokedKey "c").
Proof. by vm_compute. Qed.

(** ** What the edits do *)

(** The record a key id refers to. *)
Definition root_get (records : list TrustedRootRecord) (id : string) : option TrustedRootRecord :=
  List.find (λ r, String.eqb (tr_id r) id) records.

Definition root_live (records : list TrustedRootRecord) (id : string) : Prop :=
  ∃ r, root_get records id = Some r ∧ tr_revoked r = false.
Definition root_revoked (records : list TrustedRootRecord) (id : string) : Prop :=
  ∃ r, root_get records id = Some r ∧ tr_revoked r = true.

Definition adds_key (specs : list string) (id : string) : Prop :=
  ∃ spec key, spec ∈ specs ∧ parse_trusted_root_spec spec = Ok key ∧ tk_id key = id.
Definition revokes_key (ids : list string) (id : string) : Prop :=
  id ≠ "" ∧ ∃ raw, raw ∈ ids ∧ trim raw = id.
Definition rotates_from (specs : list string) (id : string) : Prop :=
  ∃ spec key, spec ∈ specs ∧ parse_trust_rotation_spec spec = Ok (id, key).
Definition rotates_to (specs : list string) (id : string) : Prop :=
  ∃ spec old key, spec ∈ specs ∧ parse_trust_rotation_spec spec = Ok (old, key) ∧ tk_id key = id.

Lemma root_get_id records id r : root_get records id = Some r → tr_id r = id.
Proof. intros [_ Heq%String.eqb_eq]%List.find_some. done. Qed.

Lemma root_get_app records r id :
  root_get (records ++ [r]) id =
    match root_get records id with Some x => Some x | None => if String.eqb (tr_id r) id then Some r else None end.
Proof.
  unfold root_get. induction records as [|x l IH]; cbn; [done|]. by destruct (String.eqb (tr_id x) id).
Qed.

Lemma update_root_None id f l : update_root id f l = None ↔ root_get l id = None.
Proof.
  unfold root_get. induction l as [|x l IH]; cbn; [done|]. destruct (String.eqb (tr_id x) id); [done|].
  rewrite fmap_None. apply IH.
Qed.

Lemma update_root_get id f l l' :
  (∀ r, tr_id (f r) = tr_id r) → update_root id f l = Some l' →
  (∃ r, root_get l id = Some r ∧ root_get l' id = Some (f r)) ∧
  ∀ j, j ≠ id → root_get l' j = root_get l j.
Proof.
  intros Hf. revert l'. unfold root_get. induction l as [|x l IH]; intros l'; cbn; [done|].
  destruct (String.eqb_spec (tr_id x) id) as [Heq|Hne].
  - intros [= <-]. split; [exists x|intros j Hj]; cbn; rewrite Hf.
    + by rewrite Heq, String.eqb_refl.
    + rewrite (proj2 (String.eqb_neq (tr_id x) j)); [done|congruence].
  - destruct (update_root id f l) as [k|]; cbn; [|done]. intros [= <-].
    destruct (IH k eq_refl) as [(r & Hr & Hr') Hothers]. split.
    + exists r. cbn. by rewrite (proj2 (String.eqb_neq (tr_id x) id)).
    + intros j Hj. cbn. destruct (String.eqb (tr_id x) j); [done|by apply Hothers].
Qed.

Lemma put_root_get key from l report l' report' :
  put_root key from l report = (l', report') →
  root_live l' (tk_id key) ∧ ∀ j, j ≠ tk_id key → root_get l' j = root_get l j.
Proof.
  unfold put_root. destruct (update_root _ _ l) as [k|] eqn:Hu; intros [= <- <-].
  - apply update_root_get in Hu as [(r & _ & Hr) Hothers]; [|done]. split; [by eexists|done].
  - apply update_root_None in Hu. split.
    + eexists. rewrite root_get_app, Hu. cbn. by rewrite String.eqb_refl.
    + intros j Hj. rewrite root_get_app. cbn. rewrite (proj2 (String.eqb_neq (tk_id key) j)) by done.
      by destruct (root_get l j).
Qed.

Lemma live_same l l' id : root_get l' id = root_get l id → root_live l id → root_live l' id.
Proof. unfold root_live. by intros ->. Qed.
Lemma revoked_same l l' id : root_get l' id = root_get l id → root_revoked l id → root_revoked l' id.
Proof. unfold root_revoked. by intros ->. Qed.

Lemma live_or_revoked l id : is_Some (root_get l id) ↔ root_live l id ∨ root_revoked l id.
Proof.
  unfold root_live, root_revoked. split; [intros [r Hr]|intros [(r & ? & _)|(r & ? & _)]; by eexists].
  destruct (tr_revoked r) eqn:He; [right|left]; by exists r.
Qed.

Lemma add_roots_spec specs l report l' report' id :
  add_roots specs l report = (l', Ok report') →
  (is_Some (root_get l id) → is_Some (root_get l' id)) ∧ (root_live l id → root_live l' id) ∧ (adds_key specs id → root_live l' id) ∧
  (¬ adds_key specs id → root_get l' id = root_get l id).
Proof.
  revert l report. induction specs as [|spec specs IH]; intros l report; cbn.
  { intros [= -> ->]. split_and!; [done|done| |done]. intros (? & ? & Hin & _). by apply elem_of_nil in Hin. }
  destruct (parse_trusted_root_spec spec) as [key|] eqn:Hk; [|done].
  destruct (put_root key None l report) as [l1 r1] eqn:Hp. intros Hrest.
  apply put_root_get in Hp as [Hlive Hothers]. destruct (IH _ _ Hrest) as (Hsome & Hkeep & Hin & Hnot).
  split_and!.
  - intros Hr. apply Hsome. destruct (decide (id = tk_id key)) as [->|Hne].
    + apply live_or_revoked. by left.
    + by rewrite Hothers.
  - intros Hl. apply Hkeep. destruct (decide (id = tk_id key)) as [->|Hne]; [done|].
    by apply (live_same l); [apply Hothers|].
  - intros (spec' & key' & [->|Hs]%elem_of_cons & Hk' & Hid); [|apply Hin; by exists spec', key'].
    apply Hkeep. assert (key' = key) as -> by congruence. by rewrite <- Hid.
  - intros Hno. rewrite Hnot, Hothers; [done| |].
    + intros ->. destruct Hno. exists spec, key. split_and!; [by left|done|done].
    + intros (spec' & key' & ? & ? & ?). destruct Hno. exists spec', key'. split_and!; [by right|done|done].
Qed.

Lemma revoke_roots_spec ids l report l' report' id :
  revoke_roots ids l report = (l', Ok report') →
  (is_Some (root_get l id) → is_Some (root_get l' id)) ∧ (root_revoked l id → root_revoked l' id) ∧ (revokes_key ids id → root_revoked l' id) ∧
  (¬ revokes_key ids id → root_get l' id = root_get l id).
Proof.
  revert l report. induction ids as [|raw ids IH]; intros l report; cbn.
  { intros [= -> ->]. split_and!; [done|done| |done]. intros (_ & ? & Hin & _). by apply elem_of_nil in Hin. }
  assert (∀ k rep, revoke_roots ids k rep = (l', Ok report') →
    (is_Some (root_get l id) → is_Some (root_get k id)) → (root_revoked l id → root_revoked k id) → (trim raw ≠ "" → id = trim raw → root_revoked k id) →
    (¬ (trim raw ≠ "" ∧ id = trim raw) → root_get k id = root_get l id) →
    (is_Some (root_get l id) → is_Some (root_get l' id)) ∧ (root_revoked l id → root_revoked l' id) ∧ (revokes_key (raw :: ids) id → root_revoked l' id) ∧
    (¬ revokes_key (raw :: ids) id → root_get l' id = root_get l id)) as Hstep.
  { intros k rep Hrest Hk0 Hk1 Hk2 Hk3. destruct (IH _ _ Hrest) as (Hsome & Hkeep & Hin & Hnot).
    split_and!; [by intros ?%Hk0%Hsome|by intros ?%Hk1%Hkeep| |].
    - intros (Hne & raw' & [->|Hraw]%elem_of_cons & Heq); [apply Hkeep, Hk2; congruence|].
      apply Hin. split; [done|]. by exists raw'.
    - intros Hno. rewrite Hnot, Hk3; [done| |].
      + intros [Hne ->]. destruct Hno. split; [done|]. exists raw. split; [by left|done].
      + intros (Hne & raw' & Hraw & Heq). destruct Hno. split; [done|]. exists raw'. split; [by right|done]. }
  unfold is_empty. destruct (String.eqb_spec (trim raw) "") as [He|He].
  { intros Hrest. by eapply Hstep. }
  change (List.find _ l) with (root_get l (trim raw)).
  destruct (root_get l (trim raw)) as [r|] eqn:Hr; [|done]. destruct (tr_revoked r) eqn:Hrev; intros Hrest.
  { eapply Hstep; [exact Hrest|done|done| |done]. intros _ ->. by exists r. }
  destruct (update_root (trim raw) revoke_root l) as [k|] eqn:Hu.
  2: { apply update_root_None in Hu. congruence. }
  apply update_root_get in Hu as [(r0 & _ & Hr1) Hothers]; [|done]. cbn in Hrest.
  assert (root_revoked k (trim raw)) as Hk by (by eexists).
  eapply Hstep; [exact Hrest| | | |].
  - intros Hl. destruct (decide (id = trim raw)) as [->|Hne]; [apply live_or_revoked; by right|].
    by rewrite Hothers.
  - intros Hl. destruct (decide (id = trim raw)) as [->|Hne]; [done|].
    by apply (revoked_same l); [apply Hothers|].
  - by intros _ ->.
  - intros Hno. apply Hothers. intros ->. by destruct Hno.
Qed.

Lemma rotates_cons spec specs old key id :
  parse_trust_rotation_spec spec = Ok (old, key) →
  (rotates_from (spec :: specs) id ↔ id = old ∨ rotates_from specs id) ∧
  (rotates_to (spec :: specs) id ↔ id = tk_id key ∨ rotates_to specs id).
Proof.
  intros Hk. unfold rotates_from, rotates_to. setoid_rewrite elem_of_cons. split; split.
  - intros (s & k & [->|Hs] & Hp); [left; congruence|right; eauto].
  - intros [->|(s & k & Hs & Hp)]; [exists spec, key|exists s, k]; auto.
  - intros (s & o & k & [->|Hs] & Hp & <-); [left; congruence|right; eauto 6].
  - intros [->|(s & o & k & Hs & Hp & <-)]; [exists spec, old, key|exists s, o, k]; auto.
Qed.

Lemma rotate_roots_spec specs l report l' report' id :
  rotate_roots specs l report = (l', Ok report') →
  (is_Some (root_get l id) → is_Some (root_get l' id)) ∧
  (¬ rotates_from specs id → root_live l id ∨ rotates_to specs id → root_live l' id) ∧
  (¬ rotates_to specs id → root_revoked l id ∨ rotates_from specs id → root_revoked l' id) ∧
  (¬ rotates_to specs id → ¬ rotates_from specs id → root_get l' id = root_get l id).
Proof.
  revert l report. induction specs as [|spec specs IH]; intros l report; cbn.
  { intros [= -> ->]. unfold rotates_from, rotates_to. set_solver. }
  destruct (parse_trust_rotation_spec spec) as [[old key]|] eqn:Hk; [|done].
  destruct (update_root old revoke_root l) as [l1|] eqn:Hu; [|done].
  destruct (put_root key (Some old) l1 report) as [l2 r2] eqn:Hp. intros Hrest.
  apply update_root_get in Hu as [(r & Hr & Hr1) Ho1]; [|done].
  apply put_root_get in Hp as [Hlive Ho2]. destruct (IH _ _ Hrest) as (Hsome & Hto & Hfrom & Hsame).
  destruct (rotates_cons spec specs old key id Hk) as [-> ->].
  destruct (decide (id = tk_id key)) as [->|Hne2].
  { split_and!; [|by intros ? _; apply Hto; naive_solver|naive_solver|naive_solver].
    intros _. apply Hsome. destruct Hlive as (x & Hx & _). by eexists. }
  rewrite (Ho2 id Hne2) in Hsome, Hsame.
  destruct (decide (id = old)) as [->|Hne1].
  - assert (root_revoked l2 old) as Hrev by (exists (revoke_root r); by rewrite (Ho2 old Hne2)).
    split_and!; [|naive_solver|by intros Hn _; apply Hfrom; naive_solver|naive_solver].
    intros _. apply Hsome. by eexists.
  - rewrite (Ho1 id Hne1) in Hsome, Hsame.
    assert (root_get l2 id = root_get l id) as Heq by (by rewrite (Ho2 id Hne2), Ho1).
    split_and!; [done| | |naive_solver].
    + intros Hn Hor. apply Hto; [by intros ?; apply Hn; right|].
      destruct Hor as [Hl|[?|?]]; [left; by apply (live_same l)|done|by right].
    + intros Hn Hor. apply Hfrom; [by intros ?; apply Hn; right|].
      destruct Hor as [Hl|[?|?]]; [left; by apply (revoked_same l)|done|by right].
Qed.

(** What a successful edit of the trust roots does to every key id.  No key
    is forgotten; a key rotated in and not rotated out again is trusted; a key
    rotated out or revoked, and not rotated in, is revoked, also when the same
    edit adds it; a key that is only added is trusted; every other key is
    untouched. *)
Theorem trust_edits_exact records add_specs revoke_ids rotate_specs records' report id :
  apply_trust_root_mutation_specs records add_specs revoke_ids rotate_specs = (records', Ok report) →
  (is_Some (root_get records id) → is_Some (root_get records' id)) ∧
  (rotates_to rotate_specs id → ¬ rotates_from rotate_specs id → root_live records' id) ∧
  (¬ rotates_to rotate_specs id → rotates_from rotate_specs id ∨ revokes_key revoke_ids id →
     root_revoked records' id) ∧
  (¬ rotates_to rotate_specs id → ¬ rotates_from rotate_specs id → ¬ revokes_key revoke_ids id →
     (adds_key add_specs id → root_live records' id) ∧
     (¬ adds_key add_specs id → root_get records' id = root_get records id)).
Proof.
  unfold apply_trust_root_mutation_specs.
  destruct (add_roots _ _ _) as [l1 [r1|]] eqn:Hadd; [|done].
  destruct (revoke_roots _ _ _) as [l2 [r2|]] eqn:Hrev; [|done]. intros Hrot.
  destruct (add_roots_spec _ _ _ _ _ id Hadd) as (Ha0 & Ha1 & Ha2 & Ha3).
  destruct (revoke_roots_spec _ _ _ _ _ id Hrev) as (Hv0 & Hv1 & Hv2 & Hv3).
  destruct (rotate_roots_spec _ _ _ _ _ id Hrot) as (Ht1 & Ht2 & Ht3 & Ht4).
  split_and!.
  - intros Hr. by apply Ht1, Hv0, Ha0.
  - naive_solver.
  - naive_solver.
  - intros Hn1 Hn2 Hn3. specialize (Ht4 Hn1 Hn2). specialize (Hv3 Hn3). split; intros Ha.
    + apply (live_same l1); [congruence|]. by apply Ha2.
    + rewrite Ht4, Hv3. by apply Ha3.
Qed.

Lemma trust_edits_exact_witness :
  let records := [mkTrustedRoot "old" "k0" false None None] in
  let records' := [mkTrustedRoot "old" "k0" true None None; mkTrustedRoot "new" "k2" false None (Some "old")] in
  (is_Some (root_get records "new") → is_Some (root_get records' "new")) ∧
  (rotates_to ["old:new=k2"] "new" → ¬ rotates_from ["old:new=k2"] "new" → root_live records' "new") ∧
  (¬ rotates_to ["old:new=k2"] "new" → rotates_from ["old:new=k2"] "new" ∨ revokes_key [] "new" →
     root_revoked records' "new") ∧
  (¬ rotates_to ["old:new=k2"] "new" → ¬ rotates_from ["old:new=k2"] "new" → ¬ revokes_key [] "new" →
     (adds_key [] "new" → root_live records' "new") ∧
     (¬ adds_key [] "new" → root_get records' "new" = root_get records "new")).
Proof.
  cbv zeta.
  exact (trust_edits_exact [mkTrustedRoot "old" "k0" false None None] [] [] ["old:new=k2"]
    [mkTrustedRoot "old" "k0" true None None; mkTrustedRoot "new" "k2" false None (Some "old")]
    (mkTrustReport 1 0 0 1) "new" eq_refl).
Defined.
