(* ===== verification/Pairing.v ===== *)
(** * Pairing of remote actors ([tau-access], [pairing.rs])

    Which actor of which channel may talk to the agent: an allowlist file, a
    registry of pairings with expiry, and the trust roots of DID actors.  The
    operations read and write these files; [serde_json] is [PairingCodec].
    An operation answers a text; [Err e] stands for the text ["... error: e"]. *)

From Stdlib Require Import Ascii NArith Lia.
From stdpp Require Import base gmap sets strings list.
From S2P Require Import Prelude RustStr AtomicIo Identity TrustRoots.

#[local] Open Scope string_scope.
#[local] Open Scope list_scope.
#[local] Open Scope nat_scope.

(** ** Data *)

Definition PAIRING_SCHEMA_VERSION : N := 1.
Definition ALLOWLIST_SCHEMA_VERSION : N := 1.

Record PairingPolicyConfig := mkPairingConfig
  { pc_registry_path : string; pc_allowlist_path : string; pc_trust_root_path : string;
    pc_strict_mode : bool }.

Record PairingRecord := mkPairing
  { pr_channel : string; pr_actor_id : string; pr_actor_did : option string;
    pr_legacy_actor_id : option string; pr_did_service_endpoint : option string;
    pr_paired_by : string; pr_issued_unix_ms : N; pr_expires_unix_ms : option N }.

Record PairingRegistryFile := mkRegistry
  { pg_schema_version : N; pg_pairings : list PairingRecord }.

(** The [BTreeMap] of channels is its list of entries in key order. *)
Record PairingAllowlistFile := mkAllowlist
  { al_schema_version : N; al_strict : bool; al_channels : list (string * list string) }.

Inductive PairingDecision :=
| PairingAllow (reason_code : string)
| PairingDeny (reason_code : string).

Inductive PairCommand :=
| PairAdd (channel actor_id : string) (ttl_seconds : option N)
| PairRemove (channel actor_id : string)
| PairStatus (channel actor_id : option string).

Record PairingActorIdentity := mkActorIdentity
  { ai_actor_id : string; ai_actor_did : option KamnDid; ai_legacy_actor_id : option string;
    ai_did_service_endpoint : option string }.

Inductive PairingError :=
| PairUsage (text : string)
| UnknownPairSubcommand (name : string)
| TtlMissing
| TtlInvalid (value : string)
| TtlZero
| UnknownAddFlag (token : string)
| EmptyActor
| BadDid (e : DidError)
| TrustRootsError (e : TrustRootError)
| PairReadError (path : string)
| PairParseError (path : string)
| PairUnsupportedVersion (found : N)
| PairWriteError (e : IoError).

Definition default_pairing_policy_config : PairingPolicyConfig :=
  mkPairingConfig ".tau/security/pairings.json" ".tau/security/allowlist.json"
    ".tau/trust-roots.json" false.

(** ** Actors and channels *)

Definition parse_optional_actor_did (actor_id : string) : Result DidError (option KamnDid) :=
  let actor_id := trim actor_id in
  if negb (starts_with "did:" (to_ascii_lowercase actor_id)) then Ok None
  else did ← did_parse actor_id; Ok (Some did).

Definition push_unique_case_insensitive (values : list string) (candidate : string) : list string :=
  if existsb (λ value, eq_ignore_ascii_case value candidate) values then values
  else values ++ [candidate].

Definition actor_id_candidates (actor_id : string) (actor_did : option KamnDid) : list string :=
  let actor_id := trim actor_id in
  let candidates := if is_empty actor_id then [] else [actor_id] in
  match actor_did with
  | Some did =>
      push_unique_case_insensitive
        (push_unique_case_insensitive candidates (did_canonical did)) (did_subject did)
  | None => candidates
  end.

Definition channel_candidates (channel : string) : list string :=
  let trimmed := trim channel in
  if is_empty trimmed then ["*"]
  else
    [trimmed] ++
    match split_once ":"%char trimmed with
    | Some (prefix, _) => if is_empty prefix then [] else [prefix]
    | None => []
    end ++ ["*"].

Definition resolve_pairing_actor_identity (actor_id channel : string)
    : Result PairingError PairingActorIdentity :=
  let actor_id := trim actor_id in
  if is_empty actor_id then Err EmptyActor
  else match parse_optional_actor_did actor_id with
  | Err e => Err (BadDid e)
  | Ok (Some did) =>
      Ok (mkActorIdentity (did_canonical did) (Some did) (Some (did_subject did))
            (Some (service_endpoint_for_channel did channel)))
  | Ok None => Ok (mkActorIdentity actor_id None None None)
  end.

(** ** Rules *)

Definition is_some_and {A} (f : A → bool) (o : option A) : bool :=
  match o with Some x => f x | None => false end.

Definition channel_get (allowlist : PairingAllowlistFile) (candidate : string)
    : option (list string) :=
  snd <$> List.find (λ entry, String.eqb entry.1 candidate) (al_channels allowlist).

Definition contains_string (l : list string) (x : string) : bool := existsb (String.eqb x) l.

Definition channel_has_pairing_rules (allowlist : PairingAllowlistFile)
    (registry : PairingRegistryFile) (candidates : list string) : bool :=
  existsb (λ candidate,
    is_some_and (λ actors : list string, match actors with [] => false | _ => true end)
      (channel_get allowlist candidate)) candidates ||
  existsb (λ entry, contains_string candidates (pr_channel entry)) (pg_pairings registry).

Definition allowlist_actor_allowed (allowlist : PairingAllowlistFile)
    (candidates actor_ids : list string) : bool :=
  existsb (λ candidate,
    is_some_and (λ actors,
      existsb (λ actor,
        existsb (λ actor_id, eq_ignore_ascii_case (trim actor) actor_id) actor_ids) actors)
      (channel_get allowlist candidate)) candidates.

Definition pairing_entry_matches_actor (entry : PairingRecord) (actor_ids : list string)
    (actor_did : option KamnDid) : bool :=
  existsb (λ candidate,
    eq_ignore_ascii_case (pr_actor_id entry) candidate ||
    is_some_and (λ legacy, eq_ignore_ascii_case legacy candidate) (pr_legacy_actor_id entry) ||
    is_some_and (λ did, eq_ignore_ascii_case did candidate) (pr_actor_did entry)) actor_ids ||
  is_some_and (λ entry_did,
    match did_parse entry_did with
    | Ok parsed =>
        existsb (λ candidate, eq_ignore_ascii_case (did_subject parsed) candidate) actor_ids ||
        is_some_and (λ candidate, eq_ignore_ascii_case (did_subject parsed) (did_subject candidate))
          actor_did
    | Err _ => false
    end) (pr_actor_did entry).

Definition is_pairing_expired (entry : PairingRecord) (now_unix_ms : N) : bool :=
  is_some_and (λ expires, expires <=? now_unix_ms)%N (pr_expires_unix_ms entry).

Definition pairing_actor_allowed (registry : PairingRegistryFile)
    (candidates actor_ids : list string) (actor_did : option KamnDid) (now_unix_ms : N) : bool :=
  existsb (λ entry,
    contains_string candidates (pr_channel entry) &&
    pairing_entry_matches_actor entry actor_ids actor_did &&
    negb (is_pairing_expired entry now_unix_ms)) (pg_pairings registry).

Definition is_trusted_kamn_did (did : KamnDid) (trust_roots : list TrustedRootRecord)
    (now_unix_ms : N) : bool :=
  let now_unix := (now_unix_ms / 1000)%N in
  existsb (λ record,
    eq_ignore_ascii_case (tr_id record) (did_trust_root_id did) && negb (tr_revoked record) &&
    match tr_expires_unix record with
    | Some expires_unix => (now_unix <? expires_unix)%N
    | None => true
    end) trust_roots.

(** ** Files *)

Class PairingCodec :=
  { decode_registry : string → option PairingRegistryFile;
    encode_registry : PairingRegistryFile → string;
    decode_allowlist : string → option PairingAllowlistFile }.

Class PairingCodecLaws `{!PairingCodec} : Prop :=
  { decode_encode_registry r : decode_registry (encode_registry r) = Some r }.

Section pairing.
Context `{!TrustRootCodec, !PairingCodec}.
Implicit Types (fs : TextFs) (config : PairingPolicyConfig).

Definition load_pairing_registry fs (path : string) : Result PairingError PairingRegistryFile :=
  match fs_files fs !! path with
  | None =>
      if bool_decide (path ∈ fs_dirs fs) then Err (PairReadError path)
      else Ok (mkRegistry PAIRING_SCHEMA_VERSION [])
  | Some raw =>
      parsed ← ok_or (PairParseError path) (decode_registry raw);
      _ ← bail_if (negb (pg_schema_version parsed =? PAIRING_SCHEMA_VERSION)%N)
            (PairUnsupportedVersion (pg_schema_version parsed));
      Ok parsed
  end.

Definition save_pairing_registry fs (path : string) (registry : PairingRegistryFile)
    : TextFs * Result PairingError unit :=
  match write_text_atomic fs path (encode_registry registry) with
  | (fs, Ok _) => (fs, Ok tt)
  | (fs, Err e) => (fs, Err (PairWriteError e))
  end.

Definition load_allowlist fs (path : string) : Result PairingError PairingAllowlistFile :=
  match fs_files fs !! path with
  | None =>
      if bool_decide (path ∈ fs_dirs fs) then Err (PairReadError path)
      else Ok (mkAllowlist ALLOWLIST_SCHEMA_VERSION false [])
  | Some raw =>
      parsed ← ok_or (PairParseError path) (decode_allowlist raw);
      _ ← bail_if (negb (al_schema_version parsed =? ALLOWLIST_SCHEMA_VERSION)%N)
            (PairUnsupportedVersion (al_schema_version parsed));
      Ok parsed
  end.

(** ** Access *)

(** The decision on the loaded files, for an actor whose identity is accepted. *)
Definition pairing_decision (strict_mode : bool) (allowlist : PairingAllowlistFile)
    (registry : PairingRegistryFile) (channel actor_id : string) (actor_did : option KamnDid)
    (now_unix_ms : N) : PairingDecision :=
  let candidates := channel_candidates channel in
  let actor_candidates := actor_id_candidates actor_id actor_did in
  let strict_effective :=
    strict_mode || al_strict allowlist || channel_has_pairing_rules allowlist registry candidates in
  if negb strict_effective then PairingAllow "allow_permissive_mode"
  else if is_empty actor_id then PairingDeny "deny_actor_id_missing"
  else
    let allowed_by_allowlist := allowlist_actor_allowed allowlist candidates actor_candidates in
    let allowed_by_pairing :=
      pairing_actor_allowed registry candidates actor_candidates actor_did now_unix_ms in
    if allowed_by_allowlist && allowed_by_pairing then PairingAllow "allow_allowlist_and_pairing"
    else if allowed_by_allowlist then PairingAllow "allow_allowlist"
    else if allowed_by_pairing then PairingAllow "allow_pairing"
    else PairingDeny "deny_actor_not_paired_or_allowlisted".

Definition evaluate_pairing_access fs config (channel actor_id : string) (now_unix_ms : N)
    : Result PairingError PairingDecision :=
  let actor_id := trim actor_id in
  match parse_optional_actor_did actor_id with
  | Err _ => Ok (PairingDeny "deny_actor_did_invalid")
  | Ok actor_did =>
      trusted ←
        match actor_did with
        | None => Ok true
        | Some did =>
            match load_trust_root_records fs (pc_trust_root_path config) with
            | Err e => Err (TrustRootsError e)
            | Ok trust_roots => Ok (is_trusted_kamn_did did trust_roots now_unix_ms)
            end
        end;
      if negb trusted then Ok (PairingDeny "deny_actor_did_untrusted")
      else
        allowlist ← load_allowlist fs (pc_allowlist_path config);
        registry ← load_pairing_registry fs (pc_registry_path config);
        Ok (pairing_decision (pc_strict_mode config) allowlist registry channel actor_id actor_did
              now_unix_ms)
  end.

(** ** Commands *)

(** Lexicographic order of two keys, by bytes. *)
Definition pair_le (a b : string * string) : bool :=
  match String.compare a.1 b.1 with Lt => true | Gt => false | Eq => String.leb a.2 b.2 end.

Definition pairing_le (a b : PairingRecord) : bool :=
  pair_le (pr_channel a, pr_actor_id a) (pr_channel b, pr_actor_id b).

(** The entries that [retain] keeps. *)
Definition other_pairings (channel : string) (actor_candidates : list string)
    (actor_did : option KamnDid) (pairings : list PairingRecord) : list PairingRecord :=
  List.filter (λ entry,
    negb (String.eqb (pr_channel entry) channel &&
          pairing_entry_matches_actor entry actor_candidates actor_did)) pairings.

Definition ttl_text (ttl_seconds : option N) : string :=
  match ttl_seconds with Some value => show_u64 value | None => "none" end.

Definition pair_add fs config (channel actor_id : string) (ttl_seconds : option N)
    (actor_source : string) : TextFs * Result PairingError string :=
  match resolve_pairing_actor_identity actor_id channel with
  | Err e => (fs, Err e)
  | Ok identity =>
      let actor_candidates := actor_id_candidates (ai_actor_id identity) (ai_actor_did identity) in
      match load_pairing_registry fs (pc_registry_path config) with
      | Err e => (fs, Err e)
      | Ok registry =>
          let kept :=
            other_pairings channel actor_candidates (ai_actor_did identity) (pg_pairings registry) in
          let issued_unix_ms := fs_now_ms fs in
          let expires_unix_ms :=
            (λ seconds, saturating_add_u64 issued_unix_ms (saturating_mul_u64 seconds 1000))
              <$> ttl_seconds in
          let record :=
            mkPairing channel (ai_actor_id identity) (did_canonical <$> ai_actor_did identity)
              (ai_legacy_actor_id identity) (ai_did_service_endpoint identity) actor_source
              issued_unix_ms expires_unix_ms in
          let registry :=
            mkRegistry (pg_schema_version registry) (sort_by pairing_le (kept ++ [record])) in
          match save_pairing_registry fs (pc_registry_path config) registry with
          | (fs, Err e) => (fs, Err e)
          | (fs, Ok _) =>
              (fs, Ok ("pair add: channel=" +:+ channel +:+ " actor=" +:+ ai_actor_id identity +:+
                 " ttl_seconds=" +:+ ttl_text ttl_seconds +:+ " status=paired path=" +:+
                 pc_registry_path config))
          end
      end
  end.

Definition execute_unpair_with_config fs config (channel actor_id : string)
    : TextFs * Result PairingError string :=
  let actor_id := trim actor_id in
  match parse_optional_actor_did actor_id with
  | Err e => (fs, Err (BadDid e))
  | Ok actor_did =>
      let actor_candidates := actor_id_candidates actor_id actor_did in
      match load_pairing_registry fs (pc_registry_path config) with
      | Err e => (fs, Err e)
      | Ok registry =>
          let kept := other_pairings channel actor_candidates actor_did (pg_pairings registry) in
          let removed := length (pg_pairings registry) - length kept in
          let saved :=
            if bool_decide (0 < removed)
            then save_pairing_registry fs (pc_registry_path config)
                   (mkRegistry (pg_schema_version registry) kept)
            else (fs, Ok tt) in
          match saved with
          | (fs, Err e) => (fs, Err e)
          | (fs, Ok _) =>
              (fs, Ok ("unpair: channel=" +:+ channel +:+ " actor=" +:+ actor_id +:+ " removed=" +:+
                 show_usize removed +:+ " path=" +:+ pc_registry_path config))
          end
      end
  end.

Definition filter_pair_row (channel_filter actor_filter : option string) (channel actor : string)
    : bool :=
  match channel_filter with Some filter => String.eqb channel filter | None => true end &&
  match actor_filter with Some filter => String.eqb actor filter | None => true end.

Definition filter_pairing_row (channel_filter actor_filter : option string)
    (entry : PairingRecord) : bool :=
  if negb match channel_filter with
          | Some filter => String.eqb (pr_channel entry) filter
          | None => true
          end then false
  else match trim <$> actor_filter with
  | None => true
  | Some actor_filter =>
      if is_empty actor_filter then true
      else
        let actor_did :=
          match parse_optional_actor_did actor_filter with Ok did => did | Err _ => None end in
        pairing_entry_matches_actor entry (actor_id_candidates actor_filter actor_did) actor_did
  end.

Definition show_flag (b : bool) : string := if b then "true" else "false".

Definition render_pairing (now_unix_ms : N) (entry : PairingRecord) : string :=
  "pairing: channel=" +:+ pr_channel entry +:+ " actor=" +:+ pr_actor_id entry +:+
  " actor_did=" +:+ default "none" (pr_actor_did entry) +:+ " legacy_actor=" +:+
  default "none" (pr_legacy_actor_id entry) +:+ " did_service_endpoint=" +:+
  default "none" (pr_did_service_endpoint entry) +:+ " status=" +:+
  (if is_pairing_expired entry now_unix_ms then "expired" else "active") +:+ " paired_by=" +:+
  pr_paired_by entry +:+ " issued_unix_ms=" +:+ show_u64 (pr_issued_unix_ms entry) +:+
  " expires_unix_ms=" +:+ ttl_text (pr_expires_unix_ms entry).

Definition render_pair_status config (allowlist : PairingAllowlistFile)
    (registry : PairingRegistryFile) (channel_filter actor_filter : option string)
    (now_unix_ms : N) : string :=
  let allowlist_rows :=
    sort_by pair_le
      (List.filter (λ row, filter_pair_row channel_filter actor_filter row.1 row.2)
         (flat_map (λ entry, (λ actor, (entry.1, actor)) <$> entry.2) (al_channels allowlist))) in
  let pairing_rows :=
    sort_by pairing_le
      (List.filter (filter_pairing_row channel_filter actor_filter) (pg_pairings registry)) in
  join newline
    (["pair status: strict=" +:+ show_flag (pc_strict_mode config) +:+ " strict_allowlist=" +:+
      show_flag (al_strict allowlist) +:+ " registry=" +:+ pc_registry_path config +:+
      " allowlist=" +:+ pc_allowlist_path config] ++
     match allowlist_rows with
     | [] => ["allowlist: none"]
     | _ => (λ row, "allowlist: channel=" +:+ row.1 +:+ " actor=" +:+ row.2) <$> allowlist_rows
     end ++
     match pairing_rows with
     | [] => ["pairings: none"]
     | _ => render_pairing now_unix_ms <$> pairing_rows
     end).

Definition pair_status fs config (channel actor_id : option string) : Result PairingError string :=
  registry ← load_pairing_registry fs (pc_registry_path config);
  allowlist ← load_allowlist fs (pc_allowlist_path config);
  Ok (render_pair_status config allowlist registry channel actor_id (fs_now_ms fs)).

Definition parse_ttl (value : string) : Result PairingError N :=
  parsed ← ok_or (TtlInvalid value) (parse_u64 value);
  _ ← bail_if (parsed =? 0)%N TtlZero;
  Ok parsed.

Fixpoint parse_add_flags (tokens : list string) (ttl_seconds : option N)
    : Result PairingError (option N) :=
  match tokens with
  | [] => Ok ttl_seconds
  | token :: rest =>
      if String.eqb token "--ttl-seconds" then
        match rest with
        | [] => Err TtlMissing
        | value :: rest => ttl ← parse_ttl value; parse_add_flags rest (Some ttl)
        end
      else match strip_prefix "--ttl-seconds=" token with
      | Some value => ttl ← parse_ttl value; parse_add_flags rest (Some ttl)
      | None => Err (UnknownAddFlag token)
      end
  end.

Definition parse_pair_add_command (tokens : list string) : Result PairingError PairCommand :=
  match tokens with
  | _ :: channel :: actor_id :: flags =>
      ttl_seconds ← parse_add_flags flags None;
      Ok (PairAdd channel actor_id ttl_seconds)
  | _ => Err (PairUsage "usage: /pair add <channel> <actor_id> [--ttl-seconds <value>]")
  end.

Definition parse_pair_command (command_args : string) : Result PairingError PairCommand :=
  let tokens := split_whitespace command_args in
  match tokens with
  | [] => Err (PairUsage "usage: /pair <add|remove|status> ...")
  | first :: rest =>
      if String.eqb first "add" then parse_pair_add_command tokens
      else if String.eqb first "remove" then
        match rest with
        | [channel; actor_id] => Ok (PairRemove channel actor_id)
        | _ => Err (PairUsage "usage: /pair remove <channel> <actor_id>")
        end
      else if String.eqb first "status" then
        match rest with
        | [] => Ok (PairStatus None None)
        | [channel] => Ok (PairStatus (Some channel) None)
        | [channel; actor_id] => Ok (PairStatus (Some channel) (Some actor_id))
        | _ => Err (PairUsage "usage: /pair status [channel] [actor_id]")
        end
      else if String.eqb first "list" then
        match rest with
        | [] => Ok (PairStatus None None)
        | _ => Err (PairUsage "usage: /pair list")
        end
      else Err (UnknownPairSubcommand first)
  end.

Definition execute_pair_command fs (command_args actor_source : string)
    : TextFs * Result PairingError string :=
  let config := default_pairing_policy_config in
  match parse_pair_command command_args with
  | Err e => (fs, Err e)
  | Ok (PairAdd channel actor_id ttl_seconds) =>
      pair_add fs config channel actor_id ttl_seconds actor_source
  | Ok (PairRemove channel actor_id) => execute_unpair_with_config fs config channel actor_id
  | Ok (PairStatus channel actor_id) => (fs, pair_status fs config channel actor_id)
  end.

Definition execute_unpair_command fs (command_args : string) : TextFs * Result PairingError string :=
  match split_whitespace command_args with
  | [channel; actor_id] =>
      execute_unpair_with_config fs default_pairing_policy_config channel actor_id
  | _ => (fs, Err (PairUsage "usage: /unpair <channel> <actor_id>"))
  end.
End pairing.

Arguments load_pairing_registry : simpl never.
Arguments save_pairing_registry : simpl never.
Arguments load_allowlist : simpl never.

Example parse_pair_examples :
  parse_pair_command "add github:repo alice --ttl-seconds 30" =
    Ok (PairAdd "github:repo" "alice" (Some 30%N)) ∧
  parse_pair_command "add c a --ttl-seconds=0" = Err TtlZero ∧
  parse_pair_command "status github" = Ok (PairStatus (Some "github") None) ∧
  channel_candidates "github:repo" = ["github:repo"; "github"; "*"].
Proof. by vm_compute. Qed.
