(* ===== verification/PairingTheorems.v ===== *)
(** * Theorems on pairing

    Access is granted exactly by the rules that cover the channel and name the
    actor; pairing an actor grants access until it expires, unpairing takes
    exactly that actor's pairings away. *)

From Stdlib Require Import Ascii NArith Lia.
From stdpp Require Import base gmap sets strings countable list.
From S2P Require Import Prelude RustStr BitCodec AtomicIo Identity TrustRoots Pairing.

#[local] Open Scope string_scope.
#[local] Open Scope list_scope.
#[local] Open Scope nat_scope.

Lemma existsb_exists_elem {A} (f : A → bool) l : existsb f l = true ↔ ∃ x, x ∈ l ∧ f x = true.
Proof. rewrite List.existsb_exists. by setoid_rewrite list_elem_of_In. Qed.

Lemma is_some_and_true {A} (f : A → bool) o : is_some_and f o = true ↔ ∃ x, o = Some x ∧ f x = true.
Proof. destruct o; cbn; naive_solver. Qed.

Lemma contains_string_elem l x : contains_string l x = true ↔ x ∈ l.
Proof.
  unfold contains_string. rewrite existsb_exists_elem. setoid_rewrite String.eqb_eq. set_solver.
Qed.

(** ** What the rules mean *)

(** A rule for a channel, for the part before its first colon, or for all. *)
Definition rule_covers (rule channel : string) : Prop :=
  rule = "*" ∨ trim channel ≠ "" ∧
    (rule = trim channel ∨
     rule ≠ "" ∧ (":"%char ∉ chars_of rule) ∧ ∃ rest, trim channel = rule +:+ ":" +:+ rest).

Lemma split_once_chars_Some sep l a b :
  split_once_chars sep l = Some (a, b) ↔ (sep ∉ a) ∧ l = a ++ sep :: b.
Proof.
  split.
  - revert a. induction l as [|c l IH]; intros a; cbn; [done|].
    destruct (Ascii.eqb_spec c sep) as [->|Hne]; [intros [= <- <-]; set_solver|].
    destruct (split_once_chars sep l) as [[a' b']|]; cbn; [|done]. intros [= <- <-].
    destruct (IH a' eq_refl) as [Hn ->]. split; [set_solver|done].
  - intros [Hn ->]. by apply split_once_first.
Qed.

Lemma elem_channel_candidates rule channel : rule ∈ channel_candidates channel ↔ rule_covers rule channel.
Proof.
  unfold channel_candidates, rule_covers, is_empty. destruct (String.eqb_spec (trim channel) "") as [He|He].
  { set_solver. }
  rewrite !elem_of_app, !elem_of_cons, !elem_of_nil. unfold split_once.
  destruct (split_once_chars ":"%char (chars_of (trim channel))) as [[a b]|] eqn:Hs; cbn.
  - pose proof Hs as [Hni Heq]%split_once_chars_Some.
    assert (trim channel = of_chars a +:+ ":" +:+ of_chars b) as Hch.
    { apply chars_of_inj. by rewrite !chars_of_app, !chars_of_of_chars. }
    assert (∀ r rest, (":"%char ∉ chars_of r) → trim channel = r +:+ ":" +:+ rest → r = of_chars a) as Hu.
    { intros r rest Hr Hrest. apply (f_equal chars_of) in Hrest. rewrite !chars_of_app in Hrest.
      assert (split_once_chars ":"%char (chars_of (trim channel)) = Some (chars_of r, chars_of rest)) as Hs'
        by (apply split_once_chars_Some; by rewrite Hrest).
      rewrite Hs in Hs'. injection Hs' as -> _. by rewrite of_chars_chars_of. }
    destruct (String.eqb_spec (of_chars a) "") as [Ha|Ha].
    + rewrite elem_of_nil. split; [naive_solver|].
      intros [->|(_ & [->|(Hne & Hr & rest & Hrest)])]; [naive_solver|naive_solver|].
      destruct Hne. by rewrite (Hu _ _ Hr Hrest).
    + rewrite list_elem_of_singleton. split.
      * intros [[->|[]]|[->|[->|[]]]]; [naive_solver| |naive_solver]. right. split; [done|]. right.
        rewrite chars_of_of_chars. split_and!; [done|done|]. by exists (of_chars b).
      * intros [->|(_ & [->|(Hne & Hr & rest & Hrest)])]; [naive_solver|naive_solver|].
        right. left. by apply (Hu _ _ Hr Hrest).
  - rewrite elem_of_nil. split; [naive_solver|].
    intros [->|(_ & [->|(Hne & Hr & rest & Hrest)])]; [naive_solver|naive_solver|]. exfalso.
    apply (f_equal chars_of) in Hrest. rewrite !chars_of_app in Hrest.
    rewrite Hrest in Hs. change (chars_of ":" ++ chars_of rest) with (":"%char :: chars_of rest) in Hs.
    by rewrite split_once_first in Hs.
Qed.

(** The channel is restricted: some rule covers it, or strict mode is on. *)
Definition restricted (strict_mode : bool) (al : PairingAllowlistFile) (reg : PairingRegistryFile)
    (channel : string) : Prop :=
  strict_mode = true ∨ al_strict al = true ∨
  (∃ rule actor actors, rule_covers rule channel ∧ channel_get al rule = Some (actor :: actors)) ∨
  (∃ entry, entry ∈ pg_pairings reg ∧ rule_covers (pr_channel entry) channel).

Definition same_name (a b : string) : Prop := to_ascii_lowercase a = to_ascii_lowercase b.

(** The names an actor goes by: its id and, for a DID, its canonical form and
    its subject. *)
Definition actor_names (actor_id : string) (did : option KamnDid) (name : string) : Prop :=
  (trim actor_id ≠ "" ∧ same_name name (trim actor_id)) ∨
  ∃ d, did = Some d ∧ (same_name name (did_canonical d) ∨ same_name name (did_subject d)).

Definition allowlisted (al : PairingAllowlistFile) (channel actor_id : string) (did : option KamnDid)
    : Prop :=
  ∃ rule actors actor, rule_covers rule channel ∧ channel_get al rule = Some actors ∧
    actor ∈ actors ∧ actor_names actor_id did (trim actor).

(** A pairing is for this actor: one of its names is one of the actor's. *)
Definition paired_as (entry : PairingRecord) (actor_id : string) (did : option KamnDid) : Prop :=
  ∃ name, actor_names actor_id did name ∧
    (name = pr_actor_id entry ∨ pr_legacy_actor_id entry = Some name ∨ pr_actor_did entry = Some name ∨
     ∃ text d, pr_actor_did entry = Some text ∧ did_parse text = Ok d ∧ name = did_subject d).

Definition active (entry : PairingRecord) (now : N) : Prop :=
  ∀ expires, pr_expires_unix_ms entry = Some expires → (now < expires)%N.

Definition paired (reg : PairingRegistryFile) (channel actor_id : string) (did : option KamnDid) (now : N)
    : Prop :=
  ∃ entry, entry ∈ pg_pairings reg ∧ rule_covers (pr_channel entry) channel ∧
    paired_as entry actor_id did ∧ active entry now.

Lemma push_unique_names values candidate name :
  (∃ v, v ∈ push_unique_case_insensitive values candidate ∧ same_name name v) ↔
  (∃ v, v ∈ values ∧ same_name name v) ∨ same_name name candidate.
Proof.
  unfold push_unique_case_insensitive. destruct (existsb _ values) eqn:Hex.
  - apply existsb_exists_elem in Hex as (v & Hv & Heq%String.eqb_eq). split; [naive_solver|].
    intros [?|Hn]; [done|]. exists v. split; [done|]. unfold same_name in *. congruence.
  - set_solver.
Qed.

Lemma candidate_names actor_id did name :
  (∃ c, c ∈ actor_id_candidates actor_id did ∧ same_name name c) ↔ actor_names actor_id did name.
Proof.
  unfold actor_id_candidates, actor_names, is_empty.
  assert ((∃ c, c ∈ (if (trim actor_id =? "")%string then [] else [trim actor_id]) ∧ same_name name c) ↔
    trim actor_id ≠ "" ∧ same_name name (trim actor_id)) as Hid
    by (destruct (String.eqb_spec (trim actor_id) ""); set_solver).
  destruct did as [d|]; [|rewrite Hid; naive_solver].
  rewrite !push_unique_names, Hid. naive_solver.
Qed.

Lemma eq_ignore_case_spec a b : eq_ignore_ascii_case a b = true ↔ same_name a b.
Proof. apply String.eqb_eq. Qed.

Lemma restricted_spec strict_mode al reg channel :
  strict_mode || al_strict al || channel_has_pairing_rules al reg (channel_candidates channel) = true ↔
  restricted strict_mode al reg channel.
Proof.
  unfold channel_has_pairing_rules, restricted. rewrite !orb_true_iff, !existsb_exists_elem.
  setoid_rewrite contains_string_elem. setoid_rewrite elem_channel_candidates.
  setoid_rewrite is_some_and_true.
  assert ((∃ x, rule_covers x channel ∧ ∃ actors : list string, channel_get al x = Some actors ∧
      match actors with [] => false | _ :: _ => true end = true) ↔
    ∃ rule actor actors, rule_covers rule channel ∧ channel_get al rule = Some (actor :: actors)) as ->.
  { split; [intros (x & ? & [|a actors] & ? & ?)|]; naive_solver. }
  tauto.
Qed.

Lemma allowlisted_spec al channel actor_id did :
  allowlist_actor_allowed al (channel_candidates channel) (actor_id_candidates actor_id did) = true ↔
  allowlisted al channel actor_id did.
Proof.
  unfold allowlist_actor_allowed, allowlisted. rewrite existsb_exists_elem.
  setoid_rewrite elem_channel_candidates. setoid_rewrite is_some_and_true.
  setoid_rewrite existsb_exists_elem. setoid_rewrite existsb_exists_elem.
  setoid_rewrite eq_ignore_case_spec. setoid_rewrite candidate_names. naive_solver.
Qed.

Lemma paired_as_spec entry actor_id did :
  pairing_entry_matches_actor entry (actor_id_candidates actor_id did) did = true ↔
  paired_as entry actor_id did.
Proof.
  unfold pairing_entry_matches_actor, paired_as. rewrite orb_true_iff, existsb_exists_elem, is_some_and_true.
  setoid_rewrite orb_true_iff. setoid_rewrite orb_true_iff. setoid_rewrite is_some_and_true.
  setoid_rewrite eq_ignore_case_spec. setoid_rewrite <- candidate_names. split.
  - intros [(c & Hc & [[Hn|(l & Hl & Hn)]|(t & Ht & Hn)])|(text & Ht & Hm)]; [naive_solver..|].
    destruct (did_parse text) as [d|] eqn:Hd; [|done].
    apply orb_true_iff in Hm as [Hm|Hm].
    + apply existsb_exists_elem in Hm as (c & Hc & Hn%eq_ignore_case_spec).
      exists (did_subject d). split; [by exists c|]. do 3 right. by exists text, d.
    + apply is_some_and_true in Hm as (d' & -> & Hn%eq_ignore_case_spec).
      exists (did_subject d). split; [|do 3 right; by exists text, d].
      apply candidate_names. right. exists d'. split; [done|]. by right.
  - intros (name & (c & Hc & Hn) & [->|[Hl|[Ht|(text & d & Ht & Hd & ->)]]]).
    + left. exists c. naive_solver.
    + left. exists c. naive_solver.
    + left. exists c. naive_solver.
    + right. exists text. split; [done|]. rewrite Hd. apply orb_true_iff. left.
      apply existsb_exists_elem. exists c. by rewrite eq_ignore_case_spec.
Qed.

Lemma active_spec entry now : negb (is_pairing_expired entry now) = true ↔ active entry now.
Proof.
  unfold is_pairing_expired, active. destruct (pr_expires_unix_ms entry) as [e|]; cbn; [|naive_solver].
  rewrite negb_true_iff, N.leb_gt. naive_solver.
Qed.

Lemma paired_spec reg channel actor_id did now :
  pairing_actor_allowed reg (channel_candidates channel) (actor_id_candidates actor_id did) did now = true ↔
  paired reg channel actor_id did now.
Proof.
  unfold pairing_actor_allowed, paired. rewrite existsb_exists_elem.
  setoid_rewrite andb_true_iff. setoid_rewrite andb_true_iff.
  setoid_rewrite contains_string_elem. setoid_rewrite elem_channel_candidates.
  setoid_rewrite paired_as_spec. setoid_rewrite active_spec. naive_solver.
Qed.

(** The decision on the loaded files. *)
Lemma pairing_decision_allows strict_mode al reg channel actor_id did now :
  (∃ code, pairing_decision strict_mode al reg channel actor_id did now = PairingAllow code) ↔
  ¬ restricted strict_mode al reg channel ∨
  actor_id ≠ "" ∧ (allowlisted al channel actor_id did ∨ paired reg channel actor_id did now).
Proof.
  unfold pairing_decision. rewrite <- restricted_spec, <- allowlisted_spec, <- paired_spec.
  destruct (strict_mode || al_strict al || channel_has_pairing_rules al reg (channel_candidates channel));
    cbn [negb]; [|naive_solver].
  unfold is_empty. destruct (String.eqb_spec actor_id ""); [naive_solver|].
  destruct (allowlist_actor_allowed _ _ _), (pairing_actor_allowed _ _ _ _ _); cbn; naive_solver.
Qed.

Section access.
Context `{!TrustRootCodec, !PairingCodec}.

(** A DID actor's trust root is known, not revoked and not expired. *)
Definition did_trusted (fs : TextFs) (config : PairingPolicyConfig) (did : option KamnDid) (now : N) : Prop :=
  ∀ d, did = Some d → ∃ roots, load_trust_root_records fs (pc_trust_root_path config) = Ok roots ∧
    is_trusted_kamn_did d roots now = true.

(** C12: who has access.  A check lets an actor in exactly when its identity is
    acceptable (no DID, or a well-formed DID under a trusted root), both rule
    files load, and either no rule restricts the channel and strict mode is off,
    or the actor has a name and an allowlist row or an unexpired pairing that
    covers the channel carries one of its names; in every other case the answer
    is a denial or an error. *)
Theorem pairing_access_exact fs config channel actor_id now :
  (∃ code, evaluate_pairing_access fs config channel actor_id now = Ok (PairingAllow code)) ↔
  ∃ did al reg, parse_optional_actor_did (trim actor_id) = Ok did ∧ did_trusted fs config did now ∧
    load_allowlist fs (pc_allowlist_path config) = Ok al ∧
    load_pairing_registry fs (pc_registry_path config) = Ok reg ∧
    (¬ restricted (pc_strict_mode config) al reg channel ∨
     trim actor_id ≠ "" ∧
       (allowlisted al channel (trim actor_id) did ∨ paired reg channel (trim actor_id) did now)).
Proof.
  unfold evaluate_pairing_access.
  destruct (parse_optional_actor_did (trim actor_id)) as [did|e]; [|naive_solver].
  assert (∀ trusted : Result PairingError bool,
    match did with
    | None => Ok true
    | Some did =>
        match load_trust_root_records fs (pc_trust_root_path config) with
        | Err e => Err (TrustRootsError e)
        | Ok trust_roots => Ok (is_trusted_kamn_did did trust_roots now)
        end
    end = trusted → (trusted = Ok true ↔ did_trusted fs config did now)) as Htrust.
  { intros trusted <-. unfold did_trusted. destruct did as [d|]; [|naive_solver].
    destruct (load_trust_root_records fs _) as [roots|] eqn:Hr; cbn; [|naive_solver].
    split; [intros [= Ht] d' [= <-]; by exists roots|].
    intros Hall. destruct (Hall d eq_refl) as (roots' & [= <-] & Ht). by rewrite Ht. }
  specialize (Htrust _ eq_refl). revert Htrust.
  generalize (match did with
    | None => Ok true
    | Some did =>
        match load_trust_root_records fs (pc_trust_root_path config) with
        | Err e => Err (TrustRootsError e)
        | Ok trust_roots => Ok (is_trusted_kamn_did did trust_roots now)
        end
    end) as trusted.
  intros [[]|e] Htrust; cbn; [|naive_solver..].
  destruct (load_allowlist fs _) as [al|]; cbn; [|naive_solver].
  destruct (load_pairing_registry fs _) as [reg|]; cbn; [|naive_solver].
  pose proof (pairing_decision_allows (pc_strict_mode config) al reg channel (trim actor_id) did now) as Hd.
  split.
  - intros (code & [= Hc]). exists did, al, reg. split_and!; [done|by apply Htrust|done|done|].
    apply Hd. by exists code.
  - intros (did' & al' & reg' & [= <-] & _ & [= <-] & [= <-] & Hrules).
    apply Hd in Hrules as [code Hc]. exists code. by rewrite Hc.
Qed.
End access.

(** ** Pairing and unpairing *)

Lemma filter_sublist {A} (f : A → bool) l : sublist (List.filter f l) l.
Proof.
  induction l as [|x l IH]; cbn; [constructor|]. case_match; by constructor.
Qed.

Lemma filter_same_length {A} (f : A → bool) l :
  length l ≤ length (List.filter f l) → List.filter f l = l.
Proof.
  pose proof (λ k : list A, sublist_length _ _ (filter_sublist f k)) as Hle.
  induction l as [|x l IH]; cbn; [done|]. specialize (Hle l). case_match; cbn; [|lia].
  intros ?. f_equal. apply IH. lia.
Qed.

Lemma elem_filter {A} (f : A → bool) l x : x ∈ List.filter f l ↔ x ∈ l ∧ f x = true.
Proof. rewrite !list_elem_of_In. apply List.filter_In. Qed.

Section lifecycle.
Context `{!TrustRootCodec, !PairingCodec, !PairingCodecLaws}.
Implicit Types (fs : TextFs) (config : PairingPolicyConfig).

Lemma load_registry_version fs path reg :
  load_pairing_registry fs path = Ok reg → pg_schema_version reg = 1%N.
Proof.
  unfold load_pairing_registry. destruct (fs_files fs !! path) as [raw|].
  - intros (p & _ & [Hv%bail_if_Ok Hs]%check_Ok)%bind_Ok. injection Hs as <-.
    by apply negb_false_iff, N.eqb_eq in Hv.
  - case_bool_decide; [done|]. by intros [= <-].
Qed.

Lemma save_registry_Ok fs path reg fs' :
  pg_schema_version reg = 1%N → save_pairing_registry fs path reg = (fs', Ok tt) →
  load_pairing_registry fs' path = Ok reg.
Proof.
  intros Hv. unfold save_pairing_registry.
  destruct (write_text_atomic fs path (encode_registry reg)) as [fs1 [[]|e]] eqn:Hw; [|done].
  intros [= <-]. unfold load_pairing_registry.
  rewrite (write_text_atomic_Ok _ _ _ _ Hw), decode_encode_registry. cbn. by rewrite Hv.
Qed.

(** What a successful [pair_add] stores. *)
Lemma pair_add_Ok fs config channel actor_id ttl source fs' msg :
  pair_add fs config channel actor_id ttl source = (fs', Ok msg) →
  ∃ identity reg reg' entry, resolve_pairing_actor_identity actor_id channel = Ok identity ∧
    load_pairing_registry fs (pc_registry_path config) = Ok reg ∧
    load_pairing_registry fs' (pc_registry_path config) = Ok reg' ∧ entry ∈ pg_pairings reg' ∧
    pr_channel entry = channel ∧ pr_actor_id entry = ai_actor_id identity ∧
    pr_actor_did entry = did_canonical <$> ai_actor_did identity ∧
    pr_expires_unix_ms entry =
      (λ s, saturating_add_u64 (fs_now_ms fs) (saturating_mul_u64 s 1000)) <$> ttl.
Proof.
  unfold pair_add. destruct (resolve_pairing_actor_identity actor_id channel) as [identity|]; [|done].
  destruct (load_pairing_registry fs _) as [reg|] eqn:Hreg; [|done].
  match goal with |- context [save_pairing_registry _ _ (mkRegistry _ (sort_by _ (_ ++ [?e])))] =>
    set (entry := e) end.
  destruct (save_pairing_registry _ _ _) as [fs1 [[]|e]] eqn:Hs; [|done]. intros [= <- _].
  apply save_registry_Ok in Hs; [|cbn; by eapply load_registry_version].
  eexists identity, reg, _, entry. split_and!; try done. cbn. rewrite sort_by_perm. set_solver.
Qed.

(** What a successful unpairing leaves. *)
Lemma unpair_Ok fs config channel actor_id fs' msg :
  execute_unpair_with_config fs config channel actor_id = (fs', Ok msg) →
  ∃ did reg reg', parse_optional_actor_did (trim actor_id) = Ok did ∧
    load_pairing_registry fs (pc_registry_path config) = Ok reg ∧
    load_pairing_registry fs' (pc_registry_path config) = Ok reg' ∧
    pg_pairings reg' = other_pairings channel (actor_id_candidates (trim actor_id) did) did (pg_pairings reg).
Proof.
  unfold execute_unpair_with_config. destruct (parse_optional_actor_did _) as [did|]; [|done].
  destruct (load_pairing_registry fs _) as [reg|] eqn:Hreg; [|done].
  set (kept := other_pairings _ _ _ _). case_bool_decide as Hlen.
  - destruct (save_pairing_registry _ _ _) as [fs1 [[]|e]] eqn:Hs; [|done]. intros [= <- _].
    apply save_registry_Ok in Hs; [|cbn; by eapply load_registry_version]. by exists did, reg, (mkRegistry (pg_schema_version reg) kept).
  - intros [= <- _]. exists did, reg, reg. split_and!; try done. symmetry.
    apply filter_same_length. fold (other_pairings channel (actor_id_candidates (trim actor_id) did) did (pg_pairings reg)).
    fold kept. lia.
Qed.

(** A paired entry carries a name of the actor it was made for. *)
Lemma resolved_is_paired actor_id channel identity did entry :
  trim actor_id = actor_id → resolve_pairing_actor_identity actor_id channel = Ok identity →
  parse_optional_actor_did actor_id = Ok did → pr_actor_id entry = ai_actor_id identity →
  actor_id ≠ "" ∧ paired_as entry actor_id did.
Proof.
  intros Htrim. unfold resolve_pairing_actor_identity, is_empty. rewrite Htrim.
  destruct (String.eqb_spec actor_id "") as [->|Hne]; [done|]. intros Hres Hdid Hentry.
  rewrite Hdid in Hres. split; [done|]. exists (pr_actor_id entry). split; [|by left].
  destruct did as [d|]; injection Hres as <-; cbn in Hentry; rewrite Hentry.
  - right. exists d. split; [done|]. by left.
  - left. by rewrite Htrim.
Qed.

Lemma covers_self channel : trim channel = channel → channel ≠ "" → rule_covers channel channel.
Proof. intros Htrim Hne. right. rewrite Htrim. split; [done|]. by left. Qed.

(** What pairing and unpairing an actor does.  After a successful pairing
    the actor has access to the channel until the pairing's lifetime ends,
    whatever else is configured, provided the allowlist loads and a DID is under
    a trusted root.  A successful unpairing, at any later state of the files,
    removes from the registry exactly the pairings of that channel that carry a
    name of the actor, and keeps all others in order. *)
Theorem pairing_lifecycle fs config channel actor_id ttl source fs1 m1 did al now fs2 fs3 m2 :
  trim channel = channel → channel ≠ "" → trim actor_id = actor_id →
  parse_optional_actor_did actor_id = Ok did →
  pair_add fs config channel actor_id ttl source = (fs1, Ok m1) →
  load_allowlist fs1 (pc_allowlist_path config) = Ok al → did_trusted fs1 config did now →
  (∀ s, ttl = Some s → (now < saturating_add_u64 (fs_now_ms fs) (saturating_mul_u64 s 1000))%N) →
  execute_unpair_with_config fs2 config channel actor_id = (fs3, Ok m2) →
  (∃ code, evaluate_pairing_access fs1 config channel actor_id now = Ok (PairingAllow code)) ∧
  ∃ reg reg', load_pairing_registry fs2 (pc_registry_path config) = Ok reg ∧
    load_pairing_registry fs3 (pc_registry_path config) = Ok reg' ∧
    sublist (pg_pairings reg') (pg_pairings reg) ∧
    ∀ entry, entry ∈ pg_pairings reg' ↔
      entry ∈ pg_pairings reg ∧ ¬ (pr_channel entry = channel ∧ paired_as entry actor_id did).
Proof.
  intros Hch Hchne Hact Hdid Hadd Hal Htrust Hlife Hunpair. split.
  - apply pair_add_Ok in Hadd as (identity & reg & reg' & entry & Hid & _ & Hreg & Hin & Hec & Hea & _ & Hex).
    destruct (resolved_is_paired _ _ _ _ _ Hact Hid Hdid Hea) as [Hne Hpa].
    apply pairing_access_exact. exists did, al, reg'. rewrite Hact. split_and!; try done.
    right. split; [done|]. right. exists entry. rewrite Hec. split_and!; [done|by apply covers_self|done|].
    intros e He. rewrite Hex in He. destruct ttl as [s|]; [|done]. injection He as <-. by apply Hlife.
  - apply unpair_Ok in Hunpair as (did' & reg & reg' & Hdid' & Hreg & Hreg' & Hp).
    rewrite Hact in *. assert (did' = did) as -> by congruence. exists reg, reg'. rewrite Hp.
    split_and!; [done|done|apply filter_sublist|]. intros entry. unfold other_pairings.
    rewrite elem_filter, negb_true_iff, andb_false_iff, String.eqb_neq, <- paired_as_spec.
    destruct (pairing_entry_matches_actor _ _ _); naive_solver.
Qed.
End lifecycle.

(** ** A concrete codec and files *)

#[export] Instance PairingRecord_eq_dec : EqDecision PairingRecord.
Proof. solve_decision. Defined.
#[export] Instance PairingRecord_countable : Countable PairingRecord.
Proof.
  refine (inj_countable'
    (λ r, (pr_channel r, pr_actor_id r, pr_actor_did r, pr_legacy_actor_id r,
           (pr_did_service_endpoint r, pr_paired_by r, pr_issued_unix_ms r, pr_expires_unix_ms r)))
    (λ '(c, a, d, l, (e, p, i, x)), mkPairing c a d l e p i x) _).
  by intros [].
Defined.

#[export] Instance PairingRegistryFile_eq_dec : EqDecision PairingRegistryFile.
Proof. solve_decision. Defined.
#[export] Instance PairingRegistryFile_countable : Countable PairingRegistryFile.
Proof.
  refine (inj_countable' (λ r, (pg_schema_version r, pg_pairings r)) (λ '(v, l), mkRegistry v l) _).
  by intros [].
Defined.

Definition demo_roots : list TrustedRootRecord :=
  [mkTrustedRoot "root-a" "ka" false None None; mkTrustedRoot "root-b" "kb" false None None].

#[export] Instance demo_trust_codec : TrustRootCodec :=
  {| decode_roots := λ _, Some (RootList demo_roots); encode_roots := λ _, "" |}.
#[export] Instance bits_pairings : PairingCodec :=
  {| decode_registry := decode_bits; encode_registry := encode_bits;
     decode_allowlist := λ _, None |}.
#[export] Instance bits_pairings_laws : PairingCodecLaws.
Proof. split. apply decode_encode_bits. Qed.

Definition pairing_fs : TextFs :=
  mkTextFs {[".tau/trust-roots.json" := "x"]} ∅ (λ _, false) (λ _, false) 7 1000.
Definition demo_config : PairingPolicyConfig := default_pairing_policy_config.
Definition ann : string := "did:kamn:root-a:ann".
Definition ann_did : option KamnDid := Some (did_of "root-a" "ann" None).
Definition paired_fs : TextFs := (pair_add pairing_fs demo_config "slack" ann (Some 60%N) "ops").1.
Definition unpaired_fs : TextFs := (execute_unpair_with_config paired_fs demo_config "slack" ann).1.

Definition ok_text {A} (r : Result A string) : string := match r with Ok t => t | Err _ => "" end.

Lemma pairing_lifecycle_witness :
  (∃ code, evaluate_pairing_access paired_fs demo_config "slack" ann 60999 = Ok (PairingAllow code)) ∧
  ∃ reg reg', load_pairing_registry paired_fs (pc_registry_path demo_config) = Ok reg ∧
    load_pairing_registry unpaired_fs (pc_registry_path demo_config) = Ok reg' ∧
    sublist (pg_pairings reg') (pg_pairings reg) ∧
    ∀ entry, entry ∈ pg_pairings reg' ↔
      entry ∈ pg_pairings reg ∧ ¬ (pr_channel entry = "slack" ∧ paired_as entry ann ann_did).
Proof.
  apply (pairing_lifecycle pairing_fs demo_config "slack" ann (Some 60%N) "ops" paired_fs
    (ok_text (pair_add pairing_fs demo_config "slack" ann (Some 60%N) "ops").2) ann_did
    (mkAllowlist 1 false []) 60999 paired_fs unpaired_fs
    (ok_text (execute_unpair_with_config paired_fs demo_config "slack" ann).2)).
  - by vm_compute.
  - done.
  - by vm_compute.
  - by vm_compute.
  - by vm_compute.
  - by vm_compute.
  - intros d [= <-]. exists demo_roots. by vm_compute.
  - intros s [= <-]. by vm_compute.
  - by vm_compute.
Defined.

(** Taking away the only pairing of a channel opens the channel: with no rule
    left it is unrestricted, and the actor just unpaired, and everyone else, has
    access. *)
Theorem unpair_last_opens_channel :
  evaluate_pairing_access paired_fs demo_config "slack" "eve" 2000 =
    Ok (PairingDeny "deny_actor_not_paired_or_allowlisted") ∧
  evaluate_pairing_access unpaired_fs demo_config "slack" "eve" 2000 =
    Ok (PairingAllow "allow_permissive_mode") ∧
  evaluate_pairing_access unpaired_fs demo_config "slack" ann 2000 =
    Ok (PairingAllow "allow_permissive_mode").
Proof. split_and!; by vm_compute. Qed.

(** A pairing of a DID is matched by its subject alone, so an identity with the
    same subject under another trusted root has access too. *)
Theorem pairing_crosses_trust_roots :
  evaluate_pairing_access paired_fs demo_config "slack" "did:kamn:root-b:ann" 2000 =
    Ok (PairingAllow "allow_pairing").
Proof. by vm_compute. Qed.
