(* ===== verification/SignedEnvelope.v ===== *)
(** * Signed envelopes ([tau-access], [signed_envelope.rs]) and the authorisation
    of lifecycle actions ([rl_control_plane.rs])

    A remote message may carry an envelope: who sent what, when, under which key,
    and a signature.  Its nonce is remembered in a file so that it is not accepted
    again. *)

From Stdlib Require Import Ascii NArith Lia.
From stdpp Require Import base gmap strings list.
From S2P Require Import Prelude RustStr AtomicIo TrustRoots Rbac.

#[local] Open Scope string_scope.
#[local] Open Scope list_scope.
#[local] Open Scope nat_scope.

Definition SIGNED_ENVELOPE_SCHEMA_VERSION : N := 1.
Definition SIGNED_ENVELOPE_REPLAY_SCHEMA_VERSION : N := 1.
Definition DEFAULT_TIMESTAMP_SKEW_SECONDS : N := 300.
Definition DEFAULT_REPLAY_WINDOW_SECONDS : N := 300.
Definition SIGNED_ENVELOPE_METADATA_KEY : string := "signed_envelope".

Record SignedEnvelopePolicyConfig := mkEnvelopeConfig
  { ep_trust_root_path : string; ep_replay_guard_path : string;
    ep_timestamp_skew_seconds : N; ep_replay_window_seconds : N }.

Record SignedEnvelopeContext (Value : Type) := mkEnvelopeContext
  { ec_policy_channel : string; ec_actor_id : string; ec_event_id : string;
    ec_event_timestamp_ms : N; ec_text : string; ec_metadata : gmap string Value;
    ec_now_unix_ms : N }.
Arguments mkEnvelopeContext {Value} _ _ _ _ _ _ _.
Arguments ec_policy_channel {Value} _.
Arguments ec_actor_id {Value} _.
Arguments ec_event_id {Value} _.
Arguments ec_event_timestamp_ms {Value} _.
Arguments ec_text {Value} _.
Arguments ec_metadata {Value} _.
Arguments ec_now_unix_ms {Value} _.

Record SignedEnvelope := mkEnvelope
  { se_schema_version : N; se_key_id : string; se_nonce : string; se_timestamp_ms : N;
    se_channel : string; se_actor_id : string; se_event_id : string; se_signature : string }.

Inductive SignedEnvelopeDecision :=
| EnvelopeAllow (reason key_id nonce : string)
| EnvelopeMissing (reason : string)
| EnvelopeDeny (reason : string).

#[export] Instance SignedEnvelopeDecision_eq_dec : EqDecision SignedEnvelopeDecision.
Proof. solve_decision. Defined.

Definition envelope_reason_code (d : SignedEnvelopeDecision) : string :=
  match d with EnvelopeAllow r _ _ => r | EnvelopeMissing r => r | EnvelopeDeny r => r end.
Definition envelope_status (d : SignedEnvelopeDecision) : string :=
  match d with
  | EnvelopeAllow _ _ _ => "allow" | EnvelopeMissing _ => "missing" | EnvelopeDeny _ => "deny"
  end.

Record SignedEnvelopeReplayGuardState := mkReplayGuard
  { rg_schema_version : N; rg_last_seen : gmap string N }.

Definition replay_guard_default : SignedEnvelopeReplayGuardState :=
  mkReplayGuard SIGNED_ENVELOPE_REPLAY_SCHEMA_VERSION ∅.

Definition default_signed_envelope_policy_config : SignedEnvelopePolicyConfig :=
  mkEnvelopeConfig ".tau/security/trust-roots.json" ".tau/security/signed-envelope-replay.json"
    DEFAULT_TIMESTAMP_SKEW_SECONDS DEFAULT_REPLAY_WINDOW_SECONDS.

(** JSON: the envelope in the metadata and the replay guard file. *)
Class EnvelopeCodec (Value : Type) :=
  { decode_envelope : Value → option SignedEnvelope;
    decode_replay_guard : string → option SignedEnvelopeReplayGuardState;
    encode_replay_guard : SignedEnvelopeReplayGuardState → string }.

(** A written guard is read back; JSON ignores the final line break. *)
Class EnvelopeCodecLaws (Value : Type) `{!EnvelopeCodec Value} : Prop :=
  { decode_encode_replay_guard s :
      decode_replay_guard (encode_replay_guard s +:+ newline) = Some s }.

(** The [base64], [sha2] and [ed25519_dalek] crates. *)
Class EnvelopeCrypto :=
  { base64_decode : string → option (list ascii);
    sha256_digest : string → list ascii;
    verifying_key_from_bytes : list ascii → bool;  (** the bytes are a point of the curve *)
    verify_strict : list ascii → string → list ascii → bool  (** key, message, signature *) }.

(** ** The signed text *)

Definition hex_digit (n : N) : ascii :=
  if (n <? 10)%N then ascii_of_N (48 + n) else ascii_of_N (87 + n).
(** [format!("{:x}", digest)] *)
Definition hex_byte (c : ascii) : list ascii :=
  [hex_digit (N_of_ascii c / 16); hex_digit (N_of_ascii c mod 16)].

Section envelope.
Context {Value : Type} `{!EnvelopeCodec Value} `{!EnvelopeCrypto} `{!TrustRootCodec}.
Implicit Types (fs : TextFs) (config : SignedEnvelopePolicyConfig)
  (context : SignedEnvelopeContext Value).

Definition sha256_hex (text : string) : string := of_chars (mjoin (hex_byte <$> sha256_digest text)).

Definition signed_envelope_message_bytes (policy_channel actor_id event_id : string)
    (timestamp_ms : N) (nonce text : string) : string :=
  join newline
    ["v1"; "channel=" +:+ trim policy_channel; "actor_id=" +:+ trim actor_id;
     "event_id=" +:+ trim event_id; "timestamp_ms=" +:+ show_u64 timestamp_ms;
     "nonce=" +:+ trim nonce; "text_sha256=" +:+ sha256_hex text].

Definition decode_base64_fixed (n : nat) (raw : string) : option (list ascii) :=
  decoded ← base64_decode (trim raw);
  if length decoded =? n then Some decoded else None.

Definition verify_ed25519_signature (message signature_base64 public_key_base64 : string) : bool :=
  match decode_base64_fixed 64 signature_base64, decode_base64_fixed 32 public_key_base64 with
  | Some signature, Some key => verifying_key_from_bytes key && verify_strict key message signature
  | _, _ => false
  end.

(** ** The replay guard *)

Inductive ReplayGuardOutcome := Accepted | ReplayDetected.

Inductive ReplayGuardError :=
| GuardReadError (path : string)
| GuardParseError (path : string)
| GuardUnsupportedVersion (version : N)
| GuardWriteError (e : IoError).

Definition load_signed_envelope_replay_guard_state fs (path : string)
    : Result ReplayGuardError SignedEnvelopeReplayGuardState :=
  match fs_files fs !! path with
  | None =>
      if bool_decide (path ∈ fs_dirs fs) then Err (GuardReadError path) else Ok replay_guard_default
  | Some raw =>
      state ← ok_or (GuardParseError path) (decode_replay_guard raw);
      _ ← bail_if (negb (rg_schema_version state =? SIGNED_ENVELOPE_REPLAY_SCHEMA_VERSION)%N)
            (GuardUnsupportedVersion (rg_schema_version state));
      Ok state
  end.

(** A directory that cannot be created is a temporary file that cannot be written. *)
Definition save_signed_envelope_replay_guard_state fs (path : string)
    (state : SignedEnvelopeReplayGuardState) : TextFs * Result ReplayGuardError unit :=
  match write_text_atomic fs path (encode_replay_guard state +:+ newline) with
  | (fs, Ok _) => (fs, Ok tt)
  | (fs, Err e) => (fs, Err (GuardWriteError e))
  end.

Definition replay_window_ms config : N :=
  saturating_mul_u64 (N.max (ep_replay_window_seconds config) 1) 1000.

Definition replay_key (key_id nonce : string) : string :=
  to_ascii_lowercase (trim key_id) +:+ ":" +:+ to_ascii_lowercase (trim nonce).

(** [retain(|_key, seen| now.saturating_sub(seen) <= retain_window)] *)
Definition retain_recent (now_unix_ms retain_window_ms : N) (seen : gmap string N) : gmap string N :=
  filter (λ kv, (saturating_sub_u64 now_unix_ms kv.2 ≤ retain_window_ms)%N) seen.

Definition enforce_signed_envelope_replay_guard fs config (key_id nonce : string) (now_unix_ms : N)
    : TextFs * Result ReplayGuardError ReplayGuardOutcome :=
  match load_signed_envelope_replay_guard_state fs (ep_replay_guard_path config) with
  | Err e => (fs, Err e)
  | Ok state =>
      let window := replay_window_ms config in
      let seen :=
        retain_recent now_unix_ms (saturating_mul_u64 window 3) (rg_last_seen state) in
      let key := replay_key key_id nonce in
      let replayed :=
        match seen !! key with
        | Some last_seen => (saturating_sub_u64 now_unix_ms last_seen <=? window)%N
        | None => false
        end in
      if replayed then (fs, Ok ReplayDetected)
      else
        match save_signed_envelope_replay_guard_state fs (ep_replay_guard_path config)
                (mkReplayGuard (rg_schema_version state) (<[key := now_unix_ms]> seen)) with
        | (fs, Err e) => (fs, Err e)
        | (fs, Ok _) => (fs, Ok Accepted)
        end
  end.

(** ** The decision *)

Definition timestamp_out_of_window config (timestamp_ms now_unix_ms : N) : bool :=
  (0 <? ep_timestamp_skew_seconds config)%N &&
  (let window_ms := saturating_mul_u64 (ep_timestamp_skew_seconds config) 1000 in
   (saturating_add_u64 now_unix_ms window_ms <? timestamp_ms)%N
   || (saturating_add_u64 timestamp_ms window_ms <? now_unix_ms)%N).

(** The checks on the envelope itself, with the reason of the first that fails. *)
Definition check_envelope config context (envelope : SignedEnvelope) : Result string unit :=
  _ ← bail_if (negb (se_schema_version envelope =? SIGNED_ENVELOPE_SCHEMA_VERSION)%N)
        "deny_signed_envelope_unsupported_schema";
  _ ← bail_if (is_empty (trim (se_channel envelope)) || is_empty (trim (se_actor_id envelope))
               || is_empty (trim (se_event_id envelope)) || is_empty (trim (se_key_id envelope))
               || is_empty (trim (se_nonce envelope)) || is_empty (trim (se_signature envelope))
               || (se_timestamp_ms envelope =? 0)%N)
        "deny_signed_envelope_invalid_metadata";
  _ ← bail_if (negb (String.eqb (trim (se_channel envelope)) (trim (ec_policy_channel context))))
        "deny_signed_envelope_channel_mismatch";
  _ ← bail_if (negb (eq_ignore_ascii_case (trim (se_actor_id envelope)) (trim (ec_actor_id context))))
        "deny_signed_envelope_actor_mismatch";
  _ ← bail_if (negb (String.eqb (trim (se_event_id envelope)) (trim (ec_event_id context))))
        "deny_signed_envelope_event_mismatch";
  _ ← bail_if (negb (se_timestamp_ms envelope =? ec_event_timestamp_ms context)%N)
        "deny_signed_envelope_timestamp_mismatch";
  bail_if (timestamp_out_of_window config (se_timestamp_ms envelope) (ec_now_unix_ms context))
    "deny_signed_envelope_timestamp_out_of_window".

(** The checks of the key and of the signature. *)
Definition check_signature fs config context (envelope : SignedEnvelope) : Result string unit :=
  trust_roots ←
    match load_trust_root_records fs (ep_trust_root_path config) with
    | Ok records => Ok records
    | Err _ => Err "deny_signed_envelope_trust_store_error"
    end;
  trusted_root ←
    ok_or "deny_signed_envelope_untrusted_key"
      (List.find (λ r, eq_ignore_ascii_case (trim (tr_id r)) (trim (se_key_id envelope))) trust_roots);
  _ ← bail_if (tr_revoked trusted_root) "deny_signed_envelope_revoked_key";
  _ ← bail_if
        (match tr_expires_unix trusted_root with
         | Some expires => (expires <=? ec_now_unix_ms context / 1000)%N
         | None => false
         end) "deny_signed_envelope_expired_key";
  let message :=
    signed_envelope_message_bytes (trim (ec_policy_channel context)) (trim (ec_actor_id context))
      (trim (ec_event_id context)) (se_timestamp_ms envelope) (trim (se_nonce envelope))
      (ec_text context) in
  bail_if (negb (verify_ed25519_signature message (trim (se_signature envelope))
                   (trim (tr_public_key trusted_root))))
    "deny_signed_envelope_invalid_signature".

Definition evaluate_signed_envelope_access fs config context : TextFs * SignedEnvelopeDecision :=
  match ec_metadata context !! SIGNED_ENVELOPE_METADATA_KEY with
  | None => (fs, EnvelopeMissing "signed_envelope_missing")
  | Some raw_envelope =>
      match decode_envelope raw_envelope with
      | None => (fs, EnvelopeDeny "deny_signed_envelope_invalid_metadata")
      | Some envelope =>
          match (_ ← check_envelope config context envelope;
                 check_signature fs config context envelope) with
          | Err reason => (fs, EnvelopeDeny reason)
          | Ok _ =>
              let key_id := trim (se_key_id envelope) in
              let nonce := trim (se_nonce envelope) in
              match enforce_signed_envelope_replay_guard fs config key_id nonce
                      (ec_now_unix_ms context) with
              | (fs, Ok ReplayDetected) => (fs, EnvelopeDeny "deny_signed_envelope_replay")
              | (fs, Ok Accepted) =>
                  (fs, EnvelopeAllow "allow_signed_envelope_verified" key_id nonce)
              | (fs, Err _) => (fs, EnvelopeDeny "deny_signed_envelope_replay_guard_error")
              end
          end
      end
  end.
End envelope.

(** ** Lifecycle actions *)

Inductive RlLifecycleAction := RlStatus | RlPause | RlResume | RlCancel | RlRollback.

Definition rl_action_as_str (a : RlLifecycleAction) : string :=
  match a with
  | RlStatus => "status" | RlPause => "pause" | RlResume => "resume" | RlCancel => "cancel"
  | RlRollback => "rollback"
  end.

Definition parse_rl_lifecycle_action (raw : string) : Result string RlLifecycleAction :=
  let token := to_ascii_lowercase (trim raw) in
  if String.eqb token "status" then Ok RlStatus
  else if String.eqb token "pause" then Ok RlPause
  else if String.eqb token "resume" then Ok RlResume
  else if String.eqb token "cancel" then Ok RlCancel
  else if String.eqb token "rollback" then Ok RlRollback
  else Err ("unsupported rl lifecycle action '" +:+ raw +:+
            "'; expected status|pause|resume|cancel|rollback").

Definition rl_lifecycle_action_key (a : RlLifecycleAction) : string :=
  match a with
  | RlStatus => "control:rl:status" | RlPause => "control:rl:pause"
  | RlResume => "control:rl:resume" | RlCancel => "control:rl:cancel"
  | RlRollback => "control:rl:rollback"
  end.

Inductive RlControlError :=
| RlPolicyError (e : RbacError)
| RlUnauthorized (principal action reason : string).

Section control_plane.
Context `{!RbacCodec}.

Definition authorize_rl_lifecycle_action_with_policy_path (fs : TextFs) (principal : string)
    (action : RlLifecycleAction) (policy_path : string) : Result RbacError RbacDecision :=
  authorize_action_for_principal_with_policy_path fs principal (rl_lifecycle_action_key action)
    policy_path.

Definition authorize_rl_lifecycle_action (fs : TextFs) (env : env_vars) (principal : string)
    (action : RlLifecycleAction) : Result RbacError RbacDecision :=
  authorize_action_for_principal_with_policy_path fs principal (rl_lifecycle_action_key action)
    (default_rbac_policy_path env).

Definition enforce_rl_lifecycle_action_with_policy_path (fs : TextFs) (principal : string)
    (action : RlLifecycleAction) (policy_path : string) : Result RlControlError unit :=
  match authorize_rl_lifecycle_action_with_policy_path fs principal action policy_path with
  | Err e => Err (RlPolicyError e)
  | Ok decision =>
      if rbac_is_allowed decision then Ok tt
      else Err (RlUnauthorized principal (rl_lifecycle_action_key action) (Rbac.reason_code decision))
  end.
End control_plane.

Lemma parse_rl_lifecycle_action_as_str a : parse_rl_lifecycle_action (rl_action_as_str a) = Ok a.
Proof. by destruct a. Qed.
