(* ===== verification/EnvelopeTheorems.v ===== *)
(** * Properties of signed envelopes

    What an accepted envelope proves, and that it is accepted once. *)

From Stdlib Require Import Ascii NArith Lia.
From stdpp Require Import base gmap strings list sorting.
From S2P Require Import Prelude RustStr BitCodec AtomicIo TrustRoots SignedEnvelope.

#[local] Open Scope string_scope.
#[local] Open Scope list_scope.
#[local] Open Scope nat_scope.

Section theorems.
Context {Value : Type} `{!EnvelopeCodec Value} `{!EnvelopeCrypto} `{!TrustRootCodec}.
Implicit Types (fs : TextFs) (config : SignedEnvelopePolicyConfig)
  (context : SignedEnvelopeContext Value).

Local Abbreviation load_guard := load_signed_envelope_replay_guard_state.
Local Abbreviation evaluate := evaluate_signed_envelope_access.

(** ** What an accepted envelope proves *)

(** The record a key id selects in the trust roots of the file system. *)
Definition selected_root fs config (key_id : string) : option TrustedRootRecord :=
  match load_trust_root_records fs (ep_trust_root_path config) with
  | Ok records => List.find (λ r, eq_ignore_ascii_case (trim (tr_id r)) (trim key_id)) records
  | Err _ => None
  end.

Definition root_current (root : TrustedRootRecord) (now_unix_ms : N) : Prop :=
  tr_revoked root = false ∧ ∀ expires, tr_expires_unix root = Some expires → (now_unix_ms / 1000 < expires)%N.

(** The envelope is complete, is about this very event, is recent, and is signed by
    a key that is trusted now. *)
Record genuine fs config context (e : SignedEnvelope) : Prop := mkGenuine
  { gen_version : se_schema_version e = SIGNED_ENVELOPE_SCHEMA_VERSION;
    gen_complete : Forall (λ s, trim s ≠ "")
      [se_channel e; se_actor_id e; se_event_id e; se_key_id e; se_nonce e; se_signature e];
    gen_channel : trim (se_channel e) = trim (ec_policy_channel context);
    gen_actor : eq_ignore_ascii_case (trim (se_actor_id e)) (trim (ec_actor_id context)) = true;
    gen_event : trim (se_event_id e) = trim (ec_event_id context);
    gen_timestamp : se_timestamp_ms e = ec_event_timestamp_ms context ∧ se_timestamp_ms e ≠ 0%N;
    gen_recent : timestamp_out_of_window config (se_timestamp_ms e) (ec_now_unix_ms context) = false;
    gen_signed : ∃ root, selected_root fs config (se_key_id e) = Some root ∧
      root_current root (ec_now_unix_ms context) ∧
      verify_ed25519_signature
        (signed_envelope_message_bytes (ec_policy_channel context) (ec_actor_id context)
           (ec_event_id context) (ec_event_timestamp_ms context) (se_nonce e) (ec_text context))
        (trim (se_signature e)) (trim (tr_public_key root)) = true }.

Lemma check_envelope_Ok config context e :
  check_envelope config context e = Ok tt ↔
  se_schema_version e = SIGNED_ENVELOPE_SCHEMA_VERSION ∧
  Forall (λ s, trim s ≠ "")
    [se_channel e; se_actor_id e; se_event_id e; se_key_id e; se_nonce e; se_signature e] ∧
  trim (se_channel e) = trim (ec_policy_channel context) ∧
  eq_ignore_ascii_case (trim (se_actor_id e)) (trim (ec_actor_id context)) = true ∧
  trim (se_event_id e) = trim (ec_event_id context) ∧
  (se_timestamp_ms e = ec_event_timestamp_ms context ∧ se_timestamp_ms e ≠ 0%N) ∧
  timestamp_out_of_window config (se_timestamp_ms e) (ec_now_unix_ms context) = false.
Proof.
  unfold check_envelope. rewrite !check_Ok, !bail_if_Ok, !orb_false_iff, !negb_false_iff, !N.eqb_eq,
    N.eqb_neq, !String.eqb_eq, !is_empty_false, !Forall_cons, Forall_nil. naive_solver.
Qed.

Lemma check_signature_Ok fs config context e :
  se_timestamp_ms e = ec_event_timestamp_ms context →
  check_signature fs config context e = Ok tt ↔
  ∃ root, selected_root fs config (se_key_id e) = Some root ∧
      root_current root (ec_now_unix_ms context) ∧
      verify_ed25519_signature
        (signed_envelope_message_bytes (ec_policy_channel context) (ec_actor_id context)
           (ec_event_id context) (ec_event_timestamp_ms context) (se_nonce e) (ec_text context))
        (trim (se_signature e)) (trim (tr_public_key root)) = true.
Proof.
  intros Hts. unfold check_signature, selected_root, root_current.
  destruct (load_trust_root_records fs (ep_trust_root_path config)) as [records|err]; cbn [mbind result_bind];
    [|split; [done|by intros (? & ? & _)]].
  rewrite bind_Ok, Hts. unfold signed_envelope_message_bytes. rewrite !trim_idemp.
  split; intros (root & Hfind & Hrest); exists root.
  - apply ok_or_Ok in Hfind. split; [done|].
    rewrite !check_Ok, !bail_if_Ok, negb_false_iff in Hrest. destruct Hrest as (Hrev & Hexp & Hsig).
    split; [|done]. split; [done|]. intros expires Hx. rewrite Hx in Hexp. by apply N.leb_gt.
  - rewrite ok_or_Ok, !check_Ok, !bail_if_Ok, negb_false_iff. destruct Hrest as ([Hrev Hexp] & Hsig).
    split; [done|]. split; [done|]. split; [|done].
    destruct (tr_expires_unix root); [|done]. by apply N.leb_gt, Hexp.
Qed.

Lemma checks_genuine fs config context e :
  (_ ← check_envelope config context e; check_signature fs config context e) = Ok tt ↔
  genuine fs config context e.
Proof.
  rewrite check_Ok, check_envelope_Ok. split.
  - intros [(? & ? & ? & ? & ? & [? ?] & ?) Hs]. rewrite check_signature_Ok in Hs by done.
    by constructor.
  - intros []. rewrite check_signature_Ok by naive_solver. naive_solver.
Qed.

(** ** The replay guard *)

(** The time at which the guard file remembers a key. *)
Definition guard_seen fs config (key : string) : option N :=
  match load_guard fs (ep_replay_guard_path config) with
  | Ok state => rg_last_seen state !! key
  | Err _ => None
  end.

Definition envelope_in context (e : SignedEnvelope) : Prop :=
  ∃ raw, ec_metadata context !! SIGNED_ENVELOPE_METADATA_KEY = Some raw ∧ decode_envelope raw = Some e.

Definition remembered config (now : N) (seen : gmap string N) (key : string) : Prop :=
  ∃ last, seen !! key = Some last ∧ (now - last ≤ replay_window_ms config)%N.

Lemma window_retained config : (replay_window_ms config ≤ saturating_mul_u64 (replay_window_ms config) 3)%N.
Proof. unfold replay_window_ms, saturating_mul_u64. lia. Qed.

Lemma retain_recent_lookup now window seen key last :
  retain_recent now window seen !! key = Some last ↔
  seen !! key = Some last ∧ (now - last ≤ window)%N.
Proof. unfold retain_recent. by rewrite map_lookup_filter_Some. Qed.

(** The state that records a key. *)
Definition next_guard config (now : N) (state : SignedEnvelopeReplayGuardState) (key : string)
    : SignedEnvelopeReplayGuardState :=
  mkReplayGuard (rg_schema_version state)
    (<[key := now]> (retain_recent now (saturating_mul_u64 (replay_window_ms config) 3)
                       (rg_last_seen state))).

(** The guard accepts exactly the keys it does not remember, when the new state
    can be written. *)
Lemma enforce_cases fs config key_id nonce now fs' r :
  enforce_signed_envelope_replay_guard fs config key_id nonce now = (fs', r) →
  let path := ep_replay_guard_path config in
  let key := replay_key key_id nonce in
  match r with
  | Ok Accepted =>
      ∃ state, load_guard fs path = Ok state ∧ ¬ remembered config now (rg_last_seen state) key ∧
        save_signed_envelope_replay_guard_state fs path (next_guard config now state key) = (fs', Ok tt)
  | Ok ReplayDetected =>
      fs' = fs ∧ ∃ state, load_guard fs path = Ok state ∧ remembered config now (rg_last_seen state) key
  | Err _ =>
      load_guard fs' path = load_guard fs path ∧
      ∀ state, load_guard fs path = Ok state →
        is_ok (save_signed_envelope_replay_guard_state fs path (next_guard config now state key)).2 = false
  end.
Proof.
  unfold enforce_signed_envelope_replay_guard. cbv zeta. fold (next_guard config now).
  destruct (load_guard fs (ep_replay_guard_path config)) as [state|err] eqn:Hload;
    [|by intros [= <- <-]].
  set (seen := retain_recent _ _ _). set (key := replay_key key_id nonce).
  set (replayed := match seen !! key with Some _ => _ | None => _ end).
  assert (replayed = true ↔ remembered config now (rg_last_seen state) key) as Hrep.
  { unfold replayed, remembered, seen. pose proof (window_retained config). split.
    - destruct (retain_recent _ _ _ !! key) as [last|] eqn:Hl; [|done].
      rewrite retain_recent_lookup in Hl. unfold saturating_sub_u64. rewrite N.leb_le. naive_solver.
    - intros (last & Hl & Hn).
      assert (retain_recent now (saturating_mul_u64 (replay_window_ms config) 3) (rg_last_seen state)
                !! key = Some last) as -> by (apply retain_recent_lookup; split; [done|lia]).
      by apply N.leb_le. }
  destruct replayed; [intros [= <- <-]; naive_solver|].
  change (mkReplayGuard _ _) with (next_guard config now state key).
  destruct (save_signed_envelope_replay_guard_state fs _ _) as [fs1 [[]|err]] eqn:Hsave;
    intros [= <- <-].
  - exists state. split; [done|]. split; [by rewrite <-Hrep|done].
  - split; [|by intros state' [= <-]; rewrite Hsave].
    unfold save_signed_envelope_replay_guard_state in Hsave.
    destruct (write_text_atomic fs _ _) as [fs2 [|]] eqn:Hw; [done|]. injection Hsave as <- _.
    apply (f_equal fst) in Hw as Hd. apply (f_equal fs_dirs) in Hd.
    rewrite write_text_atomic_dirs in Hd. cbn in Hd.
    rewrite <-Hload. unfold load_signed_envelope_replay_guard_state.
    by rewrite (write_text_atomic_Err _ _ _ _ _ Hw), Hd.
Qed.
(** What an evaluation does: it accepts a genuine envelope whose key the guard does
    not remember and records it, or leaves the guard as it was. *)
Lemma evaluate_cases fs config context fs' d :
  evaluate fs config context = (fs', d) →
  (∃ e, envelope_in context e ∧ genuine fs config context e ∧
     d = EnvelopeAllow "allow_signed_envelope_verified" (trim (se_key_id e)) (trim (se_nonce e)) ∧
     enforce_signed_envelope_replay_guard fs config (trim (se_key_id e)) (trim (se_nonce e))
       (ec_now_unix_ms context) = (fs', Ok Accepted)) ∨
  ((∀ r k n, d ≠ EnvelopeAllow r k n) ∧
   load_guard fs' (ep_replay_guard_path config) = load_guard fs (ep_replay_guard_path config)).
Proof.
  unfold evaluate. destruct (ec_metadata context !! _) as [raw|] eqn:Hraw; [|by intros [= <- <-]; right].
  destruct (decode_envelope raw) as [e|] eqn:He; [|by intros [= <- <-]; right].
  destruct (_ ← check_envelope _ _ _; _) as [[]|reason] eqn:Hc; [|by intros [= <- <-]; right].
  apply checks_genuine in Hc.
  destruct (enforce_signed_envelope_replay_guard _ _ _ _ _) as [fs1 [[|]|err]] eqn:Hg;
    intros [= <- <-].
  - left. exists e. split; [by exists raw|]. done.
  - right. apply enforce_cases in Hg as [-> _]. done.
  - right. by apply enforce_cases in Hg as [? _].
Qed.

(** C15: an envelope is accepted exactly when the message carries one that is
    complete, is about this channel, actor, event and time, is recent, and is
    signed over exactly these fields and the text by a key that is trusted,
    unrevoked and unexpired now, when the guard does not remember its key and nonce
    and can be updated. *)
Theorem envelope_allow_exact fs config context :
  (∃ r k n, (evaluate fs config context).2 = EnvelopeAllow r k n) ↔
  ∃ e state, envelope_in context e ∧ genuine fs config context e ∧
    load_guard fs (ep_replay_guard_path config) = Ok state ∧
    ¬ remembered config (ec_now_unix_ms context) (rg_last_seen state)
        (replay_key (se_key_id e) (se_nonce e)) ∧
    is_ok (save_signed_envelope_replay_guard_state fs (ep_replay_guard_path config)
      (next_guard config (ec_now_unix_ms context) state (replay_key (se_key_id e) (se_nonce e)))).2
    = true.
Proof.
  assert (∀ k n, replay_key (trim k) (trim n) = replay_key k n) as Hkey
    by (intros; unfold replay_key; by rewrite !trim_idemp).
  split.
  - destruct (evaluate fs config context) as [fs' d] eqn:E. cbn. intros (r & k & n & ->).
    destruct (evaluate_cases _ _ _ _ _ E) as [(e & Hin & Hgen & _ & Henf)|[Hne _]];
      [|by destruct (Hne r k n)].
    destruct (enforce_cases _ _ _ _ _ _ _ Henf) as (state & Hload & Hnew & Hsave).
    rewrite Hkey in Hnew, Hsave. exists e, state. by rewrite Hsave.
  - intros (e & state & (raw & Hraw & He) & Hgen%checks_genuine & Hload & Hnew & Hsave).
    destruct (evaluate fs config context) as [fs' d] eqn:E. cbn. unfold evaluate in E.
    rewrite Hraw, He, Hgen in E.
    destruct (enforce_signed_envelope_replay_guard fs config _ _ _) as [fs1 r] eqn:Hg.
    pose proof (enforce_cases _ _ _ _ _ _ _ Hg) as Hcases. rewrite Hkey in Hcases.
    destruct r as [[|]|err].
    + injection E as <- <-. by eexists _, _, _.
    + destruct Hcases as (_ & state' & Hload' & Hrem). rewrite Hload in Hload'. injection Hload' as <-. by destruct Hnew.
    + destruct Hcases as [_ Hfail]. rewrite (Hfail _ Hload) in Hsave. done.
Qed.

(** ** The signed text *)

Lemma split_on_join (l : list string) :
  l ≠ [] → Forall (λ s, newline_char ∉ chars_of s) l → split_on newline_char (join newline l) = l.
Proof.
  intros Hne Hl. unfold split_on.
  assert (split_byte newline_char [] (chars_of (join newline l)) = chars_of <$> l) as ->.
  { induction Hl as [|s l Hs Hl IH]; [done|]. destruct l as [|s' l].
    - cbn [join]. by rewrite split_byte_none.
    - change (join newline (s :: s' :: l)) with (s +:+ newline +:+ join newline (s' :: l)).
      rewrite !chars_of_app. change (chars_of newline) with [newline_char]. cbn [app].
      rewrite split_byte_app, IH by done. by rewrite app_nil_r, reverse_involutive. }
  rewrite <-list_fmap_compose. rewrite <-(list_fmap_id l) at 2. apply list_fmap_ext.
  intros _ s _. apply chars_of_inj. exact (chars_of_of_chars (chars_of s)).
Qed.

Lemma hex_byte_line c : newline_char ∉ hex_byte c.
Proof. destruct c as [[] [] [] [] [] [] [] []]; apply (bool_decide_unpack _); by vm_compute. Qed.

Lemma signed_lines_safe channel actor event timestamp nonce text :
  Forall (λ s, newline_char ∉ chars_of (trim s)) [channel; actor; event; nonce] →
  Forall (λ s, newline_char ∉ chars_of s)
    ["v1"; "channel=" +:+ trim channel; "actor_id=" +:+ trim actor; "event_id=" +:+ trim event;
     "timestamp_ms=" +:+ show_u64 timestamp; "nonce=" +:+ trim nonce;
     "text_sha256=" +:+ sha256_hex text].
Proof.
  rewrite !Forall_cons. intros (Hc & Ha & He & Hn & _).
  assert (∀ p s, newline_char ∉ chars_of p → newline_char ∉ chars_of s →
            newline_char ∉ chars_of (p +:+ s)) as Happ
    by (intros p s Hp Hs; rewrite chars_of_app, elem_of_app; tauto).
  assert (newline_char ∉ chars_of (show_u64 timestamp)) as Ht.
  { intros Hin. pose proof (show_u64_digits timestamp) as Hd. rewrite Forall_forall in Hd.
    by apply Hd in Hin. }
  assert (newline_char ∉ chars_of (sha256_hex text)) as Hx.
  { unfold sha256_hex. rewrite chars_of_of_chars. intros (l & Hin & Hl)%list_elem_of_join.
    apply list_elem_of_fmap in Hl as (c & -> & _). by apply hex_byte_line in Hin. }
  split_and!; try apply Happ; try done; apply (bool_decide_unpack _); by vm_compute.
Qed.

(** Fields without line breaks are pinned down by the signed bytes. *)
Lemma signed_bytes_pin_fields channel actor event timestamp nonce text
    channel' actor' event' timestamp' nonce' text' :
  Forall (λ s, newline_char ∉ chars_of (trim s)) [channel; actor; event; nonce] →
  Forall (λ s, newline_char ∉ chars_of (trim s)) [channel'; actor'; event'; nonce'] →
  signed_envelope_message_bytes channel actor event timestamp nonce text =
    signed_envelope_message_bytes channel' actor' event' timestamp' nonce' text' →
  trim channel = trim channel' ∧ trim actor = trim actor' ∧ trim event = trim event' ∧
  timestamp = timestamp' ∧ trim nonce = trim nonce' ∧ sha256_hex text = sha256_hex text'.
Proof.
  intros Hl Hl' Heq%(f_equal (split_on newline_char)). unfold signed_envelope_message_bytes in Heq.
  rewrite !split_on_join in Heq by (done || by apply signed_lines_safe).
  injection Heq as H1 H2 H3 H4%(inj show_u64) H5 H6. done.
Qed.

(** Fields with line breaks are not: one signature covers different messages. *)
Lemma signed_bytes_ambiguous text :
  let e := "e" +:+ newline +:+ "event_id=f" in
  let a := "u" +:+ newline +:+ "event_id=e" in
  signed_envelope_message_bytes "c" a "f" 1 "n" text = signed_envelope_message_bytes "c" "u" e 1 "n" text.
Proof. unfold signed_envelope_message_bytes. cbn [join]. done. Qed.

(** ** Replays *)

Definition allowed_key (d : SignedEnvelopeDecision) : option string :=
  match d with EnvelopeAllow _ k n => Some (replay_key k n) | _ => None end.

(** Evaluations in order, with other programs changing anything but the guard file
    in between. *)
Inductive envelope_run config
    : TextFs → list (SignedEnvelopeContext Value * SignedEnvelopeDecision) → TextFs → Prop :=
| run_done fs : envelope_run config fs [] fs
| run_evaluate fs fs1 fs2 context d trace :
    evaluate fs config context = (fs1, d) → envelope_run config fs1 trace fs2 →
    envelope_run config fs ((context, d) :: trace) fs2
| run_other fs fs1 fs2 trace :
    load_guard fs1 (ep_replay_guard_path config) = load_guard fs (ep_replay_guard_path config) →
    envelope_run config fs1 trace fs2 → envelope_run config fs trace fs2.

Lemma guard_seen_same fs fs' config key :
  load_guard fs' (ep_replay_guard_path config) = load_guard fs (ep_replay_guard_path config) →
  guard_seen fs' config key = guard_seen fs config key.
Proof. unfold guard_seen. by intros ->. Qed.

Section laws.
Context `{!EnvelopeCodecLaws Value}.

Lemma accepted_guard fs config key_id nonce now fs' state :
  load_guard fs (ep_replay_guard_path config) = Ok state →
  enforce_signed_envelope_replay_guard fs config key_id nonce now = (fs', Ok Accepted) →
  ∀ key, guard_seen fs' config key =
    <[replay_key key_id nonce := now]>
      (retain_recent now (saturating_mul_u64 (replay_window_ms config) 3) (rg_last_seen state)) !! key.
Proof.
  intros Hload Henf key. destruct (enforce_cases _ _ _ _ _ _ _ Henf) as (state' & Hload' & _ & Hsave).
  rewrite Hload in Hload'. injection Hload' as <-.
  unfold save_signed_envelope_replay_guard_state in Hsave.
  destruct (write_text_atomic fs _ _) as [fs1 [[]|]] eqn:Hw; [|done]. injection Hsave as <-.
  apply write_text_atomic_Ok in Hw. unfold guard_seen, load_signed_envelope_replay_guard_state.
  rewrite Hw, decode_encode_replay_guard. cbn.
  assert (rg_schema_version state = SIGNED_ENVELOPE_REPLAY_SCHEMA_VERSION) as Hv.
  { unfold load_signed_envelope_replay_guard_state in Hload.
    destruct (fs_files fs !! _) as [raw|].
    - apply bind_Ok in Hload as (st & _ & Hst). apply check_Ok in Hst as [Hv [= ->]].
      by apply bail_if_Ok, negb_false_iff, N.eqb_eq in Hv.
    - case_match; [done|]. by injection Hload as <-. }
  by rewrite Hv.
Qed.

(** A remembered key is not accepted and stays remembered while it is recent. *)
Lemma evaluate_remembers fs config context fs' d key last :
  guard_seen fs config key = Some last →
  (ec_now_unix_ms context - last ≤ replay_window_ms config)%N →
  evaluate fs config context = (fs', d) →
  allowed_key d ≠ Some key ∧ guard_seen fs' config key = Some last.
Proof.
  intros Hseen Hrecent E.
  destruct (evaluate_cases _ _ _ _ _ E) as [(e & _ & _ & -> & Henf)|[Hne Hsame]].
  - pose proof (enforce_cases _ _ _ _ _ _ _ Henf) as (state & Hload & Hnew & _).
    rewrite (accepted_guard _ _ _ _ _ _ _ Hload Henf).
    unfold guard_seen in Hseen. rewrite Hload in Hseen. cbn.
    assert (replay_key (trim (se_key_id e)) (trim (se_nonce e)) ≠ key) as Hk.
    { intros <-. apply Hnew. by exists last. }
    split; [by intros [= ?]|]. rewrite lookup_insert_ne by done. apply retain_recent_lookup.
    pose proof (window_retained config). split; [done|lia].
  - rewrite (guard_seen_same _ _ _ _ Hsame). split; [|done].
    destruct d as [r k n| |]; [by destruct (Hne r k n)|done|done].
Qed.

Lemma run_remembers config fs trace fs' key last j context d :
  envelope_run config fs trace fs' → guard_seen fs config key = Some last →
  StronglySorted (λ a b, (ec_now_unix_ms a ≤ ec_now_unix_ms b)%N) trace.*1 →
  trace !! j = Some (context, d) → allowed_key d = Some key →
  (ec_now_unix_ms context - last ≤ replay_window_ms config)%N → False.
Proof.
  intros Hrun. revert j. induction Hrun as [|fs fs1 fs2 c d' trace E Hrun IH|fs fs1 fs2 trace Hs Hrun IH];
    intros j Hseen Hsorted Hj Hd Hrecent; [done| |].
  - rewrite fmap_cons in Hsorted. apply StronglySorted_inv in Hsorted as [Hsorted Hle]. destruct j as [|j].
    + injection Hj as -> ->. by destruct (evaluate_remembers _ _ _ _ _ _ _ Hseen Hrecent E).
    + assert ((ec_now_unix_ms c ≤ ec_now_unix_ms context)%N).
      { rewrite Forall_forall in Hle. apply Hle. apply list_elem_of_fmap.
        exists (context, d). split; [done|]. by eapply list_elem_of_lookup_2. }
      destruct (evaluate_remembers fs config c fs1 d' key last Hseen ltac:(lia) E) as [_ Hseen'].
      by eapply (IH j).
  - eapply (IH j); try done. by rewrite (guard_seen_same _ _ _ _ Hs).
Qed.

Lemma allowed_recent fs config context fs' d key :
  evaluate fs config context = (fs', d) → allowed_key d = Some key →
  timestamp_out_of_window config (ec_event_timestamp_ms context) (ec_now_unix_ms context) = false ∧
  guard_seen fs' config key = Some (ec_now_unix_ms context).
Proof.
  intros E Hd. destruct (evaluate_cases _ _ _ _ _ E) as [(e & _ & Hgen & -> & Henf)|[Hne _]].
  - injection Hd as <-. pose proof (enforce_cases _ _ _ _ _ _ _ Henf) as (state & Hload & _).
    rewrite (accepted_guard _ _ _ _ _ _ _ Hload Henf), lookup_insert_eq. split; [|done].
    destruct Hgen as [_ _ _ _ _ [<- _] Hr _]. exact Hr.
  - destruct d as [r k n| |]; [by destruct (Hne r k n)|done|done].
Qed.

End laws.
End theorems.

(** ** Concrete runs *)

#[export] Instance plain_envelopes : EnvelopeCodec SignedEnvelope :=
  {| decode_envelope := Some;
     decode_replay_guard s := (λ p, mkReplayGuard p.1 p.2) <$> decode_bits (trim s);
     encode_replay_guard g := encode_bits (rg_schema_version g, rg_last_seen g) |}.
#[export] Instance plain_envelopes_laws : EnvelopeCodecLaws SignedEnvelope.
Proof.
  split. intros [v m]. cbn -[encode_bits decode_bits trim newline].
  assert (trim (encode_bits (v, m) +:+ newline) = encode_bits (v, m)) as -> by apply trim_marked_newline.
  by rewrite decode_encode_bits.
Qed.

(** Lengths decode as themselves, and every signature is good. *)
#[export] Instance toy_crypto : EnvelopeCrypto :=
  {| base64_decode s := Some (chars_of s); sha256_digest s := chars_of s;
     verifying_key_from_bytes _ := true; verify_strict _ _ _ := true |}.
#[export] Instance one_root : TrustRootCodec :=
  {| decode_roots := λ _, Some (RootList
       [mkTrustedRoot "ops" (of_chars (replicate 32 "k"%char)) false None None]);
     encode_roots := λ _, "" |}.

Definition root_fs config : TextFs :=
  mkTextFs {[ep_trust_root_path config := "x"]} ∅ (λ _, false) (λ _, false) 7 1000.

(** The message with the given nonce, sent at 1000 s and checked at the given time. *)
Definition checked_at (nonce : string) (now : N) : SignedEnvelopeContext SignedEnvelope :=
  mkEnvelopeContext "slack" "ann" "e1" 1000000 "hello"
    {[SIGNED_ENVELOPE_METADATA_KEY :=
        mkEnvelope 1 "ops" nonce 1000000 "slack" "Ann" "e1" (of_chars (replicate 64 "s"%char))]} now.

Definition after config context fs : TextFs := (evaluate_signed_envelope_access fs config context).1.

Definition wide_config : SignedEnvelopePolicyConfig := mkEnvelopeConfig "roots" "guard" 300 600.


(** The default window equals the tolerance, which lets a message from a clock that
    runs ahead in twice: accepted 300 s before its time stamp and again, replayed,
    301 s later. *)
Lemma default_window_accepts_replay :
  let config := default_signed_envelope_policy_config in
  let fs := root_fs config in
  let first := checked_at "n1" 700000 in
  let replay := checked_at "n1" 1001000 in
  allowed_key (evaluate_signed_envelope_access fs config first).2 = Some "ops:n1" ∧
  allowed_key (evaluate_signed_envelope_access (after config first fs) config replay).2 = Some "ops:n1".
Proof. by vm_compute. Qed.
