(* ===== verification/MultiAgentRouter.v ===== *)
(** * The orchestrator's router ([tau-orchestrator], [multi_agent_router.rs])

    A table of roles decides which agent handles a phase of a request; trust scores
    reorder and gate the roles that are tried. *)

From Stdlib Require Import Ascii NArith Lia.
From stdpp Require Import base gmap sets strings list sorting.
From S2P Require Import Prelude RustStr AtomicIo.

#[local] Open Scope string_scope.
#[local] Open Scope list_scope.
#[local] Open Scope nat_scope.

Definition ROUTE_TABLE_SCHEMA_VERSION : N := 1.
Definition DEFAULT_ROLE_NAME : string := "default".
Definition DEFAULT_TRUST_WEIGHT : N := 100.
Definition DEFAULT_TRUST_STALE_AFTER_SECONDS : N := 3600.

Record MultiAgentRoleProfile := mkRoleProfile
  { rp_model : option string; rp_prompt_suffix : option string;
    rp_tool_policy_preset : option string;
    rp_trust_weight : option N; rp_minimum_trust_score : option N }.

Definition role_profile_default : MultiAgentRoleProfile := mkRoleProfile None None None None None.

Record MultiAgentRouteTarget := mkRouteTarget
  { rt_role : string; rt_fallback_roles : list string }.

Definition route_target_default : MultiAgentRouteTarget := mkRouteTarget DEFAULT_ROLE_NAME [].

Record MultiAgentRouteTable := mkRouteTable
  { tb_schema_version : N;
    tb_roles : gmap string MultiAgentRoleProfile;
    tb_planner : MultiAgentRouteTarget;
    tb_delegated : MultiAgentRouteTarget;
    tb_delegated_categories : gmap string MultiAgentRouteTarget;
    tb_review : MultiAgentRouteTarget }.

Definition default_role_profiles : gmap string MultiAgentRoleProfile :=
  {[ DEFAULT_ROLE_NAME := role_profile_default ]}.

Definition route_table_default : MultiAgentRouteTable :=
  mkRouteTable ROUTE_TABLE_SCHEMA_VERSION default_role_profiles route_target_default
    route_target_default ∅ route_target_default.

Inductive MultiAgentRoutePhase := Planner | DelegatedStep | Review.

#[export] Instance MultiAgentRoutePhase_eq_dec : EqDecision MultiAgentRoutePhase.
Proof. solve_decision. Defined.

Definition phase_as_str (p : MultiAgentRoutePhase) : string :=
  match p with
  | Planner => "planner" | DelegatedStep => "delegated-step" | Review => "review"
  end.

Record MultiAgentRouteSelection := mkSelection
  { sl_phase : MultiAgentRoutePhase; sl_category : option string; sl_primary_role : string;
    sl_fallback_roles : list string; sl_attempt_roles : list string; sl_trust_status : string;
    sl_trust_score : option N; sl_trust_threshold : option N;
    sl_trust_score_source : option string; sl_trust_stale : bool }.

Record MultiAgentRouteTrustInput := mkTrustInput
  { ti_global_score : option N; ti_role_scores : gmap string N; ti_minimum_score : option N;
    ti_updated_unix_ms : option N; ti_now_unix_ms : N; ti_stale_after_seconds : option N }.

(** ** The table *)

(** The entries of a [BTreeMap] in its order. *)
Definition btree_entries {A} (m : gmap string A) : list (string * A) :=
  sort_by (λ a b, String.leb a.1 b.1) (map_to_list m).

Definition normalize_role_name (raw : string) : option string :=
  let trimmed := trim raw in if is_empty trimmed then None else Some trimmed.

Definition validate_role_profile_trust (source_label role : string) (profile : MultiAgentRoleProfile)
    : Result string unit :=
  _ ← match rp_minimum_trust_score profile with
      | Some score =>
          bail_if (100 <? score)%N
            ("role '" +:+ role +:+ "' minimum_trust_score " +:+ show_u64 score +:+
             " exceeds 100 in " +:+ source_label)
      | None => Ok tt
      end;
  match rp_trust_weight profile with
  | Some weight =>
      bail_if (weight =? 0)%N
        ("role '" +:+ role +:+ "' trust_weight must be greater than 0 in " +:+ source_label)
  | None => Ok tt
  end.

(** The loop over the roles of the file. *)
Fixpoint normalize_roles (source_label : string) (raw : list (string * MultiAgentRoleProfile))
    (normalized : gmap string MultiAgentRoleProfile)
    : Result string (gmap string MultiAgentRoleProfile) :=
  match raw with
  | [] => Ok normalized
  | (raw_role, profile) :: raw =>
      role ← ok_or ("invalid role name '" +:+ raw_role +:+ "'") (normalize_role_name raw_role);
      _ ← validate_role_profile_trust source_label role profile;
      _ ← bail_if (bool_decide (is_Some (normalized !! role)))
            ("duplicate role '" +:+ role +:+ "' in " +:+ source_label);
      normalize_roles source_label raw (<[role := profile]> normalized)
  end.

(** The loop over the fallback roles of a target. *)
Fixpoint normalize_fallbacks (source_label field_name primary : string)
    (roles : gmap string MultiAgentRoleProfile) (raw : list string) (seen : gset string)
    : Result string (list string) :=
  match raw with
  | [] => Ok []
  | raw_role :: raw =>
      role ← ok_or ("invalid fallback role '" +:+ raw_role +:+ "' for route target '" +:+ field_name
                    +:+ "' in " +:+ source_label) (normalize_role_name raw_role);
      if String.eqb role primary then normalize_fallbacks source_label field_name primary roles raw seen
      else
        _ ← bail_if (negb (bool_decide (is_Some (roles !! role))))
              ("route target '" +:+ field_name +:+ "' references unknown fallback role '" +:+ role
               +:+ "' in " +:+ source_label);
        if decide (role ∈ seen) then normalize_fallbacks source_label field_name primary roles raw seen
        else
          rest ← normalize_fallbacks source_label field_name primary roles raw ({[role]} ∪ seen);
          Ok (role :: rest)
  end.

Definition normalize_route_target (source_label : string) (roles : gmap string MultiAgentRoleProfile)
    (target : MultiAgentRouteTarget) (field_name : string) : Result string MultiAgentRouteTarget :=
  primary ← ok_or ("invalid role '" +:+ rt_role target +:+ "' for route target '" +:+ field_name
                   +:+ "' in " +:+ source_label) (normalize_role_name (rt_role target));
  _ ← bail_if (negb (bool_decide (is_Some (roles !! primary))))
        ("route target '" +:+ field_name +:+ "' references unknown role '" +:+ primary +:+ "' in "
         +:+ source_label);
  fallbacks ← normalize_fallbacks source_label field_name primary roles (rt_fallback_roles target) ∅;
  Ok (mkRouteTarget primary fallbacks).

(** The loop over the categories, which keep their keys. *)
Fixpoint normalize_categories (source_label : string) (roles : gmap string MultiAgentRoleProfile)
    (raw : list (string * MultiAgentRouteTarget)) : Result string (list (string * MultiAgentRouteTarget)) :=
  match raw with
  | [] => Ok []
  | (raw_category, target) :: raw =>
      let category := trim raw_category in
      _ ← bail_if (is_empty category)
            ("delegated route category cannot be empty in " +:+ source_label);
      target ← normalize_route_target source_label roles target
                 ("delegated_categories['" +:+ category +:+ "']");
      rest ← normalize_categories source_label roles raw;
      Ok ((raw_category, target) :: rest)
  end.

Definition normalize_and_validate_route_table (source_label : string) (table : MultiAgentRouteTable)
    : Result string MultiAgentRouteTable :=
  _ ← bail_if (negb (tb_schema_version table =? ROUTE_TABLE_SCHEMA_VERSION)%N)
        ("unsupported orchestrator route table schema_version " +:+ show_u64 (tb_schema_version table)
         +:+ " in " +:+ source_label +:+ " (expected " +:+ show_u64 ROUTE_TABLE_SCHEMA_VERSION +:+ ")");
  normalized ← normalize_roles source_label (btree_entries (tb_roles table)) ∅;
  let roles := if decide (normalized = ∅) then default_role_profiles else normalized in
  planner ← normalize_route_target source_label roles (tb_planner table) "planner";
  delegated ← normalize_route_target source_label roles (tb_delegated table) "delegated";
  review ← normalize_route_target source_label roles (tb_review table) "review";
  categories ← normalize_categories source_label roles (btree_entries (tb_delegated_categories table));
  Ok (mkRouteTable (tb_schema_version table) roles planner delegated (list_to_map categories) review).

(** [serde_json::from_str::<MultiAgentRouteTable>] *)
Class RouteTableCodec := { decode_route_table : string → option MultiAgentRouteTable }.

Section loading.
Context `{!RouteTableCodec}.

Definition parse_multi_agent_route_table_with_source (raw source_label : string)
    : Result string MultiAgentRouteTable :=
  parsed ← ok_or ("failed to parse orchestrator route table " +:+ source_label) (decode_route_table raw);
  normalize_and_validate_route_table source_label parsed.

Definition parse_multi_agent_route_table (raw : string) : Result string MultiAgentRouteTable :=
  parse_multi_agent_route_table_with_source raw "<inline-route-table>".

Definition load_multi_agent_route_table (fs : TextFs) (path : string)
    : Result string MultiAgentRouteTable :=
  match fs_files fs !! path with
  | None =>
      if bool_decide (path ∈ fs_dirs fs)
      then Err ("failed to read orchestrator route table " +:+ path) else Ok route_table_default
  | Some raw => parse_multi_agent_route_table_with_source raw path
  end.
End loading.

(** ** Selection *)

(** The first category, in key order, whose name occurs in the text. *)
Fixpoint find_category (normalized : string) (categories : list (string * MultiAgentRouteTarget))
    : option (string * MultiAgentRouteTarget) :=
  match categories with
  | [] => None
  | (category, target) :: rest =>
      let category_match := to_ascii_lowercase (trim category) in
      if negb (is_empty category_match) && str_contains category_match normalized
      then Some (category, target) else find_category normalized rest
  end.

Definition select_delegated_category_target (categories : gmap string MultiAgentRouteTarget)
    (step_text : string) : option (string * MultiAgentRouteTarget) :=
  find_category (to_ascii_lowercase step_text) (btree_entries categories).

Record TrustRouteCandidate := mkCandidate
  { cd_role : string; cd_original_index : nat; cd_threshold : option N; cd_score : option N;
    cd_raw_score_present : bool; cd_weighted_score : N; cd_source : option string;
    cd_meets_threshold : bool }.

Record TrustRouteEvaluation := mkEvaluation
  { ev_attempt_roles : list string; ev_status : string; ev_selected_score : option N;
    ev_selected_threshold : option N; ev_selected_source : option string; ev_stale : bool }.

Definition resolve_candidate_score (trust_input : MultiAgentRouteTrustInput) (role : string)
    : option N * option string :=
  match ti_role_scores trust_input !! role with
  | Some score => (Some score, Some "role_scores")
  | None =>
      match ti_global_score trust_input with
      | Some score => (Some score, Some "global_score")
      | None => (None, None)
      end
  end.

Definition resolve_multi_agent_role_profile (table : MultiAgentRouteTable) (role : string)
    : MultiAgentRoleProfile :=
  default role_profile_default (tb_roles table !! role).

Definition trust_is_stale (trust_input : MultiAgentRouteTrustInput) : bool :=
  let stale_after_ms :=
    saturating_mul_u64
      (default DEFAULT_TRUST_STALE_AFTER_SECONDS (ti_stale_after_seconds trust_input)) 1000 in
  match ti_updated_unix_ms trust_input with
  | Some updated => (stale_after_ms <? saturating_sub_u64 (ti_now_unix_ms trust_input) updated)%N
  | None => false
  end.

(** [a.or(b)] *)
Definition option_or {A} (a b : option A) : option A := match a with Some _ => a | None => b end.

(** The row of a role; [u32::from(u8) * u32::from(u16)] does not overflow. *)
Definition trust_candidate (table : MultiAgentRouteTable) (trust_input : MultiAgentRouteTrustInput)
    (stale : bool) (index : nat) (role : string) : TrustRouteCandidate :=
  let profile := resolve_multi_agent_role_profile table role in
  let threshold := option_or (ti_minimum_score trust_input) (rp_minimum_trust_score profile) in
  let weight := default DEFAULT_TRUST_WEIGHT (rp_trust_weight profile) in
  let '(raw_score, source) := resolve_candidate_score trust_input role in
  let score := if stale then None else raw_score in
  let weighted_score := match score with Some value => (value * weight)%N | None => 0%N end in
  let meets_threshold :=
    match threshold with
    | Some minimum => match score with Some value => (minimum <=? value)%N | None => false end
    | None => true
    end in
  mkCandidate role index threshold score (bool_decide (is_Some raw_score)) weighted_score source
    meets_threshold.

(** [Option::cmp]: [None] is below every score. *)
Definition option_compare (a b : option N) : comparison :=
  match a, b with
  | None, None => Eq
  | None, Some _ => Lt
  | Some _, None => Gt
  | Some x, Some y => N.compare x y
  end.

(** The order of the candidates: heavier, then better, then earlier. *)
Definition candidate_le (left right : TrustRouteCandidate) : bool :=
  match N.compare (cd_weighted_score right) (cd_weighted_score left) with
  | Lt => true
  | Gt => false
  | Eq =>
      match option_compare (cd_score right) (cd_score left) with
      | Lt => true
      | Gt => false
      | Eq => cd_original_index left <=? cd_original_index right
      end
  end.

Definition evaluate_trust_weighted_attempt_roles (table : MultiAgentRouteTable)
    (attempt_roles : list string) (trust_input : option MultiAgentRouteTrustInput)
    : TrustRouteEvaluation :=
  match trust_input with
  | None => mkEvaluation attempt_roles "disabled" None None None false
  | Some trust_input =>
      let stale := trust_is_stale trust_input in
      let candidates := imap (trust_candidate table trust_input stale) attempt_roles in
      let has_raw_scores := existsb cd_raw_score_present candidates in
      let threshold_gated := existsb (λ c, negb (cd_meets_threshold c)) candidates in
      let eligible := sort_by candidate_le (List.filter cd_meets_threshold candidates) in
      match eligible with
      | first :: _ =>
          let ordered_roles :=
            (cd_role <$> eligible) ++
            (cd_role <$> List.filter (λ c, negb (cd_meets_threshold c)) candidates) in
          let selected :=
            default first (List.find (λ c, String.eqb (cd_role c) (cd_role first)) candidates) in
          let status :=
            if threshold_gated then "threshold_gated"
            else if has_raw_scores && negb stale then "trust_weighted" else "trust_unweighted" in
          mkEvaluation ordered_roles status (cd_score selected) (cd_threshold selected)
            (cd_source selected) stale
      | [] =>
          let status :=
            if stale then "fallback_stale_trust"
            else if has_raw_scores then "fallback_low_trust" else "fallback_missing_trust" in
          let selected := head candidates in
          mkEvaluation attempt_roles status (selected ≫= cd_score) (selected ≫= cd_threshold)
            (selected ≫= cd_source) stale
      end
  end.

(** The target of a phase, with the category that chose it. *)
Definition phase_target (table : MultiAgentRouteTable) (phase : MultiAgentRoutePhase)
    (step_text : option string) : MultiAgentRouteTarget * option string :=
  match phase with
  | Planner => (tb_planner table, None)
  | Review => (tb_review table, None)
  | DelegatedStep =>
      match step_text ≫= select_delegated_category_target (tb_delegated_categories table) with
      | Some (category, target) => (target, Some category)
      | None => (tb_delegated table, None)
      end
  end.

Definition select_multi_agent_route_with_trust (table : MultiAgentRouteTable)
    (phase : MultiAgentRoutePhase) (step_text : option string)
    (trust_input : option MultiAgentRouteTrustInput) : MultiAgentRouteSelection :=
  let '(target, category) := phase_target table phase step_text in
  let evaluation :=
    evaluate_trust_weighted_attempt_roles table (rt_role target :: rt_fallback_roles target)
      trust_input in
  mkSelection phase category (default (rt_role target) (head (ev_attempt_roles evaluation)))
    (drop 1 (ev_attempt_roles evaluation)) (ev_attempt_roles evaluation) (ev_status evaluation)
    (ev_selected_score evaluation) (ev_selected_threshold evaluation)
    (ev_selected_source evaluation) (ev_stale evaluation).

Definition select_multi_agent_route (table : MultiAgentRouteTable) (phase : MultiAgentRoutePhase)
    (step_text : option string) : MultiAgentRouteSelection :=
  select_multi_agent_route_with_trust table phase step_text None.

Definition build_multi_agent_role_prompt (base_prompt : string) (phase : MultiAgentRoutePhase)
    (role : string) (profile : MultiAgentRoleProfile) : string :=
  let suffix := match rp_prompt_suffix profile with Some s => trim s | None => "" end in
  let has_explicit_profile :=
    negb (String.eqb role DEFAULT_ROLE_NAME) || bool_decide (is_Some (rp_model profile))
    || bool_decide (is_Some (rp_tool_policy_preset profile)) || negb (is_empty suffix) in
  if negb has_explicit_profile then base_prompt
  else
    let context :=
      base_prompt +:+ newline +:+ newline +:+
      join newline ["ORCHESTRATOR_ROLE_CONTEXT"; "phase=" +:+ phase_as_str phase; "role=" +:+ role;
                    "model_hint=" +:+ default "inherit" (rp_model profile);
                    "tool_policy_preset=" +:+ default "inherit" (rp_tool_policy_preset profile)] in
    if is_empty suffix then context
    else context +:+ newline +:+ newline +:+ "Role prompt suffix:" +:+ newline +:+ suffix.

(** ** Properties of the router

    Accepted tables route to roles they define, and trust decides the order. *)

Implicit Types (table : MultiAgentRouteTable) (ti : MultiAgentRouteTrustInput).

(** ** Validated tables *)

Definition target_ok (roles : gmap string MultiAgentRoleProfile) (t : MultiAgentRouteTarget) : Prop :=
  NoDup (rt_role t :: rt_fallback_roles t) ∧
  Forall (λ r, is_Some (roles !! r)) (rt_role t :: rt_fallback_roles t).

Lemma normalize_fallbacks_ok label field primary roles raw (seen : gset string) out :
  normalize_fallbacks label field primary roles raw seen = Ok out →
  NoDup out ∧ Forall (λ r, is_Some (roles !! r) ∧ r ≠ primary ∧ r ∉ seen) out.
Proof.
  revert seen out. induction raw as [|r raw IH]; intros seen out; cbn [normalize_fallbacks].
  { intros [= <-]. split; constructor. }
  intros (role & _ & H)%bind_Ok. revert H.
  destruct (String.eqb_spec role primary) as [->|Hne]; [apply IH|].
  intros [Hknown H]%check_Ok. apply bail_if_Ok, negb_false_iff, bool_decide_eq_true in Hknown.
  destruct (decide (role ∈ seen)) as [|Hnew]; [by apply IH|].
  apply bind_Ok in H as (rest & Hrest & [= <-]). destruct (IH _ _ Hrest) as [Hnd Hall].
  split; constructor; [|done|done|].
  - intros Hin. rewrite Forall_forall in Hall. apply Hall in Hin as (_ & _ & []). set_solver.
  - eapply Forall_impl; [exact Hall|]. cbn. set_solver.
Qed.

Lemma normalize_route_target_ok label roles t field t' :
  normalize_route_target label roles t field = Ok t' → target_ok roles t'.
Proof.
  unfold normalize_route_target. intros (primary & _ & H)%bind_Ok.
  apply check_Ok in H as [Hk%bail_if_Ok (fallbacks & Hf & [= <-])%bind_Ok].
  apply negb_false_iff, bool_decide_eq_true in Hk. apply normalize_fallbacks_ok in Hf as [Hnd Hall].
  split; cbn; constructor; [|done|done|].
  - intros Hin. rewrite Forall_forall in Hall. by apply Hall in Hin as (_ & [] & _).
  - eapply Forall_impl; [exact Hall|]. by intros r (? & _).
Qed.

Lemma normalize_categories_ok label roles raw out :
  normalize_categories label roles raw = Ok out → Forall (λ p, target_ok roles p.2) out.
Proof.
  revert out. induction raw as [|[c t] raw IH]; intros out; cbn.
  { intros [= <-]. constructor. }
  intros [_ (t' & Ht & (rest & Hr & [= <-])%bind_Ok)%bind_Ok]%check_Ok.
  constructor; [by eapply normalize_route_target_ok|by apply IH].
Qed.

Lemma find_category_elem text l c t : find_category text l = Some (c, t) → (c, t) ∈ l.
Proof.
  induction l as [|[c' t'] l IH]; cbn; [done|]. case_match; [intros [= -> ->]; by left|].
  intros ?%IH. by right.
Qed.

Lemma btree_entries_elem {A} (m : gmap string A) k v : (k, v) ∈ btree_entries m ↔ m !! k = Some v.
Proof. unfold btree_entries. rewrite sort_by_perm. apply elem_of_map_to_list. Qed.

Lemma normalized_targets_ok label raw table phase step :
  normalize_and_validate_route_table label raw = Ok table →
  target_ok (tb_roles table) (phase_target table phase step).1.
Proof.
  unfold normalize_and_validate_route_table.
  intros [_ (roles & _ & (planner & Hp & (delegated & Hd & (review & Hr & (cats & Hc & [= <-])%bind_Ok)%bind_Ok)%bind_Ok)%bind_Ok)%bind_Ok]%check_Ok.
  destruct phase; cbn; [by eapply normalize_route_target_ok| |by eapply normalize_route_target_ok].
  destruct (step ≫= _) as [[c t]|] eqn:Hs; cbn; [|by eapply normalize_route_target_ok].
  apply bind_Some in Hs as (text & _ & Hs). apply find_category_elem, btree_entries_elem in Hs.
  apply elem_of_list_to_map_2 in Hs. apply normalize_categories_ok in Hc.
  rewrite Forall_forall in Hc. by apply Hc in Hs.
Qed.

(** ** The order of the attempts *)

(** What the order looks at: the score of a role, if it is fresh, meets the
    threshold, and weighs so much. *)
Definition role_row table ti (role : string) : TrustRouteCandidate :=
  trust_candidate table ti (trust_is_stale ti) 0 role.
Definition trusted table ti (role : string) : bool := cd_meets_threshold (role_row table ti role).
Definition trust_weight_of table ti (role : string) : N := cd_weighted_score (role_row table ti role).

Lemma candidate_at table ti stale i role :
  let c := trust_candidate table ti stale i role in
  let c0 := trust_candidate table ti stale 0 role in
  cd_role c = role ∧ cd_meets_threshold c = cd_meets_threshold c0 ∧
  cd_weighted_score c = cd_weighted_score c0.
Proof. unfold trust_candidate. by destruct (resolve_candidate_score ti role). Qed.

Lemma candidate_roles table ti stale roles :
  cd_role <$> imap (trust_candidate table ti stale) roles = roles.
Proof.
  apply list_eq. intros i. rewrite list_lookup_fmap, list_lookup_imap.
  destruct (roles !! i) as [r|]; cbn; [|done]. f_equal. apply (candidate_at table ti stale i r).
Qed.

Lemma candidate_row table ti roles c :
  c ∈ imap (trust_candidate table ti (trust_is_stale ti)) roles →
  cd_meets_threshold c = trusted table ti (cd_role c) ∧
  cd_weighted_score c = trust_weight_of table ti (cd_role c).
Proof.
  intros (i & r & -> & _)%elem_of_lookup_imap_1.
  destruct (candidate_at table ti (trust_is_stale ti) i r) as (Hr & Hm & Hw).
  unfold trusted, trust_weight_of, role_row. by rewrite Hr, Hm, Hw.
Qed.

Lemma filter_split_perm {A} (f : A → bool) l :
  List.filter f l ++ List.filter (λ x, negb (f x)) l ≡ₚ l.
Proof.
  induction l as [|x l IH]; cbn; [done|]. destruct (f x); cbn; [by rewrite IH|].
  by rewrite <- Permutation_middle, IH.
Qed.

(** The order is lexicographic. *)
Definition score_key (o : option N) : N := match o with Some x => N.succ x | None => 0%N end.

Lemma candidate_le_spec a b :
  candidate_le a b = true ↔
  (cd_weighted_score b < cd_weighted_score a)%N ∨
  cd_weighted_score b = cd_weighted_score a ∧
    ((score_key (cd_score b) < score_key (cd_score a))%N ∨
     score_key (cd_score b) = score_key (cd_score a) ∧ cd_original_index a ≤ cd_original_index b).
Proof.
  assert (∀ x y, option_compare x y = N.compare (score_key x) (score_key y)) as Hkey.
  { intros [x|] [y|]; cbn [option_compare score_key]; symmetry; [|by destruct x|by destruct y|done].
    destruct (N.compare_spec x y); [apply N.compare_eq_iff|apply N.compare_lt_iff|apply N.compare_gt_iff]; lia. }
  unfold candidate_le. rewrite Hkey.
  destruct (N.compare_spec (cd_weighted_score b) (cd_weighted_score a)); try (split; [lia|done]); [|split; intros; [done|lia]].
  destruct (N.compare_spec (score_key (cd_score b)) (score_key (cd_score a))); rewrite ?Nat.leb_le; split; try done; lia.
Qed.

Lemma candidates_sorted l : StronglySorted (λ a b, candidate_le a b = true) (sort_by candidate_le l).
Proof.
  apply sort_by_sorted.
  - intros a b H. destruct (candidate_le b a) eqn:Hb; [done|exfalso].
    apply not_true_iff_false in H, Hb. rewrite candidate_le_spec in H, Hb. lia.
  - intros a b c. rewrite !candidate_le_spec. lia.
Qed.

Lemma sorted_lookup {A} (R : relation A) l i j x y :
  StronglySorted R l → l !! i = Some x → l !! j = Some y → i < j → R x y.
Proof.
  intros Hs. revert i j. induction Hs as [|z l _ IH Hall]; intros i j Hi Hj Hij; [done|].
  destruct j as [|j]; [lia|]. cbn in Hj. destruct i as [|i]; cbn in Hi; [|eapply IH; [done|done|lia]].
  injection Hi as ->. rewrite Forall_forall in Hall. by eapply Hall, list_elem_of_lookup_2.
Qed.

Section attempts.
Context table (ti : MultiAgentRouteTrustInput) (roles : list string).
Let attempts := ev_attempt_roles (evaluate_trust_weighted_attempt_roles table roles (Some ti)).
Let rows := imap (trust_candidate table ti (trust_is_stale ti)) roles.

(** Either some role is trusted, and those come first in their order, or none is
    and the order is the table's. *)
Lemma attempts_cases :
  (∃ eligible, eligible ≡ₚ List.filter cd_meets_threshold rows ∧
     StronglySorted (λ a b, candidate_le a b = true) eligible ∧
     attempts = (cd_role <$> eligible) ++
                (cd_role <$> List.filter (λ c, negb (cd_meets_threshold c)) rows)) ∨
  (List.filter cd_meets_threshold rows = [] ∧ attempts = roles).
Proof.
  unfold attempts. cbn. fold rows.
  destruct (sort_by candidate_le (List.filter cd_meets_threshold rows)) as [|c l] eqn:He.
  - right. split; [|done]. apply Permutation_nil. by rewrite <- He, sort_by_perm.
  - left. exists (c :: l). rewrite <- He. split_and!; [apply sort_by_perm|apply candidates_sorted|done].
Qed.

Lemma attempts_perm : attempts ≡ₚ roles.
Proof.
  destruct attempts_cases as [(eligible & Hp & _ & ->)|[_ ->]]; [|done].
  rewrite Hp, <- fmap_app, filter_split_perm. unfold rows. by rewrite candidate_roles.
Qed.

Lemma attempts_ordered i j ri rj :
  i < j → attempts !! i = Some ri → attempts !! j = Some rj →
  (trusted table ti rj = true → trusted table ti ri = true ∧
     (trust_weight_of table ti rj ≤ trust_weight_of table ti ri)%N).
Proof.
  intros Hij Hi Hj Ht. destruct attempts_cases as [(eligible & Hp & Hs & Heq)|[Hnone Heq]]; rewrite Heq in *.
  - assert (∀ c, c ∈ eligible → trusted table ti (cd_role c) = true ∧
      cd_weighted_score c = trust_weight_of table ti (cd_role c)) as Hel.
    { intros c Hc. rewrite Hp, list_elem_of_In, filter_In, <- list_elem_of_In in Hc.
      destruct Hc as [Hc Hm]. apply candidate_row in Hc as [<- ?]. done. }
    assert (j < length eligible) as Hlj.
    { destruct (decide (j < length eligible)) as [|Hge]; [done|exfalso].
      rewrite lookup_app_r in Hj by (rewrite length_fmap; lia).
      apply list_elem_of_lookup_2, list_elem_of_fmap in Hj as (c & -> & Hc).
      rewrite list_elem_of_In, filter_In, <- list_elem_of_In in Hc. destruct Hc as [Hc Hm].
      apply candidate_row in Hc as [Heqm _]. rewrite Heqm, Ht in Hm. done. }
    rewrite lookup_app_l in Hi, Hj by (rewrite length_fmap; lia).
    rewrite list_lookup_fmap in Hi, Hj.
    apply fmap_Some in Hi as (ci & Hi & ->). apply fmap_Some in Hj as (cj & Hj & ->).
    destruct (Hel ci) as [? <-]; [by eapply list_elem_of_lookup_2|].
    destruct (Hel cj) as [_ <-]; [by eapply list_elem_of_lookup_2|]. split; [done|].
    pose proof (sorted_lookup _ _ _ _ _ _ Hs Hi Hj Hij) as Hle.
    apply candidate_le_spec in Hle. lia.
  - exfalso. apply list_elem_of_lookup_2 in Hj as Hin. rewrite <- (candidate_roles table ti (trust_is_stale ti) roles) in Hin.
    apply list_elem_of_fmap in Hin as (c & -> & Hc). pose proof (candidate_row _ _ _ _ Hc) as [Hm _].
    assert (c ∈ List.filter cd_meets_threshold rows) as Hf.
    { rewrite list_elem_of_In, filter_In, <- list_elem_of_In. by rewrite Hm. }
    rewrite Hnone in Hf. by apply elem_of_nil in Hf.
Qed.
End attempts.

(** ** Claims *)

(** Whatever the phase, the text and the trust scores, a route tries exactly the
    roles of its target, the first one as the primary; a role that meets its
    trust threshold is never tried after one that does not, and of two that do
    the heavier one is tried first. *)
Theorem route_order_exact table phase step trust :
  let sel := select_multi_agent_route_with_trust table phase step trust in
  let target := (phase_target table phase step).1 in
  sl_attempt_roles sel = sl_primary_role sel :: sl_fallback_roles sel ∧
  sl_attempt_roles sel ≡ₚ rt_role target :: rt_fallback_roles target ∧
  match trust with
  | None => sl_attempt_roles sel = rt_role target :: rt_fallback_roles target
  | Some ti => ∀ i j ri rj,
      i < j → sl_attempt_roles sel !! i = Some ri → sl_attempt_roles sel !! j = Some rj →
      trusted table ti rj = true →
      trusted table ti ri = true ∧ (trust_weight_of table ti rj ≤ trust_weight_of table ti ri)%N
  end.
Proof.
  unfold select_multi_agent_route_with_trust.
  destruct (phase_target table phase step) as [target category]. cbn [fst].
  set (ev := evaluate_trust_weighted_attempt_roles _ _ _). cbn zeta.
  assert (ev_attempt_roles ev ≡ₚ rt_role target :: rt_fallback_roles target) as Hp.
  { destruct trust as [ti|]; [apply attempts_perm|done]. }
  cbn [sl_attempt_roles sl_primary_role sl_fallback_roles]. split_and!; [|done|].
  - destruct (ev_attempt_roles ev) as [|r rs] eqn:E; [|done]. by apply Permutation_nil_cons in Hp.
  - destruct trust as [ti|]; [|done]. intros i j ri rj Hij Hi Hj Ht. by eapply attempts_ordered.
Qed.

(** C20: a table that validation accepts never routes to a role it does not define,
    and never tries a role twice, whatever the phase, the text and the trust
    scores. *)
Theorem validated_routes_known label raw table phase step trust :
  normalize_and_validate_route_table label raw = Ok table →
  let sel := select_multi_agent_route_with_trust table phase step trust in
  NoDup (sl_attempt_roles sel) ∧ Forall (λ r, is_Some (tb_roles table !! r)) (sl_attempt_roles sel).
Proof.
  intros Hn. destruct (normalized_targets_ok _ _ _ phase step Hn) as [Hnd Hall].
  unfold select_multi_agent_route_with_trust.
  destruct (phase_target table phase step) as [target category]. cbn in Hnd, Hall |- *.
  assert (ev_attempt_roles (evaluate_trust_weighted_attempt_roles table
    (rt_role target :: rt_fallback_roles target) trust) ≡ₚ rt_role target :: rt_fallback_roles target) as ->.
  { destruct trust as [ti|]; [apply attempts_perm|done]. }
  done.
Qed.

(** ** Witness *)

Definition two_roles : MultiAgentRouteTable :=
  mkRouteTable 1 (list_to_map [(" fast ", role_profile_default); ("slow", role_profile_default)])
    (mkRouteTarget "fast" ["slow"; " slow"; "fast"]) (mkRouteTarget "slow" [])
    {[ "billing" := mkRouteTarget "slow" ["fast"] ]} (mkRouteTarget "slow" []).

Lemma validated_routes_known_witness :
  ∃ table, normalize_and_validate_route_table "t" two_roles = Ok table ∧
    sl_attempt_roles (select_multi_agent_route_with_trust table Planner None
      (Some (mkTrustInput None {[ "slow" := 80%N ]} (Some 50%N) None 0 None))) = ["slow"; "fast"] ∧
    NoDup (sl_attempt_roles (select_multi_agent_route_with_trust table DelegatedStep
      (Some "Billing question") None)).
Proof.
  destruct (normalize_and_validate_route_table "t" two_roles) as [table|e] eqn:E; [|by vm_compute in E].
  exists table. split; [done|]. split.
  - vm_compute in E. injection E as <-. by vm_compute.
  - exact (proj1 (validated_routes_known _ _ _ DelegatedStep (Some "Billing question") None E)).
Defined.
