(* ===== verification/StateDirs.v ===== *)
(** * Where the state of a transport lives

    The transports keep their state in directories of the same root
    ([.tau/multi-channel], [.tau/slack], ...); the policies they share are files of
    that root.  The same match is written out in [approvals.rs], [pairing.rs],
    [signed_envelope.rs] and [multi_channel_policy.rs]. *)

From Stdlib Require Import Ascii NArith Lia.
From stdpp Require Import base gmap sets strings list.
From S2P Require Import Prelude RustStr AtomicIo Approvals Rbac Pairing SignedEnvelope.

#[local] Open Scope string_scope.
#[local] Open Scope list_scope.

(** [Path::join] with a relative path. *)
Definition path_join (base name : string) : string :=
  match last (chars_of base) with
  | None => name
  | Some c => if Ascii.eqb c slash then base +:+ name else base +:+ "/" +:+ name
  end.

Fixpoint drop_slashes (r : list ascii) : list ascii :=
  match r with
  | c :: r' => if Ascii.eqb c slash then drop_slashes r' else r
  | [] => []
  end.

(** [Path::parent], of a path without [.] components: the text before the last
    component, the root kept. *)
Definition path_parent (p : string) : option string :=
  match drop_slashes (reverse (chars_of p)) with
  | [] => None
  | r =>
      match rev_dir r with
      | [] => Some ""
      | d => match drop_slashes d with [] => Some "/" | d => Some (of_chars (reverse d)) end
      end
  end.

Definition transport_dirs : list string :=
  ["github"; "slack"; "events"; "channel-store"; "multi-channel"].

Definition tau_root_for_state_dir (state_dir : string) : string :=
  match file_name state_dir with
  | Some name =>
      if existsb (String.eqb name) transport_dirs
      then match path_parent state_dir with
           | Some parent => if is_empty parent then state_dir else parent
           | None => state_dir
           end
      else state_dir
  | None => state_dir
  end.

Definition security_root_for_state_dir (state_dir : string) : string :=
  path_join (tau_root_for_state_dir state_dir) "security".

Definition signed_envelope_policy_for_state_dir (state_dir : string) : SignedEnvelopePolicyConfig :=
  let security_root := security_root_for_state_dir state_dir in
  mkEnvelopeConfig (path_join security_root "trust-roots.json")
    (path_join security_root "signed-envelope-replay.json")
    DEFAULT_TIMESTAMP_SKEW_SECONDS DEFAULT_REPLAY_WINDOW_SECONDS.

Definition pairing_policy_for_state_dir (state_dir : string) : PairingPolicyConfig :=
  let tau_root := tau_root_for_state_dir state_dir in
  let security_dir := path_join tau_root "security" in
  mkPairingConfig (path_join security_dir "pairings.json") (path_join security_dir "allowlist.json")
    (path_join tau_root "trust-roots.json") false.

Definition approval_paths_for_state_dir (state_dir : string) : string * string :=
  let approvals_root := path_join (tau_root_for_state_dir state_dir) "approvals" in
  (path_join approvals_root "policy.json", path_join approvals_root "requests.json").

Definition channel_policy_path_for_state_dir (state_dir : string) : string :=
  path_join (security_root_for_state_dir state_dir) "channel-policy.json".

Example state_dirs_share_a_root :
  security_root_for_state_dir ".tau/multi-channel" = ".tau/security" ∧
  security_root_for_state_dir "/slack/" = "/security" ∧
  security_root_for_state_dir "slack" = "slack/security" ∧
  channel_policy_path_for_state_dir "run/state" = "run/state/security/channel-policy.json".
Proof. by vm_compute. Qed.

(** The keys trusted for pairing and those trusted for envelopes are read from
    different files of the same state directory. *)
Lemma trust_stores_differ :
  pc_trust_root_path (pairing_policy_for_state_dir ".tau/multi-channel") = ".tau/trust-roots.json" ∧
  ep_trust_root_path (signed_envelope_policy_for_state_dir ".tau/multi-channel") =
    ".tau/security/trust-roots.json".
Proof. by vm_compute. Qed.

(** The paths that the file tools refuse to change, relative to a workspace
    ([tau-tools], [tools.rs]). *)
Definition DEFAULT_PROTECTED_RELATIVE_PATHS : list string :=
  ["AGENTS.md"; "SOUL.md"; "USER.md"; ".tau/AGENTS.md"; ".tau/SOUL.md"; ".tau/USER.md";
   ".tau/rbac-policy.json"; ".tau/trust-roots.json"; ".tau/channel-policy.json"].

(** The policy files that the runtime reads are not among them. *)
Lemma policy_files_unprotected :
  Forall (λ path, path ∉ DEFAULT_PROTECTED_RELATIVE_PATHS)
    [channel_policy_path_for_state_dir ".tau/multi-channel";
     ep_trust_root_path (signed_envelope_policy_for_state_dir ".tau/multi-channel");
     pc_allowlist_path (pairing_policy_for_state_dir ".tau/multi-channel");
     default_rbac_policy_path (λ _, None); (approval_paths_for_state_dir ".tau/multi-channel").1].
Proof. apply (bool_decide_unpack _). by vm_compute. Qed.
