(* ===== verification/ChannelStore.v ===== *)
(** * The channel store ([tau-runtime], [channel_store.rs])

    The directory of a chat channel: its log and context (one JSON record per
    line), a memory file, and the indexes of its artifacts and attachments.
    Operations are computations on the text files; an error carries its outermost
    message. *)

From Stdlib Require Import Ascii NArith Lia.
From stdpp Require Import base gmap sets strings list.
From S2P Require Import Prelude RustStr Json Messages AtomicIo Effects StateDirs.

#[local] Open Scope string_scope.
#[local] Open Scope list_scope.
#[local] Open Scope nat_scope.

Definition CHANNEL_STORE_SCHEMA_VERSION : N := 1.

Record ChannelStoreMeta := mkStoreMeta
  { sm_schema_version : N; sm_transport : string; sm_channel_id : string }.

Record ChannelLogEntry := mkLogEntry
  { le_timestamp_unix_ms : N; le_direction : string; le_event_key : option string;
    le_source : string; le_payload : Value }.

Record ChannelContextEntry := mkContextEntry
  { ce_timestamp_unix_ms : N; ce_role : string; ce_text : string }.

Record ChannelRef := mkChannelRef { cr_transport : string; cr_channel_id : string }.

Record ChannelInspectReport := mkInspectReport
  { ci_transport : string; ci_channel_id : string; ci_channel_dir : string;
    ci_log_records : nat; ci_context_records : nat; ci_invalid_log_lines : nat;
    ci_invalid_context_lines : nat; ci_artifact_records : nat; ci_invalid_artifact_lines : nat;
    ci_active_artifacts : nat; ci_expired_artifacts : nat; ci_memory_exists : bool;
    ci_memory_bytes : nat }.

Record ChannelRepairReport := mkRepairReport
  { cx_log_removed_lines : nat; cx_context_removed_lines : nat; cx_artifact_expired_removed : nat;
    cx_artifact_invalid_removed : nat; cx_log_backup_path : option string;
    cx_context_backup_path : option string }.

Record ChannelArtifactRecord := mkArtifact
  { ar_id : string; ar_run_id : string; ar_artifact_type : string; ar_visibility : string;
    ar_relative_path : string; ar_bytes : nat; ar_checksum_sha256 : string; ar_created_unix_ms : N;
    ar_expires_unix_ms : option N }.

Record ChannelAttachmentRecord := mkAttachmentRecord
  { ac_id : string; ac_run_id : string; ac_event_key : string; ac_actor : string;
    ac_source_url : string; ac_original_name : string; ac_relative_path : string;
    ac_content_type : option string; ac_bytes : N; ac_checksum_sha256 : string;
    ac_policy_decision : string; ac_policy_reason_code : string; ac_created_unix_ms : N;
    ac_expires_unix_ms : option N }.

Record ChannelArtifactPurgeReport := mkPurgeReport
  { pu_expired_removed : nat; pu_invalid_removed : nat; pu_attachment_expired_removed : nat;
    pu_attachment_invalid_removed : nat }.

Record ChannelStore := mkChannelStore
  { cs_base_dir : string; cs_transport : string; cs_channel_id : string }.

(** [serde_json] on the records, and SHA-256. *)
Class ChannelCodec :=
  { encode_log : ChannelLogEntry → string; decode_log : string → option ChannelLogEntry;
    encode_context : ChannelContextEntry → string; decode_context : string → option ChannelContextEntry;
    encode_artifact : ChannelArtifactRecord → string;
    decode_artifact : string → option ChannelArtifactRecord;
    encode_attachment : ChannelAttachmentRecord → string;
    decode_attachment : string → option ChannelAttachmentRecord;
    encode_meta : ChannelStoreMeta → string; decode_meta : string → option ChannelStoreMeta;
    is_json : string → bool;
    channel_sha256 : string → list ascii }.

(** An encoded record is one line without surrounding whitespace, not empty, and
    decodes to itself. *)
Definition json_line (s : string) : Prop := line_safe s ∧ trim s = s ∧ is_empty s = false.

Class ChannelCodecLaws `{!ChannelCodec} : Prop :=
  { decode_encode_log e : plain_value (le_payload e) = true → decode_log (encode_log e) = Some e;
    encode_log_line e : json_line (encode_log e);
    decode_encode_context e : decode_context (encode_context e) = Some e;
    encode_context_line e : json_line (encode_context e);
    decode_encode_artifact r : decode_artifact (encode_artifact r) = Some r;
    encode_artifact_line r : json_line (encode_artifact r);
    decode_encode_attachment r : decode_attachment (encode_attachment r) = Some r;
    encode_attachment_line r : json_line (encode_attachment r);
    decode_encode_meta m : decode_meta (encode_meta m +:+ newline) = Some m }.

(** ** Text files *)

Abbreviation FileOp := (Eff TextFs string).

(** [create_dir_all]: the directories above exist as well. *)
Definition create_dir_all (path : string) : FileOp unit := λ fs,
  if fs_write_denied fs path then (Err ("failed to create " +:+ path), fs)
  else (Ok tt, mkTextFs (fs_files fs) ({[path]} ∪ fs_dirs fs) (fs_write_denied fs) (fs_rename_denied fs)
                 (fs_pid fs) (fs_now_ms fs)).

Definition path_exists (path : string) : FileOp bool :=
  gets (λ fs, bool_decide (is_Some (fs_files fs !! path)) || bool_decide (path ∈ fs_dirs fs)).

(** [std::fs::write] *)
Definition write_file (path content failure : string) : FileOp unit := λ fs,
  if fs_write_denied fs path || bool_decide (path ∈ fs_dirs fs) then (Err failure, fs)
  else (Ok tt, set_text_files (<[path := content]> (fs_files fs)) fs).

(** Append to a file, which is created when missing. *)
Definition append_file (path text : string) : FileOp unit := λ fs,
  if fs_write_denied fs path || bool_decide (path ∈ fs_dirs fs)
  then (Err ("failed to open " +:+ path), fs)
  else (Ok tt, set_text_files (<[path := default "" (fs_files fs !! path) +:+ text]> (fs_files fs)) fs).

Definition read_file (path failure : string) : FileOp string := λ fs,
  match fs_files fs !! path with Some raw => (Ok raw, fs) | None => (Err failure, fs) end.

(** [std::fs::remove_file] of a file that exists. *)
Definition remove_file (path failure : string) : FileOp unit := λ fs,
  if fs_write_denied fs path || bool_decide (path ∈ fs_dirs fs) then (Err failure, fs)
  else (Ok tt, set_text_files (delete path (fs_files fs)) fs).

(** [write_text_atomic(..).with_context(..)] *)
Definition write_atomic_or (failure path content : string) : FileOp unit := λ fs,
  match write_text_atomic fs path content with
  | (fs, Ok _) => (Ok tt, fs)
  | (fs, Err _) => (Err failure, fs)
  end.
Definition write_atomic (path content : string) : FileOp unit :=
  write_atomic_or ("failed to write " +:+ path) path content.

(** ** JSON lines *)

Definition append_jsonl_line {A} (encode : A → string) (path : string) (value : A) : FileOp unit :=
  append_file path (encode value +:+ newline).

Definition write_jsonl_records {A} (encode : A → string) (path : string) (entries : list A) : FileOp unit :=
  write_atomic path (unlines (encode <$> entries)).

Fixpoint parse_lines {A} (decode : string → option A) (path : string) (line_no : nat) (ls : list string)
    : Result string (list A) :=
  match ls with
  | [] => Ok []
  | line :: ls =>
      let trimmed := trim line in
      if is_empty trimmed then parse_lines decode path (S line_no) ls
      else
        parsed ← ok_or ("failed parsing JSON line " +:+ show_usize line_no +:+ " in " +:+ path)
                   (decode trimmed);
        rest ← parse_lines decode path (S line_no) ls;
        Ok (parsed :: rest)
  end.

Definition read_jsonl_records {A} (decode : string → option A) (path : string) : FileOp (list A) :=
  raw ← read_file path ("failed to open " +:+ path);
  of_result (parse_lines decode path 1 (lines raw)).

(** Lines that parse, and the number of those that do not. *)
Fixpoint parse_tolerant {A} (decode : string → option A) (ls : list string) : list A * nat :=
  match ls with
  | [] => ([], 0)
  | line :: ls =>
      let '(records, invalid) := parse_tolerant decode ls in
      let trimmed := trim line in
      if is_empty trimmed then (records, invalid)
      else match decode trimmed with
      | Some record => (record :: records, invalid)
      | None => (records, S invalid)
      end
  end.

Definition read_jsonl_tolerant {A} (decode : string → option A) (path : string) : FileOp (list A * nat) :=
  there ← path_exists path;
  if (there : bool) then
    raw ← read_file path ("failed to open " +:+ path);
    mret (parse_tolerant decode (lines raw))
  else mret ([], 0).

(** ** Paths *)

Definition path_char (c : ascii) : bool :=
  is_ascii_alphanumeric c || Ascii.eqb c "-" || Ascii.eqb c "_" || Ascii.eqb c ".".

Fixpoint drop_while_eq (x : ascii) (l : list ascii) : list ascii :=
  match l with c :: l' => if Ascii.eqb c x then drop_while_eq x l' else l | [] => [] end.

(** A character of several bytes becomes one ['_']. *)
Definition sanitize_for_path (raw : string) : string :=
  let sanitized :=
    (λ c, if path_char c then c else "_"%char) <$> List.filter is_char_start (chars_of raw) in
  let trimmed := of_chars (reverse (drop_while_eq "_" (reverse (drop_while_eq "_" sanitized)))) in
  if is_empty trimmed then "channel" else trimmed.

Definition channel_dir (s : ChannelStore) : string :=
  path_join (path_join (path_join (cs_base_dir s) "channels") (sanitize_for_path (cs_transport s)))
    (sanitize_for_path (cs_channel_id s)).
Definition session_path (s : ChannelStore) : string := path_join (channel_dir s) "session.jsonl".
Definition log_path (s : ChannelStore) : string := path_join (channel_dir s) "log.jsonl".
Definition context_path (s : ChannelStore) : string := path_join (channel_dir s) "context.jsonl".
Definition memory_path (s : ChannelStore) : string := path_join (channel_dir s) "MEMORY.md".
Definition attachments_dir (s : ChannelStore) : string := path_join (channel_dir s) "attachments".
Definition attachments_index_path (s : ChannelStore) : string :=
  path_join (attachments_dir s) "index.jsonl".
Definition artifacts_dir (s : ChannelStore) : string := path_join (channel_dir s) "artifacts".
Definition artifact_index_path (s : ChannelStore) : string := path_join (artifacts_dir s) "index.jsonl".
Definition schema_path (s : ChannelStore) : string := path_join (channel_dir s) "schema.json".

(** The path of an artifact, which must stay below the channel's directory. *)
Definition resolve_safe_channel_path (dir relative_path : string) : Result string string :=
  _ ← bail_if (starts_with "/" relative_path) "artifact relative path must be non-absolute";
  _ ← bail_if (existsb (String.eqb "..") (path_components relative_path))
        "artifact relative path must not traverse parent directories";
  Ok (path_join dir relative_path).

Definition parse_channel_ref (raw : string) : Result string ChannelRef :=
  let error := "invalid channel ref '" +:+ raw +:+ "', expected transport/channel_id" in
  parts ← ok_or error (split_once slash (trim raw));
  let transport := trim parts.1 in
  let channel_id := trim parts.2 in
  _ ← bail_if (is_empty transport || is_empty channel_id) error;
  Ok (mkChannelRef transport channel_id).

Definition is_artifact_expired (record : ChannelArtifactRecord) (now_unix_ms : N) : bool :=
  match ar_expires_unix_ms record with Some expiry => (expiry <=? now_unix_ms)%N | None => false end.

Section store.
Context `{!ChannelCodec}.
Implicit Types s : ChannelStore.

(** ** Opening *)

Definition init_file (path : string) : FileOp unit :=
  there ← path_exists path;
  when (negb there) (write_file path "" ("failed to initialize " +:+ path)).

Definition ensure_layout s : FileOp unit :=
  _ ← create_dir_all (channel_dir s);
  _ ← create_dir_all (attachments_dir s);
  _ ← create_dir_all (artifacts_dir s);
  _ ← each init_file [log_path s; context_path s; artifact_index_path s; attachments_index_path s];
  there ← path_exists (schema_path s);
  if (there : bool) then
    raw ← read_file (schema_path s) ("failed to read " +:+ schema_path s);
    meta ← of_result (ok_or ("failed to parse " +:+ schema_path s) (decode_meta raw));
    _ ← fail_if (negb (sm_schema_version meta =? CHANNEL_STORE_SCHEMA_VERSION)%N)
          ("unsupported channel store schema: expected " +:+ show_u64 CHANNEL_STORE_SCHEMA_VERSION +:+
           ", found " +:+ show_u64 (sm_schema_version meta));
    fail_if (negb (String.eqb (sm_transport meta) (cs_transport s))
             || negb (String.eqb (sm_channel_id meta) (cs_channel_id s)))
      ("channel store schema mismatch for " +:+ channel_dir s)
  else
    write_atomic (schema_path s)
      (encode_meta (mkStoreMeta CHANNEL_STORE_SCHEMA_VERSION (cs_transport s) (cs_channel_id s)) +:+ newline).

Definition channel_store_open (base_dir transport channel_id : string) : FileOp ChannelStore :=
  let transport := trim transport in
  let channel_id := trim channel_id in
  _ ← fail_if (is_empty transport || is_empty channel_id)
        "channel store transport and channel id must be non-empty";
  let s := mkChannelStore base_dir transport channel_id in
  _ ← ensure_layout s;
  mret s.

(** ** Log, context and memory *)

Definition append_log_entry s (entry : ChannelLogEntry) : FileOp unit :=
  append_jsonl_line encode_log (log_path s) entry.
Definition append_context_entry s (entry : ChannelContextEntry) : FileOp unit :=
  append_jsonl_line encode_context (context_path s) entry.
Definition load_log_entries s : FileOp (list ChannelLogEntry) :=
  read_jsonl_records decode_log (log_path s).
Definition load_context_entries s : FileOp (list ChannelContextEntry) :=
  read_jsonl_records decode_context (context_path s).

Definition load_memory s : FileOp (option string) :=
  let path := memory_path s in
  there ← path_exists path;
  if (there : bool) then
    raw ← read_file path ("failed to read " +:+ path);
    mret (if is_empty (trim raw) then None else Some raw)
  else mret None.

(** A text that ends in a line break. *)
Definition with_newline (content : string) : string :=
  if ends_with newline content then content else content +:+ newline.

Definition write_memory s (content : string) : FileOp unit :=
  write_atomic (memory_path s) (with_newline content).

Definition context_of_message {V} (now : N) (message : Message V) : option ChannelContextEntry :=
  let text := text_content message in
  if is_empty (trim text) then None
  else Some (mkContextEntry now (role_label (msg_role message)) text).

Definition sync_context_from_messages {V} s (messages : list (Message V)) : FileOp nat :=
  now ← gets fs_now_ms;
  let entries := omap (context_of_message now) messages in
  _ ← write_jsonl_records encode_context (context_path s) entries;
  mret (length entries).

Definition compact_context s (max_records : nat) : FileOp nat :=
  let max_records := Nat.max max_records 1 in
  entries ← load_context_entries s;
  if length entries <=? max_records then mret (length entries)
  else
    let compacted := drop (length entries - max_records) entries in
    _ ← write_jsonl_records encode_context (context_path s) compacted;
    mret (length compacted).

(** ** Artifacts and attachments *)

(** [trim_start_matches('.')] *)
Definition trim_start_dots (raw : string) : string := of_chars (drop_while_eq dot (chars_of raw)).

Definition hex_digit_lower (n : N) : ascii :=
  if (n <? 10)%N then ascii_of_N (48 + n) else ascii_of_N (87 + n).
Definition hex_of_bytes (bytes : list ascii) : string :=
  of_chars (mjoin ((λ c, [hex_digit_lower (N_of_ascii c / 16); hex_digit_lower (N_of_ascii c mod 16)])
                   <$> bytes)).
Definition short_hash (bytes : string) : string := hex_of_bytes (take 4 (channel_sha256 bytes)).

Definition write_text_artifact s (run_id artifact_type visibility : string)
    (retention_days : option N) (extension content : string) : FileOp ChannelArtifactRecord :=
  let run_id := trim run_id in
  let artifact_type := trim artifact_type in
  let visibility := trim visibility in
  _ ← fail_if (is_empty run_id || is_empty artifact_type || is_empty visibility)
        "artifact run_id, artifact_type, and visibility must be non-empty";
  let extension := trim_start_dots (trim extension) in
  _ ← fail_if (is_empty extension) "artifact extension must be non-empty";
  created_unix_ms ← gets fs_now_ms;
  let hash_seed :=
    run_id +:+ ":" +:+ artifact_type +:+ ":" +:+ show_u64 created_unix_ms +:+ ":" +:+ cs_channel_id s in
  let artifact_id := "artifact-" +:+ show_u64 created_unix_ms +:+ "-" +:+ short_hash hash_seed in
  let relative_path :=
    "artifacts/" +:+ sanitize_for_path run_id +:+ "/" +:+ sanitize_for_path artifact_type +:+ "-" +:+
    artifact_id +:+ "." +:+ sanitize_for_path extension in
  absolute_path ← of_result (resolve_safe_channel_path (channel_dir s) relative_path);
  _ ← create_dir_all (default "" (path_parent absolute_path));
  let payload := with_newline content in
  _ ← write_atomic absolute_path payload;
  let record :=
    mkArtifact artifact_id run_id artifact_type visibility relative_path (String.length payload)
      (hex_of_bytes (channel_sha256 payload)) created_unix_ms
      ((λ days, saturating_add_u64 created_unix_ms (saturating_mul_u64 days 86400000))
         <$> retention_days) in
  _ ← append_jsonl_line encode_artifact (artifact_index_path s) record;
  mret record.

Definition load_artifact_records s : FileOp (list ChannelArtifactRecord) :=
  there ← path_exists (artifact_index_path s);
  if (there : bool) then read_jsonl_records decode_artifact (artifact_index_path s) else mret [].

Definition load_artifact_records_tolerant s : FileOp (list ChannelArtifactRecord * nat) :=
  read_jsonl_tolerant decode_artifact (artifact_index_path s).

Definition append_attachment_record s (record : ChannelAttachmentRecord) : FileOp unit :=
  append_jsonl_line encode_attachment (attachments_index_path s) record.

Definition load_attachment_records_tolerant s : FileOp (list ChannelAttachmentRecord * nat) :=
  read_jsonl_tolerant decode_attachment (attachments_index_path s).

Definition artifact_le (left right : ChannelArtifactRecord) : bool :=
  match N.compare (ar_created_unix_ms right) (ar_created_unix_ms left) with
  | Lt => true
  | Gt => false
  | Eq => String.leb (ar_id left) (ar_id right)
  end.

Definition list_active_artifacts s (now_unix_ms : N) : FileOp (list ChannelArtifactRecord) :=
  loaded ← load_artifact_records_tolerant s;
  mret (sort_by artifact_le (List.filter (λ r, negb (is_artifact_expired r now_unix_ms)) loaded.1)).

(** The loop of a purge: files of expired records are removed, the others kept. *)
Fixpoint purge_loop {A} (s : ChannelStore) (expired : A → bool) (relative_path : A → string)
    (failure : string) (records : list A) : FileOp (list A * nat) :=
  match records with
  | [] => mret ([], 0)
  | record :: rest =>
      if expired record then
        path ← of_result (resolve_safe_channel_path (channel_dir s) (relative_path record));
        there ← path_exists path;
        _ ← when there (remove_file path (failure +:+ path));
        purged ← purge_loop s expired relative_path failure rest;
        mret (purged.1, S purged.2)
      else
        purged ← purge_loop s expired relative_path failure rest;
        mret (record :: purged.1, purged.2)
  end.

Definition purge_expired_attachments s (now_unix_ms : N) : FileOp (nat * nat) :=
  loaded ← load_attachment_records_tolerant s;
  purged ← purge_loop s
             (λ r, match ac_expires_unix_ms r with Some value => (value <=? now_unix_ms)%N | None => false end)
             ac_relative_path "failed to remove expired attachment " loaded.1;
  _ ← write_jsonl_records encode_attachment (attachments_index_path s) purged.1;
  mret (purged.2, loaded.2).

Definition purge_expired_artifacts s (now_unix_ms : N) : FileOp ChannelArtifactPurgeReport :=
  loaded ← load_artifact_records_tolerant s;
  purged ← purge_loop s (λ r, is_artifact_expired r now_unix_ms) ar_relative_path "failed to remove "
             loaded.1;
  _ ← write_jsonl_records encode_artifact (artifact_index_path s) purged.1;
  attachments ← purge_expired_attachments s now_unix_ms;
  mret (mkPurgeReport purged.2 loaded.2 attachments.1 attachments.2).

(** ** Inspection and repair *)

(** The non-empty lines of a file: those that are JSON (trimmed), and the others. *)
Fixpoint partition_lines (ls : list string) : list string * list string :=
  match ls with
  | [] => ([], [])
  | line :: ls =>
      let '(valid, invalid) := partition_lines ls in
      let trimmed := trim line in
      if is_empty trimmed then (valid, invalid)
      else if is_json trimmed then (trimmed :: valid, invalid)
      else (valid, line :: invalid)
  end.

Definition inspect_jsonl_file (path : string) : FileOp (nat * nat) :=
  raw ← read_file path ("failed to open " +:+ path);
  let '(valid, invalid) := partition_lines (lines raw) in
  mret (length valid, length invalid).

Definition repair_jsonl_file (path : string) : FileOp (nat * option string) :=
  raw ← read_file path ("failed to open " +:+ path);
  let '(valid, invalid) := partition_lines (lines raw) in
  match invalid with
  | [] => mret (0, None)
  | _ =>
      now ← gets fs_now_ms;
      let backup_path := with_extension path (show_u64 now +:+ ".corrupt") in
      _ ← write_atomic backup_path (unlines invalid);
      _ ← write_atomic_or ("failed to write repaired " +:+ path) path (unlines valid);
      mret (length invalid, Some backup_path)
  end.

Definition channel_inspect s : FileOp ChannelInspectReport :=
  log ← inspect_jsonl_file (log_path s);
  context ← inspect_jsonl_file (context_path s);
  now ← gets fs_now_ms;
  loaded ← load_artifact_records_tolerant s;
  let artifact_records := length loaded.1 in
  let expired := length (List.filter (λ r, is_artifact_expired r now) loaded.1) in
  memory_exists ← path_exists (memory_path s);
  memory_bytes ← (if (memory_exists : bool)
                  then gets (λ fs, String.length (default "" (fs_files fs !! memory_path s)))
                  else mret 0);
  mret (mkInspectReport (cs_transport s) (cs_channel_id s) (channel_dir s) log.1 context.1 log.2 context.2
          artifact_records loaded.2 (artifact_records - expired) expired memory_exists memory_bytes).

Definition channel_repair s : FileOp ChannelRepairReport :=
  log ← repair_jsonl_file (log_path s);
  context ← repair_jsonl_file (context_path s);
  now ← gets fs_now_ms;
  purge ← purge_expired_artifacts s now;
  mret (mkRepairReport log.1 context.1 (pu_expired_removed purge) (pu_invalid_removed purge) log.2 context.2).
End store.
