(* ===== verification/ChannelStoreTheorems.v ===== *)
(** * Properties of the channel store

    Where the operations of [ChannelStore.v] write, what they leave in the JSON
    lines, and what purge and repair keep. *)

From Stdlib Require Import NArith Ascii Lia.
From stdpp Require Import base countable gmap sets strings list.
From S2P Require Import Prelude RustStr Json BitCodec Messages AtomicIo Effects StateDirs ChannelStore.

#[local] Open Scope string_scope.
#[local] Open Scope list_scope.
#[local] Open Scope nat_scope.

(** ** Paths below a directory *)

(** Components of a relative path do not climb. *)
Definition climbs_never (rest : list ascii) : Prop := [dot; dot] ∉ split_byte slash [] rest.

(** [p] is [dir/rest] where [rest] has no [..] component. *)
Definition below (dir p : string) : Prop :=
  ∃ rest, chars_of p = chars_of dir ++ slash :: rest ∧ climbs_never rest.

Lemma split_byte_sep sep cur l r :
  split_byte sep cur (l ++ sep :: r) = split_byte sep cur l ++ split_byte sep [] r.
Proof.
  revert cur. induction l as [|c l IH]; intros cur; cbn.
  - by rewrite Ascii.eqb_refl.
  - case_match; cbn; [f_equal|]; apply IH.
Qed.

(** Replacing the last component by a name that is not [..] stays below. *)
Lemma below_with_file_name dir p name :
  below dir p → slash ∉ chars_of name → chars_of name ≠ [dot; dot] → below dir (with_file_name p name).
Proof.
  intros (rest & Hp & Hc) Hs Hn. unfold with_file_name, below. rewrite chars_of_of_chars, Hp.
  destruct (rev_dir_split (reverse rest)) as (b & Hr & Hb & Hd).
  assert (∀ d, rev_dir (b ++ slash :: d) = slash :: d) as Hcut.
  { intros d. clear Hr Hd. induction b as [|x b IH]; cbn; [done|].
    apply not_elem_of_cons in Hb as [Hx Hb].
    destruct (Ascii.eqb_spec x slash); [congruence|by apply IH]. }
  rewrite reverse_app, reverse_cons.
  apply (f_equal reverse) in Hr. rewrite reverse_involutive, reverse_app in Hr.
  destruct Hd as [Hd|[d Hd]]; rewrite Hd in Hr.
  - rewrite reverse_nil in Hr. cbn in Hr. subst rest. rewrite reverse_involutive, <- app_assoc. cbn.
    rewrite Hcut, reverse_cons, reverse_involutive, <- app_assoc. eexists; split; [done|].
    unfold climbs_never. rewrite split_byte_none by done. cbn. set_solver.
  - rewrite reverse_cons in Hr. subst rest.
    rewrite !reverse_app, reverse_involutive, reverse_cons, reverse_nil. cbn.
    rewrite <- !app_assoc. cbn. rewrite Hcut, reverse_cons, reverse_app, reverse_cons, !reverse_involutive.
    rewrite <- !app_assoc. cbn. eexists (reverse d ++ slash :: chars_of name); split; [done|].
    revert Hc. unfold climbs_never. rewrite <- app_assoc. cbn. rewrite !split_byte_sep, !elem_of_app.
    rewrite (split_byte_none slash [] (chars_of name)) by done. cbn. set_solver.
Qed.

Lemma split_byte_pieces sep cur l x :
  sep ∉ cur → x ∈ split_byte sep cur l → sep ∉ x.
Proof.
  revert cur. induction l as [|c l IH]; intros cur Hc; cbn.
  - rewrite list_elem_of_singleton. intros ->. by rewrite elem_of_reverse.
  - destruct (Ascii.eqb_spec c sep) as [->|Hne].
    + rewrite elem_of_cons. intros [->|Hin]; [by rewrite elem_of_reverse|].
      apply (IH [] (not_elem_of_nil _) Hin).
    + apply IH. by apply not_elem_of_cons.
Qed.

Lemma file_name_no_slash p n : file_name p = Some n → slash ∉ chars_of n.
Proof.
  unfold file_name, path_components. case_match eqn:Hl; [|done]. case_match; [done|]. intros [= ->].
  apply last_Some_elem_of in Hl. apply list_elem_of_In, List.filter_In in Hl as [Hl _].
  apply list_elem_of_In in Hl. unfold split_on in Hl.
  apply list_elem_of_fmap in Hl as (x & -> & Hx). rewrite chars_of_of_chars.
  by apply split_byte_pieces in Hx; [|apply not_elem_of_nil].
Qed.

Lemma show_u64_no_slash n : slash ∉ chars_of (show_u64 n).
Proof. intros Hin. pose proof (show_u64_digits n) as H. rewrite Forall_forall in H. by apply H in Hin. Qed.

Lemma below_temp dir fs p : below dir p → below dir (atomic_temp_path fs p).
Proof.
  intros Hb. apply below_with_file_name; [done| |].
  - assert (slash ∉ chars_of (default "session-graph" (file_name p))) as Hf.
    { destruct (file_name p) eqn:Hn; cbn [default]; [by apply file_name_no_slash in Hn|]. set_solver. }
    rewrite !chars_of_app, !elem_of_app. pose proof show_u64_no_slash as Hu.
    intros [Hx|[Hx|[Hx|[Hx|[Hx|Hx]]]]];
      first [by apply Hu in Hx|by apply Hf in Hx|cbn in Hx; set_solver].
  - intros Heq. apply (f_equal length) in Heq. rewrite !chars_of_app, !length_app in Heq. cbn in Heq. lia.
Qed.

Lemma split_extension_stem name c : c ∈ fst (split_extension name) → c ∈ name.
Proof.
  unfold split_extension.
  set (go := fix go (ext rest : list ascii) : option (list ascii * list ascii) :=
    match rest with
    | [] => None
    | c :: rest' => if Ascii.eqb c dot then Some (reverse rest', ext) else go (c :: ext) rest'
    end).
  assert (∀ rest ext stem e, go ext rest = Some (stem, e) → c ∈ stem → c ∈ rest) as Hgo.
  { induction rest as [|x rest IH]; intros ext stem e; cbn; [done|].
    case_match; [|right; by eapply IH]. intros [= <- <-]. rewrite elem_of_reverse. by right. }
  destruct (go [] (reverse name)) as [[[|y stem] e]|] eqn:Hg; cbn; try done.
  intros Hc. rewrite <- elem_of_reverse. by eapply Hgo.
Qed.

Lemma below_with_extension dir p ext :
  below dir p → slash ∉ chars_of ext → 2 ≤ length (chars_of ext) → below dir (with_extension p ext).
Proof.
  intros Hb Hs Hl. unfold with_extension. destruct (file_name p) as [n|] eqn:Hn; [|done].
  apply file_name_no_slash in Hn.
  destruct (String.eqb_spec ext "") as [->|_]; [cbn in Hl; lia|].
  apply below_with_file_name; [done| |]; rewrite !chars_of_app, chars_of_of_chars.
  - rewrite !elem_of_app. intros [H|[H|H]]; [|cbn in H; set_solver|done].
    by apply split_extension_stem in H.
  - intros Heq%(f_equal length). rewrite !length_app in Heq. cbn in Heq. lia.
Qed.

Lemma drop_while_eq_suffix x l : ∃ k, l = k ++ drop_while_eq x l.
Proof.
  induction l as [|c l [k Hk]]; cbn; [by exists []|].
  case_match; [|by exists []]. exists (c :: k). cbn. by f_equal.
Qed.

Lemma drop_while_eq_in x c l : c ∈ drop_while_eq x l → c ∈ l.
Proof. destruct (drop_while_eq_suffix x l) as [k Hk]. rewrite Hk at 2. rewrite elem_of_app. by right. Qed.

(** A sanitised segment is not empty and made of the characters of [path_char]. *)
Lemma sanitize_for_path_chars raw :
  is_empty (sanitize_for_path raw) = false ∧
  Forall (λ c, path_char c = true) (chars_of (sanitize_for_path raw)).
Proof.
  unfold sanitize_for_path. case_match eqn:He; [split; [done|by repeat constructor]|].
  split; [done|]. apply Forall_forall. intros c Hc.
  rewrite chars_of_of_chars, elem_of_reverse in Hc. apply drop_while_eq_in in Hc.
  rewrite elem_of_reverse in Hc. apply drop_while_eq_in in Hc.
  apply list_elem_of_fmap in Hc as (x & -> & _). by case_match.
Qed.

Lemma path_join_segment base seg :
  seg ≠ "" → slash ∉ chars_of seg → ∃ c, last (chars_of (path_join base seg)) = Some c ∧ c ≠ slash.
Proof.
  intros Hne Hs. assert (∀ pre, ∃ c, last (pre ++ chars_of seg) = Some c ∧ c ≠ slash) as H.
  { intros pre. destruct (last (chars_of seg)) as [c|] eqn:Hl.
    - exists c. rewrite last_app, Hl. split; [done|]. intros ->. by apply Hs, last_Some_elem_of.
    - apply last_None in Hl. by destruct seg. }
  unfold path_join. repeat case_match; rewrite ?chars_of_app, ?app_assoc; try apply H.
  apply (H []).
Qed.

Lemma path_join_plain base c name :
  last (chars_of base) = Some c → c ≠ slash → path_join base name = base +:+ "/" +:+ name.
Proof. intros Hl Hc. unfold path_join. rewrite Hl. by destruct (Ascii.eqb_spec c slash). Qed.

(** Names joined to a channel's directory. *)
Lemma channel_dir_join s name : path_join (channel_dir s) name = channel_dir s +:+ "/" +:+ name.
Proof.
  destruct (sanitize_for_path_chars (cs_channel_id s)) as [He Hc].
  destruct (path_join_segment
    (path_join (path_join (cs_base_dir s) "channels") (sanitize_for_path (cs_transport s)))
    (sanitize_for_path (cs_channel_id s))) as (c & Hl & Hne).
  - intros Heq. by rewrite Heq in He.
  - intros Hin. rewrite Forall_forall in Hc. by apply Hc in Hin.
  - by eapply path_join_plain.
Qed.

Lemma below_join s name :
  climbs_never (chars_of name) → below (channel_dir s) (path_join (channel_dir s) name).
Proof. intros H. exists (chars_of name). by rewrite channel_dir_join, !chars_of_app. Qed.

Lemma below_join_join s dir name c :
  last (chars_of dir) = Some c → c ≠ slash → climbs_never (chars_of (dir +:+ "/" +:+ name)) →
  below (channel_dir s) (path_join (path_join (channel_dir s) dir) name).
Proof.
  intros Hl Hc H. exists (chars_of (dir +:+ "/" +:+ name)). split; [|done].
  rewrite (path_join_plain _ c), channel_dir_join; [|rewrite channel_dir_join|done].
  - rewrite !chars_of_app. cbn. by rewrite <- !app_assoc.
  - rewrite !chars_of_app, app_assoc, last_app, Hl. done.
Qed.

Ltac solve_climbs := unfold climbs_never; cbn; set_solver.

Lemma attachments_index_below s : below (channel_dir s) (attachments_index_path s).
Proof. eapply below_join_join; [done|done|solve_climbs]. Qed.
Lemma artifact_index_below s : below (channel_dir s) (artifact_index_path s).
Proof. eapply below_join_join; [done|done|solve_climbs]. Qed.
Lemma log_path_below s : below (channel_dir s) (log_path s).
Proof. apply below_join. solve_climbs. Qed.
Lemma context_path_below s : below (channel_dir s) (context_path s).
Proof. apply below_join. solve_climbs. Qed.
Lemma memory_path_below s : below (channel_dir s) (memory_path s).
Proof. apply below_join. solve_climbs. Qed.
Lemma schema_path_below s : below (channel_dir s) (schema_path s).
Proof. apply below_join. solve_climbs. Qed.

Create HintDb channel discriminated.
#[export] Hint Resolve attachments_index_below artifact_index_below log_path_below context_path_below
  memory_path_below schema_path_below : channel.

(** A relative path that is accepted leads below the directory. *)
Lemma resolve_safe_below s relative path :
  resolve_safe_channel_path (channel_dir s) relative = Ok path → below (channel_dir s) path.
Proof.
  unfold resolve_safe_channel_path, bail_if. destruct (starts_with "/" relative); [done|].
  destruct (existsb _ _) eqn:He; [done|]. intros [= <-]. apply below_join. unfold climbs_never. intros Hin.
  apply not_true_iff_false in He. apply He, existsb_exists. exists "..". split; [|done].
  unfold path_components. apply List.filter_In. split; [|done]. apply list_elem_of_In.
  unfold split_on. apply list_elem_of_fmap. by exists [dot; dot].
Qed.

(** ** Confinement *)

(** Files that are not below the channel's directory are as they were. *)
Definition confined (s : ChannelStore) (fs fs' : TextFs) : Prop :=
  ∀ p, ¬ below (channel_dir s) p → fs_files fs' !! p = fs_files fs !! p.

#[export] Instance confined_preorder s : PreOrder (confined s).
Proof.
  split; [by intros fs p|]. intros fs1 fs2 fs3 H1 H2 p Hp. by rewrite H2, H1.
Qed.

Section confinement.
Context (s : ChannelStore).
Local Abbreviation safe := (moves (E:=string) (confined s)).

Lemma insert_confined p v fs : below (channel_dir s) p → confined s fs (set_text_files (<[p := v]> (fs_files fs)) fs).
Proof. intros Hp q Hq. cbn. rewrite lookup_insert_ne; [done|]. by intros ->. Qed.

Lemma create_dir_all_safe p : safe (create_dir_all p).
Proof. intros fs. unfold create_dir_all. case_match; by intros q. Qed.
Lemma write_file_safe p c e : below (channel_dir s) p → safe (write_file p c e).
Proof. intros Hp fs. unfold write_file. case_match; [done|]. by apply insert_confined. Qed.
Lemma append_file_safe p c : below (channel_dir s) p → safe (append_file p c).
Proof. intros Hp fs. unfold append_file. case_match; [done|]. by apply insert_confined. Qed.
Lemma read_file_safe p e : safe (read_file p e).
Proof. intros fs. unfold read_file. by case_match. Qed.
Lemma path_exists_safe p : safe (path_exists p).
Proof. intros fs. done. Qed.
Lemma remove_file_safe p e : below (channel_dir s) p → safe (remove_file p e).
Proof.
  intros Hp fs. unfold remove_file. case_match; [done|]. intros q Hq. cbn.
  rewrite lookup_delete_ne; [done|]. by intros ->.
Qed.
Lemma write_atomic_or_safe e p c : below (channel_dir s) p → safe (write_atomic_or e p c).
Proof.
  intros Hp fs q Hq. unfold write_atomic_or.
  pose proof (write_text_atomic_others fs p c q) as H.
  destruct (write_text_atomic fs p c) as [fs' [[]|err]]; cbn in *; apply H; intros ->; auto using below_temp.
Qed.
Lemma write_atomic_safe p c : below (channel_dir s) p → safe (write_atomic p c).
Proof. apply write_atomic_or_safe. Qed.
End confinement.

#[export] Hint Resolve create_dir_all_safe write_file_safe append_file_safe read_file_safe path_exists_safe
  remove_file_safe write_atomic_or_safe write_atomic_safe moves_ret moves_fail moves_gets moves_of_result
  moves_fail_if : channel.

Lemma of_result_bind {S E A B} (r : Result E A) (f : A → Eff S E B) st :
  (of_result r ≫= f) st = match r with Ok a => f a st | Err e => (Err e, st) end.
Proof. rewrite eff_bind_unfold. cbn. by destruct r. Qed.

(** A path that was resolved is below the directory in what follows. *)
Lemma resolve_then_safe {B} s relative (f : string → FileOp B) :
  (∀ path, below (channel_dir s) path → moves (confined s) (f path)) →
  moves (confined s) (of_result (resolve_safe_channel_path (channel_dir s) relative) ≫= f).
Proof.
  intros Hf fs. rewrite of_result_bind. destruct (resolve_safe_channel_path _ _) as [p|e] eqn:Hr; cbn.
  - by apply Hf, (resolve_safe_below _ relative).
  - by intros q.
Qed.

(** Confinement of composed operations. *)
Ltac confine := repeat first
  [ solve [eauto with channel]
  | apply resolve_then_safe; intros ? ?
  | apply moves_bind; [apply _| |intros ?]
  | apply moves_when; [apply _|]
  | apply moves_ret; apply _ | apply moves_gets; apply _ | apply moves_of_result; apply _
  | apply moves_fail_if; apply _
  | case_match ].

Section operations.
Context `{!ChannelCodec}.
Implicit Types s : ChannelStore.

(** The operations of a channel store. *)
Inductive ChannelOp :=
| OpEnsureLayout
| OpAppendLog (entry : ChannelLogEntry)
| OpAppendContext (entry : ChannelContextEntry)
| OpWriteMemory (content : string)
| OpSyncContext {V} (messages : list (Message V))
| OpCompactContext (max_records : nat)
| OpWriteArtifact (run_id artifact_type visibility : string) (retention_days : option N)
    (extension content : string)
| OpAppendAttachment (record : ChannelAttachmentRecord)
| OpPurge (now_unix_ms : N)
| OpInspect
| OpRepair.

Definition forget {A} (m : FileOp A) : FileOp unit := _ ← m; mret tt.

Definition channel_op s (op : ChannelOp) : FileOp unit :=
  match op with
  | OpEnsureLayout => ensure_layout s
  | OpAppendLog e => append_log_entry s e
  | OpAppendContext e => append_context_entry s e
  | OpWriteMemory c => write_memory s c
  | OpSyncContext ms => forget (sync_context_from_messages s ms)
  | OpCompactContext n => forget (compact_context s n)
  | OpWriteArtifact r t v d e c => forget (write_text_artifact s r t v d e c)
  | OpAppendAttachment r => append_attachment_record s r
  | OpPurge now => forget (purge_expired_artifacts s now)
  | OpInspect => forget (channel_inspect s)
  | OpRepair => forget (channel_repair s)
  end.

(** Operations one after the other, each whatever became of the one before. *)
Fixpoint channel_ops s (ops : list ChannelOp) (fs : TextFs) : TextFs :=
  match ops with
  | [] => fs
  | op :: ops => channel_ops s ops (channel_op s op fs).2
  end.

Lemma purge_loop_safe {A} s (expired : A → bool) relative failure records :
  moves (confined s) (purge_loop s expired relative failure records).
Proof.
  induction records as [|r rs IH]; cbn; confine.
Qed.

Lemma repair_jsonl_file_safe s path :
  below (channel_dir s) path → moves (confined s) (repair_jsonl_file path).
Proof.
  intros Hp. unfold repair_jsonl_file. confine. apply write_atomic_safe.
  apply below_with_extension; [done| |].
  - rewrite chars_of_app, elem_of_app. intros [Hin|Hin]; [by apply show_u64_no_slash in Hin|].
    cbn in Hin. set_solver.
  - rewrite chars_of_app, length_app. cbn. lia.
Qed.

Lemma read_jsonl_tolerant_safe {A} s (d : string → option A) p :
  moves (confined s) (read_jsonl_tolerant d p).
Proof. unfold read_jsonl_tolerant. confine. Qed.
End operations.

#[export] Hint Resolve purge_loop_safe repair_jsonl_file_safe read_jsonl_tolerant_safe : channel.

(** C19: whatever operations a channel store runs, in whatever order, whether they
    fail or not - appends, memory, compaction, artifacts with any run id, type and
    extension, purging of records with any relative path, repair - the only files
    that change are below the channel's directory: every file at a path that is
    not the directory followed by components other than [..] is as it was. *)
Theorem channel_store_confined `{!ChannelCodec} s ops fs p :
  ¬ below (channel_dir s) p → fs_files (channel_ops s ops fs) !! p = fs_files fs !! p.
Proof.
  revert fs. induction ops as [|op ops IH]; intros fs Hp; [done|]. cbn [channel_ops].
  rewrite IH by done. clear IH. revert p Hp. change (confined s fs (channel_op s op fs).2).
  generalize fs. change (moves (confined s) (channel_op s op)).
  destruct op; cbn [channel_op]; unfold forget.
  - unfold ensure_layout, init_file. confine.
  - unfold append_log_entry, append_jsonl_line. confine.
  - unfold append_context_entry, append_jsonl_line. confine.
  - unfold write_memory. confine.
  - unfold sync_context_from_messages, write_jsonl_records. confine.
  - unfold compact_context, load_context_entries, read_jsonl_records, write_jsonl_records. confine.
  - unfold write_text_artifact, append_jsonl_line. confine.
  - unfold append_attachment_record, append_jsonl_line. confine.
  - unfold purge_expired_artifacts, purge_expired_attachments, write_jsonl_records. confine.
  - unfold channel_inspect, inspect_jsonl_file. confine.
  - unfold channel_repair, purge_expired_artifacts, purge_expired_attachments, write_jsonl_records. confine.
Qed.

(** ** What the JSON lines hold *)

Lemma unlines_snoc ls l : unlines (ls ++ [l]) = unlines ls +:+ (l +:+ newline).
Proof.
  apply chars_of_inj. induction ls as [|x ls IH]; cbn; rewrite !chars_of_app.
  - by rewrite app_nil_r.
  - by rewrite IH, !chars_of_app, !app_assoc.
Qed.

Section jsonl.
Context {A : Type} (encode : A → string) (decode : string → option A).

(** A record that its line gives back. *)
Definition storable (a : A) : Prop := decode (encode a) = Some a ∧ json_line (encode a).
(** The file at [path] holds [es], one line each. *)
Definition holds (fs : TextFs) (path : string) (es : list A) : Prop :=
  fs_files fs !! path = Some (unlines (encode <$> es)) ∧ Forall storable es.

Lemma storable_lines es : Forall storable es → lines (unlines (encode <$> es)) = encode <$> es.
Proof.
  intros H. apply lines_unlines. apply Forall_fmap. eapply Forall_impl; [done|]. by intros a (_ & ? & _).
Qed.

Lemma parse_lines_encoded path n es : Forall storable es → parse_lines decode path n (encode <$> es) = Ok es.
Proof.
  intros H. revert n. induction H as [|e es (Hd & _ & Ht & Hne) _ IH]; intros n; [done|].
  cbn. rewrite Ht, Hne, Hd. cbn. by rewrite IH.
Qed.

Lemma parse_tolerant_encoded es : Forall storable es → parse_tolerant decode (encode <$> es) = (es, 0).
Proof.
  induction 1 as [|e es (Hd & _ & Ht & Hne) _ IH]; [done|]. cbn. by rewrite IH, Ht, Hne, Hd.
Qed.

Lemma read_jsonl_holds fs path es :
  holds fs path es → read_jsonl_records decode path fs = (Ok es, fs).
Proof.
  intros [Hf Hs]. unfold read_jsonl_records. rewrite eff_bind_unfold. unfold read_file. rewrite Hf.
  unfold of_result. by rewrite storable_lines, parse_lines_encoded.
Qed.

Lemma read_tolerant_holds fs path es :
  holds fs path es → read_jsonl_tolerant decode path fs = (Ok (es, 0), fs).
Proof.
  intros [Hf Hs]. unfold read_jsonl_tolerant, path_exists, gets, read_file.
  rewrite !eff_bind_unfold, Hf. cbn. rewrite eff_bind_unfold, Hf. cbn.
  by rewrite storable_lines, parse_tolerant_encoded.
Qed.

Lemma append_jsonl_holds fs path es e fs' :
  holds fs path es → storable e → append_jsonl_line encode path e fs = (Ok tt, fs') →
  holds fs' path (es ++ [e]).
Proof.
  intros [Hf Hs] He. unfold append_jsonl_line, append_file. case_match; [done|]. intros [= <-].
  split; [|by apply Forall_app_2; [|apply Forall_singleton]].
  cbn. rewrite lookup_insert_eq, Hf, fmap_app. cbn. by rewrite unlines_snoc.
Qed.

Lemma write_atomic_files fs path content fs' :
  write_atomic path content fs = (Ok tt, fs') → fs_files fs' !! path = Some content.
Proof.
  unfold write_atomic, write_atomic_or. destruct (write_text_atomic _ _ _) as [f [[]|?]] eqn:Hw; [|done].
  intros [= <-]. by apply write_text_atomic_Ok in Hw.
Qed.

(** A successful atomic write adds no other file. *)
Lemma write_atomic_absent fs path content fs' p :
  write_atomic path content fs = (Ok tt, fs') → p ≠ path → fs_files fs !! p = None →
  fs_files fs' !! p = None.
Proof.
  unfold write_atomic, write_atomic_or, write_text_atomic. repeat (case_match; try done); simplify_eq.
  intros [= <-] Hp Hn. cbn. rewrite lookup_insert_ne by done.
  destruct (decide (p = atomic_temp_path fs path)) as [->|].
  - apply lookup_delete_eq.
  - by rewrite lookup_delete_ne, lookup_insert_ne by done.
Qed.

Lemma write_jsonl_holds fs path es fs' :
  Forall storable es → write_jsonl_records encode path es fs = (Ok tt, fs') → holds fs' path es.
Proof. intros Hs Hw. split; [|done]. by eapply write_atomic_files. Qed.
End jsonl.

Section records.
Context `{!ChannelCodec, !ChannelCodecLaws}.
Implicit Types s : ChannelStore.

Lemma log_storable e : plain_value (le_payload e) = true → storable encode_log decode_log e.
Proof. split; [by apply decode_encode_log|apply encode_log_line]. Qed.
Lemma context_storable e : storable encode_context decode_context e.
Proof. split; [apply decode_encode_context|apply encode_context_line]. Qed.
Lemma artifact_storable r : storable encode_artifact decode_artifact r.
Proof. split; [apply decode_encode_artifact|apply encode_artifact_line]. Qed.
Lemma attachment_storable r : storable encode_attachment decode_attachment r.
Proof. split; [apply decode_encode_attachment|apply encode_attachment_line]. Qed.

Abbreviation log_holds s fs es := (holds encode_log decode_log fs (log_path s) es).
Abbreviation context_holds s fs es := (holds encode_context decode_context fs (context_path s) es).

(** Appended log entries come back in order. *)
Lemma append_log_holds s fs es e fs' :
  log_holds s fs es → plain_value (le_payload e) = true → append_log_entry s e fs = (Ok tt, fs') →
  log_holds s fs' (es ++ [e]).
Proof. intros. by eapply append_jsonl_holds; eauto using log_storable. Qed.

Lemma append_context_holds s fs es e fs' :
  context_holds s fs es → append_context_entry s e fs = (Ok tt, fs') → context_holds s fs' (es ++ [e]).
Proof. intros. by eapply append_jsonl_holds; eauto using context_storable. Qed.

Lemma compact_context_holds s fs es n k fs' :
  context_holds s fs es → compact_context s n fs = (Ok k, fs') →
  let kept := drop (length es - Nat.max n 1) es in context_holds s fs' kept ∧ k = length kept.
Proof.
  intros Hh. unfold compact_context, load_context_entries. rewrite eff_bind_unfold.
  rewrite (read_jsonl_holds _ _ _ _ _ Hh). case_match eqn:Hle.
  - apply Nat.leb_le in Hle. intros [= <- <-]. cbn.
    by rewrite (proj2 (Nat.sub_0_le _ _) Hle), drop_0.
  - rewrite eff_bind_unfold. destruct (write_jsonl_records _ _ _ fs) as [[[]|?] f] eqn:Hw; [|done].
    intros [= <- <-]. split; [|done].
    eapply write_jsonl_holds; [|done]. apply Forall_drop, Hh.
Qed.

Lemma purge_loop_spec {A} s (expired : A → bool) relative failure records fs kept n fs' :
  purge_loop s expired relative failure records fs = (Ok (kept, n), fs') →
  kept = List.filter (λ r, negb (expired r)) records ∧
  n = length (List.filter expired records) ∧
  (∀ r, r ∈ records → expired r = true → fs_files fs' !! path_join (channel_dir s) (relative r) = None) ∧
  (∀ p, fs_files fs !! p = None → fs_files fs' !! p = None) ∧
  (∀ p, (∀ r, r ∈ records → expired r = true → path_join (channel_dir s) (relative r) ≠ p) →
     fs_files fs' !! p = fs_files fs !! p).
Proof.
  revert fs kept n fs'. induction records as [|r rs IH]; intros fs kept n fs'.
  { intros [= <- <- <-]. split_and!; try done. by intros r ?%elem_of_nil. }
  cbn [purge_loop List.filter].
  destruct (expired r) eqn:He; cbn [negb].
  - rewrite of_result_bind. destruct (resolve_safe_channel_path _ _) as [path|] eqn:Hr; [|done].
    rewrite eff_bind_unfold. cbn. rewrite eff_bind_unfold.
    destruct (when _ _ fs) as [[[]|] f1] eqn:Hw; [|done]. rewrite eff_bind_unfold.
    destruct (purge_loop _ _ _ _ rs f1) as [[[k m]|] f2] eqn:Hp; [|done]. intros [= <- <- <-].
    apply IH in Hp as (-> & -> & Hgone & Hmono & Hframe).
    assert (path = path_join (channel_dir s) (relative r)) as ->.
    { revert Hr. unfold resolve_safe_channel_path, bail_if. destruct (starts_with _ _); [done|].
      destruct (existsb _ _); [done|]. by intros [= <-]. }
    assert (fs_files f1 !! path_join (channel_dir s) (relative r) = None ∧
            (∀ p, fs_files fs !! p = None → fs_files f1 !! p = None) ∧
            ∀ p, path_join (channel_dir s) (relative r) ≠ p → fs_files f1 !! p = fs_files fs !! p)
      as (Hf1 & Hm1 & Hr1).
    { revert Hw. unfold when, remove_file. destruct (fs_files fs !! _) eqn:Hl; cbn.
      - case_match; [done|]. intros [= <-]. cbn. split_and!; [apply lookup_delete_eq| |].
        + intros p Hp. rewrite lookup_delete_None. by right.
        + intros p Hp. by apply lookup_delete_ne.
      - destruct (bool_decide (_ ∈ fs_dirs fs)) eqn:Hd; cbn; [|by intros [= <-]].
        by rewrite Hd, orb_true_r. }
    split_and!; [done|done| |by auto|].
    + intros r' [->|Hin]%elem_of_cons He'; [by apply Hmono|by apply Hgone].
    + intros p Hne. rewrite Hframe, Hr1; [done|by apply Hne; [left|]|].
      intros r' Hin. apply Hne. by right.
  - rewrite eff_bind_unfold. destruct (purge_loop _ _ _ _ rs fs) as [[[k m]|] f2] eqn:Hp; [|done].
    intros [= <- <- <-]. apply IH in Hp as (-> & -> & Hgone & Hmono & Hframe).
    split_and!; [done|done| |done|].
    + intros r' [->|Hin]%elem_of_cons He'; [congruence|by apply Hgone].
    + intros p Hne. apply Hframe. intros r' Hin. apply Hne. by right.
Qed.

(** Purging one index: the unexpired records stay, the files of the others go,
    and files that belong to no expired record are as they were. *)
Lemma purge_index_spec {A} (encode : A → string) s (expired : A → bool) relative failure
    index records fs kept n f1 fs' :
  purge_loop s expired relative failure records fs = (Ok (kept, n), f1) →
  write_jsonl_records encode index kept f1 = (Ok tt, fs') →
  kept = List.filter (λ r, negb (expired r)) records ∧
  n = length (List.filter expired records) ∧
  (∀ r, r ∈ records → expired r = true → path_join (channel_dir s) (relative r) ≠ index →
     fs_files fs' !! path_join (channel_dir s) (relative r) = None) ∧
  (∀ p, p ≠ index → fs_files fs !! p = None → fs_files fs' !! p = None) ∧
  (∀ p, p ≠ index → p ≠ atomic_temp_path f1 index →
     (∀ r, r ∈ records → expired r = true → path_join (channel_dir s) (relative r) ≠ p) →
     fs_files fs' !! p = fs_files fs !! p).
Proof.
  intros (-> & -> & Hgone & Hmono & Hframe)%purge_loop_spec Hw.
  assert (fs' = (write_text_atomic f1 index (unlines (encode <$> List.filter (λ r, negb (expired r)) records))).1)
    as Hfs'.
  { revert Hw. unfold write_jsonl_records, write_atomic, write_atomic_or.
    destruct (write_text_atomic _ _ _) as [? []]; [|done]. by intros [= <-]. }
  split_and!; [done|done| | |].
  - intros r Hr He Hne. eapply write_atomic_absent; [exact Hw|done|by apply Hgone].
  - intros p Hne Hp. eapply write_atomic_absent; [exact Hw|done|by apply Hmono].
  - intros p Hne Ht Hp. rewrite Hfs', write_text_atomic_others by done. by apply Hframe.
Qed.
End records.

Definition attachment_expired (now_unix_ms : N) (r : ChannelAttachmentRecord) : bool :=
  match ac_expires_unix_ms r with Some value => (value <=? now_unix_ms)%N | None => false end.

Lemma with_file_name_join d base name :
  slash ∉ chars_of base → with_file_name (d +:+ "/" +:+ base) name = d +:+ "/" +:+ name.
Proof.
  intros Hb. apply chars_of_inj. unfold with_file_name.
  rewrite chars_of_of_chars, !chars_of_app, !reverse_app.
  assert (∀ b l, slash ∉ b → rev_dir (b ++ slash :: l) = slash :: l) as Hcut.
  { induction b as [|x b IH]; intros l Hx; cbn; [done|]. apply not_elem_of_cons in Hx as [Hx Hl].
    destruct (Ascii.eqb_spec x slash); [congruence|by apply IH]. }
  change (chars_of "/") with [slash]. rewrite <- app_assoc. change (reverse [slash]) with [slash].
  cbn [app]. rewrite Hcut by (by rewrite elem_of_reverse).
  by rewrite reverse_cons, reverse_involutive, <- app_assoc.
Qed.

(** The two index files, and the temporary files written beside them, are
    different files. *)
Lemma index_path_eq s dir :
  path_join (path_join (channel_dir s) dir) "index.jsonl" = channel_dir s +:+ "/" +:+ dir +:+ "/index.jsonl" →
  ∀ fs, ∃ name, atomic_temp_path fs (path_join (path_join (channel_dir s) dir) "index.jsonl")
    = (channel_dir s +:+ "/" +:+ dir) +:+ "/" +:+ name.
Proof.
  intros Heq fs. eexists. unfold atomic_temp_path at 1. rewrite Heq.
  replace (channel_dir s +:+ "/" +:+ dir +:+ "/index.jsonl")
    with ((channel_dir s +:+ "/" +:+ dir) +:+ "/" +:+ "index.jsonl").
  - apply with_file_name_join. cbn. set_solver.
  - apply chars_of_inj. rewrite !chars_of_app. by rewrite <- !app_assoc.
Qed.

Lemma index_join s dir c :
  last (chars_of dir) = Some c → c ≠ slash →
  path_join (path_join (channel_dir s) dir) "index.jsonl" = channel_dir s +:+ "/" +:+ dir +:+ "/index.jsonl".
Proof.
  intros Hl Hc. rewrite (path_join_plain _ c), channel_dir_join; [|rewrite channel_dir_join|done].
  - apply chars_of_inj. rewrite !chars_of_app. by rewrite <- !app_assoc.
  - by rewrite !chars_of_app, app_assoc, last_app, Hl.
Qed.

Lemma index_files_apart s fs :
  artifact_index_path s ≠ attachments_index_path s ∧
  artifact_index_path s ≠ atomic_temp_path fs (attachments_index_path s) ∧
  attachments_index_path s ≠ atomic_temp_path fs (artifact_index_path s).
Proof.
  pose proof (index_join s "artifacts" "s" eq_refl ltac:(done)) as H1.
  pose proof (index_join s "attachments" "s" eq_refl ltac:(done)) as H2.
  destruct (index_path_eq s "artifacts" H1 fs) as [n1 T1].
  destruct (index_path_eq s "attachments" H2 fs) as [n2 T2].
  unfold artifact_index_path, artifacts_dir, attachments_index_path, attachments_dir.
  rewrite T1, T2, H1, H2. split_and!; intros Heq; apply (f_equal chars_of) in Heq;
    rewrite !chars_of_app, <- ?app_assoc in Heq; by simplify_eq.
Qed.

Section purge.
Context `{!ChannelCodec, !ChannelCodecLaws}.
Implicit Types s : ChannelStore.

Abbreviation artifacts_hold s fs rs := (holds encode_artifact decode_artifact fs (artifact_index_path s) rs).
Abbreviation attachments_hold s fs rs :=
  (holds encode_attachment decode_attachment fs (attachments_index_path s) rs).

(** No record claims an index file as its own file. *)
Definition owns_no_index s (relative : string) : Prop :=
  path_join (channel_dir s) relative ≠ artifact_index_path s ∧
  path_join (channel_dir s) relative ≠ attachments_index_path s.

Lemma storable_filter {A} (P : A → Prop) (f : A → bool) l : Forall P l → Forall P (List.filter f l).
Proof.
  rewrite !Forall_forall. intros HP x Hx. apply HP. apply list_elem_of_In, List.filter_In in Hx as [Hx _].
  by apply list_elem_of_In.
Qed.

Lemma purge_expired_attachments_spec s now rs fs counts fs' :
  attachments_hold s fs rs → (∀ r, r ∈ rs → owns_no_index s (ac_relative_path r)) →
  purge_expired_attachments s now fs = (Ok counts, fs') →
  counts = (length (List.filter (attachment_expired now) rs), 0) ∧
  attachments_hold s fs' (List.filter (λ r, negb (attachment_expired now r)) rs) ∧
  (∀ r, r ∈ rs → attachment_expired now r = true →
     fs_files fs' !! path_join (channel_dir s) (ac_relative_path r) = None) ∧
  (∀ p, p ≠ attachments_index_path s → fs_files fs !! p = None → fs_files fs' !! p = None) ∧
  fs_files fs' !! artifact_index_path s = fs_files fs !! artifact_index_path s.
Proof.
  intros Hh Hown. unfold purge_expired_attachments, load_attachment_records_tolerant. rewrite eff_bind_unfold.
  rewrite (read_tolerant_holds _ _ _ _ _ Hh). cbn. rewrite eff_bind_unfold.
  fold (attachment_expired now). destruct (purge_loop _ _ _ _ _ _) as [[[kept n]|] f1] eqn:Hp; [|done].
  rewrite eff_bind_unfold. cbn. destruct (write_jsonl_records _ _ _ f1) as [[[]|] f2] eqn:Hw; [|done].
  intros [= <- <-]. destruct (purge_index_spec _ _ _ _ _ _ _ _ _ _ _ _ Hp Hw)
    as (Hk & -> & Hgone & Hmono & Hframe).
  destruct (index_files_apart s f1) as (Ha & Hb & _).
  split_and!; [done| | |done|].
  - rewrite <- Hk. eapply write_jsonl_holds; [|done]. rewrite Hk. apply storable_filter, Hh.
  - intros r Hr He. apply Hgone; [done..|]. by apply Hown.
  - apply Hframe; [done|done|]. intros r Hr _. by apply Hown.
Qed.
End purge.

(** A purge that succeeds on two readable indexes whose records do not claim
    the index files themselves keeps exactly the artifact and attachment records
    that have not expired, in order, deletes the file of every expired artifact
    and attachment, and reports their numbers. *)
Theorem purge_keeps_unexpired `{!ChannelCodec, !ChannelCodecLaws} s now artifacts attachments fs report fs' :
  holds encode_artifact decode_artifact fs (artifact_index_path s) artifacts →
  holds encode_attachment decode_attachment fs (attachments_index_path s) attachments →
  (∀ r, r ∈ artifacts → owns_no_index s (ar_relative_path r)) →
  (∀ r, r ∈ attachments → owns_no_index s (ac_relative_path r)) →
  purge_expired_artifacts s now fs = (Ok report, fs') →
  let expired r := is_artifact_expired r now in
  report = mkPurgeReport (length (List.filter expired artifacts)) 0
             (length (List.filter (attachment_expired now) attachments)) 0 ∧
  load_artifact_records s fs' = (Ok (List.filter (λ r, negb (expired r)) artifacts), fs') ∧
  load_attachment_records_tolerant s fs'
    = (Ok (List.filter (λ r, negb (attachment_expired now r)) attachments, 0), fs') ∧
  (∀ r, r ∈ artifacts → expired r = true →
     fs_files fs' !! path_join (channel_dir s) (ar_relative_path r) = None) ∧
  (∀ r, r ∈ attachments → attachment_expired now r = true →
     fs_files fs' !! path_join (channel_dir s) (ac_relative_path r) = None).
Proof.
  intros Ha Ht Hoa Hot. unfold purge_expired_artifacts, load_artifact_records_tolerant.
  rewrite eff_bind_unfold, (read_tolerant_holds _ _ _ _ _ Ha). cbn [fst snd]. rewrite eff_bind_unfold.
  destruct (purge_loop _ _ _ _ _ _) as [[[kept n]|] f1] eqn:Hp; [|done]. rewrite eff_bind_unfold. cbn [fst snd].
  destruct (write_jsonl_records _ _ _ f1) as [[[]|] f2] eqn:Hw; [|done]. rewrite eff_bind_unfold.
  destruct (purge_expired_attachments s now f2) as [[counts|] f3] eqn:Hq; [|done]. intros [= <- <-].
  destruct (purge_index_spec _ _ _ _ _ _ _ _ _ _ _ _ Hp Hw) as (Hk & -> & Hgone & Hmono & Hframe).
  destruct (index_files_apart s f1) as (Hne & _ & Hne').
  assert (holds encode_attachment decode_attachment f2 (attachments_index_path s) attachments) as Ht2.
  { split; [|apply Ht]. rewrite Hframe; [apply Ht|done|done|]. intros r Hr _. by apply Hoa. }
  destruct (purge_expired_attachments_spec _ _ _ _ _ _ Ht2 Hot Hq) as (-> & Hh3 & Hgone3 & Hmono3 & Hf3).
  assert (holds encode_artifact decode_artifact f3 (artifact_index_path s) kept) as Hh3'.
  { eapply write_jsonl_holds in Hw as [Hw1 Hw2]; [split; [by rewrite Hf3|exact Hw2]|].
    rewrite Hk. apply storable_filter, Ha. }
  rewrite Hk in Hh3'. cbn. split_and!; [done| |by eapply read_tolerant_holds| |exact Hgone3].
  - unfold load_artifact_records, path_exists, gets. rewrite eff_bind_unfold.
    rewrite (proj1 Hh3'). cbn. by eapply read_jsonl_holds.
  - intros r Hr He. destruct (Hoa r Hr). apply Hmono3; [done|]. by apply Hgone.
Qed.

(** Entries appended to a channel's context come back in order; compaction to
    [n] records keeps exactly the latest [n] (at least one), the new entry
    included, and returns their number. *)
Theorem channel_context_window `{!ChannelCodec, !ChannelCodecLaws} s es e n fs f1 k f2 :
  holds encode_context decode_context fs (context_path s) es →
  append_context_entry s e fs = (Ok tt, f1) →
  compact_context s n f1 = (Ok k, f2) →
  let all := es ++ [e] in
  let kept := drop (length all - Nat.max n 1) all in
  load_context_entries s f1 = (Ok all, f1) ∧ load_context_entries s f2 = (Ok kept, f2) ∧
  k = length kept ∧ k = Nat.min (length all) (Nat.max n 1) ∧ last kept = Some e.
Proof.
  intros Hh Ha Hc all kept. pose proof (append_context_holds _ _ _ _ _ Hh Ha) as Hh1.
  destruct (compact_context_holds _ _ _ _ _ _ Hh1 Hc) as [Hh2 Hk].
  split_and!; [by eapply read_jsonl_holds|by eapply read_jsonl_holds|done| |].
  - rewrite Hk, length_drop. fold all. lia.
  - subst kept all. rewrite length_app. cbn [length].
    rewrite drop_app_le; [apply last_snoc|lia].
Qed.

(** ** What a channel's directory does not separate *)

(** A channel named [..] is stored in the directory of all transports, and one
    named [.] in that of its transport: a sanitised name may still be a step up. *)
Lemma dot_channels_leave_transport base :
  channel_dir (mkChannelStore base "slack" "..")
    = path_join (path_join (path_join base "channels") "slack") ".." ∧
  channel_dir (mkChannelStore base "slack" ".")
    = path_join (path_join (path_join base "channels") "slack") ".".
Proof. done. Qed.

(** Two channels whose names differ only in replaced characters share a
    directory, so the second one to be opened is refused. *)
Lemma sanitized_channels_collide base :
  channel_dir (mkChannelStore base "slack" "team a") = channel_dir (mkChannelStore base "slack" "team/a").
Proof. done. Qed.

(** ** Concrete records *)

#[export] Instance ChannelContextEntry_eq_dec : EqDecision ChannelContextEntry.
Proof. solve_decision. Defined.
#[export] Instance ChannelContextEntry_countable : Countable ChannelContextEntry.
Proof.
  refine (inj_countable' (λ e, (ce_timestamp_unix_ms e, ce_role e, ce_text e))
    (λ '(t, r, x), mkContextEntry t r x) _). by intros [].
Defined.
#[export] Instance ChannelArtifactRecord_eq_dec : EqDecision ChannelArtifactRecord.
Proof. solve_decision. Defined.
#[export] Instance ChannelArtifactRecord_countable : Countable ChannelArtifactRecord.
Proof.
  refine (inj_countable
    (λ r, ([ar_id r; ar_run_id r; ar_artifact_type r; ar_visibility r; ar_relative_path r;
            ar_checksum_sha256 r], ar_bytes r, (ar_created_unix_ms r, ar_expires_unix_ms r)))
    (λ x, match x with
          | ([a; b; c; d; e; f], g, (h, i)) => Some (mkArtifact a b c d e g f h i)
          | _ => None
          end) _). by intros [].
Defined.
#[export] Instance ChannelAttachmentRecord_eq_dec : EqDecision ChannelAttachmentRecord.
Proof. solve_decision. Defined.
#[export] Instance ChannelAttachmentRecord_countable : Countable ChannelAttachmentRecord.
Proof.
  refine (inj_countable
    (λ r, ([ac_id r; ac_run_id r; ac_event_key r; ac_actor r; ac_source_url r; ac_original_name r;
            ac_relative_path r; ac_checksum_sha256 r; ac_policy_decision r; ac_policy_reason_code r],
           [ac_bytes r; ac_created_unix_ms r], (ac_content_type r, ac_expires_unix_ms r)))
    (λ x, match x with
          | ([a; b; c; d; e; f; g; h; i; j], [k; l], (m, n)) =>
              Some (mkAttachmentRecord a b c d e f g m k h i j l n)
          | _ => None
          end) _). by intros [].
Defined.
#[export] Instance ChannelStoreMeta_eq_dec : EqDecision ChannelStoreMeta.
Proof. solve_decision. Defined.
#[export] Instance ChannelStoreMeta_countable : Countable ChannelStoreMeta.
Proof.
  refine (inj_countable' (λ m, (sm_schema_version m, sm_transport m, sm_channel_id m))
    (λ '(v, t, c), mkStoreMeta v t c) _). by intros [].
Defined.

Definition log_bits (e : ChannelLogEntry) : string :=
  encode_bits (le_timestamp_unix_ms e, le_direction e, le_event_key e, le_source e,
    value_tree (le_payload e)).
Definition bits_log (s : string) : option ChannelLogEntry :=
  (λ '(t, d, k, src, p), mkLogEntry t d k src (tree_value p)) <$> decode_bits s.

#[export] Instance bits_channel : ChannelCodec :=
  {| encode_log := log_bits; decode_log := bits_log;
     encode_context := encode_bits; decode_context := decode_bits;
     encode_artifact := encode_bits; decode_artifact := decode_bits;
     encode_attachment := encode_bits; decode_attachment := decode_bits;
     encode_meta := encode_bits; decode_meta raw := decode_bits (trim raw);
     is_json raw := negb (is_empty raw);
     channel_sha256 text := chars_of text |}.

Lemma encode_bits_json_line {A} `{Countable A} (x : A) : json_line (encode_bits x).
Proof. split_and!; [apply encode_bits_line|apply trim_marked|done]. Qed.

#[export] Instance bits_channel_laws : ChannelCodecLaws.
Proof.
  split; try (intros; exact (encode_bits_json_line _)); try exact (decode_encode_bits (A := _)).
  - intros [t d k src p] Hp. cbn in Hp. change (bits_log (log_bits (mkLogEntry t d k src p)) = Some (mkLogEntry t d k src p)).
    unfold bits_log, log_bits. rewrite decode_encode_bits. cbn. by rewrite tree_value_of.
  - intros m. change (decode_bits (trim (encode_bits m +:+ newline)) = Some m).
    replace (trim _) with (encode_bits m) by (symmetry; apply trim_marked_newline).
    apply decode_encode_bits.
Qed.

Lemma eff_outcome {S E A} (m : Eff S E A) s r : (m s).1 = r → m s = (r, (m s).2).
Proof. intros <-. by destruct (m s). Qed.

Definition demo_store : ChannelStore := mkChannelStore "state" "slack" "C1".
Definition demo_entry (n : N) : ChannelContextEntry := mkContextEntry n "user" "hi".
Definition demo_artifact (id path : string) (expiry : option N) : ChannelArtifactRecord :=
  mkArtifact id "run" "report" "private" path 3 "00" 1 expiry.
Definition demo_attachment (path : string) (expiry : option N) : ChannelAttachmentRecord :=
  mkAttachmentRecord "a" "run" "k" "u" "" "f" path None 1 "00" "" "" 1 expiry.
Definition demo_artifacts : list ChannelArtifactRecord :=
  [demo_artifact "old" "artifacts/r/old.md" (Some 5%N); demo_artifact "new" "artifacts/r/new.md" (Some 50%N)].
Definition demo_attachments : list ChannelAttachmentRecord :=
  [demo_attachment "attachments/x" (Some 7%N); demo_attachment "attachments/y" None].
Definition demo_files : gmap string string :=
  {[ context_path demo_store := unlines (encode_context <$> [demo_entry 1; demo_entry 2]);
     artifact_index_path demo_store := unlines (encode_artifact <$> demo_artifacts);
     attachments_index_path demo_store := unlines (encode_attachment <$> demo_attachments);
     "state/channels/slack/C1/artifacts/r/old.md" := "text";
     "state/channels/slack/C1/attachments/x" := "bytes" ]}.
Definition demo_fs : TextFs := mkTextFs demo_files ∅ (λ _, false) (λ _, false) 1 1000.

Lemma channel_store_confined_witness :
  fs_files (channel_ops demo_store [OpAppendContext (demo_entry 9); OpPurge 10; OpRepair] demo_fs)
    !! "state/secrets" = None.
Proof.
  rewrite (channel_store_confined demo_store _ demo_fs "state/secrets"); [by vm_compute|].
  intros (rest & Hr & _). by vm_compute in Hr.
Defined.

Lemma channel_context_window_witness :
  load_context_entries demo_store (compact_context demo_store 2
      (append_context_entry demo_store (demo_entry 3) demo_fs).2).2
  = (Ok [demo_entry 2; demo_entry 3],
     (compact_context demo_store 2 (append_context_entry demo_store (demo_entry 3) demo_fs).2).2).
Proof.
  destruct (channel_context_window demo_store [demo_entry 1; demo_entry 2] (demo_entry 3) 2 demo_fs
    (append_context_entry demo_store (demo_entry 3) demo_fs).2 2
    (compact_context demo_store 2 (append_context_entry demo_store (demo_entry 3) demo_fs).2).2)
    as (_ & H & _).
  - split; [by vm_compute|]. apply Forall_forall. intros. apply context_storable.
  - apply eff_outcome. by vm_compute.
  - apply eff_outcome. by vm_compute.
  - exact H.
Defined.

Lemma purge_keeps_unexpired_witness :
  (purge_expired_artifacts demo_store 10 demo_fs).1 = Ok (mkPurgeReport 1 0 1 0) ∧
  fs_files (purge_expired_artifacts demo_store 10 demo_fs).2
    !! "state/channels/slack/C1/artifacts/r/old.md" = None.
Proof.
  split; [by vm_compute|].
  destruct (purge_keeps_unexpired demo_store 10 demo_artifacts demo_attachments demo_fs
    (mkPurgeReport 1 0 1 0) (purge_expired_artifacts demo_store 10 demo_fs).2) as (_ & _ & _ & H & _).
  - split; [by vm_compute|]. apply Forall_forall. intros. apply artifact_storable.
  - split; [by vm_compute|]. apply Forall_forall. intros. apply attachment_storable.
  - intros r [->|[->|[]%elem_of_nil]%elem_of_cons]%elem_of_cons; by vm_compute.
  - intros r [->|[->|[]%elem_of_nil]%elem_of_cons]%elem_of_cons; by vm_compute.
  - apply eff_outcome. by vm_compute.
  - apply (H (demo_artifact "old" "artifacts/r/old.md" (Some 5%N))); [left|by vm_compute].
Defined.
