(* ===== verification/MultiChannelPolicy.v ===== *)
(** * Inbound events and the channel policy ([tau-multi-channel],
    [multi_channel_contract.rs], [multi_channel_policy.rs])

    Events of chat transports, their validation, and the policy that gates them by
    channel before any agent runs. *)

From Stdlib Require Import Ascii NArith Lia.
From stdpp Require Import base gmap sets strings list.
From S2P Require Import Prelude RustStr Json AtomicIo MultiAgentRouter StateDirs.

#[local] Open Scope string_scope.
#[local] Open Scope list_scope.
#[local] Open Scope nat_scope.

(** ** The contract *)

Definition MULTI_CHANNEL_CONTRACT_SCHEMA_VERSION : N := 1.

Inductive MultiChannelTransport := Telegram | Discord | Whatsapp.
Inductive MultiChannelEventKind := EventMessage | EventEdit | EventCommand | EventSystem.

#[export] Instance MultiChannelTransport_eq_dec : EqDecision MultiChannelTransport.
Proof. solve_decision. Defined.
#[export] Instance MultiChannelEventKind_eq_dec : EqDecision MultiChannelEventKind.
Proof. solve_decision. Defined.

Definition transport_as_str (t : MultiChannelTransport) : string :=
  match t with Telegram => "telegram" | Discord => "discord" | Whatsapp => "whatsapp" end.

Record MultiChannelAttachment := mkAttachment
  { at_attachment_id : string; at_url : string; at_content_type : string; at_file_name : string;
    at_size_bytes : N }.

Record MultiChannelInboundEvent := mkEvent
  { me_schema_version : N; me_transport : MultiChannelTransport; me_event_kind : MultiChannelEventKind;
    me_event_id : string; me_conversation_id : string; me_thread_id : string; me_actor_id : string;
    me_actor_display : string; me_timestamp_ms : N; me_text : string;
    me_attachments : list MultiChannelAttachment; me_metadata : gmap string Value }.

Record MultiChannelContractFixture := mkFixture
  { fx_schema_version : N; fx_name : string; fx_description : string;
    fx_events : list MultiChannelInboundEvent }.

Definition event_contract_key (event : MultiChannelInboundEvent) : string :=
  transport_as_str (me_transport event) +:+ ":" +:+ trim (me_event_id event).

Definition validate_attachment (attachment : MultiChannelAttachment) (label : string)
    : Result string unit :=
  _ ← bail_if (is_empty (trim (at_attachment_id attachment)))
        (label +:+ " has attachment with empty attachment_id");
  let url := trim (at_url attachment) in
  _ ← bail_if (negb (starts_with "https://" url || starts_with "http://localhost" url))
        (label +:+ " has invalid attachment url '" +:+ at_url attachment +:+ "'");
  bail_if (negb (is_empty (trim (at_content_type attachment)))
           && negb (str_contains "/" (at_content_type attachment)))
    (label +:+ " has invalid content_type '" +:+ at_content_type attachment +:+ "'").

Fixpoint validate_attachments (label : string) (attachments : list MultiChannelAttachment)
    (seen : gset string) : Result string unit :=
  match attachments with
  | [] => Ok tt
  | attachment :: rest =>
      _ ← validate_attachment attachment label;
      let trimmed_id := trim (at_attachment_id attachment) in
      _ ← bail_if (bool_decide (trimmed_id ∈ seen))
            (label +:+ " includes duplicate attachment_id '" +:+ trimmed_id +:+ "'");
      validate_attachments label rest ({[trimmed_id]} ∪ seen)
  end.

Definition validate_multi_channel_event_with_label (event : MultiChannelInboundEvent) (label : string)
    : Result string unit :=
  _ ← bail_if (negb (me_schema_version event =? MULTI_CHANNEL_CONTRACT_SCHEMA_VERSION)%N)
        (label +:+ " has unsupported schema_version " +:+ show_u64 (me_schema_version event) +:+
         " (expected " +:+ show_u64 MULTI_CHANNEL_CONTRACT_SCHEMA_VERSION +:+ ")");
  _ ← bail_if (is_empty (trim (me_event_id event))) (label +:+ " has empty event_id");
  _ ← bail_if (is_empty (trim (me_conversation_id event))) (label +:+ " has empty conversation_id");
  _ ← bail_if (is_empty (trim (me_actor_id event))) (label +:+ " has empty actor_id");
  _ ← bail_if (me_timestamp_ms event =? 0)%N (label +:+ " has zero timestamp_ms");
  _ ← bail_if (is_empty (trim (me_text event)) && bool_decide (length (me_attachments event) = 0))
        (label +:+ " must include non-empty text or at least one attachment");
  _ ← bail_if (existsb (λ p, is_empty (trim p.1)) (btree_entries (me_metadata event)))
        (label +:+ " includes empty metadata key");
  validate_attachments label (me_attachments event) ∅.

Definition validate_multi_channel_inbound_event (event : MultiChannelInboundEvent) : Result string unit :=
  validate_multi_channel_event_with_label event "live ingress event".

(** [tau-contract]: the header of a fixture. *)
Definition validate_fixture_header_with_empty_message (contract_label : string)
    (schema_version expected : N) (fixture_name : string) (item_count : nat) (empty_message : string)
    : Result string unit :=
  _ ← bail_if (negb (schema_version =? expected)%N)
        ("unsupported " +:+ contract_label +:+ " contract schema version " +:+ show_u64 schema_version
         +:+ " (expected " +:+ show_u64 expected +:+ ")");
  _ ← bail_if (is_empty (trim fixture_name)) "fixture name cannot be empty";
  bail_if (item_count =? 0) empty_message.

Fixpoint validate_events (index : nat) (events : list MultiChannelInboundEvent) (keys : gset string)
    : Result string unit :=
  match events with
  | [] => Ok tt
  | event :: rest =>
      _ ← validate_multi_channel_event_with_label event
            ("fixture event index " +:+ show_usize index);
      let key := event_contract_key event in
      _ ← bail_if (bool_decide (key ∈ keys))
            ("fixture contains duplicate transport event key '" +:+ key +:+ "'");
      validate_events (S index) rest ({[key]} ∪ keys)
  end.

Definition validate_multi_channel_contract_fixture (fixture : MultiChannelContractFixture)
    : Result string unit :=
  _ ← validate_fixture_header_with_empty_message "multi-channel" (fx_schema_version fixture)
        MULTI_CHANNEL_CONTRACT_SCHEMA_VERSION (fx_name fixture) (length (fx_events fixture))
        "fixture must include at least one event";
  validate_events 0 (fx_events fixture) ∅.

(** ** The policy *)

Definition MULTI_CHANNEL_POLICY_SCHEMA_VERSION : N := 1.

Inductive MultiChannelDmPolicy := DmAllow | DmDeny.
Inductive MultiChannelAllowFrom := AllowAny | AllowlistOrPairing | AllowlistOnly.
Inductive MultiChannelGroupPolicy := GroupAllow | GroupDeny.
Inductive MultiChannelSecureMessagingMode := SecureDisabled | SecurePreferred | SecureRequired.

#[export] Instance dm_policy_eq_dec : EqDecision MultiChannelDmPolicy.
Proof. solve_decision. Defined.
#[export] Instance allow_from_eq_dec : EqDecision MultiChannelAllowFrom.
Proof. solve_decision. Defined.
#[export] Instance group_policy_eq_dec : EqDecision MultiChannelGroupPolicy.
Proof. solve_decision. Defined.
#[export] Instance secure_mode_eq_dec : EqDecision MultiChannelSecureMessagingMode.
Proof. solve_decision. Defined.

Definition dm_policy_as_str (p : MultiChannelDmPolicy) : string :=
  match p with DmAllow => "allow" | DmDeny => "deny" end.
Definition allow_from_as_str (a : MultiChannelAllowFrom) : string :=
  match a with
  | AllowAny => "any" | AllowlistOrPairing => "allowlist_or_pairing" | AllowlistOnly => "allowlist_only"
  end.
Definition group_policy_as_str (p : MultiChannelGroupPolicy) : string :=
  match p with GroupAllow => "allow" | GroupDeny => "deny" end.
Definition secure_mode_as_str (m : MultiChannelSecureMessagingMode) : string :=
  match m with
  | SecureDisabled => "disabled" | SecurePreferred => "preferred" | SecureRequired => "required"
  end.

Record MultiChannelSecureMessagingPolicy := mkSecurePolicy
  { sp_mode : MultiChannelSecureMessagingMode; sp_timestamp_skew_seconds : N;
    sp_replay_window_seconds : N }.

Definition secure_policy_default : MultiChannelSecureMessagingPolicy :=
  mkSecurePolicy SecurePreferred 300 300.

Record MultiChannelChannelPolicy := mkChannelPolicy
  { cp_dm_policy : MultiChannelDmPolicy; cp_allow_from : MultiChannelAllowFrom;
    cp_group_policy : MultiChannelGroupPolicy; cp_require_mention : bool }.

Definition channel_policy_default : MultiChannelChannelPolicy :=
  mkChannelPolicy DmAllow AllowlistOrPairing GroupAllow false.

Definition is_open_dm_combo (p : MultiChannelChannelPolicy) : bool :=
  bool_decide (cp_dm_policy p = DmAllow) && bool_decide (cp_allow_from p = AllowAny).

Record MultiChannelPolicyFile := mkPolicyFile
  { pf_schema_version : N; pf_strict_mode : bool;
    pf_secure_messaging : MultiChannelSecureMessagingPolicy;
    pf_default_policy : MultiChannelChannelPolicy;
    pf_channels : gmap string MultiChannelChannelPolicy }.

Definition policy_file_default : MultiChannelPolicyFile :=
  mkPolicyFile MULTI_CHANNEL_POLICY_SCHEMA_VERSION false secure_policy_default channel_policy_default ∅.

Inductive MultiChannelConversationKind := Dm | Group.

Definition conversation_kind_as_str (k : MultiChannelConversationKind) : string :=
  match k with Dm => "dm" | Group => "group" end.

Inductive MultiChannelPolicyDecision :=
| PolicyAllow (reason_code : string)
| PolicyDeny (reason_code : string).

Definition policy_decision_reason_code (d : MultiChannelPolicyDecision) : string :=
  match d with PolicyAllow r => r | PolicyDeny r => r end.
Definition policy_decision_as_str (d : MultiChannelPolicyDecision) : string :=
  match d with PolicyAllow _ => "allow" | PolicyDeny _ => "deny" end.

Record MultiChannelPolicyEvaluation := mkPolicyEvaluation
  { pe_policy_channel : string; pe_matched_policy_key : string; pe_policy : MultiChannelChannelPolicy;
    pe_conversation_kind : MultiChannelConversationKind; pe_mention_present : bool;
    pe_decision : MultiChannelPolicyDecision }.

(** [serde_json::from_str::<MultiChannelPolicyFile>] *)
Class ChannelPolicyCodec := { decode_channel_policy : string → option MultiChannelPolicyFile }.

Definition validate_multi_channel_policy (policy : MultiChannelPolicyFile) : Result string unit :=
  _ ← bail_if (negb (pf_schema_version policy =? MULTI_CHANNEL_POLICY_SCHEMA_VERSION)%N)
        ("unsupported multi-channel policy schema_version " +:+ show_u64 (pf_schema_version policy) +:+
         " (expected " +:+ show_u64 MULTI_CHANNEL_POLICY_SCHEMA_VERSION +:+ ")");
  bail_if (existsb (λ p, is_empty (trim p.1)) (btree_entries (pf_channels policy)))
    "multi-channel policy channel key must not be empty".

Section loading.
Context `{!ChannelPolicyCodec}.

Definition load_multi_channel_policy_file (fs : TextFs) (path : string)
    : Result string MultiChannelPolicyFile :=
  match fs_files fs !! path with
  | None =>
      if bool_decide (path ∈ fs_dirs fs)
      then Err ("failed to read multi-channel policy " +:+ path) else Ok policy_file_default
  | Some raw =>
      parsed ← ok_or ("failed to parse multi-channel policy " +:+ path) (decode_channel_policy raw);
      _ ← validate_multi_channel_policy parsed;
      Ok parsed
  end.

Definition load_multi_channel_policy_for_state_dir (fs : TextFs) (state_dir : string)
    : Result string MultiChannelPolicyFile :=
  let path := channel_policy_path_for_state_dir state_dir in
  match load_multi_channel_policy_file fs path with
  | Ok policy => Ok policy
  | Err _ => Err ("failed to load multi-channel policy " +:+ path)
  end.
End loading.

(** ** Evaluation *)

Definition metadata_bool (event : MultiChannelInboundEvent) (key : string) : bool :=
  default false (me_metadata event !! key ≫= as_bool).

Definition metadata_string_matches (event : MultiChannelInboundEvent) (key : string)
    (accepted : list string) : bool :=
  match me_metadata event !! key ≫= as_str with
  | None => false
  | Some value => existsb (String.eqb (to_ascii_lowercase (trim value))) accepted
  end.

Definition detect_conversation_kind (event : MultiChannelInboundEvent) : MultiChannelConversationKind :=
  if String.eqb (transport_as_str (me_transport event)) "whatsapp" then Dm
  else if metadata_string_matches event "conversation_mode" ["dm"] then Dm
  else if metadata_string_matches event "chat_type" ["private"; "dm"; "direct"] then Dm
  else if metadata_string_matches event "channel_type" ["dm"; "private"; "direct"] then Dm
  else if metadata_bool event "is_dm" then Dm
  else if metadata_string_matches event "conversation_mode" ["group"] then Group
  else if metadata_string_matches event "chat_type" ["group"; "supergroup"; "channel"] then Group
  else if metadata_string_matches event "channel_type"
            ["group"; "guild"; "public_thread"; "private_thread"; "text"] then Group
  else if match me_metadata event !! "guild_id" ≫= as_str with
          | Some value => negb (is_empty (trim value)) | None => false end then Group
  else if negb (is_empty (trim (me_thread_id event))) then Group
  else Group.

Definition detect_mention_present (event : MultiChannelInboundEvent) : bool :=
  if bool_decide (me_event_kind event = EventCommand) then true
  else if metadata_bool event "mentions_bot" || metadata_bool event "mentioned"
          || metadata_bool event "mention" then true
  else if match me_metadata event !! "mention_count" ≫= as_u64 with
          | Some value => (0 <? value)%N | None => false end then true
  else if match me_metadata event !! "mentions" ≫= as_array with
          | Some rows => negb (bool_decide (length rows = 0)) | None => false end then true
  else
    let text := to_ascii_lowercase (me_text event) in
    str_contains "@tau" text || str_contains "<@" text || str_contains "/tau" text.

Definition allow_decision_for_allow_from (allow_from : MultiChannelAllowFrom)
    : MultiChannelPolicyDecision :=
  PolicyAllow
    match allow_from with
    | AllowAny => "allow_channel_policy_allow_from_any"
    | AllowlistOrPairing => "allow_channel_policy_allow_from_allowlist_or_pairing"
    | AllowlistOnly => "allow_channel_policy_allow_from_allowlist_only"
    end.

(** The most specific policy that covers the channel, with its key. *)
Definition matched_policy (policy_file : MultiChannelPolicyFile) (event : MultiChannelInboundEvent)
    : string * MultiChannelChannelPolicy :=
  let policy_channel :=
    transport_as_str (me_transport event) +:+ ":" +:+ trim (me_conversation_id event) in
  let transport_wildcard := transport_as_str (me_transport event) +:+ ":*" in
  match pf_channels policy_file !! policy_channel with
  | Some policy => (policy_channel, policy)
  | None =>
      match pf_channels policy_file !! transport_wildcard with
      | Some policy => (transport_wildcard, policy)
      | None =>
          match pf_channels policy_file !! "*" with
          | Some policy => ("*", policy)
          | None => ("default", pf_default_policy policy_file)
          end
      end
  end.

Definition evaluate_multi_channel_channel_policy (policy_file : MultiChannelPolicyFile)
    (event : MultiChannelInboundEvent) : MultiChannelPolicyEvaluation :=
  let policy_channel :=
    transport_as_str (me_transport event) +:+ ":" +:+ trim (me_conversation_id event) in
  let '(matched_policy_key, policy) := matched_policy policy_file event in
  let conversation_kind := detect_conversation_kind event in
  let mention_present := detect_mention_present event in
  let decision :=
    match conversation_kind with
    | Dm =>
        if bool_decide (cp_dm_policy policy = DmDeny) then PolicyDeny "deny_channel_policy_dm"
        else allow_decision_for_allow_from (cp_allow_from policy)
    | Group =>
        if bool_decide (cp_group_policy policy = GroupDeny)
        then PolicyDeny "deny_channel_policy_group"
        else if cp_require_mention policy && negb mention_present
        then PolicyDeny "deny_channel_policy_mention_required"
        else allow_decision_for_allow_from (cp_allow_from policy)
    end in
  mkPolicyEvaluation policy_channel matched_policy_key policy conversation_kind mention_present decision.

(** [sort] and [dedup] *)
Fixpoint dedup_strings (l : list string) : list string :=
  match l with
  | x :: ((y :: _) as rest) => if String.eqb x y then dedup_strings rest else x :: dedup_strings rest
  | _ => l
  end.

Definition collect_open_dm_risk_channels (policy_file : MultiChannelPolicyFile) : list string :=
  dedup_strings (sort_by String.leb
    ((if is_open_dm_combo (pf_default_policy policy_file) then ["default"] else []) ++
     (List.filter (λ p, is_open_dm_combo p.2) (btree_entries (pf_channels policy_file))).*1)).
