(* ===== verification/MultiChannelRouting.v ===== *)
(** * Routing of inbound events ([tau-multi-channel], [multi_channel_routing.rs])

    Bindings of a file choose, per event, the phase, the category, the session and
    the trust input of the agent route. *)

From Stdlib Require Import Ascii NArith Lia.
From stdpp Require Import base gmap sets strings list.
From S2P Require Import Prelude RustStr Json AtomicIo MultiAgentRouter StateDirs MultiChannelPolicy.

#[local] Open Scope string_scope.
#[local] Open Scope list_scope.
#[local] Open Scope nat_scope.

Definition MULTI_CHANNEL_ROUTE_BINDINGS_FILE_NAME : string := "multi-channel-route-bindings.json".
Definition MULTI_CHANNEL_ROUTE_BINDINGS_SCHEMA_VERSION : N := 1.
Definition WILDCARD_SELECTOR : string := "*".
Definition TRUST_SCORE_KEY : string := "trust_score".
Definition TRUST_SCORES_KEY : string := "trust_scores".
Definition TRUST_UPDATED_UNIX_MS_KEY : string := "trust_updated_unix_ms".

Record MultiChannelRouteBinding := mkBinding
  { rb_binding_id : string; rb_transport : string; rb_account_id : string;
    rb_conversation_id : string; rb_actor_id : string; rb_phase : option MultiAgentRoutePhase;
    rb_category_hint : string; rb_session_key_template : string; rb_trust_score_source : string;
    rb_trust_score_threshold : option N; rb_trust_stale_after_seconds : option N }.

Record MultiChannelRouteBindingFile := mkBindingFile
  { bf_schema_version : N; bf_bindings : list MultiChannelRouteBinding }.

Definition route_bindings_default : MultiChannelRouteBindingFile :=
  mkBindingFile MULTI_CHANNEL_ROUTE_BINDINGS_SCHEMA_VERSION [].

Record MultiChannelRouteDecision := mkRouteDecision
  { rd_binding_id : string; rd_matched : bool; rd_match_specificity : nat;
    rd_phase : MultiAgentRoutePhase; rd_account_id : string; rd_requested_category : option string;
    rd_selected_role : string; rd_fallback_roles : list string; rd_attempt_roles : list string;
    rd_selected_category : option string; rd_session_key : string; rd_trust_status : string;
    rd_trust_score : option N; rd_trust_threshold : option N; rd_trust_stale : bool;
    rd_trust_score_source : option string; rd_trust_input_source : option string }.

Definition normalize_optional_text (raw : option string) : option string :=
  match raw with
  | Some value => let value := trim value in if is_empty value then None else Some value
  | None => None
  end.

(** ** The bindings file *)

Definition normalize_selector (raw : string) (lowercase : bool) : Result string string :=
  let normalized := default WILDCARD_SELECTOR (normalize_optional_text (Some raw)) in
  if String.eqb normalized WILDCARD_SELECTOR then Ok normalized
  else
    _ ← bail_if (str_contains "*" normalized)
          ("selector '" +:+ normalized +:+ "' is invalid; only '*' wildcard is supported");
    Ok (if lowercase then to_ascii_lowercase normalized else normalized).

Definition normalize_binding (binding_id : string) (b : MultiChannelRouteBinding)
    : Result string MultiChannelRouteBinding :=
  transport ← normalize_selector (rb_transport b) true;
  account_id ← normalize_selector (rb_account_id b) false;
  conversation_id ← normalize_selector (rb_conversation_id b) false;
  actor_id ← normalize_selector (rb_actor_id b) false;
  let category_hint := default "" (normalize_optional_text (Some (rb_category_hint b))) in
  let session_key_template := default "" (normalize_optional_text (Some (rb_session_key_template b))) in
  let trust_score_source :=
    default TRUST_SCORE_KEY (normalize_optional_text (Some (rb_trust_score_source b))) in
  _ ← match rb_trust_score_threshold b with
      | Some threshold =>
          bail_if (100 <? threshold)%N
            ("binding '" +:+ binding_id +:+ "' trust_score_threshold " +:+ show_u64 threshold +:+
             " exceeds 100")
      | None => Ok tt
      end;
  _ ← match rb_trust_stale_after_seconds b with
      | Some stale_after =>
          bail_if (stale_after =? 0)%N
            ("binding '" +:+ binding_id +:+ "' trust_stale_after_seconds must be greater than 0")
      | None => Ok tt
      end;
  Ok (mkBinding binding_id transport account_id conversation_id actor_id (rb_phase b) category_hint
        session_key_template trust_score_source (rb_trust_score_threshold b)
        (rb_trust_stale_after_seconds b)).

Fixpoint normalize_bindings (bindings : list MultiChannelRouteBinding) (seen_ids : gset string)
    : Result string (list MultiChannelRouteBinding) :=
  match bindings with
  | [] => Ok []
  | b :: rest =>
      binding_id ← ok_or "binding_id cannot be empty" (normalize_optional_text (Some (rb_binding_id b)));
      _ ← bail_if (bool_decide (binding_id ∈ seen_ids)) ("duplicate binding_id '" +:+ binding_id +:+ "'");
      b ← normalize_binding binding_id b;
      rest ← normalize_bindings rest ({[binding_id]} ∪ seen_ids);
      Ok (b :: rest)
  end.

Definition normalize_multi_channel_route_bindings (file : MultiChannelRouteBindingFile)
    : Result string MultiChannelRouteBindingFile :=
  _ ← bail_if (negb (bf_schema_version file =? MULTI_CHANNEL_ROUTE_BINDINGS_SCHEMA_VERSION)%N)
        ("unsupported multi-channel route bindings schema_version " +:+ show_u64 (bf_schema_version file)
         +:+ " (expected " +:+ show_u64 MULTI_CHANNEL_ROUTE_BINDINGS_SCHEMA_VERSION +:+ ")");
  bindings ← normalize_bindings (bf_bindings file) ∅;
  Ok (mkBindingFile (bf_schema_version file) bindings).

(** [serde_json::from_str::<MultiChannelRouteBindingFile>] *)
Class RouteBindingsCodec := { decode_route_bindings : string → option MultiChannelRouteBindingFile }.

Section loading.
Context `{!RouteBindingsCodec}.

Definition parse_multi_channel_route_bindings (raw : string)
    : Result string MultiChannelRouteBindingFile :=
  parsed ← ok_or "failed to parse multi-channel route bindings" (decode_route_bindings raw);
  normalize_multi_channel_route_bindings parsed.

Definition load_multi_channel_route_bindings (fs : TextFs) (path : string)
    : Result string MultiChannelRouteBindingFile :=
  match fs_files fs !! path with
  | None =>
      if bool_decide (path ∈ fs_dirs fs)
      then Err ("failed to read multi-channel route bindings " +:+ path)
      else Ok route_bindings_default
  | Some raw =>
      match parse_multi_channel_route_bindings raw with
      | Ok file => Ok file
      | Err _ => Err ("invalid multi-channel route bindings " +:+ path)
      end
  end.

Definition load_multi_channel_route_bindings_for_state_dir (fs : TextFs) (state_dir : string)
    : Result string MultiChannelRouteBindingFile :=
  load_multi_channel_route_bindings fs
    (path_join (path_join state_dir "security") MULTI_CHANNEL_ROUTE_BINDINGS_FILE_NAME).
End loading.

(** ** The best binding *)

Fixpoint first_account_id (metadata : gmap string Value) (keys : list string) : string :=
  match keys with
  | [] => ""
  | key :: keys =>
      match normalize_optional_text (metadata !! key ≫= as_str) with
      | Some normalized => normalized
      | None => first_account_id metadata keys
      end
  end.

Definition resolve_multi_channel_account_id (event : MultiChannelInboundEvent) : string :=
  first_account_id (me_metadata event)
    ["account_id"; "telegram_bot_id"; "discord_bot_id"; "discord_application_id";
     "whatsapp_business_account_id"; "whatsapp_phone_number_id"].

Definition selector_score (selector value : string) : option nat :=
  if String.eqb selector WILDCARD_SELECTOR then Some 0
  else if String.eqb selector value then Some 1 else None.

Definition binding_match_score (binding : MultiChannelRouteBinding) (event : MultiChannelInboundEvent)
    (account_id : string) : option nat :=
  transport ← selector_score (rb_transport binding) (transport_as_str (me_transport event));
  account ← selector_score (rb_account_id binding) account_id;
  conversation ← selector_score (rb_conversation_id binding) (trim (me_conversation_id event));
  actor ← selector_score (rb_actor_id binding) (trim (me_actor_id event));
  Some (transport + account + conversation + actor).

(** One round of the loop: a later binding has to match better. *)
Definition better_binding (event : MultiChannelInboundEvent) (account_id : string)
    (best : option (MultiChannelRouteBinding * nat)) (binding : MultiChannelRouteBinding)
    : option (MultiChannelRouteBinding * nat) :=
  match binding_match_score binding event account_id with
  | None => best
  | Some score =>
      match best with
      | Some (_, best_score) => if score <=? best_score then best else Some (binding, score)
      | None => Some (binding, score)
      end
  end.

Definition select_best_binding (file : MultiChannelRouteBindingFile) (event : MultiChannelInboundEvent)
    (account_id : string) : option (MultiChannelRouteBinding * nat) :=
  foldl (better_binding event account_id) None (bf_bindings file).

Definition default_phase_for_event (kind : MultiChannelEventKind) : MultiAgentRoutePhase :=
  match kind with
  | EventCommand => Planner
  | EventSystem => Review
  | EventMessage | EventEdit => DelegatedStep
  end.

(** ** Trust *)

Definition parse_trust_score_u8 (value : Value) : option N :=
  parsed ← as_u64 value; if (100 <? parsed)%N then None else Some parsed.

Definition add_trust_score (scores : gmap string N) (entry : string * Value) : gmap string N :=
  let role := trim entry.1 in
  if is_empty role then scores
  else match parse_trust_score_u8 entry.2 with
  | Some score => <[role := score]> scores
  | None => scores
  end.

Definition parse_trust_score_map (value : Value) : option (gmap string N) :=
  foldl add_trust_score ∅ <$> as_object value.

(** What the configured source gives: a source name, role scores, a global score. *)
Definition preferred_trust (event : MultiChannelInboundEvent) (preferred_source_key : option string)
    : option string * gmap string N * option N :=
  match normalize_optional_text preferred_source_key with
  | None => (None, ∅, None)
  | Some source_key =>
      match me_metadata event !! source_key with
      | None => (None, ∅, None)
      | Some value =>
          match parse_trust_score_u8 value with
          | Some score => (Some source_key, ∅, Some score)
          | None => (Some source_key, default ∅ (parse_trust_score_map value), None)
          end
      end
  end.

Definition build_route_trust_input (event : MultiChannelInboundEvent)
    (preferred_source_key : option string) (minimum_score stale_after_seconds : option N)
    (now_unix_ms : N) : option MultiAgentRouteTrustInput * option string :=
  let '(source, role_scores, global_score) := preferred_trust event preferred_source_key in
  let '(source, role_scores) :=
    if decide (role_scores = ∅) then
      match me_metadata event !! TRUST_SCORES_KEY ≫= parse_trust_score_map with
      | Some parsed_map =>
          if decide (parsed_map = ∅) then (source, role_scores)
          else (option_or source (Some TRUST_SCORES_KEY), parsed_map)
      | None => (source, role_scores)
      end
    else (source, role_scores) in
  let '(source, global_score) :=
    match global_score with
    | Some _ => (source, global_score)
    | None =>
        match me_metadata event !! TRUST_SCORE_KEY ≫= parse_trust_score_u8 with
        | Some score => (option_or source (Some TRUST_SCORE_KEY), Some score)
        | None => (source, None)
        end
    end in
  let updated_unix_ms := me_metadata event !! TRUST_UPDATED_UNIX_MS_KEY ≫= as_u64 in
  if bool_decide (role_scores = ∅) && bool_decide (global_score = None)
     && bool_decide (minimum_score = None) && bool_decide (stale_after_seconds = None)
     && bool_decide (updated_unix_ms = None)
  then (None, source)
  else (Some (mkTrustInput global_score role_scores minimum_score updated_unix_ms now_unix_ms
                stale_after_seconds), source).

(** ** The session key *)

Definition session_char (c : ascii) : bool :=
  is_ascii_alphanumeric c || Ascii.eqb c "-" || Ascii.eqb c "_" || Ascii.eqb c ":" || Ascii.eqb c ".".

Definition underscore : ascii := "_"%char.

Fixpoint drop_underscores (l : list ascii) : list ascii :=
  match l with
  | c :: l' => if Ascii.eqb c underscore then drop_underscores l' else l
  | [] => []
  end.
(** [trim_matches('_')] *)
Definition trim_underscores (l : list ascii) : list ascii :=
  reverse (drop_underscores (reverse (drop_underscores l))).

(** A character of several bytes becomes one ['_']. *)
Definition sanitize_session_segment (raw : string) : string :=
  of_chars (trim_underscores
    ((λ c, if session_char c then c else underscore) <$>
     List.filter is_char_start (chars_of (trim raw)))).

(** [str::replace] of a nonempty text; every round takes a character. *)
Fixpoint replace_loop (fuel : nat) (pat to l : list ascii) : list ascii :=
  match fuel with
  | O => l
  | S fuel =>
      match strip_prefix_chars pat l with
      | Some rest => to ++ replace_loop fuel pat to rest
      | None => match l with [] => [] | c :: l => c :: replace_loop fuel pat to l end
      end
  end.
Definition str_replace (pat to s : string) : string :=
  of_chars (replace_loop (S (String.length s)) (chars_of pat) (chars_of to) (chars_of s)).

Definition normalize_default_session_key (event : MultiChannelInboundEvent) : string :=
  let normalized := sanitize_session_segment (trim (me_conversation_id event)) in
  if is_empty normalized then "default" else normalized.

Definition render_session_key_template (template : string) (event : MultiChannelInboundEvent)
    (account_id : string) (selection : MultiAgentRouteSelection) (category : option string) : string :=
  let rendered :=
    foldl (λ rendered '(key, value),
      str_replace ("{" +:+ key +:+ "}") (sanitize_session_segment value) rendered) template
      [("transport", transport_as_str (me_transport event)); ("account_id", account_id);
       ("conversation_id", trim (me_conversation_id event)); ("actor_id", trim (me_actor_id event));
       ("role", sl_primary_role selection); ("phase", phase_as_str (sl_phase selection));
       ("category", default "" category)] in
  let normalized := sanitize_session_segment rendered in
  if is_empty normalized then normalize_default_session_key event else normalized.

(** ** The decision *)

Definition resolve_multi_channel_event_route (bindings : MultiChannelRouteBindingFile)
    (route_table : MultiAgentRouteTable) (event : MultiChannelInboundEvent) (now_unix_ms : N)
    : MultiChannelRouteDecision :=
  let account_id := resolve_multi_channel_account_id event in
  let default_phase := default_phase_for_event (me_event_kind event) in
  let matched_binding := select_best_binding bindings event account_id in
  let '(binding_id, requested_category, phase, specificity, session_key_template, trust_source,
        threshold, stale_after) :=
    match matched_binding with
    | Some (binding, specificity) =>
        (rb_binding_id binding, normalize_optional_text (Some (rb_category_hint binding)),
         default default_phase (rb_phase binding), specificity,
         default "" (normalize_optional_text (Some (rb_session_key_template binding))),
         normalize_optional_text (Some (rb_trust_score_source binding)),
         rb_trust_score_threshold binding, rb_trust_stale_after_seconds binding)
    | None => ("default", None, default_phase, 0, "", None, None, None)
    end in
  let category_lookup :=
    if bool_decide (phase = DelegatedStep)
    then option_or requested_category (normalize_optional_text (Some (me_text event)))
    else None in
  let '(trust_input, trust_input_source) :=
    build_route_trust_input event trust_source threshold stale_after now_unix_ms in
  let selection := select_multi_agent_route_with_trust route_table phase category_lookup trust_input in
  let selected_category := option_or (sl_category selection) requested_category in
  let session_key :=
    if is_empty session_key_template then normalize_default_session_key event
    else render_session_key_template session_key_template event account_id selection selected_category in
  mkRouteDecision binding_id (bool_decide (is_Some matched_binding)) specificity phase account_id
    requested_category (sl_primary_role selection) (sl_fallback_roles selection)
    (sl_attempt_roles selection) selected_category session_key (sl_trust_status selection)
    (sl_trust_score selection) (sl_trust_threshold selection) (sl_trust_stale selection)
    (sl_trust_score_source selection) trust_input_source.

(** [json!] of an [Option]. *)
Definition json_opt_str : option string → Value := json_option Str.
Definition json_opt_num : option N → Value := json_option (λ n, Num (PosInt n)).

Definition route_decision_trace_payload (event : MultiChannelInboundEvent) (event_key : string)
    (decision : MultiChannelRouteDecision) (now_unix_ms : N) : Value :=
  json_obj
    [("record_type", Str "multi_channel_route_trace_v1"); ("timestamp_unix_ms", Num (PosInt now_unix_ms));
     ("event_key", Str event_key); ("transport", Str (transport_as_str (me_transport event)));
     ("conversation_id", Str (trim (me_conversation_id event)));
     ("actor_id", Str (trim (me_actor_id event))); ("binding_id", Str (rd_binding_id decision));
     ("binding_matched", Bool (rd_matched decision));
     ("match_specificity", json_usize (rd_match_specificity decision));
     ("phase", Str (phase_as_str (rd_phase decision))); ("account_id", Str (rd_account_id decision));
     ("requested_category", json_opt_str (rd_requested_category decision));
     ("selected_category", json_opt_str (rd_selected_category decision));
     ("selected_role", Str (rd_selected_role decision));
     ("fallback_roles", Arr (Str <$> rd_fallback_roles decision));
     ("attempt_roles", Arr (Str <$> rd_attempt_roles decision));
     ("session_key", Str (rd_session_key decision)); ("trust_status", Str (rd_trust_status decision));
     ("trust_score", json_opt_num (rd_trust_score decision));
     ("trust_threshold", json_opt_num (rd_trust_threshold decision));
     ("trust_stale", Bool (rd_trust_stale decision));
     ("trust_score_source", json_opt_str (rd_trust_score_source decision));
     ("trust_input_source", json_opt_str (rd_trust_input_source decision))].
