(* ===== verification/MultiChannelMedia.v ===== *)
(** * Media attachments ([tau-multi-channel], [multi_channel_media.rs])

    Attachments of an event are deduplicated, limited, classified and summarised,
    each with a reason code. *)

From Stdlib Require Import Ascii NArith Lia.
From stdpp Require Import base gmap sets strings list.
From S2P Require Import Prelude RustStr Json MultiChannelPolicy.

#[local] Open Scope string_scope.
#[local] Open Scope list_scope.
#[local] Open Scope nat_scope.

Definition IMAGE_EXTENSIONS : list string := ["png"; "jpg"; "jpeg"; "gif"; "bmp"; "webp"; "tif"; "tiff"].
Definition AUDIO_EXTENSIONS : list string := ["mp3"; "wav"; "m4a"; "ogg"; "flac"; "aac"; "opus"].
Definition VIDEO_EXTENSIONS : list string := ["mp4"; "mov"; "m4v"; "avi"; "mkv"; "webm"].

Record MultiChannelMediaUnderstandingConfig := mkMediaConfig
  { mc_enabled : bool; mc_max_attachments_per_event : nat; mc_max_summary_chars : nat }.

Definition media_config_default : MultiChannelMediaUnderstandingConfig := mkMediaConfig true 4 280.

Inductive MediaUnderstandingDecision := MediaProcessed | MediaSkipped | MediaFailed.

Definition media_decision_as_str (d : MediaUnderstandingDecision) : string :=
  match d with
  | MediaProcessed => "processed" | MediaSkipped => "skipped" | MediaFailed => "failed"
  end.

Record MediaUnderstandingOutcome := mkMediaOutcome
  { mo_attachment_id : string; mo_decision : MediaUnderstandingDecision; mo_reason_code : string;
    mo_media_kind : string; mo_operation : string; mo_content_type : string; mo_file_name : string;
    mo_size_bytes : N; mo_url : string; mo_summary : option string; mo_summary_chars : nat;
    mo_truncated : bool; mo_retryable : bool; mo_detail : option string }.

Record MediaUnderstandingReport := mkMediaReport
  { mr_processed : nat; mr_skipped : nat; mr_failed : nat; mr_truncated_summaries : nat;
    mr_outcomes : list MediaUnderstandingOutcome; mr_reason_code_counts : gmap string nat }.

Definition media_report_default : MediaUnderstandingReport := mkMediaReport 0 0 0 0 [] ∅.

Inductive MediaKind := MediaImage | MediaAudio | MediaVideo | MediaUnsupported.

Definition media_kind_as_str (k : MediaKind) : string :=
  match k with
  | MediaImage => "image" | MediaAudio => "audio" | MediaVideo => "video"
  | MediaUnsupported => "unsupported"
  end.
Definition media_operation (k : MediaKind) : string :=
  match k with
  | MediaImage => "describe" | MediaAudio => "transcribe" | MediaVideo => "summarize"
  | MediaUnsupported => "none"
  end.
Definition success_reason_code (k : MediaKind) : string :=
  match k with
  | MediaImage => "media_image_described" | MediaAudio => "media_audio_transcribed"
  | MediaVideo => "media_video_summarized" | MediaUnsupported => "media_unsupported_attachment_type"
  end.

Record MediaUnderstandingProviderError := mkProviderError
  { mp_reason_code : string; mp_detail : string; mp_retryable : bool }.

Definition non_retryable (reason_code detail : string) : MediaUnderstandingProviderError :=
  mkProviderError (trim reason_code) (trim detail) false.

(** The trait [MediaUnderstandingProvider]. *)
Class MediaProvider :=
  { describe_image : MultiChannelAttachment → Result MediaUnderstandingProviderError string;
    transcribe_audio : MultiChannelAttachment → Result MediaUnderstandingProviderError string;
    summarize_video : MultiChannelAttachment → Result MediaUnderstandingProviderError string }.

(** ** Names and kinds *)

(** [split(sep).next()] and [rsplit(sep).next()] *)
Definition before_first (sep : ascii) (s : string) : string := default s (head (split_on sep s)).
Definition after_last (sep : ascii) (s : string) : string := default s (last (split_on sep s)).

(** [rsplit_once('.')], the part after the dot. *)
Definition after_last_dot (s : string) : option string :=
  match split_on dot s with [] | [_] => None | parts => last parts end.

Definition extract_extension (raw : string) : option string :=
  let trimmed := trim raw in
  if is_empty trimmed then None
  else
    let without_query := before_first "?" (before_first "#" trimmed) in
    ext ← after_last_dot (after_last slash without_query);
    if is_empty (trim ext) then None else Some (to_ascii_lowercase (trim ext)).

Definition attachment_extension (attachment : MultiChannelAttachment) : option string :=
  match extract_extension (at_file_name attachment) with
  | Some ext => Some ext
  | None => extract_extension (at_url attachment)
  end.

Definition classify_media_kind (attachment : MultiChannelAttachment) : MediaKind :=
  let content_type := to_ascii_lowercase (trim (at_content_type attachment)) in
  if starts_with "image/" content_type then MediaImage
  else if starts_with "audio/" content_type then MediaAudio
  else if starts_with "video/" content_type then MediaVideo
  else match attachment_extension attachment with
  | None => MediaUnsupported
  | Some extension =>
      if existsb (String.eqb extension) IMAGE_EXTENSIONS then MediaImage
      else if existsb (String.eqb extension) AUDIO_EXTENSIONS then MediaAudio
      else if existsb (String.eqb extension) VIDEO_EXTENSIONS then MediaVideo
      else MediaUnsupported
  end.

Definition attachment_display_name (attachment : MultiChannelAttachment) : string :=
  let file_name := trim (at_file_name attachment) in
  if negb (is_empty file_name) then file_name
  else
    let url_tail :=
      trim (after_last slash (before_first "?" (before_first "#" (trim (at_url attachment))))) in
    if negb (is_empty url_tail) then url_tail else trim (at_attachment_id attachment).

Definition normalized_content_type (attachment : MultiChannelAttachment) : string :=
  let content_type := trim (at_content_type attachment) in
  if is_empty content_type then "unknown" else content_type.

(** ** Summaries *)

Definition truncate_summary (summary : string) (max_chars : nat) : string * bool :=
  let normalized := replace_char newline_char space_char (trim summary) in
  if chars_count normalized <=? max_chars then (normalized, false)
  else (take_chars (max_chars - 1) normalized +:+ "...", true).

Definition normalize_inline_summary (raw : string) : string :=
  replace_char newline_char space_char (trim raw).

Definition describe_from_metadata (what verb source : string) (attachment : MultiChannelAttachment)
    : string :=
  what +:+ " '" +:+ attachment_display_name attachment +:+ "' " +:+ verb +:+ " from metadata" +:+ source
  +:+ " (content_type='" +:+ normalized_content_type attachment +:+ "', size_bytes=" +:+
  show_u64 (at_size_bytes attachment) +:+ ", source='" +:+ trim (at_url attachment) +:+ "').".

(** The provider the runtime uses. *)
#[export] Instance DeterministicMediaUnderstandingProvider : MediaProvider :=
  {| describe_image a := Ok (describe_from_metadata "Image" "described" "" a);
     transcribe_audio a := Ok (describe_from_metadata "Audio" "transcribed" " envelope" a);
     summarize_video a := Ok (describe_from_metadata "Video" "summarized" " envelope" a) |}.

(** ** The report *)

Definition base_outcome (attachment : MultiChannelAttachment) (kind : MediaKind)
    : MediaUnderstandingOutcome :=
  mkMediaOutcome (trim (at_attachment_id attachment)) MediaSkipped "" (media_kind_as_str kind)
    (media_operation kind) (trim (at_content_type attachment)) (trim (at_file_name attachment))
    (at_size_bytes attachment) (trim (at_url attachment)) None 0 false false None.

Definition set_decision (decision : MediaUnderstandingDecision) (reason : string)
    (o : MediaUnderstandingOutcome) : MediaUnderstandingOutcome :=
  mkMediaOutcome (mo_attachment_id o) decision reason (mo_media_kind o) (mo_operation o)
    (mo_content_type o) (mo_file_name o) (mo_size_bytes o) (mo_url o) (mo_summary o)
    (mo_summary_chars o) (mo_truncated o) (mo_retryable o) (mo_detail o).
Definition set_summary (summary : string) (truncated : bool) (o : MediaUnderstandingOutcome)
    : MediaUnderstandingOutcome :=
  mkMediaOutcome (mo_attachment_id o) (mo_decision o) (mo_reason_code o) (mo_media_kind o)
    (mo_operation o) (mo_content_type o) (mo_file_name o) (mo_size_bytes o) (mo_url o) (Some summary)
    (chars_count summary) truncated (mo_retryable o) (mo_detail o).
Definition set_failure (retryable : bool) (detail : option string) (o : MediaUnderstandingOutcome)
    : MediaUnderstandingOutcome :=
  mkMediaOutcome (mo_attachment_id o) (mo_decision o) (mo_reason_code o) (mo_media_kind o)
    (mo_operation o) (mo_content_type o) (mo_file_name o) (mo_size_bytes o) (mo_url o) (mo_summary o)
    (mo_summary_chars o) (mo_truncated o) retryable detail.

Definition push_outcome (report : MediaUnderstandingReport) (outcome : MediaUnderstandingOutcome)
    : MediaUnderstandingReport :=
  let count (d : bool) (n : nat) := if d then S n else n in
  let reason := mo_reason_code outcome in
  mkMediaReport
    (count (match mo_decision outcome with MediaProcessed => true | _ => false end) (mr_processed report))
    (count (match mo_decision outcome with MediaSkipped => true | _ => false end) (mr_skipped report))
    (count (match mo_decision outcome with MediaFailed => true | _ => false end) (mr_failed report))
    (mr_truncated_summaries report) (mr_outcomes report ++ [outcome])
    (<[reason := S (default 0 (mr_reason_code_counts report !! reason))]> (mr_reason_code_counts report)).

Definition count_truncated (truncated : bool) (report : MediaUnderstandingReport)
    : MediaUnderstandingReport :=
  mkMediaReport (mr_processed report) (mr_skipped report) (mr_failed report)
    (if truncated then S (mr_truncated_summaries report) else mr_truncated_summaries report)
    (mr_outcomes report) (mr_reason_code_counts report).

Definition attachment_identity (attachment : MultiChannelAttachment) : string :=
  trim (at_attachment_id attachment) +:+ ":" +:+ to_ascii_lowercase (trim (at_url attachment)).

Section provider.
Context {MP : MediaProvider}.

Definition process_supported_attachment (attachment : MultiChannelAttachment) (kind : MediaKind)
    : Result MediaUnderstandingProviderError string :=
  match kind with
  | MediaImage => describe_image attachment
  | MediaAudio => transcribe_audio attachment
  | MediaVideo => summarize_video attachment
  | MediaUnsupported =>
      Err (non_retryable "media_unsupported_attachment_type" "unsupported attachment type")
  end.

(** The outcome of an attachment that is within the limits. *)
Definition understand (attachment : MultiChannelAttachment) (max_summary_chars : nat)
    (report : MediaUnderstandingReport) : MediaUnderstandingReport :=
  let kind := classify_media_kind attachment in
  let outcome := base_outcome attachment kind in
  match kind with
  | MediaUnsupported =>
      push_outcome report (set_decision MediaSkipped "media_unsupported_attachment_type" outcome)
  | _ =>
      match process_supported_attachment attachment kind with
      | Ok summary =>
          let '(bounded_summary, truncated) := truncate_summary summary max_summary_chars in
          push_outcome (count_truncated truncated report)
            (set_summary bounded_summary truncated
               (set_decision MediaProcessed (success_reason_code kind) outcome))
      | Err error =>
          let reason := trim (mp_reason_code error) in
          let detail := trim (mp_detail error) in
          push_outcome report
            (set_failure (mp_retryable error) (if is_empty detail then None else Some detail)
               (set_decision MediaFailed (if is_empty reason then "media_provider_error" else reason)
                  outcome))
      end
  end.

Fixpoint media_loop (config : MultiChannelMediaUnderstandingConfig)
    (attachments : list MultiChannelAttachment) (seen : gset string) (candidates : nat)
    (report : MediaUnderstandingReport) : MediaUnderstandingReport :=
  match attachments with
  | [] => report
  | attachment :: rest =>
      let identity := attachment_identity attachment in
      let outcome := base_outcome attachment (classify_media_kind attachment) in
      if negb (mc_enabled config) then
        media_loop config rest seen candidates
          (push_outcome report (set_decision MediaSkipped "media_understanding_disabled" outcome))
      else if decide (identity ∈ seen) then
        media_loop config rest seen candidates
          (push_outcome report (set_decision MediaSkipped "media_duplicate_attachment" outcome))
      else
        let seen := {[identity]} ∪ seen in
        if Nat.max (mc_max_attachments_per_event config) 1 <=? candidates then
          media_loop config rest seen candidates
            (push_outcome report (set_decision MediaSkipped "media_attachment_limit_exceeded" outcome))
        else
          media_loop config rest seen (S candidates)
            (understand attachment (Nat.max (mc_max_summary_chars config) 16) report)
  end.

Definition process_media_attachments_with_provider (event : MultiChannelInboundEvent)
    (config : MultiChannelMediaUnderstandingConfig) : MediaUnderstandingReport :=
  media_loop config (me_attachments event) ∅ 0 media_report_default.
End provider.

Definition process_media_attachments : MultiChannelInboundEvent → MultiChannelMediaUnderstandingConfig
    → MediaUnderstandingReport :=
  process_media_attachments_with_provider.

Definition render_media_outcome (o : MediaUnderstandingOutcome) : string :=
  "- attachment_id=" +:+ mo_attachment_id o +:+ " decision=" +:+ media_decision_as_str (mo_decision o)
  +:+ " media_kind=" +:+ mo_media_kind o +:+ " operation=" +:+ mo_operation o +:+ " reason_code=" +:+
  mo_reason_code o +:+
  match mo_summary o with Some s => " summary=" +:+ normalize_inline_summary s | None => "" end +:+
  (if mo_retryable o then " retryable=true" else "") +:+
  match mo_detail o with Some d => " detail=" +:+ normalize_inline_summary d | None => "" end.

Definition render_media_prompt_context (report : MediaUnderstandingReport) : option string :=
  match mr_outcomes report with
  | [] => None
  | outcomes =>
      Some (join newline ("Media understanding outcomes:" :: (render_media_outcome <$> outcomes)))
  end.

(** ** Properties *)

Section theorems.
Context {MP : MediaProvider}.
Implicit Types (report : MediaUnderstandingReport) (attachments : list MultiChannelAttachment).

Lemma understand_outcomes attachment n report :
  1 ≤ n → ∃ o, mr_outcomes (understand attachment n report) = mr_outcomes report ++ [o] ∧
    mo_attachment_id o = trim (at_attachment_id attachment) ∧
    ∀ s, mo_summary o = Some s → chars_count s ≤ n + 2.
Proof.
  intros Hn. unfold understand. destruct (classify_media_kind attachment) eqn:E.
  4: { eexists. split; [done|]. split; [done|]. by intros s [=]. }
  all: destruct (process_supported_attachment attachment _) as [summary|error]; cycle 1;
    [eexists; split; [done|]; split; [done|]; by intros s [=]|].
  all: unfold truncate_summary; destruct (chars_count _ <=? n) eqn:Hle; eexists;
    (split; [done|]); (split; [done|]); intros s [= <-].
  1,3,5: apply Nat.leb_le in Hle; lia.
  all: apply Nat.leb_gt in Hle; rewrite chars_count_app, chars_count_take; change (chars_count "...") with 3; lia.
Qed.

Lemma media_loop_outcomes config attachments (seen : gset string) candidates report :
  ∃ os, mr_outcomes (media_loop config attachments seen candidates report) = mr_outcomes report ++ os ∧
    (mo_attachment_id <$> os) = (λ a, trim (at_attachment_id a)) <$> attachments ∧
    Forall (λ o, ∀ s, mo_summary o = Some s →
      chars_count s ≤ Nat.max (mc_max_summary_chars config) 16 + 2) os.
Proof.
  revert seen candidates report. induction attachments as [|a rest IH]; intros seen candidates report;
    cbn [media_loop fmap list_fmap].
  { exists []. by rewrite app_nil_r. }
  assert (∀ seen' candidates' report' o,
    mr_outcomes report' = mr_outcomes report ++ [o] → mo_attachment_id o = trim (at_attachment_id a) →
    (∀ s, mo_summary o = Some s → chars_count s ≤ Nat.max (mc_max_summary_chars config) 16 + 2) →
    ∃ os, mr_outcomes (media_loop config rest seen' candidates' report') = mr_outcomes report ++ os ∧
      (mo_attachment_id <$> os) = trim (at_attachment_id a) :: ((λ a, trim (at_attachment_id a)) <$> rest) ∧
      Forall (λ o, ∀ s, mo_summary o = Some s →
        chars_count s ≤ Nat.max (mc_max_summary_chars config) 16 + 2) os) as Hstep.
  { intros seen' candidates' report' o Ho Hid Hs.
    destruct (IH seen' candidates' report') as (os & -> & Hids & Hall). exists (o :: os).
    rewrite Ho, <- app_assoc. split; [done|]. split; [cbn; by rewrite Hid, Hids|by constructor]. }
  repeat case_match; try (eapply Hstep; [done|done|by intros s [=]]).
  destruct (understand_outcomes a (Nat.max (mc_max_summary_chars config) 16) report) as (o & Ho & Hid & Hs); [lia|].
  by eapply Hstep.
Qed.

(** Every attachment gets one outcome, in order; a summary exceeds the configured
    length by at most two characters. *)
Lemma media_outcomes_complete event config :
  let os := mr_outcomes (process_media_attachments_with_provider event config) in
  (mo_attachment_id <$> os) = (λ a, trim (at_attachment_id a)) <$> me_attachments event ∧
  Forall (λ o, ∀ s, mo_summary o = Some s →
    chars_count s ≤ Nat.max (mc_max_summary_chars config) 16 + 2) os.
Proof.
  unfold process_media_attachments_with_provider.
  destruct (media_loop_outcomes config (me_attachments event) ∅ 0 media_report_default) as (os & -> & H).
  done.
Qed.
End theorems.

(** A summary that is cut is longer than the limit: the limit's last character
    makes room for one, and three dots take its place. *)
Lemma truncated_summary_too_long :
  chars_count (truncate_summary "abcdefghijklmnopqrstuvwxyz" 16).1 = 18.
Proof. by vm_compute. Qed.
