(* ===== verification/LogRotation.v ===== *)
(** * Rotating logs and transport health ([tau-core], [log_rotation.rs];
      [tau-runtime], [transport_health.rs])

    A line is appended to a log; when it would exceed the size limit, the log
    and its numbered backups first move up by one. *)

From Stdlib Require Import NArith Ascii Lia.
From stdpp Require Import base pretty gmap sets strings list.
From S2P Require Import Prelude RustStr Effects AtomicIo StateDirs ChannelStore.

#[local] Open Scope string_scope.
#[local] Open Scope list_scope.
#[local] Open Scope nat_scope.

Definition DEFAULT_LOG_ROTATION_MAX_BYTES : N := 10485760.
Definition DEFAULT_LOG_ROTATION_MAX_FILES : nat := 5.

Record LogRotationPolicy := mkRotation { lr_max_bytes : N; lr_max_files : nat }.

Section environment.
(** [std::env::var] *)
Variable env_var : string → option string.

Definition positive_env (name : string) : option N :=
  match env_var name ≫= λ raw, parse_u64 (trim raw) with
  | Some value => if (0 <? value)%N then Some value else None
  | None => None
  end.

Definition rotation_from_env : LogRotationPolicy :=
  mkRotation (default DEFAULT_LOG_ROTATION_MAX_BYTES (positive_env "TAU_LOG_ROTATION_MAX_BYTES"))
    (default DEFAULT_LOG_ROTATION_MAX_FILES (N.to_nat <$> positive_env "TAU_LOG_ROTATION_MAX_FILES")).
End environment.

Definition rotation_is_enabled (policy : LogRotationPolicy) : bool :=
  (0 <? lr_max_bytes policy)%N && (0 <? lr_max_files policy).

Definition rotated_backup_path (path : string) (index : nat) : string :=
  path +:+ "." +:+ show_usize index.

(** [std::fs::rename] of a file that exists. *)
Definition rename_file (source destination failure : string) : FileOp unit := λ fs,
  if fs_rename_denied fs destination || bool_decide (destination ∈ fs_dirs fs) then (Err failure, fs)
  else match fs_files fs !! source with
       | None => (Err failure, fs)
       | Some text =>
           (Ok tt, set_text_files (<[destination := text]> (delete source (fs_files fs))) fs)
       end.

(** One step of the loop: the file before [index] moves to [index]. *)
Definition rotate_step (path : string) (index : nat) : FileOp unit :=
  let source := if index =? 1 then path else rotated_backup_path path (index - 1) in
  there ← path_exists source;
  if negb there then mret tt
  else
    let destination := rotated_backup_path path index in
    replaced ← path_exists destination;
    _ ← when replaced (remove_file destination ("failed to replace rotated log " +:+ destination));
    rename_file source destination ("failed to rotate " +:+ source +:+ " to " +:+ destination).

(** [(1..=max).rev()] *)
Fixpoint rotate_loop (path : string) (index : nat) : FileOp unit :=
  match index with
  | O => mret tt
  | S below => _ ← rotate_step path index; rotate_loop path below
  end.

Definition rotate_log_file (path : string) (policy : LogRotationPolicy) : FileOp unit :=
  there ← path_exists path;
  if negb there || negb (rotation_is_enabled policy) then mret tt
  else if lr_max_files policy <=? 1 then remove_file path ("failed to rotate " +:+ path)
  else rotate_loop path (lr_max_files policy - 1).

(** [create_dir_all] of the parent of a path, unless it is empty. *)
Definition create_parent (path : string) : FileOp unit :=
  match path_parent path with
  | Some parent => if is_empty parent then mret tt else create_dir_all parent
  | None => mret tt
  end.

Definition append_line_with_rotation (path line : string) (policy : LogRotationPolicy) : FileOp unit :=
  _ ← create_parent path;
  there ← path_exists path;
  current_size ← gets (λ fs, N.of_nat (String.length (default "" (fs_files fs !! path))));
  let incoming_size := N.of_nat (S (String.length line)) in
  _ ← when (rotation_is_enabled policy && there
            && (lr_max_bytes policy <? saturating_add_u64 current_size incoming_size)%N)
        (rotate_log_file path policy);
  append_file path (line +:+ newline).

(** ** Transport health *)

Inductive TransportHealthState := Healthy | Degraded | Failing.
Definition health_state_as_str (s : TransportHealthState) : string :=
  match s with Healthy => "healthy" | Degraded => "degraded" | Failing => "failing" end.

Record TransportHealthClassification := mkHealthClass
  { hc_state : TransportHealthState; hc_reason : string; hc_recommendation : string }.

Record TransportHealthSnapshot := mkHealth
  { th_updated_unix_ms : N; th_cycle_duration_ms : N; th_queue_depth : nat; th_active_runs : nat;
    th_failure_streak : nat; th_last_cycle_discovered : nat; th_last_cycle_processed : nat;
    th_last_cycle_completed : nat; th_last_cycle_failed : nat; th_last_cycle_duplicates : nat }.
Definition health_default : TransportHealthSnapshot := mkHealth 0 0 0 0 0 0 0 0 0 0.

Definition classify (h : TransportHealthSnapshot) : TransportHealthClassification :=
  if 3 <=? th_failure_streak h then
    mkHealthClass Failing
      ("transport failures are sustained (failure_streak=" +:+ show_usize (th_failure_streak h) +:+ ")")
      "check bridge credentials/connectivity and restart the transport worker"
  else if (0 <? th_failure_streak h) || (0 <? th_last_cycle_failed h) then
    mkHealthClass Degraded
      ("recent transport failures observed (failure_streak=" +:+ show_usize (th_failure_streak h) +:+
       ", last_cycle_failed=" +:+ show_usize (th_last_cycle_failed h) +:+ ")")
      "inspect bridge logs and watch the next poll cycle"
  else mkHealthClass Healthy "no recent transport failures observed" "no immediate action required".

Definition status_lines (h : TransportHealthSnapshot) : list string :=
  ["transport_updated_unix_ms: " +:+ show_u64 (th_updated_unix_ms h);
   "transport_cycle_duration_ms: " +:+ show_u64 (th_cycle_duration_ms h);
   "transport_queue_depth: " +:+ show_usize (th_queue_depth h);
   "transport_active_runs: " +:+ show_usize (th_active_runs h);
   "transport_failure_streak: " +:+ show_usize (th_failure_streak h);
   "transport_last_cycle_discovered: " +:+ show_usize (th_last_cycle_discovered h);
   "transport_last_cycle_processed: " +:+ show_usize (th_last_cycle_processed h);
   "transport_last_cycle_completed: " +:+ show_usize (th_last_cycle_completed h);
   "transport_last_cycle_failed: " +:+ show_usize (th_last_cycle_failed h);
   "transport_last_cycle_duplicates: " +:+ show_usize (th_last_cycle_duplicates h)].

Definition health_detail_lines (h : TransportHealthSnapshot) : list string :=
  let classification := classify h in
  ["transport_health_reason: " +:+ hc_reason classification;
   "transport_health_recommendation: " +:+ hc_recommendation classification] ++ status_lines h.

(** ** Rotation moves every generation up *)

(** The log is generation 0. *)
Definition generation (path : string) (index : nat) : string :=
  if index =? 0 then path else rotated_backup_path path index.

Lemma generation_inj path i j : generation path i = generation path j → i = j.
Proof.
  assert (∀ k, rotated_backup_path path k ≠ path) as Hne.
  { intros k Heq%(f_equal (λ s, length (chars_of s))). unfold rotated_backup_path in Heq.
    rewrite !chars_of_app, !length_app in Heq. cbn in Heq. lia. }
  unfold generation. destruct (Nat.eqb_spec i 0), (Nat.eqb_spec j 0); subst; try done.
  - intros Heq. by symmetry in Heq; apply Hne in Heq.
  - by intros ?%Hne.
  - unfold rotated_backup_path. intros Heq%(f_equal chars_of). rewrite !chars_of_app in Heq.
    simplify_eq. apply chars_of_inj in Heq. unfold show_usize in Heq. by apply (inj pretty) in Heq.
Qed.

(** Nothing prevents moving the generations of [path]. *)
Definition unobstructed (path : string) (fs : TextFs) : Prop :=
  ∀ i, fs_write_denied fs (generation path i) = false ∧ fs_rename_denied fs (generation path i) = false ∧
       (generation path i ∉ fs_dirs fs).

Definition same_but_files (fs fs' : TextFs) : Prop :=
  fs_dirs fs' = fs_dirs fs ∧ fs_write_denied fs' = fs_write_denied fs ∧
  fs_rename_denied fs' = fs_rename_denied fs.

Lemma unobstructed_same path fs fs' : same_but_files fs fs' → unobstructed path fs → unobstructed path fs'.
Proof. intros (H1 & H2 & H3) H i. rewrite H1, H2, H3. apply H. Qed.

Lemma rotate_step_spec path i fs :
  unobstructed path fs → 0 < i →
  ∃ fs', rotate_step path i fs = (Ok tt, fs') ∧ same_but_files fs fs' ∧
    fs_files fs' !! generation path i
      = (match fs_files fs !! generation path (i - 1) with
         | Some t => Some t | None => fs_files fs !! generation path i end) ∧
    fs_files fs' !! generation path (i - 1) = None ∧
    ∀ p, p ≠ generation path i → p ≠ generation path (i - 1) → fs_files fs' !! p = fs_files fs !! p.
Proof.
  intros Hu Hi. unfold rotate_step.
  replace (if i =? 1 then path else _) with (generation path (i - 1)).
  2: { unfold generation. by destruct i as [|[|i]]; [lia| |]. }
  replace (rotated_backup_path path i) with (generation path i)
    by (unfold generation; by destruct (Nat.eqb_spec i 0); [lia|]).
  set (src := generation path (i - 1)). set (dst := generation path i).
  destruct (Hu i) as (Hw & Hr & Hd). destruct (Hu (i - 1)) as (_ & _ & Hd').
  fold src in Hd'. fold dst in Hw, Hr, Hd.
  assert (src ≠ dst) as Hne by (intros Heq%generation_inj; lia).
  rewrite eff_bind_unfold. unfold path_exists, gets.
  rewrite (bool_decide_eq_false_2 (src ∈ fs_dirs fs)) by done. rewrite orb_false_r.
  destruct (fs_files fs !! src) as [t|] eqn:Hs.
  2: { rewrite bool_decide_eq_false_2 by (intros [? ?]; done). cbn. exists fs. done. }
  rewrite bool_decide_eq_true_2 by eauto. cbn [negb]. rewrite eff_bind_unfold.
  rewrite (bool_decide_eq_false_2 (dst ∈ fs_dirs fs)) by done. rewrite orb_false_r.
  rewrite eff_bind_unfold. unfold when, remove_file, rename_file.
  destruct (bool_decide (is_Some (fs_files fs !! dst))) eqn:Hx; cbn;
    rewrite ?Hw, ?Hr, ?(bool_decide_eq_false_2 (dst ∈ fs_dirs fs)) by done; cbn.
  - rewrite Hr, (bool_decide_eq_false_2 (dst ∈ fs_dirs fs)) by done. cbn.
    rewrite lookup_delete_ne, Hs by done. eexists. split_and!; [done|done| | |].
    + cbn. by rewrite lookup_insert_eq.
    + cbn. by rewrite lookup_insert_ne, lookup_delete_eq.
    + intros p H1 H2. cbn. by rewrite lookup_insert_ne, !lookup_delete_ne.
  - rewrite Hs. eexists. split_and!; [done|done| | |].
    + cbn. by rewrite lookup_insert_eq.
    + cbn. by rewrite lookup_insert_ne, lookup_delete_eq.
    + intros p H1 H2. cbn. by rewrite lookup_insert_ne, !lookup_delete_ne.
Qed.

(** Moving from the highest index down: every generation below the last takes the
    next number; the last one stays when there is none to replace it. *)
Lemma rotate_loop_spec path n fs :
  unobstructed path fs →
  ∃ fs', rotate_loop path n fs = (Ok tt, fs') ∧ same_but_files fs fs' ∧
    (0 < n → fs_files fs' !! path = None) ∧
    (∀ i, 0 < i < n → fs_files fs' !! generation path i = fs_files fs !! generation path (i - 1)) ∧
    (0 < n → fs_files fs' !! generation path n
       = match fs_files fs !! generation path (n - 1) with
         | Some t => Some t | None => fs_files fs !! generation path n end) ∧
    (∀ p, (∀ i, i ≤ n → 0 < n → p ≠ generation path i) → fs_files fs' !! p = fs_files fs !! p).
Proof.
  revert fs. induction n as [|n IH]; intros fs Hu; cbn [rotate_loop].
  { exists fs. split_and!; [done|done|lia|lia|lia|done]. }
  destruct (rotate_step_spec path (S n) fs Hu) as (f1 & H1 & Hs1 & Hd1 & Hr1 & Ho1); [lia|].
  replace (S n - 1) with n in * by lia. rewrite eff_bind_unfold, H1.
  destruct (IH f1) as (f2 & H2 & Hs2 & Hp2 & Hm2 & Hl2 & Ho2); [by eapply unobstructed_same|].
  assert (fs_files f2 !! generation path (S n) = fs_files f1 !! generation path (S n)) as Htop.
  { apply Ho2. intros i Hi _ Heq%generation_inj. lia. }
  exists f2. split_and!; [done| | | | |].
  - destruct Hs1 as (E1 & E2 & E3), Hs2 as (F1 & F2 & F3). unfold same_but_files.
    by rewrite F1, F2, F3, E1, E2, E3.
  - intros _. destruct n as [|n]; [|apply Hp2; lia].
    rewrite Ho2; [exact Hr1|]. intros i _ Hlt. lia.
  - intros i Hi. destruct (decide (i = n)) as [->|Hne].
    + rewrite Hl2 by lia.
      rewrite Hr1, Ho1; [repeat case_match; congruence|intros Heq%generation_inj; lia|intros Heq%generation_inj; lia].
    + rewrite Hm2 by lia. apply Ho1; intros Heq%generation_inj; lia.
  - intros _. by rewrite Htop.
  - intros p Hp. rewrite Ho2; [apply Ho1; apply Hp; lia|]. intros i Hi _. apply Hp; lia.
Qed.

(** Rotation never loses a generation that the limit has room for: when
    nothing prevents renaming, afterwards the log itself is free, every kept
    backup is the generation that was one younger, only the oldest one beyond
    [max_files] is gone, and no other file is touched. *)
Theorem rotation_shifts path policy fs t :
  fs_files fs !! path = Some t → unobstructed path fs → (0 < lr_max_bytes policy)%N →
  2 ≤ lr_max_files policy →
  let oldest := lr_max_files policy - 1 in
  ∃ fs', rotate_log_file path policy fs = (Ok tt, fs') ∧
    fs_files fs' !! path = None ∧
    (∀ i, 0 < i ≤ oldest → is_Some (fs_files fs !! generation path (i - 1)) →
       fs_files fs' !! generation path i = fs_files fs !! generation path (i - 1)) ∧
    (∀ p, (∀ i, i ≤ oldest → p ≠ generation path i) → fs_files fs' !! p = fs_files fs !! p).
Proof.
  intros Ht Hu Hb Hm oldest. unfold rotate_log_file, path_exists, gets. rewrite eff_bind_unfold, Ht.
  rewrite bool_decide_eq_true_2 by eauto. cbn [orb negb]. unfold rotation_is_enabled.
  rewrite (proj2 (N.ltb_lt _ _) Hb), (proj2 (Nat.ltb_lt _ _)) by lia. cbn [andb negb].
  rewrite (proj2 (Nat.leb_gt _ _)) by lia.
  destruct (rotate_loop_spec path oldest fs Hu) as (fs' & H & _ & Hp & Hmid & Htop & Ho).
  exists fs'. split_and!; [done|apply Hp; lia| |].
  - intros i Hi [x Hx]. destruct (decide (i = oldest)) as [->|]; [|apply Hmid; lia].
    rewrite Htop, Hx by lia. done.
  - intros p Hne. apply Ho. intros i Hi _. by apply Hne.
Qed.

Lemma rotation_shifts_witness :
  let fs := mkTextFs {[ "l" := "new"; "l.1" := "old"; "l.2" := "older" ]} ∅ (λ _, false) (λ _, false) 1 1 in
  ∃ fs', rotate_log_file "l" (mkRotation 10 3) fs = (Ok tt, fs') ∧
    fs_files fs' !! "l.1" = Some "new" ∧ fs_files fs' !! "l.2" = Some "old".
Proof.
  intros fs. destruct (rotation_shifts "l" (mkRotation 10 3) fs "new") as (fs' & H & _ & Hi & _).
  - by vm_compute.
  - intros i. done.
  - by vm_compute.
  - cbn. lia.
  - exists fs'. split_and!; [done| |].
    + change "l.1" with (generation "l" 1). rewrite (Hi 1); [by vm_compute|cbn; lia|by vm_compute; eauto].
    + change "l.2" with (generation "l" 2). rewrite (Hi 2); [by vm_compute|cbn; lia|by vm_compute; eauto].
Defined.
