(* ===== verification/SsrfGuard.v ===== *)
(** * Outbound URL checks ([tau-runtime], [ssrf_guard.rs])

    Which hosts and addresses an outbound request may go to.  URL and address
    parsing are the [url] crate's and the Standard Library's text formats, name
    resolution the operating system's: they are the [Network] interface, whose
    answers may depend on everything that happened before. *)

From Stdlib Require Import NArith Ascii Lia.
From stdpp Require Import base gmap strings list.
From S2P Require Import Prelude RustStr Effects.

#[local] Open Scope string_scope.
#[local] Open Scope list_scope.
#[local] Open Scope nat_scope.

(** [std::net::IpAddr]: four bytes, or eight 16-bit segments. *)
Inductive IpAddr :=
| V4 (a b c d : N)
| V6 (segments : list N).

(** What the code uses of [url::Url]. *)
Record Url := mkUrl
  { url_text : string; url_scheme : string; url_host_str : option string;
    url_port_or_known_default : option N }.

(** [reqwest::Method], as far as it is used. *)
Inductive Method := POST | PUT | PATCH | GET | DELETE.

Record HttpRequest := mkHttpRequest
  { hr_method : Method; hr_url : string; hr_headers : list (string * string); hr_body : string }.

(** [location]: the [Location] header; it may be absent or not be text (with the
    error of reading it). *)
Inductive HttpAnswer :=
| HttpFailed (error : string)
| HttpResponse (status : N) (location : option (Result string string)) (body : string).

Inductive NetEvent :=
| Looked (target : string) (addresses : Result string (list IpAddr))
| Sent (request : HttpRequest) (answer : HttpAnswer).

Class Network :=
  { parse_url : string → Result string Url;  (** [Url::parse], or its error *)
    url_join : Url → string → Result string Url;
    parse_ip : string → option IpAddr;
    show_ip : IpAddr → string;
    show_status : N → string;  (** a status code and its reason phrase *)
    (** [lookup_host] and the HTTP client, given what happened before *)
    lookup_host : list NetEvent → string → Result string (list IpAddr);
    http_send : list NetEvent → HttpRequest → HttpAnswer }.

Record SsrfProtectionConfig := mkSsrf
  { sf_enabled : bool; sf_allow_http : bool; sf_allow_private_network : bool }.
Definition ssrf_default : SsrfProtectionConfig := mkSsrf true false false.

Record SsrfViolation := mkViolation { sv_reason_code : string; sv_detail : string }.

(** ** Addresses *)

Definition is_metadata_ip (ip : IpAddr) : bool :=
  match ip with V4 169 254 169 254 => true | _ => false end.

Definition is_ipv4_carrier_grade_nat (a b : N) : bool := (a =? 100)%N && (64 <=? b)%N && (b <=? 127)%N.

(** [Ipv4Addr::is_private], [is_loopback], [is_link_local], [is_broadcast]. *)
Definition is_ipv4_private (a b : N) : bool :=
  (a =? 10)%N || ((a =? 172)%N && (16 <=? b)%N && (b <=? 31)%N) || ((a =? 192)%N && (b =? 168)%N).
Definition is_ipv4_loopback (a : N) : bool := (a =? 127)%N.
Definition is_ipv4_link_local (a b : N) : bool := (a =? 169)%N && (b =? 254)%N.
Definition is_ipv4_broadcast (a b c d : N) : bool :=
  (a =? 255)%N && (b =? 255)%N && (c =? 255)%N && (d =? 255)%N.

Definition segment (segments : list N) (i : nat) : N := default 0%N (segments !! i).
Definition is_ipv6_loopback (segments : list N) : bool := bool_decide (segments = [0; 0; 0; 0; 0; 0; 0; 1]%N).
(** [is_unique_local]: fc00::/7 *)
Definition is_ipv6_unique_local (segments : list N) : bool :=
  (N.land (segment segments 0) 0xfe00 =? 0xfc00)%N.
Definition is_ipv6_link_local (segments : list N) : bool :=
  (N.land (segment segments 0) 0xffc0 =? 0xfe80)%N.
Definition is_ipv6_documentation (segments : list N) : bool :=
  (segment segments 0 =? 0x2001)%N && (segment segments 1 =? 0x0db8)%N.

Definition is_private_network_ip (ip : IpAddr) : bool :=
  match ip with
  | V4 a b c d =>
      is_ipv4_private a b || is_ipv4_loopback a || is_ipv4_link_local a b || is_ipv4_broadcast a b c d
      || is_ipv4_carrier_grade_nat a b
  | V6 s =>
      is_ipv6_loopback s || is_ipv6_unique_local s || is_ipv6_link_local s || is_ipv6_documentation s
  end.

Definition is_unspecified (ip : IpAddr) : bool :=
  match ip with
  | V4 0 0 0 0 => true
  | V4 _ _ _ _ => false
  | V6 s => bool_decide (s = [0; 0; 0; 0; 0; 0; 0; 0]%N)
  end.
(** 224.0.0.0/4 and ff00::/8 *)
Definition is_multicast (ip : IpAddr) : bool :=
  match ip with
  | V4 a _ _ _ => (224 <=? a)%N && (a <=? 239)%N
  | V6 s => (N.land (segment s 0) 0xff00 =? 0xff00)%N
  end.

Definition is_localhost_hostname (host : string) : bool :=
  String.eqb host "localhost" || ends_with ".localhost" host.
Definition is_metadata_hostname (host : string) : bool :=
  existsb (String.eqb host)
    ["metadata"; "metadata.google.internal"; "instance-data"; "instance-data.ec2.internal";
     "metadata.azure.internal"].

(** [trim_end_matches] of one character *)
Fixpoint drop_while (x : ascii) (l : list ascii) : list ascii :=
  match l with c :: l' => if Ascii.eqb c x then drop_while x l' else l | [] => [] end.
Definition trim_end_matches (x : ascii) (s : string) : string :=
  of_chars (reverse (drop_while x (reverse (chars_of s)))).

Section guard.
Context `{!Network}.

Definition violation {A} (reason_code detail : string) : Result SsrfViolation A :=
  Err (mkViolation reason_code detail).

Definition validate_ip (ip : IpAddr) (allow_private_network : bool) : Result SsrfViolation unit :=
  if is_metadata_ip ip then
    violation "delivery_ssrf_blocked_metadata_endpoint" ("blocked outbound metadata IP '" +:+ show_ip ip +:+ "'")
  else if is_unspecified ip then
    violation "delivery_ssrf_blocked_unspecified_ip"
      ("blocked outbound unspecified IP '" +:+ show_ip ip +:+ "'")
  else if is_multicast ip then
    violation "delivery_ssrf_blocked_multicast" ("blocked outbound multicast IP '" +:+ show_ip ip +:+ "'")
  else if negb allow_private_network && is_private_network_ip ip then
    violation "delivery_ssrf_blocked_private_network"
      ("blocked outbound private or loopback IP '" +:+ show_ip ip +:+ "'")
  else Ok tt.

Fixpoint validate_ips (ips : list IpAddr) (allow_private_network : bool) : Result SsrfViolation unit :=
  match ips with
  | [] => Ok tt
  | ip :: ips => _ ← validate_ip ip allow_private_network; validate_ips ips allow_private_network
  end.

Definition validate_scheme (url : Url) (allow_http : bool) : Result SsrfViolation unit :=
  if String.eqb (url_scheme url) "https" then Ok tt
  else if String.eqb (url_scheme url) "http" then
    if allow_http then Ok tt
    else violation "delivery_ssrf_blocked_scheme" ("blocked non-HTTPS outbound URL '" +:+ url_text url +:+ "'")
  else violation "delivery_ssrf_blocked_scheme"
         ("blocked unsupported outbound scheme '" +:+ url_scheme url +:+ "' for URL '" +:+ url_text url +:+ "'").

Definition normalized_host (url : Url) : Result SsrfViolation string :=
  host ← ok_or (mkViolation "delivery_ssrf_invalid_url" ("URL '" +:+ url_text url +:+ "' is missing a host"))
           (url_host_str url);
  let host := to_ascii_lowercase (trim_end_matches "." (trim host)) in
  if is_empty host
  then violation "delivery_ssrf_invalid_url" ("URL '" +:+ url_text url +:+ "' resolved to an empty host")
  else Ok host.

(** Computations on the network: the state is what happened so far. *)
Definition lookup (target : string) : Eff (list NetEvent) SsrfViolation (Result string (list IpAddr)) := λ past,
  let addresses := lookup_host past target in (Ok addresses, past ++ [Looked target addresses]).

Definition validate_url (config : SsrfProtectionConfig) (url : Url)
    : Eff (list NetEvent) SsrfViolation unit :=
  if negb (sf_enabled config) then mret tt
  else
    _ ← of_result (validate_scheme url (sf_allow_http config));
    host ← of_result (normalized_host url);
    _ ← of_result (if is_metadata_hostname host
                   then violation "delivery_ssrf_blocked_metadata_endpoint"
                          ("blocked outbound metadata hostname '" +:+ host +:+ "'")
                   else Ok tt);
    _ ← of_result (if is_localhost_hostname host && negb (sf_allow_private_network config)
                   then violation "delivery_ssrf_blocked_private_network"
                          ("blocked outbound localhost hostname '" +:+ host +:+ "'")
                   else Ok tt);
    match parse_ip host with
    | Some ip => of_result (validate_ip ip (sf_allow_private_network config))
    | None =>
        port ← of_result (ok_or (mkViolation "delivery_ssrf_invalid_url"
                 ("URL '" +:+ url_text url +:+ "' does not include a known default port"))
                 (url_port_or_known_default url));
        addresses ← lookup (host +:+ ":" +:+ show_u64 port);
        of_result
          match addresses with
          | Err error => violation "delivery_ssrf_dns_resolution_failed"
                      ("failed DNS resolution for host '" +:+ host +:+ "' while validating URL '" +:+
                       url_text url +:+ "': " +:+ error)
          | Ok ips =>
              _ ← validate_ips ips (sf_allow_private_network config);
              match ips with
              | [] => violation "delivery_ssrf_dns_resolution_failed"
                        ("host '" +:+ host +:+ "' resolved no addresses while validating URL '" +:+
                         url_text url +:+ "'")
              | _ => Ok tt
              end
          end
    end.

Definition parse_and_validate_url (config : SsrfProtectionConfig) (raw_url : string)
    : Eff (list NetEvent) SsrfViolation Url :=
  url ← of_result
          match parse_url raw_url with
          | Ok url => Ok url
          | Err error => violation "delivery_ssrf_invalid_url"
                           ("invalid outbound URL '" +:+ raw_url +:+ "': " +:+ error)
          end;
  _ ← validate_url config url;
  mret url.
End guard.
