(* ===== verification/MultiChannelCommands.v ===== *)
(** * The [/tau] commands of the multi-channel runtime ([tau-multi-channel],
      [multi_channel_runtime.rs])

    Parsing of a command message, the result a command produces, its text and
    its JSON payload.  Handlers of the host program and the URL parser are
    arguments. *)

From Stdlib Require Import NArith Ascii Lia.
From stdpp Require Import base gmap sets strings list.
From S2P Require Import Prelude RustStr Json SsrfGuard MultiChannelPolicy MultiChannelRouting.

#[local] Open Scope string_scope.
#[local] Open Scope list_scope.
#[local] Open Scope nat_scope.

Inductive MultiChannelTauApprovalsAction := ApprovalsList | ApprovalsApprove | ApprovalsReject.

Inductive MultiChannelTauCommand :=
| TauHelp
| TauStatus
| TauSkip (reason : option string)
| TauReact (emoji : string) (message_id : option string)
| TauSendFile (url : string) (caption : option string)
| TauThread (name : string)
| TauAuthStatus (provider : option string)
| TauDoctor (online : bool)
| TauApprovals (action : MultiChannelTauApprovalsAction) (args : string).

Record MultiChannelCommandExecution := mkExecution
  { ex_command_line : string; ex_status : string; ex_reason_code : string; ex_response_text : string;
    ex_suppress_outbound_delivery : bool; ex_skip_reason : option string;
    ex_react_emoji : option string; ex_react_message_id : option string;
    ex_send_file_url : option string; ex_send_file_caption : option string;
    ex_thread_name : option string }.

Definition COMMAND_REASON_INVALID_ARGS : string := "command_invalid_args".
Definition COMMAND_REASON_UNKNOWN : string := "command_unknown".

(** ** Parsing *)

Definition invalid_args {A} : Result string A := Err COMMAND_REASON_INVALID_ARGS.

(** Nonempty tokens joined by spaces; nothing when there is none. *)
Definition join_tokens (tokens : list string) : string :=
  join " " (List.filter (λ t, negb (is_empty (trim t))) tokens).
Definition nonempty (s : string) : option string := if is_empty s then None else Some s.

Definition approval_statuses : list string := ["pending"; "approved"; "rejected"; "expired"; "consumed"].

Fixpoint parse_list_flags (tokens : list string) (emit_json : bool) (status_filter : option string)
    : Result string (bool * option string) :=
  match tokens with
  | [] => Ok (emit_json, status_filter)
  | token :: rest =>
      if String.eqb token "--json" then
        if emit_json then invalid_args else parse_list_flags rest true status_filter
      else if String.eqb token "--status" then
        match rest with
        | [] => invalid_args
        | raw_status :: rest =>
            let normalized := to_ascii_lowercase (trim raw_status) in
            if existsb (String.eqb normalized) approval_statuses
            then parse_list_flags rest emit_json (Some normalized)
            else invalid_args
        end
      else invalid_args
  end.

Definition parse_multi_channel_tau_approvals_command (tokens : list string)
    : Result string (option MultiChannelTauCommand) :=
  match tokens with
  | [] => invalid_args
  | action :: rest =>
      if String.eqb action "list" then
        flags ← parse_list_flags rest false None;
        let args := ["list"] ++ (if flags.1 : bool then ["--json"] else [])
                    ++ match flags.2 with Some status => ["--status"; status] | None => [] end in
        Ok (Some (TauApprovals ApprovalsList (join " " args)))
      else if String.eqb action "approve" || String.eqb action "reject" then
        match rest with
        | [] => invalid_args
        | raw_id :: rest =>
            let request_id := trim raw_id in
            _ ← bail_if (is_empty request_id) COMMAND_REASON_INVALID_ARGS;
            let reason := join_tokens rest in
            let args := action +:+ " " +:+ request_id +:+ (if is_empty reason then "" else " " +:+ reason) in
            Ok (Some (TauApprovals
                        (if String.eqb action "approve" then ApprovalsApprove else ApprovalsReject) args))
        end
      else invalid_args
  end.

Section commands.
Context `{!Network}.

Definition normalize_send_file_url (raw : string) : option string :=
  let trimmed := trim raw in
  if is_empty trimmed then None
  else
    match parse_url trimmed with
    | Ok parsed => if String.eqb (url_scheme parsed) "https" then Some (url_text parsed) else None
    | Err _ => None
    end.

(** The part after [/tau]. *)
Definition parse_subcommand (subcommand : string) (tokens : list string)
    : Result string (option MultiChannelTauCommand) :=
  if String.eqb subcommand "help" then
    match tokens with [] => Ok (Some TauHelp) | _ => invalid_args end
  else if String.eqb subcommand "status" then
    match tokens with [] => Ok (Some TauStatus) | _ => invalid_args end
  else if String.eqb subcommand "skip" then Ok (Some (TauSkip (nonempty (join_tokens tokens))))
  else if String.eqb subcommand "react" then
    match tokens with
    | [] => invalid_args
    | raw_emoji :: rest =>
        let emoji := trim raw_emoji in
        _ ← bail_if (is_empty emoji) COMMAND_REASON_INVALID_ARGS;
        match rest with
        | [] => Ok (Some (TauReact emoji None))
        | [message_id] => Ok (Some (TauReact emoji (nonempty (trim message_id))))
        | _ => invalid_args
        end
    end
  else if String.eqb subcommand "send-file" then
    match tokens with
    | [] => invalid_args
    | raw_url :: rest =>
        url ← ok_or COMMAND_REASON_INVALID_ARGS (normalize_send_file_url raw_url);
        Ok (Some (TauSendFile url (nonempty (join_tokens rest))))
    end
  else if String.eqb subcommand "thread" then
    let name := join_tokens tokens in
    if is_empty name then invalid_args else Ok (Some (TauThread name))
  else if String.eqb subcommand "auth" then
    match tokens with
    | action :: rest =>
        if String.eqb action "status" then
          match rest with
          | [] => Ok (Some (TauAuthStatus None))
          | [value] =>
              let provider := to_ascii_lowercase (trim value) in
              if existsb (String.eqb provider) ["openai"; "anthropic"; "google"]
              then Ok (Some (TauAuthStatus (Some provider)))
              else invalid_args
          | _ => invalid_args
          end
        else invalid_args
    | [] => invalid_args
    end
  else if String.eqb subcommand "doctor" then
    match tokens with
    | [] => Ok (Some (TauDoctor false))
    | [option] => if String.eqb option "--online" then Ok (Some (TauDoctor true)) else invalid_args
    | _ => invalid_args
    end
  else if String.eqb subcommand "approvals" then parse_multi_channel_tau_approvals_command tokens
  else Err COMMAND_REASON_UNKNOWN.

Definition parse_multi_channel_tau_command (command_text : string)
    : Result string (option MultiChannelTauCommand) :=
  match split_whitespace (trim command_text) with
  | [] => Ok None
  | command_prefix :: tokens =>
      if String.eqb command_prefix "/tau" || starts_with "/tau@" command_prefix then
        match tokens with
        | [] => Ok (Some TauHelp)
        | subcommand :: tokens => parse_subcommand subcommand tokens
        end
      else Ok None
  end.
End commands.

(** ** Rendering *)

(** The text followed by a nonempty trimmed second part. *)
Definition with_part (head : string) (part : option string) : string :=
  match part with
  | Some part => if is_empty (trim part) then head else head +:+ " " +:+ trim part
  | None => head
  end.

Definition render_multi_channel_tau_command_line (command : MultiChannelTauCommand) : string :=
  match command with
  | TauHelp => "help"
  | TauStatus => "status"
  | TauSkip reason => with_part "skip" reason
  | TauReact emoji (Some message_id) => "react " +:+ trim emoji +:+ " " +:+ trim message_id
  | TauReact emoji None => "react " +:+ trim emoji
  | TauSendFile url caption => with_part ("send-file " +:+ trim url) caption
  | TauThread name => "thread " +:+ trim name
  | TauAuthStatus (Some provider) => "auth status " +:+ provider
  | TauAuthStatus None => "auth status"
  | TauDoctor true => "doctor --online"
  | TauDoctor false => "doctor"
  | TauApprovals _ args => "approvals " +:+ args
  end.

Definition render_multi_channel_tau_command_help : string :=
  join newline
    ["supported /tau commands:"; "- /tau help"; "- /tau status"; "- /tau skip [reason]";
     "- /tau react <emoji> [message_id]"; "- /tau send-file <https-url> [caption]";
     "- /tau thread <name>"; "- /tau auth status [openai|anthropic|google]";
     "- /tau doctor [--online]";
     "- /tau approvals list [--json] [--status pending|approved|rejected|expired|consumed]";
     "- /tau approvals approve <request_id> [reason]"; "- /tau approvals reject <request_id> [reason]"].

Definition render_multi_channel_command_response (command_line status reason_code content : string)
    : string :=
  let body := if is_empty (trim content) then "Tau command response." else trim content in
  body +:+ newline +:+ newline +:+ "Tau command `/tau " +:+ command_line +:+ "` | status `" +:+ status +:+
  "` | reason_code `" +:+ reason_code +:+ "`".

Definition build_multi_channel_command_execution (command_line status reason_code content : string)
    : MultiChannelCommandExecution :=
  mkExecution command_line status reason_code
    (render_multi_channel_command_response command_line status reason_code content)
    false None None None None None None.

Definition trimmed_part (part : option string) : option string := part ≫= λ p, nonempty (trim p).

Definition build_multi_channel_command_skip_execution (reason : option string)
    : MultiChannelCommandExecution :=
  let reason := trimmed_part reason in
  mkExecution (match reason with Some r => "skip " +:+ r | None => "skip" end)
    "skipped" "command_skip_suppressed"
    (match reason with
     | Some r => "response suppressed by `/tau skip`: " +:+ r
     | None => "response suppressed by `/tau skip`"
     end) true reason None None None None None.

Definition build_multi_channel_command_react_execution (emoji : string) (message_id : option string)
    : MultiChannelCommandExecution :=
  let emoji := trim emoji in
  let message_id := trimmed_part message_id in
  mkExecution
    (match message_id with Some m => "react " +:+ emoji +:+ " " +:+ m | None => "react " +:+ emoji end)
    "reported" "command_react_requested"
    (match message_id with
     | Some m => "reaction command queued for dispatch: emoji=" +:+ emoji +:+ " target_message_id=" +:+ m
     | None => "reaction command queued for dispatch: emoji=" +:+ emoji
     end) true None (Some emoji) message_id None None None.

Definition build_multi_channel_command_send_file_execution (url : string) (caption : option string)
    : MultiChannelCommandExecution :=
  let url := trim url in
  let caption := trimmed_part caption in
  mkExecution
    (match caption with Some c => "send-file " +:+ url +:+ " " +:+ c | None => "send-file " +:+ url end)
    "reported" "command_send_file_requested"
    (match caption with
     | Some c => "file command queued for dispatch: url=" +:+ url +:+ " caption=" +:+ c
     | None => "file command queued for dispatch: url=" +:+ url
     end) true None None None (Some url) caption None.

Definition build_multi_channel_command_thread_execution (name : string) : MultiChannelCommandExecution :=
  let name := trim name in
  mkExecution ("thread " +:+ name) "reported" "command_thread_requested"
    ("thread command queued for dispatch: name=" +:+ name) true None None None None None (Some name).

Definition command_requires_operator_scope (command : MultiChannelTauCommand) : bool :=
  match command with TauAuthStatus _ | TauDoctor _ | TauApprovals _ _ => true | _ => false end.

Definition approvals_success_reason_code (action : MultiChannelTauApprovalsAction) : string :=
  match action with
  | ApprovalsList => "command_approvals_list_reported"
  | ApprovalsApprove => "command_approvals_approved"
  | ApprovalsReject => "command_approvals_rejected"
  end.

Definition approvals_failure_reason_code (action : MultiChannelTauApprovalsAction) (output : string)
    : string :=
  match action with
  | ApprovalsList => "command_approvals_failed"
  | _ =>
      if str_contains "not found" output then "command_approvals_unknown_request"
      else if str_contains "is not pending" output then "command_approvals_stale_request"
      else "command_approvals_failed"
  end.

Definition command_reason_code_from_reaction_delivery_error (reason_code : string) : string :=
  if String.eqb reason_code "reaction_unsupported_transport" then "command_react_unsupported_transport"
  else if String.eqb reason_code "reaction_invalid_message_id" then "command_react_invalid_message_id"
  else "command_react_failed".
Definition command_reason_code_from_file_delivery_error (reason_code : string) : string :=
  if String.eqb reason_code "file_delivery_unsupported_transport"
  then "command_send_file_unsupported_transport"
  else if String.eqb reason_code "file_delivery_invalid_url" then "command_send_file_invalid_url"
  else "command_send_file_failed".
Definition command_reason_code_from_thread_delivery_error (reason_code : string) : string :=
  if String.eqb reason_code "thread_unsupported_transport" then "command_thread_unsupported_transport"
  else if String.eqb reason_code "thread_invalid_name" then "command_thread_invalid_name"
  else "command_thread_failed".

(** [map.insert] of an optional member. *)
Definition obj_insert_opt (key : string) (value : option Value) (payload : Value) : Value :=
  match payload, value with
  | Obj fields, Some v => Obj (obj_insert key v fields)
  | _, _ => payload
  end.

Definition multi_channel_command_payload (execution : MultiChannelCommandExecution) : Value :=
  let payload := json_obj
    [("schema", Str "multi_channel_tau_command_v1"); ("command", Str (ex_command_line execution));
     ("status", Str (ex_status execution)); ("reason_code", Str (ex_reason_code execution));
     ("suppressed", Bool (ex_suppress_outbound_delivery execution))] in
  foldl (λ payload '(key, value), obj_insert_opt key (Str <$> value) payload) payload
    [("skip_reason", ex_skip_reason execution); ("react_emoji", ex_react_emoji execution);
     ("react_message_id", ex_react_message_id execution);
     ("send_file_url", ex_send_file_url execution);
     ("send_file_caption", ex_send_file_caption execution);
     ("thread_name", ex_thread_name execution)].

Definition build_multi_channel_approver_actor (event : MultiChannelInboundEvent) : option string :=
  let conversation_id := trim (me_conversation_id event) in
  let actor_id := trim (me_actor_id event) in
  if is_empty conversation_id || is_empty actor_id then None
  else Some (transport_as_str (me_transport event) +:+ ":" +:+ conversation_id +:+ ":" +:+ actor_id).
