(* ===== verification/MultiChannelOutbound.v ===== *)
(** * Outbound delivery ([tau-multi-channel], [multi_channel_outbound.rs])

    Requests to Telegram, Discord and WhatsApp: chunking of a response, the
    request of each kind of delivery, sending with redirects and the
    classification of answers.  The state is the list of what happened on the
    network. *)

From Stdlib Require Import ZArith NArith Ascii Lia.
From stdpp Require Import base gmap strings list.
From S2P Require Import Prelude RustStr Json Effects SsrfGuard MultiChannelPolicy MultiChannelRouting MultiChannelCommands.

#[local] Open Scope string_scope.
#[local] Open Scope list_scope.
#[local] Open Scope nat_scope.

Definition TELEGRAM_SAFE_MAX_CHARS : nat := 4096.
Definition DISCORD_SAFE_MAX_CHARS : nat := 2000.
Definition WHATSAPP_SAFE_MAX_CHARS : nat := 1024.

Inductive MultiChannelOutboundMode := ModeChannelStore | ModeDryRun | ModeProvider.
#[export] Instance MultiChannelOutboundMode_eq_dec : EqDecision MultiChannelOutboundMode.
Proof. solve_decision. Defined.

Definition outbound_mode_as_str (m : MultiChannelOutboundMode) : string :=
  match m with
  | ModeChannelStore => "channel_store" | ModeDryRun => "dry_run" | ModeProvider => "provider"
  end.

Record MultiChannelOutboundConfig := mkOutboundConfig
  { oc_mode : MultiChannelOutboundMode; oc_max_chars : nat; oc_http_timeout_ms : N;
    oc_ssrf_protection_enabled : bool; oc_ssrf_allow_http : bool;
    oc_ssrf_allow_private_network : bool; oc_max_redirects : nat; oc_telegram_api_base : string;
    oc_discord_api_base : string; oc_whatsapp_api_base : string; oc_telegram_bot_token : option string;
    oc_discord_bot_token : option string; oc_whatsapp_access_token : option string;
    oc_whatsapp_phone_number_id : option string }.

Definition outbound_config_default : MultiChannelOutboundConfig :=
  mkOutboundConfig ModeChannelStore 1200 5000 true false false 5 "https://api.telegram.org"
    "https://discord.com/api/v10" "https://graph.facebook.com/v20.0" None None None None.

Record MultiChannelOutboundDeliveryReceipt := mkReceipt
  { dr_transport : string; dr_mode : string; dr_status : string; dr_chunk_index : nat;
    dr_chunk_count : nat; dr_endpoint : string; dr_request_body : Value; dr_reason_code : option string;
    dr_detail : option string; dr_retryable : bool; dr_http_status : option N;
    dr_provider_message_id : option string }.

Record MultiChannelOutboundDeliveryResult := mkDelivery
  { dl_mode : string; dl_chunk_count : nat; dl_receipts : list MultiChannelOutboundDeliveryReceipt }.

Record MultiChannelOutboundDeliveryError := mkDeliveryError
  { de_reason_code : string; de_detail : string; de_retryable : bool; de_chunk_index : nat;
    de_chunk_count : nat; de_endpoint : string; de_request_body : option string;
    de_http_status : option N }.

Record MultiChannelOutboundRequest := mkOutboundRequest
  { or_method : Method; or_transport : MultiChannelTransport; or_endpoint : string;
    or_headers : list (string * string); or_body : Value; or_chunk_index : nat; or_chunk_count : nat }.

(** Deliveries: the state is what happened on the network. *)
Abbreviation NetOp := (Eff (list NetEvent) MultiChannelOutboundDeliveryError).

(** ** Texts *)

(** [chunk_text]: a character is a first byte with its continuation bytes.  The
    loop keeps the current chunk (reversed) and its length in characters. *)
Fixpoint chunk_loop (max_chars : nat) (current : list ascii) (current_len : nat) (l : list ascii)
    : list (list ascii) :=
  match l with
  | [] => match current with [] => [] | _ => [reverse current] end
  | c :: l =>
      if is_char_start c then
        if max_chars <=? current_len then reverse current :: chunk_loop max_chars [c] 1 l
        else chunk_loop max_chars (c :: current) (S current_len) l
      else chunk_loop max_chars (c :: current) current_len l
  end.
Definition chunk_text (text : string) (max_chars : nat) : list string :=
  if is_empty text || (max_chars =? 0) then []
  else of_chars <$> chunk_loop max_chars [] 0 (chars_of text).

Definition hex_upper (n : N) : ascii :=
  if (n <? 10)%N then ascii_of_N (48 + n) else ascii_of_N (55 + n).
Definition is_unreserved (c : ascii) : bool :=
  is_ascii_alphanumeric c || Ascii.eqb c "-" || Ascii.eqb c "_" || Ascii.eqb c "." || Ascii.eqb c "~".
Definition percent_encode_path_segment (value : string) : string :=
  of_chars (mjoin ((λ c, if is_unreserved c then [c]
                         else ["%"%char; hex_upper (N_of_ascii c / 16); hex_upper (N_of_ascii c mod 16)])
                   <$> chars_of value)).

Definition truncate_detail (raw : string) : string :=
  let trimmed := trim raw in
  if chars_count trimmed <=? 512 then trimmed else take_chars 512 trimmed +:+ "...".

(** [str::parse::<i64>] *)
Definition parse_i64 (s : string) : option Z :=
  match chars_of s with
  | [] => None
  | c :: l =>
      if Ascii.eqb c "-" then
        match l with
        | [] => None
        | _ => n ← parse_digits 0 l; if (n <=? 9223372036854775808)%N then Some (- Z.of_N n)%Z else None
        end
      else n ← parse_u64 s; if (n <=? 9223372036854775807)%N then Some (Z.of_N n) else None
  end.
Definition json_i64 (z : Z) : Value := Num (if (z <? 0)%Z then NegInt z else PosInt (Z.to_N z)).
(** [Value::as_i64] *)
Definition as_i64 (v : Value) : option Z :=
  match v with
  | Num (PosInt n) => if (n <=? 9223372036854775807)%N then Some (Z.of_N n) else None
  | Num (NegInt z) => Some z
  | _ => None
  end.

Definition extract_provider_message_id (transport : MultiChannelTransport) (payload : Value)
    : option string :=
  match transport with
  | Telegram =>
      result ← value_get "result" payload; id ← value_get "message_id" result; show_i64 <$> as_i64 id
  | Discord => id ← value_get "id" payload; as_str id
  | Whatsapp =>
      messages ← value_get "messages" payload; items ← as_array messages; first ← head items;
      id ← value_get "id" first; as_str id
  end.

Definition classify_provider_status (status : N) : string * bool :=
  if (status =? 429)%N then ("delivery_rate_limited", true)
  else if (500 <=? status)%N && (status <? 600)%N then ("delivery_provider_unavailable", true)
  else if (400 <=? status)%N && (status <? 500)%N then ("delivery_request_rejected", false)
  else ("delivery_unknown_http_failure", true).

Definition safe_max_chars (transport : MultiChannelTransport) : nat :=
  match transport with
  | Telegram => TELEGRAM_SAFE_MAX_CHARS
  | Discord => DISCORD_SAFE_MAX_CHARS
  | Whatsapp => WHATSAPP_SAFE_MAX_CHARS
  end.

(** ** Requests *)

(** A configured value without surrounding whitespace, if there is one. *)
Definition configured (value : option string) : option string := trimmed_part value.

Section dispatcher.
Context `{!Network, !JsonCodec}.
Implicit Types (c : MultiChannelOutboundConfig) (event : MultiChannelInboundEvent).

Definition compact_request_body (value : Value) : string :=
  let serialized := json_to_string value in
  if chars_count serialized <=? 512 then serialized else take_chars 512 serialized +:+ "...".

(** An error before anything is sent. *)
Definition local_error (reason_code detail : string) (chunk_index chunk_count : nat)
    : MultiChannelOutboundDeliveryError :=
  mkDeliveryError reason_code detail false chunk_index chunk_count "" None None.

(** The token, in a dry run a stand-in. *)
Definition token_or c (value : option string) (stand_in reason_code detail : string)
    (chunk_index chunk_count : nat) : Result MultiChannelOutboundDeliveryError string :=
  match configured value with
  | Some token => Ok token
  | None =>
      if bool_decide (oc_mode c = ModeDryRun) then Ok stand_in
      else Err (local_error reason_code detail chunk_index chunk_count)
  end.
Definition telegram_token c := token_or c (oc_telegram_bot_token c) "dry-run-telegram-token"
  "delivery_missing_telegram_bot_token"
  "Telegram outbound requires TAU_TELEGRAM_BOT_TOKEN or credential-store integration id telegram-bot-token".
Definition DISCORD_TOKEN_DETAIL : string :=
  "Discord outbound requires TAU_DISCORD_BOT_TOKEN or credential-store integration id discord-bot-token".
Definition discord_token c := token_or c (oc_discord_bot_token c) "dry-run-discord-token"
  "delivery_missing_discord_bot_token" DISCORD_TOKEN_DETAIL.
Definition whatsapp_token c := token_or c (oc_whatsapp_access_token c) "dry-run-whatsapp-token"
  "delivery_missing_whatsapp_access_token"
  "WhatsApp outbound requires TAU_WHATSAPP_ACCESS_TOKEN or credential-store integration id whatsapp-access-token".

Definition telegram_endpoint c (token method : string) : string :=
  trim_end_matches slash (oc_telegram_api_base c) +:+ "/bot" +:+ token +:+ "/" +:+ method.
Definition discord_endpoint c event (path : string) : string :=
  trim_end_matches slash (oc_discord_api_base c) +:+ "/channels/" +:+ trim (me_conversation_id event) +:+ path.
Definition bot_header (token : string) : list (string * string) := [("Authorization", "Bot " +:+ token)].

Definition build_reaction_request c event (emoji message_id : string)
    : Result MultiChannelOutboundDeliveryError MultiChannelOutboundRequest :=
  let emoji := trim emoji in
  _ ← bail_if (is_empty emoji) (local_error "reaction_missing_emoji" "reaction emoji must not be empty" 1 1);
  let message_id := trim message_id in
  _ ← bail_if (is_empty message_id)
        (local_error "reaction_invalid_message_id" "reaction target message id must not be empty" 1 1);
  match me_transport event with
  | Telegram =>
      token ← telegram_token c 1 1;
      parsed_message_id ←
        ok_or (local_error "reaction_invalid_message_id"
                 ("telegram reaction target '" +:+ message_id +:+ "' must be a numeric message id") 1 1)
          (parse_i64 message_id);
      Ok (mkOutboundRequest POST Telegram (telegram_endpoint c token "setMessageReaction") []
            (json_obj [("chat_id", Str (trim (me_conversation_id event)));
                       ("message_id", json_i64 parsed_message_id);
                       ("reaction", Arr [json_obj [("type", Str "emoji"); ("emoji", Str emoji)]])]) 1 1)
  | Discord =>
      token ← discord_token c 1 1;
      Ok (mkOutboundRequest PUT Discord
            (discord_endpoint c event ("/messages/" +:+ message_id +:+ "/reactions/" +:+
               percent_encode_path_segment emoji +:+ "/@me"))
            (bot_header token) (json_obj []) 1 1)
  | Whatsapp =>
      Err (local_error "reaction_unsupported_transport"
             "reaction delivery is not supported for whatsapp transport" 1 1)
  end.

Definition build_file_request c event (file_url : string) (caption : option string)
    : Result MultiChannelOutboundDeliveryError MultiChannelOutboundRequest :=
  let file_url := trim file_url in
  _ ← bail_if (is_empty file_url) (local_error "file_delivery_invalid_url" "file url must not be empty" 1 1);
  parsed_file_url ←
    match parse_url file_url with
    | Ok url => Ok url
    | Err error => Err (local_error "file_delivery_invalid_url"
                          ("file url '" +:+ file_url +:+ "' is invalid: " +:+ error) 1 1)
    end;
  _ ← bail_if (negb (String.eqb (url_scheme parsed_file_url) "https"))
        (local_error "file_delivery_invalid_url"
           ("file url '" +:+ file_url +:+ "' must use the https scheme") 1 1);
  match me_transport event with
  | Telegram =>
      token ← telegram_token c 1 1;
      Ok (mkOutboundRequest POST Telegram (telegram_endpoint c token "sendDocument") []
            (obj_insert_opt "caption" (Str <$> configured caption)
               (json_obj [("chat_id", Str (trim (me_conversation_id event)));
                          ("document", Str (url_text parsed_file_url))])) 1 1)
  | Discord =>
      token ← discord_token c 1 1;
      Ok (mkOutboundRequest POST Discord (discord_endpoint c event "/messages") (bot_header token)
            (obj_insert_opt "caption" (Str <$> configured caption)
               (json_obj [("file_url", Str (url_text parsed_file_url))])) 1 1)
  | Whatsapp =>
      Err (local_error "file_delivery_unsupported_transport"
             "file delivery is not supported for whatsapp transport" 1 1)
  end.

Definition build_thread_request c event (thread_name : string)
    : Result MultiChannelOutboundDeliveryError MultiChannelOutboundRequest :=
  let thread_name := trim thread_name in
  _ ← bail_if (is_empty thread_name) (local_error "thread_invalid_name" "thread name must not be empty" 1 1);
  match me_transport event with
  | Discord =>
      token ← discord_token c 1 1;
      Ok (mkOutboundRequest POST Discord
            (discord_endpoint c event ("/messages/" +:+ trim (me_event_id event) +:+ "/threads"))
            (bot_header token) (json_obj [("name", Str thread_name)]) 1 1)
  | t =>
      Err (local_error "thread_unsupported_transport"
             ("thread delivery is not supported for " +:+ transport_as_str t +:+ " transport") 1 1)
  end.

Definition build_typing_indicator_request c event
    : Result MultiChannelOutboundDeliveryError MultiChannelOutboundRequest :=
  match me_transport event with
  | Discord =>
      token ← discord_token c 1 1;
      Ok (mkOutboundRequest POST Discord (discord_endpoint c event "/typing") (bot_header token)
            (json_obj []) 1 1)
  | t =>
      Err (local_error "typing_unsupported_transport"
             ("typing indicator dispatch is not supported for " +:+ transport_as_str t +:+ " transport") 1 1)
  end.

(** The part of an actor id after its last colon. *)
Definition whatsapp_recipient event : string :=
  trim (default "" (last (split_on ":" (trim (me_actor_id event))))).

Definition whatsapp_phone c event (chunk_index chunk_count : nat)
    : Result MultiChannelOutboundDeliveryError string :=
  match configured (oc_whatsapp_phone_number_id c) with
  | Some id => Ok id
  | None =>
      match configured (me_metadata event !! "whatsapp_phone_number_id" ≫= as_str) with
      | Some id => Ok id
      | None =>
          if bool_decide (oc_mode c = ModeDryRun) then Ok "dry-run-phone-number-id"
          else Err (local_error "delivery_missing_whatsapp_phone_number_id"
            "WhatsApp outbound requires TAU_WHATSAPP_PHONE_NUMBER_ID, credential-store integration id whatsapp-phone-number-id, or inbound metadata.whatsapp_phone_number_id"
            chunk_index chunk_count)
      end
  end.

Definition build_request_for_chunk c event (chunk : string) (chunk_index chunk_count : nat)
    : Result MultiChannelOutboundDeliveryError MultiChannelOutboundRequest :=
  match me_transport event with
  | Telegram =>
      token ← telegram_token c chunk_index chunk_count;
      Ok (mkOutboundRequest POST Telegram (telegram_endpoint c token "sendMessage") []
            (json_obj [("chat_id", Str (trim (me_conversation_id event))); ("text", Str chunk);
                       ("disable_web_page_preview", Bool true)]) chunk_index chunk_count)
  | Discord =>
      token ← discord_token c chunk_index chunk_count;
      Ok (mkOutboundRequest POST Discord (discord_endpoint c event "/messages") (bot_header token)
            (json_obj [("content", Str chunk)]) chunk_index chunk_count)
  | Whatsapp =>
      access_token ← whatsapp_token c chunk_index chunk_count;
      phone_number_id ← whatsapp_phone c event chunk_index chunk_count;
      let recipient := whatsapp_recipient event in
      _ ← bail_if (is_empty recipient && negb (bool_decide (oc_mode c = ModeDryRun)))
            (local_error "delivery_missing_whatsapp_recipient"
               "WhatsApp outbound requires a non-empty actor_id" chunk_index chunk_count);
      let recipient := if is_empty recipient then "dry-run-recipient" else recipient in
      Ok (mkOutboundRequest POST Whatsapp
            (trim_end_matches slash (oc_whatsapp_api_base c) +:+ "/" +:+ phone_number_id +:+ "/messages")
            [("Authorization", "Bearer " +:+ access_token)]
            (json_obj [("messaging_product", Str "whatsapp"); ("to", Str recipient); ("type", Str "text");
                       ("text", json_obj [("body", Str chunk)])]) chunk_index chunk_count)
  end.

Fixpoint build_chunk_requests c event (chunks : list string) (chunk_index chunk_count : nat)
    : Result MultiChannelOutboundDeliveryError (list MultiChannelOutboundRequest) :=
  match chunks with
  | [] => Ok []
  | chunk :: chunks =>
      request ← build_request_for_chunk c event chunk chunk_index chunk_count;
      requests ← build_chunk_requests c event chunks (S chunk_index) chunk_count;
      Ok (request :: requests)
  end.

Definition build_requests c event (response_text : string)
    : Result MultiChannelOutboundDeliveryError (list MultiChannelOutboundRequest) :=
  let trimmed := trim response_text in
  if is_empty trimmed then Ok []
  else
    let chunk_max := Nat.max (Nat.min (oc_max_chars c) (safe_max_chars (me_transport event))) 1 in
    let chunks := chunk_text trimmed chunk_max in
    build_chunk_requests c event chunks 1 (length chunks).

(** ** Sending *)

Definition map_ssrf_violation (request : MultiChannelOutboundRequest) (endpoint : string)
    (v : SsrfViolation) : MultiChannelOutboundDeliveryError :=
  mkDeliveryError (sv_reason_code v) (sv_detail v)
    (String.eqb (sv_reason_code v) "delivery_ssrf_dns_resolution_failed") (or_chunk_index request)
    (or_chunk_count request) endpoint (Some (compact_request_body (or_body request))) None.

(** [map_err] of a computation *)
Definition map_err {S E F A} (f : E → F) (m : Eff S E A) : Eff S F A := λ s,
  match m s with (Ok a, s') => (Ok a, s') | (Err e, s') => (Err (f e), s') end.

Definition http (request : HttpRequest) : NetOp HttpAnswer := λ past,
  let answer := http_send past request in (Ok answer, past ++ [Sent request answer]).

Definition send_error (request : MultiChannelOutboundRequest) (endpoint : Url) (reason_code detail : string)
    (retryable : bool) (http_status : option N) : MultiChannelOutboundDeliveryError :=
  mkDeliveryError reason_code detail retryable (or_chunk_index request) (or_chunk_count request)
    (url_text endpoint) (Some (compact_request_body (or_body request))) http_status.

(** The answer that ends the loop. *)
Definition final_answer c (request : MultiChannelOutboundRequest) (endpoint : Url) (status : N)
    (body_raw : string) : Result MultiChannelOutboundDeliveryError MultiChannelOutboundDeliveryReceipt :=
  let body_json := default Null (json_parse body_raw) in
  if (200 <=? status)%N && (status <? 300)%N then
    Ok (mkReceipt (transport_as_str (or_transport request)) (outbound_mode_as_str (oc_mode c)) "sent"
          (or_chunk_index request) (or_chunk_count request) (url_text endpoint) (or_body request) None None
          false (Some status) (extract_provider_message_id (or_transport request) body_json))
  else
    let '(reason_code, retryable) := classify_provider_status status in
    Err (send_error request endpoint reason_code (truncate_detail body_raw) retryable (Some status)).

(** The next endpoint of a redirect. *)
Definition redirect_target (request : MultiChannelOutboundRequest) (endpoint : Url) (status : N)
    (location : option (Result string string)) : Result MultiChannelOutboundDeliveryError Url :=
  match location with
  | None => Err (send_error request endpoint "delivery_redirect_missing_location"
      ("provider returned redirect status " +:+ show_status status +:+ " without Location header") false
      (Some status))
  | Some (Err error) => Err (send_error request endpoint "delivery_redirect_invalid_location"
      ("provider returned invalid Location header: " +:+ error) false (Some status))
  | Some (Ok location) =>
      match url_join endpoint location with
      | Ok next_url => Ok next_url
      | Err error => Err (send_error request endpoint "delivery_redirect_invalid_location"
          ("provider redirect location '" +:+ location +:+ "' could not be resolved against '" +:+
           url_text endpoint +:+ "': " +:+ error) false (Some status))
      end
  end.

Definition ssrf_config c : SsrfProtectionConfig :=
  mkSsrf (oc_ssrf_protection_enabled c) (oc_ssrf_allow_http c) (oc_ssrf_allow_private_network c).

(** The loop of [send_request]; [redirects_left] is [max_redirects] less the count. *)
Fixpoint send_loop c (request : MultiChannelOutboundRequest) (redirects_left : nat) (endpoint : Url)
    : NetOp MultiChannelOutboundDeliveryReceipt :=
  answer ← http (mkHttpRequest (or_method request) (url_text endpoint) (or_headers request)
                   (json_to_string (or_body request)));
  match answer with
  | HttpFailed error =>
      fail (send_error request endpoint "delivery_transport_error" error true None)
  | HttpResponse status location body_raw =>
      if (300 <=? status)%N && (status <? 400)%N then
        match redirects_left with
        | O => fail (send_error request endpoint "delivery_redirect_limit_exceeded"
                 ("redirect count exceeded configured max_redirects=" +:+ show_usize (oc_max_redirects c) +:+
                  " for endpoint '" +:+ url_text endpoint +:+ "'") false (Some status))
        | S redirects_left =>
            next_url ← of_result (redirect_target request endpoint status location);
            _ ← map_err (map_ssrf_violation request (url_text next_url))
                  (validate_url (ssrf_config c) next_url);
            send_loop c request redirects_left next_url
        end
      else of_result (final_answer c request endpoint status body_raw)
  end.

(** The client exists in provider mode only. *)
Definition send_request c (request : MultiChannelOutboundRequest)
    : NetOp MultiChannelOutboundDeliveryReceipt :=
  _ ← fail_if (negb (bool_decide (oc_mode c = ModeProvider)))
        (mkDeliveryError "delivery_provider_client_unavailable"
           "provider mode requested without initialized HTTP client" false (or_chunk_index request)
           (or_chunk_count request) (or_endpoint request) (Some (compact_request_body (or_body request)))
           None);
  endpoint ← map_err (map_ssrf_violation request (or_endpoint request))
               (parse_and_validate_url (ssrf_config c) (or_endpoint request));
  send_loop c request (oc_max_redirects c) endpoint.

Definition empty_delivery c : MultiChannelOutboundDeliveryResult :=
  mkDelivery (outbound_mode_as_str (oc_mode c)) 0 [].

Definition dry_run_receipt c (request : MultiChannelOutboundRequest) : MultiChannelOutboundDeliveryReceipt :=
  mkReceipt (transport_as_str (or_transport request)) (outbound_mode_as_str (oc_mode c)) "dry_run"
    (or_chunk_index request) (or_chunk_count request) (or_endpoint request) (or_body request) None None
    false None None.

(** One request, sent or recorded; nothing in store mode. *)
Definition perform c (request : MultiChannelOutboundRequest)
    : NetOp (list MultiChannelOutboundDeliveryReceipt) :=
  match oc_mode c with
  | ModeDryRun => mret [dry_run_receipt c request]
  | ModeProvider => receipt ← send_request c request; mret [receipt]
  | ModeChannelStore => mret []
  end.

Fixpoint perform_all c (requests : list MultiChannelOutboundRequest)
    : NetOp (list MultiChannelOutboundDeliveryReceipt) :=
  match requests with
  | [] => mret []
  | request :: requests =>
      first ← perform c request;
      rest ← perform_all c requests;
      mret (first ++ rest)
  end.

Definition should_use_discord_progressive_edits c event (response_text : string) : bool :=
  let trimmed := trim response_text in
  bool_decide (oc_mode c = ModeProvider) && bool_decide (me_transport event = Discord)
  && negb (is_empty trimmed) && (chars_count trimmed <=? DISCORD_SAFE_MAX_CHARS).

(** The edits: each sends the text accumulated so far. *)
Fixpoint send_edits c event (token placeholder accumulated : string) (chunks : list string)
    (chunk_index chunk_count : nat) : NetOp (list MultiChannelOutboundDeliveryReceipt) :=
  match chunks with
  | [] => mret []
  | chunk :: chunks =>
      let accumulated := accumulated +:+ chunk in
      receipt ← send_request c
        (mkOutboundRequest PATCH (me_transport event)
           (discord_endpoint c event ("/messages/" +:+ placeholder)) (bot_header token)
           (json_obj [("content", Str accumulated)]) chunk_index chunk_count);
      receipts ← send_edits c event token placeholder accumulated chunks (S chunk_index) chunk_count;
      mret (receipt :: receipts)
  end.

Definition deliver_discord_progressive_edits_provider c event (response_text : string)
    : NetOp MultiChannelOutboundDeliveryResult :=
  let trimmed := trim response_text in
  let chunks := chunk_text trimmed (Nat.max 1 (Nat.min (oc_max_chars c) DISCORD_SAFE_MAX_CHARS)) in
  let chunk_count := length chunks in
  if is_empty trimmed || (chunk_count =? 0) then mret (empty_delivery c)
  else
    token ← of_result (ok_or (local_error "delivery_missing_discord_bot_token" DISCORD_TOKEN_DETAIL 1
                                chunk_count) (configured (oc_discord_bot_token c)));
    let create_request :=
      mkOutboundRequest POST (me_transport event) (discord_endpoint c event "/messages") (bot_header token)
        (json_obj [("content", Str "...")]) 1 chunk_count in
    placeholder_receipt ← send_request c create_request;
    placeholder ← of_result
      (ok_or (mkDeliveryError "delivery_missing_provider_message_id"
                "discord placeholder response did not include a message id" false 1 chunk_count
                (or_endpoint create_request) (Some (compact_request_body (or_body create_request)))
                (dr_http_status placeholder_receipt))
         (configured (dr_provider_message_id placeholder_receipt)));
    receipts ← send_edits c event token placeholder "" chunks 1 chunk_count;
    mret (mkDelivery (outbound_mode_as_str (oc_mode c)) (length receipts) receipts).

Definition deliver c event (response_text : string) : NetOp MultiChannelOutboundDeliveryResult :=
  if bool_decide (oc_mode c = ModeChannelStore) then mret (empty_delivery c)
  else if should_use_discord_progressive_edits c event response_text
  then deliver_discord_progressive_edits_provider c event response_text
  else
    requests ← of_result (build_requests c event response_text);
    receipts ← perform_all c requests;
    mret (mkDelivery (outbound_mode_as_str (oc_mode c)) (length receipts) receipts).

(** A delivery of one request. *)
Definition deliver_one c (request : Result MultiChannelOutboundDeliveryError MultiChannelOutboundRequest)
    : NetOp MultiChannelOutboundDeliveryResult :=
  if bool_decide (oc_mode c = ModeChannelStore) then mret (empty_delivery c)
  else
    request ← of_result request;
    receipts ← perform c request;
    mret (mkDelivery (outbound_mode_as_str (oc_mode c)) 1 receipts).
Definition deliver_reaction c event (emoji message_id : string) :=
  deliver_one c (build_reaction_request c event emoji message_id).
Definition deliver_file c event (file_url : string) (caption : option string) :=
  deliver_one c (build_file_request c event file_url caption).
Definition deliver_thread c event (thread_name : string) :=
  deliver_one c (build_thread_request c event thread_name).
Definition deliver_typing_indicator c event := deliver_one c (build_typing_indicator_request c event).

Definition dispatcher_new c : Result string unit :=
  _ ← bail_if (oc_max_chars c =? 0) "multi-channel outbound max chars must be greater than 0";
  bail_if (bool_decide (oc_mode c = ModeProvider) && (oc_http_timeout_ms c =? 0)%N)
    "multi-channel outbound provider mode requires http timeout > 0".
End dispatcher.
