(* ===== verification/OutboundTheorems.v ===== *)
(** * Properties of outbound delivery

    Chunking loses nothing and respects the limit; every request goes to a
    destination the guard accepted, and redirects are bounded. *)

From Stdlib Require Import ZArith NArith Ascii Lia.
From stdpp Require Import base gmap sets strings list.
From S2P Require Import Prelude RustStr Json Effects SsrfGuard MultiChannelPolicy MultiChannelCommands MultiChannelOutbound.

#[local] Open Scope string_scope.
#[local] Open Scope list_scope.
#[local] Open Scope nat_scope.

(** ** Chunks *)

Definition starts (l : list ascii) : nat := length (List.filter is_char_start l).

Lemma starts_app l k : starts (l ++ k) = starts l + starts k.
Proof. unfold starts. by rewrite List.filter_app, length_app. Qed.

Lemma starts_reverse l : starts (reverse l) = starts l.
Proof.
  induction l as [|c l IH]; [done|]. rewrite reverse_cons, starts_app, IH. unfold starts. cbn.
  destruct (is_char_start c); cbn; lia.
Qed.

(** The chunks of a loop in progress: the first one continues [current]. *)
Lemma chunk_loop_spec max current l :
  0 < max → starts current ≤ max →
  let chunks := chunk_loop max current (starts current) l in
  mjoin chunks = reverse current ++ l ∧
  (∀ i chunk, chunks !! i = Some chunk →
     chunk ≠ [] ∧ starts chunk ≤ max ∧ (S i < length chunks → starts chunk = max)).
Proof.
  intros Hmax. revert current. induction l as [|c l IH]; intros current Hle; cbn [chunk_loop].
  { destruct current as [|x current]; [by split; [|intros [|i] chunk]|].
    split; [by cbn; rewrite !app_nil_r|]. intros [|i] chunk; [|by destruct i].
    intros [= <-]. rewrite starts_reverse. split_and!; [|done|cbn [length]; lia].
    rewrite reverse_cons. by destruct (reverse current). }
  destruct (is_char_start c) eqn:Hc.
  - destruct (Nat.leb_spec max (starts current)) as [Hfull|Hroom].
    + assert (starts [c] = 1) as H1 by (unfold starts; cbn; by rewrite Hc).
      destruct (IH [c]) as [Hj Hall]; [lia|]. rewrite H1 in Hj, Hall.
      split.
      * change (reverse current ++ mjoin (chunk_loop max [c] 1 l) = reverse current ++ c :: l).
        by rewrite Hj.
      * intros [|i] chunk Hl; cbn [length];
          [|apply Hall in Hl as (? & ? & Hlt); split_and!; [done|done|intros; apply Hlt; lia]].
        injection Hl as <-. rewrite starts_reverse. split_and!; [|done|lia].
        intros Hnil. apply (f_equal length) in Hnil. rewrite length_reverse in Hnil.
        destruct current; [unfold starts in Hfull; cbn in *; lia|done].
    + assert (starts (c :: current) = S (starts current)) as H1 by (unfold starts; cbn; by rewrite Hc).
      destruct (IH (c :: current)) as [Hj Hall]; [lia|]. rewrite H1 in Hj, Hall. split; [|done].
      rewrite Hj, reverse_cons, <- app_assoc. done.
  - assert (starts (c :: current) = starts current) as H1 by (unfold starts; cbn; by rewrite Hc).
    destruct (IH (c :: current)) as [Hj Hall]; [lia|]. rewrite H1 in Hj, Hall. split; [|done].
    rewrite Hj, reverse_cons, <- app_assoc. done.
Qed.

(** Strings joined end to end. *)
Definition concat_strings (l : list string) : list ascii := mjoin (chars_of <$> l).

(** Cutting a text into chunks loses and repeats nothing: the chunks are not
    empty, joined they are the text, none has more than [max] characters, and all
    but the last have exactly [max]. *)
Theorem chunk_text_exact text max :
  0 < max →
  let chunks := chunk_text text max in
  concat_strings chunks = chars_of text ∧
  (∀ i chunk, chunks !! i = Some chunk →
     chunk ≠ "" ∧ chars_count chunk ≤ max ∧ (S i < length chunks → chars_count chunk = max)).
Proof.
  intros Hmax chunks. subst chunks. unfold chunk_text. rewrite (proj2 (Nat.eqb_neq max 0)) by lia.
  rewrite orb_false_r. unfold is_empty. destruct (String.eqb_spec text "") as [->|Hne]; [done|].
  destruct (chunk_loop_spec max [] (chars_of text)) as [Hj Hall]; [done|cbn; lia|].
  change (starts []) with 0 in *. split.
  - unfold concat_strings. rewrite <- list_fmap_compose.
    rewrite (list_fmap_ext _ id) by (intros; apply chars_of_of_chars). rewrite list_fmap_id. exact Hj.
  - intros i chunk Hi. apply list_lookup_fmap_Some in Hi as (x & -> & Hx).
    rewrite length_fmap. unfold chars_count. rewrite chars_of_of_chars.
    destruct (Hall i x Hx) as (Hn & Hle & Hlt). split_and!; [|done|done].
    intros Heq. apply Hn. apply (f_equal chars_of) in Heq. by rewrite chars_of_of_chars in Heq.
Qed.
Lemma chunk_text_exact_witness :
  0 < 3 ∧ chunk_text "abcdefgh" 3 = ["abc"; "def"; "gh"] ∧
  concat_strings (chunk_text "abcdefgh" 3) = chars_of "abcdefgh".
Proof.
  split; [lia|]. split; [vm_compute; reflexivity|]. apply (chunk_text_exact "abcdefgh" 3). lia.
Defined.

(** ** Destinations *)

(** One step of a computation: the result of its first part. *)
#[local] Ltac run := rewrite eff_bind_unfold; cbn [of_result fst snd].

Section destinations.
Context `{!Network, !JsonCodec}.

(** An address a request may go to. *)
Definition address_allowed (config : SsrfProtectionConfig) (ip : IpAddr) : Prop :=
  is_metadata_ip ip = false ∧ is_unspecified ip = false ∧ is_multicast ip = false ∧
  (sf_allow_private_network config = false → is_private_network_ip ip = false).

Lemma validate_ip_allowed config ip u :
  validate_ip ip (sf_allow_private_network config) = Ok u → address_allowed config ip.
Proof.
  unfold validate_ip, violation, address_allowed.
  destruct (is_metadata_ip ip), (is_unspecified ip), (is_multicast ip); try done.
  by destruct (sf_allow_private_network config), (is_private_network_ip ip).
Qed.

Lemma validate_ips_allowed config ips u :
  validate_ips ips (sf_allow_private_network config) = Ok u → Forall (address_allowed config) ips.
Proof.
  induction ips as [|ip ips IH]; intros Hv; [constructor|]. cbn in Hv.
  destruct (validate_ip ip _) as [v|e] eqn:Hip; [|done].
  constructor; [by eapply validate_ip_allowed|by apply IH].
Qed.

(** What the guard establishes of a URL, given what happened before: a permitted
    scheme, no metadata or localhost name, and an address that is allowed, written
    out or looked up. *)
Definition acceptable (config : SsrfProtectionConfig) (past : list NetEvent) (url : Url) : Prop :=
  sf_enabled config = true →
  (url_scheme url = "https" ∨ url_scheme url = "http" ∧ sf_allow_http config = true) ∧
  ∃ host, normalized_host url = Ok host ∧ is_metadata_hostname host = false ∧
    (sf_allow_private_network config = false → is_localhost_hostname host = false) ∧
    ((∃ ip, parse_ip host = Some ip ∧ address_allowed config ip) ∨
     (∃ port ips, url_port_or_known_default url = Some port ∧ ips ≠ [] ∧
        Looked (host +:+ ":" +:+ show_u64 port) (Ok ips) ∈ past ∧ Forall (address_allowed config) ips)).

Definition permitted config (past : list NetEvent) (request : HttpRequest) : Prop :=
  ∃ url, url_text url = hr_url request ∧ acceptable config past url.

(** From [past] to [past']: events were added, each request permitted by what
    happened before it. *)
Definition screened config (past past' : list NetEvent) : Prop :=
  ∃ added, past' = past ++ added ∧
    ∀ before request answer after, added = before ++ Sent request answer :: after →
      permitted config (past ++ before) request.

#[global] Instance screened_preorder config : PreOrder (screened config).
Proof.
  split.
  - intros past. exists []. split; [by rewrite app_nil_r|]. by intros [].
  - intros p1 ? ? (a & -> & Ha) (b & -> & Hb). exists (a ++ b). split; [by rewrite app_assoc|].
    intros before request answer after Heq. symmetry in Heq.
    apply app_eq_app in Heq as (l & [[-> Hl]|[-> Hl]]).
    + rewrite app_assoc. by eapply Hb.
    + destruct l as [|x l]; cbn in Hl.
      * rewrite app_nil_r in Hb. specialize (Hb [] request answer after (eq_sym Hl)).
        by rewrite app_nil_r in Hb.
      * injection Hl as <- ->. by eapply Ha.
Qed.

Lemma lookup_screened config target past : screened config past (lookup target past).2.
Proof.
  eexists. split; [done|]. intros [|? [|]] ? ? ? Heq; simplify_eq.
Qed.
Lemma validate_scheme_ok url allow_http u :
  validate_scheme url allow_http = Ok u →
  url_scheme url = "https" ∨ url_scheme url = "http" ∧ allow_http = true.
Proof.
  unfold validate_scheme, violation. destruct (String.eqb_spec (url_scheme url) "https"); [by left|].
  destruct (String.eqb_spec (url_scheme url) "http"), allow_http; by auto.
Qed.

(** Checking a URL sends nothing, and what it accepts is acceptable. *)
Lemma validate_url_spec config url past :
  screened config past (validate_url config url past).2 ∧
  ((validate_url config url past).1 = Ok tt → acceptable config (validate_url config url past).2 url).
Proof.
  unfold validate_url. destruct (sf_enabled config) eqn:He; cbn [negb];
    [|by split; [reflexivity|intros _ He'; congruence]].
  run.
  destruct (validate_scheme url _) as [u|e] eqn:Hs; [|by split; [reflexivity|]].
  run.
  destruct (normalized_host url) as [host|e] eqn:Hh; [|by split; [reflexivity|]].
  run.
  destruct (is_metadata_hostname host) eqn:Hm; [by split; [reflexivity|]|].
  run.
  destruct (is_localhost_hostname host && _) eqn:Hl; [by split; [reflexivity|]|].
  assert (sf_allow_private_network config = false → is_localhost_hostname host = false) as Hl'
    by (intros Hp; rewrite Hp, andb_true_r in Hl; done).
  apply validate_scheme_ok in Hs.
  destruct (parse_ip host) as [ip|] eqn:Hip.
  { split; [reflexivity|]. intros Hv%validate_ip_allowed _. split; [done|]. exists host.
    split_and!; eauto. }
  run.
  destruct (url_port_or_known_default url) as [port|] eqn:Hport; [|by split; [reflexivity|]].
  cbn [ok_or]. rewrite eff_bind_unfold. split; [apply lookup_screened|]. unfold lookup, of_result; cbn [fst snd].
  destruct (lookup_host past _) as [ips|e] eqn:Hlook; [|done].
  destruct (validate_ips ips _) as [v|e] eqn:Hv; [|done].
  apply validate_ips_allowed in Hv. intros Hips _. split; [done|]. exists host. split_and!; [done..|].
  right. exists port, ips. split_and!; [done|by destruct ips| |done].
  apply elem_of_app. right. by apply list_elem_of_singleton.
Qed.

Lemma map_err_snd {S E F A} (f : E → F) (m : Eff S E A) s : (map_err f m s).2 = (m s).2.
Proof. unfold map_err. by destruct (m s) as [[]]. Qed.

Lemma sent_screened config endpoint past request answer :
  url_text endpoint = hr_url request → acceptable config past endpoint →
  screened config past (past ++ [Sent request answer]).
Proof.
  intros Hurl Hok. eexists. split; [done|]. intros [|x [|]] ? ? ? Heq; try done.
  injection Heq as <- <- <-. exists endpoint. by rewrite app_nil_r.
Qed.

Lemma send_loop_screened c request left endpoint past :
  acceptable (ssrf_config c) past endpoint →
  screened (ssrf_config c) past (send_loop c request left endpoint past).2.
Proof.
  revert endpoint past. induction left as [|left IH]; intros endpoint past Hok; cbn [send_loop];
    rewrite eff_bind_unfold; cbn [http];
    set (sent := mkHttpRequest _ _ _ _); set (answer := http_send past sent).
  all: pose proof (sent_screened (ssrf_config c) endpoint past sent answer eq_refl Hok) as Hsent.
  all: destruct answer as [error|status location body]; [done|].
  all: destruct (_ && _)%bool; [|done].
  1: done.
  rewrite eff_bind_unfold. cbn [of_result]. destruct (redirect_target _ _ _ _) as [next|e]; [|done].
  rewrite eff_bind_unfold. etrans; [exact Hsent|].
  destruct (validate_url_spec (ssrf_config c) next (past ++ [Sent sent (HttpResponse status location body)]))
    as [Hscreen Hacc].
  unfold map_err. destruct (validate_url _ _ _) as [[[]|e] past'] eqn:Hv; cbn in *; [|done].
  etrans; [exact Hscreen|]. apply IH, Hacc. done.
Qed.

Lemma send_request_screened c request past :
  screened (ssrf_config c) past (send_request c request past).2.
Proof.
  unfold send_request. rewrite eff_bind_unfold. unfold fail_if, of_result.
  destruct (bail_if _ _); [|reflexivity]. rewrite eff_bind_unfold.
  unfold parse_and_validate_url, map_err. rewrite eff_bind_unfold. unfold of_result.
  destruct (parse_url _) as [url|e]; [|reflexivity]. rewrite eff_bind_unfold.
  destruct (validate_url_spec (ssrf_config c) url past) as [Hscreen Hacc].
  destruct (validate_url _ _ _) as [[[]|e] past'] eqn:Hv; cbn in *; [|done].
  etrans; [exact Hscreen|]. apply send_loop_screened, Hacc. done.
Qed.
End destinations.

Create HintDb outbound.

(** ** Deliveries *)

Section deliveries.
Context `{!Network, !JsonCodec}.
Implicit Types (c : MultiChannelOutboundConfig) (event : MultiChannelInboundEvent).

Abbreviation screens c m := (moves (screened (ssrf_config c)) m).

Lemma send_request_screens c request : screens c (send_request c request).
Proof. intros past. apply send_request_screened. Qed.
#[local] Hint Resolve send_request_screens : outbound.

(** Composed computations screen when their parts do. *)
#[local] Ltac screen_parts :=
  repeat first
    [ solve [auto with outbound]
    | apply moves_ret; apply _ | apply moves_of_result; apply _
    | apply moves_bind; [apply _| |intros ?] ].

Lemma perform_screens c request : screens c (perform c request).
Proof.
  unfold perform. destruct (oc_mode c); screen_parts.
Qed.
#[local] Hint Resolve perform_screens : outbound.

Lemma perform_all_screens c requests : screens c (perform_all c requests).
Proof.
  induction requests as [|request requests IH]; cbn; screen_parts;
    apply IH.
Qed.
#[local] Hint Resolve perform_all_screens : outbound.

Lemma send_edits_screens c event token placeholder accumulated chunks i n :
  screens c (send_edits c event token placeholder accumulated chunks i n).
Proof.
  revert accumulated i. induction chunks as [|chunk chunks IH]; intros accumulated i; cbn; screen_parts;
    apply IH.
Qed.
#[local] Hint Resolve send_edits_screens : outbound.

Lemma progressive_screens c event text :
  screens c (deliver_discord_progressive_edits_provider c event text).
Proof.
  unfold deliver_discord_progressive_edits_provider. destruct (_ || _); screen_parts.
Qed.
#[local] Hint Resolve progressive_screens : outbound.

Lemma deliver_screens c event text : screens c (deliver c event text).
Proof.
  unfold deliver. destruct (bool_decide _); [screen_parts|].
  destruct (should_use_discord_progressive_edits _ _ _); [apply progressive_screens|].
  screen_parts.
Qed.

Lemma deliver_one_screens c request : screens c (deliver_one c request).
Proof.
  unfold deliver_one. destruct (bool_decide _); screen_parts.
Qed.

(** ** Redirects are bounded *)

Definition sends (events : list NetEvent) : nat :=
  length (List.filter (λ e, match e with Sent _ _ => true | Looked _ _ => false end) events).

Lemma sends_app a b : sends (a ++ b) = sends a + sends b.
Proof. unfold sends. by rewrite List.filter_app, length_app. Qed.

Definition same_sends : relation (list NetEvent) := λ past past', sends past' = sends past.
#[local] Instance same_sends_preorder : PreOrder same_sends.
Proof. unfold same_sends. split; [by intros ?|by intros ? ? ? -> ->]. Qed.

Lemma validate_url_sends config url : moves same_sends (validate_url config url).
Proof.
  unfold validate_url. destruct (negb _); [apply moves_ret; apply _|].
  repeat (apply moves_bind; [apply _|apply moves_of_result; apply _|intros ?]).
  destruct (parse_ip _); [apply moves_of_result; apply _|].
  apply moves_bind; [apply _|apply moves_of_result; apply _|intros port].
  apply moves_bind; [apply _| |intros ?; apply moves_of_result; apply _].
  intros past. unfold same_sends. cbn [lookup snd]. rewrite sends_app. cbn. lia.
Qed.

Lemma send_loop_bounded c request left endpoint past :
  sends (send_loop c request left endpoint past).2 ≤ sends past + S left.
Proof.
  revert endpoint past. induction left as [|left IH]; intros endpoint past; cbn [send_loop];
    rewrite eff_bind_unfold; cbn [http];
    set (sent := mkHttpRequest _ _ _ _); destruct (http_send past sent) as [error|status location body].
  all: set (past' := past ++ _).
  all: assert (sends past' = S (sends past)) as Hp by (unfold past'; rewrite sends_app; cbn; lia).
  1, 3: cbn [fail snd]; lia.
  all: destruct (_ && _)%bool; [|cbn [of_result fail snd]; lia].
  1: cbn [fail snd]; lia.
  rewrite eff_bind_unfold. cbn [of_result]. destruct (redirect_target _ _ _ _) as [next|e]; [|cbn [of_result fail snd]; lia].
  rewrite eff_bind_unfold. pose proof (validate_url_sends (ssrf_config c) next past') as Hv.
  unfold map_err. destruct (validate_url _ _ past') as [[[]|e] past2]; unfold same_sends in Hv; cbn [snd] in *; [|lia].
  specialize (IH next past2). lia.
Qed.

(** One request is sent once and then at most once for each permitted redirect. *)
Lemma send_request_bounded c request past :
  sends (send_request c request past).2 ≤ sends past + S (oc_max_redirects c).
Proof.
  unfold send_request. rewrite eff_bind_unfold. unfold fail_if, of_result.
  destruct (bail_if _ _); [|cbn [of_result fail snd]; lia]. rewrite eff_bind_unfold.
  unfold parse_and_validate_url, map_err. rewrite eff_bind_unfold. unfold of_result.
  destruct (parse_url _) as [url|e]; [|cbn [violation snd]; lia]. rewrite eff_bind_unfold.
  pose proof (validate_url_sends (ssrf_config c) url past) as Hv.
  destruct (validate_url _ _ past) as [[[]|e] past2]; unfold same_sends in Hv; cbn [snd mret eff_ret] in *; [|lia].
  pose proof (send_loop_bounded c request (oc_max_redirects c) url past2). lia.
Qed.
End deliveries.

(** ** What the checks leave open *)

(** An IPv4 loopback or metadata address in its IPv4-mapped IPv6 form passes. *)
Lemma mapped_addresses_pass `{!Network} :
  validate_ip (V6 [0; 0; 0; 0; 0; 0xffff; 0x7f00; 1]%N) false = Ok tt ∧
  validate_ip (V6 [0; 0; 0; 0; 0; 0xffff; 0xa9fe; 0xa9fe]%N) false = Ok tt.
Proof. by vm_compute. Qed.

(** A network in which the provider redirects to another host. *)
#[local] Instance redirecting_network : Network :=
  {| parse_url s := Ok (mkUrl s "https" (Some "discord.com") (Some 443%N));
     url_join _ location := Ok (mkUrl location "https" (Some "other.example") (Some 443%N));
     parse_ip _ := None; show_ip _ := ""; show_status _ := "";
     lookup_host _ _ := Ok [V4 93 184 216 34];
     http_send _ request :=
       if String.eqb (hr_url request) "https://other.example/" then HttpResponse 200 None "{}"
       else HttpResponse 302 (Some (Ok "https://other.example/")) "" |}.
#[local] Instance text_json : JsonCodec :=
  {| json_parse _ := None; json_to_string _ := "{}"; json_to_string_pretty _ := "{}" |}.

Definition provider_config : MultiChannelOutboundConfig :=
  mkOutboundConfig ModeProvider 1200 5000 true false false 5 "https://api.telegram.org"
    "https://discord.com/api/v10" "https://graph.facebook.com/v20.0" None (Some "secret") None None.

(** The request that follows a redirect carries the bot token to the other host. *)
Lemma redirect_forwards_token event :
  me_transport event = Discord →
  ∃ answer, last (deliver_typing_indicator provider_config event []).2 =
    Some (Sent (mkHttpRequest POST "https://other.example/" [("Authorization", "Bot secret")] "{}") answer).
Proof.
  intros Ht. unfold deliver_typing_indicator, build_typing_indicator_request. rewrite Ht.
  eexists. vm_compute. reflexivity.
Qed.
