(* ===== verification/MultiChannelAccess.v ===== *)
(** * Who may talk to the agent, and which messages belong together
      ([tau-multi-channel], [multi_channel_runtime.rs])

    The access decision of an inbound event (channel policy, signed envelope,
    allowlist and pairing) and the coalescing of events of one actor into one. *)

From Stdlib Require Import NArith Ascii Lia.
From stdpp Require Import base gmap sets strings list.
From S2P Require Import Prelude RustStr Json AtomicIo TrustRoots Pairing SignedEnvelope StateDirs MultiChannelPolicy.

#[local] Open Scope string_scope.
#[local] Open Scope list_scope.
#[local] Open Scope nat_scope.

Inductive MultiChannelPairingDecision :=
| ChannelAllow (reason_code : string)
| ChannelDeny (reason_code : string).

Definition pairing_decision_reason_code (d : MultiChannelPairingDecision) : string :=
  match d with ChannelAllow r | ChannelDeny r => r end.

(** The trait [MultiChannelPairingEvaluator]: state directory, channel, actor, time. *)
Class PairingEvaluator :=
  { evaluate_pairing : TextFs → string → string → string → N → Result string MultiChannelPairingDecision }.

Record MultiChannelSecureMessagingDecision := mkSecureDecision
  { sd_mode : MultiChannelSecureMessagingMode; sd_status : string; sd_reason_code : string;
    sd_key_id : option string; sd_nonce : option string; sd_checked : bool; sd_required : bool;
    sd_legacy_fallback : bool }.

Record MultiChannelAccessDecision := mkAccess
  { ad_policy_channel : string; ad_channel_policy : MultiChannelPolicyEvaluation;
    ad_secure_messaging : MultiChannelSecureMessagingDecision;
    ad_pairing_decision : MultiChannelPairingDecision;
    ad_final_decision : MultiChannelPairingDecision;
    ad_pairing_checked : bool; ad_policy_enforced : bool }.

Definition PAIRING_REASON_ALLOW_PERMISSIVE_MODE : string := "allow_permissive_mode".
Definition PAIRING_REASON_DENY_POLICY_EVALUATION_ERROR : string := "deny_policy_evaluation_error".
Definition SECURE_REASON_DISABLED : string := "secure_messaging_disabled".
Definition SECURE_REASON_SKIPPED_POLICY_DENY : string := "secure_messaging_skipped_channel_policy_deny".
Definition SECURE_REASON_DENY_MISSING_REQUIRED : string := "deny_signed_envelope_missing".
Definition POLICY_REASON_DENY_CHANNEL_POLICY_LOAD_ERROR : string := "deny_channel_policy_load_error".
Definition POLICY_REASON_DENY_ALLOWLIST_ONLY : string := "deny_channel_policy_allow_from_allowlist_only".

Definition pairing_policy_channel (event : MultiChannelInboundEvent) : string :=
  transport_as_str (me_transport event) +:+ ":" +:+ trim (me_conversation_id event).

Definition pairing_decision_status (d : MultiChannelPairingDecision) : string :=
  match d with ChannelAllow _ => "allow" | ChannelDeny _ => "deny" end.

Definition pairing_decision_is_enforced (d : MultiChannelPairingDecision) : bool :=
  negb (String.eqb (pairing_decision_reason_code d) PAIRING_REASON_ALLOW_PERMISSIVE_MODE).

Definition allowlisted_reason (reason : string) : bool :=
  String.eqb reason "allow_allowlist" || String.eqb reason "allow_allowlist_and_pairing".

Definition multi_channel_command_operator_allowed (access : MultiChannelAccessDecision) : bool :=
  allowlisted_reason (pairing_decision_reason_code (ad_final_decision access)).

(** The evaluation of a policy that could not be loaded. *)
Definition policy_load_error (event : MultiChannelInboundEvent) : MultiChannelPolicyEvaluation :=
  let fallback := evaluate_multi_channel_channel_policy policy_file_default event in
  mkPolicyEvaluation (pe_policy_channel fallback) "policy_load_error" (pe_policy fallback)
    (pe_conversation_kind fallback) (pe_mention_present fallback)
    (PolicyDeny POLICY_REASON_DENY_CHANNEL_POLICY_LOAD_ERROR).

Definition secure_mode_of (policy_file : option MultiChannelPolicyFile) : MultiChannelSecureMessagingPolicy :=
  match policy_file with Some policy => pf_secure_messaging policy | None => secure_policy_default end.

Definition secure_required (mode : MultiChannelSecureMessagingMode) : bool :=
  bool_decide (mode = SecureRequired).

Section access.
Context `{!EnvelopeCodec Value} `{!EnvelopeCrypto} `{!TrustRootCodec} `{!PairingEvaluator}.
Implicit Types (fs : TextFs) (event : MultiChannelInboundEvent).

Definition evaluate_secure_messaging_decision fs (state_dir : string) event (policy_channel : string)
    (now_unix_ms : N) (policy_file : option MultiChannelPolicyFile)
    : TextFs * MultiChannelSecureMessagingDecision :=
  let policy := secure_mode_of policy_file in
  let mode := sp_mode policy in
  if bool_decide (mode = SecureDisabled) then
    (fs, mkSecureDecision mode "disabled" SECURE_REASON_DISABLED None None false false false)
  else
    let base := signed_envelope_policy_for_state_dir state_dir in
    let config := mkEnvelopeConfig (ep_trust_root_path base) (ep_replay_guard_path base)
                    (sp_timestamp_skew_seconds policy) (sp_replay_window_seconds policy) in
    let '(fs, decision) :=
      evaluate_signed_envelope_access fs config
        (mkEnvelopeContext policy_channel (me_actor_id event) (me_event_id event)
           (me_timestamp_ms event) (me_text event) (me_metadata event) now_unix_ms) in
    (fs,
     match decision with
     | EnvelopeAllow reason_code key_id nonce =>
         mkSecureDecision mode "allow" reason_code (Some key_id) (Some nonce) true
           (secure_required mode) false
     | EnvelopeMissing reason_code =>
         if secure_required mode
         then mkSecureDecision mode "deny" SECURE_REASON_DENY_MISSING_REQUIRED None None true true false
         else mkSecureDecision mode "missing" reason_code None None true false true
     | EnvelopeDeny reason_code =>
         mkSecureDecision mode "deny" reason_code None None true (secure_required mode) false
     end).

Definition evaluate_pairing_decision fs (state_dir : string) event (policy_channel : string)
    (now_unix_ms : N) : MultiChannelPairingDecision :=
  match evaluate_pairing fs state_dir policy_channel (me_actor_id event) now_unix_ms with
  | Ok decision => decision
  | Err _ => ChannelDeny PAIRING_REASON_DENY_POLICY_EVALUATION_ERROR
  end.

(** The allowlist alone counts. *)
Definition allowlist_only (decision : MultiChannelPairingDecision) : MultiChannelPairingDecision :=
  match decision with
  | ChannelAllow reason_code =>
      if allowlisted_reason reason_code then ChannelAllow reason_code
      else ChannelDeny POLICY_REASON_DENY_ALLOWLIST_ONLY
  | ChannelDeny reason_code => ChannelDeny reason_code
  end.

(** The decision for an event the channel policy and the envelope let pass. *)
Definition allow_from_decision fs (state_dir : string) event (policy_channel : string) (now_unix_ms : N)
    (channel_policy : MultiChannelPolicyEvaluation) (secure : MultiChannelSecureMessagingDecision)
    (reason_code : string) : MultiChannelAccessDecision :=
  match cp_allow_from (pe_policy channel_policy) with
  | AllowAny =>
      mkAccess policy_channel channel_policy secure (ChannelAllow reason_code) (ChannelAllow reason_code)
        false (cp_require_mention (pe_policy channel_policy))
  | AllowlistOrPairing =>
      let pairing := evaluate_pairing_decision fs state_dir event policy_channel now_unix_ms in
      mkAccess policy_channel channel_policy secure pairing pairing true
        (cp_require_mention (pe_policy channel_policy) || pairing_decision_is_enforced pairing)
  | AllowlistOnly =>
      let pairing := evaluate_pairing_decision fs state_dir event policy_channel now_unix_ms in
      mkAccess policy_channel channel_policy secure pairing (allowlist_only pairing) true true
  end.

Definition evaluate_access_decision fs (state_dir : string) event (now_unix_ms : N)
    (policy_file : option MultiChannelPolicyFile) : TextFs * MultiChannelAccessDecision :=
  let policy_channel := pairing_policy_channel event in
  let channel_policy :=
    match policy_file with
    | Some file => evaluate_multi_channel_channel_policy file event
    | None => policy_load_error event
    end in
  match pe_decision channel_policy with
  | PolicyDeny reason_code =>
      (** [unwrap_or_default] of the mode *)
      let mode := match policy_file with
                  | Some file => sp_mode (pf_secure_messaging file)
                  | None => SecurePreferred
                  end in
      (fs, mkAccess policy_channel channel_policy
             (mkSecureDecision mode "skipped" SECURE_REASON_SKIPPED_POLICY_DENY None None false
                (secure_required mode) false)
             (ChannelDeny reason_code) (ChannelDeny reason_code) false true)
  | PolicyAllow reason_code =>
      let '(fs, secure) :=
        evaluate_secure_messaging_decision fs state_dir event policy_channel now_unix_ms policy_file in
      if String.eqb (sd_status secure) "deny" then
        (fs, mkAccess policy_channel channel_policy secure (ChannelDeny (sd_reason_code secure))
               (ChannelDeny (sd_reason_code secure)) false true)
      else if String.eqb (sd_status secure) "allow" then
        (fs, mkAccess policy_channel channel_policy secure (ChannelAllow (sd_reason_code secure))
               (ChannelAllow (sd_reason_code secure)) false true)
      else
        (fs, allow_from_decision fs state_dir event policy_channel now_unix_ms channel_policy secure
               reason_code)
  end.
End access.

(** ** The evaluator the program installs ([tau-startup],
       [startup_multi_channel_adapters.rs]) *)

Definition pairing_adapter `{!TrustRootCodec, !PairingCodec} (fs : TextFs)
    (state_dir policy_channel actor_id : string) (now_unix_ms : N)
    : Result string MultiChannelPairingDecision :=
  match evaluate_pairing_access fs (pairing_policy_for_state_dir state_dir) policy_channel actor_id
          now_unix_ms with
  | Ok (PairingAllow reason_code) => Ok (ChannelAllow reason_code)
  | Ok (PairingDeny reason_code) => Ok (ChannelDeny reason_code)
  | Err _ => Err "failed to evaluate pairing access"
  end.
