(* ===== verification/MultiChannelEvents.v ===== *)
(** * Events of the multi-channel runtime ([tau-multi-channel],
      [multi_channel_runtime.rs] with [ingress.rs], [outbound.rs], [routing.rs])

    Coalescing of inbound events, the processed keys, texts and payloads of log
    records, retry delays, and the summary of a cycle. *)

From Stdlib Require Import ZArith NArith Ascii Lia.
From Stdlib.Floats Require Import SpecFloat.
From stdpp Require Import base gmap sets strings list.
From S2P Require Import Prelude RustStr Json Effects AtomicIo StateDirs ChannelStore LogRotation MultiChannelPolicy MultiChannelRouting MultiChannelMedia MultiChannelCommands.

#[local] Open Scope string_scope.
#[local] Open Scope list_scope.
#[local] Open Scope nat_scope.

Implicit Types event : MultiChannelInboundEvent.

(** ** Coalescing *)

Record CoalescedInboundEvent := mkCoalesced
  { co_event : MultiChannelInboundEvent; co_source_event_keys : list string;
    co_source_event_ids : list string }.

Definition should_coalesce_events (previous current : MultiChannelInboundEvent)
    (coalescing_window_ms : N) : bool :=
  negb (coalescing_window_ms =? 0)%N
  && bool_decide (me_transport previous = me_transport current)
  && String.eqb (trim (me_conversation_id previous)) (trim (me_conversation_id current))
  && String.eqb (trim (me_actor_id previous)) (trim (me_actor_id current))
  && negb (me_timestamp_ms current <? me_timestamp_ms previous)%N
  && (saturating_sub_u64 (me_timestamp_ms current) (me_timestamp_ms previous)
      <=? coalescing_window_ms)%N.

Definition set_metadata (metadata : gmap string Value) event : MultiChannelInboundEvent :=
  mkEvent (me_schema_version event) (me_transport event) (me_event_kind event) (me_event_id event)
    (me_conversation_id event) (me_thread_id event) (me_actor_id event) (me_actor_display event)
    (me_timestamp_ms event) (me_text event) (me_attachments event) metadata.

Definition annotate_coalesced_event_metadata (batch : CoalescedInboundEvent) (coalescing_window_ms : N)
    : CoalescedInboundEvent :=
  let count := length (co_source_event_ids batch) in
  let metadata := me_metadata (co_event batch) in
  let metadata :=
    if count <=? 1 then
      delete "coalesced_source_event_ids"
        (delete "coalescing_window_ms" (delete "coalesced_batch_size" metadata))
    else
      <["telemetry_force_typing_presence" := Bool true]>
      (<["coalesced_source_event_ids" := Arr (Str <$> co_source_event_ids batch)]>
       (<["coalescing_window_ms" := Num (PosInt coalescing_window_ms)]>
        (<["coalesced_batch_size" := json_usize count]> metadata))) in
  mkCoalesced (set_metadata metadata (co_event batch)) (co_source_event_keys batch)
    (co_source_event_ids batch).

(** The event of a batch with a further source event added. *)
Definition merge_event (last source : MultiChannelInboundEvent) : MultiChannelInboundEvent :=
  let text :=
    if is_empty (trim (me_text source)) then me_text last
    else (if is_empty (me_text last) then "" else me_text last +:+ newline) +:+ me_text source in
  mkEvent (me_schema_version last) (me_transport last) (me_event_kind last) (me_event_id last)
    (me_conversation_id last) (me_thread_id last) (me_actor_id last) (me_actor_display last)
    (me_timestamp_ms source) text (me_attachments last ++ me_attachments source) (me_metadata last).

Definition new_batch (source : MultiChannelInboundEvent) (window : N) : CoalescedInboundEvent :=
  annotate_coalesced_event_metadata
    (mkCoalesced source [event_contract_key source] [trim (me_event_id source)]) window.

Definition extend_batch (last : CoalescedInboundEvent) (source : MultiChannelInboundEvent) (window : N)
    : CoalescedInboundEvent :=
  annotate_coalesced_event_metadata
    (mkCoalesced (merge_event (co_event last) source)
       (co_source_event_keys last ++ [event_contract_key source])
       (co_source_event_ids last ++ [trim (me_event_id source)])) window.

(** The batches are kept in reverse: the last one is the head. *)
Definition coalesce_step (window : N) (batches : list CoalescedInboundEvent)
    (source : MultiChannelInboundEvent) : list CoalescedInboundEvent :=
  match batches with
  | last :: before =>
      if should_coalesce_events (co_event last) source window
      then extend_batch last source window :: before
      else new_batch source window :: batches
  | [] => [new_batch source window]
  end.

Definition coalesce_inbound_events (source_events : list MultiChannelInboundEvent) (window : N)
    : list CoalescedInboundEvent :=
  reverse (foldl (coalesce_step window) [] source_events).

(** ** Processed keys and user text *)

Fixpoint dedup_keys (seen : gset string) (raw : list string) : list string :=
  match raw with
  | [] => []
  | key :: raw =>
      let trimmed := trim key in
      if is_empty trimmed || bool_decide (trimmed ∈ seen) then dedup_keys seen raw
      else trimmed :: dedup_keys ({[trimmed]} ∪ seen) raw
  end.

Definition normalize_processed_keys (raw : list string) (cap : nat) : list string :=
  let normalized := dedup_keys ∅ raw in
  if cap =? 0 then [] else drop (length normalized - cap) normalized.

Definition build_user_context_text event (media_prompt_context : option string) : option string :=
  let text := trim (me_text event) in
  let media := default "" (trim <$> media_prompt_context) in
  if is_empty text && is_empty media then None
  else if is_empty media then Some text
  else if is_empty text then Some media
  else Some (text +:+ newline +:+ newline +:+ media).

(** ** Looking into the log *)

Definition log_contains_event_direction (logs : list ChannelLogEntry) (event_key direction : string)
    : bool :=
  existsb (λ e, String.eqb (le_direction e) direction
                && bool_decide (le_event_key e = Some event_key)) logs.

(** An outbound record of the event whose [member] is [text]. *)
Definition log_contains_outbound (member : string) (logs : list ChannelLogEntry) (event_key text : string)
    : bool :=
  existsb (λ e, String.eqb (le_direction e) "outbound"
                && bool_decide (le_event_key e = Some event_key)
                && bool_decide (value_get member (le_payload e) ≫= as_str = Some text)) logs.
Definition log_contains_outbound_status := log_contains_outbound "status".
Definition log_contains_outbound_response := log_contains_outbound "response".

Definition context_contains_entry (entries : list ChannelContextEntry) (role text : string) : bool :=
  existsb (λ e, String.eqb (ce_role e) role && String.eqb (ce_text e) text) entries.

(** ** Responses and retries *)

Definition render_response event : string :=
  let transport := transport_as_str (me_transport event) in
  let event_id := trim (me_event_id event) in
  if bool_decide (me_event_kind event = EventCommand) || starts_with "/" (trim (me_text event)) then
    "command acknowledged: transport=" +:+ transport +:+ " event_id=" +:+ event_id +:+
    " conversation=" +:+ me_conversation_id event
  else
    "message processed: transport=" +:+ transport +:+ " event_id=" +:+ event_id +:+
    " text_chars=" +:+ show_usize (chars_count (me_text event)).

Definition simulated_transient_failures event : nat :=
  default 0 (N.to_nat <$> (me_metadata event !! "simulate_transient_failures" ≫= as_u64)).

(** [usize::to_le_bytes] *)
Fixpoint le_bytes (count : nat) (n : N) : list ascii :=
  match count with
  | O => []
  | S count => ascii_of_N (n mod 256) :: le_bytes count (n / 256)
  end.
(** [u64::from_le_bytes] *)
Fixpoint from_le_bytes (bytes : list ascii) : N :=
  match bytes with [] => 0%N | c :: bytes => (N_of_ascii c + 256 * from_le_bytes bytes)%N end.

Section delays.
Context `{!ChannelCodec}.

Definition mc_retry_delay_ms (base_delay_ms jitter_ms : N) (attempt : nat) (jitter_seed : string) : N :=
  if (base_delay_ms =? 0)%N then 0%N
  else
    let exponent := Nat.min (attempt - 1) 10 in
    let base_delay := saturating_mul_u64 base_delay_ms (2 ^ N.of_nat exponent)%N in
    if (jitter_ms =? 0)%N then base_delay
    else
      let digest := channel_sha256 (jitter_seed +:+ of_chars (le_bytes 8 (N.of_nat attempt))) in
      let jitter := (from_le_bytes (take 8 digest) mod saturating_add_u64 jitter_ms 1)%N in
      saturating_add_u64 base_delay jitter.
End delays.

(** ** Telemetry *)

Record MultiChannelTelemetryConfig := mkTelemetryConfig
  { tc_typing_presence_enabled : bool; tc_usage_summary_enabled : bool; tc_include_identifiers : bool;
    tc_typing_presence_min_response_chars : nat }.
Definition telemetry_config_default : MultiChannelTelemetryConfig := mkTelemetryConfig true true false 120.

Definition should_emit_typing_presence_lifecycle event (response_text : string)
    (config : MultiChannelTelemetryConfig) : bool :=
  if negb (tc_typing_presence_enabled config) then false
  else if bool_decide (me_metadata event !! "telemetry_force_typing_presence" ≫= as_bool = Some true)
  then true
  else tc_typing_presence_min_response_chars config <=? chars_count response_text.

Definition channel_typing_signal (t : MultiChannelTransport) : string :=
  match t with
  | Telegram => "telegram:typing" | Discord => "discord:typing" | Whatsapp => "whatsapp:typing"
  end.
Definition channel_presence_signal (t : MultiChannelTransport) (active : bool) : string :=
  match t, active with
  | Telegram, true => "telegram:online" | Telegram, false => "telegram:idle"
  | Discord, true => "discord:online" | Discord, false => "discord:idle"
  | Whatsapp, true => "whatsapp:available" | Whatsapp, false => "whatsapp:idle"
  end.

Definition build_telemetry_lifecycle_payload (status kind state signal : string) event
    (event_key session_key : string) (include_identifiers : bool) : Value :=
  json_obj
    ([("status", Str status); ("record_type", Str "multi_channel_telemetry_lifecycle_v1");
      ("reason_code", Str "telemetry_lifecycle_emitted"); ("telemetry_kind", Str kind);
      ("telemetry_state", Str state); ("signal", Str signal);
      ("transport", Str (transport_as_str (me_transport event))); ("event_key", Str event_key)]
     ++ if include_identifiers then
          [("conversation_id", Str (trim (me_conversation_id event)));
           ("actor_id", Str (trim (me_actor_id event))); ("route_session_key", Str session_key)]
        else []).

(** [Value::as_f64] of a non-negative number; negative integers have a sign. *)
Definition as_f64_nonneg (v : Value) : option f64 :=
  match v with
  | Num (PosInt n) => Some (f64_of_N n)
  | Num (Float f) =>
      if f64_is_finite f && negb (match f with S754_zero s | S754_finite s _ _ => s | _ => false end)
      then Some f else None
  | _ => None
  end.

(** [x.round() as u64] of a non-negative value: halves go up, large values saturate. *)
Definition f64_round_u64 (x : f64) : N :=
  match x with
  | S754_finite false m e =>
      if (0 <=? e)%Z then N.min (N.pos m * 2 ^ Z.to_N e) u64_max
      else N.min ((2 * N.pos m + 2 ^ Z.to_N (- e)) / 2 ^ Z.to_N (1 - e)) u64_max
  | S754_infinity false => u64_max
  | _ => 0%N
  end.

Definition extract_usage_estimated_cost_micros event : option N :=
  match me_metadata event !! "usage_cost_micros" ≫= as_u64 with
  | Some value => Some value
  | None =>
      usd ← me_metadata event !! "usage_cost_usd" ≫= as_f64_nonneg;
      Some (f64_round_u64 (f64_mul usd (f64_of_N 1000000)))
  end.

Definition increment_counter_map (m : gmap string nat) (key : string) (delta : nat) : gmap string nat :=
  let normalized := trim key in
  if is_empty normalized || (delta =? 0) then m
  else <[normalized := default 0 (m !! normalized) + delta]> m.
Definition increment_counter_u64_map (m : gmap string N) (key : string) (delta : N) : gmap string N :=
  let normalized := trim key in
  if is_empty normalized || (delta =? 0)%N then m
  else <[normalized := saturating_add_u64 (default 0%N (m !! normalized)) delta]> m.

Record MultiChannelRuntimeTelemetryCounters := mkCounters
  { ct_typing_events_emitted : nat; ct_presence_events_emitted : nat; ct_usage_summary_records : nat;
    ct_usage_response_chars : nat; ct_usage_chunks : nat; ct_usage_estimated_cost_micros : N;
    ct_typing_events_by_transport : gmap string nat; ct_presence_events_by_transport : gmap string nat;
    ct_usage_summary_records_by_transport : gmap string nat;
    ct_usage_response_chars_by_transport : gmap string nat;
    ct_usage_chunks_by_transport : gmap string nat;
    ct_usage_estimated_cost_micros_by_transport : gmap string N }.
Definition counters_default : MultiChannelRuntimeTelemetryCounters :=
  mkCounters 0 0 0 0 0 0 ∅ ∅ ∅ ∅ ∅ ∅.

Definition record_typing_telemetry (transport : string) (t : MultiChannelRuntimeTelemetryCounters)
    : MultiChannelRuntimeTelemetryCounters :=
  mkCounters (S (ct_typing_events_emitted t)) (ct_presence_events_emitted t) (ct_usage_summary_records t)
    (ct_usage_response_chars t) (ct_usage_chunks t) (ct_usage_estimated_cost_micros t)
    (increment_counter_map (ct_typing_events_by_transport t) transport 1)
    (ct_presence_events_by_transport t) (ct_usage_summary_records_by_transport t)
    (ct_usage_response_chars_by_transport t) (ct_usage_chunks_by_transport t)
    (ct_usage_estimated_cost_micros_by_transport t).
Definition record_presence_telemetry (transport : string) (t : MultiChannelRuntimeTelemetryCounters)
    : MultiChannelRuntimeTelemetryCounters :=
  mkCounters (ct_typing_events_emitted t) (S (ct_presence_events_emitted t)) (ct_usage_summary_records t)
    (ct_usage_response_chars t) (ct_usage_chunks t) (ct_usage_estimated_cost_micros t)
    (ct_typing_events_by_transport t)
    (increment_counter_map (ct_presence_events_by_transport t) transport 1)
    (ct_usage_summary_records_by_transport t) (ct_usage_response_chars_by_transport t)
    (ct_usage_chunks_by_transport t) (ct_usage_estimated_cost_micros_by_transport t).
Definition record_usage_summary_telemetry (transport : string) (response_chars usage_chunks : nat)
    (usage_cost_micros : N) (t : MultiChannelRuntimeTelemetryCounters)
    : MultiChannelRuntimeTelemetryCounters :=
  mkCounters (ct_typing_events_emitted t) (ct_presence_events_emitted t) (S (ct_usage_summary_records t))
    (ct_usage_response_chars t + response_chars) (ct_usage_chunks t + usage_chunks)
    (saturating_add_u64 (ct_usage_estimated_cost_micros t) usage_cost_micros)
    (ct_typing_events_by_transport t) (ct_presence_events_by_transport t)
    (increment_counter_map (ct_usage_summary_records_by_transport t) transport 1)
    (increment_counter_map (ct_usage_response_chars_by_transport t) transport response_chars)
    (increment_counter_map (ct_usage_chunks_by_transport t) transport usage_chunks)
    (increment_counter_u64_map (ct_usage_estimated_cost_micros_by_transport t) transport usage_cost_micros).

(** ** The summary of a cycle *)

Record MultiChannelRuntimeSummary := mkSummary
  { rs_discovered_events : nat; rs_queued_events : nat; rs_completed_events : nat;
    rs_duplicate_skips : nat; rs_transient_failures : nat; rs_retry_attempts : nat;
    rs_failed_events : nat; rs_policy_checked_events : nat; rs_policy_enforced_events : nat;
    rs_policy_allowed_events : nat; rs_policy_denied_events : nat; rs_typing_events_emitted : nat;
    rs_presence_events_emitted : nat; rs_usage_summary_records : nat; rs_usage_response_chars : nat;
    rs_usage_chunks : nat; rs_usage_estimated_cost_micros : N }.

Record PersistEventOutcome := mkOutcome
  { po_typing_events_emitted : nat; po_presence_events_emitted : nat; po_usage_summary_records : nat;
    po_usage_response_chars : nat; po_usage_chunks : nat; po_usage_estimated_cost_micros : N }.
Definition outcome_default : PersistEventOutcome := mkOutcome 0 0 0 0 0 0.

Definition build_transport_health_snapshot (s : MultiChannelRuntimeSummary) (cycle_duration_ms : N)
    (previous_failure_streak : nat) (now : N) : TransportHealthSnapshot :=
  let backlog_events := rs_discovered_events s - rs_queued_events s in
  let failure_streak := if 0 <? rs_failed_events s then S previous_failure_streak else 0 in
  mkHealth now cycle_duration_ms backlog_events 0 failure_streak (rs_discovered_events s)
    (rs_completed_events s + rs_failed_events s + rs_duplicate_skips s) (rs_completed_events s)
    (rs_failed_events s) (rs_duplicate_skips s).

Definition cycle_reason_codes (s : MultiChannelRuntimeSummary) : list string :=
  let operational :=
    (if rs_queued_events s <? rs_discovered_events s then ["queue_backpressure_applied"] else [])
    ++ (if 0 <? rs_duplicate_skips s then ["duplicate_events_skipped"] else [])
    ++ (if 0 <? rs_retry_attempts s then ["retry_attempted"] else [])
    ++ (if 0 <? rs_transient_failures s then ["transient_failures_observed"] else [])
    ++ (if 0 <? rs_failed_events s then ["event_processing_failed"] else []) in
  operational
  ++ match operational with [] => ["healthy_cycle"] | _ => [] end
  ++ (if 0 <? rs_policy_checked_events s then
        [if 0 <? rs_policy_enforced_events s then "pairing_policy_enforced"
         else "pairing_policy_permissive"]
      else [])
  ++ (if 0 <? rs_policy_denied_events s then ["pairing_policy_denied_events"] else [])
  ++ (if (0 <? rs_typing_events_emitted s) || (0 <? rs_presence_events_emitted s)
      then ["telemetry_lifecycle_emitted"] else [])
  ++ (if 0 <? rs_usage_summary_records s then ["telemetry_usage_summary_emitted"] else []).

(** ** Coalescing of inbound events

    The batches of a cycle cut the queue, in order, into maximal runs of events
    of one actor in one conversation; a batch carries the keys, identifiers,
    texts and attachments of exactly its run. *)

Implicit Types (e : MultiChannelInboundEvent) (batch : CoalescedInboundEvent).

(** ** Texts joined by newlines *)

Definition join_lines (l : list string) : string := String.concat newline l.

Lemma join_lines_snoc l x :
  join_lines (l ++ [x]) = match l with [] => x | _ => join_lines l +:+ newline +:+ x end.
Proof.
  induction l as [|y l IH]; [done|]. cbn in *. destruct l as [|z l]; [done|]. cbn in *.
  rewrite IH. by rewrite <- !string_app_assoc.
Qed.

Lemma join_lines_empty l : Forall (.≠ "") l → join_lines l = "" → l = [].
Proof. intros Hall. destruct Hall as [|x l Hx Hl]; [done|]. destruct x, l; by cbn. Qed.

(** ** What a batch says of its run *)

(** The text of a run: the first text as it is, then the ones that are not blank. *)
Definition texts_of (first : MultiChannelInboundEvent) (rest : list MultiChannelInboundEvent) : list string :=
  (if is_empty (me_text first) then [] else [me_text first])
  ++ List.filter (λ t, negb (is_empty (trim t))) (me_text <$> rest).

(** The events of a run have one sender, and each follows the one before within
    the window. *)
Record of_run (window : N) batch (first : MultiChannelInboundEvent)
    (rest : list MultiChannelInboundEvent) : Prop := mkOfRun
  { run_keys : co_source_event_keys batch = event_contract_key <$> first :: rest;
    run_ids : co_source_event_ids batch = trim ∘ me_event_id <$> first :: rest;
    run_id : me_event_id (co_event batch) = me_event_id first;
    run_sender e : e ∈ first :: rest →
      me_transport e = me_transport (co_event batch) ∧
      trim (me_conversation_id e) = trim (me_conversation_id (co_event batch)) ∧
      trim (me_actor_id e) = trim (me_actor_id (co_event batch));
    run_steps i a b : (first :: rest) !! i = Some a → (first :: rest) !! S i = Some b →
      (me_timestamp_ms a ≤ me_timestamp_ms b ≤ me_timestamp_ms a + window)%N;
    run_last : Some (me_timestamp_ms (co_event batch)) = me_timestamp_ms <$> last (first :: rest);
    run_text : me_text (co_event batch) = join_lines (texts_of first rest);
    run_attachments : me_attachments (co_event batch) = mjoin (me_attachments <$> first :: rest);
    run_disabled : window = 0%N → rest = [] }.

Lemma texts_of_nonempty first rest : Forall (.≠ "") (texts_of first rest).
Proof.
  unfold texts_of. apply Forall_app. split.
  - unfold is_empty. by destruct (String.eqb_spec (me_text first) ""); repeat constructor.
  - apply List.Forall_forall. intros t [_ Ht]%List.filter_In ->. by vm_compute in Ht.
Qed.

Lemma new_batch_run window source : of_run window (new_batch source window) source [].
Proof.
  constructor; try done.
  - intros e ->%list_elem_of_singleton. done.
  - cbn. unfold texts_of, is_empty. cbn. by destruct (String.eqb_spec (me_text source) "").
  - cbn. by rewrite app_nil_r.
Qed.

Lemma should_coalesce_spec previous current window :
  should_coalesce_events previous current window = true →
  window ≠ 0%N ∧ me_transport previous = me_transport current ∧
  trim (me_conversation_id previous) = trim (me_conversation_id current) ∧
  trim (me_actor_id previous) = trim (me_actor_id current) ∧
  (me_timestamp_ms previous ≤ me_timestamp_ms current ≤ me_timestamp_ms previous + window)%N.
Proof.
  unfold should_coalesce_events, saturating_sub_u64. rewrite !andb_true_iff, !negb_true_iff.
  rewrite bool_decide_eq_true, !String.eqb_eq, N.eqb_neq, N.ltb_ge, N.leb_le.
  intros (((((? & ?) & ?) & ?) & ?) & ?). split_and!; [done..|lia].
Qed.

Lemma merge_text last source first rest :
  me_text last = join_lines (texts_of first rest) →
  me_text (merge_event last source) = join_lines (texts_of first (rest ++ [source])).
Proof.
  intros Ht. unfold texts_of. rewrite fmap_app, List.filter_app, app_assoc. cbn.
  destruct (is_empty (trim (me_text source))); cbn [negb]; [by rewrite app_nil_r|].
  change (me_text last = join_lines (texts_of first rest)) in Ht.
  fold (texts_of first rest). rewrite join_lines_snoc. unfold is_empty.
  destruct (String.eqb_spec (me_text last) "") as [He|Hne].
  - rewrite Ht in He. apply join_lines_empty in He; [|apply texts_of_nonempty]. by rewrite He.
  - destruct (texts_of first rest) eqn:Hl; [done|]. by rewrite Ht, <- string_app_assoc.
Qed.

Lemma extend_batch_run window batch source first rest :
  should_coalesce_events (co_event batch) source window = true →
  of_run window batch first rest → of_run window (extend_batch batch source window) first (rest ++ [source]).
Proof.
  intros (Hw & Htr & Hconv & Hact & Htime)%should_coalesce_spec [Hk Hids Hid Hs Hsteps Hlast Htext Hatt Hdis].
  constructor; rewrite ?app_comm_cons.
  - cbn [co_source_event_keys extend_batch annotate_coalesced_event_metadata].
    by rewrite Hk, fmap_app.
  - cbn [co_source_event_ids extend_batch annotate_coalesced_event_metadata].
    by rewrite Hids, fmap_app.
  - done.
  - intros e [He| ->%list_elem_of_singleton]%elem_of_app; [by apply Hs|].
    cbn. by rewrite Htr, Hconv, Hact.
  - intros i a b Ha Hb. apply lookup_app_Some in Hb as [Hb|[Hge Hb]].
    + rewrite lookup_app_l in Ha by (apply lookup_lt_Some in Hb; lia). by eapply Hsteps.
    + apply list_lookup_singleton_Some in Hb as [Hi <-].
      rewrite lookup_app_l in Ha by (cbn in *; lia). 
      rewrite last_lookup in Hlast. replace (pred _) with i in Hlast by (cbn in *; lia).
      rewrite Ha in Hlast. cbn in Hlast. injection Hlast as Hlast. rewrite <- Hlast. lia.
  - by rewrite last_snoc.
  - apply (merge_text (co_event batch)). done.
  - cbn [co_event extend_batch annotate_coalesced_event_metadata set_metadata me_attachments merge_event].
    rewrite Hatt, fmap_app, join_app. cbn. by rewrite app_nil_r.
  - done.
Qed.

(** ** The batches of a queue *)

(** Batches and their runs, the last one first. *)
Record runs_of (window : N) (batches : list CoalescedInboundEvent)
    (runs : list (list MultiChannelInboundEvent)) : Prop := mkRuns
  { runs_each : Forall2 (λ batch run, ∃ first rest, run = first :: rest ∧ of_run window batch first rest)
                  batches runs;
    runs_apart i batch first rest :
      batches !! S i = Some batch → runs !! i = Some (first :: rest) →
      should_coalesce_events (co_event batch) first window = false }.

Lemma join_one {A} (l : list A) : mjoin [l] = l.
Proof. apply app_nil_r. Qed.

Lemma coalesce_step_runs window batches runs source :
  runs_of window batches runs →
  ∃ runs', runs_of window (coalesce_step window batches source) runs' ∧
    mjoin (reverse runs') = mjoin (reverse runs) ++ [source].
Proof.
  intros [Heach Hapart]. destruct Heach as [|batch run batches runs (first & rest & -> & Hrun) Heach]; cbn [coalesce_step].
  { exists [[source]]. split; [|done]. constructor; [|by intros [|i]].
    constructor; [|constructor]. exists source, []. split; [done|apply new_batch_run]. }
  destruct (should_coalesce_events _ _ _) eqn:Hs.
  - exists ((first :: rest ++ [source]) :: runs). split.
    + constructor.
      * constructor; [|done]. exists first, (rest ++ [source]). split; [done|]. by apply extend_batch_run.
      * intros [|i] batch' first' rest' Hb Hr; [|by apply (Hapart (S i) batch' first' rest')].
        injection Hr as <- <-. by apply (Hapart 0 batch' first rest).
    + rewrite !reverse_cons, !join_app, !join_one, <- app_assoc. done.
  - exists ([source] :: (first :: rest) :: runs). split.
    + constructor.
      * constructor; [|constructor; [eauto|done]]. exists source, []. split; [done|apply new_batch_run].
      * intros [|i] batch' first' rest' Hb Hr; [|by apply (Hapart i batch' first' rest')].
        cbn in *. by simplify_eq.
    + by rewrite reverse_cons, join_app, join_one.
Qed.

Lemma coalesce_runs window source_events batches runs :
  runs_of window batches runs →
  ∃ runs', runs_of window (foldl (coalesce_step window) batches source_events) runs' ∧
    mjoin (reverse runs') = mjoin (reverse runs) ++ source_events.
Proof.
  revert batches runs. induction source_events as [|source l IH]; intros batches runs Hr; cbn [foldl].
  { exists runs. by rewrite app_nil_r. }
  destruct (coalesce_step_runs window batches runs source Hr) as (runs1 & Hr1 & Hj1).
  destruct (IH _ _ Hr1) as (runs2 & Hr2 & Hj2). exists runs2. split; [done|].
  by rewrite Hj2, Hj1, <- app_assoc.
Qed.

Lemma coalesce_inbound_runs window source_events :
  ∃ runs, runs_of window (foldl (coalesce_step window) [] source_events) runs ∧
    mjoin (reverse runs) = source_events.
Proof. apply (coalesce_runs window source_events [] []). by constructor; [constructor|intros ? ? ? ?]. Qed.

(** Coalescing cuts the queue into consecutive runs and makes one batch of each:
    no event is lost, repeated or reordered, a run holds events of one actor in one
    conversation of one transport, each within the window of the one before, and
    is as long as it can be; a batch carries the keys, identifiers, texts and
    attachments of its run, and with a window of zero every run is one event. *)
Theorem coalesce_exact window source_events :
  ∃ runs, mjoin runs = source_events ∧
    Forall2 (λ batch run, ∃ first rest, run = first :: rest ∧ of_run window batch first rest)
      (coalesce_inbound_events source_events window) runs ∧
    ∀ i batch first rest,
      coalesce_inbound_events source_events window !! i = Some batch → runs !! S i = Some (first :: rest) →
      should_coalesce_events (co_event batch) first window = false.
Proof.
  destruct (coalesce_inbound_runs window source_events) as (runs & [Heach Hapart] & Hj).
  exists (reverse runs). unfold coalesce_inbound_events. split_and!; [done|by apply Forall2_reverse|].
  intros i batch first rest [Hb Hi]%reverse_lookup_Some [Hr HSi]%reverse_lookup_Some.
  apply Forall2_length in Heach. eapply (Hapart (length runs - S (S i))); [|done].
  rewrite <- Hb. f_equal. lia.
Qed.

Lemma coalesce_keys window source_events :
  mjoin (co_source_event_keys <$> coalesce_inbound_events source_events window) =
  event_contract_key <$> source_events.
Proof.
  destruct (coalesce_inbound_runs window source_events) as (runs & [Heach _] & <-).
  unfold coalesce_inbound_events. apply Forall2_reverse in Heach. revert Heach.
  generalize (reverse runs) as runs'. intros runs' Heach.
  induction Heach as [|batch run batches runs2 (first & rest & -> & Hrun) _ IH]; [done|].
  rewrite fmap_cons. cbn [mjoin list_join]. rewrite fmap_app, (run_keys _ _ _ _ Hrun). by f_equal.
Qed.

Lemma coalesce_keys_nonempty window source_events batch :
  batch ∈ coalesce_inbound_events source_events window → co_source_event_keys batch ≠ [].
Proof.
  destruct (coalesce_inbound_runs window source_events) as (runs & [Heach _] & _).
  unfold coalesce_inbound_events. rewrite elem_of_reverse. intros Hin.
  apply list_elem_of_lookup in Hin as [i Hi].
  destruct (Forall2_lookup_l _ _ _ _ _ Heach Hi) as (run & _ & first & rest & _ & Hrun).
  by rewrite (run_keys _ _ _ _ Hrun).
Qed.
