(* ===== verification/MultiChannelRuntime.v ===== *)
(** * The multi-channel runtime ([tau-multi-channel], [multi_channel_runtime.rs]
      with [ingress.rs], [outbound.rs], [routing.rs])

    One cycle over inbound events: coalescing, access decision, command or
    response, delivery with retries, logs and context of the channel, the
    processed keys and telemetry.  The state is the runtime's own state, the
    text files and the network; the clock moves while the runtime sleeps. *)

From Stdlib Require Import NArith Ascii Lia.
From stdpp Require Import base gmap sets strings list.
From S2P Require Import Prelude RustStr Json Effects AtomicIo TrustRoots SignedEnvelope MultiAgentRouter StateDirs ChannelStore LogRotation SsrfGuard MultiChannelPolicy MultiChannelRouting MultiChannelMedia MultiChannelCommands MultiChannelOutbound MultiChannelAccess MultiChannelEvents.

#[local] Open Scope string_scope.
#[local] Open Scope list_scope.
#[local] Open Scope nat_scope.

Definition MULTI_CHANNEL_RUNTIME_STATE_SCHEMA_VERSION : N := 1.
Definition MULTI_CHANNEL_RUNTIME_EVENTS_LOG_FILE : string := "runtime-events.jsonl".
Definition MULTI_CHANNEL_ROUTE_TRACES_LOG_FILE : string := "route-traces.jsonl".

Record MultiChannelRuntimeTelemetryPolicyState := mkTelemetryPolicy
  { tp_typing_presence_enabled : bool; tp_usage_summary_enabled : bool; tp_include_identifiers : bool;
    tp_typing_presence_min_response_chars : nat }.
Definition telemetry_policy_default : MultiChannelRuntimeTelemetryPolicyState :=
  mkTelemetryPolicy true true false 120.

Record MultiChannelRuntimeState := mkRuntimeState
  { ms_schema_version : N; ms_processed_event_keys : list string; ms_health : TransportHealthSnapshot;
    ms_telemetry : MultiChannelRuntimeTelemetryCounters;
    ms_telemetry_policy : MultiChannelRuntimeTelemetryPolicyState }.
Definition runtime_state_default : MultiChannelRuntimeState :=
  mkRuntimeState MULTI_CHANNEL_RUNTIME_STATE_SCHEMA_VERSION [] health_default counters_default
    telemetry_policy_default.

(** The handlers of the host program; the approvals handler works on files. *)
Record MultiChannelCommandHandlers := mkHandlers
  { ch_auth : option (option string → string);
    ch_doctor : option (bool → string);
    ch_approvals : option (TextFs → string → string → option string → string * TextFs) }.

Record MultiChannelRuntimeConfig := mkRuntimeConfig
  { mc_state_dir : string; mc_orchestrator_route_table_path : option string; mc_queue_limit : nat;
    mc_processed_event_cap : nat; mc_retry_max_attempts : nat; mc_retry_base_delay_ms : N;
    mc_retry_jitter_ms : N; mc_coalescing_window_ms : N; mc_outbound : MultiChannelOutboundConfig;
    mc_telemetry : MultiChannelTelemetryConfig; mc_media : MultiChannelMediaUnderstandingConfig;
    mc_command_handlers : MultiChannelCommandHandlers }.

(** [serde]: values and texts of the records the runtime writes. *)
Class RuntimeCodec :=
  { event_value : MultiChannelInboundEvent → Value;
    media_report_value : MediaUnderstandingReport → Value;
    delivery_value : MultiChannelOutboundDeliveryResult → Value;
    decode_runtime_state : string → option MultiChannelRuntimeState;
    encode_runtime_state : MultiChannelRuntimeState → string;
    encode_cycle_report : N → TransportHealthSnapshot → string → list string →
      MultiChannelRuntimeSummary → string }.

(** The runtime, the files and the network. *)
Record Runtime := mkRuntime
  { rt_state : MultiChannelRuntimeState; rt_keys : gset string; rt_fs : TextFs; rt_net : list NetEvent }.

Definition set_rt_fs (fs : TextFs) (rt : Runtime) : Runtime :=
  mkRuntime (rt_state rt) (rt_keys rt) fs (rt_net rt).
Definition set_rt_net (net : list NetEvent) (rt : Runtime) : Runtime :=
  mkRuntime (rt_state rt) (rt_keys rt) (rt_fs rt) net.
Definition set_rt_state (s : MultiChannelRuntimeState) (rt : Runtime) : Runtime :=
  mkRuntime s (rt_keys rt) (rt_fs rt) (rt_net rt).
Definition set_telemetry (t : MultiChannelRuntimeTelemetryCounters) (s : MultiChannelRuntimeState)
    : MultiChannelRuntimeState :=
  mkRuntimeState (ms_schema_version s) (ms_processed_event_keys s) (ms_health s) t (ms_telemetry_policy s).

Abbreviation RtOp := (Eff Runtime string).

Definition on_fs {A} (m : FileOp A) : RtOp A := λ rt,
  let '(r, fs) := m (rt_fs rt) in (r, set_rt_fs fs rt).
(** A delivery: its failure is a value. *)
Definition on_net {A} (m : NetOp A) : RtOp (Result MultiChannelOutboundDeliveryError A) := λ rt,
  let '(r, net) := m (rt_net rt) in (Ok r, set_rt_net net rt).
Definition on_telemetry (f : MultiChannelRuntimeTelemetryCounters → MultiChannelRuntimeTelemetryCounters)
    : RtOp unit :=
  modify (λ rt, set_rt_state (set_telemetry (f (ms_telemetry (rt_state rt))) (rt_state rt)) rt).
Definition now_ms : RtOp N := gets (λ rt, fs_now_ms (rt_fs rt)).
(** [tokio::time::sleep] *)
Definition sleep (delay_ms : N) : RtOp unit :=
  modify (λ rt, set_rt_fs (set_fs_now (fs_now_ms (rt_fs rt) + delay_ms) (rt_fs rt)) rt).

Definition record_processed_event (cap : nat) (event_key : string) (rt : Runtime) : Runtime :=
  if bool_decide (event_key ∈ rt_keys rt) then rt
  else
    let s := rt_state rt in
    let keys := ms_processed_event_keys s ++ [event_key] in
    let overflow := length keys - cap in
    mkRuntime
      (mkRuntimeState (ms_schema_version s) (drop overflow keys) (ms_health s) (ms_telemetry s)
         (ms_telemetry_policy s))
      (({[event_key]} ∪ rt_keys rt) ∖ list_to_set (take overflow keys)) (rt_fs rt) (rt_net rt).

Section runtime.
Context `{!ChannelCodec, !RuntimeCodec, !Network, !JsonCodec, !EnvelopeCodec Value, !EnvelopeCrypto,
          !TrustRootCodec, !PairingEvaluator, !ChannelPolicyCodec, !RouteTableCodec, !RouteBindingsCodec}.
(** [std::env::var], for the rotation of the logs *)
Variable env_var : string → option string.
Implicit Types (c : MultiChannelRuntimeConfig) (event : MultiChannelInboundEvent)
  (access : MultiChannelAccessDecision) (route : MultiChannelRouteDecision).

(** ** Commands *)

Definition render_multi_channel_status_command_report (s : MultiChannelRuntimeState) : string :=
  let classification := classify (ms_health s) in
  let t := ms_telemetry s in
  "multi-channel status: health_state=" +:+ health_state_as_str (hc_state classification) +:+
  " health_reason=" +:+ hc_reason classification +:+
  " failure_streak=" +:+ show_usize (th_failure_streak (ms_health s)) +:+
  " queue_depth=" +:+ show_usize (th_queue_depth (ms_health s)) +:+
  " processed_event_keys=" +:+ show_usize (length (ms_processed_event_keys s)) +:+
  " typing_events=" +:+ show_usize (ct_typing_events_emitted t) +:+
  " presence_events=" +:+ show_usize (ct_presence_events_emitted t) +:+
  " usage_records=" +:+ show_usize (ct_usage_summary_records t) +:+
  " usage_chars=" +:+ show_usize (ct_usage_response_chars t) +:+
  " usage_chunks=" +:+ show_usize (ct_usage_chunks t) +:+
  " usage_cost_micros=" +:+ show_u64 (ct_usage_estimated_cost_micros t).

Definition execute_auth_command c (provider : option string) : MultiChannelCommandExecution :=
  match ch_auth (mc_command_handlers c) with
  | None =>
      build_multi_channel_command_execution "auth status" "failed" "command_auth_status_failed"
        "command unavailable: auth status handler is not configured."
  | Some handler =>
      let output := handler provider in
      let failed := starts_with "auth error:" (trim_start output) in
      build_multi_channel_command_execution
        (match provider with Some p => "auth status " +:+ p | None => "auth status" end)
        (if failed then "failed" else "reported")
        (if failed then "command_auth_status_failed" else "command_auth_status_reported") output
  end.

Definition execute_doctor_command c (online : bool) : MultiChannelCommandExecution :=
  match ch_doctor (mc_command_handlers c) with
  | None =>
      build_multi_channel_command_execution "doctor" "failed" "command_doctor_reported"
        "command unavailable: doctor handler is not configured."
  | Some handler =>
      build_multi_channel_command_execution (if online then "doctor --online" else "doctor") "reported"
        "command_doctor_reported" (handler online)
  end.

Definition execute_approvals_command c event (action : MultiChannelTauApprovalsAction) (args : string)
    : RtOp MultiChannelCommandExecution := λ rt,
  match ch_approvals (mc_command_handlers c) with
  | None =>
      (Ok (build_multi_channel_command_execution "approvals" "failed" "command_approvals_failed"
             "command unavailable: approvals handler is not configured."), rt)
  | Some handler =>
      let actor :=
        match action with
        | ApprovalsList => Some None
        | _ => Some <$> build_multi_channel_approver_actor event
        end in
      match actor with
      | None =>
          (Ok (build_multi_channel_command_execution "approvals" "failed"
                 "command_approvals_actor_mapping_failed"
                 "command denied: missing transport actor mapping for approval decision."), rt)
      | Some decision_actor =>
          let '(output, fs) := handler (rt_fs rt) (mc_state_dir c) args decision_actor in
          let failed := starts_with "approvals error:" (trim_start output) in
          (Ok (build_multi_channel_command_execution ("approvals " +:+ trim args)
                 (if failed then "failed" else "reported")
                 (if failed then approvals_failure_reason_code action output
                  else approvals_success_reason_code action) output), set_rt_fs fs rt)
      end
  end.

Definition execute_tau_command c event (command : MultiChannelTauCommand)
    : RtOp MultiChannelCommandExecution :=
  match command with
  | TauHelp =>
      mret (build_multi_channel_command_execution "help" "reported" "command_help_reported"
              render_multi_channel_tau_command_help)
  | TauStatus =>
      s ← gets rt_state;
      mret (build_multi_channel_command_execution "status" "reported" "command_status_reported"
              (render_multi_channel_status_command_report s))
  | TauSkip reason => mret (build_multi_channel_command_skip_execution reason)
  | TauReact emoji message_id => mret (build_multi_channel_command_react_execution emoji message_id)
  | TauSendFile url caption => mret (build_multi_channel_command_send_file_execution url caption)
  | TauThread name => mret (build_multi_channel_command_thread_execution name)
  | TauAuthStatus provider => mret (execute_auth_command c provider)
  | TauDoctor online => mret (execute_doctor_command c online)
  | TauApprovals action args => execute_approvals_command c event action args
  end.

Definition execute_tau_command_if_requested c event access
    : RtOp (option MultiChannelCommandExecution) :=
  match parse_multi_channel_tau_command (me_text event) with
  | Err reason_code =>
      mret (Some (build_multi_channel_command_execution "invalid" "failed" reason_code
        ("invalid `/tau` command." +:+ newline +:+ newline +:+ render_multi_channel_tau_command_help)))
  | Ok None => mret None
  | Ok (Some command) =>
      if command_requires_operator_scope command && negb (multi_channel_command_operator_allowed access)
      then mret (Some (build_multi_channel_command_execution
             (render_multi_channel_tau_command_line command) "failed" "command_rbac_denied"
             "command denied: this `/tau` command requires allowlisted operator scope."))
      else
        execution ← execute_tau_command c event command;
        mret (Some execution)
  end.

(** ** Payloads of the log records *)

Definition pairing_payload event access : Value :=
  json_obj
    [("decision", Str (pairing_decision_status (ad_pairing_decision access)));
     ("reason_code", Str (pairing_decision_reason_code (ad_pairing_decision access)));
     ("channel", Str (ad_policy_channel access)); ("actor_id", Str (trim (me_actor_id event)));
     ("checked", Bool (ad_pairing_checked access))].

Definition secure_messaging_payload access : Value :=
  let s := ad_secure_messaging access in
  json_obj
    [("mode", Str (secure_mode_as_str (sd_mode s))); ("status", Str (sd_status s));
     ("reason_code", Str (sd_reason_code s)); ("checked", Bool (sd_checked s));
     ("required", Bool (sd_required s)); ("legacy_fallback", Bool (sd_legacy_fallback s));
     ("key_id", json_opt_str (sd_key_id s)); ("nonce", json_opt_str (sd_nonce s))].

Definition channel_policy_payload access : Value :=
  let p := ad_channel_policy access in
  json_obj
    [("decision", Str (policy_decision_as_str (pe_decision p)));
     ("reason_code", Str (policy_decision_reason_code (pe_decision p)));
     ("channel", Str (pe_policy_channel p)); ("matched_policy_key", Str (pe_matched_policy_key p));
     ("conversation_kind", Str (conversation_kind_as_str (pe_conversation_kind p)));
     ("dm_policy", Str (dm_policy_as_str (cp_dm_policy (pe_policy p))));
     ("allow_from", Str (allow_from_as_str (cp_allow_from (pe_policy p))));
     ("group_policy", Str (group_policy_as_str (cp_group_policy (pe_policy p))));
     ("require_mention", Bool (cp_require_mention (pe_policy p)));
     ("mention_present", Bool (pe_mention_present p))].

(** What several records of one event share. *)
Record EventPayloads := mkPayloads
  { pl_route : Value; pl_pairing : Value; pl_secure : Value; pl_policy : Value; pl_media : Value }.

Definition inbound_payload event route (p : EventPayloads) : Value :=
  foldl (λ payload '(key, value), obj_insert_opt key (Some value) payload) (event_value event)
    [("pairing", pl_pairing p); ("secure_messaging", pl_secure p); ("channel_policy", pl_policy p);
     ("route", pl_route p); ("media_understanding", pl_media p);
     ("route_session_key", Str (rd_session_key route))].

Definition delivery_error_payload (e : MultiChannelOutboundDeliveryError) : Value :=
  json_obj
    [("reason_code", Str (de_reason_code e)); ("detail", Str (de_detail e));
     ("retryable", Bool (de_retryable e)); ("endpoint", Str (de_endpoint e));
     ("http_status", json_opt_num (de_http_status e))].

(** Members that name the event, its conversation and its session. *)
Definition event_members event (event_key : string) route : list (string * Value) :=
  [("event_key", Str event_key); ("transport", Str (transport_as_str (me_transport event)));
   ("conversation_id", Str (trim (me_conversation_id event)));
   ("route_session_key", Str (rd_session_key route))].

Definition denied_payload event (event_key reason_code : string) access route (p : EventPayloads) : Value :=
  json_obj
    ([("status", Str "denied"); ("reason_code", Str reason_code);
      ("policy_channel", Str (ad_policy_channel access)); ("actor_id", Str (trim (me_actor_id event)))]
     ++ event_members event event_key route
     ++ [("route", pl_route p); ("channel_policy", pl_policy p); ("pairing", pl_pairing p);
         ("secure_messaging", pl_secure p); ("media_understanding", pl_media p)]).

Definition append_outbound (store : ChannelStore) (event_key : string) (payload : Value) : RtOp unit :=
  now ← now_ms;
  on_fs (append_log_entry store
    (mkLogEntry now "outbound" (Some event_key) "tau-multi-channel-runner" payload)).

Definition append_delivery_failure_log (store : ChannelStore) c event (event_key : string) route
    (p : EventPayloads) (command_payload : option Value) (e : MultiChannelOutboundDeliveryError)
    : RtOp unit :=
  append_outbound store event_key
    (obj_insert_opt "command" command_payload
       (json_obj
          ([("status", Str "delivery_failed"); ("reason_code", Str (de_reason_code e));
            ("detail", Str (de_detail e)); ("retryable", Bool (de_retryable e));
            ("chunk_index", json_usize (de_chunk_index e)); ("chunk_count", json_usize (de_chunk_count e));
            ("endpoint", Str (de_endpoint e)); ("http_status", json_opt_num (de_http_status e));
            ("request_body", json_opt_str (de_request_body e));
            ("delivery_mode", Str (outbound_mode_as_str (oc_mode (mc_outbound c))))]
           ++ event_members event event_key route
           ++ [("route", pl_route p); ("pairing", pl_pairing p); ("secure_messaging", pl_secure p);
               ("channel_policy", pl_policy p)]))).

Definition append_multi_channel_route_trace (path : string) (payload : Value) : FileOp unit :=
  _ ← create_parent path;
  append_line_with_rotation path (json_to_string payload) (rotation_from_env env_var).

(** ** Parts of [persist_event] *)

(** A context entry that is not there yet. *)
Definition append_context_once (store : ChannelStore) (existing : list ChannelContextEntry) (now : N)
    (role text : string) : RtOp unit :=
  when (negb (context_contains_entry existing role text))
    (on_fs (append_context_entry store (mkContextEntry now role text))).

Definition append_user_context (store : ChannelStore) (existing : list ChannelContextEntry) (now : N)
    (user_text : option string) : RtOp unit :=
  match user_text with
  | Some text => append_context_once store existing now "user" text
  | None => mret tt
  end.

(** The delivery a suppressed command asks for: status, reason and a member for
    the log. *)
Definition perform_command_delivery c event (execution : MultiChannelCommandExecution)
    : RtOp (string * string * option (string * Value)) :=
  let finish (ok_status ok_reason member : string) (failure_reason : string → string)
      (r : Result MultiChannelOutboundDeliveryError MultiChannelOutboundDeliveryResult) :=
    match r with
    | Ok delivery => (ok_status, ok_reason, Some (member, delivery_value delivery))
    | Err e => ("failed", failure_reason (de_reason_code e),
                Some (member +:+ "_error", delivery_error_payload e))
    end in
  match ex_send_file_url execution with
  | Some url =>
      r ← on_net (deliver_file (mc_outbound c) event url (ex_send_file_caption execution));
      mret (finish "sent_file" "command_send_file_dispatched" "file_delivery"
              command_reason_code_from_file_delivery_error r)
  | None =>
      match ex_react_emoji execution with
      | Some emoji =>
          let target := default (trim (me_event_id event)) (ex_react_message_id execution) in
          r ← on_net (deliver_reaction (mc_outbound c) event emoji target);
          mret (finish "reacted" "command_react_dispatched" "reaction_delivery"
                  command_reason_code_from_reaction_delivery_error r)
      | None =>
          match ex_thread_name execution with
          | Some name =>
              r ← on_net (deliver_thread (mc_outbound c) event name);
              mret (finish "thread_created" "command_thread_dispatched" "thread_delivery"
                      command_reason_code_from_thread_delivery_error r)
          | None => mret (ex_status execution, ex_reason_code execution, None)
          end
      end
  end.

Definition persist_suppressed (store : ChannelStore) c event (event_key : string) route (p : EventPayloads)
    (logs : list ChannelLogEntry) (context : list ChannelContextEntry) (now : N)
    (user_text : option string) (execution : MultiChannelCommandExecution) : RtOp PersistEventOutcome :=
  delivered ← perform_command_delivery c event execution;
  let '(status, reason_code, member) := delivered in
  let command_payload :=
    obj_insert_opt "reason_code" (Some (Str reason_code))
      (obj_insert_opt "status" (Some (Str status)) (multi_channel_command_payload execution)) in
  _ ← append_user_context store context now user_text;
  let payload := json_obj
    ([("status", Str status); ("reason_code", Str reason_code)] ++ event_members event event_key route
     ++ [("route", pl_route p); ("pairing", pl_pairing p); ("secure_messaging", pl_secure p);
         ("channel_policy", pl_policy p); ("media_understanding", pl_media p)]) in
  let payload := obj_insert_opt "command" (Some command_payload) payload in
  let payload := match member with Some (key, v) => obj_insert_opt key (Some v) payload | None => payload end in
  let payload := obj_insert_opt "skip_reason" (Str <$> ex_skip_reason execution) payload in
  _ ← when (negb (log_contains_outbound_status logs event_key status))
        (append_outbound store event_key payload);
  mret outcome_default.

(** A lifecycle record that is not there yet; [1] when it was written. *)
Definition emit_lifecycle (store : ChannelStore) (logs : list ChannelLogEntry) (event_key status : string)
    (payload : RtOp Value)
    (record : MultiChannelRuntimeTelemetryCounters → MultiChannelRuntimeTelemetryCounters) : RtOp nat :=
  if log_contains_outbound_status logs event_key status then mret 0
  else
    value ← payload;
    _ ← append_outbound store event_key value;
    _ ← on_telemetry record;
    mret 1.

Definition lifecycle_payload c event (event_key : string) route (status kind state signal : string) : Value :=
  build_telemetry_lifecycle_payload status kind state signal event event_key (rd_session_key route)
    (tc_include_identifiers (mc_telemetry c)).

(** The typing record, with the indicator sent to Discord. *)
Definition typing_started_payload c event (event_key : string) route : RtOp Value :=
  let payload := lifecycle_payload c event event_key route "typing_started" "typing" "started"
                   (channel_typing_signal (me_transport event)) in
  if bool_decide (me_transport event = Discord) && bool_decide (oc_mode (mc_outbound c) = ModeProvider) then
    r ← on_net (deliver_typing_indicator (mc_outbound c) event);
    mret match r with
         | Ok delivery => obj_insert_opt "typing_delivery" (Some (delivery_value delivery)) payload
         | Err e => obj_insert_opt "typing_delivery_error" (Some (delivery_error_payload e)) payload
         end
  else mret payload.

Definition emit_started (store : ChannelStore) c event (event_key : string) route
    (logs : list ChannelLogEntry) : RtOp (nat * nat) :=
  let transport := transport_as_str (me_transport event) in
  typing ← emit_lifecycle store logs event_key "typing_started" (typing_started_payload c event event_key route)
             (record_typing_telemetry transport);
  presence ← emit_lifecycle store logs event_key "presence_active"
    (mret (lifecycle_payload c event event_key route "presence_active" "presence" "active"
             (channel_presence_signal (me_transport event) true))) (record_presence_telemetry transport);
  mret (typing, presence).

Definition emit_stopped (store : ChannelStore) c event (event_key : string) route
    (logs : list ChannelLogEntry) : RtOp (nat * nat) :=
  let transport := transport_as_str (me_transport event) in
  typing ← emit_lifecycle store logs event_key "typing_stopped"
    (mret (lifecycle_payload c event event_key route "typing_stopped" "typing" "stopped"
             (channel_typing_signal (me_transport event)))) (record_typing_telemetry transport);
  presence ← emit_lifecycle store logs event_key "presence_idle"
    (mret (lifecycle_payload c event event_key route "presence_idle" "presence" "idle"
             (channel_presence_signal (me_transport event) false))) (record_presence_telemetry transport);
  mret (typing, presence).

Definition delivery_failure_message (e : MultiChannelOutboundDeliveryError) : string :=
  "multi-channel outbound delivery failed: reason_code=" +:+ de_reason_code e +:+ " retryable=" +:+
  (if de_retryable e then "true" else "false") +:+ " chunk=" +:+ show_usize (de_chunk_index e) +:+ "/" +:+
  show_usize (de_chunk_count e) +:+ " detail=" +:+ de_detail e.

Definition persist_response (store : ChannelStore) c event (event_key : string) route (p : EventPayloads)
    (logs : list ChannelLogEntry) (context : list ChannelContextEntry) (now : N)
    (user_text : option string) (command_payload : option Value) (response_text : string)
    : RtOp PersistEventOutcome :=
  let response_chars := chars_count response_text in
  let lifecycle := should_emit_typing_presence_lifecycle event response_text (mc_telemetry c) in
  started ← (if lifecycle then emit_started store c event event_key route logs else mret (0, 0));
  delivered ← on_net (deliver (mc_outbound c) event response_text);
  match delivered with
  | Err e =>
      _ ← append_delivery_failure_log store c event event_key route p command_payload e;
      fail (delivery_failure_message e)
  | Ok delivery =>
      stopped ← (if lifecycle then emit_stopped store c event event_key route logs else mret (0, 0));
      _ ← append_user_context store context now user_text;
      _ ← when (negb (log_contains_outbound_response logs event_key response_text))
            (append_outbound store event_key
               (obj_insert_opt "command" command_payload
                  (json_obj
                     ([("response", Str response_text)] ++ event_members event event_key route
                      ++ [("route", pl_route p); ("pairing", pl_pairing p); ("secure_messaging", pl_secure p);
                          ("channel_policy", pl_policy p); ("media_understanding", pl_media p);
                          ("delivery", delivery_value delivery)]))));
      _ ← append_context_once store context now "assistant" response_text;
      let typing := started.1 + stopped.1 in
      let presence := started.2 + stopped.2 in
      if tc_usage_summary_enabled (mc_telemetry c) then
        let cost := default 0%N (extract_usage_estimated_cost_micros event) in
        _ ← on_telemetry (record_usage_summary_telemetry (transport_as_str (me_transport event))
                            response_chars (dl_chunk_count delivery) cost);
        mret (mkOutcome typing presence 1 response_chars (dl_chunk_count delivery) cost)
      else mret (mkOutcome typing presence 0 0 0 0)
  end.

Definition persist_event c event (event_key : string) access route : RtOp PersistEventOutcome :=
  store ← on_fs (channel_store_open (path_join (mc_state_dir c) "channel-store")
                   (transport_as_str (me_transport event)) (rd_session_key route));
  logs ← on_fs (load_log_entries store);
  context ← on_fs (load_context_entries store);
  now ← now_ms;
  let media_report := process_media_attachments event (mc_media c) in
  let user_text := build_user_context_text event (render_media_prompt_context media_report) in
  let p := mkPayloads (route_decision_trace_payload event event_key route now) (pairing_payload event access)
             (secure_messaging_payload access) (channel_policy_payload access)
             (media_report_value media_report) in
  _ ← when (negb (log_contains_event_direction logs event_key "inbound"))
        (_ ← on_fs (append_log_entry store
               (mkLogEntry now "inbound" (Some event_key) (transport_as_str (me_transport event))
                  (inbound_payload event route p)));
         on_fs (append_multi_channel_route_trace
                  (path_join (mc_state_dir c) MULTI_CHANNEL_ROUTE_TRACES_LOG_FILE) (pl_route p)));
  match ad_final_decision access with
  | ChannelDeny reason_code =>
      _ ← when (negb (log_contains_outbound_status logs event_key "denied"))
            (append_outbound store event_key (denied_payload event event_key reason_code access route p));
      mret outcome_default
  | ChannelAllow _ =>
      execution ← execute_tau_command_if_requested c event access;
      match execution with
      | Some execution =>
          if ex_suppress_outbound_delivery execution
          then persist_suppressed store c event event_key route p logs context now user_text execution
          else persist_response store c event event_key route p logs context now user_text
                 (Some (multi_channel_command_payload execution)) (ex_response_text execution)
      | None =>
          persist_response store c event event_key route p logs context now user_text None
            (render_response event)
      end
  end.

(** ** The retry loop *)

(** What became of an event: transient failures, retries, the outcome unless it
    failed. *)
Record AttemptReport := mkAttempts
  { at_transient_failures : nat; at_retry_attempts : nat; at_outcome : option PersistEventOutcome }.

Definition add_attempt (transient retries : nat) (r : AttemptReport) : AttemptReport :=
  mkAttempts (transient + at_transient_failures r) (retries + at_retry_attempts r) (at_outcome r).

Definition apply_retry_delay c (attempt : nat) (event_key : string) : RtOp unit :=
  let delay_ms := mc_retry_delay_ms (mc_retry_base_delay_ms c) (mc_retry_jitter_ms c) attempt event_key in
  when (0 <? delay_ms)%N (sleep delay_ms).

(** [Result] of a step as a value: the loop handles the error. *)
Definition attempt_step {A} (m : RtOp A) : RtOp (Result string A) := λ rt,
  let '(r, rt) := m rt in (Ok r, rt).

(** [attempts_left] is [retry_max_attempts - attempt]: it is zero exactly when no
    further attempt is allowed. *)
Fixpoint attempt_loop c event (event_key : string) access route (attempts_left attempt : nat)
    : RtOp AttemptReport :=
  if attempt <=? simulated_transient_failures event then
    match attempts_left with
    | O => mret (mkAttempts 1 0 None)
    | S attempts_left =>
        _ ← apply_retry_delay c attempt event_key;
        report ← attempt_loop c event event_key access route attempts_left (S attempt);
        mret (add_attempt 1 1 report)
    end
  else
    r ← attempt_step (persist_event c event event_key access route);
    match r with
    | Ok outcome => mret (mkAttempts 0 0 (Some outcome))
    | Err _ =>
        match attempts_left with
        | O => mret (mkAttempts 0 0 None)
        | S attempts_left =>
            _ ← apply_retry_delay c attempt event_key;
            report ← attempt_loop c event event_key access route attempts_left (S attempt);
            mret (add_attempt 1 1 report)
        end
    end.

(** ** A cycle *)

Definition add_duplicates (n : nat) (s : MultiChannelRuntimeSummary) : MultiChannelRuntimeSummary :=
  mkSummary (rs_discovered_events s) (rs_queued_events s) (rs_completed_events s)
    (rs_duplicate_skips s + n) (rs_transient_failures s) (rs_retry_attempts s) (rs_failed_events s)
    (rs_policy_checked_events s) (rs_policy_enforced_events s) (rs_policy_allowed_events s)
    (rs_policy_denied_events s) (rs_typing_events_emitted s) (rs_presence_events_emitted s)
    (rs_usage_summary_records s) (rs_usage_response_chars s) (rs_usage_chunks s)
    (rs_usage_estimated_cost_micros s).

(** The summary after an event was handled. *)
Definition add_event access (r : AttemptReport) (s : MultiChannelRuntimeSummary)
    : MultiChannelRuntimeSummary :=
  let outcome := default outcome_default (at_outcome r) in
  let completed := match at_outcome r with Some _ => 1 | None => 0 end in
  let allowed := match ad_final_decision access with ChannelAllow _ => completed | ChannelDeny _ => 0 end in
  mkSummary (rs_discovered_events s) (rs_queued_events s) (rs_completed_events s + completed)
    (rs_duplicate_skips s) (rs_transient_failures s + at_transient_failures r)
    (rs_retry_attempts s + at_retry_attempts r) (rs_failed_events s + (1 - completed))
    (S (rs_policy_checked_events s))
    (rs_policy_enforced_events s + (if ad_policy_enforced access then 1 else 0))
    (rs_policy_allowed_events s + allowed) (rs_policy_denied_events s + (completed - allowed))
    (rs_typing_events_emitted s + po_typing_events_emitted outcome)
    (rs_presence_events_emitted s + po_presence_events_emitted outcome)
    (rs_usage_summary_records s + po_usage_summary_records outcome)
    (rs_usage_response_chars s + po_usage_response_chars outcome)
    (rs_usage_chunks s + po_usage_chunks outcome)
    (saturating_add_u64 (rs_usage_estimated_cost_micros s) (po_usage_estimated_cost_micros outcome)).

Definition record_processed_events (cap : nat) (keys : list string) : RtOp unit :=
  modify (λ rt, foldl (λ rt key, record_processed_event cap key rt) rt keys).

(** The access decision may record a nonce in the replay file. *)
Definition decide_access c event (policy : option MultiChannelPolicyFile)
    : RtOp MultiChannelAccessDecision := λ rt,
  let '(fs, access) :=
    evaluate_access_decision (rt_fs rt) (mc_state_dir c) event (fs_now_ms (rt_fs rt)) policy in
  (Ok access, set_rt_fs fs rt).

Definition process_coalesced c (table : MultiAgentRouteTable) (bindings : MultiChannelRouteBindingFile)
    (policy : option MultiChannelPolicyFile) (s : MultiChannelRuntimeSummary)
    (batch : CoalescedInboundEvent) : RtOp MultiChannelRuntimeSummary :=
  let event := co_event batch in
  let source_keys := co_source_event_keys batch in
  let event_key := default (event_contract_key event) (head source_keys) in
  keys ← gets rt_keys;
  if forallb (λ key, bool_decide (key ∈ keys)) source_keys then mret (add_duplicates (length source_keys) s)
  else
    now ← now_ms;
    let route := resolve_multi_channel_event_route bindings table event now in
    access ← decide_access c event policy;
    report ← attempt_loop c event event_key access route (mc_retry_max_attempts c - 1) 1;
    _ ← when (bool_decide (is_Some (at_outcome report)))
          (record_processed_events (mc_processed_event_cap c) source_keys);
    mret (add_event access report s).

Fixpoint process_batches c (table : MultiAgentRouteTable) (bindings : MultiChannelRouteBindingFile)
    (policy : option MultiChannelPolicyFile) (s : MultiChannelRuntimeSummary)
    (batches : list CoalescedInboundEvent) : RtOp MultiChannelRuntimeSummary :=
  match batches with
  | [] => mret s
  | batch :: batches =>
      s ← process_coalesced c table bindings policy s batch;
      process_batches c table bindings policy s batches
  end.

Definition event_le (left right : MultiChannelInboundEvent) : bool :=
  match N.compare (me_timestamp_ms left) (me_timestamp_ms right) with
  | Lt => true
  | Gt => false
  | Eq => String.leb (event_contract_key left) (event_contract_key right)
  end.

Definition state_path c : string := path_join (mc_state_dir c) "state.json".

Definition save_multi_channel_runtime_state (path : string) (s : MultiChannelRuntimeState) : FileOp unit :=
  write_atomic path (encode_runtime_state s).

Definition append_multi_channel_cycle_report (path : string) (s : MultiChannelRuntimeSummary)
    (health : TransportHealthSnapshot) (health_reason : string) (reason_codes : list string) : FileOp unit :=
  _ ← create_parent path;
  now ← gets fs_now_ms;
  append_line_with_rotation path (encode_cycle_report now health health_reason reason_codes s)
    (rotation_from_env env_var).

Definition finish_state c (health : TransportHealthSnapshot) (s : MultiChannelRuntimeState)
    : MultiChannelRuntimeState :=
  mkRuntimeState (ms_schema_version s) (ms_processed_event_keys s) health (ms_telemetry s)
    (mkTelemetryPolicy (tc_typing_presence_enabled (mc_telemetry c)) (tc_usage_summary_enabled (mc_telemetry c))
       (tc_include_identifiers (mc_telemetry c)) (tc_typing_presence_min_response_chars (mc_telemetry c))).

Definition queued_events c (source_events : list MultiChannelInboundEvent) : list MultiChannelInboundEvent :=
  take (mc_queue_limit c) (sort_by event_le source_events).

Definition run_once_events c (table : MultiAgentRouteTable) (bindings : MultiChannelRouteBindingFile)
    (source_events : list MultiChannelInboundEvent) : RtOp MultiChannelRuntimeSummary :=
  started ← now_ms;
  let queued := queued_events c source_events in
  let summary := mkSummary (length source_events) (length queued) 0 0 0 0 0 0 0 0 0 0 0 0 0 0 0 in
  policy ← gets (λ rt, match load_multi_channel_policy_for_state_dir (rt_fs rt) (mc_state_dir c) with
                       | Ok policy => Some policy | Err _ => None end);
  summary ← process_batches c table bindings policy summary
              (coalesce_inbound_events queued (mc_coalescing_window_ms c));
  ended ← now_ms;
  streak ← gets (λ rt, th_failure_streak (ms_health (rt_state rt)));
  let health := build_transport_health_snapshot summary (ended - started)%N streak ended in
  _ ← modify (λ rt, set_rt_state (finish_state c health (rt_state rt)) rt);
  s ← gets rt_state;
  _ ← on_fs (save_multi_channel_runtime_state (state_path c) s);
  _ ← on_fs (append_multi_channel_cycle_report
               (path_join (mc_state_dir c) MULTI_CHANNEL_RUNTIME_EVENTS_LOG_FILE) summary health
               (hc_reason (classify health)) (cycle_reason_codes summary));
  mret summary.

Definition load_multi_channel_runtime_state (path : string) : FileOp MultiChannelRuntimeState :=
  there ← path_exists path;
  if (there : bool) then
    raw ← read_file path ("failed to read " +:+ path);
    mret match decode_runtime_state raw with
         | Some parsed =>
             if (ms_schema_version parsed =? MULTI_CHANNEL_RUNTIME_STATE_SCHEMA_VERSION)%N then parsed
             else runtime_state_default
         | None => runtime_state_default
         end
  else mret runtime_state_default.

(** The route table and the bindings of the runtime, and its initial state. *)
Definition runtime_new c (fs : TextFs) (net : list NetEvent)
    : Result string (MultiAgentRouteTable * MultiChannelRouteBindingFile * Runtime) * TextFs :=
  (_ ← create_dir_all (mc_state_dir c);
   table ← (match mc_orchestrator_route_table_path c with
            | Some path => λ fs, (load_multi_agent_route_table fs path, fs)
            | None => mret route_table_default
            end : FileOp MultiAgentRouteTable);
   bindings ← gets (λ fs, match load_multi_channel_route_bindings_for_state_dir fs (mc_state_dir c) with
                          | Ok bindings => bindings | Err _ => route_bindings_default end);
   loaded ← load_multi_channel_runtime_state (state_path c);
   let keys := normalize_processed_keys (ms_processed_event_keys loaded) (mc_processed_event_cap c) in
   let s := mkRuntimeState (ms_schema_version loaded) keys (ms_health loaded) (ms_telemetry loaded)
              (ms_telemetry_policy loaded) in
   _ ← of_result (dispatcher_new (mc_outbound c));
   fs ← gets (λ fs, fs);
   mret (table, bindings, mkRuntime s (list_to_set keys) fs net) : FileOp _) fs.
End runtime.
