(* ===== verification/MultiChannelTheorems.v ===== *)
(** * Properties of the multi-channel runtime

    What a cycle may change: every request it sends is screened by the guard, a
    denied event has no effect outside the log, the processed keys stay distinct
    and bounded, events are delivered once, and the summary counts what
    happened. *)

From Stdlib Require Import NArith Ascii Lia.
From stdpp Require Import base gmap sets strings list.
From S2P Require Import Prelude RustStr Json Effects AtomicIo TrustRoots SignedEnvelope EnvelopeTheorems MultiAgentRouter StateDirs ChannelStore ChannelStoreTheorems LogRotation SsrfGuard MultiChannelPolicy MultiChannelRouting MultiChannelMedia MultiChannelCommands MultiChannelOutbound OutboundTheorems MultiChannelAccess MultiChannelEvents MultiChannelRuntime.

#[local] Open Scope string_scope.
#[local] Open Scope list_scope.
#[local] Open Scope nat_scope.

(** ** A concrete setting of the multi-channel runtime

    Instances of the interfaces and a small configuration, for runs of the
    runtime on concrete events. *)

(** Every name resolves to one public address, and every request is accepted. *)
Definition quiet_network : Network :=
  {| parse_url s := Ok (mkUrl s "https" (Some "api.example") (Some 443%N));
     url_join _ location := Ok (mkUrl location "https" (Some "api.example") (Some 443%N));
     parse_ip _ := None; show_ip _ := ""; show_status _ := "";
     lookup_host _ _ := Ok [V4 93 184 216 34];
     http_send _ _ := HttpResponse 200 None "{}" |}.
#[export] Instance blank_json : JsonCodec :=
  {| json_parse _ := None; json_to_string _ := "{}"; json_to_string_pretty _ := "{}" |}.
#[export] Instance blank_runtime : RuntimeCodec :=
  {| event_value _ := json_obj []; media_report_value _ := Null; delivery_value _ := Null;
     decode_runtime_state _ := None; encode_runtime_state _ := "{}";
     encode_cycle_report _ _ _ _ _ := "{}" |}.
Definition no_envelopes : EnvelopeCodec Value :=
  {| decode_envelope _ := None; decode_replay_guard _ := None; encode_replay_guard _ := "" |}.
#[export] Instance default_policies : ChannelPolicyCodec := {| decode_channel_policy _ := None |}.
#[export] Instance default_routes : RouteTableCodec := {| decode_route_table _ := None |}.
#[export] Instance default_bindings : RouteBindingsCodec := {| decode_route_bindings _ := None |}.
Definition open_pairing : PairingEvaluator :=
  {| evaluate_pairing _ _ _ _ _ := Ok (ChannelAllow "allow_permissive_mode") |}.

Definition no_env (_ : string) : option string := None.
Definition blank_fs : TextFs := mkTextFs ∅ ∅ (λ _, false) (λ _, false) 7 1000.

Definition provider_outbound : MultiChannelOutboundConfig :=
  mkOutboundConfig ModeProvider 1200 5000 true false false 5 "https://api.telegram.org"
    "https://discord.com/api/v10" "https://graph.facebook.com/v20.0" (Some "bot") (Some "secret") None None.

Definition small_config (attempts : nat) (window : N) : MultiChannelRuntimeConfig :=
  mkRuntimeConfig "d" None 8 16 attempts 0 0 window provider_outbound
    (mkTelemetryConfig false true false 120) media_config_default (mkHandlers None None None).

Definition small_event (id : string) (time : N) (text : string) (metadata : gmap string Value)
    : MultiChannelInboundEvent :=
  mkEvent 1 Telegram EventMessage id "c" "" "a" "" time text []
    (<["chat_type" := Str "private"]> metadata).

Definition small_runtime : Runtime := mkRuntime runtime_state_default ∅ blank_fs [].

Definition small_cycle `{!Network, !EnvelopeCodec Value} (attempts : nat) (window : N)
    (events : list MultiChannelInboundEvent) (rt : Runtime)
    : Result string MultiChannelRuntimeSummary * Runtime :=
  let _ := open_pairing in
  run_once_events no_env (small_config attempts window) route_table_default route_bindings_default events rt.

(** Completed, denied, failed and skipped events. *)
Definition outcome (r : Result string MultiChannelRuntimeSummary) : option (nat * nat * nat * nat) :=
  match r with
  | Ok s => Some (rs_completed_events s, rs_policy_denied_events s, rs_failed_events s, rs_duplicate_skips s)
  | Err _ => None
  end.

(** ** Signed messages *)

(** The envelope of an event names its key, nonce and time. *)
Definition signed_values : EnvelopeCodec Value :=
  {| decode_envelope v :=
       match v with
       | Arr [Str id; Num (PosInt time)] =>
           Some (mkEnvelope 1 "ops" ("nonce-" +:+ id) time "telegram:c" "a" id
                   (of_chars (replicate 64 "s"%char)))
       | _ => None
       end;
     decode_replay_guard := decode_replay_guard (Value := SignedEnvelope);
     encode_replay_guard := encode_replay_guard (Value := SignedEnvelope) |}.

Definition signed_event (id : string) (time : N) (text : string) : MultiChannelInboundEvent :=
  small_event id time text {[SIGNED_ENVELOPE_METADATA_KEY := Arr [Str id; Num (PosInt time)]]}.

(** The first request fails. *)
Definition flaky_network : Network :=
  {| parse_url := @parse_url quiet_network; url_join := @url_join quiet_network;
     parse_ip := @parse_ip quiet_network; show_ip := @show_ip quiet_network;
     show_status := @show_status quiet_network; lookup_host := @lookup_host quiet_network;
     http_send past _ :=
       if existsb (λ e, match e with Sent _ _ => true | Looked _ _ => false end) past
       then HttpResponse 200 None "{}" else HttpResponse 503 None "" |}.

Definition signed_fs : TextFs :=
  mkTextFs {[ep_trust_root_path (signed_envelope_policy_for_state_dir "d") := "x"]} ∅
    (λ _, false) (λ _, false) 7 1000.
Definition signed_runtime : Runtime := mkRuntime runtime_state_default ∅ signed_fs [].

Create HintDb runtime.

Section theorems.
Context `{!ChannelCodec, !RuntimeCodec, !Network, !JsonCodec, !EnvelopeCodec Value, !EnvelopeCrypto,
          !TrustRootCodec, !PairingEvaluator, !ChannelPolicyCodec, !RouteTableCodec, !RouteBindingsCodec}.
Context (env_var : string → option string).
Implicit Types (c : MultiChannelRuntimeConfig) (event : MultiChannelInboundEvent)
  (access : MultiChannelAccessDecision) (route : MultiChannelRouteDecision) (rt : Runtime).

(** ** Effects of the parts on the state *)

Section frames.
Context (R : relation Runtime) `{!PreOrder R}.
Context (R_fs : ∀ fs rt, R rt (set_rt_fs fs rt)).

Lemma on_fs_moves {A} (m : FileOp A) : moves R (on_fs m).
Proof. intros rt. unfold on_fs. destruct (m (rt_fs rt)) as [r fs]. apply R_fs. Qed.
Lemma now_ms_moves : moves R now_ms.
Proof. apply moves_gets; apply _. Qed.
Lemma sleep_moves delay : moves R (sleep delay).
Proof. apply moves_modify. intros rt. apply R_fs. Qed.
Lemma attempt_step_moves {A} (m : RtOp A) : moves R m → moves R (attempt_step m).
Proof. intros Hm rt. unfold attempt_step. specialize (Hm rt). by destruct (m rt). Qed.
Lemma decide_access_moves c event policy : moves R (decide_access c event policy).
Proof.
  intros rt. unfold decide_access. destruct (evaluate_access_decision _ _ _ _ _). apply R_fs.
Qed.
End frames.
#[local] Hint Resolve on_fs_moves now_ms_moves sleep_moves decide_access_moves : runtime.

(** Relations of composed computations. *)
#[local] Ltac frame_parts :=
  repeat first
    [ solve [eauto with runtime]
    | apply moves_ret; apply _ | apply moves_fail; apply _ | apply moves_gets; apply _
    | apply moves_of_result; apply _
    | apply moves_bind; [apply _| |intros ?]
    | apply moves_when; [apply _|]
    | apply attempt_step_moves
    | case_match ].

(** *** Files only *)

(** Nothing but files changed. *)
Definition files_only : relation Runtime := λ a b,
  rt_state b = rt_state a ∧ rt_keys b = rt_keys a ∧ rt_net b = rt_net a.
#[local] Instance files_only_preorder : PreOrder files_only.
Proof. split; [done|]. intros a b d (? & ? & ?) (? & ? & ?). unfold files_only. split_and!; congruence. Qed.
Lemma files_only_fs fs rt : files_only rt (set_rt_fs fs rt).
Proof. done. Qed.
#[local] Hint Resolve files_only_fs : runtime.

Lemma append_outbound_files store event_key payload :
  moves files_only (append_outbound store event_key payload).
Proof. unfold append_outbound. frame_parts. Qed.
#[local] Hint Resolve append_outbound_files : runtime.

Lemma denied_files_only c event event_key access route reason :
  ad_final_decision access = ChannelDeny reason →
  moves files_only (persist_event env_var c event event_key access route).
Proof. intros Hd. unfold persist_event. rewrite Hd. frame_parts. Qed.

(** An event that is not let in has no effect but log records: nothing is sent, no
    command runs, and the counters and processed keys stay, however the files fail. *)
Theorem denied_event_inert c event event_key access route reason rt :
  ad_final_decision access = ChannelDeny reason →
  let rt' := (persist_event env_var c event event_key access route rt).2 in
  rt_net rt' = rt_net rt ∧ rt_state rt' = rt_state rt ∧ rt_keys rt' = rt_keys rt.
Proof. intros Hd. destruct (denied_files_only c event event_key access route reason Hd rt) as (? & ? & ?). done. Qed.

(** *** Requests and processed keys *)

(** Requests are screened, and the processed keys are kept. *)
Definition screens_net (config : SsrfProtectionConfig) : relation Runtime := λ a b,
  screened config (rt_net a) (rt_net b).
Definition keeps_keys (config : SsrfProtectionConfig) : relation Runtime := λ a b,
  screens_net config a b ∧ rt_keys b = rt_keys a ∧
  ms_processed_event_keys (rt_state b) = ms_processed_event_keys (rt_state a).
#[local] Instance screens_net_preorder config : PreOrder (screens_net config).
Proof.
  unfold screens_net. split; [by intros ?|]. intros a b d. apply transitivity.
Qed.
#[local] Instance keeps_keys_preorder config : PreOrder (keeps_keys config).
Proof.
  split; [intros a; by repeat split|]. intros a b d (Hs1 & Hk1 & Hl1) (Hs2 & Hk2 & Hl2).
  unfold keeps_keys. split_and!; [by etrans|congruence..].
Qed.
Lemma screens_net_fs config fs rt : screens_net config rt (set_rt_fs fs rt).
Proof. unfold screens_net. reflexivity. Qed.
Lemma keeps_keys_fs config fs rt : keeps_keys config rt (set_rt_fs fs rt).
Proof. unfold keeps_keys. split_and!; [apply screens_net_fs|done..]. Qed.
#[local] Hint Resolve screens_net_fs keeps_keys_fs : runtime.

Abbreviation keeps c m := (moves (keeps_keys (ssrf_config (mc_outbound c))) m).

Lemma on_net_keeps {A} c (m : NetOp A) :
  moves (screened (ssrf_config (mc_outbound c))) m → keeps c (on_net m).
Proof.
  intros Hm rt. unfold on_net. specialize (Hm (rt_net rt)). by destruct (m (rt_net rt)).
Qed.
Lemma on_telemetry_keeps c f : keeps c (on_telemetry f).
Proof. apply moves_modify. intros rt. unfold keeps_keys. split_and!; [unfold screens_net; reflexivity|done..]. Qed.
#[local] Hint Resolve on_net_keeps on_telemetry_keeps deliver_screens deliver_one_screens : runtime.

Lemma execute_approvals_keeps c event action args : keeps c (execute_approvals_command c event action args).
Proof.
  intros rt. unfold execute_approvals_command.
  destruct (ch_approvals _) as [handler|]; [|reflexivity].
  destruct (match action with ApprovalsList => _ | _ => _ end) as [actor|]; [|reflexivity].
  destruct (handler _ _ _ _). apply keeps_keys_fs.
Qed.
#[local] Hint Resolve execute_approvals_keeps : runtime.

Lemma execute_tau_command_keeps c event command : keeps c (execute_tau_command c event command).
Proof. unfold execute_tau_command. frame_parts. Qed.
#[local] Hint Resolve execute_tau_command_keeps : runtime.

Lemma execute_requested_keeps c event access : keeps c (execute_tau_command_if_requested c event access).
Proof. unfold execute_tau_command_if_requested. frame_parts. Qed.

Lemma append_outbound_keeps c store event_key payload : keeps c (append_outbound store event_key payload).
Proof. unfold append_outbound. frame_parts. Qed.
#[local] Hint Resolve execute_requested_keeps append_outbound_keeps : runtime.

Lemma append_user_context_keeps c store context now text :
  keeps c (append_user_context store context now text).
Proof. unfold append_user_context, append_context_once. frame_parts. Qed.
#[local] Hint Resolve append_user_context_keeps : runtime.

Lemma perform_command_delivery_keeps c event execution :
  keeps c (perform_command_delivery c event execution).
Proof. unfold perform_command_delivery, deliver_file, deliver_reaction, deliver_thread. frame_parts. Qed.
#[local] Hint Resolve perform_command_delivery_keeps : runtime.

Lemma persist_suppressed_keeps c store event event_key route p logs context now text execution :
  keeps c (persist_suppressed store c event event_key route p logs context now text execution).
Proof. unfold persist_suppressed. frame_parts. Qed.

Lemma emit_lifecycle_keeps c store logs event_key status payload record :
  keeps c payload → keeps c (emit_lifecycle store logs event_key status payload record).
Proof. intros Hp. unfold emit_lifecycle. frame_parts. Qed.

Lemma typing_payload_keeps c event event_key route : keeps c (typing_started_payload c event event_key route).
Proof. unfold typing_started_payload, deliver_typing_indicator. frame_parts. Qed.
#[local] Hint Resolve persist_suppressed_keeps typing_payload_keeps : runtime.

Lemma emit_started_keeps c store event event_key route logs :
  keeps c (emit_started store c event event_key route logs).
Proof. unfold emit_started. frame_parts; apply emit_lifecycle_keeps; frame_parts. Qed.
Lemma emit_stopped_keeps c store event event_key route logs :
  keeps c (emit_stopped store c event event_key route logs).
Proof. unfold emit_stopped. frame_parts; apply emit_lifecycle_keeps; frame_parts. Qed.
#[local] Hint Resolve emit_started_keeps emit_stopped_keeps : runtime.

Lemma persist_response_keeps c store event event_key route p logs context now text command response :
  keeps c (persist_response store c event event_key route p logs context now text command response).
Proof. unfold persist_response, append_delivery_failure_log, append_context_once. frame_parts. Qed.
#[local] Hint Resolve persist_response_keeps : runtime.

Lemma persist_event_keeps c event event_key access route :
  keeps c (persist_event env_var c event event_key access route).
Proof. unfold persist_event. frame_parts. Qed.
#[local] Hint Resolve persist_event_keeps : runtime.

Lemma attempt_loop_keeps c event event_key access route left attempt :
  keeps c (attempt_loop env_var c event event_key access route left attempt).
Proof.
  revert attempt. induction left as [|left IH]; intros attempt; cbn [attempt_loop];
    unfold apply_retry_delay; frame_parts.
Qed.
#[local] Hint Resolve attempt_loop_keeps : runtime.

(** ** The processed keys *)

(** The keys are distinct, at most [cap], and the set holds the same ones. *)
Definition keys_ok (cap : nat) rt : Prop :=
  NoDup (ms_processed_event_keys (rt_state rt)) ∧
  length (ms_processed_event_keys (rt_state rt)) ≤ cap ∧
  rt_keys rt = list_to_set (ms_processed_event_keys (rt_state rt)).

Lemma record_processed_event_ok cap key rt :
  keys_ok cap rt → keys_ok cap (record_processed_event cap key rt).
Proof.
  intros (Hnd & Hlen & Hset). unfold record_processed_event.
  case_bool_decide as Hin; [done|]. set (keys := _ ++ [key]). set (n := length keys - cap).
  assert (NoDup keys) as Hkeys.
  { apply NoDup_app. split_and!; [done| |apply NoDup_singleton].
    intros x Hx ->%list_elem_of_singleton. apply Hin. rewrite Hset. by apply elem_of_list_to_set. }
  rewrite <- (take_drop n keys) in Hkeys. apply NoDup_app in Hkeys as (_ & Hdisj & Hdrop).
  split_and!; cbn; [done|rewrite length_drop; lia|].
  assert ({[key]} ∪ rt_keys rt = list_to_set keys) as ->
    by (unfold keys; rewrite Hset, list_to_set_app_L; set_solver).
  rewrite <- (take_drop n keys) at 1. rewrite list_to_set_app_L.
  apply set_eq. intros x. specialize (Hdisj x). set_solver.
Qed.

Lemma record_processed_events_ok cap keys rt :
  keys_ok cap rt → keys_ok cap (foldl (λ rt key, record_processed_event cap key rt) rt keys).
Proof.
  revert rt. induction keys as [|key keys IH]; intros rt Hok; [done|]. by apply IH, record_processed_event_ok.
Qed.

Lemma record_processed_events_net cap keys rt :
  rt_net (foldl (λ rt key, record_processed_event cap key rt) rt keys) = rt_net rt.
Proof.
  revert rt. induction keys as [|key keys IH]; intros rt; [done|]. cbn [foldl]. rewrite IH.
  unfold record_processed_event. by case_bool_decide.
Qed.

(** Requests are screened, and the invariant of the keys is kept. *)
Definition cycle_rel c : relation Runtime := λ a b,
  screens_net (ssrf_config (mc_outbound c)) a b ∧
  (keys_ok (mc_processed_event_cap c) a → keys_ok (mc_processed_event_cap c) b).
#[local] Instance cycle_rel_preorder c : PreOrder (cycle_rel c).
Proof.
  split; [by intros a; split|]. intros a b d [Hs1 Hk1] [Hs2 Hk2]. split; [by etrans|auto].
Qed.
Lemma keeps_cycle c {A} (m : RtOp A) : keeps c m → moves (cycle_rel c) m.
Proof.
  intros Hm rt. destruct (Hm rt) as (Hs & Hk & Hl). split; [done|]. unfold keys_ok. by rewrite Hk, Hl.
Qed.
Lemma record_cycle c keys : moves (cycle_rel c) (record_processed_events (mc_processed_event_cap c) keys).
Proof.
  apply moves_modify. intros rt. split; [|apply record_processed_events_ok].
  unfold screens_net. by rewrite record_processed_events_net.
Qed.
Lemma cycle_rel_fs c fs rt : cycle_rel c rt (set_rt_fs fs rt).
Proof. by split; [apply screens_net_fs|]. Qed.
#[local] Hint Resolve keeps_cycle record_cycle cycle_rel_fs : runtime.

Lemma process_coalesced_cycle c table bindings policy s batch :
  moves (cycle_rel c) (process_coalesced env_var c table bindings policy s batch).
Proof. unfold process_coalesced. frame_parts. Qed.
#[local] Hint Resolve process_coalesced_cycle : runtime.

Lemma process_batches_cycle c table bindings policy s batches :
  moves (cycle_rel c) (process_batches env_var c table bindings policy s batches).
Proof.
  revert s. induction batches as [|batch batches IH]; intros s; cbn [process_batches]; frame_parts.
Qed.
#[local] Hint Resolve process_batches_cycle : runtime.

Lemma run_once_events_cycle c table bindings source_events :
  moves (cycle_rel c) (run_once_events env_var c table bindings source_events).
Proof.
  unfold run_once_events. frame_parts.
  apply moves_modify. intros rt. split; [unfold screens_net; reflexivity|done].
Qed.


(** *** From start *)

Lemma dedup_keys_ok seen raw : NoDup (dedup_keys seen raw) ∧ ∀ key, key ∈ dedup_keys seen raw → key ∉ seen.
Proof.
  revert seen. induction raw as [|key raw IH]; intros seen; cbn [dedup_keys].
  { split; [constructor|]. intros key Hkey. inversion Hkey. }
  destruct (is_empty _); cbn [orb]; [apply IH|]. case_bool_decide as Hin; [apply IH|].
  destruct (IH ({[trim key]} ∪ seen)) as [Hnd Hnot]. split.
  - constructor; [|done]. intros Hk%Hnot. set_solver.
  - intros k [->|Hk]%elem_of_cons; [done|]. apply Hnot in Hk. set_solver.
Qed.

Lemma normalize_processed_keys_ok raw cap :
  NoDup (normalize_processed_keys raw cap) ∧ length (normalize_processed_keys raw cap) ≤ cap.
Proof.
  unfold normalize_processed_keys. destruct (Nat.eqb_spec cap 0); [by split; [constructor|cbn; lia]|].
  split; [|rewrite length_drop; lia]. eapply sublist_NoDup; [apply dedup_keys_ok|apply sublist_drop].
Qed.

(** The states of a runtime: started, after a cycle, and after other programs
    changed files. *)
Inductive reachable c : Runtime → Prop :=
| reachable_new fs net table bindings rt fs' :
    runtime_new c fs net = (Ok (table, bindings, rt), fs') → reachable c rt
| reachable_cycle table bindings source_events rt :
    reachable c rt → reachable c (run_once_events env_var c table bindings source_events rt).2
| reachable_files fs rt : reachable c rt → reachable c (set_rt_fs fs rt).

Lemma runtime_new_ok c fs net table bindings rt fs' :
  runtime_new c fs net = (Ok (table, bindings, rt), fs') → keys_ok (mc_processed_event_cap c) rt.
Proof.
  unfold runtime_new. intros (? & ? & _ & Hr)%eff_bind_Ok. apply eff_bind_Ok in Hr as (? & ? & _ & Hr).
  apply eff_bind_Ok in Hr as (? & ? & _ & Hr). apply eff_bind_Ok in Hr as (loaded & ? & _ & Hr).
  apply eff_bind_Ok in Hr as (? & ? & _ & Hr). apply eff_bind_Ok in Hr as (? & ? & _ & Hr).
  injection Hr as <- <- <- <-.
  destruct (normalize_processed_keys_ok (ms_processed_event_keys loaded) (mc_processed_event_cap c)).
  split_and!; done.
Qed.

(** In every state a runtime reaches, the processed keys it keeps are distinct,
    at most as many as configured, and the set it looks keys up in holds exactly
    the keys of the list it saves, whatever the state file held at the start. *)
Theorem processed_keys_invariant c rt : reachable c rt → keys_ok (mc_processed_event_cap c) rt.
Proof.
  induction 1 as [fs net table bindings rt fs' Hnew|table bindings events rt _ IH|fs rt _ IH].
  - by eapply runtime_new_ok.
  - by apply (run_once_events_cycle c table bindings events rt).
  - done.
Qed.

(** ** Attempts *)

Lemma apply_retry_delay_ok c attempt event_key rt :
  ∃ rt', apply_retry_delay c attempt event_key rt = (Ok tt, rt').
Proof. unfold apply_retry_delay, when. destruct (0 <? _)%N; eexists; reflexivity. Qed.

(** The loop always comes to a report, with at most the permitted retries; a
    transient failure is retried, or the last one. *)
Lemma attempt_loop_report c event event_key access route left attempt rt :
  ∃ report rt', attempt_loop env_var c event event_key access route left attempt rt = (Ok report, rt') ∧
    at_retry_attempts report ≤ left ∧
    at_transient_failures report ≤ at_retry_attempts report + (if at_outcome report then 0 else 1).
Proof.
  revert attempt rt. induction left as [|left IH]; intros attempt rt; cbn [attempt_loop].
  - destruct (attempt <=? _); [eexists _, _; split; [done|cbn; lia]|].
    rewrite eff_bind_unfold. unfold attempt_step at 1.
    destruct (persist_event _ _ _ _ _ _ _) as [[outcome|e] rt1]; eexists _, _; split; try done; cbn; lia.
  - assert (∀ rt1, ∃ report rt',
      (_ ← apply_retry_delay c attempt event_key;
       report ← attempt_loop env_var c event event_key access route left (S attempt);
       mret (add_attempt 1 1 report) : RtOp _) rt1 = (Ok report, rt') ∧
      at_retry_attempts report ≤ S left ∧
      at_transient_failures report ≤ at_retry_attempts report + (if at_outcome report then 0 else 1)) as Hretry.
    { intros rt1. rewrite eff_bind_unfold.
      destruct (apply_retry_delay_ok c attempt event_key rt1) as [rt2 ->]. rewrite eff_bind_unfold. destruct (IH (S attempt) rt2) as (report & rt3 & -> & Hr & Ht).
      eexists _, _. split; [done|]. cbn. destruct (at_outcome report); lia. }
    destruct (attempt <=? _); [apply Hretry|].
    rewrite eff_bind_unfold. unfold attempt_step at 1.
    destruct (persist_event _ _ _ _ _ _ _) as [[outcome|e] rt1]; [|apply Hretry].
    eexists _, _. split; [done|]. cbn. lia.
Qed.

(** ** One batch *)

Definition seen rt batch : bool := forallb (λ key, bool_decide (key ∈ rt_keys rt)) (co_source_event_keys batch).

Lemma seen_true rt batch : seen rt batch = true ↔ ∀ key, key ∈ co_source_event_keys batch → key ∈ rt_keys rt.
Proof.
  unfold seen. rewrite forallb_forall. setoid_rewrite bool_decide_eq_true.
  by setoid_rewrite list_elem_of_In.
Qed.

(** A batch seen before is counted and has no effect. *)
Lemma process_seen c table bindings policy s batch rt :
  seen rt batch = true →
  process_coalesced env_var c table bindings policy s batch rt =
    (Ok (add_duplicates (length (co_source_event_keys batch)) s), rt).
Proof. intros Hs. unfold process_coalesced. rewrite eff_bind_unfold. cbn [gets]. fold (seen rt batch). by rewrite Hs. Qed.

(** Any other batch is decided on and handled to a report. *)
Lemma process_unseen c table bindings policy s batch rt :
  seen rt batch = false →
  ∃ access report rt1,
    keeps_keys (ssrf_config (mc_outbound c)) rt rt1 ∧
    at_retry_attempts report ≤ mc_retry_max_attempts c - 1 ∧
    at_transient_failures report ≤ at_retry_attempts report + (if at_outcome report then 0 else 1) ∧
    process_coalesced env_var c table bindings policy s batch rt =
      (Ok (add_event access report s),
       if at_outcome report
       then foldl (λ rt key, record_processed_event (mc_processed_event_cap c) key rt) rt1
              (co_source_event_keys batch)
       else rt1).
Proof.
  intros Hs. unfold process_coalesced. rewrite eff_bind_unfold. cbn [gets]. fold (seen rt batch). rewrite Hs.
  rewrite eff_bind_unfold. cbn [now_ms gets]. rewrite eff_bind_unfold.
  pose proof (decide_access_moves (keeps_keys (ssrf_config (mc_outbound c))) (keeps_keys_fs _) c
                (co_event batch) policy rt) as Hkeep.
  unfold decide_access in *. destruct (evaluate_access_decision _ _ _ _ _) as [fs access]. cbn [snd] in Hkeep.
  rewrite eff_bind_unfold.
  match goal with |- context [attempt_loop env_var c ?e ?k ?a ?r ?l ?n ?rt1] =>
    pose proof (attempt_loop_keeps c e k a r l n rt1) as Hk;
    destruct (attempt_loop_report c e k a r l n rt1) as (report & rt2 & Heq & Hr & Ht) end.
  rewrite Heq in Hk |- *. cbn [snd] in Hk. exists access, report, rt2. split_and!; [by etrans|done|done|].
  rewrite eff_bind_unfold. unfold when. by destruct (at_outcome report).
Qed.

(** ** The summary *)

(** The counts of a summary after [n] source events, with at most [retries]
    retries per batch. *)
Record accounts (retries n : nat) (s : MultiChannelRuntimeSummary) : Prop := mkAccounts
  { acc_checked : rs_completed_events s + rs_failed_events s = rs_policy_checked_events s;
    acc_decided : rs_policy_allowed_events s + rs_policy_denied_events s = rs_completed_events s;
    acc_retries : rs_retry_attempts s ≤ retries * rs_policy_checked_events s;
    acc_transient : rs_transient_failures s ≤ rs_retry_attempts s + rs_failed_events s;
    acc_enforced : rs_policy_enforced_events s ≤ rs_policy_checked_events s;
    acc_events : rs_policy_checked_events s + rs_duplicate_skips s ≤ n }.

Lemma add_duplicates_accounts retries n m s :
  accounts retries n s → accounts retries (n + m) (add_duplicates m s).
Proof. intros []. constructor; cbn; lia. Qed.

Lemma add_event_accounts retries n m access report s :
  0 < m → at_retry_attempts report ≤ retries →
  at_transient_failures report ≤ at_retry_attempts report + (if at_outcome report then 0 else 1) →
  accounts retries n s → accounts retries (n + m) (add_event access report s).
Proof.
  intros Hm Hr Ht []. constructor; cbn;
    destruct (at_outcome report), (ad_final_decision access), (ad_policy_enforced access); lia.
Qed.

Definition batch_keys (batches : list CoalescedInboundEvent) : list string :=
  mjoin (co_source_event_keys <$> batches).

Lemma batch_keys_cons batch batches :
  batch_keys (batch :: batches) = co_source_event_keys batch ++ batch_keys batches.
Proof. done. Qed.

Lemma process_batches_accounts c table bindings policy s batches n rt :
  Forall (λ batch, co_source_event_keys batch ≠ []) batches →
  accounts (mc_retry_max_attempts c - 1) n s →
  ∃ s' rt', process_batches env_var c table bindings policy s batches rt = (Ok s', rt') ∧
    accounts (mc_retry_max_attempts c - 1) (n + length (batch_keys batches)) s' ∧
    rs_discovered_events s' = rs_discovered_events s ∧ rs_queued_events s' = rs_queued_events s.
Proof.
  intros Hne. revert s n rt. induction Hne as [|batch batches Hb _ IH]; intros s n rt Hacc.
  { exists s, rt. unfold batch_keys; cbn. by rewrite Nat.add_0_r. }
  cbn [process_batches]. rewrite eff_bind_unfold. rewrite batch_keys_cons, length_app, Nat.add_assoc.
  destruct (seen rt batch) eqn:Hseen.
  - rewrite (process_seen _ _ _ _ _ _ _ Hseen).
    destruct (IH _ _ rt (add_duplicates_accounts _ _ (length (co_source_event_keys batch)) _ Hacc))
      as (s' & rt' & -> & Hacc' & ? & ?). by exists s', rt'.
  - destruct (process_unseen c table bindings policy s batch rt Hseen)
      as (access & report & rt1 & _ & Hr & Ht & ->).
    assert (0 < length (co_source_event_keys batch)) as Hlen by (destruct (co_source_event_keys batch); [done|cbn; lia]).
    edestruct (IH (add_event access report s)) as (s' & rt' & -> & Hacc' & ? & ?);
      [by apply add_event_accounts|]. by exists s', rt'.
Qed.

Lemma coalesced_nonempty window events :
  Forall (λ batch, co_source_event_keys batch ≠ []) (coalesce_inbound_events events window).
Proof. apply Forall_forall. intros batch. apply coalesce_keys_nonempty. Qed.

Lemma coalesced_keys window events :
  batch_keys (coalesce_inbound_events events window) = event_contract_key <$> events.
Proof. apply coalesce_keys. Qed.

(** The summary a cycle starts from. *)
Definition cycle_start c (source_events : list MultiChannelInboundEvent) : MultiChannelRuntimeSummary :=
  mkSummary (length source_events) (length (queued_events c source_events)) 0 0 0 0 0 0 0 0 0 0 0 0 0 0 0.

(** The policy a cycle works with. *)
Definition cycle_policy c rt : option MultiChannelPolicyFile :=
  match load_multi_channel_policy_for_state_dir (rt_fs rt) (mc_state_dir c) with
  | Ok policy => Some policy | Err _ => None
  end.

(** The batches a cycle handles. *)
Definition cycle_batches c (source_events : list MultiChannelInboundEvent) : list CoalescedInboundEvent :=
  coalesce_inbound_events (queued_events c source_events) (mc_coalescing_window_ms c).

(** A cycle handles its batches; what it does afterwards, it does to the files and
    to counters. *)
Lemma run_once_events_batches c table bindings source_events rt s rt1 :
  process_batches env_var c table bindings (cycle_policy c rt) (cycle_start c source_events)
    (cycle_batches c source_events) rt = (Ok s, rt1) →
  let '(r, rt2) := run_once_events env_var c table bindings source_events rt in
  (r = Ok s ∨ ∃ e, r = Err e) ∧ rt_net rt2 = rt_net rt1 ∧ rt_keys rt2 = rt_keys rt1 ∧
  ms_processed_event_keys (rt_state rt2) = ms_processed_event_keys (rt_state rt1).
Proof.
  intros Hrun. unfold run_once_events.
  rewrite eff_bind_unfold. cbn [now_ms gets]. rewrite eff_bind_unfold. cbn [gets].
  fold (cycle_policy c rt) (cycle_start c source_events) (cycle_batches c source_events).
  rewrite eff_bind_unfold, Hrun. rewrite eff_bind_unfold. cbn [now_ms gets].
  rewrite eff_bind_unfold. cbn [gets]. rewrite eff_bind_unfold. cbn [modify].
  rewrite eff_bind_unfold. cbn [gets]. rewrite eff_bind_unfold. unfold on_fs at 1.
  destruct (save_multi_channel_runtime_state _ _ _) as [[u|e] fs]; [|by split; [eauto|]].
  rewrite eff_bind_unfold. unfold on_fs.
  destruct (append_multi_channel_cycle_report _ _ _ _ _ _ _) as [[v|e] fs']; by split; [eauto|].
Qed.

Lemma cycle_batches_accounts c table bindings source_events rt :
  ∃ s rt1,
    process_batches env_var c table bindings (cycle_policy c rt) (cycle_start c source_events)
      (cycle_batches c source_events) rt = (Ok s, rt1) ∧
    accounts (mc_retry_max_attempts c - 1) (length (queued_events c source_events)) s ∧
    rs_discovered_events s = length source_events ∧
    rs_queued_events s = length (queued_events c source_events).
Proof.
  destruct (process_batches_accounts c table bindings (cycle_policy c rt) (cycle_start c source_events)
    (cycle_batches c source_events) 0 rt) as (s & rt' & -> & Hacc & Hd & Hq).
  - apply coalesced_nonempty.
  - constructor; cbn; lia.
  - exists s, rt'. unfold cycle_batches in Hacc. rewrite coalesced_keys, length_fmap in Hacc. done.
Qed.

(** No failure of an event stops a cycle: every batch is handled, and the summary
    the cycle returns (unless its state file or report cannot be written) adds up. Each event
    checked is completed or failed, each completed one allowed or denied, checked and
    skipped events are at most the queued ones, each event is retried at most
    [retry_max_attempts - 1] times, and every transient failure is retried or ends
    in a failed event. *)
Theorem cycle_accounting c table bindings source_events rt :
  ∃ s rt1,
    process_batches env_var c table bindings (cycle_policy c rt) (cycle_start c source_events)
      (cycle_batches c source_events) rt = (Ok s, rt1) ∧
    accounts (mc_retry_max_attempts c - 1) (length (queued_events c source_events)) s ∧
    rs_discovered_events s = length source_events ∧
    rs_queued_events s = Nat.min (mc_queue_limit c) (length source_events) ∧
    ((run_once_events env_var c table bindings source_events rt).1 = Ok s ∨
     ∃ e, (run_once_events env_var c table bindings source_events rt).1 = Err e).
Proof.
  destruct (cycle_batches_accounts c table bindings source_events rt) as (s & rt1 & Hrun & Hacc & Hd & Hq).
  pose proof (run_once_events_batches _ _ _ _ _ _ _ Hrun) as Hr.
  destruct (run_once_events _ _ _ _ _ _) as [r rt2]. exists s, rt1. split_and!; [done..| |apply Hr].
  rewrite Hq. unfold queued_events. by rewrite length_take, (Permutation_length (sort_by_perm event_le _)).
Qed.

(** ** Events are handled once *)

Abbreviation key_count rt := (length (ms_processed_event_keys (rt_state rt))).

(** With room for the keys, recording adds exactly them. *)
Lemma record_with_room cap keys rt :
  key_count rt + length keys ≤ cap →
  let rt' := foldl (λ rt key, record_processed_event cap key rt) rt keys in
  rt_keys rt' = rt_keys rt ∪ list_to_set keys ∧ key_count rt' ≤ key_count rt + length keys.
Proof.
  revert rt. induction keys as [|key keys IH]; intros rt Hroom; cbn [foldl list_to_set].
  { split; [set_solver|cbn; lia]. }
  assert (rt_keys (record_processed_event cap key rt) = {[key]} ∪ rt_keys rt ∧
          key_count (record_processed_event cap key rt) ≤ S (key_count rt)) as [Hk Hl].
  { unfold record_processed_event. case_bool_decide; [split; [set_solver|lia]|]. cbn in *.
    rewrite length_app. cbn [length]. replace (_ - cap) with 0 by lia. cbn.
    split; [set_solver|rewrite drop_0, length_app; cbn; lia]. }
  destruct (IH (record_processed_event cap key rt)) as [Hk' Hl']; [cbn in *; lia|].
  split; [rewrite Hk', Hk; set_solver|cbn in *; lia].
Qed.

Lemma process_batches_records c table bindings policy s batches rt s' rt' :
  key_count rt + length (batch_keys batches) ≤ mc_processed_event_cap c →
  process_batches env_var c table bindings policy s batches rt = (Ok s', rt') →
  rs_failed_events s ≤ rs_failed_events s' ∧
  (rs_failed_events s' = rs_failed_events s →
   ∀ key, key ∈ rt_keys rt ∨ key ∈ batch_keys batches → key ∈ rt_keys rt').
Proof.
  revert s rt. induction batches as [|batch batches IH]; intros s rt Hroom Hrun.
  { cbn in Hrun. injection Hrun as <- <-. split; [done|]. unfold batch_keys; cbn. set_solver. }
  cbn [process_batches] in Hrun. rewrite eff_bind_unfold in Hrun.
  rewrite batch_keys_cons, length_app in Hroom. rewrite batch_keys_cons. setoid_rewrite elem_of_app.
  destruct (seen rt batch) eqn:Hseen.
  - rewrite (process_seen _ _ _ _ _ _ _ Hseen) in Hrun. rewrite seen_true in Hseen.
    apply IH in Hrun as [Hf Hk]; [|lia]. cbn in Hf, Hk. split; [done|].
    intros Heq key Hkey. apply Hk; [done|]. specialize (Hseen key). naive_solver.
  - destruct (process_unseen c table bindings policy s batch rt Hseen)
      as (access & report & rt1 & (_ & Hkeys & Hlist) & _ & _ & Heq).
    rewrite Heq in Hrun. destruct (at_outcome report) as [outcome|] eqn:Ho.
    + destruct (record_with_room (mc_processed_event_cap c) (co_source_event_keys batch) rt1) as [Hk Hl].
      { rewrite Hlist. cbn; lia. }
      apply IH in Hrun as [Hf Hk']; [|cbn in *; rewrite Hlist in Hl; lia].
      unfold add_event in Hf, Hk'. rewrite Ho in Hf, Hk'. cbn in Hf, Hk'. rewrite Nat.add_0_r in Hf, Hk'.
      split; [done|]. intros Hsame key Hkey. apply Hk'; [done|]. rewrite Hk, Hkeys. set_solver.
    + apply IH in Hrun as [Hf _]; [|rewrite Hlist; lia]. unfold add_event in Hf. rewrite Ho in Hf.
      cbn in Hf. split; [lia|]. intros; lia.
Qed.

(** Batches seen before are only counted. *)
Lemma process_batches_seen c table bindings policy s batches rt :
  (∀ key, key ∈ batch_keys batches → key ∈ rt_keys rt) →
  process_batches env_var c table bindings policy s batches rt =
    (Ok (foldl (λ s batch, add_duplicates (length (co_source_event_keys batch)) s) s batches), rt).
Proof.
  revert s. induction batches as [|batch batches IH]; intros s Hall; [done|].
  rewrite batch_keys_cons in Hall. setoid_rewrite elem_of_app in Hall. cbn [process_batches foldl]. rewrite eff_bind_unfold, process_seen.
  - apply IH. auto.
  - apply seen_true. auto.
Qed.

End theorems.

(** ** Concrete cycles *)

#[local] Existing Instances quiet_network no_envelopes open_pairing.

Definition hi : MultiChannelInboundEvent := small_event "e1" 100 "hi" ∅.
Definition yo : MultiChannelInboundEvent := small_event "e2" 150 "yo" ∅.
Definition small_channel : ChannelStore := mkChannelStore "d/channel-store" "telegram" "c".
Definition context_texts (rt : Runtime) : list string :=
  match (load_context_entries small_channel (rt_fs rt)).1 with Ok l => ce_text <$> l | Err _ => [] end.
Definition inbound_keys (rt : Runtime) : list (option string) :=
  match (load_log_entries small_channel (rt_fs rt)).1 with
  | Ok l => le_event_key <$> List.filter (λ e, String.eqb (le_direction e) "inbound") l
  | Err _ => []
  end.

Definition denied_access : MultiChannelAccessDecision :=
  (evaluate_access_decision blank_fs "d" hi 1000 None).2.

Lemma denied_event_inert_witness :
  rt_net (persist_event no_env (small_config 1 0) hi "telegram:e1" denied_access
    (resolve_multi_channel_event_route route_bindings_default route_table_default hi 1000) small_runtime).2 = [].
Proof.
  apply (denied_event_inert no_env (small_config 1 0) hi "telegram:e1" denied_access
    (resolve_multi_channel_event_route route_bindings_default route_table_default hi 1000)
    POLICY_REASON_DENY_CHANNEL_POLICY_LOAD_ERROR small_runtime).
  vm_compute. reflexivity.
Defined.

Definition started_runtime : option Runtime :=
  match (runtime_new (small_config 1 0) blank_fs []).1 with Ok (_, _, rt) => Some rt | Err _ => None end.

Lemma processed_keys_invariant_witness :
  ∃ rt, started_runtime = Some rt ∧ keys_ok 16 (small_cycle 1 0 [hi; yo] rt).2.
Proof.
  unfold started_runtime.
  destruct (runtime_new (small_config 1 0) blank_fs []) as [[[[table bindings] rt]|e] fs] eqn:Hnew;
    [|by vm_compute in Hnew].
  exists rt. split; [done|]. apply (processed_keys_invariant no_env (small_config 1 0)).
  apply reachable_cycle. by eapply reachable_new.
Defined.


(** *** What coalescing changes *)

(** A message handled before that arrives again together with a new one is handled
    again as part of the batch; the new one is never logged as inbound. *)
Lemma seen_message_handled_again :
  let '(_, rt1) := small_cycle 1 100 [hi] small_runtime in
  let '(r, rt2) := small_cycle 1 100 [hi; yo] rt1 in
  outcome r = Some (1, 0, 0, 0) ∧ inbound_keys rt2 = [Some "telegram:e1"] ∧
  context_texts rt2 =
    ["hi"; "message processed: transport=telegram event_id=e1 text_chars=2"; "hi" +:+ newline +:+ "yo";
     "message processed: transport=telegram event_id=e1 text_chars=5"] ∧
  elements (rt_keys rt2) = ["telegram:e1"; "telegram:e2"].
Proof. vm_compute. do 3 (split; [reflexivity|]). reflexivity. Qed.

(** Two signed messages are accepted one by one, but not as a batch: the batch has
    the envelope of the first and the time and text of both. *)
Lemma coalescing_breaks_signatures :
  let cycle window := @small_cycle quiet_network signed_values 1 window
    [signed_event "e1" 100 "hi"; signed_event "e2" 150 "yo"] signed_runtime in
  outcome (cycle 0%N).1 = Some (2, 0, 0, 0) ∧
  outcome (cycle 100%N).1 = Some (1, 1, 0, 0) ∧ context_texts (cycle 100%N).2 = [].
Proof. by vm_compute. Qed.

(** A signed message that could not be delivered is denied as a replay in the next
    cycle and then counts as processed: its nonce was recorded before the delivery. *)
Lemma failed_signed_message_lost :
  let '(r1, rt1) := @small_cycle flaky_network signed_values 1 0 [signed_event "e1" 100 "hi"] signed_runtime in
  let '(r2, rt2) := @small_cycle flaky_network signed_values 1 0 [signed_event "e1" 100 "hi"] rt1 in
  outcome r1 = Some (0, 0, 1, 0) ∧ outcome r2 = Some (1, 1, 0, 0) ∧ context_texts rt2 = [] ∧
  elements (rt_keys rt2) = ["telegram:e1"].
Proof. vm_compute. do 3 (split; [reflexivity|]). reflexivity. Qed.

(** Conversations whose names differ in replaced characters share a channel. *)
Lemma session_keys_collide :
  let event conversation := mkEvent 1 Telegram EventMessage "e" conversation "" "a" "" 1 "" [] ∅ in
  normalize_default_session_key (event "a b") = normalize_default_session_key (event "a_b").
Proof. by vm_compute. Qed.
