(* ===== verification/AccessTheorems.v ===== *)
(** * Who may talk to the runtime

    The access decision composes the channel policy, the signed envelope and the
    pairing rules; operator commands are for actors of the allowlist. *)

From Stdlib Require Import NArith Ascii Lia.
From stdpp Require Import base gmap sets strings list.
From S2P Require Import Prelude RustStr Json Effects AtomicIo Identity TrustRoots Pairing PairingTheorems SignedEnvelope StateDirs EnvelopeTheorems SsrfGuard MultiChannelPolicy MultiChannelRouting MultiChannelCommands OutboundTheorems MultiChannelAccess MultiChannelRuntime MultiChannelTheorems.

#[local] Open Scope string_scope.
#[local] Open Scope list_scope.
#[local] Open Scope nat_scope.

Section decisions.
Context `{!EnvelopeCodec Value} `{!EnvelopeCrypto} `{!TrustRootCodec} `{!PairingEvaluator}.
Implicit Types (fs : TextFs) (event : MultiChannelInboundEvent).

(** The sender is one the channel takes messages from. *)
Definition sender_admitted fs (state_dir : string) event (now : N) (policy : MultiChannelChannelPolicy) : Prop :=
  let pairing := evaluate_pairing_decision fs state_dir event (pairing_policy_channel event) now in
  match cp_allow_from policy with
  | AllowAny => True
  | AllowlistOrPairing => ∃ reason, pairing = ChannelAllow reason
  | AllowlistOnly => ∃ reason, pairing = ChannelAllow reason ∧ allowlisted_reason reason = true
  end.

Definition envelope_verdict fs (state_dir : string) event (now : N)
    (policy : MultiChannelSecureMessagingPolicy) : SignedEnvelopeDecision :=
  let base := signed_envelope_policy_for_state_dir state_dir in
  (evaluate_signed_envelope_access fs
     (mkEnvelopeConfig (ep_trust_root_path base) (ep_replay_guard_path base)
        (sp_timestamp_skew_seconds policy) (sp_replay_window_seconds policy))
     (mkEnvelopeContext (pairing_policy_channel event) (me_actor_id event) (me_event_id event)
        (me_timestamp_ms event) (me_text event) (me_metadata event) now)).2.

(** The reference: who is let in under a loaded policy. *)
Definition let_in fs (state_dir : string) event (now : N) (file : MultiChannelPolicyFile) : Prop :=
  let evaluation := evaluate_multi_channel_channel_policy file event in
  let secure := pf_secure_messaging file in
  (∃ code, pe_decision evaluation = PolicyAllow code) ∧
  match sp_mode secure with
  | SecureDisabled => sender_admitted fs state_dir event now (pe_policy evaluation)
  | mode =>
      match envelope_verdict fs state_dir event now secure with
      | EnvelopeAllow _ _ _ => True
      | EnvelopeDeny _ => False
      | EnvelopeMissing _ => mode = SecurePreferred ∧ sender_admitted fs state_dir event now (pe_policy evaluation)
      end
  end.

(** Without an envelope the files are not touched. *)
Lemma envelope_missing_fs fs config context fs' reason :
  evaluate_signed_envelope_access fs config context = (fs', EnvelopeMissing reason) → fs' = fs.
Proof.
  unfold evaluate_signed_envelope_access. destruct (_ !! _) as [raw|]; [|by intros [= <- _]].
  destruct (decode_envelope raw) as [envelope|]; [|done]. destruct (_ ≫= _); [|done].
  by destruct (enforce_signed_envelope_replay_guard _ _ _ _ _) as [? [[]|]].
Qed.

Lemma allow_from_admits fs state_dir event now evaluation secure reason :
  (∃ r, ad_final_decision (allow_from_decision fs state_dir event (pairing_policy_channel event) now
          evaluation secure reason) = ChannelAllow r) ↔
  sender_admitted fs state_dir event now (pe_policy evaluation).
Proof.
  unfold allow_from_decision, sender_admitted. destruct (cp_allow_from _); cbn; try (by split; eauto).
  unfold allowlist_only. destruct (evaluate_pairing_decision _ _ _ _ _) as [r|r]; [|naive_solver].
  destruct (allowlisted_reason r) eqn:Hr; (split; [intros [? [=]]|intros (? & [= <-] & ?)]); eauto. congruence.
Qed.

(** C18: an event is let in exactly when a policy is loaded and allows the channel, and
    either a signed envelope verifies (once), or signing is not required, no
    envelope is attached, or signing is off, and the sender is one the channel takes
    messages from; every error on the way denies. *)
Theorem access_exact fs state_dir event now policy_file :
  (∃ reason, ad_final_decision (evaluate_access_decision fs state_dir event now policy_file).2 =
     ChannelAllow reason) ↔
  ∃ file, policy_file = Some file ∧ let_in fs state_dir event now file.
Proof.
  unfold evaluate_access_decision. destruct policy_file as [file|]; [|by cbn; naive_solver].
  transitivity (let_in fs state_dir event now file); [|naive_solver]. unfold let_in.
  destruct (pe_decision (evaluate_multi_channel_channel_policy file event)) as [code|code]; [|by cbn; naive_solver].
  unfold evaluate_secure_messaging_decision. cbn [secure_mode_of].
  unfold envelope_verdict. set (mode := sp_mode _).
  destruct (evaluate_signed_envelope_access _ _ _) as [fs' verdict] eqn:Hv.
  assert (∀ r, verdict = EnvelopeMissing r → fs' = fs) as Hfs
    by (intros r ->; by eapply envelope_missing_fs).
  case_bool_decide as Hmode; [rewrite Hmode; cbn; rewrite allow_from_admits; naive_solver|].
  destruct verdict as [r k n|r|r]; cbn; [by destruct mode; naive_solver| |by destruct mode; naive_solver].
  rewrite (Hfs r eq_refl). unfold secure_required. destruct mode; [done| |].
  - case_bool_decide; [done|]. cbn. rewrite allow_from_admits. naive_solver.
  - case_bool_decide; [|done]. cbn. naive_solver.
Qed.
End decisions.

(** ** Operators *)

(** The evaluator of the program: pairing and allowlist files. *)
#[export] Instance program_pairing `{!TrustRootCodec, !PairingCodec} : PairingEvaluator :=
  {| evaluate_pairing := pairing_adapter |}.

Section operators.
Context `{!EnvelopeCodec Value} `{!EnvelopeCrypto} `{!TrustRootCodec} `{!PairingCodec} `{!Network}.
Implicit Types (fs : TextFs) (event : MultiChannelInboundEvent).

(** The actor of an event has an acceptable identity and a row of the allowlist for
    its channel. *)
Definition allowlisted_actor fs (state_dir : string) event (now : N) : Prop :=
  let config := pairing_policy_for_state_dir state_dir in
  ∃ did al, parse_optional_actor_did (trim (me_actor_id event)) = Ok did ∧
    did_trusted fs config did now ∧ load_allowlist fs (pc_allowlist_path config) = Ok al ∧
    trim (me_actor_id event) ≠ "" ∧
    allowlisted al (pairing_policy_channel event) (trim (me_actor_id event)) did.

Lemma pairing_allowlisted fs config channel actor_id now reason :
  evaluate_pairing_access fs config channel actor_id now = Ok (PairingAllow reason) →
  allowlisted_reason reason = true →
  ∃ did al, parse_optional_actor_did (trim actor_id) = Ok did ∧ did_trusted fs config did now ∧
    load_allowlist fs (pc_allowlist_path config) = Ok al ∧ trim actor_id ≠ "" ∧
    allowlisted al channel (trim actor_id) did.
Proof.
  unfold evaluate_pairing_access. destruct (parse_optional_actor_did _) as [did|]; [|done].
  intros (trusted & Ht & Hr)%bind_Ok Hreason. destruct trusted; cbn [negb] in Hr; [|done].
  apply bind_Ok in Hr as (al & Hal & Hr). apply bind_Ok in Hr as (reg & _ & Hr). injection Hr as Hr.
  exists did, al. unfold pairing_decision, is_empty in Hr.
  destruct (negb _); [by injection Hr as <-|].
  destruct (String.eqb_spec (trim actor_id) ""); [done|].
  rewrite <- allowlisted_spec. destruct (allowlist_actor_allowed _ _ _).
  - split_and!; try done. intros d ->. destruct (load_trust_root_records _ _) as [roots|]; [|done].
    injection Ht as Ht. eauto.
  - cbn in Hr. destruct (pairing_actor_allowed _ _ _ _ _); [|done]. by injection Hr as <-.
Qed.

(** The reasons of the policy and of the envelope are not those of the allowlist. *)
Lemma policy_allow_code file event code :
  pe_decision (evaluate_multi_channel_channel_policy file event) = PolicyAllow code →
  allowlisted_reason code = false.
Proof.
  unfold evaluate_multi_channel_channel_policy. destruct (matched_policy file event) as [key policy].
  cbn [pe_decision]. unfold allow_decision_for_allow_from.
  destruct (detect_conversation_kind event), (cp_allow_from policy); repeat case_match; intros [= <-]; done.
Qed.

Lemma envelope_allow_reason fs config context fs' reason key nonce :
  evaluate_signed_envelope_access fs config context = (fs', EnvelopeAllow reason key nonce) →
  allowlisted_reason reason = false.
Proof.
  unfold evaluate_signed_envelope_access. destruct (_ !! _) as [raw|]; [|done].
  destruct (decode_envelope raw) as [envelope|]; [|done]. destruct (_ ≫= _); [|done].
  destruct (enforce_signed_envelope_replay_guard _ _ _ _ _) as [? [[]|]]; try done. by intros [= _ <-].
Qed.

Lemma pairing_decision_allowlisted fs state_dir event now reason :
  evaluate_pairing_decision fs state_dir event (pairing_policy_channel event) now = ChannelAllow reason →
  allowlisted_reason reason = true → allowlisted_actor fs state_dir event now.
Proof.
  unfold evaluate_pairing_decision. cbn [evaluate_pairing program_pairing]. unfold pairing_adapter.
  destruct (evaluate_pairing_access _ _ _ _ _) as [[r|r]|e] eqn:Hp; [|done..]. intros [= <-] Hr.
  by eapply pairing_allowlisted.
Qed.

(** An actor let in as an operator is on the allowlist. *)
Lemma operator_allowlisted fs state_dir event now policy_file reason :
  ad_final_decision (evaluate_access_decision fs state_dir event now policy_file).2 = ChannelAllow reason →
  allowlisted_reason reason = true → allowlisted_actor fs state_dir event now.
Proof.
  unfold evaluate_access_decision. intros Hd Hr.
  destruct policy_file as [file|]; [|done].
  destruct (pe_decision _) as [code|code] eqn:Hcode; [|done]. apply policy_allow_code in Hcode.
  assert (∀ secure, ad_final_decision (allow_from_decision fs state_dir event (pairing_policy_channel event) now
    (evaluate_multi_channel_channel_policy file event) secure code) = ChannelAllow reason →
    allowlisted_actor fs state_dir event now) as Hfrom.
  { intros secure. unfold allow_from_decision. destruct (cp_allow_from _); cbn.
    - intros [= <-]. congruence.
    - intros Hp. by eapply pairing_decision_allowlisted.
    - unfold allowlist_only. destruct (evaluate_pairing_decision _ _ _ _ _) as [r|r] eqn:Hp; [|done].
      destruct (allowlisted_reason r) eqn:Hlist; [|done]. intros _. by eapply pairing_decision_allowlisted. }
  unfold evaluate_secure_messaging_decision in Hd. cbn [secure_mode_of] in Hd.
  case_bool_decide; [by apply Hfrom in Hd|].
  destruct (evaluate_signed_envelope_access _ _ _) as [fs' [r k n|r|r]] eqn:Hv; cbn in Hd.
  - injection Hd as <-. apply envelope_allow_reason in Hv. congruence.
  - apply envelope_missing_fs in Hv as ->. destruct (secure_required _); cbn in Hd; [done|by eapply Hfrom].
  - done.
Qed.

(** operator commands ([auth], [doctor], [approvals]) are for actors of the allowlist:
    for any other actor the handlers are not called, the answer is
    [command_rbac_denied] and nothing changes, whatever the channel policy, an
    envelope or a pairing let through. *)
Theorem operators_are_allowlisted c event now policy_file command reason rt :
  let access := (evaluate_access_decision (rt_fs rt) (mc_state_dir c) event now policy_file).2 in
  ad_final_decision access = ChannelAllow reason →
  parse_multi_channel_tau_command (me_text event) = Ok (Some command) →
  command_requires_operator_scope command = true →
  allowlisted_actor (rt_fs rt) (mc_state_dir c) event now ∨
  execute_tau_command_if_requested c event access rt =
    (Ok (Some (build_multi_channel_command_execution (render_multi_channel_tau_command_line command)
       "failed" "command_rbac_denied"
       "command denied: this `/tau` command requires allowlisted operator scope.")), rt).
Proof.
  intros access Hd Hp Hs. unfold execute_tau_command_if_requested. rewrite Hp, Hs.
  unfold multi_channel_command_operator_allowed. rewrite Hd. cbn [pairing_decision_reason_code andb].
  destruct (allowlisted_reason reason) eqn:Hr; [|by right]. left. by eapply operator_allowlisted.
Qed.
End operators.

#[local] Existing Instances quiet_network no_envelopes.

Definition doctor : MultiChannelInboundEvent := small_event "e1" 100 "/tau doctor" ∅.

Lemma operators_are_allowlisted_witness :
  let access := (evaluate_access_decision blank_fs "d" doctor 1000 (Some policy_file_default)).2 in
  allowlisted_actor blank_fs "d" doctor 1000 ∨
  execute_tau_command_if_requested (small_config 1 0) doctor access small_runtime =
    (Ok (Some (build_multi_channel_command_execution "doctor" "failed" "command_rbac_denied"
       "command denied: this `/tau` command requires allowlisted operator scope.")), small_runtime).
Proof.
  apply (operators_are_allowlisted (small_config 1 0) doctor 1000 (Some policy_file_default) (TauDoctor false)
    "allow_permissive_mode" small_runtime); vm_compute; reflexivity.
Defined.
