(* ===== verification/SessionNavigation.v ===== *)
(** * Moving through a session ([tau-session], [session_navigation_commands.rs],
    [session_runtime_helpers.rs])

    The head of a running session, the undo and redo stacks kept in a file beside
    the session, and the names given to entries by branch aliases and bookmarks. *)

From Stdlib Require Import Ascii NArith Lia.
From stdpp Require Import base gmap sets strings list.
From S2P Require Import Prelude RustStr Messages SessionIntegrity SessionStorage SessionStore AtomicIo.

#[local] Open Scope string_scope.
#[local] Open Scope list_scope.
#[local] Open Scope nat_scope.

Definition BRANCH_ALIAS_SCHEMA_VERSION : N := 1.
Definition SESSION_NAVIGATION_SCHEMA_VERSION : N := 1.
Definition SESSION_BOOKMARK_SCHEMA_VERSION : N := 1.
Definition SESSION_NAVIGATION_MAX_STACK_DEPTH : nat := 256.
Definition BRANCH_ALIAS_USAGE : string := "usage: /branch-alias <set|list|use> ...".
Definition SESSION_BOOKMARK_USAGE : string := "usage: /session-bookmark <set|list|use|delete> ...".

Record SessionNavigationState := mkNavigation
  { nav_schema_version : N; nav_current_head : option N;
    nav_undo_stack : list (option N); nav_redo_stack : list (option N) }.

#[export] Instance SessionNavigationState_eq_dec : EqDecision SessionNavigationState.
Proof. solve_decision. Defined.

Definition navigation_default : SessionNavigationState :=
  mkNavigation SESSION_NAVIGATION_SCHEMA_VERSION None [] [].

Record SessionNavigationTransition := mkTransition
  { previous_head : option N; active_head : option N; undo_depth : nat; redo_depth : nat;
    skipped_invalid_targets : nat; nav_changed : bool }.

(** A file of named entries: branch aliases and bookmarks have the same shape. *)
Record NamesFile := mkNames { nf_schema_version : N; nf_names : gmap string N }.

(** Errors of this module, by the text they show. *)
Inductive NavError :=
| NavMessage (text : string)
| NavIo (e : IoError).

(** [format!("{error}")] of [write_text_atomic]; a directory that cannot be created
    counts as a temporary file that cannot be written. *)
Definition io_error_text (fs : TextFs) (path : string) (e : IoError) : string :=
  match e with
  | EmptyDestination => "destination path cannot be empty"
  | DestinationIsDirectory p => "destination path '" +:+ p +:+ "' is a directory"
  | WriteFailed p => "failed to write temporary file " +:+ p
  | RenameFailed p =>
      "failed to rename temporary graph file " +:+ atomic_temp_path fs path +:+ " to " +:+ p
  end.

(** JSON of the three files. *)
Class NavigationCodec :=
  { decode_navigation : string → option SessionNavigationState;
    encode_navigation : SessionNavigationState → string;
    decode_names : string → option NamesFile;
    encode_names : NamesFile → string }.

(** A written file is read back; JSON ignores the final line break. *)
Class NavigationCodecLaws `{!NavigationCodec} : Prop :=
  { decode_encode_navigation s : decode_navigation (encode_navigation s +:+ newline) = Some s;
    decode_encode_names f : decode_names (encode_names f +:+ newline) = Some f }.

(** ** Names *)

Definition alias_char (c : ascii) : bool :=
  is_ascii_alphanumeric c || Ascii.eqb c "-"%char || Ascii.eqb c "_"%char.

(** The checks are on ASCII bytes; a byte of another character fails them. *)
Definition validate_branch_alias_name (name : string) : Result NavError unit :=
  match chars_of name with
  | [] => Err (NavMessage "alias name must not be empty")
  | first :: chars =>
      _ ← bail_if (negb (is_ascii_alphabetic first))
            (NavMessage ("alias name '" +:+ name +:+ "' must start with an ASCII letter"));
      bail_if (negb (forallb alias_char chars))
        (NavMessage ("alias name '" +:+ name +:+
                     "' must contain only ASCII letters, digits, '-' or '_'"))
  end.

Inductive BranchAliasCommand := AliasList | AliasSet (name : string) (id : N) | AliasUse (name : string).

Definition parse_branch_alias_command (command_args : string) : Result NavError BranchAliasCommand :=
  match split_whitespace command_args with
  | [] => Err (NavMessage BRANCH_ALIAS_USAGE)
  | "list" :: rest =>
      _ ← bail_if (negb (length rest =? 0)) (NavMessage "usage: /branch-alias list");
      Ok AliasList
  | "set" :: rest =>
      match rest with
      | [name; raw] =>
          _ ← validate_branch_alias_name name;
          id ← ok_or (NavMessage ("invalid branch id '" +:+ raw +:+ "'; expected an integer"))
                 (parse_u64 raw);
          Ok (AliasSet name id)
      | _ => Err (NavMessage "usage: /branch-alias set <name> <id>")
      end
  | "use" :: rest =>
      match rest with
      | [name] => _ ← validate_branch_alias_name name; Ok (AliasUse name)
      | _ => Err (NavMessage "usage: /branch-alias use <name>")
      end
  | other :: _ => Err (NavMessage ("unknown subcommand '" +:+ other +:+ "'; " +:+ BRANCH_ALIAS_USAGE))
  end.

Inductive SessionBookmarkCommand :=
| BookmarkList | BookmarkSet (name : string) (id : N) | BookmarkUse (name : string)
| BookmarkDelete (name : string).

Definition parse_session_bookmark_command (command_args : string)
    : Result NavError SessionBookmarkCommand :=
  match split_whitespace command_args with
  | [] => Err (NavMessage SESSION_BOOKMARK_USAGE)
  | "list" :: rest =>
      _ ← bail_if (negb (length rest =? 0)) (NavMessage "usage: /session-bookmark list");
      Ok BookmarkList
  | "set" :: rest =>
      match rest with
      | [name; raw] =>
          _ ← validate_branch_alias_name name;
          id ← ok_or (NavMessage ("invalid bookmark id '" +:+ raw +:+ "'; expected an integer"))
                 (parse_u64 raw);
          Ok (BookmarkSet name id)
      | _ => Err (NavMessage "usage: /session-bookmark set <name> <id>")
      end
  | "use" :: rest =>
      match rest with
      | [name] => _ ← validate_branch_alias_name name; Ok (BookmarkUse name)
      | _ => Err (NavMessage "usage: /session-bookmark use <name>")
      end
  | "delete" :: rest =>
      match rest with
      | [name] => _ ← validate_branch_alias_name name; Ok (BookmarkDelete name)
      | _ => Err (NavMessage "usage: /session-bookmark delete <name>")
      end
  | other :: _ =>
      Err (NavMessage ("unknown subcommand '" +:+ other +:+ "'; " +:+ SESSION_BOOKMARK_USAGE))
  end.

(** ** Files *)

Definition branch_alias_path_for_session (session_path : string) : string :=
  with_extension session_path "aliases.json".
Definition session_bookmark_path_for_session (session_path : string) : string :=
  with_extension session_path "bookmarks.json".
Definition session_navigation_path_for_session (session_path : string) : string :=
  with_extension session_path "navigation.json".

Section files.
Context `{!NavigationCodec}.
Implicit Types fs : TextFs.

(** Reading a JSON file of the given kind: a missing file is the default. *)
Definition load_json {A} (what : string) (decode : string → option A) (version : A → N)
    (expected : N) (missing : A) fs (path : string) : Result NavError A :=
  match fs_files fs !! path with
  | None =>
      if bool_decide (path ∈ fs_dirs fs)
      then Err (NavMessage ("failed to read " +:+ what +:+ " file " +:+ path)) else Ok missing
  | Some raw =>
      parsed ← ok_or (NavMessage ("failed to parse " +:+ what +:+ " file " +:+ path)) (decode raw);
      _ ← bail_if (negb (version parsed =? expected)%N)
            (NavMessage ("unsupported " +:+ what +:+ " schema_version " +:+ show_u64 (version parsed)
                         +:+ " in " +:+ path +:+ " (expected " +:+ show_u64 expected +:+ ")"));
      Ok parsed
  end.

Definition save_text fs (path content : string) : TextFs * Result NavError unit :=
  match write_text_atomic fs path (content +:+ newline) with
  | (fs, Ok _) => (fs, Ok tt)
  | (fs, Err e) => (fs, Err (NavIo e))
  end.

Definition load_branch_aliases fs (path : string) : Result NavError (gmap string N) :=
  result_map nf_names (load_json "alias" decode_names nf_schema_version BRANCH_ALIAS_SCHEMA_VERSION
    (mkNames BRANCH_ALIAS_SCHEMA_VERSION ∅) fs path).
Definition save_branch_aliases fs (path : string) (aliases : gmap string N)
    : TextFs * Result NavError unit :=
  save_text fs path (encode_names (mkNames BRANCH_ALIAS_SCHEMA_VERSION aliases)).

Definition load_session_bookmarks fs (path : string) : Result NavError (gmap string N) :=
  result_map nf_names (load_json "session bookmark" decode_names nf_schema_version
    SESSION_BOOKMARK_SCHEMA_VERSION (mkNames SESSION_BOOKMARK_SCHEMA_VERSION ∅) fs path).
Definition save_session_bookmarks fs (path : string) (bookmarks : gmap string N)
    : TextFs * Result NavError unit :=
  save_text fs path (encode_names (mkNames SESSION_BOOKMARK_SCHEMA_VERSION bookmarks)).

Definition load_session_navigation_state fs (path : string) : Result NavError SessionNavigationState :=
  load_json "navigation" decode_navigation nav_schema_version SESSION_NAVIGATION_SCHEMA_VERSION
    navigation_default fs path.
Definition save_session_navigation_state fs (path : string) (state : SessionNavigationState)
    : TextFs * Result NavError unit :=
  save_text fs path (encode_navigation
    (mkNavigation SESSION_NAVIGATION_SCHEMA_VERSION (nav_current_head state) (nav_undo_stack state)
       (nav_redo_stack state))).
End files.

(** ** The running session *)

Definition trim_navigation_stack (stack : list (option N)) : list (option N) :=
  if length stack <=? SESSION_NAVIGATION_MAX_STACK_DEPTH then stack
  else drop (length stack - SESSION_NAVIGATION_MAX_STACK_DEPTH) stack.

Section navigation.
Context {Value : Type} `{!NavigationCodec}.
Implicit Types (fs : TextFs) (store : @SessionStore Value).

Record SessionRuntime := mkRuntime { rt_store : @SessionStore Value; rt_active_head : option N }.
Implicit Types runtime : SessionRuntime.

Definition set_active_head (head : option N) runtime : SessionRuntime :=
  mkRuntime (rt_store runtime) head.

(** The target is no entry, or one that exists. *)
Definition head_exists store (head : option N) : bool :=
  match head with Some id => contains store id | None => true end.

Definition prune_navigation_stack store (stack : list (option N)) : list (option N) * nat :=
  let kept := List.filter (head_exists store) stack in
  (kept, length stack - length kept).

Definition normalize_runtime_head store (head : option N) : option N :=
  match head with
  | Some id => if contains store id then Some id else None
  | None => None
  end.

Definition prune_navigation_state store (state : SessionNavigationState)
    : SessionNavigationState * nat :=
  let '(current, skipped) :=
    if head_exists store (nav_current_head state) then (nav_current_head state, 0) else (None, 1) in
  let '(undo, skipped_undo) := prune_navigation_stack store (nav_undo_stack state) in
  let '(redo, skipped_redo) := prune_navigation_stack store (nav_redo_stack state) in
  (mkNavigation (nav_schema_version state) current undo redo, skipped + skipped_undo + skipped_redo).

(** The state is written when it changed. *)
Definition save_if_changed fs (path : string) (original state : SessionNavigationState)
    (skipped : nat) : TextFs * Result NavError unit :=
  if (0 <? skipped) || negb (bool_decide (state = original))
  then save_session_navigation_state fs path state else (fs, Ok tt).

Definition resolve_session_navigation_head fs store : TextFs * Result NavError (option N) :=
  let path := session_navigation_path_for_session (st_path store) in
  match load_session_navigation_state fs path with
  | Err e => (fs, Err e)
  | Ok original =>
      let '(state, skipped) := prune_navigation_state store original in
      let current :=
        match nav_current_head state with Some id => Some id | None => head_id store end in
      let state :=
        mkNavigation (nav_schema_version state) current (nav_undo_stack state) (nav_redo_stack state) in
      match save_if_changed fs path original state skipped with
      | (fs, Err e) => (fs, Err e)
      | (fs, Ok _) => (fs, Ok current)
      end
  end.

(** The end of a navigation: the runtime moves, then the state is saved. *)
Definition finish_navigation fs (path : string) (original state : SessionNavigationState)
    (skipped : nat) (previous : option N) (changed : bool) runtime
    : TextFs * SessionRuntime * Result NavError SessionNavigationTransition :=
  let runtime := set_active_head (nav_current_head state) runtime in
  match save_if_changed fs path original state skipped with
  | (fs, Err e) => (fs, runtime, Err e)
  | (fs, Ok _) =>
      (fs, runtime,
       Ok (mkTransition previous (rt_active_head runtime) (length (nav_undo_stack state))
             (length (nav_redo_stack state)) skipped changed))
  end.

Definition navigate_session_head fs runtime (target_head : option N)
    : TextFs * SessionRuntime * Result NavError SessionNavigationTransition :=
  let store := rt_store runtime in
  if negb (head_exists store target_head)
  then (fs, runtime, Err (NavMessage ("unknown session id " +:+ show_u64 (default 0%N target_head))))
  else
    let path := session_navigation_path_for_session (st_path store) in
    match load_session_navigation_state fs path with
    | Err e => (fs, runtime, Err e)
    | Ok original =>
        let previous := normalize_runtime_head store (rt_active_head runtime) in
        let '(state, skipped) := prune_navigation_state store original in
        let changed := negb (bool_decide (previous = target_head)) in
        let state :=
          if changed
          then mkNavigation (nav_schema_version state) target_head
                 (trim_navigation_stack (nav_undo_stack state ++ [previous])) []
          else mkNavigation (nav_schema_version state) previous (nav_undo_stack state)
                 (nav_redo_stack state) in
        finish_navigation fs path original state skipped previous changed runtime
    end.

(** [while let Some(candidate) = stack.pop()], on the reversed stack: the first
    target that exists, what is left below it, and the number passed over. *)
Fixpoint pop_existing store (rev_stack : list (option N)) (skipped : nat)
    : option (option N) * list (option N) * nat :=
  match rev_stack with
  | [] => (None, [], skipped)
  | candidate :: rest =>
      if head_exists store candidate then (Some candidate, rest, skipped)
      else pop_existing store rest (S skipped)
  end.

Definition undo_session_head fs runtime
    : TextFs * SessionRuntime * Result NavError SessionNavigationTransition :=
  let store := rt_store runtime in
  let path := session_navigation_path_for_session (st_path store) in
  match load_session_navigation_state fs path with
  | Err e => (fs, runtime, Err e)
  | Ok original =>
      let previous := normalize_runtime_head store (rt_active_head runtime) in
      let '(state, skipped) := prune_navigation_state store original in
      let '(target, rest, skipped) := pop_existing store (reverse (nav_undo_stack state)) skipped in
      let undo := reverse rest in
      match target with
      | Some target_head =>
          finish_navigation fs path original
            (mkNavigation (nav_schema_version state) target_head undo
               (trim_navigation_stack (nav_redo_stack state ++ [previous])))
            skipped previous true runtime
      | None =>
          finish_navigation fs path original
            (mkNavigation (nav_schema_version state) previous undo (nav_redo_stack state))
            skipped previous false runtime
      end
  end.

Definition redo_session_head fs runtime
    : TextFs * SessionRuntime * Result NavError SessionNavigationTransition :=
  let store := rt_store runtime in
  let path := session_navigation_path_for_session (st_path store) in
  match load_session_navigation_state fs path with
  | Err e => (fs, runtime, Err e)
  | Ok original =>
      let previous := normalize_runtime_head store (rt_active_head runtime) in
      let '(state, skipped) := prune_navigation_state store original in
      let '(target, rest, skipped) := pop_existing store (reverse (nav_redo_stack state)) skipped in
      let redo := reverse rest in
      match target with
      | Some target_head =>
          finish_navigation fs path original
            (mkNavigation (nav_schema_version state) target_head
               (trim_navigation_stack (nav_undo_stack state ++ [previous])) redo)
            skipped previous true runtime
      | None =>
          finish_navigation fs path original
            (mkNavigation (nav_schema_version state) previous (nav_undo_stack state) redo)
            skipped previous false runtime
      end
  end.

(** ** Named entries *)

Record SessionNavigationOutcome := mkOutcome { out_message : string; out_reload_active_head : bool }.

Definition nav_error_text fs (path : string) (e : NavError) : string :=
  match e with NavMessage text => text | NavIo e => io_error_text fs path e end.

(** [format!("{error}")] of a lineage that cannot be resolved. *)
Definition lineage_error_text (e : SessionError) : string :=
  match e with
  | LineageCycle id => "detected a cycle while resolving session lineage at id " +:+ show_u64 id
  | UnknownSessionId id => "unknown session id " +:+ show_u64 id
  | _ => ""
  end.

Definition session_lineage_messages runtime : Result SessionError (list (Message Value)) :=
  lineage_messages (rt_store runtime) (rt_active_head runtime).

(** The names in the order of a [BTreeMap]. *)
Definition sorted_names (names : gmap string N) : list (string * N) :=
  sort_by (λ a b, String.leb a.1 b.1) (map_to_list names).

Definition render_names (title item none : string) (path : string) (names : gmap string N) runtime
    : string :=
  join newline
    ([title +:+ " list: path=" +:+ path +:+ " count=" +:+ show_usize (size names)] ++
     if size names =? 0 then [none]
     else (λ '(name, id),
        item +:+ ": name=" +:+ name +:+ " id=" +:+ show_u64 id +:+ " status=" +:+
        (if contains (rt_store runtime) id then "ok" else "stale")) <$> sorted_names names).

Definition render_branch_alias_list := render_names "branch alias" "alias" "aliases: none".
Definition render_session_bookmark_list :=
  render_names "session bookmark" "bookmark" "bookmarks: none".

(** The message of a failed command on a name. *)
Definition name_error (title path name error : string) : SessionNavigationOutcome :=
  mkOutcome (title +:+ " error: path=" +:+ path +:+ " name=" +:+ name +:+ " error=" +:+ error) false.
Definition command_error (title path error : string) : SessionNavigationOutcome :=
  mkOutcome (title +:+ " error: path=" +:+ path +:+ " error=" +:+ error) false.

(** Both commands set, use and delete a name in the same way. *)
Definition set_name (title path : string)
    (save : TextFs → string → gmap string N → TextFs * Result NavError unit)
    fs runtime (names : gmap string N) (name : string) (id : N)
    : TextFs * SessionRuntime * SessionNavigationOutcome :=
  if negb (contains (rt_store runtime) id)
  then (fs, runtime, name_error title path name ("unknown session id " +:+ show_u64 id))
  else
    match save fs path (<[name := id]> names) with
    | (fs', Ok _) =>
        (fs', runtime,
         mkOutcome (title +:+ " set: path=" +:+ path +:+ " name=" +:+ name +:+ " id=" +:+ show_u64 id)
           false)
    | (fs', Err e) => (fs', runtime, name_error title path name (nav_error_text fs path e))
    end.

Definition use_name (title item path : string) fs runtime (names : gmap string N) (name : string)
    : TextFs * SessionRuntime * SessionNavigationOutcome :=
  match names !! name with
  | None => (fs, runtime, name_error title path name ("unknown " +:+ item +:+ " '" +:+ name +:+ "'"))
  | Some id =>
      if negb (contains (rt_store runtime) id)
      then (fs, runtime,
            name_error title path name (item +:+ " points to unknown session id " +:+ show_u64 id))
      else
        match navigate_session_head fs runtime (Some id) with
        | (fs', runtime', Err e) =>
            (fs', runtime',
             name_error title path name
               (nav_error_text fs (session_navigation_path_for_session (st_path (rt_store runtime))) e))
        | (fs', runtime', Ok _) =>
            match session_lineage_messages runtime' with
            | Ok _ =>
                (fs', runtime',
                 mkOutcome (title +:+ " use: path=" +:+ path +:+ " name=" +:+ name +:+ " id=" +:+
                            show_u64 id) true)
            | Err e => (fs', runtime', name_error title path name (lineage_error_text e))
            end
        end
  end.

Definition execute_branch_alias_command fs (command_args : string) runtime
    : TextFs * SessionRuntime * SessionNavigationOutcome :=
  let path := branch_alias_path_for_session (st_path (rt_store runtime)) in
  match (command ← parse_branch_alias_command command_args;
         aliases ← load_branch_aliases fs path; Ok (command, aliases)) with
  | Err e => (fs, runtime, command_error "branch alias" path (nav_error_text fs path e))
  | Ok (AliasList, aliases) =>
      (fs, runtime, mkOutcome (render_branch_alias_list path aliases runtime) false)
  | Ok (AliasSet name id, aliases) =>
      set_name "branch alias" path save_branch_aliases fs runtime aliases name id
  | Ok (AliasUse name, aliases) => use_name "branch alias" "alias" path fs runtime aliases name
  end.

Definition execute_session_bookmark_command fs (command_args : string) runtime
    : TextFs * SessionRuntime * SessionNavigationOutcome :=
  let path := session_bookmark_path_for_session (st_path (rt_store runtime)) in
  match (command ← parse_session_bookmark_command command_args;
         bookmarks ← load_session_bookmarks fs path; Ok (command, bookmarks)) with
  | Err e => (fs, runtime, command_error "session bookmark" path (nav_error_text fs path e))
  | Ok (BookmarkList, bookmarks) =>
      (fs, runtime, mkOutcome (render_session_bookmark_list path bookmarks runtime) false)
  | Ok (BookmarkSet name id, bookmarks) =>
      set_name "session bookmark" path save_session_bookmarks fs runtime bookmarks name id
  | Ok (BookmarkUse name, bookmarks) =>
      use_name "session bookmark" "bookmark" path fs runtime bookmarks name
  | Ok (BookmarkDelete name, bookmarks) =>
      if bool_decide (bookmarks !! name = None)
      then (fs, runtime,
            name_error "session bookmark" path name ("unknown bookmark '" +:+ name +:+ "'"))
      else
        let bookmarks := delete name bookmarks in
        match save_session_bookmarks fs path bookmarks with
        | (fs', Ok _) =>
            (fs', runtime,
             mkOutcome ("session bookmark delete: path=" +:+ path +:+ " name=" +:+ name +:+
                        " status=deleted remaining=" +:+ show_usize (size bookmarks)) false)
        | (fs', Err e) =>
            (fs', runtime, name_error "session bookmark" path name (nav_error_text fs path e))
        end
  end.
End navigation.
Arguments SessionRuntime : clear implicits.
