(* ===== verification/NavigationTheorems.v ===== *)
(** * Properties of session navigation

    The runtime and its navigation file implement a bounded history of heads. *)

From Stdlib Require Import Ascii NArith Lia.
From stdpp Require Import base gmap sets strings list.
From S2P Require Import Prelude RustStr BitCodec Messages SessionIntegrity SessionStorage SessionStore AtomicIo SessionNavigation.

#[local] Open Scope string_scope.
#[local] Open Scope list_scope.
#[local] Open Scope nat_scope.

(** ** The history *)

Record History := mkHistory
  { h_undo : list (option N); h_current : option N; h_redo : list (option N) }.

Inductive Move := Visit (target : option N) | Undo | Redo.

(** The newest entries that fit. *)
Definition newest (l : list (option N)) : list (option N) :=
  drop (length l - SESSION_NAVIGATION_MAX_STACK_DEPTH) l.

Definition step_history (m : Move) (h : History) : History :=
  match m with
  | Visit target =>
      if decide (h_current h = target) then h
      else mkHistory (newest (h_undo h ++ [h_current h])) target []
  | Undo =>
      match last (h_undo h) with
      | Some target =>
          mkHistory (take (length (h_undo h) - 1) (h_undo h)) target
            (newest (h_redo h ++ [h_current h]))
      | None => h
      end
  | Redo =>
      match last (h_redo h) with
      | Some target =>
          mkHistory (newest (h_undo h ++ [h_current h])) target
            (take (length (h_redo h) - 1) (h_redo h))
      | None => h
      end
  end.

(** Moving away, back and forth again. *)
Lemma newest_snoc l x : ∃ l', newest (l ++ [x]) = l' ++ [x].
Proof.
  unfold newest. rewrite length_app. cbn. rewrite drop_app_le by (unfold SESSION_NAVIGATION_MAX_STACK_DEPTH; lia).
  by eexists.
Qed.

Lemma visit_undo_redo h target :
  h_current h ≠ target →
  let back := step_history Undo (step_history (Visit target) h) in
  h_current back = h_current h ∧ h_current (step_history Redo back) = target.
Proof.
  intros Hne. cbn. rewrite decide_False by done. cbn.
  destruct (newest_snoc (h_undo h) (h_current h)) as [l ->]. rewrite last_snoc. done.
Qed.

Section theorems.
Context {Value : Type} `{!NavigationCodec}.
Implicit Types (fs : TextFs) (store : @SessionStore Value) (runtime : SessionRuntime Value).

Definition nav_path runtime : string :=
  session_navigation_path_for_session (st_path (rt_store runtime)).

(** The history a runtime and its file stand for: targets that no longer exist are
    forgotten. *)
Definition history_of fs runtime : option History :=
  match load_session_navigation_state fs (nav_path runtime) with
  | Ok state =>
      let keep := List.filter (head_exists (rt_store runtime)) in
      Some (mkHistory (keep (nav_undo_stack state))
              (normalize_runtime_head (rt_store runtime) (rt_active_head runtime))
              (keep (nav_redo_stack state)))
  | Err _ => None
  end.

Definition navigate (m : Move) fs runtime
    : TextFs * SessionRuntime Value * Result NavError SessionNavigationTransition :=
  match m with
  | Visit target => navigate_session_head fs runtime target
  | Undo => undo_session_head fs runtime
  | Redo => redo_session_head fs runtime
  end.

Definition all_exist store (l : list (option N)) : Prop := Forall (λ h, head_exists store h = true) l.

Lemma keep_all_exist store l : all_exist store (List.filter (head_exists store) l).
Proof. unfold all_exist. apply Forall_forall. intros x. rewrite list_elem_of_In, filter_In. tauto. Qed.

Lemma keep_id store l : all_exist store l → List.filter (head_exists store) l = l.
Proof. induction 1 as [|x l Hx _ IH]; cbn; [done|]. by rewrite Hx, IH. Qed.

Lemma normalize_exists store head : head_exists store (normalize_runtime_head store head) = true.
Proof. destruct head as [id|]; cbn; [|done]. destruct (contains store id) eqn:Hid; cbn; [|done]. exact Hid. Qed.

Lemma normalize_id store head :
  head_exists store head = true → normalize_runtime_head store head = head.
Proof. destruct head as [id|]; cbn; [|done]. by intros ->. Qed.

Lemma trim_newest l : trim_navigation_stack l = newest l.
Proof.
  unfold trim_navigation_stack, newest. destruct (Nat.leb_spec (length l) SESSION_NAVIGATION_MAX_STACK_DEPTH); [|done].
  by replace (length l - _) with 0 by lia.
Qed.

Lemma newest_exist store l : all_exist store l → all_exist store (newest l).
Proof. apply Forall_drop. Qed.

Lemma pop_existing_all store l skipped :
  all_exist store l → pop_existing store l skipped =
    match l with [] => (None, [], skipped) | c :: rest => (Some c, rest, skipped) end.
Proof. destruct 1 as [|c rest Hc _]; cbn; [done|]. by rewrite Hc. Qed.

(** Loaded states have the current version. *)
Lemma load_navigation_version fs path state :
  load_session_navigation_state fs path = Ok state →
  nav_schema_version state = SESSION_NAVIGATION_SCHEMA_VERSION.
Proof.
  unfold load_session_navigation_state, load_json. destruct (fs_files fs !! path) as [raw|].
  - intros (s & _ & Hs)%bind_Ok. apply check_Ok in Hs as [Hv [= ->]].
    by apply bail_if_Ok, negb_false_iff, N.eqb_eq in Hv.
  - case_match; [done|]. by intros [= <-].
Qed.

Lemma pruned_state store state :
  prune_navigation_state store state =
    (mkNavigation (nav_schema_version state)
       (if head_exists store (nav_current_head state) then nav_current_head state else None)
       (List.filter (head_exists store) (nav_undo_stack state))
       (List.filter (head_exists store) (nav_redo_stack state)),
     (prune_navigation_state store state).2).
Proof. unfold prune_navigation_state. by destruct (head_exists store (nav_current_head state)). Qed.

Lemma save_if_changed_Err fs path original state skipped fs' e :
  save_if_changed fs path original state skipped = (fs', Err e) →
  load_session_navigation_state fs' path = load_session_navigation_state fs path.
Proof.
  unfold save_if_changed, save_session_navigation_state, save_text. case_match; [|done].
  destruct (write_text_atomic fs path _) as [fs1 [u|err]] eqn:Hw; [done|]. intros [= <- _].
  apply (f_equal (λ r, fs_dirs r.1)) in Hw as Hd. rewrite write_text_atomic_dirs in Hd. cbn in Hd.
  unfold load_session_navigation_state, load_json.
  by rewrite (write_text_atomic_Err _ _ _ _ _ Hw), Hd.
Qed.

Lemma navigate_Err m fs runtime fs' runtime' e :
  navigate m fs runtime = (fs', runtime', Err e) →
  load_session_navigation_state fs' (nav_path runtime) =
    load_session_navigation_state fs (nav_path runtime).
Proof.
  assert (∀ original state skipped previous changed,
    finish_navigation fs (nav_path runtime) original state skipped previous changed runtime
      = (fs', runtime', Err e) →
    load_session_navigation_state fs' (nav_path runtime) =
      load_session_navigation_state fs (nav_path runtime)) as Hfinish.
  { intros original state skipped previous changed. unfold finish_navigation.
    destruct (save_if_changed _ _ _ _ _) as [fs1 [u|err]] eqn:Hs; [done|]. intros [= <- _ _].
    by eapply save_if_changed_Err. }
  destruct m as [target| |]; cbn;
    unfold navigate_session_head, undo_session_head, redo_session_head; fold (nav_path runtime).
  - case_match; [by intros [= <- _ _]|].
    destruct (load_session_navigation_state fs (nav_path runtime)) eqn:Hload; [|by intros [= <- _ _]].
    rewrite pruned_state. rewrite <-Hload in *. apply Hfinish.
  - destruct (load_session_navigation_state fs (nav_path runtime)) eqn:Hload; [|by intros [= <- _ _]].
    rewrite pruned_state. destruct (pop_existing _ _ _) as [[[?|] ?] ?]; rewrite <-Hload in *; apply Hfinish.
  - destruct (load_session_navigation_state fs (nav_path runtime)) eqn:Hload; [|by intros [= <- _ _]].
    rewrite pruned_state. destruct (pop_existing _ _ _) as [[[?|] ?] ?]; rewrite <-Hload in *; apply Hfinish.
Qed.

Section laws.
Context `{!NavigationCodecLaws}.

(** After a successful end of a navigation the file holds the new state. *)
Lemma save_if_changed_Ok fs path original state skipped fs' u :
  load_session_navigation_state fs path = Ok original →
  nav_schema_version state = SESSION_NAVIGATION_SCHEMA_VERSION →
  save_if_changed fs path original state skipped = (fs', Ok u) →
  load_session_navigation_state fs' path = Ok state.
Proof.
  intros Hload Hv. unfold save_if_changed. destruct ((0 <? skipped) || _) eqn:Hc.
  - unfold save_session_navigation_state, save_text.
    destruct (write_text_atomic fs path _) as [fs1 [[]|err]] eqn:Hw; [|done]. intros [= <- _].
    apply write_text_atomic_Ok in Hw. unfold load_session_navigation_state, load_json.
    rewrite Hw, decode_encode_navigation. destruct state; cbn in *. by rewrite Hv.
  - apply orb_false_iff in Hc as [_ ->%negb_false_iff%bool_decide_eq_true]. by intros [= <- _].
Qed.

Lemma finish_history fs runtime original state skipped previous changed fs' runtime' tr :
  load_session_navigation_state fs (nav_path runtime) = Ok original →
  nav_schema_version state = SESSION_NAVIGATION_SCHEMA_VERSION →
  all_exist (rt_store runtime) (nav_undo_stack state) →
  all_exist (rt_store runtime) (nav_redo_stack state) →
  head_exists (rt_store runtime) (nav_current_head state) = true →
  finish_navigation fs (nav_path runtime) original state skipped previous changed runtime
    = (fs', runtime', Ok tr) →
  let h := mkHistory (nav_undo_stack state) (nav_current_head state) (nav_redo_stack state) in
  history_of fs' runtime' = Some h ∧ rt_store runtime' = rt_store runtime ∧
  tr = mkTransition previous (h_current h) (length (h_undo h)) (length (h_redo h)) skipped changed ∧
  rt_active_head runtime' = h_current h.
Proof.
  intros Hload Hv Hu Hr Hcur. unfold finish_navigation.
  destruct (save_if_changed _ _ _ _ _) as [fs1 [u|e]] eqn:Hs; [|done]. intros [= <- <- <-].
  pose proof (save_if_changed_Ok _ _ _ _ _ _ _ Hload Hv Hs) as Hload'. cbn. split; [|done].
  unfold history_of. change (nav_path (set_active_head (nav_current_head state) runtime)) with (nav_path runtime).
  rewrite Hload'. cbn. by rewrite !keep_id, normalize_id.
Qed.

Lemma reverse_pop (l : list (option N)) :
  match reverse l with
  | [] => last l = None ∧ l = []
  | c :: rest => last l = Some c ∧ reverse rest = take (length l - 1) l
  end.
Proof.
  destruct l as [|x l _] using rev_ind; [done|]. rewrite reverse_snoc, last_snoc.
  split; [done|]. rewrite reverse_involutive, length_app. cbn [length].
  by rewrite Nat.add_sub, take_app_length.
Qed.

(** What a transition reports: where it came from and arrived, and the depths. *)
Definition reports (h h' : History) (tr : SessionNavigationTransition) : Prop :=
  previous_head tr = h_current h ∧ active_head tr = h_current h' ∧
  undo_depth tr = length (h_undo h') ∧ redo_depth tr = length (h_redo h').

(** One move from a loaded state. *)
Section move.
Context fs runtime (original : SessionNavigationState).
Hypothesis Hload : load_session_navigation_state fs (nav_path runtime) = Ok original.

Local Abbreviation store := (rt_store runtime).
Local Abbreviation kept := (List.filter (head_exists store)).
Let h : History :=
  mkHistory (kept (nav_undo_stack original)) (normalize_runtime_head store (rt_active_head runtime))
    (kept (nav_redo_stack original)).

Definition moves_to (h' : History)
    (result : TextFs * SessionRuntime Value * Result NavError SessionNavigationTransition) : Prop :=
  ∀ fs' runtime' tr, result = (fs', runtime', Ok tr) →
    history_of fs' runtime' = Some h' ∧ rt_store runtime' = store ∧ reports h h' tr ∧
    rt_active_head runtime' = h_current h'.

Lemma finish_moves_to h' skipped changed :
  all_exist store (h_undo h') → all_exist store (h_redo h') →
  head_exists store (h_current h') = true →
  moves_to h' (finish_navigation fs (nav_path runtime) original
    (mkNavigation (nav_schema_version original) (h_current h') (h_undo h') (h_redo h'))
    skipped (h_current h) changed runtime).
Proof.
  intros Hu Hr Hc fs' runtime' tr E.
  destruct (finish_history _ _ _ (mkNavigation _ _ _ _) _ _ _ _ _ _ Hload
    (load_navigation_version _ _ _ Hload) Hu Hr Hc E) as (-> & -> & -> & ->). by destruct h'.
Qed.

Lemma pushed_exist l : all_exist store l → all_exist store (newest (l ++ [h_current h])).
Proof.
  intros Hl. apply newest_exist, Forall_app. split; [done|]. apply Forall_singleton, normalize_exists.
Qed.

Lemma visit_moves target :
  moves_to (step_history (Visit target) h) (navigate_session_head fs runtime target).
Proof.
  unfold navigate_session_head. fold (nav_path runtime). rewrite Hload, (pruned_state store original).
  destruct (head_exists store target) eqn:Ht; [|done]. cbn. rewrite trim_newest.
  change (normalize_runtime_head store (rt_active_head runtime)) with (h_current h).
  destruct (decide (h_current h = target)) as [Heq|Hne].
  - rewrite bool_decide_true by done. apply (finish_moves_to h); try apply keep_all_exist.
    apply normalize_exists.
  - rewrite bool_decide_false by done. apply (finish_moves_to (mkHistory _ _ _)); cbn; [|by constructor|done].
    apply pushed_exist, keep_all_exist.
Qed.

Lemma undo_moves : moves_to (step_history Undo h) (undo_session_head fs runtime).
Proof.
  unfold undo_session_head. fold (nav_path runtime). rewrite Hload, (pruned_state store original).
  cbn [nav_undo_stack nav_redo_stack nav_schema_version].
  pose proof (keep_all_exist store (nav_undo_stack original)) as Hall%Forall_reverse.
  rewrite pop_existing_all, trim_newest by done.
  pose proof (reverse_pop (h_undo h)) as Hpop. unfold step_history.
  change (kept (nav_undo_stack original)) with (h_undo h) in Hall |- *.
  destruct (reverse (h_undo h)) as [|target rest]; destruct Hpop as [-> Hrest].
  - rewrite reverse_nil, <-Hrest.
    apply (finish_moves_to h); try apply keep_all_exist; apply normalize_exists.
  - rewrite Hrest. apply Forall_cons in Hall as [Ht _].
    apply (finish_moves_to (mkHistory _ _ _)); cbn; [|apply pushed_exist, keep_all_exist|done].
    apply Forall_take, keep_all_exist.
Qed.

Lemma redo_moves : moves_to (step_history Redo h) (redo_session_head fs runtime).
Proof.
  unfold redo_session_head. fold (nav_path runtime). rewrite Hload, (pruned_state store original).
  cbn [nav_undo_stack nav_redo_stack nav_schema_version].
  pose proof (keep_all_exist store (nav_redo_stack original)) as Hall%Forall_reverse.
  rewrite pop_existing_all, trim_newest by done.
  pose proof (reverse_pop (h_redo h)) as Hpop. unfold step_history.
  change (kept (nav_redo_stack original)) with (h_redo h) in Hall |- *.
  destruct (reverse (h_redo h)) as [|target rest]; destruct Hpop as [-> Hrest].
  - rewrite reverse_nil, <-Hrest.
    apply (finish_moves_to h); try apply keep_all_exist; apply normalize_exists.
  - rewrite Hrest. apply Forall_cons in Hall as [Ht _].
    apply (finish_moves_to (mkHistory _ _ _)); cbn; [apply pushed_exist, keep_all_exist| |done].
    apply Forall_take, keep_all_exist.
Qed.
End move.

Lemma load_error_stays m fs runtime e :
  load_session_navigation_state fs (nav_path runtime) = Err e →
  ∃ e', navigate m fs runtime = (fs, runtime, Err e').
Proof.
  intros Hload. destruct m as [target| |]; cbn;
    unfold navigate_session_head, undo_session_head, redo_session_head; fold (nav_path runtime);
    rewrite Hload; try by eexists. case_match; by eexists.
Qed.

Lemma navigate_step m fs runtime fs' runtime' tr :
  navigate m fs runtime = (fs', runtime', Ok tr) →
  ∃ h, history_of fs runtime = Some h ∧ history_of fs' runtime' = Some (step_history m h) ∧
    rt_store runtime' = rt_store runtime ∧ reports h (step_history m h) tr ∧
    rt_active_head runtime' = h_current (step_history m h).
Proof.
  intros E. unfold history_of at 1.
  destruct (load_session_navigation_state fs (nav_path runtime)) as [original|e] eqn:Hload.
  2: { destruct (load_error_stays m fs runtime e Hload) as [e' He']. congruence. }
  eexists. split; [done|]. destruct m as [target| |]; cbn in E.
  - by eapply visit_moves in E.
  - by eapply undo_moves in E.
  - by eapply redo_moves in E.
Qed.

(** A sequence of moves, with the transitions it reports. *)
Fixpoint navigate_all (ms : list Move) fs runtime
    : TextFs * SessionRuntime Value * Result NavError (list SessionNavigationTransition) :=
  match ms with
  | [] => (fs, runtime, Ok [])
  | m :: ms =>
      match navigate m fs runtime with
      | (fs, runtime, Err e) => (fs, runtime, Err e)
      | (fs, runtime, Ok tr) =>
          match navigate_all ms fs runtime with
          | (fs, runtime, Err e) => (fs, runtime, Err e)
          | (fs, runtime, Ok trs) => (fs, runtime, Ok (tr :: trs))
          end
      end
  end.

(** C9: navigation implements a bounded history of heads: whatever sequence of
    visits, undos and redos succeeds, the runtime and the file end in the history
    that the same steps lead to, targets that no longer exist forgotten and each
    stack cut to its newest 256, and every step reports where it came from, where
    it arrived and the depths; a step that fails leaves the stacks as they were. *)
Theorem navigation_refines_history (ms : list Move) fs runtime :
  match navigate_all ms fs runtime with
  | (fs', runtime', Ok trs) =>
      ms = [] ∨ ∃ h, history_of fs runtime = Some h ∧
        history_of fs' runtime' = Some (foldl (λ h m, step_history m h) h ms) ∧
        rt_store runtime' = rt_store runtime ∧
        rt_active_head runtime' = h_current (foldl (λ h m, step_history m h) h ms) ∧
        ∀ i tr, trs !! i = Some tr → ∃ m, ms !! i = Some m ∧
          let before := foldl (λ h m, step_history m h) h (take i ms) in
          reports before (step_history m before) tr
  | (_, _, Err _) => True
  end ∧
  ∀ m fs' runtime' e, navigate m fs runtime = (fs', runtime', Err e) →
    load_session_navigation_state fs' (nav_path runtime) =
      load_session_navigation_state fs (nav_path runtime).
Proof.
  split; [|intros m fs' runtime' e; apply navigate_Err]. revert fs runtime.
  induction ms as [|m ms IH]; intros fs runtime; cbn [navigate_all]; [by left|].
  destruct (navigate m fs runtime) as [[fs1 rt1] [tr|e]] eqn:E; [|done].
  apply navigate_step in E as (h & Hh & Hh1 & Hst & Hrep & Hact).
  specialize (IH fs1 rt1). destruct (navigate_all ms fs1 rt1) as [[fs2 rt2] [trs|e]] eqn:E2; [|done].
  right. exists h. split; [done|]. cbn [foldl].
  assert (∀ i tr', (tr :: trs) !! i = Some tr' → i = 0 → ∃ m', (m :: ms) !! i = Some m' ∧
    let before := foldl (λ h m, step_history m h) h (take i (m :: ms)) in
    reports before (step_history m' before) tr') as Hfirst.
  { intros i tr' Hi ->. injection Hi as <-. by exists m. }
  destruct IH as [->|(h1 & Hh1' & Hh2 & Hst2 & Hact2 & Hreps)].
  - injection E2 as <- <- <-. cbn. split; [done|]. split; [done|]. split; [done|].
    intros [|i] tr' Hi; [by apply Hfirst|done].
  - rewrite Hh1 in Hh1'. injection Hh1' as <-. split; [done|]. split; [congruence|]. split; [done|].
    intros [|i] tr' Hi; [by apply Hfirst|]. cbn in Hi. apply Hreps in Hi as (m' & Hm' & Hr).
    by exists m'.
Qed.
End laws.
End theorems.

(** ** A concrete runtime *)

#[export] Instance SessionNavigationState_countable : Countable SessionNavigationState.
Proof.
  refine (inj_countable'
    (λ s, (nav_schema_version s, nav_current_head s, nav_undo_stack s, nav_redo_stack s))
    (λ '(v, c, u, r), mkNavigation v c u r) _). by intros [].
Defined.

#[export] Instance bits_navigation : NavigationCodec :=
  {| decode_navigation s := decode_bits (trim s);
     encode_navigation := encode_bits;
     decode_names s := (λ p, mkNames p.1 p.2) <$> decode_bits (trim s);
     encode_names f := encode_bits (nf_schema_version f, nf_names f) |}.

Lemma trim_encode_bits {A} `{Countable A} (x : A) : trim (encode_bits x +:+ newline) = encode_bits x.
Proof. apply trim_marked_newline. Qed.

#[export] Instance bits_navigation_laws : NavigationCodecLaws.
Proof.
  split.
  - intros s. cbn -[encode_bits decode_bits trim newline]. by rewrite trim_encode_bits, decode_encode_bits.
  - intros [v m]. cbn -[encode_bits decode_bits trim newline].
    by rewrite trim_encode_bits, decode_encode_bits.
Qed.

Definition two_entries : @SessionStore unit :=
  mkStore "s.jsonl" Jsonl "default"
    [mkEntry 1 None (message_system "hi"); mkEntry 2 (Some 1%N) (message_user "yo")]
    usage_default 3 DEFAULT_LOCK_WAIT_MS DEFAULT_LOCK_STALE_MS.
Definition nav_fs : TextFs := mkTextFs ∅ ∅ (λ _, false) (λ _, false) 7 1000.
Definition at_root : SessionRuntime unit := mkRuntime two_entries (Some 1%N).

Lemma navigation_refines_history_witness :
  let ms := [Visit (Some 2%N); Undo; Redo] in
  is_ok (navigate_all ms nav_fs at_root).2 = true ∧
  (match navigate_all ms nav_fs at_root with
   | (fs', runtime', Ok trs) =>
       ms = [] ∨ ∃ h, history_of nav_fs at_root = Some h ∧
         history_of fs' runtime' = Some (foldl (λ h m, step_history m h) h ms) ∧
         rt_store runtime' = rt_store at_root ∧
         rt_active_head runtime' = h_current (foldl (λ h m, step_history m h) h ms) ∧
         ∀ i tr, trs !! i = Some tr → ∃ m, ms !! i = Some m ∧
           let before := foldl (λ h m, step_history m h) h (take i ms) in
           reports before (step_history m before) tr
   | (_, _, Err _) => True
   end ∧
   ∀ m fs' runtime' e, navigate m nav_fs at_root = (fs', runtime', Err e) →
     load_session_navigation_state fs' (nav_path at_root) =
       load_session_navigation_state nav_fs (nav_path at_root)).
Proof.
  cbv zeta. split; [by vm_compute|].
  exact (navigation_refines_history [Visit (Some 2%N); Undo; Redo] nav_fs at_root).
Defined.

(** A navigation whose state cannot be saved has moved the runtime all the same. *)
Lemma failed_save_moves_head :
  let read_only := mkTextFs ∅ ∅ (λ _, true) (λ _, false) 7 1000 in
  let '(fs', runtime', r) := navigate_session_head read_only at_root (Some 2%N) in
  is_ok r = false ∧ rt_active_head runtime' = Some 2%N.
Proof. by vm_compute. Qed.
