(* ===== verification/SessionCommands.v ===== *)
(** * Reading a session ([tau-session], [session_commands.rs],
    [session_graph_commands.rs])

    Search, comparison of two lineages, statistics and the export of the entry
    graph. *)

From Stdlib Require Import Ascii NArith Lia.
From stdpp Require Import base gmap sets strings list.
From S2P Require Import Prelude RustStr Json Messages SessionIntegrity SessionStorage SessionStore AtomicIo SessionNavigation.

#[local] Open Scope string_scope.
#[local] Open Scope list_scope.
#[local] Open Scope nat_scope.

Definition SESSION_SEARCH_DEFAULT_RESULTS : nat := 50.
Definition SESSION_SEARCH_MAX_RESULTS : nat := 200.
Definition SESSION_SEARCH_PREVIEW_CHARS : nat := 80.

(** [str::to_lowercase] on all of Unicode, and [{}] of an [f64]. *)
Class TextFormat := { to_lowercase : string → string; show_f64 : f64 → string }.

Definition dquote : string := of_chars ["034"%char].

(** [Option::map(to_string).unwrap_or("none")] *)
Definition format_head (head : option N) : string :=
  match head with Some id => show_u64 id | None => "none" end.
Definition format_depth (depth : option nat) : string :=
  match depth with Some d => show_usize d | None => "none" end.

(** ** Search *)

Record SessionSearchMatch := mkSearchMatch
  { sm_id : N; sm_parent_id : option N; sm_role : string; sm_preview : string }.

Record SessionSearchArgs := mkSearchArgs
  { sa_query : string; sa_role : option string; sa_limit : nat }.

Definition parse_session_search_role (raw : string) : Result string string :=
  let normalized := to_ascii_lowercase (trim raw) in
  if existsb (String.eqb normalized) ["system"; "user"; "assistant"; "tool"] then Ok normalized
  else Err ("invalid role '" +:+ raw +:+ "'; expected one of: system, user, assistant, tool").

Definition parse_session_search_limit (raw : string) : Result string nat :=
  value ← ok_or ("invalid limit '" +:+ raw +:+ "'; expected an integer") (parse_u64 (trim raw));
  _ ← bail_if (value =? 0)%N "limit must be greater than 0";
  _ ← bail_if (N.of_nat SESSION_SEARCH_MAX_RESULTS <? value)%N
        ("limit " +:+ show_u64 value +:+ " exceeds maximum " +:+ show_usize SESSION_SEARCH_MAX_RESULTS);
  Ok (N.to_nat value).

(** The loop over the tokens; a flag takes the token after it. *)
Fixpoint parse_search_tokens (tokens query_parts : list string) (role : option string) (limit : nat)
    : Result string (list string * option string * nat) :=
  match tokens with
  | [] => Ok (query_parts, role, limit)
  | token :: rest =>
      if String.eqb token "--role" then
        match rest with
        | [] => Err "missing value for --role"
        | value :: rest =>
            role ← parse_session_search_role value;
            parse_search_tokens rest query_parts (Some role) limit
        end
      else match strip_prefix "--role=" token with
      | Some value =>
          role ← parse_session_search_role value;
          parse_search_tokens rest query_parts (Some role) limit
      | None =>
          if String.eqb token "--limit" then
            match rest with
            | [] => Err "missing value for --limit"
            | value :: rest =>
                limit ← parse_session_search_limit value;
                parse_search_tokens rest query_parts role limit
            end
          else match strip_prefix "--limit=" token with
          | Some value =>
              limit ← parse_session_search_limit value;
              parse_search_tokens rest query_parts role limit
          | None =>
              if starts_with "--" token then Err ("unknown flag '" +:+ token +:+ "'")
              else parse_search_tokens rest (query_parts ++ [token]) role limit
          end
      end
  end.

Definition parse_session_search_args (command_args : string) : Result string SessionSearchArgs :=
  parsed ← parse_search_tokens (split_whitespace command_args) [] None SESSION_SEARCH_DEFAULT_RESULTS;
  let '(query_parts, role, limit) := parsed in
  let query := join " " query_parts in
  _ ← bail_if (is_empty (trim query)) "query is required";
  Ok (mkSearchArgs query role limit).

Definition normalize_preview_text (raw : string) : string := join " " (split_whitespace raw).

Section commands.
Context {Value : Type} `{TF : TextFormat}.
Implicit Types (entries : list (SessionEntry Value)) (runtime : SessionRuntime Value).

Definition session_message_preview (message : Message Value) : string :=
  let normalized := normalize_preview_text (text_content message) in
  let preview := if is_empty normalized then "(no text)" else normalized in
  if chars_count preview <=? SESSION_SEARCH_PREVIEW_CHARS then preview
  else take_chars SESSION_SEARCH_PREVIEW_CHARS preview +:+ "...".

(** [format!("{:?}", role).to_lowercase()] *)
Definition session_message_role (message : Message Value) : string := role_label (msg_role message).

Definition entry_matches (normalized_query : string) (role_filter : option string)
    (entry : SessionEntry Value) : bool :=
  let role := session_message_role (se_message entry) in
  match role_filter with Some wanted => String.eqb role wanted | None => true end &&
  (str_contains normalized_query role
   || str_contains normalized_query (to_lowercase (text_content (se_message entry)))).

Definition search_match (entry : SessionEntry Value) : SessionSearchMatch :=
  mkSearchMatch (se_id entry) (se_parent_id entry) (session_message_role (se_message entry))
    (session_message_preview (se_message entry)).

(** One round of the loop: the match is counted, and kept while there is room. *)
Definition search_step (normalized_query : string) (role_filter : option string) (max_results : nat)
    (acc : list SessionSearchMatch * nat) (entry : SessionEntry Value)
    : list SessionSearchMatch * nat :=
  let '(matches, total) := acc in
  if negb (entry_matches normalized_query role_filter entry) then acc
  else if max_results <=? length matches then (matches, S total)
  else (matches ++ [search_match entry], S total).

Definition search_session_entries entries (query : string) (role_filter : option string)
    (max_results : nat) : list SessionSearchMatch * nat :=
  foldl (search_step (to_lowercase query) role_filter max_results) ([], 0) (sort_by_key se_id entries).

Definition render_search_match (item : SessionSearchMatch) : string :=
  "result: id=" +:+ show_u64 (sm_id item) +:+ " parent=" +:+ format_head (sm_parent_id item) +:+
  " role=" +:+ sm_role item +:+ " preview=" +:+ sm_preview item.

Definition render_session_search (query : string) (role_filter : option string)
    (entries_count : nat) (matches : list SessionSearchMatch) (total_matches max_results : nat)
    : string :=
  join newline
    (["session search: query=" +:+ dquote +:+ query +:+ dquote +:+ " role=" +:+
      default "any" role_filter +:+ " entries=" +:+ show_usize entries_count +:+ " matches=" +:+
      show_usize total_matches +:+ " shown=" +:+ show_usize (length matches) +:+ " limit=" +:+
      show_usize max_results] ++
     match matches with [] => ["results: none"] | _ => render_search_match <$> matches end).

Definition execute_session_search_command runtime (command_args : string) : string :=
  match parse_session_search_args command_args with
  | Err error => "session search error: error=" +:+ error
  | Ok args =>
      let entries := st_entries (rt_store runtime) in
      let '(matches, total) :=
        search_session_entries entries (sa_query args) (sa_role args) (sa_limit args) in
      render_session_search (sa_query args) (sa_role args) (length entries) matches total
        (sa_limit args)
  end.

(** ** Comparison of two lineages *)

Record SessionDiffEntry := mkDiffEntry
  { de_id : N; de_parent_id : option N; de_role : string; de_preview : string }.

Record SessionDiffReport := mkDiffReport
  { dr_source : string; dr_left_id : N; dr_right_id : N;
    dr_shared_depth : nat; dr_left_depth : nat; dr_right_depth : nat;
    dr_shared_entries : list SessionDiffEntry; dr_left_only_entries : list SessionDiffEntry;
    dr_right_only_entries : list SessionDiffEntry }.

Definition parse_session_diff_args (command_args : string) : Result string (option (N * N)) :=
  match split_whitespace command_args with
  | [] => Ok None
  | [raw_left; raw_right] =>
      left_id ← ok_or ("invalid left session id '" +:+ raw_left +:+ "'; expected an integer")
                  (parse_u64 raw_left);
      right_id ← ok_or ("invalid right session id '" +:+ raw_right +:+ "'; expected an integer")
                   (parse_u64 raw_right);
      Ok (Some (left_id, right_id))
  | _ => Err "usage: /session-diff [<left-id> <right-id>]"
  end.

Definition session_diff_entry (entry : SessionEntry Value) : SessionDiffEntry :=
  mkDiffEntry (se_id entry) (se_parent_id entry) (session_message_role (se_message entry))
    (session_message_preview (se_message entry)).

Fixpoint shared_lineage_prefix_depth (ls rs : list (SessionEntry Value)) : nat :=
  match ls, rs with
  | l :: ls, r :: rs =>
      if (se_id l =? se_id r)%N then S (shared_lineage_prefix_depth ls rs) else 0
  | _, _ => 0
  end.

Definition resolve_session_diff_heads runtime (heads : option (N * N)) : Result string (N * N * string) :=
  let store := rt_store runtime in
  match heads with
  | Some (left_id, right_id) =>
      _ ← bail_if (negb (contains store left_id)) ("unknown left session id " +:+ show_u64 left_id);
      _ ← bail_if (negb (contains store right_id)) ("unknown right session id " +:+ show_u64 right_id);
      Ok (left_id, right_id, "explicit")
  | None =>
      left_id ← ok_or "active head is not set" (rt_active_head runtime);
      _ ← bail_if (negb (contains store left_id))
            ("active head " +:+ show_u64 left_id +:+ " does not exist in session");
      right_id ← ok_or "latest head is not set" (head_id store);
      Ok (left_id, right_id, "default")
  end.

(** A lineage, or the text of its error. *)
Definition lineage_or_text runtime (id : N) : Result string (list (SessionEntry Value)) :=
  match lineage_entries (rt_store runtime) (Some id) with
  | Ok lineage => Ok lineage
  | Err e => Err (lineage_error_text e)
  end.

Definition compute_session_diff runtime (heads : option (N * N)) : Result string SessionDiffReport :=
  resolved ← resolve_session_diff_heads runtime heads;
  let '(left_id, right_id, source) := resolved in
  left_lineage ← lineage_or_text runtime left_id;
  right_lineage ← lineage_or_text runtime right_id;
  let shared_depth := shared_lineage_prefix_depth left_lineage right_lineage in
  Ok (mkDiffReport source left_id right_id shared_depth (length left_lineage) (length right_lineage)
        (session_diff_entry <$> take shared_depth left_lineage)
        (session_diff_entry <$> drop shared_depth left_lineage)
        (session_diff_entry <$> drop shared_depth right_lineage)).

Definition render_session_diff_entry (prefix : string) (entry : SessionDiffEntry) : string :=
  prefix +:+ ": id=" +:+ show_u64 (de_id entry) +:+ " parent=" +:+ format_head (de_parent_id entry) +:+
  " role=" +:+ de_role entry +:+ " preview=" +:+ de_preview entry.

Definition render_diff_group (prefix : string) (group : list SessionDiffEntry) : list string :=
  match group with
  | [] => [prefix +:+ ": none"]
  | _ => render_session_diff_entry prefix <$> group
  end.

Definition render_session_diff (report : SessionDiffReport) : string :=
  join newline
    (["session diff: source=" +:+ dr_source report +:+ " left=" +:+ show_u64 (dr_left_id report) +:+
      " right=" +:+ show_u64 (dr_right_id report);
      "summary: shared_depth=" +:+ show_usize (dr_shared_depth report) +:+ " left_depth=" +:+
      show_usize (dr_left_depth report) +:+ " right_depth=" +:+ show_usize (dr_right_depth report) +:+
      " left_only=" +:+ show_usize (length (dr_left_only_entries report)) +:+ " right_only=" +:+
      show_usize (length (dr_right_only_entries report))] ++
     render_diff_group "shared" (dr_shared_entries report) ++
     render_diff_group "left-only" (dr_left_only_entries report) ++
     render_diff_group "right-only" (dr_right_only_entries report)).

Definition execute_session_diff_command runtime (heads : option (N * N)) : string :=
  match compute_session_diff runtime heads with
  | Ok report => render_session_diff report
  | Err error => "session diff error: " +:+ error
  end.

(** ** Statistics *)

Record SessionStats := mkStats
  { ss_entries : nat; ss_branch_tips : nat; ss_roots : nat; ss_max_depth : nat;
    ss_active_depth : option nat; ss_latest_depth : option nat;
    ss_active_head : option N; ss_latest_head : option N; ss_active_is_latest : bool;
    ss_role_counts : gmap string nat; ss_usage : SessionUsageSummary }.

Inductive SessionStatsOutputFormat := StatsText | StatsJson.

Definition parse_session_stats_args (command_args : string) : Result string SessionStatsOutputFormat :=
  match split_whitespace command_args with
  | [] => Ok StatsText
  | ["--json"] => Ok StatsJson
  | _ => Err "usage: /session-stats [--json]"
  end.

(** [parent_by_id], rejecting a repeated id. *)
Fixpoint collect_parents entries (parents : gmap N (option N)) : Result string (gmap N (option N)) :=
  match entries with
  | [] => Ok parents
  | e :: entries =>
      match parents !! se_id e with
      | Some _ => Err ("duplicate session entry id " +:+ show_u64 (se_id e))
      | None => collect_parents entries (<[se_id e := se_parent_id e]> parents)
      end
  end.

(** The recursion of [depth_for]; [None] is running out of fuel. *)
Fixpoint depth_for (fuel : nat) (parents : gmap N (option N)) (memo : gmap N nat)
    (visiting : gset N) (id : N) : option (Result string (nat * gmap N nat * gset N)) :=
  match fuel with
  | O => None
  | S fuel =>
      match memo !! id with
      | Some depth => Some (Ok (depth, memo, visiting))
      | None =>
          if decide (id ∈ visiting)
          then Some (Err ("detected cycle while computing depth at session id " +:+ show_u64 id))
          else
            let visiting := {[id]} ∪ visiting in
            match parents !! id with
            | None => Some (Err ("unknown session entry id " +:+ show_u64 id))
            | Some None => Some (Ok (1, <[id := 1]> memo, visiting ∖ {[id]}))
            | Some (Some parent) =>
                match parents !! parent with
                | None =>
                    Some (Err ("missing parent id " +:+ show_u64 parent +:+ " for session entry " +:+
                               show_u64 id))
                | Some _ =>
                    match depth_for fuel parents memo visiting parent with
                    | None => None
                    | Some (Err e) => Some (Err e)
                    | Some (Ok (depth, memo, visiting)) =>
                        Some (Ok (S depth, <[id := S depth]> memo, visiting ∖ {[id]}))
                    end
                end
            end
      end
  end.

(** The depths of all entries, in the iteration order of the map's keys. *)
Fixpoint depths_loop (parents : gmap N (option N)) (order : list N) (memo : gmap N nat)
    : option (Result string (gmap N nat)) :=
  match order with
  | [] => Some (Ok memo)
  | id :: order =>
      match depth_for (S (size parents)) parents memo ∅ id with
      | None => None
      | Some (Err e) => Some (Err e)
      | Some (Ok (_, memo, _)) => depths_loop parents order memo
      end
  end.

(** [order] gives the iteration order of the keys of the map. *)
Definition compute_session_entry_depths (order : gmap N (option N) → list N) entries
    : option (Result string (gmap N nat)) :=
  match collect_parents entries ∅ with
  | Err e => Some (Err e)
  | Ok parents => depths_loop parents (order parents) ∅
  end.

Definition count_roles entries : gmap string nat :=
  foldl (λ counts e,
    let role := session_message_role (se_message e) in
    <[role := S (default 0 (counts !! role))]> counts) ∅ entries.

Definition compute_session_stats (order : gmap N (option N) → list N) runtime
    : Result string SessionStats :=
  let store := rt_store runtime in
  let entries := st_entries store in
  depths ← default (Err "") (compute_session_entry_depths order entries);
  let latest_head := head_id store in
  let latest_depth := latest_head ≫= λ id, depths !! id in
  active_depth ←
    match rt_active_head runtime with
    | Some id =>
        depth ← ok_or ("active head " +:+ show_u64 id +:+ " does not exist in session") (depths !! id);
        Ok (Some depth)
    | None => Ok None
    end;
  Ok (mkStats (length entries) (length (branch_tips store))
        (length (List.filter (λ e, bool_decide (se_parent_id e = None)) entries))
        (foldr Nat.max 0 (map_to_list depths).*2)
        active_depth latest_depth (rt_active_head runtime) latest_head
        (bool_decide (rt_active_head runtime = latest_head))
        (count_roles entries) (st_usage store)).

Definition show_flag (b : bool) : string := if b then "true" else "false".

Definition sorted_counts (counts : gmap string nat) : list (string * nat) :=
  sort_by (λ a b, String.leb a.1 b.1) (map_to_list counts).

Definition render_session_stats (stats : SessionStats) : string :=
  let usage := ss_usage stats in
  join newline
    (["session stats: entries=" +:+ show_usize (ss_entries stats) +:+ " branch_tips=" +:+
      show_usize (ss_branch_tips stats) +:+ " roots=" +:+ show_usize (ss_roots stats) +:+
      " max_depth=" +:+ show_usize (ss_max_depth stats);
      "heads: active=" +:+ format_head (ss_active_head stats) +:+ " latest=" +:+
      format_head (ss_latest_head stats) +:+ " active_is_latest=" +:+
      show_flag (ss_active_is_latest stats);
      "depth: active=" +:+ format_depth (ss_active_depth stats) +:+ " latest=" +:+
      format_depth (ss_latest_depth stats);
      "usage: input_tokens=" +:+ show_u64 (input_tokens usage) +:+ " output_tokens=" +:+
      show_u64 (output_tokens usage) +:+ " total_tokens=" +:+ show_u64 (total_tokens usage) +:+
      " estimated_cost_usd=" +:+ show_f64 (estimated_cost_usd usage)] ++
     match sorted_counts (ss_role_counts stats) with
     | [] => ["roles: none"]
     | counts => (λ '(role, count), "role: " +:+ role +:+ "=" +:+ show_usize count) <$> counts
     end).

Section json.
Context `{JC : JsonCodec}.

(** [serde_json::json!] writes a number that is not finite as [null]. *)
Definition render_session_stats_json (stats : SessionStats) : string :=
  let usage := ss_usage stats in
  json_to_string (json_obj
    [("entries", json_usize (ss_entries stats)); ("branch_tips", json_usize (ss_branch_tips stats));
     ("roots", json_usize (ss_roots stats)); ("max_depth", json_usize (ss_max_depth stats));
     ("active_depth", json_option json_usize (ss_active_depth stats));
     ("latest_depth", json_option json_usize (ss_latest_depth stats));
     ("active_head", json_option (λ id, Num (PosInt id)) (ss_active_head stats));
     ("latest_head", json_option (λ id, Num (PosInt id)) (ss_latest_head stats));
     ("active_is_latest", Bool (ss_active_is_latest stats));
     ("role_counts",
      Obj ((λ '(role, count), (role, json_usize count)) <$> sorted_counts (ss_role_counts stats)));
     ("usage", json_obj
        [("input_tokens", Num (PosInt (input_tokens usage)));
         ("output_tokens", Num (PosInt (output_tokens usage)));
         ("total_tokens", Num (PosInt (total_tokens usage)));
         ("estimated_cost_usd",
          json_f64 (estimated_cost_usd usage))])]).

Definition execute_session_stats_command (order : gmap N (option N) → list N) runtime
    (format : SessionStatsOutputFormat) : string :=
  match compute_session_stats order runtime, format with
  | Ok stats, StatsText => render_session_stats stats
  | Ok stats, StatsJson => render_session_stats_json stats
  | Err error, StatsText => "session stats error: " +:+ error
  | Err error, StatsJson =>
      json_to_string (json_obj [("error", Str ("session stats error: " +:+ error))])
  end.
End json.

(** ** The graph of entries *)

Inductive SessionGraphFormat := Mermaid | Dot.

Definition graph_format_as_str (f : SessionGraphFormat) : string :=
  match f with Mermaid => "mermaid" | Dot => "dot" end.

Definition resolve_session_graph_format (path : string) : SessionGraphFormat :=
  if eq_ignore_ascii_case (default "" (path_extension path)) "dot" then Dot else Mermaid.

(** [raw.replace(char, text)] *)
Definition replace_with (from : ascii) (to : string) (raw : string) : string :=
  of_chars (flat_map (λ c, if Ascii.eqb c from then chars_of to else [c]) (chars_of raw)).

Definition backslash_char : ascii := "\"%char.
Definition dquote_char : ascii := "034"%char.

Definition escape_graph_label (raw : string) : string :=
  replace_with dquote_char (of_chars [backslash_char; dquote_char])
    (replace_with backslash_char (of_chars [backslash_char; backslash_char]) raw).

Definition session_graph_node_label (entry : SessionEntry Value) : string :=
  show_u64 (se_id entry) +:+ ": " +:+ session_message_role (se_message entry) +:+ " | " +:+
  session_message_preview (se_message entry).

Definition mermaid_node (entry : SessionEntry Value) : string :=
  "  n" +:+ show_u64 (se_id entry) +:+ "[" +:+ dquote +:+
  escape_graph_label (session_graph_node_label entry) +:+ dquote +:+ "]".
Definition dot_node (entry : SessionEntry Value) : string :=
  "  n" +:+ show_u64 (se_id entry) +:+ " [label=" +:+ dquote +:+
  escape_graph_label (session_graph_node_label entry) +:+ dquote +:+ "];".

(** The arrow to an entry from its parent. *)
Definition graph_edge (arrow stop : string) (entry : SessionEntry Value) : option string :=
  (λ parent, "  n" +:+ show_u64 parent +:+ arrow +:+ "n" +:+ show_u64 (se_id entry) +:+ stop)
    <$> se_parent_id entry.

Definition render_session_graph_mermaid entries : string :=
  let ordered := sort_by_key se_id entries in
  join newline
    ("graph TD" ::
     match ordered with
     | [] => ["  empty[" +:+ dquote +:+ "(empty session)" +:+ dquote +:+ "]"]
     | _ => (mermaid_node <$> ordered) ++ omap (graph_edge " --> " "") ordered
     end).

Definition render_session_graph_dot entries : string :=
  let ordered := sort_by_key se_id entries in
  join newline
    (["digraph session {"; "  rankdir=LR;"] ++
     match ordered with
     | [] => ["  empty [label=" +:+ dquote +:+ "(empty session)" +:+ dquote +:+ "];"]
     | _ => (dot_node <$> ordered) ++ omap (graph_edge " -> " ";") ordered
     end ++ ["}"]).

Definition render_session_graph (format : SessionGraphFormat) entries : string :=
  match format with
  | Mermaid => render_session_graph_mermaid entries
  | Dot => render_session_graph_dot entries
  end.

Definition execute_session_graph_export_command (fs : TextFs) runtime (command_args : string)
    : TextFs * string :=
  let destination := trim command_args in
  let format := resolve_session_graph_format destination in
  let entries := st_entries (rt_store runtime) in
  match write_text_atomic fs destination (render_session_graph format entries) with
  | (fs', Ok _) =>
      (fs', "session graph export: path=" +:+ destination +:+ " format=" +:+
            graph_format_as_str format +:+ " nodes=" +:+ show_usize (length entries) +:+ " edges=" +:+
            show_usize (length (List.filter (λ e, bool_decide (se_parent_id e ≠ None)) entries)))
  | (fs', Err e) =>
      (fs', "session graph export error: path=" +:+ destination +:+ " error=" +:+
            io_error_text fs destination e)
  end.
End commands.
