(* ===== verification/SessionRuntimeCommands.v ===== *)
(** * Session commands ([tau-session], [session_runtime_commands.rs],
    [session_runtime_helpers.rs])

    The commands a user gives to a running session: each changes the store, the
    head and the navigation file together. *)

From Stdlib Require Import Ascii NArith Lia.
From stdpp Require Import base gmap sets strings list.
From S2P Require Import Prelude RustStr Json Messages SessionIntegrity SessionStorage SessionStore AtomicIo SessionNavigation SessionCommands.

#[local] Open Scope string_scope.
#[local] Open Scope list_scope.
#[local] Open Scope nat_scope.

Record SessionRuntimeCommandOutcome := mkCommandOutcome
  { co_message : string; co_reload_active_head : bool }.

Inductive CommandError :=
| StoreFailed (e : SessionError)
| NavigationFailed (e : NavError)
| CommandMessage (text : string).

Definition session_import_mode_label (mode : SessionImportMode) : string :=
  match mode with ImportMerge => "merge" | ImportReplace => "replace" end.
Definition session_merge_strategy_label := strategy_label.

Definition format_id_list (ids : list N) : string :=
  match ids with [] => "none" | _ => join "," (show_u64 <$> ids) end.
Definition format_remap_ids (remapped : list (N * N)) : string :=
  match remapped with
  | [] => "none"
  | _ => join "," ((λ '(from, to), show_u64 from +:+ "->" +:+ show_u64 to) <$> remapped)
  end.

Record SessionMergeCommandArgs := mkMergeArgs
  { ma_source_head : N; ma_target_head : option N; ma_strategy : SessionMergeStrategy }.

Definition MERGE_USAGE : string :=
  "usage: /session-merge <source-id> [target-id] [--strategy <append|squash|fast-forward>]".

Definition parse_session_merge_strategy (raw : string) : Result string SessionMergeStrategy :=
  let normalized := to_ascii_lowercase (trim raw) in
  if String.eqb normalized "append" then Ok Append
  else if String.eqb normalized "squash" then Ok Squash
  else if existsb (String.eqb normalized) ["fast-forward"; "fast_forward"; "ff"] then Ok FastForward
  else Err ("invalid merge strategy '" +:+ raw +:+ "'; expected append, squash, or fast-forward").

Fixpoint parse_merge_flags (tokens : list string) (strategy : SessionMergeStrategy)
    : Result string SessionMergeStrategy :=
  match tokens with
  | [] => Ok strategy
  | token :: rest =>
      if String.eqb token "--strategy" then
        match rest with
        | [] => Err "missing value for --strategy"
        | value :: rest => strategy ← parse_session_merge_strategy value; parse_merge_flags rest strategy
        end
      else match strip_prefix "--strategy=" token with
      | Some value => strategy ← parse_session_merge_strategy value; parse_merge_flags rest strategy
      | None => Err ("unknown flag '" +:+ token +:+ "'")
      end
  end.

(** The optional target id before the flags. *)
Definition parse_merge_target (tokens : list string) : Result string (option N * list string) :=
  match tokens with
  | token :: rest =>
      if starts_with "--" token then Ok (None, tokens)
      else
        target ← ok_or ("invalid target session id '" +:+ token +:+ "'; expected an integer")
                   (parse_u64 token);
        Ok (Some target, rest)
  | [] => Ok (None, tokens)
  end.

Definition parse_session_merge_command_args (command_args : string)
    : Result string SessionMergeCommandArgs :=
  match split_whitespace command_args with
  | [] => Err MERGE_USAGE
  | token :: rest =>
      source_head ← ok_or ("invalid source session id '" +:+ token +:+ "'; expected an integer")
                      (parse_u64 token);
      parsed ← parse_merge_target rest;
      let '(target_head, flags) := parsed in
      strategy ← parse_merge_flags flags Append;
      Ok (mkMergeArgs source_head target_head strategy)
  end.

Section commands.
Context {Value T : Type} `{!SessionCodec Value, !RowTable T, !NavigationCodec, !TextFormat, !JsonCodec}.
Implicit Types (w : World T) (fs : TextFs) (runtime : SessionRuntime Value).

(** The storage, the text files beside it, and the running session. *)
Record CommandState := mkCommandState
  { cs_world : World T; cs_fs : TextFs; cs_runtime : SessionRuntime Value }.

Definition Command : Type :=
  CommandState → CommandState * Result CommandError SessionRuntimeCommandOutcome.

Definition said (message : string) (reload : bool) : Result CommandError SessionRuntimeCommandOutcome :=
  Ok (mkCommandOutcome message reload).

(** A command that takes no arguments. *)
Definition without_args (command_args usage : string) (run : Command) : Command := λ s,
  if negb (is_empty command_args) then (s, said usage false) else run s.

(** Navigation inside a command; an error ends it. *)
Definition then_navigate (target : option N) (s : CommandState)
    (k : SessionNavigationTransition → CommandState → CommandState * Result CommandError SessionRuntimeCommandOutcome)
    : CommandState * Result CommandError SessionRuntimeCommandOutcome :=
  match navigate_session_head (cs_fs s) (cs_runtime s) target with
  | (fs, runtime, Err e) => (mkCommandState (cs_world s) fs runtime, Err (NavigationFailed e))
  | (fs, runtime, Ok tr) => k tr (mkCommandState (cs_world s) fs runtime)
  end.

(** A store operation inside a command; an error ends it. *)
Definition then_store {A} (op : World T → @SessionStore Value → World T * @SessionStore Value * Result SessionError A)
    (s : CommandState) (k : A → CommandState → CommandState * Result CommandError SessionRuntimeCommandOutcome)
    : CommandState * Result CommandError SessionRuntimeCommandOutcome :=
  let head := rt_active_head (cs_runtime s) in
  match op (cs_world s) (rt_store (cs_runtime s)) with
  | (w, store, Err e) => (mkCommandState w (cs_fs s) (mkRuntime store head), Err (StoreFailed e))
  | (w, store, Ok a) => k a (mkCommandState w (cs_fs s) (mkRuntime store head))
  end.

Definition existing_or_latest (store : @SessionStore Value) (head : option N) : option N :=
  match head with
  | Some id => if contains store id then Some id else head_id store
  | None => head_id store
  end.

Definition execute_resume_command (command_args : string) : Command :=
  without_args command_args "usage: /resume" (λ s,
    let store := rt_store (cs_runtime s) in
    let target := head_id store in
    match navigate_session_head (cs_fs s) (cs_runtime s) target with
    | (fs, runtime, Ok tr) =>
        (mkCommandState (cs_world s) fs runtime,
         said ("resumed at head " +:+ format_head (active_head tr) +:+
               " reason_code=session_resume undo_depth=" +:+ show_usize (undo_depth tr) +:+
               " redo_depth=" +:+ show_usize (redo_depth tr)) true)
    | (fs, runtime, Err e) =>
        (mkCommandState (cs_world s) fs (set_active_head target runtime),
         said ("resumed at head " +:+ format_head target +:+
               " warning=failed_to_record_navigation error=" +:+
               nav_error_text (cs_fs s) (session_navigation_path_for_session (st_path store)) e) true)
    end).

(** The two messages of an undo or a redo. *)
Definition move_message (name : string) (tr : SessionNavigationTransition)
    : Result CommandError SessionRuntimeCommandOutcome :=
  let depths :=
    " undo_depth=" +:+ show_usize (undo_depth tr) +:+ " redo_depth=" +:+ show_usize (redo_depth tr) +:+
    " skipped_invalid_targets=" +:+ show_usize (skipped_invalid_targets tr) in
  if negb (nav_changed tr)
  then said (name +:+ " unavailable: active_head=" +:+ format_head (active_head tr) +:+
             " reason_code=session_" +:+ name +:+ "_empty_stack" +:+ depths) false
  else said (name +:+ " complete: from=" +:+ format_head (previous_head tr) +:+ " to=" +:+
             format_head (active_head tr) +:+ " reason_code=session_" +:+ name +:+ "_applied" +:+
             depths) true.

Definition run_move (name : string)
    (move : TextFs → SessionRuntime Value → TextFs * SessionRuntime Value * Result NavError SessionNavigationTransition)
    : Command := λ s,
  match move (cs_fs s) (cs_runtime s) with
  | (fs, runtime, Err e) => (mkCommandState (cs_world s) fs runtime, Err (NavigationFailed e))
  | (fs, runtime, Ok tr) => (mkCommandState (cs_world s) fs runtime, move_message name tr)
  end.

Definition execute_undo_command (command_args : string) : Command :=
  without_args command_args "usage: /undo" (run_move "undo" undo_session_head).
Definition execute_redo_command (command_args : string) : Command :=
  without_args command_args "usage: /redo" (run_move "redo" redo_session_head).

Definition execute_session_repair_command (command_args : string) : Command :=
  without_args command_args "usage: /session-repair" (λ s,
    then_store repair s (λ report s,
      let target :=
        existing_or_latest (rt_store (cs_runtime s)) (rt_active_head (cs_runtime s)) in
      then_navigate target s (λ _ s,
        (s, said ("repair complete: removed_duplicates=" +:+ show_usize (removed_duplicates report) +:+
                  " duplicate_ids=" +:+ format_id_list (duplicate_ids report) +:+
                  " removed_invalid_parent=" +:+ show_usize (removed_invalid_parent report) +:+
                  " invalid_parent_ids=" +:+ format_id_list (invalid_parent_ids report) +:+
                  " removed_cycles=" +:+ show_usize (removed_cycles report) +:+
                  " cycle_ids=" +:+ format_id_list (cycle_ids report)) true)))).

Definition execute_session_compact_command (command_args : string) : Command :=
  without_args command_args "usage: /session-compact" (λ s,
    then_store (λ w store, compact_to_lineage w store (rt_active_head (cs_runtime s))) s (λ report s,
      then_navigate (existing_or_latest (rt_store (cs_runtime s)) (compact_head_id report)) s (λ _ s,
        (s, said ("compact complete: removed_entries=" +:+ show_usize (removed_entries report) +:+
                  " retained_entries=" +:+ show_usize (retained_entries report) +:+
                  " head=" +:+ format_head (rt_active_head (cs_runtime s))) true)))).

Definition execute_branch_switch_command (command_args : string) : Command := λ s,
  if is_empty command_args then (s, said "usage: /branch <id>" false)
  else match parse_u64 command_args with
  | None =>
      (s, Err (CommandMessage ("invalid branch id '" +:+ command_args +:+ "'; expected an integer")))
  | Some target =>
      if negb (contains (rt_store (cs_runtime s)) target)
      then (s, Err (CommandMessage ("unknown session id " +:+ show_u64 target)))
      else then_navigate (Some target) s (λ _ s,
        (s, said ("switched to branch id " +:+ show_u64 target) true))
  end.

Definition execute_session_status_command (command_args : string) runtime : SessionRuntimeCommandOutcome :=
  if negb (is_empty command_args) then mkCommandOutcome "usage: /session" false
  else
    mkCommandOutcome
      ("session: path=" +:+ st_path (rt_store runtime) +:+ " entries=" +:+
       show_usize (length (st_entries (rt_store runtime))) +:+ " active_head=" +:+
       format_head (rt_active_head runtime)) false.

Definition execute_session_export_command (command_args : string) : Command := λ s,
  if is_empty command_args then (s, said "usage: /session-export <path>" false)
  else
    let runtime := cs_runtime s in
    match export_lineage (cs_world s) (rt_store runtime) (rt_active_head runtime) command_args with
    | (w, Err e) => (mkCommandState w (cs_fs s) runtime, Err (StoreFailed e))
    | (w, Ok exported) =>
        (mkCommandState w (cs_fs s) runtime,
         said ("session export complete: path=" +:+ command_args +:+ " entries=" +:+
               show_usize exported +:+ " head=" +:+ format_head (rt_active_head runtime)) false)
    end.

Definition execute_session_import_command (command_args : string) (mode : SessionImportMode)
    : Command := λ s,
  if is_empty command_args then (s, said "usage: /session-import <path>" false)
  else
    then_store (λ w store, import_snapshot w store command_args mode) s (λ report s,
      then_navigate (import_active_head report) s (λ _ s,
        (s, said ("session import complete: path=" +:+ command_args +:+ " mode=" +:+
                  session_import_mode_label mode +:+ " imported_entries=" +:+
                  show_usize (imported_entries report) +:+ " remapped_entries=" +:+
                  show_usize (remapped_entries report) +:+ " remapped_ids=" +:+
                  format_remap_ids (remapped_ids report) +:+ " replaced_entries=" +:+
                  show_usize (replaced_entries report) +:+ " total_entries=" +:+
                  show_usize (resulting_entries report) +:+ " head=" +:+
                  format_head (rt_active_head (cs_runtime s))) true))).

Definition execute_session_merge_command (command_args : string) : Command := λ s,
  match parse_session_merge_command_args command_args with
  | Err _ => (s, said MERGE_USAGE false)
  | Ok parsed =>
      let previous := rt_active_head (cs_runtime s) in
      let target :=
        match ma_target_head parsed with Some id => Some id | None => previous end in
      match target with
      | None =>
          (s, Err (CommandMessage
                "target head is not set; provide explicit target id or set active head"))
      | Some target =>
          then_store (λ w store, merge_branches w store (ma_source_head parsed) target (ma_strategy parsed))
            s (λ report s,
            then_navigate (Some (merged_head report)) s (λ _ s,
              (s, said ("session merge complete: source=" +:+ show_u64 (source_head report) +:+
                        " target=" +:+ show_u64 (target_head report) +:+ " strategy=" +:+
                        session_merge_strategy_label (merge_strategy report) +:+
                        " common_ancestor=" +:+ format_head (common_ancestor report) +:+
                        " appended_entries=" +:+ show_usize (appended_entries report) +:+ " head=" +:+
                        show_u64 (merged_head report))
                    (negb (bool_decide (previous = rt_active_head (cs_runtime s)))
                     || (0 <? appended_entries report)))))
      end
  end.

(** [format!("{:?}", role)] *)
Definition role_debug (r : MessageRole) : string :=
  match r with System => "System" | User => "User" | Assistant => "Assistant" | Tool => "Tool" end.

Definition summarize_message (message : Message Value) : string :=
  let text := replace_char newline_char space_char (text_content message) in
  if is_empty (trim text)
  then role_debug (msg_role message) +:+ " (tool_calls=" +:+ show_usize (length (tool_calls message)) +:+ ")"
  else if chars_count text <=? 60 then text else take_chars 60 text +:+ "...".

Definition execute_branches_command (command_args : string) runtime : SessionRuntimeCommandOutcome :=
  if negb (is_empty command_args) then mkCommandOutcome "usage: /branches" false
  else match branch_tips (rt_store runtime) with
  | [] => mkCommandOutcome "no branches" false
  | tips =>
      mkCommandOutcome
        (join newline
           ((λ tip, "id=" +:+ show_u64 (se_id tip) +:+ " parent=" +:+ format_head (se_parent_id tip) +:+
                    " text=" +:+ summarize_message (se_message tip)) <$> tips)) false
  end.

Definition execute_session_search_runtime_command (command_args : string) runtime
    : SessionRuntimeCommandOutcome :=
  if is_empty (trim command_args)
  then mkCommandOutcome "usage: /session-search <query> [--role <role>] [--limit <n>]" false
  else mkCommandOutcome (execute_session_search_command runtime command_args) false.

Definition execute_session_stats_runtime_command (order : gmap N (option N) → list N)
    (command_args : string) runtime : SessionRuntimeCommandOutcome :=
  match parse_session_stats_args command_args with
  | Err _ => mkCommandOutcome "usage: /session-stats [--json]" false
  | Ok format => mkCommandOutcome (execute_session_stats_command order runtime format) false
  end.

Definition execute_session_diff_runtime_command (command_args : string) runtime
    : SessionRuntimeCommandOutcome :=
  match parse_session_diff_args command_args with
  | Err _ => mkCommandOutcome "usage: /session-diff [<left-id> <right-id>]" false
  | Ok heads => mkCommandOutcome (execute_session_diff_command runtime heads) false
  end.

Definition execute_session_graph_export_runtime_command (command_args : string) : Command := λ s,
  if is_empty (trim command_args) then (s, said "usage: /session-graph-export <path>" false)
  else
    let '(fs, message) := execute_session_graph_export_command (cs_fs s) (cs_runtime s) command_args in
    (mkCommandState (cs_world s) fs (cs_runtime s), said message false).

(** ** Start-up *)

Definition validate_session_file w (session_path : string) (no_session : bool)
    : World T * Result CommandError unit :=
  if no_session
  then (w, Err (CommandMessage "--session-validate cannot be used together with --no-session"))
  else match load (Value:=Value) w session_path with
  | (w, Err e) => (w, Err (StoreFailed e))
  | (w, Ok store) =>
      let report := validation_report store in
      (w, if is_valid report then Ok tt
          else Err (CommandMessage
            ("session validation failed: duplicates=" +:+ show_usize (vr_duplicates report) +:+
             " invalid_parent=" +:+ show_usize (vr_invalid_parent report) +:+ " cycles=" +:+
             show_usize (vr_cycles report))))
  end.

Definition initialize_session w (session_path : string) (lock_wait_ms lock_stale_ms : N)
    (branch_from : option N) (system_prompt : string)
    : World T * Result CommandError (SessionRuntime Value * list (Message Value)) :=
  match load (Value:=Value) w session_path with
  | (w, Err e) => (w, Err (StoreFailed e))
  | (w, Ok store) =>
      let store := set_lock_policy (N.max lock_wait_ms 1) lock_stale_ms store in
      match ensure_initialized w store system_prompt with
      | (w, store, Err e) => (w, Err (StoreFailed e))
      | (w, store, Ok head) =>
          (w,
           head ←
             match branch_from with
             | Some branch_id =>
                 _ ← bail_if (negb (contains store branch_id))
                       (CommandMessage ("session " +:+ st_path store +:+ " does not contain entry id "
                                        +:+ show_u64 branch_id));
                 Ok (Some branch_id)
             | None => Ok head
             end;
           match lineage_messages store head with
           | Ok lineage => Ok (mkRuntime store head, lineage)
           | Err e => Err (StoreFailed e)
           end)
      end
  end.
End commands.
