(* ===== verification/SessionDepths.v ===== *)
(** * Depths, searches and comparisons of a session are exact

    Lemmas and properties of [SessionCommands]. *)

From Stdlib Require Import Ascii NArith Lia.
From stdpp Require Import base gmap sets strings list relations.
From S2P Require Import Prelude RustStr Messages SessionIntegrity SessionStorage SessionStore SessionInvariant SessionInstances SessionTheorems SessionNavigation SessionCommands.

#[local] Open Scope string_scope.
#[local] Open Scope list_scope.
#[local] Open Scope nat_scope.

(** ** Depths over a map of parents *)

Section depths.
Implicit Types (parents : gmap N (option N)) (memo : gmap N nat) (visiting : gset N).

Inductive depth_of parents : N → nat → Prop :=
| depth_root i : parents !! i = Some None → depth_of parents i 1
| depth_step i p d : parents !! i = Some (Some p) → depth_of parents p d → depth_of parents i (S d).

Lemma depth_of_det parents i d d' : depth_of parents i d → depth_of parents i d' → d = d'.
Proof.
  intros H. revert d'. induction H as [i Hi|i p d Hi _ IH]; inversion 1; simplify_eq; [done|].
  f_equal. auto.
Qed.

Definition above parents (i p : N) : Prop := parents !! i = Some (Some p).

Lemma depth_of_acyclic parents i d : depth_of parents i d → ¬ tc (above parents) i i.
Proof.
  induction 1 as [i Hi|i p d Hi Hp IH]; intros Htc;
    inversion Htc as [? ? Hs|? y ? Hs Htc']; subst; unfold above in Hs; rewrite Hi in Hs; try done;
    injection Hs as <-.
  - apply IH. by constructor.
  - apply IH. by eapply tc_r.
Qed.

Definition memo_ok parents memo : Prop := ∀ i d, memo !! i = Some d → depth_of parents i d.

(** The ids being visited lead to the current one. *)
Definition leads parents visiting (id : N) : Prop := ∀ v, v ∈ visiting → tc (above parents) v id.

Lemma memo_insert parents memo i d :
  memo_ok parents memo → depth_of parents i d → memo_ok parents (<[i := d]> memo).
Proof. intros Hm Hd j d' [[<- <-]|[_ Hj]]%lookup_insert_Some; [done|by apply Hm]. Qed.

Lemma memo_grows parents memo i d :
  memo_ok parents memo → depth_of parents i d → memo ⊆ <[i := d]> memo.
Proof.
  intros Hm Hd. apply map_subseteq_spec. intros j d' Hj.
  destruct (decide (j = i)) as [->|]; [|by rewrite lookup_insert_ne].
  rewrite lookup_insert_eq. f_equal. by eapply depth_of_det; [|apply Hm].
Qed.

Lemma depth_for_spec fuel parents memo visiting id r :
  memo_ok parents memo → leads parents visiting id →
  depth_for fuel parents memo visiting id = Some r →
  match r with
  | Ok (d, memo', _) =>
      depth_of parents id d ∧ memo_ok parents memo' ∧ memo ⊆ memo' ∧ memo' !! id = Some d
  | Err _ => ¬ ∃ d, depth_of parents id d
  end.
Proof.
  revert memo visiting id r. induction fuel as [|fuel IH]; intros memo visiting id r Hm Hl; cbn; [done|].
  destruct (memo !! id) as [d|] eqn:Hid; [intros [= <-]; by split_and!; [apply Hm|..]|].
  destruct (decide (id ∈ visiting)) as [Hin|Hnin].
  { intros [= <-] [d Hd]. by eapply depth_of_acyclic, Hl. }
  destruct (parents !! id) as [[p|]|] eqn:Hp.
  - destruct (parents !! p) as [pp|] eqn:Hpp.
    2: { intros [= <-] [d Hd]. inversion Hd as [|? p' d' Hp' Hd']; simplify_eq.
         inversion Hd'; simplify_eq. }
    assert (leads parents ({[id]} ∪ visiting) p) as Hl'.
    { intros v [->%elem_of_singleton|Hv]%elem_of_union; [by constructor|].
      eapply tc_r; [by apply Hl|done]. }
    destruct (depth_for fuel parents memo _ p) as [[[[d memo'] vis]|e]|] eqn:E; [| |done];
      intros [= <-]; pose proof (IH _ _ _ _ Hm Hl' E) as Hspec; cbn in Hspec.
    + destruct Hspec as (Hd & Hm' & Hsub & _).
      assert (depth_of parents id (S d)) as Hd' by (by econstructor).
      split_and!; [done|by apply memo_insert| |by rewrite lookup_insert_eq].
      etrans; [done|by eapply memo_grows].
    + intros [d Hd]. apply Hspec. inversion Hd; simplify_eq. eauto.
  - intros [= <-]. assert (depth_of parents id 1) as Hd by (by constructor).
    split_and!; [done|by apply memo_insert|by eapply memo_grows|by rewrite lookup_insert_eq].
  - intros [= <-] [d Hd]. inversion Hd; simplify_eq.
Qed.

Lemma depth_for_total fuel parents memo visiting id :
  size (dom parents ∖ visiting) + 1 ≤ fuel → is_Some (depth_for fuel parents memo visiting id).
Proof.
  revert memo visiting id. induction fuel as [|fuel IH]; intros memo visiting id Hf; [lia|]. cbn.
  destruct (memo !! id); [done|]. destruct (decide (id ∈ visiting)) as [|Hnin]; [done|].
  destruct (parents !! id) as [[p|]|] eqn:Hp; [|done..]. destruct (parents !! p); [|done].
  assert (id ∈ dom parents) as Hd by (apply elem_of_dom; eauto).
  pose proof (unvisited_decreases (dom parents) visiting id Hd Hnin).
  destruct (IH memo ({[id]} ∪ visiting) p) as [[[[d m] v]|e] ->]; [lia|done..].
Qed.

Lemma depths_loop_spec parents order memo :
  memo_ok parents memo →
  ∃ r, depths_loop parents order memo = Some r ∧
    match r with
    | Ok memo' => memo_ok parents memo' ∧ memo ⊆ memo' ∧ ∀ i, i ∈ order → is_Some (memo' !! i)
    | Err _ => ∃ i, i ∈ order ∧ ¬ ∃ d, depth_of parents i d
    end.
Proof.
  revert memo. induction order as [|i order IH]; intros memo Hm; cbn [depths_loop].
  { eexists. split; [done|]. cbn. split_and!; [done|done|]. by intros i ?%elem_of_nil. }
  destruct (depth_for_total (S (size parents)) parents memo ∅ i) as [r Hr].
  { rewrite difference_empty_L, size_dom. lia. }
  rewrite Hr. assert (leads parents ∅ i) as Hl by (by intros v ?%not_elem_of_empty).
  pose proof (depth_for_spec _ _ _ _ _ _ Hm Hl Hr) as Hspec.
  destruct r as [[[d memo'] vis]|e].
  - destruct Hspec as (_ & Hm' & Hsub & Hi). destruct (IH memo' Hm') as (r & -> & Hrest).
    eexists. split; [done|]. destruct r as [memo''|e].
    + destruct Hrest as (? & Hsub' & Hall). split_and!; [done|by etrans|].
      intros j [->|Hj]%elem_of_cons; [|by apply Hall].
      exists d. by eapply lookup_weaken.
    + destruct Hrest as (j & Hj & Hno). exists j. split; [by right|done].
  - eexists. split; [done|]. exists i. split; [by left|done].
Qed.
End depths.

(** ** Depths of the entries of a session *)

Section entries.
Context {Value : Type} `{TF : TextFormat}.
Implicit Types (es : list (SessionEntry Value)) (st : @SessionStore Value).
Local Abbreviation ids es := (se_id <$> es).

Lemma collect_parents_spec es parents :
  match collect_parents es parents with
  | Ok m =>
      NoDup (ids es) ∧ (∀ i, i ∈ ids es → parents !! i = None) ∧
      ∀ i, m !! i = match List.find (λ e, (se_id e =? i)%N) es with
                    | Some e => Some (se_parent_id e)
                    | None => parents !! i
                    end
  | Err _ => ¬ (NoDup (ids es) ∧ ∀ i, i ∈ ids es → parents !! i = None)
  end.
Proof.
  revert parents. induction es as [|e es IH]; intros parents; cbn.
  { split_and!; [constructor|by intros i ?%elem_of_nil|done]. }
  destruct (parents !! se_id e) as [p|] eqn:He.
  { intros [_ Hnone]. specialize (Hnone (se_id e) (list_elem_of_here _ _)). congruence. }
  specialize (IH (<[se_id e := se_parent_id e]> parents)).
  destruct (collect_parents es _) as [m|err].
  - destruct IH as (Hnd & Hfresh & Hm).
    assert (se_id e ∉ ids es) as Hnin
      by (intros Hin; specialize (Hfresh _ Hin); by rewrite lookup_insert_eq in Hfresh).
    split_and!; [by constructor| |].
    + intros i [->|Hi]%elem_of_cons; [done|]. specialize (Hfresh i Hi).
      rewrite lookup_insert_ne in Hfresh by (congruence). done.
    + intros i. rewrite Hm. destruct (N.eqb_spec (se_id e) i) as [<-|Hne]; [|by rewrite lookup_insert_ne].
      destruct (List.find _ es) as [e'|] eqn:Hf; [|by rewrite lookup_insert_eq].
      apply List.find_some in Hf as [Hin Heq%N.eqb_eq]. destruct Hnin.
      rewrite <- Heq. apply list_elem_of_fmap_2. by apply list_elem_of_In.
  - intros [Hnd Hnone]. apply IH. apply NoDup_cons in Hnd as [Hnin Hnd]. split; [done|].
    intros i Hi. rewrite lookup_insert_ne; [apply Hnone; by right|intros <-; done].
Qed.

(** The map of parents of a session without duplicates. *)
Lemma collect_parents_Ok es m :
  collect_parents es ∅ = Ok m → NoDup (ids es) ∧ ∀ i, m !! i = se_parent_id <$> get_of es i.
Proof.
  intros H. pose proof (collect_parents_spec es ∅) as Hs. rewrite H in Hs.
  destruct Hs as (Hnd & _ & Hm). split; [done|]. intros i. rewrite Hm, <- find_entry_get by done.
  unfold find_entry. by destruct (List.find _ es).
Qed.

Lemma depth_of_chain es m i d :
  (∀ j, m !! j = se_parent_id <$> get_of es j) →
  depth_of m i d ↔ ∃ l, chain (get_of es) i l ∧ length l = d.
Proof.
  intros Hm. split.
  - induction 1 as [i Hi|i p d Hi _ (l & Hl & <-)]; rewrite Hm in Hi;
      apply fmap_Some in Hi as (e & He & Hp).
    + exists [e]. split; [by constructor|done].
    + exists (e :: l). split; [by econstructor|done].
  - intros (l & Hl & <-). induction Hl as [i e He Hp|i e p l He Hp _ IH]; cbn.
    + constructor. by rewrite Hm, He, <- Hp.
    + econstructor; [|done]. by rewrite Hm, He, <- Hp.
Qed.

(** Whatever order the map's keys are visited in, computing the depths of a
    session's entries ends; it succeeds exactly when the session is valid, and
    then lists exactly its entries, each with the length of the lineage the store
    resolves for it. *)
Theorem entry_depths_exact st (order : gmap N (option N) → list N) :
  (∀ m i, i ∈ order m ↔ i ∈ dom m) →
  ∃ r, compute_session_entry_depths order (st_entries st) = Some r ∧
    match r with
    | Ok depths =>
        valid_entries (st_entries st) ∧
        ∀ i d, depths !! i = Some d ↔ ∃ l, lineage_entries st (Some i) = Ok l ∧ length l = d
    | Err _ => ¬ valid_entries (st_entries st)
    end.
Proof.
  intros Horder. unfold compute_session_entry_depths.
  destruct (collect_parents (st_entries st) ∅) as [m|e] eqn:Hc.
  2: { eexists. split; [done|]. intros Hv%valid_NoDup. pose proof (collect_parents_spec (st_entries st) ∅) as Hs.
       rewrite Hc in Hs. by apply Hs. }
  apply collect_parents_Ok in Hc as [Hnd Hm].
  assert (∀ i, i ∈ order m ↔ i ∈ ids (st_entries st)) as Hdom.
  { intros i. by rewrite Horder, elem_of_dom, Hm, fmap_is_Some, get_of_ids. }
  destruct (depths_loop_spec m (order m) ∅) as (r & -> & Hr); [by intros i d ?%lookup_empty_Some|].
  eexists. split; [done|]. destruct r as [depths|e].
  - destruct Hr as (Hmemo & _ & Hall). split.
    + apply valid_iff_chains. split; [done|]. intros i Hi%Hdom.
      destruct (Hall i Hi) as [d Hd]. apply Hmemo, (depth_of_chain _ _ _ _ Hm) in Hd as (l & ? & _). eauto.
    + intros i d. split.
      * intros (l & Hl & <-)%Hmemo%(depth_of_chain _ _ _ _ Hm). exists (reverse l).
        split; [|apply length_reverse]. by apply lineage_entries_Ok.
      * intros (l & Hl & <-). rewrite <- (reverse_involutive l) in Hl |- *.
        apply (lineage_entries_Ok _ _ _ Hnd) in Hl. cbn in Hl. rewrite length_reverse.
        assert (i ∈ order m) as Hi by (apply Hdom, get_of_ids; destruct (chain_head _ _ _ Hl) as (e & ? & _ & ->); eauto).
        destruct (Hall i Hi) as [d Hd]. rewrite Hd. f_equal.
        eapply depth_of_det; [by apply Hmemo|]. apply (depth_of_chain _ _ _ _ Hm). eauto.
  - destruct Hr as (i & Hi%Hdom & Hno). intros Hv. apply Hno.
    destruct (valid_chain _ _ Hv Hi) as (l & Hl). exists (length l).
    apply (depth_of_chain _ _ _ _ Hm). eauto.
Qed.
End entries.

(** ** Search and comparison *)

Section reading.
Context {Value : Type} `{TF : TextFormat}.
Implicit Types (es : list (SessionEntry Value)) (st : @SessionStore Value).
Local Abbreviation ids es := (se_id <$> es).

Lemma search_fold query role max_results es ms n :
  length ms = min n max_results →
  foldl (search_step query role max_results) (ms, n) es =
    (ms ++ (search_match <$> take (max_results - n) (List.filter (entry_matches query role) es)),
     n + length (List.filter (entry_matches query role) es)).
Proof.
  revert ms n. induction es as [|e es IH]; intros ms n Hlen; cbn [foldl List.filter].
  { by rewrite take_nil, app_nil_r, Nat.add_0_r. }
  unfold search_step at 2. destruct (entry_matches query role e); cbn [negb]; [|by apply IH].
  destruct (Nat.leb_spec max_results (length ms)).
  - rewrite IH by lia. replace (max_results - S n) with 0 by lia.
    replace (max_results - n) with 0 by lia. cbn [take fmap list_fmap length]. by rewrite Nat.add_succ_r.
  - rewrite IH by (rewrite length_app; cbn [length]; lia).
    replace (max_results - n) with (S (max_results - S n)) by lia.
    cbn [take fmap list_fmap length]. by rewrite <- app_assoc, Nat.add_succ_r.
Qed.

(** A search lists the first matches in the order of the ids, and counts all. *)
Lemma search_exact es query role max_results :
  let found := List.filter (entry_matches (to_lowercase query) role) (sort_by_key se_id es) in
  search_session_entries es query role max_results =
    (search_match <$> take max_results found, length found).
Proof. cbn. unfold search_session_entries. rewrite search_fold by done. by rewrite Nat.sub_0_r. Qed.

(** The shared depth splits both lineages at the first difference. *)
Lemma shared_prefix_split (ls rs : list (SessionEntry Value)) :
  (∀ l r, l ∈ ls → r ∈ rs → se_id l = se_id r → l = r) →
  ∃ shared lo ro,
    ls = shared ++ lo ∧ rs = shared ++ ro ∧
    shared_lineage_prefix_depth ls rs = length shared ∧
    ∀ x, head lo = Some x → head ro ≠ Some x.
Proof.
  revert rs. induction ls as [|l ls IH]; intros rs Hsame; [by exists [], [], rs|].
  destruct rs as [|r rs]; [by exists [], (l :: ls), []|]. cbn.
  destruct (N.eqb_spec (se_id l) (se_id r)) as [Heq|Hne].
  - assert (l = r) as <- by (apply Hsame; [by left..|done]).
    destruct (IH rs) as (shared & lo & ro & -> & -> & -> & Hd); [intros; apply Hsame; by try right|].
    by exists (l :: shared), lo, ro.
  - exists [], (l :: ls), (r :: rs). split_and!; [done..|]. cbn. congruence.
Qed.

(** Both lineages agree up to a common entry. *)
Lemma common_entry_prefix es l r ll rl x :
  chain (get_of es) l ll → chain (get_of es) r rl → x ∈ ll → x ∈ rl →
  ∃ p a b, reverse ll = p ++ x :: a ∧ reverse rl = p ++ x :: b.
Proof.
  intros Hl Hr Hxl Hxr.
  destruct (chain_suffix _ (get_of_key es) _ _ _ Hl Hxl) as (a & k & -> & Hk).
  destruct (chain_suffix _ (get_of_key es) _ _ _ Hr Hxr) as (b & k' & -> & Hk').
  pose proof (chain_det _ _ _ _ Hk Hk') as [= <-].
  exists (reverse k), (reverse a), (reverse b).
  by rewrite !reverse_app, !reverse_cons, <- !app_assoc.
Qed.

(** Past the longest common prefix, lists without repetitions that agree up to their
    common elements share none. *)
Lemma split_disjoint {A} (shared lo ro p a b : list A) x :
  NoDup (shared ++ lo) → (∀ y, head lo = Some y → head ro ≠ Some y) →
  shared ++ lo = p ++ x :: a → shared ++ ro = p ++ x :: b → x ∈ lo → x ∉ ro.
Proof.
  intros Hnd Hne Hl Hr Hxl Hxr.
  assert (x ∉ shared) as Hx by (intros Hx; by eapply NoDup_app in Hnd as (_ & Hd & _); apply Hd in Hx).
  apply app_eq_inv in Hl as [(k & -> & Hk)|(k & -> & ->)].
  - destruct k as [|y k]; cbn in Hk; [|injection Hk as -> ->; destruct Hx; set_solver].
    rewrite app_nil_r in Hr. apply (inj (p ++.)) in Hr. by apply (Hne x); [rewrite <- Hk|rewrite Hr].
  - rewrite <- app_assoc in Hr. apply (inj (shared ++.)) in Hr. subst ro.
    destruct k as [|y k]; by eapply Hne.
Qed.

(** In a valid session, comparing any two existing entries succeeds: the
    lineage of each is the shared part followed by its own part, the shared part
    is as long as possible, and no entry is listed as belonging to only one side
    when it is in both lineages. *)
Theorem session_diff_exact (runtime : SessionRuntime Value) left_id right_id :
  let st := rt_store runtime in
  valid_entries (st_entries st) → contains st left_id = true → contains st right_id = true →
  ∃ shared lo ro,
    lineage_entries st (Some left_id) = Ok (shared ++ lo) ∧
    lineage_entries st (Some right_id) = Ok (shared ++ ro) ∧
    (∀ x, x ∈ lo → x ∉ ro) ∧
    compute_session_diff runtime (Some (left_id, right_id)) =
      Ok (mkDiffReport "explicit" left_id right_id (length shared) (length (shared ++ lo))
            (length (shared ++ ro)) (session_diff_entry <$> shared) (session_diff_entry <$> lo)
            (session_diff_entry <$> ro)).
Proof.
  intros st Hv Hl Hr. pose proof (valid_NoDup _ Hv) as Hnd.
  destruct (valid_chain _ left_id Hv) as (ll & Hll); [by apply existsb_id|].
  destruct (valid_chain _ right_id Hv) as (rl & Hrl); [by apply existsb_id|].
  destruct (shared_prefix_split (reverse ll) (reverse rl)) as (shared & lo & ro & Hls & Hrs & Hd & Hne).
  { intros x y. rewrite !elem_of_reverse. intros Hx Hy Hid.
    by eapply NoDup_same_id; [done|exact (chain_elem _ _ _ _ Hll Hx)|exact (chain_elem _ _ _ _ Hrl Hy)|]. }
  pose proof (proj2 (lineage_entries_Ok st (Some left_id) ll Hnd) Hll) as El.
  pose proof (proj2 (lineage_entries_Ok st (Some right_id) rl Hnd) Hrl) as Er.
  rewrite Hls in El. rewrite Hrs in Er. exists shared, lo, ro. split_and!; [done|done| |].
  - intros x Hxl Hxr.
    destruct (common_entry_prefix (st_entries st) left_id right_id ll rl x) as (p & a & b & Ha & Hb);
      [done|done|apply elem_of_reverse; rewrite Hls; set_solver
      |apply elem_of_reverse; rewrite Hrs; set_solver|].
    assert (NoDup (shared ++ lo)) as Hnds.
    { rewrite <- Hls, reverse_Permutation. by eapply NoDup_fmap_1, chain_NoDup, Hll; apply get_of_key. }
    eapply split_disjoint; [done|done|by rewrite <- Hls|by rewrite <- Hrs|done|done].
  - unfold compute_session_diff, resolve_session_diff_heads, lineage_or_text.
    fold st. rewrite Hl, Hr. cbn -[lineage_entries]. rewrite El. cbn -[lineage_entries]. rewrite Er. cbn.
    rewrite <- Hls, <- Hrs, Hd. rewrite Hls, Hrs.
    by rewrite take_app_length, !drop_app_length.
Qed.
End reading.

(** ** Witnesses *)

#[local] Instance ascii_format : TextFormat :=
  {| to_lowercase := to_ascii_lowercase; show_f64 _ := "0" |}.

Lemma entry_depths_exact_witness :
  let order (m : gmap N (option N)) := (map_to_list m).*1 in
  (∃ depths, compute_session_entry_depths order sample_session = Some (Ok depths) ∧
     depths !! 4%N = Some 3) ∧
  ∃ r, compute_session_entry_depths order (st_entries sample_store) = Some r.
Proof.
  intros order. split; [eexists; split; vm_compute; reflexivity|].
  destruct (entry_depths_exact sample_store order) as (r & Hr & _); [|by exists r].
  intros m i. unfold order. rewrite elem_of_dom. split.
  - intros ([j p] & -> & Hj%elem_of_map_to_list)%list_elem_of_fmap. by exists p.
  - intros [p Hp]. apply list_elem_of_fmap. exists (i, p). split; [done|by apply elem_of_map_to_list].
Defined.

Lemma session_diff_exact_witness :
  ∃ report, compute_session_diff (mkRuntime sample_store None) (Some (3%N, 4%N)) = Ok report ∧
    dr_shared_depth report = 2 ∧ de_id <$> dr_left_only_entries report = [3%N].
Proof.
  pose proof (session_diff_exact (mkRuntime sample_store None) 3 4 sample_valid eq_refl eq_refl)
    as (shared & lo & ro & _ & _ & _ & Hd).
  eexists. split; [exact Hd|].
  assert (match compute_session_diff (mkRuntime sample_store None) (Some (3%N, 4%N)) with
          | Ok r => dr_shared_depth r = 2 ∧ de_id <$> dr_left_only_entries r = [3%N] | Err _ => False end) as Hc
    by (vm_compute; done).
  rewrite Hd in Hc. exact Hc.
Defined.
