(* ===== verification/SessionCommandTheorems.v ===== *)
(** * Properties of the session commands

    Commands keep the store valid, and the head of the running session on one of
    its entries. *)

From Stdlib Require Import Ascii NArith Lia.
From stdpp Require Import base gmap sets strings list relations.
From S2P Require Import Prelude RustStr Json BitCodec Messages SessionIntegrity SessionStorage SessionStore SessionInvariant SessionInstances SessionTheorems AtomicIo SessionNavigation NavigationTheorems SessionCommands SessionRuntimeCommands.

#[local] Open Scope string_scope.
#[local] Open Scope list_scope.
#[local] Open Scope nat_scope.

Section commands.
Context {Value T : Type} `{!SessionCodec Value, !RowTable T, !NavigationCodec}.
Context `{!SessionCodecLaws Value, !RowTableLaws T, !NavigationCodecLaws}.
Local Abbreviation State := (@CommandState Value T).
Implicit Types (s : State) (st : @SessionStore Value) (runtime : SessionRuntime Value).

(** The commands that change the session or its head. *)
Inductive SessionCommand :=
| CmdResume | CmdUndo | CmdRedo | CmdRepair | CmdCompact | CmdBranch
| CmdImport (mode : SessionImportMode) | CmdMerge.

Definition run_command (c : SessionCommand) (args : string) : @Command Value T :=
  match c with
  | CmdResume => execute_resume_command args
  | CmdUndo => execute_undo_command args
  | CmdRedo => execute_redo_command args
  | CmdRepair => execute_session_repair_command args
  | CmdCompact => execute_session_compact_command args
  | CmdBranch => execute_branch_switch_command args
  | CmdImport mode => execute_session_import_command args mode
  | CmdMerge => execute_session_merge_command args
  end.

(** Ids that the command's store operation allocates stay in [u64]. *)
Definition command_room (c : SessionCommand) (args : string) s : Prop :=
  let w := cs_world s in
  let st := rt_store (cs_runtime s) in
  match c with
  | CmdImport mode => op_room w st (OpImport args mode)
  | CmdMerge => op_room w st (OpMerge 0 0 Append)
  | _ => True
  end.

Definition navigated {A} (r : Result CommandError A) : Prop :=
  match r with Err (NavigationFailed _) => False | _ => True end.

Definition runtime_ok s : Prop :=
  session_ok (cs_world s) (rt_store (cs_runtime s)) ∧
  head_exists (rt_store (cs_runtime s)) (rt_active_head (cs_runtime s)) = true.

(** One command, whether it succeeds or fails, with its navigation recorded. *)
Inductive command_step : State → State → Prop :=
| command_step_run s c args s' r :
    command_room c args s → run_command c args s = (s', r) → navigated r → command_step s s'.

Lemma head_id_exists st : head_exists st (head_id st) = true.
Proof.
  unfold head_id. destruct (last (st_entries st)) as [e|] eqn:Hl; [|done]. cbn.
  apply existsb_exists. exists e. split; [|apply N.eqb_refl]. apply list_elem_of_In.
  by apply last_Some_elem_of.
Qed.

Lemma navigate_exists m fs runtime fs' runtime' tr :
  navigate m fs runtime = (fs', runtime', Ok tr) →
  rt_store runtime' = rt_store runtime ∧
  head_exists (rt_store runtime') (rt_active_head runtime') = true.
Proof using H0.
  intros (h & _ & Hh & Hst & _ & Hhead)%navigate_step. split; [done|]. rewrite Hhead.
  revert Hh. unfold history_of. case_match; [|done]. intros [= <-]. apply normalize_exists.
Qed.

Lemma visit_store fs runtime target fs' runtime' r :
  navigate_session_head fs runtime target = (fs', runtime', r) → rt_store runtime' = rt_store runtime.
Proof using Type.
  unfold navigate_session_head, finish_navigation. repeat case_match; intros; by simplify_eq.
Qed.

(** A navigation that ends a command. *)
Lemma then_navigate_ok target s k s' r :
  (∀ tr s1, (k tr s1).1 = s1) →
  session_ok (cs_world s) (rt_store (cs_runtime s)) →
  then_navigate target s k = (s', r) → navigated r → runtime_ok s'.
Proof using H0.
  intros Hk Hok. unfold then_navigate.
  destruct (navigate_session_head _ _ _) as [[fs rt] [tr|e]] eqn:E; [|by intros [= <- <-]].
  apply (navigate_exists (Visit target)) in E as [Hst He].
  intros E _. apply (f_equal fst) in E. rewrite Hk in E. cbn in E. subst s'.
  split; [by rewrite <- Hst in Hok|done].
Qed.

(** A store operation that begins a command. *)
Lemma then_store_ok {A} op (body : World T → @SessionStore Value → World T * @SessionStore Value * Result SessionError A)
    s k s' r :
  (forget (body (cs_world s) (rt_store (cs_runtime s))) =
     run_op (cs_world s) (rt_store (cs_runtime s)) op) →
  op_room (cs_world s) (rt_store (cs_runtime s)) op →
  (∀ a s1 s2 r2, session_ok (cs_world s1) (rt_store (cs_runtime s1)) →
    k a s1 = (s2, r2) → navigated r2 → runtime_ok s2) →
  runtime_ok s → then_store body s k = (s', r) → navigated r → runtime_ok s'.
Proof using All.
  intros Hop Hroom Hk [Hok Hhead]. unfold then_store.
  destruct (body _ _) as [[w st] [a|e]] eqn:E; cbn in Hop; symmetry in Hop.
  - apply Hk. cbn. by eapply run_op_ok.
  - intros [= <- <-] _. apply run_op_unchanged in Hop as [-> Hread]. destruct Hok as (Hv & Hn & Hr).
    split; [|done]. split_and!; [done..|]. cbn. by rewrite Hread.
Qed.

Lemma without_args_ok args usage (run : @Command Value T) s s' r :
  runtime_ok s → (run s = (s', r) → navigated r → runtime_ok s') →
  without_args args usage run s = (s', r) → navigated r → runtime_ok s'.
Proof using Type. intros Hok Hrun. unfold without_args. case_match; [by intros [= <- _]|done]. Qed.

Lemma run_move_ok name m s s' r :
  runtime_ok s → run_move name (navigate m) s = (s', r) → navigated r → runtime_ok s'.
Proof using H0.
  intros [Hok _]. unfold run_move.
  destruct (navigate m _ _) as [[fs rt] [tr|e]] eqn:E; [|by intros [= <- <-]].
  intros [= <- <-] _. apply navigate_exists in E as [Hst He]. split; [by rewrite <- Hst in Hok|done].
Qed.

Lemma command_ok c args s s' r :
  runtime_ok s → command_room c args s → run_command c args s = (s', r) → navigated r → runtime_ok s'.
Proof using All.
  intros Hok Hroom. destruct c; cbn [run_command].
  - apply without_args_ok; [done|]. cbv beta zeta.
    destruct (navigate_session_head _ _ _) as [[fs rt] [tr|e]] eqn:E; intros [= <- <-] _.
    + apply (navigate_exists (Visit _)) in E as [Hst He]. destruct Hok as [Hok _].
      split; [by rewrite <- Hst in Hok|done].
    + destruct Hok as [Hok _]. apply visit_store in E. split; cbn; rewrite E; [done|apply head_id_exists].
  - apply without_args_ok; [done|]. by apply (run_move_ok _ Undo).
  - apply without_args_ok; [done|]. by apply (run_move_ok _ Redo).
  - apply without_args_ok; [done|]. eapply (then_store_ok OpRepair); [done|done| |done].
    intros rep s1 s2 r2 Hok1. by apply then_navigate_ok.
  - apply without_args_ok; [done|]. eapply (then_store_ok (OpCompact _)); [done|done| |done].
    intros rep s1 s2 r2 Hok1. by apply then_navigate_ok.
  - unfold execute_branch_switch_command. repeat case_match; try by intros [= <- _].
    apply then_navigate_ok; [done|apply Hok].
  - unfold execute_session_import_command. case_match; [by intros [= <- _]|].
    eapply (then_store_ok (OpImport args mode)); [done|done| |done].
    intros rep s1 s2 r2 Hok1. by apply then_navigate_ok.
  - unfold execute_session_merge_command. case_match; [|by intros [= <- _]].
    case_match; [|by intros [= <- _]].
    eapply (then_store_ok (OpMerge _ _ _)); [done|exact Hroom| |done].
    intros rep s1 s2 r2 Hok1. by apply then_navigate_ok.
Qed.

End commands.

(** ** Witnesses *)

Definition sample_state : @CommandState unit (list Row) :=
  mkCommandState sample_world nav_fs (mkRuntime sample_store (Some 3%N)).

Lemma sample_state_ok : runtime_ok sample_state.
Proof. split; [apply sample_ok|done]. Qed.

Definition navigated_b {A} (r : Result CommandError A) : bool :=
  match r with Err (NavigationFailed _) => false | _ => true end.

Lemma command_steps c args (s : @CommandState unit (list Row)) :
  command_room c args s → navigated_b (run_command c args s).2 = true →
  command_step s (run_command c args s).1.
Proof.
  intros Hroom Hnav. destruct (run_command c args s) as [s' r] eqn:E. cbn in *.
  econstructor; [done|done|]. by destruct r as [|[]].
Qed.


(** Recording the navigation is needed: when the navigation file cannot be read, an
    import that replaces the session succeeds on disk and in memory while the head
    stays on an entry that is gone, and the conversation can no longer be read. *)
Definition unreadable_fs : TextFs :=
  mkTextFs {[session_navigation_path_for_session sample_path := "{"]} ∅ (λ _, false) (λ _, false) 7 1000.

Definition other_path : string := "state/o.jsonl".
Definition replaced_state : @CommandState unit (list Row) :=
  (run_command (CmdImport ImportReplace) other_path
     (mkCommandState
        (set_files (w_files (world_with other_path [sample_entry 1 None]) ∪ w_files sample_world)
           sample_world)
        unreadable_fs (mkRuntime sample_store (Some 3%N)))).1.

Lemma replace_strands_head :
  length (st_entries (rt_store (cs_runtime replaced_state))) = 1 ∧
  rt_active_head (cs_runtime replaced_state) = Some 3%N ∧
  head_exists (rt_store (cs_runtime replaced_state)) (Some 3%N) = false ∧
  lineage_messages (rt_store (cs_runtime replaced_state)) (Some 3%N) = Err (UnknownSessionId 3).
Proof. split_and!; by vm_compute. Qed.
