(* ===== verification/AgentTurn.v ===== *)
(** * Helpers of the agent's turn loop ([tau-agent-core], [runtime_turn_loop.rs])

    Token estimates and costs, the context tiers and the bounding of the message
    list, text shortening, the JSON payload of a structured answer, and the buffer
    that keeps a retried stream from repeating itself.  [u32] counters are [N]
    with saturation, [usize] is [nat]. *)

From Stdlib Require Import NArith ZArith Ascii Lia.
From stdpp Require Import base strings list sorting.
From S2P Require Import Prelude RustStr Json Messages ChatTypes.

#[local] Open Scope string_scope.
#[local] Open Scope list_scope.
#[local] Open Scope nat_scope.

Definition CONTEXT_SUMMARY_PREFIX : string := "[Tau context summary]".
Definition CONTEXT_SUMMARY_MAX_CHARS : nat := 1200.
Definition CONTEXT_SUMMARY_SNIPPET_MAX_CHARS : nat := 160.
Definition CONTEXT_SUMMARY_MAX_EXCERPTS : nat := 6.

Record ChatRequestTokenEstimate := mkEstimate
  { est_input_tokens : N; est_total_tokens : N }.

(** ** Token estimates *)

Definition estimate_text_tokens (text : string) : N :=
  if is_empty text then 0%N
  else
    let chars := N.min (N.of_nat (chars_count text)) u32_max in
    (saturating_add_u32 chars 3 / 4)%N.

Definition estimate_media_source_tokens (source : MediaSource) : N :=
  match source with
  | Url url => estimate_text_tokens url
  | Base64 mime_type data =>
      saturating_add_u32
        (saturating_add_u32 (estimate_text_tokens mime_type)
           (wrap_u32 (N.of_nat (String.length data)) / 3)%N) 2
  end.

Section turn.
Context `{JC : JsonCodec}.

Definition estimate_json_tokens (value : Value) : N :=
  estimate_text_tokens (json_to_string value).

Definition estimate_block_tokens (total : N) (block : ContentBlock Value) : N :=
  match block with
  | TextBlock text => saturating_add_u32 total (estimate_text_tokens text)
  | ToolCallBlock id name arguments =>
      let total := saturating_add_u32 total (estimate_text_tokens id) in
      let total := saturating_add_u32 total (estimate_text_tokens name) in
      let total := saturating_add_u32 total (estimate_json_tokens arguments) in
      saturating_add_u32 total 4
  | ImageBlock source | AudioBlock source =>
      let total := saturating_add_u32 total (estimate_media_source_tokens source) in
      saturating_add_u32 total 8
  end.

Definition add_text_tokens (total : N) (text : option string) : N :=
  match text with
  | Some text => saturating_add_u32 total (estimate_text_tokens text)
  | None => total
  end.

Definition estimate_message_tokens (message : Message Value) : N :=
  let total := foldl estimate_block_tokens 4%N (msg_content message) in
  let total := add_text_tokens total (msg_tool_call_id message) in
  add_text_tokens total (msg_tool_name message).

Definition estimate_tool_definition_tokens (definition : ToolDefinition Value) : N :=
  let total := saturating_add_u32 12 (estimate_text_tokens (td_name definition)) in
  let total := saturating_add_u32 total (estimate_text_tokens (td_description definition)) in
  saturating_add_u32 total (estimate_json_tokens (td_parameters definition)).

Definition estimate_chat_request_tokens (request : ChatRequest Value)
    : ChatRequestTokenEstimate :=
  let message_tokens :=
    foldl (λ acc m, saturating_add_u32 acc (estimate_message_tokens m)) 0%N (rq_messages request) in
  let tool_tokens :=
    foldl (λ acc t, saturating_add_u32 acc (estimate_tool_definition_tokens t)) 0%N
      (rq_tools request) in
  let input_tokens := saturating_add_u32 (saturating_add_u32 message_tokens tool_tokens) 2 in
  let total_tokens := saturating_add_u32 input_tokens (default 0%N (rq_max_tokens request)) in
  mkEstimate input_tokens total_tokens.
End turn.

(** ** Costs *)

(** 1_000_000.0 *)
Definition f64_million : f64 := f64_of_N 1000000.

Definition estimate_usage_cost_usd (usage : ChatUsage)
    (input_cost_per_million cached_input_cost_per_million output_cost_per_million : option f64)
    : f64 :=
  let cached_input_tokens := N.min (cu_cached_input_tokens usage) (cu_input_tokens usage) in
  let uncached_input_tokens :=
    saturating_sub_u64 (cu_input_tokens usage) cached_input_tokens in
  let cost (rate : f64) (tokens : N) :=
    f64_div (f64_mul_add_zero (f64_max_zero rate) (f64_of_N tokens)) f64_million in
  let input := cost (default f64_zero input_cost_per_million) uncached_input_tokens in
  let cached_input :=
    cost (default (default f64_zero input_cost_per_million) cached_input_cost_per_million)
      cached_input_tokens in
  let output := cost (default f64_zero output_cost_per_million) (cu_output_tokens usage) in
  f64_add (f64_add input cached_input) output.

(** [Vec::dedup] *)
Fixpoint dedup_adjacent (l : list N) : list N :=
  match l with
  | x :: ((y :: _) as l') => if (x =? y)%N then dedup_adjacent l' else x :: dedup_adjacent l'
  | _ => l
  end.

Definition normalize_cost_alert_thresholds (thresholds : list N) : list N :=
  let normalized := List.filter (λ t, (1 <=? t)%N && (t <=? 100)%N) thresholds in
  let normalized := match normalized with [] => [100%N] | _ => normalized end in
  dedup_adjacent (sort_by_key id normalized).

(** ** Context tiers *)

Inductive ContextCompactionTier := TierNone | TierWarn | TierAggressive | TierEmergency.

Record ContextCompactionConfig := mkCompactionConfig
  { cc_max_input_tokens : option N;
    cc_warn_threshold_percent : N;
    cc_aggressive_threshold_percent : N;
    cc_emergency_threshold_percent : N;
    cc_warn_retain_percent : N;
    cc_aggressive_retain_percent : N;
    cc_emergency_retain_percent : N }.

Record ContextPressureSnapshot := mkPressure
  { cp_estimated_input_tokens : N;
    cp_max_input_tokens : option N;
    cp_utilization_percent : N;
    cp_tier : ContextCompactionTier }.

(** [u8::clamp(1, 100)] *)
Definition clamp_percent (p : N) : N := N.max 1 (N.min p 100).

(** The three thresholds in increasing order. *)
Definition normalize_compaction_thresholds (warn aggressive emergency : N) : list N :=
  sort_by_key id [clamp_percent warn; clamp_percent aggressive; clamp_percent emergency].

Record ContextMonitor := mkMonitor
  { cm_max_input_tokens : option N; cm_thresholds : list N }.

Definition from_compaction_config (config : ContextCompactionConfig) : ContextMonitor :=
  mkMonitor (cc_max_input_tokens config)
    (normalize_compaction_thresholds (cc_warn_threshold_percent config)
       (cc_aggressive_threshold_percent config) (cc_emergency_threshold_percent config)).

Definition context_utilization_percent (estimated_input_tokens : N) (max_input_tokens : option N)
    : N :=
  match max_input_tokens with
  | Some max => if (0 <? max)%N then (saturating_mul_u32 estimated_input_tokens 100 / max)%N else 0%N
  | None => 0%N
  end.

(** [thresholds] is the array of three; indexing it does not fail. *)
Definition select_context_compaction_tier (estimated_input_tokens : N)
    (max_input_tokens : option N) (thresholds : list N) : ContextCompactionTier :=
  let utilization_percent := context_utilization_percent estimated_input_tokens max_input_tokens in
  if (nth 2 thresholds 0 <=? utilization_percent)%N then TierEmergency
  else if (nth 1 thresholds 0 <=? utilization_percent)%N then TierAggressive
  else if (nth 0 thresholds 0 <=? utilization_percent)%N then TierWarn
  else TierNone.

Definition monitor_snapshot (monitor : ContextMonitor) (estimated_input_tokens : N)
    : ContextPressureSnapshot :=
  mkPressure estimated_input_tokens (cm_max_input_tokens monitor)
    (context_utilization_percent estimated_input_tokens (cm_max_input_tokens monitor))
    (select_context_compaction_tier estimated_input_tokens (cm_max_input_tokens monitor)
       (cm_thresholds monitor)).

Definition context_pressure_snapshot (estimated_input_tokens : N)
    (config : ContextCompactionConfig) : ContextPressureSnapshot :=
  monitor_snapshot (from_compaction_config config) estimated_input_tokens.

(** [usize] arithmetic, saturating at 64 bits. *)
Definition retained_message_count (total_messages : nat) (retain_percent : N) : nat :=
  match total_messages with
  | 0 => 0
  | _ =>
      let total := N.of_nat total_messages in
      let retained :=
        (saturating_add_u64 (saturating_mul_u64 total retain_percent) 99 / 100)%N in
      N.to_nat (N.max 1 (N.min retained total))
  end.

Definition normalize_retain_percent (retain_percent : N) : N := clamp_percent retain_percent.

(** ** Shortening text *)

Definition collapse_whitespace (text : string) : string := join " " (split_whitespace text).

Definition truncate_chars (text : string) (max_chars : nat) : string :=
  if chars_count text <=? max_chars then text
  else match max_chars with
       | 0 => ""
       | 1 => "…"
       | _ => take_chars (max_chars - 1) text +:+ "…"
       end.

(** ** Bounding the message list *)

Definition first_is_system (messages : list (Message Value)) : bool :=
  match messages with
  | m :: _ => bool_decide (msg_role m = System)
  | [] => false
  end.

Definition bounded_messages_without_summary (messages : list (Message Value))
    (max_messages : nat) : list (Message Value) :=
  if (max_messages =? 0) || (length messages <=? max_messages) then messages
  else if (1 <? max_messages) && first_is_system messages then
    let tail_keep := max_messages - 1 in
    let tail_start := length messages - tail_keep in
    if tail_start <=? 1 then messages
    else take 1 messages ++ drop tail_start messages
  else drop (length messages - max_messages) messages.

(** The role counters and the excerpts gathered so far. *)
Record SummaryAcc := mkSummaryAcc
  { sa_user : N; sa_assistant : N; sa_tool : N; sa_system : N; sa_excerpts : list string }.

Definition count_role (acc : SummaryAcc) (role : MessageRole) : SummaryAcc :=
  let bump n := saturating_add_u64 n 1 in
  match role with
  | User => mkSummaryAcc (bump (sa_user acc)) (sa_assistant acc) (sa_tool acc) (sa_system acc)
              (sa_excerpts acc)
  | Assistant => mkSummaryAcc (sa_user acc) (bump (sa_assistant acc)) (sa_tool acc)
                   (sa_system acc) (sa_excerpts acc)
  | Tool => mkSummaryAcc (sa_user acc) (sa_assistant acc) (bump (sa_tool acc)) (sa_system acc)
              (sa_excerpts acc)
  | System => mkSummaryAcc (sa_user acc) (sa_assistant acc) (sa_tool acc) (bump (sa_system acc))
                (sa_excerpts acc)
  end.

Definition summarize_step (acc : SummaryAcc) (message : Message Value) : SummaryAcc :=
  let acc := count_role acc (msg_role message) in
  let content := collapse_whitespace (text_content message) in
  if is_empty content then acc
  else if bool_decide (msg_role message = System) && starts_with CONTEXT_SUMMARY_PREFIX content
  then acc
  else if CONTEXT_SUMMARY_MAX_EXCERPTS <=? length (sa_excerpts acc) then acc
  else
    let preview := truncate_chars content CONTEXT_SUMMARY_SNIPPET_MAX_CHARS in
    mkSummaryAcc (sa_user acc) (sa_assistant acc) (sa_tool acc) (sa_system acc)
      (sa_excerpts acc ++ ["- " +:+ role_label (msg_role message) +:+ ": " +:+ preview]).

Definition summarize_dropped_messages (messages : list (Message Value)) : string :=
  let acc := foldl summarize_step (mkSummaryAcc 0 0 0 0 []) messages in
  let summary :=
    CONTEXT_SUMMARY_PREFIX +:+ newline +:+
    "summarized_messages=" +:+ show_usize (length messages) +:+
    "; roles: user=" +:+ show_u64 (sa_user acc) +:+
    ", assistant=" +:+ show_u64 (sa_assistant acc) +:+
    ", tool=" +:+ show_u64 (sa_tool acc) +:+
    ", system=" +:+ show_u64 (sa_system acc) +:+ "." in
  let summary :=
    match sa_excerpts acc with
    | [] => summary
    | excerpts => summary +:+ newline +:+ "excerpts:" +:+ newline +:+ join newline excerpts
    end in
  truncate_chars summary CONTEXT_SUMMARY_MAX_CHARS.

Definition bounded_messages (messages : list (Message Value)) (max_messages : nat)
    : list (Message Value) :=
  if (max_messages =? 0) || (length messages <=? max_messages) then messages
  else if max_messages <? 3 then bounded_messages_without_summary messages max_messages
  else if first_is_system messages then
    let tail_keep := max_messages - 2 in
    let tail_start := length messages - tail_keep in
    if tail_start <=? 1 then messages
    else
      let dropped := drop 1 (take tail_start messages) in
      match dropped with
      | [] => bounded_messages_without_summary messages max_messages
      | _ =>
          take 1 messages ++ [message_system (summarize_dropped_messages dropped)] ++
          drop tail_start messages
      end
  else
    let tail_keep := max_messages - 1 in
    let tail_start := length messages - tail_keep in
    if tail_start =? 0 then messages
    else
      let dropped := take tail_start messages in
      match dropped with
      | [] => bounded_messages_without_summary messages max_messages
      | _ =>
          [message_system (summarize_dropped_messages dropped)] ++ drop tail_start messages
      end.

Definition compact_messages_for_tier (messages : list (Message Value))
    (tier : ContextCompactionTier) (config : ContextCompactionConfig) : list (Message Value) :=
  let target percent := retained_message_count (length messages) (normalize_retain_percent percent) in
  match tier with
  | TierNone => messages
  | TierWarn => bounded_messages messages (target (cc_warn_retain_percent config))
  | TierAggressive => bounded_messages messages (target (cc_aggressive_retain_percent config))
  | TierEmergency =>
      bounded_messages_without_summary messages (target (cc_emergency_retain_percent config))
  end.

(** ** Structured answers *)

Definition fence : list ascii := chars_of "```".

Section structured.
Context `{JC : JsonCodec} `{JS : JsonSchema}.

Definition build_structured_output_retry_prompt (schema : Value) (error : string) : string :=
  "Your previous response could not be accepted as structured JSON (" +:+ error +:+
  "). Please reply with only valid JSON that matches this schema exactly:" +:+ newline +:+
  json_to_string schema.

(** The search for a fenced block, on the text after the cursor; each round
    consumes two fences, so the length of the text bounds the rounds. *)
Fixpoint fenced_payload (fuel : nat) (rest : list ascii) : option Value :=
  match fuel with
  | O => None
  | S fuel =>
      match find_chars fence rest with
      | None => None
      | Some open =>
          let after_open := drop (open + 3) rest in
          let header_end :=
            default (length after_open) (find_chars [newline_char] after_open) in
          let header := trim (of_chars (take header_end after_open)) in
          let body :=
            if header_end <? length after_open then drop (header_end + 1) after_open
            else drop header_end after_open in
          match find_chars fence body with
          | None => None
          | Some close =>
              let rest := drop (close + 3) body in
              if negb (is_empty header || eq_ignore_ascii_case header "json")
              then fenced_payload fuel rest
              else
                let block := trim (of_chars (take close body)) in
                if is_empty block then fenced_payload fuel rest
                else match json_parse block with
                     | Some value => Some value
                     | None => fenced_payload fuel rest
                     end
          end
      end
  end.

Definition extract_json_payload (text : string) : Result string Value :=
  let trimmed := trim text in
  if is_empty trimmed then Err "assistant response was empty; expected JSON output"
  else match json_parse trimmed with
       | Some value => Ok value
       | None =>
           match fenced_payload (S (length (chars_of text))) (chars_of text) with
           | Some value => Ok value
           | None => Err "assistant response did not contain parseable JSON content"
           end
       end.

Definition validate_json_against_schema (schema payload : Value) : Result string unit :=
  match validator_for schema with
  | Err error => Err ("invalid structured output schema: " +:+ error)
  | Ok iter_errors =>
      match iter_errors payload with
      | first :: _ => Err ("structured output schema validation failed: " +:+ first)
      | [] => Ok tt
      end
  end.

(** The error is the text of [AgentError::StructuredOutput]. *)
Definition parse_structured_output (messages : list (Message Value)) (schema : Value)
    : Result string Value :=
  assistant ← ok_or "assistant response missing for structured output"
    (List.find (λ m, bool_decide (msg_role m = Assistant)) (reverse messages));
  value ← extract_json_payload (text_content assistant);
  _ ← validate_json_against_schema schema value;
  Ok value.
End structured.

(** ** Streaming with retries *)

Record StreamingRetryBufferState := mkStreamBuffer
  { delivered_output : string; attempt_output : string }.

Definition stream_buffer_default : StreamingRetryBufferState := mkStreamBuffer "" "".

Definition reset_attempt (state : StreamingRetryBufferState) : StreamingRetryBufferState :=
  mkStreamBuffer (delivered_output state) "".

(** [s.get(n..)] where [n] is a character boundary *)
Definition str_from (n : nat) (s : string) : string := of_chars (drop n (chars_of s)).

(** Returns the text handed to the caller's delta handler. *)
Definition stream_retry_buffer_on_delta (state : StreamingRetryBufferState) (delta : string)
    : StreamingRetryBufferState * option string :=
  let attempt := attempt_output state +:+ delta in
  let delivered := delivered_output state in
  let pushed := (mkStreamBuffer (delivered +:+ delta) attempt, Some delta) in
  if is_empty delivered then pushed
  else if String.length attempt <=? String.length delivered then
    if starts_with attempt delivered then (mkStreamBuffer delivered attempt, None) else pushed
  else if starts_with delivered attempt then
    let replay := str_from (String.length delivered) attempt in
    if is_empty replay then (mkStreamBuffer delivered attempt, None)
    else (mkStreamBuffer (delivered +:+ replay) attempt, Some replay)
  else pushed.

Definition timeout_duration_from_ms (timeout_ms : option N) : option N :=
  match timeout_ms with
  | Some ms => if (0 <? ms)%N then Some ms else None
  | None => None
  end.

Definition is_retryable_ai_error (error : TauAiError) : bool :=
  match error with
  | Http http => is_timeout http || is_connect http
  | HttpStatus status _ =>
      ((status =? 408) || (status =? 409) || (status =? 425) || (status =? 429)
        || (500 <=? status))%N
  | MissingApiKey | Serde _ | InvalidResponse _ => false
  end.

(** ** Lemmas: bounding messages *)

Lemma first_is_system_Some messages :
  first_is_system messages = true →
  ∃ m rest, messages = m :: rest ∧ msg_role m = System.
Proof.
  destruct messages as [|m rest]; [done|]. intros H%bool_decide_eq_true. by eexists _, _.
Qed.

(** What bounding may produce: the messages themselves, or the leading system
    message, possibly a summary of what was dropped, and a suffix. *)
Definition bounded_shape (messages result : list (Message Value)) : Prop :=
  result = messages ∨
  ∃ head dropped kept summary,
    messages = head ++ dropped ++ kept ∧ result = head ++ summary ++ kept ∧
    dropped ≠ [] ∧ length head ≤ 1 ∧ Forall (λ m, msg_role m = System) head ∧
    (summary = [] ∨ summary = [message_system (summarize_dropped_messages dropped)]).

Lemma without_summary_shape messages max :
  bounded_shape messages (bounded_messages_without_summary messages max).
Proof.
  unfold bounded_messages_without_summary.
  destruct (Nat.eqb_spec max 0) as [|Hz]; [by left|].
  destruct (Nat.leb_spec (length messages) max) as [|Hlen]; [by left|]. cbn [orb].
  destruct (Nat.ltb_spec 1 max); cbn [andb]; [destruct (first_is_system messages) eqn:Hsys|].
  - apply first_is_system_Some in Hsys as (m & rest & -> & Hm). cbn [length] in *.
    replace (S (length rest) - (max - 1)) with (S (S (length rest) - max)) by lia.
    destruct (Nat.leb_spec (S (S (length rest) - max)) 1); [by left|]. right.
    exists [m], (take (S (length rest) - max) rest), (drop (S (length rest) - max) rest), [].
    cbn. rewrite take_drop. split_and!; try done; [|by repeat constructor|by left].
    intros Hn%(f_equal length). rewrite length_take in Hn. cbn in Hn. lia.
  - right. exists [], (take (length messages - max) messages), (drop (length messages - max) messages), [].
    cbn. rewrite take_drop. split_and!; try done; [|lia|by left].
    intros Hn%(f_equal length). rewrite length_take in Hn. cbn in Hn. lia.
  - right. exists [], (take (length messages - max) messages), (drop (length messages - max) messages), [].
    cbn. rewrite take_drop. split_and!; try done; [|lia|by left].
    intros Hn%(f_equal length). rewrite length_take in Hn. cbn in Hn. lia.
Qed.

Lemma bounded_messages_shape messages max :
  bounded_shape messages (bounded_messages messages max).
Proof.
  unfold bounded_messages.
  destruct (Nat.eqb_spec max 0) as [|Hz]; [by left|].
  destruct (Nat.leb_spec (length messages) max) as [|Hlen]; [by left|]. cbn [orb].
  destruct (Nat.ltb_spec max 3); [apply without_summary_shape|].
  destruct (first_is_system messages) eqn:Hsys.
  - apply first_is_system_Some in Hsys as (m & rest & -> & Hm). cbn [length] in *.
    replace (S (length rest) - (max - 2)) with (S (S (S (length rest) - max))) by lia.
    cbn [Nat.leb take drop]. set (k := S (S (length rest) - max)). clearbody k.
    destruct (take k rest) as [|d ds] eqn:Hd; [apply without_summary_shape|].
    right. exists [m], (take k rest), (drop k rest), [message_system (summarize_dropped_messages (take k rest))].
    cbn. rewrite take_drop, Hd. split_and!; try done; [by repeat constructor|by right].
  - set (k := length messages - (max - 1)). clearbody k.
    destruct (Nat.eqb_spec k 0); [by left|].
    destruct (take k messages) as [|d ds] eqn:Hd; [apply without_summary_shape|].
    right. exists [], (take k messages), (drop k messages), [message_system (summarize_dropped_messages (take k messages))].
    cbn. rewrite take_drop, Hd. split_and!; try done; [lia|by right].
Qed.

Lemma without_summary_length messages max :
  0 < max → length (bounded_messages_without_summary messages max) = Nat.min max (length messages).
Proof.
  intros Hpos. unfold bounded_messages_without_summary.
  destruct (Nat.eqb_spec max 0); [lia|].
  destruct (Nat.leb_spec (length messages) max) as [|Hlen]; cbn [orb]; [lia|].
  destruct (Nat.ltb_spec 1 max); cbn [andb]; [|rewrite length_drop; lia].
  destruct (first_is_system messages); [|rewrite length_drop; lia].
  destruct (Nat.leb_spec (length messages - (max - 1)) 1); [lia|].
  rewrite length_app, length_take, length_drop. lia.
Qed.

Lemma bounded_messages_length messages max :
  0 < max → length (bounded_messages messages max) = Nat.min max (length messages).
Proof.
  intros Hpos. unfold bounded_messages.
  destruct (Nat.eqb_spec max 0); [lia|].
  destruct (Nat.leb_spec (length messages) max) as [|Hlen]; cbn [orb]; [lia|].
  destruct (Nat.ltb_spec max 3); [by apply without_summary_length|].
  destruct (first_is_system messages).
  - destruct (Nat.leb_spec (length messages - (max - 2)) 1); [lia|].
    destruct (drop 1 (take _ _)); [by apply without_summary_length|].
    rewrite !length_app, length_take, length_drop. cbn [length]. lia.
  - destruct (Nat.eqb_spec (length messages - (max - 1)) 0); [lia|].
    destruct (take _ _); [by apply without_summary_length|].
    rewrite length_app, length_drop. cbn. lia.
Qed.
