(* ===== verification/AgentTurnTheorems.v ===== *)
(** * Properties of the turn-loop helpers

    What bounding keeps of a conversation, that a retried stream shows the caller
    one text once, how the JSON payload of an answer is found, and which tier a
    given token estimate selects. *)

From Stdlib Require Import NArith ZArith Ascii Lia.
From stdpp Require Import base strings list sorting.
From S2P Require Import Prelude RustStr Json Messages ChatTypes AgentTurn.

#[local] Open Scope string_scope.
#[local] Open Scope list_scope.
#[local] Open Scope nat_scope.

(** ** Bounding *)

(** bounding a conversation to [max] messages, [max > 0], yields exactly
    [min max n] messages: the conversation itself when it fits, otherwise its
    leading system message if any, possibly one summary of precisely the messages
    left out, and an unbroken suffix of the conversation in its order.  From three
    messages on the summary is always there. *)
Theorem bounded_messages_exact (messages : list (Message Value)) (max : nat) :
  0 < max →
  length (bounded_messages messages max) = Nat.min max (length messages) ∧
  bounded_shape messages (bounded_messages messages max) ∧
  (3 ≤ max < length messages →
     ∃ head dropped kept,
       messages = head ++ dropped ++ kept ∧ dropped ≠ [] ∧
       head = (if first_is_system messages then take 1 messages else []) ∧
       bounded_messages messages max =
         head ++ message_system (summarize_dropped_messages dropped) :: kept).
Proof.
  intros Hpos. split; [by apply bounded_messages_length|]. split; [apply bounded_messages_shape|].
  intros [H3 Hlen]. unfold bounded_messages.
  destruct (Nat.eqb_spec max 0); [lia|]. destruct (Nat.leb_spec (length messages) max); [lia|].
  cbn [orb]. destruct (Nat.ltb_spec max 3); [lia|].
  destruct (first_is_system messages) eqn:Hsys.
  - apply first_is_system_Some in Hsys as (m & rest & -> & Hm). cbn [length] in *.
    replace (S (length rest) - (max - 2)) with (S (S (S (length rest) - max))) by lia.
    cbn [Nat.leb take drop]. set (k := S (S (length rest) - max)).
    assert (take k rest ≠ []) as Hne.
    { intros Hn%(f_equal length). rewrite length_take in Hn. cbn [length] in Hn. lia. }
    exists [m], (take k rest), (drop k rest). rewrite take_drop.
    split_and!; [done|done|by destruct rest|]. by destruct (take k rest).
  - set (k := length messages - (max - 1)).
    destruct (Nat.eqb_spec k 0); [lia|].
    assert (take k messages ≠ []) as Hne.
    { intros Hn%(f_equal length). rewrite length_take in Hn. cbn [length] in Hn. lia. }
    exists [], (take k messages), (drop k messages). cbn [app]. rewrite take_drop.
    split_and!; [done|done|done|]. by destruct (take k messages).
Qed.

Definition sample_messages : list (Message Value) :=
  [message_system "be brief"; message_user "a"; assistant_text "b"; message_user "c";
   assistant_text "d"].

Lemma bounded_messages_exact_witness :
  0 < 3 ∧ length (bounded_messages sample_messages 3) = 3 ∧
  ∃ s, bounded_messages sample_messages 3 =
    [message_system "be brief"; message_system s; assistant_text "d"].
Proof.
  split; [lia|]. destruct (bounded_messages_exact sample_messages 3) as (Hl & _ & _); [lia|].
  split; [exact Hl|]. eexists. reflexivity.
Defined.

(** Compaction never empties a conversation and never lengthens it. *)
Lemma compact_messages_for_tier_length messages tier config :
  messages ≠ [] →
  0 < length (compact_messages_for_tier messages tier config) ≤ length messages.
Proof.
  intros Hne. assert (0 < length messages) by (destruct messages; [done|cbn; lia]).
  assert (∀ p, 0 < retained_message_count (length messages) p) as Hpos.
  { intros p. unfold retained_message_count. destruct (length messages) as [|n]; lia. }
  destruct tier; cbn; [lia| | |];
    (rewrite bounded_messages_length || rewrite without_summary_length); eauto;
    pose proof (Hpos (normalize_retain_percent (cc_warn_retain_percent config)));
    pose proof (Hpos (normalize_retain_percent (cc_aggressive_retain_percent config)));
    pose proof (Hpos (normalize_retain_percent (cc_emergency_retain_percent config))); lia.
Qed.

(** ** Shortening *)

(** A shortened text has at most the characters asked for; a text that fits is unchanged. *)
Lemma truncate_chars_bound text n :
  chars_count (truncate_chars text n) ≤ n ∧ (chars_count text ≤ n → truncate_chars text n = text).
Proof.
  unfold truncate_chars. destruct (Nat.leb_spec (chars_count text) n); [done|].
  split; [|lia]. destruct n as [|[|n]]; [done|by vm_compute|].
  rewrite chars_count_app, chars_count_take.
  assert (chars_count "…" = 1) as -> by (by vm_compute). lia.
Qed.

(** ** Retried streams *)

(** The deltas of one attempt, after the reset that precedes it. *)
Definition stream_delta (acc : StreamingRetryBufferState * string) (delta : string)
    : StreamingRetryBufferState * string :=
  let '(state, emitted) := stream_retry_buffer_on_delta acc.1 delta in
  (state, acc.2 +:+ default "" emitted).
Definition stream_attempt (acc : StreamingRetryBufferState * string) (deltas : list string)
    : StreamingRetryBufferState * string :=
  foldl stream_delta (reset_attempt acc.1, acc.2) deltas.
Definition stream_attempts (attempts : list (list string)) : StreamingRetryBufferState * string :=
  foldl stream_attempt (stream_buffer_default, "") attempts.

Fixpoint concat_deltas (deltas : list string) : string :=
  match deltas with [] => "" | d :: deltas => d +:+ concat_deltas deltas end.

(** The state of the buffer relative to the text [T] all attempts are cut from:
    the current attempt is a prefix of what was delivered, that of [T], and the
    caller has been handed exactly what was delivered. *)
Record stream_ok (T : string) (acc : StreamingRetryBufferState * string) : Prop := {
  so_attempt : chars_of (attempt_output acc.1) `prefix_of` chars_of (delivered_output acc.1);
  so_text : chars_of (delivered_output acc.1) `prefix_of` chars_of T;
  so_emitted : acc.2 = delivered_output acc.1 }.

Lemma prefix_of_both {A} (l1 l2 k : list A) :
  l1 `prefix_of` k → l2 `prefix_of` k → length l1 ≤ length l2 → l1 `prefix_of` l2.
Proof.
  intros H1 H2 Hle. destruct (prefix_weak_total _ _ _ H1 H2) as [|H]; [done|].
  rewrite (prefix_length_eq _ _ H Hle). done.
Qed.

Lemma str_from_app s t : str_from (String.length s) (s +:+ t) = t.
Proof.
  unfold str_from. rewrite chars_of_app, <- length_chars_of, drop_app_length.
  apply of_chars_chars_of.
Qed.

(** One delta of an attempt: what was delivered afterwards is the longer of what
    was delivered before and the attempt so far. *)
Lemma stream_delta_ok T acc delta :
  stream_ok T acc → chars_of (attempt_output acc.1 +:+ delta) `prefix_of` chars_of T →
  let acc' := stream_delta acc delta in
  stream_ok T acc' ∧ attempt_output acc'.1 = attempt_output acc.1 +:+ delta ∧
  (delivered_output acc'.1 = delivered_output acc.1 ∨
   delivered_output acc'.1 = attempt_output acc.1 +:+ delta) ∧
  chars_of (delivered_output acc.1) `prefix_of` chars_of (delivered_output acc'.1).
Proof.
  destruct acc as [[D A] E]. intros [Ha Ht He] HA. cbn in *. subst E.
  unfold stream_delta, stream_retry_buffer_on_delta. cbn [fst snd delivered_output attempt_output].
  destruct (is_empty D) eqn:HD.
  { apply String.eqb_eq in HD as ->.
    assert (A = "") as -> by (by apply chars_of_inj, prefix_nil_inv).
    cbn. split_and!; [split|..]; cbn; auto using prefix_nil. }
  rewrite <- !length_chars_of.
  destruct (Nat.leb_spec (length (chars_of (A +:+ delta))) (length (chars_of D))) as [Hle|Hlt].
  - pose proof (prefix_of_both _ _ _ HA Ht Hle) as Hp.
    rewrite (proj2 (starts_with_prefix _ _) Hp). cbn.
    split_and!; [split|..]; cbn; auto using string_app_nil_r.
  - pose proof (prefix_of_both _ _ _ Ht HA ltac:(lia)) as Hp.
    rewrite (proj2 (starts_with_prefix _ _) Hp).
    destruct Hp as [r Hr].
    assert (A +:+ delta = D +:+ of_chars r) as HAD.
    { apply chars_of_inj. by rewrite (chars_of_app D), chars_of_of_chars. }
    rewrite length_chars_of, HAD, str_from_app.
    assert (is_empty (of_chars r) = false) as ->.
    { apply is_empty_false. intros Hn. rewrite HAD, Hn, string_app_nil_r in Hlt. lia. }
    cbn. rewrite HAD in HA. split_and!; [split|..]; cbn; auto.
    rewrite chars_of_app. by apply prefix_app_r.
Qed.

Lemma stream_deltas_ok T deltas : ∀ acc,
  stream_ok T acc →
  chars_of (attempt_output acc.1 +:+ concat_deltas deltas) `prefix_of` chars_of T →
  let acc' := foldl stream_delta acc deltas in
  let whole := attempt_output acc.1 +:+ concat_deltas deltas in
  stream_ok T acc' ∧ attempt_output acc'.1 = whole ∧
  (delivered_output acc'.1 = delivered_output acc.1 ∨ delivered_output acc'.1 = whole) ∧
  chars_of (delivered_output acc.1) `prefix_of` chars_of (delivered_output acc'.1).
Proof.
  induction deltas as [|d ds IH]; intros acc Hok Hpre.
  - cbn in *. rewrite string_app_nil_r in *. auto.
  - cbn [foldl concat_deltas] in *. rewrite string_app_assoc in *.
    destruct (stream_delta_ok T acc d Hok) as (Hok' & Ha & Hd & Hm).
    { etrans; [|exact Hpre]. rewrite (chars_of_app _ (concat_deltas ds)). by apply prefix_app_r. }
    specialize (IH (stream_delta acc d) Hok'). cbn in IH. rewrite Ha in IH.
    destruct (IH Hpre) as (Hok2 & Ha2 & Hd2 & Hm2). split_and!; [done|done| |by etrans].
    destruct Hd2 as [Hd2|]; [|auto]. destruct Hd as [Hd|Hd]; [left; congruence|].
    right. rewrite Hd2, Hd. destruct Hok2 as [Hp _ _]. rewrite Ha2, Hd2, Hd in Hp.
    apply chars_of_inj. rewrite (chars_of_app _ (concat_deltas ds)) in *.
    destruct Hp as [k Hk]. apply (f_equal length) in Hk. rewrite !length_app in Hk.
    destruct (chars_of (concat_deltas ds)); [by rewrite app_nil_r|cbn in Hk; lia].
Qed.

(** When a streamed answer is retried and every attempt delivers a prefix of
    one text, the caller of the buffered stream sees that text once: what it is
    handed over all attempts is the longest of the attempts' outputs, with no part
    repeated and none left out. *)
Theorem retried_stream_seen_once (T : string) (attempts : list (list string)) :
  Forall (λ deltas, chars_of (concat_deltas deltas) `prefix_of` chars_of T) attempts →
  let seen := (stream_attempts attempts).2 in
  (seen = "" ∨ seen ∈ concat_deltas <$> attempts) ∧
  Forall (λ deltas, chars_of (concat_deltas deltas) `prefix_of` chars_of seen) attempts.
Proof.
  intros Hall. cbn zeta.
  enough (∀ done todo acc, Forall (λ ds, chars_of (concat_deltas ds) `prefix_of` chars_of T) todo →
    stream_ok T acc → (acc.2 = "" ∨ acc.2 ∈ concat_deltas <$> done) →
    Forall (λ ds, chars_of (concat_deltas ds) `prefix_of` chars_of acc.2) done →
    let seen := (foldl stream_attempt acc todo).2 in
    (seen = "" ∨ seen ∈ concat_deltas <$> (done ++ todo)) ∧
    Forall (λ ds, chars_of (concat_deltas ds) `prefix_of` chars_of seen) (done ++ todo)) as Hgen.
  { apply (Hgen [] attempts (stream_buffer_default, "")); [done| |by left|done].
    split; cbn; auto using prefix_nil. }
  clear. intros done todo. revert done.
  induction todo as [|ds todo IH]; intros done acc Htodo Hok Hin Hall; cbn [foldl].
  { cbn. by rewrite app_nil_r. }
  apply Forall_cons in Htodo as [Hds Htodo].
  destruct (stream_deltas_ok T ds (reset_attempt acc.1, acc.2)) as (Hok' & Ha & Hd & Hm).
  { destruct Hok as [_ Ht He]. split; cbn; auto using prefix_nil. }
  { done. }
  cbn in Ha, Hd, Hm. fold (stream_attempt acc ds) in *.
  destruct Hok as [_ _ He]. pose proof Hok' as [Hp' _ He'].
  replace (done ++ ds :: todo) with ((done ++ [ds]) ++ todo) by (by rewrite <- (assoc_L (++))).
  apply IH; [done|done| |].
  - rewrite fmap_app, elem_of_app. cbn. rewrite list_elem_of_singleton, He'.
    destruct Hd as [->| ->]; [rewrite <- He; naive_solver|naive_solver].
  - apply Forall_app; split; [|constructor; [|constructor]].
    + eapply Forall_impl; [exact Hall|]. cbn. intros k Hk. etrans; [exact Hk|].
      by rewrite He, He'.
    + rewrite He'. by rewrite Ha in Hp'.
Qed.

Lemma retried_stream_seen_once_witness :
  Forall (λ deltas, chars_of (concat_deltas deltas) `prefix_of` chars_of "Hello world")
    [["Hel"; "lo"]; ["He"; "llo wo"]; ["Hello"]] ∧
  (stream_attempts [["Hel"; "lo"]; ["He"; "llo wo"]; ["Hello"]]).2 = "Hello wo" ∧
  Forall (λ deltas, chars_of (concat_deltas deltas) `prefix_of` chars_of "Hello wo")
    [["Hel"; "lo"]; ["He"; "llo wo"]; ["Hello"]].
Proof.
  assert (Forall (λ deltas, chars_of (concat_deltas deltas) `prefix_of` chars_of "Hello world")
    [["Hel"; "lo"]; ["He"; "llo wo"]; ["Hello"]]) as H
    by (apply (bool_decide_unpack _); vm_compute; exact I).
  split; [exact H|]. split; [vm_compute; reflexivity|].
  exact (proj2 (retried_stream_seen_once "Hello world" _ H)).
Defined.

(** ** The JSON payload of an answer *)

(** Trimming keeps characters that occur in no whitespace encoding. *)
Lemma strip_bytes_keeps pat l r c :
  N_of_ascii c ∉ pat → strip_bytes pat l = Some r → c ∈ l → c ∈ r.
Proof.
  revert l. induction pat as [|n pat IH]; intros l Hc; cbn.
  { by intros [= ->]. }
  rewrite not_elem_of_cons in Hc. destruct Hc as [Hn Hc].
  destruct l as [|x l]; [done|]. destruct (N.eqb_spec (N_of_ascii x) n) as [He|]; [|done].
  intros Hs [->|Hin]%elem_of_cons; [done|]. by eapply IH.
Qed.

Lemma first_strip_keeps pats l r c :
  Forall (λ pat, N_of_ascii c ∉ pat) pats → first_strip pats l = Some r → c ∈ l → c ∈ r.
Proof.
  induction 1 as [|pat pats Hc _ IH]; cbn; [done|].
  case_match eqn:E; [|done]. intros [= <-]. by eapply strip_bytes_keeps.
Qed.

Lemma drop_ws_keeps strip fuel c :
  (∀ k r, strip k = Some r → c ∈ k → c ∈ r) → ∀ l, c ∈ l → c ∈ drop_ws strip fuel l.
Proof.
  intros H. induction fuel as [|f IH]; intros l Hl; cbn; [done|].
  case_match eqn:E; [|done]. eauto.
Qed.

Lemma trim_keeps s c : never_whitespace c → c ∈ chars_of s → c ∈ chars_of (trim s).
Proof.
  intros Hc Hin. unfold trim. rewrite chars_of_of_chars. unfold trim_end_chars.
  rewrite elem_of_reverse. apply drop_ws_keeps.
  { intros k r. apply first_strip_keeps. apply Forall_fmap. eapply Forall_impl; [exact Hc|].
    cbn. intros pat. by rewrite elem_of_reverse. }
  rewrite elem_of_reverse. apply drop_ws_keeps; [|done].
  intros k r. by apply first_strip_keeps.
Qed.

Lemma find_chars_first c p a r :
  c ∉ a → find_chars (c :: p) (a ++ (c :: p) ++ r) = Some (length a).
Proof.
  induction a as [|x a IH]; intros Hc.
  - pose proof (strip_prefix_chars_app (c :: p) r) as H. cbn [app] in *.
    cbn [find_chars]. by rewrite H.
  - apply not_elem_of_cons in Hc as [Hne Hc]. cbn [app find_chars strip_prefix_chars].
    rewrite (proj2 (Ascii.eqb_neq c x) Hne). change (a ++ c :: p ++ r) with (a ++ (c :: p) ++ r).
    by rewrite (IH Hc).
Qed.

Lemma find_fence a r : "`"%char ∉ a → find_chars fence (a ++ fence ++ r) = Some (length a).
Proof. apply find_chars_first. Qed.

Section payload.
Context `{JC : JsonCodec} `{JS : JsonSchema}.

(** the JSON answer inside a fenced block is found: in an answer that is not
    JSON as a whole, whose prose before the block and whose block contain no
    backtick, the payload of the first block marked [json], or unmarked, is what
    is extracted, whatever follows the block. *)
Theorem fenced_json_extracted (pre tag body post : string) (v : Value) :
  "`"%char ∉ chars_of pre → "`"%char ∉ chars_of body → tag = "" ∨ tag = "json" →
  json_parse (trim body) = Some v → trim body ≠ "" →
  let text := pre +:+ "```" +:+ tag +:+ newline +:+ body +:+ "```" +:+ post in
  json_parse (trim text) = None →
  extract_json_payload text = Ok v.
Proof.
  intros Hpre Hbody Htag Hparse Hne text Hwhole. unfold extract_json_payload. rewrite Hwhole.
  assert (chars_of text = chars_of pre ++ fence ++
    (chars_of tag ++ newline_char :: (chars_of body ++ fence ++ chars_of post))) as Htext.
  { unfold text. by rewrite !chars_of_app. }
  assert (is_empty (trim text) = false) as ->.
  { apply is_empty_false. intros Hn.
    assert ("`"%char ∈ chars_of (trim text)) as Hin.
    { apply trim_keeps.
      - unfold never_whitespace. apply (bool_decide_unpack _). by vm_compute.
      - rewrite Htext. apply elem_of_app; right. apply elem_of_app; left. left. }
    rewrite Hn in Hin. by apply elem_of_nil in Hin. }
  cbn [fenced_payload]. rewrite Htext. rewrite (find_fence _ _ Hpre).
  set (rest := chars_of body ++ fence ++ chars_of post).
  assert (drop (length (chars_of pre) + 3) (chars_of pre ++ fence ++
    (chars_of tag ++ newline_char :: rest)) = chars_of tag ++ newline_char :: rest) as ->.
  { rewrite drop_app_add'; [done|done]. }
  assert (newline_char ∉ chars_of tag) as Hnl by (by destruct Htag as [->| ->]; apply (bool_decide_unpack _)).
  pose proof (find_chars_first newline_char [] (chars_of tag) rest Hnl) as Hf.
  cbn [app] in Hf. rewrite Hf. cbn [default from_option id].
  rewrite (proj2 (Nat.ltb_lt _ _)) by (rewrite length_app; cbn; lia).
  rewrite take_app_length.
  assert (drop (length (chars_of tag) + 1) (chars_of tag ++ newline_char :: rest) = rest) as ->.
  { rewrite drop_app_add'; [done|done]. }
  unfold rest. rewrite (find_fence _ _ Hbody), take_app_length, of_chars_chars_of.
  rewrite of_chars_chars_of.
  assert (negb (is_empty (trim tag) || eq_ignore_ascii_case (trim tag) "json") = false) as ->
    by (by destruct Htag as [->| ->]; vm_compute).
  rewrite (proj2 (is_empty_false _) Hne), Hparse. done.
Qed.
End payload.

(** A reader of one text, for the witnesses. *)
Definition brace_codec : JsonCodec := {|
  json_parse := λ s, if String.eqb s "{}" then Some (Obj []) else None;
  json_to_string := λ _, "{}";
  json_to_string_pretty := λ _, "{}" |}.

Lemma fenced_json_extracted_witness :
  @extract_json_payload brace_codec
    ("Here it is: " +:+ "```" +:+ "json" +:+ newline +:+ (" {}" +:+ newline) +:+ "```" +:+ " done```") =
    Ok (Obj []).
Proof.
  apply (@fenced_json_extracted brace_codec "Here it is: " "json" (" {}" +:+ newline) " done```" (Obj []));
    first [apply (bool_decide_unpack _); vm_compute; exact I | right; reflexivity
          | vm_compute; reflexivity | vm_compute; discriminate].
Defined.
