(* ===== verification/Safety.v ===== *)
(** * Safety scanning ([tau-safety], [lib.rs])

    The safety policy, rule sets and their validation, and the scanners: rule
    matches are collected, sorted and merged into ranges, and the ranges are cut
    out of the text.  Offsets are byte offsets.  Regular expressions ([regex]) and
    multi-pattern search ([aho_corasick]) are an interface. *)

From Stdlib Require Import NArith Ascii Lia.
From stdpp Require Import base strings list sorting.
From S2P Require Import Prelude RustStr.

#[local] Open Scope string_scope.
#[local] Open Scope list_scope.
#[local] Open Scope nat_scope.

Inductive SafetyMode := Warn | Redact | Block.

#[export] Instance SafetyMode_eq_dec : EqDecision SafetyMode.
Proof. solve_decision. Defined.

Inductive SafetyStage := InboundMessage | ToolOutput | OutboundHttpPayload.

#[export] Instance SafetyStage_eq_dec : EqDecision SafetyStage.
Proof. solve_decision. Defined.

Definition stage_as_str (s : SafetyStage) : string :=
  match s with
  | InboundMessage => "inbound_message"
  | ToolOutput => "tool_output"
  | OutboundHttpPayload => "outbound_http_payload"
  end.

Record SafetyPolicy := mkSafetyPolicy
  { sp_enabled : bool;
    sp_mode : SafetyMode;
    apply_to_inbound_messages : bool;
    apply_to_tool_outputs : bool;
    redaction_token : string;
    secret_leak_detection_enabled : bool;
    secret_leak_mode : SafetyMode;
    secret_leak_redaction_token : string;
    apply_to_outbound_http_payloads : bool }.

Definition safety_policy_default : SafetyPolicy :=
  mkSafetyPolicy true Warn true true "[TAU-SAFETY-REDACTED]" true Warn "[TAU-SECRET-REDACTED]" true.

Inductive SafetyRuleMatcher := Literal | Regex.

Record SafetyRule := mkSafetyRule
  { rule_id : string; reason_code : string; pattern : string; matcher : SafetyRuleMatcher;
    rule_enabled : bool }.

Record SafetyRuleSet := mkRuleSet
  { prompt_injection_rules : list SafetyRule; secret_leak_rules : list SafetyRule }.

Record SafetyMatch := mkMatch
  { match_rule_id : string; match_reason_code : string; match_start : nat; match_end : nat }.

Record SafetyScanResult := mkScanResult
  { redacted_text : string; matches : list SafetyMatch }.

Definition has_matches (r : SafetyScanResult) : bool := negb (bool_decide (length (matches r) = 0)).
Definition matched_rule_ids (r : SafetyScanResult) : list string :=
  btree_set (match_rule_id <$> matches r).
Definition reason_codes (r : SafetyScanResult) : list string :=
  btree_set (match_reason_code <$> matches r).

(** [regex::Regex::new] with [find_iter], and an ASCII case-insensitive
    [AhoCorasick] with [find_iter]: the pattern index and the range of each match. *)
Class PatternEngine := {
  regex_find_iter : string → option (string → list (nat * nat));
  aho_find_iter : list string → string → list (nat * (nat * nat)) }.

(** What the scanners rely on: matches lie in the text. *)
Definition range_in (input : string) (r : nat * nat) : Prop :=
  r.1 ≤ r.2 ∧ r.2 ≤ String.length input.
Class PatternEngineLaws `(PE : PatternEngine) := {
  regex_in_text p find input : regex_find_iter p = Some find → Forall (range_in input) (find input);
  aho_in_text ps input : Forall (λ m, range_in input m.2) (aho_find_iter ps input) }.

(** ** Redaction *)

Definition merge_range (merged : list (nat * nat)) (range : nat * nat) : list (nat * nat) :=
  let '(start, stop) := range in
  if stop <=? start then merged
  else match last merged with
       | Some (previous_start, previous_end) =>
           if start <=? previous_end
           then take (length merged - 1) merged ++ [(previous_start, Nat.max previous_end stop)]
           else merged ++ [(start, stop)]
       | None => merged ++ [(start, stop)]
       end.

Definition merge_ranges (ranges : list (nat * nat)) : list (nat * nat) :=
  foldl merge_range [] ranges.

(** [&input[from..to]] *)
Definition slice (l : list ascii) (from to : nat) : list ascii := drop from (take to l).

Definition redact_step (input token : list ascii) (acc : list ascii * nat) (range : nat * nat)
    : list ascii * nat :=
  let '(output, cursor) := acc in
  let output := if cursor <? range.1 then output ++ slice input cursor range.1 else output in
  (output ++ token, range.2).

Definition apply_redaction_ranges (input : string) (ranges : list (nat * nat)) (token : string)
    : string :=
  match ranges with
  | [] => input
  | _ =>
      let l := chars_of input in
      let '(output, cursor) := foldl (redact_step l (chars_of token)) ([], 0) ranges in
      of_chars (if cursor <? length l then output ++ drop cursor l else output)
  end.

(** [sort_by_key(|m| (m.start, m.end))] *)
Definition range_le (a b : nat * nat) : bool :=
  (a.1 <? b.1) || ((a.1 =? b.1) && (a.2 <=? b.2)).

Definition match_range (m : SafetyMatch) : nat * nat := (match_start m, match_end m).

(** The end of every scanner: sort, merge and redact. *)
Definition finish_scan (input token : string) (found : list SafetyMatch) : SafetyScanResult :=
  let sorted := sort_by (λ a b, range_le (match_range a) (match_range b)) found in
  let ranges := sort_by range_le (match_range <$> found) in
  mkScanResult (apply_redaction_ranges input (merge_ranges ranges) token) sorted.

(** ** Rules *)

Section rules.
Context `{PE : PatternEngine}.

(** The occurrences of a literal, from left to right and not overlapping; the
    fuel is one more than the number of bytes, and each match consumes one. *)
Fixpoint literal_matches (fuel : nat) (needle hay : list ascii) (search_from : nat)
    : list (nat * nat) :=
  match fuel with
  | O => []
  | S fuel =>
      if search_from <? length hay then
        match find_chars needle (drop search_from hay) with
        | None => []
        | Some found =>
            let start := search_from + found in
            let stop := start + length needle in
            (start, stop) :: literal_matches fuel needle hay stop
        end
      else []
  end.

Definition rule_ranges (input : string) (rule : SafetyRule) : list (nat * nat) :=
  let pattern := trim (pattern rule) in
  match matcher rule with
  | Literal =>
      let lowered_input := chars_of (to_ascii_lowercase input) in
      literal_matches (S (length lowered_input)) (chars_of (to_ascii_lowercase pattern))
        lowered_input 0
  | Regex => match regex_find_iter pattern with Some find => find input | None => [] end
  end.

Definition rule_matches (input : string) (rule : SafetyRule) : list SafetyMatch :=
  let id := trim (rule_id rule) in
  let code := trim (reason_code rule) in
  if negb (rule_enabled rule) then []
  else if is_empty id || is_empty code || is_empty (trim (pattern rule)) then []
  else (λ r : nat * nat, mkMatch id code r.1 r.2) <$> rule_ranges input rule.

Definition scan_safety_rules (input token : string) (rules : list SafetyRule)
    : SafetyScanResult :=
  finish_scan input token (concat (rule_matches input <$> rules)).

(** [Err] is the text of the first defect; [seen] are the rule ids so far. *)
Fixpoint validate_rules_from (field_name : string) (index : nat) (seen : list string)
    (rules : list SafetyRule) : Result string unit :=
  match rules with
  | [] => Ok tt
  | rule :: rest =>
      let at_ := field_name +:+ "[" +:+ show_usize index +:+ "]." in
      let id := trim (rule_id rule) in
      let pat := trim (pattern rule) in
      _ ← bail_if (is_empty id) (at_ +:+ "rule_id must be non-empty");
      _ ← bail_if (bool_decide (id ∈ seen)) (at_ +:+ "rule_id duplicates '" +:+ id +:+ "'");
      _ ← bail_if (is_empty (trim (reason_code rule))) (at_ +:+ "reason_code must be non-empty");
      _ ← bail_if (is_empty pat) (at_ +:+ "pattern must be non-empty");
      _ ← bail_if (4096 <? N.of_nat (String.length pat))%N
            (at_ +:+ "pattern must be 4096 chars or fewer");
      _ ← bail_if (match matcher rule with
                   | Regex => match regex_find_iter pat with None => true | Some _ => false end
                   | Literal => false
                   end) (at_ +:+ "pattern is not a valid regex");
      validate_rules_from field_name (S index) (btree_insert id seen) rest
  end.

Definition validate_safety_rules_collection (rules : list SafetyRule) (field_name : string)
    : Result string unit := validate_rules_from field_name 0 [] rules.

Definition validate_safety_rule_set (rule_set : SafetyRuleSet) : Result string unit :=
  _ ← validate_safety_rules_collection (prompt_injection_rules rule_set) "prompt_injection_rules";
  validate_safety_rules_collection (secret_leak_rules rule_set) "secret_leak_rules".
End rules.

(** ** The default rules *)

Record LiteralRule := mkLiteralRule
  { lr_needle : string; lr_rule_id : string; lr_reason_code : string }.
Record RegexRuleDef := mkRegexRule
  { rr_pattern : string; rr_rule_id : string; rr_reason_code : string }.

Definition DEFAULT_LITERAL_RULES : list LiteralRule :=
  [mkLiteralRule "ignore previous instructions"
     "literal.ignore_previous_instructions" "prompt_injection.ignore_instructions";
   mkLiteralRule "disregard previous instructions"
     "literal.disregard_previous_instructions" "prompt_injection.ignore_instructions";
   mkLiteralRule "reveal your system prompt"
     "literal.reveal_system_prompt" "prompt_injection.system_prompt_exfiltration";
   mkLiteralRule "developer message"
     "literal.developer_message_reference" "prompt_injection.system_prompt_exfiltration";
   mkLiteralRule "BEGIN PROMPT INJECTION"
     "literal.begin_prompt_injection" "prompt_injection.explicit_marker";
   mkLiteralRule "<system>"
     "literal.system_tag_injection" "prompt_injection.role_spoofing"].

Definition DEFAULT_REGEX_RULES : list RegexRuleDef :=
  [mkRegexRule "(?is)\b(ignore|disregard|override)\b.{0,80}\b(instruction|directive)s?\b"
     "regex.override_instructions_phrase" "prompt_injection.ignore_instructions";
   mkRegexRule "(?is)\bi[\W_]*g[\W_]*n[\W_]*o[\W_]*r[\W_]*e\b.{0,80}\b(instruction|directive)s?\b"
     "regex.obfuscated_ignore_instructions_phrase" "prompt_injection.ignore_instructions";
   mkRegexRule "(?is)\bi[\W_]*g[\W_]*n[\W_]*o[\W_]*r[\W_]*e\b.{0,80}\bi[\W_]*n[\W_]*s[\W_]*t[\W_]*r[\W_]*u[\W_]*c[\W_]*t[\W_]*i[\W_]*o[\W_]*n[\W_]*s?\b"
     "regex.obfuscated_ignore_instruction_word" "prompt_injection.ignore_instructions";
   mkRegexRule "(?is)\b(reveal|show|print|dump)\b.{0,80}\b(system prompt|hidden prompt|developer message|internal instructions?)\b"
     "regex.prompt_exfiltration_phrase" "prompt_injection.system_prompt_exfiltration";
   mkRegexRule "(?is)\br[\W_]*e[\W_]*v[\W_]*e[\W_]*a[\W_]*l\b.{0,80}\b(system prompt|hidden prompt|developer message|internal instructions?)\b"
     "regex.obfuscated_prompt_exfiltration_phrase" "prompt_injection.system_prompt_exfiltration";
   mkRegexRule "(?is)\b(exfiltrate|leak)\b.{0,80}\b(secret|secrets|token|tokens|credential|credentials)\b"
     "regex.secret_exfiltration_phrase" "prompt_injection.secret_exfiltration"].

Definition DEFAULT_LEAK_REGEX_RULES : list RegexRuleDef :=
  [mkRegexRule "\bsk-[A-Za-z0-9][A-Za-z0-9_-]{19,}\b"
     "leak.openai_api_key" "secret_leak.openai_api_key";
   mkRegexRule "\bsk-ant-[A-Za-z0-9_-]{20,}\b"
     "leak.anthropic_api_key" "secret_leak.anthropic_api_key";
   mkRegexRule "\bghp_[A-Za-z0-9]{20,}\b"
     "leak.github_classic_pat" "secret_leak.github_token";
   mkRegexRule "\bgithub_pat_[A-Za-z0-9_]{20,}\b"
     "leak.github_fine_grained_pat" "secret_leak.github_token";
   mkRegexRule "\bxox[baprs]-[A-Za-z0-9-]{10,}\b"
     "leak.slack_token" "secret_leak.slack_token";
   mkRegexRule "\bAKIA[0-9A-Z]{16}\b"
     "leak.aws_access_key_id" "secret_leak.aws_access_key";
   mkRegexRule "-----BEGIN (RSA |EC |DSA |OPENSSH |PGP )?PRIVATE KEY-----"
     "leak.private_key_material" "secret_leak.private_key_material";
   mkRegexRule "\beyJ[A-Za-z0-9_-]{10,}\.[A-Za-z0-9_-]{10,}\.[A-Za-z0-9_-]{10,}\b"
     "leak.jwt_token" "secret_leak.jwt_token"].

Definition literal_rule (r : LiteralRule) : SafetyRule :=
  mkSafetyRule (lr_rule_id r) (lr_reason_code r) (lr_needle r) Literal true.
Definition regex_rule (r : RegexRuleDef) : SafetyRule :=
  mkSafetyRule (rr_rule_id r) (rr_reason_code r) (rr_pattern r) Regex true.

Definition default_safety_rule_set : SafetyRuleSet :=
  mkRuleSet ((literal_rule <$> DEFAULT_LITERAL_RULES) ++ (regex_rule <$> DEFAULT_REGEX_RULES))
    (regex_rule <$> DEFAULT_LEAK_REGEX_RULES).

(** ** The default scanners *)

Section scanners.
Context `{PE : PatternEngine}.

(** The compiled regular expressions of a rule list; [None] where [Regex::new]
    fails, on which the constructors panic. *)
Definition compile_rules (rules : list RegexRuleDef)
    : option (list ((string → list (nat * nat)) * RegexRuleDef)) :=
  mapM (λ r, (λ find, (find, r)) <$> regex_find_iter (rr_pattern r)) rules.

Definition regex_matches (input : string)
    (rules : list ((string → list (nat * nat)) * RegexRuleDef)) : list SafetyMatch :=
  concat ((λ cr : (string → list (nat * nat)) * RegexRuleDef,
    (λ r : nat * nat, mkMatch (rr_rule_id cr.2) (rr_reason_code cr.2) r.1 r.2) <$> cr.1 input)
    <$> rules).

Record DefaultSanitizer := mkSanitizer
  { ds_literal_rules : list LiteralRule;
    ds_regex_rules : list ((string → list (nat * nat)) * RegexRuleDef) }.

Definition default_sanitizer_new : option DefaultSanitizer :=
  regex_rules ← compile_rules DEFAULT_REGEX_RULES;
  Some (mkSanitizer DEFAULT_LITERAL_RULES regex_rules).

(** The literal matches; an index outside the rules is skipped. *)
Definition aho_matches (self : DefaultSanitizer) (input : string) : list SafetyMatch :=
  omap (λ found : nat * (nat * nat),
    (λ rule, mkMatch (lr_rule_id rule) (lr_reason_code rule) found.2.1 found.2.2)
      <$> (ds_literal_rules self !! found.1))
    (aho_find_iter (lr_needle <$> ds_literal_rules self) input).

Definition sanitizer_scan (self : DefaultSanitizer) (input token : string) : SafetyScanResult :=
  finish_scan input token (aho_matches self input ++ regex_matches input (ds_regex_rules self)).

Definition default_leak_detector_new
    : option (list ((string → list (nat * nat)) * RegexRuleDef)) :=
  compile_rules DEFAULT_LEAK_REGEX_RULES.

Definition leak_detector_scan (self : list ((string → list (nat * nat)) * RegexRuleDef))
    (input token : string) : SafetyScanResult :=
  finish_scan input token (regex_matches input self).
End scanners.

(** ** Properties of the safety scanners

    Redaction against a bytewise reference, the completeness of literal rules,
    and the validity of the default rule set. *)

(** ** The reference: what redaction means, byte by byte *)

Definition covered (ranges : list (nat * nat)) (i : nat) : bool :=
  existsb (λ r : nat * nat, (r.1 <=? i) && (i <? r.2)) ranges.

(** Every maximal run of hidden bytes becomes one token; all others are kept. *)
Fixpoint redact_reference (token : list ascii) (hidden : nat → bool) (i : nat) (inside : bool)
    (l : list ascii) : list ascii :=
  match l with
  | [] => []
  | c :: l' =>
      if hidden i
      then (if inside then [] else token) ++ redact_reference token hidden (S i) true l'
      else c :: redact_reference token hidden (S i) false l'
  end.

(** ** Merged ranges are separated and cover the same bytes *)

Fixpoint separated (lo : nat) (ms : list (nat * nat)) : Prop :=
  match ms with
  | [] => True
  | (s, e) :: ms' => lo ≤ s ∧ s < e ∧ separated (S e) ms'
  end.

Definition sep_end (lo : nat) (ms : list (nat * nat)) : nat :=
  match last ms with Some (_, e) => S e | None => lo end.

Lemma separated_snoc lo ms s e :
  separated lo (ms ++ [(s, e)]) ↔ separated lo ms ∧ sep_end lo ms ≤ s ∧ s < e.
Proof.
  revert lo. induction ms as [|[s0 e0] ms IH]; intros lo; cbn; [naive_solver|].
  rewrite IH. unfold sep_end. destruct ms as [|m ms]; cbn; [naive_solver lia|].
  change (last ((s0, e0) :: m :: ms)) with (last (m :: ms)).
  destruct (last (m :: ms)) as [[]|] eqn:E; [naive_solver|].
  by apply last_None in E.
Qed.

Lemma covered_spec ranges i :
  covered ranges i = true ↔ ∃ s e, (s, e) ∈ ranges ∧ s ≤ i < e.
Proof.
  unfold covered. rewrite existsb_exists. split.
  - intros ([s e] & Hin & Hb). apply andb_true_iff in Hb as [?%Nat.leb_le ?%Nat.ltb_lt].
    exists s, e. split; [by apply list_elem_of_In|done].
  - intros (s & e & Hin & Hle & Hlt). exists (s, e). split; [by apply list_elem_of_In|].
    apply andb_true_iff. split; [by apply Nat.leb_le|by apply Nat.ltb_lt].
Qed.

Lemma covered_app k1 k2 i : covered (k1 ++ k2) i = covered k1 i || covered k2 i.
Proof. apply existsb_app. Qed.

Lemma covered_perm k1 k2 i : k1 ≡ₚ k2 → covered k1 i = covered k2 i.
Proof.
  intros Hp. apply eq_true_iff_eq. rewrite !covered_spec. by setoid_rewrite Hp.
Qed.

Lemma covered_singleton s e i : covered [(s, e)] i = (s <=? i) && (i <? e).
Proof. cbn. by rewrite orb_false_r. Qed.

(** One more range, whose start is not before the last merged start. *)
Lemma merge_range_spec ms r i :
  separated 0 ms → (∀ s e, last ms = Some (s, e) → s ≤ r.1) →
  separated 0 (merge_range ms r) ∧
  covered (merge_range ms r) i = covered ms i || covered [r] i ∧
  (∀ s e, last (merge_range ms r) = Some (s, e) → s ≤ r.1).
Proof.
  destruct r as [start stop]. intros Hsep Hlast. unfold merge_range. cbn [fst] in *.
  rewrite covered_singleton. destruct (Nat.leb_spec stop start) as [Hempty|Hne].
  { split_and!; [done| |done]. replace ((start <=? i) && (i <? stop)) with false; [by rewrite orb_false_r|].
    symmetry. apply andb_false_iff. destruct (Nat.leb_spec start i); [right; apply Nat.ltb_ge; lia|by left]. }
  destruct ms as [|[ps pe] ms _] using rev_ind.
  { cbn [last app]. rewrite covered_singleton. split_and!; [cbn; lia|done|]. intros ? ? [= <- <-]. done. }
  rewrite last_snoc in *. specialize (Hlast ps pe eq_refl).
  destruct (Nat.leb_spec start pe) as [Hle|Hgt].
  - rewrite length_app, Nat.add_sub, take_app_length.
    apply separated_snoc in Hsep as (Hsep & Hlo & Hlt).
    split_and!.
    + apply separated_snoc. split_and!; [done|done|lia].
    + rewrite !covered_app, !covered_singleton, <- orb_assoc. f_equal.
      apply eq_true_iff_eq.
      rewrite orb_true_iff, !andb_true_iff, !Nat.leb_le, !Nat.ltb_lt. lia.
    + rewrite last_snoc. intros ? ? [= <- <-]. lia.
  - split_and!.
    + apply separated_snoc. split_and!; [done| |done]. unfold sep_end. rewrite last_snoc. lia.
    + by rewrite covered_app, covered_singleton.
    + rewrite last_snoc. intros ? ? [= <- <-]. lia.
Qed.

Lemma merge_ranges_spec ranges i :
  StronglySorted (λ a b, range_le a b = true) ranges →
  separated 0 (merge_ranges ranges) ∧ covered (merge_ranges ranges) i = covered ranges i.
Proof.
  unfold merge_ranges. intros Hs.
  enough (∀ ms, separated 0 ms → (∀ s e r, last ms = Some (s, e) → r ∈ ranges → s ≤ r.1) →
    separated 0 (foldl merge_range ms ranges) ∧
    covered (foldl merge_range ms ranges) i = covered ms i || covered ranges i) as H.
  { apply H; [done|]. intros s e r [=]. }
  induction Hs as [|r ranges Hs IH Hall]; intros ms Hsep Hlast; cbn [foldl].
  { by rewrite orb_false_r. }
  destruct (merge_range_spec ms r i Hsep) as (Hsep' & Hcov & Hlast').
  { intros s e Hl. apply (Hlast s e r Hl). left. }
  destruct (IH (merge_range ms r)) as [Hd Hc]; [done| |].
  { intros s e r' Hl Hin. rewrite Forall_forall in Hall. specialize (Hall r' Hin).
    specialize (Hlast' s e Hl). unfold range_le in Hall.
    apply orb_true_iff in Hall as [?%Nat.ltb_lt|[?%Nat.eqb_eq _]%andb_true_iff]; lia. }
  split; [done|]. rewrite Hc, Hcov, <- orb_assoc. f_equal.
  change (r :: ranges) with ([r] ++ ranges). by rewrite covered_app.
Qed.

(** ** Cutting separated ranges out of a text *)

Fixpoint redact_from (l token : list ascii) (cursor : nat) (ms : list (nat * nat)) : list ascii :=
  match ms with
  | [] => drop cursor l
  | (s, e) :: ms' => slice l cursor s ++ token ++ redact_from l token e ms'
  end.

Lemma redact_steps l token ms : ∀ output cursor,
  let '(o, c) := foldl (redact_step l token) (output, cursor) ms in
  (if c <? length l then o ++ drop c l else o) = output ++ redact_from l token cursor ms.
Proof.
  induction ms as [|[s e] ms IH]; intros output cursor; cbn [foldl redact_from].
  - destruct (Nat.ltb_spec cursor (length l)); [done|].
    rewrite drop_ge by lia. by rewrite app_nil_r.
  - cbn [redact_step fst snd]. specialize (IH
      ((if cursor <? s then output ++ slice l cursor s else output) ++ token) e).
    destruct (foldl _ _ _) as [o c]. rewrite IH.
    destruct (Nat.ltb_spec cursor s) as [Hlt|Hge]; [by rewrite <- !(assoc_L (++))|].
    assert (slice l cursor s = []) as ->.
    { unfold slice. apply drop_ge. rewrite length_take. lia. }
    by rewrite <- (assoc_L (++)).
Qed.

Lemma apply_redaction_from input ms token :
  apply_redaction_ranges input ms token =
    of_chars (redact_from (chars_of input) (chars_of token) 0 ms).
Proof.
  unfold apply_redaction_ranges. destruct ms as [|m ms].
  { cbn [redact_from]. by rewrite drop_0, of_chars_chars_of. }
  pose proof (redact_steps (chars_of input) (chars_of token) (m :: ms) [] 0) as H.
  destruct (foldl _ _ _) as [o c]. by rewrite H.
Qed.

(** A run of kept bytes, and a run of hidden ones. *)
Lemma reference_kept token hidden a k : ∀ i inside,
  (∀ j, i ≤ j < i + length a → hidden j = false) → (a ≠ [] ∨ inside = false) →
  redact_reference token hidden i inside (a ++ k) =
    a ++ redact_reference token hidden (i + length a) false k.
Proof.
  induction a as [|c a IH]; intros i inside Hh Hor; cbn.
  - rewrite Nat.add_0_r. destruct Hor as [|Hi]; [done|by rewrite Hi].
  - rewrite Hh by (cbn; lia). f_equal. rewrite IH; [by rewrite <- Nat.add_succ_comm| |by right].
    intros j Hj. apply Hh. cbn. lia.
Qed.

Lemma reference_hidden token hidden a k : ∀ i inside,
  (∀ j, i ≤ j < i + length a → hidden j = true) → a ≠ [] →
  redact_reference token hidden i inside (a ++ k) =
    (if inside then [] else token) ++ redact_reference token hidden (i + length a) true k.
Proof.
  induction a as [|c a IH]; intros i inside Hh Hne; cbn; [done|].
  rewrite Hh by (cbn; lia). f_equal. destruct a as [|c' a].
  - cbn. by rewrite Nat.add_1_r.
  - rewrite IH; [by rewrite <- Nat.add_succ_comm| |done]. intros j Hj. apply Hh. cbn in *. lia.
Qed.

Lemma slice_split l a b : a ≤ b → b ≤ length l → drop a l = slice l a b ++ drop b l.
Proof.
  intros Hab Hb. unfold slice. rewrite <- (take_drop b l) at 1.
  rewrite drop_app_le; [done|]. rewrite length_take. lia.
Qed.

Lemma slice_length l a b : b ≤ length l → length (slice l a b) = b - a.
Proof. intros. unfold slice. rewrite length_drop, length_take. lia. Qed.

Lemma redact_from_reference l token hidden ms : ∀ cursor lo inside,
  separated lo ms → cursor ≤ lo → cursor ≤ length l →
  Forall (λ r : nat * nat, r.2 ≤ length l) ms →
  (∀ j, cursor ≤ j → hidden j = covered ms j) →
  (inside = true → cursor < lo) →
  redact_from l token cursor ms = redact_reference token hidden cursor inside (drop cursor l).
Proof.
  induction ms as [|[s e] ms IH]; intros cursor lo inside Hsep Hlo Hlen Hin Hh Hins; cbn [redact_from].
  - destruct (drop cursor l) as [|c k] eqn:Hd; [done|].
    rewrite <- (app_nil_r (c :: k)) at 2. rewrite reference_kept; [by rewrite app_nil_r| |by left].
    intros j Hj. rewrite Hh by lia. done.
  - destruct Hsep as (Hls & Hse & Hsep). apply Forall_cons in Hin as [He Hin]. cbn in He.
    rewrite (slice_split l cursor s) by lia. rewrite (slice_split l s e) by lia.
    assert (∀ j, cursor ≤ j → hidden j = true ↔ s ≤ j < e ∨ covered ms j = true) as Hspec.
    { intros j Hj. rewrite Hh by done. change ((s, e) :: ms) with ([(s, e)] ++ ms).
      rewrite covered_app, covered_singleton, orb_true_iff, andb_true_iff, Nat.leb_le, Nat.ltb_lt. done. }
    assert (∀ j, covered ms j = true → e < j) as Hnext.
    { intros j (s' & e' & Hm & Hj)%covered_spec. clear -Hsep Hm Hj.
      enough (∀ lo ms, separated lo ms → (s', e') ∈ ms → lo ≤ s') as H
        by (specialize (H _ _ Hsep Hm); lia).
      clear. intros lo ms. revert lo. induction ms as [|[a b] ms IH]; intros lo Hsep Hm; [by apply elem_of_nil in Hm|].
      destruct Hsep as (? & ? & Hsep). apply elem_of_cons in Hm as [[= -> ->]|Hm]; [done|].
      specialize (IH _ Hsep Hm). lia. }
    rewrite reference_kept; cycle 1.
    { rewrite slice_length by lia. intros j Hj. apply not_true_iff_false.
      rewrite Hspec by lia. intros [?|?%Hnext]; lia. }
    { destruct inside; [left|by right]. specialize (Hins eq_refl).
      intros Hn%(f_equal length). rewrite slice_length in Hn by lia. cbn in Hn. lia. }
    f_equal. rewrite slice_length by lia. replace (cursor + (s - cursor)) with s by lia.
    rewrite reference_hidden; cycle 1.
    { rewrite slice_length by lia. intros j Hj. apply Hspec; [lia|]. left. lia. }
    { intros Hn%(f_equal length). rewrite slice_length in Hn by lia. cbn in Hn. lia. }
    f_equal. rewrite slice_length by lia. replace (s + (e - s)) with e by lia.
    apply (IH e (S e)); [done|lia|done|done| |lia].
    intros j Hj. apply eq_true_iff_eq. rewrite Hspec by lia. split; [|by right].
    intros [?|?]; [lia|done].
Qed.

Lemma range_le_total a b : range_le a b = false → range_le b a = true.
Proof.
  unfold range_le. rewrite orb_false_iff, orb_true_iff, andb_false_iff, andb_true_iff.
  rewrite !Nat.ltb_lt, Nat.ltb_ge, !Nat.eqb_eq, !Nat.leb_le, Nat.eqb_neq, Nat.leb_gt. lia.
Qed.

Lemma range_le_trans a b c : range_le a b = true → range_le b c = true → range_le a c = true.
Proof.
  unfold range_le. rewrite !orb_true_iff, !andb_true_iff, !Nat.ltb_lt, !Nat.eqb_eq, !Nat.leb_le. lia.
Qed.

(** Merging keeps ranges within the text. *)
Lemma merge_ranges_bound n ranges :
  Forall (λ r : nat * nat, r.2 ≤ n) ranges → Forall (λ r : nat * nat, r.2 ≤ n) (merge_ranges ranges).
Proof.
  unfold merge_ranges. intros H.
  enough (∀ ms, Forall (λ r : nat * nat, r.2 ≤ n) ms →
    Forall (λ r : nat * nat, r.2 ≤ n) (foldl merge_range ms ranges)) as Hg by (by apply Hg).
  induction H as [|[s e] ranges He _ IH]; intros ms Hms; cbn; [done|]. apply IH.
  unfold merge_range. case_match; [done|]. cbn in He.
  destruct ms as [|[ps pe] ms _] using rev_ind; [by repeat constructor|].
  rewrite last_snoc. apply Forall_app in Hms as [Hms [Hpe _]%Forall_cons]. cbn in Hpe.
  rewrite length_app, Nat.add_sub, take_app_length.
  case_match; rewrite ?Forall_app, !Forall_singleton; cbn; [split; [done|lia]|auto].
Qed.

Lemma finish_scan_redacts input token found :
  Forall (range_in input) (match_range <$> found) →
  redacted_text (finish_scan input token found) =
    of_chars (redact_reference (chars_of token) (covered (match_range <$> found)) 0 false
      (chars_of input)).
Proof.
  intros Hin. unfold finish_scan. cbn [redacted_text]. rewrite apply_redaction_from. f_equal.
  set (ranges := sort_by range_le (match_range <$> found)).
  assert (ranges ≡ₚ match_range <$> found) as Hp by apply sort_by_perm.
  assert (StronglySorted (λ a b, range_le a b = true) ranges) as Hs
    by (apply sort_by_sorted; [apply range_le_total|apply range_le_trans]).
  rewrite <- (drop_0 (chars_of input)) at 2.
  apply (redact_from_reference _ _ _ _ 0 0); [by apply (merge_ranges_spec ranges 0)|done|lia| | |done].
  - apply merge_ranges_bound. rewrite Hp. eapply Forall_impl; [exact Hin|].
    intros [s e] [_ He]. by rewrite length_chars_of.
  - intros j _. rewrite <- (covered_perm _ _ j Hp). symmetry. by apply merge_ranges_spec.
Qed.

(** ** Literal rules *)

Lemma to_ascii_lowercase_length s : length (chars_of (to_ascii_lowercase s)) = String.length s.
Proof. unfold to_ascii_lowercase. by rewrite chars_of_of_chars, length_fmap, length_chars_of. Qed.

Lemma literal_matches_in fuel needle hay from :
  from ≤ length hay →
  Forall (λ r : nat * nat, r.1 ≤ r.2 ∧ r.2 ≤ length hay) (literal_matches fuel needle hay from).
Proof.
  revert from. induction fuel as [|fuel IH]; intros from Hle; cbn [literal_matches]; [constructor|].
  destruct (from <? length hay); [|constructor].
  destruct (find_chars needle (drop from hay)) as [i|] eqn:Hf; [|constructor].
  apply find_chars_Some in Hf as (r & Hr & Hi). rewrite length_drop in Hi.
  apply (f_equal length) in Hr. rewrite !length_app, length_take, length_drop in Hr.
  constructor; [cbn; lia|]. apply IH. lia.
Qed.

(** The search reaches every occurrence: one that starts at or after the cursor
    shares a byte with a reported match. *)
Lemma find_chars_le pat a b : ∃ i, find_chars pat (a ++ pat ++ b) = Some i ∧ i ≤ length a.
Proof.
  induction a as [|c a (i & Hi & Hle)].
  - exists 0. split; [|done]. cbn [app]. pose proof (strip_prefix_chars_app pat b) as H.
    destruct (pat ++ b); cbn [find_chars]; by rewrite H.
  - cbn [app find_chars]. destruct (strip_prefix_chars pat (c :: a ++ pat ++ b)).
    + exists 0. split; [done|cbn; lia].
    + exists (S i). rewrite Hi. split; [done|cbn; lia].
Qed.

Lemma literal_matches_reach fuel needle hay a b : ∀ from,
  needle ≠ [] → hay = a ++ needle ++ b → from ≤ length a → length hay < from + fuel →
  ∃ s e, (s, e) ∈ literal_matches fuel needle hay from ∧
         s < length a + length needle ∧ length a < e.
Proof.
  induction fuel as [|fuel IH]; intros from Hne Hhay Hfrom Hfuel.
  { apply (f_equal length) in Hhay. rewrite !length_app in Hhay. lia. }
  assert (0 < length needle) by (destruct needle; [done|cbn; lia]).
  assert (length hay = length a + (length needle + length b)) as Hlen
    by (by rewrite Hhay, !length_app).
  cbn [literal_matches]. rewrite (proj2 (Nat.ltb_lt _ _)) by lia.
  assert (drop from hay = drop from a ++ needle ++ b) as Hd by (by rewrite Hhay, drop_app_le).
  destruct (find_chars_le needle (drop from a) b) as (i & Hi & Hle).
  rewrite Hd, Hi. rewrite length_drop in Hle.
  destruct (decide (length a < from + i + length needle)).
  - exists (from + i), (from + i + length needle). split; [left|lia].
  - destruct (IH (from + i + length needle)) as (s & e & Hin & Hse); [done|done|lia|lia|].
    exists s, e. split; [by right|done].
Qed.

(** ** The scanners *)

Section scan.
Context `{PL : PatternEngineLaws}.

Lemma rule_matches_in input rule :
  Forall (range_in input) (match_range <$> rule_matches input rule).
Proof.
  unfold rule_matches. case_match; [constructor|]. case_match; [constructor|].
  rewrite !Forall_fmap. eapply Forall_impl with (P := range_in input); [|by intros [s e]].
  unfold rule_ranges. destruct (matcher rule).
  - eapply Forall_impl; [apply literal_matches_in; lia|].
    intros [s e]. rewrite to_ascii_lowercase_length. done.
  - case_match eqn:Hf; [|constructor]. by eapply regex_in_text.
Qed.

(** C7: scanning with a rule collection hides exactly the bytes the reported
    matches cover: the redacted text is the input with every maximal run of
    covered bytes replaced by one token and every other byte kept, whatever the
    number, order and overlap of the matches. *)
Theorem redaction_exact (input token : string) (rules : list SafetyRule) :
  let result := scan_safety_rules input token rules in
  redacted_text result =
    of_chars (redact_reference (chars_of token) (covered (match_range <$> matches result)) 0 false
      (chars_of input)) ∧
  matches result ≡ₚ concat (rule_matches input <$> rules) ∧
  StronglySorted (λ a b, range_le a b = true) (match_range <$> matches result).
Proof.
  cbn zeta. unfold scan_safety_rules. set (found := concat _).
  assert (Forall (range_in input) (match_range <$> found)) as Hin.
  { unfold found. rewrite Forall_fmap, Forall_concat, Forall_fmap. apply Forall_true.
    intros rule. cbn. pose proof (rule_matches_in input rule) as H. by rewrite Forall_fmap in H. }
  split_and!.
  - rewrite (finish_scan_redacts _ _ _ Hin). f_equal.
    assert (∀ h h' i b l, (∀ j, h j = h' j) →
      redact_reference (chars_of token) h i b l = redact_reference (chars_of token) h' i b l) as Hext.
    { intros h h' i b l He. revert i b. induction l as [|c l IH]; intros; cbn; [done|].
      rewrite He, !IH. done. }
    apply Hext. intros j. apply covered_perm. cbn. by rewrite sort_by_perm.
  - apply sort_by_perm.
  - cbn. assert (StronglySorted (λ a b, range_le (match_range a) (match_range b) = true)
      (sort_by (λ a b, range_le (match_range a) (match_range b)) found)) as Hs.
    { apply sort_by_sorted; intros *; [apply range_le_total|apply range_le_trans]. }
    induction Hs as [|m l Hs IH Hall]; cbn; [constructor|].
    constructor; [done|]. by apply Forall_fmap.
Qed.

(** A literal rule cannot be evaded by letter case or by overlapping text:
    every occurrence of an enabled rule's pattern in the input, in any mix of
    upper and lower case, shares a byte with a match reported for that rule. *)
Theorem literal_rule_not_evaded (input token : string) (rules : list SafetyRule)
    (rule : SafetyRule) (a b : list ascii) :
  rule ∈ rules → rule_enabled rule = true → matcher rule = Literal →
  trim (rule_id rule) ≠ "" → trim (reason_code rule) ≠ "" → trim (pattern rule) ≠ "" →
  let needle := chars_of (to_ascii_lowercase (trim (pattern rule))) in
  chars_of (to_ascii_lowercase input) = a ++ needle ++ b →
  ∃ m, m ∈ matches (scan_safety_rules input token rules) ∧
       match_rule_id m = trim (rule_id rule) ∧
       match_start m < length a + length needle ∧ length a < match_end m.
Proof.
  intros Hin Hen Hlit Hid Hcode Hpat needle Hocc.
  assert (needle ≠ []) as Hne.
  { intros Hn%(f_equal length). unfold needle in Hn. rewrite to_ascii_lowercase_length in Hn.
    by destruct (trim (pattern rule)). }
  destruct (literal_matches_reach (S (length (chars_of (to_ascii_lowercase input)))) needle
    (chars_of (to_ascii_lowercase input)) a b 0) as (s & e & Hse & Hov); [done|done|lia|lia|].
  exists (mkMatch (trim (rule_id rule)) (trim (reason_code rule)) s e).
  split_and!; [|done|apply Hov|apply Hov].
  cbn. rewrite sort_by_perm. apply list_elem_of_In, in_concat. eexists.
  split; [by apply list_elem_of_In, list_elem_of_fmap_2|]. apply list_elem_of_In.
  unfold rule_matches. rewrite Hen. cbn [negb].
  rewrite !(proj2 (is_empty_false _)) by done. cbn [orb].
  unfold rule_ranges. rewrite Hlit.
  apply list_elem_of_fmap. exists (s, e). done.
Qed.
End scan.

(** ** Witnesses: an engine that finds nothing *)

Definition no_engine : PatternEngine := {|
  regex_find_iter := λ _, Some (λ _, []);
  aho_find_iter := λ _ _, [] |}.

#[export] Instance no_engine_laws : PatternEngineLaws no_engine.
Proof. split; [by intros ? ? ? [= <-]; constructor|constructor]. Qed.

Definition sample_rules : list SafetyRule :=
  [mkSafetyRule "literal.ab" "code.ab" "ab" Literal true;
   mkSafetyRule "literal.bc" "code.bc" " BC " Literal true].

Lemma redaction_exact_witness :
  let result := @scan_safety_rules no_engine "xaBcyAB" "[*]" sample_rules in
  redacted_text result = "x[*]y[*]" ∧
  redacted_text result =
    of_chars (redact_reference (chars_of "[*]") (covered (match_range <$> matches result)) 0 false
      (chars_of "xaBcyAB")).
Proof.
  split; [vm_compute; reflexivity|].
  apply (@redaction_exact no_engine no_engine_laws "xaBcyAB" "[*]" sample_rules).
Defined.

Lemma literal_rule_not_evaded_witness :
  ∃ m, m ∈ matches (@scan_safety_rules no_engine "xaBcyAB" "[*]" sample_rules) ∧
    match_rule_id m = "literal.bc" ∧ match_start m < 4 ∧ 2 < match_end m.
Proof.
  apply (@literal_rule_not_evaded no_engine "xaBcyAB" "[*]" sample_rules
    (mkSafetyRule "literal.bc" "code.bc" " BC " Literal true)
    (chars_of "xa") (chars_of "yab"));
    first [right; left; reflexivity | vm_compute; discriminate | vm_compute; reflexivity].
Defined.
