(* ===== verification/AgentCache.v ===== *)
(** * The agent's bounded caches ([tau-agent-core], [runtime_startup.rs])

    A cache is a hash map beside a queue of its keys, oldest first.  The map and
    the queue implement a list of bindings ordered by the time of their last
    insertion, of bounded length. *)

From Stdlib Require Import Lia.
From stdpp Require Import base gmap strings list.
From S2P Require Import Prelude RustStr.

#[local] Open Scope list_scope.
#[local] Open Scope nat_scope.

Section cache.
Context {T : Type}.
Implicit Types (cache : gmap string T) (order : list string).

(** [order.iter().position(..)] followed by [order.remove(position)] *)
Fixpoint remove_first (key : string) (order : list string) : list string :=
  match order with
  | [] => []
  | entry :: order' => if String.eqb entry key then order' else entry :: remove_first key order'
  end.

(** [while cache.len() > max_entries { .. pop_front .. }] *)
Fixpoint evict (max_entries : nat) cache order : gmap string T * list string :=
  match order with
  | [] => (cache, order)
  | oldest :: order' =>
      if max_entries <? size cache then evict max_entries (delete oldest cache) order'
      else (cache, order)
  end.

Definition cache_insert_with_limit cache order (key : string) (value : T) (max_entries : nat)
    : gmap string T * list string :=
  if max_entries =? 0 then (cache, order)
  else evict max_entries (<[key := value]> cache) (remove_first key order ++ [key]).

(** ** The list of bindings a cache stands for *)

Definition cache_abs (l : list (string * T)) (c : gmap string T * list string) : Prop :=
  NoDup l.*1 ∧ c.2 = l.*1 ∧ c.1 = list_to_map l.

Definition recency_insert (key : string) (value : T) (max_entries : nat) (l : list (string * T))
    : list (string * T) :=
  let l' := filter (λ kv, kv.1 ≠ key) l ++ [(key, value)] in
  drop (length l' - max_entries) l'.

Lemma remove_first_filter key (l : list (string * T)) :
  NoDup l.*1 → remove_first key l.*1 = (filter (λ kv, kv.1 ≠ key) l).*1.
Proof.
  induction l as [|[k v] l IH]; [done|]. rewrite fmap_cons. intros [Hni Hnd]%NoDup_cons.
  cbn [remove_first fst] in *. destruct (String.eqb_spec k key) as [->|Hne].
  - rewrite filter_cons_False by (cbn; naive_solver).
    clear IH Hnd. f_equal. induction l as [|[k' v'] l IH]; [done|].
    rewrite fmap_cons in Hni. apply not_elem_of_cons in Hni as [? ?].
    rewrite filter_cons_True by (cbn in *; congruence). f_equal. auto.
  - rewrite filter_cons_True by done. rewrite fmap_cons. f_equal. auto.
Qed.

Lemma filter_fst_sublist key (l : list (string * T)) :
  sublist (filter (λ kv, kv.1 ≠ key) l).*1 l.*1.
Proof.
  induction l as [|[k v] l IH]; [constructor|].
  rewrite filter_cons. case_decide; rewrite !fmap_cons || rewrite fmap_cons; by constructor.
Qed.

Lemma recency_nodup key value (l : list (string * T)) :
  NoDup l.*1 → NoDup (filter (λ kv, kv.1 ≠ key) l ++ [(key, value)]).*1.
Proof.
  intros Hnd. rewrite fmap_app. apply NoDup_app. split_and!.
  - eapply sublist_NoDup; [done|apply filter_fst_sublist].
  - intros k Hk Hk'. cbn in Hk'. apply list_elem_of_singleton in Hk' as ->.
    apply list_elem_of_fmap in Hk as ([k' v'] & -> & [Hne _]%list_elem_of_filter). by cbn in Hne.
  - apply NoDup_singleton.
Qed.

Lemma evict_abs max_entries (l : list (string * T)) :
  NoDup l.*1 →
  cache_abs (drop (length l - max_entries) l) (evict max_entries (list_to_map l) l.*1).
Proof.
  induction l as [|[k v] l IH]; intros Hnd; [done|].
  cbn [fmap list_fmap evict fst]. fold (l.*1) in *.
  assert (size (list_to_map ((k, v) :: l) : gmap string T) = S (length l)) as ->.
  { by rewrite map_size_list_to_map. }
  destruct (Nat.ltb_spec max_entries (S (length l))) as [Hlt|Hge].
  - apply NoDup_cons in Hnd as [Hni Hnd].
    assert (delete k (list_to_map ((k, v) :: l) : gmap string T) = list_to_map l) as Hdel.
    { cbn. apply delete_insert_id. by apply not_elem_of_list_to_map_1. }
    rewrite Hdel. cbn [length].
    replace (S (length l) - max_entries) with (S (length l - max_entries)) by lia.
    by apply IH.
  - replace (length ((k, v) :: l) - max_entries) with 0 by (cbn; lia). done.
Qed.

(** Re-inserting a binding at the end of the list of the others. *)
Lemma list_to_map_move key value (l : list (string * T)) :
  NoDup l.*1 →
  (<[key := value]> (list_to_map l) : gmap string T) =
    list_to_map (filter (λ kv, kv.1 ≠ key) l ++ [(key, value)]).
Proof.
  intros Hnd. pose proof (recency_nodup key value l Hnd) as Hnd'.
  apply map_eq. intros k. apply option_eq. intros x.
  rewrite <- elem_of_list_to_map by done.
  rewrite lookup_insert_Some, elem_of_app, list_elem_of_filter, list_elem_of_singleton.
  rewrite <- elem_of_list_to_map by done. cbn. naive_solver.
Qed.

(** C8: the bounded cache implements a recency list: from a map and queue that
    stand for a list of bindings, an insertion with a positive limit produces a
    map and queue that stand for that list with the key moved to its end and all
    but the newest [max_entries] bindings removed; with limit zero nothing
    changes. *)
Theorem cache_refines_recency_list (l : list (string * T)) (c : gmap string T * list string)
    (key : string) (value : T) (max_entries : nat) :
  cache_abs l c →
  cache_abs (if max_entries =? 0 then l else recency_insert key value max_entries l)
    (cache_insert_with_limit c.1 c.2 key value max_entries) ∧
  (0 < max_entries →
     let c' := cache_insert_with_limit c.1 c.2 key value max_entries in
     c'.1 !! key = Some value ∧ size c'.1 ≤ max_entries).
Proof.
  destruct c as [cache order]. intros (Hnd & Ho & Hc). cbn in Ho, Hc. subst cache order. cbn [fst snd].
  unfold cache_insert_with_limit. destruct (Nat.eqb_spec max_entries 0) as [->|Hpos].
  { split; [done|lia]. }
  rewrite list_to_map_move, remove_first_filter by done.
  change ([key]) with ([(key, value)].*1). rewrite <- fmap_app.
  pose proof (evict_abs max_entries _ (recency_nodup key value l Hnd)) as (Hnd' & Ho & Hc).
  split; [done|]. intros _. cbn zeta. rewrite Hc. split.
  - apply elem_of_list_to_map_1; [done|].
    set (k := filter _ _) in *. rewrite length_app. cbn [length].
    rewrite drop_app_le by lia. apply elem_of_app. right. left.
  - rewrite map_size_list_to_map by done. rewrite length_drop. lia.
Qed.
End cache.

Lemma cache_refines_recency_list_witness :
  let l := [("a", 1); ("b", 2)]%string in
  cache_abs l (list_to_map l : gmap string nat, ["a"; "b"]%string) ∧
  cache_abs [("b", 2); ("c", 3)]%string
    (cache_insert_with_limit (list_to_map l : gmap string nat) ["a"; "b"]%string "c" 3 2).
Proof.
  assert (cache_abs [("a", 1); ("b", 2)]%string
    (list_to_map [("a", 1); ("b", 2)]%string : gmap string nat, ["a"; "b"]%string)) as H.
  { split; [apply (bool_decide_unpack _); vm_compute; exact I|by split]. }
  split; [exact H|].
  exact (proj1 (cache_refines_recency_list _ _ "c"%string 3 2 H)).
Defined.
