(* ===== verification/AgentTools.v ===== *)
(** * Tool results, directives and the tool bridge ([tau-agent-core])

    [ToolExecutionResult] and the skip, react and send-file directives of
    [lib.rs], and [runtime_tool_bridge.rs]: argument normalisation, schema
    validation and the execution of one call.  What happens to a running tool
    task (a panic, a cancellation, a timeout, its answer) is a [TaskFate]. *)

From Stdlib Require Import NArith Ascii.
From stdpp Require Import base strings list.
From S2P Require Import Prelude RustStr Json Messages ChatTypes AgentTurn.

#[local] Open Scope string_scope.
#[local] Open Scope list_scope.

Record ToolExecutionResult := mkToolResult { tr_content : Value; tr_is_error : bool }.

Definition result_ok (content : Value) : ToolExecutionResult := mkToolResult content false.
Definition result_error (content : Value) : ToolExecutionResult := mkToolResult content true.

(** [ToolExecutionResult::error(json!({ "error": text }))] *)
Definition error_text (text : string) : ToolExecutionResult :=
  result_error (json_obj [("error", Str text)]).

(** [iter().rev().find_map(f)] *)
Definition find_map_rev {A B} (f : A → option B) (l : list A) : option B :=
  head (omap f (reverse l)).

Section tools.
Context `{JC : JsonCodec} `{JS : JsonSchema}.

Definition as_text (r : ToolExecutionResult) : string :=
  match tr_content r with
  | Str text => text
  | other => json_to_string_pretty other
  end.

(** ** Directives *)

(** The parsed text of a successful result of the named tool. *)
Definition directive_payload (tool : string) (message : Message Value) : option Value :=
  if negb (bool_decide (msg_role message = Tool)) || msg_is_error message then None
  else if negb (bool_decide (msg_tool_name message = Some tool)) then None
  else
    let text := text_content message in
    if is_empty (trim text) then None else json_parse (trim text).

Definition get_bool (key : string) (dflt : bool) (object : list (string * Value)) : bool :=
  default dflt (obj_get key object ≫= as_bool).
Definition get_str (key : string) (object : list (string * Value)) : option string :=
  obj_get key object ≫= as_str.
(** [get(key).and_then(as_str).map(str::trim).filter(non-empty)] *)
Definition get_trimmed (key : string) (object : list (string * Value)) : option string :=
  match get_str key object with
  | Some value => if is_empty (trim value) then None else Some (trim value)
  | None => None
  end.
Definition action_is (marker : string) (object : list (string * Value)) : bool :=
  match get_str "action" object with
  | Some value => String.eqb (trim value) marker
  | None => false
  end.

Definition parse_skip_response_reason_payload (payload : Value) : option string :=
  object ← as_object payload;
  let skip_response := get_bool "skip_response" false object in
  let action_skip := action_is "skip_response" object in
  if negb skip_response && negb action_skip then None
  else Some (default "" (trim <$> get_str "reason" object)).

Definition extract_skip_response_reason (messages : list (Message Value)) : option string :=
  find_map_rev (λ m, directive_payload "skip" m ≫= parse_skip_response_reason_payload) messages.

Record ReactResponseDirective := mkReact
  { rd_emoji : string; rd_message_id : option string; rd_reason_code : string }.

Definition parse_react_response_directive_payload (payload : Value)
    : option ReactResponseDirective :=
  object ← as_object payload;
  let react_response := get_bool "react_response" false object in
  let action_react := action_is "react_response" object in
  if negb react_response && negb action_react then None
  else if negb (get_bool "suppress_response" true object) then None
  else
    emoji ← get_trimmed "emoji" object;
    let message_id := get_trimmed "message_id" object in
    let reason_code := default "react_requested" (get_trimmed "reason_code" object) in
    Some (mkReact emoji message_id reason_code).

Definition extract_react_response_directive (messages : list (Message Value))
    : option ReactResponseDirective :=
  find_map_rev (λ m, directive_payload "react" m ≫= parse_react_response_directive_payload)
    messages.

Record SendFileResponseDirective := mkSendFile
  { sf_file_path : string; sf_message : option string; sf_reason_code : string }.

Definition parse_send_file_response_directive_payload (payload : Value)
    : option SendFileResponseDirective :=
  object ← as_object payload;
  let send_file_response := get_bool "send_file_response" false object in
  let action_send_file := action_is "send_file_response" object in
  if negb send_file_response && negb action_send_file then None
  else if negb (get_bool "suppress_response" true object) then None
  else
    file_path ← get_trimmed "file_path" object;
    let message := get_trimmed "message" object in
    let reason_code := default "send_file_requested" (get_trimmed "reason_code" object) in
    Some (mkSendFile file_path message reason_code).

Definition extract_send_file_response_directive (messages : list (Message Value))
    : option SendFileResponseDirective :=
  find_map_rev
    (λ m, directive_payload "send_file" m ≫= parse_send_file_response_directive_payload) messages.

(** ** Execution of one call *)

Definition normalize_tool_arguments (arguments : Value) : Value :=
  match arguments with
  | Str raw =>
      let trimmed := trim raw in
      if starts_with "{" trimmed || starts_with "[" trimmed
      then default (Str raw) (json_parse trimmed)
      else Str raw
  | other => other
  end.

Definition validate_tool_arguments (definition : ToolDefinition Value) (arguments : Value)
    : Result string unit :=
  match validator_for (td_parameters definition) with
  | Err error => Err ("invalid JSON schema for '" +:+ td_name definition +:+ "': " +:+ error)
  | Ok iter_errors =>
      match iter_errors arguments with
      | first :: _ => Err ("invalid arguments for '" +:+ td_name definition +:+ "': " +:+ first)
      | [] => Ok tt
      end
  end.

(** Which branch of a [select!] or [timeout] fires before the awaited future. *)
Inductive Interrupt := TimedOut | CancelledMeanwhile.

Record TaskFate := mkFate
  { tf_panic : option string;        (** the task ends in a [JoinError] *)
    tf_start_cancelled : bool;       (** the token is cancelled when the task starts *)
    tf_interrupt : option Interrupt; (** while the tool runs *)
    tf_answer : Value → ToolExecutionResult (** [tool.execute] *) }.

(** [token] says whether a cancellation token is installed. *)
Definition execute_tool_call_inner (call : ToolCall Value)
    (registered : option (ToolDefinition Value)) (tool_timeout : option N) (token : bool)
    (fate : TaskFate) : ToolExecutionResult :=
  let call_name := tool_call_name call in
  if token && tf_start_cancelled fate
  then error_text ("tool '" +:+ call_name +:+ "' cancelled before execution")
  else match registered with
       | Some definition =>
           let arguments := normalize_tool_arguments (tool_call_arguments call) in
           match validate_tool_arguments definition arguments with
           | Err error => error_text error
           | Ok _ =>
               match tf_interrupt fate, token, tool_timeout with
               | Some CancelledMeanwhile, true, _ =>
                   error_text ("tool '" +:+ td_name definition +:+ "' cancelled")
               | Some TimedOut, _, Some timeout =>
                   error_text ("tool '" +:+ td_name definition +:+ "' timed out after " +:+
                               show_u64 timeout +:+ "ms")
               | _, _, _ => tf_answer fate arguments
               end
           end
       | None => error_text ("Tool '" +:+ call_name +:+ "' is not registered")
       end.

(** The joined task: [handle.await] with its [JoinError] arm. *)
Definition join_tool_task (call : ToolCall Value) (registered : option (ToolDefinition Value))
    (tool_timeout : option N) (token : bool) (fate : TaskFate) : ToolExecutionResult :=
  match tf_panic fate with
  | Some error =>
      error_text ("tool '" +:+ tool_call_name call +:+ "' execution task failed: " +:+ error)
  | None => execute_tool_call_inner call registered tool_timeout token fate
  end.

(** ** A successful result is the registered tool's answer to validated arguments *)

Lemma join_tool_task_ok call registered timeout token fate :
  tr_is_error (join_tool_task call registered timeout token fate) = false →
  ∃ definition iter_errors,
    registered = Some definition ∧ tf_panic fate = None ∧
    validator_for (td_parameters definition) = Ok iter_errors ∧
    iter_errors (normalize_tool_arguments (tool_call_arguments call)) = [] ∧
    join_tool_task call registered timeout token fate =
      tf_answer fate (normalize_tool_arguments (tool_call_arguments call)).
Proof.
  unfold join_tool_task. destruct (tf_panic fate); [done|].
  unfold execute_tool_call_inner. destruct (token && tf_start_cancelled fate); [done|].
  destruct registered as [definition|]; [|done].
  unfold validate_tool_arguments.
  destruct (validator_for _) as [errs|] eqn:Hv; [|done].
  destruct (errs _) eqn:He; [|done].
  intros Hok. exists definition, errs. split_and!; try done.
  by destruct (tf_interrupt fate) as [[]|], token, timeout.
Qed.
End tools.
