(* ===== verification/Processes.v ===== *)
(** * Supervised processes ([tau-agent-core], [process_types.rs])

    Process roles with their runtime profiles, and the process manager: a shared
    map of snapshots, changed by spawning, cancelling and the completion of the
    spawned task.  Each operation holds the map's mutex, so it is one step; the
    clock is an argument.  At the end, the cancellation token of [lib.rs] under
    interleaving. *)

From Stdlib Require Import NArith Lia.
From stdpp Require Import base gmap strings list relations.
From S2P Require Import Prelude RustStr.

#[local] Open Scope string_scope.
#[local] Open Scope list_scope.

Inductive ProcessType := Channel | Branch | Worker | Compactor | Cortex.

#[export] Instance ProcessType_eq_dec : EqDecision ProcessType.
Proof. solve_decision. Defined.

Definition process_type_as_str (t : ProcessType) : string :=
  match t with
  | Channel => "channel" | Branch => "branch" | Worker => "worker"
  | Compactor => "compactor" | Cortex => "cortex"
  end.

Record ProcessRuntimeProfile := mkProfile
  { pf_process_type : ProcessType;
    pf_system_prompt : string;
    pf_max_turns : nat;
    pf_max_context_messages : option nat;
    pf_tool_allowlist : list string }.

(** [ProcessRuntimeProfile::for_type] *)
Definition profile_for_type (t : ProcessType) : ProcessRuntimeProfile :=
  match t with
  | Channel =>
      mkProfile t "You are the channel coordinator process." 8 (Some 256)
        ["branch"; "worker"; "memory_search"; "memory_write"; "react"; "send_file"]
  | Branch =>
      mkProfile t "You are the branch reasoning process." 12 (Some 160)
        ["memory_search"; "memory_write"]
  | Worker =>
      mkProfile t "You are the worker execution process." 25 (Some 96)
        ["memory_search"; "memory_write"]
  | Compactor =>
      mkProfile t "You are the context compactor process." 4 (Some 128)
        ["memory_search"; "memory_write"]
  | Cortex =>
      mkProfile t "You are the cross-session cortex observer process." 6 (Some 192)
        ["memory_search"; "memory_write"]
  end.

Record ProcessSpawnSpec := mkSpawnSpec
  { ss_process_id : string;
    ss_process_type : ProcessType;
    ss_parent_process_id : option string;
    ss_session_key : option string;
    ss_runtime_profile : ProcessRuntimeProfile }.

Definition spawn_spec_new (process_id : string) (t : ProcessType) : ProcessSpawnSpec :=
  mkSpawnSpec process_id t None None (profile_for_type t).
Definition with_parent_process_id (parent : string) (s : ProcessSpawnSpec) : ProcessSpawnSpec :=
  mkSpawnSpec (ss_process_id s) (ss_process_type s) (Some parent) (ss_session_key s)
    (ss_runtime_profile s).
Definition with_session_key (key : string) (s : ProcessSpawnSpec) : ProcessSpawnSpec :=
  mkSpawnSpec (ss_process_id s) (ss_process_type s) (ss_parent_process_id s) (Some key)
    (ss_runtime_profile s).
Definition with_runtime_profile (profile : ProcessRuntimeProfile) (s : ProcessSpawnSpec)
    : ProcessSpawnSpec :=
  mkSpawnSpec (ss_process_id s) (ss_process_type s) (ss_parent_process_id s) (ss_session_key s)
    profile.

Inductive ProcessLifecycleState := Pending | Running | Completed | Failed | Cancelled.

#[export] Instance ProcessLifecycleState_eq_dec : EqDecision ProcessLifecycleState.
Proof. solve_decision. Defined.

Record ProcessSnapshot := mkSnapshot
  { sn_process_id : string;
    sn_process_type : ProcessType;
    sn_parent_process_id : option string;
    sn_session_key : option string;
    sn_state : ProcessLifecycleState;
    sn_started_unix_ms : option N;
    sn_finished_unix_ms : option N;
    sn_error : option string }.

Definition snapshot_end (state : ProcessLifecycleState) (error : option string) (now : N)
    (s : ProcessSnapshot) : ProcessSnapshot :=
  mkSnapshot (sn_process_id s) (sn_process_type s) (sn_parent_process_id s) (sn_session_key s)
    state (sn_started_unix_ms s) (Some now) error.

Inductive ProcessManagerError :=
| MissingProcessId
| DuplicateProcessId (process_id : string).

Abbreviation Snapshots := (gmap string ProcessSnapshot).

(** [spawn_supervised] up to the spawn: on success the task to run is the one of
    the returned process id. *)
Definition spawn_supervised (spec : ProcessSpawnSpec) (now : N) (snapshots : Snapshots)
    : Result ProcessManagerError string * Snapshots :=
  let process_id := trim (ss_process_id spec) in
  if is_empty process_id then (Err MissingProcessId, snapshots)
  else match snapshots !! process_id with
       | Some _ => (Err (DuplicateProcessId process_id), snapshots)
       | None =>
           (Ok process_id,
            <[process_id := mkSnapshot process_id (ss_process_type spec)
                (ss_parent_process_id spec) (ss_session_key spec) Running (Some now) None None]>
              snapshots)
       end.

Definition snapshots_sorted (snapshots : Snapshots) : list ProcessSnapshot :=
  sort_by (λ a b, String.leb (sn_process_id a) (sn_process_id b)) (map_to_list snapshots).*2.

Definition cancel (process_id : string) (now : N) (snapshots : Snapshots) : bool * Snapshots :=
  match snapshots !! process_id with
  | None => (false, snapshots)
  | Some snapshot =>
      match sn_state snapshot with
      | Completed | Failed | Cancelled => (false, snapshots)
      | Pending | Running =>
          (true, <[process_id := snapshot_end Cancelled None now snapshot]> snapshots)
      end
  end.

Definition complete_process (process_id : string) (result : Result string unit) (now : N)
    (snapshots : Snapshots) : Snapshots :=
  match snapshots !! process_id with
  | None => snapshots
  | Some snapshot =>
      if bool_decide (sn_state snapshot = Cancelled) then snapshots
      else <[process_id := match result with
                           | Ok _ => snapshot_end Completed None now snapshot
                           | Err error => snapshot_end Failed (Some error) now snapshot
                           end]> snapshots
  end.

(** ** The manager as a state machine *)

(** The shared map, and the spawned tasks that have not called
    [complete_process] yet. *)
Record Manager := mkManager { mg_snapshots : Snapshots; mg_tasks : list string }.

Inductive manager_step : Manager → Manager → Prop :=
| step_spawn m spec now id snaps :
    spawn_supervised spec now (mg_snapshots m) = (Ok id, snaps) →
    manager_step m (mkManager snaps (id :: mg_tasks m))
| step_spawn_refused m spec now e snaps :
    spawn_supervised spec now (mg_snapshots m) = (Err e, snaps) →
    manager_step m (mkManager snaps (mg_tasks m))
| step_cancel m id now :
    manager_step m (mkManager (cancel id now (mg_snapshots m)).2 (mg_tasks m))
| step_complete m before id after result now :
    mg_tasks m = before ++ id :: after →
    manager_step m
      (mkManager (complete_process id result now (mg_snapshots m)) (before ++ after)).

Definition terminal (s : ProcessLifecycleState) : bool :=
  match s with Completed | Failed | Cancelled => true | Pending | Running => false end.

(** Well-formed managers: a snapshot is filed under its id; it has an end time
    exactly in a terminal state, an error exactly when failed; every running
    process has exactly one task that will complete it, and no task belongs to a
    completed or failed process. *)
Record manager_ok (m : Manager) : Prop := {
  mo_id id s : mg_snapshots m !! id = Some s →
    sn_process_id s = id ∧ id ≠ "" ∧ sn_state s ≠ Pending ∧
    (is_Some (sn_finished_unix_ms s) ↔ terminal (sn_state s) = true) ∧
    (is_Some (sn_error s) ↔ sn_state s = Failed);
  mo_tasks_nodup : NoDup (mg_tasks m);
  mo_tasks id : id ∈ mg_tasks m →
    ∃ s, mg_snapshots m !! id = Some s ∧ (sn_state s = Running ∨ sn_state s = Cancelled);
  mo_running id s : mg_snapshots m !! id = Some s → sn_state s = Running → id ∈ mg_tasks m }.

Lemma manager_step_ok m m' : manager_ok m → manager_step m m' → manager_ok m'.
Proof.
  intros Hok Hstep. destruct Hok as [Hid Hnd Htasks Hrun].
  destruct Hstep as [m spec now id snaps Hs|m spec now e snaps Hs|m id now|m before id after result now Heq].
  - unfold spawn_supervised in Hs. destruct (is_empty _) eqn:He; [done|].
    destruct (mg_snapshots m !! _) eqn:Hl; [done|]. injection Hs as <- <-.
    apply is_empty_false in He. set (id := trim _) in *.
    split; cbn.
    + intros i s [[<- <-]|[_ Hi]]%lookup_insert_Some; [|by apply Hid].
      cbn. unfold is_Some. naive_solver.
    + constructor; [|done]. intros (s & Hs & _)%Htasks. congruence.
    + intros i [->|Hi]%elem_of_cons.
      * rewrite lookup_insert_eq. eexists. split; [done|by left].
      * destruct (Htasks i Hi) as (s & Hs & Hst). exists s. split; [|done].
        rewrite lookup_insert_ne; [done|]. intros <-. congruence.
    + intros i s [[<- <-]|[_ Hi]]%lookup_insert_Some Hst; [left|right]. eauto.
  - assert (snaps = mg_snapshots m) as ->.
    { unfold spawn_supervised in Hs. repeat case_match; congruence. }
    by split.
  - unfold cancel. destruct (mg_snapshots m !! id) as [s|] eqn:Hl; [|by split].
    destruct (Hid id s Hl) as (Hsid & Hne & Hnp & _).
    assert (terminal (sn_state s) = false ∨ terminal (sn_state s) = true) as [Ht|Ht]
      by (destruct (terminal (sn_state s)); auto).
    2: { by destruct (sn_state s); try done; split. }
    replace (match sn_state s with Completed | Failed | Cancelled => _ | _ => _ end) with
      (true, <[id := snapshot_end Cancelled None now s]> (mg_snapshots m))
      by (by destruct (sn_state s)).
    cbn [snd]. split; cbn; [| done | |].
    + intros i s' [[<- <-]|[_ Hi]]%lookup_insert_Some; [|by apply Hid].
      cbn. unfold is_Some. naive_solver.
    + intros i Hi. destruct (decide (i = id)) as [->|Hn].
      * rewrite lookup_insert_eq. eexists. split; [done|by right].
      * rewrite lookup_insert_ne by done. by apply Htasks.
    + intros i s' [[<- <-]|[_ Hi]]%lookup_insert_Some; [done|]. by apply Hrun.
  - rewrite Heq in Hnd.
    assert (id ∉ before ++ after) as Hnotin.
    { apply NoDup_app in Hnd as (_ & Hd & [Hni _]%NoDup_cons). rewrite elem_of_app.
      intros [Hb|Ha]; [by apply (Hd id Hb); left|done]. }
    assert (NoDup (before ++ after)) as Hnd'.
    { apply NoDup_app in Hnd as (? & Hd & [_ ?]%NoDup_cons). apply NoDup_app.
      split_and!; [done| |done]. intros x Hx Hx'. by apply (Hd x Hx); right. }
    assert (∀ i, i ∈ before ++ after → i ∈ mg_tasks m) as Hsub.
    { intros i. rewrite Heq, !elem_of_app, elem_of_cons. tauto. }
    destruct (Htasks id) as (s & Hl & Hst); [rewrite Heq; set_solver|].
    destruct (Hid id s Hl) as (Hsid & Hne & _). unfold complete_process. rewrite Hl.
    case_bool_decide as Hc.
    + split; cbn; [done|done|auto|]. intros i s' Hi Hr.
      pose proof (Hrun i s' Hi Hr) as Hin. rewrite Heq, elem_of_app, elem_of_cons in Hin.
      rewrite elem_of_app. destruct Hin as [|[->|]]; [by left| |by right]. congruence.
    + assert (∀ i, i ≠ id → i ∈ mg_tasks m → i ∈ before ++ after) as Hback.
      { intros i Hn. rewrite Heq, !elem_of_app, elem_of_cons. naive_solver. }
      split; cbn; [|done| |].
      * intros i s' [[<- <-]|[_ Hi]]%lookup_insert_Some; [|by apply Hid].
        destruct result; cbn; unfold is_Some; naive_solver.
      * intros i Hi. rewrite lookup_insert_ne; [|intros <-; done]. by apply Htasks, Hsub.
      * intros i s' [[<- <-]|[Hn Hi]]%lookup_insert_Some; [by destruct result|].
        intros Hr. apply Hback; [congruence|]. by apply (Hrun i s').
Qed.

(** A snapshot survives a step, and unchanged if it is terminal. *)
Lemma manager_step_keeps m m' id s :
  manager_ok m → manager_step m m' → mg_snapshots m !! id = Some s →
  ∃ s', mg_snapshots m' !! id = Some s' ∧ (terminal (sn_state s) = true → s' = s).
Proof.
  intros Hok Hstep Hl.
  destruct Hstep as [m spec now id' snaps Hs|m spec now e snaps Hs|m id' now|m before id' after result now Heq].
  - unfold spawn_supervised in Hs. destruct (is_empty _); [done|].
    destruct (mg_snapshots m !! trim _) eqn:Hn; [done|]. injection Hs as <- <-.
    exists s. cbn. rewrite lookup_insert_ne; [done|]. intros Hi. rewrite Hi in Hn. congruence.
  - unfold spawn_supervised in Hs. exists s. repeat case_match; simplify_eq; done.
  - cbn. unfold cancel. destruct (mg_snapshots m !! id') as [s0|] eqn:Hn; [|by exists s].
    destruct (decide (id = id')) as [->|Hne].
    + rewrite Hl in Hn. injection Hn as <-.
      destruct (sn_state s) eqn:Hst; cbn; rewrite ?lookup_insert_eq; by eexists.
    + exists s. destruct (sn_state s0); cbn; rewrite ?lookup_insert_ne by done; done.
  - cbn. destruct (mo_tasks _ Hok id') as (s0 & Hs0 & Hst0); [rewrite Heq; set_solver|].
    unfold complete_process. rewrite Hs0. case_bool_decide; [by exists s|].
    destruct (decide (id = id')) as [->|Hne].
    + rewrite Hl in Hs0. injection Hs0 as <-. rewrite lookup_insert_eq. eexists. split; [done|].
      destruct Hst0 as [Hst|Hst]; rewrite Hst; naive_solver.
    + exists s. rewrite lookup_insert_ne by done. done.
Qed.

(** Supervised processes end once: in every state the process manager reaches
    through spawns, cancellations and task completions in any order, each record is
    well formed (an end time exactly when it is terminal, an error exactly when it
    failed, one pending task per running process), and from then on no record
    disappears and a completed, failed or cancelled record never changes, not even
    when the task of a cancelled process finishes. *)
Theorem process_states_final (m m' : Manager) (id : string) (s : ProcessSnapshot) :
  rtc manager_step (mkManager ∅ []) m → rtc manager_step m m' →
  mg_snapshots m !! id = Some s →
  manager_ok m' ∧
  ∃ s', mg_snapshots m' !! id = Some s' ∧ (terminal (sn_state s) = true → s' = s).
Proof.
  intros Hreach Hsteps Hl.
  assert (manager_ok (mkManager ∅ [])) as Hinit.
  { split; cbn; [done|constructor|by intros ? ?%elem_of_nil|done]. }
  assert (manager_ok m) as Hok by (clear -Hreach Hinit; induction Hreach; eauto using manager_step_ok).
  clear Hreach Hinit. revert s Hl.
  induction Hsteps as [m|m m1 m' H1 _ IH]; intros s Hl; [by eauto|].
  destruct (manager_step_keeps _ _ _ _ Hok H1 Hl) as (s1 & Hs1 & Hk1).
  destruct (IH (manager_step_ok _ _ Hok H1) s1 Hs1) as (Hok' & s' & Hs' & Hk').
  split; [done|]. exists s'. split; [done|]. intros Ht.
  specialize (Hk1 Ht) as ->. by apply Hk'.
Qed.

Definition sample_spec : ProcessSpawnSpec := spawn_spec_new " w-1 " Worker.
Definition sample_running : Manager :=
  mkManager (spawn_supervised sample_spec 10 ∅).2 ["w-1"].
Definition sample_cancelled : Manager :=
  mkManager (cancel "w-1" 20 (mg_snapshots sample_running)).2 ["w-1"].

Lemma process_states_final_witness :
  ∃ s', complete_process "w-1" (Ok tt) 30 (mg_snapshots sample_cancelled) !! "w-1" = Some s' ∧
    sn_state s' = Cancelled ∧ sn_finished_unix_ms s' = Some 20%N.
Proof.
  assert (manager_step (mkManager ∅ []) sample_running) as H1
    by (apply (step_spawn (mkManager ∅ []) sample_spec 10 "w-1"); reflexivity).
  assert (manager_step sample_running sample_cancelled) as H2
    by (apply (step_cancel sample_running "w-1" 20)).
  assert (manager_step sample_cancelled
    (mkManager (complete_process "w-1" (Ok tt) 30 (mg_snapshots sample_cancelled)) [])) as H3
    by (apply (step_complete sample_cancelled [] "w-1" []); reflexivity).
  destruct (process_states_final sample_cancelled _ "w-1"
    (mkSnapshot "w-1" Worker None None Cancelled (Some 10%N) (Some 20%N) None)
    (rtc_l _ _ _ _ H1 (rtc_once _ _ H2)) (rtc_once _ _ H3) eq_refl) as (_ & s' & Hs' & Heq).
  exists s'. split; [exact Hs'|]. rewrite (Heq eq_refl). split; reflexivity.
Defined.

(** ** The cancellation token

    [CooperativeCancellationToken] is a flag and a [tokio] notifier.  [cancel]
    swaps the flag and then wakes the waiters; [cancelled] reads the flag and then
    waits for a wake-up.  A wake-up reaches the tasks that wait when it is sent
    and is not remembered (the documented behaviour of [notify_waiters]).  The
    model interleaves one canceller with one waiter, one atomic step at a time. *)

(** Where [cancel] and [cancelled] are. *)
Inductive CancelPc := CIdle | CSwapped (already : bool) | CDone.
Inductive WaitPc := WStart | WChecked | WWaiting | WReturned.

#[export] Instance CancelPc_eq_dec : EqDecision CancelPc.
Proof. solve_decision. Defined.
#[export] Instance WaitPc_eq_dec : EqDecision WaitPc.
Proof. solve_decision. Defined.

Record TokenState := mkToken { tk_flag : bool; tk_cancel : CancelPc; tk_wait : WaitPc }.

Definition token_new : TokenState := mkToken false CIdle WStart.

(** [is_cancelled] *)
Definition token_is_cancelled (t : TokenState) : bool := tk_flag t.

(** [notify_waiters] *)
Definition wake (w : WaitPc) : WaitPc := match w with WWaiting => WReturned | _ => w end.

(** The steps of [cancel]. *)
Definition cancel_step (t : TokenState) : option TokenState :=
  match tk_cancel t with
  | CIdle => Some (mkToken true (CSwapped (tk_flag t)) (tk_wait t))
  | CSwapped already =>
      Some (mkToken (tk_flag t) CDone (if already then tk_wait t else wake (tk_wait t)))
  | CDone => None
  end.

(** The steps of [cancelled]. *)
Definition wait_step (t : TokenState) : option TokenState :=
  match tk_wait t with
  | WStart => Some (mkToken (tk_flag t) (tk_cancel t) (if token_is_cancelled t then WReturned else WChecked))
  | WChecked => Some (mkToken (tk_flag t) (tk_cancel t) WWaiting)
  | WWaiting | WReturned => None
  end.

Inductive token_step : TokenState → TokenState → Prop :=
| token_cancel t t' : cancel_step t = Some t' → token_step t t'
| token_wait t t' : wait_step t = Some t' → token_step t t'.

(** The flag is set once [cancel] has begun, and before the waiter returns. *)
Definition token_ok (t : TokenState) : Prop :=
  (tk_cancel t ≠ CIdle → tk_flag t = true) ∧ (tk_wait t = WReturned → tk_flag t = true).

Lemma token_step_ok t t' : token_ok t → token_step t t' → token_ok t'.
Proof.
  intros [H1 H2] Hs. destruct Hs as [[flag [|[]|] []] ? Hs|[[] c []] ? Hs]; cbn in *;
    simplify_eq; split; cbn; intros; auto; try done; by apply H1.
Qed.

(** The waiter returns only once the token is cancelled. *)
Lemma waiter_returns_cancelled t :
  rtc token_step token_new t → tk_wait t = WReturned → token_is_cancelled t = true.
Proof.
  intros Hr. assert (token_ok t) as [_ H]; [|exact H].
  assert (token_ok token_new) as Hinit by done. revert Hinit.
  induction Hr as [|x y z Hs _ IH]; [done|]. intros Hx. by eapply IH, token_step_ok.
Qed.

(** The wake-up can be lost: cancelled between its check and its wait, the waiter
    waits for ever, although the token is cancelled and the canceller is done. *)
Lemma cancellation_wakeup_lost :
  ∃ t, rtc token_step token_new t ∧ token_is_cancelled t = true ∧
       tk_cancel t = CDone ∧ tk_wait t = WWaiting ∧ ∀ t', ¬ token_step t t'.
Proof.
  exists (mkToken true CDone WWaiting). split_and!; try done.
  - eapply rtc_l; [by apply token_wait|]. cbn.
    eapply rtc_l; [by apply token_cancel|]. cbn.
    eapply rtc_l; [by apply token_cancel|]. cbn.
    eapply rtc_l; [by apply token_wait|]. cbn. reflexivity.
  - intros t' Hs. inversion Hs as [? ? Hx|? ? Hx]; discriminate Hx.
Qed.
