(* ===== verification/AgentEnv.v ===== *)
(** * The agent's configuration, events, errors and environment ([tau-agent-core], [lib.rs])

    Everything the agent does not decide itself (whether the token is cancelled,
    what a provider answers, how a tool task ends, what an embedding is) comes
    from an [AgentEnv] on a world it may change. *)

From Stdlib Require Import NArith ZArith Ascii.
From Stdlib.Floats Require Import SpecFloat.
From stdpp Require Import base gmap strings list.
From S2P Require Import Prelude RustStr Json Messages ChatTypes Safety Effects AgentTurn AgentTools AgentCache Processes.

#[local] Open Scope string_scope.
#[local] Open Scope list_scope.

(** [0.55f32] *)
Definition f32_0_55 : f32 := S754_finite false 9227469 (-24).
(** [f32::EPSILON], 2^-23 *)
Definition f32_epsilon : f32 := S754_finite false 8388608 (-46).

Record AgentConfig := mkConfig
  { c_agent_id : string;
    c_model : string;
    c_system_prompt : string;
    c_max_turns : nat;
    c_temperature : option f32;
    c_max_tokens : option N;
    c_max_parallel_tool_calls : nat;
    c_max_context_messages : option nat;
    c_request_max_retries : nat;
    c_request_retry_initial_backoff_ms : N;
    c_request_retry_max_backoff_ms : N;
    c_stream_retry_with_buffering : bool;
    c_request_timeout_ms : option N;
    c_tool_timeout_ms : option N;
    c_max_estimated_input_tokens : option N;
    c_max_estimated_total_tokens : option N;
    c_context_compaction_warn_threshold_percent : N;
    c_context_compaction_aggressive_threshold_percent : N;
    c_context_compaction_emergency_threshold_percent : N;
    c_context_compaction_warn_retain_percent : N;
    c_context_compaction_aggressive_retain_percent : N;
    c_context_compaction_emergency_retain_percent : N;
    c_structured_output_max_retries : nat;
    c_react_max_replans_on_tool_failure : nat;
    c_max_concurrent_branches_per_session : nat;
    c_memory_retrieval_limit : nat;
    c_memory_embedding_dimensions : nat;
    c_memory_min_similarity : f32;
    c_memory_max_chars_per_item : nat;
    c_memory_embedding_model : option string;
    c_memory_embedding_api_base : option string;
    c_memory_embedding_api_key : option string;
    c_response_cache_enabled : bool;
    c_response_cache_max_entries : nat;
    c_tool_result_cache_enabled : bool;
    c_tool_result_cache_max_entries : nat;
    c_model_input_cost_per_million : option f64;
    c_model_cached_input_cost_per_million : option f64;
    c_model_output_cost_per_million : option f64;
    c_cost_budget_usd : option f64;
    c_cost_alert_thresholds_percent : list N;
    c_async_event_queue_capacity : nat;
    c_async_event_handler_timeout_ms : option N;
    c_async_event_block_on_full : bool }.

Definition agent_config_default : AgentConfig :=
  mkConfig "tau-agent" "gpt-4o-mini" "You are a helpful coding assistant." 8%nat
    (Some f64_zero) None 4%nat (Some 256)%nat 2%nat 200%N 2000%N true (Some 120000)%N
    (Some 120000)%N (Some 120000)%N None 80%N 85%N 95%N 70%N 50%N 50%N 1%nat 1%nat
    2%nat 3%nat 128%nat f32_0_55 180%nat None None None true 128%nat true 256%nat
    None None None None [80; 100]%N 128%nat (Some 5000)%N false.

Definition set_c_model (v : string) (c : AgentConfig) : AgentConfig :=
  mkConfig (c_agent_id c) v (c_system_prompt c) (c_max_turns c) (c_temperature c)
    (c_max_tokens c) (c_max_parallel_tool_calls c) (c_max_context_messages c)
    (c_request_max_retries c) (c_request_retry_initial_backoff_ms c)
    (c_request_retry_max_backoff_ms c) (c_stream_retry_with_buffering c)
    (c_request_timeout_ms c) (c_tool_timeout_ms c) (c_max_estimated_input_tokens c)
    (c_max_estimated_total_tokens c) (c_context_compaction_warn_threshold_percent c)
    (c_context_compaction_aggressive_threshold_percent c)
    (c_context_compaction_emergency_threshold_percent c)
    (c_context_compaction_warn_retain_percent c)
    (c_context_compaction_aggressive_retain_percent c)
    (c_context_compaction_emergency_retain_percent c) (c_structured_output_max_retries c)
    (c_react_max_replans_on_tool_failure c) (c_max_concurrent_branches_per_session c)
    (c_memory_retrieval_limit c) (c_memory_embedding_dimensions c)
    (c_memory_min_similarity c) (c_memory_max_chars_per_item c)
    (c_memory_embedding_model c) (c_memory_embedding_api_base c)
    (c_memory_embedding_api_key c) (c_response_cache_enabled c)
    (c_response_cache_max_entries c) (c_tool_result_cache_enabled c)
    (c_tool_result_cache_max_entries c) (c_model_input_cost_per_million c)
    (c_model_cached_input_cost_per_million c) (c_model_output_cost_per_million c)
    (c_cost_budget_usd c) (c_cost_alert_thresholds_percent c)
    (c_async_event_queue_capacity c) (c_async_event_handler_timeout_ms c)
    (c_async_event_block_on_full c).
Definition set_c_max_turns (v : nat) (c : AgentConfig) : AgentConfig :=
  mkConfig (c_agent_id c) (c_model c) (c_system_prompt c) v (c_temperature c) (c_max_tokens c)
    (c_max_parallel_tool_calls c) (c_max_context_messages c) (c_request_max_retries c)
    (c_request_retry_initial_backoff_ms c) (c_request_retry_max_backoff_ms c)
    (c_stream_retry_with_buffering c) (c_request_timeout_ms c) (c_tool_timeout_ms c)
    (c_max_estimated_input_tokens c) (c_max_estimated_total_tokens c)
    (c_context_compaction_warn_threshold_percent c)
    (c_context_compaction_aggressive_threshold_percent c)
    (c_context_compaction_emergency_threshold_percent c)
    (c_context_compaction_warn_retain_percent c)
    (c_context_compaction_aggressive_retain_percent c)
    (c_context_compaction_emergency_retain_percent c) (c_structured_output_max_retries c)
    (c_react_max_replans_on_tool_failure c) (c_max_concurrent_branches_per_session c)
    (c_memory_retrieval_limit c) (c_memory_embedding_dimensions c)
    (c_memory_min_similarity c) (c_memory_max_chars_per_item c)
    (c_memory_embedding_model c) (c_memory_embedding_api_base c)
    (c_memory_embedding_api_key c) (c_response_cache_enabled c)
    (c_response_cache_max_entries c) (c_tool_result_cache_enabled c)
    (c_tool_result_cache_max_entries c) (c_model_input_cost_per_million c)
    (c_model_cached_input_cost_per_million c) (c_model_output_cost_per_million c)
    (c_cost_budget_usd c) (c_cost_alert_thresholds_percent c)
    (c_async_event_queue_capacity c) (c_async_event_handler_timeout_ms c)
    (c_async_event_block_on_full c).
Definition set_c_max_estimated_input_tokens (v : option N) (c : AgentConfig) : AgentConfig :=
  mkConfig (c_agent_id c) (c_model c) (c_system_prompt c) (c_max_turns c) (c_temperature c) (c_max_tokens c)
    (c_max_parallel_tool_calls c) (c_max_context_messages c) (c_request_max_retries c)
    (c_request_retry_initial_backoff_ms c) (c_request_retry_max_backoff_ms c)
    (c_stream_retry_with_buffering c) (c_request_timeout_ms c) (c_tool_timeout_ms c)
    v (c_max_estimated_total_tokens c)
    (c_context_compaction_warn_threshold_percent c)
    (c_context_compaction_aggressive_threshold_percent c)
    (c_context_compaction_emergency_threshold_percent c)
    (c_context_compaction_warn_retain_percent c)
    (c_context_compaction_aggressive_retain_percent c)
    (c_context_compaction_emergency_retain_percent c) (c_structured_output_max_retries c)
    (c_react_max_replans_on_tool_failure c) (c_max_concurrent_branches_per_session c)
    (c_memory_retrieval_limit c) (c_memory_embedding_dimensions c)
    (c_memory_min_similarity c) (c_memory_max_chars_per_item c)
    (c_memory_embedding_model c) (c_memory_embedding_api_base c)
    (c_memory_embedding_api_key c) (c_response_cache_enabled c)
    (c_response_cache_max_entries c) (c_tool_result_cache_enabled c)
    (c_tool_result_cache_max_entries c) (c_model_input_cost_per_million c)
    (c_model_cached_input_cost_per_million c) (c_model_output_cost_per_million c)
    (c_cost_budget_usd c) (c_cost_alert_thresholds_percent c)
    (c_async_event_queue_capacity c) (c_async_event_handler_timeout_ms c)
    (c_async_event_block_on_full c).
Definition set_c_max_context_messages (v : option nat) (c : AgentConfig) : AgentConfig :=
  mkConfig (c_agent_id c) (c_model c) (c_system_prompt c) (c_max_turns c) (c_temperature c)
    (c_max_tokens c) (c_max_parallel_tool_calls c) v (c_request_max_retries c)
    (c_request_retry_initial_backoff_ms c) (c_request_retry_max_backoff_ms c)
    (c_stream_retry_with_buffering c) (c_request_timeout_ms c) (c_tool_timeout_ms c)
    (c_max_estimated_input_tokens c) (c_max_estimated_total_tokens c)
    (c_context_compaction_warn_threshold_percent c)
    (c_context_compaction_aggressive_threshold_percent c)
    (c_context_compaction_emergency_threshold_percent c)
    (c_context_compaction_warn_retain_percent c)
    (c_context_compaction_aggressive_retain_percent c)
    (c_context_compaction_emergency_retain_percent c) (c_structured_output_max_retries c)
    (c_react_max_replans_on_tool_failure c) (c_max_concurrent_branches_per_session c)
    (c_memory_retrieval_limit c) (c_memory_embedding_dimensions c)
    (c_memory_min_similarity c) (c_memory_max_chars_per_item c)
    (c_memory_embedding_model c) (c_memory_embedding_api_base c)
    (c_memory_embedding_api_key c) (c_response_cache_enabled c)
    (c_response_cache_max_entries c) (c_tool_result_cache_enabled c)
    (c_tool_result_cache_max_entries c) (c_model_input_cost_per_million c)
    (c_model_cached_input_cost_per_million c) (c_model_output_cost_per_million c)
    (c_cost_budget_usd c) (c_cost_alert_thresholds_percent c)
    (c_async_event_queue_capacity c) (c_async_event_handler_timeout_ms c)
    (c_async_event_block_on_full c).
Definition set_c_system_prompt (v : string) (c : AgentConfig) : AgentConfig :=
  mkConfig (c_agent_id c) (c_model c) v (c_max_turns c) (c_temperature c) (c_max_tokens c)
    (c_max_parallel_tool_calls c) (c_max_context_messages c) (c_request_max_retries c)
    (c_request_retry_initial_backoff_ms c) (c_request_retry_max_backoff_ms c)
    (c_stream_retry_with_buffering c) (c_request_timeout_ms c) (c_tool_timeout_ms c)
    (c_max_estimated_input_tokens c) (c_max_estimated_total_tokens c)
    (c_context_compaction_warn_threshold_percent c)
    (c_context_compaction_aggressive_threshold_percent c)
    (c_context_compaction_emergency_threshold_percent c)
    (c_context_compaction_warn_retain_percent c)
    (c_context_compaction_aggressive_retain_percent c)
    (c_context_compaction_emergency_retain_percent c) (c_structured_output_max_retries c)
    (c_react_max_replans_on_tool_failure c) (c_max_concurrent_branches_per_session c)
    (c_memory_retrieval_limit c) (c_memory_embedding_dimensions c)
    (c_memory_min_similarity c) (c_memory_max_chars_per_item c)
    (c_memory_embedding_model c) (c_memory_embedding_api_base c)
    (c_memory_embedding_api_key c) (c_response_cache_enabled c)
    (c_response_cache_max_entries c) (c_tool_result_cache_enabled c)
    (c_tool_result_cache_max_entries c) (c_model_input_cost_per_million c)
    (c_model_cached_input_cost_per_million c) (c_model_output_cost_per_million c)
    (c_cost_budget_usd c) (c_cost_alert_thresholds_percent c)
    (c_async_event_queue_capacity c) (c_async_event_handler_timeout_ms c)
    (c_async_event_block_on_full c).

Record AgentCostSnapshot := mkCostSnapshot
  { cs_input_tokens : N; cs_output_tokens : N; cs_total_tokens : N;
    cs_estimated_cost_usd : f64; cs_budget_usd : option f64; cs_budget_utilization : option f64 }.

Inductive AgentEvent :=
| AgentStart
| AgentEnd (new_messages : nat)
| TurnStart (turn : nat)
| TurnEnd (turn tool_results : nat) (request_duration_ms : N) (usage : ChatUsage)
    (finish_reason : option string)
| MessageAdded (message : Message Value)
| ToolExecutionStart (tool_call_id tool_name : string) (arguments : Value)
| ToolExecutionEnd (tool_call_id tool_name : string) (result : ToolExecutionResult)
| ReplanTriggered (turn : nat) (reason : string)
| CostUpdated (turn : nat) (turn_cost_usd cumulative_cost_usd : f64) (budget_usd : option f64)
| CostBudgetAlert (turn : nat) (threshold_percent : N) (cumulative_cost_usd budget_usd : f64)
| SafetyPolicyApplied (stage : SafetyStage) (mode : SafetyMode) (blocked : bool)
    (matched_rules reason_codes : list string).

Inductive AgentError :=
| AiError (error : TauAiError)
| CancelledError
| MaxTurnsExceeded (max_turns : nat)
| RequestTimeout (timeout_ms : N) (attempt : nat)
| TokenBudgetExceeded (estimated_input_tokens max_input_tokens estimated_total_tokens
    max_total_tokens : N)
| StructuredOutput (error : string)
| SafetyViolation (stage : string) (codes : list string).

Inductive AgentDirectMessageError :=
| UnauthorizedRoute (from_agent_id to_agent_id : string)
| EmptyContent
| MessageTooLong (actual_chars max_chars : nat)
| DirectSafetyViolation (codes : list string).

(** ** Direct messages *)

Record AgentDirectMessagePolicy := mkDirectPolicy
  { allow_self_messages : bool; max_message_chars : nat; allowed_routes : gset (string * string) }.

Definition direct_policy_default : AgentDirectMessagePolicy := mkDirectPolicy false 4000 ∅.

Definition allow_route (from_agent_id to_agent_id : string) (p : AgentDirectMessagePolicy)
    : AgentDirectMessagePolicy :=
  mkDirectPolicy (allow_self_messages p) (max_message_chars p)
    ({[(from_agent_id, to_agent_id)]} ∪ allowed_routes p).

Definition allow_bidirectional_route (left right : string) (p : AgentDirectMessagePolicy)
    : AgentDirectMessagePolicy :=
  allow_route right left (allow_route left right p).

Definition allows (p : AgentDirectMessagePolicy) (from_agent_id to_agent_id : string) : bool :=
  if String.eqb from_agent_id to_agent_id then allow_self_messages p
  else bool_decide ((from_agent_id, to_agent_id) ∈ allowed_routes p).

Definition normalize_direct_message_content (content : string) (max_chars : nat)
    : Result AgentDirectMessageError string :=
  let normalized := trim content in
  if is_empty normalized then Err EmptyContent
  else
    let actual_chars := chars_count normalized in
    if (max_chars <? actual_chars)%nat then Err (MessageTooLong actual_chars max_chars)
    else Ok normalized.

(** ** The environment *)

(** One call of [complete_with_stream]: the deltas it hands out, what interrupts
    it first, if anything does, and what it returns otherwise. *)
Record Attempt := mkAttempt
  { at_deltas : list string;
    at_interrupt : option Interrupt;
    at_result : Result TauAiError (ChatResponse Value) }.

(** The state of the background compaction task when it is polled: still running,
    gone without an answer, or done with the answer of its model call, if it made
    one that succeeded in time. *)
Inductive BriefPoll := BriefPending | BriefGone | BriefDone (brief : option (ChatResponse Value)).

Class AgentEnv := {
  World : Type;
  ToolImpl : Type;
  (** [token.is_cancelled()] *)
  poll_cancelled : World → bool * World;
  (** [Instant::elapsed] since the request started, in milliseconds *)
  elapsed_ms : World → N * World;
  unix_ms : World → N;
  client_attempt : ChatRequest Value → bool → World → Attempt * World;
  (** a sleep of so many milliseconds; whether the token is cancelled meanwhile *)
  sleep_ms : N → World → bool * World;
  spawn_task : ToolCall Value → option (ToolDefinition Value * ToolImpl) → World → World;
  join_task : ToolCall Value → option (ToolDefinition Value * ToolImpl) → World → TaskFate * World;
  poll_brief : World → BriefPoll * World;
  (** handing an event to the queue of one asynchronous handler, which may be
      full or closed *)
  send_event : nat → bool → AgentEvent → World → bool * World;
  (** the iteration order of the tool map *)
  tool_order : World → list (ToolDefinition Value) → list (ToolDefinition Value);
  (** [serde_json] on requests *)
  request_to_string : ChatRequest Value → option string;
  request_from_str : string → option (ChatRequest Value);
  (** [str::to_lowercase] *)
  to_lowercase : string → string;
  (** [tau-memory]: local embeddings, and those of the embedding service *)
  embed_text_vector : string → nat → list f32;
  cosine_similarity : list f32 → list f32 → f32;
  embed_text_vectors_via_api : string → string → string → list string → nat → World →
    Result string (list (list f32)) * World;
  (** [format!("{:.2}", score)] *)
  format_score : f32 → string }.

(** Iterating over the tools visits each of them. *)
Class AgentEnvLaws `(AE : AgentEnv) := {
  tool_order_perm w l : tool_order w l ≡ₚ l }.
