(* ===== verification/AgentState.v ===== *)
(** * The agent's state and its safety, cache and messaging operations ([tau-agent-core], [lib.rs])

    [Agent] has the fields of the struct that operations read or change.  [Sys] is
    what an agent shares with its forks and with the outside: the world, the
    events handed to subscribers, the requests handed to the client, the deltas
    handed to the caller, and the shared counters.  A method is a computation on
    both. *)

From Stdlib Require Import NArith ZArith Ascii.
From Stdlib.Floats Require Import SpecFloat.
From stdpp Require Import base gmap strings list.
From S2P Require Import Prelude RustStr Json Messages ChatTypes Safety Effects AgentTurn AgentTools AgentCache Processes AgentEnv.

#[local] Open Scope string_scope.
#[local] Open Scope list_scope.

Definition CONTEXT_SUMMARY_LLM_BRIEF_PREFIX : string := "llm_brief:".
Definition WARN_COMPACTION_LLM_BRIEF_MAX_CHARS : nat := 240.
Definition WARN_COMPACTION_LLM_SYSTEM_PROMPT : string :=
  "You summarize dropped chat context for compaction. Reply with one concise plain-text brief.".
Definition COMPACTION_ENTRY_PREFIX : string := "[Tau compaction entry]".
Definition COMPACTION_MEMORY_SAVE_PREFIX : string := "[Tau compaction memory save]".
Definition MEMORY_RECALL_PREFIX : string := "[Tau memory recall]".
Definition DIRECT_MESSAGE_PREFIX : string := "[Tau direct message]".
Definition REPLAN_ON_TOOL_FAILURE_PROMPT : string :=
  "One or more tool calls failed. Replan and continue with an alternative approach using available tools. If no viable tool exists, explain what is missing and ask the user for clarification.".
Definition TOOL_OUTPUT_BLOCKED_ERROR : string := "tool output blocked by safety policy".
Definition BRANCH_CONCLUSION_MAX_CHARS : nat := 4000.
Definition BRANCH_REASON_CODE_CREATED : string := "session_branch_created".
Definition BRANCH_REASON_CODE_READY : string := "branch_conclusion_ready".
Definition BRANCH_REASON_CODE_LIMIT_EXCEEDED : string := "branch_concurrency_limit_exceeded".
Definition BRANCH_REASON_CODE_EXECUTION_FAILED : string := "branch_execution_failed".
Definition BRANCH_REASON_CODE_PROMPT_MISSING : string := "branch_prompt_missing".
Definition FAILURE_SIGNAL_PHRASES : list string :=
  ["can't"; "cannot"; "could not"; "couldn't"; "unable"; "failed"; "failure"; "error";
   "not available"; "not possible"; "do not have"; "don't have"; "no tool"].

Record SafetyInspection := mkInspection
  { in_mode : SafetyMode; in_redacted_text : string; in_matched_rules : list string;
    in_reason_codes : list string }.

(** The receiver of a pending compaction is polled through the environment; the
    compaction settings are those its task was started with. *)
Record PendingWarnCompaction := mkPending
  { pw_source_messages : list (Message Value); pw_config : ContextCompactionConfig }.

Record ReadyWarnCompaction := mkReady
  { rw_source_messages : list (Message Value); rw_compacted_messages : list (Message Value) }.

Record WarnCompactionState := mkWarnState
  { wc_pending : option PendingWarnCompaction; wc_ready : option ReadyWarnCompaction }.

Definition warn_state_default : WarnCompactionState := mkWarnState None None.

Section agent.
Context `{JC : JsonCodec} `{JS : JsonSchema} `{AE : AgentEnv}.

Record RegisteredTool := mkRegistered
  { rt_definition : ToolDefinition Value; rt_tool : ToolImpl; rt_cacheable : bool }.

Record Agent := mkAgent
  { ag_config : AgentConfig;
    ag_agent_id : string;
    ag_messages : list (Message Value);
    ag_tools : gmap string RegisteredTool;
    ag_response_cache : gmap string (ChatResponse Value);
    ag_response_cache_order : list string;
    ag_tool_result_cache : gmap string ToolExecutionResult;
    ag_tool_result_cache_order : list string;
    ag_async_handlers : nat;
    ag_cancellation_token : bool;
    ag_safety_policy : SafetyPolicy;
    ag_sanitizer : string → string → SafetyScanResult;
    ag_leak_detector : string → string → SafetyScanResult;
    ag_cumulative_usage : ChatUsage;
    ag_cumulative_cost_usd : f64;
    ag_emitted_cost_alert_thresholds : list N;
    ag_skip_response_reason : option string;
    ag_warn_compaction_state : WarnCompactionState }.

Record Sys := mkSys
  { sys_world : World;
    sys_events : list AgentEvent;
    sys_enqueued : N;
    sys_dropped_full : N;
    sys_sent : list (ChatRequest Value);
    sys_background : list (ChatRequest Value);
    sys_deltas : list string;
    sys_branch_runs : nat;
    sys_process_counter : N }.

Definition set_ag_config (v : AgentConfig) (a : Agent) : Agent :=
  mkAgent v (ag_agent_id a) (ag_messages a) (ag_tools a) (ag_response_cache a)
    (ag_response_cache_order a) (ag_tool_result_cache a)
    (ag_tool_result_cache_order a) (ag_async_handlers a) (ag_cancellation_token a)
    (ag_safety_policy a) (ag_sanitizer a) (ag_leak_detector a)
    (ag_cumulative_usage a) (ag_cumulative_cost_usd a)
    (ag_emitted_cost_alert_thresholds a) (ag_skip_response_reason a)
    (ag_warn_compaction_state a).
Definition set_ag_agent_id (v : string) (a : Agent) : Agent :=
  mkAgent (ag_config a) v (ag_messages a) (ag_tools a) (ag_response_cache a)
    (ag_response_cache_order a) (ag_tool_result_cache a)
    (ag_tool_result_cache_order a) (ag_async_handlers a) (ag_cancellation_token a)
    (ag_safety_policy a) (ag_sanitizer a) (ag_leak_detector a)
    (ag_cumulative_usage a) (ag_cumulative_cost_usd a)
    (ag_emitted_cost_alert_thresholds a) (ag_skip_response_reason a)
    (ag_warn_compaction_state a).
Definition set_ag_messages (v : list (Message Value)) (a : Agent) : Agent :=
  mkAgent (ag_config a) (ag_agent_id a) v (ag_tools a) (ag_response_cache a)
    (ag_response_cache_order a) (ag_tool_result_cache a)
    (ag_tool_result_cache_order a) (ag_async_handlers a) (ag_cancellation_token a)
    (ag_safety_policy a) (ag_sanitizer a) (ag_leak_detector a)
    (ag_cumulative_usage a) (ag_cumulative_cost_usd a)
    (ag_emitted_cost_alert_thresholds a) (ag_skip_response_reason a)
    (ag_warn_compaction_state a).
Definition set_ag_tools (v : gmap string RegisteredTool) (a : Agent) : Agent :=
  mkAgent (ag_config a) (ag_agent_id a) (ag_messages a) v (ag_response_cache a)
    (ag_response_cache_order a) (ag_tool_result_cache a)
    (ag_tool_result_cache_order a) (ag_async_handlers a) (ag_cancellation_token a)
    (ag_safety_policy a) (ag_sanitizer a) (ag_leak_detector a)
    (ag_cumulative_usage a) (ag_cumulative_cost_usd a)
    (ag_emitted_cost_alert_thresholds a) (ag_skip_response_reason a)
    (ag_warn_compaction_state a).
Definition set_ag_response_cache (v : gmap string (ChatResponse Value)) (a : Agent) : Agent :=
  mkAgent (ag_config a) (ag_agent_id a) (ag_messages a) (ag_tools a) v
    (ag_response_cache_order a) (ag_tool_result_cache a)
    (ag_tool_result_cache_order a) (ag_async_handlers a) (ag_cancellation_token a)
    (ag_safety_policy a) (ag_sanitizer a) (ag_leak_detector a)
    (ag_cumulative_usage a) (ag_cumulative_cost_usd a)
    (ag_emitted_cost_alert_thresholds a) (ag_skip_response_reason a)
    (ag_warn_compaction_state a).
Definition set_ag_response_cache_order (v : list string) (a : Agent) : Agent :=
  mkAgent (ag_config a) (ag_agent_id a) (ag_messages a) (ag_tools a) (ag_response_cache a)
    v (ag_tool_result_cache a) (ag_tool_result_cache_order a) (ag_async_handlers a)
    (ag_cancellation_token a) (ag_safety_policy a) (ag_sanitizer a)
    (ag_leak_detector a) (ag_cumulative_usage a) (ag_cumulative_cost_usd a)
    (ag_emitted_cost_alert_thresholds a) (ag_skip_response_reason a)
    (ag_warn_compaction_state a).
Definition set_ag_tool_result_cache (v : gmap string ToolExecutionResult) (a : Agent) : Agent :=
  mkAgent (ag_config a) (ag_agent_id a) (ag_messages a) (ag_tools a) (ag_response_cache a)
    (ag_response_cache_order a) v (ag_tool_result_cache_order a)
    (ag_async_handlers a) (ag_cancellation_token a) (ag_safety_policy a)
    (ag_sanitizer a) (ag_leak_detector a) (ag_cumulative_usage a)
    (ag_cumulative_cost_usd a) (ag_emitted_cost_alert_thresholds a)
    (ag_skip_response_reason a) (ag_warn_compaction_state a).
Definition set_ag_tool_result_cache_order (v : list string) (a : Agent) : Agent :=
  mkAgent (ag_config a) (ag_agent_id a) (ag_messages a) (ag_tools a) (ag_response_cache a)
    (ag_response_cache_order a) (ag_tool_result_cache a) v (ag_async_handlers a)
    (ag_cancellation_token a) (ag_safety_policy a) (ag_sanitizer a)
    (ag_leak_detector a) (ag_cumulative_usage a) (ag_cumulative_cost_usd a)
    (ag_emitted_cost_alert_thresholds a) (ag_skip_response_reason a)
    (ag_warn_compaction_state a).
Definition set_ag_cancellation_token (v : bool) (a : Agent) : Agent :=
  mkAgent (ag_config a) (ag_agent_id a) (ag_messages a) (ag_tools a) (ag_response_cache a)
    (ag_response_cache_order a) (ag_tool_result_cache a)
    (ag_tool_result_cache_order a) (ag_async_handlers a) v (ag_safety_policy a)
    (ag_sanitizer a) (ag_leak_detector a) (ag_cumulative_usage a)
    (ag_cumulative_cost_usd a) (ag_emitted_cost_alert_thresholds a)
    (ag_skip_response_reason a) (ag_warn_compaction_state a).
Definition set_ag_safety_policy (v : SafetyPolicy) (a : Agent) : Agent :=
  mkAgent (ag_config a) (ag_agent_id a) (ag_messages a) (ag_tools a) (ag_response_cache a)
    (ag_response_cache_order a) (ag_tool_result_cache a)
    (ag_tool_result_cache_order a) (ag_async_handlers a) (ag_cancellation_token a) v
    (ag_sanitizer a) (ag_leak_detector a) (ag_cumulative_usage a)
    (ag_cumulative_cost_usd a) (ag_emitted_cost_alert_thresholds a)
    (ag_skip_response_reason a) (ag_warn_compaction_state a).
Definition set_ag_cumulative_usage (v : ChatUsage) (a : Agent) : Agent :=
  mkAgent (ag_config a) (ag_agent_id a) (ag_messages a) (ag_tools a) (ag_response_cache a)
    (ag_response_cache_order a) (ag_tool_result_cache a)
    (ag_tool_result_cache_order a) (ag_async_handlers a) (ag_cancellation_token a)
    (ag_safety_policy a) (ag_sanitizer a) (ag_leak_detector a) v
    (ag_cumulative_cost_usd a) (ag_emitted_cost_alert_thresholds a)
    (ag_skip_response_reason a) (ag_warn_compaction_state a).
Definition set_ag_cumulative_cost_usd (v : f64) (a : Agent) : Agent :=
  mkAgent (ag_config a) (ag_agent_id a) (ag_messages a) (ag_tools a) (ag_response_cache a)
    (ag_response_cache_order a) (ag_tool_result_cache a)
    (ag_tool_result_cache_order a) (ag_async_handlers a) (ag_cancellation_token a)
    (ag_safety_policy a) (ag_sanitizer a) (ag_leak_detector a)
    (ag_cumulative_usage a) v (ag_emitted_cost_alert_thresholds a)
    (ag_skip_response_reason a) (ag_warn_compaction_state a).
Definition set_ag_emitted_cost_alert_thresholds (v : list N) (a : Agent) : Agent :=
  mkAgent (ag_config a) (ag_agent_id a) (ag_messages a) (ag_tools a) (ag_response_cache a)
    (ag_response_cache_order a) (ag_tool_result_cache a)
    (ag_tool_result_cache_order a) (ag_async_handlers a) (ag_cancellation_token a)
    (ag_safety_policy a) (ag_sanitizer a) (ag_leak_detector a)
    (ag_cumulative_usage a) (ag_cumulative_cost_usd a) v (ag_skip_response_reason a)
    (ag_warn_compaction_state a).
Definition set_ag_skip_response_reason (v : option string) (a : Agent) : Agent :=
  mkAgent (ag_config a) (ag_agent_id a) (ag_messages a) (ag_tools a) (ag_response_cache a)
    (ag_response_cache_order a) (ag_tool_result_cache a)
    (ag_tool_result_cache_order a) (ag_async_handlers a) (ag_cancellation_token a)
    (ag_safety_policy a) (ag_sanitizer a) (ag_leak_detector a)
    (ag_cumulative_usage a) (ag_cumulative_cost_usd a)
    (ag_emitted_cost_alert_thresholds a) v (ag_warn_compaction_state a).
Definition set_ag_warn_compaction_state (v : WarnCompactionState) (a : Agent) : Agent :=
  mkAgent (ag_config a) (ag_agent_id a) (ag_messages a) (ag_tools a) (ag_response_cache a)
    (ag_response_cache_order a) (ag_tool_result_cache a)
    (ag_tool_result_cache_order a) (ag_async_handlers a) (ag_cancellation_token a)
    (ag_safety_policy a) (ag_sanitizer a) (ag_leak_detector a)
    (ag_cumulative_usage a) (ag_cumulative_cost_usd a)
    (ag_emitted_cost_alert_thresholds a) (ag_skip_response_reason a) v.

Definition set_sys_world (v : World) (s : Sys) : Sys :=
  mkSys v (sys_events s) (sys_enqueued s) (sys_dropped_full s) (sys_sent s)
    (sys_background s) (sys_deltas s) (sys_branch_runs s) (sys_process_counter s).
Definition set_sys_events (v : list AgentEvent) (s : Sys) : Sys :=
  mkSys (sys_world s) v (sys_enqueued s) (sys_dropped_full s) (sys_sent s)
    (sys_background s) (sys_deltas s) (sys_branch_runs s) (sys_process_counter s).
Definition set_sys_enqueued (v : N) (s : Sys) : Sys :=
  mkSys (sys_world s) (sys_events s) v (sys_dropped_full s) (sys_sent s)
    (sys_background s) (sys_deltas s) (sys_branch_runs s) (sys_process_counter s).
Definition set_sys_dropped_full (v : N) (s : Sys) : Sys :=
  mkSys (sys_world s) (sys_events s) (sys_enqueued s) v (sys_sent s) (sys_background s)
    (sys_deltas s) (sys_branch_runs s) (sys_process_counter s).
Definition set_sys_sent (v : list (ChatRequest Value)) (s : Sys) : Sys :=
  mkSys (sys_world s) (sys_events s) (sys_enqueued s) (sys_dropped_full s) v
    (sys_background s) (sys_deltas s) (sys_branch_runs s) (sys_process_counter s).
Definition set_sys_background (v : list (ChatRequest Value)) (s : Sys) : Sys :=
  mkSys (sys_world s) (sys_events s) (sys_enqueued s) (sys_dropped_full s) (sys_sent s) v
    (sys_deltas s) (sys_branch_runs s) (sys_process_counter s).
Definition set_sys_deltas (v : list string) (s : Sys) : Sys :=
  mkSys (sys_world s) (sys_events s) (sys_enqueued s) (sys_dropped_full s) (sys_sent s)
    (sys_background s) v (sys_branch_runs s) (sys_process_counter s).
Definition set_sys_branch_runs (v : nat) (s : Sys) : Sys :=
  mkSys (sys_world s) (sys_events s) (sys_enqueued s) (sys_dropped_full s) (sys_sent s)
    (sys_background s) (sys_deltas s) v (sys_process_counter s).
Definition set_sys_process_counter (v : N) (s : Sys) : Sys :=
  mkSys (sys_world s) (sys_events s) (sys_enqueued s) (sys_dropped_full s) (sys_sent s)
    (sys_background s) (sys_deltas s) (sys_branch_runs s) v.

Definition St : Type := Agent * Sys.

(** Changing one of the two halves. *)
Definition on_agent {E} (f : Agent → Agent) : Eff St E unit := modify (λ st, (f st.1, st.2)).
Definition on_sys {E} (f : Sys → Sys) : Eff St E unit := modify (λ st, (st.1, f st.2)).
Definition ask {E A} (f : Agent → A) : Eff St E A := gets (λ st, f st.1).
(** A question to the world. *)
Definition world_op {E A} (f : World → A * World) : Eff St E A := λ st,
  let '(r, w) := f (sys_world st.2) in (Ok r, (st.1, set_sys_world w st.2)).

(** [Agent::new] *)
Definition agent_new (config : AgentConfig) (default_sanitizer default_leak_detector :
    string → string → SafetyScanResult) : Agent :=
  mkAgent config (c_agent_id config)
    (if is_empty (trim (c_system_prompt config)) then []
     else [message_system (c_system_prompt config)])
    ∅ ∅ [] ∅ [] 0 false safety_policy_default default_sanitizer default_leak_detector
    (mkChatUsage 0 0 0 0) f64_zero [] None warn_state_default.

(** ** Events *)

(** One asynchronous handler's queue; both counters wrap around. *)
Definition dispatch_async {E} (event : AgentEvent) (handler : nat) : Eff St E unit :=
  block ← ask (λ a, c_async_event_block_on_full (ag_config a));
  sent ← world_op (send_event handler block event);
  on_sys (λ s, if sent : bool then set_sys_enqueued (add_u64 (sys_enqueued s) 1) s
               else set_sys_dropped_full (add_u64 (sys_dropped_full s) 1) s).

Definition emit {E} (event : AgentEvent) : Eff St E unit :=
  _ ← on_sys (λ s, set_sys_events (sys_events s ++ [event]) s);
  handlers ← ask ag_async_handlers;
  each (dispatch_async event) (seq 0 handlers).

Definition push_message {E} (message : Message Value) : Eff St E unit :=
  on_agent (λ a, set_ag_messages (ag_messages a ++ [message]) a).

Definition is_cancelled {E} : Eff St E bool :=
  token ← ask ag_cancellation_token;
  if token : bool then world_op poll_cancelled else mret false.

(** [if self.is_cancelled() { return Err(Cancelled) }] *)
Definition check_cancelled : Eff St AgentError unit :=
  cancelled ← is_cancelled; fail_if cancelled CancelledError.

(** ** Safety *)

Definition prompt_safety_stage_enabled (p : SafetyPolicy) (stage : SafetyStage) : bool :=
  if negb (sp_enabled p) then false
  else match stage with
       | InboundMessage => apply_to_inbound_messages p
       | ToolOutput => apply_to_tool_outputs p
       | OutboundHttpPayload => false
       end.

Definition leak_stage_enabled (p : SafetyPolicy) (stage : SafetyStage) : bool :=
  if negb (secret_leak_detection_enabled p) then false
  else match stage with
       | InboundMessage => false
       | ToolOutput => apply_to_tool_outputs p
       | OutboundHttpPayload => apply_to_outbound_http_payloads p
       end.

Definition is_block (m : SafetyMode) : bool := match m with Block => true | _ => false end.

(** The scan, the event and the inspection both inspections end with. *)
Definition report_scan {E} (stage : SafetyStage) (mode : SafetyMode) (scan : SafetyScanResult)
    : Eff St E (option SafetyInspection) :=
  if negb (has_matches scan) then mret None
  else
    let matched_rules := matched_rule_ids scan in
    let codes := reason_codes scan in
    _ ← emit (SafetyPolicyApplied stage mode (is_block mode) matched_rules codes);
    mret (Some (mkInspection mode (redacted_text scan) matched_rules codes)).

Definition inspect_prompt_safety_text {E} (stage : SafetyStage) (text : string)
    : Eff St E (option SafetyInspection) :=
  a ← ask id;
  let p := ag_safety_policy a in
  if negb (prompt_safety_stage_enabled p stage) || is_empty (trim text) then mret None
  else report_scan stage (sp_mode p) (ag_sanitizer a text (redaction_token p)).

Definition inspect_secret_leak_text {E} (stage : SafetyStage) (text : string)
    : Eff St E (option SafetyInspection) :=
  a ← ask id;
  let p := ag_safety_policy a in
  if negb (leak_stage_enabled p stage) || is_empty (trim text) then mret None
  else report_scan stage (secret_leak_mode p)
         (ag_leak_detector a text (secret_leak_redaction_token p)).

Definition apply_safety_mode_to_text (text : string) (inspection : SafetyInspection)
    : Result (list string) string :=
  match in_mode inspection with
  | Warn => Ok text
  | Redact => Ok (in_redacted_text inspection)
  | Block => Err (in_reason_codes inspection)
  end.

Definition sanitize_inbound_text {E} (text : string) : Eff St E (Result (list string) string) :=
  inspection ← inspect_prompt_safety_text InboundMessage text;
  mret (match inspection with
        | None => Ok text
        | Some inspection => apply_safety_mode_to_text text inspection
        end).

Definition outbound_violation (codes : list string) : AgentError :=
  SafetyViolation (stage_as_str OutboundHttpPayload) codes.

(** Returns the request as it may be sent. *)
Definition sanitize_outbound_http_request (request : ChatRequest Value)
    : Eff St AgentError (ChatRequest Value) :=
  p ← ask ag_safety_policy;
  let fail_closed_on_unscannable_payload :=
    leak_stage_enabled p OutboundHttpPayload && bool_decide (secret_leak_mode p = Block) in
  let unscannable := ["secret_leak.payload_serialization_failed"] in
  _ ← fail_if (fail_closed_on_unscannable_payload &&
               match rq_temperature request with
               | Some temperature => negb (f64_is_finite temperature)
               | None => false
               end) (outbound_violation unscannable);
  match request_to_string request with
  | None =>
      _ ← fail_if fail_closed_on_unscannable_payload (outbound_violation unscannable);
      mret request
  | Some payload =>
      inspection ← inspect_secret_leak_text OutboundHttpPayload payload;
      match inspection with
      | None => mret request
      | Some inspection =>
          match in_mode inspection with
          | Warn => mret request
          | Redact =>
              of_result (ok_or
                (outbound_violation
                   (in_reason_codes inspection ++ ["secret_leak.redaction_failed"]))
                (request_from_str (in_redacted_text inspection)))
          | Block => fail (outbound_violation (in_reason_codes inspection))
          end
      end
  end.

Definition blocked_tool_output (inspection : SafetyInspection) (codes : list string)
    : ToolExecutionResult :=
  result_error (json_obj
    [("error", Str TOOL_OUTPUT_BLOCKED_ERROR);
     ("stage", Str (stage_as_str ToolOutput));
     ("matched_rules", Arr (Str <$> in_matched_rules inspection));
     ("reason_codes", Arr (Str <$> codes))]).

(** One inspection of a tool's text: the text to go on with, or the result that
    replaces the output. *)
Definition screen_tool_text (text : string) (inspection : option SafetyInspection)
    : Result ToolExecutionResult string :=
  match inspection with
  | None => Ok text
  | Some inspection =>
      match apply_safety_mode_to_text text inspection with
      | Ok updated => Ok updated
      | Err codes => Err (blocked_tool_output inspection codes)
      end
  end.

Definition sanitize_tool_result {E} (result : ToolExecutionResult)
    : Eff St E ToolExecutionResult :=
  let original_text := as_text result in
  prompt_inspection ← inspect_prompt_safety_text ToolOutput original_text;
  match screen_tool_text original_text prompt_inspection with
  | Err blocked => mret blocked
  | Ok text =>
      leak_inspection ← inspect_secret_leak_text ToolOutput text;
      match screen_tool_text text leak_inspection with
      | Err blocked => mret blocked
      | Ok text =>
          mret (if negb (String.eqb text original_text)
                then mkToolResult (Str text) (tr_is_error result) else result)
      end
  end.

(** ** Caches *)

(** [on_delta] says whether the caller streams. *)
Definition response_cache_eligible (c : AgentConfig) (request : ChatRequest Value)
    (on_delta : bool) : bool :=
  if negb (c_response_cache_enabled c) || (c_response_cache_max_entries c =? 0)%nat || on_delta
  then false
  else SFleb (SFabs (default f64_zero (rq_temperature request))) f32_epsilon.

Definition lookup_response_cache (a : Agent) (request : ChatRequest Value) (on_delta : bool)
    : option (ChatResponse Value) :=
  if negb (response_cache_eligible (ag_config a) request on_delta) then None
  else
    key ← request_to_string request;
    ag_response_cache a !! key.

Definition store_response_cache (request : ChatRequest Value) (on_delta : bool)
    (response : ChatResponse Value) (a : Agent) : Agent :=
  if negb (response_cache_eligible (ag_config a) request on_delta) then a
  else match request_to_string request with
       | None => a
       | Some key =>
           let '(cache, order) :=
             cache_insert_with_limit (ag_response_cache a) (ag_response_cache_order a) key response
               (c_response_cache_max_entries (ag_config a)) in
           set_ag_response_cache cache (set_ag_response_cache_order order a)
       end.

Definition tool_result_cache_key (call : ToolCall Value) : string :=
  json_to_string (json_obj [("name", Str (tool_call_name call));
                            ("arguments", tool_call_arguments call)]).

Definition lookup_tool_result_cache (a : Agent) (call : ToolCall Value)
    : option ToolExecutionResult :=
  let c := ag_config a in
  if negb (c_tool_result_cache_enabled c) || (c_tool_result_cache_max_entries c =? 0)%nat then None
  else
    registered ← ag_tools a !! tool_call_name call;
    if negb (rt_cacheable registered) then None
    else ag_tool_result_cache a !! tool_result_cache_key call.

Definition store_tool_result_cache (call : ToolCall Value) (result : ToolExecutionResult)
    (a : Agent) : Agent :=
  let c := ag_config a in
  if negb (c_tool_result_cache_enabled c) || (c_tool_result_cache_max_entries c =? 0)%nat
     || tr_is_error result then a
  else match ag_tools a !! tool_call_name call with
       | None => a
       | Some registered =>
           if negb (rt_cacheable registered) then a
           else
             let '(cache, order) :=
               cache_insert_with_limit (ag_tool_result_cache a) (ag_tool_result_cache_order a)
                 (tool_result_cache_key call) result (c_tool_result_cache_max_entries c) in
             set_ag_tool_result_cache cache (set_ag_tool_result_cache_order order a)
       end.

Definition clear_tool_result_cache (a : Agent) : Agent :=
  set_ag_tool_result_cache ∅ (set_ag_tool_result_cache_order [] a).

(** ** Tools *)

(** [register_tool_internal]; [definition()] and [is_cacheable()] of the tool are
    its registration record. *)
Definition register_tool_internal (tool : RegisteredTool) (a : Agent)
    : (string * option RegisteredTool) * Agent :=
  let name := td_name (rt_definition tool) in
  ((name, ag_tools a !! name), set_ag_tools (<[name := tool]> (ag_tools a)) a).

Definition register_tool (tool : RegisteredTool) (a : Agent) : Agent :=
  let '((_, replaced), a) := register_tool_internal tool a in
  match replaced with Some _ => clear_tool_result_cache a | None => a end.

Definition has_tool (a : Agent) (name : string) : bool := bool_decide (is_Some (ag_tools a !! name)).

Definition registered_tool_names (a : Agent) : list string :=
  sort_by String.leb (map_to_list (ag_tools a)).*1.

Definition unregister_tool (name : string) (a : Agent) : bool * Agent :=
  match ag_tools a !! name with
  | Some _ => (true, clear_tool_result_cache (set_ag_tools (delete name (ag_tools a)) a))
  | None => (false, a)
  end.

Definition clear_tools (a : Agent) : Agent :=
  if bool_decide (ag_tools a = ∅) then a else clear_tool_result_cache (set_ag_tools ∅ a).

Definition register_scoped (acc : list (string * option RegisteredTool) * Agent)
    (tool : RegisteredTool) : list (string * option RegisteredTool) * Agent :=
  let '(entry, a) := register_tool_internal tool acc.2 in (acc.1 ++ [entry], a).

Definition restore_tool (a : Agent) (entry : string * option RegisteredTool) : Agent :=
  match entry.2 with
  | Some previous => set_ag_tools (<[entry.1 := previous]> (ag_tools a)) a
  | None => set_ag_tools (delete entry.1 (ag_tools a)) a
  end.

(** [with_scoped_tools]: [run] is the computation in the middle. *)
Definition with_scoped_tools {E R} (tools : list RegisteredTool) (run : Eff St E R) : Eff St E R :=
  λ st,
    let '(replaced, a) := foldl register_scoped ([], st.1) tools in
    let '(result, (a, s)) := run (clear_tool_result_cache a, st.2) in
    (result, (clear_tool_result_cache (foldl restore_tool a (reverse replaced)), s)).

(** ** Identity, model, history *)

Definition set_agent_id (agent_id : string) (a : Agent) : Agent :=
  let normalized := trim agent_id in
  if is_empty normalized then a else set_ag_agent_id normalized a.

Definition swap_dispatch_model (model : string) (a : Agent) : string * Agent :=
  let normalized := trim model in
  let previous := c_model (ag_config a) in
  if is_empty normalized then (previous, a)
  else (previous, set_ag_config (set_c_model normalized (ag_config a)) a).

Definition restore_dispatch_model (previous_model : string) (a : Agent) : Agent :=
  if is_empty (trim previous_model) then a
  else set_ag_config (set_c_model previous_model (ag_config a)) a.

Definition cost_budget (c : AgentConfig) : option f64 :=
  match c_cost_budget_usd c with
  | Some budget => if f64_ltb f64_zero budget then Some budget else None
  | None => None
  end.

Definition budget_utilization (cost budget : f64) : f64 :=
  if f64_leb budget f64_epsilon then f64_zero else f64_div cost budget.

Definition cost_snapshot (a : Agent) : AgentCostSnapshot :=
  let budget_usd := cost_budget (ag_config a) in
  mkCostSnapshot (cu_input_tokens (ag_cumulative_usage a))
    (cu_output_tokens (ag_cumulative_usage a)) (cu_total_tokens (ag_cumulative_usage a))
    (ag_cumulative_cost_usd a) budget_usd
    (budget_utilization (ag_cumulative_cost_usd a) <$> budget_usd).

Definition replace_messages (messages : list (Message Value)) (a : Agent) : Agent :=
  set_ag_messages messages a.
Definition append_message (message : Message Value) (a : Agent) : Agent :=
  set_ag_messages (ag_messages a ++ [message]) a.

Definition replace_system_prompt (system_prompt : string) (a : Agent) : bool * Agent :=
  let fresh := (true, set_ag_messages (message_system system_prompt :: ag_messages a) a) in
  match ag_messages a with
  | first :: rest =>
      if bool_decide (msg_role first = System) then
        if String.eqb (text_content first) system_prompt then (false, a)
        else (true, set_ag_messages (message_system system_prompt :: rest) a)
      else fresh
  | [] => fresh
  end.

(** [fork]: the clone shares everything in [Sys]. *)
Definition fork (a : Agent) : Agent := set_ag_warn_compaction_state warn_state_default a.

(** ** Direct messages *)

Definition receive_direct_message (from_agent_id content : string)
    (policy : AgentDirectMessagePolicy) : Eff St AgentDirectMessageError unit :=
  to_agent_id ← ask ag_agent_id;
  _ ← fail_if (negb (allows policy from_agent_id to_agent_id))
        (UnauthorizedRoute from_agent_id to_agent_id);
  normalized ← of_result (normalize_direct_message_content content (max_message_chars policy));
  sanitized ← sanitize_inbound_text normalized;
  match sanitized with
  | Err codes => fail (DirectSafetyViolation codes)
  | Ok sanitized =>
      let direct_message := message_system
        (DIRECT_MESSAGE_PREFIX +:+ " from=" +:+ from_agent_id +:+ " to=" +:+ to_agent_id +:+
         newline +:+ sanitized) in
      _ ← push_message direct_message;
      emit (MessageAdded direct_message)
  end.

(** The sender only contributes its id. *)
Definition send_direct_message (sender : Agent) := receive_direct_message (ag_agent_id sender).
End agent.
