(* ===== verification/AgentContext.v ===== *)
(** * What the agent sends: costs, budgets and context ([tau-agent-core], [lib.rs] and [runtime_safety_memory.rs])

    Usage and cost accounting, the token budget, the compaction of the context in
    its tiers with the background task of the warn tier, memory recall, and the
    message list of a request. *)

From Stdlib Require Import NArith ZArith Ascii.
From Stdlib.Floats Require Import SpecFloat.
From stdpp Require Import base gmap strings list.
From S2P Require Import Prelude RustStr Json Messages ChatTypes Safety Effects AgentTurn AgentTools AgentCache Processes AgentEnv AgentState.

#[local] Open Scope string_scope.
#[local] Open Scope list_scope.

(** [str::split_once] with a text separator *)
Definition split_once_str (sep s : string) : option (string * string) :=
  (λ i, (of_chars (take i (chars_of s)),
         of_chars (drop (i + String.length sep) (chars_of s)))) <$> str_find sep s.

(** [f32::total_cmp] is not [Greater]; a NaN is taken as positive. *)
Definition f32_total_le (a b : f32) : bool :=
  match a, b with
  | _, S754_nan => true
  | S754_nan, _ => false
  | S754_zero false, S754_zero true => false
  | _, _ => SFleb a b
  end.

Section context.
Context `{JC : JsonCodec} `{JS : JsonSchema} `{AE : AgentEnv}.

(** ** Usage and cost *)

Definition accumulate_usage (usage : ChatUsage) (a : Agent) : Agent :=
  let u := ag_cumulative_usage a in
  set_ag_cumulative_usage
    (mkChatUsage (saturating_add_u64 (cu_input_tokens u) (cu_input_tokens usage))
       (saturating_add_u64 (cu_output_tokens u) (cu_output_tokens usage))
       (saturating_add_u64 (cu_total_tokens u) (cu_total_tokens usage))
       (cu_cached_input_tokens u)) a.

(** [HashSet::insert] *)
Definition alert_insert (threshold : N) (set : list N) : bool * list N :=
  if bool_decide (threshold ∈ set) then (false, set) else (true, threshold :: set).

Definition alert_if_reached {E} (turn : nat) (budget_usd utilization_percent : f64) (threshold : N)
    : Eff St E unit :=
  a ← ask id;
  if f64_leb (f64_of_N threshold) utilization_percent then
    let '(fresh, set) := alert_insert threshold (ag_emitted_cost_alert_thresholds a) in
    _ ← on_agent (set_ag_emitted_cost_alert_thresholds set);
    when fresh (emit (CostBudgetAlert turn threshold (ag_cumulative_cost_usd a) budget_usd))
  else mret tt.

Definition accumulate_usage_and_emit_cost_events {E} (turn : nat) (usage : ChatUsage)
    : Eff St E unit :=
  _ ← on_agent (accumulate_usage usage);
  c ← ask ag_config;
  let turn_cost_usd :=
    estimate_usage_cost_usd usage (c_model_input_cost_per_million c)
      (c_model_cached_input_cost_per_million c) (c_model_output_cost_per_million c) in
  _ ← on_agent (λ a, set_ag_cumulative_cost_usd (f64_add (ag_cumulative_cost_usd a) turn_cost_usd) a);
  cumulative ← ask ag_cumulative_cost_usd;
  let budget_usd := cost_budget c in
  match c_model_input_cost_per_million c, c_model_output_cost_per_million c, budget_usd with
  | None, None, None => mret tt
  | _, _, _ =>
      _ ← emit (CostUpdated turn turn_cost_usd cumulative budget_usd);
      match budget_usd with
      | None => mret tt
      | Some budget_usd =>
          let utilization_percent :=
            f64_mul (budget_utilization cumulative budget_usd) (f64_of_N 100) in
          each (alert_if_reached turn budget_usd utilization_percent)
            (normalize_cost_alert_thresholds (c_cost_alert_thresholds_percent c))
      end
  end.

Definition enforce_token_budget (c : AgentConfig) (request : ChatRequest Value)
    : Result AgentError unit :=
  let estimate := estimate_chat_request_tokens request in
  let max_input_tokens := default u32_max (c_max_estimated_input_tokens c) in
  let max_total_tokens := default u32_max (c_max_estimated_total_tokens c) in
  bail_if ((max_input_tokens <? est_input_tokens estimate)%N
           || (max_total_tokens <? est_total_tokens estimate)%N)
    (TokenBudgetExceeded (est_input_tokens estimate) max_input_tokens
       (est_total_tokens estimate) max_total_tokens).

(** [HashMap::values] in its iteration order *)
Definition tool_definitions {E} : Eff St E (list (ToolDefinition Value)) := gets (λ st,
  tool_order (sys_world st.2) (rt_definition <$> (map_to_list (ag_tools st.1)).*2)).

(** ** Compaction *)

Definition context_compaction_config (c : AgentConfig) : ContextCompactionConfig :=
  mkCompactionConfig (c_max_estimated_input_tokens c)
    (c_context_compaction_warn_threshold_percent c)
    (c_context_compaction_aggressive_threshold_percent c)
    (c_context_compaction_emergency_threshold_percent c)
    (c_context_compaction_warn_retain_percent c)
    (c_context_compaction_aggressive_retain_percent c)
    (c_context_compaction_emergency_retain_percent c).

Definition inject_warn_llm_brief_into_summary (summary llm_brief : string) : option string :=
  if negb (starts_with CONTEXT_SUMMARY_PREFIX summary) then None
  else if existsb (λ line, starts_with CONTEXT_SUMMARY_LLM_BRIEF_PREFIX (trim_start line))
            (lines summary) then Some summary
  else
    let brief := collapse_whitespace llm_brief in
    if is_empty brief then None
    else
      let brief_line := CONTEXT_SUMMARY_LLM_BRIEF_PREFIX +:+ " " +:+
        truncate_chars brief WARN_COMPACTION_LLM_BRIEF_MAX_CHARS in
      let sep := newline +:+ "excerpts:" +:+ newline in
      let enriched :=
        match split_once_str sep summary with
        | Some (head, excerpts) =>
            head +:+ newline +:+ brief_line +:+ newline +:+ "excerpts:" +:+ newline +:+ excerpts
        | None => summary +:+ newline +:+ brief_line
        end in
      Some (truncate_chars enriched CONTEXT_SUMMARY_MAX_CHARS).

(** The model request of the background task. *)
Definition warn_summary_request (model : string) (max_tokens : option N) (temperature : option f32)
    (agent_id fallback_summary : string) : ChatRequest Value :=
  mkRequest model
    [message_system WARN_COMPACTION_LLM_SYSTEM_PROMPT;
     message_user ("Refine this context compaction summary into one concise sentence:" +:+
                   newline +:+ fallback_summary)]
    [] None false max_tokens temperature
    (mkPromptCache true (Some (agent_id +:+ ":warn-compaction-llm-summary")) None None).

Definition is_summary_message (m : Message Value) : bool :=
  bool_decide (msg_role m = System) && starts_with CONTEXT_SUMMARY_PREFIX (text_content m).

(** [position] of the first match *)
Fixpoint position {A} (f : A → bool) (l : list A) : option nat :=
  match l with
  | [] => None
  | x :: l' => if f x then Some 0 else S <$> position f l'
  end.

(** What the background task sends back, from the messages it was given and the
    answer of its model call. *)
Definition warn_task_result (source : list (Message Value)) (config : ContextCompactionConfig)
    (brief : option (ChatResponse Value)) : list (Message Value) :=
  let compacted := compact_messages_for_tier source TierWarn config in
  match position is_summary_message compacted with
  | None => compacted
  | Some summary_index =>
      let fallback_summary := default "" (text_content <$> (compacted !! summary_index)) in
      match brief ≫= (λ response,
              inject_warn_llm_brief_into_summary fallback_summary
                (text_content (rp_message response))) with
      | Some llm_summary => <[summary_index := message_system llm_summary]> compacted
      | None => compacted
      end
  end.

(** The requests of a task for these messages: one if there is a summary. *)
Definition warn_task_requests (a : Agent) (source : list (Message Value))
    (config : ContextCompactionConfig) : list (ChatRequest Value) :=
  let compacted := compact_messages_for_tier source TierWarn config in
  match position is_summary_message compacted with
  | None => []
  | Some summary_index =>
      let fallback_summary := default "" (text_content <$> (compacted !! summary_index)) in
      [warn_summary_request (c_model (ag_config a)) (c_max_tokens (ag_config a))
         (c_temperature (ag_config a)) (ag_agent_id a) fallback_summary]
  end.

(** [poll_warn_compaction_state_locked] *)
Definition poll_warn_compaction {E} : Eff St E unit :=
  state ← ask ag_warn_compaction_state;
  match wc_pending state with
  | None => mret tt
  | Some pending =>
      polled ← world_op poll_brief;
      match polled with
      | BriefPending => mret tt
      | BriefGone => on_agent (set_ag_warn_compaction_state (mkWarnState None (wc_ready state)))
      | BriefDone brief =>
          on_agent (set_ag_warn_compaction_state (mkWarnState None
            (Some (mkReady (pw_source_messages pending)
              (warn_task_result (pw_source_messages pending) (pw_config pending) brief)))))
      end
  end.
End context.

(** Equality of messages is that of the values they carry. *)
Fixpoint value_eqb (a b : Value) {struct a} : bool :=
  let fix list_eqb (l k : list Value) {struct l} : bool :=
    match l, k with
    | [], [] => true
    | x :: l, y :: k => value_eqb x y && list_eqb l k
    | _, _ => false
    end in
  let fix fields_eqb (l k : list (string * Value)) {struct l} : bool :=
    match l, k with
    | [], [] => true
    | (n, x) :: l, (m, y) :: k => String.eqb n m && value_eqb x y && fields_eqb l k
    | _, _ => false
    end in
  match a, b with
  | Null, Null => true
  | Bool x, Bool y => Bool.eqb x y
  | Num (PosInt n), Num (PosInt m) => (n =? m)%N
  | Num (NegInt n), Num (NegInt m) => (n =? m)%Z
  | Num (Float f), Num (Float g) => SFeqb f g
  | Str s, Str t => String.eqb s t
  | Arr l, Arr k => list_eqb l k
  | Obj l, Obj k => fields_eqb l k
  | _, _ => false
  end.

Definition media_eqb (a b : MediaSource) : bool :=
  match a, b with
  | Url u, Url v => String.eqb u v
  | Base64 m d, Base64 m' d' => String.eqb m m' && String.eqb d d'
  | _, _ => false
  end.

Definition block_eqb (a b : ContentBlock Value) : bool :=
  match a, b with
  | TextBlock t, TextBlock u => String.eqb t u
  | ToolCallBlock i n x, ToolCallBlock j m y => String.eqb i j && String.eqb n m && value_eqb x y
  | ImageBlock s, ImageBlock t | AudioBlock s, AudioBlock t => media_eqb s t
  | _, _ => false
  end.

Definition message_eqb (a b : Message Value) : bool :=
  bool_decide (msg_role a = msg_role b)
  && bool_decide (length (msg_content a) = length (msg_content b))
  && forallb (λ p : ContentBlock Value * ContentBlock Value, block_eqb p.1 p.2)
       (zip (msg_content a) (msg_content b))
  && bool_decide (msg_tool_call_id a = msg_tool_call_id b)
  && bool_decide (msg_tool_name a = msg_tool_name b)
  && Bool.eqb (msg_is_error a) (msg_is_error b).

(** [slice::starts_with] *)
Fixpoint messages_start_with (messages prefix : list (Message Value)) : bool :=
  match prefix, messages with
  | [], _ => true
  | p :: prefix, m :: messages => message_eqb m p && messages_start_with messages prefix
  | _ :: _, [] => false
  end.

Record MemoryRecallMatch := mkRecall { mm_score : f32; mm_role : MessageRole; mm_text : string }.

Record MemoryEmbeddingApiConfig := mkEmbeddingApi
  { em_model : string; em_api_base : string; em_api_key : string }.

(** [trim_end_matches('/')] *)
Fixpoint drop_slashes (r : list ascii) : list ascii :=
  match r with
  | c :: r' => if Ascii.eqb c slash then drop_slashes r' else r
  | [] => []
  end.
Definition trim_end_slashes (s : string) : string :=
  of_chars (reverse (drop_slashes (reverse (chars_of s)))).

Definition compaction_tier_label (tier : ContextCompactionTier) : string :=
  match tier with
  | TierWarn => "warn" | TierAggressive => "aggressive" | TierEmergency => "emergency"
  | TierNone => "none"
  end.

(** The scan over the lines of a summary: whether the excerpts began, and the
    candidates so far; it stops once there are enough. *)
Fixpoint excerpt_candidates (in_block : bool) (candidates : list string) (ls : list string)
    : list string :=
  match ls with
  | [] => candidates
  | line :: ls =>
      let trimmed := trim line in
      if eq_ignore_ascii_case trimmed "excerpts:" then excerpt_candidates true candidates ls
      else if negb in_block then excerpt_candidates in_block candidates ls
      else match strip_prefix "- " trimmed with
           | None => excerpt_candidates in_block candidates ls
           | Some excerpt =>
               let content := match split_once ":"%char excerpt with
                              | Some (_, value) => value
                              | None => excerpt
                              end in
               let collapsed := collapse_whitespace content in
               if is_empty collapsed then excerpt_candidates in_block candidates ls
               else
                 let candidates := candidates ++ [collapsed] in
                 if (CONTEXT_SUMMARY_MAX_EXCERPTS <=? length candidates)%nat then candidates
                 else excerpt_candidates in_block candidates ls
           end
  end.

Definition extract_memory_candidates_from_compaction_summary (summary : string)
    : Result string (list string) :=
  match excerpt_candidates false [] (lines summary) with
  | [] => Err "compaction summary did not contain excerpt candidates"
  | candidates => Ok candidates
  end.

Section requests.
Context `{JC : JsonCodec} `{JS : JsonSchema} `{AE : AgentEnv}.

Definition take_ready_warn_compaction {E} (messages : list (Message Value))
    : Eff St E (option (list (Message Value))) :=
  _ ← poll_warn_compaction;
  state ← ask ag_warn_compaction_state;
  match wc_ready state with
  | None => mret None
  | Some ready =>
      _ ← on_agent (set_ag_warn_compaction_state (mkWarnState (wc_pending state) None));
      mret (if negb (messages_start_with messages (rw_source_messages ready)) then None
            else Some (rw_compacted_messages ready ++
                       drop (length (rw_source_messages ready)) messages))
  end.

(** Whether a pending or ready compaction of a prefix of these messages exists. *)
Definition covers_prefix (source : option (list (Message Value)))
    (messages : list (Message Value)) : bool :=
  match source with Some source => messages_start_with messages source | None => false end.

Definition schedule_warn_compaction_if_needed {E} (messages : list (Message Value))
    (config : ContextCompactionConfig) : Eff St E unit :=
  _ ← poll_warn_compaction;
  a ← ask id;
  let state := ag_warn_compaction_state a in
  if covers_prefix (rw_source_messages <$> wc_ready state) messages then mret tt
  else if covers_prefix (pw_source_messages <$> wc_pending state) messages
  then on_agent (set_ag_warn_compaction_state (mkWarnState (wc_pending state) None))
  else
    _ ← on_sys (λ s, set_sys_background (sys_background s ++ warn_task_requests a messages config) s);
    on_agent (set_ag_warn_compaction_state (mkWarnState (Some (mkPending messages config)) None)).

Definition append_system_artifact_if_new {E} (artifact : string) : Eff St E unit :=
  messages ← ask ag_messages;
  let duplicate := existsb (λ m, bool_decide (msg_role m = System)
                                 && String.eqb (text_content m) artifact)
                     (take 24 (reverse messages)) in
  if duplicate then mret tt
  else
    _ ← push_message (message_system artifact);
    emit (MessageAdded (message_system artifact)).

Definition persist_compaction_artifacts {E} (tier : ContextCompactionTier)
    (compacted : list (Message Value)) : Eff St E unit :=
  match tier with
  | TierNone | TierEmergency => mret tt
  | TierWarn | TierAggressive =>
      match List.find is_summary_message compacted with
      | None => mret tt
      | Some message =>
          let summary := text_content message in
          let tier_label := compaction_tier_label tier in
          _ ← append_system_artifact_if_new
                (COMPACTION_ENTRY_PREFIX +:+ " tier=" +:+ tier_label +:+ newline +:+ summary);
          match extract_memory_candidates_from_compaction_summary summary with
          | Err _ => mret tt
          | Ok candidates =>
              c ← ask ag_config;
              append_system_artifact_if_new (join newline
                ((COMPACTION_MEMORY_SAVE_PREFIX +:+ " tier=" +:+ tier_label) ::
                 ((λ candidate, "- memory: " +:+
                     truncate_chars candidate (c_memory_max_chars_per_item c)) <$> candidates)))
          end
      end
  end.

(** ** Memory recall *)

Definition resolve_memory_embedding_api_config (c : AgentConfig)
    : option MemoryEmbeddingApiConfig :=
  model ← trim <$> c_memory_embedding_model c;
  api_key ← trim <$> c_memory_embedding_api_key c;
  if is_empty model || is_empty api_key then None
  else
    let api_base := trim_end_slashes
      (trim (default "https://api.openai.com/v1" (c_memory_embedding_api_base c))) in
    if is_empty api_base then None else Some (mkEmbeddingApi model api_base api_key).

Definition recall_candidate (m : Message Value) : option (MessageRole * string) :=
  match msg_role m with
  | User | Assistant =>
      let text := text_content m in
      if is_empty (trim text) then None else Some (msg_role m, text)
  | Tool | System => None
  end.

(** The embeddings of the inputs if the service is configured and answers with
    one vector per input. *)
Definition api_embeddings {E} (c : AgentConfig) (inputs : list string) (dimensions : nat)
    : Eff St E (option (list (list f32))) :=
  match resolve_memory_embedding_api_config c with
  | None => mret None
  | Some api =>
      answer ← world_op (embed_text_vectors_via_api (em_model api) (em_api_base api)
                          (em_api_key api) inputs dimensions);
      mret (match answer with
            | Ok vectors => if (length vectors =? length inputs)%nat then Some vectors else None
            | Err _ => None
            end)
  end.

Definition retrieve_memory_matches {E} (history : list (Message Value)) (query : string)
    (limit dimensions : nat) (min_similarity : f32) (c : AgentConfig)
    : Eff St E (list MemoryRecallMatch) :=
  if (limit =? 0)%nat then mret []
  else
    let candidates := omap recall_candidate history in
    match candidates with
    | [] => mret []
    | _ =>
        embedded ← api_embeddings c (query :: candidates.*2) dimensions;
        let '(query_embedding, candidate_embeddings) :=
          match embedded with
          | Some vectors => (default [] (head vectors), drop 1 vectors)
          | None => (embed_text_vector query dimensions,
                     (λ text, embed_text_vector text dimensions) <$> candidates.*2)
          end in
        if forallb (λ component, SFeqb component f64_zero) query_embedding then mret []
        else
          let matches := omap (λ p : (MessageRole * string) * list f32,
            let score := cosine_similarity query_embedding p.2 in
            if SFleb min_similarity score then Some (mkRecall score p.1.1 p.1.2) else None)
            (zip candidates candidate_embeddings) in
          mret (take limit (sort_by (λ l r, f32_total_le (mm_score r) (mm_score l)) matches))
    end.

Definition recall_line (max_chars : nat) (m : MemoryRecallMatch) : string :=
  "- score=" +:+ format_score (mm_score m) +:+ " role=" +:+ role_label (mm_role m) +:+ " text=" +:+
  truncate_chars (collapse_whitespace (mm_text m)) max_chars.

Definition build_memory_recall_message {E} (context_limit : nat) : Eff St E (option string) :=
  a ← ask id;
  let c := ag_config a in
  match List.find (λ m, bool_decide (msg_role m = User)) (reverse (ag_messages a)) with
  | None => mret None
  | Some message =>
      let query := text_content message in
      let dropped_cutoff := (length (ag_messages a) - context_limit)%nat in
      if is_empty (trim query) || (dropped_cutoff =? 0)%nat then mret None
      else
        recalled ← retrieve_memory_matches (take dropped_cutoff (ag_messages a)) query
          (c_memory_retrieval_limit c) (c_memory_embedding_dimensions c)
          (c_memory_min_similarity c) c;
        mret (match recalled with
              | [] => None
              | _ => Some (join newline
                       (MEMORY_RECALL_PREFIX ::
                        (recall_line (c_memory_max_chars_per_item c) <$> recalled)))
              end)
  end.

(** ** The messages of a request *)

Definition leading_system_count (messages : list (Message Value)) : nat :=
  default (length messages)
    (position (λ m, negb (bool_decide (msg_role m = System))) messages).

(** The request whose tokens the pressure is measured by. *)
Definition pressure_request (c : AgentConfig) (messages : list (Message Value))
    : ChatRequest Value :=
  mkRequest (c_model c) messages [] None false (c_max_tokens c) (c_temperature c)
    (mkPromptCache true (Some (c_agent_id c)) None None).

Definition drop_warn_state {E} : Eff St E unit :=
  on_agent (set_ag_warn_compaction_state warn_state_default).

Definition compact_for_pressure {E} (messages : list (Message Value))
    : Eff St E (list (Message Value)) :=
  c ← ask ag_config;
  let config := context_compaction_config c in
  let estimate := estimate_chat_request_tokens (pressure_request c messages) in
  match cp_tier (context_pressure_snapshot (est_input_tokens estimate) config) with
  | TierWarn =>
      ready ← take_ready_warn_compaction messages;
      match ready with
      | Some compacted =>
          _ ← persist_compaction_artifacts TierWarn compacted;
          mret compacted
      | None =>
          _ ← schedule_warn_compaction_if_needed messages config;
          mret messages
      end
  | TierAggressive =>
      _ ← drop_warn_state;
      let compacted := compact_messages_for_tier messages TierAggressive config in
      _ ← persist_compaction_artifacts TierAggressive compacted;
      mret compacted
  | TierEmergency =>
      _ ← drop_warn_state;
      mret (compact_messages_for_tier messages TierEmergency config)
  | TierNone => mret messages
  end.

Definition request_messages {E} : Eff St E (list (Message Value)) :=
  a ← ask id;
  let context_limit := c_max_context_messages (ag_config a) in
  messages ← compact_for_pressure
    (match context_limit with
     | Some limit => bounded_messages (ag_messages a) limit
     | None => ag_messages a
     end);
  match context_limit with
  | None => mret messages
  | Some limit =>
      now ← ask id;
      if (c_memory_retrieval_limit (ag_config now) =? 0)%nat
         || (length (ag_messages now) <=? limit)%nat then mret messages
      else
        recall ← build_memory_recall_message limit;
        mret (match recall with
              | None => messages
              | Some recall =>
                  let insert_at := leading_system_count messages in
                  take insert_at messages ++ [message_system recall] ++ drop insert_at messages
              end)
  end.

Definition compact_message_history (a : Agent) : Agent :=
  match c_max_context_messages (ag_config a) with
  | None => a
  | Some limit =>
      if (length (ag_messages a) <=? limit)%nat then a
      else set_ag_messages (bounded_messages (ag_messages a) limit) a
  end.
End requests.
