(* ===== verification/AgentLoop.v ===== *)
(** * The agent loop ([tau-agent-core], [lib.rs])

    One definition per method: the retried model call, the execution of tool
    calls one by one and in parallel chunks, branch follow-ups, the turn loop, the
    prompt operations and the structured-output retries.  The loops are
    structural on what bounds them in the code: the retries, the calls, the turns.

    A branch follow-up prompts a worker, a fork of the agent restricted to memory
    tools; a worker's own branch calls are not registered and fail, so its loop is
    the same whatever its follow-ups do ([worker_prompt_no_branch] in
    [AgentTheorems]).  The loop is a section over the follow-up, instantiated once
    for workers and once for agents. *)

From Stdlib Require Import NArith ZArith Ascii.
From stdpp Require Import base gmap strings list.
From S2P Require Import Prelude RustStr Json Messages ChatTypes Safety Effects AgentTurn AgentTools AgentCache Processes AgentEnv AgentState AgentContext.

#[local] Open Scope string_scope.
#[local] Open Scope list_scope.

Record ToolExecutionStats := mkStats { ts_total : nat; ts_errors : nat }.

(** [slice::chunks] *)
Fixpoint chunks_fuel {A} (fuel n : nat) (l : list A) : list (list A) :=
  match fuel, l with
  | S fuel, _ :: _ => take n l :: chunks_fuel fuel n (drop n l)
  | _, _ => []
  end.
Definition chunks {A} (n : nat) (l : list A) : list (list A) := chunks_fuel (length l) n l.

Section loop.
Context `{JC : JsonCodec} `{JS : JsonSchema} `{AE : AgentEnv}.

(** ** The model call *)

Definition sleep_with_cancellation (delay_ms : N) : Eff St AgentError unit :=
  token ← ask ag_cancellation_token;
  cancelled ← world_op (sleep_ms delay_ms);
  fail_if (token && cancelled) CancelledError.

(** The deltas of one attempt, through the retry buffer if it is enabled:
    the buffer afterwards and what the caller's handler is given. *)
Definition deliver_deltas (buffered : bool) (buffer : StreamingRetryBufferState)
    (deltas : list string) : StreamingRetryBufferState * list string :=
  if buffered then
    foldl (λ acc delta,
      let '(buffer, emitted) := stream_retry_buffer_on_delta acc.1 delta in
      (buffer, acc.2 ++ option_list emitted)) (reset_attempt buffer, []) deltas
  else (buffer, deltas).

(** One attempt: the request is handed to the client and the deltas to the
    caller; the outcome and the buffer are returned. *)
Definition run_attempt {E} (request : ChatRequest Value) (on_delta buffered : bool)
    (buffer : StreamingRetryBufferState) : Eff St E (Attempt * StreamingRetryBufferState) :=
  _ ← on_sys (λ s, set_sys_sent (sys_sent s ++ [request]) s);
  attempt ← world_op (client_attempt request on_delta);
  let '(buffer, given) := deliver_deltas buffered buffer (at_deltas attempt) in
  _ ← on_sys (λ s, if on_delta then set_sys_deltas (sys_deltas s ++ given) s else s);
  mret (attempt, buffer).

(** The loop of [complete_with_retry].  [remaining] is the number of retries not used
    yet, [max_retries - attempt]; [exhausted] is never reached. *)
Fixpoint retry_loop (exhausted : Eff St AgentError (ChatResponse Value)) (remaining : nat)
    (request : ChatRequest Value) (on_delta buffered : bool) (attempt : nat)
    (backoff_ms max_backoff_ms : N) (buffer : StreamingRetryBufferState)
    : Eff St AgentError (ChatResponse Value) :=
  _ ← check_cancelled;
  c ← ask ag_config;
  token ← ask ag_cancellation_token;
  done ← run_attempt request on_delta buffered buffer;
  let '(outcome, buffer) := done in
  let may_retry := (attempt <? c_request_max_retries c)%nat && (negb on_delta || buffered) in
  let again :=
    _ ← sleep_with_cancellation backoff_ms;
    match remaining with
    | O => exhausted
    | S remaining =>
        retry_loop exhausted remaining request on_delta buffered (attempt + 1)
          (N.min (saturating_mul_u64 backoff_ms 2) max_backoff_ms) max_backoff_ms buffer
    end in
  match at_interrupt outcome, token, timeout_duration_from_ms (c_request_timeout_ms c) with
  | Some CancelledMeanwhile, true, _ => fail CancelledError
  | Some TimedOut, _, Some timeout =>
      if negb may_retry then fail (RequestTimeout timeout (attempt + 1)) else again
  | _, _, _ =>
      match at_result outcome with
      | Ok response => mret response
      | Err error =>
          if negb (may_retry && is_retryable_ai_error error) then fail (AiError error) else again
      end
  end.

Definition complete_with_retry (request : ChatRequest Value) (on_delta : bool)
    : Eff St AgentError (ChatResponse Value) :=
  _ ← check_cancelled;
  c ← ask ag_config;
  let backoff_ms := N.max (c_request_retry_initial_backoff_ms c) 1 in
  let max_backoff_ms := N.max (c_request_retry_max_backoff_ms c) backoff_ms in
  let stream_retry_enabled := on_delta && c_stream_retry_with_buffering c in
  retry_loop (fail CancelledError) (c_request_max_retries c) request on_delta stream_retry_enabled
    0 backoff_ms max_backoff_ms stream_buffer_default.

(** ** Results of tool calls *)

(** The text the caller must not answer after, if a directive says so. *)
Definition record_directive (tool_message : Message Value) (tool_name : string) (is_error : bool)
    (a : Agent) : Agent :=
  if String.eqb tool_name "skip" && negb is_error
  then set_ag_skip_response_reason (extract_skip_response_reason [tool_message]) a
  else if String.eqb tool_name "react" && negb is_error
       && match extract_react_response_directive [tool_message] with Some _ => true | None => false end
  then set_ag_skip_response_reason (Some "react_requested") a
  else if String.eqb tool_name "send_file" && negb is_error
       && match extract_send_file_response_directive [tool_message] with
          | Some _ => true | None => false end
  then set_ag_skip_response_reason (Some "send_file_requested") a
  else a.

Definition record_tool_result {E} (call : ToolCall Value) (result : ToolExecutionResult)
    : Eff St E bool :=
  result ← sanitize_tool_result result;
  let tool_name := tool_call_name call in
  _ ← emit (ToolExecutionEnd (tool_call_id_of call) tool_name result);
  let tool_message :=
    tool_result (tool_call_id_of call) tool_name (as_text result) (tr_is_error result) in
  _ ← push_message tool_message;
  _ ← emit (MessageAdded tool_message);
  _ ← on_agent (record_directive tool_message tool_name (tr_is_error result));
  mret (tr_is_error result).

Definition registered_tool (a : Agent) (call : ToolCall Value)
    : option (ToolDefinition Value * ToolImpl) :=
  (λ t, (rt_definition t, rt_tool t)) <$> (ag_tools a !! tool_call_name call).

(** [spawn_tool_call_task] starts the task; its handle is awaited by
    [await_tool_task]. *)
Definition spawn_tool_call_task {E} (call : ToolCall Value) : Eff St E unit :=
  a ← ask id;
  on_sys (λ s, set_sys_world (spawn_task call (registered_tool a call) (sys_world s)) s).

Definition await_tool_task {E} (call : ToolCall Value) : Eff St E ToolExecutionResult :=
  a ← ask id;
  fate ← world_op (join_task call (registered_tool a call));
  mret (join_tool_task call (fst <$> registered_tool a call)
          (timeout_duration_from_ms (c_tool_timeout_ms (ag_config a)))
          (ag_cancellation_token a) fate).

Definition emit_tool_start {E} (call : ToolCall Value) : Eff St E unit :=
  emit (ToolExecutionStart (tool_call_id_of call) (tool_call_name call)
          (tool_call_arguments call)).

(** ** Branch slots *)

Definition max_concurrent_branches_per_session (c : AgentConfig) : nat :=
  Nat.max (c_max_concurrent_branches_per_session c) 1.

Definition try_acquire_branch_run_slot {E} : Eff St E bool :=
  c ← ask ag_config;
  current ← gets (λ st, sys_branch_runs st.2);
  if (max_concurrent_branches_per_session c <=? current)%nat then mret false
  else
    _ ← on_sys (set_sys_branch_runs (current + 1));
    mret true.

(** Dropping the guards. *)
Definition release_branch_run_slots {E} (n : nat) : Eff St E unit :=
  on_sys (λ s, set_sys_branch_runs (sys_branch_runs s - n) s).

Definition branch_result_payload_base (result : ToolExecutionResult) : list (string * Value) :=
  match tr_content result with
  | Obj object => object
  | other =>
      obj_insert "branch_base_result" other (obj_insert "tool" (Str "branch") [])
  end.

Definition branch_result_with_error (base_result : ToolExecutionResult) (code error : string)
    : ToolExecutionResult :=
  let payload := branch_result_payload_base base_result in
  let payload :=
    match get_str "reason_code" payload with
    | Some existing =>
        if is_empty (trim existing) then payload
        else obj_insert "branch_creation_reason_code" (Str existing) payload
    | None => payload
    end in
  let payload := obj_insert "reason_code" (Str code) payload in
  let payload := obj_insert "error" (Str error) payload in
  let payload := obj_insert "branch_followup"
    (json_obj [("status", Str "error"); ("reason_code", Str code); ("error", Str error)]) payload in
  result_error (Obj payload).

(** ** Tool calls *)

Section followup.
(** [execute_branch_followup] *)
Context (execute_followup : ToolCall Value → ToolExecutionResult → Eff St AgentError ToolExecutionResult).

(** Also says whether a slot was taken, which the caller holds. *)
Definition maybe_execute_branch_followup (call : ToolCall Value) (result : ToolExecutionResult)
    : Eff St AgentError (ToolExecutionResult * bool) :=
  if negb (String.eqb (tool_call_name call) "branch") || tr_is_error result
  then mret (result, false)
  else
    slot ← try_acquire_branch_run_slot;
    if slot : bool then
      result ← execute_followup call result;
      mret (result, true)
    else
      c ← ask ag_config;
      active ← gets (λ st, sys_branch_runs st.2);
      mret (branch_result_with_error result BRANCH_REASON_CODE_LIMIT_EXCEEDED
              ("branch concurrency limit reached (active=" +:+ show_usize active +:+ " limit=" +:+
               show_usize (max_concurrent_branches_per_session c) +:+ ")"), false).

(** What is done with a finished call: the follow-up, the cache, the record. *)
Definition finish_tool_call (call : ToolCall Value) (result : ToolExecutionResult)
    : Eff St AgentError (bool * bool) :=
  followed ← maybe_execute_branch_followup call result;
  let '(result, slot) := followed in
  _ ← on_agent (store_tool_result_cache call result);
  is_error ← record_tool_result call result;
  mret (is_error, slot).

(** Whether the call failed. *)
Definition execute_tool_call (call : ToolCall Value) : Eff St AgentError bool :=
  cancelled ← is_cancelled;
  if cancelled : bool then mret true
  else
    _ ← emit_tool_start call;
    cached ← ask (λ a, lookup_tool_result_cache a call);
    result ← match cached with
             | Some cached => mret cached
             | None => _ ← spawn_tool_call_task call; await_tool_task call
             end;
    finished ← finish_tool_call call result;
    let '(is_error, slot) := finished in
    _ ← release_branch_run_slots (if slot : bool then 1 else 0);
    mret is_error.

Definition count_result (stats : ToolExecutionStats) (is_error : bool) : ToolExecutionStats :=
  mkStats (ts_total stats + 1) (if is_error then ts_errors stats + 1 else ts_errors stats).

Fixpoint execute_serially (stats : ToolExecutionStats) (calls : list (ToolCall Value))
    : Eff St AgentError ToolExecutionStats :=
  match calls with
  | [] => mret stats
  | call :: calls =>
      _ ← check_cancelled;
      is_error ← execute_tool_call call;
      execute_serially (count_result stats is_error) calls
  end.

(** Starting the calls of a chunk: each comes with its cached result, if any. *)
Fixpoint start_chunk (calls : list (ToolCall Value))
    : Eff St AgentError (list (ToolCall Value * option ToolExecutionResult)) :=
  match calls with
  | [] => mret []
  | call :: calls =>
      _ ← check_cancelled;
      _ ← emit_tool_start call;
      cached ← ask (λ a, lookup_tool_result_cache a call);
      _ ← match cached with Some _ => mret tt | None => spawn_tool_call_task call end;
      rest ← start_chunk calls;
      mret ((call, cached) :: rest)
  end.

(** Collecting the calls of a chunk in order; also counts the slots held. *)
Fixpoint finish_chunk (stats : ToolExecutionStats) (slots : nat)
    (pending : list (ToolCall Value * option ToolExecutionResult))
    : Eff St AgentError (ToolExecutionStats * nat) :=
  match pending with
  | [] => mret (stats, slots)
  | (call, cached) :: pending =>
      result ← match cached with
               | Some cached => mret cached
               | None => await_tool_task call
               end;
      finished ← finish_tool_call call result;
      let '(is_error, slot) := finished in
      finish_chunk (count_result stats is_error) (if slot : bool then slots + 1 else slots) pending
  end.

Fixpoint execute_chunks (stats : ToolExecutionStats) (cs : list (list (ToolCall Value)))
    : Eff St AgentError ToolExecutionStats :=
  match cs with
  | [] => mret stats
  | chunk :: cs =>
      _ ← check_cancelled;
      pending ← start_chunk chunk;
      finished ← finish_chunk stats 0 pending;
      let '(stats, slots) := finished in
      _ ← release_branch_run_slots slots;
      execute_chunks stats cs
  end.

Definition execute_tool_calls (calls : list (ToolCall Value))
    : Eff St AgentError ToolExecutionStats :=
  _ ← check_cancelled;
  c ← ask ag_config;
  let stats := mkStats 0 0 in
  let max_parallel := Nat.max (c_max_parallel_tool_calls c) 1 in
  if (max_parallel =? 1)%nat || (length calls <=? 1)%nat then execute_serially stats calls
  else execute_chunks stats (chunks max_parallel calls).

(** ** Turns *)

Definition assistant_text_suggests_failure (text : string) : bool :=
  let normalized := collapse_whitespace (to_lowercase text) in
  if is_empty (trim normalized) then true
  else existsb (λ phrase, str_contains phrase normalized) FAILURE_SIGNAL_PHRASES.

(** The request of a turn, sanitized and within the token budget. *)
Definition build_request (json_mode : bool) : Eff St AgentError (ChatRequest Value) :=
  tools ← tool_definitions;
  c ← ask ag_config;
  messages ← request_messages;
  let request :=
    mkRequest (c_model c) messages tools
      (match tools with [] => None | _ => Some ChoiceAuto end)
      json_mode (c_max_tokens c) (c_temperature c)
      (mkPromptCache true (Some (c_agent_id c)) None None) in
  request ← sanitize_outbound_http_request request;
  _ ← of_result (enforce_token_budget c request);
  mret request.

(** The answer to a request, from the cache or from the client. *)
Definition answer_request (request : ChatRequest Value) (on_delta : bool)
    : Eff St AgentError (ChatResponse Value) :=
  cached ← ask (λ a, lookup_response_cache a request on_delta);
  match cached with
  | Some cached => mret cached
  | None =>
      response ← complete_with_retry request on_delta;
      _ ← on_agent (store_response_cache request on_delta response);
      mret response
  end.

(** The end of a run: the messages added since it started. *)
Definition finish_run {E} (start_index : nat) : Eff St E (list (Message Value)) :=
  messages ← ask ag_messages;
  let new_messages := drop start_index messages in
  _ ← emit (AgentEnd (length new_messages));
  mret new_messages.

(** One turn: [Some] if the run is over, otherwise whether a replan is pending
    and how many were used. *)
Definition run_turn (start_index turn : nat) (on_delta json_mode pending_replan : bool)
    (replans_used : nat) : Eff St AgentError (list (Message Value) + (bool * nat)) :=
  _ ← check_cancelled;
  _ ← emit (TurnStart turn);
  request ← build_request json_mode;
  response ← answer_request request on_delta;
  request_duration_ms ← world_op elapsed_ms;
  let usage := rp_usage response in
  let assistant := rp_message response in
  let turn_end n := TurnEnd turn n request_duration_ms usage (rp_finish_reason response) in
  _ ← push_message assistant;
  _ ← emit (MessageAdded assistant);
  _ ← accumulate_usage_and_emit_cost_events turn usage;
  c ← ask ag_config;
  match tool_calls assistant with
  | [] =>
      if pending_replan && (replans_used <? c_react_max_replans_on_tool_failure c)%nat
         && assistant_text_suggests_failure (text_content assistant)
      then
        _ ← emit (ReplanTriggered turn
              "all tool calls in previous turn failed and assistant reported failure");
        let replan_message := message_user REPLAN_ON_TOOL_FAILURE_PROMPT in
        _ ← push_message replan_message;
        _ ← emit (MessageAdded replan_message);
        _ ← emit (turn_end 0);
        mret (inr (false, replans_used + 1))
      else
        _ ← emit (turn_end 0);
        new_messages ← finish_run start_index;
        mret (inl new_messages)
  | calls =>
      stats ← execute_tool_calls calls;
      let pending_replan := (0 <? ts_total stats)%nat && (ts_errors stats =? ts_total stats)%nat in
      skip ← ask ag_skip_response_reason;
      _ ← on_agent (set_ag_skip_response_reason None);
      _ ← emit (turn_end (ts_total stats));
      match skip with
      | Some _ => new_messages ← finish_run start_index; mret (inl new_messages)
      | None => mret (inr (pending_replan, replans_used))
      end
  end.

(** The turns from [turn] on; [remaining] of them remain. *)
Fixpoint run_turns (remaining turn start_index : nat) (on_delta json_mode pending_replan : bool)
    (replans_used : nat) : Eff St AgentError (list (Message Value)) :=
  match remaining with
  | O =>
      max_turns ← ask (λ a, c_max_turns (ag_config a));
      fail (MaxTurnsExceeded max_turns)
  | S remaining =>
      step ← run_turn start_index turn on_delta json_mode pending_replan replans_used;
      match step with
      | inl new_messages => mret new_messages
      | inr (pending_replan, replans_used) =>
          run_turns remaining (turn + 1) start_index on_delta json_mode pending_replan replans_used
      end
  end.

Definition run_loop (start_index : nat) (on_delta json_mode : bool)
    : Eff St AgentError (list (Message Value)) :=
  _ ← check_cancelled;
  _ ← on_agent (set_ag_skip_response_reason None);
  _ ← emit AgentStart;
  max_turns ← ask (λ a, c_max_turns (ag_config a));
  run_turns max_turns 1 start_index on_delta json_mode false 0.

Definition continue_turn_internal (on_delta json_mode : bool)
    : Eff St AgentError (list (Message Value)) :=
  start_index ← ask (λ a, length (ag_messages a));
  new_messages ← run_loop start_index on_delta json_mode;
  _ ← on_agent compact_message_history;
  mret new_messages.

Definition prompt_internal (text : string) (on_delta json_mode : bool)
    : Eff St AgentError (list (Message Value)) :=
  start_index ← ask (λ a, length (ag_messages a));
  sanitized ← sanitize_inbound_text text;
  match sanitized with
  | Err codes => fail (SafetyViolation (stage_as_str InboundMessage) codes)
  | Ok text =>
      let user_message := message_user text in
      _ ← push_message user_message;
      _ ← emit (MessageAdded user_message);
      new_messages ← run_loop start_index on_delta json_mode;
      _ ← on_agent compact_message_history;
      mret new_messages
  end.

(** The retries of a structured answer; [remaining] is [max_retries - attempt]. *)
Fixpoint structured_retries (remaining : nat) (new_messages : list (Message Value)) (schema : Value)
    : Eff St AgentError Value :=
  match parse_structured_output new_messages schema with
  | Ok value => mret value
  | Err error =>
      match remaining with
      | O => fail (StructuredOutput error)
      | S remaining =>
          new_messages ← prompt_internal (build_structured_output_retry_prompt schema error)
            false true;
          structured_retries remaining new_messages schema
      end
  end.

Definition parse_structured_output_with_retry (new_messages : list (Message Value))
    (schema : Value) : Eff St AgentError Value :=
  max_retries ← ask (λ a, c_structured_output_max_retries (ag_config a));
  structured_retries max_retries new_messages schema.
End followup.
End loop.

(** ** Branch follow-ups *)

Definition process_state_label (state : ProcessLifecycleState) : string :=
  match state with
  | Pending => "pending" | Running => "running" | Completed => "completed"
  | Failed => "failed" | Cancelled => "cancelled"
  end.

(** The display of a [ProcessManagerError]. *)
Definition display_manager_error (e : ProcessManagerError) : string :=
  match e with
  | MissingProcessId => "process id must be non-empty"
  | DuplicateProcessId id => "process id '" +:+ id +:+ "' is already registered"
  end.

(** A process spawned and awaited: the spawn, then the completion by its task. *)
Definition supervise (spec : ProcessSpawnSpec) (now : N) (result : Result string unit)
    (snapshots : Snapshots) : Result ProcessManagerError unit * Snapshots :=
  match spawn_supervised spec now snapshots with
  | (Ok id, snapshots) => (Ok tt, complete_process id result now snapshots)
  | (Err e, snapshots) => (Err e, snapshots)
  end.

Definition branch_followup_prompt (call : ToolCall Value) : option string :=
  as_object (tool_call_arguments call) ≫= get_trimmed "prompt".

Definition branch_followup_assistant_conclusion (messages : list (Message Value))
    : option string :=
  find_map_rev (λ m,
    if negb (bool_decide (msg_role m = Assistant)) then None
    else
      let text := collapse_whitespace (text_content m) in
      if is_empty (trim text) then None
      else Some (truncate_chars text BRANCH_CONCLUSION_MAX_CHARS)) messages.

Section branch.
Context `{JC : JsonCodec} `{JS : JsonSchema} `{AE : AgentEnv}.

Definition apply_process_runtime_profile (profile : ProcessRuntimeProfile) (a : Agent) : Agent :=
  let a := set_ag_config
    (set_c_max_turns (pf_max_turns profile)
      (set_c_max_context_messages (pf_max_context_messages profile)
        (set_c_system_prompt (pf_system_prompt profile) (ag_config a)))) a in
  let '(_, a) := replace_system_prompt (pf_system_prompt profile) a in
  set_ag_tools (filter (λ kv : string * RegisteredTool, kv.1 ∈ pf_tool_allowlist profile)
                  (ag_tools a)) a.

(** [fetch_add] wraps around; the id uses the value before it. *)
Definition next_process_id {E} (t : ProcessType) : Eff St E string :=
  a ← ask id;
  previous ← gets (λ st, sys_process_counter st.2);
  _ ← on_sys (set_sys_process_counter (add_u64 previous 1));
  mret (ag_agent_id a +:+ "::" +:+ process_type_as_str t +:+ "-" +:+
        show_u64 (saturating_add_u64 previous 1)).

(** The fork that does the follow-up's work. *)
Definition worker_of (worker_process_id : string) (a : Agent) : Agent :=
  apply_process_runtime_profile (profile_for_type Worker)
    (clear_tool_result_cache
      (set_ag_skip_response_reason None (set_agent_id worker_process_id (fork a)))).

(** Workers cannot branch: no follow-up of theirs is ever executed. *)
Definition worker_followup (call : ToolCall Value) (result : ToolExecutionResult)
    : Eff St AgentError ToolExecutionResult := mret result.

(** The worker's run, on the shared system; its own state is dropped, its error
    is a value. *)
Definition run_worker (worker : Agent) (prompt : string)
    : Eff St AgentError (Result AgentError (list (Message Value))) := λ st,
  let '(r, (_, s)) := prompt_internal worker_followup prompt false false (worker, st.2) in
  (Ok r, (st.1, s)).

Definition snapshot_state (snapshots : Snapshots) (process_id : string) : string :=
  default "unknown" ((λ s, process_state_label (sn_state s)) <$> snapshots !! process_id).
Definition snapshot_parent (snapshots : Snapshots) (process_id dflt : string) : string :=
  default dflt ((snapshots !! process_id) ≫= sn_parent_process_id).

Definition process_entry (process_id : string) (t : ProcessType) (state : string) (parent : Value)
    : Value :=
  json_obj [("process_id", Str process_id); ("process_type", Str (process_type_as_str t));
            ("state", Str state); ("parent_process_id", parent)].

(** The result of a follow-up that concluded. *)
Definition branch_completed (result : ToolExecutionResult) (conclusion : string)
    (process_delegation : Value) (available_tools : list string) (message_count : nat)
    (profile : ProcessRuntimeProfile) : ToolExecutionResult :=
  let payload := branch_result_payload_base result in
  let payload :=
    if bool_decide (get_str "reason_code" payload = Some BRANCH_REASON_CODE_CREATED)
    then obj_insert "branch_creation_reason_code" (Str BRANCH_REASON_CODE_CREATED) payload
    else payload in
  let payload := obj_insert "reason_code" (Str BRANCH_REASON_CODE_READY) payload in
  let payload := obj_insert "branch_conclusion" (Str conclusion) payload in
  let payload := obj_insert "process_delegation" process_delegation payload in
  let payload := obj_insert "branch_followup"
    (json_obj
       [("status", Str "completed"); ("tools_mode", Str "memory_only");
        ("available_tools", Arr (Str <$> available_tools));
        ("branch_message_count", json_usize message_count);
        ("worker_runtime_profile", json_obj
           [("process_type", Str (process_type_as_str (pf_process_type profile)));
            ("max_turns", json_usize (pf_max_turns profile));
            ("max_context_messages",
              match pf_max_context_messages profile with Some n => json_usize n | None => Null end);
            ("tool_allowlist", Arr (Str <$> pf_tool_allowlist profile))])]) payload in
  result_ok (Obj payload).

Definition execute_branch_followup (call : ToolCall Value) (result : ToolExecutionResult)
    : Eff St AgentError ToolExecutionResult :=
  match branch_followup_prompt call with
  | None =>
      mret (branch_result_with_error result BRANCH_REASON_CODE_PROMPT_MISSING
              "branch call arguments must include non-empty prompt")
  | Some prompt =>
      a ← ask id;
      let channel_process_id := ag_agent_id a +:+ "::channel" in
      branch_process_id ← next_process_id Branch;
      worker_process_id ← next_process_id Worker;
      let worker_profile := profile_for_type Worker in
      let worker := worker_of worker_process_id a in
      let available_tools := registered_tool_names worker in
      outcome ← run_worker worker prompt;
      now ← gets (λ st, unix_ms (sys_world st.2));
      match outcome with
      | Err _ =>
          mret (branch_result_with_error result BRANCH_REASON_CODE_EXECUTION_FAILED
                  "branch follow-up execution failed")
      | Ok branch_messages =>
          match branch_followup_assistant_conclusion branch_messages with
          | None =>
              mret (branch_result_with_error result BRANCH_REASON_CODE_EXECUTION_FAILED
                      "branch follow-up produced no assistant conclusion")
          | Some conclusion =>
              let '(_, snapshots) := supervise
                (with_runtime_profile worker_profile (with_session_key (ag_agent_id a)
                  (with_parent_process_id branch_process_id
                    (spawn_spec_new worker_process_id Worker)))) now (Ok tt) ∅ in
              match supervise
                (with_runtime_profile (profile_for_type Branch) (with_session_key (ag_agent_id a)
                  (with_parent_process_id channel_process_id
                    (spawn_spec_new branch_process_id Branch)))) now (Ok tt) snapshots with
              | (Err error, _) =>
                  mret (branch_result_with_error result BRANCH_REASON_CODE_EXECUTION_FAILED
                          ("failed to spawn branch process: " +:+ display_manager_error error))
              | (Ok _, snapshots) =>
                  let process_delegation := json_obj
                    [("channel", process_entry channel_process_id Channel "running" Null);
                     ("branch", process_entry branch_process_id Branch
                        (snapshot_state snapshots branch_process_id)
                        (Str (snapshot_parent snapshots branch_process_id channel_process_id)));
                     ("worker", process_entry worker_process_id Worker
                        (snapshot_state snapshots worker_process_id)
                        (Str (snapshot_parent snapshots worker_process_id branch_process_id)))] in
                  mret (branch_completed result conclusion process_delegation available_tools
                          (length branch_messages) worker_profile)
              end
          end
      end
  end.

(** ** The public operations *)

Definition prompt (text : string) := prompt_internal execute_branch_followup text false false.
Definition prompt_with_stream (text : string) (on_delta : bool) :=
  prompt_internal execute_branch_followup text on_delta false.
Definition continue_turn := continue_turn_internal execute_branch_followup false false.
Definition continue_turn_with_stream (on_delta : bool) :=
  continue_turn_internal execute_branch_followup on_delta false.

Definition prompt_json (text : string) (schema : Value) : Eff St AgentError Value :=
  new_messages ← prompt_internal execute_branch_followup text false true;
  parse_structured_output_with_retry execute_branch_followup new_messages schema.

Definition continue_turn_json (schema : Value) : Eff St AgentError Value :=
  new_messages ← continue_turn_internal execute_branch_followup false true;
  parse_structured_output_with_retry execute_branch_followup new_messages schema.
End branch.
