(* ===== verification/AgentFrame.v ===== *)
(** * What the agent's operations leave alone

    Frame lemmas for the agent loop.  Operations on the outside (events, the
    world, requests) do not touch the agent; the loop does not change the agent's
    static part (configuration, policy, tools, token); apart from the messages
    themselves only appending happens. *)

From Stdlib.Floats Require Import SpecFloat.
From Stdlib Require Import NArith Lia.
From stdpp Require Import base gmap strings list.
From S2P Require Import Prelude RustStr Json Messages ChatTypes Safety Effects AgentTurn AgentTools AgentCache Processes AgentEnv AgentState AgentContext AgentLoop.

#[local] Open Scope list_scope.

Create HintDb agent discriminated.

Section frame.
Context `{JC : JsonCodec} `{JS : JsonSchema} `{AE : AgentEnv}.

(** ** Operations that do not touch the agent *)

Definition same_agent (st st' : St) : Prop := st'.1 = st.1.
#[export] Instance same_agent_preorder : PreOrder same_agent.
Proof. split; [done|]. unfold same_agent. intros x y z. congruence. Qed.

Definition reads {E A} (m : Eff St E A) : Prop := moves same_agent m.

Lemma reads_on_sys {E} f : reads (on_sys (E:=E) f).
Proof. done. Qed.
Lemma reads_ask {E A} (f : Agent → A) : reads (ask (E:=E) f).
Proof. done. Qed.
Lemma reads_world_op {E A} (f : World → A * World) : reads (world_op (E:=E) f).
Proof. intros [a s]. unfold world_op. by destruct (f _). Qed.
Lemma reads_gets {E A} (f : St → A) : reads (gets (E:=E) f).
Proof. done. Qed.
Lemma reads_ret {E A} (x : A) : reads (mret (M:=Eff St E) x).
Proof. done. Qed.
Lemma reads_fail {E A} (e : E) : reads (fail (S:=St) (A:=A) e).
Proof. done. Qed.
Lemma reads_of_result {E A} (r : Result E A) : reads (of_result (S:=St) r).
Proof. done. Qed.
Lemma reads_fail_if {E} c (e : E) : reads (fail_if (S:=St) c e).
Proof. done. Qed.
Lemma reads_bind {E A B} (m : Eff St E A) (f : A → Eff St E B) :
  reads m → (∀ a, reads (f a)) → reads (m ≫= f).
Proof. apply (moves_bind same_agent). Qed.
Lemma reads_each {E A} (f : A → Eff St E unit) l : (∀ x, reads (f x)) → reads (each f l).
Proof. intros H. apply (moves_each same_agent). intros x _. apply H. Qed.
Lemma reads_when {E} c (m : Eff St E unit) : reads m → reads (when c m).
Proof. apply (moves_when same_agent). Qed.
End frame.

#[export] Hint Resolve reads_on_sys reads_ask reads_world_op reads_gets reads_ret reads_fail
  reads_of_result reads_fail_if reads_each reads_when : agent.

(** Splits a computation at its binds and case distinctions. *)
Ltac frame_split bindlem :=
  repeat first
    [ progress eauto 2 with agent
    | apply bindlem; [|intros ?]
    | match goal with |- context [match ?x with _ => _ end] => destruct x end ].
Ltac reads_auto := frame_split @reads_bind.

Section reads.
Context `{JC : JsonCodec} `{JS : JsonSchema} `{AE : AgentEnv}.

Lemma reads_emit {E} e : reads (emit (E:=E) e).
Proof. unfold emit. reads_auto. apply reads_each. intros i. unfold dispatch_async. reads_auto. Qed.
#[local] Hint Resolve reads_emit : agent.

Lemma reads_is_cancelled {E} : reads (is_cancelled (E:=E)).
Proof. unfold is_cancelled. reads_auto. Qed.
#[local] Hint Resolve reads_is_cancelled : agent.

Lemma reads_check_cancelled : reads check_cancelled.
Proof. unfold check_cancelled. reads_auto. Qed.
#[local] Hint Resolve reads_check_cancelled : agent.

Lemma reads_report_scan {E} stage mode scan : reads (report_scan (E:=E) stage mode scan).
Proof. unfold report_scan. reads_auto. Qed.
#[local] Hint Resolve reads_report_scan : agent.

Lemma reads_inspect_prompt {E} stage text : reads (inspect_prompt_safety_text (E:=E) stage text).
Proof. unfold inspect_prompt_safety_text. reads_auto. Qed.
Lemma reads_inspect_leak {E} stage text : reads (inspect_secret_leak_text (E:=E) stage text).
Proof. unfold inspect_secret_leak_text. reads_auto. Qed.
#[local] Hint Resolve reads_inspect_prompt reads_inspect_leak : agent.

Lemma reads_sanitize_inbound {E} text : reads (sanitize_inbound_text (E:=E) text).
Proof. unfold sanitize_inbound_text. reads_auto. Qed.
Lemma reads_sanitize_outbound request : reads (sanitize_outbound_http_request request).
Proof. unfold sanitize_outbound_http_request. reads_auto. Qed.
Lemma reads_sanitize_tool_result {E} r : reads (sanitize_tool_result (E:=E) r).
Proof. unfold sanitize_tool_result. reads_auto. Qed.
#[local] Hint Resolve reads_sanitize_inbound reads_sanitize_outbound reads_sanitize_tool_result : agent.

Lemma reads_tool_definitions {E} : reads (tool_definitions (E:=E)).
Proof. done. Qed.
Lemma reads_api_embeddings {E} c inputs d : reads (api_embeddings (E:=E) c inputs d).
Proof. unfold api_embeddings. reads_auto. Qed.
#[local] Hint Resolve reads_tool_definitions reads_api_embeddings : agent.
Lemma reads_retrieve {E} h q l d ms c : reads (retrieve_memory_matches (E:=E) h q l d ms c).
Proof. unfold retrieve_memory_matches. reads_auto. Qed.
#[local] Hint Resolve reads_retrieve : agent.
Lemma reads_build_recall {E} limit : reads (build_memory_recall_message (E:=E) limit).
Proof. unfold build_memory_recall_message. reads_auto. Qed.
#[local] Hint Resolve reads_build_recall : agent.

Lemma reads_sleep d : reads (sleep_with_cancellation d).
Proof. unfold sleep_with_cancellation. reads_auto. Qed.
Lemma reads_run_attempt {E} r d b buf : reads (run_attempt (E:=E) r d b buf).
Proof. unfold run_attempt. reads_auto. Qed.
#[local] Hint Resolve reads_sleep reads_run_attempt : agent.

Lemma reads_retry_loop remaining : ∀ exhausted request on_delta buffered attempt backoff maxb buffer,
  reads exhausted →
  reads (retry_loop exhausted remaining request on_delta buffered attempt backoff maxb buffer).
Proof.
  induction remaining as [|n IH]; intros; cbn [retry_loop]; reads_auto; by apply IH.
Qed.

Lemma reads_complete_with_retry r d : reads (complete_with_retry r d).
Proof. unfold complete_with_retry. reads_auto. apply reads_retry_loop. apply reads_fail. Qed.
#[local] Hint Resolve reads_complete_with_retry : agent.

Lemma reads_spawn_tool {E} call : reads (spawn_tool_call_task (E:=E) call).
Proof. unfold spawn_tool_call_task. reads_auto. Qed.
Lemma reads_await_tool {E} call : reads (await_tool_task (E:=E) call).
Proof. unfold await_tool_task. reads_auto. Qed.
Lemma reads_emit_tool_start {E} call : reads (emit_tool_start (E:=E) call).
Proof. apply reads_emit. Qed.
Lemma reads_try_acquire {E} : reads (try_acquire_branch_run_slot (E:=E)).
Proof. unfold try_acquire_branch_run_slot. reads_auto. Qed.
Lemma reads_release {E} n : reads (release_branch_run_slots (E:=E) n).
Proof. done. Qed.
#[local] Hint Resolve reads_spawn_tool reads_await_tool reads_emit_tool_start reads_try_acquire
  reads_release : agent.

Lemma reads_start_chunk calls : reads (start_chunk calls).
Proof. induction calls; cbn [start_chunk]; reads_auto. Qed.

Lemma reads_next_process_id {E} t : reads (next_process_id (E:=E) t).
Proof. unfold next_process_id. reads_auto. Qed.
Lemma reads_run_worker w p : reads (run_worker w p).
Proof. intros [a s]. unfold run_worker. by destruct (prompt_internal _ _ _ _ _) as [? [? ?]]. Qed.
#[local] Hint Resolve reads_next_process_id reads_run_worker : agent.

Lemma reads_execute_branch_followup call r : reads (execute_branch_followup call r).
Proof. unfold execute_branch_followup. reads_auto. Qed.
Lemma reads_worker_followup call r : reads (worker_followup call r).
Proof. apply reads_ret. Qed.

Lemma reads_finish_run {E} i : reads (finish_run (E:=E) i).
Proof. unfold finish_run. reads_auto. Qed.

Lemma reads_maybe_followup f call r :
  (∀ c r, reads (f c r)) → reads (maybe_execute_branch_followup f call r).
Proof. intros Hf. unfold maybe_execute_branch_followup. reads_auto. Qed.
End reads.

#[export] Hint Resolve reads_emit reads_is_cancelled reads_check_cancelled reads_report_scan
  reads_inspect_prompt reads_inspect_leak reads_sanitize_inbound reads_sanitize_outbound
  reads_sanitize_tool_result reads_tool_definitions reads_build_recall reads_sleep
  reads_run_attempt reads_complete_with_retry reads_spawn_tool reads_await_tool
  reads_emit_tool_start reads_try_acquire reads_release reads_start_chunk
  reads_next_process_id reads_run_worker reads_execute_branch_followup reads_worker_followup
  reads_finish_run reads_maybe_followup : agent.

(** ** Operations that at most append messages without tool calls *)

Section quiet.
Context `{JC : JsonCodec} `{JS : JsonSchema} `{AE : AgentEnv}.

(** What no operation of the loop changes. *)
Definition statics (a : Agent) :=
  (ag_config a, ag_cancellation_token a, ag_safety_policy a, ag_sanitizer a, ag_leak_detector a,
   ag_tools a, ag_agent_id a, ag_async_handlers a).

Definition plain (new : list (Message Value)) : Prop := Forall (λ m, tool_calls m = []) new.

Definition quiet_agent (a a' : Agent) : Prop :=
  statics a' = statics a ∧ ∃ new, ag_messages a' = ag_messages a ++ new ∧ plain new.
Definition quiet (st st' : St) : Prop := quiet_agent st.1 st'.1.

#[export] Instance quiet_agent_preorder : PreOrder quiet_agent.
Proof.
  split.
  - intros a. split; [done|]. exists []. split; [by rewrite app_nil_r|constructor].
  - intros a b c [H1 (n1 & E1 & P1)] [H2 (n2 & E2 & P2)]. split; [congruence|].
    exists (n1 ++ n2). split; [by rewrite E2, E1, (assoc_L (++))|by apply Forall_app].
Qed.
#[export] Instance quiet_preorder : PreOrder quiet.
Proof.
  split; [intros st; red; reflexivity|]. intros x y z H1 H2. red. etrans; [exact H1|exact H2].
Qed.

Definition quietly {E A} (m : Eff St E A) : Prop := moves quiet m.

Lemma reads_quietly {E A} (m : Eff St E A) : reads m → quietly m.
Proof. intros H st. unfold quiet. specialize (H st). red in H. rewrite H. reflexivity. Qed.
Lemma quietly_bind {E A B} (m : Eff St E A) (f : A → Eff St E B) :
  quietly m → (∀ a, quietly (f a)) → quietly (m ≫= f).
Proof. apply (moves_bind quiet). Qed.
Lemma quietly_each {E A} (f : A → Eff St E unit) l : (∀ x, quietly (f x)) → quietly (each f l).
Proof. intros H. apply (moves_each quiet). intros x _. apply H. Qed.
Lemma quietly_when {E} c (m : Eff St E unit) : quietly m → quietly (when c m).
Proof. apply (moves_when quiet). Qed.
Lemma quietly_on_agent {E} f : (∀ a, quiet_agent a (f a)) → quietly (on_agent (E:=E) f).
Proof. intros H [a s]. apply H. Qed.
Lemma quiet_same (a a' : Agent) :
  statics a' = statics a → ag_messages a' = ag_messages a → quiet_agent a a'.
Proof. intros H1 H2. split; [done|]. exists []. split; [by rewrite app_nil_r|constructor]. Qed.
Lemma quietly_push {E} m : tool_calls m = [] → quietly (push_message (E:=E) m).
Proof.
  intros Hm. apply quietly_on_agent. intros a. split; [done|]. exists [m].
  split; [done|by repeat constructor].
Qed.
End quiet.

#[export] Hint Resolve reads_quietly quietly_each quietly_when : agent.
#[export] Hint Extern 2 (quietly (on_agent _)) =>
  apply quietly_on_agent; intros ?; apply quiet_same; reflexivity : agent.
#[export] Hint Extern 2 (quietly (push_message _)) => apply quietly_push; reflexivity : agent.
Ltac quietly_auto :=
  repeat first
    [ progress eauto 3 with agent
    | apply @quietly_bind; [|intros ?]
    | match goal with |- context [match ?x with _ => _ end] => destruct x end ].

Section quiet_ops.
Context `{JC : JsonCodec} `{JS : JsonSchema} `{AE : AgentEnv}.

Lemma quietly_alert {E} t b u th : quietly (alert_if_reached (E:=E) t b u th).
Proof. unfold alert_if_reached. quietly_auto. Qed.
#[local] Hint Resolve quietly_alert : agent.
Lemma quietly_accumulate {E} t u :
  quietly (accumulate_usage_and_emit_cost_events (E:=E) t u).
Proof. unfold accumulate_usage_and_emit_cost_events. quietly_auto. Qed.

Lemma quietly_poll_warn {E} : quietly (poll_warn_compaction (E:=E)).
Proof. unfold poll_warn_compaction. quietly_auto. Qed.
#[local] Hint Resolve quietly_poll_warn : agent.
Lemma quietly_take_ready {E} ms : quietly (take_ready_warn_compaction (E:=E) ms).
Proof. unfold take_ready_warn_compaction. quietly_auto. Qed.
Lemma quietly_schedule {E} ms c : quietly (schedule_warn_compaction_if_needed (E:=E) ms c).
Proof. unfold schedule_warn_compaction_if_needed. quietly_auto. Qed.
Lemma quietly_artifact {E} t : quietly (append_system_artifact_if_new (E:=E) t).
Proof. unfold append_system_artifact_if_new. quietly_auto. Qed.
#[local] Hint Resolve quietly_take_ready quietly_schedule quietly_artifact : agent.
Lemma quietly_persist {E} t ms : quietly (persist_compaction_artifacts (E:=E) t ms).
Proof. unfold persist_compaction_artifacts. quietly_auto. Qed.
Lemma quietly_drop_warn {E} : quietly (drop_warn_state (E:=E)).
Proof. unfold drop_warn_state. quietly_auto. Qed.
#[local] Hint Resolve quietly_persist quietly_drop_warn : agent.
Lemma quietly_compact {E} ms : quietly (compact_for_pressure (E:=E) ms).
Proof. unfold compact_for_pressure. quietly_auto. Qed.
#[local] Hint Resolve quietly_compact : agent.
Lemma quietly_request_messages {E} : quietly (request_messages (E:=E)).
Proof. unfold request_messages. quietly_auto. Qed.
#[local] Hint Resolve quietly_request_messages : agent.
Lemma quietly_build_request json : quietly (build_request json).
Proof. unfold build_request. quietly_auto. Qed.

Lemma quiet_store_response r d p a : quiet_agent a (store_response_cache r d p a).
Proof.
  unfold store_response_cache. case_match; [reflexivity|]. case_match; [|reflexivity].
  destruct (cache_insert_with_limit _ _ _ _ _). by apply quiet_same.
Qed.
Lemma quiet_store_tool c r a : quiet_agent a (store_tool_result_cache c r a).
Proof.
  unfold store_tool_result_cache. case_match; [reflexivity|]. case_match; [|reflexivity].
  case_match; [reflexivity|]. destruct (cache_insert_with_limit _ _ _ _ _). by apply quiet_same.
Qed.
Lemma quiet_record_directive m n e a : quiet_agent a (record_directive m n e a).
Proof. unfold record_directive. repeat case_match; by apply quiet_same. Qed.
Lemma quietly_answer r d : quietly (answer_request r d).
Proof.
  unfold answer_request. quietly_auto. apply quietly_on_agent. intros a0. apply quiet_store_response.
Qed.
End quiet_ops.

#[export] Hint Resolve quietly_accumulate quietly_take_ready quietly_schedule quietly_artifact
  quietly_persist quietly_drop_warn quietly_compact quietly_request_messages
  quietly_build_request quietly_answer : agent.

(** ** Operations that always succeed *)

Section total.
Context `{JC : JsonCodec} `{JS : JsonSchema} `{AE : AgentEnv}.

Definition total {E A} (m : Eff St E A) : Prop := ∀ st, is_ok (m st).1 = true.

Lemma total_bind {E A B} (m : Eff St E A) (f : A → Eff St E B) :
  total m → (∀ a, total (f a)) → total (m ≫= f).
Proof.
  intros Hm Hf st. rewrite eff_bind_unfold. specialize (Hm st).
  destruct (m st) as [[a|e] st']; [apply Hf|done].
Qed.
Lemma total_ret {E A} (x : A) : total (mret (M:=Eff St E) x).
Proof. done. Qed.
Lemma total_gets {E A} (f : St → A) : total (gets (E:=E) f).
Proof. done. Qed.
Lemma total_ask {E A} (f : Agent → A) : total (ask (E:=E) f).
Proof. done. Qed.
Lemma total_on_sys {E} f : total (on_sys (E:=E) f).
Proof. done. Qed.
Lemma total_on_agent {E} f : total (on_agent (E:=E) f).
Proof. done. Qed.
Lemma total_world_op {E A} (f : World → A * World) : total (world_op (E:=E) f).
Proof. intros st. unfold world_op. by destruct (f _). Qed.
Lemma total_each {E A} (f : A → Eff St E unit) l : (∀ x, total (f x)) → total (each f l).
Proof. intros H. induction l; cbn [each]; [apply total_ret|by apply total_bind]. Qed.
Lemma total_when {E} c (m : Eff St E unit) : total m → total (when c m).
Proof. by destruct c. Qed.
Lemma total_push {E} m : total (push_message (E:=E) m).
Proof. done. Qed.
Lemma total_release {E} n : total (release_branch_run_slots (E:=E) n).
Proof. done. Qed.
End total.

#[export] Hint Resolve total_ret total_gets total_ask total_on_sys total_on_agent total_world_op
  total_each total_when total_push total_release : agent.
Ltac total_auto := frame_split @total_bind.

Section total_ops.
Context `{JC : JsonCodec} `{JS : JsonSchema} `{AE : AgentEnv}.

Lemma total_emit {E} e : total (emit (E:=E) e).
Proof. unfold emit. total_auto. apply total_each. intros i. unfold dispatch_async. total_auto. Qed.
#[local] Hint Resolve total_emit : agent.
Lemma total_is_cancelled {E} : total (is_cancelled (E:=E)).
Proof. unfold is_cancelled. total_auto. Qed.
Lemma total_report_scan {E} stage mode scan : total (report_scan (E:=E) stage mode scan).
Proof. unfold report_scan. total_auto. Qed.
#[local] Hint Resolve total_report_scan total_is_cancelled : agent.
Lemma total_inspect_prompt {E} stage text : total (inspect_prompt_safety_text (E:=E) stage text).
Proof. unfold inspect_prompt_safety_text. total_auto. Qed.
Lemma total_inspect_leak {E} stage text : total (inspect_secret_leak_text (E:=E) stage text).
Proof. unfold inspect_secret_leak_text. total_auto. Qed.
#[local] Hint Resolve total_inspect_prompt total_inspect_leak : agent.
Lemma total_sanitize_tool {E} r : total (sanitize_tool_result (E:=E) r).
Proof. unfold sanitize_tool_result. total_auto. Qed.
Lemma total_sanitize_inbound {E} t : total (sanitize_inbound_text (E:=E) t).
Proof. unfold sanitize_inbound_text. total_auto. Qed.
#[local] Hint Resolve total_sanitize_tool : agent.
Lemma total_record {E} c r : total (record_tool_result (E:=E) c r).
Proof. unfold record_tool_result. total_auto. Qed.
Lemma total_spawn_tool {E} c : total (spawn_tool_call_task (E:=E) c).
Proof. unfold spawn_tool_call_task. total_auto. Qed.
Lemma total_await_tool {E} c : total (await_tool_task (E:=E) c).
Proof. unfold await_tool_task. total_auto. Qed.
Lemma total_emit_tool_start {E} c : total (emit_tool_start (E:=E) c).
Proof. apply total_emit. Qed.
Lemma total_try_acquire {E} : total (try_acquire_branch_run_slot (E:=E)).
Proof. unfold try_acquire_branch_run_slot. total_auto. Qed.
#[local] Hint Resolve total_record total_spawn_tool total_await_tool total_emit_tool_start
  total_try_acquire : agent.
Lemma total_next_process_id {E} t : total (next_process_id (E:=E) t).
Proof. unfold next_process_id. total_auto. Qed.
Lemma total_run_worker w p : total (run_worker w p).
Proof. intros [a s]. unfold run_worker. by destruct (prompt_internal _ _ _ _ _) as [? [? ?]]. Qed.
#[local] Hint Resolve total_next_process_id total_run_worker : agent.
Lemma total_execute_branch_followup call r : total (execute_branch_followup call r).
Proof. unfold execute_branch_followup. total_auto. Qed.
Lemma total_maybe_followup f call r :
  (∀ c r, total (f c r)) → total (maybe_execute_branch_followup f call r).
Proof. intros Hf. unfold maybe_execute_branch_followup. total_auto. Qed.
Lemma total_finish_tool_call f call r :
  (∀ c r, total (f c r)) → total (finish_tool_call f call r).
Proof.
  intros Hf. unfold finish_tool_call. apply total_bind; [by apply total_maybe_followup|].
  intros ?. total_auto.
Qed.
End total_ops.

#[export] Hint Resolve total_emit total_is_cancelled total_sanitize_tool total_sanitize_inbound
  total_record total_spawn_tool total_await_tool total_emit_tool_start total_try_acquire
  total_execute_branch_followup : agent.

(** ** Recording a result *)

Section shape.
Context `{JC : JsonCodec} `{JS : JsonSchema} `{AE : AgentEnv}.

(** Recording a result appends exactly one message, the answer to the call. *)
Lemma record_tool_result_shape {E} call r (a : Agent) (s : Sys) :
  ∃ stored s1 a' s',
    sanitize_tool_result (E:=E) r (a, s) = (Ok stored, (a, s1)) ∧
    record_tool_result (E:=E) call r (a, s) = (Ok (tr_is_error stored), (a', s')) ∧
    statics a' = statics a ∧
    ag_messages a' = ag_messages a ++
      [tool_result (tool_call_id_of call) (tool_call_name call) (as_text stored)
         (tr_is_error stored)].
Proof.
  unfold record_tool_result. rewrite eff_bind_unfold.
  pose proof (reads_sanitize_tool_result (E:=E) r (a, s)) as Hr.
  pose proof (total_sanitize_tool (E:=E) r (a, s)) as Ht.
  destruct (sanitize_tool_result r (a, s)) as [[r'|e] [a1 s1]]; [|done].
  cbn in Hr. red in Hr. cbn in Hr. subst a1. clear Ht.
  rewrite eff_bind_unfold.
  pose proof (reads_emit (E:=E) (ToolExecutionEnd (tool_call_id_of call) (tool_call_name call) r') (a, s1)) as Hr.
  pose proof (total_emit (E:=E) (ToolExecutionEnd (tool_call_id_of call) (tool_call_name call) r') (a, s1)) as Ht.
  destruct (emit _ (a, s1)) as [[[]|e] [a2 s2]]; [|done].
  red in Hr. cbn in Hr. subst a2. clear Ht.
  set (msg := tool_result _ _ _ _). rewrite eff_bind_unfold. cbn [push_message on_agent modify fst snd].
  set (a3 := set_ag_messages (ag_messages a ++ [msg]) a). rewrite eff_bind_unfold.
  pose proof (reads_emit (E:=E) (MessageAdded msg) (a3, s2)) as Hr.
  pose proof (total_emit (E:=E) (MessageAdded msg) (a3, s2)) as Ht.
  destruct (emit _ (a3, s2)) as [[[]|e] [a4 s4]]; [|done].
  red in Hr. cbn in Hr. subst a4. clear Ht. rewrite eff_bind_unfold.
  cbn [on_agent modify fst snd mret eff_ret].
  destruct (quiet_record_directive msg (tool_call_name call) (tr_is_error r') a3) as [Hs _].
  assert (ag_messages (record_directive msg (tool_call_name call) (tr_is_error r') a3) = ag_messages a3) as Hm.
  { unfold record_directive. repeat case_match; done. }
  eexists r', _, _, _. split; [reflexivity|]. split; [reflexivity|]. split; [by rewrite Hs|by rewrite Hm].
Qed.
End shape.

(** ** Operations that keep the messages *)

Section settled.
Context `{JC : JsonCodec} `{JS : JsonSchema} `{AE : AgentEnv}.

Definition settled (st st' : St) : Prop :=
  statics st'.1 = statics st.1 ∧ ag_messages st'.1 = ag_messages st.1.
#[export] Instance settled_preorder : PreOrder settled.
Proof. split; [done|]. intros x y z [? ?] [? ?]. split; congruence. Qed.

Definition settles {E A} (m : Eff St E A) : Prop := moves settled m.

Lemma reads_settles {E A} (m : Eff St E A) : reads m → settles m.
Proof. intros H st. specialize (H st). red in H. unfold settled. by rewrite H. Qed.
Lemma settles_bind {E A B} (m : Eff St E A) (f : A → Eff St E B) :
  settles m → (∀ a, settles (f a)) → settles (m ≫= f).
Proof. apply (moves_bind settled). Qed.
Lemma settles_each {E A} (f : A → Eff St E unit) l : (∀ x, settles (f x)) → settles (each f l).
Proof. intros H. apply (moves_each settled). intros x _. apply H. Qed.
Lemma settles_when {E} c (m : Eff St E unit) : settles m → settles (when c m).
Proof. apply (moves_when settled). Qed.
End settled.

#[export] Hint Resolve reads_settles settles_each settles_when : agent.
#[export] Hint Extern 2 (settles (on_agent _)) => intros [? ?]; split; reflexivity : agent.
Ltac settles_auto :=
  repeat first
    [ progress eauto 3 with agent
    | apply @settles_bind; [|intros ?]
    | match goal with |- context [match ?x with _ => _ end] => destruct x end ].

Section settled_ops.
Context `{JC : JsonCodec} `{JS : JsonSchema} `{AE : AgentEnv}.

Lemma settles_accumulate {E} t u : settles (accumulate_usage_and_emit_cost_events (E:=E) t u).
Proof.
  unfold accumulate_usage_and_emit_cost_events. settles_auto.
  all: apply settles_each; intros th; unfold alert_if_reached; settles_auto.
Qed.
Lemma total_accumulate {E} t u : total (accumulate_usage_and_emit_cost_events (E:=E) t u).
Proof.
  unfold accumulate_usage_and_emit_cost_events. total_auto.
  all: apply total_each; intros th; unfold alert_if_reached; total_auto.
Qed.
End settled_ops.

#[export] Hint Resolve settles_accumulate total_accumulate : agent.

(** ** A scripted environment for the agent

    The world is a script: the attempts of the client, the answers of the
    cancellation token and the fates of the tool tasks, in the order in which
    they are asked for.  Instantiates the agent's environment for concrete runs. *)

Record Script := mkScript
  { sc_attempts : list Attempt; sc_polls : list bool; sc_fates : list TaskFate }.

Definition next_poll (w : Script) : bool * Script :=
  match sc_polls w with
  | b :: polls => (b, mkScript (sc_attempts w) polls (sc_fates w))
  | [] => (false, w)
  end.
Definition next_attempt (w : Script) : Attempt * Script :=
  match sc_attempts w with
  | a :: attempts => (a, mkScript attempts (sc_polls w) (sc_fates w))
  | [] => (mkAttempt [] None (Err MissingApiKey), w)
  end.
Definition next_fate (w : Script) : TaskFate * Script :=
  match sc_fates w with
  | f :: fates => (f, mkScript (sc_attempts w) (sc_polls w) fates)
  | [] => (mkFate None false None (λ _, result_ok Null), w)
  end.

(** Requests print as the text of their messages. *)
Definition request_text (r : ChatRequest Value) : string :=
  join newline (text_content <$> rq_messages r).

Definition scripted_env : AgentEnv := {|
  World := Script;
  ToolImpl := unit;
  poll_cancelled := next_poll;
  elapsed_ms := λ w, (0%N, w);
  unix_ms := λ _, 0%N;
  client_attempt := λ _ _, next_attempt;
  sleep_ms := λ _ w, (false, w);
  spawn_task := λ _ _ w, w;
  join_task := λ _ _, next_fate;
  poll_brief := λ w, (BriefPending, w);
  send_event := λ _ _ _ w, (true, w);
  tool_order := λ _ l, l;
  request_to_string := λ r, Some (request_text r);
  request_from_str := λ _, None;
  to_lowercase := to_ascii_lowercase;
  embed_text_vector := λ _ _, [];
  cosine_similarity := λ _ _, S754_zero false;
  embed_text_vectors_via_api := λ _ _ _ _ _ w, (Err "offline", w);
  format_score := λ _, "0.00" |}.

#[export] Instance scripted_env_laws : AgentEnvLaws scripted_env.
Proof. split. by intros w l. Qed.

(** A printer and reader of the empty object. *)
Definition script_codec : JsonCodec := {|
  json_parse := λ s, if String.eqb s "{}" then Some (Obj []) else None;
  json_to_string := λ _, "{}";
  json_to_string_pretty := λ _, "{}" |}.

(** A schema that accepts every payload. *)
Definition open_schema : JsonSchema := {| validator_for := λ _, Ok (λ _, []) |}.

(** A scanner that flags texts containing a marker and redacts all of them. *)
Definition marker_scan (marker text token : string) : SafetyScanResult :=
  if str_contains marker text
  then mkScanResult token [mkMatch "marker" "marker.found" 0 (String.length text)]
  else mkScanResult text [].

Definition answer_with (m : Message Value) : Attempt :=
  mkAttempt [] None (Ok (mkResponse m None (mkChatUsage 1 1 2 0))).

Definition calling (names : list string) : Message Value :=
  assistant_blocks ((λ n, ToolCallBlock ("id-" +:+ n) n Null) <$> names).

Definition scripted_agent (token : bool) (names : list string) : @Agent scripted_env :=
  let a := @agent_new scripted_env agent_config_default
             (marker_scan "INJECT") (marker_scan "SECRET") in
  let tool n := @mkRegistered scripted_env (mkToolDefinition n "" Null) tt false in
  foldl (λ a n, @register_tool scripted_env (tool n) a)
    (@set_ag_cancellation_token scripted_env token a) names.

Definition scripted_sys (w : Script) : @Sys scripted_env :=
  @mkSys scripted_env w [] 0 0 [] [] [] 0 0.
