(* ===== verification/AgentProtocol.v ===== *)
(** * The conversation protocol of the agent

    Providers accept a conversation only if every message that carries tool calls
    is followed by one result per call, in order, before anything else.  The
    protocol is the abstract specification; the loop, with all its retries,
    compaction artifacts, replans, parallel chunks and branch follow-ups,
    implements it. *)

From Stdlib Require Import NArith Lia.
From stdpp Require Import base gmap strings list.
From S2P Require Import Prelude RustStr Json Messages ChatTypes Safety Effects AgentTurn AgentTools AgentCache Processes AgentEnv AgentState AgentContext AgentLoop AgentFrame.

#[local] Open Scope list_scope.
#[local] Open Scope nat_scope.

(** ** The specification *)

Definition answers (call : ToolCall Value) (m : Message Value) : bool :=
  bool_decide (msg_role m = Tool) && bool_decide (msg_tool_call_id m = Some (tool_call_id_of call))
  && bool_decide (msg_tool_name m = Some (tool_call_name call)).

(** Reads messages with the calls that wait for their results; the calls still
    waiting at the end, or [None] if some message does not follow the protocol. *)
Fixpoint protocol (waiting : list (ToolCall Value)) (ms : list (Message Value))
    : option (list (ToolCall Value)) :=
  match ms with
  | [] => Some waiting
  | m :: ms =>
      match waiting with
      | [] => protocol (tool_calls m) ms
      | call :: waiting => if answers call m then protocol waiting ms else None
      end
  end.

(** A complete conversation leaves no call waiting. *)
Definition complete_conversation (ms : list (Message Value)) : Prop := protocol [] ms = Some [].

Lemma protocol_app w xs ys : protocol w (xs ++ ys) = protocol w xs ≫= λ w', protocol w' ys.
Proof.
  revert w. induction xs as [|m xs IH]; intros w; [done|]. cbn.
  destruct w as [|c w]; [apply IH|]. destruct (answers c m); [apply IH|done].
Qed.

Lemma protocol_plain ms : plain ms → protocol [] ms = Some [].
Proof. induction 1 as [|m ms Hm _ IH]; cbn; [done|]. by rewrite Hm. Qed.

Lemma answers_tool_result call text e :
  answers call (tool_result (tool_call_id_of call) (tool_call_name call) text e) = true.
Proof. unfold answers, tool_result. cbn. by rewrite !bool_decide_true by done. Qed.

Section protocol.
Context `{JC : JsonCodec} `{JS : JsonSchema} `{AE : AgentEnv}.

(** Since the agent was [base], without a token, it has run the protocol up to the
    waiting calls and nothing of its static part has changed. *)
Definition conv (base : Agent) (waiting : list (ToolCall Value)) (st : St) : Prop :=
  ag_cancellation_token base = false ∧ statics st.1 = statics base ∧
  ∃ new, ag_messages st.1 = ag_messages base ++ new ∧ protocol [] new = Some waiting.

Lemma conv_same base w (st st' : St) :
  statics st'.1 = statics st.1 → ag_messages st'.1 = ag_messages st.1 →
  conv base w st → conv base w st'.
Proof. intros Hs Hm (Ht & Hb & Hn). split; [done|]. split; [congruence|by rewrite Hm]. Qed.

Lemma conv_reads {E A} (m : Eff St E A) base w :
  reads m → triple (conv base w) m (λ _, conv base w).
Proof. intros H st Hc. specialize (H st). red in H. apply (conv_same _ _ st); [by rewrite H..|done]. Qed.

Lemma conv_settles {E A} (m : Eff St E A) base w :
  settles m → triple (conv base w) m (λ _, conv base w).
Proof. intros H st Hc. destruct (H st) as [Hs Hm]. by apply (conv_same _ _ st). Qed.

Lemma conv_quiet {E A} (m : Eff St E A) base :
  quietly m → triple (conv base []) m (λ _, conv base []).
Proof.
  intros H st (Ht & Hb & new & Hn & Hp). destruct (H st) as [Hs (more & Hm & Hplain)].
  split; [done|]. split; [congruence|].
  exists (new ++ more). rewrite Hm, Hn, (assoc_L (++)). split; [done|].
  rewrite protocol_app, Hp. by apply protocol_plain.
Qed.

Lemma conv_push {E} m base :
  triple (conv base []) (push_message (E:=E) m) (λ _, conv base (tool_calls m)).
Proof.
  intros [a s] (Ht & Hb & new & Hn & Hp). split; [done|]. split; [done|].
  exists (new ++ [m]). cbn in *.
  rewrite Hn, <- (assoc_L (++)). split; [done|]. rewrite protocol_app, Hp. done.
Qed.

Lemma conv_record {E} call r base w :
  triple (conv base (call :: w)) (record_tool_result (E:=E) call r) (λ _, conv base w).
Proof.
  intros [a s] (Ht & Hb & new & Hn & Hp).
  destruct (record_tool_result_shape (E:=E) call r a s) as (r' & s1 & a' & s' & _ & -> & Hs & Hm).
  cbn in *. split; [done|]. split; cbn; [congruence|].
  eexists. rewrite Hm, Hn, <- (assoc_L (++)). split; [reflexivity|].
  rewrite protocol_app, Hp. cbn. by rewrite answers_tool_result.
Qed.

(** Sequencing when every outcome of the first step is in [Q], or when it cannot
    fail. *)
Lemma conv_seq {E A B} (m : Eff St E A) (f : A → Eff St E B) base w w' :
  triple (conv base w) m (λ _, conv base []) → (∀ a, triple (conv base []) (f a) (λ _, conv base w')) →
  w' = [] → triple (conv base w) (m ≫= f) (λ _, conv base w').
Proof. intros Hm Hf ->. eapply triple_bind; [exact Hm|exact Hf|done]. Qed.

Lemma conv_seq_total {E A B} (m : Eff St E A) (f : A → Eff St E B) base w w' w'' :
  total m → triple (conv base w) m (λ _, conv base w') →
  (∀ a, triple (conv base w') (f a) (λ _, conv base w'')) →
  triple (conv base w) (m ≫= f) (λ _, conv base w'').
Proof.
  intros Ht Hm Hf st Hc. rewrite eff_bind_unfold. specialize (Hm st Hc). specialize (Ht st).
  destruct (m st) as [[a|e] st']; [by apply Hf|done].
Qed.

Lemma conv_ret {E A} (x : A) base w : triple (conv base w) (mret (M:=Eff St E) x) (λ _, conv base w).
Proof. by intros st. Qed.

(** Without a token nothing is cancelled. *)
Lemma no_token_is_cancelled {E} base w st :
  conv base w st → is_cancelled (E:=E) st = (Ok false, st).
Proof.
  intros (Ht & Hb & _). unfold is_cancelled. rewrite eff_bind_unfold. cbn.
  assert (ag_cancellation_token st.1 = false) as -> by (unfold statics in Hb; congruence). done.
Qed.
Lemma no_token_check base w st : conv base w st → check_cancelled st = (Ok tt, st).
Proof.
  intros Hc. unfold check_cancelled. rewrite eff_bind_unfold.
  by rewrite (no_token_is_cancelled base w st Hc).
Qed.
Lemma conv_check {A} (f : unit → Eff St AgentError A) base w w' :
  triple (conv base w) (f tt) (λ _, conv base w') →
  triple (conv base w) (check_cancelled ≫= f) (λ _, conv base w').
Proof.
  intros Hf st Hc. rewrite eff_bind_unfold, (no_token_check base w st Hc). by apply Hf.
Qed.

Section followup.
Context (f : ToolCall Value → ToolExecutionResult → Eff St AgentError ToolExecutionResult).
Hypothesis f_reads : ∀ c r, reads (f c r).
Hypothesis f_total : ∀ c r, total (f c r).

Lemma conv_finish_tool_call call r base w :
  triple (conv base (call :: w)) (finish_tool_call f call r) (λ _, conv base w).
Proof.
  unfold finish_tool_call. eapply conv_seq_total.
  { by apply total_maybe_followup. }
  { apply conv_reads. by apply reads_maybe_followup. }
  intros [r' slot]. eapply conv_seq_total.
  { apply total_on_agent. }
  { intros [a s] Hc. destruct (quiet_store_tool call r' a) as [Hs _].
    apply (conv_same _ _ (a, s)); [exact Hs| |exact Hc]. cbn.
    unfold store_tool_result_cache. repeat case_match; done. }
  intros []. eapply conv_seq_total; [apply total_record|apply conv_record|].
  intros b. apply conv_ret.
Qed.

Lemma conv_execute_tool_call call base w :
  triple (conv base (call :: w)) (execute_tool_call f call) (λ _, conv base w).
Proof.
  intros st Hc. unfold execute_tool_call. rewrite eff_bind_unfold, (no_token_is_cancelled _ _ st Hc).
  revert st Hc. change (triple (conv base (call :: w)) (_ ← emit_tool_start call;
    cached ← ask (λ a, lookup_tool_result_cache a call);
    result ← match cached with
             | Some cached => mret cached
             | None => _ ← spawn_tool_call_task call; await_tool_task call
             end;
    finished ← finish_tool_call f call result;
    let '(is_error, slot) := finished in
    _ ← release_branch_run_slots (if slot : bool then 1 else 0);
    mret is_error) (λ _, conv base w)).
  eapply conv_seq_total; [apply total_emit_tool_start|apply conv_reads; eauto with agent|]. intros [].
  eapply conv_seq_total; [apply total_ask|apply conv_reads; eauto with agent|]. intros cached.
  eapply conv_seq_total; [by total_auto|apply conv_reads; by reads_auto|]. intros r.
  eapply conv_seq_total; [by apply total_finish_tool_call|apply conv_finish_tool_call|].
  intros [b slot]. eapply conv_seq_total; [apply total_release|apply conv_reads; eauto with agent|].
  intros []. apply conv_ret.
Qed.

Lemma execute_tool_call_total call base w st :
  conv base w st → is_ok (execute_tool_call f call st).1 = true.
Proof.
  intros Hc. unfold execute_tool_call. rewrite eff_bind_unfold, (no_token_is_cancelled _ _ st Hc).
  revert st Hc. intros st _. revert st. change (total (_ ← emit_tool_start call;
    cached ← ask (λ a, lookup_tool_result_cache a call);
    result ← match cached with
             | Some cached => mret cached
             | None => _ ← spawn_tool_call_task call; await_tool_task call
             end;
    finished ← finish_tool_call f call result;
    let '(is_error, slot) := finished in
    _ ← release_branch_run_slots (if slot : bool then 1 else 0);
    mret is_error)).
  apply total_bind; [apply total_emit_tool_start|intros []].
  apply total_bind; [apply total_ask|intros cached].
  apply total_bind; [by total_auto|intros r].
  apply total_bind; [by apply total_finish_tool_call|intros [b slot]].
  apply total_bind; [apply total_release|intros []]. apply total_ret.
Qed.

Lemma conv_execute_serially calls : ∀ stats base,
  triple (conv base calls) (execute_serially f stats calls) (λ _, conv base []).
Proof.
  induction calls as [|call calls IH]; intros stats base; cbn [execute_serially]; [apply conv_ret|].
  apply conv_check. intros st Hc. rewrite eff_bind_unfold.
  pose proof (conv_execute_tool_call call base calls st Hc) as Hc'.
  pose proof (execute_tool_call_total call _ _ st Hc) as Ht.
  destruct (execute_tool_call f call st) as [[b|e] st']; [|done]. by apply IH.
Qed.

(** Starting a chunk fails only when cancelled, and keeps the calls. *)
Lemma start_chunk_ok base w chunk : ∀ st, conv base w st →
  ∃ pending, (start_chunk chunk st).1 = Ok pending ∧ pending.*1 = chunk.
Proof.
  induction chunk as [|call chunk IH]; intros st Hc; cbn [start_chunk]; [by exists []|].
  rewrite eff_bind_unfold, (no_token_check _ _ st Hc).
  assert (∀ {A} (m : Eff St AgentError A) (k : A → Eff St AgentError
      (list (ToolCall Value * option ToolExecutionResult))) st, conv base w st →
    total m → reads m →
    (∀ a st, conv base w st → ∃ pending, (k a st).1 = Ok pending ∧ pending.*1 = call :: chunk) →
    ∃ pending, ((m ≫= k) st).1 = Ok pending ∧ pending.*1 = call :: chunk) as Hseq.
  { intros A m k st0 Hc0 Ht Hr Hk. rewrite eff_bind_unfold.
    pose proof (conv_reads m base w Hr st0 Hc0) as Hc1. specialize (Ht st0).
    destruct (m st0) as [[a|e] st1]; [by apply Hk|done]. }
  apply Hseq; [done|apply total_emit_tool_start|eauto with agent|]. intros [] st1 Hc1.
  apply Hseq; [done|apply total_ask|eauto with agent|]. intros cached st2 Hc2.
  apply Hseq; [done|destruct cached; eauto with agent|destruct cached; eauto with agent|].
  intros [] st3 Hc3. rewrite eff_bind_unfold.
  pose proof (conv_reads (start_chunk chunk) base w (reads_start_chunk chunk) st3 Hc3) as Hc4.
  destruct (IH st3 Hc3) as (pending & Hp & Hf).
  destruct (start_chunk chunk st3) as [r st4]. cbn in Hp. subst r.
  exists ((call, cached) :: pending). cbn. by rewrite Hf.
Qed.

Lemma conv_finish_chunk pending : ∀ stats slots base w st,
  conv base (pending.*1 ++ w) st →
  ∃ x, (finish_chunk f stats slots pending st).1 = Ok x ∧
       conv base w (finish_chunk f stats slots pending st).2.
Proof.
  induction pending as [|[call cached] pending IH]; intros stats slots base w st Hc;
    cbn [finish_chunk]; [by eexists|].
  rewrite eff_bind_unfold.
  set (m := match cached with Some c => mret c | None => await_tool_task call end
    : Eff St AgentError ToolExecutionResult).
  assert (total m ∧ reads m) as [Ht Hr] by (unfold m; destruct cached; split; eauto with agent).
  pose proof (conv_reads _ _ _ Hr st Hc) as Hc1. specialize (Ht st).
  destruct (m st) as [[r|e] st1]; [|done]. clear Ht Hr. rewrite eff_bind_unfold.
  pose proof (conv_finish_tool_call call r base (pending.*1 ++ w) st1 Hc1) as Hc2.
  pose proof (total_finish_tool_call f call r f_total st1) as Ht.
  destruct (finish_tool_call f call r st1) as [[[b slot]|e] st2]; [|done]. by apply IH.
Qed.

Lemma chunks_fuel_concat {A} fuel n (l : list A) :
  0 < n → length l ≤ fuel → concat (chunks_fuel fuel n l) = l.
Proof.
  intros Hn. revert l. induction fuel as [|fuel IH]; intros [|x l] Hl; cbn in *; try done; [lia|].
  destruct n as [|n]; [lia|]. cbn. f_equal. rewrite IH by (rewrite length_drop; lia). apply take_drop.
Qed.

Lemma conv_execute_chunks cs : ∀ stats base,
  triple (conv base (concat cs)) (execute_chunks f stats cs) (λ _, conv base []).
Proof.
  induction cs as [|chunk cs IH]; intros stats base; cbn [execute_chunks concat]; [apply conv_ret|].
  apply conv_check. intros st Hc. rewrite eff_bind_unfold.
  destruct (start_chunk_ok _ _ chunk st Hc) as (pending & Hp & Hf).
  pose proof (conv_reads _ _ _ (reads_start_chunk chunk) st Hc) as Hc1.
  destruct (start_chunk chunk st) as [r st1]. cbn in Hp. subst r. cbn in Hc1.
  rewrite eff_bind_unfold. rewrite <- Hf in Hc1.
  destruct (conv_finish_chunk pending stats 0 base (concat cs) st1 Hc1) as ([stats' slots] & Hx & Hc2).
  destruct (finish_chunk f stats 0 pending st1) as [r st2]. cbn in Hx. subst r. cbn in Hc2.
  rewrite eff_bind_unfold. cbn. apply IH. by apply (conv_same _ _ st2).
Qed.

Lemma conv_execute_tool_calls calls base :
  triple (conv base calls) (execute_tool_calls f calls) (λ _, conv base []).
Proof.
  unfold execute_tool_calls. apply conv_check.
  eapply conv_seq_total; [apply total_ask|apply conv_reads; eauto with agent|]. intros c.
  set (n := Nat.max _ 1). assert (0 < n) by (unfold n; lia). clearbody n.
  case_match; [apply conv_execute_serially|].
  rewrite <- (chunks_fuel_concat (length calls) n calls) at 1 by lia.
  apply conv_execute_chunks.
Qed.

(** ** Turns *)

Lemma conv_run_turn start turn d j p used base :
  triple (conv base []) (run_turn f start turn d j p used) (λ _, conv base []).
Proof.
  unfold run_turn. apply conv_check.
  eapply conv_seq; [apply conv_quiet; eauto with agent| |done]. intros [].
  eapply conv_seq; [apply conv_quiet; eauto with agent| |done]. intros request.
  eapply conv_seq; [apply conv_quiet; eauto with agent| |done]. intros response.
  eapply conv_seq; [apply conv_quiet; eauto with agent| |done]. intros ms. cbn zeta.
  eapply conv_seq_total; [apply total_push|apply conv_push|]. intros [].
  eapply conv_seq_total; [apply total_emit|apply conv_reads; eauto with agent|]. intros [].
  destruct (tool_calls (rp_message response)) as [|call calls].
  - apply conv_quiet. quietly_auto.
  - eapply conv_seq_total; [apply total_accumulate|apply conv_settles; eauto with agent|]. intros [].
    eapply conv_seq_total; [apply total_ask|apply conv_reads; eauto with agent|]. intros c.
    eapply conv_seq; [apply conv_execute_tool_calls| |done]. intros stats.
    apply conv_quiet. quietly_auto.
Qed.

Lemma conv_run_turns remaining : ∀ turn start d j p used base,
  triple (conv base []) (run_turns f remaining turn start d j p used) (λ _, conv base []).
Proof.
  induction remaining as [|n IH]; intros; cbn [run_turns].
  - apply conv_quiet. quietly_auto.
  - eapply conv_seq; [apply conv_run_turn| |done]. intros [ms|[p' used']]; [apply conv_ret|apply IH].
Qed.

Lemma conv_run_loop start d j base :
  triple (conv base []) (run_loop f start d j) (λ _, conv base []).
Proof.
  unfold run_loop. apply conv_check.
  eapply conv_seq; [apply conv_quiet; quietly_auto| |done]. intros [].
  eapply conv_seq; [apply conv_quiet; quietly_auto| |done]. intros [].
  eapply conv_seq; [apply conv_quiet; quietly_auto| |done]. intros n. apply conv_run_turns.
Qed.
End followup.

(** ** What a run returns *)

(** Every successful outcome satisfies [Φ] in the state it leaves. *)
Definition returns {E A} (m : Eff St E A) (Φ : A → St → Prop) : Prop :=
  ∀ st a, (m st).1 = Ok a → Φ a (m st).2.

Lemma returns_bind {E A B} (m : Eff St E A) (f : A → Eff St E B) Φ :
  (∀ a, returns (f a) Φ) → returns (m ≫= f) Φ.
Proof.
  intros Hf st b. rewrite eff_bind_unfold. destruct (m st) as [[a|e] st']; [apply Hf|done].
Qed.

Lemma finish_run_returns {E} start :
  returns (finish_run (E:=E) start) (λ ms st, ms = drop start (ag_messages st.1)).
Proof.
  intros [a s] ms. unfold finish_run. rewrite !eff_bind_unfold. cbn [ask gets fst snd].
  rewrite eff_bind_unfold.
  pose proof (reads_emit (E:=E) (AgentEnd (length (drop start (ag_messages a)))) (a, s)) as Hr.
  destruct (emit _ (a, s)) as [[[]|e] [a' s']]; [|done]. red in Hr. cbn in Hr. subst a'.
  by intros [= <-].
Qed.

Definition run_result (start : nat) (r : list (Message Value) + (bool * nat)) (st : St) : Prop :=
  match r with inl ms => ms = drop start (ag_messages st.1) | inr _ => True end.

Lemma finish_run_result {E} start :
  returns (ms ← finish_run (E:=E) start; mret (inl ms)) (run_result start).
Proof.
  intros st r. rewrite eff_bind_unfold.
  pose proof (finish_run_returns (E:=E) start st) as H.
  destruct (finish_run start st) as [[ms|e] st']; [|done]. intros [= <-]. by apply H.
Qed.

Lemma run_turn_returns f start turn d j p used :
  returns (run_turn f start turn d j p used) (run_result start).
Proof.
  unfold run_turn.
  repeat first
    [ apply finish_run_result
    | by intros st r [= <-]
    | match goal with |- returns (_ ≫= _) _ => apply returns_bind; intros ? end
    | match goal with |- context [match ?x with _ => _ end] => destruct x end ].
Qed.

Lemma run_turns_returns f remaining : ∀ turn start d j p used,
  returns (run_turns f remaining turn start d j p used)
    (λ ms st, ms = drop start (ag_messages st.1)).
Proof.
  induction remaining as [|n IH]; intros; cbn [run_turns]; [by apply returns_bind|].
  intros st ms. rewrite eff_bind_unfold.
  pose proof (run_turn_returns f start turn d j p used st) as H.
  destruct (run_turn _ _ _ _ _ _ _ st) as [[[ms'|[p' used']]|e] st']; [| |done].
  - intros [= <-]. exact (H (inl ms') eq_refl).
  - apply IH.
Qed.

Lemma run_loop_returns f start d j :
  returns (run_loop f start d j) (λ ms st, ms = drop start (ag_messages st.1)).
Proof.
  unfold run_loop. do 4 (apply returns_bind; intros ?). apply run_turns_returns.
Qed.

(** The history after a successful run. *)
Definition compacted_history (c : AgentConfig) (ms : list (Message Value)) : list (Message Value) :=
  match c_max_context_messages c with
  | Some limit => if length ms <=? limit then ms else bounded_messages ms limit
  | None => ms
  end.

Lemma compact_message_history_messages (a : Agent) :
  ag_messages (compact_message_history a) = compacted_history (ag_config a) (ag_messages a).
Proof.
  unfold compact_message_history, compacted_history. destruct (c_max_context_messages _); [|done].
  by destruct (length (ag_messages a) <=? n).
Qed.
End protocol.

(** ** The refinement *)

Section theorem.
Context `{JC : JsonCodec} `{JS : JsonSchema} `{AE : AgentEnv}.

(** C5: the agent loop implements the conversation protocol: whatever the model,
    the tools and the compaction do, a prompt of an agent without cancellation
    token adds messages in which every tool call is answered by a result with its
    id and name, in order and before anything else.  A successful prompt returns
    exactly the messages it added, starting with the user's, and keeps them in the
    history, which is then bounded; a failed one keeps what it added. *)
Theorem prompt_follows_protocol (a : Agent) (s : Sys) (text : string) (on_delta json_mode : bool) :
  ag_cancellation_token a = false →
  let '(r, (a', _)) := prompt_internal execute_branch_followup text on_delta json_mode (a, s) in
  ∃ new, complete_conversation new ∧
    match r with
    | Ok returned =>
        returned = new ∧ (∃ sanitized rest, new = message_user sanitized :: rest) ∧
        ag_messages a' = compacted_history (ag_config a) (ag_messages a ++ new)
    | Err _ => ag_messages a' = ag_messages a ++ new
    end.
Proof.
  intros Htoken. unfold prompt_internal. rewrite eff_bind_unfold. cbn [ask gets fst snd].
  rewrite eff_bind_unfold.
  pose proof (reads_sanitize_inbound (E:=AgentError) text (a, s)) as Hr.
  pose proof (total_sanitize_inbound (E:=AgentError) text (a, s)) as Ht.
  destruct (sanitize_inbound_text text (a, s)) as [[[text'|codes]|e] [a1 s1]]; [| |done];
    red in Hr; cbn in Hr; subst a1; clear Ht.
  2: { exists []. split; [done|]. cbn. by rewrite app_nil_r. }
  rewrite eff_bind_unfold. cbn [push_message on_agent modify fst snd].
  set (a2 := set_ag_messages (ag_messages a ++ [message_user text']) a).
  rewrite eff_bind_unfold.
  pose proof (reads_emit (E:=AgentError) (MessageAdded (message_user text')) (a2, s1)) as Hr.
  pose proof (total_emit (E:=AgentError) (MessageAdded (message_user text')) (a2, s1)) as Ht.
  destruct (emit _ (a2, s1)) as [[[]|e] [a3 s3]]; [|done].
  red in Hr; cbn in Hr; subst a3; clear Ht. rewrite eff_bind_unfold.
  pose proof (conv_run_loop execute_branch_followup reads_execute_branch_followup
    total_execute_branch_followup (length (ag_messages a)) on_delta json_mode a2 (a2, s3)) as Hc.
  pose proof (run_loop_returns execute_branch_followup (length (ag_messages a)) on_delta json_mode
    (a2, s3)) as Hret.
  destruct (run_loop _ _ _ _ (a2, s3)) as [r [a4 s4]].
  destruct Hc as (_ & Hst & new & Hm & Hp).
  { split; [done|]. split; [done|]. exists []. by rewrite app_nil_r. }
  cbn in Hst, Hm, Hret. rewrite <- (assoc_L (++)) in Hm.
  assert (complete_conversation (message_user text' :: new)) as Hcomplete by exact Hp.
  destruct r as [ms|e]; cbn.
  - exists (message_user text' :: new). split; [done|]. split; [|split].
    + rewrite (Hret ms eq_refl), Hm. by rewrite drop_app_length.
    + by eexists _, _.
    + rewrite compact_message_history_messages. cbn [fst snd]. rewrite Hm. f_equal. unfold statics in Hst.
      change (ag_config a) with (ag_config a2). congruence.
  - exists (message_user text' :: new). split; [done|]. exact Hm.
Qed.
End theorem.

(** ** A concrete run: two tool calls, one of them to an unknown tool *)

Definition tool_run : Script :=
  mkScript [answer_with (calling ["read"; "nope"]%string); answer_with (assistant_text "all done")]
    [] [].

Lemma prompt_follows_protocol_witness :
  ∃ r, @prompt_internal script_codec open_schema scripted_env
         (@execute_branch_followup script_codec open_schema scripted_env) "hello" false false
         (scripted_agent false ["read"%string], scripted_sys tool_run) = r ∧
  ∃ new, complete_conversation new ∧ r.1 = Ok new ∧ length new = 5.
Proof.
  eexists. split; [reflexivity|].
  pose proof (@prompt_follows_protocol script_codec open_schema scripted_env
    (scripted_agent false ["read"%string]) (scripted_sys tool_run) "hello" false false
    eq_refl) as H.
  assert (match (@prompt_internal script_codec open_schema scripted_env
             (@execute_branch_followup script_codec open_schema scripted_env) "hello" false false
             (scripted_agent false ["read"%string], scripted_sys tool_run)).1 with
          | Ok new => length new | Err _ => 0
          end = 5) as Hlen by (vm_compute; reflexivity).
  destruct (prompt_internal _ _ _ _ _) as [[ms|e] [a' s']]; [|discriminate Hlen].
  destruct H as (new & Hc & -> & _). exists new. split; [exact Hc|]. split; [reflexivity|].
  exact Hlen.
Defined.

(** ** Cancellation leaves calls unanswered *)

Definition run_scripted (text : string) (st : @St scripted_env) :=
  @prompt_internal script_codec open_schema scripted_env
    (@execute_branch_followup script_codec open_schema scripted_env) text false false st.

(** The token is found cancelled when the tool calls are about to run. *)
Definition cancelled_run : Script :=
  mkScript [answer_with (calling ["read"]%string); answer_with (assistant_text "hm")]
    [false; false; false; false; true] [].

(** With a token the protocol can be broken: a run cancelled between the model's
    answer and its tool calls keeps the answer in the history without results, and
    the request of the next prompt then violates the protocol. *)
Lemma cancelled_run_leaves_calls_unanswered :
  let '(r1, st1) := run_scripted "hello"
    (scripted_agent true ["read"%string], scripted_sys cancelled_run) in
  let '(r2, (a2, s2)) := run_scripted "again" st1 in
  r1 = Err CancelledError ∧
  protocol [] (ag_messages st1.1) = Some [mkToolCall "id-read" "read" Null] ∧
  is_ok r2 = true ∧
  (protocol [] ∘ rq_messages <$> last (sys_sent s2)) = Some None.
Proof. vm_compute. by split_and!. Qed.
