(* ===== verification/AgentSends.v ===== *)
(** * What the agent sends

    Every request the loop hands to the client is within the token budget and, in
    block mode, has passed the leak scan; each is attempted a bounded number of
    times.  The background request of the warn tier is the exception. *)

From Stdlib Require Import NArith Lia.
From stdpp Require Import base gmap strings list.
From S2P Require Import Prelude RustStr Json Messages ChatTypes Safety Effects AgentTurn AgentTools AgentCache Processes AgentEnv AgentState AgentContext AgentLoop AgentFrame.

#[local] Open Scope list_scope.
#[local] Open Scope nat_scope.

(** ** Operations that send nothing *)

Section unsent.
Context `{JC : JsonCodec} `{JS : JsonSchema} `{AE : AgentEnv}.

Definition same_sent (st st' : St) : Prop := sys_sent st'.2 = sys_sent st.2.
#[export] Instance same_sent_preorder : PreOrder same_sent.
Proof. split; [done|]. unfold same_sent. intros x y z. congruence. Qed.

Definition unsent {E A} (m : Eff St E A) : Prop := moves same_sent m.

Lemma unsent_bind {E A B} (m : Eff St E A) (f : A → Eff St E B) :
  unsent m → (∀ a, unsent (f a)) → unsent (m ≫= f).
Proof. apply (moves_bind same_sent). Qed.
Lemma unsent_ret {E A} (x : A) : unsent (mret (M:=Eff St E) x).
Proof. done. Qed.
Lemma unsent_fail {E A} (e : E) : unsent (fail (S:=St) (A:=A) e).
Proof. done. Qed.
Lemma unsent_gets {E A} (f : St → A) : unsent (gets (E:=E) f).
Proof. done. Qed.
Lemma unsent_ask {E A} (f : Agent → A) : unsent (ask (E:=E) f).
Proof. done. Qed.
Lemma unsent_of_result {E A} (r : Result E A) : unsent (of_result (S:=St) r).
Proof. done. Qed.
Lemma unsent_fail_if {E} c (e : E) : unsent (fail_if (S:=St) c e).
Proof. done. Qed.
Lemma unsent_on_agent {E} f : unsent (on_agent (E:=E) f).
Proof. done. Qed.
Lemma unsent_push {E} m : unsent (push_message (E:=E) m).
Proof. done. Qed.
Lemma unsent_world_op {E A} (f : World → A * World) : unsent (world_op (E:=E) f).
Proof. intros [a s]. unfold world_op. by destruct (f _). Qed.
Lemma unsent_each {E A} (f : A → Eff St E unit) l : (∀ x, unsent (f x)) → unsent (each f l).
Proof. intros H. apply (moves_each same_sent). intros x _. apply H. Qed.
Lemma unsent_when {E} c (m : Eff St E unit) : unsent m → unsent (when c m).
Proof. apply (moves_when same_sent). Qed.
End unsent.

#[export] Hint Resolve unsent_ret unsent_fail unsent_gets unsent_ask unsent_of_result
  unsent_fail_if unsent_on_agent unsent_push unsent_world_op unsent_each unsent_when : agent.
#[export] Hint Extern 2 (unsent (on_sys _)) => intros [? ?]; reflexivity : agent.
Ltac unsent_auto := frame_split @unsent_bind.

Section unsent_ops.
Context `{JC : JsonCodec} `{JS : JsonSchema} `{AE : AgentEnv}.

Lemma unsent_dispatch {E} e i : unsent (dispatch_async (E:=E) e i).
Proof.
  unfold dispatch_async. apply unsent_bind; [eauto with agent|intros ?].
  apply unsent_bind; [eauto with agent|intros [] [? ?]; reflexivity].
Qed.
#[local] Hint Resolve unsent_dispatch : agent.
Lemma unsent_emit {E} e : unsent (emit (E:=E) e).
Proof. unfold emit. unsent_auto. Qed.
#[local] Hint Resolve unsent_emit : agent.
Lemma unsent_is_cancelled {E} : unsent (is_cancelled (E:=E)).
Proof. unfold is_cancelled. unsent_auto. Qed.
#[local] Hint Resolve unsent_is_cancelled : agent.
Lemma unsent_check_cancelled : unsent check_cancelled.
Proof. unfold check_cancelled. unsent_auto. Qed.
Lemma unsent_report_scan {E} stage mode scan : unsent (report_scan (E:=E) stage mode scan).
Proof. unfold report_scan. unsent_auto. Qed.
#[local] Hint Resolve unsent_check_cancelled unsent_report_scan : agent.
Lemma unsent_inspect_prompt {E} stage text : unsent (inspect_prompt_safety_text (E:=E) stage text).
Proof. unfold inspect_prompt_safety_text. unsent_auto. Qed.
Lemma unsent_inspect_leak {E} stage text : unsent (inspect_secret_leak_text (E:=E) stage text).
Proof. unfold inspect_secret_leak_text. unsent_auto. Qed.
#[local] Hint Resolve unsent_inspect_prompt unsent_inspect_leak : agent.
Lemma unsent_sanitize_inbound {E} text : unsent (sanitize_inbound_text (E:=E) text).
Proof. unfold sanitize_inbound_text. unsent_auto. Qed.
Lemma unsent_sanitize_outbound request : unsent (sanitize_outbound_http_request request).
Proof. unfold sanitize_outbound_http_request. unsent_auto. Qed.
Lemma unsent_sanitize_tool {E} r : unsent (sanitize_tool_result (E:=E) r).
Proof. unfold sanitize_tool_result. unsent_auto. Qed.
#[local] Hint Resolve unsent_sanitize_inbound unsent_sanitize_outbound unsent_sanitize_tool : agent.
Lemma unsent_alert {E} t b u th : unsent (alert_if_reached (E:=E) t b u th).
Proof. unfold alert_if_reached. unsent_auto. Qed.
#[local] Hint Resolve unsent_alert : agent.
Lemma unsent_accumulate {E} t u : unsent (accumulate_usage_and_emit_cost_events (E:=E) t u).
Proof. unfold accumulate_usage_and_emit_cost_events. unsent_auto. Qed.
Lemma unsent_poll_warn {E} : unsent (poll_warn_compaction (E:=E)).
Proof. unfold poll_warn_compaction. unsent_auto. Qed.
#[local] Hint Resolve unsent_accumulate unsent_poll_warn : agent.
Lemma unsent_take_ready {E} ms : unsent (take_ready_warn_compaction (E:=E) ms).
Proof. unfold take_ready_warn_compaction. unsent_auto. Qed.
Lemma unsent_schedule {E} ms c : unsent (schedule_warn_compaction_if_needed (E:=E) ms c).
Proof. unfold schedule_warn_compaction_if_needed. unsent_auto. Qed.
Lemma unsent_artifact {E} t : unsent (append_system_artifact_if_new (E:=E) t).
Proof. unfold append_system_artifact_if_new. unsent_auto. Qed.
#[local] Hint Resolve unsent_take_ready unsent_schedule unsent_artifact : agent.
Lemma unsent_persist {E} t ms : unsent (persist_compaction_artifacts (E:=E) t ms).
Proof. unfold persist_compaction_artifacts. unsent_auto. Qed.
Lemma unsent_drop_warn {E} : unsent (drop_warn_state (E:=E)).
Proof. apply unsent_on_agent. Qed.
#[local] Hint Resolve unsent_persist unsent_drop_warn : agent.
Lemma unsent_compact {E} ms : unsent (compact_for_pressure (E:=E) ms).
Proof. unfold compact_for_pressure. unsent_auto. Qed.
Lemma unsent_api_embeddings {E} c i d : unsent (api_embeddings (E:=E) c i d).
Proof. unfold api_embeddings. unsent_auto. Qed.
#[local] Hint Resolve unsent_compact unsent_api_embeddings : agent.
Lemma unsent_retrieve {E} h q l d ms c : unsent (retrieve_memory_matches (E:=E) h q l d ms c).
Proof. unfold retrieve_memory_matches. unsent_auto. Qed.
#[local] Hint Resolve unsent_retrieve : agent.
Lemma unsent_recall {E} limit : unsent (build_memory_recall_message (E:=E) limit).
Proof. unfold build_memory_recall_message. unsent_auto. Qed.
#[local] Hint Resolve unsent_recall : agent.
Lemma unsent_request_messages {E} : unsent (request_messages (E:=E)).
Proof. unfold request_messages. unsent_auto. Qed.
Lemma unsent_tool_definitions {E} : unsent (tool_definitions (E:=E)).
Proof. done. Qed.
#[local] Hint Resolve unsent_request_messages unsent_tool_definitions : agent.
Lemma unsent_build_request json : unsent (build_request json).
Proof. unfold build_request. unsent_auto. Qed.
Lemma unsent_record {E} c r : unsent (record_tool_result (E:=E) c r).
Proof. unfold record_tool_result. unsent_auto. Qed.
Lemma unsent_spawn_tool {E} c : unsent (spawn_tool_call_task (E:=E) c).
Proof. unfold spawn_tool_call_task. unsent_auto. Qed.
Lemma unsent_await_tool {E} c : unsent (await_tool_task (E:=E) c).
Proof. unfold await_tool_task. unsent_auto. Qed.
Lemma unsent_emit_tool_start {E} c : unsent (emit_tool_start (E:=E) c).
Proof. apply unsent_emit. Qed.
Lemma unsent_try_acquire {E} : unsent (try_acquire_branch_run_slot (E:=E)).
Proof. unfold try_acquire_branch_run_slot. unsent_auto. Qed.
Lemma unsent_release {E} n : unsent (release_branch_run_slots (E:=E) n).
Proof. unfold release_branch_run_slots. unsent_auto. Qed.
Lemma unsent_sleep d : unsent (sleep_with_cancellation d).
Proof. unfold sleep_with_cancellation. unsent_auto. Qed.
Lemma unsent_finish_run {E} i : unsent (finish_run (E:=E) i).
Proof. unfold finish_run. unsent_auto. Qed.
Lemma unsent_next_process_id {E} t : unsent (next_process_id (E:=E) t).
Proof. unfold next_process_id. unsent_auto. Qed.
#[local] Hint Resolve unsent_spawn_tool unsent_emit_tool_start : agent.
Lemma unsent_start_chunk calls : unsent (start_chunk calls).
Proof. induction calls; cbn [start_chunk]; unsent_auto. Qed.
End unsent_ops.

#[export] Hint Resolve unsent_emit unsent_is_cancelled unsent_check_cancelled
  unsent_sanitize_inbound unsent_accumulate unsent_build_request unsent_record unsent_spawn_tool
  unsent_await_tool unsent_emit_tool_start unsent_try_acquire unsent_release unsent_sleep
  unsent_finish_run unsent_next_process_id unsent_start_chunk : agent.

(** ** Inspections *)

Section inspections.
Context `{JC : JsonCodec} `{JS : JsonSchema} `{AE : AgentEnv}.

(** What an inspection finds, given whether the stage is enabled, the mode and
    the scan. *)
Definition inspection_of (enabled : bool) (mode : SafetyMode) (text : string)
    (scan : SafetyScanResult) : option SafetyInspection :=
  if negb enabled || is_empty (trim text) || negb (has_matches scan) then None
  else Some (mkInspection mode (redacted_text scan) (matched_rule_ids scan) (reason_codes scan)).

Lemma report_scan_spec {E} stage mode scan (a : Agent) (s : Sys) :
  ∃ s', report_scan (E:=E) stage mode scan (a, s) =
    (Ok (inspection_of true mode "x" scan), (a, s')) ∧ sys_sent s' = sys_sent s.
Proof.
  unfold report_scan, inspection_of. cbn [orb negb]. destruct (has_matches scan); cbn [negb orb].
  2: { by eexists. }
  rewrite eff_bind_unfold.
  set (e := SafetyPolicyApplied _ _ _ _ _).
  pose proof (reads_emit (E:=E) e (a, s)) as Hr. pose proof (total_emit (E:=E) e (a, s)) as Ht.
  pose proof (unsent_emit (E:=E) e (a, s)) as Hu.
  destruct (emit e (a, s)) as [[[]|] [a' s']]; [|done]. red in Hr, Hu. cbn in Hr, Hu. subst a'.
  by eexists.
Qed.

Lemma inspect_prompt_spec {E} stage text (a : Agent) (s : Sys) :
  let p := ag_safety_policy a in
  ∃ s', inspect_prompt_safety_text (E:=E) stage text (a, s) =
    (Ok (inspection_of (prompt_safety_stage_enabled p stage) (sp_mode p) text
           (ag_sanitizer a text (redaction_token p))), (a, s')) ∧ sys_sent s' = sys_sent s.
Proof.
  cbn zeta. unfold inspect_prompt_safety_text. rewrite eff_bind_unfold. cbn [ask gets fst snd id].
  destruct (negb _ || is_empty (trim text)) eqn:Hc.
  - exists s. split; [|done]. unfold inspection_of. by rewrite Hc.
  - destruct (report_scan_spec (E:=E) stage (sp_mode (ag_safety_policy a))
      (ag_sanitizer a text (redaction_token (ag_safety_policy a))) a s) as (s' & -> & Hs).
    exists s'. split; [|done]. unfold inspection_of. by rewrite Hc.
Qed.

Lemma inspect_leak_spec {E} stage text (a : Agent) (s : Sys) :
  let p := ag_safety_policy a in
  ∃ s', inspect_secret_leak_text (E:=E) stage text (a, s) =
    (Ok (inspection_of (leak_stage_enabled p stage) (secret_leak_mode p) text
           (ag_leak_detector a text (secret_leak_redaction_token p))), (a, s')) ∧
    sys_sent s' = sys_sent s.
Proof.
  cbn zeta. unfold inspect_secret_leak_text. rewrite eff_bind_unfold. cbn [ask gets fst snd id].
  destruct (negb _ || is_empty (trim text)) eqn:Hc.
  - exists s. split; [|done]. unfold inspection_of. by rewrite Hc.
  - destruct (report_scan_spec (E:=E) stage (secret_leak_mode (ag_safety_policy a))
      (ag_leak_detector a text (secret_leak_redaction_token (ag_safety_policy a))) a s) as (s' & -> & Hs).
    exists s'. split; [|done]. unfold inspection_of. by rewrite Hc.
Qed.
End inspections.

(** ** Clearance *)

Section clearance.
Context `{JC : JsonCodec} `{JS : JsonSchema} `{AE : AgentEnv}.

(** What decides whether a request may leave. *)
Definition clearance (a : Agent) :=
  (c_max_estimated_input_tokens (ag_config a), c_max_estimated_total_tokens (ag_config a),
   ag_safety_policy a, ag_leak_detector a).

(** The payload of a request has no detected leak. *)
Definition leak_free (a : Agent) (r : ChatRequest Value) : Prop :=
  ∃ payload, request_to_string r = Some payload ∧
    (is_empty (trim payload) = true ∨
     has_matches (ag_leak_detector a payload
       (secret_leak_redaction_token (ag_safety_policy a))) = false).

(** The estimate is within both budgets and, when outbound leaks are blocked,
    the payload has none. *)
Definition cleared (a : Agent) (r : ChatRequest Value) : Prop :=
  enforce_token_budget (ag_config a) r = Ok tt ∧
  (leak_stage_enabled (ag_safety_policy a) OutboundHttpPayload = true →
   secret_leak_mode (ag_safety_policy a) = Block → leak_free a r).

Lemma cleared_clearance a a' r : clearance a' = clearance a → cleared a r → cleared a' r.
Proof.
  unfold clearance, cleared, enforce_token_budget, leak_free. intros [= -> -> -> ->]. done.
Qed.

Lemma sanitize_outbound_spec request (a : Agent) (s : Sys) request' st' :
  sanitize_outbound_http_request request (a, s) = (Ok request', st') →
  leak_stage_enabled (ag_safety_policy a) OutboundHttpPayload = true →
  secret_leak_mode (ag_safety_policy a) = Block → leak_free a request'.
Proof.
  intros H Hen Hmode. unfold sanitize_outbound_http_request in H. rewrite eff_bind_unfold in H.
  cbn [ask gets fst snd] in H. rewrite Hen, Hmode in H.
  rewrite (bool_decide_eq_true_2 (Block = Block)) in H by done. cbn [andb] in H.
  rewrite eff_bind_unfold in H. unfold fail_if, of_result, bail_if in H.
  destruct (match rq_temperature request with Some _ => _ | None => _ end); [done|].
  destruct (request_to_string request) as [payload|] eqn:Hp; [|done].
  rewrite eff_bind_unfold in H.
  destruct (inspect_leak_spec (E:=AgentError) OutboundHttpPayload payload a s) as (s' & Hi & _).
  rewrite Hi in H. rewrite Hen, Hmode in H. unfold inspection_of in H. cbn [negb orb] in H.
  destruct (is_empty (trim payload)) eqn:He; cbn [orb] in H.
  { injection H as <- _. exists payload. auto. }
  destruct (has_matches _) eqn:Hm; cbn [negb] in H; [done|].
  injection H as <- _. exists payload. auto.
Qed.

Lemma build_request_cleared json (st st' : St) request :
  build_request json st = (Ok request, st') → cleared st'.1 request.
Proof.
  destruct st as [a s]. unfold build_request. rewrite eff_bind_unfold. cbn [tool_definitions gets].
  rewrite eff_bind_unfold. cbn [ask gets fst snd]. rewrite eff_bind_unfold.
  pose proof (quietly_request_messages (E:=AgentError) (a, s)) as [Hst _].
  destruct (request_messages (a, s)) as [[ms|e] [a1 s1]]; [|done]. cbn in Hst.
  cbn zeta. set (req := mkRequest _ _ _ _ _ _ _ _). rewrite eff_bind_unfold.
  pose proof (reads_sanitize_outbound req (a1, s1)) as Hr.
  pose proof (sanitize_outbound_spec req a1 s1) as Hspec.
  destruct (sanitize_outbound_http_request req (a1, s1)) as [[req'|e] [a2 s2]]; [|done].
  red in Hr. cbn in Hr. subst a2. rewrite eff_bind_unfold. unfold of_result at 1.
  destruct (enforce_token_budget (ag_config a) req') as [[]|e] eqn:Hb; [|done].
  intros [= <- <-]. cbn. split; [|by eapply Hspec].
  unfold statics in Hst. congruence.
Qed.

(** ** The relation: only cleared requests are added *)

Definition sends (st st' : St) : Prop :=
  clearance st'.1 = clearance st.1 ∧
  ∃ new, sys_sent st'.2 = sys_sent st.2 ++ new ∧ Forall (cleared st.1) new.

#[export] Instance sends_preorder : PreOrder sends.
Proof.
  split.
  - intros st. split; [done|]. exists []. split; [by rewrite app_nil_r|constructor].
  - intros x y z [H1 (n1 & E1 & F1)] [H2 (n2 & E2 & F2)]. split; [congruence|].
    exists (n1 ++ n2). rewrite E2, E1, (assoc_L (++)). split; [done|]. apply Forall_app. split; [done|].
    eapply Forall_impl; [exact F2|]. intros r. apply cleared_clearance. congruence.
Qed.

Definition sending {E A} (m : Eff St E A) : Prop := moves sends m.

Lemma sending_bind {E A B} (m : Eff St E A) (f : A → Eff St E B) :
  sending m → (∀ a, sending (f a)) → sending (m ≫= f).
Proof. apply (moves_bind sends). Qed.

Lemma statics_clearance a a' : statics a' = statics a → clearance a' = clearance a.
Proof. unfold statics, clearance. intros [= -> _ -> _ -> _ _ _]. done. Qed.

Lemma sending_calm {E A} (m : Eff St E A) : quietly m → unsent m → sending m.
Proof.
  intros Hq Hu st. destruct (Hq st) as [Hs _]. split; [by apply statics_clearance|].
  exists []. rewrite app_nil_r. split; [apply Hu|constructor].
Qed.
Lemma sending_on_agent {E} f : (∀ a, statics (f a) = statics a) → sending (on_agent (E:=E) f).
Proof.
  intros H [a s]. split; [by apply statics_clearance, H|].
  exists []. rewrite app_nil_r. split; [done|constructor].
Qed.
End clearance.

#[export] Hint Extern 3 (sending _) => apply sending_calm; [solve [eauto 3 with agent]|solve [eauto 3 with agent]] : agent.
#[export] Hint Extern 2 (sending (on_agent _)) => apply sending_on_agent; intros ?; reflexivity : agent.
#[export] Hint Extern 2 (sending (push_message _)) => apply sending_on_agent; intros ?; reflexivity : agent.
Ltac sending_auto := frame_split @sending_bind.

(** ** Retries *)

Section retries.
Context `{JC : JsonCodec} `{JS : JsonSchema} `{AE : AgentEnv}.

(** At most [n] requests were sent, all of them this one. *)
Definition repeats (r : ChatRequest Value) (n : nat) (st st' : St) : Prop :=
  ∃ k, k ≤ n ∧ sys_sent st'.2 = sys_sent st.2 ++ replicate k r.

Lemma repeats_unsent {E A} (m : Eff St E A) r n : unsent m → moves (repeats r n) m.
Proof. intros H st. exists 0. split; [lia|]. rewrite (H st). cbn. by rewrite app_nil_r. Qed.

Lemma repeats_bind {E A B} (m : Eff St E A) (f : A → Eff St E B) r n1 n2 n :
  moves (repeats r n1) m → (∀ a, moves (repeats r n2) (f a)) → n1 + n2 ≤ n →
  moves (repeats r n) (m ≫= f).
Proof.
  intros Hm Hf Hn st. rewrite eff_bind_unfold. destruct (Hm st) as (k & Hk & Hs).
  destruct (m st) as [[a|e] st']; cbn in *.
  - destruct (Hf a st') as (k' & Hk' & Hs'). exists (k + k'). split; [lia|].
    by rewrite Hs', Hs, replicate_add, (assoc_L (++)).
  - exists k. split; [lia|done].
Qed.

Lemma repeats_after {E A B} (m : Eff St E A) (f : A → Eff St E B) r n :
  unsent m → (∀ a, moves (repeats r n) (f a)) → moves (repeats r n) (m ≫= f).
Proof. intros Hm Hf. eapply (repeats_bind _ _ _ 0 n); [by apply repeats_unsent|done|lia]. Qed.

Lemma run_attempt_repeats {E} r d b buf : moves (repeats r 1) (run_attempt (E:=E) r d b buf).
Proof.
  unfold run_attempt. eapply (repeats_bind _ _ _ 1 0); [|intros []|lia].
  { intros [a s]. by exists 1. }
  apply repeats_unsent. unsent_auto. all: intros [? ?]; by destruct d.
Qed.

Lemma retry_loop_repeats remaining : ∀ exhausted r d b attempt backoff maxb buf,
  unsent exhausted →
  moves (repeats r (S remaining)) (retry_loop exhausted remaining r d b attempt backoff maxb buf).
Proof.
  induction remaining as [|n IH]; intros exhausted r d b attempt backoff maxb buf He; cbn [retry_loop].
  all: apply repeats_after; [eauto with agent|intros []].
  all: apply repeats_after; [eauto with agent|intros c].
  all: apply repeats_after; [eauto with agent|intros token].
  - eapply (repeats_bind _ _ _ 1 0); [apply run_attempt_repeats|intros [o buf']|lia].
    apply repeats_unsent. unsent_auto.
  - eapply (repeats_bind _ _ _ 1 (S n)); [apply run_attempt_repeats|intros [o buf']|lia].
    assert (∀ back buf, moves (repeats r (S n)) (_ ← sleep_with_cancellation back;
      retry_loop exhausted n r d b (attempt + 1) (N.min (saturating_mul_u64 back 2) maxb) maxb buf)) as Hagain.
    { intros back buf0. apply repeats_after; [eauto with agent|]. intros []. by apply IH. }
    repeat case_match; try apply Hagain; apply repeats_unsent; eauto with agent.
Qed.

(** The loop never runs out of retries: what it would do then does not matter. *)
Lemma retry_loop_not_exhausted remaining : ∀ e1 e2 r d b attempt backoff maxb buf (a : Agent) s,
  attempt + remaining = c_request_max_retries (ag_config a) →
  retry_loop e1 remaining r d b attempt backoff maxb buf (a, s) =
  retry_loop e2 remaining r d b attempt backoff maxb buf (a, s).
Proof.
  induction remaining as [|n IH]; intros e1 e2 r d b attempt backoff maxb buf a s Hsum; cbn [retry_loop];
    rewrite !eff_bind_unfold; pose proof (reads_check_cancelled (a, s)) as Hr;
    destruct (check_cancelled (a, s)) as [[[]|e] [a1 s1]]; try done;
    red in Hr; cbn in Hr; subst a1; rewrite !eff_bind_unfold; cbn [ask gets fst snd];
    rewrite !eff_bind_unfold; cbn [ask gets fst snd]; rewrite !eff_bind_unfold;
    pose proof (reads_run_attempt (E:=AgentError) r d b buf (a, s1)) as Hr;
    destruct (run_attempt r d b buf (a, s1)) as [[[o buf']|e] [a2 s2]]; try done;
    red in Hr; cbn in Hr; subst a2.
  - rewrite (proj2 (Nat.ltb_ge attempt (c_request_max_retries (ag_config a)))) by lia.
    cbn [andb negb]. repeat case_match; done.
  - assert (∀ back maxb buf s, (_ ← sleep_with_cancellation back; retry_loop e1 n r d b (attempt + 1)
        (N.min (saturating_mul_u64 back 2) maxb) maxb buf) (a, s) =
      (_ ← sleep_with_cancellation back; retry_loop e2 n r d b (attempt + 1)
        (N.min (saturating_mul_u64 back 2) maxb) maxb buf) (a, s)) as Hagain.
    { intros back maxb0 buf0 s0. rewrite !eff_bind_unfold.
      pose proof (reads_sleep back (a, s0)) as Hr.
      destruct (sleep_with_cancellation back (a, s0)) as [[[]|e] [a3 s3]]; [|done].
      red in Hr; cbn in Hr; subst a3. apply IH. lia. }
    repeat case_match; try done; apply Hagain.
Qed.

(** A model call is attempted a bounded number of times: answering a request
    hands the client at most [request_max_retries + 1] copies of it and nothing
    else, leaves the agent as it was, and ends by an answer, an error or a
    cancellation, never by running out of retries. *)
Theorem attempts_bounded (request : ChatRequest Value) (on_delta : bool) (a : Agent) (s : Sys) :
  let '(_, (a', s')) := complete_with_retry request on_delta (a, s) in
  a' = a ∧
  (∃ k, k ≤ c_request_max_retries (ag_config a) + 1 ∧
        sys_sent s' = sys_sent s ++ replicate k request) ∧
  ∀ exhausted backoff max_backoff buffered buffer,
    retry_loop exhausted (c_request_max_retries (ag_config a)) request on_delta buffered 0
      backoff max_backoff buffer (a, s) =
    retry_loop (fail CancelledError) (c_request_max_retries (ag_config a)) request on_delta
      buffered 0 backoff max_backoff buffer (a, s).
Proof.
  pose proof (reads_complete_with_retry request on_delta (a, s)) as Hr.
  assert (repeats request (c_request_max_retries (ag_config a) + 1) (a, s)
    (complete_with_retry request on_delta (a, s)).2) as Hk.
  { unfold complete_with_retry. rewrite eff_bind_unfold.
    pose proof (reads_check_cancelled (a, s)) as Hc. pose proof (unsent_check_cancelled (a, s)) as Hu.
    destruct (check_cancelled (a, s)) as [[[]|e] [a1 s1]]; red in Hc, Hu; cbn in Hc, Hu; subst a1.
    - rewrite eff_bind_unfold. cbn [ask gets fst snd].
      destruct (retry_loop_repeats (c_request_max_retries (ag_config a)) (fail CancelledError) request
        on_delta (on_delta && c_stream_retry_with_buffering (ag_config a)) 0
        (N.max (c_request_retry_initial_backoff_ms (ag_config a)) 1)
        (N.max (c_request_retry_max_backoff_ms (ag_config a))
          (N.max (c_request_retry_initial_backoff_ms (ag_config a)) 1)) stream_buffer_default
        (unsent_fail _) (a, s1)) as (k & Hk & Hs).
      exists k. split; [lia|]. etrans; [exact Hs|]. cbn [fst snd]. by rewrite Hu.
    - exists 0. split; [lia|]. cbn. by rewrite Hu, app_nil_r. }
  destruct (complete_with_retry request on_delta (a, s)) as [r [a' s']]. red in Hr. cbn in Hr.
  split; [done|]. split; [exact Hk|]. intros. by apply retry_loop_not_exhausted.
Qed.
End retries.

(** ** The whole loop *)

Section loop_sends.
Context `{JC : JsonCodec} `{JS : JsonSchema} `{AE : AgentEnv}.

Lemma answer_request_sends request d (st : St) :
  cleared st.1 request → sends st (answer_request request d st).2.
Proof.
  intros Hc. unfold answer_request. rewrite eff_bind_unfold. cbn [ask gets].
  destruct (lookup_response_cache st.1 request d) as [cached|]; [reflexivity|].
  rewrite eff_bind_unfold. destruct st as [a s]. cbn [fst] in Hc.
  pose proof (attempts_bounded request d a s) as Hb.
  destruct (complete_with_retry request d (a, s)) as [r [a' s']]. destruct Hb as (-> & (k & _ & Hs) & _).
  assert (sends (a, s) (a, s')) as H.
  { split; [done|]. exists (replicate k request). split; [exact Hs|]. by apply Forall_replicate. }
  destruct r as [resp|e]; [|exact H]. rewrite eff_bind_unfold. cbn.
  etrans; [exact H|]. apply (sending_on_agent (E:=AgentError)
    (store_response_cache request d resp)). intros a0. apply quiet_store_response.
Qed.

Lemma quietly_record {E} c r : quietly (record_tool_result (E:=E) c r).
Proof.
  intros [a s]. destruct (record_tool_result_shape (E:=E) c r a s) as (r' & s1 & a' & s' & _ & -> & Hs & Hm).
  split; [done|]. eexists. split; [exact Hm|]. by repeat constructor.
Qed.

Section followup.
Context (f : ToolCall Value → ToolExecutionResult → Eff St AgentError ToolExecutionResult).
Hypothesis f_sends : ∀ c r, sending (f c r).

Lemma sending_finish_tool_call c r : sending (finish_tool_call f c r).
Proof.
  unfold finish_tool_call. apply sending_bind.
  { unfold maybe_execute_branch_followup. sending_auto. }
  intros [r' slot]. apply sending_bind.
  { apply sending_on_agent. intros a. apply quiet_store_tool. }
  intros []. apply sending_bind; [|intros b; apply sending_calm; eauto with agent].
  apply sending_calm; [apply quietly_record|apply unsent_record].
Qed.
#[local] Hint Resolve sending_finish_tool_call : agent.

Lemma sending_execute_tool_call c : sending (execute_tool_call f c).
Proof.
  unfold execute_tool_call. sending_auto.
Qed.
#[local] Hint Resolve sending_execute_tool_call : agent.

Lemma sending_execute_serially calls : ∀ stats, sending (execute_serially f stats calls).
Proof.
  induction calls as [|c calls IH]; intros stats; cbn [execute_serially]; sending_auto.
Qed.
#[local] Hint Resolve sending_execute_serially : agent.

Lemma sending_finish_chunk pending : ∀ stats slots, sending (finish_chunk f stats slots pending).
Proof.
  induction pending as [|[c cached] pending IH]; intros stats slots; cbn [finish_chunk]; sending_auto.
Qed.
#[local] Hint Resolve sending_finish_chunk : agent.

Lemma sending_execute_chunks cs : ∀ stats, sending (execute_chunks f stats cs).
Proof.
  induction cs as [|chunk cs IH]; intros stats; cbn [execute_chunks]; sending_auto.
Qed.
#[local] Hint Resolve sending_execute_chunks : agent.

Lemma sending_execute_tool_calls calls : sending (execute_tool_calls f calls).
Proof.
  unfold execute_tool_calls. apply sending_bind; [eauto with agent|intros []].
  apply sending_bind; [eauto with agent|intros c].
  case_match; [apply sending_execute_serially|apply sending_execute_chunks].
Qed.
#[local] Hint Resolve sending_execute_tool_calls : agent.

Lemma sending_run_turn start turn d j p used : sending (run_turn f start turn d j p used).
Proof.
  unfold run_turn. apply sending_bind; [eauto with agent|intros []].
  apply sending_bind; [eauto with agent|intros []].
  intros st. rewrite eff_bind_unfold.
  assert (sends st (build_request j st).2) as Hb
    by (apply sending_calm; eauto with agent).
  pose proof (build_request_cleared j st) as Hc.
  destruct (build_request j st) as [[request|e] st1]; [|exact Hb]. cbn in Hb.
  etrans; [exact Hb|]. rewrite eff_bind_unfold.
  pose proof (answer_request_sends request d st1 (Hc _ _ eq_refl)) as Ha.
  destruct (answer_request request d st1) as [[response|e] st2]; [|exact Ha]. cbn in Ha.
  etrans; [exact Ha|]. clear -f_sends. revert st2.
  match goal with |- ∀ st2, sends st2 (?m st2).2 => change (sending m) end.
  repeat (apply sending_bind; [solve [eauto with agent]|intros ?]).
  destruct (tool_calls _) as [|c cs]; sending_auto.
Qed.
#[local] Hint Resolve sending_run_turn : agent.

Lemma sending_run_turns remaining : ∀ turn start d j p used,
  sending (run_turns f remaining turn start d j p used).
Proof.
  induction remaining as [|n IH]; intros; cbn [run_turns]; sending_auto.
Qed.
#[local] Hint Resolve sending_run_turns : agent.

Lemma sending_prompt_internal text d j : sending (prompt_internal f text d j).
Proof.
  unfold prompt_internal, run_loop. sending_auto.
  apply sending_on_agent. intros ag. unfold compact_message_history. repeat case_match; done.
Qed.
End followup.

(** A worker is cleared like the agent it was forked from. *)
Lemma replace_system_prompt_keeps p a :
  let a' := (replace_system_prompt p a).2 in
  ag_config a' = ag_config a ∧ ag_safety_policy a' = ag_safety_policy a ∧
  ag_leak_detector a' = ag_leak_detector a ∧ ag_tools a' = ag_tools a ∧
  ag_tool_result_cache a' = ag_tool_result_cache a.
Proof. unfold replace_system_prompt. by repeat case_match. Qed.

Lemma worker_clearance id a : clearance (worker_of id a) = clearance a.
Proof.
  unfold worker_of, apply_process_runtime_profile. set (b := set_ag_config _ _).
  pose proof (replace_system_prompt_keeps (pf_system_prompt (profile_for_type Worker)) b) as
    (Hc & Hp & Hl & _).
  destruct (replace_system_prompt _ b) as [changed b']. cbn in Hc, Hp, Hl.
  unfold clearance. cbn. rewrite Hc, Hp, Hl. unfold b, set_agent_id. by case_match.
Qed.

Lemma sends_worker id (a : Agent) (s : Sys) st :
  sends (worker_of id a, s) st → sends (a, s) (a, st.2).
Proof.
  intros [_ (new & Hs & Hn)]. split; [reflexivity|]. exists new. split; [exact Hs|].
  eapply Forall_impl; [exact Hn|]. intros q. apply cleared_clearance. symmetry.
  apply worker_clearance.
Qed.

Lemma sending_worker_followup c r : sending (worker_followup c r).
Proof. exact (sending_calm _ (reads_quietly _ (reads_ret _)) (unsent_ret _)). Qed.

Lemma sending_run_worker id text (a : Agent) (s : Sys) :
  sends (a, s) (run_worker (worker_of id a) text (a, s)).2.
Proof.
  pose proof (sends_worker id a s _ (sending_prompt_internal worker_followup sending_worker_followup
    text false false (worker_of id a, s))) as H.
  unfold run_worker. cbn [fst snd] in *. revert H. generalize (worker_of id a). intros w.
  by destruct (prompt_internal _ _ _ _ (w, s)) as [r [w' s']].
Qed.

Lemma sending_execute_branch_followup c r : sending (execute_branch_followup c r).
Proof.
  unfold execute_branch_followup. destruct (branch_followup_prompt c) as [text|]; [|eauto with agent].
  intros [a s]. rewrite eff_bind_unfold. cbn [ask gets fst id]. revert s.
  assert (∀ t (k : string → Eff St AgentError ToolExecutionResult) s0,
    (∀ pid s, sends (a, s) (k pid (a, s)).2) → sends (a, s0) ((next_process_id t ≫= k) (a, s0)).2) as Hid.
  { intros t k s0 Hk. rewrite eff_bind_unfold.
    pose proof (reads_next_process_id (E:=AgentError) t (a, s0)) as Hr.
    assert (sends (a, s0) (next_process_id (E:=AgentError) t (a, s0)).2) as Hs
      by (apply (sending_calm (E:=AgentError)); eauto with agent).
    destruct (next_process_id t (a, s0)) as [[pid|e] [a1 s1]]; red in Hr; cbn in Hr; subst a1;
      [|exact Hs]. etrans; [exact Hs|apply Hk]. }
  intros s. apply Hid. intros branch_id s1. apply Hid. intros worker_id s2. rewrite eff_bind_unfold.
  pose proof (reads_run_worker (worker_of worker_id a) text (a, s2)) as Hr.
  pose proof (sending_run_worker worker_id text a s2) as Hw.
  destruct (run_worker _ _ (a, s2)) as [[o|e] [a3 s3]]; red in Hr; cbn in Hr; subst a3; [|exact Hw].
  etrans; [exact Hw|]. clear. revert s3.
  match goal with |- ∀ s3, sends _ (?m _).2 => enough (sending m) by (intros; apply H) end.
  sending_auto.
Qed.

End loop_sends.

(** ** The background summary is not scanned *)

Definition leaky_history : list (Message Value) :=
  [message_user "the key is SECRET"; assistant_text "noted"; message_user "one";
   assistant_text "two"; message_user "three"; assistant_text "four"].

(** Outbound leaks are blocked, and the history is in the warn tier. *)
Definition blocking_agent : @Agent scripted_env :=
  let a := scripted_agent false [] in
  @set_ag_messages scripted_env leaky_history
    (@set_ag_safety_policy scripted_env
      (mkSafetyPolicy true Warn true true "[R]" true Block "[R]" true)
      (@set_ag_config scripted_env
        (set_c_max_estimated_input_tokens (Some 52%N) agent_config_default) a)).

Definition detected_leaks (a : @Agent scripted_env) (r : ChatRequest Value) : bool :=
  match @request_to_string scripted_env r with
  | Some payload =>
      negb (is_empty (trim payload)) &&
      has_matches (ag_leak_detector a payload (secret_leak_redaction_token (ag_safety_policy a)))
  | None => true
  end.

Lemma detected_leak a r : detected_leaks a r = true → ¬ @leak_free scripted_env a r.
Proof.
  unfold detected_leaks, leak_free. intros Hd (payload & Hp & Hor). rewrite Hp in Hd.
  apply andb_prop in Hd as [He%negb_true_iff Hm]. destruct Hor; congruence.
Qed.

(** The request of the compaction task does not pass the scan: a prompt whose own
    request is blocked for a leak, and therefore not sent, has already started a
    task whose request contains the same secret. *)
Lemma background_summary_unscanned :
  let '(r, (a', s')) := @prompt_internal script_codec open_schema scripted_env
    (@execute_branch_followup script_codec open_schema scripted_env) "next" false false
    (blocking_agent, scripted_sys (mkScript [] [] [])) in
  r = Err (SafetyViolation "outbound_http_payload" ["marker.found"%string]) ∧
  sys_sent s' = [] ∧
  ∃ request, sys_background s' = [request] ∧ ¬ @leak_free scripted_env a' request.
Proof.
  set (run := @prompt_internal script_codec open_schema scripted_env _ _ _ _ _).
  assert (run.1 = Err (SafetyViolation "outbound_http_payload" ["marker.found"%string]) ∧
    sys_sent run.2.2 = [] ∧ detected_leaks run.2.1 <$> sys_background run.2.2 = [true])
    as (Hr & Hs & Hb) by (vm_compute; done).
  destruct run as [r [a' s']]. cbn [fst snd] in *. split; [exact Hr|]. split; [exact Hs|].
  destruct (sys_background s') as [|request [|??]]; [done| |done]. exists request.
  split; [reflexivity|]. apply detected_leak. by injection Hb.
Qed.
