(* ===== verification/AgentTheorems.v ===== *)
(** * Further properties of the agent

    Workers cannot branch, scoped tools are taken back, blocked text leaves no
    trace, structured answers satisfy their schema. *)

From Stdlib Require Import NArith Lia.
From stdpp Require Import base gmap strings list.
From S2P Require Import Prelude RustStr Json Messages ChatTypes Safety Effects AgentTurn AgentTools AgentCache Processes AgentEnv AgentState AgentContext AgentLoop AgentFrame AgentProtocol AgentSends.

#[local] Open Scope string_scope.
#[local] Open Scope list_scope.
#[local] Open Scope nat_scope.

(** ** Workers cannot branch *)

Section workers.
Context `{JC : JsonCodec} `{JS : JsonSchema} `{AE : AgentEnv}.

Definition no_branch_tool (st : St) : Prop := ag_tools st.1 !! "branch" = None.

(** Two computations that agree from states without a branch tool; the first
    keeps such states. *)
Definition agree {E A} (m1 m2 : Eff St E A) : Prop :=
  ∀ st, no_branch_tool st → m1 st = m2 st ∧ no_branch_tool (m1 st).2.

Lemma agree_bind {E A B} (m1 m2 : Eff St E A) (f1 f2 : A → Eff St E B) :
  agree m1 m2 → (∀ a, agree (f1 a) (f2 a)) → agree (m1 ≫= f1) (m2 ≫= f2).
Proof.
  intros Hm Hf st Hst. rewrite !eff_bind_unfold. destruct (Hm st Hst) as [<- Hst'].
  destruct (m1 st) as [[a|e] st']; [by apply Hf|done].
Qed.

Lemma statics_no_branch (st st' : St) :
  statics st'.1 = statics st.1 → no_branch_tool st → no_branch_tool st'.
Proof. unfold no_branch_tool, statics. congruence. Qed.

Lemma agree_quiet {E A} (m : Eff St E A) : quietly m → agree m m.
Proof. intros H st Hst. split; [done|]. destruct (H st) as [Hs _]. by eapply statics_no_branch. Qed.

Lemma agree_on_agent {E} f : (∀ a, statics (f a) = statics a) → agree (on_agent (E:=E) f) (on_agent f).
Proof. intros H st Hst. split; [done|]. eapply statics_no_branch; [apply H|done]. Qed.

(** A result that is not followed up. *)
Definition harmless (call : ToolCall Value) (r : ToolExecutionResult) : Prop :=
  tool_call_name call ≠ "branch" ∨ tr_is_error r = true.

Lemma harmless_followup f call r :
  harmless call r → maybe_execute_branch_followup f call r = mret (r, false).
Proof.
  intros H. unfold maybe_execute_branch_followup.
  destruct (String.eqb_spec (tool_call_name call) "branch"); [|done].
  destruct H as [H|H]; [done|]. by rewrite H.
Qed.

Lemma agree_finish f g call r :
  harmless call r → agree (finish_tool_call f call r) (finish_tool_call g call r).
Proof.
  intros H. unfold finish_tool_call. rewrite !(harmless_followup _ _ _ H).
  apply agree_bind; [by apply agree_quiet, reads_quietly|intros [r' slot]].
  apply agree_bind; [apply agree_on_agent; intros a; apply quiet_store_tool|intros []].
  apply agree_bind; [apply agree_quiet, quietly_record|intros b]. by apply agree_quiet, reads_quietly.
Qed.

Lemma registered_none (a : Agent) call :
  ag_tools a !! "branch" = None → tool_call_name call = "branch" → registered_tool a call = None.
Proof. intros Ha Hn. unfold registered_tool. by rewrite Hn, Ha. Qed.

Lemma await_harmless {E} call st r st' :
  no_branch_tool st → await_tool_task (E:=E) call st = (Ok r, st') → harmless call r.
Proof.
  intros Hst Ha. destruct (decide (tool_call_name call = "branch")) as [Hn|]; [right|by left].
  unfold await_tool_task in Ha. rewrite eff_bind_unfold in Ha. cbn [ask gets id] in Ha.
  rewrite eff_bind_unfold in Ha. rewrite (registered_none _ _ Hst Hn) in Ha. unfold world_op in Ha.
  destruct (join_task _ _ _) as [fate w]. injection Ha as <- _. cbn.
  unfold join_tool_task. destruct (tf_panic fate); [done|].
  unfold execute_tool_call_inner. by case_match.
Qed.

Lemma cached_harmless (a : Agent) call r :
  ag_tools a !! "branch" = None → lookup_tool_result_cache a call = Some r → harmless call r.
Proof.
  intros Ha Hc. left. intros Hn. unfold lookup_tool_result_cache in Hc. case_match; [done|].
  rewrite Hn, Ha in Hc. done.
Qed.

(** A step whose successful result satisfies [Φ], before a continuation that
    agrees on such results. *)
Lemma agree_bind_post {E A B} (m : Eff St E A) (f1 f2 : A → Eff St E B) (Φ : A → Prop) :
  quietly m → (∀ st a st', no_branch_tool st → m st = (Ok a, st') → Φ a) →
  (∀ a, Φ a → agree (f1 a) (f2 a)) → agree (m ≫= f1) (m ≫= f2).
Proof.
  intros Hm HΦ Hf st Hst. rewrite !eff_bind_unfold. destruct (Hm st) as [Hs _].
  pose proof (HΦ st) as Hp. destruct (m st) as [[a|e] st'].
  - apply Hf; [by eapply Hp|]. by eapply statics_no_branch.
  - split; [done|]. by eapply statics_no_branch.
Qed.

Section two.
Context (f g : ToolCall Value → ToolExecutionResult → Eff St AgentError ToolExecutionResult).

Lemma agree_execute_tool_call call : agree (execute_tool_call f call) (execute_tool_call g call).
Proof.
  unfold execute_tool_call. apply agree_bind; [by apply agree_quiet, reads_quietly, reads_is_cancelled|].
  intros [|]; [by apply agree_quiet, reads_quietly|].
  apply agree_bind; [apply agree_quiet; eauto with agent|intros []].
  apply agree_bind_post with (Φ := λ cached, ∀ r, cached = Some r → harmless call r).
  { eauto with agent. }
  { intros st cached st' Hst [= <- <-] r. by apply cached_harmless. }
  intros cached Hcached. apply agree_bind_post with (Φ := harmless call).
  { destruct cached; [by apply reads_quietly|]. apply reads_quietly. reads_auto. }
  { intros st r st' Hst. destruct cached as [c|]; [intros [= <- <-]; by apply Hcached|].
    rewrite eff_bind_unfold. pose proof (reads_spawn_tool (E:=AgentError) call st) as Hr.
    destruct (spawn_tool_call_task call st) as [[[]|e] st1]; [|done]. red in Hr. cbn in Hr.
    apply await_harmless. unfold no_branch_tool. by rewrite Hr. }
  intros r Hr. apply agree_bind; [by apply agree_finish|intros [b slot]].
  apply agree_bind; [|intros []]; apply agree_quiet; eauto with agent.
Qed.

Lemma agree_execute_serially calls : ∀ stats,
  agree (execute_serially f stats calls) (execute_serially g stats calls).
Proof.
  induction calls as [|call calls IH]; intros stats; cbn [execute_serially].
  { apply agree_quiet; eauto with agent. }
  apply agree_bind; [apply agree_quiet; eauto with agent|intros []].
  apply agree_bind; [apply agree_execute_tool_call|intros b; apply IH].
Qed.

(** The cached results of a started chunk are harmless. *)
Definition harmless_entry (p : ToolCall Value * option ToolExecutionResult) : Prop :=
  ∀ r, p.2 = Some r → harmless p.1 r.

Lemma start_chunk_harmless chunk : ∀ st pending st',
  no_branch_tool st → start_chunk chunk st = (Ok pending, st') → Forall harmless_entry pending.
Proof.
  induction chunk as [|call chunk IH]; intros st pending st' Hst; cbn [start_chunk].
  { intros [= <- _]. constructor. }
  assert (∀ {A B} (m : Eff St AgentError A) (k : A → Eff St AgentError B) st0 st1 pend,
    reads m → no_branch_tool st0 → (m ≫= k) st0 = (Ok pend, st1) →
    ∃ a s, m st0 = (Ok a, (st0.1, s)) ∧ k a (st0.1, s) = (Ok pend, st1)) as Hseq.
  { intros A B m k st0 st1 pend Hr Hst0. rewrite eff_bind_unfold. specialize (Hr st0).
    destruct (m st0) as [[a|e] [a1 s1]]; [|done]. red in Hr. cbn in Hr. subst a1. eauto. }
  intros H. apply Hseq in H as ([] & s1 & _ & H); [|eauto with agent|done].
  apply Hseq in H as ([] & s2 & _ & H); [|eauto with agent|done].
  apply Hseq in H as (cached & s3 & Hc & H); [|eauto with agent|done].
  apply Hseq in H as ([] & s4 & _ & H); [|destruct cached; eauto with agent|done].
  apply Hseq in H as (rest & s5 & Hrest & H); [|eauto with agent|done].
  injection H as <- _. constructor; [|by eapply IH, Hrest].
  injection Hc as Hc _. intros r Hr. cbn in *. subst cached. by eapply cached_harmless.
Qed.

Lemma agree_finish_chunk pending : ∀ stats slots,
  Forall harmless_entry pending →
  agree (finish_chunk f stats slots pending) (finish_chunk g stats slots pending).
Proof.
  induction pending as [|[call cached] pending IH]; intros stats slots Hall; cbn [finish_chunk].
  { apply agree_quiet; eauto with agent. }
  apply Forall_cons in Hall as [Hc Hall].
  apply agree_bind_post with (Φ := harmless call).
  { destruct cached; eauto with agent. }
  { intros st r st' Hst. destruct cached as [c|]; [|by apply await_harmless].
    intros [= <- _]. by apply Hc. }
  intros r Hr. apply agree_bind; [by apply agree_finish|intros [b slot]]. by apply IH.
Qed.

Lemma agree_execute_chunks cs : ∀ stats,
  agree (execute_chunks f stats cs) (execute_chunks g stats cs).
Proof.
  induction cs as [|chunk cs IH]; intros stats; cbn [execute_chunks].
  { apply agree_quiet; eauto with agent. }
  apply agree_bind; [apply agree_quiet; eauto with agent|intros []].
  apply agree_bind_post with (Φ := Forall harmless_entry); [eauto with agent| |].
  { intros st pending st'. apply start_chunk_harmless. }
  intros pending Hp. apply agree_bind; [by apply agree_finish_chunk|intros [stats' slots]].
  apply agree_bind; [apply agree_quiet; eauto with agent|intros []; apply IH].
Qed.

Lemma agree_execute_tool_calls calls :
  agree (execute_tool_calls f calls) (execute_tool_calls g calls).
Proof.
  unfold execute_tool_calls. apply agree_bind; [apply agree_quiet; eauto with agent|intros []].
  apply agree_bind; [apply agree_quiet; eauto with agent|intros c].
  case_match; [apply agree_execute_serially|apply agree_execute_chunks].
Qed.

Lemma agree_push {E} m : agree (push_message (E:=E) m) (push_message m).
Proof. by apply agree_on_agent. Qed.

Lemma agree_run_turn start turn d j p used :
  agree (run_turn f start turn d j p used) (run_turn g start turn d j p used).
Proof.
  unfold run_turn.
  do 5 (apply agree_bind; [apply agree_quiet; eauto with agent|intros ?]).
  apply agree_bind; [apply agree_push|intros ?].
  do 3 (apply agree_bind; [apply agree_quiet; eauto with agent|intros ?]).
  destruct (tool_calls _) as [|call calls].
  - apply agree_quiet. quietly_auto.
  - apply agree_bind; [apply agree_execute_tool_calls|intros stats].
    apply agree_quiet. quietly_auto.
Qed.

Lemma agree_run_turns remaining : ∀ turn start d j p used,
  agree (run_turns f remaining turn start d j p used) (run_turns g remaining turn start d j p used).
Proof.
  induction remaining as [|n IH]; intros; cbn [run_turns].
  - apply agree_quiet. quietly_auto.
  - apply agree_bind; [apply agree_run_turn|]. intros [ms|[p' used']]; [|apply IH].
    apply agree_quiet; eauto with agent.
Qed.

Lemma agree_prompt_internal text d j : agree (prompt_internal f text d j) (prompt_internal g text d j).
Proof.
  unfold prompt_internal, run_loop.
  do 2 (apply agree_bind; [apply agree_quiet; eauto with agent|intros ?]).
  case_match; [|apply agree_quiet; eauto with agent].
  apply agree_bind; [apply agree_push|intros ?].
  apply agree_bind; [apply agree_quiet; eauto with agent|intros ?].
  apply agree_bind.
  - do 4 (apply agree_bind; [apply agree_quiet; eauto with agent|intros ?]). apply agree_run_turns.
  - intros ms. apply agree_bind; [|intros ?; apply agree_quiet; eauto with agent].
    apply agree_on_agent. intros ag. unfold compact_message_history. repeat case_match; done.
Qed.
End two.

Lemma worker_no_branch id (a : Agent) : ag_tools (worker_of id a) !! "branch" = None.
Proof.
  unfold worker_of, apply_process_runtime_profile. set (b := set_ag_config _ _).
  destruct (replace_system_prompt _ b) as [changed b']. cbn [ag_tools set_ag_tools].
  apply map_lookup_filter_None. right. intros t _. cbn.
  intros Hin. apply (bool_decide_pack _) in Hin. by vm_compute in Hin.
Qed.

(** Branching does not nest: whatever a worker's own branch follow-ups would
    do, the run of the worker that a branch call starts is the same, since a
    worker has no branch tool; so follow-ups are at most one level deep and the
    agent loop, whose loops are bounded by its turns, retries and calls,
    terminates. *)
Theorem worker_prompt_no_branch
    (f g : ToolCall Value → ToolExecutionResult → Eff St AgentError ToolExecutionResult)
    (id text : string) (on_delta json_mode : bool) (a : Agent) (s : Sys) :
  prompt_internal f text on_delta json_mode (worker_of id a, s) =
  prompt_internal g text on_delta json_mode (worker_of id a, s).
Proof. apply agree_prompt_internal. apply worker_no_branch. Qed.
End workers.

(** ** Scoped tools *)

Section scoped.
Context `{JC : JsonCodec} `{JS : JsonSchema} `{AE : AgentEnv}.

Lemma restore_tool_undoes (a a' : Agent) tool :
  ag_tools a' = <[td_name (rt_definition tool) := tool]> (ag_tools a) →
  ag_tools (restore_tool a' (register_tool_internal tool a).1) = ag_tools a.
Proof.
  intros Ha. unfold restore_tool, register_tool_internal. cbn [fst snd].
  destruct (ag_tools a !! td_name (rt_definition tool)) eqn:Hl; cbn; rewrite Ha.
  - by rewrite insert_insert_eq, insert_id.
  - by rewrite delete_insert_eq, delete_id.
Qed.

Lemma restore_scoped tools (a : Agent) : ∀ a',
  ag_tools a' = ag_tools (foldl register_scoped ([], a) tools).2 →
  ag_tools (foldl restore_tool a' (reverse (foldl register_scoped ([], a) tools).1)) = ag_tools a.
Proof.
  induction tools as [|tool tools IH] using rev_ind; intros a' Ha; [done|].
  rewrite foldl_app in *. cbn [foldl] in *.
  destruct (foldl register_scoped ([], a) tools) as [replaced b] eqn:Hb.
  unfold register_scoped at 1. unfold register_scoped at 1 in Ha. cbn [fst snd] in *.
  pose proof (restore_tool_undoes b a' tool Ha) as Hr.
  destruct (register_tool_internal tool b) as [entry b']. cbn [fst snd] in *.
  rewrite reverse_snoc. cbn [foldl]. by apply IH.
Qed.

(** Scoped tools are taken back: after a scoped run that itself leaves the
    registered tools as it finds them, the tools are exactly those from before,
    also when scoped tools replaced registered ones or one another, and no result
    cached meanwhile can be reused. *)
Theorem scoped_tools_restored {E R} (tools : list RegisteredTool) (run : Eff St E R) (st : St) :
  (∀ st, ag_tools (run st).2.1 = ag_tools st.1) →
  let '(_, (a', _)) := with_scoped_tools tools run st in
  ag_tools a' = ag_tools st.1 ∧ ag_tool_result_cache a' = ∅.
Proof.
  intros Hrun. unfold with_scoped_tools.
  pose proof (restore_scoped tools st.1) as Hr.
  destruct (foldl register_scoped ([], st.1) tools) as [replaced a].
  specialize (Hrun (clear_tool_result_cache a, st.2)).
  destruct (run (clear_tool_result_cache a, st.2)) as [result [a' s']]. cbn in *.
  split; [|done]. by apply Hr.
Qed.
End scoped.

Definition echo_tool (name : string) : @RegisteredTool scripted_env :=
  @mkRegistered scripted_env (mkToolDefinition name "" Null) tt true.

Lemma scoped_tools_restored_witness :
  let '(_, (a', _)) := @with_scoped_tools scripted_env AgentError unit
    [echo_tool "read"; echo_tool "read"; echo_tool "write"] (mret tt)
    (scripted_agent false ["read"], scripted_sys (mkScript [] [] [])) in
  ag_tools a' = ag_tools (scripted_agent false ["read"]).
Proof.
  pose proof (@scoped_tools_restored scripted_env AgentError unit
    [echo_tool "read"; echo_tool "read"; echo_tool "write"] (mret tt)
    (scripted_agent false ["read"], scripted_sys (mkScript [] [] [])) (λ _, eq_refl)) as H.
  destruct (with_scoped_tools _ _ _) as [r [a' s']]. exact (proj1 H).
Defined.

(** ** Blocked text *)

Section blocked.
Context `{JC : JsonCodec} `{JS : JsonSchema} `{AE : AgentEnv}.

(** In block mode a flagged message leaves no trace but the safety event: the
    prompt fails with the reasons, the agent is unchanged, nothing is sent, and
    the same text as a direct message of an allowed sender is refused the same
    way. *)
Theorem blocked_message_rejected (a : Agent) (s : Sys) (text : string) (on_delta json_mode : bool) :
  let p := ag_safety_policy a in
  let scan := ag_sanitizer a text (redaction_token p) in
  sp_enabled p = true → apply_to_inbound_messages p = true → sp_mode p = Block →
  trim text ≠ "" → has_matches scan = true →
  (let '(r, (a', s')) := prompt_internal execute_branch_followup text on_delta json_mode (a, s) in
   r = Err (SafetyViolation "inbound_message" (reason_codes scan)) ∧ a' = a ∧
   sys_sent s' = sys_sent s) ∧
  (∀ sender policy, trim text = text → chars_count text ≤ max_message_chars policy →
   allows policy sender (ag_agent_id a) = true →
   let '(r, (a', s')) := receive_direct_message sender text policy (a, s) in
   r = Err (DirectSafetyViolation (reason_codes scan)) ∧ a' = a).
Proof.
  cbn zeta. intros Hen Hin Hmode Htext Hm.
  assert (∀ E, ∃ s', sanitize_inbound_text (E:=E) text (a, s) =
    (Ok (Err (reason_codes (ag_sanitizer a text (redaction_token (ag_safety_policy a))))), (a, s')) ∧
    sys_sent s' = sys_sent s) as Hsan.
  { intros E. unfold sanitize_inbound_text. rewrite eff_bind_unfold.
    destruct (inspect_prompt_spec (E:=E) InboundMessage text a s) as (s' & -> & Hs).
    unfold inspection_of, prompt_safety_stage_enabled. rewrite Hen, Hin, Hm.
    rewrite (proj2 (is_empty_false _) Htext). cbn. rewrite Hmode. by exists s'. }
  split.
  - unfold prompt_internal. rewrite eff_bind_unfold. cbn [ask gets fst snd]. rewrite eff_bind_unfold.
    destruct (Hsan AgentError) as (s' & -> & Hs). done.
  - intros sender policy Htrim Hlen Hallow. unfold receive_direct_message. rewrite eff_bind_unfold.
    cbn [ask gets fst snd]. rewrite Hallow. rewrite eff_bind_unfold. cbn [fail_if negb bail_if of_result].
    rewrite eff_bind_unfold. unfold normalize_direct_message_content, of_result. rewrite Htrim.
    rewrite (proj2 (is_empty_false _)) by (by rewrite <- Htrim).
    rewrite (proj2 (Nat.ltb_ge _ _)) by done. rewrite eff_bind_unfold.
    destruct (Hsan AgentDirectMessageError) as (s' & -> & Hs). done.
Qed.

(** Tool output is screened before it is stored: when prompt injections and
    secret leaks in tool output are blocked, what a tool call adds to the
    conversation is the unchanged output, blank or free of findings of both
    scanners, or the notice that replaces it, marked as an error. *)
Theorem tool_output_screened (a : Agent) (s : Sys) (call : ToolCall Value)
    (result : ToolExecutionResult) :
  let p := ag_safety_policy a in
  sp_enabled p = true → secret_leak_detection_enabled p = true → apply_to_tool_outputs p = true →
  sp_mode p = Block → secret_leak_mode p = Block →
  let '(_, (a', _)) := record_tool_result (E:=AgentError) call result (a, s) in
  ∃ stored, ag_messages a' = ag_messages a ++
      [tool_result (tool_call_id_of call) (tool_call_name call) (as_text stored) (tr_is_error stored)] ∧
    (stored = result ∧
       (trim (as_text result) = "" ∨
        has_matches (ag_sanitizer a (as_text result) (redaction_token p)) = false ∧
        has_matches (ag_leak_detector a (as_text result) (secret_leak_redaction_token p)) = false)
     ∨ ∃ inspection codes, stored = blocked_tool_output inspection codes).
Proof.
  cbn zeta. intros Hen Hlen Hout Hmode Hlmode.
  destruct (record_tool_result_shape (E:=AgentError) call result a s)
    as (stored & s1 & a' & s' & Hsan & -> & _ & Hmsgs). exists stored. split; [exact Hmsgs|].
  enough (∃ stored s1, sanitize_tool_result (E:=AgentError) result (a, s) = (Ok stored, (a, s1)) ∧
    (stored = result ∧
       (trim (as_text result) = "" ∨
        has_matches (ag_sanitizer a (as_text result) (redaction_token (ag_safety_policy a))) = false ∧
        has_matches (ag_leak_detector a (as_text result)
          (secret_leak_redaction_token (ag_safety_policy a))) = false)
     ∨ ∃ inspection codes, stored = blocked_tool_output inspection codes)) as (stored' & s1' & Hsan' & Hst)
    by (rewrite Hsan in Hsan'; by injection Hsan' as <- _).
  unfold sanitize_tool_result. rewrite eff_bind_unfold.
    destruct (inspect_prompt_spec (E:=AgentError) ToolOutput (as_text result) a s) as (s2 & -> & _).
    unfold inspection_of at 1, prompt_safety_stage_enabled. rewrite Hen, Hout, Hmode. cbn [negb orb].
    destruct (is_empty (trim (as_text result))) eqn:He; cbn [orb screen_tool_text].
    - rewrite eff_bind_unfold.
      destruct (inspect_leak_spec (E:=AgentError) ToolOutput (as_text result) a s2) as (s3 & -> & _).
      unfold inspection_of. rewrite He, orb_true_r. cbn [orb screen_tool_text].
      rewrite String.eqb_refl. cbn. eexists _, _. split; [done|]. left. split; [done|].
      left. by apply String.eqb_eq.
    - destruct (has_matches (ag_sanitizer a _ _)) eqn:Hm; cbn [negb screen_tool_text].
      { cbn. eexists _, _. split; [done|]. right. by eexists _, _. }
      rewrite eff_bind_unfold.
      destruct (inspect_leak_spec (E:=AgentError) ToolOutput (as_text result) a s2) as (s3 & -> & _).
      unfold inspection_of, leak_stage_enabled. rewrite He, Hlen, Hout, Hlmode. cbn [negb orb].
      destruct (has_matches (ag_leak_detector a _ _)) eqn:Hl; cbn [negb screen_tool_text].
      { cbn. eexists _, _. split; [done|]. right. by eexists _, _. }
      rewrite String.eqb_refl. cbn. eexists _, _. split; [done|]. left. auto.
Qed.
End blocked.

(** An agent whose policy blocks in every stage. *)
Definition strict_agent : @Agent scripted_env :=
  @set_ag_safety_policy scripted_env
    (mkSafetyPolicy true Block true true "[R]" true Block "[R]" true) (scripted_agent false []).

Lemma blocked_message_rejected_witness :
  let '(r, (a', s')) := @prompt_internal script_codec open_schema scripted_env
    (@execute_branch_followup script_codec open_schema scripted_env) "do INJECT it" false false
    (strict_agent, scripted_sys (mkScript [] [] [])) in
  r = Err (SafetyViolation "inbound_message" ["marker.found"]) ∧ a' = strict_agent ∧
  sys_sent s' = [].
Proof.
  apply (@blocked_message_rejected script_codec open_schema scripted_env strict_agent
    (scripted_sys (mkScript [] [] [])) "do INJECT it" false false);
    first [reflexivity | vm_compute; discriminate].
Defined.

Lemma tool_output_screened_witness :
  let '(_, (a', _)) := @record_tool_result script_codec scripted_env AgentError
    (mkToolCall "id" "read" Null) (result_ok (Str "the SECRET"))
    (strict_agent, scripted_sys (mkScript [] [] [])) in
  ∃ stored, ag_messages a' = ag_messages strict_agent ++
      [tool_result "id" "read" (@as_text script_codec stored) (tr_is_error stored)] ∧
    tr_is_error stored = true.
Proof.
  pose proof (@tool_output_screened script_codec scripted_env strict_agent
    (scripted_sys (mkScript [] [] [])) (mkToolCall "id" "read" Null)
    (result_ok (Str "the SECRET")) eq_refl eq_refl eq_refl eq_refl eq_refl) as H.
  destruct (record_tool_result _ _ _) as [r [a' s']].
  destruct H as (stored & Hm & [[-> [Ht|[_ Hl]]]|(i & codes & ->)]).
  - vm_compute in Ht. discriminate.
  - vm_compute in Hl. discriminate.
  - exists (blocked_tool_output i codes). split; [exact Hm|reflexivity].
Defined.

(** ** Structured answers *)

Section structured.
Context `{JC : JsonCodec} `{JS : JsonSchema} `{AE : AgentEnv}.

Definition satisfies_schema (schema v : Value) : Prop :=
  ∃ iter_errors, validator_for schema = Ok iter_errors ∧ iter_errors v = [].

Lemma parse_structured_output_valid messages schema v :
  parse_structured_output messages schema = Ok v → satisfies_schema schema v.
Proof.
  unfold parse_structured_output. intros (m & _ & H)%bind_Ok.
  apply bind_Ok in H as (v' & _ & H). apply check_Ok in H as [H [= <-]].
  unfold validate_json_against_schema in H. unfold satisfies_schema.
  destruct (validator_for schema) as [errs|]; [|done]. exists errs. split; [done|].
  by destruct (errs v').
Qed.

Lemma structured_retries_valid f schema remaining : ∀ ms,
  returns (structured_retries f remaining ms schema) (λ v _, satisfies_schema schema v).
Proof.
  induction remaining as [|n IH]; intros ms st v; cbn [structured_retries];
    destruct (parse_structured_output ms schema) as [v'|e] eqn:Hp.
  1,3: intros [= <-]; by eapply parse_structured_output_valid.
  - done.
  - apply (returns_bind _ _ (λ v _, satisfies_schema schema v)). intros ms'. apply IH.
Qed.

(** A structured answer satisfies its schema, after however many retries. *)
Lemma prompt_json_valid text schema :
  returns (prompt_json text schema) (λ v _, satisfies_schema schema v).
Proof.
  unfold prompt_json, parse_structured_output_with_retry.
  apply returns_bind; intros ms. apply returns_bind; intros n. apply structured_retries_valid.
Qed.
End structured.
