(* ===== verification/EventScheduler.v ===== *)
(** * Scheduled events ([tau-events], [lib.rs])

    Event definitions are JSON files of a directory; a scheduler polls it and runs
    what is due, and webhooks add immediate events.  The state is the runner's
    state, also kept in a file, and the text files.  The reports show the events
    without running them: templates, inspection, validation, simulation, the dry
    run and its gate.  [cron], time zones, HMAC, the
    listing of a directory and what runs an event are interfaces. *)

From Stdlib Require Import ZArith NArith Ascii Lia.
From stdpp Require Import base gmap strings list.
From S2P Require Import Prelude RustStr Json Effects AtomicIo StateDirs ChannelStore LogRotation MultiChannelRouting.

#[local] Open Scope string_scope.
#[local] Open Scope list_scope.
#[local] Open Scope nat_scope.

Definition EVENT_RUNNER_STATE_SCHEMA_VERSION : N := 1.
Definition EVENT_EXECUTION_HISTORY_LIMIT : nat := 256.

Inductive EventTemplateSchedule := TemplateImmediate | TemplateAt | TemplatePeriodic.
Inductive WebhookSignatureAlgorithm := GithubSha256 | SlackV0.

Inductive EventSchedule :=
| Immediate
| At (at_unix_ms : N)
| Periodic (cron timezone : string).

Record EventDefinition := mkEventDefinition
  { ev_id : string; ev_channel : string; ev_prompt : string; ev_schedule : EventSchedule;
    ev_enabled : bool; ev_created_unix_ms : option N }.

Record EventRecord := mkEventRecord { er_path : string; er_definition : EventDefinition }.

Record EventExecutionRecord := mkExecution
  { xr_timestamp_unix_ms : N; xr_event_id : string; xr_channel : string; xr_schedule : string;
    xr_outcome : string; xr_reason_code : string }.

Record EventRunnerState := mkRunnerState
  { es_schema_version : N; es_periodic_last_run : gmap string N; es_debounce_last_seen : gmap string N;
    es_signature_replay_last_seen : gmap string N; es_recent_executions : list EventExecutionRecord }.
Definition runner_state_default : EventRunnerState :=
  mkRunnerState EVENT_RUNNER_STATE_SCHEMA_VERSION ∅ ∅ ∅ [].

Record EventPollReport := mkPollReport
  { pr_discovered : nat; pr_queued : nat; pr_executed : nat; pr_stale_skipped : nat;
    pr_malformed_skipped : nat; pr_failed : nat }.

Inductive DueDecision := Run | NotDue | SkipStaleRemove.
#[export] Instance DueDecision_eq_dec : EqDecision DueDecision.
Proof. solve_decision. Defined.

Record EventSchedulerConfig := mkSchedulerConfig
  { sc_channel_store_root : string; sc_events_dir : string; sc_state_path : string;
    sc_queue_limit : nat; sc_stale_immediate_max_age_seconds : N }.

Record EventWebhookIngestConfig := mkWebhookConfig
  { wc_events_dir : string; wc_state_path : string; wc_channel_ref : string; wc_payload_file : string;
    wc_prompt_prefix : string; wc_debounce_key : option string; wc_debounce_window_seconds : N;
    wc_signature : option string; wc_timestamp : option string; wc_secret : option string;
    wc_signature_algorithm : option WebhookSignatureAlgorithm; wc_signature_max_skew_seconds : N }.

(** The directory listing (in the order of the operating system), modification
    times and the text of a read error. *)
Class EventHost :=
  { read_dir : TextFs → string → Result string (list string);
    modified_ms : TextFs → string → option N;
    read_error_text : TextFs → string → string }.

(** [cron] and [chrono-tz]: whether the texts parse, whether an instant is one, and
    the next time after an instant (milliseconds). *)
Class EventCron :=
  { schedule_parses : string → bool;
    timezone_parses : string → bool;
    instant_exists : string → Z → bool;
    next_occurrence : string → string → Z → option Z }.

(** [after] gives the first time strictly later. *)
Class EventCronLaws `{!EventCron} : Prop :=
  { next_occurrence_later cron timezone from next :
      next_occurrence cron timezone from = Some next → (from < next)%Z;
    next_occurrence_first cron timezone from from' next :
      next_occurrence cron timezone from = Some next → (from ≤ from' < next)%Z →
      next_occurrence cron timezone from' = Some next }.

(** [serde_json]: the files, with the error of one that does not parse. *)
Class EventCodec :=
  { decode_event : string → Result string EventDefinition;
    encode_event : EventDefinition → string;
    decode_runner_state : string → option EventRunnerState;
    encode_runner_state : EventRunnerState → string;
    schedule_value : EventSchedule → Value }.

Class EventCodecLaws `{!EventCodec} : Prop :=
  { decode_encode_event e : decode_event (encode_event e +:+ newline) = Ok e;
    decode_encode_runner_state s : decode_runner_state (encode_runner_state s +:+ newline) = Some s }.

(** [Hmac<Sha256>]: secret, message, signature. *)
Class WebhookMac := { hmac_verify : string → string → list ascii → bool }.

(** The trait [EventRunner]; it works on files. *)
Class EventRunner := { run_event : EventDefinition → N → ChannelStore → FileOp unit }.

Definition schedule_name (schedule : EventSchedule) : string :=
  match schedule with Immediate => "immediate" | At _ => "at" | Periodic _ _ => "periodic" end.

(** A configured value without surrounding whitespace, if it is not empty. *)
Definition nonblank (value : option string) : option string :=
  v ← value; let v := trim v in if is_empty v then None else Some v.

Definition set_executions (l : list EventExecutionRecord) (s : EventRunnerState) : EventRunnerState :=
  mkRunnerState (es_schema_version s) (es_periodic_last_run s) (es_debounce_last_seen s)
    (es_signature_replay_last_seen s) l.
Definition set_last_run (m : gmap string N) (s : EventRunnerState) : EventRunnerState :=
  mkRunnerState (es_schema_version s) m (es_debounce_last_seen s) (es_signature_replay_last_seen s)
    (es_recent_executions s).
Definition set_debounce (m : gmap string N) (s : EventRunnerState) : EventRunnerState :=
  mkRunnerState (es_schema_version s) (es_periodic_last_run s) m (es_signature_replay_last_seen s)
    (es_recent_executions s).
Definition set_replay (m : gmap string N) (s : EventRunnerState) : EventRunnerState :=
  mkRunnerState (es_schema_version s) (es_periodic_last_run s) (es_debounce_last_seen s) m
    (es_recent_executions s).

Definition append_execution_record (record : EventExecutionRecord) (s : EventRunnerState)
    : EventRunnerState :=
  let l := es_recent_executions s ++ [record] in
  set_executions (drop (length l - EVENT_EXECUTION_HISTORY_LIMIT) l) s.

Definition sanitize_error_message (raw : string) : string := join " " (split_whitespace raw).

(** ** Schedules *)

Section schedules.
Context `{!EventCron}.

Definition i64_limit : Z := 9223372036854775807.

Definition next_periodic_due_unix_ms (cron timezone : string) (from_unix_ms : N) : Result string N :=
  _ ← bail_if (negb (schedule_parses cron)) ("invalid cron expression '" +:+ cron +:+ "'");
  _ ← bail_if (negb (timezone_parses timezone)) ("invalid timezone '" +:+ timezone +:+ "'");
  let from := Z.min (Z.of_N from_unix_ms) i64_limit in
  _ ← bail_if (negb (instant_exists timezone from)) "invalid from timestamp for periodic schedule";
  next ← ok_or ("cron expression '" +:+ cron +:+ "' has no future occurrence")
           (next_occurrence cron timezone from);
  Ok (if (next <? 0)%Z then u64_max else Z.to_N next).

(** When the occurrences of a periodic event count from. *)
Definition counts_from (event : EventDefinition) (state : EventRunnerState) (now_unix_ms : N) : N :=
  default (saturating_sub_u64 now_unix_ms 60000) (es_periodic_last_run state !! ev_id event).

Definition due_decision (event : EventDefinition) (state : EventRunnerState) (now_unix_ms : N)
    (stale_immediate_max_age_seconds : N) : Result string DueDecision :=
  if negb (ev_enabled event) then Ok NotDue
  else
    match ev_schedule event with
    | Immediate =>
        if (stale_immediate_max_age_seconds =? 0)%N then Ok Run
        else
          let created := default now_unix_ms (ev_created_unix_ms event) in
          let max_age_ms := saturating_mul_u64 stale_immediate_max_age_seconds 1000 in
          if (max_age_ms <? saturating_sub_u64 now_unix_ms created)%N then Ok SkipStaleRemove else Ok Run
    | At at_unix_ms => if (at_unix_ms <=? now_unix_ms)%N then Ok Run else Ok NotDue
    | Periodic cron timezone =>
        next_due ← next_periodic_due_unix_ms cron timezone (counts_from event state now_unix_ms);
        if (next_due <=? now_unix_ms)%N then Ok Run else Ok NotDue
    end.

Definition validate_event_schedule (event : EventDefinition) (state : EventRunnerState) (now_unix_ms : N)
    : Result string unit :=
  match ev_schedule event with
  | Immediate | At _ => Ok tt
  | Periodic cron timezone =>
      _ ← next_periodic_due_unix_ms cron timezone (counts_from event state now_unix_ms); Ok tt
  end.
End schedules.

(** ** Files *)

Section files.
Context `{!EventHost, !EventCodec}.

Definition load_runner_state (path : string) : FileOp EventRunnerState :=
  there ← path_exists path;
  if (there : bool) then
    raw ← read_file path ("failed to read " +:+ path);
    state ← of_result (ok_or ("failed to parse " +:+ path) (decode_runner_state raw));
    _ ← fail_if (negb (es_schema_version state =? EVENT_RUNNER_STATE_SCHEMA_VERSION)%N)
          ("unsupported event runner state schema: expected " +:+
           show_u64 EVENT_RUNNER_STATE_SCHEMA_VERSION +:+ ", found " +:+ show_u64 (es_schema_version state));
    mret state
  else mret runner_state_default.

Definition save_runner_state (path : string) (state : EventRunnerState) : FileOp unit :=
  _ ← create_parent path;
  write_atomic path (encode_runner_state state +:+ newline).

Definition is_json_path (path : string) : bool := bool_decide (path_extension path = Some "json").

(** A definition without a creation time gets that of its file. *)
Definition with_created (fs : TextFs) (path : string) (definition : EventDefinition) : EventDefinition :=
  match ev_created_unix_ms definition with
  | Some _ => definition
  | None =>
      mkEventDefinition (ev_id definition) (ev_channel definition) (ev_prompt definition)
        (ev_schedule definition) (ev_enabled definition) (Some (default (fs_now_ms fs) (modified_ms fs path)))
  end.

(** The records of the paths, and how many could not be read or parsed. *)
Fixpoint read_records (fs : TextFs) (paths : list string) : list EventRecord * nat :=
  match paths with
  | [] => ([], 0)
  | path :: paths =>
      let '(records, malformed) := read_records fs paths in
      if negb (is_json_path path) then (records, malformed)
      else
        match fs_files fs !! path with
        | None => (records, S malformed)
        | Some raw =>
            match decode_event raw with
            | Err _ => (records, S malformed)
            | Ok definition => (mkEventRecord path (with_created fs path definition) :: records, malformed)
            end
        end
  end.

Definition record_le (left right : EventRecord) : bool :=
  String.leb (ev_id (er_definition left)) (ev_id (er_definition right)).

Definition list_dir (dir : string) : FileOp (list string) := λ fs,
  (match read_dir fs dir with Ok paths => Ok paths | Err _ => Err ("failed to read " +:+ dir) end, fs).

Definition load_event_records (events_dir : string) : FileOp (list EventRecord * nat) :=
  there ← path_exists events_dir;
  if (there : bool) then
    paths ← list_dir events_dir;
    found ← gets (λ fs, read_records fs paths);
    mret (sort_by record_le found.1, found.2)
  else mret ([], 0).

Definition collect_event_definition_paths (events_dir : string) : FileOp (list string) :=
  there ← path_exists events_dir;
  if (there : bool) then
    is_dir ← gets (λ fs, bool_decide (events_dir ∈ fs_dirs fs));
    _ ← fail_if (negb is_dir) ("events dir is not a directory: " +:+ events_dir);
    paths ← list_dir events_dir;
    mret (sort_by String.leb (List.filter is_json_path paths))
  else mret [].
End files.

(** ** The scheduler *)

Record Scheduler := mkScheduler { sd_runner : EventRunnerState; sd_fs : TextFs }.
Abbreviation SchedOp := (Eff Scheduler string).

Definition on_files {A} (m : FileOp A) : SchedOp A := λ s,
  let '(r, fs) := m (sd_fs s) in (r, mkScheduler (sd_runner s) fs).
(** [let _ = m] *)
Definition ignoring {A} (m : FileOp A) : SchedOp unit := λ s,
  (Ok tt, mkScheduler (sd_runner s) (m (sd_fs s)).2).
Definition on_runner (f : EventRunnerState → EventRunnerState) : SchedOp unit :=
  modify (λ s, mkScheduler (f (sd_runner s)) (sd_fs s)).

Definition execution (event : EventDefinition) (now_unix_ms : N) (outcome reason_code : string)
    : EventExecutionRecord :=
  mkExecution now_unix_ms (ev_id event) (ev_channel event) (schedule_name (ev_schedule event)) outcome
    reason_code.

Section scheduler.
Context `{!EventHost, !EventCron, !EventCodec, !ChannelCodec, !EventRunner}.
Implicit Types c : EventSchedulerConfig.

(** The records to run, at most [queue_limit] and at least one; stale ones are
    removed on the way.  An evaluation error ends the poll. *)
Fixpoint collect_due c (now_unix_ms : N) (records queued : list EventRecord) (stale : nat)
    : SchedOp (list EventRecord * nat) :=
  match records with
  | [] => mret (queued, stale)
  | record :: records =>
      state ← gets sd_runner;
      decision ← of_result (due_decision (er_definition record) state now_unix_ms
                              (sc_stale_immediate_max_age_seconds c));
      match decision with
      | Run =>
          let queued := queued ++ [record] in
          if Nat.max (sc_queue_limit c) 1 <=? length queued then mret (queued, stale)
          else collect_due c now_unix_ms records queued stale
      | SkipStaleRemove =>
          _ ← on_runner (append_execution_record
                 (execution (er_definition record) now_unix_ms "skipped" "stale_immediate"));
          _ ← ignoring (remove_file (er_path record) "");
          collect_due c now_unix_ms records queued (S stale)
      | NotDue => collect_due c now_unix_ms records queued stale
      end
  end.

Definition event_payload (event : EventDefinition) : Value :=
  json_obj [("event_id", Str (ev_id event)); ("channel", Str (ev_channel event));
            ("prompt", Str (ev_prompt event)); ("schedule", schedule_value (ev_schedule event))].

Definition execute_event c (event : EventDefinition) (now_unix_ms : N) : FileOp unit :=
  channel_ref ← of_result (parse_channel_ref (ev_channel event));
  store ← channel_store_open (sc_channel_store_root c) (cr_transport channel_ref) (cr_channel_id channel_ref);
  _ ← append_log_entry store (mkLogEntry now_unix_ms "inbound" (Some (ev_id event)) "events" (event_payload event));
  run_event event now_unix_ms store.

(** What follows a run that succeeded. *)
Definition finish_event (record : EventRecord) (now_unix_ms : N) : SchedOp unit :=
  let event := er_definition record in
  match ev_schedule event with
  | Immediate | At _ => ignoring (remove_file (er_path record) "")
  | Periodic _ _ => on_runner (λ s, set_last_run (<[ev_id event := now_unix_ms]> (es_periodic_last_run s)) s)
  end.

(** [Result] of a run as a value *)
Definition try_files {A} (m : FileOp A) : SchedOp (Result string A) := λ s,
  let '(r, fs) := m (sd_fs s) in (Ok r, mkScheduler (sd_runner s) fs).

(** The queued records in order; the numbers of executed and failed ones. *)
Fixpoint run_queued c (now_unix_ms : N) (queued : list EventRecord) : SchedOp (nat * nat) :=
  match queued with
  | [] => mret (0, 0)
  | record :: queued =>
      let event := er_definition record in
      r ← try_files (execute_event c event now_unix_ms);
      match r with
      | Ok _ =>
          _ ← on_runner (append_execution_record (execution event now_unix_ms "executed" "event_executed"));
          _ ← finish_event record now_unix_ms;
          counts ← run_queued c now_unix_ms queued;
          mret (S counts.1, counts.2)
      | Err _ =>
          _ ← on_runner (append_execution_record (execution event now_unix_ms "failed" "runner_error"));
          counts ← run_queued c now_unix_ms queued;
          mret (counts.1, S counts.2)
      end
  end.

Definition poll_once c (now_unix_ms : N) : SchedOp EventPollReport :=
  loaded ← on_files (load_event_records (sc_events_dir c));
  due ← collect_due c now_unix_ms loaded.1 [] 0;
  counts ← run_queued c now_unix_ms due.1;
  state ← gets sd_runner;
  _ ← on_files (save_runner_state (sc_state_path c) state);
  mret (mkPollReport (length loaded.1) (length due.1) counts.1 due.2 loaded.2 counts.2).

Definition scheduler_new c (fs : TextFs) : Result string Scheduler * TextFs :=
  (_ ← create_dir_all (sc_events_dir c);
   state ← load_runner_state (sc_state_path c);
   fs ← gets (λ fs, fs);
   mret (mkScheduler state fs) : FileOp Scheduler) fs.
End scheduler.

(** ** Webhooks *)

Definition hex_value (c : ascii) : option N :=
  let n := N_of_ascii c in
  if is_ascii_digit c then Some (n - 48)%N
  else if byte_in 97 102 c then Some (n - 87)%N
  else if byte_in 65 70 c then Some (n - 55)%N
  else None.

(** [u8::from_str_radix(_, 16)] of two characters: a plus sign may stand first. *)
Definition hex_pair (a b : ascii) : option ascii :=
  low ← hex_value b;
  if Ascii.eqb a "+" then Some (ascii_of_N low)
  else high ← hex_value a; Some (ascii_of_N (16 * high + low)).

(** Two bytes are UTF-8 text. *)
Definition utf8_pair (a b : ascii) : bool :=
  (byte_in 0 127 a && byte_in 0 127 b) || (byte_in 194 223 a && byte_in 128 191 b).

Fixpoint decode_hex_pairs (l : list ascii) : Result string (list ascii) :=
  match l with
  | a :: b :: l =>
      _ ← bail_if (negb (utf8_pair a b)) "invalid utf-8 in digest";
      byte ← ok_or ("invalid hex byte '" +:+ of_chars [a; b] +:+ "' in signature digest") (hex_pair a b);
      bytes ← decode_hex_pairs l;
      Ok (byte :: bytes)
  | _ => Ok []
  end.

Definition decode_hex (value : string) : Result string (list ascii) :=
  let trimmed := trim value in
  _ ← bail_if (is_empty trimmed) "signature digest cannot be empty";
  _ ← bail_if (negb (Nat.even (String.length trimmed)))
        "signature digest must have an even number of hex characters";
  decode_hex_pairs (chars_of trimmed).

Definition abs_diff (a b : N) : N := if (a <? b)%N then (b - a)%N else (a - b)%N.

Definition validate_timestamp_skew (timestamp : string) (now_unix_ms max_skew_seconds : N)
    : Result string unit :=
  if (max_skew_seconds =? 0)%N then Ok tt
  else
    timestamp_seconds ← ok_or ("invalid webhook timestamp '" +:+ timestamp +:+ "'") (parse_u64 (trim timestamp));
    let skew := abs_diff (now_unix_ms / 1000) timestamp_seconds in
    bail_if (max_skew_seconds <? skew)%N
      ("webhook timestamp skew " +:+ show_u64 skew +:+ "s exceeds max " +:+ show_u64 max_skew_seconds +:+ "s").

(** The entries kept by [retain]. *)
Definition retain_seen (now_unix_ms retain_window_ms : N) (m : gmap string N) : gmap string N :=
  filter (λ p, (saturating_sub_u64 now_unix_ms p.2 ≤ retain_window_ms)%N) m.

(** The guard: the state is pruned also when the signature is a replay. *)
Definition enforce_signature_replay_guard (state : EventRunnerState) (replay_key : string)
    (now_unix_ms max_skew_seconds : N) : Result string EventRunnerState :=
  let window_ms := saturating_mul_u64 (N.max max_skew_seconds 1) 1000 in
  let retain_window_ms := saturating_mul_u64 window_ms 3 in
  let seen := retain_seen now_unix_ms retain_window_ms (es_signature_replay_last_seen state) in
  _ ← bail_if (match seen !! replay_key with
               | Some last_seen => (saturating_sub_u64 now_unix_ms last_seen <=? window_ms)%N
               | None => false
               end) ("webhook signature replay detected for key '" +:+ replay_key +:+ "'");
  Ok (set_replay (<[replay_key := now_unix_ms]> seen) state).

Section webhooks.
Context `{!WebhookMac, !EventCodec, !ChannelCodec}.

Definition verify_signature_with (prefix format_error : string) (message signature secret : string)
    : Result string unit :=
  digest_hex ← ok_or format_error (strip_prefix prefix signature);
  signature_bytes ← decode_hex digest_hex;
  bail_if (negb (hmac_verify secret message signature_bytes)) "webhook signature verification failed".

Definition verify_github_sha256_signature (payload signature secret : string) : Result string unit :=
  verify_signature_with "sha256=" "github webhook signature must use sha256=<hex> format" payload signature
    secret.
Definition verify_slack_v0_signature (payload signature timestamp secret : string) : Result string unit :=
  verify_signature_with "v0=" "slack webhook signature must use v0=<hex> format"
    ("v0:" +:+ timestamp +:+ ":" +:+ payload) signature secret.

Definition verify_webhook_signature (payload_raw : string) (signature timestamp secret : option string)
    (algorithm : option WebhookSignatureAlgorithm) (now_unix_ms max_skew_seconds : N)
    : Result string (option string) :=
  if negb (bool_decide (is_Some signature) || bool_decide (is_Some timestamp) || bool_decide (is_Some secret)
           || bool_decide (is_Some algorithm))
  then Ok None
  else
    signature ← ok_or "--event-webhook-signature is required when webhook signing is configured"
                  (nonblank signature);
    secret ← ok_or "--event-webhook-secret is required when webhook signing is configured" (nonblank secret);
    algorithm ← ok_or "--event-webhook-signature-algorithm is required when webhook signing is configured"
                  algorithm;
    replay_key ←
      match algorithm with
      | GithubSha256 =>
          _ ← verify_github_sha256_signature payload_raw signature secret;
          _ ← match timestamp with
              | Some value => validate_timestamp_skew value now_unix_ms max_skew_seconds
              | None => Ok tt
              end;
          Ok ("github_sha256:" +:+ default "" timestamp +:+ ":" +:+ signature)
      | SlackV0 =>
          timestamp ← ok_or "--event-webhook-timestamp is required for slack-v0 signatures"
                        (nonblank timestamp);
          _ ← verify_slack_v0_signature payload_raw signature timestamp secret;
          _ ← validate_timestamp_skew timestamp now_unix_ms max_skew_seconds;
          Ok ("slack_v0:" +:+ timestamp +:+ ":" +:+ signature)
      end;
    Ok (Some (to_ascii_lowercase replay_key)).

(** [short_hash] of six bytes *)
Definition event_short_hash (bytes : string) : string := hex_of_bytes (take 6 (channel_sha256 bytes)).

Definition event_path_char (c : ascii) : bool :=
  is_ascii_alphanumeric c || Ascii.eqb c "-" || Ascii.eqb c "_" || Ascii.eqb c ".".
(** [sanitize_for_path]: a character of several bytes becomes one underscore. *)
Definition event_sanitize_for_path (raw : string) : string :=
  let trimmed := of_chars (trim_underscores
    ((λ c, if event_path_char c then c else underscore) <$> List.filter is_char_start (chars_of raw))) in
  if is_empty trimmed then "event" else trimmed.

(** The debounce: [None] when the delivery is dropped. *)
Definition debounce (config : EventWebhookIngestConfig) (now_unix_ms : N) (state : EventRunnerState)
    : option EventRunnerState :=
  match wc_debounce_key config with
  | None => Some state
  | Some key =>
      let window_ms := saturating_mul_u64 (wc_debounce_window_seconds config) 1000 in
      if match es_debounce_last_seen state !! key with
         | Some last_seen => (saturating_sub_u64 now_unix_ms last_seen <? window_ms)%N
         | None => false
         end
      then None
      else Some (set_debounce (<[key := now_unix_ms]> (es_debounce_last_seen state)) state)
  end.

Definition webhook_event (config : EventWebhookIngestConfig) (now_unix_ms : N) (payload : string)
    : EventDefinition :=
  mkEventDefinition ("webhook-" +:+ show_u64 now_unix_ms +:+ "-" +:+ event_short_hash payload)
    (wc_channel_ref config)
    (wc_prompt_prefix config +:+ newline +:+ newline +:+ "Webhook payload:" +:+ newline +:+ payload)
    Immediate true (Some now_unix_ms).

Definition ingest_webhook_immediate_event (config : EventWebhookIngestConfig) : FileOp unit :=
  _ ← create_dir_all (wc_events_dir config);
  now_unix_ms ← gets fs_now_ms;
  payload_raw ← read_file (wc_payload_file config) ("failed to read " +:+ wc_payload_file config);
  let payload := trim payload_raw in
  _ ← fail_if (is_empty payload) ("webhook payload file is empty: " +:+ wc_payload_file config);
  state ← load_runner_state (wc_state_path config);
  replay_key ← of_result (verify_webhook_signature payload_raw (wc_signature config) (wc_timestamp config)
                            (wc_secret config) (wc_signature_algorithm config) now_unix_ms
                            (wc_signature_max_skew_seconds config));
  state ← of_result (match replay_key with
                     | Some key => enforce_signature_replay_guard state key now_unix_ms
                                     (wc_signature_max_skew_seconds config)
                     | None => Ok state
                     end);
  match debounce config now_unix_ms state with
  | None => mret tt
  | Some state =>
      let event := webhook_event config now_unix_ms payload in
      _ ← write_atomic (path_join (wc_events_dir config) (event_sanitize_for_path (ev_id event) +:+ ".json"))
            (encode_event event +:+ newline);
      save_runner_state (wc_state_path config) state
  end.
End webhooks.

(** ** Reports *)

Record EventsInspectConfig := mkEventsInspectConfig
  { ic_events_dir : string; ic_state_path : string; ic_queue_limit : nat;
    ic_stale_immediate_max_age_seconds : N }.

(** The dry run is configured alike. *)
Abbreviation EventsDryRunConfig := EventsInspectConfig.

Record EventsInspectReport := mkEventsInspect
  { ei_events_dir : string; ei_state_path : string; ei_now_unix_ms : N; ei_queue_limit : nat;
    ei_stale_immediate_max_age_seconds : N; ei_discovered_events : nat; ei_malformed_events : nat;
    ei_enabled_events : nat; ei_disabled_events : nat; ei_schedule_immediate_events : nat;
    ei_schedule_at_events : nat; ei_schedule_periodic_events : nat; ei_due_now_events : nat;
    ei_queued_now_events : nat; ei_not_due_events : nat; ei_stale_immediate_events : nat;
    ei_due_eval_failed_events : nat; ei_periodic_with_last_run_state : nat;
    ei_periodic_missing_last_run_state : nat; ei_execution_history_entries : nat;
    ei_execution_history_limit : nat; ei_executed_history_entries : nat;
    ei_failed_history_entries : nat; ei_skipped_history_entries : nat;
    ei_last_execution_unix_ms : option N; ei_last_execution_reason_code : option string }.

Record EventsValidateDiagnostic := mkDiagnostic
  { dg_path : string; dg_event_id : option string; dg_reason_code : string; dg_message : string }.

Record EventsValidateReport := mkEventsValidate
  { vr_events_dir : string; vr_state_path : string; vr_now_unix_ms : N; vr_total_files : nat;
    vr_valid_files : nat; vr_invalid_files : nat; vr_malformed_files : nat; vr_failed_files : nat;
    vr_disabled_files : nat; vr_diagnostics : list EventsValidateDiagnostic }.

Record EventsSimulateRow := mkSimulateRow
  { sr_path : string; sr_event_id : string; sr_channel : string; sr_schedule : string; sr_enabled : bool;
    sr_next_due_unix_ms : option N; sr_due_now : bool; sr_within_horizon : bool;
    sr_last_run_unix_ms : option N }.

Record EventsSimulateReport := mkSimulateReport
  { sm_events_dir : string; sm_state_path : string; sm_now_unix_ms : N; sm_horizon_seconds : N;
    sm_total_files : nat; sm_simulated_rows : nat; sm_malformed_files : nat; sm_invalid_rows : nat;
    sm_due_now_rows : nat; sm_within_horizon_rows : nat; sm_rows : list EventsSimulateRow;
    sm_diagnostics : list EventsValidateDiagnostic }.

Record EventsDryRunRow := mkDryRunRow
  { dy_path : string; dy_event_id : option string; dy_channel : option string; dy_schedule : option string;
    dy_enabled : option bool; dy_decision : string; dy_reason_code : string; dy_queue_position : option nat;
    dy_last_run_unix_ms : option N; dy_message : option string }.

Record EventsDryRunReport := mkDryRunReport
  { dn_events_dir : string; dn_state_path : string; dn_now_unix_ms : N; dn_queue_limit : nat;
    dn_total_files : nat; dn_evaluated_rows : nat; dn_execute_rows : nat; dn_skipped_rows : nat;
    dn_error_rows : nat; dn_malformed_files : nat; dn_rows : list EventsDryRunRow }.

Record EventsDryRunGateConfig := mkGateConfig
  { gc_max_error_rows : option nat; gc_max_execute_rows : option nat }.
Record EventsDryRunGateOutcome := mkGateOutcome
  { go_status : string; go_reason_codes : list string; go_execute_rows : nat; go_skipped_rows : nat;
    go_error_rows : nat; go_max_error_rows : option nat; go_max_execute_rows : option nat }.

Record EventsTemplateConfig := mkTemplateConfig
  { tm_target_path : string; tm_overwrite : bool; tm_schedule : EventTemplateSchedule; tm_channel : string;
    tm_prompt : string; tm_event_id : option string; tm_at_unix_ms : option N; tm_cron : option string;
    tm_timezone : option string }.
Record EventsTemplateWriteReport := mkTemplateReport
  { tr_path : string; tw_schedule : string; tw_event_id : string; tw_channel : string; tw_overwrite : bool }.

Definition count_if {A} (f : A → bool) (l : list A) : nat := length (List.filter f l).

Section reports.
Context `{!EventHost, !EventCron, !EventCodec}.

(** ** Templates *)

Definition template_schedule (config : EventsTemplateConfig) (now_unix_ms : N) : Result string EventSchedule :=
  match tm_schedule config with
  | TemplateImmediate => Ok Immediate
  | TemplateAt =>
      at_unix_ms ← ok_or "events template requires at_unix_ms for schedule=at" (tm_at_unix_ms config);
      Ok (At at_unix_ms)
  | TemplatePeriodic =>
      cron ← ok_or "events template requires cron for schedule=periodic" (nonblank (tm_cron config));
      timezone ← ok_or "events template requires timezone for schedule=periodic" (nonblank (tm_timezone config));
      _ ← next_periodic_due_unix_ms cron timezone (saturating_sub_u64 now_unix_ms 60000);
      Ok (Periodic cron timezone)
  end.

Definition write_event_template (config : EventsTemplateConfig) (now_unix_ms : N)
    : FileOp EventsTemplateWriteReport :=
  there ← path_exists (tm_target_path config);
  _ ← fail_if (there && negb (tm_overwrite config))
        ("template path already exists (use --events-template-overwrite=true): " +:+ tm_target_path config);
  let channel := trim (tm_channel config) in
  _ ← fail_if (is_empty channel) "events template channel must be non-empty";
  _ ← of_result (parse_channel_ref channel);
  schedule ← of_result (template_schedule config now_unix_ms);
  let event_id := default ("template-" +:+ schedule_name schedule) (nonblank (tm_event_id config)) in
  let prompt := trim (tm_prompt config) in
  let prompt := if is_empty prompt then "Summarize current context and propose the next best action."
                else prompt in
  let template := mkEventDefinition event_id channel prompt schedule true (Some now_unix_ms) in
  _ ← create_parent (tm_target_path config);
  _ ← write_atomic (tm_target_path config) (encode_event template +:+ newline);
  mret (mkTemplateReport (tm_target_path config) (schedule_name schedule) event_id channel
          (tm_overwrite config)).

(** ** Inspection *)

Definition is_periodic (e : EventDefinition) : bool :=
  match ev_schedule e with Periodic _ _ => true | _ => false end.

Definition inspect_events (config : EventsInspectConfig) (now_unix_ms : N) : FileOp EventsInspectReport :=
  let queue_limit := Nat.max (ic_queue_limit config) 1 in
  loaded ← load_event_records (ic_events_dir config);
  state ← load_runner_state (ic_state_path config);
  let events := er_definition <$> loaded.1 in
  let history := es_recent_executions state in
  let outcomes outcome := count_if (λ x, String.eqb (xr_outcome x) outcome) history in
  let ran e := bool_decide (is_Some (es_periodic_last_run state !! ev_id e)) in
  let decision e := due_decision e state now_unix_ms (ic_stale_immediate_max_age_seconds config) in
  let decided d := count_if (λ e, match decision e with Ok d' => bool_decide (d' = d) | Err _ => false end)
                     events in
  mret (mkEventsInspect (ic_events_dir config) (ic_state_path config) now_unix_ms queue_limit
    (ic_stale_immediate_max_age_seconds config) (length events) loaded.2 (count_if ev_enabled events)
    (count_if (λ e, negb (ev_enabled e)) events)
    (count_if (λ e, match ev_schedule e with Immediate => true | _ => false end) events)
    (count_if (λ e, match ev_schedule e with At _ => true | _ => false end) events)
    (count_if is_periodic events) (decided Run) (Nat.min (decided Run) queue_limit) (decided NotDue)
    (decided SkipStaleRemove)
    (count_if (λ e, match decision e with Ok _ => false | Err _ => true end) events)
    (count_if (λ e, is_periodic e && ran e) events) (count_if (λ e, is_periodic e && negb (ran e)) events)
    (length history) EVENT_EXECUTION_HISTORY_LIMIT (outcomes "executed") (outcomes "failed")
    (outcomes "skipped") (xr_timestamp_unix_ms <$> last history) (xr_reason_code <$> last history)).

(** ** Reading the files one by one *)

(** A definition, or the reason and the message of the failure. *)
Definition read_definition (fs : TextFs) (path : string) : Result (string * string) EventDefinition :=
  match fs_files fs !! path with
  | None => Err ("read_error", sanitize_error_message (read_error_text fs path))
  | Some raw =>
      match decode_event raw with
      | Ok definition => Ok definition
      | Err error => Err ("json_parse", sanitize_error_message error)
      end
  end.

(** ** Validation *)

Definition definition_diagnostics (state : EventRunnerState) (now_unix_ms : N) (path : string)
    (definition : EventDefinition) : list EventsValidateDiagnostic :=
  let failure reason_code (error : string) :=
    mkDiagnostic path (Some (ev_id definition)) reason_code (sanitize_error_message error) in
  match parse_channel_ref (ev_channel definition) with
  | Err error => [failure "channel_ref_invalid" error] | Ok _ => []
  end
  ++ match validate_event_schedule definition state now_unix_ms with
     | Err error => [failure "schedule_invalid" error] | Ok _ => []
     end.

Definition file_diagnostics (fs : TextFs) (state : EventRunnerState) (now_unix_ms : N) (path : string)
    : list EventsValidateDiagnostic :=
  match read_definition fs path with
  | Err (reason_code, message) => [mkDiagnostic path None reason_code message]
  | Ok definition => definition_diagnostics state now_unix_ms path definition
  end.

Definition validate_events_definitions (events_dir state_path : string) (now_unix_ms : N)
    : FileOp EventsValidateReport :=
  state ← load_runner_state state_path;
  paths ← collect_event_definition_paths events_dir;
  fs ← gets (λ fs, fs);
  let readable path := match read_definition fs path with Ok _ => true | Err _ => false end in
  let clean path := bool_decide (length (file_diagnostics fs state now_unix_ms path) = 0) in
  let invalid := count_if (λ p, readable p && negb (clean p)) paths in
  let malformed := count_if (λ p, negb (readable p)) paths in
  mret (mkEventsValidate events_dir state_path now_unix_ms (length paths)
    (count_if (λ p, readable p && clean p) paths) invalid malformed (invalid + malformed)
    (count_if (λ p, match read_definition fs p with Ok e => negb (ev_enabled e) | Err _ => false end) paths)
    (mjoin (file_diagnostics fs state now_unix_ms <$> paths))).

(** ** Simulation *)

(** The next time an event is due; the decision on an immediate event has no error. *)
Definition simulated_due (state : EventRunnerState) (now_unix_ms stale_max_age : N) (e : EventDefinition)
    : Result string (option N) :=
  match ev_schedule e with
  | Immediate =>
      if ev_enabled e then
        decision ← due_decision e state now_unix_ms stale_max_age;
        Ok (match decision with Run => Some now_unix_ms | SkipStaleRemove | NotDue => None end)
      else Ok None
  | At at_unix_ms => Ok (Some at_unix_ms)
  | Periodic cron timezone =>
      next_due ← next_periodic_due_unix_ms cron timezone (counts_from e state now_unix_ms); Ok (Some next_due)
  end.

(** The row of a file, or what is wrong with it. *)
Definition simulate_file (fs : TextFs) (state : EventRunnerState) (now_unix_ms horizon_unix_ms stale_max_age : N)
    (path : string) : Result EventsValidateDiagnostic EventsSimulateRow :=
  match read_definition fs path with
  | Err (reason_code, message) => Err (mkDiagnostic path None reason_code message)
  | Ok e =>
      let failure reason_code (error : string) :=
        mkDiagnostic path (Some (ev_id e)) reason_code (sanitize_error_message error) in
      match parse_channel_ref (ev_channel e) with
      | Err error => Err (failure "channel_ref_invalid" error)
      | Ok _ =>
          match simulated_due state now_unix_ms stale_max_age e with
          | Err error => Err (failure "schedule_invalid" error)
          | Ok next_due =>
              let by_then limit := match next_due with Some t => (t <=? limit)%N | None => false end in
              Ok (mkSimulateRow path (ev_id e) (ev_channel e) (schedule_name (ev_schedule e)) (ev_enabled e)
                    next_due (ev_enabled e && by_then now_unix_ms) (ev_enabled e && by_then horizon_unix_ms)
                    (es_periodic_last_run state !! ev_id e))
          end
      end
  end.

(** Lexicographic order of a list of texts. *)
Fixpoint texts_leb (a b : list string) : bool :=
  match a, b with
  | x :: a, y :: b =>
      match String.compare x y with Lt => true | Gt => false | Eq => texts_leb a b end
  | _, _ => true
  end.

Definition ok_of {E A} (r : Result E A) : option A := match r with Ok a => Some a | Err _ => None end.
Definition err_of {E A} (r : Result E A) : option E := match r with Ok _ => None | Err e => Some e end.

Definition simulate_events (events_dir state_path : string) (horizon_seconds stale_max_age now_unix_ms : N)
    : FileOp EventsSimulateReport :=
  state ← load_runner_state state_path;
  paths ← collect_event_definition_paths events_dir;
  fs ← gets (λ fs, fs);
  let horizon_unix_ms := saturating_add_u64 now_unix_ms (saturating_mul_u64 horizon_seconds 1000) in
  let results := simulate_file fs state now_unix_ms horizon_unix_ms stale_max_age <$> paths in
  let rows := sort_by (λ l r, texts_leb [sr_event_id l; sr_path l] [sr_event_id r; sr_path r])
                (omap ok_of results) in
  let diagnostics := omap err_of results in
  let malformed := count_if (λ p, match read_definition fs p with Ok _ => false | Err _ => true end) paths in
  mret (mkSimulateReport events_dir state_path now_unix_ms horizon_seconds (length paths) (length rows)
    malformed (length diagnostics - malformed) (count_if sr_due_now rows) (count_if sr_within_horizon rows)
    rows diagnostics).

(** ** The dry run *)

Definition error_row (path : string) (e : option EventDefinition) (reason_code message : string)
    (last_run : option N) : EventsDryRunRow :=
  mkDryRunRow path (ev_id <$> e) (ev_channel <$> e) ((λ e, schedule_name (ev_schedule e)) <$> e)
    (ev_enabled <$> e) "error" reason_code None last_run (Some message).

(** A file the dry run can evaluate, or its row. *)
Definition dry_run_candidate (fs : TextFs) (path : string)
    : Result EventsDryRunRow (string * EventDefinition) :=
  match read_definition fs path with
  | Err (reason_code, message) => Err (error_row path None reason_code message None)
  | Ok e =>
      match parse_channel_ref (ev_channel e) with
      | Err error => Err (error_row path (Some e) "channel_ref_invalid" (sanitize_error_message error) None)
      | Ok _ => Ok (path, e)
      end
  end.

Definition plain_row (path : string) (e : EventDefinition) (decision reason_code : string)
    (queue_position : option nat) (last_run : option N) : EventsDryRunRow :=
  mkDryRunRow path (Some (ev_id e)) (Some (ev_channel e)) (Some (schedule_name (ev_schedule e)))
    (Some (ev_enabled e)) decision reason_code queue_position last_run None.

Fixpoint dry_run_rows (state : EventRunnerState) (now_unix_ms stale_max_age : N) (queue_limit queued : nat)
    (candidates : list (string * EventDefinition)) : list EventsDryRunRow :=
  match candidates with
  | [] => []
  | (path, e) :: candidates =>
      let last_run := es_periodic_last_run state !! ev_id e in
      if queue_limit <=? queued then
        plain_row path e "skip" "queue_limit_reached" None last_run
        :: dry_run_rows state now_unix_ms stale_max_age queue_limit queued candidates
      else
        match due_decision e state now_unix_ms stale_max_age with
        | Ok Run =>
            plain_row path e "execute" "due_now" (Some (S queued)) last_run
            :: dry_run_rows state now_unix_ms stale_max_age queue_limit (S queued) candidates
        | Ok NotDue =>
            plain_row path e "skip" "not_due" None last_run
            :: dry_run_rows state now_unix_ms stale_max_age queue_limit queued candidates
        | Ok SkipStaleRemove =>
            plain_row path e "skip" "stale_immediate" None last_run
            :: dry_run_rows state now_unix_ms stale_max_age queue_limit queued candidates
        | Err error =>
            error_row path (Some e) "schedule_invalid" (sanitize_error_message error) last_run
            :: dry_run_rows state now_unix_ms stale_max_age queue_limit queued candidates
        end
  end.

Definition candidate_leb (left right : string * EventDefinition) : bool :=
  texts_leb [ev_id left.2; left.1] [ev_id right.2; right.1].
Definition row_leb (left right : EventsDryRunRow) : bool :=
  texts_leb [default "" (dy_event_id left); dy_path left; dy_reason_code left]
    [default "" (dy_event_id right); dy_path right; dy_reason_code right].

Definition decided_rows (decision : string) (rows : list EventsDryRunRow) : nat :=
  count_if (λ row, String.eqb (dy_decision row) decision) rows.

Definition dry_run_events (config : EventsDryRunConfig) (now_unix_ms : N) : FileOp EventsDryRunReport :=
  state ← load_runner_state (ic_state_path config);
  paths ← collect_event_definition_paths (ic_events_dir config);
  fs ← gets (λ fs, fs);
  let queue_limit := Nat.max (ic_queue_limit config) 1 in
  let results := dry_run_candidate fs <$> paths in
  let candidates := sort_by candidate_leb (omap ok_of results) in
  let rows := sort_by row_leb
    (omap err_of results
     ++ dry_run_rows state now_unix_ms (ic_stale_immediate_max_age_seconds config) queue_limit 0 candidates) in
  let malformed := count_if (λ p, match read_definition fs p with Ok _ => false | Err _ => true end) paths in
  mret (mkDryRunReport (ic_events_dir config) (ic_state_path config) now_unix_ms queue_limit (length paths)
    (length rows) (decided_rows "execute" rows) (decided_rows "skip" rows) (decided_rows "error" rows)
    malformed rows).
End reports.

(** ** The gate *)

Definition exceeds (limit : option nat) (n : nat) : bool :=
  match limit with Some m => m <? n | None => false end.

Definition evaluate_events_dry_run_gate (report : EventsDryRunReport) (config : EventsDryRunGateConfig)
    : EventsDryRunGateOutcome :=
  let reason_codes :=
    (if exceeds (gc_max_error_rows config) (dn_error_rows report) then ["max_error_rows_exceeded"] else [])
    ++ (if exceeds (gc_max_execute_rows config) (dn_execute_rows report) then ["max_execute_rows_exceeded"]
        else []) in
  mkGateOutcome (match reason_codes with [] => "pass" | _ => "fail" end) reason_codes (dn_execute_rows report)
    (dn_skipped_rows report) (dn_error_rows report) (gc_max_error_rows config) (gc_max_execute_rows config).

Definition show_limit (limit : option nat) : string :=
  match limit with Some n => show_usize n | None => "none" end.

Definition render_events_dry_run_gate_summary (o : EventsDryRunGateOutcome) : string :=
  "events dry run gate: status=" +:+ go_status o +:+ " reason_codes=" +:+
  match go_reason_codes o with [] => "none" | codes => join "," codes end +:+
  " execute_rows=" +:+ show_usize (go_execute_rows o) +:+ " skipped_rows=" +:+ show_usize (go_skipped_rows o) +:+
  " error_rows=" +:+ show_usize (go_error_rows o) +:+ " max_error_rows=" +:+ show_limit (go_max_error_rows o) +:+
  " max_execute_rows=" +:+ show_limit (go_max_execute_rows o).

Definition enforce_events_dry_run_gate (report : EventsDryRunReport) (config : EventsDryRunGateConfig)
    : Result string unit :=
  let outcome := evaluate_events_dry_run_gate report config in
  bail_if (String.eqb (go_status outcome) "fail") (render_events_dry_run_gate_summary outcome).
