(* ===== verification/EventTheorems.v ===== *)
(** * Properties of scheduled events

    The dry run predicts the next poll; periodic events run once per occurrence;
    polls are bounded and no failure stops them; a signed webhook is taken once
    within the window. *)

From Stdlib Require Import ZArith NArith Ascii Lia.
From stdpp Require Import base gmap sorting strings list.
From S2P Require Import Prelude RustStr Json Effects BitCodec AtomicIo StateDirs ChannelStore ChannelStoreTheorems LogRotation EventScheduler.

#[local] Open Scope string_scope.
#[local] Open Scope list_scope.
#[local] Open Scope nat_scope.

(** ** Sorting by a text *)

Lemma leb_le a b : String.leb a b = true ↔ String.le a b.
Proof. unfold String.le. by rewrite Is_true_true. Qed.

Lemma leb_flip a b : String.leb a b = false → String.leb b a = true.
Proof. intros Hf. destruct (String.leb_total a b) as [|]; congruence. Qed.
Lemma leb_trans a b c : String.leb a b = true → String.leb b c = true → String.leb a c = true.
Proof. rewrite !leb_le. apply transitivity. Qed.

Lemma compare_leb a b :
  String.leb a b = match String.compare a b with Gt => false | _ => true end.
Proof. done. Qed.

(** The first texts decide. *)
Lemma texts_leb_true x y a b : texts_leb (x :: a) (y :: b) = true → String.leb x y = true.
Proof. cbn. rewrite compare_leb. by destruct (String.compare x y). Qed.
Lemma texts_leb_false x y a b : texts_leb (x :: a) (y :: b) = false → String.leb y x = true.
Proof.
  cbn. rewrite compare_leb, (String.compare_antisym x y). by destruct (String.compare y x).
Qed.

(** Lists sorted by a key that is distinct are equal when they have the same elements. *)
Lemma sorted_by_key_unique {A} (f : A → string) l k :
  NoDup (f <$> l) → l ≡ₚ k →
  StronglySorted (λ a b, String.leb (f a) (f b) = true) l →
  StronglySorted (λ a b, String.leb (f a) (f b) = true) k → l = k.
Proof.
  intros Hnd Hp Hl Hk. eapply StronglySorted_unique_strong; [|exact Hl|exact Hk|exact Hp].
  intros x y Hx Hy Hxy Hyx. cbn in Hxy, Hyx. assert (f x = f y) as Heq by (by apply String.leb_antisym).
  rewrite <- Hp in Hy. apply list_elem_of_lookup in Hx as [i Hi], Hy as [j Hj].
  assert (i = j) as ->; [|congruence].
  eapply (NoDup_lookup (f <$> l)); [done|rewrite list_lookup_fmap, Hi; reflexivity|].
  by rewrite list_lookup_fmap, Hj, Heq.
Qed.

(** Sorting by an order that refines a transitive relation sorts by the relation. *)
Lemma sort_by_sorted_rel {A} (le : A → A → bool) (R : A → A → Prop) l :
  (∀ a b, le a b = true → R a b) → (∀ a b, le a b = false → R b a) →
  (∀ a b c, R a b → R b c → R a c) → StronglySorted R (sort_by le l).
Proof.
  intros Htrue Hfalse Htr. induction l as [|x l IH]; cbn; [constructor|]. fold (sort_by le l).
  revert IH. generalize (sort_by le l) as k. induction 1 as [|y k Hs IHk Hall]; cbn; [repeat constructor|].
  destruct (le x y) eqn:Hle.
  - constructor; [by constructor|]. constructor; [auto|].
    eapply Forall_impl; [exact Hall|]. cbn. eauto.
  - constructor; [done|]. rewrite insert_by_perm. constructor; [auto|done].
Qed.

Section theorems.
Context `{!EventHost, !EventCron, !EventCodec, !ChannelCodec, !EventRunner}.
Implicit Types (c : EventSchedulerConfig) (e : EventDefinition).

(** ** The queue of a poll *)

Definition due (state : EventRunnerState) (now stale_max_age : N) e : bool :=
  match due_decision e state now stale_max_age with Ok Run => true | _ => false end.

(** A decision looks at the last runs only. *)
Lemma due_decision_last_run e s t now stale :
  es_periodic_last_run s = es_periodic_last_run t → due_decision e s now stale = due_decision e t now stale.
Proof. intros Heq. unfold due_decision, counts_from. by rewrite Heq. Qed.

Lemma append_execution_last_run r s :
  es_periodic_last_run (append_execution_record r s) = es_periodic_last_run s.
Proof. done. Qed.

(** The first due records, as many as the queue takes. *)
Lemma collect_due_spec c now records queued stale state s :
  es_periodic_last_run (sd_runner s) = es_periodic_last_run state →
  length queued < Nat.max (sc_queue_limit c) 1 →
  Forall (λ r, is_Some (ok_of (due_decision (er_definition r) state now
                               (sc_stale_immediate_max_age_seconds c)))) records →
  ∃ stale' s', collect_due c now records queued stale s =
    (Ok (queued ++ take (Nat.max (sc_queue_limit c) 1 - length queued)
           (List.filter (λ r, due state now (sc_stale_immediate_max_age_seconds c) (er_definition r)) records),
         stale'), s').
Proof.
  revert queued stale s. induction records as [|record records IH]; intros queued stale s Hst Hlen Hok.
  { exists stale, s. cbn. by rewrite take_nil, app_nil_r. }
  apply Forall_cons in Hok as [[d Hd] Hok]. cbn [collect_due List.filter]. rewrite eff_bind_unfold. cbn [gets].
  rewrite eff_bind_unfold. cbn [of_result]. rewrite (due_decision_last_run _ _ _ _ _ Hst).
  unfold due at 1. destruct (due_decision _ state now _) as [d'|]; [|done].
  destruct d'.
  - destruct (Nat.leb_spec (Nat.max (sc_queue_limit c) 1) (length (queued ++ [record]))) as [Hfull|Hroom];
      rewrite length_app in *; cbn [length] in *.
    + exists stale, s. replace (_ - length queued) with 1 by lia. done.
    + destruct (IH (queued ++ [record]) stale s) as (stale' & s' & ->);
        [done|rewrite length_app; cbn; lia|done|].
      exists stale', s'. rewrite length_app, <- app_assoc. cbn [length].
      replace (Nat.max (sc_queue_limit c) 1 - length queued)
        with (S (Nat.max (sc_queue_limit c) 1 - (length queued + 1))) by lia. done.
  - by apply IH.
  - rewrite eff_bind_unfold. cbn [on_runner modify]. rewrite eff_bind_unfold. unfold ignoring at 1.
    apply IH; [by cbn|done|done].
Qed.

(** The rows of the dry run that say "execute". *)
Definition is_execute (row : EventsDryRunRow) : bool := String.eqb (dy_decision row) "execute".
Definition position (row : EventsDryRunRow) : option nat * string := (dy_queue_position row, dy_path row).

Lemma dry_run_rows_spec state now stale limit queued candidates :
  queued ≤ limit →
  position <$> List.filter is_execute (dry_run_rows state now stale limit queued candidates) =
  imap (λ i p, (Some (S (queued + i)), p.1))
    (take (limit - queued) (List.filter (λ p, due state now stale p.2) candidates)).
Proof.
  revert queued. induction candidates as [|[path e] candidates IH]; intros queued Hle.
  { cbn. by rewrite take_nil. }
  cbn [dry_run_rows List.filter]. destruct (Nat.leb_spec limit queued) as [Hfull|Hroom].
  { cbn. rewrite IH by lia. replace (limit - queued) with 0 by lia. by rewrite !take_0. }
  unfold due at 1. cbn [snd]. destruct (due_decision e state now stale) as [[]|error]; cbn;
    [|apply IH; lia..].
  rewrite IH by lia. replace (limit - queued) with (S (limit - S queued)) by lia.
  cbn. unfold position at 1. cbn. f_equal; [repeat f_equal; lia|].
  apply imap_ext. intros i x _. cbn. repeat f_equal. lia.
Qed.

(** ** What both read *)

(** The definitions of the files of a listing. *)
Definition definitions (fs : TextFs) (paths : list string) : list (string * EventDefinition) :=
  omap (λ p, pair p <$> ok_of (read_definition fs p)) (List.filter is_json_path paths).

Definition record_of (p : string * EventDefinition) : EventRecord := mkEventRecord p.1 p.2.

(** A file that parses has a creation time and a usable channel. *)
Definition complete (p : string * EventDefinition) : Prop :=
  is_Some (ev_created_unix_ms p.2) ∧ is_Some (ok_of (parse_channel_ref (ev_channel p.2))).

Lemma definitions_cons fs path paths :
  definitions fs (path :: paths) =
  (if is_json_path path then match read_definition fs path with Ok e => [(path, e)] | Err _ => [] end else [])
  ++ definitions fs paths.
Proof.
  unfold definitions. cbn. destruct (is_json_path path); [|done]. cbn.
  by destruct (read_definition fs path).
Qed.

Lemma read_records_definitions fs paths :
  Forall complete (definitions fs paths) → (read_records fs paths).1 = record_of <$> definitions fs paths.
Proof.
  induction paths as [|path paths IH]; [done|]. rewrite definitions_cons. intros [Hp Hc]%Forall_app.
  specialize (IH Hc). cbn [read_records]. rewrite fmap_app. destruct (read_records fs paths) as [records m].
  cbn in IH. subst records. destruct (is_json_path path); cbn [negb]; [|done].
  unfold read_definition in *. destruct (fs_files fs !! path) as [raw|]; [|done].
  destruct (decode_event raw) as [e|]; [|done]. apply Forall_cons in Hp as [[[t Ht] _] _].
  cbn in Ht. unfold with_created. by rewrite Ht.
Qed.

Lemma candidates_definitions fs paths :
  Forall complete (definitions fs paths) → Forall (λ p, is_json_path p = true) paths →
  omap ok_of (dry_run_candidate fs <$> paths) = definitions fs paths.
Proof.
  induction paths as [|path paths IH]; [done|]. rewrite definitions_cons.
  intros [Hp Hc]%Forall_app [Hj Hjs]%Forall_cons. specialize (IH Hc Hjs). rewrite Hj in *.
  cbn. rewrite <- IH. unfold dry_run_candidate.
  destruct (read_definition fs path) as [e|[r m]]; [|done]. apply Forall_cons in Hp as [[_ [ch Hch]] _].
  cbn in Hch. by destruct (parse_channel_ref (ev_channel e)).
Qed.

Lemma definitions_perm fs paths paths' : paths ≡ₚ paths' → definitions fs paths ≡ₚ definitions fs paths'.
Proof.
  induction 1 as [|p l k _ IH|p q l|l k m _ IH1 _ IH2]; [done| | |by etrans].
  - rewrite !definitions_cons. by rewrite IH.
  - rewrite !definitions_cons, !app_assoc. f_equiv. apply Permutation_app_comm.
Qed.

Lemma definitions_filter fs paths : definitions fs (List.filter is_json_path paths) = definitions fs paths.
Proof.
  induction paths as [|path paths IH]; [done|]. rewrite definitions_cons. cbn [List.filter].
  destruct (is_json_path path) eqn:Hj; [|done]. by rewrite definitions_cons, Hj, IH.
Qed.

Lemma list_filter_true {A} (f : A → bool) l : Forall (λ x, f x = true) (List.filter f l).
Proof. induction l as [|x l IH]; cbn; [done|]. destruct (f x) eqn:Hx; [by constructor|done]. Qed.

Lemma list_filter_fmap {A B} (g : A → B) (f : B → bool) l :
  List.filter f (g <$> l) = g <$> List.filter (λ x, f (g x)) l.
Proof. apply filter_map_swap. Qed.

(** The definitions by id. *)
Definition ids_of (l : list (string * EventDefinition)) : list string := (λ p, ev_id p.2) <$> l.

(** Both sort the definitions by id. *)
Lemma sorted_records fs paths paths' :
  paths ≡ₚ paths' → NoDup (ids_of (definitions fs paths)) →
  sort_by record_le (record_of <$> definitions fs paths) =
  record_of <$> sort_by candidate_leb (definitions fs paths').
Proof.
  intros Hp Hnd. apply (sorted_by_key_unique (λ r, ev_id (er_definition r))).
  - rewrite sort_by_perm, <- list_fmap_compose. exact Hnd.
  - by rewrite !sort_by_perm, (definitions_perm _ _ _ Hp).
  - apply sort_by_sorted_rel; [done|apply (λ a b, leb_flip _ _)|eauto using leb_trans].
  - apply (StronglySorted_fmap record_of (λ a b, String.leb (ev_id a.2) (ev_id b.2) = true)); [done|].
    apply sort_by_sorted_rel; [intros a b; apply texts_leb_true|intros a b; apply texts_leb_false|].
    eauto using leb_trans.
Qed.

Lemma load_event_records_spec fs dir paths :
  dir ∈ fs_dirs fs → read_dir fs dir = Ok paths →
  load_event_records dir fs =
  (Ok (sort_by record_le (read_records fs paths).1, (read_records fs paths).2), fs).
Proof.
  intros Hdir Hread. unfold load_event_records. rewrite eff_bind_unfold. cbn [path_exists gets].
  rewrite (bool_decide_eq_true_2 _ Hdir), orb_true_r, eff_bind_unfold. unfold list_dir. by rewrite Hread.
Qed.

Lemma collect_paths_spec fs dir paths :
  dir ∈ fs_dirs fs → read_dir fs dir = Ok paths →
  collect_event_definition_paths dir fs =
  (Ok (sort_by String.leb (List.filter is_json_path paths)), fs).
Proof.
  intros Hdir Hread. unfold collect_event_definition_paths. rewrite eff_bind_unfold. cbn [path_exists gets].
  rewrite (bool_decide_eq_true_2 _ Hdir), orb_true_r, !eff_bind_unfold. cbn [gets].
  rewrite (bool_decide_eq_true_2 _ Hdir), eff_bind_unfold. cbn [negb fail_if of_result bail_if].
  rewrite eff_bind_unfold. unfold list_dir. by rewrite Hread.
Qed.

(** The rows of files that could not be evaluated. *)
Lemma error_rows_no_execute fs paths :
  List.filter is_execute (omap err_of (dry_run_candidate fs <$> paths)) = [].
Proof.
  induction paths as [|path paths IH]; [done|]. cbn. unfold dry_run_candidate at 1.
  destruct (read_definition fs path) as [e|[r m]]; [|done]. by destruct (parse_channel_ref (ev_channel e)).
Qed.

(** The records a poll is going to run. *)
Definition poll_queue c (now : N) : SchedOp (list EventRecord) :=
  loaded ← on_files (load_event_records (sc_events_dir c));
  due ← collect_due c now loaded.1 [] 0;
  mret due.1.

(** ** The dry run and the poll *)

(** What both need to agree: a directory that is read, definitions that parse with
    distinct ids, a creation time and a usable channel, and schedules that are valid. *)
Record evaluable (fs : TextFs) (dir : string) (paths : list string) (state : EventRunnerState)
    (now stale : N) : Prop :=
  { ev_dir : dir ∈ fs_dirs fs;
    ev_read : read_dir fs dir = Ok paths;
    ev_complete : Forall complete (definitions fs paths);
    ev_ids : NoDup (ids_of (definitions fs paths));
    ev_decided : Forall (λ p, is_Some (ok_of (due_decision p.2 state now stale))) (definitions fs paths) }.

(** The first due definitions by id, as many as the queue takes. *)
Definition due_definitions (fs : TextFs) (paths : list string) (state : EventRunnerState) (now stale : N)
    (limit : nat) : list (string * EventDefinition) :=
  take limit (List.filter (λ p, due state now stale p.2)
                (sort_by candidate_leb (definitions fs (sort_by String.leb (List.filter is_json_path paths))))).

Lemma sorted_paths_perm fs paths :
  definitions fs (sort_by String.leb (List.filter is_json_path paths)) ≡ₚ definitions fs paths.
Proof. by rewrite (definitions_perm _ _ _ (sort_by_perm _ _)), definitions_filter. Qed.

Lemma poll_queue_spec c now s paths state :
  evaluable (sd_fs s) (sc_events_dir c) paths state now (sc_stale_immediate_max_age_seconds c) →
  es_periodic_last_run (sd_runner s) = es_periodic_last_run state →
  ∃ s', poll_queue c now s =
    (Ok (record_of <$> due_definitions (sd_fs s) paths state now (sc_stale_immediate_max_age_seconds c)
           (Nat.max (sc_queue_limit c) 1)), s').
Proof.
  intros [Hdir Hread Hc Hnd Hok] Hst. unfold poll_queue. rewrite eff_bind_unfold. unfold on_files.
  rewrite (load_event_records_spec _ _ _ Hdir Hread). cbn [fst snd]. rewrite eff_bind_unfold.
  rewrite (read_records_definitions _ _ Hc), <- definitions_filter.
  rewrite (sorted_records _ _ (sort_by String.leb (List.filter is_json_path paths)));
    [|by rewrite sort_by_perm|by rewrite definitions_filter].
  destruct (collect_due_spec c now
    (record_of <$> sort_by candidate_leb
       (definitions (sd_fs s) (sort_by String.leb (List.filter is_json_path paths)))) [] 0 state
    (mkScheduler (sd_runner s) (sd_fs s))) as (stale & s' & ->); [done|cbn; lia| |].
  { rewrite Forall_fmap, sort_by_perm, sorted_paths_perm. exact Hok. }
  exists s'. cbn [app length]. rewrite Nat.sub_0_r, list_filter_fmap. unfold due_definitions.
  by rewrite fmap_take.
Qed.

Lemma dry_run_spec config now fs paths state :
  evaluable fs (ic_events_dir config) paths state now (ic_stale_immediate_max_age_seconds config) →
  load_runner_state (ic_state_path config) fs = (Ok state, fs) →
  ∃ report, dry_run_events config now fs = (Ok report, fs) ∧
    position <$> List.filter is_execute (dn_rows report) ≡ₚ
      imap (λ i p, (Some (S i), p.1))
        (due_definitions fs paths state now (ic_stale_immediate_max_age_seconds config)
           (Nat.max (ic_queue_limit config) 1)) ∧
    dn_execute_rows report = length (List.filter is_execute (dn_rows report)).
Proof.
  intros [Hdir Hread Hc Hnd Hok] Hst. unfold dry_run_events. rewrite eff_bind_unfold, Hst.
  rewrite eff_bind_unfold, (collect_paths_spec _ _ _ Hdir Hread), eff_bind_unfold. cbn [gets].
  eexists. split; [reflexivity|]. split; [|done]. cbn [dn_rows].
  rewrite (list_filter_perm _ _ _ (sort_by_perm _ _)), List.filter_app, error_rows_no_execute.
  cbn [app]. rewrite dry_run_rows_spec, Nat.sub_0_r by lia.
  rewrite candidates_definitions; [done| |].
  - by rewrite sorted_paths_perm.
  - rewrite sort_by_perm. apply list_filter_true.
Qed.

(** ** Polls *)

(** Running the queue does not fail, and every record counts once. *)
Lemma run_queued_total c now queue s :
  ∃ counts s', run_queued c now queue s = (Ok counts, s') ∧ counts.1 + counts.2 = length queue.
Proof.
  revert s. induction queue as [|record queue IH]; intros s; [by exists (0, 0), s|].
  cbn [run_queued]. rewrite eff_bind_unfold. unfold try_files.
  destruct (execute_event c (er_definition record) now (sd_fs s)) as [[[]|error] fs].
  - rewrite eff_bind_unfold. cbn [on_runner modify]. rewrite eff_bind_unfold.
    assert (∀ s, ∃ s', finish_event record now s = (Ok tt, s')) as Hf.
    { intros s0. unfold finish_event. destruct (ev_schedule _); eexists; reflexivity. }
    destruct (Hf (mkScheduler (append_execution_record (execution (er_definition record) now "executed"
      "event_executed") (sd_runner s)) fs)) as [s1 Hs1]. cbn [sd_runner sd_fs]. rewrite Hs1, eff_bind_unfold.
    destruct (IH s1) as (counts & s' & -> & Hsum). eexists (_, _), s'. split; [reflexivity|]. cbn. lia.
  - rewrite eff_bind_unfold. cbn [on_runner modify]. rewrite eff_bind_unfold.
    destruct (IH (mkScheduler (append_execution_record (execution (er_definition record) now "failed"
      "runner_error") (sd_runner s)) fs)) as (counts & s' & Hr & Hsum). cbn [sd_runner sd_fs]. rewrite Hr.
    eexists (_, _), s'. split; [reflexivity|]. cbn. lia.
Qed.

Lemma poll_once_queue c now s report :
  (poll_once c now s).1 = Ok report →
  ∃ queue, (poll_queue c now s).1 = Ok queue ∧ pr_queued report = length queue ∧
    pr_executed report + pr_failed report = length queue.
Proof.
  unfold poll_once, poll_queue. rewrite !eff_bind_unfold.
  destruct (on_files _ s) as [[loaded|] s1]; [|done]. rewrite !eff_bind_unfold.
  destruct (collect_due c now loaded.1 [] 0 s1) as [[[queue stale]|] s2]; [|done].
  rewrite eff_bind_unfold. cbn [fst snd]. destruct (run_queued_total c now queue s2) as (counts & s3 & -> & Hsum).
  rewrite eff_bind_unfold. cbn [gets]. rewrite eff_bind_unfold.
  destruct (on_files _ s3) as [[[]|] s4]; [|done]. cbn. intros [= <-]. by exists queue.
Qed.

Lemma collect_due_bounds c now records queued stale s queue n s' :
  length queued < Nat.max (sc_queue_limit c) 1 →
  collect_due c now records queued stale s = (Ok (queue, n), s') →
  length queue ≤ Nat.max (sc_queue_limit c) 1 ∧
  length queue + n ≤ length queued + stale + length records.
Proof.
  revert queued stale s. induction records as [|record records IH]; intros queued stale s Hlen.
  { cbn. intros [= <- <- _]. lia. }
  cbn [collect_due]. rewrite eff_bind_unfold. cbn [gets]. rewrite eff_bind_unfold. cbn [of_result].
  destruct (due_decision _ _ _ _) as [[]|]; [| | |done].
  - destruct (Nat.leb_spec (Nat.max (sc_queue_limit c) 1) (length (queued ++ [record]))) as [Hfull|Hroom];
      rewrite length_app in *; cbn [length] in *.
    + intros [= <- <- _]. rewrite length_app. cbn. lia.
    + intros Hc. apply IH in Hc; rewrite length_app in *; cbn [length] in *; lia.
  - intros Hc. apply IH in Hc; cbn; lia.
  - rewrite eff_bind_unfold. cbn [on_runner modify]. rewrite eff_bind_unfold. unfold ignoring at 1.
    intros Hc. apply IH in Hc; cbn; lia.
Qed.

(** The history is cut at every append. *)
Lemma append_history record s :
  length (es_recent_executions (append_execution_record record s)) ≤ EVENT_EXECUTION_HISTORY_LIMIT.
Proof.
  unfold append_execution_record, set_executions. cbn [es_recent_executions]. rewrite length_drop. lia.
Qed.

(** What polls keep of the runner's state: the webhook tables, and a bounded history. *)
Record poll_keeps (s s' : Scheduler) : Prop :=
  { pk_schema : es_schema_version (sd_runner s') = es_schema_version (sd_runner s);
    pk_debounce : es_debounce_last_seen (sd_runner s') = es_debounce_last_seen (sd_runner s);
    pk_replay : es_signature_replay_last_seen (sd_runner s') = es_signature_replay_last_seen (sd_runner s);
    pk_history : length (es_recent_executions (sd_runner s')) ≤
                 Nat.max EVENT_EXECUTION_HISTORY_LIMIT (length (es_recent_executions (sd_runner s))) }.

#[global] Instance poll_keeps_preorder : PreOrder poll_keeps.
Proof.
  split; [intros s; split; auto with lia|]. intros s t u [? ? ? ?] [? ? ? ?]. split; try congruence. lia.
Qed.

Lemma moves_on_runner f :
  (∀ s fs, poll_keeps (mkScheduler s fs) (mkScheduler (f s) fs)) → moves poll_keeps (on_runner f).
Proof. intros Hf [s fs]. apply Hf. Qed.
Lemma moves_append record : moves poll_keeps (on_runner (append_execution_record record)).
Proof.
  apply moves_on_runner. intros s fs. split; try done. etrans; [apply append_history|cbn [sd_runner]; lia].
Qed.
Lemma moves_ignoring {A} (m : FileOp A) : moves poll_keeps (ignoring m).
Proof. intros [s fs]. split; cbn; auto with lia. Qed.
Lemma moves_on_files {A} (m : FileOp A) : moves poll_keeps (on_files m).
Proof. intros [s fs]. unfold on_files. cbn. destruct (m fs) as [r fs']. split; cbn; auto with lia. Qed.
Lemma moves_try_files {A} (m : FileOp A) : moves poll_keeps (try_files m).
Proof. intros [s fs]. unfold try_files. cbn. destruct (m fs) as [r fs']. split; cbn; auto with lia. Qed.

Lemma moves_finish record now : moves poll_keeps (finish_event record now).
Proof.
  unfold finish_event. destruct (ev_schedule _); [apply moves_ignoring..|].
  apply moves_on_runner. intros s fs. split; cbn; auto with lia.
Qed.
#[local] Hint Resolve moves_append moves_ignoring moves_on_files moves_try_files moves_finish : session.


Ltac poll_moves :=
  repeat first
    [ done
    | solve [auto with session]
    | apply moves_ret; apply _ | apply moves_gets; apply _ | apply moves_of_result; apply _
    | apply moves_bind; [apply _| |intros ?]
    | case_match ].

Lemma moves_collect_due c now records queued stale : moves poll_keeps (collect_due c now records queued stale).
Proof.
  revert queued stale. induction records as [|record records IH]; intros queued stale; cbn [collect_due];
    poll_moves.
Qed.

Lemma moves_run_queued c now queue : moves poll_keeps (run_queued c now queue).
Proof. induction queue as [|record queue IH]; cbn [run_queued]; poll_moves. Qed.

Lemma moves_poll_once c now : moves poll_keeps (poll_once c now).
Proof. unfold poll_once. poll_moves; [apply moves_collect_due|apply moves_run_queued]. Qed.

(** A poll that returns has saved its state. *)
Lemma save_runner_state_Ok path state fs fs' :
  save_runner_state path state fs = (Ok tt, fs') →
  fs_files fs' !! path = Some (encode_runner_state state +:+ newline).
Proof.
  unfold save_runner_state. rewrite eff_bind_unfold. destruct (create_parent path fs) as [[[]|] fs1]; [|done].
  unfold write_atomic, write_atomic_or.
  destruct (write_text_atomic fs1 path (encode_runner_state state +:+ newline)) as [fs2 [[]|]] eqn:Hw; [|done].
  intros [= <-]. by apply write_text_atomic_Ok in Hw.
Qed.

Lemma poll_once_saved c now s report s' :
  poll_once c now s = (Ok report, s') →
  fs_files (sd_fs s') !! sc_state_path c = Some (encode_runner_state (sd_runner s') +:+ newline).
Proof.
  unfold poll_once. intros (loaded & s1 & _ & Hrest)%eff_bind_Ok.
  apply eff_bind_Ok in Hrest as (q & s2 & _ & Hrest). apply eff_bind_Ok in Hrest as (counts & s3 & _ & Hrest).
  apply eff_bind_Ok in Hrest as (state & s4 & Hg & Hrest). injection Hg as <- <-.
  apply eff_bind_Ok in Hrest as ([] & s5 & Hs & Hrest). injection Hrest as _ <-. unfold on_files in Hs.
  destruct (save_runner_state _ _ _) as [r fs] eqn:Hsave. injection Hs as -> <-. cbn.
  by apply save_runner_state_Ok in Hsave.
Qed.

Lemma poll_once_counts c now s report s' :
  poll_once c now s = (Ok report, s') →
  pr_queued report ≤ Nat.max (sc_queue_limit c) 1 ∧
  pr_queued report + pr_stale_skipped report ≤ pr_discovered report.
Proof.
  unfold poll_once. intros (loaded & s1 & _ & Hrest)%eff_bind_Ok.
  apply eff_bind_Ok in Hrest as ([queue stale] & s2 & Hc & Hrest). apply eff_bind_Ok in Hrest as (counts & s3 & _ & Hrest).
  apply eff_bind_Ok in Hrest as (state & s4 & _ & Hrest). apply eff_bind_Ok in Hrest as ([] & s5 & _ & Hrest).
  injection Hrest as <- _. cbn. apply collect_due_bounds in Hc; cbn in *; lia.
Qed.

(** ** Occurrences *)

(** The schedule has an occurrence at the instant. *)
Definition occurrence (cron timezone : string) (at_ms : Z) : Prop :=
  next_occurrence cron timezone (at_ms - 1) = Some at_ms.

(** The next time bounds all occurrences from below. *)
Lemma next_occurrence_exact `{!EventCronLaws} cron timezone from next upto :
  next_occurrence cron timezone from = Some next →
  (next ≤ upto)%Z ↔ ∃ at_ms, (from < at_ms ≤ upto)%Z ∧ occurrence cron timezone at_ms.
Proof.
  intros Hnext. pose proof (next_occurrence_later _ _ _ _ Hnext) as Hlater. split.
  - intros Hle. exists next. split; [lia|]. eapply next_occurrence_first; [done|lia].
  - intros (at_ms & Hin & Hat). destruct (Z.le_gt_cases next at_ms) as [|Hgt]; [lia|].
    unfold occurrence in Hat. rewrite (next_occurrence_first _ _ _ (at_ms - 1) _ Hnext) in Hat by lia.
    injection Hat as ->. lia.
Qed.

(** A schedule that can be evaluated from an instant. *)
Record evaluates (cron timezone : string) (from : N) : Prop :=
  { ps_cron : schedule_parses cron = true;
    ps_timezone : timezone_parses timezone = true;
    ps_range : (Z.of_N from ≤ i64_limit)%Z;
    ps_instant : instant_exists timezone (Z.of_N from) = true;
    ps_next : is_Some (next_occurrence cron timezone (Z.of_N from)) }.

Lemma next_periodic_due_spec `{!EventCronLaws} cron timezone from :
  evaluates cron timezone from →
  ∃ next, next_occurrence cron timezone (Z.of_N from) = Some next ∧
    next_periodic_due_unix_ms cron timezone from = Ok (Z.to_N next) ∧ (0 ≤ next)%Z.
Proof.
  intros [Hc Ht Hr Hi [next Hn]]. exists next. pose proof (next_occurrence_later _ _ _ _ Hn).
  split; [done|]. split; [|lia]. unfold next_periodic_due_unix_ms. rewrite Hc, Ht. cbn.
  rewrite Z.min_l, Hi by done. cbn. rewrite Hn. cbn.
  by rewrite (proj2 (Z.ltb_ge _ _)) by lia.
Qed.

Lemma periodic_due_from `{!EventCronLaws} e cron timezone state now stale :
  ev_enabled e = true → ev_schedule e = Periodic cron timezone →
  evaluates cron timezone (counts_from e state now) →
  (due_decision e state now stale = Ok Run ∨ due_decision e state now stale = Ok NotDue) ∧
  (due_decision e state now stale = Ok Run ↔
   ∃ at_ms, (Z.of_N (counts_from e state now) < at_ms ≤ Z.of_N now)%Z ∧ occurrence cron timezone at_ms).
Proof.
  intros Hen Hsch Hev. destruct (next_periodic_due_spec _ _ _ Hev) as (next & Hn & Hdue & Hpos).
  rewrite <- (next_occurrence_exact _ _ _ _ _ Hn). unfold due_decision. rewrite Hen, Hsch, Hdue. cbn.
  destruct (N.leb_spec (Z.to_N next) now); (split; [auto|]); split; try done; lia.
Qed.

Lemma finish_event_periodic record now s cron timezone :
  ev_schedule (er_definition record) = Periodic cron timezone →
  sd_runner (finish_event record now s).2 =
  set_last_run (<[ev_id (er_definition record) := now]> (es_periodic_last_run (sd_runner s))) (sd_runner s).
Proof. intros Hs. unfold finish_event. by rewrite Hs. Qed.
End theorems.

(** ** Replays *)

Definition window_ms (skew : N) : N := saturating_mul_u64 (N.max skew 1) 1000.

(** The deliveries the guard accepts, of keys with the times they come at. *)
Fixpoint accepted (skew : N) (state : EventRunnerState) (deliveries : list (string * N)) : list (string * N) :=
  match deliveries with
  | [] => []
  | d :: deliveries =>
      match enforce_signature_replay_guard state d.1 d.2 skew with
      | Ok state => d :: accepted skew state deliveries
      | Err _ => accepted skew state deliveries
      end
  end.

(** The same key, but not within the window. *)
Definition apart (skew : N) (d d' : string * N) : Prop :=
  d.1 = d'.1 → (d.2 + window_ms skew < d'.2)%N.

Lemma window_kept skew : (window_ms skew ≤ saturating_mul_u64 (window_ms skew) 3)%N.
Proof. unfold window_ms, saturating_mul_u64, u64_max. lia. Qed.

(** What an accepted delivery leaves. *)
Lemma guard_accepts skew state key now state' :
  enforce_signature_replay_guard state key now skew = Ok state' →
  (∀ last, es_signature_replay_last_seen state !! key = Some last → (last + window_ms skew < now)%N) ∧
  es_signature_replay_last_seen state' !! key = Some now ∧
  (∀ other last, es_signature_replay_last_seen state !! other = Some last → other ≠ key →
     es_signature_replay_last_seen state' !! other = Some last ∨ (last + window_ms skew < now)%N).
Proof.
  unfold enforce_signature_replay_guard. fold (window_ms skew). pose proof (window_kept skew) as Hw.
  set (seen := retain_seen _ _ _). intros Hok. unfold saturating_sub_u64 in *.
  assert (∀ k last, es_signature_replay_last_seen state !! k = Some last →
            seen !! k = Some last ∨ (last + window_ms skew < now)%N) as Hseen.
  { intros k last Hk. destruct (decide (now - last ≤ saturating_mul_u64 (window_ms skew) 3)%N); [left|right; lia].
    apply map_lookup_filter_Some. by split. }
  destruct (seen !! key) as [old|] eqn:Hold.
  - destruct (N.leb_spec (now - old) (window_ms skew)); cbn in Hok; [done|]. injection Hok as <-. cbn.
    split_and!; [|by rewrite lookup_insert_eq|].
    + intros last Hlast. destruct (Hseen _ _ Hlast) as [Hs|]; [|done]. rewrite Hold in Hs. injection Hs as ->. lia.
    + intros other last Hlast Hne. rewrite lookup_insert_ne by done. by apply Hseen.
  - injection Hok as <-. cbn. split_and!; [|by rewrite lookup_insert_eq|].
    + intros last Hlast. destruct (Hseen _ _ Hlast) as [Hs|]; [|done]. by rewrite Hold in Hs.
    + intros other last Hlast Hne. rewrite lookup_insert_ne by done. by apply Hseen.
Qed.

Lemma accepted_apart skew state key last deliveries :
  es_signature_replay_last_seen state !! key = Some last →
  StronglySorted (λ d d', (d.2 ≤ d'.2)%N) deliveries →
  Forall (apart skew (key, last)) (accepted skew state deliveries).
Proof.
  intros Hlast Hs. revert state Hlast. induction Hs as [|[k t] deliveries Hs IH Hall]; intros state Hlast; cbn; [done|].
  destruct (enforce_signature_replay_guard state k t skew) as [state'|] eqn:Hg; [|by apply IH].
  apply guard_accepts in Hg as (Hold & Hnew & Hkeep).
  assert (∀ l, (last + window_ms skew < t)%N → Forall (λ d, (t ≤ d.2)%N) l → Forall (apart skew (key, last)) l) as Hlate.
  { intros l Hlt Hl. eapply Forall_impl; [exact Hl|]. intros d Hd _. cbn in *. lia. }
  assert (∀ st l, sublist (accepted skew st l) l) as Hsub.
  { intros st l. revert st. induction l as [|d l IHl]; intros st; cbn; [done|].
    case_match; [by apply sublist_skip|by apply sublist_cons]. }
  assert (Forall (λ d, (t ≤ d.2)%N) (accepted skew state' deliveries)) as Hall'.
  { apply Forall_forall. intros d Hd. rewrite Forall_forall in Hall. apply Hall.
    eapply elem_of_submseteq; [exact Hd|]. by apply sublist_submseteq. }
  destruct (decide (k = key)) as [->|Hne].
  - constructor; [intros _; by apply Hold|]. by apply Hlate; [apply Hold|].
  - constructor; [intros Heq; cbn in Heq; congruence|].
    destruct (Hkeep _ _ Hlast) as [Hk|Hlt]; [congruence|by apply IH|by apply Hlate].
Qed.

(** ** The claims *)

Section claims.
Context `{!EventHost, !EventCron, !EventCodec, !ChannelCodec, !EventRunner}.


(** A poll runs at most as many events as the queue takes, and each it queues is
    executed or counted as failed; no failure of an event ends the poll.  The webhook
    tables are kept, the history is bounded, and a scheduler that starts again resumes
    with the same state. *)
Theorem poll_accounts `{!EventCodecLaws} c now s report s' :
  es_schema_version (sd_runner s) = EVENT_RUNNER_STATE_SCHEMA_VERSION →
  poll_once c now s = (Ok report, s') →
  pr_executed report + pr_failed report = pr_queued report ∧
  pr_queued report ≤ Nat.max (sc_queue_limit c) 1 ∧
  pr_queued report + pr_stale_skipped report ≤ pr_discovered report ∧
  poll_keeps s s' ∧
  load_runner_state (sc_state_path c) (sd_fs s') = (Ok (sd_runner s'), sd_fs s').
Proof.
  intros Hschema Hpoll. destruct (poll_once_queue c now s report) as (queue & _ & Hq & Hsum); [by rewrite Hpoll|].
  destruct (poll_once_counts _ _ _ _ _ Hpoll). pose proof (moves_poll_once c now s) as Hkeeps.
  rewrite Hpoll in Hkeeps. cbn in Hkeeps. split_and!; [lia..|done|].
  apply poll_once_saved in Hpoll. unfold load_runner_state. rewrite eff_bind_unfold. cbn [path_exists gets].
  rewrite Hpoll. rewrite bool_decide_eq_true_2 by eauto. cbn [orb]. rewrite eff_bind_unfold. unfold read_file.
  rewrite Hpoll, eff_bind_unfold. cbn [of_result]. rewrite decode_encode_runner_state. cbn [ok_or].
  by rewrite (pk_schema _ _ Hkeeps), Hschema.
Qed.

(** After a periodic event ran, it is due again exactly when its schedule has an
    occurrence after that run: no occurrence runs it twice, and none is forgotten. *)
Theorem periodic_due_exact `{!EventCronLaws} record cron timezone ran now s stale :
  ev_enabled (er_definition record) = true → ev_schedule (er_definition record) = Periodic cron timezone →
  evaluates cron timezone ran →
  let decision := due_decision (er_definition record) (sd_runner (finish_event record ran s).2) now stale in
  (decision = Ok Run ∨ decision = Ok NotDue) ∧
  (decision = Ok Run ↔
   ∃ at_ms, (Z.of_N ran < at_ms ≤ Z.of_N now)%Z ∧ occurrence cron timezone at_ms).
Proof.
  intros Hen Hsch Hev. cbv zeta. rewrite (finish_event_periodic _ _ _ _ _ Hsch).
  set (state := set_last_run _ _).
  assert (counts_from (er_definition record) state now = ran) as Hfrom.
  { unfold counts_from, state. cbn. by rewrite lookup_insert_eq. }
  destruct (periodic_due_from (er_definition record) cron timezone state now stale) as [Hdec Hrun];
    [done..|by rewrite Hfrom|]. rewrite Hfrom in Hrun. done.
Qed.
End claims.

(** A signed webhook is taken once: of deliveries that arrive in order of time, two
    with the same key are both accepted only when the second comes after the window. *)
Theorem webhook_taken_once skew state deliveries :
  StronglySorted (λ d d', (d.2 ≤ d'.2)%N) deliveries →
  StronglySorted (apart skew) (accepted skew state deliveries).
Proof.
  intros Hs. revert state. induction Hs as [|[k t] deliveries Hs IH Hall]; intros state; cbn; [constructor|].
  destruct (enforce_signature_replay_guard state k t skew) as [state'|] eqn:Hg; [|apply IH].
  constructor; [apply IH|]. apply guard_accepts in Hg as (_ & Hnew & _). by apply accepted_apart.
Qed.

(** ** Limits of the scheduler *)

Section limits.
Context `{!EventHost, !EventCron, !EventCodec, !ChannelCodec, !EventRunner}.

(** One enabled event with a schedule that cannot be evaluated ends every poll: nothing
    of the directory runs when it comes first. *)
Lemma bad_schedule_blocks_poll c now s record records malformed fs error :
  load_event_records (sc_events_dir c) (sd_fs s) = (Ok (record :: records, malformed), fs) →
  due_decision (er_definition record) (sd_runner s) now (sc_stale_immediate_max_age_seconds c) = Err error →
  poll_once c now s = (Err error, mkScheduler (sd_runner s) fs).
Proof.
  intros Hload Herr. unfold poll_once. rewrite eff_bind_unfold. unfold on_files at 1. rewrite Hload.
  cbn [fst snd collect_due]. rewrite !eff_bind_unfold. cbn [gets]. rewrite eff_bind_unfold. cbn [of_result sd_runner].
  by rewrite Herr.
Qed.

(** A poll replaces the state file with the scheduler's own tables: what a webhook wrote
    there in the meantime is lost. *)
Lemma poll_overwrites_webhook_state c now s report s' :
  poll_once c now s = (Ok report, s') →
  ∃ saved, fs_files (sd_fs s') !! sc_state_path c = Some (encode_runner_state saved +:+ newline) ∧
    es_signature_replay_last_seen saved = es_signature_replay_last_seen (sd_runner s) ∧
    es_debounce_last_seen saved = es_debounce_last_seen (sd_runner s).
Proof.
  intros Hpoll. exists (sd_runner s'). split; [by eapply poll_once_saved|].
  pose proof (moves_poll_once c now s) as Hkeeps. rewrite Hpoll in Hkeeps. by destruct Hkeeps.
Qed.

(** The dry run does not look at the age of a file: it announces an immediate event
    without a creation time that the poll removes as stale. *)
Lemma dry_run_ignores_file_age fs path e state now stale modified :
  ev_enabled e = true → ev_schedule e = Immediate → ev_created_unix_ms e = None →
  (0 < stale)%N → modified_ms fs path = Some modified → (saturating_mul_u64 stale 1000 < now - modified)%N →
  due_decision e state now stale = Ok Run ∧
  due_decision (with_created fs path e) state now stale = Ok SkipStaleRemove.
Proof.
  intros Hen Hs Hc Hpos Hm Hold. unfold due_decision, with_created. rewrite Hc. cbn [ev_enabled ev_schedule].
  rewrite Hen, Hs. cbn [negb]. rewrite (proj2 (N.eqb_neq _ _)) by lia. cbn [ev_created_unix_ms default].
  rewrite Hm. cbn. unfold saturating_sub_u64. split.
  - by rewrite N.sub_diag, (proj2 (N.ltb_ge _ _)) by lia.
  - by rewrite (proj2 (N.ltb_lt _ _)).
Qed.
End limits.

(** The replay key of a GitHub webhook contains its timestamp, which the signature does
    not cover: the same delivery passes again with another timestamp. *)
Lemma github_timestamp_replays `{!WebhookMac} payload signature secret now skew t t' key :
  verify_webhook_signature payload (Some signature) (Some t) (Some secret) (Some GithubSha256) now skew = Ok (Some key) →
  validate_timestamp_skew t' now skew = Ok tt → String.length t ≠ String.length t' →
  ∃ key', key' ≠ key ∧
    verify_webhook_signature payload (Some signature) (Some t') (Some secret) (Some GithubSha256) now skew =
    Ok (Some key').
Proof.
  unfold verify_webhook_signature. rewrite !(bool_decide_eq_true_2 (is_Some (Some _))) by eauto. cbn [orb negb].
  destruct (nonblank (Some signature)) as [sig|]; [|done]. destruct (nonblank (Some secret)) as [sec|]; [|done].
  cbn. destruct (verify_github_sha256_signature payload sig sec) as [[]|]; [|done]. cbn.
  destruct (validate_timestamp_skew t now skew) as [[]|]; [|done]. cbn. intros [= <-] -> Hlen. cbn.
  eexists. split; [|reflexivity]. intros Heq.
  apply (f_equal (λ x, length (chars_of x))) in Heq. unfold to_ascii_lowercase in Heq.
  rewrite !chars_of_of_chars, !length_fmap, !chars_of_app, !length_app, !length_chars_of in Heq. lia.
Qed.

(** ** A concrete setting *)

Module Demo.
(** Definitions and states as bits. *)
Definition schedule_code (s : EventSchedule) : unit + (N + string * string) :=
  match s with Immediate => inl tt | At t => inr (inl t) | Periodic c z => inr (inr (c, z)) end.
Definition code_schedule (x : unit + (N + string * string)) : EventSchedule :=
  match x with inl _ => Immediate | inr (inl t) => At t | inr (inr (c, z)) => Periodic c z end.

Definition event_bits (e : EventDefinition) : string :=
  encode_bits (ev_id e, ev_channel e, ev_prompt e, schedule_code (ev_schedule e), ev_enabled e,
    ev_created_unix_ms e).
Definition bits_event (raw : string) : Result string EventDefinition :=
  match decode_bits (trim raw) with
  | Some (i, c, p, s, b, t) => Ok (mkEventDefinition i c p (code_schedule s) b t)
  | None => Err "expected value"
  end.

Definition execution_code (x : EventExecutionRecord) : N * string * string * string * string * string :=
  (xr_timestamp_unix_ms x, xr_event_id x, xr_channel x, xr_schedule x, xr_outcome x, xr_reason_code x).
Definition code_execution (x : N * string * string * string * string * string) : EventExecutionRecord :=
  let '(t, i, c, s, o, r) := x in mkExecution t i c s o r.
Definition state_bits (s : EventRunnerState) : string :=
  encode_bits (es_schema_version s, es_periodic_last_run s, es_debounce_last_seen s,
    es_signature_replay_last_seen s, execution_code <$> es_recent_executions s).
Definition bits_state (raw : string) : option EventRunnerState :=
  (λ '(v, p, d, r, l), mkRunnerState v p d r (code_execution <$> l)) <$> decode_bits (trim raw).

Lemma decode_line {A} `{Countable A} (x : A) : decode_bits (trim (encode_bits x +:+ newline)) = Some x.
Proof.
  replace (trim _) with (encode_bits x) by (symmetry; apply trim_marked_newline). apply decode_encode_bits.
Qed.

#[export] Instance bits_events : EventCodec :=
  {| decode_event := bits_event; encode_event := event_bits; decode_runner_state := bits_state;
     encode_runner_state := state_bits; schedule_value s := Str (schedule_name s) |}.

#[export] Instance bits_events_laws : EventCodecLaws.
Proof.
  split.
  - intros [i c p s b t]. cbn -[event_bits bits_event newline]. unfold bits_event, event_bits. rewrite decode_line.
    cbn. by destruct s.
  - intros [v p d r l]. cbn -[state_bits bits_state newline]. unfold bits_state, state_bits. rewrite decode_line. cbn.
    f_equal. f_equal. rewrite <- list_fmap_compose. rewrite <- (list_fmap_id l) at 2.
    apply list_fmap_ext. by intros i [].
Qed.

(** The files below a directory. *)
#[export] Instance demo_host : EventHost :=
  {| read_dir fs dir := Ok (List.filter (String.prefix (dir +:+ "/")) (elements (dom (fs_files fs))));
     modified_ms _ _ := None; read_error_text _ _ := "missing" |}.

(** Every minute. *)
#[export] Instance each_minute : EventCron :=
  {| schedule_parses c := negb (is_empty c); timezone_parses z := negb (is_empty z);
     instant_exists _ _ := true; next_occurrence _ _ from := Some ((from / 60000 + 1) * 60000)%Z |}.
#[export] Instance each_minute_laws : EventCronLaws.
Proof.
  split; cbn; intros.
  - simplify_eq. pose proof (Z.mul_succ_div_gt from 60000). lia.
  - simplify_eq. f_equal. f_equal. f_equal. symmetry. apply (Z.div_unique_pos _ _ _ (from' - from / 60000 * 60000));
      pose proof (Z.mul_div_le from 60000); lia.
Qed.

#[export] Instance quiet_runner : EventRunner := {| run_event _ _ _ := mret tt |}.

Definition demo_event (id : string) (schedule : EventSchedule) : EventDefinition :=
  mkEventDefinition id "slack/C1" "p" schedule true (Some 100000%N).
Definition demo_fs : TextFs :=
  mkTextFs {["ev/1.json" := event_bits (demo_event "b" (At 90000)) +:+ newline;
             "ev/2.json" := event_bits (demo_event "a" (Periodic "* * * * *" "UTC")) +:+ newline;
             "ev/3.txt" := "notes"]}
    {["ev"]} (λ _, false) (λ _, false) 1 130000.
Definition demo_config : EventSchedulerConfig := mkSchedulerConfig "store" "ev" "state.json" 1 60.
Definition demo_dry_run : EventsDryRunConfig := mkEventsInspectConfig "ev" "state.json" 1 60.
Definition demo_scheduler : Scheduler := mkScheduler runner_state_default demo_fs.
Definition demo_paths : list string :=
  match read_dir demo_fs "ev" with Ok l => l | Err _ => [] end.
End Demo.
Import Demo.

Lemma demo_definitions :
  definitions demo_fs demo_paths =
  [("ev/1.json", demo_event "b" (At 90000)); ("ev/2.json", demo_event "a" (Periodic "* * * * *" "UTC"))].
Proof. vm_compute. reflexivity. Qed.

Lemma demo_evaluable : evaluable demo_fs "ev" demo_paths runner_state_default 130000 60.
Proof.
  split; [cbn [fs_dirs demo_fs]; set_solver|reflexivity|rewrite demo_definitions..].
  - repeat constructor; eexists; reflexivity.
  - apply (bool_decide_unpack _). vm_compute. exact I.
  - repeat constructor; eexists; vm_compute; reflexivity.
Qed.


(** The dry run names the periodic event first, by its id. *)
Example demo_dry_run_rows :
  (λ r, (λ row, (dy_path row, dy_decision row, dy_queue_position row)) <$> dn_rows r) <$>
    ok_of (dry_run_events demo_dry_run 130000 demo_fs).1 =
  Some [("ev/2.json", "execute", Some 1); ("ev/1.json", "skip", None)].
Proof. vm_compute. reflexivity. Qed.

Definition demo_polled : EventPollReport := mkPollReport 2 1 1 0 0 0.

Lemma poll_accounts_witness :
  pr_executed demo_polled + pr_failed demo_polled = pr_queued demo_polled ∧
  pr_queued demo_polled ≤ Nat.max (sc_queue_limit demo_config) 1 ∧
  pr_queued demo_polled + pr_stale_skipped demo_polled ≤ pr_discovered demo_polled ∧
  poll_keeps demo_scheduler (poll_once demo_config 130000 demo_scheduler).2 ∧
  load_runner_state (sc_state_path demo_config) (sd_fs (poll_once demo_config 130000 demo_scheduler).2) =
  (Ok (sd_runner (poll_once demo_config 130000 demo_scheduler).2),
   sd_fs (poll_once demo_config 130000 demo_scheduler).2).
Proof.
  apply (poll_accounts demo_config 130000); [reflexivity|].
  assert ((poll_once demo_config 130000 demo_scheduler).1 = Ok demo_polled) as Hp by (vm_compute; reflexivity).
  destruct (poll_once demo_config 130000 demo_scheduler) as [r s']. cbn in Hp. by rewrite Hp.
Defined.

Definition demo_record : EventRecord := mkEventRecord "ev/2.json" (demo_event "a" (Periodic "* * * * *" "UTC")).

Lemma periodic_due_exact_witness :
  let decision := due_decision (er_definition demo_record)
    (sd_runner (finish_event demo_record 130000 demo_scheduler).2) 180000 60 in
  (decision = Ok Run ∨ decision = Ok NotDue) ∧
  (decision = Ok Run ↔ ∃ at_ms, (Z.of_N 130000 < at_ms ≤ Z.of_N 180000)%Z ∧ occurrence "* * * * *" "UTC" at_ms).
Proof.
  apply (periodic_due_exact demo_record "* * * * *" "UTC" 130000 180000 demo_scheduler 60);
    [reflexivity..|]. split; [reflexivity|reflexivity|vm_compute; discriminate|reflexivity|by eexists].
Defined.

Lemma webhook_taken_once_witness :
  StronglySorted (apart 60) (accepted 60 runner_state_default [("k", 1000%N); ("k", 5000%N); ("k", 70000%N)]).
Proof. apply webhook_taken_once. repeat constructor; cbn; lia. Defined.
