(* ===== verification/BackgroundJobs.v ===== *)
(** * Background jobs ([tau-runtime], [background_jobs_runtime.rs])

    Commands that run in the background.  Each job has a manifest file; a queue of
    ids in memory, one worker that takes them in turn, and a health snapshot kept in
    a file.  The state is [JobRuntime]: what the runtime shares between tasks, the
    files, and the session stores that jobs report to.  Clients and the worker
    interleave where the worker awaits: while it sleeps between two polls of a child
    process and while it kills one. *)

From Stdlib Require Import ZArith NArith Ascii Lia.
From stdpp Require Import base gmap strings list.
From S2P Require Import Prelude RustStr Messages SessionIntegrity SessionStorage SessionStore Json Effects AtomicIo StateDirs ChannelStore LogRotation EventScheduler.

#[local] Open Scope string_scope.
#[local] Open Scope list_scope.
#[local] Open Scope nat_scope.

Definition BACKGROUND_JOB_SCHEMA_VERSION : N := 1.
Definition BACKGROUND_JOB_STATE_SCHEMA_VERSION : N := 1.
Definition BACKGROUND_JOB_EVENT_LOG_FILE : string := "events.jsonl".
Definition BACKGROUND_JOB_STATE_FILE : string := "state.json".
Definition BACKGROUND_JOB_MANIFEST_DIR : string := "jobs".
Definition BACKGROUND_JOB_REASON_QUEUED : string := "job_queued".
Definition BACKGROUND_JOB_REASON_STARTED : string := "job_started".
Definition BACKGROUND_JOB_REASON_SUCCEEDED : string := "job_succeeded".
Definition BACKGROUND_JOB_REASON_NON_ZERO_EXIT : string := "job_non_zero_exit".
Definition BACKGROUND_JOB_REASON_SPAWN_FAILED : string := "job_spawn_failed".
Definition BACKGROUND_JOB_REASON_TIMEOUT : string := "job_timeout".
Definition BACKGROUND_JOB_REASON_CANCELLED_BEFORE_START : string := "job_cancelled_before_start".
Definition BACKGROUND_JOB_REASON_CANCELLED_DURING_RUN : string := "job_cancelled_during_run".
Definition BACKGROUND_JOB_REASON_RECOVERED_RUNNING : string := "job_recovered_after_restart".
Definition BACKGROUND_JOB_REASON_RUNTIME_ERROR : string := "job_runtime_error".
Definition BACKGROUND_JOB_REASON_TRACE_WRITE_FAILED : string := "job_trace_write_failed".
Definition BACKGROUND_JOB_RECENT_REASON_CODE_CAP : nat := 16.
Definition BACKGROUND_JOB_RECENT_DIAGNOSTICS_CAP : nat := 24.
Definition BACKGROUND_JOB_WORKER_POLL_MS : N := 100.
Definition BACKGROUND_JOB_ID_PREFIX : string := "job".

Inductive BackgroundJobStatus := Queued | Running | Succeeded | Failed | Cancelled.
#[export] Instance BackgroundJobStatus_eq_dec : EqDecision BackgroundJobStatus.
Proof. solve_decision. Defined.

Definition job_status_as_str (status : BackgroundJobStatus) : string :=
  match status with
  | Queued => "queued" | Running => "running" | Succeeded => "succeeded" | Failed => "failed"
  | Cancelled => "cancelled"
  end.
Definition is_terminal (status : BackgroundJobStatus) : bool :=
  match status with Succeeded | Failed | Cancelled => true | Queued | Running => false end.

Inductive BackgroundJobStatusFilter :=
  FilterQueued | FilterRunning | FilterSucceeded | FilterFailed | FilterCancelled | FilterTerminal.

Definition parse_status_filter (raw : string) : option BackgroundJobStatusFilter :=
  let token := to_ascii_lowercase (trim raw) in
  if String.eqb token "queued" then Some FilterQueued
  else if String.eqb token "running" then Some FilterRunning
  else if String.eqb token "succeeded" then Some FilterSucceeded
  else if String.eqb token "failed" then Some FilterFailed
  else if String.eqb token "cancelled" || String.eqb token "canceled" then Some FilterCancelled
  else if String.eqb token "terminal" then Some FilterTerminal
  else None.

Definition filter_matches (filter : BackgroundJobStatusFilter) (status : BackgroundJobStatus) : bool :=
  match filter with
  | FilterQueued => bool_decide (status = Queued)
  | FilterRunning => bool_decide (status = Running)
  | FilterSucceeded => bool_decide (status = Succeeded)
  | FilterFailed => bool_decide (status = Failed)
  | FilterCancelled => bool_decide (status = Cancelled)
  | FilterTerminal => is_terminal status
  end.

Record BackgroundJobTraceContext := mkTrace
  { bt_channel_store_root : option string; bt_channel_transport : option string;
    bt_channel_id : option string; bt_session_path : option string }.

Record BackgroundJobRecord := mkJob
  { bj_schema_version : N; bj_job_id : string; bj_command : string; bj_args : list string;
    bj_env : gmap string string; bj_cwd : option string; bj_requested_timeout_ms : N;
    bj_effective_timeout_ms : N; bj_status : BackgroundJobStatus; bj_reason_code : string;
    bj_created_unix_ms : N; bj_updated_unix_ms : N; bj_started_unix_ms : option N;
    bj_finished_unix_ms : option N; bj_exit_code : option Z; bj_error : option string;
    bj_cancellation_requested : bool; bj_stdout_path : string; bj_stderr_path : string;
    bj_trace : BackgroundJobTraceContext }.

Record BackgroundJobHealthSnapshot := mkJobHealth
  { bh_schema_version : N; bh_updated_unix_ms : N; bh_queue_depth : nat; bh_running_jobs : nat;
    bh_created_total : N; bh_started_total : N; bh_succeeded_total : N; bh_failed_total : N;
    bh_cancelled_total : N; bh_last_job_id : string; bh_last_reason_code : string;
    bh_reason_codes : list string; bh_diagnostics : list string }.
Definition job_health_default (now : N) : BackgroundJobHealthSnapshot :=
  mkJobHealth BACKGROUND_JOB_STATE_SCHEMA_VERSION now 0 0 0 0 0 0 0 "" "" [] [].

Record BackgroundJobCreateRequest := mkCreateRequest
  { cr_command : string; cr_args : list string; cr_env : gmap string string; cr_cwd : option string;
    cr_timeout_ms : option N; cr_trace : BackgroundJobTraceContext }.

Record BackgroundJobRuntimeConfig := mkJobConfig
  { jc_state_dir : string; jc_default_timeout_ms : N; jc_max_timeout_ms : N; jc_worker_poll_ms : N }.
Definition job_config_default : BackgroundJobRuntimeConfig :=
  mkJobConfig ".tau/jobs" 30000 900000 BACKGROUND_JOB_WORKER_POLL_MS.

Record BackgroundJobEventRecord := mkJobEvent
  { be_timestamp_unix_ms : N; be_job_id : string; be_event : string; be_status : string;
    be_reason_code : string; be_detail : string }.

(** [serde_json] *)
Class JobCodec :=
  { decode_job : string → option BackgroundJobRecord;
    encode_job : BackgroundJobRecord → string;
    decode_job_health : string → option BackgroundJobHealthSnapshot;
    encode_job_health : BackgroundJobHealthSnapshot → string;
    encode_job_event : BackgroundJobEventRecord → string }.

Class JobCodecLaws `{!JobCodec} : Prop :=
  { decode_encode_job r : decode_job (encode_job r +:+ newline) = Some r }.

(** The environment, the error of a command that cannot be started, and the text of
    a session error. *)
Class JobHost :=
  { job_env_var : string → option string;
    spawn_error : BackgroundJobRecord → TextFs → option string;
    session_error_text : SessionError → string }.

(** [Child::try_wait]; a process ended by a signal has no code. *)
Inductive WaitResult := Exited (code : option Z) | StillRunning | WaitFailed (error : string).

(** ** Health *)

(** The last [cap] elements. *)
Definition cap_recent {A} (cap : nat) (l : list A) : list A := drop (length l - cap) l.

Definition push_recent_reason_code (reason_codes : list string) (reason_code : string) (cap : nat)
    : list string :=
  cap_recent cap (List.filter (λ existing, negb (String.eqb existing reason_code)) reason_codes ++ [reason_code]).
Definition push_recent_line (lines : list string) (line : string) (cap : nat) : list string :=
  cap_recent cap (lines ++ [line]).

Definition apply_health_base (now : N) (job_id : option string) (reason_code : string)
    (diagnostic : option string) (h : BackgroundJobHealthSnapshot) : BackgroundJobHealthSnapshot :=
  mkJobHealth (bh_schema_version h) now (bh_queue_depth h) (bh_running_jobs h) (bh_created_total h)
    (bh_started_total h) (bh_succeeded_total h) (bh_failed_total h) (bh_cancelled_total h)
    (default (bh_last_job_id h) job_id) reason_code
    (push_recent_reason_code (bh_reason_codes h) reason_code BACKGROUND_JOB_RECENT_REASON_CODE_CAP)
    (match diagnostic with
     | Some line => push_recent_line (bh_diagnostics h) line BACKGROUND_JOB_RECENT_DIAGNOSTICS_CAP
     | None => bh_diagnostics h
     end).

(** The changes of the counters. *)
Definition count_jobs (queue_depth running : option nat) (created started succeeded failed cancelled : N)
    (h : BackgroundJobHealthSnapshot) : BackgroundJobHealthSnapshot :=
  mkJobHealth (bh_schema_version h) (bh_updated_unix_ms h) (default (bh_queue_depth h) queue_depth)
    (default (bh_running_jobs h) running) (saturating_add_u64 (bh_created_total h) created)
    (saturating_add_u64 (bh_started_total h) started) (saturating_add_u64 (bh_succeeded_total h) succeeded)
    (saturating_add_u64 (bh_failed_total h) failed) (saturating_add_u64 (bh_cancelled_total h) cancelled)
    (bh_last_job_id h) (bh_last_reason_code h) (bh_reason_codes h) (bh_diagnostics h).
Definition count_created (depth : nat) := count_jobs (Some depth) None 1 0 0 0 0.
Definition count_started (depth : nat) := count_jobs (Some depth) (Some 1) 0 1 0 0 0.
Definition count_succeeded := count_jobs None (Some 0) 0 0 1 0 0.
Definition count_failed := count_jobs None (Some 0) 0 0 0 1 0.
Definition count_cancelled := count_jobs None (Some 0) 0 0 0 0 1.

(** ** Manifests *)

(** [Path::join]: an absolute name replaces the base. *)
Definition join_any (base name : string) : string :=
  match chars_of name with
  | c :: _ => if Ascii.eqb c slash then name else path_join base name
  | [] => path_join base name
  end.

Definition background_job_state_path (state_dir : string) : string :=
  path_join state_dir BACKGROUND_JOB_STATE_FILE.
Definition background_job_events_path (state_dir : string) : string :=
  path_join state_dir BACKGROUND_JOB_EVENT_LOG_FILE.
Definition background_job_manifests_dir (state_dir : string) : string :=
  path_join state_dir BACKGROUND_JOB_MANIFEST_DIR.
Definition background_job_manifest_path (state_dir job_id : string) : string :=
  join_any (background_job_manifests_dir state_dir) (job_id +:+ ".json").

Section manifests.
Context `{!JobCodec, !EventHost}.

Definition ensure_background_job_layout (state_dir : string) : FileOp unit :=
  _ ← create_dir_all state_dir;
  _ ← create_dir_all (background_job_manifests_dir state_dir);
  init_file (background_job_events_path state_dir).

Definition persist_background_job_record (state_dir : string) (record : BackgroundJobRecord) : FileOp unit :=
  write_atomic (background_job_manifest_path state_dir (bj_job_id record)) (encode_job record +:+ newline).

Definition read_job (path : string) : FileOp BackgroundJobRecord :=
  raw ← read_file path ("failed to read " +:+ path);
  of_result (ok_or ("failed to parse " +:+ path) (decode_job raw)).

Definition load_background_job_record (state_dir job_id : string) : FileOp (option BackgroundJobRecord) :=
  let path := background_job_manifest_path state_dir job_id in
  there ← path_exists path;
  if (there : bool) then record ← read_job path; mret (Some record) else mret None.

Definition is_json_file (fs : TextFs) (path : string) : bool :=
  bool_decide (is_Some (fs_files fs !! path))
  && match path_extension path with Some e => eq_ignore_ascii_case e "json" | None => false end.

Definition collect_background_job_manifest_paths (state_dir : string) : FileOp (list string) :=
  let dir := background_job_manifests_dir state_dir in
  there ← path_exists dir;
  if (there : bool) then
    paths ← list_dir dir;
    fs ← gets (λ fs, fs);
    mret (sort_by String.leb (List.filter (is_json_file fs) paths))
  else mret [].

Fixpoint read_jobs (paths : list string) : FileOp (list BackgroundJobRecord) :=
  match paths with
  | [] => mret []
  | path :: paths => record ← read_job path; records ← read_jobs paths; mret (record :: records)
  end.

Definition load_background_job_records (state_dir : string) : FileOp (list BackgroundJobRecord) :=
  paths ← collect_background_job_manifest_paths state_dir;
  read_jobs paths.

Definition load_background_job_health_snapshot (path : string) : FileOp BackgroundJobHealthSnapshot :=
  now ← gets fs_now_ms;
  there ← path_exists path;
  if (there : bool) then
    raw ← read_file path ("failed to read " +:+ path);
    if is_empty (trim raw) then mret (job_health_default now)
    else of_result (ok_or ("failed to parse " +:+ path) (decode_job_health raw))
  else mret (job_health_default now).

Definition persist_background_job_health_snapshot (state_dir : string) (h : BackgroundJobHealthSnapshot)
    : FileOp unit :=
  write_atomic (background_job_state_path state_dir) (encode_job_health h +:+ newline).
End manifests.

(** ** Records through their life *)

Definition job_update (status : BackgroundJobStatus) (reason_code : string) (updated : N)
    (started finished : option N) (exit_code : option Z) (error : option string) (cancellation : bool)
    (r : BackgroundJobRecord) : BackgroundJobRecord :=
  mkJob (bj_schema_version r) (bj_job_id r) (bj_command r) (bj_args r) (bj_env r) (bj_cwd r)
    (bj_requested_timeout_ms r) (bj_effective_timeout_ms r) status reason_code (bj_created_unix_ms r) updated
    started finished exit_code error cancellation (bj_stdout_path r) (bj_stderr_path r) (bj_trace r).

Definition job_finished (status : BackgroundJobStatus) (reason_code : string) (now : N) (exit_code : option Z)
    (error : option string) (r : BackgroundJobRecord) : BackgroundJobRecord :=
  job_update status reason_code now (bj_started_unix_ms r) (Some now) exit_code error
    (bj_cancellation_requested r) r.
Definition job_started (now : N) (r : BackgroundJobRecord) : BackgroundJobRecord :=
  job_update Running BACKGROUND_JOB_REASON_STARTED now (Some now) None None None
    (bj_cancellation_requested r) r.
Definition job_recovered (now : N) (r : BackgroundJobRecord) : BackgroundJobRecord :=
  job_update Queued BACKGROUND_JOB_REASON_RECOVERED_RUNNING now None None None None
    (bj_cancellation_requested r) r.
Definition job_cancel_requested (now : N) (r : BackgroundJobRecord) : BackgroundJobRecord :=
  job_update (bj_status r) (bj_reason_code r) now (bj_started_unix_ms r) (bj_finished_unix_ms r)
    (bj_exit_code r) (bj_error r) true r.

(** A number in at least four digits *)
Definition show_4 (n : N) : string :=
  let digits := show_u64 n in
  of_chars (replicate (4 - String.length digits) "0"%char) +:+ digits.
Definition show_i32 (z : Z) : string :=
  if (z <? 0)%Z then "-" +:+ show_u64 (Z.to_N (- z)) else show_u64 (Z.to_N z).

Definition new_job (config : BackgroundJobRuntimeConfig) (request : BackgroundJobCreateRequest) (command job_id : string)
    (now : N) : BackgroundJobRecord :=
  let default_timeout_ms := N.max (jc_default_timeout_ms config) 1 in
  let max_timeout_ms := N.max (jc_max_timeout_ms config) default_timeout_ms in
  let requested_timeout_ms := default default_timeout_ms (cr_timeout_ms request) in
  let job_dir := background_job_manifests_dir (jc_state_dir config) in
  mkJob BACKGROUND_JOB_SCHEMA_VERSION job_id command (cr_args request) (cr_env request) (cr_cwd request)
    requested_timeout_ms (N.max 1 (N.min requested_timeout_ms max_timeout_ms)) Queued
    BACKGROUND_JOB_REASON_QUEUED now now None None None None false
    (path_join job_dir (job_id +:+ ".stdout.log")) (path_join job_dir (job_id +:+ ".stderr.log"))
    (cr_trace request).

Definition job_payload (r : BackgroundJobRecord) (event reason_code detail : string) : Value :=
  json_obj [("job_id", Str (bj_job_id r)); ("event", Str event); ("status", Str (job_status_as_str (bj_status r)));
    ("reason_code", Str reason_code); ("detail", Str detail); ("command", Str (bj_command r));
    ("args", Arr (Str <$> bj_args r));
    ("exit_code", match bj_exit_code r with
                  | Some z => Num (if (z <? 0)%Z then NegInt z else PosInt (Z.to_N z))
                  | None => Null
                  end);
    ("stdout_path", Str (bj_stdout_path r)); ("stderr_path", Str (bj_stderr_path r))].

(** ** The runtime *)

Section runtime.
Context {V T : Type} `{!SessionCodec V, !RowTable T}.
Context `{!JobCodec, !EventHost, !JobHost, !ChannelCodec}.

(** [BackgroundJobRuntimeInner], the files, the session stores and the counter of ids. *)
Record JobRuntime := mkJobRuntime
  { jr_config : BackgroundJobRuntimeConfig;
    jr_queue : list string;
    jr_cancellation_requests : gset string;
    jr_health : BackgroundJobHealthSnapshot;
    jr_worker_running : bool;
    jr_fs : TextFs;
    jr_world : World T;
    jr_id_counter : N }.
Local Abbreviation JobOp := (Eff JobRuntime string).

Definition set_job_queue (q : list string) (rt : JobRuntime) : JobRuntime :=
  mkJobRuntime (jr_config rt) q (jr_cancellation_requests rt) (jr_health rt) (jr_worker_running rt) (jr_fs rt)
    (jr_world rt) (jr_id_counter rt).
Definition set_cancellations (c : gset string) (rt : JobRuntime) : JobRuntime :=
  mkJobRuntime (jr_config rt) (jr_queue rt) c (jr_health rt) (jr_worker_running rt) (jr_fs rt) (jr_world rt)
    (jr_id_counter rt).
Definition set_job_health (h : BackgroundJobHealthSnapshot) (rt : JobRuntime) : JobRuntime :=
  mkJobRuntime (jr_config rt) (jr_queue rt) (jr_cancellation_requests rt) h (jr_worker_running rt) (jr_fs rt)
    (jr_world rt) (jr_id_counter rt).
Definition set_worker_running (b : bool) (rt : JobRuntime) : JobRuntime :=
  mkJobRuntime (jr_config rt) (jr_queue rt) (jr_cancellation_requests rt) (jr_health rt) b (jr_fs rt)
    (jr_world rt) (jr_id_counter rt).
Definition set_job_fs (fs : TextFs) (rt : JobRuntime) : JobRuntime :=
  mkJobRuntime (jr_config rt) (jr_queue rt) (jr_cancellation_requests rt) (jr_health rt) (jr_worker_running rt)
    fs (jr_world rt) (jr_id_counter rt).
Definition set_job_world (w : World T) (rt : JobRuntime) : JobRuntime :=
  mkJobRuntime (jr_config rt) (jr_queue rt) (jr_cancellation_requests rt) (jr_health rt) (jr_worker_running rt)
    (jr_fs rt) w (jr_id_counter rt).
Definition set_id_counter (n : N) (rt : JobRuntime) : JobRuntime :=
  mkJobRuntime (jr_config rt) (jr_queue rt) (jr_cancellation_requests rt) (jr_health rt) (jr_worker_running rt)
    (jr_fs rt) (jr_world rt) n.

Definition with_files {A} (m : FileOp A) : JobOp A := λ rt,
  let '(r, fs) := m (jr_fs rt) in (r, set_job_fs fs rt).
Definition try_with_files {A} (m : FileOp A) : JobOp (Result string A) := λ rt,
  let '(r, fs) := m (jr_fs rt) in (Ok r, set_job_fs fs rt).
Definition state_dir : JobOp string := gets (λ rt, jc_state_dir (jr_config rt)).
Definition job_now : JobOp N := gets (λ rt, fs_now_ms (jr_fs rt)).
(** [let _ = m] *)
Definition job_ignoring {A} (m : JobOp A) : JobOp unit := λ rt, (Ok tt, (m rt).2).

Definition persist_job (record : BackgroundJobRecord) : JobOp unit :=
  dir ← state_dir; with_files (persist_background_job_record dir record).

Definition update_health_mutation (job_id : option string) (reason_code : string) (diagnostic : option string)
    (mutate : BackgroundJobHealthSnapshot → BackgroundJobHealthSnapshot) : JobOp unit :=
  now ← job_now;
  _ ← modify (λ rt, set_job_health (mutate (apply_health_base now job_id reason_code diagnostic (jr_health rt))) rt);
  health ← gets jr_health;
  dir ← state_dir;
  with_files (persist_background_job_health_snapshot dir health).

Definition append_event (record : BackgroundJobRecord) (event reason_code detail : string) : JobOp unit :=
  now ← job_now;
  dir ← state_dir;
  with_files (append_line_with_rotation (background_job_events_path dir)
    (encode_job_event (mkJobEvent now (bj_job_id record) event (job_status_as_str (bj_status record)) reason_code
       detail)) (rotation_from_env job_env_var)).

(** The traces of a change of state in a channel and in a session; what fails is
    described. *)
Definition trace_channel (record : BackgroundJobRecord) (payload : Value) : JobOp (list string) :=
  match bt_channel_store_root (bj_trace record), bt_channel_transport (bj_trace record),
        bt_channel_id (bj_trace record) with
  | Some root, Some transport, Some channel_id =>
      let place := "root=" +:+ root +:+ " transport=" +:+ transport +:+ " channel=" +:+ channel_id +:+ " error=" in
      now ← job_now;
      opened ← try_with_files (channel_store_open root transport channel_id);
      match opened with
      | Err error => mret ["channel_store_open_failed: " +:+ place +:+ error]
      | Ok store =>
          appended ← try_with_files (append_log_entry store (mkLogEntry now "runtime"
            (Some ("background-job:" +:+ bj_job_id record)) "background_job_runtime" payload));
          match appended with
          | Err error => mret ["channel_store_trace_failed: " +:+ place +:+ error]
          | Ok _ => mret []
          end
      end
  | _, _, _ => mret []
  end.

Definition trace_session (record : BackgroundJobRecord) (reason_code : string) : JobOp (list string) := λ rt,
  match bt_session_path (bj_trace record) with
  | None => (Ok [], rt)
  | Some path =>
      let failure what (error : SessionError) := what +:+ ": path=" +:+ path +:+ " error=" +:+ session_error_text error in
      match load (Value:=V) (jr_world rt) path with
      | (w, Err error) => (Ok [failure "session_trace_open_failed" error], set_job_world w rt)
      | (w, Ok store) =>
          let line := "background job " +:+ bj_job_id record +:+ " " +:+ job_status_as_str (bj_status record) +:+
                      " (" +:+ reason_code +:+ ")" in
          match append_messages w store None [assistant_text line] with
          | (w, _, Err error) => (Ok [failure "session_trace_append_failed" error], set_job_world w rt)
          | (w, _, Ok _) => (Ok [], set_job_world w rt)
          end
      end
  end.

Definition emit_traces (record : BackgroundJobRecord) (event reason_code detail : string) : JobOp unit :=
  let payload := job_payload record event reason_code detail in
  channel_errors ← trace_channel record payload;
  session_errors ← trace_session record reason_code;
  match channel_errors ++ session_errors with
  | [] => mret tt
  | errors => append_event record "trace_error" BACKGROUND_JOB_REASON_TRACE_WRITE_FAILED (join " | " errors)
  end.

(** After a saved change of state: counted, logged and traced. *)
Definition announce (record : BackgroundJobRecord) (event reason_code diagnostic : string)
    (mutate : BackgroundJobHealthSnapshot → BackgroundJobHealthSnapshot) (detail : string) : JobOp unit :=
  _ ← update_health_mutation (Some (bj_job_id record)) reason_code (Some diagnostic) mutate;
  _ ← append_event record event reason_code detail;
  job_ignoring (emit_traces record event reason_code detail).

(** [schedule_worker]: the flag that a worker is alive. *)
Definition schedule_worker : JobOp unit := modify (set_worker_running true).

Definition next_background_job_id : JobOp string :=
  now ← job_now;
  suffix ← gets jr_id_counter;
  _ ← modify (set_id_counter (wrap_u64 (suffix + 1)));
  mret (BACKGROUND_JOB_ID_PREFIX +:+ "-" +:+ show_u64 now +:+ "-" +:+ show_4 suffix).

Definition create_job (request : BackgroundJobCreateRequest) : JobOp BackgroundJobRecord :=
  let command := trim (cr_command request) in
  _ ← fail_if (is_empty command) "background job command must be non-empty";
  now ← job_now;
  job_id ← next_background_job_id;
  config ← gets jr_config;
  let record := new_job config request command job_id now in
  _ ← persist_job record;
  _ ← modify (λ rt, set_job_queue (jr_queue rt ++ [job_id]) rt);
  queue_depth ← gets (λ rt, length (jr_queue rt));
  _ ← announce record "created" BACKGROUND_JOB_REASON_QUEUED
        ("background_job_created: id=" +:+ job_id +:+ " queue_depth=" +:+ show_usize queue_depth)
        (count_created queue_depth) "background job queued";
  _ ← schedule_worker;
  mret record.

Definition job_listed_before (left right : BackgroundJobRecord) : bool :=
  if (bj_created_unix_ms left =? bj_created_unix_ms right)%N then String.leb (bj_job_id left) (bj_job_id right)
  else (bj_created_unix_ms right <? bj_created_unix_ms left)%N.

Definition list_jobs (limit : nat) (status_filter : option BackgroundJobStatusFilter)
    : JobOp (list BackgroundJobRecord) :=
  dir ← state_dir;
  jobs ← with_files (load_background_job_records dir);
  let jobs := sort_by job_listed_before jobs in
  let jobs := match status_filter with
              | Some filter => List.filter (λ job, filter_matches filter (bj_status job)) jobs
              | None => jobs
              end in
  mret (take (Nat.max limit 1) jobs).

Definition get_job (job_id : string) : JobOp (option BackgroundJobRecord) :=
  dir ← state_dir; with_files (load_background_job_record dir job_id).

(** What [cancel_job] does with the record it has read. *)
Definition cancel_queued (job_id : string) (record : BackgroundJobRecord) : JobOp BackgroundJobRecord :=
  _ ← persist_job record;
  _ ← modify (λ rt, set_job_queue (List.filter (λ entry, negb (String.eqb entry job_id)) (jr_queue rt)) rt);
  queue_depth ← gets (λ rt, length (jr_queue rt));
  _ ← announce record "cancelled" BACKGROUND_JOB_REASON_CANCELLED_BEFORE_START
        ("background_job_cancelled_before_start: id=" +:+ bj_job_id record +:+ " queue_depth=" +:+
         show_usize queue_depth)
        (count_jobs (Some queue_depth) None 0 0 0 0 1) "background job cancelled before start";
  mret record.

Definition cancel_running (job_id : string) (record : BackgroundJobRecord) : JobOp BackgroundJobRecord :=
  _ ← modify (λ rt, set_cancellations ({[job_id]} ∪ jr_cancellation_requests rt) rt);
  _ ← persist_job record;
  _ ← append_event record "cancel_requested" BACKGROUND_JOB_REASON_CANCELLED_DURING_RUN
        "background job cancellation requested";
  _ ← update_health_mutation (Some (bj_job_id record)) BACKGROUND_JOB_REASON_CANCELLED_DURING_RUN
        (Some ("background_job_cancel_requested: id=" +:+ bj_job_id record +:+ " status=" +:+
               job_status_as_str (bj_status record))) id;
  mret record.

Definition cancel_loaded (job_id : string) (record : BackgroundJobRecord) : JobOp BackgroundJobRecord :=
  if is_terminal (bj_status record) then mret record
  else
    now ← job_now;
    let record := job_cancel_requested now record in
    if bool_decide (bj_status record = Queued) then
      cancel_queued job_id
        (job_finished Cancelled BACKGROUND_JOB_REASON_CANCELLED_BEFORE_START now None None record)
    else cancel_running job_id record.

Definition cancel_job (job_id : string) : JobOp (option BackgroundJobRecord) :=
  loaded ← get_job job_id;
  match loaded with
  | None => mret None
  | Some record => record ← cancel_loaded job_id record; mret (Some record)
  end.

(** ** Recovery *)

(** The ids to queue and the diagnostics. *)
Fixpoint recover_records (now : N) (records : list BackgroundJobRecord) : JobOp (list string * list string) :=
  match records with
  | [] => mret ([], [])
  | record :: records =>
      match bj_status record with
      | Queued =>
          rest ← recover_records now records;
          mret (bj_job_id record :: rest.1, rest.2)
      | Running =>
          let record := job_recovered now record in
          dir ← state_dir;
          _ ← persist_job record;
          _ ← append_event record "recovered" BACKGROUND_JOB_REASON_RECOVERED_RUNNING
                "requeued running job during runtime recovery";
          rest ← recover_records now records;
          mret (bj_job_id record :: rest.1,
                ("background_job_recovered_running_job: id=" +:+ bj_job_id record +:+ " path=" +:+
                 background_job_manifest_path dir (bj_job_id record)) :: rest.2)
      | _ => recover_records now records
      end
  end.

Definition push_diagnostics (lines : list string) (h : BackgroundJobHealthSnapshot) : BackgroundJobHealthSnapshot :=
  mkJobHealth (bh_schema_version h) (bh_updated_unix_ms h) (bh_queue_depth h) (bh_running_jobs h)
    (bh_created_total h) (bh_started_total h) (bh_succeeded_total h) (bh_failed_total h) (bh_cancelled_total h)
    (bh_last_job_id h) (bh_last_reason_code h) (bh_reason_codes h)
    (foldl (λ ls line, push_recent_line ls line BACKGROUND_JOB_RECENT_DIAGNOSTICS_CAP) (bh_diagnostics h) lines).

Definition save_health : JobOp unit :=
  dir ← state_dir;
  health ← gets jr_health;
  with_files (persist_background_job_health_snapshot dir health).

Definition recover_queue_from_disk : JobOp unit :=
  now ← job_now;
  dir ← state_dir;
  records ← with_files (load_background_job_records dir);
  found ← recover_records now records;
  match found.1 with
  | [] =>
      _ ← modify (λ rt, set_job_health (count_jobs (Some 0) (Some 0) 0 0 0 0 0 (jr_health rt)) rt);
      save_health
  | queue_seed =>
      let queue_depth := length queue_seed in
      _ ← modify (set_job_queue queue_seed);
      _ ← modify (λ rt, set_job_health
            (count_jobs (Some queue_depth) (Some 0) 0 0 0 0 0
               (apply_health_base now None BACKGROUND_JOB_REASON_RECOVERED_RUNNING
                  (Some ("background_job_runtime_recovered_queue: queue_depth=" +:+ show_usize queue_depth))
                  (push_diagnostics found.2 (jr_health rt)))) rt);
      _ ← save_health;
      schedule_worker
  end.

(** A new runtime over the files that are there. *)
Definition background_job_runtime_new : JobOp unit :=
  dir ← state_dir;
  _ ← with_files (ensure_background_job_layout dir);
  health ← with_files (load_background_job_health_snapshot (background_job_state_path dir));
  _ ← modify (λ rt, mkJobRuntime (jr_config rt) [] ∅ health false (jr_fs rt) (jr_world rt) (jr_id_counter rt));
  recover_queue_from_disk.

(** ** The worker *)

Inductive Client :=
| ClientCreate (request : BackgroundJobCreateRequest)
| ClientCancel (job_id : string).

Definition run_client (client : Client) : JobOp unit :=
  match client with
  | ClientCreate request => job_ignoring (create_job request)
  | ClientCancel job_id => job_ignoring (cancel_job job_id)
  end.

(** One round of the loop over a child process: the time, how long the job has run,
    what clients did since the last round and do while the child is killed, and
    what [try_wait] answers. *)
Record Poll := mkPoll
  { pl_now : N; pl_elapsed_ms : N; pl_meanwhile : list Client; pl_killing : list Client;
    pl_wait : WaitResult }.

Definition set_job_now (now : N) (rt : JobRuntime) : JobRuntime := set_job_fs (set_fs_now now (jr_fs rt)) rt.

Definition finish_job (status : BackgroundJobStatus) (reason_code : string) (exit_code : option Z)
    (error : option string) (diagnostic : string)
    (mutate : BackgroundJobHealthSnapshot → BackgroundJobHealthSnapshot) (event detail : string)
    (record : BackgroundJobRecord) : JobOp unit :=
  now ← job_now;
  let record := job_finished status reason_code now exit_code error record in
  _ ← persist_job record;
  announce record event reason_code diagnostic mutate detail.

Definition finish_timeout (r : BackgroundJobRecord) : JobOp unit :=
  finish_job Failed BACKGROUND_JOB_REASON_TIMEOUT None
    (Some ("job exceeded timeout of " +:+ show_u64 (bj_effective_timeout_ms r) +:+ "ms"))
    ("background_job_timeout: id=" +:+ bj_job_id r +:+ " timeout_ms=" +:+ show_u64 (bj_effective_timeout_ms r))
    count_failed "failed" "background job timed out" r.
Definition finish_cancelled (r : BackgroundJobRecord) : JobOp unit :=
  finish_job Cancelled BACKGROUND_JOB_REASON_CANCELLED_DURING_RUN None None
    ("background_job_cancelled_during_run: id=" +:+ bj_job_id r) count_cancelled "cancelled"
    "background job cancelled during execution" r.
Definition finish_exited (code : option Z) (r : BackgroundJobRecord) : JobOp unit :=
  let shown := show_i32 (default (-1)%Z code) in
  if bool_decide (code = Some 0%Z) then
    finish_job Succeeded BACKGROUND_JOB_REASON_SUCCEEDED code None
      ("background_job_succeeded: id=" +:+ bj_job_id r) count_succeeded "succeeded" "background job succeeded" r
  else
    finish_job Failed BACKGROUND_JOB_REASON_NON_ZERO_EXIT code
      (Some ("background job exited with status " +:+ shown))
      ("background_job_non_zero_exit: id=" +:+ bj_job_id r +:+ " exit_code=" +:+ shown) count_failed "failed"
      "background job exited non-zero" r.
Definition finish_error (reason_code what detail error : string) (r : BackgroundJobRecord) : JobOp unit :=
  finish_job Failed reason_code None (Some error)
    (what +:+ ": id=" +:+ bj_job_id r +:+ " error=" +:+ error) count_failed "failed" detail r.

Definition take_cancellation (job_id : string) : JobOp bool :=
  requested ← gets (λ rt, bool_decide (job_id ∈ jr_cancellation_requests rt));
  _ ← modify (λ rt, set_cancellations (jr_cancellation_requests rt ∖ {[job_id]}) rt);
  mret requested.

(** The rounds of a run; whether one of them ended it. *)
Fixpoint poll_child (record : BackgroundJobRecord) (polls : list Poll) : JobOp bool :=
  match polls with
  | [] => mret false
  | poll :: polls =>
      _ ← modify (set_job_now (pl_now poll));
      _ ← each run_client (pl_meanwhile poll);
      if (N.max (bj_effective_timeout_ms record) 1 <=? pl_elapsed_ms poll)%N then
        _ ← each run_client (pl_killing poll);
        _ ← finish_timeout record;
        mret true
      else
        cancel_requested ← take_cancellation (bj_job_id record);
        if cancel_requested || bj_cancellation_requested record then
          _ ← each run_client (pl_killing poll);
          _ ← finish_cancelled record;
          mret true
        else
          match pl_wait poll with
          | Exited code => _ ← finish_exited code record; mret true
          | StillRunning => poll_child record polls
          | WaitFailed error =>
              _ ← finish_error BACKGROUND_JOB_REASON_RUNTIME_ERROR "background_job_runtime_error"
                    "background job runtime poll failed" error record;
              mret true
          end
  end.

Definition start_job (record : BackgroundJobRecord) : JobOp BackgroundJobRecord :=
  started ← job_now;
  let record := job_started started record in
  _ ← persist_job record;
  queue_depth ← gets (λ rt, length (jr_queue rt));
  _ ← announce record "started" BACKGROUND_JOB_REASON_STARTED
        ("background_job_started: id=" +:+ bj_job_id record +:+ " queue_depth=" +:+ show_usize queue_depth)
        (count_started queue_depth) "background job started execution";
  mret record.

Definition run_command (record : BackgroundJobRecord) (polls : list Poll) : JobOp bool :=
  _ ← with_files (write_file (bj_stdout_path record) "" ("failed to open " +:+ bj_stdout_path record));
  _ ← with_files (write_file (bj_stderr_path record) "" ("failed to open " +:+ bj_stderr_path record));
  spawned ← gets (λ rt, spawn_error record (jr_fs rt));
  match spawned with
  | Some error =>
      _ ← finish_error BACKGROUND_JOB_REASON_SPAWN_FAILED "background_job_spawn_failed"
            "background job failed to spawn" error record;
      mret true
  | None => poll_child record polls
  end.

(** Cancelled while it was queued, without the client seeing the queue entry. *)
Definition drop_cancelled (record : BackgroundJobRecord) : JobOp unit :=
  now ← job_now;
  let record := job_finished Cancelled BACKGROUND_JOB_REASON_CANCELLED_BEFORE_START now (bj_exit_code record)
                  (bj_error record) record in
  _ ← persist_job record;
  announce record "cancelled" BACKGROUND_JOB_REASON_CANCELLED_BEFORE_START
    ("background_job_cancelled_before_start: id=" +:+ bj_job_id record)
    (count_jobs None None 0 0 0 0 1) "background job cancelled before worker start".

Definition execute_job (job_id : string) (polls : list Poll) : JobOp bool :=
  loaded ← get_job job_id;
  match loaded with
  | None => mret true
  | Some record =>
      if negb (bool_decide (bj_status record = Queued)) then mret true
      else if bj_cancellation_requested record then _ ← drop_cancelled record; mret true
      else record ← start_job record; run_command record polls
  end.

(** One turn of [worker_loop], a job or the end of the worker; whether the job's run
    came to an end. *)
Definition worker_turn (polls : list Poll) : JobOp bool := λ rt,
  match jr_queue rt with
  | [] => (Ok true, set_worker_running false rt)
  | job_id :: queue =>
      match execute_job job_id polls (set_job_queue queue rt) with
      | (Ok ended, rt) => (Ok ended, rt)
      | (Err error, rt) =>
          (_ ← job_ignoring (update_health_mutation (Some job_id) BACKGROUND_JOB_REASON_RUNTIME_ERROR
             (Some ("background_job_runtime_error: id=" +:+ job_id +:+ " error=" +:+ error))
             (count_jobs None None 0 0 0 1 0));
           mret true : JobOp bool) rt
      end
  end.
End runtime.
Arguments JobRuntime : clear implicits.

(** ** The worker's wake-ups

    [schedule_worker] and [worker_loop] at the grain of their atomic operations: tasks
    that pushed a job and are about to schedule a worker, and workers. *)

Inductive Task :=
| Scheduling     (** about to exchange the flag *)
| Popping        (** about to take a job from the queue *)
| Executing      (** runs a job *)
| Stopping       (** found the queue empty, about to clear the flag *)
| Rechecking.    (** cleared the flag, about to look at the queue *)

(** The queue, the flag and the tasks that are under way. *)
Record Pool := mkPool { po_queue : list string; po_worker_running : bool; po_tasks : list Task }.

(** The next operation of a task: what it leaves, and how the task goes on. *)
Definition task_step (task : Task) (queue : list string) (running : bool)
    : list string * bool * option Task :=
  match task with
  | Scheduling => if running then (queue, running, None) else (queue, true, Some Popping)
  | Popping => match queue with [] => (queue, running, Some Stopping) | _ :: queue => (queue, running, Some Executing) end
  | Executing => (queue, running, Some Popping)
  | Stopping => (queue, false, Some Rechecking)
  | Rechecking => match queue with [] => (queue, running, None) | _ => (queue, running, Some Scheduling) end
  end.

Inductive pool_step : Pool → Pool → Prop :=
| pool_push job_id p :
    pool_step p (mkPool (po_queue p ++ [job_id]) (po_worker_running p) (Scheduling :: po_tasks p))
| pool_remove job_id p :
    pool_step p (mkPool (List.filter (λ entry, negb (String.eqb entry job_id)) (po_queue p)) (po_worker_running p)
                   (po_tasks p))
| pool_task queue running before task after queue' running' next :
    task_step task queue running = (queue', running', next) →
    pool_step (mkPool queue running (before ++ task :: after))
      (mkPool queue' running' (before ++ option_list next ++ after)).
