(* ===== verification/BackgroundJobTheorems.v ===== *)
(** * Properties of background jobs

    No wake-up is lost; finished jobs stay as they are; runs end; a restart forgets
    no job. *)

From Stdlib Require Import ZArith NArith Ascii Lia.
From stdpp Require Import base pretty gmap strings list relations.
From S2P Require Import Prelude RustStr BitCodec Messages SessionIntegrity SessionStorage SessionStore SessionInstances Json Effects AtomicIo StateDirs ChannelStore ChannelStoreTheorems LogRotation EventScheduler BackgroundJobs.

#[local] Open Scope string_scope.
#[local] Open Scope list_scope.
#[local] Open Scope nat_scope.

(** ** The worker *)

(** The task holds the flag. *)
Definition active (t : Task) : bool :=
  match t with Popping | Executing | Stopping => true | _ => false end.
(** The task is going to see to the queue. *)
Definition pending (t : Task) : bool :=
  match t with Scheduling | Rechecking => true | _ => false end.

Definition actives (l : list Task) : nat := length (List.filter active l).
Arguments actives : simpl never.

Record pool_ok (p : Pool) : Prop :=
  { pool_one : actives (po_tasks p) = if po_worker_running p then 1 else 0;
    pool_served : po_queue p ≠ [] → po_worker_running p = true ∨ Exists (λ t, pending t = true) (po_tasks p) }.

Lemma actives_app l k : actives (l ++ k) = actives l + actives k.
Proof. unfold actives. by rewrite List.filter_app, length_app. Qed.
Lemma actives_cons t l : actives (t :: l) = (if active t then 1 else 0) + actives l.
Proof. unfold actives. cbn. by destruct (active t). Qed.

Lemma pool_step_ok p p' : pool_ok p → pool_step p p' → pool_ok p'.
Proof.
  intros [Hone Hserved] Hstep. destruct Hstep as [job_id p|job_id p|queue running before task after queue' running' next Ht];
    cbn in *.
  - split; cbn; [by rewrite actives_cons|]. intros _. right. by left.
  - split; cbn; [done|]. intros Hne. apply Hserved. by intros Heq; rewrite Heq in Hne.
  - rewrite actives_app, actives_cons in Hone. rewrite Exists_app, Exists_cons in Hserved.
    split; cbn; [rewrite !actives_app|rewrite !Exists_app]; destruct task; cbn in Ht;
      destruct queue as [|x queue], running; injection Ht as <- <- <-; cbn in *; rewrite ?actives_cons; cbn;
      rewrite ?Exists_cons, ?Exists_nil; cbn;
      change (actives []) with 0; first [lia|naive_solver].
Qed.

Definition pool_start : Pool := mkPool [] false [].

Lemma pool_reachable_ok p : rtc pool_step pool_start p → pool_ok p.
Proof.
  assert (∀ p0, rtc pool_step p0 p → pool_ok p0 → pool_ok p) as Hr.
  { intros p0. induction 1; eauto using pool_step_ok. }
  intros Hp. apply (Hr _ Hp). split; [done|]. by intros [].
Qed.


(** ** Where manifests are *)

Definition plain (job_id : string) : Prop := slash ∉ chars_of job_id.

(** The directory with its separator. *)
Definition base_chars (dir : string) : list ascii :=
  match last (chars_of dir) with
  | None => []
  | Some c => if Ascii.eqb c slash then chars_of dir else chars_of dir ++ [slash]
  end.

Lemma path_join_chars dir name : chars_of (path_join dir name) = base_chars dir ++ chars_of name.
Proof.
  unfold path_join, base_chars. destruct (last (chars_of dir)) as [c|] eqn:Hl; [|done].
  destruct (Ascii.eqb c slash); rewrite !chars_of_app; [done|]. by rewrite <- app_assoc.
Qed.

Section paths.
Context (dir : string).
Local Abbreviation manifest := (background_job_manifest_path dir).

Lemma manifest_chars job_id :
  plain job_id →
  chars_of (manifest job_id) = base_chars dir ++ chars_of "jobs/" ++ chars_of job_id ++ chars_of ".json".
Proof.
  intros Hp. unfold background_job_manifest_path, join_any. rewrite chars_of_app.
  assert (chars_of (path_join (background_job_manifests_dir dir) (job_id +:+ ".json")) =
    base_chars dir ++ chars_of "jobs/" ++ chars_of job_id ++ chars_of ".json") as Hj.
  { rewrite path_join_chars. unfold base_chars at 1, background_job_manifests_dir. rewrite path_join_chars.
    rewrite last_app. cbn [last chars_of BACKGROUND_JOB_MANIFEST_DIR]. cbn. rewrite chars_of_app.
    by rewrite <- !app_assoc. }
  destruct (chars_of job_id) as [|c l] eqn:Hc; [exact Hj|]. cbn [app].
  destruct (Ascii.eqb_spec c slash) as [->|]; [|exact Hj].
  exfalso. apply Hp. rewrite Hc. by left.
Qed.

Lemma manifest_inj a b : plain a → plain b → manifest a = manifest b → a = b.
Proof.
  intros Ha Hb Heq%(f_equal chars_of). rewrite !manifest_chars in Heq by done.
  apply app_inv_head, app_inv_head, app_inv_tail in Heq. by apply chars_of_inj.
Qed.

(** A path that is not the manifest of a job. *)
Definition off (path : string) : Prop := ∀ job_id, plain job_id → path ≠ manifest job_id.

Lemma off_last path c : last (chars_of path) = Some c → c ≠ "n"%char → off path.
Proof.
  intros Hl Hc job_id Hp ->. rewrite manifest_chars, !last_app in Hl by done. cbn in Hl. congruence.
Qed.
Lemma off_base path c l : chars_of path = base_chars dir ++ c :: l → c ≠ "j"%char → off path.
Proof.
  intros Hl Hc job_id Hp ->. rewrite manifest_chars in Hl by done. apply app_inv_head in Hl. cbn in Hl. congruence.
Qed.

Lemma last_digit path prefix n : chars_of path = prefix ++ chars_of (show_u64 n) → off path.
Proof.
  intros Hp. pose proof (show_u64_digits n) as Hd. destruct (last (chars_of (show_u64 n))) as [c|] eqn:Hl.
  - apply (off_last _ c); [by rewrite Hp, last_app, Hl|]. intros ->.
    rewrite Forall_forall in Hd. apply last_Some_elem_of in Hl. by apply Hd in Hl.
  - apply last_None in Hl. exfalso. revert Hl. unfold show_u64, pretty, pretty_N.
    destruct (decide (n = 0%N)) as [->|Hn]; [done|]. rewrite pretty_N_go_step by lia.
    assert (∀ x s, length (chars_of s) ≤ length (chars_of (pretty_N_go x s))) as Hgo.
    { intros x. induction (N.lt_wf_0 x) as [x _ IH]; intros s.
      assert (x = 0 ∨ 0 < x)%N as [->|Hx] by lia; [by rewrite pretty_N_go_0|].
      rewrite pretty_N_go_step by done. etrans; [|apply IH; by apply N.div_lt]. cbn. lia. }
    intros Heq. specialize (Hgo (n `div` 10)%N (String (pretty_N_char (n `mod` 10)) "")).
    rewrite Heq in Hgo. cbn in Hgo. lia.
Qed.

Lemma off_temp fs path : off (atomic_temp_path fs path).
Proof.
  unfold atomic_temp_path, with_file_name. eapply last_digit. rewrite chars_of_of_chars, !chars_of_app.
  rewrite !app_assoc. reflexivity.
Qed.
Lemma off_rotated path index : off (rotated_backup_path path index).
Proof.
  unfold rotated_backup_path, show_usize. eapply (last_digit _ _ (N.of_nat index)).
  rewrite !chars_of_app, app_assoc. reflexivity.
Qed.
Lemma off_state : off (background_job_state_path dir).
Proof. apply (off_base _ "s"%char (chars_of "tate.json")); [apply path_join_chars|done]. Qed.
Lemma off_events : off (background_job_events_path dir).
Proof. apply (off_base _ "e"%char (chars_of "vents.jsonl")); [apply path_join_chars|done]. Qed.

(** ** What leaves the manifests alone *)

Definition keeps (fs fs' : TextFs) : Prop :=
  ∀ job_id, plain job_id → fs_files fs' !! manifest job_id = fs_files fs !! manifest job_id.
#[local] Instance keeps_preorder : PreOrder keeps.
Proof. split; [by intros fs job_id|]. intros fs1 fs2 fs3 H1 H2 job_id Hp. by rewrite H2, H1. Qed.

Local Abbreviation quiet := (moves (E:=string) keeps).

Lemma insert_keeps path text fs : off path → keeps fs (set_text_files (<[path := text]> (fs_files fs)) fs).
Proof. intros Ho job_id Hp. cbn. rewrite lookup_insert_ne; [done|]. by apply Ho. Qed.
Lemma create_dir_all_quiet path : quiet (create_dir_all path).
Proof. intros fs. unfold create_dir_all. case_match; by intros job_id. Qed.
Lemma path_exists_quiet path : quiet (path_exists path).
Proof. by intros fs. Qed.
Lemma read_file_quiet path e : quiet (read_file path e).
Proof. intros fs. unfold read_file. by case_match. Qed.
Lemma write_file_quiet path c e : off path → quiet (write_file path c e).
Proof. intros Ho fs. unfold write_file. case_match; [done|]. by apply insert_keeps. Qed.
Lemma append_file_quiet path c : off path → quiet (append_file path c).
Proof. intros Ho fs. unfold append_file. case_match; [done|]. by apply insert_keeps. Qed.
Lemma remove_file_quiet path e : off path → quiet (remove_file path e).
Proof.
  intros Ho fs. unfold remove_file. case_match; [done|]. intros job_id Hp. cbn.
  rewrite lookup_delete_ne; [done|]. by apply Ho.
Qed.
Lemma rename_file_quiet source destination e :
  off source → off destination → quiet (rename_file source destination e).
Proof.
  intros Hs Hd fs. unfold rename_file. case_match; [done|]. case_match; [|done]. intros job_id Hp. cbn.
  rewrite lookup_insert_ne, lookup_delete_ne; [done|by apply Hs|by apply Hd].
Qed.
Lemma write_atomic_quiet path c : off path → quiet (write_atomic path c).
Proof.
  intros Ho fs job_id Hp. unfold write_atomic, write_atomic_or.
  pose proof (write_text_atomic_others fs path c (manifest job_id)) as Hw.
  destruct (write_text_atomic fs path c) as [fs' [[]|err]]; cbn in *; apply Hw;
    intros Heq; symmetry in Heq; revert Heq; [by apply Ho|by apply off_temp|by apply Ho|by apply off_temp].
Qed.
#[local] Hint Resolve create_dir_all_quiet path_exists_quiet read_file_quiet write_file_quiet append_file_quiet
  remove_file_quiet rename_file_quiet write_atomic_quiet off_state off_events off_rotated : jobs.

Ltac quietly := repeat first
  [ solve [eauto with jobs]
  | apply moves_bind; [apply _| |intros ?]
  | apply moves_when; [apply _|]
  | apply moves_ret; apply _ | apply moves_gets; apply _ | apply moves_of_result; apply _
  | apply moves_fail_if; apply _
  | case_match ].

Lemma rotate_step_quiet path index : off path → quiet (rotate_step path index).
Proof. intros Ho. unfold rotate_step. quietly. Qed.
Lemma rotate_loop_quiet path index : off path → quiet (rotate_loop path index).
Proof. intros Ho. induction index; cbn [rotate_loop]; quietly; by apply rotate_step_quiet. Qed.
#[local] Hint Resolve rotate_step_quiet rotate_loop_quiet : jobs.

Lemma append_line_quiet path line policy : off path → quiet (append_line_with_rotation path line policy).
Proof. intros Ho. unfold append_line_with_rotation, create_parent, rotate_log_file. quietly. Qed.

(** The channel of a trace is elsewhere. *)
Definition channel_apart (root transport channel_id : string) : Prop :=
  ∀ job_id, plain job_id →
    ¬ below (channel_dir (mkChannelStore root (trim transport) (trim channel_id))) (manifest job_id).

Lemma confined_keeps {A} root transport channel_id (m : FileOp A) :
  channel_apart root transport channel_id →
  moves (confined (mkChannelStore root (trim transport) (trim channel_id))) m → quiet m.
Proof. intros Ha Hm fs job_id Hp. apply (Hm fs). by apply Ha. Qed.

Lemma channel_open_quiet `{!ChannelCodec} root transport channel_id :
  channel_apart root transport channel_id → quiet (channel_store_open root transport channel_id).
Proof.
  intros Ha. eapply confined_keeps; [exact Ha|]. unfold channel_store_open, ensure_layout, init_file. confine.
Qed.
Lemma channel_open_is `{!ChannelCodec} root transport channel_id fs store fs' :
  channel_store_open root transport channel_id fs = (Ok store, fs') →
  store = mkChannelStore root (trim transport) (trim channel_id).
Proof.
  unfold channel_store_open. intros (a & fs1 & _ & Hr)%eff_bind_Ok.
  apply eff_bind_Ok in Hr as (b & fs2 & _ & Hr). by injection Hr as <- _.
Qed.
Lemma channel_log_quiet `{!ChannelCodec} root transport channel_id entry :
  channel_apart root transport channel_id →
  quiet (append_log_entry (mkChannelStore root (trim transport) (trim channel_id)) entry).
Proof.
  intros Ha. eapply confined_keeps; [exact Ha|]. unfold append_log_entry, append_jsonl_line. confine.
Qed.
End paths.

(** ** The invariant *)

(** The id of the [n]-th job of a process. *)
Definition job_id_of (now n : N) : string :=
  BACKGROUND_JOB_ID_PREFIX +:+ "-" +:+ show_u64 now +:+ "-" +:+ show_4 n.

Lemma job_id_plain now n : plain (job_id_of now n).
Proof.
  unfold plain, job_id_of, show_4. rewrite !chars_of_app, chars_of_of_chars, !elem_of_app.
  intros [Hx|[Hx|[Hx|[Hx|[Hx|Hx]]]]]; [| |by apply show_u64_no_slash in Hx| | |by apply show_u64_no_slash in Hx];
    revert Hx; [apply (bool_decide_unpack _); done..|].
  intros Hx%elem_of_replicate_inv. done.
Qed.

(** The number that digits stand for. *)
Definition digits_value (acc : N) (l : list ascii) : N :=
  foldl (λ acc c, acc * 10 + (N_of_ascii c - 48))%N acc l.

Lemma digits_value_show n : digits_value 0 (chars_of (show_u64 n)) = n.
Proof.
  assert (∀ x s, digits_value 0 (chars_of (pretty_N_go x s)) = digits_value x (chars_of s)) as Hgo.
  { intros x. induction (N.lt_wf_0 x) as [x _ IH]; intros s.
    assert (x = 0 ∨ 0 < x)%N as [->|Hx] by lia; [by rewrite pretty_N_go_0|].
    rewrite pretty_N_go_step, IH by (done || by apply N.div_lt). cbn. f_equal.
    assert (N_of_ascii (pretty_N_char (x `mod` 10)) = x `mod` 10 + 48)%N as ->.
    { pose proof (N.mod_lt x 10). generalize dependent (x `mod` 10)%N. intros d Hd.
      assert (d = 0 ∨ d = 1 ∨ d = 2 ∨ d = 3 ∨ d = 4 ∨ d = 5 ∨ d = 6 ∨ d = 7 ∨ d = 8 ∨ d = 9)%N as Hc by lia.
      by destruct_or! Hc; subst. }
    rewrite N.add_sub. pose proof (N.div_mod x 10). lia. }
  unfold show_u64, pretty, pretty_N. case_decide as Hn; [by subst|]. by rewrite Hgo.
Qed.

Lemma show_4_inj n m : show_4 n = show_4 m → n = m.
Proof.
  assert (∀ k, digits_value 0 (chars_of (show_4 k)) = k) as Hv.
  { intros k. unfold show_4. rewrite chars_of_app, chars_of_of_chars. unfold digits_value.
    rewrite foldl_app. set (z := foldl _ 0%N (replicate _ _)). assert (z = 0%N) as ->; [|apply digits_value_show].
    unfold z. clear z. generalize (4 - String.length (show_u64 k)). intros w. by induction w. }
  intros Heq. by rewrite <- (Hv n), <- (Hv m), Heq.
Qed.

Lemma app_sep_inj {A} (x : A) a a' b b' : x ∉ a → x ∉ a' → a ++ x :: b = a' ++ x :: b' → a = a' ∧ b = b'.
Proof.
  revert a'. induction a as [|y a IH]; intros [|z a'] Ha Ha' Heq; cbn in *; simplify_eq; [done|set_solver..|].
  destruct (IH a') as [-> ->]; [set_solver..|done|done].
Qed.

Lemma job_id_of_inj now now' n m : job_id_of now n = job_id_of now' m → n = m.
Proof.
  unfold job_id_of. intros Heq%(f_equal chars_of). rewrite !chars_of_app in Heq. cbn in Heq.
  injection Heq as Heq. apply (app_sep_inj "-"%char) in Heq as [_ Heq%chars_of_inj]; [by apply show_4_inj|..].
  all: intros Hin; match goal with Hin : _ ∈ chars_of (show_u64 ?k) |- _ =>
    pose proof (show_u64_digits k) as Hd; rewrite Forall_forall in Hd; by apply Hd in Hin end.
Qed.

Section jobs.
Context {V T : Type} `{!SessionCodec V, !RowTable T}.
Context `{!JobCodec, !EventHost, !JobHost, !ChannelCodec, !JobCodecLaws}.
Context (dir : string).
Local Abbreviation manifest := (background_job_manifest_path dir).
Implicit Types (rt : JobRuntime T) (r : BackgroundJobRecord).

(** The record of a job on disk. *)
Definition manifest_of rt (job_id : string) : option BackgroundJobRecord :=
  fs_files (jr_fs rt) !! manifest job_id ≫= decode_job.

(** A record whose outputs and traces go elsewhere. *)
Record sound r : Prop :=
  { sound_id : plain (bj_job_id r);
    sound_stdout : off dir (bj_stdout_path r);
    sound_stderr : off dir (bj_stderr_path r);
    sound_trace : ∀ root transport channel_id,
      bt_channel_store_root (bj_trace r) = Some root → bt_channel_transport (bj_trace r) = Some transport →
      bt_channel_id (bj_trace r) = Some channel_id → channel_apart dir root transport channel_id }.

(** With room for [budget] more jobs. *)
Record jobs_ok (budget : N) rt : Prop :=
  { ok_dir : jc_state_dir (jr_config rt) = dir;
    ok_named job_id r : plain job_id → manifest_of rt job_id = Some r → bj_job_id r = job_id ∧ sound r;
    ok_queue : Forall plain (jr_queue rt);
    ok_fresh now n : (jr_id_counter rt ≤ n)%N → fs_files (jr_fs rt) !! manifest (job_id_of now n) = None;
    ok_room : (jr_id_counter rt + budget ≤ u64_max)%N }.

(** *** Steps that do not change a manifest *)

Definition calm rt rt' : Prop :=
  jc_state_dir (jr_config rt) = dir →
  jr_config rt' = jr_config rt ∧ jr_id_counter rt' = jr_id_counter rt ∧ keeps dir (jr_fs rt) (jr_fs rt') ∧
  (Forall plain (jr_queue rt) → Forall plain (jr_queue rt')).

#[export] Instance calm_preorder : PreOrder calm.
Proof.
  split.
  - intros rt _. split_and!; done.
  - intros r1 r2 r3 H12 H23 Hd. destruct (H12 Hd) as (Hc1 & Hn1 & Hf1 & Hq1).
    destruct H23 as (Hc2 & Hn2 & Hf2 & Hq2); [by rewrite Hc1|].
    split_and!; [congruence|congruence| |auto]. intros j Hj. by rewrite Hf2, Hf1.
Qed.

Lemma calm_ok budget rt rt' : calm rt rt' → jobs_ok budget rt → jobs_ok budget rt'.
Proof.
  intros Hcalm [Hd Hn Hq Hf Hr]. destruct (Hcalm Hd) as (Hc & Hcount & Hk & Hqueue). split.
  - by rewrite Hc.
  - intros j r Hp. unfold manifest_of. rewrite Hk by done. by apply Hn.
  - auto.
  - intros now n Hle. rewrite Hk by apply job_id_plain. apply Hf. congruence.
  - congruence.
Qed.

(** [state_dir] is the directory. *)
Lemma calm_state_dir {A} (f : string → Eff (JobRuntime T) string A) :
  moves calm (f dir) → moves calm (state_dir ≫= f).
Proof.
  intros Hf rt Hd. rewrite eff_bind_unfold. cbn [state_dir gets]. rewrite Hd. by apply (Hf rt).
Qed.
Lemma calm_files {A} (m : FileOp A) : moves (keeps dir) m → moves calm (with_files m).
Proof.
  intros Hm rt Hd. unfold with_files. specialize (Hm (jr_fs rt)). by destruct (m (jr_fs rt)).
Qed.
Lemma calm_try_files {A} (m : FileOp A) : moves (keeps dir) m → moves calm (try_with_files m).
Proof.
  intros Hm rt Hd. unfold try_with_files. specialize (Hm (jr_fs rt)). by destruct (m (jr_fs rt)).
Qed.
Lemma calm_ignoring {A} (m : Eff (JobRuntime T) string A) : moves calm m → moves calm (job_ignoring m).
Proof. intros Hm rt. apply Hm. Qed.
Lemma calm_modify (f : JobRuntime T → JobRuntime T) : (∀ rt, calm rt (f rt)) → moves (E:=string) calm (modify f).
Proof. intros Hf rt. apply Hf. Qed.

Ltac calmly := repeat first
  [ done
  | solve [eauto with jobs]
  | apply calm_state_dir
  | apply (moves_bind calm); [|intros ?]
  | apply calm_files | apply calm_try_files | apply calm_ignoring
  | apply calm_modify; intros ?; intros _; split_and!; done
  | apply moves_bind; [apply _| |intros ?]
  | apply moves_ret; apply _ | apply moves_gets; apply _ | apply moves_of_result; apply _
  | apply moves_fail_if; apply _
  | case_match ].

Lemma update_health_calm job_id reason diagnostic mutate :
  moves calm (update_health_mutation (T:=T) job_id reason diagnostic mutate).
Proof.
  unfold update_health_mutation, job_now. calmly. apply write_atomic_quiet, off_state.
Qed.
Lemma append_event_calm r event reason detail : moves calm (append_event (T:=T) r event reason detail).
Proof. unfold append_event, job_now. calmly. apply append_line_quiet, off_events. Qed.
#[local] Hint Resolve update_health_calm append_event_calm : jobs.

Lemma trace_channel_calm r payload : sound r → moves calm (trace_channel (T:=T) r payload).
Proof.
  intros Hs. unfold trace_channel, job_now.
  destruct (bt_channel_store_root (bj_trace r)) as [root|] eqn:Hroot; [|calmly].
  destruct (bt_channel_transport (bj_trace r)) as [transport|] eqn:Htrans; [|calmly].
  destruct (bt_channel_id (bj_trace r)) as [channel_id|] eqn:Hchan; [|calmly].
  pose proof (sound_trace _ Hs _ _ _ Hroot Htrans Hchan) as Ha.
  apply (moves_bind calm); [calmly|intros now]. intros rt. rewrite eff_bind_unfold.
  pose proof (calm_try_files _ (channel_open_quiet _ root transport channel_id Ha) rt) as Hopen.
  unfold try_with_files in *. pose proof (channel_open_is root transport channel_id (jr_fs rt)) as His.
  destruct (channel_store_open root transport channel_id (jr_fs rt)) as [[store|e] fs]; [|exact Hopen].
  etrans; [exact Hopen|]. rewrite (His store fs eq_refl).
  clear Hopen His. generalize (set_job_fs fs rt). intros rt'. cbn [snd].
  refine (moves_bind calm _ _ _ _ rt'); [by apply calm_try_files, channel_log_quiet|intros [?|?]; calmly].
Qed.

Lemma trace_session_calm r reason : moves calm (trace_session (V:=V) r reason).
Proof.
  intros rt Hd. unfold trace_session. destruct (bt_session_path (bj_trace r)) as [path|]; [|by split_and!].
  destruct (load (jr_world rt) path) as [w [store|e]]; [|by split_and!].
  destruct (append_messages w store None _) as [[w' store'] [?|e]]; by split_and!.
Qed.
#[local] Hint Resolve trace_channel_calm trace_session_calm : jobs.

Lemma announce_calm r event reason diagnostic mutate detail :
  sound r → moves calm (announce (V:=V) r event reason diagnostic mutate detail).
Proof. intros Hs. unfold announce, emit_traces. calmly. destruct (_ ++ _); calmly. Qed.
#[local] Hint Resolve announce_calm : jobs.

(** *** Saving a record *)

(** Saving changes the manifest of its job to the record, or nothing. *)
Lemma persist_spec r rt :
  plain (bj_job_id r) → jc_state_dir (jr_config rt) = dir →
  ∃ result fs', persist_job r rt = (result, set_job_fs fs' rt) ∧
    (∀ job_id, plain job_id → job_id ≠ bj_job_id r → fs_files fs' !! manifest job_id = fs_files (jr_fs rt) !! manifest job_id) ∧
    (fs_files fs' !! manifest (bj_job_id r) =
     match result with
     | Ok _ => Some (encode_job r +:+ newline)
     | Err _ => fs_files (jr_fs rt) !! manifest (bj_job_id r)
     end).
Proof.
  intros Hp Hd. unfold persist_job. rewrite eff_bind_unfold. cbn [state_dir gets]. rewrite Hd.
  unfold with_files, persist_background_job_record, write_atomic, write_atomic_or.
  pose proof (write_text_atomic_others (jr_fs rt) (manifest (bj_job_id r)) (encode_job r +:+ newline)) as Hothers.
  destruct (write_text_atomic (jr_fs rt) (manifest (bj_job_id r)) (encode_job r +:+ newline)) as [fs' [[]|e]] eqn:Hw;
    cbn [fst] in Hothers; eexists _, fs'; (split; [reflexivity|]); (split; [|first
      [by eapply write_text_atomic_Ok | by eapply write_text_atomic_Err]]).
  all: intros job_id Hj Hne; apply Hothers;
    [intros Heq; by apply manifest_inj in Heq|intros Heq; symmetry in Heq; revert Heq; by apply off_temp].
Qed.

Lemma manifest_of_saved rt job_id r :
  fs_files (jr_fs rt) !! manifest job_id = Some (encode_job r +:+ newline) → manifest_of rt job_id = Some r.
Proof. intros Hf. unfold manifest_of. rewrite Hf. cbn. apply decode_encode_job. Qed.

(** The invariant after saving a record of a job that is not a future one. *)
Lemma persist_ok budget r rt :
  jobs_ok budget rt → sound r → (∀ now n, (jr_id_counter rt ≤ n)%N → bj_job_id r ≠ job_id_of now n) →
  jobs_ok budget (persist_job r rt).2.
Proof.
  intros [Hd Hn Hq Hf Hroom] Hs Hnew. destruct (persist_spec r rt (sound_id _ Hs) Hd) as (result & fs' & -> & Hothers & Hself).
  split; cbn; try done.
  - intros j r' Hp. unfold manifest_of. cbn. destruct (decide (j = bj_job_id r)) as [->|Hne].
    + rewrite Hself. destruct result as [[]|e]; [|by apply Hn]. cbn. rewrite decode_encode_job. by intros [= <-].
    + rewrite Hothers by done. by apply Hn.
  - intros now n Hle. rewrite Hothers; [by apply Hf|apply job_id_plain|]. intros Heq. by eapply Hnew.
Qed.

(** *** Clients *)

(** Finished jobs stay as they are, running ones run. *)
Record clients_keep rt rt' : Prop :=
  { ck_finished job_id r : plain job_id → manifest_of rt job_id = Some r → is_terminal (bj_status r) = true →
      fs_files (jr_fs rt') !! manifest job_id = fs_files (jr_fs rt) !! manifest job_id;
    ck_running job_id r : plain job_id → manifest_of rt job_id = Some r → bj_status r = Running →
      ∃ r', manifest_of rt' job_id = Some r' ∧ bj_status r' = Running }.

#[local] Instance clients_keep_preorder : PreOrder clients_keep.
Proof.
  split; [intros rt; split; eauto|]. intros r1 r2 r3 [F12 R12] [F23 R23]. split.
  - intros j r Hp Hm Ht. rewrite <- (F12 j r) by done. apply (F23 j r); [done| |done].
    unfold manifest_of. by rewrite (F12 j r).
  - intros j r Hp Hm Hr. destruct (R12 j r) as (r' & Hm' & Hr'); [done..|]. by apply (R23 j r').
Qed.

Definition good (budget : N) rt rt' : Prop := jobs_ok budget rt' ∧ clients_keep rt rt'.

Lemma calm_good budget rt rt' : jobs_ok budget rt → calm rt rt' → good budget rt rt'.
Proof.
  intros Hok Hcalm. split; [by eapply calm_ok|]. destruct (Hcalm (ok_dir _ _ Hok)) as (_ & _ & Hk & _). split.
  - intros j r Hp _ _. by apply Hk.
  - intros j r Hp Hm Hr. exists r. unfold manifest_of. by rewrite Hk.
Qed.

(** A record may replace the one on disk. *)
Definition replaces rt r : Prop :=
  ∀ old, manifest_of rt (bj_job_id r) = Some old →
    is_terminal (bj_status old) = false ∧ (bj_status old = Running → bj_status r = Running).
Definition not_future rt r : Prop :=
  ∀ now n, (jr_id_counter rt ≤ n)%N → bj_job_id r ≠ job_id_of now n.

Lemma persist_then_good {A} budget r (k : unit → Eff (JobRuntime T) string A) rt :
  jobs_ok budget rt → sound r → not_future rt r → replaces rt r → (∀ a, moves calm (k a)) →
  good budget rt ((persist_job r ≫= k) rt).2.
Proof.
  intros Hok Hs Hnew Hrep Hk. rewrite eff_bind_unfold. pose proof (persist_ok _ _ _ Hok Hs Hnew) as Hok'.
  assert (clients_keep rt (persist_job r rt).2) as Hkeep.
  { destruct (persist_spec r rt (sound_id _ Hs) (ok_dir _ _ Hok)) as (result & fs' & -> & Hothers & Hself). split; cbn.
    - intros j old Hp Hm Ht. destruct (decide (j = bj_job_id r)) as [->|Hne]; [|by apply Hothers].
      apply Hrep in Hm as [Hm _]. congruence.
    - intros j old Hp Hm Hr. unfold manifest_of. cbn. destruct (decide (j = bj_job_id r)) as [->|Hne].
      + destruct (Hrep _ Hm) as [_ Hrun]. rewrite Hself. destruct result as [[]|e]; [|by exists old]. cbn.
        rewrite decode_encode_job. eauto.
      + rewrite Hothers by done. by exists old. }
  destruct (persist_job r rt) as [[a|e] rt1]; cbn in *; [|done].
  destruct (calm_good budget rt1 (k a rt1).2 Hok' (Hk a rt1)) as [Hok2 Hkeep2]. split; [done|by etrans].
Qed.

Lemma get_job_spec job_id rt :
  jc_state_dir (jr_config rt) = dir →
  ∃ result, get_job job_id rt = (result, rt) ∧ ∀ r, result = Ok (Some r) → manifest_of rt job_id = Some r.
Proof.
  intros Hd. unfold get_job. rewrite eff_bind_unfold. cbn [state_dir gets]. rewrite Hd.
  unfold with_files, load_background_job_record. rewrite eff_bind_unfold. cbn [path_exists gets].
  assert (set_job_fs (jr_fs rt) rt = rt) as Heta by (by destruct rt).
  destruct (_ || _); [|cbn; rewrite Heta; eexists; split; [reflexivity|done]].
  unfold read_job, manifest_of. rewrite !eff_bind_unfold. unfold read_file.
  destruct (fs_files (jr_fs rt) !! manifest job_id) as [raw|].
  - cbn. destruct (decode_job raw) as [r|]; cbn; rewrite Heta; eexists; (split; [reflexivity|]); naive_solver.
  - cbn. rewrite Heta. eexists. split; [reflexivity|]. done.
Qed.

(** Changes of a record keep its id, outputs and traces. *)
Lemma sound_update status reason updated started finished exit_code error cancellation r :
  sound r → sound (job_update status reason updated started finished exit_code error cancellation r).
Proof. by intros []. Qed.
#[local] Hint Resolve sound_update : jobs.

(** A job on disk is not a future one. *)
Lemma not_future_on_disk budget rt r old :
  jobs_ok budget rt → manifest_of rt (bj_job_id r) = Some old → not_future rt r.
Proof.
  intros Hok Hm now n Hle Heq. unfold manifest_of in Hm. by rewrite Heq, (ok_fresh _ _ Hok now n Hle) in Hm.
Qed.

Lemma queue_filter_calm job_id :
  moves (E:=string) calm (modify (λ rt, set_job_queue (List.filter (λ entry, negb (String.eqb entry job_id)) (jr_queue rt)) rt)).
Proof.
  apply calm_modify. intros rt _. split_and!; [done..|]. cbn. intros Hq. apply Forall_forall. intros x Hx.
  apply list_elem_of_In, List.filter_In in Hx as [Hx%list_elem_of_In _]. by eapply Forall_forall in Hq.
Qed.
#[local] Hint Resolve queue_filter_calm : jobs.

Lemma cancel_loaded_good budget job_id r rt :
  jobs_ok budget rt → plain job_id → manifest_of rt job_id = Some r →
  good budget rt (cancel_loaded (V:=V) job_id r rt).2.
Proof.
  intros Hok Hp Hm. destruct (ok_named _ _ Hok _ _ Hp Hm) as [Hid Hs]. unfold cancel_loaded.
  destruct (is_terminal (bj_status r)) eqn:Ht; [by apply calm_good|].
  rewrite eff_bind_unfold. cbn [job_now gets]. set (now := fs_now_ms (jr_fs rt)).
  assert (∀ r', bj_job_id r' = bj_job_id r → not_future rt r') as Hfuture.
  { intros r' Hr'. apply (not_future_on_disk budget rt r' r Hok). by rewrite Hr', Hid. }
  destruct (bool_decide_reflect (bj_status (job_cancel_requested now r) = Queued)) as [Hq|Hq].
  - assert (sound (job_finished Cancelled BACKGROUND_JOB_REASON_CANCELLED_BEFORE_START now None None
      (job_cancel_requested now r))) as Hs' by (by apply sound_update, sound_update).
    unfold cancel_queued. apply persist_then_good; [done|done|by apply Hfuture| |intros _; calmly].
    intros old Ho. cbn in Ho. rewrite Hid, Hm in Ho. injection Ho as <-. split; [done|]. cbn in Hq. congruence.
  - unfold cancel_running. rewrite eff_bind_unfold. cbn [modify].
    set (rt1 := set_cancellations _ rt).
    destruct (calm_good budget rt rt1 Hok) as [Hok1 Hk1]; [intros _; by split_and!|].
    destruct (persist_then_good budget (job_cancel_requested now r) (λ _,
      _ ← append_event (job_cancel_requested now r) "cancel_requested" BACKGROUND_JOB_REASON_CANCELLED_DURING_RUN
        "background job cancellation requested";
      _ ← update_health_mutation (Some (bj_job_id (job_cancel_requested now r))) BACKGROUND_JOB_REASON_CANCELLED_DURING_RUN
        (Some ("background_job_cancel_requested: id=" +:+ bj_job_id (job_cancel_requested now r) +:+ " status=" +:+
               job_status_as_str (bj_status (job_cancel_requested now r)))) id;
      mret (job_cancel_requested now r)) rt1) as [Hok2 Hk2]; [done|by apply sound_update|by apply Hfuture| |intros _; calmly|].
    + intros old Ho. cbn in Ho. change (manifest_of rt (bj_job_id r) = Some old) in Ho. rewrite Hid, Hm in Ho.
      injection Ho as <-. by split.
    + split; [done|by etrans].
Qed.

Lemma cancel_good budget job_id rt :
  jobs_ok budget rt → plain job_id → good budget rt (cancel_job (V:=V) job_id rt).2.
Proof.
  intros Hok Hp. unfold cancel_job. rewrite eff_bind_unfold.
  destruct (get_job_spec job_id rt (ok_dir _ _ Hok)) as (result & -> & Hres).
  destruct result as [[r|]|e]; [|by apply calm_good..].
  pose proof (cancel_loaded_good budget job_id r rt Hok Hp (Hres r eq_refl)) as Hgood.
  rewrite eff_bind_unfold. by destruct (cancel_loaded job_id r rt) as [[?|?] ?].
Qed.

(** The trace of a request is elsewhere. *)
Definition request_apart (request : BackgroundJobCreateRequest) : Prop :=
  ∀ root transport channel_id,
    bt_channel_store_root (cr_trace request) = Some root → bt_channel_transport (cr_trace request) = Some transport →
    bt_channel_id (cr_trace request) = Some channel_id → channel_apart dir root transport channel_id.

Lemma off_log name ext :
  last (chars_of ext) = Some "g"%char → off dir (path_join (background_job_manifests_dir dir) (name +:+ ext)).
Proof.
  intros Hl. apply (off_last _ _ "g"%char); [|done]. by rewrite path_join_chars, chars_of_app, !last_app, Hl.
Qed.

Lemma new_job_sound config request command now n now' :
  jc_state_dir config = dir → request_apart request → sound (new_job config request command (job_id_of now n) now').
Proof.
  intros Hd Hr. split; cbn.
  - apply job_id_plain.
  - rewrite Hd. by apply off_log.
  - rewrite Hd. by apply off_log.
  - exact Hr.
Qed.

Lemma next_id_spec rt :
  next_background_job_id rt =
  (Ok (job_id_of (fs_now_ms (jr_fs rt)) (jr_id_counter rt)), set_id_counter (wrap_u64 (jr_id_counter rt + 1)) rt).
Proof. done. Qed.

(** Taking the next id keeps the invariant, with room for one job less. *)
Lemma next_id_ok budget rt :
  jobs_ok (1 + budget) rt →
  jobs_ok budget (set_id_counter (wrap_u64 (jr_id_counter rt + 1)) rt) ∧
  wrap_u64 (jr_id_counter rt + 1) = (jr_id_counter rt + 1)%N.
Proof.
  intros [Hd Hn Hq Hf Hroom].
  assert (wrap_u64 (jr_id_counter rt + 1) = jr_id_counter rt + 1)%N as Hwrap.
  { apply wrap_u64_small. unfold in_u64. lia. }
  split; [|done]. split; cbn; try done; rewrite ?Hwrap; [|lia].
  intros now m Hle. apply Hf. lia.
Qed.

Lemma create_good budget request rt :
  jobs_ok (1 + budget) rt → request_apart request → good budget rt (create_job (V:=V) request rt).2.
Proof.
  intros Hok Hreq. assert (jobs_ok budget rt) as Hok0 by (destruct Hok; split; try done; lia).
  destruct (next_id_ok _ _ Hok) as [Hok1 Hwrap].
  unfold create_job. rewrite eff_bind_unfold. unfold fail_if, of_result, bail_if.
  destruct (is_empty _); [by apply calm_good|]. rewrite eff_bind_unfold. cbn [job_now gets].
  rewrite eff_bind_unfold, next_id_spec, eff_bind_unfold. cbn [gets].
  set (now := fs_now_ms (jr_fs rt)) in *. set (n := jr_id_counter rt) in *. set (rt1 := set_id_counter _ rt) in *.
  set (r := new_job _ request _ _ now).
  assert (sound r) as Hs by (apply new_job_sound; [apply (ok_dir _ _ Hok)|done]).
  match goal with |- good _ _ (?m rt1).2 => assert (good budget rt1 (m rt1).2) as [Hok2 [Hfin Hrun]] end.
  { apply persist_then_good; [done|done| | |intros _].
    - intros now0 m Hle Heq. apply job_id_of_inj in Heq. unfold rt1 in Hle. cbn in Hle. rewrite Hwrap in Hle. lia.
    - intros old Ho. unfold manifest_of in Ho. cbn in Ho. by rewrite (ok_fresh _ _ Hok now n) in Ho.
    - apply (moves_bind calm); [|intros _; calmly]. apply calm_modify. intros rt' _. split_and!; [done..|].
      cbn. intros Hq. apply Forall_app. split; [done|]. apply Forall_singleton, job_id_plain. }
  split; [done|]. by split.
Qed.

(** *** Everything a client does *)

Definition client_ok (client : Client) : Prop :=
  match client with ClientCreate request => request_apart request | ClientCancel job_id => plain job_id end.
(** How many jobs it creates. *)
Definition creates (clients : list Client) : N :=
  N.of_nat (length (List.filter (λ c, match c with ClientCreate _ => true | _ => false end) clients)).

Lemma creates_cons client clients :
  creates (client :: clients) = ((match client with ClientCreate _ => 1 | _ => 0 end) + creates clients)%N.
Proof. unfold creates. cbn. destruct client; cbn; lia. Qed.

Lemma clients_good budget clients rt :
  jobs_ok (creates clients + budget) rt → Forall client_ok clients →
  good budget rt (each (run_client (V:=V)) clients rt).2 ∧ (each (run_client (V:=V)) clients rt).1 = Ok tt.
Proof.
  revert rt. induction clients as [|client clients IH]; intros rt Hok Hc.
  { split; [|done]. apply calm_good; [by rewrite N.add_0_l in Hok|done]. }
  apply Forall_cons in Hc as [Hclient Hc]. cbn [each]. rewrite eff_bind_unfold.
  rewrite creates_cons, <- N.add_assoc in Hok.
  assert (∃ rt', run_client (V:=V) client rt = (Ok tt, rt') ∧ good (creates clients + budget) rt rt') as (rt' & -> & [Hok' Hk]).
  { destruct client as [request|job_id]; eexists; (split; [reflexivity|]); [by apply create_good|by apply cancel_good]. }
  destruct (IH rt' Hok' Hc) as [[Hok2 Hk2] ->]. split; [|done]. split; [done|by etrans].
Qed.

(** *** The worker *)

Definition finished_keep rt rt' : Prop :=
  ∀ job_id r, plain job_id → manifest_of rt job_id = Some r → is_terminal (bj_status r) = true →
    fs_files (jr_fs rt') !! manifest job_id = fs_files (jr_fs rt) !! manifest job_id.

#[local] Instance finished_keep_preorder : PreOrder finished_keep.
Proof.
  split; [by intros rt j r|]. intros r1 r2 r3 F12 F23 j r Hp Hm Ht.
  rewrite <- (F12 j r) by done. apply (F23 j r); [done| |done]. unfold manifest_of. by rewrite (F12 j r).
Qed.

Definition running_at rt (job_id : string) : Prop :=
  ∃ r, manifest_of rt job_id = Some r ∧ bj_status r = Running.
Definition ended_at rt (job_id : string) : Prop :=
  ∃ r, manifest_of rt job_id = Some r ∧ is_terminal (bj_status r) = true.

Lemma jobs_ok_less budget budget' rt : (budget' ≤ budget)%N → jobs_ok budget rt → jobs_ok budget' rt.
Proof. intros Hle []. split; try done. lia. Qed.

(** Saving over a record that is not finished, then nothing that changes manifests. *)
Lemma persist_then_saved {A} budget r (k : unit → Eff (JobRuntime T) string A) rt :
  jobs_ok budget rt → sound r → not_future rt r →
  (∀ old, manifest_of rt (bj_job_id r) = Some old → is_terminal (bj_status old) = false) →
  (∀ a, moves calm (k a)) →
  let o := (persist_job r ≫= k) rt in
  jobs_ok budget o.2 ∧ finished_keep rt o.2 ∧ (∀ a, o.1 = Ok a → manifest_of o.2 (bj_job_id r) = Some r).
Proof.
  intros Hok Hs Hnew Hold Hk. cbv zeta. rewrite eff_bind_unfold. pose proof (persist_ok _ _ _ Hok Hs Hnew) as Hok'.
  destruct (persist_spec r rt (sound_id _ Hs) (ok_dir _ _ Hok)) as (result & fs' & Hp & Hothers & Hself).
  rewrite Hp in *. cbn [snd] in Hok'. assert (finished_keep rt (set_job_fs fs' rt)) as Hkeep.
  { intros j old Hj Hm Ht. cbn. destruct (decide (j = bj_job_id r)) as [->|Hne]; [|by apply Hothers].
    apply Hold in Hm. congruence. }
  destruct result as [a|e]; [|done].
  destruct (Hk a (set_job_fs fs' rt) (ok_dir _ _ Hok')) as (_ & _ & Hf & _).
  split_and!; [by eapply calm_ok; [apply Hk|]| |].
  - etrans; [exact Hkeep|]. intros j r' Hj _ _. by apply Hf.
  - intros b _. unfold manifest_of. rewrite Hf by apply Hs. by apply manifest_of_saved.
Qed.

(** The end of a run. *)
Lemma finish_job_ok budget status reason exit_code error diagnostic mutate event detail r rt :
  jobs_ok budget rt → sound r → running_at rt (bj_job_id r) → is_terminal status = true →
  let o := finish_job (V:=V) status reason exit_code error diagnostic mutate event detail r rt in
  jobs_ok budget o.2 ∧ finished_keep rt o.2 ∧ (o.1 = Ok tt → ended_at o.2 (bj_job_id r)).
Proof.
  intros Hok Hs (r0 & Hm & Hr) Ht. unfold finish_job. rewrite eff_bind_unfold. cbn [job_now gets].
  set (r' := job_finished _ _ _ _ _ r). assert (sound r') as Hs' by (by apply sound_update).
  destruct (persist_then_saved budget r' (λ _, announce (V:=V) r' event reason diagnostic mutate detail) rt)
    as (Hok' & Hk & Hsaved); [done|done|by eapply not_future_on_disk| |intros _; calmly|].
  { intros old Ho. cbn in Ho. rewrite Hm in Ho. injection Ho as <-. by rewrite Hr. }
  split_and!; [done..|]. intros Heq. exists r'. split; [by apply (Hsaved tt)|done].
Qed.

(** How a run of a job leaves the runtime. *)
Definition ran (budget : N) (job_id : string) rt (o : Result string bool * JobRuntime T) : Prop :=
  jobs_ok budget o.2 ∧ finished_keep rt o.2 ∧
  (o.1 = Ok true → ended_at o.2 job_id) ∧ (o.1 = Ok false → running_at o.2 job_id).

Lemma finish_then_ran budget r rt (m : Eff (JobRuntime T) string unit) :
  (let o := m rt in jobs_ok budget o.2 ∧ finished_keep rt o.2 ∧ (o.1 = Ok tt → ended_at o.2 (bj_job_id r))) →
  ran budget (bj_job_id r) rt ((_ ← m; mret true) rt).
Proof.
  cbv zeta. rewrite eff_bind_unfold. destruct (m rt) as [[[]|e] rt']; cbn; intros (Hok & Hk & He);
    (split_and!; [done|done|naive_solver|done]).
Qed.

Definition poll_ok (poll : Poll) : Prop :=
  Forall client_ok (pl_meanwhile poll) ∧ Forall client_ok (pl_killing poll).
Definition poll_creates (polls : list Poll) : N :=
  foldr (λ poll n, creates (pl_meanwhile poll) + (creates (pl_killing poll) + n))%N 0%N polls.

Lemma clients_finished rt rt' : clients_keep rt rt' → finished_keep rt rt'.
Proof. by intros [Hf _]. Qed.
Lemma clients_running rt rt' job_id : plain job_id → clients_keep rt rt' → running_at rt job_id → running_at rt' job_id.
Proof. intros Hp [_ Hr] (r & Hm & Hs). by apply (Hr job_id r). Qed.

(** What follows clients, from the state they leave. *)
Lemma clients_then room budget clients job_id rt (k : unit → Eff (JobRuntime T) string bool) :
  jobs_ok (creates clients + room) rt → Forall client_ok clients → plain job_id → running_at rt job_id →
  (∀ rt', jobs_ok room rt' → running_at rt' job_id → ran budget job_id rt' (k tt rt')) →
  ran budget job_id rt ((each (run_client (V:=V)) clients ≫= k) rt).
Proof.
  intros Hok Hc Hp Hrun Hk. rewrite eff_bind_unfold.
  destruct (clients_good room clients rt Hok Hc) as [[Hok' Hkeep] Hres].
  destruct (each run_client clients rt) as [res rt']. cbn in *. subst res.
  destruct (Hk rt' Hok' (clients_running _ _ _ Hp Hkeep Hrun)) as (Hok2 & Hk2 & He & Hr).
  split_and!; [done| |done|done]. etrans; [by apply clients_finished|done].
Qed.

Lemma calm_then room budget job_id rt rt' o :
  jobs_ok room rt → calm rt rt' → plain job_id → running_at rt job_id →
  (jobs_ok room rt' → running_at rt' job_id → ran budget job_id rt' o) → ran budget job_id rt o.
Proof.
  intros Hok Hcalm Hp Hrun Hk. destruct (calm_good room rt rt' Hok Hcalm) as [Hok' Hkeep].
  destruct (Hk Hok' (clients_running _ _ _ Hp Hkeep Hrun)) as (? & ? & ? & ?). split_and!; [done| |done|done].
  etrans; [by apply clients_finished|done].
Qed.

Lemma take_cancellation_spec job_id rt :
  ∃ requested rt', take_cancellation job_id rt = (Ok requested, rt') ∧ calm rt rt'.
Proof. eexists _, _. split; [reflexivity|]. intros _. by split_and!. Qed.

(** A run that comes to its end, with room that is not used. *)
Lemma end_ran room budget r rt status reason exit_code error diagnostic mutate event detail :
  (budget ≤ room)%N → jobs_ok room rt → sound r → running_at rt (bj_job_id r) → is_terminal status = true →
  ran budget (bj_job_id r) rt
    ((_ ← finish_job (V:=V) status reason exit_code error diagnostic mutate event detail r; mret true) rt).
Proof.
  intros Hle Hok Hs Hrun Ht. apply finish_then_ran, finish_job_ok; [by eapply jobs_ok_less|done..].
Qed.

Lemma poll_child_ran budget r polls rt :
  jobs_ok (poll_creates polls + budget) rt → Forall poll_ok polls → sound r → running_at rt (bj_job_id r) →
  ran budget (bj_job_id r) rt (poll_child (V:=V) r polls rt).
Proof.
  intros Hok Hpolls Hs. revert rt Hok. induction Hpolls as [|poll polls [Hmean Hkill] _ IH]; intros rt Hok Hrun.
  { split_and!; done. }
  pose proof (sound_id _ Hs) as Hp. cbn [poll_child]. rewrite eff_bind_unfold. cbn [modify].
  eapply (calm_then _ _ _ rt (set_job_now (pl_now poll) rt)); [exact Hok|intros _; by split_and!|done|done|].
  clear Hok Hrun. intros Hok Hrun. cbn [poll_creates foldr] in Hok. fold (poll_creates polls) in Hok.
  rewrite <- !N.add_assoc in Hok. eapply clients_then; [exact Hok|done|done|done|]. clear rt Hok Hrun.
  intros rt Hok Hrun. destruct (N.leb _ _).
  { eapply clients_then; [exact Hok|done|done|done|]. clear rt Hok Hrun. intros rt Hok Hrun.
    by eapply end_ran; [|exact Hok|..]; first lia. }
  rewrite eff_bind_unfold. destruct (take_cancellation_spec (bj_job_id r) rt) as (requested & rt' & -> & Hcalm).
  eapply (calm_then _ _ _ rt rt'); [exact Hok|done|done|done|]. clear rt Hok Hrun Hcalm. intros Hok Hrun.
  destruct (requested || bj_cancellation_requested r).
  { eapply clients_then; [exact Hok|done|done|done|]. clear rt' Hok Hrun. intros rt' Hok Hrun.
    by eapply end_ran; [|exact Hok|..]; first lia. }
  destruct (pl_wait poll) as [code| |error].
  - unfold finish_exited. case_bool_decide; by eapply end_ran; [|exact Hok|..]; first lia.
  - apply IH; [|done]. eapply jobs_ok_less; [|exact Hok]. lia.
  - by eapply end_ran; [|exact Hok|..]; first lia.
Qed.

(** A calm step that may fail, before the rest of a run. *)
Lemma calm_bind_ran {A} room budget job_id (m : Eff (JobRuntime T) string A) (k : A → Eff (JobRuntime T) string bool) rt :
  moves calm m → jobs_ok room rt → (budget ≤ room)%N → plain job_id → running_at rt job_id →
  (∀ a rt', jobs_ok room rt' → running_at rt' job_id → ran budget job_id rt' (k a rt')) →
  ran budget job_id rt ((m ≫= k) rt).
Proof.
  intros Hm Hok Hle Hp Hrun Hk. rewrite eff_bind_unfold. specialize (Hm rt).
  eapply (calm_then _ _ _ rt (m rt).2); [exact Hok|done..|]. intros Hok' Hrun'.
  destruct (m rt) as [[a|e] rt']; cbn in *; [by apply Hk|]. split_and!; [by eapply jobs_ok_less|done..].
Qed.

Lemma run_command_ran budget r polls rt :
  jobs_ok (poll_creates polls + budget) rt → Forall poll_ok polls → sound r → running_at rt (bj_job_id r) →
  ran budget (bj_job_id r) rt (run_command (V:=V) r polls rt).
Proof.
  intros Hok Hpolls Hs Hrun. pose proof Hs as [Hp Hout Herr _]. unfold run_command.
  eapply calm_bind_ran; [apply calm_files; by apply write_file_quiet|exact Hok|lia|done|done|].
  clear rt Hok Hrun. intros _ rt Hok Hrun.
  eapply calm_bind_ran; [apply calm_files; by apply write_file_quiet|exact Hok|lia|done|done|].
  clear rt Hok Hrun. intros _ rt Hok Hrun. rewrite eff_bind_unfold. cbn [gets].
  destruct (spawn_error r (jr_fs rt)) as [error|]; [|by apply poll_child_ran].
  by eapply end_ran; [|exact Hok|..]; first lia.
Qed.

Lemma start_job_ok budget r rt :
  jobs_ok budget rt → sound r → manifest_of rt (bj_job_id r) = Some r → bj_status r = Queued →
  let o := start_job (V:=V) r rt in
  jobs_ok budget o.2 ∧ finished_keep rt o.2 ∧
  ∀ r', o.1 = Ok r' → sound r' ∧ bj_job_id r' = bj_job_id r ∧ running_at o.2 (bj_job_id r).
Proof.
  intros Hok Hs Hm Hq. unfold start_job. rewrite eff_bind_unfold. cbn [job_now gets].
  set (r1 := job_started _ r). assert (sound r1) as Hs1 by (by apply sound_update).
  cbv zeta. match goal with |- context [(persist_job r1 ≫= ?k) rt] =>
    destruct (persist_then_saved budget r1 k rt) as (Hok' & Hk & Hsaved) end;
    [done|done|by eapply not_future_on_disk| |intros _; calmly|].
  { intros old Ho. cbn in Ho. rewrite Hm in Ho. injection Ho as <-. by rewrite Hq. }
  split_and!; [done|done|]. intros r' Heq. pose proof (Hsaved r' Heq) as Hrun.
  assert (r' = r1) as ->.
  { clear Hrun Hsaved Hk Hok'. match type of Heq with (?m rt).1 = _ => destruct (m rt) as [res rt'] eqn:Hm' end.
    cbn in Heq. subst res. clear Hm. rename Hm' into Hm.
    apply eff_bind_Ok in Hm as ([] & ? & _ & Hm). apply eff_bind_Ok in Hm as (? & ? & _ & Hm).
    apply eff_bind_Ok in Hm as (? & ? & _ & Hm). by injection Hm as <- _. }
  split_and!; [done|done|]. exists r1. done.
Qed.

Lemma execute_job_ok budget job_id polls rt :
  jobs_ok (poll_creates polls + budget) rt → Forall poll_ok polls → plain job_id →
  let o := execute_job (V:=V) job_id polls rt in jobs_ok budget o.2 ∧ finished_keep rt o.2.
Proof.
  intros Hok Hpolls Hp. cbv zeta. unfold execute_job. rewrite eff_bind_unfold.
  assert (jobs_ok budget rt) as Hok0 by (eapply jobs_ok_less; [|exact Hok]; lia).
  destruct (get_job_spec job_id rt (ok_dir _ _ Hok)) as (result & -> & Hres).
  destruct result as [[r|]|e]; [|done..]. specialize (Hres r eq_refl).
  destruct (ok_named _ _ Hok _ _ Hp Hres) as [<- Hs].
  case_bool_decide as Hq; cbn [negb]; [|done]. destruct (bj_cancellation_requested r).
  - rewrite eff_bind_unfold. unfold drop_cancelled. rewrite eff_bind_unfold. cbn [job_now gets].
    set (r1 := job_finished _ _ _ _ _ r). assert (sound r1) as Hs1 by (by apply sound_update).
    match goal with |- context [(persist_job r1 ≫= ?k) rt] =>
      destruct (persist_then_saved budget r1 k rt) as (Hok' & Hk & _) end;
      [done|done|by eapply not_future_on_disk| |intros _; calmly|].
    { intros old Ho. cbn in Ho. rewrite Hres in Ho. injection Ho as <-. by rewrite Hq. }
    by destruct ((persist_job r1 ≫= _) rt) as [[?|?] ?].
  - rewrite eff_bind_unfold. pose proof (start_job_ok _ r rt Hok Hs Hres Hq) as (Hok1 & Hk1 & Hstart).
    destruct (start_job r rt) as [[r'|e] rt1]; cbn in Hok1, Hk1, Hstart.
    + destruct (Hstart r' eq_refl) as (Hs' & Hid & Hrun). rewrite <- Hid in Hrun.
      destruct (run_command_ran budget r' polls rt1 Hok1 Hpolls Hs' Hrun) as (? & ? & _). split; [done|by etrans].
    + split; [|done]. eapply jobs_ok_less; [|exact Hok1]. lia.
Qed.

Lemma worker_turn_ok budget polls rt :
  jobs_ok (poll_creates polls + budget) rt → Forall poll_ok polls →
  let o := worker_turn (V:=V) polls rt in jobs_ok budget o.2 ∧ finished_keep rt o.2.
Proof.
  intros Hok Hpolls. cbv zeta. unfold worker_turn. pose proof (ok_queue _ _ Hok) as Hq.
  destruct (jr_queue rt) as [|job_id queue] eqn:Heq.
  { destruct (calm_good budget rt (set_worker_running false rt)) as [? Hk];
      [eapply jobs_ok_less; [|exact Hok]; lia|intros _; by split_and!|]. split; [done|]. by apply clients_finished. }
  apply Forall_cons in Hq as [Hp Hq].
  destruct (calm_good (poll_creates polls + budget) rt (set_job_queue queue rt) Hok) as [Hok1 Hk1%clients_finished];
    [intros _; by split_and!|].
  destruct (execute_job_ok budget job_id polls _ Hok1 Hpolls Hp) as [Hok2 Hk2].
  destruct (execute_job job_id polls (set_job_queue queue rt)) as [[ended|error] rt2]; cbn in Hok2, Hk2.
  { split; [done|by etrans]. }
  rewrite eff_bind_unfold. match goal with |- context [job_ignoring ?m rt2] =>
    destruct (calm_good budget rt2 (m rt2).2 Hok2) as [Hok3 Hk3%clients_finished]; [by apply update_health_calm|] end.
  cbn. split; [done|]. etrans; [exact Hk1|]. by etrans.
Qed.

(** *** The rounds of a run *)

Lemma clients_always_ok clients rt : (each (run_client (V:=V)) clients rt).1 = Ok tt.
Proof.
  revert rt. induction clients as [|client clients IH]; intros rt; [done|]. cbn [each]. rewrite eff_bind_unfold.
  by destruct client; cbn; apply IH.
Qed.

(** A run does not go on after a round that comes past the timeout. *)
Lemma poll_child_stops r polls rt :
  Exists (λ poll, (N.max (bj_effective_timeout_ms r) 1 ≤ pl_elapsed_ms poll)%N) polls →
  (poll_child (V:=V) r polls rt).1 ≠ Ok false.
Proof.
  intros Hex. revert rt. induction polls as [|poll polls IH]; intros rt; [by apply Exists_nil in Hex|].
  assert (∀ (m : Eff (JobRuntime T) string unit) rt, ((_ ← m; mret true) rt).1 ≠ Ok false) as Hfin.
  { intros m rt0. rewrite eff_bind_unfold. by destruct (m rt0) as [[]]. }
  assert (∀ clients (k : unit → Eff (JobRuntime T) string bool) rt, (∀ rt, (k tt rt).1 ≠ Ok false) →
            ((each (run_client (V:=V)) clients ≫= k) rt).1 ≠ Ok false) as Hclients.
  { intros clients k rt0 Hk. rewrite eff_bind_unfold. pose proof (clients_always_ok clients rt0) as Hok.
    destruct (each run_client clients rt0) as [res rt1]. cbn in Hok. subst res. apply Hk. }
  cbn [poll_child]. rewrite eff_bind_unfold. cbn [modify]. apply Hclients. clear rt. intros rt.
  destruct (N.leb_spec (N.max (bj_effective_timeout_ms r) 1) (pl_elapsed_ms poll)) as [Hle|Hlt].
  { apply Hclients. intros rt'. apply Hfin. }
  apply Exists_cons in Hex as [Hex|Hex]; [lia|]. rewrite eff_bind_unfold.
  destruct (take_cancellation_spec (bj_job_id r) rt) as (requested & rt' & -> & _).
  destruct (requested || _); [apply Hclients; intros ?; apply Hfin|].
  destruct (pl_wait poll); [apply Hfin|by apply IH|apply Hfin].
Qed.

(** *** Restarts *)

Definition unfinished r : bool := negb (is_terminal (bj_status r)).
Definition after_restart (now : N) r : BackgroundJobRecord :=
  match bj_status r with Running => job_recovered now r | _ => r end.

(** The records are those on disk, each once. *)
Definition listed rt (records : list BackgroundJobRecord) : Prop :=
  NoDup (bj_job_id <$> records) ∧
  Forall (λ r, plain (bj_job_id r) ∧ manifest_of rt (bj_job_id r) = Some r) records.

(** Saving and logging a record that was running. *)
Lemma recover_running_ok budget r1 r rt rt1 rt2 event reason detail :
  jobs_ok budget rt → plain (bj_job_id r) → manifest_of rt (bj_job_id r) = Some r →
  sound r1 → bj_job_id r1 = bj_job_id r →
  persist_job r1 rt = (Ok tt, rt1) → append_event r1 event reason detail rt1 = (Ok tt, rt2) →
  jobs_ok budget rt2 ∧ manifest_of rt2 (bj_job_id r) = Some r1 ∧
  ∀ job_id, plain job_id → job_id ≠ bj_job_id r → manifest_of rt2 job_id = manifest_of rt job_id.
Proof.
  intros Hok Hp Hm Hs1 Hid Hpersist Hevent.
  assert (not_future rt r1) as Hnew by (eapply not_future_on_disk; [done|by rewrite Hid]).
  pose proof (persist_ok budget r1 rt Hok Hs1 Hnew) as Hok1.
  destruct (persist_spec r1 rt (sound_id _ Hs1) (ok_dir _ _ Hok)) as (result & fs' & Hspec & Hothers & Hself).
  rewrite Hspec in Hpersist. injection Hpersist as -> <-. rewrite Hspec in Hok1. cbn [snd] in Hok1.
  pose proof (append_event_calm r1 event reason detail (set_job_fs fs' rt)) as Hcalm.
  rewrite Hevent in Hcalm. cbn [snd] in Hcalm. destruct (Hcalm (ok_dir _ _ Hok)) as (_ & _ & Hk & _).
  rewrite Hid in Hself, Hothers. split_and!; [by eapply calm_ok| |].
  - unfold manifest_of. rewrite Hk by done. by apply manifest_of_saved.
  - intros j Hj Hne. unfold manifest_of. rewrite Hk by done. cbn. by rewrite Hothers.
Qed.

Lemma recover_records_ok budget now records rt found rt' :
  jobs_ok budget rt → listed rt records → recover_records now records rt = (Ok found, rt') →
  jobs_ok budget rt' ∧ found.1 = bj_job_id <$> List.filter unfinished records ∧
  Forall (λ r, manifest_of rt' (bj_job_id r) = Some (after_restart now r)) records ∧
  (∀ job_id, plain job_id → job_id ∉ bj_job_id <$> records → manifest_of rt' job_id = manifest_of rt job_id).
Proof.
  revert rt found rt'. induction records as [|r records IH]; intros rt found rt' Hok [Hnd Hall] Hrec.
  { injection Hrec as <- <-. split_and!; [done|done|constructor|done]. }
  apply NoDup_cons in Hnd as [Hnot Hnd]. apply Forall_cons in Hall as [[Hp Hm] Hall].
  assert (∀ rt1 rest rt2, jobs_ok budget rt1 → manifest_of rt1 (bj_job_id r) = Some (after_restart now r) →
    (∀ job_id, plain job_id → job_id ≠ bj_job_id r → manifest_of rt1 job_id = manifest_of rt job_id) →
    recover_records now records rt1 = (Ok rest, rt2) →
    jobs_ok budget rt2 ∧ rest.1 = bj_job_id <$> List.filter unfinished records ∧
    Forall (λ r, manifest_of rt2 (bj_job_id r) = Some (after_restart now r)) (r :: records) ∧
    (∀ job_id, plain job_id → job_id ∉ bj_job_id <$> r :: records → manifest_of rt2 job_id = manifest_of rt job_id)) as Hrest.
  { intros rt1 rest rt2 Hok1 Hself Hothers Hr.
    destruct (IH rt1 rest rt2 Hok1) as (Hok2 & Hids & Hnow & Hkeep); [|done|].
    - split; [done|]. apply Forall_forall. intros r' Hr'. rewrite Forall_forall in Hall.
      destruct (Hall r' Hr') as [Hp' Hm']. split; [done|]. rewrite Hothers; [done|done|]. intros Heq.
      apply Hnot. rewrite <- Heq. by apply list_elem_of_fmap_2.
    - split_and!; [done|done| |].
      + constructor; [|done]. by rewrite Hkeep.
      + intros j Hj Hnj. cbn in Hnj. apply not_elem_of_cons in Hnj as [Hne Hnj]. by rewrite Hkeep, Hothers. }
  cbn [recover_records] in Hrec. unfold after_restart in Hrest at 1.
  cbn [List.filter]. unfold unfinished at 1. destruct (bj_status r) eqn:Hst; cbn [is_terminal negb].
  - apply eff_bind_Ok in Hrec as (rest & rt2 & Hr & Hret). injection Hret as <- <-.
    destruct (Hrest rt rest rt2) as (? & ? & ? & ?); [done..|]. split_and!; [done|cbn; by f_equal|done|done].
  - apply eff_bind_Ok in Hrec as (d & rt1 & Hd & Hrec). injection Hd as <- <-.
    apply eff_bind_Ok in Hrec as ([] & rt1 & Hpersist & Hrec).
    apply eff_bind_Ok in Hrec as ([] & rt2 & Hevent & Hrec).
    assert (sound (job_recovered now r)) as Hs by (by apply sound_update, (ok_named _ _ Hok _ _ Hp Hm)).
    destruct (recover_running_ok budget _ r rt rt1 rt2 _ _ _ Hok Hp Hm Hs eq_refl Hpersist Hevent)
      as (Hok2 & Hself & Hothers).
    apply eff_bind_Ok in Hrec as (rest & rt3 & Hr & Hret). injection Hret as <- <-.
    destruct (Hrest rt2 rest rt3) as (? & ? & ? & ?); [done..|].
    split_and!; [done|cbn; by f_equal|done|done].
  - destruct (Hrest rt found rt') as (? & ? & ? & ?); [done..|]. split_and!; done.
  - destruct (Hrest rt found rt') as (? & ? & ? & ?); [done..|]. split_and!; done.
  - destruct (Hrest rt found rt') as (? & ? & ? & ?); [done..|]. split_and!; done.
Qed.

Lemma recover_nothing now records rt :
  List.filter unfinished records = [] → recover_records (T:=T) now records rt = (Ok ([], []), rt).
Proof.
  induction records as [|r records IH]; [done|]. cbn. unfold unfinished at 1.
  destruct (bj_status r); cbn; try done; apply IH.
Qed.

Lemma calm_manifest_of budget rt rt' job_id :
  jobs_ok budget rt → calm rt rt' → plain job_id → manifest_of rt' job_id = manifest_of rt job_id.
Proof.
  intros Hok Hcalm Hp. destruct (Hcalm (ok_dir _ _ Hok)) as (_ & _ & Hk & _). unfold manifest_of. by rewrite Hk.
Qed.

Lemma listed_ids rt records : listed rt records → Forall plain (bj_job_id <$> List.filter unfinished records).
Proof.
  intros [_ Hall]. apply Forall_fmap, Forall_forall. intros r Hr.
  apply list_elem_of_In, List.filter_In in Hr as [Hr%list_elem_of_In _].
  rewrite Forall_forall in Hall. by apply Hall.
Qed.

Lemma save_health_calm : moves calm (save_health (T:=T)).
Proof. unfold save_health. calmly. apply write_atomic_quiet, off_state. Qed.

Lemma save_health_queue rt : jr_queue (save_health (T:=T) rt).2 = jr_queue rt.
Proof.
  unfold save_health. rewrite !eff_bind_unfold. cbn [state_dir gets]. rewrite eff_bind_unfold. cbn [gets].
  unfold with_files. by destruct (persist_background_job_health_snapshot _ _ _).
Qed.

(** *** Any sequence of steps *)

Inductive JobStep := ClientStep (client : Client) | WorkerStep (polls : list Poll).

Definition job_step (step : JobStep) rt : JobRuntime T :=
  match step with
  | ClientStep client => (run_client (V:=V) client rt).2
  | WorkerStep polls => (worker_turn (V:=V) polls rt).2
  end.
Definition job_steps (steps : list JobStep) rt : JobRuntime T := foldl (λ rt step, job_step step rt) rt steps.

Definition step_ok (step : JobStep) : Prop :=
  match step with ClientStep client => client_ok client | WorkerStep polls => Forall poll_ok polls end.
Definition step_creates (step : JobStep) : N :=
  match step with ClientStep client => creates [client] | WorkerStep polls => poll_creates polls end.
Definition total_creates (steps : list JobStep) : N := foldr (λ s n, step_creates s + n)%N 0%N steps.

Lemma job_step_ok budget step rt :
  jobs_ok (step_creates step + budget) rt → step_ok step →
  jobs_ok budget (job_step step rt) ∧ finished_keep rt (job_step step rt).
Proof.
  destruct step as [client|polls]; intros Hok Hstep; [|by apply worker_turn_ok].
  destruct (clients_good budget [client] rt Hok) as [[Hok' Hk%clients_finished] _]; [by constructor|].
  cbn [each] in Hok', Hk. rewrite eff_bind_unfold in Hok', Hk. cbn [job_step].
  by destruct client.
Qed.

Lemma job_steps_ok budget steps rt :
  jobs_ok (total_creates steps + budget) rt → Forall step_ok steps →
  jobs_ok budget (job_steps steps rt) ∧ finished_keep rt (job_steps steps rt).
Proof.
  revert rt. induction steps as [|step steps IH]; intros rt Hok Hsteps; [done|].
  apply Forall_cons in Hsteps as [Hstep Hsteps]. cbn [total_creates foldr] in Hok. rewrite <- N.add_assoc in Hok.
  destruct (job_step_ok _ _ _ Hok Hstep) as [Hok1 Hk1]. destruct (IH _ Hok1 Hsteps) as [Hok2 Hk2].
  split; [done|by etrans].
Qed.
End jobs.

(** ** The claims *)

Section claims.
Context {V T : Type} `{!SessionCodec V, !RowTable T}.
Context `{!JobCodec, !EventHost, !JobHost, !ChannelCodec, !JobCodecLaws}.


(** C38: a run ends: the rounds come at least the poll interval apart, so after as many
    as reach the timeout the loop has returned, whatever the child and the clients do;
    and unless a file could not be written the job's manifest then says that it
    succeeded, failed or was cancelled. *)
Theorem job_run_ends dir r polls rt :
  jobs_ok (T:=T) dir (poll_creates polls) rt → Forall (poll_ok dir) polls → sound dir r →
  running_at dir rt (bj_job_id r) →
  let interval := N.max (jc_worker_poll_ms (jr_config rt)) 10 in
  (∀ k poll, polls !! k = Some poll → (N.of_nat k * interval ≤ pl_elapsed_ms poll)%N) →
  (N.max (bj_effective_timeout_ms r) 1 ≤ (N.of_nat (length polls) - 1) * interval)%N →
  let o := poll_child (V:=V) r polls rt in
  o.1 ≠ Ok false ∧ (o.1 = Ok true → ended_at dir o.2 (bj_job_id r)).
Proof.
  intros Hok Hpolls Hs Hrun interval Hspaced Hlong. cbv zeta. split.
  - apply (poll_child_stops dir). destruct (lookup_lt_is_Some_2 polls (length polls - 1)) as [poll Hpoll]; [lia|].
    apply Exists_exists. exists poll. split; [by eapply list_elem_of_lookup_2|].
    etrans; [exact Hlong|]. etrans; [|by apply (Hspaced _ _ Hpoll)]. apply N.mul_le_mono_r. lia.
  - rewrite <- (N.add_0_r (poll_creates polls)) in Hok.
    by destruct (poll_child_ran dir 0 r polls rt Hok Hpolls Hs Hrun) as (_ & _ & He & _).
Qed.

(** A restart forgets no job: the jobs that were queued or running when the process
    ended are queued again, in the order of their manifests, those that ran are marked
    as queued, the manifests of the others are as they were, and a worker is
    scheduled. *)
Theorem restart_requeues dir budget rt records rt' :
  jobs_ok (T:=T) dir budget rt → jr_queue rt = [] → listed dir rt records →
  load_background_job_records dir (jr_fs rt) = (Ok records, jr_fs rt) →
  recover_queue_from_disk rt = (Ok tt, rt') →
  jr_queue rt' = bj_job_id <$> List.filter unfinished records ∧
  Forall (λ r, manifest_of dir rt' (bj_job_id r) = Some (after_restart (fs_now_ms (jr_fs rt)) r)) records ∧
  jobs_ok dir budget rt' ∧ (jr_queue rt' ≠ [] → jr_worker_running rt' = true).
Proof.
  intros Hok Hempty Hlisted Hload. unfold recover_queue_from_disk. rewrite eff_bind_unfold. cbn [job_now gets].
  rewrite eff_bind_unfold. cbn [state_dir gets]. rewrite (ok_dir _ _ _ Hok), eff_bind_unfold. unfold with_files at 1.
  rewrite Hload. assert (set_job_fs (jr_fs rt) rt = rt) as -> by (by destruct rt).
  intros (found & rt1 & Hrec & Hrest)%eff_bind_Ok.
  destruct (recover_records_ok dir budget _ _ _ _ _ Hok Hlisted Hrec) as (Hok1 & Hids & Hnow & _).
  assert (calm dir rt1 rt' →
    Forall (λ r, manifest_of dir rt' (bj_job_id r) = Some (after_restart (fs_now_ms (jr_fs rt)) r)) records ∧
    jobs_ok dir budget rt') as Hcalm.
  { intros Hc. split; [|by eapply calm_ok]. destruct Hlisted as [_ Hl]. rewrite Forall_forall in Hnow, Hl |- *.
    intros r Hr. rewrite (calm_manifest_of _ _ _ _ _ Hok1 Hc); [by apply Hnow|by apply Hl]. }
  rewrite Hids in Hrest. pose proof (listed_ids _ _ _ Hlisted) as Hplain.
  destruct (bj_job_id <$> List.filter unfinished records) as [|job_id ids] eqn:Hu.
  - apply fmap_nil_inv in Hu. rewrite (recover_nothing _ _ _ Hu) in Hrec. injection Hrec as _ <-.
    rewrite eff_bind_unfold in Hrest. cbn [modify] in Hrest. pose proof (f_equal snd Hrest) as Heq. cbn [snd] in Heq.
    subst rt'. rewrite save_health_queue. cbn [jr_queue set_job_health].
    destruct Hcalm as [? ?]; [|by rewrite Hempty].
    etrans; [|apply save_health_calm]. intros _. by split_and!.
  - rewrite !eff_bind_unfold in Hrest. cbn [modify] in Hrest. rewrite !eff_bind_unfold in Hrest. cbn [modify] in Hrest.
    rewrite !eff_bind_unfold in Hrest. match type of Hrest with context [save_health ?x] => set (rt2 := x) in * end.
    assert (calm dir rt1 rt2) as Hc2 by (intros _; split_and!; [done..|]; by intros _).
    pose proof (save_health_queue rt2) as Hq. pose proof (save_health_calm dir rt2) as Hc3.
    destruct (save_health rt2) as [[[]|e] rt3]; [|done]. injection Hrest as <-. cbn in Hq, Hc3 |- *.
    destruct Hcalm as [? ?]; [|by rewrite Hq].
    etrans; [exact Hc2|]. etrans; [exact Hc3|]. intros _. by split_and!.
Qed.
End claims.

(** ** A concrete setting *)

Module JobDemo.
Definition status_code (s : BackgroundJobStatus) : nat :=
  match s with Queued => 0 | Running => 1 | Succeeded => 2 | Failed => 3 | Cancelled => 4 end.
Definition code_status (n : nat) : BackgroundJobStatus :=
  match n with 0 => Queued | 1 => Running | 2 => Succeeded | 3 => Failed | _ => Cancelled end.

(** Manifests as bits. *)
Definition job_bits (r : BackgroundJobRecord) : string :=
  encode_bits
    ((bj_schema_version r, bj_job_id r, bj_command r, bj_args r, bj_env r, bj_cwd r, bj_requested_timeout_ms r,
      bj_effective_timeout_ms r, status_code (bj_status r), bj_reason_code r),
     (bj_created_unix_ms r, bj_updated_unix_ms r, bj_started_unix_ms r, bj_finished_unix_ms r, bj_exit_code r,
      bj_error r, bj_cancellation_requested r, bj_stdout_path r, bj_stderr_path r),
     (bt_channel_store_root (bj_trace r), bt_channel_transport (bj_trace r), bt_channel_id (bj_trace r),
      bt_session_path (bj_trace r))).
Definition bits_job (raw : string) : option BackgroundJobRecord :=
  (λ '((v, i, c, a, e, d, q, t, s, n), (m, u, b, f, x, o, k, p, l), (tr, tp, tc, ts)),
     mkJob v i c a e d q t (code_status s) n m u b f x o k p l (mkTrace tr tp tc ts)) <$> decode_bits (trim raw).

#[export] Instance bits_jobs : JobCodec :=
  {| decode_job := bits_job; encode_job := job_bits; decode_job_health _ := None;
     encode_job_health _ := "health"; encode_job_event e := be_event e |}.
#[export] Instance bits_jobs_laws : JobCodecLaws.
Proof.
  split. intros [v i c a e d q t s n m u b f x o k p l [tr tp tc ts]].
  change (bits_job (job_bits (mkJob v i c a e d q t s n m u b f x o k p l (mkTrace tr tp tc ts)) +:+ newline) =
          Some (mkJob v i c a e d q t s n m u b f x o k p l (mkTrace tr tp tc ts))).
  unfold bits_job, job_bits. replace (trim _) with (job_bits (mkJob v i c a e d q t s n m u b f x o k p l (mkTrace tr tp tc ts)))
    by (symmetry; apply trim_marked_newline).
  unfold job_bits. rewrite decode_encode_bits. cbn. by destruct s.
Qed.
#[export] Instance quiet_job_host : JobHost :=
  {| job_env_var _ := None; spawn_error _ _ := None; session_error_text _ := "session error" |}.
#[export] Instance job_files : EventHost :=
  {| read_dir fs dir := Ok (List.filter (String.prefix (dir +:+ "/")) (elements (dom (fs_files fs))));
     modified_ms _ _ := None; read_error_text _ _ := "missing" |}.

Definition job (job_id : string) (status : BackgroundJobStatus) : BackgroundJobRecord :=
  mkJob 1 job_id "make" [] ∅ None 50 50 status "job_queued" 5 5 None None None None false
    (path_join "st/jobs" (job_id +:+ ".stdout.log")) (path_join "st/jobs" (job_id +:+ ".stderr.log"))
    (mkTrace None None None None).
Definition saved (records : list BackgroundJobRecord) : TextFs :=
  mkTextFs (list_to_map ((λ r, ("st/jobs/" +:+ bj_job_id r +:+ ".json", job_bits r +:+ newline)) <$> records))
    {["st"; "st/jobs"]} (λ _, false) (λ _, false) 1 7.
Definition runtime_on (queue : list string) (fs : TextFs) : JobRuntime (list Row) :=
  mkJobRuntime (mkJobConfig "st" 50 100 10) queue ∅ (job_health_default 0) false fs quiet_world 1.
Definition jobs : list BackgroundJobRecord := [job "a" Succeeded; job "b" Queued; job "c" Running].
End JobDemo.
Import JobDemo.

(** The client reads a queued job, the worker starts it, the client saves the
    cancellation, and the worker saves that the job succeeded: when the two run on
    different threads, a job that was reported as cancelled runs to its end. *)
Lemma cancelled_job_succeeds :
  let rt := runtime_on ["b"] (saved jobs) in
  let started := start_job (V:=unit) (job "b" Queued) rt in
  let cancelled := cancel_loaded (V:=unit) "b" (job "b" Queued) started.2 in
  let ended := poll_child (V:=unit) (job_started 7 (job "b" Queued)) [mkPoll 8 1 [] [] (Exited (Some 0%Z))] cancelled.2 in
  (bj_status <$> manifest_of "st" rt "b",
   match cancelled.1 with Ok r => Some (bj_status r) | Err _ => None end,
   bj_status <$> manifest_of "st" cancelled.2 "b", bj_status <$> manifest_of "st" ended.2 "b") =
  (Some Queued, Some Cancelled, Some Cancelled, Some Succeeded).
Proof. vm_compute. reflexivity. Qed.

(** A job whose start cannot be logged is marked as running and then left: nothing
    runs, the failure is counted, and the manifest says "running". *)
Lemma failed_start_stays_running :
  let fs := saved jobs in
  let denied := mkTextFs (fs_files fs) (fs_dirs fs) (String.eqb "st/events.jsonl") (fs_rename_denied fs) 1 7 in
  let turn := worker_turn (V:=unit) [] (runtime_on ["b"] denied) in
  (turn.1, bj_status <$> manifest_of "st" turn.2 "b", jr_queue turn.2, bh_failed_total (jr_health turn.2)) =
  (Ok true, Some Running, [], 1%N).
Proof. vm_compute. reflexivity. Qed.

(** Ids are joined to the directory as they are: a file elsewhere passes for a manifest,
    and cancelling it writes wherever the id inside leads. *)
Lemma job_ids_escape :
  let forged := job "../../etc/app" Running in
  let fs := saved [] in
  let planted := set_text_files (<["st/jobs/../../work/x.json" := job_bits forged +:+ newline]> (fs_files fs)) fs in
  bool_decide (is_Some (fs_files (jr_fs (cancel_job (V:=unit) "../../work/x" (runtime_on [] planted)).2)
             !! "st/jobs/../../etc/app.json")) = true.
Proof. vm_compute. reflexivity. Qed.

(** A trace in a session is a new root: the head of the session is then the line about
    the job, and the conversation is not on its lineage. *)
Lemma trace_hides_conversation :
  let path := "state/s.jsonl" in
  let traced := mkJob 1 "b" "make" [] ∅ None 50 50 Running "job_started" 5 5 None None None None false "o" "e"
                  (mkTrace None None None (Some path)) in
  let w := world_with path [mkEntry 1 None (message_user "hello"); mkEntry 2 (Some 1%N) (assistant_text "hi")] in
  let lineage w := match load (Value:=unit) w path with
                   | (_, Ok st) => length <$> ok_of (lineage_entries st (head_id st))
                   | _ => None
                   end in
  let rt := set_job_world w (runtime_on [] (saved [])) in
  (lineage w, lineage (jr_world (emit_traces (V:=unit) traced "started" "job_started" "d" rt).2)) = (Some 2, Some 1).
Proof. vm_compute. reflexivity. Qed.

(** *** The invariant holds there *)

Lemma demo_job_sound job_id status : plain job_id → sound "st" (job job_id status).
Proof.
  intros Hp. split; [exact Hp|..]; cbn -[path_join].
  - by apply (off_log "st").
  - by apply (off_log "st").
  - intros root transport channel_id Heq. done.
Qed.

Lemma demo_lookup job_id content :
  plain job_id → fs_files (saved jobs) !! background_job_manifest_path "st" job_id = Some content →
  ∃ r, r ∈ jobs ∧ bj_job_id r = job_id ∧ content = job_bits r +:+ newline.
Proof.
  intros Hp Hl. unfold saved in Hl. cbn [fs_files] in Hl. apply elem_of_list_to_map_2 in Hl.
  apply list_elem_of_fmap in Hl as (r & Heq & Hr). injection Heq as Hpath Hc.
  exists r. split_and!; [done| |done].
  assert (Forall (λ r, plain (bj_job_id r) ∧
    "st/jobs/" +:+ bj_job_id r +:+ ".json" = background_job_manifest_path "st" (bj_job_id r)) jobs) as Hall.
  { repeat constructor; apply (bool_decide_unpack _); vm_compute; exact I. }
  rewrite Forall_forall in Hall. destruct (Hall r Hr) as [Hplain Hname].
  symmetry. rewrite Hname in Hpath. by eapply manifest_inj.
Qed.

Lemma demo_ok budget queue :
  (1 + budget ≤ u64_max)%N → Forall plain queue → jobs_ok "st" budget (runtime_on queue (saved jobs)).
Proof.
  intros Hroom Hq. split; [done| |done| |done].
  - intros job_id r Hp. unfold manifest_of. cbn [jr_fs runtime_on].
    destruct (fs_files (saved jobs) !! _) as [content|] eqn:Hl; [|done].
    apply demo_lookup in Hl as (r' & Hr & Hid & ->); [|done]. cbn [mbind option_bind].
    intros Heq. change (decode_job (encode_job r' +:+ newline) = Some r) in Heq.
    rewrite decode_encode_job in Heq. injection Heq as <-. split; [done|].
    unfold jobs in Hr. rewrite !elem_of_cons in Hr. destruct Hr as [->|[->|[->|[]%elem_of_nil]]];
      apply demo_job_sound; apply (bool_decide_unpack _); vm_compute; exact I.
  - intros now n _. destruct (fs_files _ !! _) as [content|] eqn:Hl; [|done].
    apply demo_lookup in Hl as (r & Hr & Hid & _); [|apply job_id_plain]. exfalso.
    apply (f_equal (λ s, length (chars_of s))) in Hid. unfold job_id_of in Hid. rewrite !chars_of_app, !length_app in Hid.
    unfold jobs in Hr. rewrite !elem_of_cons in Hr. destruct Hr as [->|[->|[->|[]%elem_of_nil]]]; cbn in Hid; lia.
Qed.

Lemma plain_letter (c : ascii) : c ≠ slash → plain (String c "").
Proof. intros Hc. unfold plain. by intros [Heq|[]%elem_of_nil]%elem_of_cons. Qed.


(** The worker runs "b", and clients try to cancel the finished job "a" before, while and
    after. *)
Definition demo_steps : list JobStep :=
  [ClientStep (ClientCancel "a");
   WorkerStep [mkPoll 8 1 [ClientCancel "a"] [] StillRunning; mkPoll 9 12 [] [] (Exited (Some 0%Z))];
   ClientStep (ClientCancel "a")].


Definition demo_polls : list Poll :=
  (λ k, mkPoll (8 + 10 * N.of_nat k) (10 * N.of_nat k) [] [] StillRunning) <$> seq 0 6.

Lemma job_run_ends_witness :
  let o := poll_child (V:=unit) (job "c" Running) demo_polls (runtime_on [] (saved jobs)) in
  o.1 ≠ Ok false ∧ (o.1 = Ok true → ended_at "st" o.2 "c").
Proof.
  apply (job_run_ends "st" (job "c" Running) demo_polls (runtime_on [] (saved jobs))).
  - apply demo_ok; [vm_compute; discriminate|constructor].
  - repeat constructor.
  - apply demo_job_sound, plain_letter. discriminate.
  - exists (job "c" Running). split; [vm_compute; reflexivity|reflexivity].
  - intros k poll Hk. do 6 (destruct k as [|k]; [injection Hk as <-; vm_compute; discriminate|]). discriminate.
  - vm_compute. discriminate.
Defined.

(** Reading the manifests changes nothing. *)
Lemma load_records_state `{!JobCodec, !EventHost} dir fs : (load_background_job_records dir fs).2 = fs.
Proof.
  assert (∀ paths fs, (read_jobs paths fs).2 = fs) as Hread.
  { intros paths. induction paths as [|path paths IH]; intros fs0; [done|]. cbn [read_jobs].
    unfold read_job. rewrite !eff_bind_unfold. unfold read_file. destruct (fs_files fs0 !! path) as [raw|]; [|done].
    cbn. destruct (decode_job raw); cbn; [|done]. rewrite eff_bind_unfold. specialize (IH fs0).
    by destruct (read_jobs paths fs0) as [[]]. }
  unfold load_background_job_records, collect_background_job_manifest_paths. rewrite !eff_bind_unfold.
  cbn [path_exists gets]. destruct (_ || _); [|done]. rewrite eff_bind_unfold. unfold list_dir.
  destruct (read_dir _ _); [|done]. rewrite eff_bind_unfold. cbn [gets]. apply Hread.
Qed.

Lemma restart_requeues_witness :
  let rt' := (recover_queue_from_disk (runtime_on [] (saved jobs))).2 in
  jr_queue rt' = bj_job_id <$> List.filter unfinished jobs ∧
  Forall (λ r, manifest_of "st" rt' (bj_job_id r) = Some (after_restart 7 r)) jobs ∧
  jobs_ok "st" 0 rt' ∧ (jr_queue rt' ≠ [] → jr_worker_running rt' = true).
Proof.
  apply (restart_requeues "st" 0 (runtime_on [] (saved jobs)) jobs).
  - apply demo_ok; [vm_compute; discriminate|constructor].
  - reflexivity.
  - split; [apply (bool_decide_unpack _); vm_compute; exact I|].
    do 3 (constructor; [split; [apply plain_letter; discriminate|vm_compute; reflexivity]|]). constructor.
  - assert ((load_background_job_records "st" (saved jobs)).1 = Ok jobs) as Hl by (vm_compute; reflexivity).
    pose proof (load_records_state "st" (saved jobs)) as Hfs. cbn [jr_fs runtime_on].
    destruct (load_background_job_records "st" (saved jobs)) as [r fs]. cbn in Hl, Hfs. by rewrite Hl, Hfs.
  - assert ((recover_queue_from_disk (runtime_on [] (saved jobs))).1 = Ok tt) as Hr by (vm_compute; reflexivity).
    destruct (recover_queue_from_disk (runtime_on [] (saved jobs))) as [r rt']. cbn in Hr. by rewrite Hr.
Defined.
