(* ===== verification/TrainingTracer.v ===== *)
(** * The training tracer ([tau-training-tracer], [lib.rs])

    [TrainingTracer] collects the spans of one rollout attempt.  A span is open
    from [start_span] to [end_span]; instant spans are complete at once; [flush]
    closes what is open and hands the spans to the store in sequence order.

    The tracer reads the clock and the process-wide id counter.  What they answer
    to its n-th reading is the interface [TracerHost], together with the order in
    which the map of open spans is iterated. *)

From Stdlib Require Import NArith ZArith Ascii Lia.
From stdpp Require Import base gmap sets strings relations sorting list.
From S2P Require Import Prelude RustStr Json Messages ChatTypes Safety AgentTools AgentEnv TrainingTypes.

#[local] Open Scope string_scope.
#[local] Open Scope list_scope.
#[local] Open Scope nat_scope.

Record Reward := mkReward { rw_name : string; rw_value : f64 }.

Abbreviation Attributes := (gmap string Value).
Abbreviation Span := (TrainingSpan Value).

Class TracerHost := {
  (** [COUNTER.fetch_add(1)] and [Utc::now()] at the tracer's n-th reading *)
  counter_at : nat → N;
  clock_at : nat → DateTime;
  (** the order of [HashMap::keys] *)
  keys_order : list string → list string }.

(** The counter does not repeat itself (it would after 2^64 ids), the clock does not
    go back, and iterating over keys visits each of them. *)
Class TracerHostLaws `(TH : TracerHost) := {
  counter_inj :: Inj (=) (=) counter_at;
  clock_mono n m : n ≤ m → (clock_at n ≤ clock_at m)%Z;
  keys_order_perm l : keys_order l ≡ₚ l }.

Record OpenSpan := mkOpen
  { os_sequence_id : N; os_span_id : string; os_parent_id : option string; os_name : string;
    os_attributes : Attributes; os_start_time : DateTime }.

Record TrainingTracerInner := mkTracerInner
  { open_spans : gmap string OpenSpan; managed_keys : gmap string string;
    completed : list Span; next_sequence_id : N }.

(** [reads] counts the readings of the clock and the counter so far. *)
Record TrainingTracer := mkTracer
  { tc_rollout_id : string; tc_attempt_id : string; tc_trace_id : string;
    tc_inner : TrainingTracerInner; tc_reads : nat }.

Definition set_inner (i : TrainingTracerInner) (t : TrainingTracer) : TrainingTracer :=
  mkTracer (tc_rollout_id t) (tc_attempt_id t) (tc_trace_id t) i (tc_reads t).
Definition set_reads (n : nat) (t : TrainingTracer) : TrainingTracer :=
  mkTracer (tc_rollout_id t) (tc_attempt_id t) (tc_trace_id t) (tc_inner t) n.
Definition set_open (m : gmap string OpenSpan) (i : TrainingTracerInner) : TrainingTracerInner :=
  mkTracerInner m (managed_keys i) (completed i) (next_sequence_id i).
Definition set_managed (m : gmap string string) (i : TrainingTracerInner) : TrainingTracerInner :=
  mkTracerInner (open_spans i) m (completed i) (next_sequence_id i).
Definition set_completed (l : list Span) (i : TrainingTracerInner) : TrainingTracerInner :=
  mkTracerInner (open_spans i) (managed_keys i) l (next_sequence_id i).
Definition set_next_sequence (n : N) (i : TrainingTracerInner) : TrainingTracerInner :=
  mkTracerInner (open_spans i) (managed_keys i) (completed i) n.

(** [Utc::now().timestamp_nanos_opt().unwrap_or_default()] *)
Definition timestamp_nanos (t : DateTime) : Z :=
  if ((- 2 ^ 63 <=? t) && (t <? 2 ^ 63))%Z then t else 0%Z.

(** [SafetyMode] as it is serialised *)
Definition safety_mode_name (m : SafetyMode) : string :=
  match m with Warn => "warn" | Redact => "redact" | Block => "block" end.

Section tracer.
Context `{TH : TracerHost}.

(** ** Spans *)

Definition next_id (prefix : string) (n : nat) : string :=
  prefix +:+ "-" +:+ show_i64 (timestamp_nanos (clock_at n)) +:+ "-" +:+ show_u64 (counter_at n).

(** [TrainingTracer::new]: its trace id is the first reading. *)
Definition tracer_new (rollout_id attempt_id : string) : TrainingTracer :=
  mkTracer rollout_id attempt_id (next_id "trace" 0) (mkTracerInner ∅ ∅ [] 0) 1.

Definition start_span (name : string) (parent_id : option string) (attributes : Attributes)
    (t : TrainingTracer) : TrainingTracer * string :=
  let inner := tc_inner t in
  let sequence_id := add_u64 (next_sequence_id inner) 1 in
  let inner := set_next_sequence sequence_id inner in
  let span_id := next_id "span" (tc_reads t) in
  let span := mkOpen sequence_id span_id parent_id name attributes (clock_at (S (tc_reads t))) in
  (set_reads (S (S (tc_reads t))) (set_inner (set_open (<[span_id := span]> (open_spans inner)) inner) t),
   span_id).

(** The span an open one becomes. *)
Definition close_span (t : TrainingTracer) (open : OpenSpan) (attributes : Attributes)
    (now : DateTime) : Span :=
  mkSpan (tc_rollout_id t) (tc_attempt_id t) (os_sequence_id open) (tc_trace_id t)
    (os_span_id open) (os_parent_id open) (os_name open) attributes [] (os_start_time open)
    (Some now).

Definition end_span (span_id : string) (extra_attributes : Attributes) (t : TrainingTracer)
    : TrainingTracer :=
  let inner := tc_inner t in
  match open_spans inner !! span_id with
  | None => t
  | Some open =>
      let inner := set_open (delete span_id (open_spans inner)) inner in
      let span := close_span t open (extra_attributes ∪ os_attributes open) (clock_at (tc_reads t)) in
      set_reads (S (tc_reads t)) (set_inner (set_completed (completed inner ++ [span]) inner) t)
  end.

Definition instant_span (name : string) (attributes : Attributes) (t : TrainingTracer)
    : TrainingTracer :=
  let inner := tc_inner t in
  let sequence_id := add_u64 (next_sequence_id inner) 1 in
  let inner := set_next_sequence sequence_id inner in
  let now := clock_at (tc_reads t) in
  let span :=
    mkSpan (tc_rollout_id t) (tc_attempt_id t) sequence_id (tc_trace_id t)
      (next_id "span" (S (tc_reads t))) None name attributes [] now (Some now) in
  set_reads (S (S (tc_reads t))) (set_inner (set_completed (completed inner ++ [span]) inner) t).

Definition start_managed_span (key name : string) (attributes : Attributes) (t : TrainingTracer)
    : TrainingTracer :=
  let '(t, span_id) := start_span name None attributes t in
  set_inner (set_managed (<[key := span_id]> (managed_keys (tc_inner t))) (tc_inner t)) t.

Definition end_managed_span (key : string) (extra_attributes : Attributes) (t : TrainingTracer)
    : TrainingTracer :=
  let span_id := managed_keys (tc_inner t) !! key in
  let t := set_inner (set_managed (delete key (managed_keys (tc_inner t))) (tc_inner t)) t in
  match span_id with
  | Some span_id => end_span span_id extra_attributes t
  | None => instant_span (key +:+ ".end_without_start") extra_attributes t
  end.

(** [operation] returns a guard: the id of the span that dropping it ends. *)
Definition operation (name : string) (t : TrainingTracer) : TrainingTracer * string :=
  start_span name None ∅ t.
Definition drop_guard (span_id : string) (t : TrainingTracer) : TrainingTracer :=
  end_span span_id ∅ t.

Definition reward_attributes (reward : Reward) : Attributes :=
  list_to_map
    [("reward_name", Str (rw_name reward)); ("reward_value", json_f64 (rw_value reward));
     ("rewards", Arr [json_obj [("name", Str (rw_name reward));
                                ("value", json_f64 (rw_value reward))]])].

Definition emit_reward (reward : Reward) (t : TrainingTracer) : TrainingTracer :=
  instant_span "reward.emit" (reward_attributes reward) t.

(** ** Agent events *)

Definition usage_json (usage : ChatUsage) : Value :=
  json_obj [("input_tokens", Num (PosInt (cu_input_tokens usage)));
            ("output_tokens", Num (PosInt (cu_output_tokens usage)));
            ("total_tokens", Num (PosInt (cu_total_tokens usage)))].

Definition turn_key (turn : nat) : string := "turn:" +:+ show_usize turn.
Definition tool_key (tool_call_id : string) : string := "tool:" +:+ tool_call_id.

Definition on_agent_event (event : AgentEvent) (t : TrainingTracer) : TrainingTracer :=
  match event with
  | AgentStart => instant_span "agent.start" ∅ t
  | AgentEnd new_messages =>
      instant_span "agent.end" (list_to_map [("new_messages", json_usize new_messages)]) t
  | TurnStart turn =>
      start_managed_span (turn_key turn) ("agent.turn." +:+ show_usize turn)
        (list_to_map [("turn", json_usize turn)]) t
  | TurnEnd turn tool_results request_duration_ms usage finish_reason =>
      end_managed_span (turn_key turn)
        (list_to_map
           [("tool_results", json_usize tool_results);
            ("request_duration_ms", Num (PosInt request_duration_ms));
            ("usage", usage_json usage); ("finish_reason", json_option Str finish_reason)]) t
  | MessageAdded message =>
      instant_span "message.added"
        (list_to_map [("role", Str (role_label (msg_role message)));
                      ("text", Str (text_content message))]) t
  | ToolExecutionStart tool_call_id tool_name arguments =>
      start_managed_span (tool_key tool_call_id) ("tool." +:+ tool_name)
        (list_to_map [("tool_call_id", Str tool_call_id); ("tool_name", Str tool_name);
                      ("arguments", arguments)]) t
  | ToolExecutionEnd tool_call_id tool_name result =>
      end_managed_span (tool_key tool_call_id)
        (list_to_map [("tool_call_id", Str tool_call_id); ("tool_name", Str tool_name);
                      ("is_error", Bool (tr_is_error result)); ("content", tr_content result)]) t
  | ReplanTriggered turn reason =>
      instant_span "agent.replan_triggered"
        (list_to_map [("turn", json_usize turn); ("reason", Str reason)]) t
  | CostUpdated turn turn_cost_usd cumulative_cost_usd budget_usd =>
      instant_span "agent.cost_updated"
        (list_to_map
           [("turn", json_usize turn); ("turn_cost_usd", json_f64 turn_cost_usd);
            ("cumulative_cost_usd", json_f64 cumulative_cost_usd);
            ("budget_usd", json_option json_f64 budget_usd)]) t
  | CostBudgetAlert turn threshold_percent cumulative_cost_usd budget_usd =>
      instant_span "agent.cost_budget_alert"
        (list_to_map
           [("turn", json_usize turn); ("threshold_percent", Num (PosInt threshold_percent));
            ("cumulative_cost_usd", json_f64 cumulative_cost_usd);
            ("budget_usd", json_f64 budget_usd)]) t
  | SafetyPolicyApplied stage mode blocked matched_rules reason_codes =>
      instant_span "agent.safety_policy_applied"
        (list_to_map
           [("stage", Str (stage_as_str stage)); ("mode", Str (safety_mode_name mode));
            ("blocked", Bool blocked); ("matched_rules", json_strings matched_rules);
            ("reason_codes", json_strings reason_codes)]) t
  end.

(** ** Reading the spans *)

Definition completed_spans (t : TrainingTracer) : list Span :=
  sort_by_key sp_sequence_id (completed (tc_inner t)).

(** The part of [flush] under the lock: what is open is closed with the attributes
    it has, and the spans are taken out.  The store's part is [add_spans]. *)
Definition take_spans (t : TrainingTracer) : TrainingTracer * list Span :=
  let inner := tc_inner t in
  let now := clock_at (tc_reads t) in
  let close id := (λ open, close_span t open (os_attributes open) now) <$> (open_spans inner !! id) in
  let closed := omap close (keys_order (map_to_list (open_spans inner)).*1) in
  (set_reads (S (tc_reads t)) (set_inner (mkTracerInner ∅ ∅ [] (next_sequence_id inner)) t),
   sort_by_key sp_sequence_id (completed inner ++ closed)).
End tracer.

(** ** What a tracer goes through *)

Section steps.
Context `{TH : TracerHost}.

(** What those who hold the tracer can do with it, flushing apart. *)
Inductive tracer_step : TrainingTracer → TrainingTracer → Prop :=
| step_operation name t : tracer_step t (operation name t).1
| step_drop span_id t : tracer_step t (drop_guard span_id t)
| step_reward reward t : tracer_step t (emit_reward reward t)
| step_event event t : tracer_step t (on_agent_event event t).

(** The sequence ids of the spans that have not been flushed. *)
Definition pending (i : TrainingTracerInner) : list N :=
  (os_sequence_id <$> (map_to_list (open_spans i)).*2) ++ (sp_sequence_id <$> completed i).

Definition seq_ids (base count : nat) : list N := N.of_nat <$> seq (S base) count.

#[local] Arguments seq_ids : simpl never.

(** A complete span of this tracer. *)
Definition span_fits (t : TrainingTracer) (span : Span) : Prop :=
  sp_rollout_id span = tc_rollout_id t ∧ sp_attempt_id span = tc_attempt_id t ∧
  sp_trace_id span = tc_trace_id t ∧
  ∃ stop, sp_end_time span = Some stop ∧ (sp_start_time span ≤ stop)%Z.

Definition open_fits (t : TrainingTracer) (id : string) (open : OpenSpan) : Prop :=
  os_span_id open = id ∧ (os_start_time open ≤ clock_at (tc_reads t))%Z ∧
  ∃ n, n < tc_reads t ∧ id = next_id "span" n.

(** Since [base], [count] spans were begun; each is open or complete. *)
Record tracer_ok (base count : nat) (t : TrainingTracer) : Prop := mkTracerOk
  { tok_next : next_sequence_id (tc_inner t) = N.of_nat (base + count);
    tok_pending : pending (tc_inner t) ≡ₚ seq_ids base count;
    tok_open : map_Forall (open_fits t) (open_spans (tc_inner t));
    tok_completed : Forall (span_fits t) (completed (tc_inner t)) }.

Context `{!TracerHostLaws TH}.

Lemma next_id_inj prefix n m : next_id prefix n = next_id prefix m → n = m.
Proof.
  intros Heq%(f_equal chars_of). unfold next_id in Heq. rewrite !chars_of_app in Heq.
  change (chars_of "-") with ["-"%char] in Heq. rewrite !(assoc_L (++)) in Heq.
  rewrite <- !(assoc_L (++)) in Heq. rewrite !(assoc_L (++) (chars_of prefix)) in Heq.
  rewrite !(assoc_L (++) (chars_of prefix ++ _)) in Heq.
  assert (∀ k, "-"%char ∉ chars_of (show_u64 k)) as Hdash.
  { intros k Hin. pose proof (show_u64_digits k) as Hd.
    rewrite Forall_forall in Hd. by specialize (Hd _ Hin). }
  apply last_separator_inj in Heq as [_ Heq]; [|apply Hdash..].
  by apply chars_of_inj, (inj show_u64), (inj counter_at) in Heq.
Qed.

Lemma seq_ids_snoc base count :
  seq_ids base (S count) = seq_ids base count ++ [N.of_nat (base + S count)].
Proof. unfold seq_ids. rewrite seq_S, fmap_app. cbn. do 3 f_equal. lia. Qed.

(** The tracer's next sequence id, while there is room. *)
Lemma next_sequence base count t :
  tracer_ok base count t → (N.of_nat (base + S count) ≤ u64_max)%N →
  add_u64 (next_sequence_id (tc_inner t)) 1 = N.of_nat (base + S count).
Proof.
  intros Hok Hroom. rewrite (tok_next _ _ _ Hok), add_u64_small; [lia|]. unfold in_u64. lia.
Qed.

Lemma open_fits_later t t' id open :
  tc_reads t ≤ tc_reads t' → open_fits t id open → open_fits t' id open.
Proof.
  intros Hle (Hid & Hstart & n & Hn & ->). split_and!; [done| |exists n; split; [lia|done]].
  etrans; [done|]. by apply clock_mono.
Qed.

Lemma start_span_ok base count name parent attrs t :
  tracer_ok base count t → (N.of_nat (base + S count) ≤ u64_max)%N →
  tracer_ok base (S count) (start_span name parent attrs t).1.
Proof.
  intros Hok Hroom. unfold start_span. rewrite (next_sequence _ _ _ Hok Hroom).
  destruct Hok as [_ Hpend Hopen Hdone]. cbn.
  assert (open_spans (tc_inner t) !! next_id "span" (tc_reads t) = None) as Hfresh.
  { destruct (open_spans _ !! _) eqn:Ho; [|done]. exfalso.
    destruct (Hopen _ _ Ho) as (_ & _ & n & Hn & Heq%next_id_inj). lia. }
  constructor; cbn; [lia| | |done].
  - rewrite seq_ids_snoc, <- Hpend. unfold pending. cbn.
    rewrite (map_to_list_insert _ _ _ Hfresh). cbn. apply Permutation_cons_append.
  - apply map_Forall_insert_2.
    + split_and!; cbn; [done|apply clock_mono; lia|]. exists (tc_reads t). split; [lia|done].
    + intros id open Ho. eapply open_fits_later; [|by apply Hopen]. cbn. lia.
Qed.

Lemma end_span_ok base count id extra t :
  tracer_ok base count t → tracer_ok base count (end_span id extra t).
Proof.
  intros Hok. unfold end_span. destruct (open_spans (tc_inner t) !! id) as [open|] eqn:Ho; [|done].
  destruct Hok as [Hnext Hpend Hopen Hdone].
  constructor; cbn; [done| | |].
  - rewrite <- Hpend. unfold pending. cbn.
    rewrite <- (map_to_list_delete _ _ _ Ho). cbn. rewrite fmap_app. cbn.
    rewrite (assoc_L (++)). symmetry. apply Permutation_cons_append.
  - apply map_Forall_delete. intros k o Hk. eapply open_fits_later; [|by apply Hopen]. cbn. lia.
  - apply Forall_app. split; [done|]. apply Forall_singleton.
    destruct (Hopen _ _ Ho) as (_ & Hstart & _). split_and!; [done..|]. by eexists.
Qed.

Lemma instant_span_ok base count name attrs t :
  tracer_ok base count t → (N.of_nat (base + S count) ≤ u64_max)%N →
  tracer_ok base (S count) (instant_span name attrs t).
Proof.
  intros Hok Hroom. unfold instant_span. rewrite (next_sequence _ _ _ Hok Hroom).
  destruct Hok as [_ Hpend Hopen Hdone]. constructor; cbn; [lia| | |].
  - rewrite seq_ids_snoc, <- Hpend. unfold pending. cbn. by rewrite fmap_app, (assoc_L (++)).
  - intros id open Ho. eapply open_fits_later; [|by apply Hopen]. cbn. lia.
  - apply Forall_app. split; [done|]. apply Forall_singleton. split_and!; [done..|]. by eexists.
Qed.

Lemma set_managed_ok base count m t :
  tracer_ok base count t → tracer_ok base count (set_inner (set_managed m (tc_inner t)) t).
Proof. by intros []. Qed.

Lemma start_managed_span_ok base count key name attrs t :
  tracer_ok base count t → (N.of_nat (base + S count) ≤ u64_max)%N →
  tracer_ok base (S count) (start_managed_span key name attrs t).
Proof.
  intros Hok Hroom. pose proof (start_span_ok _ _ name None attrs _ Hok Hroom) as Hok'.
  unfold start_managed_span. destruct (start_span name None attrs t) as [t' id].
  by apply set_managed_ok.
Qed.

(** An operation begins one span or none. *)
Definition begins (base count : nat) (t : TrainingTracer) : Prop :=
  tracer_ok base count t ∨ tracer_ok base (S count) t.

Lemma end_managed_span_ok base count key extra t :
  tracer_ok base count t → (N.of_nat (base + S count) ≤ u64_max)%N →
  begins base count (end_managed_span key extra t).
Proof.
  intros Hok Hroom. unfold end_managed_span.
  apply (set_managed_ok _ _ (delete key (managed_keys (tc_inner t)))) in Hok.
  case_match; [left; by apply end_span_ok|right; by apply instant_span_ok].
Qed.

Lemma tracer_step_ok base count t t' :
  tracer_step t t' → tracer_ok base count t → (N.of_nat (base + S count) ≤ u64_max)%N →
  begins base count t'.
Proof.
  intros [name t0|id t0|reward t0|event t0] Hok Hroom.
  - right. by apply start_span_ok.
  - left. by apply end_span_ok.
  - right. by apply instant_span_ok.
  - destruct event; cbn; try (by apply end_managed_span_ok);
      right; by (apply instant_span_ok || apply start_managed_span_ok).
Qed.

Lemma tracer_steps_ok n base count t t' :
  nsteps tracer_step n t t' → tracer_ok base count t →
  (N.of_nat (base + count + n) ≤ u64_max)%N →
  ∃ count', count ≤ count' ≤ count + n ∧ tracer_ok base count' t'.
Proof.
  intros Hs. revert count. induction Hs as [|n t1 t2 t3 Hstep _ IH]; intros count Hok Hroom.
  { exists count. split; [lia|done]. }
  destruct (tracer_step_ok base count _ _ Hstep Hok) as [Hok'|Hok']; [lia| |];
    (destruct (IH _ Hok') as (c & ? & ?); [lia|exists c; split; [lia|done]]).
Qed.

Lemma tracer_new_ok rollout_id attempt_id : tracer_ok 0 0 (tracer_new rollout_id attempt_id).
Proof. constructor; cbn; [done| |apply map_Forall_empty|done]. unfold pending. cbn. by rewrite map_to_list_empty. Qed.

(** A step changes neither the tracer's identity nor a completed span. *)
Definition tracer_grows (t t' : TrainingTracer) : Prop :=
  tc_rollout_id t' = tc_rollout_id t ∧ tc_attempt_id t' = tc_attempt_id t ∧
  tc_trace_id t' = tc_trace_id t ∧
  completed (tc_inner t) `prefix_of` completed (tc_inner t').

#[export] Instance tracer_grows_preorder : PreOrder tracer_grows.
Proof.
  split; [by intros t|]. intros t1 t2 t3 (? & ? & ? & ?) (? & ? & ? & ?).
  split_and!; [congruence..|]. by etrans.
Qed.

Lemma end_span_grows id extra t : tracer_grows t (end_span id extra t).
Proof.
  unfold end_span. case_match; [|done]. split_and!; try done. by apply prefix_app_r.
Qed.

Lemma tracer_step_grows t t' : tracer_step t t' → tracer_grows t t'.
Proof.
  intros [name t0|id t0|reward t0|event t0].
  - by split_and!.
  - apply end_span_grows.
  - split_and!; try done. by apply prefix_app_r.
  - destruct event; cbn; try (split_and!; try done; by apply prefix_app_r);
      unfold end_managed_span; (case_match; [by etrans; [|apply end_span_grows]|]);
      split_and!; try done; by apply prefix_app_r.
Qed.

Lemma tracer_steps_grow n t t' : nsteps tracer_step n t t' → tracer_grows t t'.
Proof.
  induction 1 as [|n t1 t2 t3 Hstep _ IH]; [done|]. etrans; [by apply tracer_step_grows|done].
Qed.

(** ** Flushing *)

Lemma seq_ids_sorted base count : StronglySorted N.le (seq_ids base count).
Proof.
  unfold seq_ids. generalize (S base). induction count as [|count IH]; intros b; cbn; [constructor|].
  constructor; [apply IH|]. apply Forall_fmap, Forall_forall. intros x ?%elem_of_seq. cbn. lia.
Qed.

Lemma sorted_keys (l : list Span) :
  StronglySorted N.le (sp_sequence_id <$> sort_by_key sp_sequence_id l).
Proof.
  by eapply (StronglySorted_fmap _ (key_le sp_sequence_id)); [|apply sort_by_key_sorted].
Qed.

Lemma omap_lookup_all {A B} (m : gmap string A) (f : A → B) (l : list (string * A)) :
  (∀ k x, (k, x) ∈ l → m !! k = Some x) → omap (λ k, f <$> m !! k) l.*1 = f <$> l.*2.
Proof.
  induction l as [|[k x] l IH]; intros Hl; cbn; [done|].
  rewrite (Hl k x) by left. cbn. f_equal. apply IH. intros. apply Hl. by right.
Qed.

(** What [take_spans] returns, up to order. *)
Lemma take_spans_perm t :
  (take_spans t).2 ≡ₚ completed (tc_inner t) ++
    ((λ open, close_span t open (os_attributes open) (clock_at (tc_reads t))) <$>
       (map_to_list (open_spans (tc_inner t))).*2).
Proof.
  unfold take_spans. cbn. rewrite sort_by_key_perm. f_equiv. rewrite keys_order_perm.
  rewrite omap_lookup_all; [done|]. intros k x. by rewrite elem_of_map_to_list.
Qed.

Lemma take_spans_elem t span :
  span ∈ (take_spans t).2 ↔ span ∈ completed (tc_inner t) ∨
    ∃ id open, open_spans (tc_inner t) !! id = Some open ∧
      span = close_span t open (os_attributes open) (clock_at (tc_reads t)).
Proof.
  rewrite take_spans_perm, elem_of_app, list_elem_of_fmap. f_equiv. split.
  - intros (open & -> & ([id ?] & -> & Hin%elem_of_map_to_list)%list_elem_of_fmap). eauto.
  - intros (id & open & Hin%elem_of_map_to_list & ->). exists open. split; [done|].
    apply list_elem_of_fmap. by exists (id, open).
Qed.

Lemma take_spans_ids base count t :
  tracer_ok base count t → sp_sequence_id <$> (take_spans t).2 = seq_ids base count.
Proof.
  intros Hok. apply (StronglySorted_unique N.le).
  - unfold take_spans. cbn. apply sorted_keys.
  - apply seq_ids_sorted.
  - rewrite <- (tok_pending _ _ _ Hok), take_spans_perm. unfold pending.
    rewrite fmap_app, <- list_fmap_compose, (comm (++)). done.
Qed.

Lemma take_spans_fit base count t :
  tracer_ok base count t → Forall (span_fits t) (take_spans t).2.
Proof.
  intros Hok. apply Forall_forall. intros span [Hin|(id & open & Ho & ->)]%take_spans_elem.
  - pose proof (tok_completed _ _ _ Hok) as H. rewrite Forall_forall in H. auto.
  - destruct (tok_open _ _ _ Hok _ _ Ho) as (_ & ? & _). split_and!; [done..|]. by eexists.
Qed.

Lemma take_spans_ok base count t :
  tracer_ok base count t → tracer_ok (base + count) 0 (take_spans t).1.
Proof.
  intros Hok. constructor; cbn; [rewrite (tok_next _ _ _ Hok); lia| |apply map_Forall_empty|done].
  unfold pending. cbn. by rewrite map_to_list_empty.
Qed.

(** Every span of the tracer names its rollout and attempt. *)
Definition tag (span : Span) : string * string := (sp_rollout_id span, sp_attempt_id span).
Definition tagged (t : TrainingTracer) : Prop :=
  Forall (λ span, tag span = (tc_rollout_id t, tc_attempt_id t)) (completed (tc_inner t)).

Lemma tagged_snoc t span : tagged t → tag span = (tc_rollout_id t, tc_attempt_id t) →
  Forall (λ span, tag span = (tc_rollout_id t, tc_attempt_id t)) (completed (tc_inner t) ++ [span]).
Proof. intros. apply Forall_app. split; [done|by apply Forall_singleton]. Qed.

Lemma end_span_tagged id extra t : tagged t → tagged (end_span id extra t).
Proof. intros Ht. unfold end_span. case_match; [by apply (tagged_snoc t)|done]. Qed.

Lemma tagged_step t t' : tracer_step t t' → tagged t → tagged t'.
Proof.
  intros Hstep Ht. destruct Hstep as [name t|id t|reward t|event t]; [done| | |].
  - by apply end_span_tagged.
  - by apply (tagged_snoc t).
  - destruct event; cbn; try done; try (by apply (tagged_snoc t));
      unfold end_managed_span; (case_match; [by apply end_span_tagged|by apply (tagged_snoc t)]).
Qed.

Lemma tagged_steps t t' : rtc tracer_step t t' → tagged t → tagged t'.
Proof. induction 1; [done|]. intros. eauto using tagged_step. Qed.

Lemma tagged_take t : tagged t →
  Forall (λ span, tag span = (tc_rollout_id t, tc_attempt_id t)) (take_spans t).2.
Proof.
  intros Ht. apply Forall_forall. intros span [Hin|(id & open & _ & ->)]%take_spans_elem; [|done].
  unfold tagged in Ht. rewrite Forall_forall in Ht. auto.
Qed.

(** C26: whatever an executor traces, a flush hands over every span that was
    begun exactly once and in the order in which they were begun: the sequence ids
    are those from one on without a gap.  Every span names the tracer's rollout and
    attempt and has ended no earlier than it began; completed spans are handed over
    as they are, open ones with the name and the attributes they were given;
    afterwards nothing is left. *)
Theorem flush_exact rollout_id attempt_id n t :
  nsteps tracer_step n (tracer_new rollout_id attempt_id) t → (N.of_nat n ≤ u64_max)%N →
  let '(t', spans) := take_spans t in
  (∃ count, count ≤ n ∧ sp_sequence_id <$> spans = seq_ids 0 count) ∧
  Forall (span_fits (tracer_new rollout_id attempt_id)) spans ∧
  (∀ span, span ∈ spans ↔ span ∈ completed (tc_inner t) ∨
     ∃ id open, open_spans (tc_inner t) !! id = Some open ∧
       span = close_span t open (os_attributes open) (clock_at (tc_reads t))) ∧
  completed_spans t' = [] ∧ (take_spans t').2 = [].
Proof.
  intros Hs Hroom.
  destruct (tracer_steps_ok n 0 0 _ _ Hs (tracer_new_ok _ _) ltac:(lia)) as (count & Hc & Hok).
  destruct (tracer_steps_grow _ _ _ Hs) as (Hr & Ha & Ht & _).
  pose proof (take_spans_ids _ _ _ (take_spans_ok _ _ _ Hok)) as Hnil.
  pose proof (take_spans_elem t) as Helem. pose proof (take_spans_ids _ _ _ Hok) as Hids.
  pose proof (take_spans_fit _ _ _ Hok) as Hfit.
  assert (completed_spans (take_spans t).1 = []) as Hdone by done.
  destruct (take_spans t) as [t' spans]. cbn in *. split_and!; [|..].
  - exists count. split; [lia|done].
  - eapply Forall_impl; [done|]. intros span (?&?&?&?).
    split_and!; [cbn; congruence..|done].
  - done.
  - done.
  - by apply fmap_nil_inv in Hnil.
Qed.
End steps.

(** ** A concrete host *)

Definition counting_host : TracerHost :=
  {| counter_at := N.of_nat; clock_at := Z.of_nat; keys_order := id |}.

#[export] Instance counting_host_laws : TracerHostLaws counting_host.
Proof. split; cbn; [apply _|lia|done]. Qed.

(** A turn that is not ended and a reward. *)
Definition demo_trace : TrainingTracer :=
  let _ := counting_host in
  emit_reward (mkReward "exact_match" f64_one)
    (on_agent_event (TurnStart 1) (tracer_new "r1" "r1:attempt-1")).

Lemma flush_exact_witness :
  (sp_sequence_id <$> (@take_spans counting_host demo_trace).2) = [1%N; 2%N] ∧
  (sp_name <$> (@take_spans counting_host demo_trace).2) = ["agent.turn.1"; "reward.emit"] ∧
  Forall (span_fits (@tracer_new counting_host "r1" "r1:attempt-1"))
    (@take_spans counting_host demo_trace).2.
Proof.
  split_and!; [vm_compute; reflexivity..|].
  assert (nsteps (@tracer_step counting_host) 2 (@tracer_new counting_host "r1" "r1:attempt-1")
    demo_trace) as Hs.
  { eapply nsteps_l; [apply (step_event (TurnStart 1))|].
    eapply nsteps_l; [apply (step_reward (mkReward "exact_match" f64_one))|constructor]. }
  pose proof (flush_exact "r1" "r1:attempt-1" 2 demo_trace Hs ltac:(vm_compute; discriminate)) as H.
  destruct (take_spans demo_trace) as [t' spans]. apply H.
Defined.
