(* ===== verification/TrainingRunner.v ===== *)
(** * The training runner ([tau-training-runner], [lib.rs])

    A worker that polls the training store, executes what it dequeues under a
    tracer and records the outcome, beside other workers that use the same store.

    An [async fn] of the runner is a [Proc]: a tree whose nodes are the calls of
    the store it awaits, with a continuation for every reply.  Between two nodes any
    number of other tasks may act on the store; [run_proc] runs one task under a
    schedule of what the others do, [RunnerTheorems] runs a pool of them.  A store
    behind [dyn TrainingStore] may also be unavailable: any call may fail with
    [Unavailable] and no effect.  The executor is the interface [RolloutExecutor];
    [TauAgentExecutor] is one, on top of the agent loop. *)

From Stdlib Require Import NArith ZArith Lia.
From Stdlib.Floats Require Import SpecFloat.
From stdpp Require Import base gmap sets strings relations sorting list.
From S2P Require Import Prelude RustStr Messages ChatTypes Safety Effects AgentTools AgentEnv AgentState AgentLoop TrainingTypes TrainingStore TrainingTheorems Json TrainingTracer.

#[local] Open Scope string_scope.
#[local] Open Scope list_scope.
#[local] Open Scope nat_scope.

(** ** Configuration *)

(** [Duration] in nanoseconds *)
Abbreviation Duration := N.
Definition DURATION_MAX : Duration := u64_max * 1000000000 + 999999999.
Definition duration_saturating_mul (d : Duration) (n : N) : Duration := N.min (d * n) DURATION_MAX.
Definition as_millis (d : Duration) : N := d / 1000000.
Definition from_millis (n : N) : Duration := n * 1000000.
Definition from_secs (n : N) : Duration := n * 1000000000.
Definition u128_max : N := 2 ^ 128 - 1.

Record RunnerConfig := mkRunnerConfig
  { worker_id : string; poll_interval : Duration; heartbeat_interval : Duration;
    reassignment_interval : Duration; worker_timeout : Duration;
    transient_error_backoff_initial : Duration; transient_error_backoff_max : Duration }.

Definition runner_config_default : RunnerConfig :=
  mkRunnerConfig "training-worker-1" (from_millis 75) (from_secs 1) (from_millis 250) (from_secs 3)
    (from_millis 25) (from_millis 500).

(** [RunnerConfig::validate] *)
Definition runner_config_validate (c : RunnerConfig) : Result string unit :=
  _ ← bail_if (N.eqb (transient_error_backoff_initial c) 0)
        "transient_error_backoff_initial must be greater than 0";
  _ ← bail_if (N.eqb (transient_error_backoff_max c) 0)
        "transient_error_backoff_max must be greater than 0";
  bail_if (transient_error_backoff_max c <? transient_error_backoff_initial c)%N
    "transient_error_backoff_max must be >= transient_error_backoff_initial".

(** The [for _ in 1..failure_count] loop. *)
Fixpoint retry_delay_loop (rounds : nat) (delay max : Duration) : Duration :=
  match rounds with
  | O => N.min delay max
  | S rounds =>
      let delay := duration_saturating_mul delay 2 in
      if (max <=? delay)%N then max else retry_delay_loop rounds delay max
  end.

Definition compute_poll_retry_delay (failure_count : N) (initial max : Duration) : Duration :=
  retry_delay_loop (N.to_nat failure_count - 1) initial max.

(** ** Calls of the store *)

Inductive StoreCall :=
| EnqueueRollout (rollout : Rollout Value)
| DequeueRollout (worker_id : string)
| UpdateRolloutStatus (rollout_id : string) (status : RolloutStatus)
| AddSpan (span : Span)
| QuerySpans (rollout_id : string) (attempt_id : option string)
| GetLatestResources
| QueryRollouts (query : RolloutQuery)
| RegisterWorker (worker_id : string)
| UpdateWorkerHeartbeat (worker_id : string) (rollout_id attempt_id : option string)
| ReassignTimedOutRollouts (timeout : Duration)
| UpdateAttemptStatus (attempt_id : string) (status : AttemptStatus) (error : option string)
| GetAttempt (attempt_id : string).

Definition reply (c : StoreCall) : Type :=
  match c with
  | DequeueRollout _ => option (DequeuedRollout Value)
  | QuerySpans _ _ => list Span
  | GetLatestResources => option (ResourcesUpdate Value)
  | QueryRollouts _ => list (Rollout Value)
  | RegisterWorker _ => WorkerState
  | ReassignTimedOutRollouts _ => list string
  | GetAttempt _ => option Attempt
  | _ => unit
  end.

(** What a call reads from the clock, and the orders in which it meets hash maps. *)
Record Stamp := mkStamp
  { sm_1 : DateTime; sm_2 : DateTime; sm_3 : DateTime;
    sm_workers : list string; sm_span_keys : list (string * string) }.

Definition run_call (s : StoreInner Value) (m : Stamp) (c : StoreCall)
    : StoreInner Value * Result TrainingStoreError (reply c) :=
  match c with
  | EnqueueRollout rollout => enqueue_rollout s rollout
  | DequeueRollout w => dequeue_rollout s w (sm_1 m) (sm_2 m) (sm_3 m)
  | UpdateRolloutStatus k st => update_rollout_status s k st (sm_1 m)
  | AddSpan span => (add_span s span, Ok tt)
  | QuerySpans k a => (s, Ok (query_spans s k a (sm_span_keys m)))
  | GetLatestResources => (s, Ok (get_latest_resources s))
  | QueryRollouts q => (s, Ok (query_rollouts s q))
  | RegisterWorker w => let '(s, state) := register_worker s w (sm_1 m) in (s, Ok state)
  | UpdateWorkerHeartbeat w k a => update_worker_heartbeat s w k a (sm_1 m)
  | ReassignTimedOutRollouts timeout =>
      reassign_timed_out_rollouts s (sm_workers m) (Z.of_N timeout) (sm_1 m)
  | UpdateAttemptStatus a st e => update_attempt_status s a st e (sm_1 m) (sm_2 m)
  | GetAttempt a => (s, Ok (get_attempt s a))
  end.

Inductive RunnerError :=
| StoreRefused (e : TrainingStoreError)
| Unavailable
| RunnerFailed (message : string)
| Panicked.                        (** a panic, which ends the task *)

(** ** Tasks *)

Inductive Proc (A : Type) :=
| Ret (a : A)
| Call (c : StoreCall) (k : Result RunnerError (reply c) → Proc A).
Arguments Ret {A} a.
Arguments Call {A} c k.

(** A task that may fail, with [?] as its bind. *)
Definition Async (A : Type) : Type := Proc (Result RunnerError A).

#[global] Instance async_ret : MRet Async := λ A a, Ret (Ok a).
Fixpoint async_bind_fix {A B} (f : A → Async B) (m : Async A) : Async B :=
  match m with
  | Ret (Ok a) => f a
  | Ret (Err e) => Ret (Err e)
  | Call c k => Call c (λ r, async_bind_fix f (k r))
  end.
#[global] Instance async_bind : MBind Async := @async_bind_fix.

Definition await (c : StoreCall) : Async (reply c) := Call c (λ r, Ret r).
Definition bail {A} (message : string) : Async A := Ret (Err (RunnerFailed message)).
Arguments Async : simpl never.
(** A failed result as a value. *)
Definition try_async {A} (m : Async A) : Async (Result RunnerError A) :=
  (fix go (m : Async A) : Async (Result RunnerError A) :=
     match m with Ret r => Ret (Ok r) | Call c k => Call c (λ r, go (k r)) end) m.

(** What happens before a call: the operations of others, then the call itself,
    which may find the store unavailable. *)
Record Turn := mkTurn
  { tn_others : list (StoreOp (Value := Value)); tn_stamp : Stamp; tn_unavailable : bool }.

Definition others_act (turn : Turn) (s : StoreInner Value) : StoreInner Value :=
  foldl run_store_op s (tn_others turn).

Definition answer (turn : Turn) (s : StoreInner Value) (c : StoreCall)
    : StoreInner Value * Result RunnerError (reply c) :=
  let s := others_act turn s in
  if tn_unavailable turn then (s, Err Unavailable)
  else let '(s, r) := run_call s (tn_stamp turn) c in (s, map_err StoreRefused r).

(** One task under a schedule, from its [n]-th turn on. *)
Fixpoint run_proc {A} (schedule : nat → Turn) (p : Proc A) (sn : StoreInner Value * nat)
    : A * (StoreInner Value * nat) :=
  match p with
  | Ret a => (a, sn)
  | Call c k =>
      let '(s, r) := answer (schedule sn.2) sn.1 c in
      run_proc schedule (k r) (s, S sn.2)
  end.

(** ** Persistence audits *)

Record AttemptPersistenceAudit := mkAttemptAudit
  { aa_attempt_id : string; aa_status : option AttemptStatus; aa_span_count : nat }.

Record RolloutPersistenceAuditReport := mkAuditReport
  { ar_rollout_id : string; ar_rollout_status : RolloutStatus; ar_expected_attempt_count : N;
    ar_attempts : list AttemptPersistenceAudit; ar_gap_reasons : list string;
    ar_has_persistence_gaps : bool }.

(** [RolloutQuery { ids: Some(ids), ..default }] *)
Definition ids_query (ids : list string) : RolloutQuery := mkQuery None None (Some ids) None 0.

(** The gap an attempt shows, if any. *)
Definition audit_gap (attempt_id : string) (attempt : option Attempt) (spans : list Span)
    : list string :=
  match attempt with
  | None => ["missing attempt record: " +:+ attempt_id]
  | Some a =>
      if attempt_is_terminal (at_status a) && bool_decide (spans = [])
      then ["missing terminal attempt spans: " +:+ attempt_id] else []
  end.

(** The loop over the attempt numbers [1..=attempt_count]. *)
Fixpoint audit_attempts (rollout_id : string) (numbers : list N)
    (attempts : list AttemptPersistenceAudit) (gap_reasons : list string)
    : Async (list AttemptPersistenceAudit * list string) :=
  match numbers with
  | [] => mret (attempts, gap_reasons)
  | attempt_sequence :: numbers =>
      let attempt_id := attempt_id_of rollout_id attempt_sequence in
      attempt ← await (GetAttempt attempt_id);
      spans ← await (QuerySpans rollout_id (Some attempt_id));
      audit_attempts rollout_id numbers
        (attempts ++ [mkAttemptAudit attempt_id (at_status <$> attempt) (length spans)])
        (gap_reasons ++ audit_gap attempt_id attempt spans)
  end.

Definition attempt_numbers (attempt_count : N) : list N :=
  N.of_nat <$> seq 1 (N.to_nat attempt_count).

Definition audit_rollout_persistence (rollout_id : string) : Async RolloutPersistenceAuditReport :=
  rollouts ← await (QueryRollouts (ids_query [rollout_id]));
  match rollouts with
  | [] => bail ("rollout '" +:+ rollout_id +:+ "' not found for persistence audit")
  | rollout :: _ =>
      found ← audit_attempts rollout_id (attempt_numbers (ro_attempt_count rollout)) [] [];
      let '(attempts, gap_reasons) := found in
      mret (mkAuditReport rollout_id (ro_status rollout) (ro_attempt_count rollout) attempts
              gap_reasons (negb (bool_decide (gap_reasons = []))))
  end.

Record CollectorStatusTotals := mkTotals
  { ct_queuing : nat; ct_preparing : nat; ct_running : nat; ct_failed : nat; ct_succeeded : nat;
    ct_cancelled : nat; ct_requeuing : nat }.
Definition totals_default : CollectorStatusTotals := mkTotals 0 0 0 0 0 0 0.

Definition count_status (t : CollectorStatusTotals) (status : RolloutStatus)
    : CollectorStatusTotals :=
  let '(mkTotals q p r f s c u) := t in
  match status with
  | Queuing => mkTotals (S q) p r f s c u
  | Preparing => mkTotals q (S p) r f s c u
  | Running => mkTotals q p (S r) f s c u
  | Failed => mkTotals q p r (S f) s c u
  | Succeeded => mkTotals q p r f (S s) c u
  | Cancelled => mkTotals q p r f s (S c) u
  | Requeuing => mkTotals q p r f s c (S u)
  end.

Record CollectorPersistenceProof := mkProof
  { cp_proof_version : N; cp_rollout_ids : list string; cp_status_totals : CollectorStatusTotals;
    cp_total_rollouts : nat; cp_total_attempts : nat; cp_total_spans : nat;
    cp_has_persistence_gaps : bool; cp_gap_reasons : list string;
    cp_rollouts : list RolloutPersistenceAuditReport }.

Definition PROOF_SCHEMA_VERSION_V1 : N := 1.

(** What the loop of [build_collector_persistence_proof] accumulates. *)
Record ProofSums := mkSums
  { su_totals : CollectorStatusTotals; su_attempts : nat; su_spans : nat;
    su_gaps : list string; su_reports : list RolloutPersistenceAuditReport }.

Definition report_spans (report : RolloutPersistenceAuditReport) : nat :=
  sum_list (aa_span_count <$> ar_attempts report).

Definition add_report (sums : ProofSums) (report : RolloutPersistenceAuditReport) : ProofSums :=
  mkSums (count_status (su_totals sums) (ar_rollout_status report))
    (su_attempts sums + length (ar_attempts report)) (su_spans sums + report_spans report)
    (su_gaps sums ++ ar_gap_reasons report) (su_reports sums ++ [report]).

Fixpoint proof_loop (rollout_ids : list string) (sums : ProofSums) : Async ProofSums :=
  match rollout_ids with
  | [] => mret sums
  | rollout_id :: rest =>
      report ← audit_rollout_persistence rollout_id;
      proof_loop rest (add_report sums report)
  end.

Definition build_collector_persistence_proof (rollout_ids : list string)
    : Async CollectorPersistenceProof :=
  let normalized := btree_set rollout_ids in
  sums ← proof_loop normalized (mkSums totals_default 0 0 [] []);
  mret (mkProof PROOF_SCHEMA_VERSION_V1 normalized (su_totals sums) (length (su_reports sums))
          (su_attempts sums) (su_spans sums) (negb (bool_decide (su_gaps sums = []))) (su_gaps sums)
          (su_reports sums)).

Definition rollout_status_name (status : RolloutStatus) : string :=
  match status with
  | Queuing => "queuing" | Preparing => "preparing" | Running => "running" | Failed => "failed"
  | Succeeded => "succeeded" | Cancelled => "cancelled" | Requeuing => "requeuing"
  end.

Definition attempt_status_name (status : AttemptStatus) : string :=
  match status with
  | AttemptPreparing => "preparing" | AttemptRunning => "running" | AttemptFailed => "failed"
  | AttemptSucceeded => "succeeded" | AttemptUnresponsive => "unresponsive"
  | AttemptTimeout => "timeout"
  end.

Definition attempt_audit_json (a : AttemptPersistenceAudit) : Value :=
  json_obj [("attempt_id", Str (aa_attempt_id a));
            ("status", json_option (λ st, Str (attempt_status_name st)) (aa_status a));
            ("span_count", json_usize (aa_span_count a))].

Definition audit_report_json (r : RolloutPersistenceAuditReport) : Value :=
  json_obj [("rollout_id", Str (ar_rollout_id r));
            ("rollout_status", Str (rollout_status_name (ar_rollout_status r)));
            ("expected_attempt_count", Num (PosInt (ar_expected_attempt_count r)));
            ("has_persistence_gaps", Bool (ar_has_persistence_gaps r));
            ("gap_reasons", json_strings (ar_gap_reasons r));
            ("attempts", Arr (attempt_audit_json <$> ar_attempts r))].

Definition to_artifact_json (p : CollectorPersistenceProof) : Value :=
  let t := cp_status_totals p in
  json_obj [("schema_version", Num (PosInt (cp_proof_version p)));
            ("rollout_ids", json_strings (cp_rollout_ids p));
            ("status_totals", json_obj
               [("queuing", json_usize (ct_queuing t)); ("preparing", json_usize (ct_preparing t));
                ("running", json_usize (ct_running t)); ("failed", json_usize (ct_failed t));
                ("succeeded", json_usize (ct_succeeded t));
                ("cancelled", json_usize (ct_cancelled t));
                ("requeuing", json_usize (ct_requeuing t))]);
            ("total_rollouts", json_usize (cp_total_rollouts p));
            ("total_attempts", json_usize (cp_total_attempts p));
            ("total_spans", json_usize (cp_total_spans p));
            ("has_persistence_gaps", Bool (cp_has_persistence_gaps p));
            ("gap_reasons", json_strings (cp_gap_reasons p));
            ("rollouts", Arr (audit_report_json <$> cp_rollouts p))].

(** ** Safety rewards *)

Record SafetyRewardPolicy := mkRewardPolicy
  { blocked_penalty : f64; default_reason_code_penalty : f64; prompt_injection_penalty : f64;
    secret_leak_penalty : f64; reason_code_penalties : gmap string f64;
    hard_gate_reason_codes : gset string; hard_gate_reason_prefixes : list string;
    hard_gate_reward_ceiling : f64; hard_gate_penalty : f64;
    blocked_event_triggers_hard_gate : bool; reject_rollout_on_hard_gate : bool }.

Definition f64_quarter : f64 := S754_finite false 4503599627370496 (-54).
Definition f64_one_and_half : f64 := S754_finite false 6755399441055744 (-52).

Definition reward_policy_default : SafetyRewardPolicy :=
  mkRewardPolicy f64_one f64_quarter f64_one f64_one_and_half ∅
    {["prompt_injection.system_prompt_exfiltration"; "secret_leak.redaction_failed"]}
    ["secret_leak."] f64_zero f64_one true false.

(** [x < 0.0] and [x > 0.0] *)
Definition f64_negative (x : f64) : bool := SFltb x f64_zero.
Definition f64_positive (x : f64) : bool := SFltb f64_zero x.

Definition ensure_non_negative_finite (value : f64) (field_name : string) : Result string unit :=
  bail_if (negb (f64_is_finite value) || f64_negative value)
    (field_name +:+ " must be finite and non-negative").

(** The maps of penalties and prefixes are checked entry by entry. *)
Fixpoint check_penalties (l : list (string * f64)) : Result string unit :=
  match l with
  | [] => Ok tt
  | (reason_code, penalty) :: rest =>
      _ ← bail_if (negb (f64_is_finite penalty) || f64_negative penalty)
            ("reason_code_penalties[" +:+ reason_code +:+ "] must be finite and non-negative");
      check_penalties rest
  end.
Fixpoint check_prefixes (l : list string) : Result string unit :=
  match l with
  | [] => Ok tt
  | prefix :: rest =>
      _ ← bail_if (is_empty (trim prefix)) "hard_gate_reason_prefixes cannot include empty values";
      check_prefixes rest
  end.

(** [SafetyRewardPolicy::validate]; [order] is how the map of penalties is met. *)
Definition reward_policy_validate (order : gmap string f64 → list (string * f64))
    (p : SafetyRewardPolicy) : Result string unit :=
  _ ← ensure_non_negative_finite (blocked_penalty p) "blocked_penalty";
  _ ← ensure_non_negative_finite (default_reason_code_penalty p) "default_reason_code_penalty";
  _ ← ensure_non_negative_finite (prompt_injection_penalty p) "prompt_injection_penalty";
  _ ← ensure_non_negative_finite (secret_leak_penalty p) "secret_leak_penalty";
  _ ← ensure_non_negative_finite (hard_gate_penalty p) "hard_gate_penalty";
  _ ← bail_if (negb (f64_is_finite (hard_gate_reward_ceiling p))
               || f64_positive (hard_gate_reward_ceiling p))
        "hard_gate_reward_ceiling must be finite and <= 0";
  _ ← check_penalties (order (reason_code_penalties p));
  check_prefixes (hard_gate_reason_prefixes p).

Definition penalty_for_reason_code (p : SafetyRewardPolicy) (reason_code : string) : f64 :=
  match reason_code_penalties p !! reason_code with
  | Some penalty => penalty
  | None =>
      if starts_with "prompt_injection." reason_code then prompt_injection_penalty p
      else if starts_with "secret_leak." reason_code then secret_leak_penalty p
      else default_reason_code_penalty p
  end.

Definition is_hard_gate_reason_code (p : SafetyRewardPolicy) (reason_code : string) : bool :=
  bool_decide (reason_code ∈ hard_gate_reason_codes p)
  || existsb (λ prefix, starts_with prefix reason_code) (hard_gate_reason_prefixes p).

Record SafetySignalSummary := mkSignals { ss_blocked_events : nat; ss_reason_codes : list string }.
Record SafetyRewardDecision := mkDecision
  { rd_penalty_total : f64; rd_hard_gate_triggered : bool; rd_blocked_events : nat;
    rd_triggered_reason_codes : list string }.
Definition decision_default : SafetyRewardDecision := mkDecision f64_zero false 0 [].

Definition parse_reason_codes (value : option Value) : list string :=
  match value ≫= as_array with Some items => omap Json.as_str items | None => [] end.

Definition is_safety_span (span : Span) : bool :=
  String.eqb (sp_name span) "agent.safety_policy_applied".
Definition span_blocked (span : Span) : bool :=
  default false ((sp_attributes span !! "blocked") ≫= as_bool).

Definition summarize_safety_signals (spans : list Span) : SafetySignalSummary :=
  let spans := List.filter is_safety_span spans in
  mkSignals (length (List.filter span_blocked spans))
    (btree_set (concat ((λ span, parse_reason_codes (sp_attributes span !! "reason_codes"))
                          <$> spans))).

(** [Iterator::sum::<f64>] *)
Definition f64_sum (l : list f64) : f64 := foldl f64_add f64_zero l.

(** What the hard gate does to one reward. *)
Definition clamp_reward (ceiling : f64) (reward : Reward) : Reward :=
  if SFltb ceiling (rw_value reward) then mkReward (rw_name reward) ceiling else reward.

Definition apply_safety_reward_policy (order : gmap string f64 → list (string * f64))
    (rewards : list Reward) (spans : list Span) (policy : SafetyRewardPolicy)
    : Result string (list Reward * SafetyRewardDecision) :=
  _ ← reward_policy_validate order policy;
  let summary := summarize_safety_signals spans in
  if (ss_blocked_events summary =? 0) && bool_decide (ss_reason_codes summary = [])
  then Ok (rewards, decision_default)
  else
    let from_reasons := f64_sum (penalty_for_reason_code policy <$> ss_reason_codes summary) in
    let penalty_total :=
      f64_add from_reasons
        (f64_mul (f64_of_N (N.of_nat (ss_blocked_events summary))) (blocked_penalty policy)) in
    let rewards :=
      if f64_positive penalty_total
      then rewards ++ [mkReward "safety.penalty_total" (SFopp penalty_total)] else rewards in
    let hard_gate_triggered :=
      (blocked_event_triggers_hard_gate policy && (0 <? ss_blocked_events summary))
      || existsb (is_hard_gate_reason_code policy) (ss_reason_codes summary) in
    let rewards :=
      if hard_gate_triggered then
        (clamp_reward (hard_gate_reward_ceiling policy) <$> rewards) ++
        (if f64_positive (hard_gate_penalty policy)
         then [mkReward "safety.hard_gate_penalty" (SFopp (hard_gate_penalty policy))] else []) ++
        [mkReward "safety.hard_gate_triggered" f64_zero]
      else rewards in
    Ok (rewards, mkDecision penalty_total hard_gate_triggered (ss_blocked_events summary)
                   (ss_reason_codes summary)).

(** ** Executors *)

Record RolloutExecutionOutcome := mkOutcome { xo_output : Value; xo_rewards : list Reward }.
Definition rollout_outcome_default : RolloutExecutionOutcome := mkOutcome Null [].

(** What executes a rollout's input, tracing as it goes; an error is its text. *)
Class RolloutExecutor := {
  execute : Rollout Value → option (ResourcesUpdate Value) → TrainingTracer →
    TrainingTracer * Result string RolloutExecutionOutcome }.

(** An executor works on the tracer through its operations only. *)
Class RolloutExecutorLaws `{TH : TracerHost} (RX : RolloutExecutor) := {
  execute_traces rollout resources t :
    rtc tracer_step t (execute rollout resources t).1 }.

(** How many heartbeats the background task sends while an attempt is executed. *)
Class RunnerHost := { beats : DequeuedRollout Value → nat }.

(** ** The runner *)

Section runner.
Context `{TH : TracerHost} `{RH : RunnerHost} `{RX : RolloutExecutor}.
Implicit Types c : RunnerConfig.

Definition heartbeat c (rollout_id attempt_id : option string) : Async unit :=
  await (UpdateWorkerHeartbeat (worker_id c) rollout_id attempt_id).

Definition attempt_is_still_running (attempt_id : string) : Async bool :=
  attempt ← await (GetAttempt attempt_id);
  mret (match attempt with Some a => bool_decide (at_status a = AttemptRunning) | None => false end).

(** The heartbeat task: it ends at the first call that fails. *)
Fixpoint heartbeat_task (n : nat) c (rollout_id attempt_id : string) : Async unit :=
  match n with
  | O => mret tt
  | S n =>
      _ ← heartbeat c (Some rollout_id) (Some attempt_id);
      heartbeat_task n c rollout_id attempt_id
  end.

(** [TrainingStore::add_spans] *)
Fixpoint add_spans_async (spans : list Span) : Async unit :=
  match spans with
  | [] => mret tt
  | span :: rest => _ ← await (AddSpan span); add_spans_async rest
  end.

(** [TrainingTracer::flush] *)
Definition flush (t : TrainingTracer) : Async nat :=
  let '(_, spans) := take_spans t in
  match spans with
  | [] => mret 0
  | _ => _ ← add_spans_async spans; mret (length spans)
  end.

(** The rewards a run is closed with. *)
Definition outcome_rewards (result : Result string RolloutExecutionOutcome) : list Reward :=
  match result with
  | Ok outcome =>
      xo_rewards outcome ++
      [mkReward "runner.execution_success"
         (match xo_output outcome with Null => f64_zero | _ => f64_one end)]
  | Err _ => [mkReward "runner.execution_success" f64_zero]
  end.

Definition retry_rewards (poll_failure_count poll_backoff_accumulated_ms : N) : list Reward :=
  if (0 <? poll_failure_count)%N then
    [mkReward "runner.poll_retry_failures_before_rollout" (f64_of_N poll_failure_count);
     mkReward "runner.poll_retry_backoff_ms_before_rollout" (f64_of_N poll_backoff_accumulated_ms)]
  else [].

Definition emit_rewards (rewards : list Reward) (t : TrainingTracer) : TrainingTracer :=
  foldl (λ t reward, emit_reward reward t) t rewards.

(** The traced execution: a span around it, then the rewards. *)
Definition execute_traced (item : DequeuedRollout Value)
    (resources : option (ResourcesUpdate Value)) (poll_failure_count backoff_ms : N)
    : TrainingTracer * Result string RolloutExecutionOutcome :=
  let t := tracer_new (ro_id (dq_rollout item)) (at_id (dq_attempt item)) in
  let '(t, guard) := operation "runner.execute_rollout" t in
  let '(t, result) := execute (dq_rollout item) resources t in
  let t := drop_guard guard t in
  (emit_rewards (outcome_rewards result ++ retry_rewards poll_failure_count backoff_ms) t, result).

(** The two updates that record the outcome, in this order. *)
Definition record_result (item : DequeuedRollout Value)
    (result : Result string RolloutExecutionOutcome) : Async unit :=
  let attempt_id := at_id (dq_attempt item) in
  let rollout_id := ro_id (dq_rollout item) in
  match result with
  | Ok _ =>
      _ ← await (UpdateAttemptStatus attempt_id AttemptSucceeded None);
      await (UpdateRolloutStatus rollout_id Succeeded)
  | Err error =>
      _ ← await (UpdateAttemptStatus attempt_id AttemptFailed (Some error));
      await (UpdateRolloutStatus rollout_id Failed)
  end.

Definition process_dequeued c (item : DequeuedRollout Value)
    (poll_failure_count poll_backoff_accumulated_ms : N) : Async unit :=
  let rollout_id := ro_id (dq_rollout item) in
  let attempt_id := at_id (dq_attempt item) in
  _ ← heartbeat c (Some rollout_id) (Some attempt_id);
  resources ← await GetLatestResources;
  let '(t, result) :=
    execute_traced item resources poll_failure_count poll_backoff_accumulated_ms in
  _ ← heartbeat_task (beats item) c rollout_id attempt_id;
  _ ← flush t;
  running ← attempt_is_still_running attempt_id;
  if running : bool then
    _ ← record_result item result;
    heartbeat c None None
  else heartbeat c None None.

Definition process_once c (poll_failure_count poll_backoff_accumulated_ms : N) : Async unit :=
  item ← await (DequeueRollout (worker_id c));
  match item with
  | None => mret tt
  | Some item => process_dequeued c item poll_failure_count poll_backoff_accumulated_ms
  end.

(** What wakes the [select!] of the worker loop. *)
Inductive LoopEvent :=
| ShutdownChanged (changed_ok value : bool)
| HeartbeatTick
| PollTick
| ReassignmentTick.

(** The loop over the events that arrive, with the failures in a row and the time
    slept for them; [false] when the events end before the shutdown. *)
Fixpoint run_events c (events : list LoopEvent)
    (poll_failure_count poll_backoff_accumulated_ms : N) : Async bool :=
  match events with
  | [] => mret false
  | ShutdownChanged changed_ok value :: events =>
      if (changed_ok && value) || negb changed_ok then mret true
      else run_events c events poll_failure_count poll_backoff_accumulated_ms
  | HeartbeatTick :: events =>
      _ ← heartbeat c None None;
      run_events c events poll_failure_count poll_backoff_accumulated_ms
  | PollTick :: events =>
      outcome ← try_async (process_once c poll_failure_count poll_backoff_accumulated_ms);
      match outcome with
      | Ok _ => run_events c events 0 0
      | Err _ =>
          let poll_failure_count := saturating_add_u32 poll_failure_count 1 in
          let delay :=
            compute_poll_retry_delay poll_failure_count (transient_error_backoff_initial c)
              (transient_error_backoff_max c) in
          run_events c events poll_failure_count
            (N.min (poll_backoff_accumulated_ms + as_millis delay) u128_max)
      end
  | ReassignmentTick :: events =>
      _ ← await (ReassignTimedOutRollouts (worker_timeout c));
      run_events c events poll_failure_count poll_backoff_accumulated_ms
  end.

Definition run c (events : list LoopEvent) : Async bool :=
  _ ← await (RegisterWorker (worker_id c));
  run_events c events 0 0.

(** [TrainingRunner::new] panics on an invalid configuration. *)
Definition runner_new c : option RunnerConfig :=
  match runner_config_validate c with Ok _ => Some c | Err _ => None end.
End runner.

(** ** The agent as an executor *)

Definition default_prompt_extractor (input : Value) : Result string string :=
  match Json.as_str input with
  | Some text => Ok text
  | None =>
      match value_get "prompt" input ≫= Json.as_str with
      | Some prompt => Ok prompt
      | None => Err "rollout input must be a string or object with a string 'prompt' field"
      end
  end.

(** The text of errors and lists of strings ([Display] and [Debug]). *)
Class ErrorText := {
  agent_error_text : AgentError → string;
  debug_strings : list string → string }.

Section agent_executor.
Context `{TH : TracerHost} `{JC : JsonCodec} `{JS : JsonSchema} `{AE : AgentEnv} `{ET : ErrorText}.

(** The factory gives the agent and the system around it. *)
Record TauAgentExecutor := mkAgentExecutor
  { agent_factory : option (ResourcesUpdate Value) → St;
    prompt_extractor : Value → Result string string;
    safety_reward_policy : SafetyRewardPolicy }.

Definition agent_executor_new (factory : option (ResourcesUpdate Value) → St) : TauAgentExecutor :=
  mkAgentExecutor factory default_prompt_extractor reward_policy_default.
Definition with_prompt_extractor (f : Value → Result string string) (x : TauAgentExecutor)
    : TauAgentExecutor := mkAgentExecutor (agent_factory x) f (safety_reward_policy x).
Definition with_safety_reward_policy (order : gmap string f64 → list (string * f64))
    (policy : SafetyRewardPolicy) (x : TauAgentExecutor) : Result string TauAgentExecutor :=
  _ ← reward_policy_validate order policy;
  Ok (mkAgentExecutor (agent_factory x) (prompt_extractor x) policy).

(** The text of the last assistant message. *)
Definition last_assistant_text (messages : list (Message Value)) : string :=
  default "" (text_content <$>
    List.find (λ m, bool_decide (msg_role m = Assistant)) (reverse messages)).

Definition exact_match_rewards (input : Value) (assistant_text : string) : list Reward :=
  match value_get "expected" input ≫= Json.as_str with
  | Some expected =>
      [mkReward "exact_match"
         (if String.eqb (trim assistant_text) (trim expected) then f64_one else f64_zero)]
  | None => []
  end.

Definition outcome_json (assistant_text : string) (message_count : nat) (d : SafetyRewardDecision)
    : Value :=
  json_obj
    [("assistant_text", Str assistant_text); ("message_count", json_usize message_count);
     ("safety", json_obj
        [("penalty_total", json_f64 (rd_penalty_total d));
         ("hard_gate_triggered", Bool (rd_hard_gate_triggered d));
         ("blocked_events", json_usize (rd_blocked_events d));
         ("reason_codes", json_strings (rd_triggered_reason_codes d))])].

(** The agent's events go to the tracer as they are emitted. *)
Definition agent_execute (order : gmap string f64 → list (string * f64)) (x : TauAgentExecutor)
    (rollout : Rollout Value) (resources : option (ResourcesUpdate Value)) (t : TrainingTracer)
    : TrainingTracer * Result string RolloutExecutionOutcome :=
  let st := agent_factory x resources in
  match prompt_extractor x (ro_input rollout) with
  | Err e => (t, Err e)
  | Ok text =>
      let '(outcome, (_, sys)) := prompt text st in
      let events := drop (length (sys_events st.2)) (sys_events sys) in
      let t := foldl (λ t event, on_agent_event event t) t events in
      match outcome with
      | Err e => (t, Err (agent_error_text e))
      | Ok messages =>
          let assistant_text := last_assistant_text messages in
          let rewards := exact_match_rewards (ro_input rollout) assistant_text in
          match apply_safety_reward_policy order rewards (completed_spans t)
                  (safety_reward_policy x) with
          | Err e => (t, Err e)
          | Ok (rewards, decision) =>
              if rd_hard_gate_triggered decision
                 && reject_rollout_on_hard_gate (safety_reward_policy x)
              then (t, Err ("safety hard gate triggered: reason_codes=" +:+
                            debug_strings (rd_triggered_reason_codes decision)))
              else (t, Ok (mkOutcome (outcome_json assistant_text (length messages) decision)
                             rewards))
          end
      end
  end.

Definition agent_executor (order : gmap string f64 → list (string * f64)) (x : TauAgentExecutor)
    : RolloutExecutor := {| execute := agent_execute order x |}.

#[export] Instance agent_executor_laws order x : RolloutExecutorLaws (agent_executor order x).
Proof.
  split. intros rollout resources t. cbn. unfold agent_execute.
  destruct (prompt_extractor _ _); [|done].
  destruct (prompt _ _) as [outcome [worker sys]].
  set (events := drop _ _).
  assert (∀ t, rtc tracer_step t (foldl (λ t event, on_agent_event event t) t events)) as Hs.
  { clear t. induction events as [|event events IH]; intros t; cbn; [done|].
    eapply rtc_l; [apply step_event|apply IH]. }
  repeat case_match; apply Hs.
Qed.
End agent_executor.
