(* ===== verification/RunnerTheorems.v ===== *)
(** * Theorems on the training runner

    A pool of runners, clients and crashes on one store: every rollout gets its
    verdict from exactly one attempt.  Further: the retry delays, the spans a run
    records, the safety gate, the persistence audit, and where the runner leaves
    work behind. *)

From Stdlib Require Import NArith ZArith Lia.
From Stdlib.Floats Require Import SpecFloat.
From stdpp Require Import base gmap sets strings relations sorting list.
From S2P Require Import Prelude RustStr Safety AgentEnv TrainingTypes TrainingStore TrainingInvariant TrainingTheorems Json TrainingTracer TrainingRunner.

#[local] Open Scope string_scope.
#[local] Open Scope list_scope.
#[local] Open Scope nat_scope.

(** ** Verdicts *)

(** Statuses of rollouts, and rollout and status of attempts. *)
Abbreviation RolloutView := (gmap string RolloutStatus).
Abbreviation AttemptView := (gmap string (string * AttemptStatus)).

Definition rollout_view (s : StoreInner Value) : RolloutView := ro_status <$> rollouts s.
Definition attempt_view (s : StoreInner Value) : AttemptView :=
  (λ a, (at_rollout_id a, at_status a)) <$> attempts s.

(** The status of the attempt that decides a rollout with this status. *)
Definition verdict_of (st : RolloutStatus) : option AttemptStatus :=
  match st with Succeeded => Some AttemptSucceeded | Failed => Some AttemptFailed | _ => None end.
Definition is_verdict (st : AttemptStatus) : Prop := st = AttemptSucceeded ∨ st = AttemptFailed.

Definition busy (A : AttemptView) (k : string) : Prop := ∃ j, A !! j = Some (k, AttemptRunning).

(** A running attempt is of a rollout that runs or was cancelled; an attempt with a
    verdict is the only one of its rollout, none of its rollout runs any more, and
    the rollout has that verdict or has not got it yet; a rollout with a verdict has
    it from an attempt. *)
Record completion (R : RolloutView) (A : AttemptView) : Prop := mkCompletion
  { co_running : ∀ j k, A !! j = Some (k, AttemptRunning) →
      R !! k = Some Running ∨ R !! k = Some Cancelled;
    co_verdict : ∀ j k v, A !! j = Some (k, v) → is_verdict v →
      ¬ busy A k ∧ ∃ st, R !! k = Some st ∧ (st = Running ∨ st = Cancelled ∨ verdict_of st = Some v);
    co_once : ∀ j j' k v v', A !! j = Some (k, v) → A !! j' = Some (k, v') →
      is_verdict v → is_verdict v' → j = j';
    co_rollout : ∀ k st v, R !! k = Some st → verdict_of st = Some v →
      ∃ j, A !! j = Some (k, v) }.

Section ledger.
Implicit Types (R : RolloutView) (A : AttemptView).

Lemma completion_enqueue R A k :
  completion R A → R !! k = None → (∀ j v, A !! j ≠ Some (k, v)) →
  completion (<[k := Queuing]> R) A.
Proof.
  intros [] Hk Hno. constructor.
  - intros j k' Hj. rewrite lookup_insert_ne by (intros <-; by eapply Hno). eauto.
  - intros j k' v Hj Hv. rewrite lookup_insert_ne by (intros <-; by eapply Hno). eauto.
  - done.
  - intros k' st v [[<- <-]|[_ ?]]%lookup_insert_Some ?; [done|eauto].
Qed.

Lemma completion_start R A k j st :
  completion R A → R !! k = Some st → is_waiting st = true → A !! j = None →
  completion (<[k := Running]> R) (<[j := (k, AttemptRunning)]> A).
Proof.
  intros [] Hk Hw Hj.
  assert (∀ i v, A !! i = Some (k, v) → ¬ is_verdict v) as Hno.
  { intros i v Hi Hv. destruct (co_verdict0 i k v Hi Hv) as (_ & st' & Hst & Hcase).
    assert (st' = st) as -> by congruence. by destruct st, Hcase as [?|[?|?]]. }
  constructor.
  - intros i k' [[<- [= <-]]|[_ Hi]]%lookup_insert_Some; [left; by rewrite lookup_insert_eq|].
    destruct (decide (k = k')) as [->|]; [left; by rewrite lookup_insert_eq|].
    rewrite lookup_insert_ne by done. eauto.
  - intros i k' v [[<- [= <- <-]]|[Hne Hi]]%lookup_insert_Some Hv; [by destruct Hv|].
    assert (k ≠ k') as Hkk by (intros <-; by eapply Hno).
    destruct (co_verdict0 i k' v Hi Hv) as [Hb Hst]. split.
    + intros [i' [[_ [= ?]]|[_ Hi']]%lookup_insert_Some]; [done|]. apply Hb. by exists i'.
    + by rewrite lookup_insert_ne.
  - intros i i' k' v v' [[<- ?]|[Hne Hi]]%lookup_insert_Some
      [[<- ?]|[Hne' Hi']]%lookup_insert_Some Hv Hv'; simplify_eq;
      [done|by destruct Hv|by destruct Hv'|eauto].
  - intros k' st' v [[<- <-]|[Hne Hk']]%lookup_insert_Some Hv; [done|].
    destruct (co_rollout0 k' st' v Hk' Hv) as [i Hi]. exists i.
    rewrite lookup_insert_ne; [done|]. congruence.
Qed.

Lemma completion_cancel R A k : completion R A → completion (<[k := Cancelled]> R) A.
Proof.
  intros []. constructor.
  - intros j k' Hj. destruct (decide (k = k')) as [->|]; [right; by rewrite lookup_insert_eq|].
    rewrite lookup_insert_ne by done. eauto.
  - intros j k' v Hj Hv. destruct (co_verdict0 _ _ _ Hj Hv) as (Hb & st & Hst & Hc). split; [done|].
    destruct (decide (k = k')) as [->|]; [exists Cancelled; rewrite lookup_insert_eq; auto|].
    exists st. by rewrite lookup_insert_ne.
  - done.
  - intros k' st v [[<- <-]|[_ ?]]%lookup_insert_Some ?; [done|eauto].
Qed.

(** The rollout takes over the verdict of its attempt. *)
Lemma completion_record R A k st v j :
  completion R A → verdict_of st = Some v → A !! j = Some (k, v) → completion (<[k := st]> R) A.
Proof.
  intros [] Hst Hj. assert (is_verdict v) as Hv by (unfold is_verdict; destruct st; naive_solver).
  destruct (co_verdict0 _ _ _ Hj Hv) as (Hb & _). constructor.
  - intros i k' Hi. rewrite lookup_insert_ne; [eauto|]. intros <-. apply Hb. by exists i.
  - intros i k' v' Hi Hv'. destruct (co_verdict0 _ _ _ Hi Hv') as (Hb' & st' & Hst' & Hc).
    split; [done|]. destruct (decide (k = k')) as [<-|]; [|exists st'; by rewrite lookup_insert_ne].
    exists st. rewrite lookup_insert_eq. split; [done|]. right; right.
    assert (i = j) as -> by eauto. congruence.
  - done.
  - intros k' st' v' [[<- <-]|[_ ?]]%lookup_insert_Some ?; [|eauto]. exists j. congruence.
Qed.

(** A running attempt gets a verdict. *)
Lemma completion_verdict R A k v j :
  completion R A → is_verdict v → A !! j = Some (k, AttemptRunning) →
  (∀ j', A !! j' = Some (k, AttemptRunning) → j' = j) →
  completion R (<[j := (k, v)]> A).
Proof.
  intros [] Hv Hj Hex.
  assert (∀ i v', A !! i = Some (k, v') → ¬ is_verdict v') as Hno.
  { intros i v' Hi Hv'. destruct (co_verdict0 _ _ _ Hi Hv') as [Hb _]. apply Hb. by exists j. }
  constructor.
  - intros i k' [[<- [= <- ->]]|[_ Hi]]%lookup_insert_Some; [by destruct Hv|eauto].
  - intros i k' v' [[<- [= <- <-]]|[Hne Hi]]%lookup_insert_Some Hv'.
    + split.
      * intros [i [[_ [= ->]]|[Hne Hi]]%lookup_insert_Some]; [by destruct Hv|]. by apply Hne, eq_sym, Hex.
      * destruct (co_running0 _ _ Hj) as [?|?]; eauto.
    + destruct (co_verdict0 _ _ _ Hi Hv') as [Hb ?]. split; [|done].
      intros [i' [[_ [= -> ->]]|[_ Hi']]%lookup_insert_Some]; [by destruct Hv|]. apply Hb. by exists i'.
  - intros i i' k' v1 v2 [[<- ?]|[Hne Hi]]%lookup_insert_Some
      [[<- ?]|[Hne' Hi']]%lookup_insert_Some H1 H2; simplify_eq; [done| | |eauto].
    + by destruct (Hno _ _ Hi').
    + by destruct (Hno _ _ Hi).
  - intros k' st v' Hk' Hv'. destruct (co_rollout0 _ _ _ Hk' Hv') as [i Hi]. exists i.
    rewrite lookup_insert_ne; [done|]. intros <-. rewrite Hj in Hi. injection Hi as <- <-.
    by destruct st.
Qed.

(** A running attempt times out, and its rollout goes back to the queue unless it
    was cancelled. *)
Lemma completion_timeout R A k j :
  completion R A → A !! j = Some (k, AttemptRunning) →
  completion R (<[j := (k, AttemptTimeout)]> A).
Proof.
  intros [] Hj. constructor.
  - intros i k' [[<- [= <-]]|[_ Hi]]%lookup_insert_Some; eauto.
  - intros i k' v [[<- [= <- <-]]|[_ Hi]]%lookup_insert_Some Hv; [by destruct Hv|].
    destruct (co_verdict0 _ _ _ Hi Hv) as [Hb ?]. split; [|done].
    intros [i' [[_ [=]]|[_ Hi']]%lookup_insert_Some]. apply Hb. by exists i'.
  - intros i i' k' v v' [[<- ?]|[_ Hi]]%lookup_insert_Some
      [[<- ?]|[_ Hi']]%lookup_insert_Some Hv Hv'; simplify_eq;
      [done|by destruct Hv|by destruct Hv'|eauto].
  - intros k' st v Hk' Hv'. destruct (co_rollout0 _ _ _ Hk' Hv') as [i Hi]. exists i.
    rewrite lookup_insert_ne; [done|]. intros <-. rewrite Hj in Hi. injection Hi as <- <-.
    by destruct st.
Qed.

Lemma completion_requeue R A k :
  completion R A → ¬ busy A k → (∀ j v, A !! j = Some (k, v) → ¬ is_verdict v) →
  completion (<[k := Requeuing]> R) A.
Proof.
  intros [] Hb Hno. constructor.
  - intros j k' Hj. rewrite lookup_insert_ne; [eauto|]. intros <-. apply Hb. by exists j.
  - intros j k' v Hj Hv. rewrite lookup_insert_ne; [eauto|]. intros <-. by eapply Hno.
  - done.
  - intros k' st v [[<- <-]|[_ ?]]%lookup_insert_Some ?; [done|eauto].
Qed.
End ledger.

(** ** The store's operations on verdicts *)

Definition completed_ok (s : StoreInner Value) : Prop :=
  completion (rollout_view s) (attempt_view s).

(** Runners update a rollout to the verdict of one of its attempts, and attempts to
    verdicts. *)
Definition op_fits (s : StoreInner Value) (op : StoreOp (Value := Value)) : Prop :=
  match op with
  | OpUpdateRollout k st _ =>
      ∃ v j, verdict_of st = Some v ∧ attempt_view s !! j = Some (k, v)
  | OpUpdateAttempt _ st _ _ _ => is_verdict st
  | _ => True
  end.

Section store.
Implicit Types s : StoreInner Value.

Lemma attempt_view_lookup s j k v :
  attempt_view s !! j = Some (k, v) ↔
  ∃ a, attempts s !! j = Some a ∧ at_rollout_id a = k ∧ at_status a = v.
Proof. unfold attempt_view. rewrite lookup_fmap_Some. naive_solver. Qed.

Lemma rollout_view_lookup s k st :
  rollout_view s !! k = Some st ↔ ∃ r, rollouts s !! k = Some r ∧ ro_status r = st.
Proof. unfold rollout_view. rewrite lookup_fmap_Some. naive_solver. Qed.

(** Changing an attempt's or a rollout's record. *)
Lemma attempt_view_insert s j a :
  attempt_view (set_attempts (<[j := a]> (attempts s)) s) =
    <[j := (at_rollout_id a, at_status a)]> (attempt_view s).
Proof. unfold attempt_view. cbn. by rewrite fmap_insert. Qed.
Lemma rollout_view_insert s k r :
  rollout_view (set_rollouts (<[k := r]> (rollouts s)) s) =
    <[k := ro_status r]> (rollout_view s).
Proof. unfold rollout_view. cbn. by rewrite fmap_insert. Qed.

Lemma running_exclusive s j j' k :
  store_ok s → attempt_view s !! j = Some (k, AttemptRunning) →
  attempt_view s !! j' = Some (k, AttemptRunning) → j' = j.
Proof.
  intros Hok (a & Ha & <- & Hr)%attempt_view_lookup (a' & Ha' & Heq & Hr')%attempt_view_lookup.
  by eapply (ok_exclusive _ Hok).
Qed.

Lemma heartbeat_completed s w k a now :
  completed_ok s → completed_ok (update_worker_heartbeat s w k a now).1.
Proof.
  intros Hc. unfold completed_ok.
  assert (attempt_view (update_worker_heartbeat s w k a now).1 = attempt_view s) as ->;
    [|unfold rollout_view; by rewrite (proj1 (heartbeat_rollouts s w k a now))].
  unfold update_worker_heartbeat.
  destruct k as [i|], a as [j|]; try (by case_match).
  destruct (attempts s !! j) as [a|] eqn:Ha; [|by case_match].
  case_decide; [|by case_match]. cbn.
  assert (attempt_view (set_attempts (<[j := set_at_heartbeat now a]> (attempts s)) s) = attempt_view s)
    as Heq; [|by case_match].
  rewrite attempt_view_insert. apply insert_id, attempt_view_lookup. by exists a.
Qed.

Lemma dequeue_completed s w t1 t2 t3 :
  store_ok s → attempts_room s → completed_ok s → completed_ok (dequeue_rollout s w t1 t2 t3).1.
Proof.
  intros Hok Hroom Hc. unfold dequeue_rollout.
  destruct (first_waiting s (queue s)) as [Hnone|(skipped & k & rest & r & Hq & Hr & Hw & Hsk)];
    [by rewrite (dequeue_loop_none _ _ _ _ _ _ Hnone)|].
  rewrite Hq, (dequeue_loop_first _ _ _ _ _ _ _ _ _ Hsk Hr Hw). unfold start_attempt. cbn [fst].
  pose proof (ok_rollout_keys _ Hok _ _ Hr) as Hk.
  rewrite (add_u32_small _ _ (Hroom _ _ Hr)).
  unfold completed_ok, rollout_view, attempt_view. cbn. rewrite !fmap_insert. cbn. rewrite Hk.
  eapply completion_start; [done|by rewrite lookup_fmap, Hr|done|].
  rewrite lookup_fmap. apply fmap_None.
  destruct (attempts s !! _) as [a|] eqn:Ha; [|done]. exfalso.
  destruct (ok_attempts _ Hok _ _ Ha) as (_ & _ & Heq & y & Hy & Hle).
  apply attempt_id_of_inj in Heq as [Hx Hn]. rewrite <- Hx in Hy. simplify_eq. lia.
Qed.

Lemma reassign_worker_completed s w timeout now l :
  store_ok s → completed_ok s → completed_ok (reassign_worker s w timeout now l).1.
Proof.
  intros Hok Hc. unfold reassign_worker.
  destruct (workers s !! w) as [wk|] eqn:Hw; [|done]. cbn.
  destruct (wk_active_rollout_id wk) as [rid|] eqn:Hrid; [|done].
  destruct (wk_active_attempt_id wk) as [aid|] eqn:Haid; [|done].
  destruct (ok_workers _ Hok _ _ Hw rid aid Hrid Haid) as (a & Ha & Hfit). rewrite Ha.
  case_decide as Hrun; [done|].
  case_match; [done|]. case_match; [|done]. cbn.
  assert (attempt_view s !! aid = Some (rid, AttemptRunning)) as Hv
    by (apply attempt_view_lookup; by exists a).
  set (a' := set_at_end _ _ _).
  assert (completed_ok (set_attempts (<[aid := a']> (attempts s)) s)) as Hc'.
  { unfold completed_ok. rewrite attempt_view_insert. cbn. rewrite Hfit. by apply completion_timeout. }
  destruct (rollouts s !! rid) as [r|] eqn:Hr; [|done]. case_match; [|done]. cbn.
  set (s' := set_attempts _ _) in *.
  set (s'' := set_rollouts _ _).
  assert (completed_ok s'') as Hc''; [|unfold requeue; by case_match].
  unfold completed_ok. unfold s''. change (<[rid := ?x]> (rollouts s)) with (<[rid := x]> (rollouts s')).
  rewrite rollout_view_insert. apply completion_requeue; [done| |].
  - intros [j Hj]. change (attempt_view s' !! j = Some (rid, AttemptRunning)) in Hj.
    unfold s' in Hj. rewrite attempt_view_insert in Hj.
    apply lookup_insert_Some in Hj as [[_ [=]]|[Hne Hj]]. apply Hne. symmetry. by apply (running_exclusive s aid j rid).
  - intros j v Hj Hverdict. change (attempt_view s' !! j = Some (rid, v)) in Hj.
    unfold s' in Hj. rewrite attempt_view_insert in Hj.
    apply lookup_insert_Some in Hj as [[_ [= _ <-]]|[Hne Hj]]; [by destruct Hverdict|].
    destruct (co_verdict _ _ Hc _ _ _ Hj Hverdict) as [Hb _]. apply Hb. by exists aid.
Qed.

Lemma reassign_completed ws s timeout now l :
  store_ok s → completed_ok s → completed_ok (reassign_loop ws s timeout now l).1.
Proof.
  revert s l. induction ws as [|w ws IH]; intros s l Hok Hc; cbn; [done|].
  pose proof (reassign_worker_completed s w timeout now l Hok Hc) as Hc'.
  pose proof (reassign_worker_ok s w timeout now l Hok) as Hok'.
  destruct (reassign_worker s w timeout now l) as [s' [l'|e]]; [by apply IH|done].
Qed.

Lemma update_attempt_completed s j st e t1 t2 :
  store_ok s → is_verdict st → completed_ok s →
  completed_ok (update_attempt_status s j st e t1 t2).1.
Proof.
  intros Hok Hv Hc. unfold update_attempt_status.
  destruct (attempts s !! j) as [a|] eqn:Ha; [|done]. case_match eqn:Htr; [|done]. cbn.
  assert (attempt_is_terminal st = true) as -> by (by destruct Hv as [-> | ->]).
  unfold completed_ok. rewrite attempt_view_insert. cbn.
  pose proof (proj1 (ok_attempts _ Hok _ _ Ha)) as Hprep.
  assert (attempt_view s !! j = Some (at_rollout_id a, at_status a)) as Hj
    by (apply attempt_view_lookup; by exists a).
  assert (at_status a = AttemptRunning ∨ at_status a = st) as [Hrun|Heq].
  { destruct Hv as [-> | ->], (at_status a); auto; done. }
  - rewrite Hrun in Hj. apply completion_verdict; try done.
    intros j' Hj'. by eapply running_exclusive.
  - rewrite insert_id; [done|]. by rewrite Hj, Heq.
Qed.

Lemma run_store_op_completed s op :
  store_ok s → op_ok s op → op_fits s op → completed_ok s → completed_ok (run_store_op s op).
Proof.
  intros Hok Hop Hfit Hc. destruct op; cbn in *; try done.
  - unfold enqueue_rollout. destruct (rollouts s !! ro_id rollout) eqn:Hr; [done|].
    unfold completed_ok, rollout_view. cbn. rewrite fmap_insert.
    apply completion_enqueue; [done| |].
    + by rewrite lookup_fmap, Hr.
    + intros j v (a & Ha & Hid & _)%attempt_view_lookup.
      destruct (ok_attempts _ Hok _ _ Ha) as (_ & _ & _ & r & Hr' & _). congruence.
  - by apply dequeue_completed.
  - destruct Hfit as (v & j & Hv & Hj). unfold update_rollout_status.
    destruct (rollouts s !! rollout_id) as [r|] eqn:Hr; [|done]. case_match; [|done]. cbn.
    unfold completed_ok. rewrite rollout_view_insert.
    case_match; by eapply completion_record.
  - unfold cancel_rollout, update_rollout_status.
    destruct (rollouts s !! rollout_id) as [r|] eqn:Hr; [|done]. case_match; [|done]. cbn.
    unfold completed_ok. rewrite rollout_view_insert. by apply completion_cancel.
  - by apply heartbeat_completed.
  - by apply reassign_completed.
  - by apply update_attempt_completed.
Qed.

Lemma store_new_completed : completed_ok store_new.
Proof. constructor; cbn; intros *; rewrite ?lookup_empty; done. Qed.
End store.

(** ** What a task knows *)

(** Facts about attempts that no operation undoes. *)
Inductive Fact :=
| Owned (attempt_id rollout_id : string)
| Finished (attempt_id : string) (verdict : AttemptStatus).

Definition fact_holds (s : StoreInner Value) (f : Fact) : Prop :=
  match f with
  | Owned j k => ∃ a, attempts s !! j = Some a ∧ at_rollout_id a = k
  | Finished j v => is_verdict v ∧ ∃ a, attempts s !! j = Some a ∧ at_status a = v
  end.

(** What a task must know before a call, and what it learns from the reply. *)
Definition call_guard (F : list Fact) (c : StoreCall) : Prop :=
  match c with
  | EnqueueRollout _ => False
  | UpdateRolloutStatus k st => ∃ v j, verdict_of st = Some v ∧ Owned j k ∈ F ∧ Finished j v ∈ F
  | UpdateWorkerHeartbeat _ (Some k) (Some j) => Owned j k ∈ F
  | UpdateAttemptStatus j st _ => is_verdict st ∧ ∃ k, Owned j k ∈ F
  | _ => True
  end.

Definition learn (c : StoreCall) : Result RunnerError (reply c) → list Fact :=
  match c return Result RunnerError (reply c) → list Fact with
  | DequeueRollout _ => λ r,
      match r with
      | Ok (Some d) => [Owned (at_id (dq_attempt d)) (ro_id (dq_rollout d))]
      | _ => []
      end
  | UpdateAttemptStatus j st _ => λ r, match r with Ok _ => [Finished j st] | _ => [] end
  | _ => λ _, []
  end.

(** Along every path of replies the calls are guarded and the end satisfies [Q]. *)
Fixpoint knows {A} (F : list Fact) (p : Proc A) (Q : list Fact → A → Prop) : Prop :=
  match p with
  | Ret a => Q F a
  | Call c k => call_guard F c ∧ ∀ r, knows (learn c r ++ F) (k r) Q
  end.

Lemma knows_mono {A} F (p : Proc A) (Q Q' : list Fact → A → Prop) :
  knows F p Q → (∀ F' a, Q F' a → Q' F' a) → knows F p Q'.
Proof.
  intros Hp HQ. revert F Hp. induction p as [a|c k IH]; cbn; intros F; [auto|].
  intros [Hg Hk]. split; [done|]. intros r. apply IH, Hk.
Qed.

Lemma knows_bind {A B} F (m : Async A) (f : A → Async B) Q :
  knows F m (λ F' r, match r with Ok a => knows F' (f a) Q | Err e => Q F' (Err e) end) →
  knows F (m ≫= f) Q.
Proof.
  revert F. unfold Async in *. induction m as [r|c k IH]; intros F; [by destruct r|].
  intros [Hg Hk]. split; [done|]. intros r. apply IH, Hk.
Qed.

Lemma knows_await F c Q :
  call_guard F c → (∀ r, Q (learn c r ++ F) r) → knows F (await c) Q.
Proof. by split. Qed.

Lemma knows_try {A} F (m : Async A) Q :
  knows F m (λ F' r, Q F' (Ok r)) → knows F (try_async m) Q.
Proof.
  revert F. unfold try_async, Async in *. induction m as [r|c k IH]; intros F; [done|].
  intros [Hg Hk]. split; [done|]. intros r. apply IH, Hk.
Qed.

(** Facts only accumulate. *)
Lemma knows_grows {A} F (p : Proc A) (Q : list Fact → A → Prop) :
  knows F p Q → knows F p (λ F' a, F ⊆ F' ∧ Q F' a).
Proof.
  revert F. induction p as [a|c k IH]; intros F; cbn; [done|].
  intros [Hg Hk]. split; [done|]. intros r. eapply knows_mono; [by apply IH|].
  cbn. intros F' a [Hsub HQ]. split; [|done]. set_solver.
Qed.

Abbreviation anything := (λ _ _, True).

Section tasks.
Context `{TH : TracerHost} `{RH : RunnerHost} `{RX : RolloutExecutor}.

Lemma knows_heartbeat F c k j :
  Owned j k ∈ F → knows F (heartbeat c (Some k) (Some j)) anything.
Proof. intros ?. by apply knows_await. Qed.

Lemma knows_idle F c : knows F (heartbeat c None None) anything.
Proof. by apply knows_await. Qed.

Lemma knows_heartbeat_task n F c k j :
  Owned j k ∈ F → knows F (heartbeat_task n c k j) anything.
Proof.
  revert F. induction n as [|n IH]; intros F Hin; cbn [heartbeat_task]; [done|].
  apply knows_bind. eapply knows_mono; [by apply knows_grows, knows_heartbeat|].
  cbn. intros F' [[]|e] [Hsub _]; [|done]. apply IH. set_solver.
Qed.

Lemma knows_add_spans F spans : knows F (add_spans_async spans) anything.
Proof.
  revert F. induction spans as [|span spans IH]; intros F; cbn [add_spans_async]; [done|].
  apply knows_bind, knows_await; [done|]. intros [[]|e]; [apply IH|done].
Qed.

Lemma knows_flush F t : knows F (flush t) anything.
Proof.
  unfold flush. destruct (take_spans t) as [_ [|span spans]]; [done|].
  apply knows_bind. eapply knows_mono; [apply knows_add_spans|]. by intros F' [[]|e].
Qed.

Lemma knows_still_running F j : knows F (attempt_is_still_running j) anything.
Proof. apply knows_bind, knows_await; [done|]. by intros [r|e]. Qed.

Lemma knows_record F item result :
  Owned (at_id (dq_attempt item)) (ro_id (dq_rollout item)) ∈ F →
  knows F (record_result item result) anything.
Proof.
  intros Hin. unfold record_result. destruct result as [outcome|error];
    (apply knows_bind, knows_await; [split; [unfold is_verdict; tauto|by eexists]|]);
    (intros [[]|e]; [|done]); (apply knows_await; [|done]); eexists _, (at_id (dq_attempt item));
    (split; [done|]); split; set_solver.
Qed.

(** A step of a task that keeps what it knows, and the rest. *)
Lemma knows_then {A B} F (m : Async A) (f : A → Async B) :
  knows F m anything → (∀ F' a, F ⊆ F' → knows F' (f a) anything) →
  knows F (m ≫= f) anything.
Proof.
  intros Hm Hf. apply knows_bind. eapply knows_mono; [by apply knows_grows|].
  cbn. intros F' [a|e] [Hsub _]; [by apply Hf|done].
Qed.

Lemma knows_process_dequeued F c item n ms :
  Owned (at_id (dq_attempt item)) (ro_id (dq_rollout item)) ∈ F →
  knows F (process_dequeued c item n ms) anything.
Proof.
  intros Hin. unfold process_dequeued.
  apply knows_then; [by apply knows_heartbeat|intros F1 _ H1].
  apply knows_then; [by apply knows_await|intros F2 resources H2].
  destruct (execute_traced item resources n ms) as [t result].
  apply knows_then; [apply knows_heartbeat_task; set_solver|intros F3 _ H3].
  apply knows_then; [apply knows_flush|intros F4 _ H4].
  apply knows_then; [apply knows_still_running|intros F5 running H5].
  destruct running; [|apply knows_idle].
  apply knows_then; [apply knows_record; set_solver|intros F6 _ H6; apply knows_idle].
Qed.

Lemma knows_process_once F c n ms : knows F (process_once c n ms) anything.
Proof.
  apply knows_bind, knows_await; [done|]. intros [[item|]|e]; [|done..].
  apply knows_process_dequeued. set_solver.
Qed.

Lemma knows_run_events F c events n ms : knows F (run_events c events n ms) anything.
Proof.
  revert F n ms. induction events as [|[ok value| | |] events IH]; intros F n ms; cbn [run_events].
  - done.
  - case_match; [done|apply IH].
  - apply knows_then; [apply knows_idle|auto].
  - apply knows_then; [apply knows_try; eapply knows_mono; [apply knows_process_once|done]|].
    intros F' [[]|e] _; apply IH.
  - apply knows_then; [by apply knows_await|auto].
Qed.

Lemma knows_run F c events : knows F (run c events) anything.
Proof. apply knows_then; [by apply knows_await|]. intros. apply knows_run_events. Qed.
End tasks.

(** ** A pool of runners *)

(** The store operation behind a call that writes. *)
Definition call_op (m : Stamp) (c : StoreCall) : option (StoreOp (Value := Value)) :=
  match c with
  | EnqueueRollout rollout => Some (OpEnqueue rollout)
  | DequeueRollout w => Some (OpDequeue w (sm_1 m) (sm_2 m) (sm_3 m))
  | UpdateRolloutStatus k st => Some (OpUpdateRollout k st (sm_1 m))
  | AddSpan span => Some (OpAddSpan span)
  | RegisterWorker w => Some (OpRegister w (sm_1 m))
  | UpdateWorkerHeartbeat w k j => Some (OpHeartbeat w k j (sm_1 m))
  | ReassignTimedOutRollouts timeout => Some (OpReassign (sm_workers m) (Z.of_N timeout) (sm_1 m))
  | UpdateAttemptStatus j st e => Some (OpUpdateAttempt j st e (sm_1 m) (sm_2 m))
  | QuerySpans _ _ | GetLatestResources | QueryRollouts _ | GetAttempt _ => None
  end.

(** Counters have room, and the workers are met in some order. *)
Definition stamp_ok (s : StoreInner Value) (m : Stamp) (c : StoreCall) : Prop :=
  match c with
  | DequeueRollout _ => attempts_room s
  | ReassignTimedOutRollouts _ => sm_workers m ≡ₚ (map_to_list (workers s)).*1
  | _ => True
  end.

(** What clients do beside the runners: add work, cancel it, write spans and
    resources. *)
Definition client_op (op : StoreOp (Value := Value)) : bool :=
  match op with
  | OpEnqueue _ | OpCancel _ _ | OpAddSpan _ | OpUpdateResources _ _ => true
  | _ => false
  end.

Record RunnerPool := mkRunnerPool
  { pl_store : StoreInner Value; pl_tasks : gmap string (Async bool) }.

Section pool.
Context `{TH : TracerHost} `{RH : RunnerHost} `{RX : RolloutExecutor}.

(** Runners start, proceed by one call, find the store unavailable, or vanish at any
    call they await; clients act in between. *)
Inductive runner_pool_step : RunnerPool → RunnerPool → Prop :=
| pool_start s tasks c events :
    tasks !! worker_id c = None →
    runner_pool_step (mkRunnerPool s tasks) (mkRunnerPool s (<[worker_id c := run c events]> tasks))
| pool_call s tasks w c k m :
    tasks !! w = Some (Call c k) → stamp_ok s m c →
    runner_pool_step (mkRunnerPool s tasks)
      (mkRunnerPool (run_call s m c).1
         (<[w := k (map_err StoreRefused (run_call s m c).2)]> tasks))
| pool_unavailable s tasks w c k :
    tasks !! w = Some (Call c k) →
    runner_pool_step (mkRunnerPool s tasks) (mkRunnerPool s (<[w := k (Err Unavailable)]> tasks))
| pool_crash s tasks w :
    runner_pool_step (mkRunnerPool s tasks) (mkRunnerPool s (delete w tasks))
| pool_client s tasks op :
    client_op op = true → op_ok s op →
    runner_pool_step (mkRunnerPool s tasks) (mkRunnerPool (run_store_op s op) tasks).

Definition pool_new : RunnerPool := mkRunnerPool store_new ∅.

Record pool_ok (p : RunnerPool) : Prop := mkPoolOk
  { po_store : store_ok (pl_store p);
    po_completed : completed_ok (pl_store p);
    po_tasks : ∀ w task, pl_tasks p !! w = Some task →
      ∃ F, Forall (fact_holds (pl_store p)) F ∧ knows F task anything }.

Lemma fact_stable s s' f : evolves s s' → fact_holds s f → fact_holds s' f.
Proof.
  intros [_ Hat]. destruct f as [j k|j v]; cbn.
  - intros (a & Ha & <-). destruct (Hat _ _ Ha) as (a' & Ha' & _ & Hr & _). by exists a'.
  - intros (Hv & a & Ha & Hst). split; [done|]. destruct (Hat _ _ Ha) as (a' & Ha' & Hm & _).
    exists a'. split; [done|]. rewrite <- Hst in *. apply rtc_attempt_terminal; [done|].
    by destruct Hv as [-> | ->].
Qed.

Lemma run_call_op s m c :
  (run_call s m c).1 = match call_op m c with Some op => run_store_op s op | None => s end.
Proof. by destruct c. Qed.

(** A guarded call meets what the store and the verdicts ask for. *)
Lemma guarded_op s m c F op :
  Forall (fact_holds s) F → call_guard F c → stamp_ok s m c → call_op m c = Some op →
  op_ok s op ∧ op_fits s op.
Proof.
  rewrite Forall_forall. intros HF Hg Hm. destruct c; intros [= <-]; cbn in *; try done.
  - destruct Hg as (v & j & Hv & Ho & Hf). split; [done|]. exists v, j. split; [done|].
    destruct (HF _ Ho) as (a & Ha & Hr). destruct (HF _ Hf) as (_ & a' & Ha' & Hst).
    apply attempt_view_lookup. exists a. simplify_eq. done.
  - split; [|done]. destruct rollout_id as [k|], attempt_id as [j|]; try by intros ? ? ?.
    intros i i' a [= <-] [= <-] Ha. destruct (HF _ Hg) as (a' & Ha' & Hr). congruence.
  - by destruct Hg.
Qed.

(** What is learnt from a reply holds. *)
Lemma learn_holds s m c F :
  store_ok s → Forall (fact_holds s) F → call_guard F c →
  Forall (fact_holds (run_call s m c).1) (learn c (map_err StoreRefused (run_call s m c).2)).
Proof.
  intros Hok HF Hg. destruct c; try (by constructor); cbn [run_call].
  - pose proof (dequeue_first_waiting s worker_id (sm_1 m) (sm_2 m) (sm_3 m) Hok) as Hd.
    destruct (dequeue_rollout _ _ _ _ _) as [s' [[d|]|e]]; cbn; [|by constructor..].
    destruct Hd as (skipped & k & r & _ & _ & _ & _ & (Hk & _ & _ & _ & _ & Hr & _) & _ & Ha & _).
    apply Forall_singleton. exists (dq_attempt d). split; [done|]. congruence.
  - destruct Hg as [Hv _]. unfold update_attempt_status.
    destruct (attempts s !! attempt_id) as [a|] eqn:Ha; [|by constructor].
    case_match; [|by constructor]. cbn. apply Forall_singleton. split; [done|].
    eexists. cbn. rewrite lookup_insert_eq. split; [done|]. by case_match.
Qed.

Lemma runner_pool_step_ok p p' : runner_pool_step p p' → pool_ok p → pool_ok p'.
Proof.
  intros Hstep [Hok Hc Ht].
  destruct Hstep as [s tasks c events Hno|s tasks w c k m Hw Hm|s tasks w c k Hw|s tasks w|s tasks op Hcl Hop];
    cbn in *.
  - constructor; cbn; [done..|]. intros w task [[<- <-]|[_ ?]]%lookup_insert_Some; [|eauto].
    exists []. split; [constructor|]. apply knows_run.
  - destruct (Ht _ _ Hw) as (F & HF & Hg & Hk).
    pose proof (learn_holds s m c F Hok HF Hg) as Hl. specialize (Hk (map_err StoreRefused (run_call s m c).2)).
    revert Hl Hk. rewrite run_call_op. destruct (call_op m c) as [op|] eqn:Hopc.
    + destruct (guarded_op s m c F op HF Hg Hm Hopc) as [Hop Hfit]. intros Hl Hk.
      pose proof (run_store_op_evolves s op Hok Hop) as Hev.
      assert (∀ F, Forall (fact_holds s) F → Forall (fact_holds (run_store_op s op)) F) as Hstab
        by (intros ??; eapply Forall_impl; [done|]; intros ?; by apply fact_stable).
      constructor; cbn; [by apply run_store_op_ok|by apply run_store_op_completed|].
      intros w' task [[<- <-]|[_ Hw']]%lookup_insert_Some.
      * eexists. split; [|done]. apply Forall_app. auto.
      * destruct (Ht _ _ Hw') as (F' & HF' & ?). exists F'. auto.
    + intros Hl Hk. constructor; cbn; [done..|].
      intros w' task [[<- <-]|[_ Hw']]%lookup_insert_Some; [|eauto].
      eexists. split; [|done]. apply Forall_app. auto.
  - destruct (Ht _ _ Hw) as (F & HF & Hg & Hk). constructor; cbn; [done..|].
    intros w' task [[<- <-]|[_ Hw']]%lookup_insert_Some; [|eauto].
    specialize (Hk (Err Unavailable)). assert (learn c (Err Unavailable) = []) as Hnil by (by destruct c).
    rewrite Hnil in Hk. eauto.
  - constructor; cbn; [done..|]. intros w' task [_ Hw']%lookup_delete_Some. eauto.
  - assert (op_fits s op) as Hfit by (by destruct op).
    pose proof (run_store_op_evolves s op Hok Hop) as Hev.
    constructor; cbn; [by apply run_store_op_ok|by apply run_store_op_completed|].
    intros w task Hw. destruct (Ht _ _ Hw) as (F & HF & ?). exists F. split; [|done].
    eapply Forall_impl; [done|]. intros ?. by apply fact_stable.
Qed.

Lemma runner_pool_reachable_ok p : rtc runner_pool_step pool_new p → pool_ok p.
Proof.
  intros Hr. cut (pool_ok pool_new).
  - induction Hr as [|p1 p2 p3 Hs _ IH]; [done|]. intros. by eapply IH, runner_pool_step_ok.
  - constructor; cbn; [apply store_new_ok|apply store_new_completed|].
    intros w task. by rewrite lookup_empty.
Qed.

End pool.

(** ** Retry delays *)

Lemma retry_delay_loop_exact rounds delay max :
  (max ≤ DURATION_MAX)%N →
  retry_delay_loop rounds delay max = N.min (delay * 2 ^ N.of_nat rounds) max.
Proof.
  intros Hmax. revert delay. induction rounds as [|rounds IH]; intros delay; cbn [retry_delay_loop].
  { rewrite N.mul_1_r. done. }
  rewrite Nat2N.inj_succ, N.pow_succ_r'.
  assert (1 ≤ 2 ^ N.of_nat rounds)%N by (pose proof (N.pow_nonzero 2 (N.of_nat rounds)); lia).
  unfold duration_saturating_mul. destruct (N.leb_spec max (N.min (delay * 2) DURATION_MAX)).
  - assert (max ≤ delay * 2)%N by lia. assert (max ≤ delay * (2 * 2 ^ N.of_nat rounds))%N by nia. lia.
  - assert (N.min (delay * 2) DURATION_MAX = delay * 2)%N as -> by lia.
    rewrite IH. f_equal. lia.
Qed.

(** The n-th failure in a row is followed by a delay of [initial * 2^(n-1)], cut at
    the configured maximum. *)
Theorem retry_delay_exact failure_count initial max :
  (max ≤ DURATION_MAX)%N →
  compute_poll_retry_delay failure_count initial max =
    N.min (initial * 2 ^ (failure_count - 1)) max.
Proof.
  intros Hmax. unfold compute_poll_retry_delay. rewrite retry_delay_loop_exact by done.
  do 3 f_equal. lia.
Qed.

Lemma retry_delay_exact_witness :
  compute_poll_retry_delay 4 (from_millis 25) (from_millis 500) = from_millis 200 ∧
  compute_poll_retry_delay 9 (from_millis 25) (from_millis 500) = from_millis 500.
Proof.
  split; rewrite (retry_delay_exact _ (from_millis 25) (from_millis 500))
    by (vm_compute; discriminate); vm_compute; reflexivity.
Defined.

(** ** Undisturbed runs *)

(** Nobody else acts and the store is available. *)
Definition calm (schedule : nat → Turn) : Prop :=
  ∀ n, tn_others (schedule n) = [] ∧ tn_unavailable (schedule n) = false.

Lemma run_proc_bind {A B} schedule (m : Async A) (f : A → Async B) sn :
  run_proc schedule (m ≫= f) sn =
    match run_proc schedule m sn with
    | (Ok a, sn') => run_proc schedule (f a) sn'
    | (Err e, sn') => (Err e, sn')
    end.
Proof.
  revert sn. unfold Async in *. induction m as [[a|e]|c k IH]; intros sn; [done..|].
  cbn. destruct (answer _ _ _) as [s r]. apply IH.
Qed.

Section undisturbed.
Context `{TH : TracerHost} `{RH : RunnerHost} `{RX : RolloutExecutor}.
Context (schedule : nat → Turn) (Hcalm : calm schedule).

Lemma run_await c s n :
  run_proc schedule (await c) (s, n) =
    let '(s', r) := run_call s (tn_stamp (schedule n)) c in (map_err StoreRefused r, (s', S n)).
Proof.
  cbn. unfold answer, others_act. destruct (Hcalm n) as [-> ->]. cbn.
  destruct (run_call s (tn_stamp (schedule n)) c) as [s' r]. done.
Qed.

Lemma run_await_then {B} c (f : reply c → Async B) s n :
  run_proc schedule (await c ≫= f) (s, n) =
    let '(s', r) := run_call s (tn_stamp (schedule n)) c in
    match r with
    | Ok a => run_proc schedule (f a) (s', S n)
    | Err e => (Err (StoreRefused e), (s', S n))
    end.
Proof.
  rewrite run_proc_bind, run_await. destruct (run_call _ _ c) as [s' [a|e]]; done.
Qed.

Ltac await_call c :=
  match goal with |- context [run_proc schedule ?p ?sn] =>
    rewrite (run_await_then c _ _ _ : run_proc schedule p sn = _) end; cbn [run_call].

(** One call, on the store as it is. *)
Ltac calm_call :=
  cbn; unfold answer, others_act;
  match goal with |- context [tn_others (schedule ?n)] => destruct (Hcalm n) as [-> ->] end; cbn.

(** The worker holds a running attempt of a running rollout. *)
Definition holds (s : StoreInner Value) (w k j : string) : Prop :=
  (∃ a, attempts s !! j = Some a ∧ at_status a = AttemptRunning) ∧
  (∃ r, rollouts s !! k = Some r ∧ ro_status r = Running) ∧ is_Some (workers s !! w).

(** A call or task that succeeds and keeps hold, without touching the spans. *)
Definition keeps_hold {A} (w k j : string) (m : Async A) : Prop :=
  ∀ s n, holds s w k j → ∃ a s' n', run_proc schedule m (s, n) = (Ok a, (s', n')) ∧
    holds s' w k j ∧ spans s' = spans s ∧ resources s' = resources s.

Lemma keeps_hold_heartbeat c k j :
  keeps_hold (worker_id c) k j (heartbeat c (Some k) (Some j)).
Proof.
  intros s n ((a & Ha & Hrun) & (r & Hr) & [w Hw]). calm_call.
  unfold update_worker_heartbeat. rewrite Ha, decide_True by done. cbn. rewrite Hw. cbn.
  eexists _, _, _. split_and!; [done| |done..].
  split_and!; cbn; [|by exists r|by rewrite lookup_insert_eq].
  eexists. by rewrite lookup_insert_eq.
Qed.

Lemma keeps_hold_then {A B} w k j (m : Async A) (f : A → Async B) :
  keeps_hold w k j m → (∀ a, keeps_hold w k j (f a)) → keeps_hold w k j (m ≫= f).
Proof.
  intros Hm Hf s n Hs. destruct (Hm s n Hs) as (a & s1 & n1 & Hrun & Hs1 & Hsp & Hres).
  destruct (Hf a s1 n1 Hs1) as (b & s2 & n2 & Hrun2 & Hs2 & Hsp2 & Hres2).
  exists b, s2, n2. rewrite run_proc_bind, Hrun, Hrun2. split_and!; [done..|congruence|congruence].
Qed.

Lemma keeps_hold_task m c k j :
  keeps_hold (worker_id c) k j (heartbeat_task m c k j).
Proof.
  induction m as [|m IH]; cbn [heartbeat_task].
  - intros s n Hs. by exists tt, s, n.
  - apply keeps_hold_then; [apply keeps_hold_heartbeat|done].
Qed.

(** Spans of one attempt, sorted after those it has, are appended. *)
Lemma run_add_spans l key w k j s n :
  holds s w k j → Forall (λ span, span_key span = key) l →
  StronglySorted (key_le sp_sequence_id) (default [] (spans s !! key) ++ l) →
  ∃ s' n', run_proc schedule (add_spans_async l) (s, n) = (Ok tt, (s', n')) ∧ holds s' w k j ∧
    default [] (spans s' !! key) = default [] (spans s !! key) ++ l.
Proof.
  revert s n. induction l as [|span l IH]; intros s n Hs Hl Hsort; cbn [add_spans_async].
  { exists s, n. rewrite app_nil_r. by split_and!. }
  apply Forall_cons in Hl as [Hkey Hl]. rewrite run_proc_bind. calm_call.
  assert (spans (add_span s span) !! key = Some (default [] (spans s !! key) ++ [span])) as Hsp.
  { unfold add_span. rewrite Hkey. cbn. rewrite lookup_insert_eq. f_equal. apply sort_by_key_id.
    rewrite cons_middle, (assoc_L (++)) in Hsort. by apply StronglySorted_app_1_l in Hsort. }
  destruct (IH (add_span s span) (S n)) as (s' & n' & Hrun & Hs' & Heq); [done|done| |].
  { rewrite Hsp. cbn. by rewrite <- (assoc_L (++)). }
  exists s', n'. split_and!; [done..|]. rewrite Heq, Hsp. cbn. by rewrite <- (assoc_L (++)).
Qed.

(** Recording: the attempt, then its rollout; then the worker is idle. *)
Lemma run_record c item result s n :
  let k := ro_id (dq_rollout item) in
  let j := at_id (dq_attempt item) in
  holds s (worker_id c) k j →
  ∃ s' n', run_proc schedule (_ ← record_result item result; heartbeat c None None) (s, n) =
      (Ok tt, (s', n')) ∧
    (at_status <$> attempts s' !! j) =
      Some (match result with Ok _ => AttemptSucceeded | Err _ => AttemptFailed end) ∧
    (ro_status <$> rollouts s' !! k) =
      Some (match result with Ok _ => Succeeded | Err _ => Failed end) ∧
    (wk_active_attempt_id <$> workers s' !! worker_id c) = Some None ∧ spans s' = spans s.
Proof.
  cbn. intros ((a & Ha & Hrun) & (r & Hr & Hst) & [w Hw]). unfold record_result.
  rewrite run_proc_bind. destruct result as [outcome|error].
  all: rewrite run_proc_bind; calm_call; unfold update_attempt_status; rewrite Ha, Hrun.
  all: match goal with |- context [attempt_can_transition_to AttemptRunning ?st] =>
         change (attempt_can_transition_to AttemptRunning st) with true end.
  all: calm_call; unfold update_rollout_status; cbn; rewrite Hr, Hst.
  all: match goal with |- context [rollout_can_transition_to Running ?st] =>
         change (rollout_can_transition_to Running st) with true end.
  all: calm_call; rewrite Hw; cbn; eexists _, _; split_and!; cbn; [done|..|done].
  all: cbn; by rewrite lookup_insert_eq.
Qed.

Context `{!TracerHostLaws TH} `{!RolloutExecutorLaws RX}.

Lemma emit_rewards_steps rewards t : rtc tracer_step t (emit_rewards rewards t).
Proof.
  revert t. induction rewards as [|reward rewards IH]; intros t; [done|].
  eapply rtc_l; [apply step_reward|apply IH].
Qed.

Lemma execute_traced_steps item res f ms :
  rtc tracer_step (tracer_new (ro_id (dq_rollout item)) (at_id (dq_attempt item)))
    (execute_traced item res f ms).1.
Proof.
  unfold execute_traced. set (t := tracer_new _ _).
  eapply rtc_l; [apply (step_operation "runner.execute_rollout")|].
  destruct (operation "runner.execute_rollout" t) as [t1 guard]. cbn [fst].
  etrans; [apply (execute_traces (dq_rollout item) res)|].
  destruct (execute (dq_rollout item) res t1) as [t2 result]. cbn [fst].
  eapply rtc_l; [apply (step_drop guard)|]. apply emit_rewards_steps.
Qed.

(** The spans of a run carry its rollout and attempt. *)
Lemma execute_traced_tagged item res f ms :
  Forall (λ span, span_key span = (ro_id (dq_rollout item), at_id (dq_attempt item)))
    (take_spans (execute_traced item res f ms).1).2.
Proof.
  pose proof (execute_traced_steps item res f ms) as Hs.
  assert (tracer_grows (tracer_new (ro_id (dq_rollout item)) (at_id (dq_attempt item)))
    (execute_traced item res f ms).1) as (Hr & Ha & _).
  { apply rtc_nsteps in Hs as [m Hs]. by eapply tracer_steps_grow. }
  pose proof (tagged_take _ (tagged_steps _ _ Hs (List.Forall_nil _))) as Ht.
  rewrite Hr, Ha in Ht. done.
Qed.

Lemma run_flush t w k j s n :
  holds s w k j → Forall (λ span, span_key span = (k, j)) (take_spans t).2 →
  spans s !! (k, j) = None →
  ∃ m s' n', run_proc schedule (flush t) (s, n) = (Ok m, (s', n')) ∧ holds s' w k j ∧
    default [] (spans s' !! (k, j)) = (take_spans t).2.
Proof.
  intros Hs Htag Hnone. unfold flush.
  assert (StronglySorted (key_le sp_sequence_id) (take_spans t).2) as Hsort
    by apply sort_by_key_sorted.
  destruct (take_spans t) as [t' l]. cbn in *.
  destruct l as [|span l]; [exists 0, s, n; by rewrite Hnone|].
  destruct (run_add_spans (span :: l) (k, j) w k j s n) as (s' & n' & Hrun & Hs' & Heq);
    [done|done|by rewrite Hnone|].
  rewrite run_proc_bind, Hrun. eexists _, s', n'. split_and!; [done..|]. by rewrite Heq, Hnone.
Qed.

(** An undisturbed run of a dequeued rollout records the outcome of its execution. *)
Lemma run_dequeued c item f ms s n :
  let k := ro_id (dq_rollout item) in
  let j := at_id (dq_attempt item) in
  let executed := execute_traced item (get_latest_resources s) f ms in
  holds s (worker_id c) k j → spans s !! (k, j) = None →
  ∃ s' n', run_proc schedule (process_dequeued c item f ms) (s, n) = (Ok tt, (s', n')) ∧
    (at_status <$> attempts s' !! j) =
      Some (match executed.2 with Ok _ => AttemptSucceeded | Err _ => AttemptFailed end) ∧
    (ro_status <$> rollouts s' !! k) =
      Some (match executed.2 with Ok _ => Succeeded | Err _ => Failed end) ∧
    (wk_active_attempt_id <$> workers s' !! worker_id c) = Some None ∧
    default [] (spans s' !! (k, j)) = (take_spans executed.1).2.
Proof.
  intros k j executed Hs Hnone. unfold process_dequeued. fold k j.
  destruct (keeps_hold_heartbeat c k j s n Hs) as ([] & s1 & n1 & Hrun1 & Hs1 & Hsp1 & Hres1).
  rewrite run_proc_bind, Hrun1. await_call GetLatestResources.
  assert (get_latest_resources s1 = get_latest_resources s) as ->
    by (unfold get_latest_resources; by rewrite Hres1).
  pose proof (execute_traced_tagged item (get_latest_resources s) f ms) as Htag.
  fold executed in Htag |- *. destruct executed as [t result]. cbn [fst snd] in *.
  destruct (keeps_hold_task (beats item) c k j s1 (S n1) Hs1)
    as ([] & s2 & n2 & Hrun2 & Hs2 & Hsp2 & _).
  rewrite run_proc_bind, Hrun2.
  destruct (run_flush t (worker_id c) k j s2 n2 Hs2 Htag) as (m & s3 & n3 & Hrun3 & Hs3 & Hsp3);
    [congruence|].
  rewrite run_proc_bind, Hrun3, run_proc_bind. unfold attempt_is_still_running.
  await_call (GetAttempt j). destruct Hs3 as ((a & Ha & Hst) & Hrest).
  unfold get_attempt. rewrite Ha. cbn [run_proc mret async_ret].
  rewrite bool_decide_true by done.
  destruct (run_record c item result s3 (S n3)) as (s4 & n4 & Hrun4 & ? & ? & ? & Hsp4);
    [by split; [exists a|]|].
  exists s4, n4. split_and!; try done. congruence.
Qed.

(** A dequeue with work to do hands out the first rollout that waits. *)
Lemma dequeue_dispatches s w t1 t2 t3 :
  store_ok s → attempts_room s → waiting_queued s →
  (∃ k r, rollouts s !! k = Some r ∧ is_waiting (ro_status r) = true) →
  ∃ k r item s1, dequeue_rollout s w t1 t2 t3 = (s1, Ok (Some item)) ∧
    rollouts s !! k = Some r ∧ is_waiting (ro_status r) = true ∧ dispatched k r w item ∧
    let j := attempt_id_of k (ro_attempt_count r + 1) in
    at_id (dq_attempt item) = j ∧ attempts s !! j = None ∧ holds s1 w k j ∧
    spans s1 = spans s ∧ resources s1 = resources s.
Proof.
  intros Hok Hroom Hwq (k0 & r0 & Hr0 & Hw0).
  destruct (first_waiting s (queue s)) as [Hnone|(skipped & k & rest & r & Hq & Hr & Hw & Hsk)].
  { pose proof (Hnone k0 (Hwq k0 r0 Hr0 Hw0) r0 Hr0). congruence. }
  pose proof (ok_rollout_keys _ Hok _ _ Hr) as Hk.
  assert (attempts s !! attempt_id_of k (ro_attempt_count r + 1) = None) as Hnew.
  { destruct (attempts s !! _) as [a|] eqn:Ha; [|done]. exfalso.
    destruct (ok_attempts _ Hok _ _ Ha) as (_ & _ & Heq & y & Hy & Hle).
    apply attempt_id_of_inj in Heq as [Hx Hn]. rewrite <- Hx in Hy. simplify_eq. lia. }
  unfold dequeue_rollout. rewrite Hq, (dequeue_loop_first _ _ _ _ _ _ _ _ _ Hsk Hr Hw).
  unfold start_attempt. eexists k, r, _, _. split; [done|].
  unfold dispatched, holds. cbn. rewrite (add_u32_small _ _ (Hroom _ _ Hr)), Hk.
  rewrite !lookup_insert_eq. split_and!; try done; by eexists.
Qed.

(** C25: work is done.  A poll that is not disturbed takes the first rollout that waits
    and ends with its outcome recorded: the new attempt and its rollout succeeded or
    failed as the execution did, every span of the execution is stored for the
    attempt, and the worker is idle again. *)
Theorem poll_completes c f ms s n :
  store_ok s → attempts_room s → waiting_queued s →
  (∀ k j, attempts s !! j = None → spans s !! (k, j) = None) →
  (∃ k r, rollouts s !! k = Some r ∧ is_waiting (ro_status r) = true) →
  ∃ k r item s' n',
    rollouts s !! k = Some r ∧ is_waiting (ro_status r) = true ∧
    dispatched k r (worker_id c) item ∧
    run_proc schedule (process_once c f ms) (s, n) = (Ok tt, (s', n')) ∧
    let executed := execute_traced item (get_latest_resources s) f ms in
    let j := attempt_id_of k (ro_attempt_count r + 1) in
    (at_status <$> attempts s' !! j) =
      Some (match executed.2 with Ok _ => AttemptSucceeded | Err _ => AttemptFailed end) ∧
    (ro_status <$> rollouts s' !! k) =
      Some (match executed.2 with Ok _ => Succeeded | Err _ => Failed end) ∧
    query_spans s' k (Some j) [] = (take_spans executed.1).2 ∧
    (wk_active_attempt_id <$> workers s' !! worker_id c) = Some None.
Proof.
  intros Hok Hroom Hwq Hfresh Hwait.
  destruct (dequeue_dispatches s (worker_id c) (sm_1 (tn_stamp (schedule n)))
    (sm_2 (tn_stamp (schedule n))) (sm_3 (tn_stamp (schedule n))) Hok Hroom Hwq Hwait)
    as (k & r & item & s1 & Hdq & Hr & Hw & Hdis & Hid & Hnew & Hs1 & Hsp1 & Hres1).
  destruct (run_dequeued c item f ms s1 (S n)) as (s' & n' & Hrun & Hat & Hro & Hwk & Hsp).
  { by rewrite Hid, (proj1 Hdis). }
  { rewrite Hid, (proj1 Hdis), Hsp1. by apply Hfresh. }
  assert (get_latest_resources s1 = get_latest_resources s) as Heq
    by (unfold get_latest_resources; by rewrite Hres1).
  rewrite Heq in Hat, Hro, Hsp. rewrite Hid in Hat, Hsp. rewrite (proj1 Hdis) in Hro, Hsp.
  exists k, r, item, s', n'. unfold process_once. await_call (DequeueRollout (worker_id c)).
  rewrite Hdq. by split_and!.
Qed.
End undisturbed.

(** ** The safety gate *)

Lemma not_above_ceiling ceiling x :
  f64_is_finite ceiling = true → f64_positive ceiling = false →
  SFltb ceiling x = false → f64_positive x = false.
Proof.
  unfold f64_positive. destruct ceiling as [[]|[]| |[]]; try done;
    destruct x as [[]|[]| |[]]; done.
Qed.

Lemma clamp_not_positive ceiling reward :
  f64_is_finite ceiling = true → f64_positive ceiling = false →
  f64_positive (rw_value (clamp_reward ceiling reward)) = false.
Proof.
  intros Hf Hc. unfold clamp_reward. destruct (SFltb ceiling (rw_value reward)) eqn:H; [done|].
  by apply (not_above_ceiling ceiling).
Qed.

Lemma opposite_not_positive x : f64_positive x = true → f64_positive (SFopp x) = false.
Proof. by destruct x as [[]|[]| |[]]. Qed.

(** The spans on which a policy event was traced, and the codes it names. *)
Definition safety_codes (spans : list Span) (code : string) : Prop :=
  ∃ span, span ∈ spans ∧ is_safety_span span = true ∧
    code ∈ parse_reason_codes (sp_attributes span !! "reason_codes").
Definition safety_blocked (spans : list Span) : Prop :=
  ∃ span, span ∈ spans ∧ is_safety_span span = true ∧ span_blocked span = true.

Lemma summary_codes spans code :
  code ∈ ss_reason_codes (summarize_safety_signals spans) ↔ safety_codes spans code.
Proof.
  cbn. rewrite elem_btree_set, list_elem_of_In, in_concat. unfold safety_codes. split.
  - intros (codes & (span & <- & [Hs ?]%filter_In)%in_map_iff & Hin).
    exists span. by rewrite !list_elem_of_In.
  - intros (span & Hin & Hs & Hc). eexists. rewrite <- !list_elem_of_In. split; [|done].
    apply list_elem_of_fmap. exists span. split; [done|].
    apply list_elem_of_In, filter_In. by rewrite <- list_elem_of_In.
Qed.

Lemma summary_blocked spans :
  0 < ss_blocked_events (summarize_safety_signals spans) ↔ safety_blocked spans.
Proof.
  cbn. set (l := List.filter span_blocked _). unfold safety_blocked. split.
  - destruct l as [|span l'] eqn:Hl; cbn; [lia|]. intros _.
    assert (In span l) as Hin by (rewrite Hl; by left).
    apply filter_In in Hin as [[Hin Hs]%filter_In Hb]. exists span. by rewrite list_elem_of_In.
  - intros (span & Hin & Hs & Hb).
    assert (In span l) as Hl by (apply filter_In; split; [apply filter_In|]; by rewrite <- ?list_elem_of_In).
    destruct l; [done|cbn; lia].
Qed.

Lemma validated_ceiling order policy u :
  reward_policy_validate order policy = Ok u →
  f64_is_finite (hard_gate_reward_ceiling policy) = true ∧
  f64_positive (hard_gate_reward_ceiling policy) = false.
Proof.
  unfold reward_policy_validate.
  intros (_ & (_ & (_ & (_ & (_ & (Hc & _)%check_Ok)%check_Ok)%check_Ok)%check_Ok)%check_Ok)%check_Ok.
  apply bail_if_Ok, orb_false_iff in Hc as [Hf Hp]. by apply negb_false_iff in Hf.
Qed.

(** the hard gate holds back rewards exactly when it should.  It triggers when a
    policy event blocked something (if so configured) or named a gated reason code;
    then no reward of the outcome is positive, whatever the executor gave; otherwise
    the given rewards are kept as they are. *)
Theorem hard_gate_exact order rewards spans policy rewards' d :
  apply_safety_reward_policy order rewards spans policy = Ok (rewards', d) →
  (rd_hard_gate_triggered d = true ↔
     (blocked_event_triggers_hard_gate policy = true ∧ safety_blocked spans) ∨
     ∃ code, safety_codes spans code ∧ is_hard_gate_reason_code policy code = true) ∧
  (rd_hard_gate_triggered d = true → ∀ x, x ∈ rewards' → f64_positive (rw_value x) = false) ∧
  (rd_hard_gate_triggered d = false → rewards `prefix_of` rewards').
Proof.
  unfold apply_safety_reward_policy. intros ([] & Hv & H)%bind_Ok.
  destruct (validated_ceiling _ _ _ Hv) as [Hf Hc]. revert H.
  pose proof (summary_codes spans) as Hcodes. pose proof (summary_blocked spans) as Hblock.
  destruct (summarize_safety_signals spans) as [blocked codes]. cbn [ss_blocked_events ss_reason_codes] in *.
  case_match eqn:Hquiet.
  { apply andb_true_iff in Hquiet as [Hb%Nat.eqb_eq Hnil%bool_decide_eq_true]. subst.
    intros [= <- <-]. cbn. split_and!; [|done|done]. split; [done|].
    intros [[_ Hs%Hblock]|(code & Hs%Hcodes & _)]; [lia|by apply elem_of_nil in Hs]. }
  set (total := f64_add _ _). set (gate := _ || _). cbv zeta. intros [= <- <-]. cbn.
  split_and!.
  - unfold gate. rewrite orb_true_iff, andb_true_iff, existsb_exists, Nat.ltb_lt, Hblock.
    f_equiv. setoid_rewrite <- list_elem_of_In. by setoid_rewrite Hcodes.
  - intros Hg. rewrite Hg. intros x. rewrite !elem_of_app, list_elem_of_singleton.
    intros [(y & -> & _)%list_elem_of_fmap|[Hx| ->]]; [by apply clamp_not_positive| |done].
    destruct (f64_positive (hard_gate_penalty policy)) eqn:Hp; [|by apply elem_of_nil in Hx].
    apply list_elem_of_singleton in Hx as ->. by apply opposite_not_positive.
  - intros Hg. rewrite Hg. case_match; [by apply prefix_app_r|done].
Qed.

(** ** The audit *)

Section audit.
Context (schedule : nat → Turn) (Hcalm : calm schedule).
Implicit Types s : StoreInner Value.

(** What the audit should say of an attempt, and when it is a gap. *)
Definition audit_row s (k : string) (m : N) : AttemptPersistenceAudit :=
  let j := attempt_id_of k m in
  mkAttemptAudit j (at_status <$> attempts s !! j) (length (default [] (spans s !! (k, j)))).
Definition audit_gaps s (k : string) (m : N) : list string :=
  let j := attempt_id_of k m in
  audit_gap j (attempts s !! j) (default [] (spans s !! (k, j))).

Lemma run_audit_attempts numbers s n k rows gaps :
  ∃ n', run_proc schedule (audit_attempts k numbers rows gaps) (s, n) =
    (Ok (rows ++ (audit_row s k <$> numbers), gaps ++ concat (audit_gaps s k <$> numbers)), (s, n')).
Proof.
  revert n rows gaps. induction numbers as [|m numbers IH]; intros n rows gaps; cbn [audit_attempts].
  { exists n. cbn. by rewrite !app_nil_r. }
  match goal with |- context [run_proc schedule ?p ?sn] =>
    rewrite (run_await_then schedule Hcalm (GetAttempt (attempt_id_of k m)) _ _ _
      : run_proc schedule p sn = _) end. cbn [run_call].
  match goal with |- context [run_proc schedule ?p ?sn] =>
    rewrite (run_await_then schedule Hcalm (QuerySpans k (Some (attempt_id_of k m))) _ _ _
      : run_proc schedule p sn = _) end. cbn [run_call].
  destruct (IH (S (S n)) (rows ++ [audit_row s k m]) (gaps ++ audit_gaps s k m)) as [n' Hn'].
  exists n'. etrans; [exact Hn'|]. rewrite <- !(assoc_L (++)). done.
Qed.

Lemma elem_of_attempt_numbers m count : m ∈ attempt_numbers count ↔ (1 ≤ m ≤ count)%N.
Proof.
  unfold attempt_numbers. rewrite list_elem_of_fmap. setoid_rewrite elem_of_seq. split.
  - intros (i & -> & ?). lia.
  - intros ?. exists (N.to_nat m). lia.
Qed.

Lemma concat_not_nil {A B} (f : A → list B) l : concat (f <$> l) ≠ [] ↔ ∃ x, x ∈ l ∧ f x ≠ [].
Proof.
  induction l as [|x l IH]; cbn; [split; [done|by intros (? & ?%elem_of_nil & _)]|].
  setoid_rewrite elem_of_cons. split.
  - intros Hne. destruct (f x) as [|y k] eqn:Hx.
    + destruct (proj1 IH Hne) as (z & ? & ?). eauto.
    + exists x. split; [by left|by rewrite Hx].
  - intros (z & [->|Hin] & Hz) [Hnil Hrest]%app_eq_nil; [done|]. apply (proj2 IH); eauto.
Qed.

(** With the keys of the store in order, a query by id finds the rollout of that id. *)
Lemma query_one s k :
  store_ok s → query_rollouts s (ids_query [k]) = match rollouts s !! k with Some r => [r] | None => [] end.
Proof.
  intros Hok. unfold query_rollouts. cbn. rewrite drop_0. unfold matching_rollouts.
  set (q := query_matches _).
  assert (∀ r, q r = String.eqb k (ro_id r)) as Hq by (intros; cbn; by rewrite orb_false_r).
  clearbody q. assert (List.filter q (map_to_list (rollouts s)).*2 ≡ₚ match rollouts s !! k with Some r => [r] | None => [] end) as Hp.
  { assert (∀ m : gmap string (Rollout Value), (∀ i r, m !! i = Some r → ro_id r = i ∧ i ≠ k) →
      List.filter q (map_to_list m).*2 = []) as Hnone.
    { intros m Hm.
      destruct (List.filter q _) as [|r l] eqn:Hl; [done|]. exfalso.
      assert (In r (List.filter q (map_to_list m).*2)) as [Hin Hr]%filter_In by (rewrite Hl; by left).
      apply list_elem_of_In, list_elem_of_fmap in Hin as ([i r'] & -> & Hi%elem_of_map_to_list).
      cbn in *. destruct (Hm _ _ Hi) as [Hid Hne]. rewrite Hq in Hr. apply String.eqb_eq in Hr. congruence. }
    destruct (rollouts s !! k) as [r|] eqn:Hr; cbn.
    - rewrite <- (insert_delete_id _ _ _ Hr). rewrite map_to_list_insert by apply lookup_delete_eq.
      cbn. rewrite Hq, (ok_rollout_keys _ Hok _ _ Hr), String.eqb_refl, Hnone; [done|].
      intros i r' [Hne Hi]%lookup_delete_Some. split; [by apply (ok_rollout_keys _ Hok)|done].
    - rewrite Hnone; [done|]. intros i r' Hi. split; [by apply (ok_rollout_keys _ Hok)|congruence]. }
  pose proof (@merge_sort_Permutation _ _ rollout_id_le_dec (List.filter q (map_to_list (rollouts s)).*2)) as Hms.
  apply (Permutation_trans Hms) in Hp. destruct (rollouts s !! k); cbn in *.
  - by apply Permutation_singleton_r in Hp.
  - by apply Permutation_nil_r in Hp.
Qed.

(** The persistence audit is exact.  Of an unknown rollout it reports that; of a known
    one it lists every attempt the rollout has counted, with its status and the number
    of spans stored for it, and reports a gap exactly when a counted attempt has no
    record or has ended without a span. *)
Theorem audit_exact s n k :
  store_ok s →
  let '(result, (s', _)) := run_proc schedule (audit_rollout_persistence k) (s, n) in
  s' = s ∧
  match rollouts s !! k with
  | None => ∃ e, result = Err (RunnerFailed e)
  | Some r => ∃ report, result = Ok report ∧ ar_rollout_status report = ro_status r ∧
      ar_attempts report = audit_row s k <$> attempt_numbers (ro_attempt_count r) ∧
      (ar_has_persistence_gaps report = true ↔
         ∃ m, (1 ≤ m ≤ ro_attempt_count r)%N ∧
           match attempts s !! attempt_id_of k m with
           | None => True
           | Some a => attempt_is_terminal (at_status a) = true ∧
               default [] (spans s !! (k, attempt_id_of k m)) = []
           end)
  end.
Proof.
  intros Hok. unfold audit_rollout_persistence.
  match goal with |- context [run_proc schedule ?p ?sn] =>
    rewrite (run_await_then schedule Hcalm (QueryRollouts (ids_query [k])) _ _ _
      : run_proc schedule p sn = _) end. cbn [run_call]. rewrite query_one by done.
  destruct (rollouts s !! k) as [r|].
  2: { split; [done|]. by eexists. }
  rewrite run_proc_bind.
  destruct (run_audit_attempts (attempt_numbers (ro_attempt_count r)) s (S n) k [] []) as [n' ->].
  cbn [run_proc mret async_ret app]. split; [done|]. eexists. split_and!; [done..|].
  cbn. rewrite negb_true_iff, bool_decide_eq_false, concat_not_nil.
  setoid_rewrite elem_of_attempt_numbers. apply exist_proper. intros m. f_equiv.
  unfold audit_gaps, audit_gap. destruct (attempts s !! attempt_id_of k m) as [a|]; [|done].
  destruct (attempt_is_terminal (at_status a)); cbn; [case_bool_decide|]; naive_solver.
Qed.
End audit.

(** ** Concrete runs *)

(** An executor that rewards itself, and a heartbeat during each run. *)
Definition demo_executor : RolloutExecutor :=
  let _ := counting_host in
  {| execute rollout resources t :=
       (emit_reward (mkReward "demo" f64_one) t, Ok (mkOutcome (Str "done") [])) |}.
Definition one_beat : RunnerHost := {| beats _ := 1 |}.

#[export] Instance demo_executor_laws :
  @RolloutExecutorLaws counting_host demo_executor.
Proof. split. intros. apply rtc_once, step_reward. Qed.

Definition demo_config (w : string) : RunnerConfig :=
  mkRunnerConfig w (from_millis 75) (from_secs 1) (from_millis 250) (from_secs 3)
    (from_millis 25) (from_millis 500).

(** A second passes between calls; the store is unavailable at the given ones. *)
Definition timed (workers : list string) (failing : list nat) (n : nat) : Turn :=
  let now := (1000000000 * Z.of_nat n)%Z in
  mkTurn [] (mkStamp now now now workers []) (existsb (Nat.eqb n) failing).

Lemma timed_calm workers : calm (timed workers []).
Proof. done. Qed.

Definition queued_store (ids : list string) : StoreInner Value :=
  foldl (λ s id, run_store_op s (OpEnqueue (rollout_new id (Str "hello") None))) store_new ids.

Lemma queued_one_ok : store_ok (queued_store ["r1"]) ∧ attempts_room (queued_store ["r1"]) ∧
  waiting_queued (queued_store ["r1"]).
Proof.
  split_and!.
  - apply (run_store_op_ok store_new (OpEnqueue (rollout_new "r1" (Str "hello") None)));
      [apply store_new_ok|reflexivity].
  - intros k r Hr.
    assert (map_Forall (λ _ r, (ro_attempt_count r + 1 < u32_mod)%N) (rollouts (queued_store ["r1"])))
      as Hall by (apply (bool_decide_unpack _); vm_compute; exact I).
    by apply (Hall k r).
  - apply (enqueue_rollout_waiting store_new). intros k r Hr. cbn in Hr. by rewrite lookup_empty in Hr.
Qed.

Lemma poll_completes_witness :
  let schedule := timed ["w1"] [] in
  let out := run_proc schedule (@process_once counting_host one_beat demo_executor (demo_config "w1") 0 0)
               (queued_store ["r1"], 0) in
  out.1 = Ok tt ∧
  (∃ k r, rollouts (queued_store ["r1"]) !! k = Some r ∧
     (ro_status <$> rollouts out.2.1 !! k) = Some Succeeded) ∧
  (ro_status <$> rollouts out.2.1 !! "r1") = Some Succeeded ∧
  (sp_name <$> query_spans out.2.1 "r1" (Some "r1:attempt-1") []) =
    ["runner.execute_rollout"; "reward.emit"; "reward.emit"].
Proof.
  cbn [fst snd]. destruct queued_one_ok as (Hok & Hroom & Hwq).
  assert (∃ k r, rollouts (queued_store ["r1"]) !! k = Some r ∧ is_waiting (ro_status r) = true)
    as Hwait by (exists "r1"; eexists; split; vm_compute; reflexivity).
  destruct (@poll_completes counting_host one_beat demo_executor (timed ["w1"] [])
    (timed_calm ["w1"]) _ _ (demo_config "w1") 0 0 (queued_store ["r1"]) 0 Hok Hroom Hwq
    ltac:(intros; apply lookup_empty) Hwait)
    as (k & r & item & s' & n' & Hr & _ & _ & Hrun & _ & Hro & _).
  split_and!; [rewrite Hrun; reflexivity| |vm_compute; reflexivity..].
  exists k, r. split; [exact Hr|]. rewrite Hrun. exact Hro.
Defined.

(** A task run to its end, as steps of the pool. *)
Definition stamp_okb (s : StoreInner Value) (c : StoreCall) : bool :=
  match c with
  | DequeueRollout _ => bool_decide (map_Forall (λ _ r, (ro_attempt_count r + 1 < u32_mod)%N) (rollouts s))
  | ReassignTimedOutRollouts _ => false
  | _ => true
  end.

Fixpoint path_okb {A} (schedule : nat → Turn) (p : Proc A) (sn : StoreInner Value * nat) : bool :=
  match p with
  | Ret _ => true
  | Call c k =>
      stamp_okb sn.1 c &&
      path_okb schedule (k (answer (schedule sn.2) sn.1 c).2)
        ((answer (schedule sn.2) sn.1 c).1, S sn.2)
  end.

Lemma path_steps `{TH : TracerHost, RH : RunnerHost, RX : RolloutExecutor} schedule
    (p : Async bool) s n w tasks :
  calm schedule → path_okb schedule p (s, n) = true → tasks !! w = Some p →
  ∃ tasks', rtc runner_pool_step (mkRunnerPool s tasks)
    (mkRunnerPool (run_proc schedule p (s, n)).2.1 tasks').
Proof.
  intros Hcalm. unfold Async in *. revert s n tasks.
  induction p as [a|c k IH]; intros s n tasks Hp Hw; [by exists tasks|].
  cbn in Hp. apply andb_true_iff in Hp as [Hst Hp].
  assert (answer (schedule n) s c = ((run_call s (tn_stamp (schedule n)) c).1,
    map_err StoreRefused (run_call s (tn_stamp (schedule n)) c).2)) as Hans.
  { unfold answer, others_act. destruct (Hcalm n) as [-> ->]. cbn. by destruct (run_call _ _ c). }
  rewrite Hans in Hp. cbn [fst snd] in Hp.
  destruct (IH _ _ _ (<[w := _]> tasks) Hp (lookup_insert_eq _ _ _)) as [tasks' Hs].
  exists tasks'. cbn [run_proc fst snd]. rewrite Hans. eapply rtc_l; [|exact Hs].
  apply (pool_call _ _ w c k); [done|].
  destruct c; try done. cbn in Hst |- *. apply bool_decide_eq_true in Hst. intros i r. apply Hst.
Qed.

Definition demo_task : Async bool :=
  @run counting_host one_beat demo_executor (demo_config "w1") [PollTick; ShutdownChanged true true].
Definition demo_decided : StoreInner Value :=
  (run_proc (timed ["w1"] []) demo_task (queued_store ["r1"], 0)).2.1.

Lemma demo_decided_reachable : ∃ tasks,
  rtc (@runner_pool_step counting_host one_beat demo_executor) pool_new (mkRunnerPool demo_decided tasks).
Proof.
  destruct (@path_steps counting_host one_beat demo_executor (timed ["w1"] []) demo_task
    (queued_store ["r1"]) 0 "w1" {["w1" := demo_task]} (timed_calm _)) as [tasks Hs];
    [vm_compute; reflexivity|apply lookup_singleton_eq|].
  exists tasks.
  eapply rtc_l; [by apply (pool_client store_new ∅ (OpEnqueue (rollout_new "r1" (Str "hello") None)))|].
  eapply rtc_l; [apply (pool_start _ ∅ (demo_config "w1") [PollTick; ShutdownChanged true true]);
    apply lookup_empty|]. exact Hs.
Qed.


(** A policy event that blocked a message, and a perfect answer. *)
Definition blocked_trace : TrainingTracer :=
  let _ := counting_host in
  on_agent_event (SafetyPolicyApplied InboundMessage Block true ["rule"] ["prompt_injection.override"])
    (tracer_new "r1" "r1:attempt-1").
Definition in_order : gmap string f64 → list (string * f64) := map_to_list.

Lemma hard_gate_exact_witness :
  match apply_safety_reward_policy in_order [mkReward "exact_match" f64_one]
          (completed_spans blocked_trace) reward_policy_default with
  | Ok (rewards, d) => rd_hard_gate_triggered d = true ∧ length rewards = 4 ∧
      ∀ x, x ∈ rewards → f64_positive (rw_value x) = false
  | Err _ => False
  end.
Proof.
  destruct (apply_safety_reward_policy _ _ _ _) as [[rewards d]|e] eqn:Happ;
    [|vm_compute in Happ; discriminate].
  assert (rd_hard_gate_triggered d = true) as Hd
    by (vm_compute in Happ; injection Happ as <- <-; reflexivity).
  split; [exact Hd|]. split; [vm_compute in Happ; injection Happ as <- <-; reflexivity|].
  apply (hard_gate_exact _ _ _ _ _ _ Happ), Hd.
Defined.

Lemma demo_decided_ok : store_ok demo_decided.
Proof.
  destruct demo_decided_reachable as [tasks Hs]. apply (runner_pool_reachable_ok _ Hs).
Qed.

Lemma audit_exact_witness :
  ∃ report, (run_proc (timed ["w1"] []) (audit_rollout_persistence "r1") (demo_decided, 0)).1 =
      Ok report ∧ ar_has_persistence_gaps report = false ∧
    ar_attempts report = [mkAttemptAudit "r1:attempt-1" (Some AttemptSucceeded) 3].
Proof.
  pose proof (audit_exact (timed ["w1"] []) (timed_calm _) demo_decided 0 "r1" demo_decided_ok) as H.
  destruct (run_proc _ _ _) as [result [s' n']] eqn:Hrun. destruct H as [_ H].
  destruct (rollouts demo_decided !! "r1") as [r|] eqn:Hr; [|vm_compute in Hr; discriminate].
  destruct H as (report & -> & _). exists report. split; [reflexivity|].
  vm_compute in Hrun. injection Hrun as <- _ _. split; reflexivity.
Defined.

(** ** Where the runner falls short *)

(** A run whose spans cannot be stored fails after the attempt was started.  The
    runner goes on and reports itself idle, so no reassignment ever finds the attempt:
    it and its rollout stay running for good. *)
Definition stranded : Result RunnerError bool * (StoreInner Value * nat) :=
  run_proc (timed ["w1"] [5])
    (@run counting_host one_beat demo_executor (demo_config "w1")
       [PollTick; HeartbeatTick; ReassignmentTick; PollTick; ShutdownChanged true true])
    (queued_store ["r1"], 0).

Theorem failed_flush_strands_rollout :
  stranded.1 = Ok true ∧
  (ro_status <$> rollouts stranded.2.1 !! "r1") = Some Running ∧
  (at_status <$> attempts stranded.2.1 !! "r1:attempt-1") = Some AttemptRunning ∧
  (wk_active_attempt_id <$> workers stranded.2.1 !! "w1") = Some None ∧
  (reassign_timed_out_rollouts stranded.2.1 ["w1"] 3000000000 (10 ^ 18)).2 = Ok [] ∧
  (dequeue_rollout stranded.2.1 "w2" 0 0 0).2 = Ok None.
Proof. vm_compute. split_and!; reflexivity. Qed.

(** A worker vanished and its rollout was cancelled: the reassignment of another runner
    meets the cancelled rollout, and its worker loop ends with that error although a
    rollout is waiting. *)
Definition cancelled_store : StoreInner Value :=
  foldl run_store_op (queued_store ["r1"; "r2"]) [OpDequeue "w1" 0 0 0; OpCancel "r1" 1].

Definition stopped : Result RunnerError bool * (StoreInner Value * nat) :=
  run_proc (timed ["w1"; "w2"] [])
    (@run counting_host one_beat demo_executor (demo_config "w2")
       [ShutdownChanged true false; ReassignmentTick; PollTick]) (cancelled_store, 4).

Theorem cancelled_rollout_stops_runner :
  stopped.1 = Err (StoreRefused (InvalidRolloutTransition Cancelled Requeuing)) ∧
  queue stopped.2.1 = ["r2"] ∧ (ro_status <$> rollouts stopped.2.1 !! "r2") = Some Queuing.
Proof. vm_compute. split_and!; reflexivity. Qed.
