(* ===== verification/Trainer.v ===== *)
(** * The trainer and its checkpoints ([tau-trainer])

    [lib.rs]: a job enqueues its rollouts, starts a pool of runners and waits until
    the store shows every rollout finished.  The runners are the tasks of
    [TrainingRunner]; the waiting loop is a task beside them.

    [checkpoint_store.rs]: policy checkpoints saved as JSON files, loaded with a
    fallback.  The file system is the one of [AtomicIo]; the steps of a save are
    separate, so that a save may be interrupted between them. *)

From Stdlib Require Import NArith ZArith Lia.
From stdpp Require Import base gmap sets strings pretty relations sorting list.
From S2P Require Import Prelude RustStr Json BitCodec Effects StateDirs AtomicIo ChannelStore LogRotation TrainingTypes TrainingStore TrainingInvariant TrainingTheorems TrainingTracer TrainingRunner RunnerTheorems.

#[local] Open Scope string_scope.
#[local] Open Scope list_scope.
#[local] Open Scope nat_scope.

(** ** Jobs *)

Definition mode_name (mode : RolloutMode) : string :=
  match mode with Train => "train" | Val => "val" | Test => "test" end.

(** [Dataset] has two implementations: rollouts, and bare inputs. *)
Inductive Dataset :=
| RolloutRows (rows : list (Rollout Value))
| InputRows (rows : list Value).

Definition reset_rollout (mode : RolloutMode) (r : Rollout Value) : Rollout Value :=
  mkRollout (ro_id r) (ro_input r) None None (Some mode) Queuing (ro_config r) (ro_metadata r)
    None (ro_attempt_count r).

(** [next_ids] are the values the process-wide counter gives to the rows. *)
Definition into_rollouts (next_ids : nat → N) (mode : RolloutMode) (d : Dataset)
    : list (Rollout Value) :=
  match d with
  | RolloutRows rows => reset_rollout mode <$> rows
  | InputRows rows =>
      imap (λ index input,
        rollout_new (mode_name mode +:+ "-" +:+ show_usize (S index) +:+ "-" +:+
                     show_u64 (next_ids index)) input (Some mode)) rows
  end.

Record TrainerConfig := mkTrainerConfig
  { tr_worker_count : nat; tr_poll_interval : Duration; tr_heartbeat_interval : Duration;
    tr_completion_poll_interval : Duration; tr_completion_timeout : Duration }.

Definition trainer_config_default : TrainerConfig :=
  mkTrainerConfig 2 (from_millis 50) (from_secs 1) (from_millis 60) (from_secs 30).

Record TrainingSummary := mkSummary
  { ts_total_rollouts : nat; ts_succeeded : nat; ts_failed : nat; ts_cancelled : nat }.
Definition summary_default : TrainingSummary := mkSummary 0 0 0 0.

Definition count_with (st : RolloutStatus) (l : list (Rollout Value)) : nat :=
  length (List.filter (λ r, bool_decide (ro_status r = st)) l).

Definition summarize_rollouts (l : list (Rollout Value)) : TrainingSummary :=
  mkSummary (length l) (count_with Succeeded l) (count_with Failed l) (count_with Cancelled l).

(** [{:?}] of a summary *)
Definition debug_summary (s : TrainingSummary) : string :=
  "TrainingSummary { total_rollouts: " +:+ show_usize (ts_total_rollouts s) +:+
  ", succeeded: " +:+ show_usize (ts_succeeded s) +:+ ", failed: " +:+ show_usize (ts_failed s) +:+
  ", cancelled: " +:+ show_usize (ts_cancelled s) +:+ " }".

(** [Duration * u32] panics on overflow. *)
Definition duration_mul (d : Duration) (n : N) : option Duration :=
  if (d * n <=? DURATION_MAX)%N then Some (d * n)%N else None.

(** The n-th worker; [None] is a panic. *)
Definition trainer_runner (c : TrainerConfig) (index : nat) : option RunnerConfig :=
  timeout ← duration_mul (tr_heartbeat_interval c) 3;
  backoff_max ← duration_mul (tr_poll_interval c) 8;
  runner_new
    (mkRunnerConfig ("trainer-worker-" +:+ show_usize (S index)) (tr_poll_interval c)
       (tr_heartbeat_interval c) (tr_poll_interval c) timeout (tr_poll_interval c) backoff_max).

Definition trainer_workers (c : TrainerConfig) : option (list RunnerConfig) :=
  mapM (trainer_runner c) (seq 0 (Nat.max (tr_worker_count c) 1)).

Definition all_finished (rollout_ids : list string) (l : list (Rollout Value)) : bool :=
  (length l =? length rollout_ids) && forallb (λ r, rollout_is_terminal (ro_status r)) l.

(** The loop of [wait_for_completion]; a round reads from the clock how long it has
    been waiting.  [None] when the readings end before the loop does. *)
Fixpoint wait_rounds (timeout : Duration) (rollout_ids : list string) (elapsed : list Duration)
    : Async (option TrainingSummary) :=
  match elapsed with
  | [] => mret None
  | now :: elapsed =>
      l ← await (QueryRollouts (ids_query rollout_ids));
      if all_finished rollout_ids l then mret (Some (summarize_rollouts l))
      else if (timeout <=? now)%N
      then bail ("trainer timeout waiting for rollouts to complete: " +:+
                 debug_summary (summarize_rollouts l))
      else wait_rounds timeout rollout_ids elapsed
  end.

Definition wait_for_completion (c : TrainerConfig) (rollout_ids : list string)
    (elapsed : list Duration) : Async (option TrainingSummary) :=
  wait_rounds (tr_completion_timeout c) rollout_ids elapsed.

Fixpoint enqueue_all (l : list (Rollout Value)) : Async unit :=
  match l with
  | [] => mret tt
  | rollout :: rest => _ ← await (EnqueueRollout rollout); enqueue_all rest
  end.

(** The rollouts of a job: the training set, then the validation set. *)
Definition job_rollouts (next_ids : nat → nat → N) (train val : option Dataset)
    : list (Rollout Value) :=
  match train with Some d => into_rollouts (next_ids 0) Train d | None => [] end ++
  match val with Some d => into_rollouts (next_ids 1) Val d | None => [] end.

(** The workers' results, in the order they end; the first error is the job's. *)
Fixpoint join_workers (joined : list (Result RunnerError unit)) : Async unit :=
  match joined with
  | [] => mret tt
  | Ok _ :: joined => join_workers joined
  | Err e :: _ => Ret (Err e)
  end.

(** [Trainer::fit]; the workers run from the enqueueing to the shutdown, beside the
    waiting, and end with the results [joined]. *)
Definition fit (c : TrainerConfig) (next_ids : nat → nat → N) (train val : option Dataset)
    (elapsed : list Duration) (joined : list (Result RunnerError unit))
    : Async (option TrainingSummary) :=
  let rollouts := job_rollouts next_ids train val in
  match rollouts with
  | [] => mret (Some summary_default)
  | _ =>
      _ ← enqueue_all rollouts;
      match trainer_workers c with
      | None => Ret (Err Panicked)
      | Some _ =>
          summary ← wait_for_completion c (ro_id <$> rollouts) elapsed;
          match summary with
          | None => mret None
          | Some summary => _ ← join_workers joined; mret (Some summary)
          end
      end
  end.

(** ** Checkpoints *)

Definition CURRENT_CHECKPOINT_VERSION : N := 1.

Record PolicyCheckpoint := mkPolicyCheckpoint
  { pc_checkpoint_version : N; pc_run_id : string; pc_policy_state : Value;
    pc_optimizer_state : Value; pc_global_step : N; pc_optimizer_step : N;
    pc_saved_at_unix_seconds : N }.

Inductive CheckpointSource := Primary | FallbackSource.

Record ResumeCheckpointResult := mkResume
  { rc_checkpoint : PolicyCheckpoint; rc_source : CheckpointSource; rc_diagnostics : list string }.

Definition is_object (v : Value) : bool := match v with Obj _ => true | _ => false end.

Definition validate_checkpoint (p : PolicyCheckpoint) : Result string unit :=
  _ ← bail_if (negb (N.eqb (pc_checkpoint_version p) CURRENT_CHECKPOINT_VERSION))
        ("unsupported checkpoint_version " +:+ show_u64 (pc_checkpoint_version p) +:+
         "; expected " +:+ show_u64 CURRENT_CHECKPOINT_VERSION);
  _ ← bail_if (is_empty (trim (pc_run_id p))) "run_id must not be empty";
  _ ← bail_if (negb (is_object (pc_policy_state p))) "policy_state must be a JSON object";
  bail_if (negb (is_object (pc_optimizer_state p))) "optimizer_state must be a JSON object".

Definition checkpoint_to_value (p : PolicyCheckpoint) : Value :=
  json_obj
    [("checkpoint_version", Num (PosInt (pc_checkpoint_version p)));
     ("run_id", Str (pc_run_id p)); ("policy_state", pc_policy_state p);
     ("optimizer_state", pc_optimizer_state p); ("global_step", Num (PosInt (pc_global_step p)));
     ("optimizer_step", Num (PosInt (pc_optimizer_step p)));
     ("saved_at_unix_seconds", Num (PosInt (pc_saved_at_unix_seconds p)))].

Definition missing_field (field : string) : string :=
  "missing required checkpoint field `" +:+ field +:+ "`".
Definition required_value (object : list (string * Value)) (field : string) : Result string Value :=
  ok_or (missing_field field) (obj_get field object).
Definition required_string (object : list (string * Value)) (field : string)
    : Result string string :=
  raw ← ok_or (missing_field field) (obj_get field object ≫= Json.as_str);
  _ ← bail_if (is_empty (trim raw)) ("checkpoint field `" +:+ field +:+ "` must not be empty");
  Ok raw.
Definition required_u64 (object : list (string * Value)) (field : string) : Result string N :=
  ok_or (missing_field field) (obj_get field object ≫= as_u64).

Definition checkpoint_from_value (value : Value) : Result string PolicyCheckpoint :=
  object ← ok_or "checkpoint payload must be a JSON object" (as_object value);
  version ← required_u64 object "checkpoint_version";
  let checkpoint_version := wrap_u32 version in
  _ ← bail_if (negb (N.eqb checkpoint_version CURRENT_CHECKPOINT_VERSION))
        ("unsupported checkpoint_version " +:+ show_u64 checkpoint_version +:+
         "; expected " +:+ show_u64 CURRENT_CHECKPOINT_VERSION);
  run_id ← required_string object "run_id";
  policy_state ← required_value object "policy_state";
  _ ← bail_if (negb (is_object policy_state)) "`policy_state` must be a JSON object";
  optimizer_state ← required_value object "optimizer_state";
  _ ← bail_if (negb (is_object optimizer_state)) "`optimizer_state` must be a JSON object";
  global_step ← required_u64 object "global_step";
  optimizer_step ← required_u64 object "optimizer_step";
  saved_at ← required_u64 object "saved_at_unix_seconds";
  Ok (mkPolicyCheckpoint checkpoint_version run_id policy_state optimizer_state global_step
        optimizer_step saved_at).

Definition source_label (s : CheckpointSource) : string :=
  match s with Primary => "primary" | FallbackSource => "fallback" end.

Definition render_resume_operator_diagnostics (r : ResumeCheckpointResult) : string :=
  let p := rc_checkpoint r in
  join newline
    (("checkpoint_resume source=" +:+ source_label (rc_source r) +:+ " run_id=" +:+ pc_run_id p +:+
      " global_step=" +:+ show_u64 (pc_global_step p) +:+
      " optimizer_step=" +:+ show_u64 (pc_optimizer_step p)) ::
     ((λ d, "checkpoint_resume diagnostic=" +:+ d) <$> rc_diagnostics r)).

Section files.
Context `{JC : JsonCodec}.

Definition temporary_checkpoint_path (pid : N) (path : string) : string :=
  let temp_name := default "checkpoint" (file_name path) +:+ ".tmp" in
  with_file_name path (temp_name +:+ "." +:+ show_u64 pid).

(** The directory of the file; errors are the texts the calls add as context. *)
Definition create_checkpoint_dir (path : string) : FileOp unit := λ fs,
  match path_parent path with
  | Some parent =>
      if is_empty parent then (Ok tt, fs)
      else match create_dir_all parent fs with
           | (Ok _, fs) => (Ok tt, fs)
           | (Err _, fs) => (Err ("create checkpoint directory " +:+ parent), fs)
           end
  | None => (Ok tt, fs)
  end.

(** Removing the old file, if there is one. *)
Definition remove_existing (path : string) : FileOp unit :=
  there ← path_exists path;
  if (there : bool) then remove_file path ("remove existing checkpoint " +:+ path) else mret tt.

(** The steps of a save after the payload is known to be valid, in order. *)
Definition save_steps (pid : N) (path payload : string) : list (FileOp unit) :=
  let temp_path := temporary_checkpoint_path pid path in
  [create_checkpoint_dir path;
   write_file temp_path payload ("write checkpoint temp file " +:+ temp_path);
   remove_existing path;
   rename_file temp_path path
     ("atomically replace checkpoint " +:+ path +:+ " from " +:+ temp_path)].

Fixpoint run_steps (steps : list (FileOp unit)) : FileOp unit :=
  match steps with
  | [] => mret tt
  | step :: steps => _ ← step; run_steps steps
  end.

Definition save_policy_checkpoint (path : string) (p : PolicyCheckpoint) : FileOp unit :=
  _ ← of_result (validate_checkpoint p);
  pid ← gets fs_pid;
  run_steps (save_steps pid path (json_to_string_pretty (checkpoint_to_value p))).

Definition load_policy_checkpoint (path : string) (fs : TextFs) : Result string PolicyCheckpoint :=
  raw ← ok_or ("read checkpoint " +:+ path) (fs_files fs !! path);
  value ← ok_or ("parse checkpoint JSON " +:+ path) (json_parse raw);
  checkpoint ← checkpoint_from_value value;
  _ ← validate_checkpoint checkpoint;
  Ok checkpoint.

Definition load_policy_checkpoint_with_rollback (primary_path fallback_path : string) (fs : TextFs)
    : Result string ResumeCheckpointResult :=
  match load_policy_checkpoint primary_path fs with
  | Ok checkpoint => Ok (mkResume checkpoint Primary [])
  | Err primary_error =>
      match load_policy_checkpoint fallback_path fs with
      | Ok checkpoint =>
          Ok (mkResume checkpoint FallbackSource ["primary checkpoint load failed: " +:+ primary_error])
      | Err fallback_error =>
          Err ("primary checkpoint load failed: " +:+ primary_error +:+
               "; fallback checkpoint load failed: " +:+ fallback_error)
      end
  end.
End files.

(** ** What jobs promise *)

Section jobs.
Implicit Types (l : list (Rollout Value)) (s : StoreInner Value).
#[local] Arguments query_rollouts : simpl never.

Lemma finished_counts l :
  forallb (λ r, rollout_is_terminal (ro_status r)) l = true →
  count_with Succeeded l + count_with Failed l + count_with Cancelled l = length l.
Proof.
  unfold count_with. induction l as [|r l IH]; cbn; [done|]. intros [Hr Hl]%andb_true_iff.
  specialize (IH Hl). repeat case_bool_decide; cbn; try congruence; try lia.
  by destruct (ro_status r).
Qed.

Lemma run_wait_rounds schedule timeout ids elapsed s n sm s' n' :
  run_proc schedule (wait_rounds timeout ids elapsed) (s, n) = (Ok (Some sm), (s', n')) →
  all_finished ids (query_rollouts s' (ids_query ids)) = true ∧
  sm = summarize_rollouts (query_rollouts s' (ids_query ids)).
Proof.
  revert s n. induction elapsed as [|now elapsed IH]; intros s n; cbn [wait_rounds]; [done|].
  rewrite run_proc_bind. cbn [run_proc await fst snd]. unfold answer. cbv zeta.
  set (s1 := others_act _ _). destruct (tn_unavailable (schedule n)); [done|]. cbn.
  destruct (all_finished ids (query_rollouts s1 (ids_query ids))) eqn:Hall.
  - intros Heq. cbn in Heq. clearbody s1. by simplify_eq.
  - case_match; [done|]. apply IH.
Qed.

(** No ids select no rollouts. *)
Lemma query_no_ids s : query_rollouts s (ids_query []) = [].
Proof.
  unfold query_rollouts, matching_rollouts. cbn.
  assert (∀ l, List.filter (query_matches (ids_query [])) l = []) as ->; [|done].
  induction l as [|r l IH]; [done|]. cbn. by rewrite IH.
Qed.

Lemma run_join_workers schedule joined s n :
  (run_proc schedule (join_workers joined) (s, n)).2 = (s, n).
Proof. induction joined as [|[[]|] joined IH]; cbn; [done|exact IH|done]. Qed.

(** A run of the whole job that returns a summary ends with a round of waiting. *)
Lemma run_fit schedule c next_ids train val elapsed joined s n sm s' n' :
  let rollouts := job_rollouts next_ids train val in
  rollouts ≠ [] →
  run_proc schedule (fit c next_ids train val elapsed joined) (s, n) = (Ok (Some sm), (s', n')) →
  ∃ s1 n1, run_proc schedule (wait_for_completion c (ro_id <$> rollouts) elapsed) (s1, n1) =
    (Ok (Some sm), (s', n')).
Proof.
  cbn zeta. unfold fit. cbv zeta. destruct (job_rollouts next_ids train val) as [|r l] eqn:Hl; [done|].
  intros _. rewrite run_proc_bind. destruct (run_proc _ (enqueue_all _) _) as [[[]|e] [s1 n1]]; [|done].
  destruct (trainer_workers c); [|done]. rewrite run_proc_bind. intros Hrun. exists s1, n1.
  destruct (run_proc _ (wait_for_completion _ _ _) _) as [[[sm1|]|e] [s2 n2]]; [|done..].
  rewrite run_proc_bind in Hrun. pose proof (run_join_workers schedule joined s2 n2) as Hj.
  destruct (run_proc _ (join_workers joined) _) as [[[]|e] [s3 n3]]; [|done].
  cbn in Hrun, Hj. by simplify_eq.
Qed.

(** a job's summary is of a finished job.  Whatever the workers and others do
    meanwhile, when a job returns a summary, every rollout of the job is in the
    store with a final status and the summary counts them: nothing is missing, and
    successes, failures and cancellations add up to the total. *)
Theorem job_summary_exact schedule c next_ids train val elapsed joined s n sm s' n' :
  run_proc schedule (fit c next_ids train val elapsed joined) (s, n) = (Ok (Some sm), (s', n')) →
  let ids := ro_id <$> job_rollouts next_ids train val in
  let l := query_rollouts s' (ids_query ids) in
  length l = length ids ∧
  Forall (λ r, rollout_is_terminal (ro_status r) = true) l ∧
  sm = summarize_rollouts l ∧ ts_total_rollouts sm = length ids ∧
  ts_succeeded sm + ts_failed sm + ts_cancelled sm = ts_total_rollouts sm.
Proof.
  intros Hrun. cbn zeta. destruct (decide (job_rollouts next_ids train val = [])) as [Hnil|Hne].
  { unfold fit in Hrun. rewrite Hnil in Hrun |- *. cbn in Hrun. simplify_eq. by rewrite query_no_ids. }
  apply run_fit in Hrun as (s1 & n1 & [Hall ->]%run_wait_rounds); [|done]. unfold all_finished in Hall.
  apply andb_true_iff in Hall as [Hlen%Nat.eqb_eq Hall]. cbn. split_and!; try done.
  - apply Forall_forall. intros r Hr. rewrite forallb_forall in Hall.
    apply Hall. by apply list_elem_of_In.
  - by apply finished_counts.
Qed.

(** Waiting ends: with a reading at least [i] intervals after the [i]-th sleep, more than
    [timeout / interval] readings are enough for a summary or an error. *)
Theorem waiting_ends schedule c ids elapsed s n :
  (0 < tr_completion_poll_interval c)%N →
  (tr_completion_timeout c / tr_completion_poll_interval c + 1 < N.of_nat (length elapsed))%N →
  (∀ i e, elapsed !! i = Some e → N.of_nat i * tr_completion_poll_interval c ≤ e)%N →
  (run_proc schedule (wait_for_completion c ids elapsed) (s, n)).1 ≠ Ok None.
Proof.
  intros Hpos Hlen Hel. unfold wait_for_completion. set (timeout := tr_completion_timeout c) in *.
  assert (∃ e, e ∈ elapsed ∧ (timeout ≤ e)%N) as (e & Hin & He).
  { set (i := N.to_nat (timeout / tr_completion_poll_interval c + 1)).
    destruct (lookup_lt_is_Some_2 elapsed i) as [e He]; [lia|]. exists e.
    split; [by eapply list_elem_of_lookup_2|]. specialize (Hel _ _ He).
    pose proof (N.mul_succ_div_gt timeout (tr_completion_poll_interval c)). nia. }
  clear Hlen Hel Hpos. revert s n. induction elapsed as [|now elapsed IH]; intros s n;
    [by apply elem_of_nil in Hin|].
  cbn [wait_rounds]. rewrite run_proc_bind. cbn [run_proc await fst snd]. unfold answer. cbv zeta.
  set (s1 := others_act _ _). destruct (tn_unavailable (schedule n)); [done|]. cbn.
  destruct (all_finished ids (query_rollouts s1 (ids_query ids))); [done|].
  destruct (N.leb_spec timeout now); [done|].
  apply IH. apply elem_of_cons in Hin as [->|?]; [lia|done].
Qed.

(** The workers of a job have different names, so none takes another's place in the
    store, and as long as there is time between polls and the times fit a [Duration]
    there is at least one and starting them does not panic. *)
Theorem job_workers_fit c :
  (∀ workers, trainer_workers c = Some workers → NoDup (worker_id <$> workers) ∧ workers ≠ []) ∧
  ((0 < tr_poll_interval c)%N → (tr_poll_interval c * 8 ≤ DURATION_MAX)%N →
   (tr_heartbeat_interval c * 3 ≤ DURATION_MAX)%N → is_Some (trainer_workers c)).
Proof.
  unfold trainer_workers. split.
  - intros workers Hw%mapM_Some_1. split.
    + assert (worker_id <$> workers =
        (λ i, "trainer-worker-" +:+ show_usize (S i)) <$> seq 0 (Nat.max (tr_worker_count c) 1)) as ->.
      { induction Hw as [|i w l workers Hi _ IH]; [done|]. cbn. rewrite IH. f_equal.
        unfold trainer_runner, runner_new in Hi. repeat (case_match || simplify_option_eq); done. }
      apply NoDup_fmap_2; [|apply NoDup_seq].
      intros i j Heq. apply (inj (String.app "trainer-worker-")) in Heq.
      apply (inj (R := (=)) (pretty (A := nat))) in Heq. lia.
    + intros ->. apply Forall2_length in Hw. rewrite length_seq in Hw. cbn in Hw. lia.
  - intros Hpos H8 H3. apply mapM_is_Some, Forall_forall. intros i _.
    unfold trainer_runner, duration_mul. rewrite (proj2 (N.leb_le _ _)), (proj2 (N.leb_le _ _)) by done.
    cbn. unfold runner_new, runner_config_validate. cbn.
    rewrite (proj2 (N.eqb_neq _ _)) by lia. rewrite (proj2 (N.eqb_neq _ _)) by lia.
    rewrite (proj2 (N.ltb_ge _ _)) by lia. by eexists.
Qed.
End jobs.

(** ** What checkpoints promise *)

Section checkpoints.
Context `{JC : JsonCodec} `{!JsonCodecLaws JC}.
Implicit Types (fs : TextFs) (p : PolicyCheckpoint).

(** Reading the fields of a written checkpoint. *)
Lemma checkpoint_value_roundtrip p :
  validate_checkpoint p = Ok tt → checkpoint_from_value (checkpoint_to_value p) = Ok p.
Proof.
  destruct p as [version run_id policy optimizer step ostep saved]. unfold validate_checkpoint.
  cbn [pc_checkpoint_version pc_run_id pc_policy_state pc_optimizer_state].
  intros (Hv & (Hr & (Hp & Ho)%check_Ok)%check_Ok)%check_Ok.
  apply bail_if_Ok, negb_false_iff, N.eqb_eq in Hv as ->.
  apply bail_if_Ok in Hr. apply bail_if_Ok, negb_false_iff in Hp. apply bail_if_Ok, negb_false_iff in Ho.
  unfold checkpoint_to_value, json_obj. cbn [foldl fst snd pc_checkpoint_version pc_run_id
    pc_policy_state pc_optimizer_state pc_global_step pc_optimizer_step pc_saved_at_unix_seconds].
  unfold checkpoint_from_value, required_u64, required_string, required_value.
  cbn [as_object ok_or mbind result_bind]. repeat (rewrite !obj_get_insert; cbn -[trim is_object]).
  rewrite Hr. cbn -[is_object]. rewrite Hp. cbn -[is_object]. by rewrite Ho.
Qed.

Lemma temporary_ne pid path : temporary_checkpoint_path pid path ≠ path.
Proof.
  unfold temporary_checkpoint_path. rewrite <- (string_app_assoc _ ".tmp").
  apply (with_file_name_temp_ne path ""). rewrite !chars_of_app, !length_app. cbn. lia.
Qed.

(** During a save that began in [fs], no file but the temporary one and the destination
    has changed, and the destination is old, absent or new. *)
Definition save_view (path payload : string) (fs fs' : TextFs) : Prop :=
  (∀ other, other ≠ path → other ≠ temporary_checkpoint_path (fs_pid fs) path →
     fs_files fs' !! other = fs_files fs !! other) ∧
  (fs_files fs' !! path = fs_files fs !! path ∨ fs_files fs' !! path = None ∨
   fs_files fs' !! path = Some payload).

(** The payload has been written beside the destination. *)
Definition save_written (path payload : string) (fs fs' : TextFs) : Prop :=
  save_view path payload fs fs' ∧
  fs_files fs' !! temporary_checkpoint_path (fs_pid fs) path = Some payload.

Section save.
Context (path payload : string) (fs0 : TextFs).
#[local] Abbreviation temp := (temporary_checkpoint_path (fs_pid fs0) path).

Lemma save_begins : save_view path payload fs0 fs0.
Proof. split; [done|]. by left. Qed.

Lemma save_create fs :
  save_view path payload fs0 fs → save_view path payload fs0 (create_checkpoint_dir path fs).2.
Proof. unfold save_view, create_checkpoint_dir, create_dir_all. by repeat case_match; simplify_eq. Qed.

Lemma save_write fs failure :
  save_view path payload fs0 fs →
  match write_file temp payload failure fs with
  | (Ok _, fs') => save_written path payload fs0 fs'
  | (Err _, fs') => save_view path payload fs0 fs'
  end.
Proof.
  intros [Ho Hp]. unfold write_file. destruct (_ || _); [done|]. split; cbn; [|by rewrite lookup_insert_eq].
  pose proof (temporary_ne (fs_pid fs0) path). unfold save_view. cbn. split.
  - intros other H1 H2. rewrite lookup_insert_ne by done. auto.
  - by rewrite lookup_insert_ne by done.
Qed.

Lemma save_remove fs :
  save_written path payload fs0 fs → save_written path payload fs0 (remove_existing path fs).2.
Proof.
  intros [[Ho Hp] Ht]. unfold remove_existing, remove_file, path_exists.
  rewrite eff_bind_unfold. cbn. destruct (_ || _); [|done].
  destruct (_ || _); [done|]. cbn.
  pose proof (temporary_ne (fs_pid fs0) path). unfold save_written, save_view. cbn. split_and!.
  - intros other H1 H2. rewrite lookup_delete_ne by done. auto.
  - right; left. apply lookup_delete_eq.
  - by rewrite lookup_delete_ne by done.
Qed.

Lemma save_rename fs failure :
  save_written path payload fs0 fs →
  match rename_file temp path failure fs with
  | (Ok _, fs') => save_view path payload fs0 fs' ∧ fs_files fs' !! path = Some payload
  | (Err _, fs') => save_view path payload fs0 fs'
  end.
Proof.
  intros [[Ho Hp] Ht]. unfold rename_file. destruct (_ || _); [done|]. rewrite Ht. cbn.
  unfold save_view. cbn. rewrite !lookup_insert_eq. split_and!; [|by right; right|done].
  intros other H1 H2. rewrite lookup_insert_ne, lookup_delete_ne by done. auto.
Qed.

(** A save interrupted after any number of steps. *)
Lemma interrupted_save n :
  let '(result, fs') := run_steps (take n (save_steps (fs_pid fs0) path payload)) fs0 in
  save_view path payload fs0 fs' ∧
  (4 ≤ n → result = Ok tt → fs_files fs' !! path = Some payload).
Proof.
  pose proof save_begins as H. unfold save_steps.
  destruct n as [|n]; [split; [done|lia]|]. cbn [take run_steps]. rewrite eff_bind_unfold.
  apply save_create in H. destruct (create_checkpoint_dir path fs0) as [[[]|e] fs1]; [|by split].
  destruct n as [|n]; [split; [done|lia]|]. cbn [take run_steps snd] in *. rewrite eff_bind_unfold.
  pose proof (save_write fs1 ("write checkpoint temp file " +:+ temp) H) as H2.
  destruct (write_file _ _ _ fs1) as [[[]|e] fs2]; [|by split].
  destruct n as [|n]; [split; [apply H2|lia]|]. cbn [take run_steps]. rewrite eff_bind_unfold.
  pose proof (save_remove fs2 H2) as H3.
  destruct (remove_existing path fs2) as [[[]|e] fs3]; cbn [snd] in H3; [|split; [apply H3|done]].
  destruct n as [|n]; [split; [apply H3|lia]|]. cbn [take run_steps]. rewrite eff_bind_unfold.
  pose proof (save_rename fs3 ("atomically replace checkpoint " +:+ path +:+ " from " +:+ temp) H3) as H4.
  destruct (rename_file _ _ _ fs3) as [[[]|e] fs4]; [|by split].
  replace (take n _) with (@nil (FileOp unit)) by (by destruct n). split; [apply H4|by intros _ _; apply H4].
Qed.
End save.

#[local] Arguments checkpoint_to_value : simpl never.
#[local] Arguments checkpoint_from_value : simpl never.


(** A save of the primary checkpoint can be interrupted anywhere: as long as the
    fallback is another file that loads, resuming returns the new primary, the old
    one, or the fallback. *)
Theorem resume_after_interrupted_save primary fallback p f fs n :
  plain_value (checkpoint_to_value p) = true → validate_checkpoint p = Ok tt →
  fallback ≠ primary → fallback ≠ temporary_checkpoint_path (fs_pid fs) primary →
  load_policy_checkpoint fallback fs = Ok f →
  let payload := json_to_string_pretty (checkpoint_to_value p) in
  let fs' := (run_steps (take n (save_steps (fs_pid fs) primary payload)) fs).2 in
  ∃ r, load_policy_checkpoint_with_rollback primary fallback fs' = Ok r ∧
    match rc_source r with
    | Primary => rc_checkpoint r = p ∨ load_policy_checkpoint primary fs = Ok (rc_checkpoint r)
    | FallbackSource => rc_checkpoint r = f
    end.
Proof.
  intros Hplain Hv H1 H2 Hf payload fs'.
  pose proof (interrupted_save primary payload fs n) as H.
  unfold fs'. destruct (run_steps _ fs) as [result fs1]. destruct H as [[Ho Hp] _]. cbn [snd].
  assert (load_policy_checkpoint fallback fs1 = Ok f) as Hf1.
  { rewrite <- Hf. unfold load_policy_checkpoint. by rewrite Ho. }
  assert (load_policy_checkpoint primary fs1 = load_policy_checkpoint primary fs ∨
    (∃ e, load_policy_checkpoint primary fs1 = Err e) ∨ load_policy_checkpoint primary fs1 = Ok p) as Hcase.
  { unfold load_policy_checkpoint. destruct Hp as [-> |[-> | ->]]; [by left|right; left; by eexists|].
    right; right. cbn. unfold payload. rewrite json_parse_pretty by done. cbn.
    rewrite checkpoint_value_roundtrip by done. cbn. by rewrite Hv. }
  unfold load_policy_checkpoint_with_rollback. rewrite Hf1.
  destruct (load_policy_checkpoint primary fs1) as [q|e]; eexists; (split; [done|]); cbn; [|done].
  destruct Hcase as [Hq|[[e He]|[= ->]]]; [by right|done|by left].
Qed.
End checkpoints.

(** ** Concrete runs *)

Definition demo_checkpoint (step : N) : PolicyCheckpoint :=
  mkPolicyCheckpoint 1 "run-1" (json_obj [("weights", Arr [Num (PosInt 3)])])
    (json_obj [("lr", Str "fixed")]) step step 1700000000.

Definition demo_fs (rename_denied : bool) : TextFs :=
  mkTextFs ∅ ∅ (λ _, false) (λ _, rename_denied) 42 0.

(** A directory in which a checkpoint has been saved under both names. *)
Definition saved_fs (rename_denied : bool) : TextFs :=
  let fs1 := (@save_policy_checkpoint bits_json "out/p.json" (demo_checkpoint 7) (demo_fs false)).2 in
  let fs2 := (@save_policy_checkpoint bits_json "out/f.json" (demo_checkpoint 5) fs1).2 in
  mkTextFs (fs_files fs2) (fs_dirs fs2) (λ _, false) (λ _, rename_denied) 42 0.


Lemma resume_after_interrupted_save_witness :
  let payload := @json_to_string_pretty bits_json (checkpoint_to_value (demo_checkpoint 8)) in
  let fs' := (run_steps (take 3 (save_steps 42 "out/p.json" payload)) (saved_fs false)).2 in
  ∃ r, @load_policy_checkpoint_with_rollback bits_json "out/p.json" "out/f.json" fs' = Ok r ∧
    rc_source r = FallbackSource ∧ rc_checkpoint r = demo_checkpoint 5.
Proof.
  destruct (@resume_after_interrupted_save bits_json bits_json_laws "out/p.json" "out/f.json"
    (demo_checkpoint 8) (demo_checkpoint 5) (saved_fs false) 3) as (r & Hr & Hs);
    [vm_compute; reflexivity|reflexivity|done|by vm_compute|vm_compute; reflexivity|].
  exists r. split; [exact Hr|]. change (fs_pid (saved_fs false)) with 42%N in Hr. clear Hs.
  vm_compute in Hr. injection Hr as <-. split; reflexivity.
Defined.

(** Saving is not atomic, though the error of its last step says so: the old
    checkpoint is removed before the new one is renamed, so a rename that fails leaves
    neither (the new one stays under its temporary name). *)
Theorem failed_rename_loses_checkpoint :
  let out := @save_policy_checkpoint bits_json "out/p.json" (demo_checkpoint 8) (saved_fs true) in
  @load_policy_checkpoint bits_json "out/p.json" (saved_fs true) = Ok (demo_checkpoint 7) ∧
  out.1 = Err "atomically replace checkpoint out/p.json from out/p.json.tmp.42" ∧
  @load_policy_checkpoint bits_json "out/p.json" out.2 = Err "read checkpoint out/p.json".
Proof. vm_compute. split_and!; reflexivity. Qed.

(** The version is cut to 32 bits before it is compared: a file of another version is
    accepted as one of version 1. *)
Theorem other_version_accepted :
  let value := match checkpoint_to_value (demo_checkpoint 8) with
               | Obj fields => Obj (obj_insert "checkpoint_version" (Num (PosInt 4294967297)) fields)
               | v => v
               end in
  checkpoint_from_value value = Ok (demo_checkpoint 8).
Proof. vm_compute. reflexivity. Qed.

(** A job of one rollout that a worker finishes between two rounds of waiting. *)
Definition demo_job : Async (option TrainingSummary) :=
  fit trainer_config_default (λ _ _, 1%N) (Some (InputRows [Str "2 + 2"])) (@None Dataset) [0; 60000000]%N
    [Ok tt; Ok tt].

Definition demo_schedule (n : nat) : Turn :=
  let turn := timed ["trainer-worker-1"] [] n in
  let id := "train-1-1" in
  if n =? 2
  then mkTurn [OpDequeue "trainer-worker-1" 0 0 0;
               OpUpdateAttempt (id +:+ ":attempt-1") AttemptSucceeded None 1 1;
               OpUpdateRollout id Succeeded 1] (tn_stamp turn) false
  else turn.

Lemma job_summary_exact_witness :
  let out := run_proc demo_schedule demo_job (store_new, 0) in
  out.1 = Ok (Some (mkSummary 1 1 0 0)) ∧
  length (query_rollouts out.2.1 (ids_query ["train-1-1"])) = 1.
Proof.
  assert ((run_proc demo_schedule demo_job (store_new, 0)).1 = Ok (Some (mkSummary 1 1 0 0)))
    as H by (vm_compute; reflexivity).
  cbn zeta. destruct (run_proc demo_schedule demo_job _) as [r [s' n']] eqn:Hrun.
  cbn [fst snd] in *. subst r. split; [reflexivity|].
  apply (job_summary_exact _ _ _ _ _ _ _ _ _ _ _ _ Hrun).
Defined.

Lemma waiting_ends_witness :
  let c := mkTrainerConfig 1 10 10 10 20 in
  (run_proc (timed ["w1"] []) (wait_for_completion c ["r1"] [0; 10; 20; 30]%N)
     (queued_store ["r1"], 0)).1 ≠ Ok None.
Proof.
  apply waiting_ends; [reflexivity..|]. intros i e He.
  do 4 (destruct i as [|i]; [by injection He as <-|]). discriminate He.
Defined.
