(* ===== verification/ToolFs.v ===== *)
(** * The file system the tools work on ([tau-tools], [runtime_helpers.rs])

    A tree of files, directories and symbolic links, with the path lookup of Unix and
    the calls of [std::fs] the tools make.  On top of it: how the tools find the
    location a path names ([canonicalize_best_effort]) and what is proved of it. *)

From Stdlib Require Import NArith Ascii Lia.
From stdpp Require Import base gmap strings list.
From S2P Require Import Prelude RustStr.

#[local] Open Scope string_scope.
#[local] Open Scope list_scope.
#[local] Open Scope nat_scope.

(** ** Paths *)

(** [std::path::Component]; a path has a [CurDir] only at its start. *)
Inductive Component := CurDir | ParentDir | Normal (name : string).

#[export] Instance component_eq_dec : EqDecision Component.
Proof. solve_decision. Defined.

(** What a path's text means: where it starts, its components, and whether it ends
    like a directory ([a/] or [a/.]). *)
Record Path := mkPath
  { p_absolute : bool; p_components : list Component; p_directory : bool }.

Definition component_of (s : string) : Component :=
  if String.eqb s ".." then ParentDir else Normal s.

Definition path_of (text : string) : Path :=
  let segments := split_on slash text in
  let absolute := starts_with "/" text in
  let names := component_of <$> path_components text in
  mkPath absolute
    (if negb absolute && bool_decide (head segments = Some ".") then CurDir :: names else names)
    (match names with
     | [] => false
     | _ => match last segments with
            | Some s => String.eqb s "" || String.eqb s "."
            | None => false
            end
     end).

Definition is_absolute (text : string) : bool := p_absolute (path_of text).

(** [Path::join] *)
Definition join_path (base text : string) : string :=
  if is_absolute text then text
  else match last (chars_of base) with
       | None => text
       | Some c => if Ascii.eqb c slash then base +:+ text else base +:+ "/" +:+ text
       end.

(** The empty path names nothing. *)
Definition path_is_empty (p : Path) : bool :=
  negb (p_absolute p) && match p_components p with [] => true | _ => false end.

(** [Path::parent] *)
Definition parent (p : Path) : option Path :=
  match reverse (p_components p) with
  | [] => None
  | _ :: rest => Some (mkPath (p_absolute p) (reverse rest) false)
  end.

(** A resolved location: the names from the root. *)
Abbreviation Location := (list string).
Definition display (q : Location) : string := "/" +:+ join "/" q.
Definition location_path (q : Location) : Path := mkPath true (Normal <$> q) false.

(** ** The tree *)

Inductive Node := FileNode (content : string) | DirNode | LinkNode (target : string).

#[export] Instance node_eq_dec : EqDecision Node.
Proof. solve_decision. Defined.

Inductive IoErrorKind :=
  NotFound | NotADirectory | IsADirectory | AlreadyExists | PermissionDenied | FilesystemLoop
| InvalidData.

(** The root directory is not an entry.  [ft_denied] locations cannot be created or
    opened for writing. *)
Record FileTree := mkTree
  { ft_nodes : gmap Location Node; ft_cwd : Location; ft_denied : Location → bool }.

Definition set_nodes (m : gmap Location Node) (fs : FileTree) : FileTree :=
  mkTree m (ft_cwd fs) (ft_denied fs).

(** The outcome of a lookup: an entry, a free place in an existing directory, or an
    error. *)
Inductive Lookup :=
| At (q : Location) (n : Node)
| Free (q : Location)
| Fails (e : IoErrorKind).

(** The kernel gives up after this many links. *)
Definition MAX_SYMLINKS : nat := 40.

Definition parent_of (q : Location) : Location := take (length q - 1) q.

(** The lookup from directory [cur]; [links] more links may be followed, and with
    [dir] the path must name a directory. *)
Fixpoint walk (nodes : gmap Location Node) (links : nat)
    : Location → list Component → bool → Lookup :=
  fix go (cur : Location) (cs : list Component) (dir : bool) {struct cs} : Lookup :=
    match cs with
    | [] => At cur DirNode
    | CurDir :: rest => go cur rest dir
    | ParentDir :: rest => go (parent_of cur) rest dir
    | Normal name :: rest =>
        let here := cur ++ [name] in
        match nodes !! here with
        | None =>
            match rest with [] => if dir then Fails NotFound else Free here | _ => Fails NotFound end
        | Some DirNode => go here rest dir
        | Some (FileNode content) =>
            match rest with
            | [] => if dir then Fails NotADirectory else At here (FileNode content)
            | _ => Fails NotADirectory
            end
        | Some (LinkNode target) =>
            let t := path_of target in
            match links with
            | O => Fails FilesystemLoop
            | S links =>
                if path_is_empty t then Fails NotFound
                else walk nodes links (if p_absolute t then [] else cur) (p_components t ++ rest)
                       (match rest with [] => dir || p_directory t | _ => dir end)
            end
        end
    end.

Definition start (fs : FileTree) (p : Path) : Location :=
  if p_absolute p then [] else ft_cwd fs.

Definition lookup_path (fs : FileTree) (p : Path) : Lookup :=
  if path_is_empty p then Fails NotFound
  else walk (ft_nodes fs) MAX_SYMLINKS (start fs p) (p_components p) (p_directory p).

(** [std::fs::metadata] *)
Definition metadata (fs : FileTree) (p : Path) : Result IoErrorKind Node :=
  match lookup_path fs p with At _ n => Ok n | Free _ => Err NotFound | Fails e => Err e end.
(** [Path::exists] *)
Definition path_exists (fs : FileTree) (p : Path) : bool :=
  match lookup_path fs p with At _ _ => true | _ => false end.
(** [Path::is_dir] *)
Definition is_dir (fs : FileTree) (p : Path) : bool :=
  match lookup_path fs p with At _ DirNode => true | _ => false end.
(** [std::fs::canonicalize] *)
Definition canonicalize (fs : FileTree) (p : Path) : Result IoErrorKind Location :=
  match lookup_path fs p with At q _ => Ok q | Free _ => Err NotFound | Fails e => Err e end.

(** A path as its directory and its last name, when it ends in one. *)
Definition split_last (p : Path) : option (list Component * string) :=
  match reverse (p_components p) with
  | Normal name :: rest => Some (reverse rest, name)
  | _ => None
  end.

(** [std::fs::symlink_metadata]: a final link is not followed. *)
Definition symlink_metadata (fs : FileTree) (p : Path) : Result IoErrorKind Node :=
  match split_last p with
  | Some (dir, name) =>
      if p_directory p then metadata fs p
      else match walk (ft_nodes fs) MAX_SYMLINKS (start fs p) dir true with
           | At q _ => ok_or NotFound (ft_nodes fs !! (q ++ [name]))
           | Free _ => Err NotFound
           | Fails e => Err e
           end
  | None => metadata fs p
  end.

(** [mkdir] *)
Definition mkdir (fs : FileTree) (p : Path) : Result IoErrorKind FileTree :=
  match split_last p with
  | Some (dir, name) =>
      match walk (ft_nodes fs) MAX_SYMLINKS (start fs p) dir true with
      | At q _ =>
          let here := q ++ [name] in
          match ft_nodes fs !! here with
          | Some _ => Err AlreadyExists
          | None =>
              if ft_denied fs here then Err PermissionDenied
              else Ok (set_nodes (<[here := DirNode]> (ft_nodes fs)) fs)
          end
      | Free _ => Err NotFound
      | Fails e => Err e
      end
  | None => match lookup_path fs p with Fails e => Err e | _ => Err AlreadyExists end
  end.

(** [std::fs::create_dir_all], on the components in reverse. *)
Fixpoint create_dir_all_rev (absolute : bool) (rev : list Component) (fs : FileTree)
    : Result IoErrorKind unit * FileTree :=
  let p := mkPath absolute (reverse rev) false in
  if path_is_empty p then (Ok tt, fs)
  else
    match mkdir fs p with
    | Ok fs => (Ok tt, fs)
    | Err NotFound =>
        match rev with
        | [] => (Err NotFound, fs)
        | _ :: rest =>
            match create_dir_all_rev absolute rest fs with
            | (Err e, fs) => (Err e, fs)
            | (Ok _, fs) =>
                match mkdir fs p with
                | Ok fs => (Ok tt, fs)
                | Err e => if is_dir fs p then (Ok tt, fs) else (Err e, fs)
                end
            end
        end
    | Err e => if is_dir fs p then (Ok tt, fs) else (Err e, fs)
    end.

Definition create_dir_all (p : Path) (fs : FileTree) : Result IoErrorKind unit * FileTree :=
  create_dir_all_rev (p_absolute p) (reverse (p_components p)) fs.

(** [std::fs::write] *)
Definition write_file (p : Path) (content : string) (fs : FileTree)
    : Result IoErrorKind unit * FileTree :=
  let store q :=
    if ft_denied fs q then (Err PermissionDenied, fs)
    else (Ok tt, set_nodes (<[q := FileNode content]> (ft_nodes fs)) fs) in
  match lookup_path fs p with
  | At q (FileNode _) => store q
  | At _ _ => (Err IsADirectory, fs)
  | Free q => store q
  | Fails e => (Err e, fs)
  end.

(** [std::fs::read_to_string] *)
Definition read_to_string (fs : FileTree) (p : Path) : Result IoErrorKind string :=
  match lookup_path fs p with
  | At _ (FileNode content) => if is_utf8 content then Ok content else Err InvalidData
  | At _ _ => Err IsADirectory
  | Free _ => Err NotFound
  | Fails e => Err e
  end.

#[global] Arguments walk : simpl never.
#[global] Arguments lookup_path : simpl never.
#[global] Arguments mkdir : simpl never.
#[global] Arguments path_of : simpl never.

(** ** Locating a path that need not exist *)

(** [io::Error]: the operating system's, or the one the code makes. *)
Inductive LocateError := OsError (e : IoErrorKind) | NoExistingAncestor.

(** The [while] loop of [canonicalize_best_effort]: [missing] are the names left out so
    far; a parent component has no file name and is left out without a trace. *)
Fixpoint canonicalize_ancestor (fs : FileTree) (absolute : bool) (rev : list Component)
    (missing : list string) : Result LocateError Location :=
  let p := mkPath absolute (reverse rev) false in
  if path_exists fs p
  then match canonicalize fs p with Ok q => Ok (q ++ missing) | Err e => Err (OsError e) end
  else match rev with
       | [] => Err NoExistingAncestor
       | Normal name :: rest => canonicalize_ancestor fs absolute rest (name :: missing)
       | _ :: rest => canonicalize_ancestor fs absolute rest missing
       end.

Definition canonicalize_best_effort (fs : FileTree) (p : Path) : Result LocateError Location :=
  if path_exists fs p
  then match canonicalize fs p with Ok q => Ok q | Err e => Err (OsError e) end
  else match reverse (p_components p) with
       | [] => Err NoExistingAncestor
       | Normal name :: rest => canonicalize_ancestor fs (p_absolute p) rest [name]
       | _ :: rest => canonicalize_ancestor fs (p_absolute p) rest []
       end.

(** [create_dir_all] of the parent, then [write]; the step that failed is told. *)
Inductive WriteError := ParentError (e : IoErrorKind) | FileError (e : IoErrorKind).

Definition write_creating (p : Path) (content : string) (fs : FileTree)
    : Result WriteError unit * FileTree :=
  let write fs :=
    match write_file p content fs with
    | (Ok _, fs) => (Ok tt, fs)
    | (Err e, fs) => (Err (FileError e), fs)
    end in
  match parent p with
  | None => write fs
  | Some d =>
      if path_is_empty d then write fs
      else match create_dir_all d fs with
           | (Ok _, fs) => write fs
           | (Err e, fs) => (Err (ParentError e), fs)
           end
  end.

(** Whether a write to a path that does not exist creates what
    [canonicalize_best_effort] foresees: the part that is missing has no [..], and its
    first name is not taken by a link that leads nowhere. *)
Fixpoint plain_ancestor (fs : FileTree) (absolute : bool) (rev : list Component)
    (missing : list string) : bool :=
  let p := mkPath absolute (reverse rev) false in
  if path_exists fs p
  then match canonicalize fs p, missing with
       | Ok q, name :: _ => bool_decide (ft_nodes fs !! (q ++ [name]) = None)
       | _, _ => false
       end
  else match rev with
       | Normal name :: rest => plain_ancestor fs absolute rest (name :: missing)
       | _ => false
       end.

Definition lands_in_place (fs : FileTree) (p : Path) : bool :=
  path_exists fs p
  || match reverse (p_components p) with
     | Normal name :: rest => plain_ancestor fs (p_absolute p) rest [name]
     | _ => false
     end.

(** ** Lookups *)

Section walks.
Implicit Types (nodes : gmap Location Node) (cur q : Location) (cs rest : list Component).

(** Equations of [walk], one per case. *)
Lemma walk_unfold nodes links cur cs dir :
  walk nodes links cur cs dir =
    match cs with
    | [] => At cur DirNode
    | CurDir :: rest => walk nodes links cur rest dir
    | ParentDir :: rest => walk nodes links (parent_of cur) rest dir
    | Normal name :: rest =>
        let here := cur ++ [name] in
        match nodes !! here with
        | None =>
            match rest with [] => if dir then Fails NotFound else Free here | _ => Fails NotFound end
        | Some DirNode => walk nodes links here rest dir
        | Some (FileNode content) =>
            match rest with
            | [] => if dir then Fails NotADirectory else At here (FileNode content)
            | _ => Fails NotADirectory
            end
        | Some (LinkNode target) =>
            let t := path_of target in
            match links with
            | O => Fails FilesystemLoop
            | S links =>
                if path_is_empty t then Fails NotFound
                else walk nodes links (if p_absolute t then [] else cur) (p_components t ++ rest)
                       (match rest with [] => dir || p_directory t | _ => dir end)
            end
        end
    end.
Proof. by destruct links, cs as [|[]]. Qed.

(** A lookup of a longer path goes through the directory its beginning names. *)
Definition passes nodes links cur cs : Prop :=
  (∃ e, walk nodes links cur cs true = Fails e ∧
     ∀ rest dir, rest ≠ [] → ∃ e', walk nodes links cur (cs ++ rest) dir = Fails e') ∨
  (∃ q links', walk nodes links cur cs true = At q DirNode ∧
     ∀ rest dir, rest ≠ [] → walk nodes links cur (cs ++ rest) dir = walk nodes links' q rest dir).

Lemma passes_step nodes links cur cs links1 cur1 cs1 :
  walk nodes links cur cs true = walk nodes links1 cur1 cs1 true →
  (∀ rest dir, rest ≠ [] →
     walk nodes links cur (cs ++ rest) dir = walk nodes links1 cur1 (cs1 ++ rest) dir) →
  passes nodes links1 cur1 cs1 → passes nodes links cur cs.
Proof.
  intros H1 H2 [(e & He & Hr)|(q & l & Hq & Hr)]; [left|right; exists q, l].
  - exists e. split; [congruence|]. intros rest dir Hne. rewrite H2 by done. auto.
  - split; [congruence|]. intros rest dir Hne. rewrite H2 by done. auto.
Qed.

Lemma passes_fails nodes links cur cs :
  (∃ e, walk nodes links cur cs true = Fails e) →
  (∀ rest dir, rest ≠ [] → ∃ e, walk nodes links cur (cs ++ rest) dir = Fails e) →
  passes nodes links cur cs.
Proof. intros [e He] Hr. left. eauto. Qed.

Lemma walk_app nodes links cur cs : passes nodes links cur cs.
Proof.
  revert cur cs. induction links as [|links IHl]; intros cur cs; revert cur;
    (induction cs as [|c cs IHc]; intros cur; [right; by eexists _, _|]);
    (destruct c as [| |name]; [eapply passes_step; [| |apply IHc]; intros; by rewrite walk_unfold..|]);
    (destruct (nodes !! (cur ++ [name])) as [[content| |target]|] eqn:Hn;
     [apply passes_fails| |
      |apply passes_fails]);
    try (by eapply (passes_step _ _ _ _ _ (cur ++ [name]) cs); [| |apply IHc];
         intros; rewrite walk_unfold; cbn [app]; rewrite ?Hn).
  all: try (rewrite walk_unfold; cbv zeta; rewrite Hn; by destruct cs; eexists).
  all: try (intros rest dir Hne; rewrite walk_unfold; cbn [app]; cbv zeta; rewrite Hn;
            destruct (cs ++ rest) eqn:Happ; [by apply app_eq_nil in Happ as [_ ?]|]; by eexists).
  - apply passes_fails; [by rewrite walk_unfold; cbv zeta; rewrite Hn; eexists|].
    intros rest dir Hne. rewrite walk_unfold. cbn [app]. cbv zeta. rewrite Hn. by eexists.
  - destruct (path_is_empty (path_of target)) eqn:Hempty.
    { apply passes_fails; [by rewrite walk_unfold; cbv zeta; rewrite Hn, Hempty; eexists|].
      intros rest dir Hne. rewrite walk_unfold. cbn [app]. cbv zeta. rewrite Hn, Hempty. by eexists. }
    eapply passes_step; [| |apply (IHl _ (p_components (path_of target) ++ cs))].
    + rewrite walk_unfold. cbv zeta. rewrite Hn, Hempty. by destruct cs.
    + intros rest dir Hne. rewrite walk_unfold. cbn [app]. cbv zeta. rewrite Hn, Hempty.
      rewrite <- app_assoc. destruct (cs ++ rest) eqn:Happ; [by apply app_eq_nil in Happ as [_ ?]|done].
Qed.

(** A successful lookup still succeeds in a larger tree, and a directory also where a
    directory is asked for. *)
Lemma walk_mono nodes nodes' links cur cs dir dir' q n :
  nodes ⊆ nodes' → dir' = dir ∨ n = DirNode →
  walk nodes links cur cs dir = At q n → walk nodes' links cur cs dir' = At q n.
Proof.
  intros Hsub Hdir. revert cur cs dir dir' Hdir.
  induction links as [|links IHl]; intros cur cs; revert cur;
    (induction cs as [|c cs IHc]; intros cur dir dir' Hdir; rewrite (walk_unfold nodes), (walk_unfold nodes'); [done|]);
    (destruct c as [| |name]; [by apply IHc..|]); cbv zeta;
    (destruct (nodes !! (cur ++ [name])) as [m|] eqn:Hn; [|by destruct cs, dir]);
    rewrite (lookup_weaken _ _ _ _ Hn Hsub); (destruct m as [content| |target]; [|by apply IHc|]);
    try done.
  1,2: destruct cs; [|done]; destruct dir; [done|]; intros [= <- <-]; by destruct Hdir as [->|?].
  destruct (path_is_empty _); [done|]. apply IHl. destruct Hdir as [->|?]; [|by right]. by left.
Qed.

(** Where a lookup ends when every entry on its way is a directory or missing. *)
Lemma walk_names nodes links cur names dir :
  (∀ ns, ns ≠ [] → ns `prefix_of` names →
     nodes !! (cur ++ ns) = None ∨ nodes !! (cur ++ ns) = Some DirNode) →
  walk nodes links cur (Normal <$> names) dir = At (cur ++ names) DirNode ∨
  (names ≠ [] ∧ walk nodes links cur (Normal <$> names) dir = Free (cur ++ names) ∧
     nodes !! (cur ++ names) = None) ∨
  walk nodes links cur (Normal <$> names) dir = Fails NotFound.
Proof.
  revert cur. induction names as [|name names IH]; intros cur Hall; rewrite walk_unfold; cbn.
  { left. by rewrite app_nil_r. }
  destruct (Hall [name]) as [Hn|Hn]; [done|by exists names|rewrite Hn..].
  - destruct names as [|]; cbn; [|by do 2 right]. destruct dir; [by do 2 right|]. right; left. done.
  - rewrite (cons_middle name cur names), app_assoc.
    destruct (IH (cur ++ [name])) as [H|[(Hne & H & H')|H]]; [|by left| |by do 2 right].
    + intros ns Hne Hns. rewrite <- app_assoc. apply Hall; [done|]. by apply prefix_cons.
    + right; left. done.
Qed.
End walks.

(** ** Trees *)

Definition dir_at (nodes : gmap Location Node) (q : Location) : Prop :=
  q = [] ∨ nodes !! q = Some DirNode.

(** Every entry is in a directory; so is the process. *)
Record tree_ok (fs : FileTree) : Prop := mkTreeOk
  { tree_closed : ∀ q name n, ft_nodes fs !! (q ++ [name]) = Some n → dir_at (ft_nodes fs) q;
    tree_cwd : dir_at (ft_nodes fs) (ft_cwd fs) }.

Section trees.
Implicit Types (fs : FileTree) (q : Location) (p : Path).

Lemma dir_at_mono nodes nodes' q : nodes ⊆ nodes' → dir_at nodes q → dir_at nodes' q.
Proof. intros Hsub [->|H]; [by left|right]. by eapply lookup_weaken. Qed.

Lemma dir_at_parent fs q : tree_ok fs → dir_at (ft_nodes fs) q → dir_at (ft_nodes fs) (parent_of q).
Proof.
  intros Hok [->|H]; [by left|]. unfold parent_of.
  destruct q as [|x q _] using rev_ind; [by left|]. rewrite length_app. cbn.
  rewrite Nat.add_sub, take_app_length. by eapply tree_closed.
Qed.

(** A missing location has nothing below it. *)
Lemma nothing_below fs q name names :
  tree_ok fs → ft_nodes fs !! (q ++ [name]) = None → ft_nodes fs !! (q ++ name :: names) = None.
Proof.
  intros Hok. rewrite (cons_middle name q names), app_assoc.
  induction names as [|x names IH] using rev_ind; [by rewrite app_nil_r|]. intros H. specialize (IH H).
  rewrite app_assoc.
  destruct (ft_nodes fs !! (((q ++ [name]) ++ names) ++ [x])) as [n|] eqn:Hn; [|reflexivity].
  apply (tree_closed fs Hok) in Hn as [Hnil|Hn]; [|congruence].
  by apply app_nil in Hnil as [[_ ?]%app_nil _].
Qed.

(** What a lookup finds is in the tree. *)
Lemma walk_found fs links cur cs dir :
  tree_ok fs → dir_at (ft_nodes fs) cur →
  match walk (ft_nodes fs) links cur cs dir with
  | At q DirNode => dir_at (ft_nodes fs) q
  | At q (FileNode c) => ft_nodes fs !! q = Some (FileNode c) ∧ ∃ d name, q = d ++ [name]
  | At q (LinkNode _) => False
  | Free q => ft_nodes fs !! q = None ∧ ∃ d name, q = d ++ [name] ∧ dir_at (ft_nodes fs) d
  | Fails _ => True
  end.
Proof.
  intros Hok. revert cur cs dir. induction links as [|links IHl]; intros cur cs; revert cur;
    (induction cs as [|c cs IHc]; intros cur dir Hcur; rewrite walk_unfold; [done|]);
    (destruct c as [| |name]; [by apply IHc|by apply IHc, dir_at_parent|]); cbv zeta;
    (destruct (ft_nodes fs !! (cur ++ [name])) as [[content| |target]|] eqn:Hn;
     [|apply IHc; by right| |]); try (destruct cs, dir; by eauto 6).
  destruct (path_is_empty _); [done|]. apply IHl. destruct (p_absolute _); [by left|done].
Qed.

Lemma start_dir fs p : tree_ok fs → dir_at (ft_nodes fs) (start fs p).
Proof. intros Hok. unfold start. destruct (p_absolute p); [by left|]. by apply tree_cwd. Qed.

Lemma insert_ok fs d name n :
  tree_ok fs → dir_at (ft_nodes fs) d →
  ft_nodes fs !! (d ++ [name]) ≠ Some DirNode →
  tree_ok (set_nodes (<[d ++ [name] := n]> (ft_nodes fs)) fs).
Proof.
  intros Hok Hd Hnot.
  assert (∀ q, dir_at (ft_nodes fs) q → dir_at (<[d ++ [name] := n]> (ft_nodes fs)) q) as Hkeep.
  { intros q [->|Hq]; [by left|right]. rewrite lookup_insert_ne; [done|]. by intros <-. }
  split; cbn; [|by apply Hkeep, tree_cwd].
  intros q x m. destruct (decide (d ++ [name] = q ++ [x])) as [Heq|Hne].
  - intros _. apply app_inj_tail in Heq as [-> ->]. by apply Hkeep.
  - rewrite lookup_insert_ne by done. intros Hm. eapply Hkeep, tree_closed; [done|exact Hm].
Qed.

(** ** Changes to the tree *)

Lemma split_last_Some p dir name :
  split_last p = Some (dir, name) → p_components p = dir ++ [Normal name].
Proof.
  unfold split_last. intros H. rewrite <- (reverse_involutive (p_components p)).
  destruct (reverse (p_components p)) as [|[| |x] rest]; [done..|].
  injection H as <- <-. by rewrite reverse_cons.
Qed.

Lemma split_last_app absolute cs name dir :
  split_last (mkPath absolute (cs ++ [Normal name]) dir) = Some (cs, name).
Proof. unfold split_last. cbn [p_components]. by rewrite reverse_snoc, reverse_involutive. Qed.

(** A lookup that asks for a directory. *)
Lemma walk_dir fs links cur cs :
  tree_ok fs → dir_at (ft_nodes fs) cur →
  (∃ e, walk (ft_nodes fs) links cur cs true = Fails e) ∨
  (∃ q, walk (ft_nodes fs) links cur cs true = At q DirNode ∧ dir_at (ft_nodes fs) q).
Proof.
  intros Hok Hcur. pose proof (walk_found fs links cur cs true Hok Hcur) as Hw.
  destruct (walk_app (ft_nodes fs) links cur cs) as [(e & He & _)|(q & l & Hq & _)]; [by left; exists e|].
  right. exists q. by rewrite Hq in Hw.
Qed.

(** [mkdir] adds an empty directory to an existing one, or does nothing. *)
Lemma mkdir_Ok fs p fs' :
  tree_ok fs → mkdir fs p = Ok fs' →
  ∃ dir name q, split_last p = Some (dir, name) ∧
    walk (ft_nodes fs) MAX_SYMLINKS (start fs p) dir true = At q DirNode ∧
    dir_at (ft_nodes fs) q ∧ ft_nodes fs !! (q ++ [name]) = None ∧
    fs' = set_nodes (<[q ++ [name] := DirNode]> (ft_nodes fs)) fs.
Proof.
  intros Hok. unfold mkdir. destruct (split_last p) as [[dir name]|]; [|by destruct (lookup_path fs p)].
  destruct (walk_dir fs MAX_SYMLINKS (start fs p) dir Hok (start_dir fs p Hok)) as [[e ->]|(q & Hq & Hd)];
    [done|]. rewrite Hq. destruct (ft_nodes fs !! (q ++ [name])) eqn:Hn; [done|].
  destruct (ft_denied _ _); [done|]. intros [= <-]. eauto 10.
Qed.

Lemma mkdir_ok fs p fs' : tree_ok fs → mkdir fs p = Ok fs' → tree_ok fs'.
Proof.
  intros Hok (dir & name & q & _ & _ & Hd & Hn & ->)%mkdir_Ok; [|done].
  apply insert_ok; [done..|by rewrite Hn].
Qed.

Lemma lookup_path_walk fs p :
  path_is_empty p = false →
  lookup_path fs p = walk (ft_nodes fs) MAX_SYMLINKS (start fs p) (p_components p) (p_directory p).
Proof. unfold lookup_path. by intros ->. Qed.

(** What exists is not created again. *)
Lemma mkdir_existing fs p q n : lookup_path fs p = At q n → mkdir fs p = Err AlreadyExists.
Proof.
  intros Hl. unfold mkdir. destruct (split_last p) as [[dir name]|] eqn:Hs; [|by rewrite Hl].
  apply split_last_Some in Hs. unfold lookup_path in Hl. destruct (path_is_empty p); [done|].
  rewrite Hs in Hl.
  destruct (walk_app (ft_nodes fs) MAX_SYMLINKS (start fs p) dir) as [(e & _ & He)|(d & l & Hd & Hr)].
  - destruct (He [Normal name] (p_directory p)) as [e' He']; [done|congruence].
  - rewrite Hd. rewrite Hr, walk_unfold in Hl by done. cbv zeta in Hl.
    destruct (ft_nodes fs !! (d ++ [name])); [done|]. by destruct (p_directory p).
Qed.

Lemma create_dir_all_existing fs absolute rev q :
  lookup_path fs (mkPath absolute (reverse rev) false) = At q DirNode →
  create_dir_all_rev absolute rev fs = (Ok tt, fs).
Proof.
  intros Hl. destruct rev; cbn [create_dir_all_rev]; (destruct (path_is_empty _); [done|]);
    rewrite (mkdir_existing _ _ _ _ Hl); unfold is_dir; by rewrite Hl.
Qed.

Lemma create_dir_all_ok absolute rev fs : tree_ok fs → tree_ok (create_dir_all_rev absolute rev fs).2.
Proof.
  revert fs. induction rev as [|c rev IH]; intros fs Hok; cbn [create_dir_all_rev];
    (destruct (path_is_empty _); [done|]);
    (destruct (mkdir fs _) as [fs1|[]] eqn:Hm; [by eapply mkdir_ok|..]);
    try done; try by destruct (is_dir _ _).
  specialize (IH fs Hok). destruct (create_dir_all_rev absolute rev fs) as [[[]|e] fs1]; [|done].
  cbn [snd] in IH. match goal with |- context [mkdir fs1 ?p] => destruct (mkdir fs1 p) as [fs2|e] eqn:Hm2 end.
  - exact (mkdir_ok _ _ _ IH Hm2).
  - by destruct (is_dir _ _).
Qed.

Lemma write_file_ok p content fs : tree_ok fs → tree_ok (write_file p content fs).2.
Proof.
  intros Hok. unfold write_file, lookup_path. destruct (path_is_empty p); [done|].
  pose proof (walk_found fs MAX_SYMLINKS (start fs p) (p_components p) (p_directory p) Hok
    (start_dir fs p Hok)) as Hw.
  destruct (walk _ _ _ _ _) as [q [c| |]|q|e]; [|done..| |done].
  - destruct Hw as [Hq (d & name & ->)]. destruct (ft_denied _ _); [done|].
    apply insert_ok; [done| |by rewrite Hq]. by eapply tree_closed.
  - destruct Hw as [Hq (d & name & -> & Hd)]. destruct (ft_denied _ _); [done|].
    apply insert_ok; [done|done|by rewrite Hq].
Qed.
End trees.

(** ** Where a write lands *)

Section landing.
Context (fs : FileTree) (Hok : tree_ok fs) (cs : list Component) (base : Location)
  (names : list string).

Lemma absolute_lookup fs' cs' dir :
  lookup_path fs' (mkPath true cs' dir) = walk (ft_nodes fs') MAX_SYMLINKS [] cs' dir.
Proof. done. Qed.

Section in_directory.
Context (Hbase : walk (ft_nodes fs) MAX_SYMLINKS [] cs true = At base DirNode).
Context (Hfree : ∀ name rest, names = name :: rest → ft_nodes fs !! (base ++ [name]) = None).

(** The tree with some of the missing directories. *)
Record grown (fs' : FileTree) : Prop := mkGrown
  { gr_sub : ft_nodes fs ⊆ ft_nodes fs';
    gr_ok : tree_ok fs';
    gr_new : ∀ q, ft_nodes fs' !! q ≠ ft_nodes fs !! q →
      ft_nodes fs' !! q = Some DirNode ∧ ∃ ns, ns ≠ [] ∧ ns `prefix_of` names ∧ q = base ++ ns }.

Lemma grown_start : grown fs.
Proof. by split. Qed.

Lemma missing_below ns : ns ≠ [] → ns `prefix_of` names → ft_nodes fs !! (base ++ ns) = None.
Proof.
  intros Hne [rest Hn]. destruct ns as [|name ns]; [done|]. apply nothing_below; [done|].
  by eapply Hfree.
Qed.

Lemma grown_names fs' ns :
  grown fs' → ns ≠ [] → ns `prefix_of` names →
  ft_nodes fs' !! (base ++ ns) = None ∨ ft_nodes fs' !! (base ++ ns) = Some DirNode.
Proof.
  intros Hg Hne Hns. pose proof (missing_below ns Hne Hns) as H.
  destruct (decide (ft_nodes fs' !! (base ++ ns) = ft_nodes fs !! (base ++ ns))) as [Heq|Hd];
    [left; congruence|right]. by apply (gr_new fs' Hg).
Qed.

Lemma grown_walk fs' ns dir :
  grown fs' → ns ≠ [] → ns `prefix_of` names →
  let r := walk (ft_nodes fs') MAX_SYMLINKS [] (cs ++ (Normal <$> ns)) dir in
  r = At (base ++ ns) DirNode ∨
  (r = Free (base ++ ns) ∧ ft_nodes fs' !! (base ++ ns) = None) ∨ r = Fails NotFound.
Proof.
  intros Hg Hne Hns. cbv zeta.
  destruct (walk_app (ft_nodes fs') MAX_SYMLINKS [] cs) as [(e & He & _)|(q & l & Hq & Hr)];
    rewrite (walk_mono _ _ _ _ _ true true _ _ (gr_sub fs' Hg) (or_introl eq_refl) Hbase) in *; [done|].
  injection Hq as <-. rewrite Hr by (by destruct ns).
  destruct (walk_names (ft_nodes fs') l base ns dir) as [H|[(_ & H & H')|H]]; [|tauto..].
  intros ns' Hne' Hns'. apply grown_names; [done..|]. by etrans.
Qed.

Lemma grown_mkdir fs' ns fs'' :
  grown fs' → ns ≠ [] → ns `prefix_of` names →
  mkdir fs' (mkPath true (cs ++ (Normal <$> ns)) false) = Ok fs'' → grown fs''.
Proof.
  intros Hg Hne Hns Hm. destruct ns as [|name ns _] using rev_ind; [done|].
  destruct (mkdir_Ok _ _ _ (gr_ok fs' Hg) Hm) as (dir & name' & q & Hs & Hw & Hd & Hn & ->).
  rewrite fmap_app, app_assoc in Hs. cbn in Hs. rewrite split_last_app in Hs. injection Hs as <- <-.
  assert (q = base ++ ns) as ->.
  { cbn [start p_absolute] in Hw. destruct (decide (ns = [])) as [->|Hne'].
    - cbn in Hw. rewrite app_nil_r in Hw |- *.
      rewrite (walk_mono _ _ _ _ _ true true _ _ (gr_sub fs' Hg) (or_introl eq_refl) Hbase) in Hw. congruence.
    - destruct (grown_walk fs' ns true Hg Hne') as [H|[[H _]|H]]; [by eapply prefix_app_l|congruence..]. }
  pose proof (mkdir_ok _ _ _ (gr_ok fs' Hg) Hm) as Hok'. rewrite <- app_assoc in Hn, Hok' |- *. split.
  - etrans; [apply (gr_sub fs' Hg)|]. by apply insert_subseteq.
  - exact Hok'.
  - cbn. intros q. destruct (decide (base ++ ns ++ [name] = q)) as [<-|Hq].
    + rewrite lookup_insert_eq. intros _. split; [done|]. by eexists.
    + rewrite lookup_insert_ne by done. apply (gr_new fs' Hg).
Qed.

Lemma grown_create fs' ns :
  grown fs' → ns `prefix_of` names →
  grown (create_dir_all_rev true (reverse (cs ++ (Normal <$> ns))) fs').2.
Proof.
  revert fs'. induction ns as [|name ns IH] using rev_ind; intros fs' Hg Hns.
  { cbn. rewrite app_nil_r.
    rewrite (create_dir_all_existing fs' true _ base); [done|].
    rewrite reverse_involutive, absolute_lookup.
    eapply walk_mono; [apply (gr_sub fs' Hg)|by right|exact Hbase]. }
  assert (∀ fs1 fs2, grown fs1 →
    mkdir fs1 (mkPath true (cs ++ (Normal <$> (ns ++ [name]))) false) = Ok fs2 → grown fs2) as Hmk.
  { intros fs1 fs2 H1. apply grown_mkdir; [done|by destruct ns|done]. }
  rewrite fmap_app, app_assoc in Hmk |- *. cbn [fmap list_fmap] in *.
  rewrite reverse_snoc. cbn [create_dir_all_rev path_is_empty p_absolute negb andb].
  rewrite reverse_cons, reverse_involutive.
  destruct (mkdir fs' _) as [fs1|[]] eqn:Hm; [by eapply Hmk|..]; try by destruct (is_dir _ _).
  specialize (IH fs' Hg (prefix_app_l _ _ _ Hns)).
  destruct (create_dir_all_rev true _ fs') as [[[]|e] fs1]; [|done]. cbn [snd] in IH.
  match goal with |- context [mkdir fs1 ?p] => destruct (mkdir fs1 p) as [fs2|e] eqn:Hm2 end.
  - exact (Hmk _ _ IH Hm2).
  - by destruct (is_dir _ _).
Qed.

(** Writing the file. *)
Lemma grown_write fs' dir content :
  grown fs' → names ≠ [] →
  match write_file (mkPath true (cs ++ (Normal <$> names)) dir) content fs' with
  | (Ok _, fs'') =>
      fs'' = set_nodes (<[base ++ names := FileNode content]> (ft_nodes fs')) fs' ∧
      ft_nodes fs' !! (base ++ names) = None
  | (Err _, fs'') => fs'' = fs'
  end.
Proof.
  intros Hg Hne. unfold write_file. rewrite absolute_lookup.
  destruct (grown_walk fs' names dir Hg Hne) as [->|[[-> Hn]| ->]]; [done|done| |done].
  by destruct (ft_denied _ _).
Qed.
End in_directory.

(** Nothing is created below a file. *)
Lemma create_below_file e q content ns :
  walk (ft_nodes fs) MAX_SYMLINKS [] cs true = Fails e →
  lookup_path fs (mkPath true cs false) = At q (FileNode content) →
  ∃ e', create_dir_all_rev true (reverse (cs ++ (Normal <$> ns))) fs = (Err e', fs).
Proof.
  intros Hf Hq. destruct (walk_app (ft_nodes fs) MAX_SYMLINKS [] cs) as [(_ & _ & Hr)|(? & ? & ? & _)];
    [|congruence].
  induction ns as [|name ns [e' IH]] using rev_ind.
  { cbn. rewrite app_nil_r. destruct (reverse cs) as [|c rev] eqn:Hrev; cbn [create_dir_all_rev];
      rewrite <- Hrev, reverse_involutive; cbn [path_is_empty p_absolute negb andb];
      rewrite (mkdir_existing _ _ _ _ Hq); unfold is_dir; rewrite Hq; by eexists. }
  rewrite fmap_app, app_assoc. cbn [fmap list_fmap]. rewrite reverse_snoc.
  cbn [create_dir_all_rev path_is_empty p_absolute negb andb].
  rewrite reverse_cons, reverse_involutive, IH. unfold mkdir, is_dir.
  rewrite split_last_app, absolute_lookup. cbn [start p_absolute].
  destruct (Hr ((Normal <$> ns) ++ [Normal name]) false) as [e1 He1]; [by destruct ns|].
  rewrite <- app_assoc, He1.
  destruct (decide (ns = [])) as [->|Hne].
  - cbn. rewrite app_nil_r, Hf. destruct e; by eexists.
  - destruct (Hr (Normal <$> ns) true) as [e2 ->]; [by destruct ns|]. destruct e2; by eexists.
Qed.
End landing.

(** What [canonicalize_best_effort] found of a path whose missing part is plain. *)
Lemma plain_ancestor_found fs absolute rev missing loc :
  canonicalize_ancestor fs absolute rev missing = Ok loc →
  plain_ancestor fs absolute rev missing = true →
  ∃ cs base n names, reverse rev ++ (Normal <$> missing) = cs ++ (Normal <$> names) ∧
    lookup_path fs (mkPath absolute cs false) = At base n ∧ loc = base ++ names ∧
    ∃ name rest, names = name :: rest ∧ ft_nodes fs !! (base ++ [name]) = None.
Proof.
  revert missing. induction rev as [|c rev IH]; intros missing;
    cbn [canonicalize_ancestor plain_ancestor]; unfold path_exists, canonicalize.
  - destruct (lookup_path _ _) as [q n| |] eqn:Hl; [|done..]. intros [= <-]. destruct missing as [|name rest]; [done|].
    intros Hn%bool_decide_eq_true. exists [], q, n, (name :: rest). by eauto 10.
  - destruct (lookup_path _ _) as [q n| |] eqn:Hl.
    { intros [= <-]. destruct missing as [|name rest]; [done|]. intros Hn%bool_decide_eq_true.
      exists (reverse (c :: rev)), q, n, (name :: rest). by eauto 10. }
    all: destruct c as [| |name]; [done..|]; intros Hc Hp;
      destruct (IH _ Hc Hp) as (cs & base & n & names & Heq & H); exists cs, base, n, names;
      (split; [|exact H]); rewrite <- Heq, reverse_cons, <- app_assoc; reflexivity.
Qed.

(** What may change between two trees when [content] is written to [loc]: the file
    itself, and directories on the way that were missing. *)
Definition changes_only (loc : Location) (content : string) (fs fs' : FileTree) : Prop :=
  ∀ q, ft_nodes fs' !! q ≠ ft_nodes fs !! q →
    (q = loc ∧ ft_nodes fs' !! q = Some (FileNode content)) ∨
    (ft_nodes fs !! q = None ∧ ft_nodes fs' !! q = Some DirNode ∧ q `prefix_of` loc).

Section writes.
Implicit Types (fs : FileTree) (p : Path).

Lemma create_dir_all_tree_ok p fs : tree_ok fs → tree_ok (create_dir_all p fs).2.
Proof. apply create_dir_all_ok. Qed.

Lemma write_creating_ok p content fs : tree_ok fs → tree_ok (write_creating p content fs).2.
Proof.
  intros Hok. unfold write_creating.
  assert (∀ fs, tree_ok fs →
    tree_ok (match write_file p content fs with
             | (Ok _, fs) => (@Ok WriteError unit tt, fs)
             | (Err e, fs) => (Err (FileError e), fs)
             end).2) as Hw.
  { intros fs1 H1. pose proof (write_file_ok p content fs1 H1).
    by destruct (write_file p content fs1) as [[]]. }
  destruct (parent p) as [d|]; [|by apply Hw]. destruct (path_is_empty d); [by apply Hw|].
  pose proof (create_dir_all_tree_ok d fs Hok) as Hd.
  destruct (create_dir_all d fs) as [[] fs1]; [by apply Hw|done].
Qed.

(** The parent of a path that exists is a directory. *)
Lemma parent_exists fs p q n d :
  p_absolute p = true → lookup_path fs p = At q n → parent p = Some d →
  create_dir_all d fs = (Ok tt, fs).
Proof.
  intros Habs Hl Hp. destruct p as [abs cs dir]. cbn in Habs. subst abs.
  unfold parent in Hp. cbn [p_components p_absolute] in Hp.
  destruct (reverse cs) as [|c rev] eqn:Hrev; [done|]. injection Hp as <-.
  unfold create_dir_all. cbn [p_absolute p_components]. rewrite reverse_involutive.
  rewrite <- (reverse_involutive cs), Hrev, reverse_cons, absolute_lookup in Hl.
  destruct (walk_app (ft_nodes fs) MAX_SYMLINKS [] (reverse rev)) as [(e & _ & He)|(d & l & Hd & _)].
  - destruct (He [c] dir) as [e' He']; [done|congruence].
  - apply (create_dir_all_existing _ _ _ d). rewrite absolute_lookup.
    eapply walk_mono; [done|by right|exact Hd].
Qed.

(** A write to a path that exists replaces the file it names. *)
Lemma write_existing fs p q n content :
  p_absolute p = true → lookup_path fs p = At q n →
  match write_creating p content fs with
  | (Ok _, fs') => (∃ old, n = FileNode old) ∧ fs' = set_nodes (<[q := FileNode content]> (ft_nodes fs)) fs
  | (Err _, fs') => fs' = fs
  end.
Proof.
  intros Habs Hl. unfold write_creating.
  assert (match (match write_file p content fs with
                 | (Ok _, fs) => (@Ok WriteError unit tt, fs)
                 | (Err e, fs) => (Err (FileError e), fs)
                 end) with
          | (Ok _, fs') => (∃ old, n = FileNode old) ∧
              fs' = set_nodes (<[q := FileNode content]> (ft_nodes fs)) fs
          | (Err _, fs') => fs' = fs
          end) as Hw.
  { unfold write_file. rewrite Hl. destruct n as [old| |]; [|done..].
    destruct (ft_denied fs q); [done|]. eauto. }
  destruct (parent p) as [d|] eqn:Hp; [|exact Hw]. destruct (path_is_empty d); [exact Hw|].
  by rewrite (parent_exists _ _ _ _ _ Habs Hl Hp).
Qed.

(** Before the file is written only directories have appeared. *)
Lemma grown_changes fs base names content fs' :
  tree_ok fs → (∀ x l, names = x :: l → ft_nodes fs !! (base ++ [x]) = None) →
  grown fs base names fs' → changes_only (base ++ names) content fs fs'.
Proof.
  intros Hok Hf Hg q Hq. right. destruct (gr_new _ _ _ _ Hg q Hq) as [Hd (ns & Hne & Hns & ->)].
  split_and!; [by eapply missing_below|done|by apply prefix_app].
Qed.

Lemma changes_refl loc content fs : changes_only loc content fs fs.
Proof. by intros q. Qed.

Lemma changes_write loc content fs fs' :
  changes_only loc content fs fs' → ft_nodes fs' !! loc = None →
  changes_only loc content fs (set_nodes (<[loc := FileNode content]> (ft_nodes fs')) fs').
Proof.
  intros H Hn q. cbn. destruct (decide (loc = q)) as [<-|Hne]; [|rewrite lookup_insert_ne by done; apply H].
  rewrite lookup_insert_eq. by left.
Qed.

(** A write below a place that exists, with names that are all missing. *)
Lemma write_missing fs cs dir base n name rest content :
  let names := name :: rest in
  tree_ok fs → lookup_path fs (mkPath true cs false) = At base n →
  ft_nodes fs !! (base ++ [name]) = None →
  let '(r, fs') := write_creating (mkPath true (cs ++ (Normal <$> names)) dir) content fs in
  changes_only (base ++ names) content fs fs' ∧
  (r = Ok tt → ft_nodes fs' !! (base ++ names) = Some (FileNode content)).
Proof.
  intros names Hok Hb Hfree. pose proof Hb as Hwalk. rewrite absolute_lookup in Hwalk.
  assert (∀ x l, names = x :: l → ft_nodes fs !! (base ++ [x]) = None) as Hf by (by intros x l [= <- <-]).
  destruct (exists_last (l := names)) as (init & x & Hx); [done|].
  unfold write_creating, parent. cbn [p_components p_absolute].
  rewrite Hx, fmap_app, app_assoc. cbn [fmap list_fmap].
  rewrite reverse_snoc, reverse_involutive. cbn [path_is_empty p_absolute negb andb].
  unfold create_dir_all. cbn [p_absolute p_components].
  rewrite <- app_assoc. change [Normal x] with (Normal <$> [x]). rewrite <- fmap_app, <- Hx.
  pose proof (walk_found fs MAX_SYMLINKS [] cs false Hok (or_introl eq_refl)) as Hfound. rewrite Hwalk in Hfound.
  destruct n as [old| |target]; [|clear Hfound|done].
  - destruct (walk_app (ft_nodes fs) MAX_SYMLINKS [] cs) as [(e & He & _)|(q & l & Hq & _)].
    + destruct (create_below_file fs cs e base old init He Hb) as [e' ->]. split; [apply changes_refl|done].
    + rewrite (walk_mono _ _ _ _ _ true false _ _ (reflexivity _) (or_intror eq_refl) Hq) in Hwalk. done.
  - assert (walk (ft_nodes fs) MAX_SYMLINKS [] cs true = At base DirNode) as Hbase
      by (eapply walk_mono; [done|by right|exact Hwalk]).
    assert (init `prefix_of` names) as Hinit by (rewrite Hx; by eexists).
    pose proof (grown_create fs Hok cs base names Hbase Hf fs init (grown_start fs Hok base names) Hinit) as Hg.
    destruct (create_dir_all_rev _ _ fs) as [[[]|e] fs1]; cbn [snd] in Hg;
      pose proof (grown_changes fs base names content fs1 Hok Hf Hg) as Hc; [|by split].
    pose proof (grown_write fs Hok cs base names Hbase Hf fs1 dir content Hg ltac:(done)) as Hw.
    destruct (write_file _ _ fs1) as [[[]|e] fs2]; [|subst fs2; by split].
    destruct Hw as [-> Hn]. split; [by apply changes_write|]. intros _. cbn. apply lookup_insert_eq.
Qed.

(** A write goes where [canonicalize_best_effort] says, as long as it lands in place. *)
Lemma write_lands fs p content loc :
  tree_ok fs → p_absolute p = true → lands_in_place fs p = true →
  canonicalize_best_effort fs p = Ok loc →
  let '(r, fs') := write_creating p content fs in
  changes_only loc content fs fs' ∧ (r = Ok tt → ft_nodes fs' !! loc = Some (FileNode content)).
Proof.
  intros Hok Habs. unfold lands_in_place, canonicalize_best_effort, path_exists, canonicalize.
  destruct (lookup_path fs p) as [q n| |] eqn:Hl; cbn [orb].
  { intros _ [= <-]. pose proof (write_existing fs p q n content Habs Hl) as Hw.
    destruct (write_creating p content fs) as [[[]|e] fs'].
    - destruct Hw as [_ ->]. cbn. rewrite lookup_insert_eq. split; [|done]. intros q'. cbn.
      destruct (decide (q = q')) as [<-|]; [|by rewrite lookup_insert_ne]. rewrite lookup_insert_eq. by left.
    - subst. split; [apply changes_refl|done]. }
  all: destruct p as [abs cs0 dir]; cbn in Habs; subst abs; cbn [p_components p_absolute] in *;
    destruct (reverse cs0) as [|[| |name] rev] eqn:Hrev; [done..|]; intros Hp Hc;
    destruct (plain_ancestor_found _ _ _ _ _ Hc Hp)
      as (cs & base & n & names & Heq & Hb & -> & x & rest & -> & Hfree);
    rewrite <- (reverse_involutive cs0), Hrev, reverse_cons;
    change [Normal name] with (Normal <$> [name]); rewrite Heq; by apply (write_missing _ _ _ _ n).
Qed.
End writes.
