(* ===== verification/Tools.v ===== *)
(** * The built-in tools of the agent ([tau-tools]: [tools.rs], [bash_tool.rs],
      [registry_core.rs], [runtime_helpers.rs])

    The policy of the tools, the gates every call passes (paths, protected paths, role
    policy, approvals, rate limit, extensions, sandbox), and the tools that read, write
    and edit files and run shell commands.  Files are the tree of [ToolFs]; access
    control is the [ToolAccess] interface, which the role policy and the approval gate
    implement; processes, the shell's word splitting and the texts of the operating
    system are [ToolHost]. *)

From Stdlib Require Import NArith ZArith Ascii Lia.
From stdpp Require Import base gmap strings list.
From S2P Require Import Prelude RustStr Json Effects AtomicIo Approvals Rbac StateDirs AgentTools Safety ToolFs.

#[local] Open Scope string_scope.
#[local] Open Scope list_scope.
#[local] Open Scope nat_scope.

(** ** The policy *)

Inductive BashCommandProfile := ProfilePermissive | ProfileBalanced | ProfileStrict.
Inductive ToolPolicyPreset := PresetPermissive | PresetBalanced | PresetStrict | PresetHardened.
Inductive OsSandboxMode := SandboxOff | SandboxAuto | SandboxForce.
Inductive OsSandboxPolicyMode := BestEffort | Required.
Inductive OsSandboxDockerNetwork := DockerNone | DockerBridge | DockerHost.
Inductive ToolRateLimitExceededBehavior := LimitReject | LimitDefer.

Definition BALANCED_COMMAND_ALLOWLIST : list string :=
  ["awk"; "cargo"; "cat"; "cp"; "cut"; "du"; "echo"; "env"; "fd"; "find"; "git"; "grep"; "head";
   "ls"; "mkdir"; "mv"; "printf"; "pwd"; "rg"; "rm"; "rustc"; "rustup"; "sed"; "sleep"; "sort";
   "stat"; "tail"; "touch"; "tr"; "uniq"; "wc"].
Definition STRICT_COMMAND_ALLOWLIST : list string :=
  ["awk"; "cat"; "cut"; "du"; "echo"; "env"; "fd"; "find"; "grep"; "head"; "ls"; "printf"; "pwd";
   "rg"; "sed"; "sort"; "stat"; "tail"; "tr"; "uniq"; "wc"].

(** [ToolPolicy]; the settings that only the memory, job and tool-builder tools read are
    left out, and the rate limiter is part of the state. *)
Record ToolPolicy := mkToolPolicy
  { allowed_roots : list string; protected_paths : list string;
    allow_protected_path_mutations : bool; policy_preset : ToolPolicyPreset;
    max_file_read_bytes : N; max_file_write_bytes : N; max_command_output_bytes : nat;
    bash_timeout_ms : N; max_command_length : nat; allow_command_newlines : bool;
    bash_profile : BashCommandProfile; allowed_commands : list string;
    os_sandbox_mode : OsSandboxMode; os_sandbox_policy_mode : OsSandboxPolicyMode;
    os_sandbox_command : list string; os_sandbox_docker_enabled : bool;
    os_sandbox_docker_image : string; os_sandbox_docker_network : OsSandboxDockerNetwork;
    os_sandbox_docker_memory_mb : N; os_sandbox_docker_cpu_limit : f64;
    os_sandbox_docker_pids_limit : N; os_sandbox_docker_read_only_rootfs : bool;
    os_sandbox_docker_env_allowlist : list string; http_timeout_ms : N;
    http_max_response_bytes : N; http_max_redirects : nat; http_allow_http : bool;
    http_allow_private_network : bool; enforce_regular_files : bool; bash_dry_run : bool;
    tool_policy_trace : bool; extension_policy_override_root : option string;
    rbac_principal : option string; rbac_policy_path : option string;
    tool_rate_limit_max_requests : N; tool_rate_limit_window_ms : N;
    tool_rate_limit_exceeded_behavior : ToolRateLimitExceededBehavior }.

Definition commands_of_profile (profile : BashCommandProfile) : list string :=
  match profile with
  | ProfilePermissive => []
  | ProfileBalanced => BALANCED_COMMAND_ALLOWLIST
  | ProfileStrict => STRICT_COMMAND_ALLOWLIST
  end.

(** What a preset sets; every preset turns the sandbox's Docker backend off and resets it. *)
Record PresetValues := mkPresetValues
  { pv_file_bytes : N; pv_output_bytes : nat; pv_bash_timeout_ms : N; pv_command_length : nat;
    pv_newlines : bool; pv_profile : BashCommandProfile; pv_sandbox : OsSandboxMode;
    pv_sandbox_policy : OsSandboxPolicyMode; pv_http_timeout_ms : N; pv_http_bytes : N;
    pv_redirects : nat; pv_regular : bool; pv_requests : N;
    pv_behavior : ToolRateLimitExceededBehavior }.

Definition preset_values (preset : ToolPolicyPreset) : PresetValues :=
  match preset with
  | PresetPermissive =>
      mkPresetValues 2000000 32000 180000 8192 true ProfilePermissive SandboxOff BestEffort
        60000 1000000 8 false 240 LimitDefer
  | PresetBalanced =>
      mkPresetValues 1000000 16000 120000 4096 false ProfileBalanced SandboxOff BestEffort
        20000 256000 5 true 120 LimitReject
  | PresetStrict =>
      mkPresetValues 750000 8000 90000 2048 false ProfileStrict SandboxAuto Required
        15000 128000 3 true 60 LimitReject
  | PresetHardened =>
      mkPresetValues 500000 4000 60000 1024 false ProfileStrict SandboxForce Required
        10000 64000 2 true 30 LimitReject
  end.

Definition apply_preset (preset : ToolPolicyPreset) (p : ToolPolicy) : ToolPolicy :=
  let v := preset_values preset in
  mkToolPolicy (allowed_roots p) (protected_paths p) (allow_protected_path_mutations p) preset
    (pv_file_bytes v) (pv_file_bytes v) (pv_output_bytes v) (pv_bash_timeout_ms v)
    (pv_command_length v) (pv_newlines v) (pv_profile v) (commands_of_profile (pv_profile v))
    (pv_sandbox v) (pv_sandbox_policy v) [] false "debian:stable-slim" DockerNone 256 f64_one 256
    true [] (pv_http_timeout_ms v) (pv_http_bytes v) (pv_redirects v) false false (pv_regular v)
    (bash_dry_run p) (tool_policy_trace p) (extension_policy_override_root p) (rbac_principal p)
    (rbac_policy_path p) (pv_requests v) 60000 (pv_behavior v).

Definition set_bash_profile (profile : BashCommandProfile) (p : ToolPolicy) : ToolPolicy :=
  mkToolPolicy (allowed_roots p) (protected_paths p) (allow_protected_path_mutations p)
    (policy_preset p) (max_file_read_bytes p) (max_file_write_bytes p)
    (max_command_output_bytes p) (bash_timeout_ms p) (max_command_length p)
    (allow_command_newlines p) profile (commands_of_profile profile) (os_sandbox_mode p)
    (os_sandbox_policy_mode p) (os_sandbox_command p) (os_sandbox_docker_enabled p)
    (os_sandbox_docker_image p) (os_sandbox_docker_network p) (os_sandbox_docker_memory_mb p)
    (os_sandbox_docker_cpu_limit p) (os_sandbox_docker_pids_limit p)
    (os_sandbox_docker_read_only_rootfs p) (os_sandbox_docker_env_allowlist p)
    (http_timeout_ms p) (http_max_response_bytes p) (http_max_redirects p) (http_allow_http p)
    (http_allow_private_network p) (enforce_regular_files p) (bash_dry_run p)
    (tool_policy_trace p) (extension_policy_override_root p) (rbac_principal p)
    (rbac_policy_path p) (tool_rate_limit_max_requests p) (tool_rate_limit_window_ms p)
    (tool_rate_limit_exceeded_behavior p).

(** [normalize_policy_path] *)
Definition normalize_policy_path (fs : FileTree) (path : string) : string :=
  match canonicalize_best_effort fs (path_of path) with Ok q => display q | Err _ => path end.

(** Paths are equal when their components are. *)
Definition same_path (a b : string) : bool :=
  Bool.eqb (is_absolute a) (is_absolute b)
  && bool_decide (p_components (path_of a) = p_components (path_of b)).

(** [BTreeSet<PathBuf>]: the order of paths is that of their components, a name after
    [.] and [..]. *)
Definition component_compare (a b : Component) : comparison :=
  match a, b with
  | CurDir, CurDir | ParentDir, ParentDir => Eq
  | CurDir, _ => Lt
  | ParentDir, CurDir => Gt
  | ParentDir, Normal _ => Lt
  | Normal a, Normal b => String.compare a b
  | Normal _, _ => Gt
  end.
Fixpoint components_leb (a b : list Component) : bool :=
  match a, b with
  | [], _ => true
  | _, [] => false
  | x :: a, y :: b =>
      match component_compare x y with Lt => true | Gt => false | Eq => components_leb a b end
  end.
Definition path_leb (a b : string) : bool :=
  components_leb (p_components (path_of a)) (p_components (path_of b)).

Definition insert_path (path : string) (paths : list string) : list string :=
  if existsb (same_path path) paths then paths else sort_by path_leb (paths ++ [path]).

Definition default_protected_paths (fs : FileTree) (roots : list string) : list string :=
  foldl (λ paths root,
    let absolute_root := join_path (display (ft_cwd fs)) root in
    foldl (λ paths relative_path,
      insert_path (normalize_policy_path fs (join_path absolute_root relative_path)) paths)
      paths DEFAULT_PROTECTED_RELATIVE_PATHS) [] roots.

Definition tool_policy_new (fs : FileTree) (roots : list string) : ToolPolicy :=
  apply_preset PresetBalanced
    (mkToolPolicy roots (default_protected_paths fs roots) false PresetBalanced 1000000 1000000
       16000 120000 4096 false ProfileBalanced BALANCED_COMMAND_ALLOWLIST SandboxOff BestEffort []
       false "debian:stable-slim" DockerNone 256 f64_one 256 true [] 20000 256000 5 false false
       true false false None None None 120 60000 LimitReject).

Definition set_protected_paths (l : list string) (p : ToolPolicy) : ToolPolicy :=
  mkToolPolicy (allowed_roots p) l (allow_protected_path_mutations p)
    (policy_preset p) (max_file_read_bytes p) (max_file_write_bytes p)
    (max_command_output_bytes p) (bash_timeout_ms p) (max_command_length p)
    (allow_command_newlines p) (bash_profile p) (allowed_commands p) (os_sandbox_mode p)
    (os_sandbox_policy_mode p) (os_sandbox_command p) (os_sandbox_docker_enabled p)
    (os_sandbox_docker_image p) (os_sandbox_docker_network p) (os_sandbox_docker_memory_mb p)
    (os_sandbox_docker_cpu_limit p) (os_sandbox_docker_pids_limit p)
    (os_sandbox_docker_read_only_rootfs p) (os_sandbox_docker_env_allowlist p)
    (http_timeout_ms p) (http_max_response_bytes p) (http_max_redirects p) (http_allow_http p)
    (http_allow_private_network p) (enforce_regular_files p) (bash_dry_run p)
    (tool_policy_trace p) (extension_policy_override_root p) (rbac_principal p)
    (rbac_policy_path p) (tool_rate_limit_max_requests p) (tool_rate_limit_window_ms p)
    (tool_rate_limit_exceeded_behavior p).

Definition add_protected_path (fs : FileTree) (path : string) (p : ToolPolicy) : ToolPolicy :=
  set_protected_paths (insert_path (normalize_policy_path fs path) (protected_paths p)) p.

(** ** The rate limiter *)

Record ToolRateLimiterPrincipalState := mkPrincipalState
  { window_start_unix_ms : N; requests_in_window : N; throttle_events : N }.

Record ToolRateLimiterState := mkLimiter
  { principals : gmap string ToolRateLimiterPrincipalState; throttle_events_total : N }.
Definition limiter_default : ToolRateLimiterState := mkLimiter ∅ 0.

Inductive ToolRateLimitDecision :=
| LimitAllow
| Throttled (retry_after_ms principal_throttle_events throttle_events_total : N).

(** The entry of a principal, with a new window when the old one is over. *)
Definition current_window (window_ms now : N) (entry : ToolRateLimiterPrincipalState)
    : ToolRateLimiterPrincipalState :=
  if (window_ms <=? now - window_start_unix_ms entry)%N
  then mkPrincipalState now 0 (throttle_events entry) else entry.

Definition limiter_evaluate (principal : string) (max_requests window_ms now : N)
    (st : ToolRateLimiterState) : ToolRateLimitDecision * ToolRateLimiterState :=
  if (max_requests =? 0)%N || (window_ms =? 0)%N then (LimitAllow, st)
  else
    let entry := current_window window_ms now
                   (default (mkPrincipalState now 0 0) (principals st !! principal)) in
    if (requests_in_window entry <? max_requests)%N
    then (LimitAllow,
          mkLimiter
            (<[principal := mkPrincipalState (window_start_unix_ms entry)
                              (saturating_add_u32 (requests_in_window entry) 1)
                              (throttle_events entry)]> (principals st))
            (throttle_events_total st))
    else
      let events := saturating_add_u64 (throttle_events entry) 1 in
      let total := saturating_add_u64 (throttle_events_total st) 1 in
      (Throttled (window_ms - (now - window_start_unix_ms entry)) events total,
       mkLimiter
         (<[principal := mkPrincipalState (window_start_unix_ms entry)
                           (requests_in_window entry) events]> (principals st)) total).

Record ToolRateLimitCounters := mkLimitCounters
  { lc_throttle_events_total : N; lc_tracked_principals : nat }.
Definition limiter_counters (st : ToolRateLimiterState) : ToolRateLimitCounters :=
  mkLimitCounters (throttle_events_total st) (size (principals st)).

(** ** The world of the tools *)

(** Access control: the decision of the role policy (an error is its text) and the
    approval gate, which keeps its requests. *)
Class ToolAccess :=
  { Access : Type;
    authorize_tool : option string → string → string → Access → Result string RbacDecision;
    approval_gate : ApprovalAction → Access → Access * Result string ApprovalGateResult }.

(** A process to run: program, arguments, environment, directory (the tool's own when
    none is given) and the time it may take. *)
Record Spawn := mkSpawn
  { sp_program : string; sp_args : list string; sp_env : list (string * string);
    sp_cwd : option string; sp_timeout_ms : N }.

(** Output is text: bytes that are not UTF-8 are already replaced. *)
Inductive SpawnOutcome :=
| SpawnFailed (error : string)
| SpawnTimedOut
| SpawnExited (code : option Z) (stdout stderr : string).

(** [tau_extensions::ExtensionPolicyOverrideResult], as far as it is used. *)
Record PolicyOverride := mkOverride
  { ov_allowed : bool; ov_denied_by : option string; ov_reason : option string;
    ov_evaluated : nat; ov_permission_denied : nat; ov_diagnostics : list string }.

Class ToolHost :=
  { io_text : IoErrorKind → string;             (** the text of an [io::Error] *)
    environment : list (string * string);       (** [std::env::vars] *)
    shell_split : string → option (list string); (** [shell_words::split] *)
    show_cpus : f64 → string;                   (** [{:.3}] *)
    (** the hooks of the extensions below a directory, asked about a call *)
    evaluate_extension_policy_override : string → Value → PolicyOverride;
    (** a process, which may change files *)
    spawn : list Spawn → Spawn → FileTree → SpawnOutcome * FileTree }.

Section tools.
Context `{TA : ToolAccess, TH : ToolHost, PE : PatternEngine}.

(** [tw_now]: the clock, read once per call. *)
Record ToolWorld := mkWorld
  { tw_tree : FileTree; tw_access : Access; tw_limits : ToolRateLimiterState; tw_now : N;
    tw_ran : list Spawn }.

Definition set_tree (fs : FileTree) (w : ToolWorld) : ToolWorld :=
  mkWorld fs (tw_access w) (tw_limits w) (tw_now w) (tw_ran w).
Definition set_access (a : Access) (w : ToolWorld) : ToolWorld :=
  mkWorld (tw_tree w) a (tw_limits w) (tw_now w) (tw_ran w).
Definition set_limits (l : ToolRateLimiterState) (w : ToolWorld) : ToolWorld :=
  mkWorld (tw_tree w) (tw_access w) l (tw_now w) (tw_ran w).

(** The body of a tool: it may return early with a result. *)
Abbreviation Tool := (Eff ToolWorld ToolExecutionResult).

Definition run_tool (body : Tool ToolExecutionResult) (w : ToolWorld)
    : ToolExecutionResult * ToolWorld :=
  let '(r, w) := body w in (match r with Ok x => x | Err x => x end, w).

Definition deny {A} (fields : list (string * Value)) : Tool A := fail (result_error (json_obj fields)).
(** [match r { Ok(x) => x, Err(error) => return error(fields(error)) }] *)
Definition or_deny {A} (fields : string → list (string * Value)) (r : Result string A) : Tool A :=
  match r with Ok a => mret a | Err error => deny (fields error) end.
(** [if let Some(result) = gate { return result }] *)
Definition pass (gate : option ToolExecutionResult) : Tool unit :=
  match gate with None => mret tt | Some result => fail result end.

Definition env_var (name : string) : option string :=
  snd <$> List.find (λ v, String.eqb v.1 name) environment.

(** *** Arguments *)

Definition required_string (arguments : Value) (key : string) : Result string string :=
  ok_or ("missing required string argument '" +:+ key +:+ "'") (value_get key arguments ≫= as_str).

Definition optional_string (arguments : Value) (key : string) : Result string (option string) :=
  match value_get key arguments with
  | None => Ok None
  | Some value =>
      raw ← ok_or ("optional argument '" +:+ key +:+ "' must be a string") (as_str value);
      let trimmed := trim raw in
      Ok (if is_empty trimmed then None else Some trimmed)
  end.

Definition only_error (error : string) : list (string * Value) := [("error", Str error)].
Definition path_error (path error : string) : list (string * Value) :=
  [("path", Str path); ("error", Str error)].

(** *** Paths *)

Inductive PathMode := ModeRead | ModeWrite | ModeEdit | ModeDirectory.

Definition locate_text (e : LocateError) : string :=
  match e with OsError e => io_text e | NoExistingAncestor => "no existing ancestor for path" end.

Fixpoint path_in_roots (fs : FileTree) (q : Location) (roots : list string) : Result string bool :=
  match roots with
  | [] => Ok false
  | root :: roots =>
      match canonicalize_best_effort fs (path_of root) with
      | Err e => Err ("invalid allowed root '" +:+ root +:+ "': " +:+ locate_text e)
      | Ok canonical_root =>
          if bool_decide (canonical_root `prefix_of` q) then Ok true else path_in_roots fs q roots
      end
  end.

Definition is_path_allowed (fs : FileTree) (q : Location) (policy : ToolPolicy)
    : Result string bool :=
  match allowed_roots policy with [] => Ok true | roots => path_in_roots fs q roots end.

Definition must_exist (mode : PathMode) : bool :=
  match mode with ModeWrite => false | _ => true end.

Definition resolve_and_validate_path (fs : FileTree) (user_path : string) (policy : ToolPolicy)
    (mode : PathMode) : Result string string :=
  let absolute := join_path (display (ft_cwd fs)) user_path in
  match canonicalize_best_effort fs (path_of absolute) with
  | Err e => Err ("failed to canonicalize path '" +:+ absolute +:+ "': " +:+ locate_text e)
  | Ok canonical =>
      allowed ← is_path_allowed fs canonical policy;
      _ ← bail_if (negb allowed) ("path '" +:+ display canonical +:+ "' is outside allowed roots");
      _ ← bail_if (must_exist mode && negb (path_exists fs (path_of absolute)))
            ("path '" +:+ absolute +:+ "' does not exist");
      Ok absolute
  end.

Definition inspect_error (path : string) (e : IoErrorKind) : string :=
  "failed to inspect path '" +:+ path +:+ "': " +:+ io_text e.
Definition link_error (path : string) : string :=
  "path '" +:+ path +:+ "' is a symbolic link, which is denied by policy".

Definition is_symlink (n : Node) : bool := match n with LinkNode _ => true | _ => false end.
Definition is_file (n : Node) : bool := match n with FileNode _ => true | _ => false end.
Definition is_directory (n : Node) : bool := match n with DirNode => true | _ => false end.

Definition validate_file_target (fs : FileTree) (path : string) (mode : PathMode)
    (enforce_regular : bool) : Result string unit :=
  if negb enforce_regular || negb (path_exists fs (path_of path)) then Ok tt
  else match symlink_metadata fs (path_of path) with
  | Err e => Err (inspect_error path e)
  | Ok meta =>
      _ ← bail_if (is_symlink meta) (link_error path);
      match mode with
      | ModeRead | ModeEdit =>
          bail_if (negb (is_file meta))
            ("path '" +:+ path +:+ "' must be a regular file for this operation")
      | ModeWrite =>
          bail_if (negb (is_file meta))
            ("path '" +:+ path +:+ "' must be a regular file when overwriting existing content")
      | ModeDirectory => Ok tt
      end
  end.

Definition validate_directory_target (fs : FileTree) (path : string) (enforce_regular : bool)
    : Result string unit :=
  match symlink_metadata fs (path_of path) with
  | Err e => Err (inspect_error path e)
  | Ok meta =>
      _ ← bail_if (enforce_regular && is_symlink meta) (link_error path);
      match metadata fs (path_of path) with
      | Err e => Err (inspect_error path e)
      | Ok meta =>
          bail_if (negb (is_directory meta))
            ("path '" +:+ path +:+ "' must be a directory for this operation")
      end
  end.

(** *** Gates *)

Definition evaluate_protected_path_gate (fs : FileTree) (policy : ToolPolicy)
    (tool_name path : string) : option ToolExecutionResult :=
  if allow_protected_path_mutations policy then None
  else
    let normalized_path := normalize_policy_path fs path in
    matched ← List.find (λ candidate, same_path candidate normalized_path) (protected_paths policy);
    Some (result_error (json_obj
      [("policy_rule", Str "protected_path"); ("decision", Str "deny");
       ("reason_code", Str "protected_path_denied"); ("action", Str ("tool:" +:+ tool_name));
       ("path", Str normalized_path); ("protected_path", Str matched);
       ("error", Str "path is protected by tool policy");
       ("hint", Str ("set TAU_ALLOW_PROTECTED_PATH_MUTATIONS=1 to allow protected path mutations " +:+
                     "for controlled maintenance windows"))])).

(** [policy.rbac_principal], or the local one *)
Definition tool_principal (principal : option string) : string :=
  match trim <$> principal with
  | Some value => if is_empty value then local_principal env_var None else value
  | None => local_principal env_var None
  end.

Definition evaluate_tool_rbac_gate (access : Access) (policy : ToolPolicy) (tool_name : string)
    (action_payload : Value) : option ToolExecutionResult :=
  let principal := tool_principal (rbac_principal policy) in
  let head := [("policy_rule", Str "rbac"); ("principal", Str principal);
               ("action", Str ("tool:" +:+ tool_name)); ("payload", action_payload)] in
  match authorize_tool (rbac_policy_path policy) principal tool_name access with
  | Ok (RbacAllow _ _ _) => None
  | Ok (RbacDeny reason_code matched_role matched_pattern) =>
      Some (result_error (json_obj (head ++
        [("reason_code", Str reason_code); ("matched_role", json_option Str matched_role);
         ("matched_pattern", json_option Str matched_pattern);
         ("error", Str "rbac denied tool execution");
         ("hint", Str "run '/rbac check tool:* --json' to inspect active role policy")])))
  | Err error =>
      Some (result_error (json_obj (head ++
        [("reason_code", Str "rbac_policy_error");
         ("error", Str ("failed to evaluate rbac policy: " +:+ error))])))
  end.

(** [serde_json::to_value(&action)]: tagged with the action's kind. *)
Definition action_json (action : ApprovalAction) : Value :=
  json_obj
    (match action with
     | ToolBash command cwd =>
         [("kind", Str "tool_bash"); ("command", Str command); ("cwd", json_option Str cwd)]
     | ToolWrite path content_bytes =>
         [("kind", Str "tool_write"); ("path", Str path);
          ("content_bytes", Num (PosInt content_bytes))]
     | ToolEdit path find replace_bytes =>
         [("kind", Str "tool_edit"); ("path", Str path); ("find", Str find);
          ("replace_bytes", Num (PosInt replace_bytes))]
     | Command name args => [("kind", Str "command"); ("name", Str name); ("args", Str args)]
     end).

Definition evaluate_tool_approval_gate (action : ApprovalAction) : Tool unit := λ w,
  let '(access, answer) := approval_gate action (tw_access w) in
  let w := set_access access w in
  let head := [("policy_rule", Str "approval_gate"); ("action_kind", Str (action_kind action));
               ("action", action_json action)] in
  match answer with
  | Ok Allowed => (Ok tt, w)
  | Ok (Denied request_id rule_id reason_code message) =>
      (Err (result_error (json_obj (head ++
         [("approval_request_id", Str request_id); ("approval_rule_id", Str rule_id);
          ("reason_code", Str reason_code); ("error", Str message);
          ("hint", Str "run '/approvals list' then '/approvals approve <request_id>'")]))), w)
  | Err error =>
      (Err (result_error (json_obj (head ++
         [("reason_code", Str "approval_gate_error");
          ("error", Str ("failed to evaluate approval gate: " +:+ error))]))), w)
  end.

Definition limit_texts (behavior : ToolRateLimitExceededBehavior) : string * string * string :=
  match behavior with
  | LimitReject => ("reject", "rate_limit_rejected", "tool rate limit exceeded for principal")
  | LimitDefer =>
      ("defer", "rate_limit_deferred", "tool execution deferred by rate limit for principal")
  end.

(** The decision of the limiter, and the result of a call it turns away. *)
Definition evaluate_tool_rate_limit_gate (policy : ToolPolicy) (tool_name : string)
    (action_payload : Value) (w : ToolWorld) : option ToolExecutionResult * ToolWorld :=
  if (tool_rate_limit_max_requests policy =? 0)%N || (tool_rate_limit_window_ms policy =? 0)%N
  then (None, w)
  else
    let principal := tool_principal (rbac_principal policy) in
    let '(decision, limits) :=
      limiter_evaluate principal (tool_rate_limit_max_requests policy)
        (tool_rate_limit_window_ms policy) (tw_now w) (tw_limits w) in
    let w := set_limits limits w in
    match decision with
    | LimitAllow => (None, w)
    | Throttled retry_after_ms principal_events total =>
        let '(label, reason_code, error) := limit_texts (tool_rate_limit_exceeded_behavior policy) in
        (Some (result_error (json_obj
           [("policy_rule", Str "rate_limit"); ("policy_decision", Str "deny");
            ("decision", Str label); ("reason_code", Str reason_code);
            ("principal", Str principal); ("action", Str ("tool:" +:+ tool_name));
            ("payload", action_payload);
            ("max_requests", Num (PosInt (tool_rate_limit_max_requests policy)));
            ("window_ms", Num (PosInt (tool_rate_limit_window_ms policy)));
            ("retry_after_ms", Num (PosInt retry_after_ms));
            ("window_resets_unix_ms", Num (PosInt (saturating_add_u64 (tw_now w) retry_after_ms)));
            ("principal_throttle_events", Num (PosInt principal_events));
            ("throttle_events_total", Num (PosInt total));
            ("error", Str (error +:+ " '" +:+ principal +:+ "'"));
            ("hint", Str "retry after retry_after_ms or adjust tool policy rate-limit settings")])), w)
    end.

Definition rate_limit_gate (policy : ToolPolicy) (tool_name : string) (payload : Value) : Tool unit :=
  λ w, match evaluate_tool_rate_limit_gate policy tool_name payload w with
       | (None, w) => (Ok tt, w)
       | (Some result, w) => (Err result, w)
       end.

(** The gates of [write] and [edit], in the order of the code. *)
Definition file_gates (policy : ToolPolicy) (tool_name resolved : string) (action : ApprovalAction)
    (payload : Value) : Tool unit :=
  fs ← gets tw_tree;
  _ ← pass (evaluate_protected_path_gate fs policy tool_name resolved);
  access ← gets tw_access;
  _ ← pass (evaluate_tool_rbac_gate access policy tool_name payload);
  _ ← evaluate_tool_approval_gate action;
  rate_limit_gate policy tool_name payload.

(** *** Reading, writing and editing *)

Definition byte_len (s : string) : N := N.of_nat (String.length s).

Definition read_execute (policy : ToolPolicy) (arguments : Value) : Tool ToolExecutionResult :=
  path ← or_deny only_error (required_string arguments "path");
  fs ← gets tw_tree;
  resolved ← or_deny (path_error path) (resolve_and_validate_path fs path policy ModeRead);
  _ ← or_deny (path_error resolved)
        (validate_file_target fs resolved ModeRead (enforce_regular_files policy));
  match metadata fs (path_of resolved) with
  | Err e => deny (path_error resolved (io_text e))
  | Ok meta =>
      (** the length of what is not a file is not known to the model *)
      let len := match meta with FileNode content => byte_len content | _ => 0%N end in
      if (max_file_read_bytes policy <? len)%N
      then deny (path_error resolved
             ("file is too large (" +:+ show_u64 len +:+ " bytes), limit is " +:+
              show_u64 (max_file_read_bytes policy) +:+ " bytes"))
      else match read_to_string fs (path_of resolved) with
           | Ok content =>
               mret (result_ok (json_obj [("path", Str resolved); ("content", Str content)]))
           | Err e => deny (path_error resolved (io_text e))
           end
  end.

Definition write_payload (resolved : string) (content_size : N) : Value :=
  json_obj [("path", Str resolved); ("content_bytes", Num (PosInt content_size))].

(** [create_dir_all] of the parent, then the write. *)
Definition store_file (resolved content : string) : Tool ToolExecutionResult := λ w,
  match write_creating (path_of resolved) content (tw_tree w) with
  | (Ok _, fs) =>
      (Ok (result_ok (json_obj [("path", Str resolved);
             ("bytes_written", Num (PosInt (byte_len content)))])), set_tree fs w)
  | (Err (ParentError e), fs) =>
      (Err (result_error (json_obj (path_error resolved
              ("failed to create parent directory: " +:+ io_text e)))), set_tree fs w)
  | (Err (FileError e), fs) =>
      (Err (result_error (json_obj (path_error resolved (io_text e)))), set_tree fs w)
  end.

Definition write_execute (policy : ToolPolicy) (arguments : Value) : Tool ToolExecutionResult :=
  path ← or_deny only_error (required_string arguments "path");
  content ← or_deny only_error (required_string arguments "content");
  let content_size := byte_len content in
  if (max_file_write_bytes policy <? content_size)%N
  then deny (path_error path
         ("content is too large (" +:+ show_u64 content_size +:+ " bytes), limit is " +:+
          show_u64 (max_file_write_bytes policy) +:+ " bytes"))
  else
    fs ← gets tw_tree;
    resolved ← or_deny (path_error path) (resolve_and_validate_path fs path policy ModeWrite);
    _ ← or_deny (path_error resolved)
          (validate_file_target fs resolved ModeWrite (enforce_regular_files policy));
    _ ← file_gates policy "write" resolved (ToolWrite resolved content_size)
          (write_payload resolved content_size);
    store_file resolved content.

(** [str::split]: the pieces between the matches; [pat] is not empty.  A match takes at
    least one byte, so the length of the text bounds the number of rounds. *)
Fixpoint split_pieces (fuel : nat) (pat l : list ascii) : list (list ascii) :=
  match fuel, find_chars pat l with
  | S fuel, Some i => take i l :: split_pieces fuel pat (drop (i + length pat) l)
  | _, _ => [l]
  end.
Definition str_pieces (pat s : string) : list string :=
  of_chars <$> split_pieces (String.length s) (chars_of pat) (chars_of s).

(** [str::replace], and [replacen(.., 1)] *)
Definition str_replace (pat to s : string) : string := join to (str_pieces pat s).
Definition str_replace_first (pat to s : string) : string :=
  match str_find pat s with
  | None => s
  | Some i => of_chars (take i (chars_of s)) +:+ to +:+
              of_chars (drop (i + String.length pat) (chars_of s))
  end.
(** [s.matches(pat).count()] *)
Definition count_matches (pat s : string) : nat := length (str_pieces pat s) - 1.

Definition edit_payload (resolved find : string) (replace_bytes : N) : Value :=
  json_obj [("path", Str resolved); ("find", Str find); ("replace_bytes", Num (PosInt replace_bytes))].

(** The edit itself, after the gates. *)
Definition edit_file (policy : ToolPolicy) (resolved find replace : string) (replace_all : bool)
    : Tool ToolExecutionResult := λ w,
  let fs := tw_tree w in
  let stop error := (Err (result_error (json_obj (path_error resolved error))), w) in
  match read_to_string fs (path_of resolved) with
  | Err e => stop (io_text e)
  | Ok source =>
      let occurrences := count_matches find source in
      if occurrences =? 0 then stop "target string not found"
      else
        let updated :=
          if replace_all then str_replace find replace source
          else str_replace_first find replace source in
        if (max_file_write_bytes policy <? byte_len updated)%N
        then stop ("edited content is too large (" +:+ show_u64 (byte_len updated) +:+
                   " bytes), limit is " +:+ show_u64 (max_file_write_bytes policy) +:+ " bytes")
        else match write_file (path_of resolved) updated fs with
             | (Err e, fs) => (Err (result_error (json_obj (path_error resolved (io_text e)))), set_tree fs w)
             | (Ok _, fs) =>
                 (Ok (result_ok (json_obj [("path", Str resolved);
                        ("replacements", json_usize (if replace_all then occurrences else 1))])),
                  set_tree fs w)
             end
  end.

Definition edit_execute (policy : ToolPolicy) (arguments : Value) : Tool ToolExecutionResult :=
  path ← or_deny only_error (required_string arguments "path");
  find ← or_deny only_error (required_string arguments "find");
  replace ← or_deny only_error (required_string arguments "replace");
  if is_empty find then deny (path_error path "'find' must not be empty")
  else
    fs ← gets tw_tree;
    resolved ← or_deny (path_error path) (resolve_and_validate_path fs path policy ModeEdit);
    _ ← or_deny (path_error resolved)
          (validate_file_target fs resolved ModeEdit (enforce_regular_files policy));
    _ ← file_gates policy "edit" resolved (ToolEdit resolved find (byte_len replace))
          (edit_payload resolved find (byte_len replace));
    edit_file policy resolved find replace
      (default false (value_get "all" arguments ≫= as_bool)).

(** *** Shell commands *)

Definition SAFE_BASH_ENV_VARS : list string :=
  ["PATH"; "HOME"; "USER"; "SHELL"; "LANG"; "LC_ALL"; "LC_CTYPE"; "TERM"; "TMPDIR"; "TMP"; "TEMP";
   "TZ"].

Definition SANDBOX_REQUIRED_UNAVAILABLE_ERROR : string :=
  "OS sandbox policy mode 'required' is enabled but command would run without a sandbox launcher".
Definition SANDBOX_FORCE_UNAVAILABLE_ERROR : string :=
  "OS sandbox mode 'force' is enabled but no sandbox launcher is configured or available".
Definition SANDBOX_DOCKER_UNAVAILABLE_ERROR : string :=
  "OS sandbox Docker backend is enabled but Docker CLI is unavailable".

Definition bash_profile_name (profile : BashCommandProfile) : string :=
  match profile with
  | ProfilePermissive => "permissive" | ProfileBalanced => "balanced" | ProfileStrict => "strict"
  end.
Definition os_sandbox_mode_name (mode : OsSandboxMode) : string :=
  match mode with SandboxOff => "off" | SandboxAuto => "auto" | SandboxForce => "force" end.
Definition os_sandbox_policy_mode_name (mode : OsSandboxPolicyMode) : string :=
  match mode with BestEffort => "best-effort" | Required => "required" end.
Definition os_sandbox_docker_network_name (mode : OsSandboxDockerNetwork) : string :=
  match mode with DockerNone => "none" | DockerBridge => "bridge" | DockerHost => "host" end.
Definition sandbox_reason_code (error : string) : string :=
  if String.eqb error SANDBOX_REQUIRED_UNAVAILABLE_ERROR then "sandbox_policy_required"
  else if String.eqb error SANDBOX_FORCE_UNAVAILABLE_ERROR then "sandbox_force_unavailable"
  else if String.eqb error SANDBOX_DOCKER_UNAVAILABLE_ERROR then "sandbox_docker_unavailable"
  else "sandbox_unavailable".

Definition is_shell_assignment (token : string) : bool :=
  match split_once "="%char token with
  | None => false
  | Some (name, _) =>
      match chars_of name with
      | [] => false
      | first :: rest =>
          (Ascii.eqb first "_" || is_ascii_alphabetic first)
          && forallb (λ c, Ascii.eqb c "_" || is_ascii_alphanumeric c) rest
      end
  end.

(** The first word that is not an assignment, without its directory. *)
Definition leading_executable (command : string) : option string :=
  tokens ← shell_split command;
  token ← List.find (λ t, negb (is_shell_assignment t)) tokens;
  Some (default token (file_name token)).

Definition is_command_allowed (executable : string) (allowlist : list string) : bool :=
  existsb (λ entry,
    match strip_suffix "*" entry with
    | Some prefix => starts_with prefix executable
    | None => String.eqb executable entry
    end) allowlist.

(** [candidate.exists()] in a directory of [PATH] *)
Definition command_available (fs : FileTree) (command : string) : bool :=
  match env_var "PATH" with
  | None => false
  | Some path =>
      existsb (λ dir, path_exists fs (path_of (join_path dir command))) (split_on ":"%char path)
  end.

Record BashSandboxSpec := mkSandboxSpec
  { bs_program : string; bs_args : list string; bs_sandboxed : bool; bs_backend : string }.

Definition plain_spec (shell command : string) : BashSandboxSpec :=
  mkSandboxSpec shell ["-lc"; command] false "none".

Definition template_args (shell command cwd : string) (tokens : list string) : list string :=
  (λ token,
     if String.eqb token "{shell}" then shell
     else if String.eqb token "{command}" then command
     else str_replace "{cwd}" cwd token) <$> tokens.

Definition build_spec_from_command_template (template : list string) (shell command cwd : string)
    : Result string BashSandboxSpec :=
  match template with
  | [] => Err "sandbox command template is empty"
  | program_template :: tokens =>
      let has t := existsb (String.eqb t) tokens in
      Ok (mkSandboxSpec (str_replace "{cwd}" cwd program_template)
            (template_args shell command cwd tokens
             ++ (if has "{shell}" then [] else [shell])
             ++ (if has "{command}" then [] else ["-lc"; command])) true "template")
  end.

Definition build_docker_sandbox_spec (policy : ToolPolicy) (command cwd : string) : BashSandboxSpec :=
  mkSandboxSpec "docker"
    (["run"; "--rm"; "--init"; "--network";
      os_sandbox_docker_network_name (os_sandbox_docker_network policy);
      "--pids-limit"; show_u64 (os_sandbox_docker_pids_limit policy);
      "--memory"; show_u64 (os_sandbox_docker_memory_mb policy) +:+ "m";
      "--cpus"; show_cpus (os_sandbox_docker_cpu_limit policy);
      "--security-opt"; "no-new-privileges"; "--cap-drop"; "ALL";
      "--tmpfs"; "/tmp:rw,nosuid,nodev,noexec,size=64m";
      "--volume"; cwd +:+ ":" +:+ cwd +:+ ":rw"; "--workdir"; cwd]
     ++ (if os_sandbox_docker_read_only_rootfs policy then ["--read-only"] else [])
     ++ concat ((λ name, match env_var name with
                         | Some value => ["--env"; name +:+ "=" +:+ value]
                         | None => []
                         end) <$> os_sandbox_docker_env_allowlist policy)
     ++ [trim (os_sandbox_docker_image policy); "sh"; "-lc"; command]) true "docker".

(** On Linux. *)
Definition auto_sandbox_spec (fs : FileTree) (policy : ToolPolicy) (shell command cwd : string)
    : option BashSandboxSpec :=
  if command_available fs "bwrap" then
    Some (mkSandboxSpec "bwrap"
      (["--die-with-parent"; "--new-session"; "--unshare-all"; "--proc"; "/proc"; "--dev"; "/dev";
        "--tmpfs"; "/tmp"]
       ++ concat ((λ mount, if path_exists fs (path_of mount) then ["--ro-bind"; mount; mount] else [])
            <$> ["/usr"; "/bin"; "/lib"; "/lib64"])
       ++ ["--bind"; cwd; cwd; "--chdir"; cwd; shell; "-lc"; command]) true "bwrap")
  else if os_sandbox_docker_enabled policy && command_available fs "docker"
  then Some (build_docker_sandbox_spec policy command cwd)
  else None.

Definition resolve_sandbox_spec (fs : FileTree) (policy : ToolPolicy) (shell command cwd : string)
    : Result string BashSandboxSpec :=
  let bwrap_available := command_available fs "bwrap" in
  let docker_available := os_sandbox_docker_enabled policy && command_available fs "docker" in
  let no_docker := os_sandbox_docker_enabled policy && negb docker_available && negb bwrap_available in
  spec ←
    match os_sandbox_command policy with
    | _ :: _ => build_spec_from_command_template (os_sandbox_command policy) shell command cwd
    | [] =>
        match os_sandbox_mode policy with
        | SandboxOff => Ok (plain_spec shell command)
        | SandboxAuto =>
            Ok (default (plain_spec shell command) (auto_sandbox_spec fs policy shell command cwd))
        | SandboxForce =>
            match auto_sandbox_spec fs policy shell command cwd with
            | Some spec => Ok spec
            | None => Err (if no_docker then SANDBOX_DOCKER_UNAVAILABLE_ERROR
                           else SANDBOX_FORCE_UNAVAILABLE_ERROR)
            end
        end
    end;
  match os_sandbox_policy_mode policy with
  | Required =>
      if bs_sandboxed spec then Ok spec
      else Err (if no_docker && match os_sandbox_mode policy with SandboxOff => false | _ => true end
                then SANDBOX_DOCKER_UNAVAILABLE_ERROR else SANDBOX_REQUIRED_UNAVAILABLE_ERROR)
  | BestEffort => Ok spec
  end.

(** The start of the last character that begins at or before [n]. *)
Fixpoint boundary_below (l : list ascii) (n : nat) : nat :=
  match n with
  | O => O
  | S m => match l !! n with
           | Some c => if is_char_start c then n else boundary_below l m
           | None => n
           end
  end.

Definition truncate_bytes (value : string) (limit : nat) : string :=
  if String.length value <=? limit then value
  else if limit =? 0 then "<output truncated>"
  else of_chars (take (boundary_below (chars_of value) limit) (chars_of value))
       +:+ newline +:+ "<output truncated>".

Definition ascii_upper (c : ascii) : ascii :=
  if is_ascii_lowercase c then ascii_of_N (N_of_ascii c - 32) else c.
Definition to_ascii_uppercase (s : string) : string := of_chars (ascii_upper <$> chars_of s).

Definition is_sensitive (v : string * string) : bool :=
  let upper := to_ascii_uppercase v.1 in
  (ends_with "_KEY" upper || ends_with "_TOKEN" upper || ends_with "_SECRET" upper
   || ends_with "_PASSWORD" upper)
  && (6 <=? String.length (trim v.2)).

(** The values of sensitive variables, then nothing else, are replaced after the scan for
    leaked keys; [None] where building the detector panics. *)
Definition redact_secrets (text : string) : option string :=
  detector ← default_leak_detector_new;
  Some (foldl (λ redacted v,
          if is_sensitive v then str_replace v.2 "[REDACTED]" redacted else redacted)
          (redacted_text (leak_detector_scan detector text "[REDACTED]")) environment).

Record PolicyTraceStep := mkTraceStep { pt_check : string; pt_outcome : string; pt_detail : string }.

Definition trace_step_json (t : PolicyTraceStep) : Value :=
  json_obj [("check", Str (pt_check t)); ("outcome", Str (pt_outcome t)); ("detail", Str (pt_detail t))].

Definition push_policy_trace (enabled : bool) (check outcome detail : string)
    (trace : list PolicyTraceStep) : list PolicyTraceStep :=
  if enabled then trace ++ [mkTraceStep check outcome detail] else trace.

Definition attach_policy_trace (enabled : bool) (trace : list PolicyTraceStep) (decision : string)
    (payload : list (string * Value)) : list (string * Value) :=
  if enabled
  then payload ++ [("policy_decision", Str decision); ("policy_trace", Arr (trace_step_json <$> trace))]
  else payload.

Definition bash_policy_error (command : string) (cwd : option string) (policy_rule error : string)
    (allowed : option (list string)) (enabled : bool) (trace : list PolicyTraceStep)
    : ToolExecutionResult :=
  result_error (json_obj (attach_policy_trace enabled trace "deny"
    ([("command", Str command)]
     ++ match cwd with Some cwd => [("cwd", Str cwd)] | None => [] end
     ++ [("policy_rule", Str policy_rule); ("error", Str error)]
     ++ match allowed with Some l => [("allowed_commands", json_strings l)] | None => [] end))).

Definition has_newline (command : string) : bool :=
  existsb (λ c, Ascii.eqb c "010" || Ascii.eqb c "013") (chars_of command).

Section bash.
Context (policy : ToolPolicy) (command : string).
Abbreviation Trace := (list PolicyTraceStep).
Abbreviation enabled := (tool_policy_trace policy).

(** A check that may end the call; the trace tells which ones were made. *)
Definition check_or_deny (failed : bool) (check deny_text error allow_text : string)
    (allowed : option (list string)) (trace : Trace) : Tool Trace :=
  if failed
  then fail (bash_policy_error command None check error allowed enabled
               (push_policy_trace enabled check "deny" deny_text trace))
  else mret (push_policy_trace enabled check "allow" allow_text trace).

Definition check_length (trace : Trace) : Tool Trace :=
  let len := chars_count command in
  let text := "command is too long (" +:+ show_usize len +:+ " chars), limit is " +:+
              show_usize (max_command_length policy) +:+ " chars" in
  check_or_deny (max_command_length policy <? len) "max_command_length" text text
    ("command length " +:+ show_usize len +:+ " within limit " +:+
     show_usize (max_command_length policy)) None trace.

Definition check_newlines (trace : Trace) : Tool Trace :=
  check_or_deny (negb (allow_command_newlines policy) && has_newline command) "allow_command_newlines"
    "multiline command detected while newlines are disallowed"
    "multiline commands are disabled by policy" "command newline policy satisfied" None trace.

Definition check_allowlist (trace : Trace) : Tool Trace :=
  match allowed_commands policy with
  | [] => mret (push_policy_trace enabled "allowed_commands" "allow"
                  "allowlist disabled for current profile" trace)
  | allowlist =>
      match leading_executable command with
      | None =>
          let text := "unable to parse command executable" in
          check_or_deny true "allowed_commands" text text text None trace
      | Some executable =>
          let trace := push_policy_trace enabled "executable_parse" "allow"
                         ("parsed executable '" +:+ executable +:+ "'") trace in
          let text := "command '" +:+ executable +:+ "' is not allowed by '" +:+
                      bash_profile_name (bash_profile policy) +:+ "' bash profile" in
          check_or_deny (negb (is_command_allowed executable allowlist)) "allowed_commands" text text
            ("command '" +:+ executable +:+ "' allowed") (Some allowlist) trace
      end
  end.

Definition check_cwd (arguments : Value) (trace : Trace) : Tool (option string * Trace) :=
  fs ← gets tw_tree;
  match value_get "cwd" arguments ≫= as_str with
  | None =>
      mret (None, push_policy_trace enabled "cwd_validation" "allow"
                    "cwd not provided; using process current directory" trace)
  | Some cwd =>
      match resolve_and_validate_path fs cwd policy ModeDirectory with
      | Err error =>
          fail (bash_policy_error command (Some cwd) "allowed_roots" error None enabled
                  (push_policy_trace enabled "allowed_roots" "deny" error trace))
      | Ok path =>
          match validate_directory_target fs path (enforce_regular_files policy) with
          | Err error =>
              fail (bash_policy_error command (Some path) "cwd_validation" error None enabled
                      (push_policy_trace enabled "cwd_validation" "deny" error trace))
          | Ok _ =>
              mret (Some path, push_policy_trace enabled "cwd_validation" "allow"
                                 ("cwd '" +:+ path +:+ "' accepted") trace)
          end
      end
  end.

Definition command_json (cwd : option string) : Value :=
  json_obj [("command", Str command); ("cwd", json_option Str cwd)].
Definition command_fields (cwd : option string) : list (string * Value) :=
  [("command", Str command); ("cwd", json_option Str cwd)].

(** The fields of an object. *)
Definition fields_of (v : Value) : list (string * Value) := default [] (as_object v).

Definition check_rate_limit (cwd : option string) (trace : Trace) : Tool Trace := λ w,
  match evaluate_tool_rate_limit_gate policy "bash" (command_json cwd) w with
  | (None, w) =>
      (Ok (push_policy_trace enabled "rate_limit" "allow" "request is within rate-limit budget" trace), w)
  | (Some result, w) =>
      let content := tr_content result in
      let principal := default "unknown" (value_get "principal" content ≫= as_str) in
      let retry_after_ms := default 0%N (value_get "retry_after_ms" content ≫= as_u64) in
      let trace := push_policy_trace enabled "rate_limit" "deny"
                     ("principal '" +:+ principal +:+ "' exceeded rate limit; retry_after_ms=" +:+
                      show_u64 retry_after_ms) trace in
      (Err (result_error (json_obj (attach_policy_trace enabled trace "deny" (fields_of content)))), w)
  end.

Definition override_payload (cwd : option string) : Value :=
  json_obj ([("tool", Str "bash")] ++ command_fields cwd ++
    [("bash_profile", Str (bash_profile_name (bash_profile policy)));
     ("sandbox_mode", Str (os_sandbox_mode_name (os_sandbox_mode policy)))]).

Definition check_extensions (cwd : option string) (trace : Trace) : Tool Trace :=
  let check := "extension_policy_override" in
  match extension_policy_override_root policy with
  | None => mret (push_policy_trace enabled check "allow"
                    "extension policy override hooks are disabled" trace)
  | Some root =>
      let answer := evaluate_extension_policy_override root (override_payload cwd) in
      if ov_allowed answer then
        mret (push_policy_trace enabled check "allow"
                ("evaluated " +:+ show_usize (ov_evaluated answer) +:+
                 " policy-override extension hooks with allow decision") trace)
      else
        let denied_by := default "unknown-extension" (ov_denied_by answer) in
        let reason := default "extension policy override denied command" (ov_reason answer) in
        let trace := push_policy_trace enabled check "deny"
                       ("denied by " +:+ denied_by +:+ ": " +:+ reason) trace in
        deny (attach_policy_trace enabled trace "deny" (command_fields cwd ++
          [("policy_rule", Str check); ("error", Str reason); ("denied_by", Str denied_by);
           ("extension_root", Str root);
           ("permission_denied", json_usize (ov_permission_denied answer));
           ("diagnostics", json_strings (ov_diagnostics answer))]))
  end.

Definition check_sandbox (cwd : option string) (trace : Trace) : Tool (BashSandboxSpec * Trace) :=
  fs ← gets tw_tree;
  let shell := default "sh" (env_var "SHELL") in
  let current_dir := default (display (ft_cwd fs)) cwd in
  let mode := os_sandbox_mode_name (os_sandbox_mode policy) in
  match resolve_sandbox_spec fs policy shell command current_dir with
  | Ok spec =>
      mret (spec, push_policy_trace enabled "os_sandbox_mode" "allow"
                    ("resolved sandbox mode '" +:+ mode +:+ "' (sandboxed=" +:+
                     (if bs_sandboxed spec then "true" else "false") +:+ ")") trace)
  | Err error =>
      let trace := push_policy_trace enabled "os_sandbox_mode" "deny" error trace in
      deny (attach_policy_trace enabled trace "deny" (command_fields cwd ++
        [("policy_rule", Str "os_sandbox_mode"); ("reason_code", Str (sandbox_reason_code error));
         ("sandbox_mode", Str mode);
         ("sandbox_policy_mode", Str (os_sandbox_policy_mode_name (os_sandbox_policy_mode policy)));
         ("policy_mode", Str "sandbox"); ("policy_reason_code", Str (sandbox_reason_code error));
         ("error", Str error)]))
  end.

(** The environment of the command: cleared but for the safe variables. *)
Definition command_env (sandboxed : bool) : list (string * string) :=
  omap (λ key, (λ value, (key, value)) <$> env_var key) SAFE_BASH_ENV_VARS
  ++ [("TAU_SANDBOXED", if sandboxed then "1" else "0")].

Definition sandbox_fields (spec : BashSandboxSpec) : list (string * Value) :=
  [("sandboxed", Bool (bs_sandboxed spec));
   ("sandbox_mode", Str (os_sandbox_mode_name (os_sandbox_mode policy)));
   ("sandbox_backend", Str (bs_backend spec));
   ("sandbox_policy_mode", Str (os_sandbox_policy_mode_name (os_sandbox_policy_mode policy)));
   ("policy_mode", Str "none"); ("policy_reason_code", Str "none")].

Definition dry_run_result (cwd : option string) (spec : BashSandboxSpec) (trace : Trace)
    : ToolExecutionResult :=
  result_ok (json_obj (attach_policy_trace enabled trace "allow"
    (command_fields cwd ++ sandbox_fields spec ++
     [("dry_run", Bool true); ("would_execute", Bool true); ("status", Null); ("success", Bool true);
      ("stdout", Str ""); ("stderr", Str "")]))).

Definition json_code (code : option Z) : Value :=
  json_option (λ z, Num (if (z <? 0)%Z then NegInt z else PosInt (Z.to_N z))) code.

(** Running the command; [None]: building the leak detector panics. *)
Definition spawn_command (cwd : option string) (spec : BashSandboxSpec) (trace : Trace)
    : Tool (option ToolExecutionResult) := λ w,
  let request := mkSpawn (bs_program spec) (bs_args spec) (command_env (bs_sandboxed spec)) cwd
                   (N.max (bash_timeout_ms policy) 1) in
  let '(outcome, fs) := spawn (tw_ran w) request (tw_tree w) in
  let w := mkWorld fs (tw_access w) (tw_limits w) (tw_now w) (tw_ran w ++ [request]) in
  let attach := attach_policy_trace enabled trace "allow" in
  match outcome with
  | SpawnFailed error =>
      (Err (result_error (json_obj (attach (command_fields cwd ++ [("error", Str error)])))), w)
  | SpawnTimedOut =>
      (Err (result_error (json_obj (attach (command_fields cwd ++
         [("error", Str ("command timed out after " +:+ show_u64 (bash_timeout_ms policy) +:+ " ms"))])))), w)
  | SpawnExited code stdout stderr =>
      (Ok (stdout ← redact_secrets stdout;
           stderr ← redact_secrets stderr;
           Some (result_ok (json_obj (attach (command_fields cwd ++ sandbox_fields spec ++
             [("dry_run", Bool false); ("status", json_code code);
              ("success", Bool (bool_decide (code = Some 0%Z)));
              ("stdout", Str (truncate_bytes stdout (max_command_output_bytes policy)));
              ("stderr", Str (truncate_bytes stderr (max_command_output_bytes policy)))]))))), w)
  end.
End bash.

(** [None]: the tool panics. *)
Definition bash_execute (policy : ToolPolicy) (arguments : Value)
    : Tool (option ToolExecutionResult) :=
  command ← or_deny only_error (required_string arguments "command");
  trace ← check_length policy command [];
  trace ← check_newlines policy command trace;
  trace ← check_allowlist policy command trace;
  cwd_trace ← check_cwd policy command arguments trace;
  let '(cwd, trace) := cwd_trace in
  access ← gets tw_access;
  _ ← pass (evaluate_tool_rbac_gate access policy "bash" (command_json command cwd));
  _ ← evaluate_tool_approval_gate (ToolBash command cwd);
  trace ← check_rate_limit policy command cwd trace;
  trace ← check_extensions policy command cwd trace;
  spec_trace ← check_sandbox policy command cwd trace;
  let '(spec, trace) := spec_trace in
  if bash_dry_run policy then
    mret (Some (dry_run_result policy command cwd spec
      (push_policy_trace (tool_policy_trace policy) "execution_mode" "allow"
         "bash dry-run enabled; command not executed" trace)))
  else
    spawn_command policy command cwd spec
      (push_policy_trace (tool_policy_trace policy) "execution_mode" "allow"
         "bash command execution permitted" trace).

(** *** Tools that only direct the reply *)

Definition skip_execute (arguments : Value) : Tool ToolExecutionResult :=
  reason ← or_deny only_error (optional_string arguments "reason");
  mret (result_ok (json_obj [("skip_response", Bool true); ("reason", Str (default "" reason));
                             ("reason_code", Str "skip_suppressed")])).

Definition react_execute (arguments : Value) : Tool ToolExecutionResult :=
  emoji ← or_deny only_error (required_string arguments "emoji");
  let emoji := trim emoji in
  if is_empty emoji
  then deny [("error", Str "field 'emoji' must not be empty"); ("reason_code", Str "react_invalid_emoji")]
  else
    message_id ← or_deny only_error (optional_string arguments "message_id");
    mret (result_ok (json_obj [("react_response", Bool true); ("emoji", Str emoji);
            ("message_id", json_option Str message_id); ("reason_code", Str "react_requested");
            ("suppress_response", Bool true)])).

Definition send_file_execute (arguments : Value) : Tool ToolExecutionResult :=
  file_path ← or_deny only_error (required_string arguments "file_path");
  let file_path := trim file_path in
  if is_empty file_path
  then deny [("error", Str "field 'file_path' must not be empty");
             ("reason_code", Str "send_file_invalid_path")]
  else
    message ← or_deny only_error (optional_string arguments "message");
    mret (result_ok (json_obj [("send_file_response", Bool true); ("file_path", Str file_path);
            ("message", json_option Str message); ("reason_code", Str "send_file_requested");
            ("suppress_response", Bool true)])).
End tools.

(** ** Access control by the files of the state directory *)

Section standard.
Context `{!RbacCodec, !ApprovalCodec}.
Context (env : env_vars) (rbac_text : RbacError → string) (approval_text : ApprovalError → string).

Definition path_from_env (name fallback : string) : string :=
  match trim <$> env name with
  | Some path => if is_empty path then fallback else path
  | None => fallback
  end.
Definition default_approval_policy_path : string :=
  path_from_env "TAU_APPROVAL_POLICY_PATH" ".tau/approvals/policy.json".
Definition default_approval_store_path : string :=
  path_from_env "TAU_APPROVAL_STORE_PATH" ".tau/approvals/requests.json".

Definition evaluate_approval_gate (action : ApprovalAction) (fs : TextFs)
    : TextFs * Result ApprovalError ApprovalGateResult :=
  evaluate_approval_gate_with_paths fs action default_approval_policy_path default_approval_store_path.

Definition authorize_tool_for_principal (fs : TextFs) (principal : option string) (tool_name : string)
    : Result RbacError RbacDecision :=
  authorize_tool_for_principal_with_policy_path fs env principal tool_name (default_rbac_policy_path env).

(** The role policy of [rbac.rs] and the approval gate of [approvals.rs] as the access
    control of the tools; errors reach the tools as texts. *)
Definition standard_access : ToolAccess :=
  {| Access := TextFs;
     authorize_tool policy_path principal tool_name fs :=
       match (match policy_path with
              | Some path =>
                  authorize_tool_for_principal_with_policy_path fs env (Some principal) tool_name path
              | None => authorize_tool_for_principal fs (Some principal) tool_name
              end) with
       | Ok decision => Ok decision
       | Err e => Err (rbac_text e)
       end;
     approval_gate action fs :=
       match evaluate_approval_gate action fs with
       | (fs, Ok answer) => (fs, Ok answer)
       | (fs, Err e) => (fs, Err (approval_text e))
       end |}.
End standard.

Abbreviation Tool := (Eff ToolWorld ToolExecutionResult).
