(* ===== verification/ToolTheorems.v ===== *)
(** * What the tools promise

    File tools stay inside the allowed roots and leave protected files alone, effects
    need the role policy's, the approval gate's and the rate limiter's consent, shell
    commands run only as screened, and the limits of all that: the inputs on which the
    code does not keep these promises. *)

From Stdlib Require Import NArith ZArith Ascii Lia.
From stdpp Require Import base gmap strings list.
From S2P Require Import Prelude RustStr Json Effects AtomicIo Approvals ApprovalTheorems Rbac StateDirs AgentTools Safety ToolFs Tools.

#[local] Open Scope string_scope.
#[local] Open Scope list_scope.
#[local] Open Scope nat_scope.

#[global] Instance spawn_eq_dec : EqDecision Spawn.
Proof. solve_decision. Defined.

(** ** Replacing text *)

Section pieces.
Implicit Types (pat l : list ascii).

(** The first match in a text is also the first one up to its end. *)
Lemma find_chars_cut pat a r :
  find_chars pat (a ++ pat ++ r) = Some (length a) → find_chars pat (a ++ pat) = Some (length a).
Proof.
  induction a as [|c a IH]; cbn [app length].
  - intros _. pose proof (strip_prefix_chars_app pat []) as H. rewrite app_nil_r in H.
    destruct pat; cbn [find_chars]; [done|]. by rewrite H.
  - cbn [find_chars]. destruct (strip_prefix_chars pat (c :: a ++ pat ++ r)) as [t|] eqn:Hs; [done|].
    intros H. destruct (find_chars pat (a ++ pat ++ r)) as [i|] eqn:Hf; [|done].
    cbn in H. injection H as ->. rewrite (IH eq_refl).
    destruct (strip_prefix_chars pat (c :: a ++ pat)) as [t|] eqn:Hs'; [|done]. exfalso.
    apply strip_prefix_chars_Some in Hs'. apply (f_equal (.++ r)) in Hs'. cbn in Hs'.
    rewrite <- !app_assoc in Hs'. rewrite Hs', strip_prefix_chars_app in Hs. done.
Qed.

(** The pieces of a text: put together again they are the text, a match follows each of
    them but the last at its end and not earlier, and there is none in the last. *)
Fixpoint pieces_of pat l (ps : list (list ascii)) : Prop :=
  match ps with
  | [] => False
  | [p] => p = l ∧ find_chars pat l = None
  | p :: ps => ∃ rest, l = p ++ pat ++ rest ∧ find_chars pat (p ++ pat) = Some (length p) ∧
      find_chars pat l = Some (length p) ∧ pieces_of pat rest ps
  end.

Lemma split_pieces_spec fuel pat l :
  pat ≠ [] → length l ≤ fuel → pieces_of pat l (split_pieces fuel pat l).
Proof.
  intros Hpat. revert l. induction fuel as [|fuel IH]; intros l Hlen; cbn [split_pieces].
  - destruct l; [|cbn in Hlen; lia]. cbn. split; [done|]. by destruct pat.
  - destruct (find_chars pat l) as [i|] eqn:Hf; [|by split].
    destruct (find_chars_Some _ _ _ Hf) as (r & Hl & Hi).
    assert (length (take i l) = i) as Ht by (rewrite length_take; lia).
    assert (drop (i + length pat) l = r) as Hr.
    { rewrite Hl at 1. rewrite app_assoc. apply drop_app_length'. rewrite length_app, Ht. done. }
    rewrite Hr. assert (length r ≤ fuel).
    { rewrite Hl, !length_app, Ht in Hlen. destruct pat; [done|]. cbn in Hlen. lia. }
    specialize (IH r ltac:(done)).
    assert (∃ rest, l = take i l ++ pat ++ rest ∧ find_chars pat (take i l ++ pat) = Some (length (take i l)) ∧
      find_chars pat l = Some (length (take i l)) ∧ pieces_of pat rest (split_pieces fuel pat r)) as H0.
    { exists r. split_and!; [done| |by rewrite Ht|done].
      apply (find_chars_cut _ _ r). by rewrite <- Hl, Ht. }
    destruct (split_pieces fuel pat r); [done|exact H0].
Qed.

Lemma join_chars pat l ps :
  pieces_of pat l ps → chars_of (join (of_chars pat) (of_chars <$> ps)) = l.
Proof.
  revert l. induction ps as [|p ps IH]; intros l; [done|]. destruct ps as [|p' ps].
  - intros [-> _]. apply chars_of_of_chars.
  - intros (rest & -> & _ & _ & H). change (join (of_chars pat) (of_chars <$> p :: p' :: ps))
      with (of_chars p +:+ of_chars pat +:+ join (of_chars pat) (of_chars <$> p' :: ps)).
    by rewrite !chars_of_app, !chars_of_of_chars, (IH rest).
Qed.
End pieces.

Lemma str_pieces_spec find source :
  find ≠ "" →
  pieces_of (chars_of find) (chars_of source) (chars_of <$> str_pieces find source) ∧
  source = join find (str_pieces find source).
Proof.
  intros Hne. unfold str_pieces.
  assert (pieces_of (chars_of find) (chars_of source)
    (split_pieces (String.length source) (chars_of find) (chars_of source))) as Hp.
  { apply split_pieces_spec; [|by rewrite length_chars_of]. intros Hnil. by destruct find. }
  split.
  - rewrite <- list_fmap_compose. erewrite list_fmap_ext; [by rewrite list_fmap_id|].
    intros i x _. apply chars_of_of_chars.
  - apply chars_of_inj. rewrite <- (of_chars_chars_of find) at 1. by rewrite (join_chars _ _ _ Hp).
Qed.

Lemma replace_first_pieces find replace source first x rest :
  find ≠ "" → str_pieces find source = first :: x :: rest →
  str_replace_first find replace source = first +:+ replace +:+ join find (x :: rest).
Proof.
  intros Hne Hs. destruct (str_pieces_spec find source Hne) as [Hp Hj]. rewrite Hs in Hp, Hj.
  destruct Hp as (l & Hl & _ & Hf & _). unfold str_replace_first, str_find. rewrite Hf.
  assert (take (length (chars_of first)) (chars_of source) = chars_of first) as ->
    by (rewrite Hl; by apply take_app_length).
  rewrite of_chars_chars_of. do 2 f_equal. apply chars_of_inj. rewrite chars_of_of_chars.
  rewrite Hj, <- length_chars_of. change (join find (first :: x :: rest))
    with (first +:+ find +:+ join find (x :: rest)).
  rewrite !chars_of_app, app_assoc. apply drop_app_length'. by rewrite length_app.
Qed.

(** ** Paths *)

(** A location inside one of the allowed roots. *)
Definition inside (fs : FileTree) (policy : ToolPolicy) (q : Location) : Prop :=
  ∃ root r, root ∈ allowed_roots policy ∧ canonicalize_best_effort fs (path_of root) = Ok r ∧
    r `prefix_of` q.

(** The path a call names, made absolute. *)
Definition target (fs : FileTree) (path : string) : string := join_path (display (ft_cwd fs)) path.

Section paths.
Context `{TA : ToolAccess, TH : ToolHost, PE : PatternEngine}.
Implicit Types (fs : FileTree) (policy : ToolPolicy) (w : ToolWorld).

Lemma target_absolute fs path : p_absolute (path_of (target fs path)) = true.
Proof.
  unfold target, join_path. destruct (is_absolute path) eqn:Habs; [exact Habs|].
  destruct (last (chars_of (display (ft_cwd fs)))) as [c|] eqn:Hl.
  - by destruct (Ascii.eqb c slash).
  - apply last_None in Hl. discriminate Hl.
Qed.

Lemma path_in_roots_true fs q roots :
  path_in_roots fs q roots = Ok true →
  ∃ root r, root ∈ roots ∧ canonicalize_best_effort fs (path_of root) = Ok r ∧ r `prefix_of` q.
Proof.
  induction roots as [|root roots IH]; cbn; [done|].
  destruct (canonicalize_best_effort fs (path_of root)) as [r|e] eqn:Hr; [|done].
  case_bool_decide as Hp; [intros _; exists root, r; split_and!; [by left|done..]|].
  intros (root' & r' & Hin & H)%IH. exists root', r'. split; [by right|done].
Qed.

Lemma resolve_Ok fs path policy mode resolved :
  resolve_and_validate_path fs path policy mode = Ok resolved →
  resolved = target fs path ∧
  ∃ q, canonicalize_best_effort fs (path_of resolved) = Ok q ∧
    (allowed_roots policy ≠ [] → inside fs policy q) ∧
    (must_exist mode = true → path_exists fs (path_of resolved) = true).
Proof.
  unfold resolve_and_validate_path. fold (target fs path).
  destruct (canonicalize_best_effort _ _) as [q|e] eqn:Hq; [|done].
  intros (allowed & Ha & H)%bind_Ok. apply check_Ok in H as [Hallow H].
  apply check_Ok in H as [Hexists H]. injection H as <-. split; [done|]. exists q.
  apply bail_if_Ok, negb_false_iff in Hallow. subst allowed. apply bail_if_Ok in Hexists.
  split_and!; [done| |].
  - intros Hne. unfold is_path_allowed in Ha. destruct (allowed_roots policy) as [|r rs] eqn:Hroots; [done|].
    destruct (path_in_roots_true _ _ _ Ha) as (root & r' & Hin & H). exists root, r'. by rewrite Hroots.
  - intros Hm. rewrite Hm in Hexists. by apply negb_false_iff in Hexists.
Qed.

(** A path that exists is found where it is. *)
Lemma existing_location fs p q :
  canonicalize_best_effort fs p = Ok q → path_exists fs p = true → ∃ n, lookup_path fs p = At q n.
Proof.
  unfold canonicalize_best_effort, path_exists, canonicalize.
  destruct (lookup_path fs p) as [q' n| |]; [|done..]. intros [= ->] _. by exists n.
Qed.

Lemma found_in_tree fs p q c :
  tree_ok fs → lookup_path fs p = At q (FileNode c) → ft_nodes fs !! q = Some (FileNode c).
Proof.
  intros Hok. unfold lookup_path. destruct (path_is_empty p); [done|]. intros Hw.
  pose proof (walk_found fs MAX_SYMLINKS (start fs p) (p_components p) (p_directory p) Hok
    (start_dir fs p Hok)) as H. rewrite Hw in H. apply H.
Qed.
End paths.

(** ** Gates *)

Section gates.
Context `{TA : ToolAccess, TH : ToolHost, PE : PatternEngine}.
Implicit Types (fs : FileTree) (policy : ToolPolicy) (w : ToolWorld).

(** What the rate limiter makes of a call. *)
Definition limit_of policy w : ToolRateLimitDecision * ToolRateLimiterState :=
  limiter_evaluate (tool_principal (rbac_principal policy)) (tool_rate_limit_max_requests policy)
    (tool_rate_limit_window_ms policy) (tw_now w) (tw_limits w).

(** Everything that has to consent to a call of [tool] that asks for [action]. *)
Definition consented policy (tool : string) (action : ApprovalAction) w : Prop :=
  (∃ code role pattern,
     authorize_tool (rbac_policy_path policy) (tool_principal (rbac_principal policy)) tool (tw_access w) =
       Ok (RbacAllow code role pattern)) ∧
  (approval_gate action (tw_access w)).2 = Ok Allowed ∧ (limit_of policy w).1 = LimitAllow.

(** A check that leaves the world alone; what it has found when the call goes on, or the
    error the call ends with. *)
Definition checks {A} (m : Tool A) w (P : A → Prop) : Prop :=
  match m w with (Ok a, w') => w' = w ∧ P a | (Err e, w') => w' = w ∧ tr_is_error e = true end.

Lemma after_check {A B} (m : Tool A) (f : A → Tool B) w P r w' :
  checks m w P → (m ≫= f) w = (r, w') →
  (w' = w ∧ ∃ e, r = Err e ∧ tr_is_error e = true) ∨ ∃ a, P a ∧ f a w = (r, w').
Proof.
  unfold checks. rewrite eff_bind_unfold. destruct (m w) as [[a|e] w1].
  - intros [-> HP] H. eauto.
  - intros [-> He]. intros [= <- ->]. eauto.
Qed.

Lemma checks_gets {A} (f : ToolWorld → A) w : checks (gets f) w (λ a, a = f w).
Proof. done. Qed.
Lemma checks_or_deny {A} fields (r : Result string A) w : checks (or_deny fields r) w (λ a, r = Ok a).
Proof. by destruct r. Qed.

Lemma checks_protected fs policy tool path w :
  checks (pass (evaluate_protected_path_gate fs policy tool path)) w
    (λ _, evaluate_protected_path_gate fs policy tool path = None).
Proof.
  unfold evaluate_protected_path_gate. destruct (allow_protected_path_mutations policy); [done|].
  by destruct (List.find _ _).
Qed.

Lemma checks_rbac access policy tool payload w :
  checks (pass (evaluate_tool_rbac_gate access policy tool payload)) w (λ _, ∃ code role pattern,
    authorize_tool (rbac_policy_path policy) (tool_principal (rbac_principal policy)) tool access =
      Ok (RbacAllow code role pattern)).
Proof.
  unfold evaluate_tool_rbac_gate. destruct (authorize_tool _ _ _ _) as [[c r p|c r p]|e]; [|done..].
  split; [done|eauto].
Qed.

Lemma approval_gate_spec action w :
  let out := evaluate_tool_approval_gate action w in
  out.2 = set_access (approval_gate action (tw_access w)).1 w ∧
  match out.1 with
  | Ok _ => (approval_gate action (tw_access w)).2 = Ok Allowed
  | Err e => tr_is_error e = true
  end.
Proof.
  unfold evaluate_tool_approval_gate. destruct (approval_gate _ _) as [a [[|]|]]; by split.
Qed.

Lemma rate_gate_spec policy tool payload w :
  let '(gate, w') := evaluate_tool_rate_limit_gate policy tool payload w in
  w' = set_limits (limit_of policy w).2 w ∧
  match gate with None => (limit_of policy w).1 = LimitAllow | Some x => tr_is_error x = true end.
Proof.
  unfold evaluate_tool_rate_limit_gate, limit_of, limiter_evaluate.
  destruct ((_ =? 0)%N || (_ =? 0)%N) eqn:Hoff; [by destruct w|].
  cbv zeta. destruct (_ <? _)%N; cbn; [done|]. by destruct (limit_texts _) as [[? ?] ?].
Qed.

(** The gates: no file changes and nothing is run; the limiter counts the call when it is
    asked at all, and it is asked and admits it when the call goes on. *)
Record gated policy (tool : string) (action : ApprovalAction) w w1 (passed : bool) : Prop := mkGated
  { g_tree : tw_tree w1 = tw_tree w;
    g_ran : tw_ran w1 = tw_ran w;
    g_limits : tw_limits w1 = tw_limits w ∨ tw_limits w1 = (limit_of policy w).2;
    g_passed : passed = true →
      consented policy tool action w ∧ tw_limits w1 = (limit_of policy w).2 ∧
      tw_access w1 = (approval_gate action (tw_access w)).1 }.

Lemma gated_refl policy tool action w : gated policy tool action w w false.
Proof. split; auto; done. Qed.

(** The approval gate and the rate limiter behind the role policy. *)
Lemma two_gates {A} policy tool action payload (limited : Tool A) (ok : A)
    (turn_away : ToolExecutionResult → ToolExecutionResult) w r w1 :
  (∃ code role pattern,
     authorize_tool (rbac_policy_path policy) (tool_principal (rbac_principal policy)) tool (tw_access w) =
       Ok (RbacAllow code role pattern)) →
  (∀ x, tr_is_error x = true → tr_is_error (turn_away x) = true) →
  (∀ w, limited w = match evaluate_tool_rate_limit_gate policy tool payload w with
                    | (None, w) => (Ok ok, w)
                    | (Some x, w) => (Err (turn_away x), w)
                    end) →
  ((evaluate_tool_approval_gate action ≫= λ _, limited) : Tool A) w = (r, w1) →
  gated policy tool action w w1 (match r with Ok _ => true | Err _ => false end) ∧
  match r with Ok a => a = ok | Err e => tr_is_error e = true end.
Proof.
  intros Hrbac Haway Hlim. rewrite eff_bind_unfold. destruct (approval_gate_spec action w) as [Hw Happ].
  destruct (evaluate_tool_approval_gate action w) as [[[]|e] w2]; cbn in Hw, Happ; subst w2.
  - rewrite Hlim. pose proof (rate_gate_spec policy tool payload
      (set_access (approval_gate action (tw_access w)).1 w)) as Hl.
    destruct (evaluate_tool_rate_limit_gate _ _ _ _) as [[x|] w2]; destruct Hl as [-> Hl];
      intros [= <- <-]; (split; [|by auto]); split; auto; done.
  - intros [= <- <-]. split; [|done]. split; auto; done.
Qed.

Lemma file_gates_run policy tool resolved action payload w r w1 :
  file_gates policy tool resolved action payload w = (r, w1) →
  gated policy tool action w w1 (match r with Ok _ => true | Err _ => false end) ∧
  match r with
  | Ok _ => evaluate_protected_path_gate (tw_tree w) policy tool resolved = None
  | Err e => tr_is_error e = true
  end.
Proof.
  unfold file_gates. intros Hrun.
  apply (after_check _ _ _ _ _ _ (checks_gets _ w)) in Hrun as [(-> & e & -> & He)|(fs & -> & Hrun)];
    [by split; [apply gated_refl|]|].
  apply (after_check _ _ _ _ _ _ (checks_protected _ _ _ _ w)) in Hrun as [(-> & e & -> & He)|(? & Hprot & Hrun)];
    [by split; [apply gated_refl|]|].
  apply (after_check _ _ _ _ _ _ (checks_gets _ w)) in Hrun as [(-> & e & -> & He)|(access & -> & Hrun)];
    [by split; [apply gated_refl|]|].
  apply (after_check _ _ _ _ _ _ (checks_rbac _ _ _ _ w)) in Hrun as [(-> & e & -> & He)|(? & Hrbac & Hrun)];
    [by split; [apply gated_refl|]|].
  apply (two_gates policy tool _ payload _ tt (λ x, x)) in Hrun as [Hg Hr]; [|done..]. split; [done|]. by destruct r.
Qed.

(** ** Reading *)

(** C34: the read tool reads inside the allowed roots only.  A call changes nothing, and
    when it returns a text this is the content of a regular file that lies, all links
    followed, inside an allowed root, within the size limit. *)
Theorem read_stays_inside policy arguments w result w' :
  tree_ok (tw_tree w) → allowed_roots policy ≠ [] →
  run_tool (read_execute policy arguments) w = (result, w') →
  w' = w ∧
  (tr_is_error result = false →
   ∃ path q content, required_string arguments "path" = Ok path ∧
     inside (tw_tree w) policy q ∧ ft_nodes (tw_tree w) !! q = Some (FileNode content) ∧
     (byte_len content ≤ max_file_read_bytes policy)%N ∧
     result = result_ok (json_obj [("path", Str (target (tw_tree w) path)); ("content", Str content)])).
Proof.
  intros Hok Hroots. unfold run_tool, read_execute. rewrite eff_bind_unfold.
  destruct (required_string arguments "path") as [path|e] eqn:Hpath; cbn; [|by intros [= <- <-]].
  rewrite !eff_bind_unfold. cbn. rewrite eff_bind_unfold.
  destruct (resolve_and_validate_path _ _ _ _) as [resolved|e] eqn:Hres; cbn; [|by intros [= <- <-]].
  rewrite eff_bind_unfold.
  destruct (validate_file_target _ _ _ _) as [[]|e]; cbn; [|by intros [= <- <-]].
  apply resolve_Ok in Hres as (-> & q & Hq & Hin & Hex).
  destruct (existing_location _ _ _ Hq (Hex eq_refl)) as [n Hn].
  unfold metadata, read_to_string. rewrite Hn.
  destruct n as [content| |target']; cbn -[N.ltb];
    try (destruct (_ <? _)%N; cbn; intros [= <- <-]; by split).
  destruct (N.ltb_spec (max_file_read_bytes policy) (byte_len content)); [by intros [= <- <-]|].
  destruct (is_utf8 content); cbn; [|by intros [= <- <-]]. intros [= <- <-]. split; [done|].
  intros _. exists path, q, content. split_and!; [done|by apply Hin|by eapply found_in_tree|done..].
Qed.

(** ** Changing files *)

Inductive FileCall := CallWrite | CallEdit.
Definition call_name (call : FileCall) : string :=
  match call with CallWrite => "write" | CallEdit => "edit" end.
Definition file_execute (call : FileCall) policy (arguments : Value) : Tool ToolExecutionResult :=
  match call with CallWrite => write_execute policy arguments | CallEdit => edit_execute policy arguments end.

(** The action a call asks consent for. *)
Definition asked_action (call : FileCall) fs (arguments : Value) : option ApprovalAction :=
  match call, required_string arguments "path" with
  | CallWrite, Ok path =>
      match required_string arguments "content" with
      | Ok content => Some (ToolWrite (target fs path) (byte_len content))
      | Err _ => None
      end
  | CallEdit, Ok path =>
      match required_string arguments "find", required_string arguments "replace" with
      | Ok find, Ok replace => Some (ToolEdit (target fs path) find (byte_len replace))
      | _, _ => None
      end
  | _, Err _ => None
  end.

(** A call that got as far as changing files. *)
Record file_changed (call : FileCall) policy (arguments : Value) w w' (path : string) (q : Location)
    (content : string) : Prop := mkFileChanged
  { fc_path : required_string arguments "path" = Ok path;
    fc_located : canonicalize_best_effort (tw_tree w) (path_of (target (tw_tree w) path)) = Ok q;
    fc_inside : allowed_roots policy ≠ [] → inside (tw_tree w) policy q;
    fc_exists : call = CallEdit → path_exists (tw_tree w) (path_of (target (tw_tree w) path)) = true;
    fc_protected : evaluate_protected_path_gate (tw_tree w) policy (call_name call)
      (target (tw_tree w) path) = None;
    fc_consented : ∃ action, asked_action call (tw_tree w) arguments = Some action ∧
      consented policy (call_name call) action w ∧ tw_access w' = (approval_gate action (tw_access w)).1;
    fc_limits : tw_limits w' = (limit_of policy w).2;
    fc_size : (byte_len content ≤ max_file_write_bytes policy)%N;
    fc_written : tw_tree w' =
      (match call with
       | CallWrite => (write_creating (path_of (target (tw_tree w) path)) content (tw_tree w)).2
       | CallEdit => (write_file (path_of (target (tw_tree w) path)) content (tw_tree w)).2
       end) }.

(** A call stopped before the gates changes nothing; the others pass through them. *)
Definition stopped {A} (r : Result ToolExecutionResult A) w w' : Prop :=
  w' = w ∧ ∃ e, r = Err e ∧ tr_is_error e = true.

Lemma write_reaches policy arguments w r w' :
  write_execute policy arguments w = (r, w') →
  stopped r w w' ∨
  ∃ path content, let resolved := target (tw_tree w) path in
    required_string arguments "path" = Ok path ∧ required_string arguments "content" = Ok content ∧
    (byte_len content ≤ max_file_write_bytes policy)%N ∧
    resolve_and_validate_path (tw_tree w) path policy ModeWrite = Ok resolved ∧
    ((file_gates policy "write" resolved (ToolWrite resolved (byte_len content))
        (write_payload resolved (byte_len content)) ≫= λ _, store_file resolved content)
     : Tool ToolExecutionResult) w = (r, w').
Proof.
  unfold write_execute. intros Hrun.
  apply (after_check _ _ _ _ _ _ (checks_or_deny _ _ w)) in Hrun as [?|(path & Hpath & Hrun)]; [by left|].
  apply (after_check _ _ _ _ _ _ (checks_or_deny _ _ w)) in Hrun as [?|(content & Hcontent & Hrun)]; [by left|].
  cbv zeta in Hrun. destruct (N.ltb_spec (max_file_write_bytes policy) (byte_len content)) as [|Hsize];
    [injection Hrun as <- <-; left; split; [done|by eexists]|].
  apply (after_check _ _ _ _ _ _ (checks_gets _ w)) in Hrun as [?|(fs & -> & Hrun)]; [by left|].
  apply (after_check _ _ _ _ _ _ (checks_or_deny _ _ w)) in Hrun as [?|(resolved & Hres & Hrun)]; [by left|].
  apply (after_check _ _ _ _ _ _ (checks_or_deny _ _ w)) in Hrun as [?|(? & _ & Hrun)]; [by left|].
  right. exists path, content. destruct (resolve_Ok _ _ _ _ _ Hres) as [-> _]. done.
Qed.

Lemma edit_reaches policy arguments w r w' :
  edit_execute policy arguments w = (r, w') →
  stopped r w w' ∨
  ∃ path find replace, let resolved := target (tw_tree w) path in
    required_string arguments "path" = Ok path ∧ required_string arguments "find" = Ok find ∧
    required_string arguments "replace" = Ok replace ∧ find ≠ "" ∧
    resolve_and_validate_path (tw_tree w) path policy ModeEdit = Ok resolved ∧
    ((file_gates policy "edit" resolved (ToolEdit resolved find (byte_len replace))
        (edit_payload resolved find (byte_len replace)) ≫= λ _,
      edit_file policy resolved find replace (default false (value_get "all" arguments ≫= as_bool)))
     : Tool ToolExecutionResult) w = (r, w').
Proof.
  unfold edit_execute. intros Hrun.
  apply (after_check _ _ _ _ _ _ (checks_or_deny _ _ w)) in Hrun as [?|(path & Hpath & Hrun)]; [by left|].
  apply (after_check _ _ _ _ _ _ (checks_or_deny _ _ w)) in Hrun as [?|(find & Hfind & Hrun)]; [by left|].
  apply (after_check _ _ _ _ _ _ (checks_or_deny _ _ w)) in Hrun as [?|(replace & Hrep & Hrun)]; [by left|].
  destruct (is_empty find) eqn:Hempty; [injection Hrun as <- <-; left; split; [done|by eexists]|].
  apply (after_check _ _ _ _ _ _ (checks_gets _ w)) in Hrun as [?|(fs & -> & Hrun)]; [by left|].
  apply (after_check _ _ _ _ _ _ (checks_or_deny _ _ w)) in Hrun as [?|(resolved & Hres & Hrun)]; [by left|].
  apply (after_check _ _ _ _ _ _ (checks_or_deny _ _ w)) in Hrun as [?|(? & _ & Hrun)]; [by left|].
  right. exists path, find, replace. destruct (resolve_Ok _ _ _ _ _ Hres) as [-> _]. split_and!; try done.
  intros ->. discriminate Hempty.
Qed.

(** How a call of either tool ends: stopped, turned away by the gates, or past them. *)
Lemma past_gates {A} policy tool resolved action payload (body : Tool A) w r w' :
  ((file_gates policy tool resolved action payload ≫= λ _, body) : Tool A) w = (r, w') →
  (gated policy tool action w w' false ∧ ∃ e, r = Err e ∧ tr_is_error e = true) ∨
  ∃ w1, gated policy tool action w w1 true ∧
    evaluate_protected_path_gate (tw_tree w) policy tool resolved = None ∧ body w1 = (r, w').
Proof.
  rewrite eff_bind_unfold. destruct (file_gates _ _ _ _ _ w) as [[[]|e] w1] eqn:Hg;
    apply file_gates_run in Hg as [Hg He].
  - intros Hrun. right. by exists w1.
  - intros [= <- <-]. left. eauto.
Qed.

(** What an edit makes of a text. *)
Definition edited (find replace : string) (all : bool) (source : string) : string :=
  if all then str_replace find replace source else str_replace_first find replace source.

Lemma edit_file_run policy resolved find replace all w r w' :
  edit_file policy resolved find replace all w = (r, w') →
  tw_ran w' = tw_ran w ∧ tw_limits w' = tw_limits w ∧ tw_access w' = tw_access w ∧
  ((tw_tree w' = tw_tree w ∧ ∃ e, r = Err e ∧ tr_is_error e = true) ∨
   ∃ source,
     let content := edited find replace all source in
     read_to_string (tw_tree w) (path_of resolved) = Ok source ∧ 0 < count_matches find source ∧
     (byte_len content ≤ max_file_write_bytes policy)%N ∧
     tw_tree w' = (write_file (path_of resolved) content (tw_tree w)).2 ∧
     match r with
     | Err e => tr_is_error e = true
     | Ok result => (write_file (path_of resolved) content (tw_tree w)).1 = Ok tt ∧
         result = result_ok (json_obj [("path", Str resolved);
           ("replacements", json_usize (if all then count_matches find source else 1))])
     end).
Proof.
  unfold edit_file.
  destruct (read_to_string _ _) as [source|e]; [|intros [= <- <-]; by eauto 10].
  destruct (Nat.eqb_spec (count_matches find source) 0); [intros [= <- <-]; by eauto 10|].
  cbv zeta. fold (edited find replace all source).
  destruct (N.ltb_spec (max_file_write_bytes policy) (byte_len (edited find replace all source)));
    [intros [= <- <-]; by eauto 10|].
  destruct (write_file _ _ _) as [[[]|e] fs] eqn:Hw; intros [= <- <-]; cbn; (split_and!; [done..|right]);
    exists source; rewrite Hw; split_and!; try done; lia.
Qed.

(** What both tools have in common: nothing is run, the limiter is asked at most once, and
    the tree changes only past the gates. *)
Definition file_ended (call : FileCall) policy (arguments : Value) w w' : Prop :=
  tw_ran w' = tw_ran w ∧ (tw_limits w' = tw_limits w ∨ tw_limits w' = (limit_of policy w).2) ∧
  (tw_tree w' = tw_tree w ∨ ∃ path q content, file_changed call policy arguments w w' path q content).

Lemma gated_ended call policy arguments action w w' :
  gated policy (call_name call) action w w' false → file_ended call policy arguments w w'.
Proof. intros [Ht Hr Hl _]. split_and!; auto. Qed.

Lemma write_run policy arguments w r w' :
  write_execute policy arguments w = (r, w') → file_ended CallWrite policy arguments w w'.
Proof.
  intros [[-> _]|(path & content & Hpath & Hcontent & Hsize & Hres & Hrun)]%write_reaches;
    [by split_and!; auto|].
  apply past_gates in Hrun as [[Hg _]|(w1 & [Ht Hr _ Hok] & Hprot & Hrun)]; [by eapply (gated_ended CallWrite)|].
  destruct (Hok eq_refl) as (Hcons & Hl & Ha).
  assert (tw_tree w' = (write_creating (path_of (target (tw_tree w) path)) content (tw_tree w1)).2 ∧
    tw_ran w' = tw_ran w1 ∧ tw_limits w' = tw_limits w1 ∧ tw_access w' = tw_access w1)
    as (Ht' & Hr' & Hl' & Ha').
  { unfold store_file in Hrun. by destruct (write_creating _ _ _) as [[|[]] fs]; injection Hrun as _ <-. }
  apply resolve_Ok in Hres as (_ & q & Hq & Hin & _).
  split_and!; [congruence|right; congruence|right]. exists path, q, content. split; try done; try congruence.
  eexists. split_and!; [|exact Hcons|congruence]. unfold asked_action. by rewrite Hpath, Hcontent.
Qed.

Lemma edit_run policy arguments w r w' :
  edit_execute policy arguments w = (r, w') →
  file_ended CallEdit policy arguments w w' ∧
  (∀ result, r = Ok result →
   ∃ path q find replace source,
     let all := default false (value_get "all" arguments ≫= as_bool) in
     let content := edited find replace all source in
     file_changed CallEdit policy arguments w w' path q content ∧
     required_string arguments "find" = Ok find ∧ required_string arguments "replace" = Ok replace ∧
     find ≠ "" ∧ read_to_string (tw_tree w) (path_of (target (tw_tree w) path)) = Ok source ∧
     0 < count_matches find source ∧
     (write_file (path_of (target (tw_tree w) path)) content (tw_tree w)).1 = Ok tt ∧
     result = result_ok (json_obj [("path", Str (target (tw_tree w) path));
          ("replacements", json_usize (if all then count_matches find source else 1))])).
Proof.
  intros [(-> & e & -> & _)|(path & find & replace & Hpath & Hfind & Hrep & Hne & Hres & Hrun)]%edit_reaches;
    [by split; [split_and!; auto|]|].
  apply past_gates in Hrun as [(Hg & e & -> & _)|(w1 & [Ht Hr _ Hok] & Hprot & Hrun)];
    [split; [by eapply (gated_ended CallEdit)|done]|].
  destruct (Hok eq_refl) as (Hcons & Hl & Ha). apply resolve_Ok in Hres as (_ & q & Hq & Hin & Hex).
  apply edit_file_run in Hrun as (Hr' & Hl' & Ha' & [(Ht' & e & -> & _)|(source & Hread & Hcount & Hsize & Ht' & Hend)]);
    [split; [split_and!; [congruence|right; congruence|left; congruence]|done]|].
  rewrite Ht in Hread, Ht', Hend.
  assert (file_changed CallEdit policy arguments w w' path q
    (edited find replace (default false (value_get "all" arguments ≫= as_bool)) source)) as Hc.
  { split; try done; try congruence; [by intros _; apply Hex|].
    eexists. split_and!; [|exact Hcons|congruence].
    unfold asked_action. by rewrite Hpath, Hfind, Hrep. }
  split; [split_and!; [congruence|right; congruence|right; by eauto]|].
  intros result ->. destruct Hend. by exists path, q, find, replace, source.
Qed.

Lemma run_tool_inv (body : Tool ToolExecutionResult) w result w' :
  run_tool body w = (result, w') → ∃ r, body w = (r, w') ∧ result = match r with Ok x => x | Err x => x end.
Proof. unfold run_tool. destruct (body w) as [r w1]. intros [= <- <-]. eauto. Qed.

Lemma file_run call policy arguments w result w' :
  run_tool (file_execute call policy arguments) w = (result, w') → file_ended call policy arguments w w'.
Proof.
  intros (r & Hrun & _)%run_tool_inv. destruct call; [by eapply write_run|].
  by apply edit_run in Hrun as [H _].
Qed.

(** A change is a write of the whole file that [canonicalize_best_effort] found. *)
Lemma file_changed_only call policy arguments w w' path q content :
  tree_ok (tw_tree w) →
  (call = CallWrite → lands_in_place (tw_tree w) (path_of (target (tw_tree w) path)) = true) →
  file_changed call policy arguments w w' path q content →
  changes_only q content (tw_tree w) (tw_tree w').
Proof.
  intros Hok Hland Hc. rewrite (fc_written _ _ _ _ _ _ _ _ Hc). pose proof (fc_located _ _ _ _ _ _ _ _ Hc) as Hq.
  destruct call.
  - pose proof (write_lands _ _ content q Hok (target_absolute _ path) (Hland eq_refl) Hq) as H.
    destruct (write_creating _ _ _) as [r fs]. apply H.
  - destruct (existing_location _ _ _ Hq (fc_exists _ _ _ _ _ _ _ _ Hc eq_refl)) as [n Hn].
    unfold write_file. rewrite Hn. destruct n; [|apply changes_refl..].
    destruct (ft_denied _ _); [apply changes_refl|]. intros q'. cbn.
    destruct (decide (q = q')) as [<-|]; [|by rewrite lookup_insert_ne]. rewrite lookup_insert_eq. by left.
Qed.

Lemma file_changed_ok call policy arguments w w' path q content :
  tree_ok (tw_tree w) → file_changed call policy arguments w w' path q content → tree_ok (tw_tree w').
Proof.
  intros Hok Hc. rewrite (fc_written _ _ _ _ _ _ _ _ Hc).
  destruct call; [by apply write_creating_ok|by apply write_file_ok].
Qed.

(** C33: an edit replaces what it should.  When an edit succeeds, the file it names is the
    old text cut at the matches of [find] from left to right, none of which is missed or
    overlaps another, and put together with [replace] at every match or, without [all], at
    the first one; nothing else changes and the number of replacements is reported. *)
Theorem edit_exact policy arguments w result w' :
  tree_ok (tw_tree w) →
  edit_execute policy arguments w = (Ok result, w') →
  ∃ path q find replace source pieces,
    let all := default false (value_get "all" arguments ≫= as_bool) in
    required_string arguments "path" = Ok path ∧ required_string arguments "find" = Ok find ∧
    required_string arguments "replace" = Ok replace ∧
    canonicalize_best_effort (tw_tree w) (path_of (target (tw_tree w) path)) = Ok q ∧
    ft_nodes (tw_tree w) !! q = Some (FileNode source) ∧
    pieces_of (chars_of find) (chars_of source) (chars_of <$> pieces) ∧ source = join find pieces ∧
    ∃ first rest, pieces = first :: rest ∧ rest ≠ [] ∧
      tw_tree w' = set_nodes (<[q := FileNode
        (if all then join replace pieces else first +:+ replace +:+ join find rest)]>
        (ft_nodes (tw_tree w))) (tw_tree w) ∧
      result = result_ok (json_obj [("path", Str (target (tw_tree w) path));
        ("replacements", json_usize (if all then length rest else 1))]).
Proof.
  intros Hok [_ Hrun]%edit_run.
  destruct (Hrun _ eq_refl) as (path & q & find & replace & source & Hc & Hfind & Hrep & Hne & Hread & Hcount & Hw & ->).
  destruct (existing_location _ _ _ (fc_located _ _ _ _ _ _ _ _ Hc) (fc_exists _ _ _ _ _ _ _ _ Hc eq_refl)) as [n Hn].
  unfold read_to_string in Hread. rewrite Hn in Hread.
  destruct n as [c| |]; [|done..]. destruct (is_utf8 c); [|done]. injection Hread as ->.
  pose proof (fc_written _ _ _ _ _ _ _ _ Hc) as Ht. unfold write_file in Hw, Ht. rewrite Hn in Hw, Ht.
  destruct (ft_denied _ _); [done|]. cbn in Ht.
  exists path, q, find, replace, source, (str_pieces find source). cbv zeta.
  destruct (str_pieces_spec find source Hne) as [Hp Hj].
  split_and!; try done; [apply (fc_path _ _ _ _ _ _ _ _ Hc)|apply (fc_located _ _ _ _ _ _ _ _ Hc)|
    by eapply found_in_tree|].
  unfold count_matches in *. destruct (str_pieces find source) as [|first [|x rest]] eqn:Hs; [cbn in Hcount; lia..|].
  exists first, (x :: rest). split_and!; [done..| |by cbn]. rewrite Ht. do 2 f_equal. f_equal.
  unfold edited, str_replace. destruct (default false _); [by rewrite Hs|].
  by apply replace_first_pieces.
Qed.

(** C28: the write and edit tools change files inside the allowed roots only.  Whatever a
    call does, the tree stays well formed, no process is run, and every entry that changes
    is a file inside an allowed root, all links followed, or a new directory on the way to
    it.  For [write] this needs a path whose missing part is plain
    ([lands_in_place]; see [write_escapes_roots] and [write_follows_dangling_link]). *)
Theorem writes_stay_inside call policy arguments w result w' :
  tree_ok (tw_tree w) → allowed_roots policy ≠ [] →
  (∀ path, call = CallWrite → required_string arguments "path" = Ok path →
     lands_in_place (tw_tree w) (path_of (target (tw_tree w) path)) = true) →
  run_tool (file_execute call policy arguments) w = (result, w') →
  tree_ok (tw_tree w') ∧ tw_ran w' = tw_ran w ∧
  (∀ q, ft_nodes (tw_tree w') !! q ≠ ft_nodes (tw_tree w) !! q →
     (inside (tw_tree w) policy q ∧ ∃ content, ft_nodes (tw_tree w') !! q = Some (FileNode content)) ∨
     (ft_nodes (tw_tree w) !! q = None ∧ ft_nodes (tw_tree w') !! q = Some DirNode ∧
      ∃ q', q `prefix_of` q' ∧ inside (tw_tree w) policy q')).
Proof.
  intros Hok Hroots Hland (Hran & _ & [Heq|(path & q & content & Hc)])%file_run; [by rewrite Heq|].
  split_and!; [by eapply file_changed_ok|done|]. intros q'.
  pose proof (fc_inside _ _ _ _ _ _ _ _ Hc Hroots) as Hin. intros Hq'.
  destruct (file_changed_only _ _ _ _ _ _ _ _ Hok
    (λ H, Hland _ H (fc_path _ _ _ _ _ _ _ _ Hc)) Hc q' Hq') as [[-> Hf]|(H1 & H2 & H3)]; eauto 10.
Qed.


(** files change only with consent.  When a call of [write] or [edit] changes the tree,
    the role policy allowed the tool for the policy's principal, the approval gate answered
    that exactly this action is allowed, and the rate limiter admitted the call; the file
    written respects the size limit. *)
Theorem file_changes_consented call policy arguments w result w' :
  run_tool (file_execute call policy arguments) w = (result, w') → tw_tree w' ≠ tw_tree w →
  ∃ action, asked_action call (tw_tree w) arguments = Some action ∧
    consented policy (call_name call) action w ∧
    ∃ path q content, file_changed call policy arguments w w' path q content.
Proof.
  intros (_ & _ & [Heq|(path & q & content & Hc)])%file_run Hne; [done|].
  destruct (fc_consented _ _ _ _ _ _ _ _ Hc) as (action & Ha & Hcons & _). eauto 10.
Qed.

(** ** Shell commands *)

(** The program a sandboxed command starts with. *)
Definition is_launcher policy (cwd program : string) : Prop :=
  match os_sandbox_command policy with
  | template :: _ => program = str_replace "{cwd}" cwd template
  | [] => program = "bwrap" ∨ (os_sandbox_docker_enabled policy = true ∧ program = "docker")
  end.

Lemma auto_sandbox_launcher fs policy shell command cwd spec :
  os_sandbox_command policy = [] → auto_sandbox_spec fs policy shell command cwd = Some spec →
  is_launcher policy cwd (bs_program spec).
Proof.
  unfold is_launcher, auto_sandbox_spec. intros ->. destruct (command_available fs "bwrap"); [intros [= <-]; by left|].
  destruct (os_sandbox_docker_enabled policy); cbn [andb]; [|done].
  destruct (command_available fs "docker"); [|done]. intros [= <-]. by right.
Qed.

Lemma resolve_sandbox_sandboxed fs policy shell command cwd spec :
  resolve_sandbox_spec fs policy shell command cwd = Ok spec →
  os_sandbox_policy_mode policy = Required ∨ os_sandbox_mode policy = SandboxForce ∨
    os_sandbox_command policy ≠ [] →
  is_launcher policy cwd (bs_program spec).
Proof.
  unfold resolve_sandbox_spec. intros (spec' & Hspec & Hmode)%bind_Ok Hwhy.
  assert (spec' = spec ∧ (os_sandbox_policy_mode policy = Required → bs_sandboxed spec = true)) as [-> Hboxed].
  { destruct (os_sandbox_policy_mode policy); [by injection Hmode as ->|].
    destruct (bs_sandboxed spec') eqn:?; [|done]. by injection Hmode as ->. }
  clear Hmode. destruct (os_sandbox_command policy) as [|t ts] eqn:Hcmd.
  - assert (bs_sandboxed spec = true ∨ os_sandbox_mode policy = SandboxForce) as Hwhy'
      by (destruct Hwhy as [?|[?|?]]; auto). clear Hwhy.
    destruct (os_sandbox_mode policy).
    + injection Hspec as <-. by destruct Hwhy'.
    + destruct (auto_sandbox_spec _ _ _ _ _) eqn:Hauto; injection Hspec as <-.
      * by eapply auto_sandbox_launcher.
      * by destruct Hwhy'.
    + destruct (auto_sandbox_spec _ _ _ _ _) eqn:Hauto; [|done]. injection Hspec as <-.
      by eapply auto_sandbox_launcher.
  - injection Hspec as <-. unfold is_launcher. by rewrite Hcmd.
Qed.

(** Everything the policy asks of a command before it is run with [request]. *)
Record bash_screened policy (arguments : Value) w (command : string) (cwd : option string)
    (request : Spawn) : Prop := mkScreened
  { sc_command : required_string arguments "command" = Ok command;
    sc_length : chars_count command ≤ max_command_length policy;
    sc_newlines : allow_command_newlines policy = false → has_newline command = false;
    sc_executable : allowed_commands policy ≠ [] → ∃ executable,
      leading_executable command = Some executable ∧
      is_command_allowed executable (allowed_commands policy) = true;
    sc_cwd : match cwd with
      | None => value_get "cwd" arguments ≫= as_str = None
      | Some path => ∃ given q, value_get "cwd" arguments ≫= as_str = Some given ∧
          path = target (tw_tree w) given ∧ lookup_path (tw_tree w) (path_of path) = At q DirNode ∧
          (allowed_roots policy ≠ [] → inside (tw_tree w) policy q)
      end;
    sc_consented : consented policy "bash" (ToolBash command cwd) w;
    sc_extensions : ∀ root, extension_policy_override_root policy = Some root →
      ov_allowed (evaluate_extension_policy_override root (override_payload policy command cwd)) = true;
    sc_executed : bash_dry_run policy = false;
    sc_launched : os_sandbox_policy_mode policy = Required ∨ os_sandbox_mode policy = SandboxForce ∨
        os_sandbox_command policy ≠ [] →
      is_launcher policy (default (display (ft_cwd (tw_tree w))) cwd) (sp_program request);
    sc_request : ∃ spec,
      resolve_sandbox_spec (tw_tree w) policy (default "sh" (env_var "SHELL")) command
        (default (display (ft_cwd (tw_tree w))) cwd) = Ok spec ∧
      request = mkSpawn (bs_program spec) (bs_args spec) (command_env (bs_sandboxed spec)) cwd
        (N.max (bash_timeout_ms policy) 1) }.

Lemma command_env_safe sandboxed name value :
  (name, value) ∈ command_env sandboxed →
  name = "TAU_SANDBOXED" ∨ (name ∈ SAFE_BASH_ENV_VARS ∧ env_var name = Some value).
Proof.
  unfold command_env. rewrite elem_of_app, list_elem_of_omap, list_elem_of_singleton.
  intros [(key & Hin & H)|[= -> _]]; [|by left]. right. destruct (env_var key) eqn:Hk; [|done].
  cbn in H. injection H as -> ->. done.
Qed.

Lemma check_or_deny_checks policy command failed check t e a allowed trace w :
  checks (check_or_deny policy command failed check t e a allowed trace) w (λ _, failed = false).
Proof. by destruct failed. Qed.

Lemma check_allowlist_checks policy command trace w :
  checks (check_allowlist policy command trace) w (λ _, allowed_commands policy ≠ [] → ∃ executable,
    leading_executable command = Some executable ∧
    is_command_allowed executable (allowed_commands policy) = true).
Proof.
  unfold check_allowlist. destruct (allowed_commands policy) as [|c cs] eqn:Hc; [done|].
  destruct (leading_executable command) as [executable|]; [|done]. unfold check_or_deny.
  destruct (is_command_allowed executable (c :: cs)) eqn:Ha; [|done]. split; [done|]. eauto.
Qed.

Lemma check_cwd_checks policy command arguments trace w :
  checks (check_cwd policy command arguments trace) w (λ r, match r.1 with
    | None => value_get "cwd" arguments ≫= as_str = None
    | Some path => ∃ given q, value_get "cwd" arguments ≫= as_str = Some given ∧
        path = target (tw_tree w) given ∧ lookup_path (tw_tree w) (path_of path) = At q DirNode ∧
        (allowed_roots policy ≠ [] → inside (tw_tree w) policy q)
    end).
Proof.
  unfold checks, check_cwd. rewrite eff_bind_unfold. cbn.
  destruct (value_get "cwd" arguments ≫= as_str) as [given|] eqn:Hgiven; [|done].
  destruct (resolve_and_validate_path _ _ _ _) as [path|e] eqn:Hres; [|done].
  destruct (validate_directory_target _ _ _) as [[]|e] eqn:Hval; [|done]. split; [done|]. cbn.
  apply resolve_Ok in Hres as (-> & q & Hq & Hin & Hex). exists given, q. split_and!; try done.
  destruct (existing_location _ _ _ Hq (Hex eq_refl)) as [n Hn]. rewrite Hn.
  unfold validate_directory_target, metadata in Hval. rewrite Hn in Hval.
  destruct (symlink_metadata _ _) as [m|]; [|done]. apply check_Ok in Hval as [_ Hval].
  apply bail_if_Ok in Hval. by destruct n.
Qed.

Lemma check_extensions_checks policy command cwd trace w :
  checks (check_extensions policy command cwd trace) w (λ _, ∀ root,
    extension_policy_override_root policy = Some root →
    ov_allowed (evaluate_extension_policy_override root (override_payload policy command cwd)) = true).
Proof.
  unfold check_extensions. destruct (extension_policy_override_root policy) as [root|]; [|done].
  cbv zeta. destruct (ov_allowed _) eqn:Ha; [|done]. split; [done|]. by intros ? [= <-].
Qed.

Lemma check_sandbox_checks policy command cwd trace w :
  checks (check_sandbox policy command cwd trace) w (λ r,
    resolve_sandbox_spec (tw_tree w) policy (default "sh" (env_var "SHELL")) command
      (default (display (ft_cwd (tw_tree w))) cwd) = Ok r.1).
Proof.
  unfold checks, check_sandbox. rewrite eff_bind_unfold. cbn. by destruct (resolve_sandbox_spec _ _ _ _ _).
Qed.

Lemma eff_bind_assoc {A B C} (m : Tool A) (f : A → Tool B) (g : B → Tool C) w :
  ((m ≫= f) ≫= g) w = (m ≫= λ a, f a ≫= g) w.
Proof. rewrite !eff_bind_unfold. by destruct (m w) as [[]]. Qed.

Lemma bash_run policy arguments w r w' :
  bash_execute policy arguments w = (r, w') →
  (tw_tree w' = tw_tree w ∧ tw_ran w' = tw_ran w ∧
   (tw_limits w' = tw_limits w ∨ tw_limits w' = (limit_of policy w).2)) ∨
  ∃ command cwd request, bash_screened policy arguments w command cwd request ∧
    tw_ran w' = tw_ran w ++ [request] ∧ tw_tree w' = (spawn (tw_ran w) request (tw_tree w)).2 ∧
    tw_limits w' = (limit_of policy w).2 ∧
    tw_access w' = (approval_gate (ToolBash command cwd) (tw_access w)).1.
Proof.
  unfold bash_execute. intros Hrun.
  apply (after_check _ _ _ _ _ _ (checks_or_deny _ _ w)) in Hrun as [[-> _]|(command & Hcommand & Hrun)]; [by auto|].
  unfold check_length in Hrun.
  apply (after_check _ _ _ _ _ _ (check_or_deny_checks _ _ _ _ _ _ _ _ _ w)) in Hrun as [[-> _]|(t1 & Hlen & Hrun)]; [by auto|].
  apply (after_check _ _ _ _ _ _ (check_or_deny_checks _ _ _ _ _ _ _ _ _ w)) in Hrun as [[-> _]|(t2 & Hnl & Hrun)]; [by auto|].
  apply (after_check _ _ _ _ _ _ (check_allowlist_checks _ _ _ w)) in Hrun as [[-> _]|(t3 & Hexe & Hrun)]; [by auto|].
  apply (after_check _ _ _ _ _ _ (check_cwd_checks _ _ _ _ w)) in Hrun as [[-> _]|([cwd t4] & Hcwd & Hrun)]; [by auto|].
  apply (after_check _ _ _ _ _ _ (checks_gets _ w)) in Hrun as [[-> _]|(access & -> & Hrun)]; [by auto|].
  apply (after_check _ _ _ _ _ _ (checks_rbac _ _ _ _ w)) in Hrun as [[-> _]|(? & Hrbac & Hrun)]; [by auto|].
  rewrite <- eff_bind_assoc, eff_bind_unfold in Hrun.
  destruct ((evaluate_tool_approval_gate (ToolBash command cwd) ≫= λ _, check_rate_limit policy command cwd t4) w)
    as [r1 w1] eqn:Hg.
  eapply (two_gates policy "bash" _ (command_json command cwd)) in Hg as [[Ht Hr Hl Hok] _]; [|exact Hrbac| |].
  3: { intros w0. unfold check_rate_limit.
       destruct (evaluate_tool_rate_limit_gate _ _ _ _) as [[]]; reflexivity. }
  2: done.
  rewrite <- Ht, <- Hr. destruct r1 as [t5|e]; [|injection Hrun as _ <-; by auto].
  destruct (Hok eq_refl) as (Hcons & Hl' & Ha).
  apply (after_check _ _ _ _ _ _ (check_extensions_checks _ _ _ _ w1)) in Hrun as [[-> _]|(t6 & Hext & Hrun)]; [by auto|].
  apply (after_check _ _ _ _ _ _ (check_sandbox_checks _ _ _ _ w1)) in Hrun as [[-> _]|([spec t7] & Hspec & Hrun)]; [by auto|].
  destruct (bash_dry_run policy) eqn:Hdry; [injection Hrun as _ <-; by auto|].
  right. exists command, cwd. eexists. unfold spawn_command in Hrun.
  split; [|by destruct (spawn _ _ _) as [outcome fs] eqn:Hsp; destruct outcome; injection Hrun as _ <-;
    cbn; rewrite Hsp].
  rewrite Ht in Hspec. split; try done.
  - by apply Nat.ltb_ge.
  - intros Hn. by rewrite Hn in Hnl.
  - cbn. by eapply resolve_sandbox_sandboxed.
  - eauto.
Qed.


(** ** How often a tool may act *)

(** How many more calls of a principal the limiter can still admit at times in
    [t, t + window). *)
Definition budget (max t : N) (principal : string) (l : ToolRateLimiterState) : N :=
  match principals l !! principal with
  | None => max
  | Some e => if (t <=? window_start_unix_ms e)%N then max - requests_in_window e
              else max - requests_in_window e + max
  end.

Lemma limiter_spends max window t now principal l :
  (0 < max ≤ u32_max)%N → (0 < window)%N → (t ≤ now < t + window)%N →
  let '(decision, l') := limiter_evaluate principal max window now l in
  ((match decision with LimitAllow => 1 | _ => 0 end) + budget max t principal l' ≤ budget max t principal l)%N.
Proof.
  intros Hmax Hwin Hnow. unfold limiter_evaluate.
  destruct (N.eqb_spec max 0); [lia|]. destruct (N.eqb_spec window 0); [lia|]. cbn [orb]. cbv zeta.
  unfold budget. destruct (principals l !! principal) as [e|] eqn:He; cbn [from_option id].
  - unfold current_window. destruct (N.leb_spec window (now - window_start_unix_ms e)); cbn [requests_in_window].
    + destruct (N.ltb_spec 0 max); [|lia]. cbn. rewrite lookup_insert_eq. cbn.
      destruct (N.leb_spec t now); [|lia]. destruct (N.leb_spec t (window_start_unix_ms e)); [lia|].
      unfold saturating_add_u32. lia.
    + destruct (N.ltb_spec (requests_in_window e) max); cbn; rewrite lookup_insert_eq; cbn; [|done].
      unfold saturating_add_u32. destruct (N.leb_spec t (window_start_unix_ms e)); lia.
  - unfold current_window. cbn [window_start_unix_ms]. destruct (N.leb_spec window (now - now)); [lia|].
    cbn [requests_in_window]. destruct (N.ltb_spec 0 max); [|lia]. cbn. rewrite lookup_insert_eq. cbn.
    destruct (N.leb_spec t now); [|lia]. unfold saturating_add_u32. lia.
Qed.

(** A call of a tool that can act on the outside, at some time. *)
Inductive ActingCall := FileTool (call : FileCall) (arguments : Value) | BashTool (arguments : Value).
Definition call_tool policy (c : ActingCall) w : ToolWorld :=
  match c with
  | FileTool call arguments => (run_tool (file_execute call policy arguments) w).2
  | BashTool arguments => (bash_execute policy arguments w).2
  end.
Definition at_time (now : N) w : ToolWorld := mkWorld (tw_tree w) (tw_access w) (tw_limits w) now (tw_ran w).

(** A call acted when a file, a directory or the list of processes run changed. *)
Definition acted w w' : bool :=
  negb (bool_decide (ft_nodes (tw_tree w') = ft_nodes (tw_tree w)) && bool_decide (tw_ran w' = tw_ran w)).

Fixpoint actions policy (calls : list (N * ActingCall)) w : N :=
  match calls with
  | [] => 0
  | (now, c) :: calls =>
      let w' := call_tool policy c (at_time now w) in
      (if acted w w' then 1 else 0) + actions policy calls w'
  end.

Lemma call_spends policy c w :
  let w' := call_tool policy c w in
  (tw_limits w' = tw_limits w ∨ tw_limits w' = (limit_of policy w).2) ∧
  (acted w w' = true → (limit_of policy w).1 = LimitAllow ∧ tw_limits w' = (limit_of policy w).2).
Proof.
  unfold acted. destruct c as [call arguments|arguments]; cbn [call_tool].
  - destruct (run_tool _ _) as [result w'] eqn:Hrun. apply file_run in Hrun as (Hr & Hl & Ht). cbn.
    split; [done|]. rewrite Hr. destruct Ht as [->|(path & q & content & Hc)]; [by rewrite !bool_decide_true|].
    intros _. destruct (fc_consented _ _ _ _ _ _ _ _ Hc) as (action & _ & (_ & _ & Hallow) & _).
    split; [done|]. apply (fc_limits _ _ _ _ _ _ _ _ Hc).
  - destruct (bash_execute _ _ _) as [r w'] eqn:Hrun. cbn.
    apply bash_run in Hrun as [(-> & -> & Hl)|(command & cwd & request & Hs & _ & _ & Hl & _)].
    + split; [done|]. by rewrite !bool_decide_true.
    + split; [by right|]. intros _. by destruct (sc_consented _ _ _ _ _ _ Hs) as (_ & _ & ?).
Qed.

Lemma actions_spend policy calls t w :
  (0 < tool_rate_limit_max_requests policy ≤ u32_max)%N → (0 < tool_rate_limit_window_ms policy)%N →
  Forall (λ c, t ≤ c.1 < t + tool_rate_limit_window_ms policy)%N calls →
  (actions policy calls w ≤
   budget (tool_rate_limit_max_requests policy) t (tool_principal (rbac_principal policy)) (tw_limits w))%N.
Proof.
  intros Hmax Hwin Hall. revert w. induction Hall as [|[now c] calls Hnow _ IH]; intros w; cbn [actions]; [lia|].
  specialize (IH (call_tool policy c (at_time now w))).
  destruct (call_spends policy c (at_time now w)) as [Hl Hacted].
  pose proof (limiter_spends _ _ t now (tool_principal (rbac_principal policy)) (tw_limits w) Hmax Hwin Hnow) as Hs.
  change (limiter_evaluate _ _ _ now (tw_limits w)) with (limit_of policy (at_time now w)) in Hs.
  change (acted w) with (acted (at_time now w)).
  destruct (limit_of policy (at_time now w)) as [decision l']. cbn in Hl, Hacted.
  destruct (acted _ _).
  - destruct (Hacted eq_refl) as [-> Hl']. rewrite Hl' in IH. lia.
  - destruct Hl as [Hl|Hl]; rewrite Hl in IH; destruct decision; lia.
Qed.

(** C32: the rate limit bounds what the tools do.  However [write], [edit] and [bash] are
    called within one window's length, in any mix and with any clock readings, a principal
    that has not called before changes files or runs processes at most [max_requests]
    times; with calls counted in an earlier window, at most twice as often. *)
Theorem rate_limit_bounds_actions policy calls t w :
  (0 < tool_rate_limit_max_requests policy ≤ u32_max)%N → (0 < tool_rate_limit_window_ms policy)%N →
  Forall (λ c, t ≤ c.1 < t + tool_rate_limit_window_ms policy)%N calls →
  (actions policy calls w ≤ 2 * tool_rate_limit_max_requests policy)%N ∧
  (principals (tw_limits w) !! tool_principal (rbac_principal policy) = None →
   actions policy calls w ≤ tool_rate_limit_max_requests policy)%N.
Proof.
  intros Hmax Hwin Hall. pose proof (actions_spend policy calls t w Hmax Hwin Hall) as H. unfold budget in H.
  split.
  - destruct (principals _ !! _) as [e|]; [destruct (N.leb _ _)|]; lia.
  - intros Hnone. by rewrite Hnone in H.
Qed.

(** The action a call asks consent for, [bash] included. *)
Definition call_action (c : ActingCall) fs : option ApprovalAction :=
  match c with
  | FileTool call arguments => asked_action call fs arguments
  | BashTool arguments =>
      match required_string arguments "command" with
      | Ok command => Some (ToolBash command (target fs <$> (value_get "cwd" arguments ≫= as_str)))
      | Err _ => None
      end
  end.

(** A call that acts was let through by the approval gate, whose state it leaves behind. *)
Lemma acted_consented policy c w :
  acted w (call_tool policy c w) = true →
  ∃ action, call_action c (tw_tree w) = Some action ∧
    (approval_gate action (tw_access w)).2 = Ok Allowed ∧
    tw_access (call_tool policy c w) = (approval_gate action (tw_access w)).1.
Proof.
  unfold acted. destruct c as [call arguments|arguments]; cbn [call_tool call_action].
  - destruct (run_tool _ _) as [result w'] eqn:Hrun. apply file_run in Hrun as (Hr & _ & Ht). cbn.
    rewrite Hr. destruct Ht as [->|(path & q & content & Hc)]; [by rewrite !bool_decide_true|].
    intros _. destruct (fc_consented _ _ _ _ _ _ _ _ Hc) as (action & Ha & (_ & Hg & _) & Hacc). eauto.
  - destruct (bash_execute _ _ _) as [r w'] eqn:Hrun. cbn.
    apply bash_run in Hrun as [(-> & -> & _)|(command & cwd & request & Hs & _ & _ & _ & Hacc)];
      [by rewrite !bool_decide_true|].
    intros _. exists (ToolBash command cwd). destruct (sc_consented _ _ _ _ _ _ Hs) as (_ & Hg & _).
    split_and!; try done. rewrite (sc_command _ _ _ _ _ _ Hs). do 2 f_equal.
    pose proof (sc_cwd _ _ _ _ _ _ Hs) as Hcwd. destruct cwd as [path|]; [|by rewrite Hcwd].
    by destruct Hcwd as (given & q & -> & -> & _).
Qed.
End gates.

(** ** With the role policy and the approvals of the state directory *)

Section standard.
Context `{!RbacCodec, !ApprovalCodec, !ApprovalCodecLaws, TH : ToolHost, PE : PatternEngine}.
Context (rbac_text : RbacError → string) (approval_text : ApprovalError → string).
#[local] Instance files_access : ToolAccess := standard_access env_var rbac_text approval_text.

End standard.

(** ** Examples *)

(** A workspace [/w] with a text, a link that leads nowhere, and [/etc] beside it. *)
Definition demo_tree : FileTree :=
  mkTree (list_to_map [(["w"], DirNode); (["w"; "a.txt"], FileNode "one two one");
                       (["w"; "out"], LinkNode "/etc/made"); (["w"; "AGENTS.md"], FileNode "rules");
                       (["etc"], DirNode)]) ["w"] (λ _, false).
Definition demo_tools : ToolPolicy := tool_policy_new demo_tree ["/w"].

#[local] Instance demo_rbac : RbacCodec :=
  {| decode_rbac_policy _ := None; whoami_json _ _ _ _ := ""; check_json _ _ _ _ := "" |}.
#[local] Instance demo_engine : PatternEngine := no_engine.
#[local] Instance demo_host : ToolHost :=
  {| io_text _ := "io error"; environment := [("PATH", "/bin"); ("API_KEY", "secret-value")];
     shell_split command := Some (split_whitespace command); show_cpus _ := "1.000";
     evaluate_extension_policy_override _ _ := mkOverride true None None 0 0 [];
     spawn _ _ fs := (SpawnExited (Some 0%Z) "hi" "", fs) |}.
#[local] Instance demo_access : ToolAccess := files_access (λ _, "error") (λ _, "error").

Definition no_files : TextFs := mkTextFs ∅ ∅ (λ _, false) (λ _, false) 7 1000.
Definition demo_world : ToolWorld := mkWorld demo_tree no_files limiter_default 1000 [].

Definition write_args (path content : string) : Value :=
  json_obj [("path", Str path); ("content", Str content)].
Definition edit_args (path find replace : string) (all : bool) : Value :=
  json_obj [("path", Str path); ("find", Str find); ("replace", Str replace); ("all", Bool all)].
Definition bash_args (command : string) : Value := json_obj [("command", Str command)].

Definition files_of (out : ToolExecutionResult * ToolWorld) : gmap Location Node := ft_nodes (tw_tree out.2).

Example write_creates :
  files_of (run_tool (write_execute demo_tools (write_args "new/b.txt" "hi")) demo_world) !! ["w"; "new"; "b.txt"] =
    Some (FileNode "hi").
Proof. by vm_compute. Qed.
Example edit_once :
  files_of (run_tool (edit_execute demo_tools (edit_args "a.txt" "one" "1" false)) demo_world) !! ["w"; "a.txt"] =
    Some (FileNode "1 two one").
Proof. by vm_compute. Qed.
Example outside_refused :
  files_of (run_tool (write_execute demo_tools (write_args "../etc/x" "hi")) demo_world) !! ["etc"; "x"] = None.
Proof. by vm_compute. Qed.
Example bash_ran :
  length (tw_ran (bash_execute demo_tools (bash_args "echo hi") demo_world).2) = 1.
Proof. by vm_compute. Qed.

(** [tree_ok] by looking at the entries. *)
Definition tree_check (fs : FileTree) : bool :=
  forallb (λ q, match reverse q with
                | [] => false
                | _ :: dir => bool_decide (dir = []) || bool_decide (ft_nodes fs !! reverse dir = Some DirNode)
                end) (map_to_list (ft_nodes fs)).*1
  && (bool_decide (ft_cwd fs = []) || bool_decide (ft_nodes fs !! ft_cwd fs = Some DirNode)).

Lemma tree_check_ok fs : tree_check fs = true → tree_ok fs.
Proof.
  unfold tree_check. rewrite andb_true_iff, orb_true_iff, !bool_decide_eq_true, forallb_forall.
  intros [Hall Hcwd]. split; [|done]. intros q name n Hq.
  specialize (Hall (q ++ [name])). rewrite reverse_snoc in Hall.
  rewrite orb_true_iff, !bool_decide_eq_true, reverse_involutive in Hall.
  destruct Hall as [Hnil|Hdir]; [|left|by right].
  - apply list_elem_of_In, list_elem_of_fmap. exists (q ++ [name], n). split; [done|]. by apply elem_of_map_to_list.
  - by apply (f_equal reverse) in Hnil; rewrite reverse_involutive in Hnil.
Qed.

Lemma demo_tree_ok : tree_ok demo_tree.
Proof. by apply tree_check_ok. Qed.

Lemma read_stays_inside_witness :
  let out := run_tool (read_execute demo_tools (json_obj [("path", Str "a.txt")])) demo_world in
  tr_is_error out.1 = false ∧ out.2 = demo_world ∧
  ∃ q content, inside demo_tree demo_tools q ∧ ft_nodes demo_tree !! q = Some (FileNode content).
Proof.
  intros out. assert (tr_is_error out.1 = false) as Hok by (by vm_compute).
  destruct (read_stays_inside demo_tools (json_obj [("path", Str "a.txt")]) demo_world out.1 out.2
    demo_tree_ok ltac:(done) ltac:(apply surjective_pairing)) as [Hw Hread].
  destruct (Hread Hok) as (path & q & content & _ & Hin & Hq & _). split_and!; [done..|]. by exists q, content.
Defined.

Definition written : ToolExecutionResult * ToolWorld :=
  run_tool (file_execute CallWrite demo_tools (write_args "new/b.txt" "hi")) demo_world.

Lemma demo_lands path :
  required_string (write_args "new/b.txt" "hi") "path" = Ok path →
  lands_in_place (tw_tree demo_world) (path_of (target (tw_tree demo_world) path)) = true.
Proof. intros [= <-]. by vm_compute. Qed.

Lemma writes_stay_inside_witness :
  files_of written !! ["w"; "new"; "b.txt"] = Some (FileNode "hi") ∧ tw_ran written.2 = [] ∧
  inside demo_tree demo_tools ["w"; "new"; "b.txt"].
Proof.
  destruct (writes_stay_inside CallWrite demo_tools (write_args "new/b.txt" "hi") demo_world
    written.1 written.2 demo_tree_ok ltac:(done) (λ path _, demo_lands path) ltac:(apply surjective_pairing))
    as (_ & Hran & Hall).
  assert (files_of written !! ["w"; "new"; "b.txt"] = Some (FileNode "hi")) as Hf by (by vm_compute).
  split_and!; [done..|]. destruct (Hall ["w"; "new"; "b.txt"]) as [[H _]|(_ & H & _)].
  - unfold files_of in Hf. by rewrite Hf.
  - exact H.
  - unfold files_of in Hf. by rewrite Hf in H.
Defined.


Lemma written_differs : tw_tree written.2 ≠ tw_tree demo_world.
Proof.
  intros Heq. apply (f_equal (λ t, ft_nodes t !! ["w"; "new"; "b.txt"])) in Heq.
  by vm_compute in Heq.
Qed.

Lemma file_changes_consented_witness :
  ∃ action, asked_action CallWrite demo_tree (write_args "new/b.txt" "hi") = Some action ∧
    consented demo_tools "write" action demo_world.
Proof.
  pose proof (file_changes_consented CallWrite demo_tools (write_args "new/b.txt" "hi") demo_world
    written.1 written.2) as Hthm.
  specialize (Hthm (surjective_pairing written) written_differs) as (action & Ha & Hcons & _).
  exact (ex_intro _ action (conj Ha Hcons)).
Defined.

Definition edited_all : Result ToolExecutionResult ToolExecutionResult * ToolWorld :=
  edit_execute demo_tools (edit_args "a.txt" "one" "1" true) demo_world.

Lemma edit_exact_witness :
  ∃ result source pieces, edited_all.1 = Ok result ∧ source = "one two one" ∧
    source = join "one" pieces ∧ ft_nodes (tw_tree edited_all.2) !! ["w"; "a.txt"] = Some (FileNode (join "1" pieces)).
Proof.
  destruct edited_all.1 as [result|e] eqn:Hr; [|vm_compute in Hr; done].
  destruct (edit_exact demo_tools (edit_args "a.txt" "one" "1" true) demo_world result edited_all.2
    demo_tree_ok) as (path & q & find & replace & source & pieces & [= <-] & [= <-] & [= <-] & Hq & Hsrc & _ & Hjoin
      & first & rest & -> & _ & Ht & _).
  { rewrite <- Hr. apply surjective_pairing. }
  assert (q = ["w"; "a.txt"]) as -> by (vm_compute in Hq; by injection Hq).
  assert (source = "one two one") as -> by (vm_compute in Hsrc; by injection Hsrc).
  exists result, "one two one", (first :: rest). split_and!; [done..|]. rewrite Ht. cbn [ft_nodes set_nodes].
  by rewrite lookup_insert_eq.
Defined.


(** Three calls, a limit of two. *)
Definition two_per_minute : ToolPolicy :=
  mkToolPolicy ["/w"] [] false PresetBalanced 1000 1000 1000 1000 1000 false ProfilePermissive [] SandboxOff
    BestEffort [] false "" DockerNone 0 f64_one 0 true [] 0 0 0 false false true false false None None None
    2 60000 LimitReject.
Definition three_writes : list (N * ActingCall) :=
  (λ name, (1000%N, FileTool CallWrite (write_args name "x"))) <$> ["b"; "c"; "d"].

Lemma rate_limit_bounds_actions_witness :
  (actions two_per_minute three_writes demo_world = 2 ∧ actions two_per_minute three_writes demo_world ≤ 2)%N.
Proof.
  split; [by vm_compute|].
  apply (rate_limit_bounds_actions two_per_minute three_writes 1000 demo_world); [done|done| |done].
  apply (bool_decide_unpack _). by vm_compute.
Defined.

(** [rm a] asked for once and approved since. *)
Definition approved_files : TextFs :=
  let asked := mkTextFs {[default_approval_policy_path env_var := "policy"]} ∅ (λ _, false) (λ _, false) 7 1000 in
  let denied := (evaluate_approval_gate env_var (ToolBash "rm a" None) asked).1 in
  (update_approval_decision denied (default_approval_store_path env_var) "req-1" Approved None None).1.
Definition approved_world (limits : ToolRateLimiterState) : ToolWorld :=
  mkWorld demo_tree approved_files limits 1000 [].
Definition approved_store : ApprovalStoreFile :=
  match load_approval_store approved_files (default_approval_store_path env_var) with
  | Ok s => s
  | Err _ => approval_store_default
  end.
Definition rm_fingerprint : string := approval_fingerprint (ToolBash "rm a" None).


(** ** What the gates miss *)

(** The location check drops the [..] of a path that does not exist yet, and creating the
    parent directories makes them count: the write tool leaves the allowed roots. *)
Theorem write_escapes_roots :
  let out := run_tool (write_execute demo_tools (write_args "missing/../../etc/x" "hi")) demo_world in
  files_of out !! ["etc"; "x"] = Some (FileNode "hi") ∧ ¬ inside demo_tree demo_tools ["etc"; "x"].
Proof.
  split; [by vm_compute|]. intros (root & r & Hroot & Hr & Hpre).
  apply list_elem_of_singleton in Hroot as ->. vm_compute in Hr. injection Hr as <-.
  revert Hpre. by apply (bool_decide_unpack _).
Qed.

(** A link that leads nowhere counts as a path that does not exist, so regular files are
    not enforced, and the write goes where the link points. *)
Theorem write_follows_dangling_link :
  let out := run_tool (write_execute demo_tools (write_args "out" "hi")) demo_world in
  enforce_regular_files demo_tools = true ∧ files_of out !! ["etc"; "made"] = Some (FileNode "hi").
Proof. split; [done|by vm_compute]. Qed.

(** Only the first word of a command line is looked up in the allow list. *)
Theorem allowlist_first_word_only :
  is_command_allowed "curl" (allowed_commands demo_tools) = false ∧
  sp_args <$> tw_ran (bash_execute demo_tools (bash_args "echo hi; curl example.org") demo_world).2 =
    [["-lc"; "echo hi; curl example.org"]].
Proof. split; by vm_compute. Qed.

(** Approval rules compare the spelling of a path: a rule for files below [/w/secret] does
    not see a write to the same file by another name. *)
Theorem approval_rule_sees_spelling :
  let rule := mkRule "secrets" "tool:write" [] ["/w/secret"] [] in
  let p := mkPolicy 1 true true 900 [rule] in
  let action path := ToolWrite (target demo_tree path) 2 in
  match_approval_rule p (action "secret") = Some rule ∧ match_approval_rule p (action "../w/secret") = None ∧
  canonicalize_best_effort demo_tree (path_of (target demo_tree "../w/secret")) =
    canonicalize_best_effort demo_tree (path_of (target demo_tree "secret")).
Proof. split_and!; by vm_compute. Qed.

(** The limiter is asked after the approval is spent: a call it turns away has used up its
    approval without running. *)
Theorem throttled_call_spends_approval :
  let full := mkLimiter {[tool_principal None := mkPrincipalState 1000 120 0]} 0 in
  let w' := (bash_execute demo_tools (bash_args "rm a") (approved_world full)).2 in
  tw_ran w' = [] ∧ credit rm_fingerprint "r" approved_store = 1 ∧
  credit rm_fingerprint "r" <$>
    (match load_approval_store (tw_access w') (default_approval_store_path env_var) with
     | Ok s => Some s | Err _ => None end) = Some 0.
Proof. split_and!; by vm_compute. Qed.
