(* ===== verification/ToolHttp.v ===== *)
(** * The HTTP tool ([tau-tools], [tools.rs], [runtime_helpers.rs])

    A bounded outbound request: arguments and caps, role policy and rate limit, the
    outbound URL guard for the first endpoint and for every redirect, and the answer read
    in chunks up to the response cap.  The network is that of [SsrfGuard]; header syntax
    and what the client knows of an answer besides its status are [HttpClient]. *)

From Stdlib Require Import NArith ZArith Ascii Lia.
From stdpp Require Import base gmap strings list.
From S2P Require Import Prelude RustStr Json Effects AtomicIo Approvals Rbac AgentTools Safety SsrfGuard OutboundTheorems ToolFs Tools ToolTheorems.

#[local] Open Scope string_scope.
#[local] Open Scope list_scope.
#[local] Open Scope nat_scope.

(** What the client knows of its last answer: the kind of a failure, the content type, the
    body in chunks (a read may fail after some) and the time since the tool began to send. *)
Record AnswerDetails := mkDetails
  { ad_is_timeout : bool; ad_is_connect : bool; ad_content_type : option string;
    ad_chunks : list string; ad_read_error : option string; ad_elapsed_ms : N }.

Class HttpClient :=
  { client_error : N → option string;           (** building a client with this timeout fails *)
    header_name : string → Result string string; (** [HeaderName::from_bytes] *)
    header_value_error : string → option string; (** [HeaderValue::from_str] *)
    from_utf8_lossy : string → string;
    answer_details : list NetEvent → AnswerDetails }.

Section http.
Context `{TA : ToolAccess, TH : ToolHost, PE : PatternEngine, !Network, !JsonCodec, !HttpClient}.

(** The tools and the network. *)
Record WebWorld := mkWeb { ww_tools : ToolWorld; ww_net : list NetEvent }.

Abbreviation Web := (Eff WebWorld ToolExecutionResult).

Definition on_tools {A} (m : Tool A) : Web A := λ w,
  let '(r, t) := m (ww_tools w) in (r, mkWeb t (ww_net w)).
Definition on_net {E A} (result_of : E → ToolExecutionResult) (m : Eff (list NetEvent) E A) : Web A := λ w,
  let '(r, net) := m (ww_net w) in
  (match r with Ok a => Ok a | Err e => Err (result_of e) end, mkWeb (ww_tools w) net).

(** ** Arguments *)

Definition optional_positive_u64 (arguments : Value) (key : string) : Result string (option N) :=
  match value_get key arguments with
  | None => Ok None
  | Some value =>
      parsed ← ok_or ("optional argument '" +:+ key +:+ "' must be an integer") (as_u64 value);
      _ ← bail_if (parsed =? 0)%N ("optional argument '" +:+ key +:+ "' must be greater than 0");
      Ok (Some parsed)
  end.
(** [usize] is 64 bits wide. *)
Definition optional_positive_usize : Value → string → Result string (option N) := optional_positive_u64.

Definition method_as_str (m : Method) : string :=
  match m with POST => "POST" | PUT => "PUT" | PATCH => "PATCH" | GET => "GET" | DELETE => "DELETE" end.

Definition parse_http_method (arguments : Value) : Result string Method :=
  let method := to_ascii_uppercase (trim (default "GET" (value_get "method" arguments ≫= as_str))) in
  if String.eqb method "GET" then Ok GET
  else if String.eqb method "POST" then Ok POST
  else if String.eqb method "PUT" then Ok PUT
  else if String.eqb method "DELETE" then Ok DELETE
  else Err ("unsupported HTTP method '" +:+ method +:+ "'; supported values: GET, POST, PUT, DELETE").

Fixpoint parse_header_fields (fields : list (string * Value)) : Result string (list (string * string)) :=
  match fields with
  | [] => Ok []
  | (name, raw_value) :: fields =>
      value ← ok_or ("header '" +:+ name +:+ "' must be a string value") (as_str raw_value);
      _ ← bail_if (has_newline value) ("header '" +:+ name +:+ "' must not include CR/LF characters");
      parsed_name ← match header_name name with
                    | Ok parsed => Ok parsed
                    | Err error => Err ("invalid header name '" +:+ name +:+ "': " +:+ error)
                    end;
      _ ← match header_value_error value with
          | None => Ok tt
          | Some error => Err ("invalid header value for '" +:+ name +:+ "': " +:+ error)
          end;
      headers ← parse_header_fields fields;
      Ok ((parsed_name, value) :: headers)
  end.

Definition parse_http_headers (arguments : Value) : Result string (list (string * string)) :=
  match value_get "headers" arguments with
  | None => Ok []
  | Some headers_value =>
      fields ← ok_or "optional argument 'headers' must be an object" (as_object headers_value);
      parse_header_fields fields
  end.

Definition is_success (status : N) : bool := (200 <=? status)%N && (status <? 300)%N.
Definition is_redirection (status : N) : bool := (300 <=? status)%N && (status <? 400)%N.

Definition classify_http_status (status : N) : string * bool :=
  if (status =? 429)%N then ("http_rate_limited", true)
  else if (500 <=? status)%N && (status <? 600)%N then ("http_status_server_error", true)
  else if (400 <=? status)%N && (status <? 500)%N then ("http_status_client_error", false)
  else ("http_status_unexpected", true).

Definition http_ssrf_config (policy : ToolPolicy) : SsrfProtectionConfig :=
  mkSsrf true (http_allow_http policy) (http_allow_private_network policy).

(** ** Sending *)

(** A request as the arguments describe it. *)
Record HttpCall := mkHttpCall
  { hc_url : string; hc_method : Method; hc_headers : list (string * string); hc_json : option Value;
    hc_timeout_ms : N; hc_limit : N }.

Definition call_head (c : HttpCall) : list (string * Value) :=
  [("tool", Str "http"); ("method", Str (method_as_str (hc_method c))); ("url", Str (hc_url c))].
Definition call_at (c : HttpCall) (endpoint : Url) : list (string * Value) :=
  call_head c ++ [("final_url", Str (url_text endpoint))].
Definition json_N (n : N) : Value := Num (PosInt n).

Definition ssrf_violation_result (c : HttpCall) (endpoint : string) (violation : SsrfViolation)
    : ToolExecutionResult :=
  result_error (json_obj (call_head c ++
    [("policy_rule", Str "ssrf_guard"); ("final_url", Str endpoint);
     ("reason_code", Str (sv_reason_code violation));
     ("retryable", Bool (String.eqb (sv_reason_code violation) "delivery_ssrf_dns_resolution_failed"));
     ("error", Str (sv_detail violation))])).

Definition send_call (c : HttpCall) (endpoint : Url) : Web (HttpAnswer * AnswerDetails) := λ w,
  let request := mkHttpRequest (hc_method c) (url_text endpoint) (hc_headers c)
                   (match hc_json c with Some v => json_to_string v | None => "" end) in
  let answer := http_send (ww_net w) request in
  let net := ww_net w ++ [Sent request answer] in
  (Ok (answer, answer_details net), mkWeb (ww_tools w) net).

Definition failed_answer (c : HttpCall) (endpoint : Url) (error : string) (details : AnswerDetails)
    : ToolExecutionResult :=
  result_error (json_obj (call_at c endpoint ++
    [("reason_code", Str (if ad_is_timeout details then "http_request_timeout" else "http_transport_error"));
     ("retryable", Bool (ad_is_timeout details || ad_is_connect details)); ("error", Str error);
     ("duration_ms", json_N (ad_elapsed_ms details))])).

(** The next endpoint of a redirect, or the result the call ends with. *)
Definition redirect_endpoint (policy : ToolPolicy) (c : HttpCall) (endpoint : Url) (redirect_count : nat)
    (status : N) (location : option (Result string string)) : Result ToolExecutionResult Url :=
  let stop fields :=
    Err (result_error (json_obj (call_at c endpoint ++
      [("redirect_count", json_usize redirect_count); ("http_status", json_N status)] ++ fields))) in
  if http_max_redirects policy <=? redirect_count then
    stop [("policy_rule", Str "http_max_redirects"); ("reason_code", Str "http_redirect_limit_exceeded");
          ("max_redirects", json_usize (http_max_redirects policy));
          ("error", Str ("redirect count exceeded configured max_redirects=" +:+
                         show_usize (http_max_redirects policy) +:+ " for endpoint '" +:+
                         url_text endpoint +:+ "'"))]
  else match location with
  | None =>
      stop [("reason_code", Str "http_redirect_missing_location");
            ("error", Str ("received redirect status " +:+ show_u64 status +:+ " without a Location header"))]
  | Some (Err error) =>
      stop [("reason_code", Str "http_redirect_invalid_location");
            ("error", Str ("redirect Location header is not valid UTF-8: " +:+ error))]
  | Some (Ok location) =>
      match url_join endpoint location with
      | Ok next_url => Ok next_url
      | Err error =>
          stop [("reason_code", Str "http_redirect_invalid_location");
                ("error", Str ("redirect location '" +:+ location +:+ "' could not be resolved against '" +:+
                               url_text endpoint +:+ "': " +:+ error))]
      end
  end.

(** The loop over the chunks of the body: the bytes, or how many were seen when the cap was
    exceeded. *)
Fixpoint read_chunks (limit observed : N) (bytes : string) (chunks : list string) : Result N string :=
  match chunks with
  | [] => Ok bytes
  | chunk :: chunks =>
      let observed := saturating_add_u64 observed (byte_len chunk) in
      if (limit <? observed)%N then Err observed
      else read_chunks limit observed (bytes +:+ chunk) chunks
  end.

Definition response_payload (policy : ToolPolicy) (c : HttpCall) (endpoint : Url) (redirect_count : nat)
    (status : N) (details : AnswerDetails) (bytes response_text : string) : list (string * Value) :=
  call_at c endpoint ++
  [("http_status", json_N status); ("success", Bool (is_success status));
   ("redirect_count", json_usize redirect_count); ("duration_ms", json_N (ad_elapsed_ms details));
   ("timeout_ms", json_N (hc_timeout_ms c)); ("max_response_bytes", json_N (hc_limit c));
   ("response_bytes", json_N (byte_len bytes)); ("request_header_names", json_strings (hc_headers c).*1);
   ("has_json_payload", Bool (bool_decide (is_Some (hc_json c)))); ("response_text", Str response_text);
   ("ssrf_allow_http", Bool (http_allow_http policy));
   ("ssrf_allow_private_network", Bool (http_allow_private_network policy));
   ("max_redirects", json_usize (http_max_redirects policy));
   ("content_type", json_option Str (ad_content_type details))]
  ++ match json_parse bytes with Some v => [("response_json", v)] | None => [] end.

(** Reading the answer; [None]: building the leak detector panics. *)
Definition read_response (policy : ToolPolicy) (c : HttpCall) (endpoint : Url) (redirect_count : nat)
    (status : N) (details : AnswerDetails) : Result ToolExecutionResult (option ToolExecutionResult) :=
  match read_chunks (hc_limit c) 0 "" (ad_chunks details) with
  | Err observed =>
      Err (result_error (json_obj (call_at c endpoint ++
        [("policy_rule", Str "http_max_response_bytes"); ("reason_code", Str "http_response_too_large");
         ("response_bytes", json_N observed); ("max_response_bytes", json_N (hc_limit c));
         ("error", Str ("response exceeded max_response_bytes cap of " +:+ show_u64 (hc_limit c) +:+ " bytes"))])))
  | Ok bytes =>
      match ad_read_error details with
      | Some error =>
          Err (result_error (json_obj (call_at c endpoint ++
            [("reason_code", Str "http_response_read_error"); ("retryable", Bool true); ("error", Str error);
             ("duration_ms", json_N (ad_elapsed_ms details))])))
      | None =>
          Ok (response_text ← redact_secrets (from_utf8_lossy bytes);
              let payload := response_payload policy c endpoint redirect_count status details bytes response_text in
              Some (if is_success status then result_ok (json_obj payload)
                    else let '(reason_code, retryable) := classify_http_status status in
                         result_error (json_obj (payload ++
                           [("reason_code", Str reason_code); ("retryable", Bool retryable);
                            ("error", Str ("request returned HTTP status " +:+ show_u64 status))]))))
      end
  end.

(** The loop over redirects; [rounds] bounds them: a round goes on only below
    [http_max_redirects]. *)
Fixpoint http_loop (policy : ToolPolicy) (c : HttpCall) (rounds redirect_count : nat) (endpoint : Url)
    : Web (option ToolExecutionResult) :=
  answer ← send_call c endpoint;
  match answer with
  | (HttpFailed error, details) => fail (failed_answer c endpoint error details)
  | (HttpResponse status location _, details) =>
      if is_redirection status then
        next_url ← of_result (redirect_endpoint policy c endpoint redirect_count status location);
        _ ← on_net (ssrf_violation_result c (url_text next_url))
              (validate_url (http_ssrf_config policy) next_url);
        match rounds with
        | O => mret None
        | S rounds => http_loop policy c rounds (S redirect_count) next_url
        end
      else of_result (read_response policy c endpoint redirect_count status details)
  end.

(** ** The call *)

(** A cap of the call: the argument when it is within the policy's, which holds otherwise. *)
Definition capped (cap : N) (exceeds : N → list (string * Value)) (given : option N) : Tool N :=
  match given with
  | Some n => if (cap <? n)%N then deny (exceeds n) else mret (N.max n 1)
  | None => mret (N.max cap 1)
  end.

Definition http_call (policy : ToolPolicy) (arguments : Value) : Tool HttpCall :=
  request_url ← or_deny only_error (required_string arguments "url");
  method ← or_deny (λ error, [("tool", Str "http"); ("url", Str request_url);
                              ("policy_rule", Str "http_method"); ("reason_code", Str "http_invalid_method");
                              ("error", Str error)]) (parse_http_method arguments);
  let head := [("tool", Str "http"); ("method", Str (method_as_str method)); ("url", Str request_url)] in
  headers ← or_deny (λ error, head ++ [("policy_rule", Str "http_headers");
                               ("reason_code", Str "http_invalid_headers"); ("error", Str error)])
              (parse_http_headers arguments);
  let json_payload := value_get "json" arguments in
  _ ← match method, json_payload with
      | GET, Some _ =>
          deny (head ++ [("policy_rule", Str "http_method"); ("reason_code", Str "http_body_not_allowed");
                         ("error", Str "GET requests do not support a JSON payload")])
      | _, _ => mret tt
      end;
  timeout_override_ms ← or_deny only_error (optional_positive_u64 arguments "timeout_ms");
  timeout_ms ← capped (http_timeout_ms policy)
    (λ n, head ++ [("policy_rule", Str "http_timeout_ms"); ("reason_code", Str "http_timeout_exceeds_policy");
                   ("timeout_ms", json_N n); ("max_timeout_ms", json_N (http_timeout_ms policy));
                   ("error", Str ("requested timeout " +:+ show_u64 n +:+ " ms exceeds policy cap " +:+
                                  show_u64 (http_timeout_ms policy) +:+ " ms"))]) timeout_override_ms;
  limit_override ← or_deny only_error (optional_positive_usize arguments "max_response_bytes");
  limit ← capped (http_max_response_bytes policy)
    (λ n, head ++ [("policy_rule", Str "http_max_response_bytes");
                   ("reason_code", Str "http_response_cap_exceeds_policy");
                   ("max_response_bytes", json_N n);
                   ("policy_max_response_bytes", json_N (http_max_response_bytes policy));
                   ("error", Str ("requested response cap " +:+ show_u64 n +:+ " bytes exceeds policy cap " +:+
                                  show_u64 (http_max_response_bytes policy) +:+ " bytes"))]) limit_override;
  mret (mkHttpCall request_url method headers json_payload timeout_ms limit).

Definition call_payload (c : HttpCall) : list (string * Value) :=
  [("method", Str (method_as_str (hc_method c))); ("url", Str (hc_url c));
   ("timeout_ms", json_N (hc_timeout_ms c)); ("max_response_bytes", json_N (hc_limit c))].

Definition http_gates (policy : ToolPolicy) (c : HttpCall) : Tool unit :=
  access ← gets tw_access;
  _ ← pass (evaluate_tool_rbac_gate access policy "http"
        (json_obj (call_payload c ++ [("headers", json_strings (hc_headers c).*1);
                                      ("has_json_payload", Bool (bool_decide (is_Some (hc_json c))))])));
  rate_limit_gate policy "http" (json_obj (call_payload c)).

Definition http_execute (policy : ToolPolicy) (arguments : Value) : Web (option ToolExecutionResult) :=
  c ← on_tools (http_call policy arguments);
  _ ← on_tools (http_gates policy c);
  _ ← on_tools match client_error (hc_timeout_ms c) with
               | None => mret tt
               | Some error =>
                   deny (call_head c ++ [("reason_code", Str "http_client_build_failed");
                           ("error", Str ("failed to initialize outbound HTTP client: " +:+ error))])
               end;
  endpoint ← on_net (ssrf_violation_result c (hc_url c))
               (parse_and_validate_url (http_ssrf_config policy) (hc_url c));
  http_loop policy c (http_max_redirects policy) 0 endpoint.
End http.

(** ** What a call sends *)

Section http_theorems.
Context `{TA : ToolAccess, TH : ToolHost, PE : PatternEngine, !Network, !JsonCodec, !HttpClient}.
Implicit Types (policy : ToolPolicy) (c : HttpCall) (w : WebWorld).

(** A request is the one the arguments describe. *)
Definition as_called c (e : NetEvent) : Prop :=
  match e with
  | Sent request _ =>
      hr_method request = hc_method c ∧ hr_headers request = hc_headers c ∧
      hr_body request = (match hc_json c with Some v => json_to_string v | None => "" end)
  | Looked _ _ => True
  end.

(** From [past] to [past'] at most [n] requests were sent, as described, each to a URL the
    guard accepted before. *)
Definition sent_by c config (n : nat) (past past' : list NetEvent) : Prop :=
  screened config past past' ∧ sends past' ≤ sends past + n ∧
  ∃ added, past' = past ++ added ∧ Forall (as_called c) added.

Lemma sent_by_refl c config n past : sent_by c config n past past.
Proof. split_and!; [reflexivity|lia|]. exists []. by rewrite app_nil_r. Qed.

Lemma sent_by_trans c config n m p1 p2 p3 :
  sent_by c config n p1 p2 → sent_by c config m p2 p3 → sent_by c config (n + m) p1 p3.
Proof.
  intros (Hs & Hn & a & -> & Ha) (Hs' & Hm & b & -> & Hb). split_and!; [by etrans|lia|].
  exists (a ++ b). split; [by rewrite app_assoc|]. by apply Forall_app.
Qed.

Lemma sent_by_le c config n m past past' :
  n ≤ m → sent_by c config n past past' → sent_by c config m past past'.
Proof. intros Hle (Hs & Hn & Hadd). split_and!; [done|lia|done]. Qed.

Lemma validate_sent_by c config url past : sent_by c config 0 past (validate_url config url past).2.
Proof.
  destruct (validate_url_spec config url past) as [(added & Hadd & Hscreen) _].
  pose proof (validate_url_sends config url past) as Hsends. unfold same_sends in Hsends.
  split_and!; [by exists added|lia|]. exists added. split; [done|].
  rewrite Hadd, sends_app in Hsends. clear -Hsends.
  assert (sends added = 0) as Hnone by lia. clear Hsends. unfold sends in Hnone.
  induction added as [|[target r|request answer] added IH]; [constructor|by constructor; auto|done].
Qed.

Lemma send_call_sent_by c config endpoint w :
  acceptable config (ww_net w) endpoint → sent_by c config 1 (ww_net w) (ww_net (send_call c endpoint w).2).
Proof.
  intros Hacc. unfold send_call. cbn. split_and!.
  - by apply (sent_screened config endpoint).
  - rewrite sends_app. cbn. lia.
  - eexists. split; [done|]. by repeat constructor.
Qed.

Lemma redirect_endpoint_Ok policy c endpoint count status location next :
  redirect_endpoint policy c endpoint count status location = Ok next → count < http_max_redirects policy.
Proof.
  unfold redirect_endpoint. destruct (Nat.leb_spec (http_max_redirects policy) count); [done|]. lia.
Qed.

Lemma http_loop_sends policy c rounds count endpoint w r w' :
  acceptable (http_ssrf_config policy) (ww_net w) endpoint →
  http_loop policy c rounds count endpoint w = (r, w') →
  ww_tools w' = ww_tools w ∧ sent_by c (http_ssrf_config policy) (S rounds) (ww_net w) (ww_net w').
Proof.
  revert count endpoint w. induction rounds as [|rounds IH]; intros count endpoint w Hacc Hrun;
    cbn [http_loop] in Hrun; rewrite eff_bind_unfold in Hrun;
    pose proof (send_call_sent_by c _ endpoint w Hacc) as Hsent;
    destruct (send_call c endpoint w) as [[[[error|status location body] details]|e] w1] eqn:Hsend;
    unfold send_call in Hsend; try done; injection Hsend as _ _ <-; cbn [snd ww_net ww_tools] in *.
  1, 3: injection Hrun as <- <-; split; [done|]; eapply sent_by_le; [|exact Hsent]; lia.
  all: destruct (is_redirection status);
    [|injection Hrun as <- <-; split; [done|]; eapply sent_by_le; [|exact Hsent]; lia].
  all: rewrite eff_bind_unfold in Hrun; unfold of_result in Hrun;
    destruct (redirect_endpoint _ _ _ _ _ _) as [next|e];
    [|injection Hrun as <- <-; split; [done|]; eapply sent_by_le; [|exact Hsent]; lia].
  all: rewrite eff_bind_unfold in Hrun; unfold on_net in Hrun; cbn [ww_net ww_tools] in Hrun;
    set (past := ww_net w ++ _) in *;
    pose proof (sent_by_trans _ _ _ _ _ _ _ Hsent (validate_sent_by c (http_ssrf_config policy) next past)) as Hboth;
    destruct (validate_url_spec (http_ssrf_config policy) next past) as [_ Hnext];
    destruct (validate_url _ next past) as [[[]|e] past'] eqn:Hv; cbn [fst snd] in *.
  1, 2, 4: injection Hrun as <- <-; split; [done|]; eapply sent_by_le; [|exact Hboth]; lia.
  apply IH in Hrun as [Ht Hs]; [|by apply Hnext]. split; [done|].
  exact (sent_by_trans _ _ 1 _ _ _ _ Hboth Hs).
Qed.

(** The call a request is made from: as the arguments say, within the caps of the policy. *)
Definition call_from policy (arguments : Value) c : Prop :=
  required_string arguments "url" = Ok (hc_url c) ∧ parse_http_method arguments = Ok (hc_method c) ∧
  parse_http_headers arguments = Ok (hc_headers c) ∧ hc_json c = value_get "json" arguments ∧
  (hc_method c = GET → hc_json c = None) ∧
  (hc_timeout_ms c ≤ N.max (http_timeout_ms policy) 1)%N ∧
  (hc_limit c ≤ N.max (http_max_response_bytes policy) 1)%N.

Lemma checks_capped cap exceeds given (w : ToolWorld) :
  checks (capped cap exceeds given) w (λ n, n ≤ N.max cap 1)%N.
Proof.
  destruct given as [n|]; cbn; [|by split]. destruct (N.ltb_spec cap n); [done|]. cbn. split; [done|lia].
Qed.

Lemma http_call_spec policy arguments (w w' : ToolWorld) r :
  http_call policy arguments w = (r, w') →
  w' = w ∧ match r with Ok c => call_from policy arguments c | Err e => tr_is_error e = true end.
Proof.
  unfold http_call. intros Hrun.
  apply (after_check _ _ _ _ _ _ (checks_or_deny _ _ w)) in Hrun as [(-> & e & -> & He)|(url & Hurl & Hrun)]; [done|].
  apply (after_check _ _ _ _ _ _ (checks_or_deny _ _ w)) in Hrun as [(-> & e & -> & He)|(method & Hm & Hrun)]; [done|].
  apply (after_check _ _ _ _ _ _ (checks_or_deny _ _ w)) in Hrun as [(-> & e & -> & He)|(headers & Hh & Hrun)]; [done|].
  eapply (after_check _ _ w (λ _, method = GET → value_get "json" arguments = None)) in Hrun
    as [(-> & e & -> & He)|(? & Hget & Hrun)]; [done| |].
  2: { unfold checks. by destruct method, (value_get "json" arguments). }
  apply (after_check _ _ _ _ _ _ (checks_or_deny _ _ w)) in Hrun as [(-> & e & -> & He)|(t & _ & Hrun)]; [done|].
  apply (after_check _ _ _ _ _ _ (checks_capped _ _ _ w)) in Hrun as [(-> & e & -> & He)|(timeout & Ht & Hrun)]; [done|].
  apply (after_check _ _ _ _ _ _ (checks_or_deny _ _ w)) in Hrun as [(-> & e & -> & He)|(l & _ & Hrun)]; [done|].
  apply (after_check _ _ _ _ _ _ (checks_capped _ _ _ w)) in Hrun as [(-> & e & -> & He)|(limit & Hl & Hrun)]; [done|].
  injection Hrun as <- <-. by split.
Qed.

Lemma http_gates_spec policy c (w w' : ToolWorld) r :
  http_gates policy c w = (r, w') →
  tw_tree w' = tw_tree w ∧ tw_ran w' = tw_ran w ∧ tw_access w' = tw_access w ∧
  match r with
  | Ok _ => (∃ code role pattern,
      authorize_tool (rbac_policy_path policy) (tool_principal (rbac_principal policy)) "http" (tw_access w) =
        Ok (RbacAllow code role pattern)) ∧
      (limit_of policy w).1 = LimitAllow ∧ tw_limits w' = (limit_of policy w).2
  | Err e => tr_is_error e = true
  end.
Proof.
  unfold http_gates. intros Hrun.
  apply (after_check _ _ _ _ _ _ (checks_gets _ w)) in Hrun as [(-> & e & -> & He)|(access & -> & Hrun)]; [done|].
  apply (after_check _ _ _ _ _ _ (checks_rbac _ _ _ _ w)) in Hrun as [(-> & e & -> & He)|(? & Hrbac & Hrun)]; [done|].
  unfold rate_limit_gate in Hrun. pose proof (rate_gate_spec policy "http" (json_obj (call_payload c)) w) as Hl.
  by destruct (evaluate_tool_rate_limit_gate _ _ _ _) as [[stop|] w1]; destruct Hl as [-> Hl]; injection Hrun as <- <-.
Qed.


(** ** What a call returns *)

Lemma byte_len_app a b : byte_len (a +:+ b) = (byte_len a + byte_len b)%N.
Proof. unfold byte_len. rewrite <- !length_chars_of, chars_of_app, length_app. lia. Qed.

Lemma read_chunks_bound limit bytes chunks out :
  (limit < u64_max)%N → (byte_len bytes ≤ limit)%N →
  read_chunks limit (byte_len bytes) bytes chunks = Ok out → (byte_len out ≤ limit)%N.
Proof.
  intros Hlimit. revert bytes. induction chunks as [|chunk chunks IH]; intros bytes Hle; cbn [read_chunks].
  - by intros [= <-].
  - destruct (N.ltb_spec limit (saturating_add_u64 (byte_len bytes) (byte_len chunk))) as [|Hsum]; [done|].
    assert (saturating_add_u64 (byte_len bytes) (byte_len chunk) = byte_len (bytes +:+ chunk)) as Heq.
    { rewrite byte_len_app. unfold saturating_add_u64 in *. lia. }
    rewrite Heq in *. by apply IH.
Qed.

(** A result that reports the answer: at most [limit] bytes of it were read. *)
Definition answer_within (limit : N) (answer : option ToolExecutionResult) : Prop :=
  match answer with
  | None => default_leak_detector_new = None
  | Some result =>
      ∃ n, value_get "response_bytes" (tr_content result) = Some (json_N n) ∧ (n ≤ limit)%N
  end.

Lemma read_response_within policy c endpoint count status details answer :
  (hc_limit c < u64_max)%N →
  read_response policy c endpoint count status details = Ok answer → answer_within (hc_limit c) answer.
Proof.
  intros Hlimit. unfold read_response. destruct (read_chunks _ _ _ _) as [bytes|n] eqn:Hread; [|done].
  destruct (ad_read_error details); [done|]. intros [= <-]. unfold redact_secrets.
  destruct default_leak_detector_new as [detector|] eqn:Hd; [|exact Hd]. cbn [mbind option_bind].
  exists (byte_len bytes). split; [|apply (read_chunks_bound _ "" (ad_chunks details)); [done|apply N.le_0_l|done]].
  unfold response_payload, json_obj, tr_content.
  destruct (is_success status), (classify_http_status status), (json_parse bytes); reflexivity.
Qed.

Lemma http_loop_within policy c rounds count endpoint w answer w' :
  (hc_limit c < u64_max)%N → count + rounds = http_max_redirects policy →
  http_loop policy c rounds count endpoint w = (Ok answer, w') → answer_within (hc_limit c) answer.
Proof.
  intros Hlimit. revert count endpoint w. induction rounds as [|rounds IH]; intros count endpoint w Hfuel Hrun;
    cbn [http_loop] in Hrun; apply eff_bind_Ok in Hrun as ([[error|status location body] details] & w1 & _ & Hrun);
    try done.
  all: destruct (is_redirection status);
    [|injection Hrun as Hrun _; by eapply read_response_within].
  all: apply eff_bind_Ok in Hrun as (next & w2 & Hnext & Hrun); injection Hnext as Hnext _;
    apply redirect_endpoint_Ok in Hnext; apply eff_bind_Ok in Hrun as ([] & w3 & _ & Hrun).
  - lia.
  - eapply IH; [|exact Hrun]. lia.
Qed.

(** the HTTP tool returns no more than it may.  A call always comes to an end, redirects
    included; a result that reports an answer was made from at most as many bytes as the
    call's cap, which is within the policy's, and only building the leak detector can make
    the tool panic. *)
Theorem http_answer_bounded policy arguments w answer w' :
  (http_max_response_bytes policy < u64_max)%N →
  http_execute policy arguments w = (Ok answer, w') →
  ∃ c, call_from policy arguments c ∧ answer_within (hc_limit c) answer.
Proof.
  intros Hcap. unfold http_execute. intros (c & w1 & Hcall & Hrun)%eff_bind_Ok.
  unfold on_tools in Hcall. destruct (http_call policy arguments (ww_tools w)) as [r t] eqn:Hc.
  apply http_call_spec in Hc as [-> Hc]. injection Hcall as -> <-. exists c. split; [done|].
  apply eff_bind_Ok in Hrun as (_ & w2 & _ & Hrun). apply eff_bind_Ok in Hrun as (_ & w3 & _ & Hrun).
  apply eff_bind_Ok in Hrun as (endpoint & w4 & _ & Hrun). eapply http_loop_within; [| |exact Hrun]; [|done].
  destruct Hc as (_ & _ & _ & _ & _ & _ & Hl). unfold u64_max in *. lia.
Qed.
End http_theorems.

(** ** Examples *)

(** One host that redirects to another, which answers. *)
#[local] Instance two_hosts : Network :=
  {| parse_url s := Ok (mkUrl s "https" (Some "a.example") (Some 443%N));
     url_join _ location := Ok (mkUrl location "https" (Some "b.example") (Some 443%N));
     parse_ip _ := None; show_ip _ := ""; show_status _ := "";
     lookup_host _ _ := Ok [V4 93 184 216 34];
     http_send _ request :=
       if String.eqb (hr_url request) "https://a.example/"
       then HttpResponse 302 (Some (Ok "https://b.example/")) "" else HttpResponse 200 None "hi" |}.
#[local] Instance text_json : JsonCodec :=
  {| json_parse _ := None; json_to_string _ := "{}"; json_to_string_pretty _ := "{}" |}.
#[local] Instance plain_client : HttpClient :=
  {| client_error _ := None; header_name name := Ok name; header_value_error _ := None;
     from_utf8_lossy s := s; answer_details _ := mkDetails false false None ["h"; "i"] None 5 |}.
#[local] Existing Instances demo_host demo_engine.
#[local] Instance web_access : ToolAccess := demo_access.

Definition web_world : WebWorld := mkWeb demo_world [].
Definition get_args : Value :=
  json_obj [("url", Str "https://a.example/"); ("headers", json_obj [("authorization", Str "secret")])].
Definition fetched := http_execute demo_tools get_args web_world.
Definition requests_of (net : list NetEvent) : list HttpRequest :=
  omap (λ e, match e with Sent request _ => Some request | Looked _ _ => None end) net.


Lemma http_answer_bounded_witness :
  ∃ answer c, fetched.1 = Ok answer ∧ call_from demo_tools get_args c ∧ answer_within (hc_limit c) answer.
Proof.
  destruct fetched.1 as [answer|e] eqn:Hf; [|vm_compute in Hf; done].
  pose proof (http_answer_bounded demo_tools get_args web_world answer fetched.2) as Hthm.
  specialize (Hthm ltac:(done)).
  destruct Hthm as (c & Hc & Ha); [rewrite <- Hf; exact (surjective_pairing fetched)|].
  by exists answer, c.
Defined.

(** The redirects are followed by hand, and every header goes along: credentials given for
    one host reach the host it redirects to. *)
Theorem redirect_forwards_credentials :
  (λ r, (hr_url r, hr_headers r)) <$> requests_of (ww_net fetched.2) =
    [("https://a.example/", [("authorization", "secret")]); ("https://b.example/", [("authorization", "secret")])].
Proof. by vm_compute. Qed.
