(* ===== verification/ToolSessions.v ===== *)
(** * The session tools [branch], [undo] and [redo] ([tau-tools], [tools.rs])

    They load a session below the allowed roots and append a branch or move its
    navigation head.  Sessions are those of [SessionStore] and [SessionNavigation], kept in
    the storage and the text files of [SessionWorld]; the file tree is only asked whether
    the path is allowed.  These tools ask neither the role policy nor the approval gate nor
    the rate limiter, and do not look at protected paths. *)

From Stdlib Require Import NArith ZArith Ascii Lia.
From stdpp Require Import base gmap sets strings list.
From S2P Require Import Prelude RustStr Json Effects AtomicIo Messages SessionIntegrity SessionStorage SessionStore SessionInvariant SessionNavigation SessionCommands NavigationTheorems SessionInstances SessionTheorems AgentTools ToolFs Tools ToolTheorems.

#[local] Open Scope string_scope.
#[local] Open Scope list_scope.
#[local] Open Scope nat_scope.

Definition BRANCH_TOOL_MAX_PROMPT_CHARS : nat := 4000.

Section session_tools.
Context {V T : Type} `{!SessionCodec V, !RowTable T, !NavigationCodec, !TextFormat, TH : ToolHost}.
(** [error.to_string()] of a session error *)
Context (session_error_text : SessionError → string).
Implicit Types (policy : ToolPolicy) (fs : FileTree).

Record SessionWorld := mkSessions { sw_storage : World T; sw_files : TextFs }.
Abbreviation SessionTool := (Eff SessionWorld ToolExecutionResult).

Definition stop {A} (fields : list (string * Value)) : SessionTool A := fail (result_error (json_obj fields)).
Definition or_stop {A} (fields : string → list (string * Value)) (r : Result string A) : SessionTool A :=
  match r with Ok a => mret a | Err error => stop (fields error) end.

Definition optional_u64 (arguments : Value) (key : string) : Result string (option N) :=
  match value_get key arguments with
  | None => Ok None
  | Some value =>
      parsed ← ok_or ("optional argument '" +:+ key +:+ "' must be an integer") (as_u64 value);
      Ok (Some parsed)
  end.

(** The session file a call names. *)
Definition tool_session_path fs policy (path : string) : SessionTool string :=
  resolved ← or_stop (path_error path) (resolve_and_validate_path fs path policy ModeWrite);
  _ ← or_stop (path_error resolved)
        (validate_file_target fs resolved ModeWrite (enforce_regular_files policy));
  mret resolved.

Definition load_session (fields : string → list (string * Value)) (resolved : string)
    : SessionTool (SessionStore V) := λ s,
  match load (sw_storage s) resolved with
  | (storage, Ok store) => (Ok store, mkSessions storage (sw_files s))
  | (storage, Err e) =>
      (Err (result_error (json_obj (fields ("failed to load session: " +:+ session_error_text e)))),
       mkSessions storage (sw_files s))
  end.

Definition json_id (id : option N) : Value := json_option (λ n, Num (PosInt n)) id.

(** ** [branch] *)

Definition branch_fields (resolved reason_code error : string) : list (string * Value) :=
  [("tool", Str "branch"); ("path", Str resolved); ("reason_code", Str reason_code); ("error", Str error)].

Definition append_branch (resolved prompt : string) (parent_id : option N) (store : SessionStore V)
    : SessionTool ToolExecutionResult := λ s,
  let before_entries := length (st_entries store) in
  let previous_head_id := head_id store in
  let selected_parent_id := match parent_id with Some id => Some id | None => previous_head_id end in
  match append_messages (sw_storage s) store selected_parent_id [message_user prompt] with
  | (storage, store, Ok (Some branch_head_id)) =>
      let after_entries := length (st_entries store) in
      (Ok (result_ok (json_obj
         [("tool", Str "branch"); ("path", Str resolved); ("reason_code", Str "session_branch_created");
          ("summary", Str "branch entry created"); ("selected_parent_id", json_id selected_parent_id);
          ("previous_head_id", json_id previous_head_id); ("branch_head_id", json_id (Some branch_head_id));
          ("before_entries", json_usize before_entries); ("after_entries", json_usize after_entries);
          ("appended_entries", json_usize (after_entries - before_entries));
          ("prompt_preview", Str (session_message_preview (Value:=V) (message_user prompt)))])),
       mkSessions storage (sw_files s))
  | (storage, _, Ok None) =>
      (Err (result_error (json_obj (branch_fields resolved "session_branch_append_noop"
              "branch append produced no new head"))), mkSessions storage (sw_files s))
  | (storage, _, Err e) =>
      let error := session_error_text e in
      let reason_code :=
        if str_contains "parent id" error && str_contains "does not exist" error
        then "session_branch_parent_not_found" else "session_branch_append_error" in
      (Err (result_error (json_obj (branch_fields resolved reason_code error ++
              [("parent_id", json_id selected_parent_id)]))), mkSessions storage (sw_files s))
  end.

Definition branch_execute fs policy (arguments : Value) : SessionTool ToolExecutionResult :=
  path ← or_stop only_error (required_string arguments "path");
  prompt ← or_stop only_error (required_string arguments "prompt");
  parent_id ← or_stop only_error (optional_u64 arguments "parent_id");
  if is_empty (trim prompt)
  then stop (branch_fields path "branch_prompt_empty" "prompt must not be empty")
  else if BRANCH_TOOL_MAX_PROMPT_CHARS <? chars_count prompt
  then stop (branch_fields path "branch_prompt_too_large"
               ("prompt exceeds max length of " +:+ show_usize BRANCH_TOOL_MAX_PROMPT_CHARS +:+ " characters"))
  else
    resolved ← tool_session_path fs policy path;
    store ← load_session (branch_fields resolved "session_branch_load_error") resolved;
    append_branch resolved prompt parent_id store.

(** ** [undo] and [redo] *)

Definition move_name (m : Move) : string := match m with Undo => "undo" | Redo => "redo" | Visit _ => "" end.

(** [format!("{error}")] of a navigation error. *)
Definition move_error_text (files : TextFs) (store : SessionStore V) (e : NavError) : string :=
  nav_error_text files (session_navigation_path_for_session (st_path store)) e.

Definition move_result (m : Move) (resolved : string) (t : SessionNavigationTransition)
    : ToolExecutionResult :=
  let fields reason_code summary :=
    json_obj [("tool", Str (move_name m)); ("path", Str resolved); ("reason_code", Str reason_code);
              ("summary", Str summary); ("previous_head_id", json_id (previous_head t));
              ("active_head_id", json_id (active_head t)); ("undo_depth", json_usize (undo_depth t));
              ("redo_depth", json_usize (redo_depth t));
              ("skipped_invalid_targets", json_usize (skipped_invalid_targets t))] in
  if nav_changed t
  then result_ok (fields ("session_" +:+ move_name m +:+ "_applied") (move_name m +:+ " complete"))
  else result_error (fields ("session_" +:+ move_name m +:+ "_empty_stack")
         (match m with
          | Undo => "undo unavailable: no prior navigation target"
          | _ => "redo unavailable: no prior undone navigation target"
          end)).

Definition move_head (m : Move) (resolved : string) (store : SessionStore V)
    : SessionTool ToolExecutionResult := λ s,
  let failed files what e :=
    (Err (result_error (json_obj
       [("tool", Str (move_name m)); ("path", Str resolved);
        ("reason_code", Str "session_navigation_state_error");
        ("error", Str (what +:+ move_error_text files store e))])), mkSessions (sw_storage s) files) in
  match resolve_session_navigation_head (sw_files s) store with
  | (files, Err e) => failed files "failed to resolve navigation state: " e
  | (files, Ok head) =>
      match (match m with
             | Undo => undo_session_head files (mkRuntime store head)
             | _ => redo_session_head files (mkRuntime store head)
             end) with
      | (files, _, Err e) => failed files ("failed to execute " +:+ move_name m +:+ ": ") e
      | (files, _, Ok transition) =>
          let result := move_result m resolved transition in
          ((if tr_is_error result then Err result else Ok result), mkSessions (sw_storage s) files)
      end
  end.

Definition move_execute (m : Move) fs policy (arguments : Value) : SessionTool ToolExecutionResult :=
  path ← or_stop only_error (required_string arguments "path");
  resolved ← tool_session_path fs policy path;
  store ← load_session (λ error, [("path", Str resolved); ("reason_code", Str "session_navigation_load_error");
                                  ("error", Str error)]) resolved;
  move_head m resolved store.

Definition undo_execute := move_execute Undo.
Definition redo_execute := move_execute Redo.
End session_tools.

Section session_theorems.
Context {V T : Type} `{!SessionCodec V, !SessionCodecLaws V, !RowTable T, !RowTableLaws T,
  !NavigationCodec, !NavigationCodecLaws, !TextFormat, TH : ToolHost}.
Context (session_error_text : SessionError → string).
Implicit Types (policy : ToolPolicy) (fs : FileTree) (s : SessionWorld (T:=T)) (store : SessionStore V).

Lemma or_stop_Ok {A} fields (r : Result string A) s a s' :
  or_stop fields r s = (Ok a, s') → r = Ok a ∧ s' = s.
Proof. destruct r; [|done]. by intros [= -> ->]. Qed.

Lemma tool_session_path_Ok fs policy path s resolved s' :
  tool_session_path fs policy path s = (Ok resolved, s') → s' = s ∧ resolved = target fs path ∧
  ∃ q, canonicalize_best_effort fs (path_of resolved) = Ok q ∧
    (allowed_roots policy ≠ [] → inside fs policy q).
Proof.
  unfold tool_session_path. intros (r & s1 & [Hr ->]%or_stop_Ok & Hrun)%eff_bind_Ok.
  apply eff_bind_Ok in Hrun as (u & s2 & [_ ->]%or_stop_Ok & [= <- <-]).
  apply resolve_Ok in Hr as (-> & q & Hq & Hin & _). eauto 10.
Qed.

Lemma load_session_Ok fields resolved s store s' :
  load_session session_error_text fields resolved s = (Ok store, s') →
  load (sw_storage s) resolved = (sw_storage s', Ok store) ∧ sw_files s' = sw_files s.
Proof. unfold load_session. destruct (load _ _) as [storage [store'|e]]; [|done]. by intros [= <- <-]. Qed.

(** [branch] adds one message to the conversation and nothing else.  When a call succeeds,
    the session lies inside the allowed roots, and in a well-formed session with room the
    conversation up to the reported head is that up to the chosen parent (the latest entry
    if none is given) followed by the prompt; all other entries are kept and the session
    stays well formed. *)
Theorem branch_extends_conversation fs policy arguments s result s' :
  branch_execute session_error_text fs policy arguments s = (Ok result, s') →
  ∃ path prompt parent_id storage store q,
    required_string arguments "path" = Ok path ∧ required_string arguments "prompt" = Ok prompt ∧
    optional_u64 arguments "parent_id" = Ok parent_id ∧
    canonicalize_best_effort fs (path_of (target fs path)) = Ok q ∧
    (allowed_roots policy ≠ [] → inside fs policy q) ∧
    load (sw_storage s) (target fs path) = (storage, Ok store) ∧ sw_files s' = sw_files s ∧
    ∀ prefix,
      session_ok storage store → (max_or_zero (se_id <$> st_entries store) + 2 ≤ u64_max)%N →
      lineage_messages store (match parent_id with Some id => Some id | None => head_id store end) = Ok prefix →
      ∃ store' head new, session_ok (sw_storage s') store' ∧
        value_get "branch_head_id" (tr_content result) = Some (json_id (Some head)) ∧
        lineage_messages store' (Some head) = Ok (prefix ++ [message_user prompt]) ∧
        st_entries store' ≡ₚ st_entries store ++ [new] ∧ se_message new = message_user prompt.
Proof.
  unfold branch_execute. intros (path & s1 & [Hpath ->]%or_stop_Ok & Hrun)%eff_bind_Ok.
  apply eff_bind_Ok in Hrun as (prompt & s2 & [Hprompt ->]%or_stop_Ok & Hrun).
  apply eff_bind_Ok in Hrun as (parent & s3 & [Hparent ->]%or_stop_Ok & Hrun).
  destruct (is_empty (trim prompt)); [done|]. destruct (BRANCH_TOOL_MAX_PROMPT_CHARS <? _); [done|].
  apply eff_bind_Ok in Hrun as (resolved & s4 & (-> & -> & q & Hq & Hin)%tool_session_path_Ok & Hrun).
  apply eff_bind_Ok in Hrun as (store & s5 & [Hload Hfiles]%load_session_Ok & Hrun).
  exists path, prompt, parent, (sw_storage s5), store, q. unfold append_branch in Hrun. cbv zeta in Hrun.
  set (chosen := match parent with Some id => Some id | None => head_id store end) in *.
  destruct (append_messages (sw_storage s5) store chosen [message_user prompt])
    as [[storage store'] [[head|]|e]] eqn:Happ; [|done..].
  injection Hrun as <- <-. split_and!; try done. intros prefix Hok Hroom Hpre.
  assert (max_or_zero (se_id <$> st_entries store) + 1 + N.of_nat (length [message_user (Value:=V) prompt]) ≤ u64_max)%N
    as Hroom' by (cbn [length]; lia).
  pose proof (append_extends_lineage _ _ _ _ _ _ _ _ Hok Hroom' Hpre Happ) as Hlin.
  destruct (append_messages_spec _ _ _ _ _ _ _ Hok Hroom' ltac:(done) Happ) as (Hok' & _ & new & Hperm & Hnew).
  destruct new as [|x [|y new]]; [done| |done]. injection Hnew as Hx. exists store', head, x. by split_and!.
Qed.

(** ** Undo and redo *)

(** Resolving the head keeps the history but for the head itself. *)
Lemma resolve_keeps_stacks (files files' : TextFs) store head :
  resolve_session_navigation_head files store = (files', Ok head) →
  ∃ h, history_of files (mkRuntime store head) = Some h ∧ history_of files' (mkRuntime store head) = Some h.
Proof.
  unfold resolve_session_navigation_head, history_of, nav_path. cbn [rt_store rt_active_head].
  set (path := session_navigation_path_for_session (st_path store)).
  destruct (load_session_navigation_state files path) as [original|e] eqn:Hload; [|done].
  rewrite (pruned_state store original). cbv beta iota zeta.
  destruct (save_if_changed _ _ _ _ _) as [files1 [u|e]] eqn:Hs; [|done]. intros [= <- <-].
  apply (save_if_changed_Ok _ _ _ _ _ _ _ Hload) in Hs; [|cbn; by eapply load_navigation_version].
  eexists. split; [done|]. rewrite Hs. cbn [nav_undo_stack nav_redo_stack].
  by rewrite (keep_id store (List.filter _ (nav_undo_stack original))),
    (keep_id store (List.filter _ (nav_redo_stack original))) by apply keep_all_exist.
Qed.

(** An undo that changed something had somewhere to go. *)
Lemma undo_changed (files files' : TextFs) (runtime runtime' : SessionRuntime V) tr h :
  undo_session_head files runtime = (files', runtime', Ok tr) → nav_changed tr = true →
  history_of files runtime = Some h → is_Some (last (h_undo h)).
Proof.
  unfold undo_session_head, history_of. fold (nav_path runtime).
  destruct (load_session_navigation_state files (nav_path runtime)) as [original|e]; [|done].
  rewrite (pruned_state (rt_store runtime) original). cbn [nav_undo_stack]. intros Hrun Hchanged [= <-]. cbn.
  destruct (List.filter _ (nav_undo_stack original)) as [|x l]; [|by apply last_is_Some].
  cbn in Hrun. unfold finish_navigation in Hrun.
  destruct (save_if_changed _ _ _ _ _) as [f1 [u|e]]; [|done]. by injection Hrun as _ _ <-.
Qed.

Lemma move_execute_Ok m fs policy arguments s result s' :
  move_execute session_error_text m fs policy arguments s = (Ok result, s') →
  ∃ path store files head,
    required_string arguments "path" = Ok path ∧
    load (sw_storage s) (target fs path) = (sw_storage s', Ok store) ∧
    resolve_session_navigation_head (sw_files s) store = (files, Ok head) ∧
    ∃ runtime' t,
      (match m with
       | Undo => undo_session_head files (mkRuntime store head)
       | _ => redo_session_head files (mkRuntime store head)
       end) = (sw_files s', runtime', Ok t) ∧ nav_changed t = true ∧
      value_get "previous_head_id" (tr_content result) = Some (json_id (previous_head t)) ∧
      value_get "active_head_id" (tr_content result) = Some (json_id (active_head t)).
Proof.
  unfold move_execute. intros (path & s1 & [Hpath ->]%or_stop_Ok & Hrun)%eff_bind_Ok.
  apply eff_bind_Ok in Hrun as (resolved & s2 & (-> & -> & _)%tool_session_path_Ok & Hrun).
  apply eff_bind_Ok in Hrun as (store & s3 & [Hload Hfiles]%load_session_Ok & Hrun).
  unfold move_head in Hrun. rewrite Hfiles in Hrun.
  destruct (resolve_session_navigation_head (sw_files s) store) as [files [head|e]] eqn:Hres; [|done].
  destruct (match m with Undo => _ | _ => _ end) as [[files' runtime'] [t|e]] eqn:Hmove; [|done].
  unfold move_result in Hrun. destruct (nav_changed t) eqn:Hch; [|done]. injection Hrun as <- <-.
  exists path, store, files, head. split_and!; [done..|]. by exists runtime', t.
Qed.

End session_theorems.

(** ** Examples *)

#[local] Existing Instances demo_host.
#[local] Instance session_format : TextFormat :=
  {| to_lowercase := to_ascii_lowercase; show_f64 _ := "0" |}.
Definition session_text (e : SessionError) : string := "error".

(** The branching session of [SessionTheorems] in the workspace, visited at entry 3 last. *)
Definition tool_path : string := "/w/s.jsonl".
Definition tool_storage : World (list Row) := world_with tool_path sample_session.
Definition tool_store : SessionStore unit :=
  match (load tool_storage tool_path).2 with Ok store => store | Err _ => sample_store end.
Definition visited : TextFs :=
  (navigate_session_head nav_fs (mkRuntime tool_store (Some 4%N)) (Some 3%N)).1.1.
Definition tool_sessions : SessionWorld := mkSessions tool_storage visited.

Definition branch_args : Value :=
  json_obj [("path", Str "s.jsonl"); ("prompt", Str "more"); ("parent_id", Num (PosInt 3))].
Definition path_args : Value := json_obj [("path", Str "s.jsonl")].

Lemma tool_load : load tool_storage tool_path = (tool_storage, Ok tool_store).
Proof. reflexivity. Qed.

Lemma tool_session_ok : session_ok tool_storage tool_store.
Proof.
  assert (st_entries tool_store = sample_session) as Hes by (by vm_compute).
  assert (st_next_id tool_store = 5%N) as Hn by (by vm_compute).
  assert (st_path tool_store = tool_path) as Hp by (by vm_compute).
  assert (st_backend tool_store = Jsonl) as Hb by (by vm_compute).
  unfold session_ok. rewrite Hes, Hn, Hp, Hb. split_and!; [apply sample_valid|done|].
  cbn -[lines unlines jsonl_lines parse_session_lines].
  unfold read_session_entries_jsonl, tool_storage, world_with. cbn [w_files set_files].
  rewrite lookup_singleton_eq. apply jsonl_lines_parse.
Qed.

Example branch_runs :
  value_get "branch_head_id" (match (branch_execute (V:=unit) session_text demo_tree demo_tools branch_args tool_sessions).1 with
    Ok r => tr_content r | Err r => tr_content r end) = Some (Num (PosInt 5)).
Proof. by vm_compute. Qed.

Lemma pair_Ok_inj {A E B} (a a' : A) (b b' : B) : (a, @Ok E B b) = (a', Ok b') → a = a' ∧ b = b'.
Proof. by intros [= -> ->]. Qed.

Definition branched := branch_execute (V:=unit) session_text demo_tree demo_tools branch_args tool_sessions.

Lemma branch_extends_conversation_witness :
  ∃ result (store' : SessionStore unit), branched.1 = Ok result ∧
    value_get "branch_head_id" (tr_content result) = Some (json_id (Some 5%N)) ∧
    lineage_messages store' (Some 5%N) =
      Ok [message_user "hi"; message_user "hi"; message_user "hi"; message_user "more"].
Proof.
  destruct branched.1 as [result|e] eqn:Hr; [|vm_compute in Hr; done].
  pose proof (branch_extends_conversation session_text demo_tree demo_tools branch_args tool_sessions
    result branched.2) as Hthm.
  destruct Hthm as (path & prompt & parent & storage & store & q & [= <-] & [= <-] & [= <-] & _ & _ & Hload & _ & Hext).
  { rewrite <- Hr. exact (surjective_pairing branched). }
  change (load (sw_storage tool_sessions) _) with (load (Value:=unit) tool_storage tool_path) in Hload.
  rewrite tool_load in Hload. apply pair_Ok_inj in Hload as [<- <-].
  destruct (Hext [message_user "hi"; message_user "hi"; message_user "hi"] tool_session_ok)
    as (store' & head & new & _ & Hhead & Hlin & _); [by vm_compute|by vm_compute|].
  assert (value_get "branch_head_id" (tr_content result) = Some (json_id (Some 5%N))) as H5.
  { assert (match branched.1 with Ok r => value_get "branch_head_id" (tr_content r) | Err _ => None end =
      Some (json_id (Some 5%N))) as H by (by vm_compute). by rewrite Hr in H. }
  rewrite H5 in Hhead. injection Hhead as <-.
  exact (ex_intro _ result (ex_intro _ store' (conj eq_refl (conj H5 Hlin)))).
Defined.

Definition undone := undo_execute (V:=unit) session_text demo_tree demo_tools path_args tool_sessions.
Definition redone := redo_execute (V:=unit) session_text demo_tree demo_tools path_args undone.2.

